(* ===== verification/_CoqProject ===== *)
-Q . S2P
Prelude.v
StorageError.v
EdgeEncoding.v
EdgeFormat.v
EdgePages.v
EdgeReader.v
EdgeSafety.v
Wal.v
Memtable.v
Bloom.v
EdgeWriter.v
EdgeSealed.v
EdgeImage.v
EdgeWriterInv.v
EdgeOpen.v
EdgeSst.v
Hll.v
Leapfrog.v
PackStream.v
BoltMessage.v
ManifestTypes.v
DescriptorIndex.v
Paths.v
ObjectStore.v
Recovery.v
ManifestProtocol.v
Pins.v
Janitor.v
RestorePoint.v
WriterSession.v
SessionStaging.v
ManifestSafety.v
ManifestLiveness.v
JanitorSafety.v
RestoreSafety.v
SessionSafety.v
KwayMerge.v
EdgeMerge.v
EdgeCompaction.v
Compaction.v
CompactionMerge.v
NodeReads.v
CompactionView.v
CompactionExample.v
Flush.v
EdgeFlush.v
EdgeScan.v
EdgeExample.v
FlushSafety.v
ManifestSystem.v
FlushView.v
Durability.v
ManifestExample.v
SessionExample.v
FlushExample.v
JanitorExample.v
ManifestHazards.v
Float.v
Ast.v
RuntimeValue.v
Exec.v
Scalar.v
Functions.v
Expr.v
ExprFacts.v
ExprLogic.v
ExprTyping.v
Fingerprint.v
Operators.v
OperatorFacts.v
Rewrites.v
JoinRewrite.v
Distinct.v
Sort.v
SortFacts.v
OrderBy.v
Aggregate.v
AggregateFacts.v
QueryExample.v
QueryHazards.v
