(* ===== verification/Prelude.v ===== *)
(** * NamiDB: a verification development of the storage core, the query operators and the wire formats

    NamiDB is a property-graph database whose only durable state is an object-store
    bucket. A namespace is a directory of immutable objects: manifest bodies, a
    create-only family of pointers that publishes them, WAL segments, SSTs, and two
    overwritten objects (the advisory pointer [current.json] and the memtable
    checkpoint). One writer session at a time stages mutations, seals them in a WAL
    segment, and publishes a manifest that references the segment; epochs fence older
    writers; recovery replays the WAL of the current manifest. A sweep reclaims what no
    retained version references, under leases by which readers, backups and the
    restore window hold versions. Flushes move the memtable into SSTs, compaction merges
    them, and a reader takes the newest row of memtable and SSTs. This library models
    that storage core, from the byte formats to the concurrent protocol, edge SSTs,
    flush, compaction, point reads and the sweep; the Bolt wire protocol; and, of
    the query engine, the expression evaluator, the operators on materialised rows, two
    rewrites of the optimizer and the join primitives. Sources are under [src/crates/];
    file names below are relative to [namidb-storage/src/] unless a crate is named.

    ** Files

    - [Prelude]: the [result] monad, machine integers, bytes, the generic lemmas, the
      hint database [namidb] and the tactics [word_lia] and [stable].
    - [StorageError]: [error.rs]. Messages are kept without interpolated values.
    - [EdgeEncoding]: [sst/edges/encoding.rs], varints, offsets, and the two partner
      block encodings with their reader and point lookup.
    - [EdgeFormat]: [sst/edges/format.rs], header, section table, checksums and footer.
      [EdgePages]: [fence_index.rs], [property_pages.rs] and [point_index.rs].
      [EdgeReader]: [reader.rs]. [EdgeWriter]: [writer.rs] and the degree histogram of
      [sst/stats.rs]; a disk spool is the bytes written to it.
    - [EdgeSafety]: the reader on arbitrary bytes. [EdgeSealed]: what [finish] lays out,
      and the property streams. [EdgeImage]: the records grouped by key, and what the
      reader sees of such groups. [EdgeWriterInv]: the invariant of the streaming writer.
      [EdgeOpen]: the finished file passes every check of [open]. [EdgeSst]: the theorems.
    - [EdgeMerge]: the edge merge of [compact.rs] with its cursors, and the property-name
      check of [namidb-core/src/schema.rs]. [EdgeCompaction]: cursors and merge
      against their specification, and the theorems.
    - [EdgeFlush]: the edge part of [flush.rs] and [sst/edges/inverse.rs], from the frozen
      memtable to the forward and inverse SST. [EdgeScan]: scans and counts of an edge
      type in [read.rs], and what flush and compaction leave of them. [EdgeExample]:
      concrete files, a merge, a flush and scans.
    - [Wal]: [wal.rs], the segment format.
    - [Memtable]: [memtable.rs].
    - [Bloom], [Hll]: the sketches of [sst/bloom.rs] and [sst/hll.rs].
    - [Leapfrog]: [exec/leapfrog.rs] of [namidb-query] and the candidate step of the
      multi-way join in [exec/walker.rs]. The class [OrdIterator] is the trait of the
      same name; [OrdIteratorLaws] is its contract.
    - [PackStream]: the codec of [namidb-bolt] ([codec.rs], [value.rs], [error.rs]).
      [BoltMessage]: [handshake.rs], [chunk.rs] and [message.rs] on top of it.
    - [ManifestTypes], [DescriptorIndex]: the label dictionary of
      [namidb-core/src/schema.rs], the data model and the SST index of [manifest.rs].
    - [Paths]: [paths.rs] and [NamespaceId::new]. The class [KeySpace] is what the
      protocol needs of the object keys; [keyspace_of] derives it from the renderers.
    - [ObjectStore]: the store, programs over it, [tokio::join!], sequential runs, and
      weakest preconditions for clients of a shared store.
    - [Recovery]: the requests of [wal.rs], and [recovery.rs], WAL replay and the memtable
      checkpoint.
    - [ManifestProtocol]: [fence.rs] and the operations of [ManifestStore] in [manifest.rs].
    - [Pins]: [pin.rs]. [Janitor]: [janitor.rs]. [RestorePoint]: [restore_point.rs].
      [JanitorSafety], [RestoreSafety]: their theorems.
    - [WriterSession]: the session of [ingest.rs]: staging, [commit_batch] with the
      orphan-WAL retry and the pointer resolver, [open_claiming], [reopen_claiming].
    - [SessionStaging]: theorems on the uncommitted batch.
    - [KwayMerge]: the k-way merge of sorted runs, for any row type. [Compaction]: the
      planner, the node merge and the install of [compact.rs]; the class [Arrow] is what
      it uses of the arrow and parquet crates. [CompactionMerge]: the merge against its
      specification. [NodeReads]: [lookup_node_by_id] of [read.rs]. [CompactionView]:
      readers before and after a compaction.
    - [Flush]: [flush.rs], [spooled_object.rs] and the flush of a session in
      [ingest.rs]. [FlushSafety]: its specification under concurrency. [FlushView]: the
      session's reads before and after.
    - [ManifestSafety], [SessionSafety]: the invariant of the shared store and a
      specification of every operation. [ManifestSystem]: the concurrent system of
      requests and its theorems. [ManifestLiveness]: what an undisturbed client
      achieves. [Durability]: the end-to-end theorem.
    - [ManifestExample], [SessionExample], [JanitorExample], [CompactionExample],
      [FlushExample]: concrete executions that instantiate the hypotheses.
      [ManifestHazards]: executions that go wrong.

    The query files, relative to [namidb-query/src/]:

    - [Float]: IEEE binary64 and binary32 as [SpecFloat].
    - [Ast]: expressions and patterns of [parser/ast.rs]. [RuntimeValue]:
      [exec/value.rs] and [exec/row.rs].
    - [Exec]: errors, guards ([exec/limits.rs], [cancel.rs] of the storage crate) and the
      monad of the evaluator. The class [Host] is what the environment answers.
    - [Scalar], [Functions], [Expr]: [exec/expr.rs], from strings, the operators and
      the scalar functions to [evaluate]. The class [Libs] is what they call elsewhere.
    - [ExprFacts], [ExprLogic], [ExprTyping]: theorems on [evaluate], and
      [expression_aliases] of [optimize/mod.rs].
    - [Fingerprint]: the canonical rendering of values in [exec/walker.rs].
    - [Operators]: filter, projection, DISTINCT, UNION, cross product, hash join,
      semi-join and UNWIND. [OperatorFacts]: what each returns. [Distinct]: DISTINCT and
      the semi-join against their specifications.
    - [Rewrites], [JoinRewrite]: the filter merge of [optimize/normalize.rs] and the
      hash-join conversion of [optimize/join_conversion.rs].
    - [Sort], [SortFacts], [OrderBy]: ORDER BY with SKIP and LIMIT.
      [Aggregate], [AggregateFacts]: grouping and the aggregate functions.
    - [QueryExample]: concrete instances. [QueryHazards]: queries that go wrong.

    ** How code becomes definitions

    A [uN] is a [Z] in range, [usize] has 64 bits, arithmetic wraps or saturates as
    written, 16-byte keys are big-endian integers. A fallible function returns
    [result]. An [async] function over the store is a [prog], a tree of requests and
    continuations; [?] is the bind, [match x.await] is [attempt]. A [&mut self] method
    returns the new state, also on its error paths. Clocks, fresh UUIDs, cancellation
    probes, join schedules and the serialisation of property maps are arguments.

    The evaluator runs in [exec], a computation that may panic ([None]), fail with an
    error value or return, and that counts its readings of the host: the cancel flag, the
    clock, the memory budget, and the order [slice::sort_by] leaves when its comparison
    is no total order. [yields m a] says that [m] returns [a], whatever was read before.

    Third-party code is a parameter with the behaviour its clients rely on: the object
    store ([ObjectStore.reply], [ObjectStore.fault]), [serde_json]
    ([ManifestProtocol.JsonCodec]), [bincode] ([Recovery.Bincode]), path normalisation
    ([Paths.PathLib]), wall-clock types ([Pins.Chrono]), reading one JSON document under
    two types ([RestorePoint.ManifestHeader], [RestorePoint.WindowLease]), the record
    batches of parquet files ([Compaction.Arrow]) and of the legacy property streams
    ([EdgeMerge.ArrowIpc]), zstd (decompressing what was compressed returns it), xxh3,
    blake3 and crc32, the JSON text of property values ([EdgeWriter.PropertyJson],
    [EdgeFlush.EdgePayload]), the builder of the paged exact-edge index
    ([EdgeWriter.EdgePointIndex]), the in-memory
    size of a PackStream value, regular expressions, number and UUID formatting, date
    parsing and the BM25 score ([Scalar.Libs]), and the hash functions, of which only the output range
    is used. The encoders of node SST bodies and sidecars and the search-index preparation,
    which are part of the program, are arguments too ([Flush.SstBuilders], the observer
    of the node merge), as are the routes by which a row leaves an SST
    ([NodeReads.serves]); what the theorems need of them is stated there. The write time and size a listing reports are functions of the key. The
    examples instantiate all of them.

    ** What the theorems show

    - Formats: varints, offsets, partner blocks, WAL segments, sketches, PackStream
      values and the label dictionary round-trip; decoders accept exactly the well-formed inputs and stay in bounds;
      the point lookup in a block agrees with a linear search.
    - Edge SSTs: what the streaming writer accepts and finishes, the reader opens, scans
      and looks up unchanged, with property columns, statistics and Bloom filter; on any
      bytes it accepts the reader does not panic. Flushing the edges of a memtable gives
      a forward and an inverse SST that answer as the memtable did. The edge merge
      ends, rewrites exactly the newest record of every edge, and its output reads back
      as these records. A scan of an edge type returns the newest live version of every
      edge, the same before and after a flush or a compaction, and the count is its length.
    - Sketches: a Bloom probe has no false negatives; merging HyperLogLog sketches is
      the sketch of the union.
    - Bolt: a message crosses encoding, chunking, reassembly and decoding unchanged; the
      decoder stays within its nesting and heap budgets.
    - Joins: the leapfrog intersection and the merged union yield exactly the common
      keys and the keys of either list, in order, and the candidates of a join variable
      are the nodes every constraint reaches.
    - Memtable and index: byte accounting, scans, freeze and restore, and the SST
      candidate index against a linear scan.
    - Paths: keys are ordered as their numbers and parse back.
    - Recovery: replay gives the fold of the log; the checkpoint never changes it.
    - Protocol, for any number of clients, arbitrary interleavings, lost, repeated and
      unanswered requests and stale listings: the pointers form a gap-free chain of
      durable manifests with monotone epochs, a version has one winner, a fenced
      writer publishes nothing, claims get fresh epochs, published versions are
      final, and reads are not stale when no request fails. An undisturbed load
      returns the newest version and an undisturbed claim succeeds in one round.
    - Session: staging, rollback and discard keep the batch consistent; an
      acknowledged commit is published with its WAL segment; a failed one leaves the
      session unchanged or poisoned; and recovery rebuilds what was acknowledged.
    - Flush, under the same concurrency and faults: whatever it returns, every lookup
      through the session answers as before, staged writes included.
    - Compaction: the planner's inputs, the lazily opened merge and the collection of
      tombstones give a run with the newest row of every id; installing it into a
      manifest that has moved on leaves every lookup as it was, or fails.
    - Sweep, run alone on any store: it keeps every object of every version that a
      reader, the current pointer or an unexpired lease needs, reclaims the old objects
      nobody needs, and leaves loading and recovery as they were; a pin protects its
      version within the clock budget; the restore window's floor only moves forward
      and the sweep keeps the window. In a namespace called [pins] it reclaims no
      manifest.
    - Expressions: evaluation panics only on [/] and [%], keeps values well formed and
      reads only the variables [expression_aliases] lists; quantifiers follow
      three-valued logic; [range] and [sum] are exact within 64 bits.
    - Operators: DISTINCT, semi-joins, ORDER BY with SKIP and LIMIT, and aggregation
      against declarative specifications, on a host that does not interrupt; the value
      fingerprints they share are injective up to the equality they implement.
    - Rewrites: the merged filter and the converted hash join return the rows of the
      plan they replace, under the conditions the theorems name; the hazards show that
      the conditions are needed (a division the inner filter guarded, [1 = 1.0]).
    - Hazards: DELETEs of the stall repair and of the commit resolver can remove
      a published version, and a load whose HEAD requests fail can be stale. They show
      that the restrictions of the safety theorems (no effective DELETE, no transient
      failure for freshness) are needed.

    ** Bounds and fuel

    [MAX_PROBE] bounds the forward probe as in the source. [claim_loop] and
    [wal_slot_matches] are unbounded loops in the source; their fuel is a parameter,
    and a run that exhausts it is [OutOfFuel], which the safety theorems cover like a
    client that stopped. The leapfrog and union loops take the total length of their
    lists, the message reader the length of its stream, the exponential probe and the
    bisection of restore points 65 rounds (a 64-bit range halves or doubles at most 64
    times), the PackStream decoder the source's nesting limit, [range] the number of its
    items, the merge sort the lengths of its runs, the node merge the rows of its inputs,
    and the edge merge one turn more than the rows of its sources; each is proved enough.
    The theorems on property columns bound the rows so that the page directory fits
    the reader's 64 MiB, which the writer does not check. The theorems that promise a result (recovery, decoding, staging, the
    sweep) are about total functions or complete runs. LSN theorems assume that the
    64-bit counter does not saturate.

    ** Not modelled

    Node SST bodies (Parquet), the paged reader of edge SSTs and the paged index,
    compaction of search indexes, the requests around an edge rewrite, I/O errors of the local disk, backup,
    reads other than the lookup of a node and the scan and count of an edge type, the caches, the unique and property indexes, the search indexes, the floating-point
    estimate of HyperLogLog, property-value serialisation, schema DDL, the Cypher parser
    and planner, the other optimizer passes, the dispatch over plans with its scans,
    expansions and fast paths, query writes, the graph algorithms, the Bolt session and
    its value mapping, the HTTP, MCP and Python front ends, and the benchmarks. The sweep's
    theorems are about an undisturbed run; its races with writers rest on [min_age] and
    on the holder's re-check, which are not modelled. What is left is
    I/O glue, calls into arrow and parquet, floating-point ranking, or a component of its own
    (parser, planner, Bolt session, backup) that no modelled part depends on. *)
From Stdlib Require Export Sorted.
From coqutil Require Export Byte Word.LittleEndianList.
From stdpp Require Export base gmap list strings numbers sorting.

#[global] Open Scope Z_scope.
#[global] Set Default Goal Selector "!".

(** ** Results

    [std::result::Result<T, E>]; the [?] operator is the monadic bind, written
    with stdpp's [x ← m; k]. *)

Inductive result (E A : Type) : Type :=
| Ok (a : A)
| Err (e : E).
Arguments Ok {E A} a.
Arguments Err {E A} e.

#[global] Instance result_ret E : MRet (result E) := λ A, Ok.
#[global] Instance result_bind E : MBind (result E) := λ A B f m,
  match m with Ok a => f a | Err e => Err e end.
#[global] Instance result_fmap E : FMap (result E) := λ A B f m,
  match m with Ok a => Ok (f a) | Err e => Err e end.

Definition is_ok {E A} (r : result E A) : bool :=
  match r with Ok _ => true | Err _ => false end.

(** [o.ok_or(e)] *)
Definition ok_or {E A} (e : E) (o : option A) : result E A :=
  match o with Some a => Ok a | None => Err e end.

#[global] Instance result_eq_dec `{EqDecision E, EqDecision A} : EqDecision (result E A).
Proof. solve_decision. Defined.

Lemma result_bind_Ok {E A B} (f : A → result E B) m b :
  m ≫= f = Ok b → ∃ a, m = Ok a ∧ f a = Ok b.
Proof. destruct m; simpl; intros; eauto; discriminate. Qed.

Lemma Ok_inj {E A} (x y : A) : Ok (E:=E) x = Ok y → x = y.
Proof. by intros [= ->]. Qed.

Lemma ok_or_Ok {E A} (e : E) (o : option A) a : ok_or e o = Ok a → o = Some a.
Proof. destruct o; simpl; congruence. Qed.

Declare Scope namidb_scope.
Delimit Scope namidb_scope with namidb.
(** An early return: [if !b { return Err(e) }]. *)
Notation "'ensure' b 'else' e ; k" := (if (b : bool) then k else Err e)
  (at level 20, b at level 100, e at level 100, k at level 200, only parsing) : namidb_scope.
#[global] Open Scope namidb_scope.

(** ** Machine integers

    A [uN] is a [Z] in [0, 2^N); [usize] is 64 bits wide. *)

Definition is_uint (w v : Z) : Prop := 0 ≤ v < 2 ^ w.
Abbreviation is_u8 := (is_uint 8).
Abbreviation is_u16 := (is_uint 16).
Abbreviation is_u32 := (is_uint 32).
Abbreviation is_u64 := (is_uint 64).

Definition u16_max : Z := 2 ^ 16 - 1.
Definition u32_max : Z := 2 ^ 32 - 1.
Definition u64_max : Z := 2 ^ 64 - 1.
Definition usize_max : Z := u64_max.

Definition wrapping_add64 (a b : Z) : Z := (a + b) `mod` 2 ^ 64.
Definition wrapping_sub64 (a b : Z) : Z := (a - b) `mod` 2 ^ 64.
Definition saturating_add64 (a b : Z) : Z := Z.min (a + b) u64_max.
Definition saturating_sub64 (a b : Z) : Z := Z.max (a - b) 0.
Definition saturating_mul64 (a b : Z) : Z := Z.min (a * b) u64_max.
Definition checked_add64 (a b : Z) : option Z :=
  if a + b <=? u64_max then Some (a + b) else None.
Definition checked_sub64 (a b : Z) : option Z := if b <=? a then Some (a - b) else None.
Definition checked_mul64 (a b : Z) : option Z :=
  if a * b <=? u64_max then Some (a * b) else None.

Lemma checked_add64_Some a b c : checked_add64 a b = Some c → c = a + b ∧ a + b ≤ u64_max.
Proof. unfold checked_add64. destruct (Z.leb_spec (a + b) u64_max); naive_solver. Qed.
Lemma checked_mul64_Some a b c : checked_mul64 a b = Some c → c = a * b ∧ a * b ≤ u64_max.
Proof. unfold checked_mul64. destruct (Z.leb_spec (a * b) u64_max); naive_solver. Qed.
Lemma checked_add64_le a b : a + b ≤ u64_max → checked_add64 a b = Some (a + b).
Proof. intros. unfold checked_add64. by rewrite (proj2 (Z.leb_le _ _)). Qed.

(** [v as iW]: the two's-complement reading of the low [W] bits. *)
Definition sign_wrap (w v : Z) : Z :=
  let u := v `mod` 2 ^ w in if u <? 2 ^ (w - 1) then u else u - 2 ^ w.
Definition is_sint (w v : Z) : Prop := - 2 ^ (w - 1) ≤ v < 2 ^ (w - 1).

(** Linear arithmetic on machine integers: open the ranges and the saturating
    operations, then [lia]. *)
Ltac word_lia :=
  unfold is_uint, saturating_add64, saturating_sub64, usize_max, u16_max, u32_max, u64_max in *; lia.

(** Facts the components prove once and reuse everywhere, above all that what was
    established about the shared store stays true; [stable] closes such goals. *)
Create HintDb namidb discriminated.
Ltac stable := solve [eauto 6 with namidb].

(** Writing [b] above the low [s] bits of [a]. *)
Lemma lor_shiftl_add a b s : 0 ≤ a < 2 ^ s → 0 ≤ s → Z.lor a (Z.shiftl b s) = a + b * 2 ^ s.
Proof.
  intros Ha Hs. rewrite <- Z.add_nocarry_lor.
  - by rewrite Z.shiftl_mul_pow2.
  - apply Z.bits_inj'. intros i Hi. rewrite Z.land_spec, Z.bits_0.
    destruct (Z.lt_ge_cases i s).
    + rewrite Z.shiftl_spec_low by lia. apply andb_false_r.
    + rewrite <- (Z.mod_small _ _ Ha) at 1. rewrite Z.mod_pow2_bits_high by lia. done.
Qed.

(** ** Bytes

    A [u8] is a [byte]; [b2z] reads it as an integer and [z2b] is [v as u8].
    [v.to_le_bytes()] and [uN::from_le_bytes] are [le_split] and
    [le_combine]; the big-endian variants reverse the list. *)

Abbreviation b2z := byte.unsigned.
Abbreviation z2b := byte.of_Z.

#[global] Instance byte_eq_dec : EqDecision byte := Byte.byte_eq_dec.

Definition be_split (n : nat) (z : Z) : list byte := rev (le_split n z).
Definition be_combine (l : list byte) : Z := le_combine (rev l).

(** The slice [buf[a..b]]; callers check [a ≤ b ≤ len] first. *)
Definition slice {A} (buf : list A) (a b : nat) : list A := take (b - a) (drop a buf).

(** [buf.get(a..b)] *)
Definition get_slice {A} (buf : list A) (a b : nat) : option (list A) :=
  if (a <=? b)%nat && (b <=? length buf)%nat then Some (slice buf a b) else None.

(** [buf.chunks(n)], [n > 0]: the last chunk may be short. [length buf] rounds
    consume the buffer. *)
Fixpoint chunks_loop {A} (fuel n : nat) (buf : list A) : list (list A) :=
  match fuel, buf with
  | S fuel', _ :: _ => take n buf :: chunks_loop fuel' n (drop n buf)
  | _, _ => []
  end.
Definition chunks {A} (n : nat) (buf : list A) : list (list A) := chunks_loop (length buf) n buf.

(** [buf.get_uN_le()]: the value and the rest of the buffer. *)
Definition get_le (n : nat) (cur : list byte) : Z * list byte :=
  (le_combine (take n cur), drop n cur).

(** [buf[i]]; callers check [i < len] first. *)
Definition byte_at (buf : list byte) (i : nat) : byte := default Byte.x00 (buf !! i).

(** [[u8]::cmp]: lexicographic on unsigned bytes. *)
Fixpoint bytes_cmp (a b : list byte) : comparison :=
  match a, b with
  | [], [] => Eq
  | [], _ :: _ => Lt
  | _ :: _, [] => Gt
  | x :: a', y :: b' =>
      match Z.compare (b2z x) (b2z y) with Eq => bytes_cmp a' b' | c => c end
  end.
Definition bytes_lt (a b : list byte) : Prop := bytes_cmp a b = Lt.

(** ** UTF-8 *)

(** [std::str::from_utf8]: the well-formed byte sequences of the Unicode standard. *)
Definition in_range (lo hi : Z) (b : byte) : bool := (lo <=? b2z b) && (b2z b <=? hi).
Definition is_cont : byte → bool := in_range 0x80 0xBF.

Fixpoint utf8_valid (bs : list byte) : bool :=
  match bs with
  | [] => true
  | b0 :: r0 =>
      if in_range 0 0x7F b0 then utf8_valid r0
      else
        match r0 with
        | [] => false
        | b1 :: r1 =>
            if in_range 0xC2 0xDF b0 then is_cont b1 && utf8_valid r1
            else
              match r1 with
              | [] => false
              | b2 :: r2 =>
                  if in_range 0xE0 0xE0 b0 then in_range 0xA0 0xBF b1 && is_cont b2 && utf8_valid r2
                  else if in_range 0xE1 0xEC b0 || in_range 0xEE 0xEF b0
                  then is_cont b1 && is_cont b2 && utf8_valid r2
                  else if in_range 0xED 0xED b0 then in_range 0x80 0x9F b1 && is_cont b2 && utf8_valid r2
                  else
                    match r2 with
                    | [] => false
                    | b3 :: r3 =>
                        if in_range 0xF0 0xF0 b0
                        then in_range 0x90 0xBF b1 && is_cont b2 && is_cont b3 && utf8_valid r3
                        else if in_range 0xF1 0xF3 b0
                        then is_cont b1 && is_cont b2 && is_cont b3 && utf8_valid r3
                        else if in_range 0xF4 0xF4 b0
                        then in_range 0x80 0x8F b1 && is_cont b2 && is_cont b3 && utf8_valid r3
                        else false
                    end
              end
        end
  end.

(** ** Lemmas on bytes *)

Lemma b2z_range b : 0 ≤ b2z b < 256.
Proof. apply byte.unsigned_range. Qed.

Lemma b2z_z2b z : b2z (z2b z) = z `mod` 256.
Proof. apply byte.unsigned_of_Z. Qed.

Lemma b2z_z2b_small z : 0 ≤ z < 256 → b2z (z2b z) = z.
Proof. intros. rewrite b2z_z2b. by apply Z.mod_small. Qed.

Lemma z2b_b2z b : z2b (b2z b) = b.
Proof. apply byte.of_Z_unsigned. Qed.

Lemma le_combine_split_small n v :
  0 ≤ v < 2 ^ (Z.of_nat n * 8) → le_combine (le_split n v) = v.
Proof. intros. rewrite le_combine_split. by apply Z.mod_small. Qed.

Lemma get_le_app n v rest :
  0 ≤ v < 2 ^ (Z.of_nat n * 8) → get_le n (le_split n v ++ rest) = (v, rest).
Proof.
  intros Hv. unfold get_le. rewrite <- (length_le_split n v) at 1 3.
  by rewrite take_app_length, drop_app_length, le_combine_split_small.
Qed.

Lemma get_le_inv n cur v rest :
  get_le n cur = (v, rest) → (n ≤ length cur)%nat →
  cur = le_split n v ++ rest ∧ 0 ≤ v < 2 ^ (Z.of_nat n * 8).
Proof.
  unfold get_le. intros [= <- <-] Hlen.
  assert (Hl : length (take n cur) = n) by (rewrite length_take; lia). split.
  - by rewrite split_le_combine', take_drop.
  - pose proof (le_combine_bound (take n cur)). rewrite Hl in *. by rewrite Z.mul_comm.
Qed.

Lemma length_be_split n v : length (be_split n v) = n.
Proof. unfold be_split. by rewrite length_rev, length_le_split. Qed.

Lemma be_combine_split_small n v :
  0 ≤ v < 2 ^ (Z.of_nat n * 8) → be_combine (be_split n v) = v.
Proof.
  intros. unfold be_combine, be_split. rewrite rev_involutive.
  by apply le_combine_split_small.
Qed.

Lemma be_combine_split n v :
  be_combine (be_split n v) = v `mod` 2 ^ (Z.of_nat n * 8).
Proof. unfold be_combine, be_split. rewrite rev_involutive. apply le_combine_split. Qed.

Lemma be_combine_bound l : 0 ≤ be_combine l < 2 ^ (8 * Z.of_nat (length l)).
Proof. unfold be_combine. pose proof (le_combine_bound (rev l)). by rewrite length_rev in *. Qed.

Lemma be_combine_cons b l :
  be_combine (b :: l) = b2z b * 2 ^ (8 * Z.of_nat (length l)) + be_combine l.
Proof.
  unfold be_combine. simpl. rewrite le_combine_app, le_combine_1, length_rev, Z.lor_comm.
  pose proof (le_combine_bound (rev l)) as Hb. rewrite length_rev in Hb.
  rewrite Z.mul_comm with (n := 8) in Hb.
  replace (8 * Z.of_nat (length l)) with (Z.of_nat (length l) * 8) by lia.
  rewrite Z.lor_comm, lor_shiftl_add by lia. lia.
Qed.

Lemma bytes_cmp_refl a : bytes_cmp a a = Eq.
Proof. induction a as [|x a IH]; simpl; [done|]. by rewrite Z.compare_refl. Qed.

Lemma bytes_cmp_eq a b : bytes_cmp a b = Eq ↔ a = b.
Proof.
  split; [|intros ->; apply bytes_cmp_refl].
  revert b. induction a as [|x a IH]; intros [|y b]; simpl; try done.
  destruct (Z.compare_spec (b2z x) (b2z y)) as [E| |]; try done.
  intros ->%IH. apply byte.unsigned_inj in E. by subst.
Qed.

(** Comparing two equally long byte strings is comparing the big-endian
    integers they spell, so a fixed-width key may be modelled as its integer. *)
Lemma bytes_cmp_be a b :
  length a = length b → bytes_cmp a b = Z.compare (be_combine a) (be_combine b).
Proof.
  revert b. induction a as [|x a IH]; intros [|y b] Hlen; simplify_eq/=; [done|].
  rewrite !be_combine_cons, IH, Hlen by done.
  pose proof (be_combine_bound a) as Ha. pose proof (be_combine_bound b) as Hb.
  rewrite Hlen in Ha.
  set (m := 2 ^ (8 * Z.of_nat (length b))) in *.
  destruct (Z.compare_spec (b2z x) (b2z y)) as [->| |].
  - symmetry. apply Zcompare_plus_compat.
  - symmetry. apply Z.compare_lt_iff. nia.
  - symmetry. apply Z.compare_gt_iff. nia.
Qed.

Lemma bytes_cmp_antisym a b : bytes_cmp b a = CompOpp (bytes_cmp a b).
Proof.
  revert b. induction a as [|x a IH]; intros [|y b]; simpl; try done.
  rewrite (Z.compare_antisym (b2z x) (b2z y)). destruct (b2z x ?= b2z y); simpl; auto.
Qed.

Lemma bytes_lt_trans a b c : bytes_lt a b → bytes_lt b c → bytes_lt a c.
Proof.
  unfold bytes_lt. revert b c. induction a as [|x a IH]; intros [|y b] [|z c]; simpl; try done.
  destruct (Z.compare_spec (b2z x) (b2z y)), (Z.compare_spec (b2z y) (b2z z)),
    (Z.compare_spec (b2z x) (b2z z)); try done; try lia; eauto.
Qed.

#[global] Instance bytes_lt_strict : StrictOrder bytes_lt.
Proof.
  split; [|intros ???; apply bytes_lt_trans].
  intros a. unfold complement, bytes_lt. by rewrite bytes_cmp_refl.
Qed.

Lemma bytes_lt_irrefl a : ¬ bytes_lt a a.
Proof. apply (StrictOrder_Irreflexive a). Qed.

Lemma bytes_cmp_gt a b : bytes_cmp a b = Gt ↔ bytes_lt b a.
Proof. unfold bytes_lt. rewrite (bytes_cmp_antisym a b). by destruct (bytes_cmp a b). Qed.

(** ** Lemmas on lists *)

Lemma slice_app_mid {A} (pre mid post : list A) a b :
  a = length pre → b = (length pre + length mid)%nat → slice (pre ++ mid ++ post) a b = mid.
Proof.
  intros -> ->. unfold slice. rewrite drop_app_length.
  replace (length pre + length mid - length pre)%nat with (length mid) by lia.
  apply take_app_length.
Qed.

Lemma length_slice {A} (l : list A) a b :
  (a ≤ b ≤ length l)%nat → length (slice l a b) = (b - a)%nat.
Proof. intros. unfold slice. rewrite length_take, length_drop. lia. Qed.

(** Reading past a prefix, and reading the first piece of a buffer: with the
    [lengths] database these evaluate every fixed-offset read of an encoded record. *)
Lemma slice_skip {A} (x y : list A) a b :
  (length x ≤ a)%nat → slice (x ++ y) a b = slice y (a - length x) (b - length x).
Proof.
  intros. unfold slice. rewrite drop_app_ge by done. f_equal. lia.
Qed.
Lemma slice_here {A} (x y : list A) a b : a = 0%nat → b = length x → slice (x ++ y) a b = x.
Proof. intros -> ->. unfold slice. simpl. rewrite Nat.sub_0_r. apply take_app_length. Qed.
Lemma slice_whole {A} (x : list A) a b : a = 0%nat → b = length x → slice x a b = x.
Proof. intros -> ->. unfold slice. simpl. rewrite Nat.sub_0_r. by apply take_ge. Qed.
Lemma slice_cursor {A} (l : list A) c i j : slice l (c + i) (c + j) = slice (drop c l) i j.
Proof. unfold slice. rewrite drop_drop. f_equal. lia. Qed.
Lemma byte_at_skip x y i : (length x ≤ i)%nat → byte_at (x ++ y) i = byte_at y (i - length x).
Proof. intros. unfold byte_at. by rewrite lookup_app_r by done. Qed.
Lemma byte_at_here b y i : i = 0%nat → byte_at ([b] ++ y) i = b.
Proof. by intros ->. Qed.
Lemma byte_at_cursor l c i : byte_at l (c + i) = byte_at (drop c l) i.
Proof. unfold byte_at. by rewrite lookup_drop. Qed.
(** The bytes [buf[i..i + n]], read one by one. *)
Lemma bytes_at_slice n l i :
  (i + n ≤ length l)%nat → map (λ j, byte_at l (i + j)) (seq 0 n) = slice l i (i + n).
Proof.
  intros Hl. apply list_eq. intros j. unfold slice.
  destruct (decide (j < n)%nat).
  - rewrite list_lookup_fmap, lookup_seq_lt by done. simpl.
    rewrite lookup_take_lt by lia. rewrite lookup_drop. unfold byte_at.
    destruct (lookup_lt_is_Some_2 l (i + j)) as [b ->]; [lia|done].
  - rewrite !(proj2 (lookup_ge_None _ _)); [done| |];
      rewrite ?length_take, ?length_drop, ?length_fmap, ?length_seq; lia.
Qed.
Lemma get_slice_Some {A} (l : list A) a b :
  (a ≤ b ≤ length l)%nat → get_slice l a b = Some (slice l a b).
Proof.
  intros. unfold get_slice. by rewrite (proj2 (Nat.leb_le _ _)), (proj2 (Nat.leb_le _ _)) by lia.
Qed.
Lemma get_slice_inv {A} (l : list A) a b x :
  get_slice l a b = Some x → x = slice l a b ∧ (a ≤ b ≤ length l)%nat.
Proof.
  unfold get_slice. destruct (Nat.leb_spec a b), (Nat.leb_spec b (length l)); naive_solver.
Qed.

Create Rewrite HintDb lengths.
#[export] Hint Rewrite @length_app @length_cons @length_nil @length_replicate @length_fmap
  @length_take @length_drop length_le_split length_be_split : lengths.
Ltac len := autorewrite with lengths; simpl; lia.
(** Evaluate the fixed-offset reads of a buffer that is a concatenation. *)
Ltac slice_eval :=
  first [ apply slice_here; len | apply slice_whole; len
        | etransitivity; [apply slice_skip; len|slice_eval] ].
Ltac byte_eval :=
  first [ apply byte_at_here; len | etransitivity; [apply byte_at_skip; len|byte_eval] ].
Ltac reads := repeat match goal with
  | |- context [slice (?x ++ ?y) ?a ?b] =>
      let H := fresh in eassert (slice (x ++ y) a b = _) as H by slice_eval; rewrite H; clear H
  | |- context [byte_at (?x ++ ?y) ?a] =>
      let H := fresh in eassert (byte_at (x ++ y) a = _) as H by byte_eval; rewrite H; clear H
  end.

(** [a.div_ceil(b)] *)
Definition div_ceil (a b : Z) : Z := (a + b - 1) / b.

Lemma chunks_loop_concat {A} fuel n (l : list A) :
  (0 < n)%nat → (length l ≤ fuel)%nat → concat (chunks_loop fuel n l) = l.
Proof.
  intros Hn. revert l. induction fuel as [|fuel IH]; intros [|x l] Hl; simpl in *; try done; [lia|].
  rewrite IH by (rewrite length_drop; simpl; lia). apply take_drop.
Qed.
Lemma concat_chunks {A} n (l : list A) : (0 < n)%nat → concat (chunks n l) = l.
Proof. intros. by apply chunks_loop_concat. Qed.

Lemma chunks_loop_length {A} fuel n (l : list A) :
  (0 < n)%nat → (length l ≤ fuel)%nat →
  Z.of_nat (length (chunks_loop fuel n l)) = div_ceil (Z.of_nat (length l)) (Z.of_nat n).
Proof.
  intros Hn. unfold div_ceil. revert l.
  induction fuel as [|fuel IH]; intros [|x l] Hl; simpl in Hl; cbn [chunks_loop length].
  1,3: symmetry; apply Z.div_small; lia.
  1: lia.
  rewrite Nat2Z.inj_succ, IH by (rewrite length_drop; simpl; lia).
  rewrite length_drop. cbn [length].
  destruct (decide (n ≤ S (length l))%nat).
  - replace (Z.of_nat (S (length l)) + Z.of_nat n - 1)
      with (1 * Z.of_nat n + (Z.of_nat (S (length l) - n) + Z.of_nat n - 1)) by lia.
    rewrite Z.div_add_l; lia.
  - replace (S (length l) - n)%nat with 0%nat by lia.
    rewrite Z.div_small by lia. apply Z.div_unique with (Z.of_nat (length l)); lia.
Qed.
Lemma length_chunks {A} n (l : list A) :
  (0 < n)%nat → Z.of_nat (length (chunks n l)) = div_ceil (Z.of_nat (length l)) (Z.of_nat n).
Proof. intros. by apply chunks_loop_length. Qed.

Lemma lookup_app_mid {A} (pre mid post : list A) i :
  (i < length mid)%nat → (pre ++ mid ++ post) !! (length pre + i)%nat = mid !! i.
Proof.
  intros. rewrite lookup_app_r by lia.
  replace (length pre + i - length pre)%nat with i by lia. by apply lookup_app_l.
Qed.

Lemma drop_cons_inv {A} (l : list A) n x l' :
  drop n l = x :: l' → l !! n = Some x ∧ drop (S n) l = l'.
Proof.
  intros H. split.
  - rewrite <- (Nat.add_0_r n), <- lookup_drop, H. done.
  - replace (S n) with (n + 1)%nat by lia. rewrite <- drop_drop, H. done.
Qed.

Lemma drop_app_inv {A} (l l1 l2 : list A) n :
  drop n l = l1 ++ l2 → drop (n + length l1) l = l2.
Proof. intros H. rewrite <- drop_drop, H. apply drop_app_length. Qed.

Lemma filter_ext_in {A} (P Q : A → Prop) `{∀ x, Decision (P x), ∀ x, Decision (Q x)} (l : list A) :
  (∀ x, x ∈ l → P x ↔ Q x) → filter P l = filter Q l.
Proof.
  induction l as [|x l IH]; intros HPQ; [done|]. rewrite !filter_cons.
  rewrite IH by (intros y Hy; apply HPQ; by right).
  assert (P x ↔ Q x) by (apply HPQ; left). repeat case_decide; tauto.
Qed.

Lemma StronglySorted_filter {A} (R : relation A) (P : A → Prop) `{∀ x, Decision (P x)} (l : list A) :
  StronglySorted R l → StronglySorted R (filter P l).
Proof.
  induction 1 as [|x l HS IH HF]; [constructor|]. rewrite filter_cons.
  case_decide; [|done]. constructor; [done|].
  apply Forall_forall. intros y Hy. apply list_elem_of_filter in Hy as [_ Hy].
  rewrite Forall_forall in HF. auto.
Qed.

Lemma StronglySorted_lookup_lt {A} (R : relation A) (l : list A) i j x y :
  StronglySorted R l → l !! i = Some x → l !! j = Some y → (i < j)%nat → R x y.
Proof.
  intros HS. revert i j. induction HS as [|a l HS IH HF]; intros i j Hi Hj Hij; [done|].
  destruct j as [|j]; [lia|]. destruct i as [|i]; simpl in *; simplify_eq.
  - rewrite Forall_lookup in HF. eauto.
  - eapply IH; eauto. lia.
Qed.

Lemma StronglySorted_impl {A} (R S : relation A) (l : list A) :
  (∀ x y, R x y → S x y) → StronglySorted R l → StronglySorted S l.
Proof. intros HRS. induction 1; constructor; [done|]. by eapply Forall_impl; eauto. Qed.

(** A prefix that satisfies [P] followed by a suffix that does not. *)
Lemma take_filter_prefix {A} (P : A → Prop) `{∀ x, Decision (P x)} (l : list A) n :
  (∀ i x, l !! i = Some x → (i < n)%nat → P x) →
  (∀ i x, l !! i = Some x → (n ≤ i)%nat → ¬ P x) →
  take n l = filter P l.
Proof.
  revert n. induction l as [|x l IH]; intros n Hlt Hge; [by destruct n|]. rewrite filter_cons.
  destruct n as [|n].
  - rewrite decide_False by (apply (Hge 0%nat); [done|lia]). simpl. rewrite <- (IH 0%nat); [done| |].
    + intros; lia.
    + intros i y Hi _. apply (Hge (S i)); [done|lia].
  - rewrite decide_True by (apply (Hlt 0%nat); [done|lia]). simpl. f_equal. apply IH.
    + intros i y Hi Hi'. apply (Hlt (S i)); [done|lia].
    + intros i y Hi Hi'. apply (Hge (S i)); [done|lia].
Qed.

Lemma filter_app_perm {A} (P Q : A → Prop) `{∀ x, Decision (P x), ∀ x, Decision (Q x)} (l : list A) :
  filter P l ≡ₚ filter P (filter Q l) ++ filter P (filter (λ x, ¬ Q x) l).
Proof.
  induction l as [|x l IH]; [done|].
  repeat (rewrite !filter_cons; repeat case_decide); simpl; try tauto; rewrite IH; try done.
  by rewrite Permutation_middle.
Qed.

Lemma filter_nil_in {A} (P : A → Prop) `{∀ x, Decision (P x)} (l : list A) :
  (∀ x, x ∈ l → ¬ P x) → filter P l = [].
Proof.
  induction l as [|x l IH]; intros HP; [done|]. rewrite filter_cons, decide_False.
  - apply IH. intros y Hy. apply HP. by right.
  - apply HP. left.
Qed.

Lemma filter_all_in {A} (P : A → Prop) `{∀ x, Decision (P x)} (l : list A) :
  (∀ x, x ∈ l → P x) → filter P l = l.
Proof.
  induction l as [|x l IH]; intros HP; [done|]. rewrite filter_cons, decide_True.
  - f_equal. apply IH. intros y Hy. apply HP. by right.
  - apply HP. left.
Qed.

Lemma forallb_Forall {A} (f : A → bool) (l : list A) :
  forallb f l = true ↔ Forall (λ x, f x = true) l.
Proof.
  induction l as [|x l IH]; simpl; [done|]. by rewrite andb_true_iff, Forall_cons, IH.
Qed.
