(* ===== verification/StorageError.v ===== *)
(** The error type of [namidb-storage] ([error.rs]).

    Every variant of the enum is a constructor. The payloads wrapped from other
    crates ([object_store::Error], [serde_json::Error], ...) are reduced to the
    distinctions the code makes: an object-store error is "not found", "already
    exists" or something else. Formatted messages are kept as their literal
    text, without the interpolated values. *)
From S2P Require Import Prelude.

(** [object_store::Error], as far as the source matches on it. *)
Inductive StoreError :=
| NotFound
| AlreadyExists
| OtherStoreError (detail : string).

Inductive Error :=
| ObjectStore (e : StoreError)
| PathError (detail : string)
| Json (detail : string)
| Io (detail : string)
| ManifestCommitCas (expected found : Z)
| PointerResolveStale
| Precondition (msg : string)
| Timeout
| Cancelled
| CacheCapacity (index_kind path : string) (required_bytes capacity_bytes : Z)
| QueryWorkspaceExceeded (operation : string) (required_bytes capacity_bytes : Z)
| SearchResultLimitExceeded (index_kind : string) (estimated_bytes limit_bytes : Z)
| SearchDocumentLimitExceeded (operation : string) (document_bytes limit_bytes : Z)
| ManifestNotFound (version : Z)
| Fenced (mine current : Z)
| OrphanManifestBody (version : Z)
| Corrupted (path detail : string)
| Invariant (msg : string)
| Core (detail : string).

#[global] Instance StoreError_eq_dec : EqDecision StoreError.
Proof. solve_decision. Defined.
#[global] Instance Error_eq_dec : EqDecision Error.
Proof. solve_decision. Defined.

Abbreviation Result := (result Error).

Definition requires_writer_reopen (e : Error) : bool :=
  match e with Fenced _ _ | ManifestCommitCas _ _ => true | _ => false end.

Definition is_local_persistence (e : Error) : bool :=
  match e with Io _ => true | _ => false end.

(** A computation that may also panic ([None]): an index out of range. *)
Definition outcome (A : Type) : Type := option (Result A).
#[global] Instance outcome_ret : MRet outcome := λ A a, Some (Ok a).
#[global] Instance outcome_bind : MBind outcome := λ A B f m,
  match m with
  | Some (Ok a) => f a
  | Some (Err e) => Some (Err e)
  | None => None
  end.
Definition lift {A} (r : Result A) : outcome A := Some r.
Definition fail {A} (e : Error) : outcome A := Some (Err e).
(** [l[i]] *)
Definition index {A} (l : list A) (i : nat) : outcome A :=
  match l !! i with Some a => Some (Ok a) | None => None end.

Lemma outcome_bind_Ok {A B} (m : outcome A) (f : A → outcome B) b :
  m ≫= f = Some (Ok b) → ∃ a, m = Some (Ok a) ∧ f a = Some (Ok b).
Proof. destruct m as [[a|e]|]; [|done..]. by exists a. Qed.
Lemma lift_Ok {A} (r : Result A) a : lift r = Some (Ok a) → r = Ok a.
Proof. by intros [=]. Qed.
