(* ===== verification/EdgeEncoding.v ===== *)
(** The edge-SST wire encoding ([sst/edges/encoding.rs]): LEB128 varints,
    fixed-width offsets, and the split/dense partner blocks of a CSR row. *)
From S2P Require Import Prelude StorageError.

(** ** Varints *)

(** The [while value >= 0x80] loop. A [u64] leaves it after at most nine
    iterations ([write_varint_loop_step] below is the loop equation). *)
Fixpoint write_varint_loop (fuel : nat) (value : Z) (buf : list byte) (written : nat)
    : list byte * nat :=
  match fuel with
  | S fuel' =>
      if 0x80 <=? value then
        write_varint_loop fuel' (Z.shiftr value 7)
          (buf ++ [z2b (Z.lor (Z.land (b2z (z2b value)) 0x7f) 0x80)]) (written + 1)
      else (buf ++ [z2b value], written + 1)%nat
  | O => (buf ++ [z2b value], written + 1)%nat
  end.

Definition write_varint (value : Z) (buf : list byte) : list byte * nat :=
  write_varint_loop 9 value buf 0.

(** The [loop] of [read_varint] at byte [i]; ten bytes exhaust the shifts
    below 64, so fuel 10 is never the reason it stops. *)
Fixpoint read_varint_loop (fuel : nat) (buf : list byte) (cursor : nat)
    (value shift : Z) (i : nat) : Result (Z * nat) :=
  match fuel with
  | O => Err (Invariant "varint overflows u64")
  | S fuel' =>
      match buf !! (cursor + i)%nat with
      | None => Err (Invariant "varint truncated: read past end of buffer")
      | Some byte =>
          let chunk := Z.land (b2z byte) 0x7f in
          if (shift =? 63) && (1 <? chunk) then
            Err (Invariant "varint overflows u64: top byte sets bits beyond bit 63")
          else
            let value := Z.lor value ((Z.shiftl chunk shift) `mod` 2 ^ 64) in
            let i := S i in
            if Z.land (b2z byte) 0x80 =? 0 then Ok (value, i)
            else
              let shift := shift + 7 in
              if 64 <=? shift then Err (Invariant "varint overflows u64")
              else read_varint_loop fuel' buf cursor value shift i
      end
  end.

Definition read_varint (buf : list byte) (cursor : nat) : Result (Z * nat) :=
  read_varint_loop 10 buf cursor 0 0 0.

Fixpoint varint_len_loop (fuel : nat) (n : nat) (v : Z) : nat :=
  match fuel with
  | S fuel' => if v =? 0 then n else varint_len_loop fuel' (n + 1) (Z.shiftr v 7)
  | O => n
  end.

Definition varint_len (value : Z) : nat := varint_len_loop 10 1 (Z.shiftr value 7).

(** ** Offsets *)

Inductive OffsetWidth := W24 | W32 | W40 | W48.

Definition OffsetWidth_bytes (w : OffsetWidth) : nat :=
  match w with W24 => 3 | W32 => 4 | W40 => 5 | W48 => 6 end.

Definition OffsetWidth_as_bits (w : OffsetWidth) : Z :=
  match w with W24 => 24 | W32 => 32 | W40 => 40 | W48 => 48 end.

Definition OffsetWidth_from_bits (bits : Z) : Result OffsetWidth :=
  if bits =? 24 then Ok W24 else if bits =? 32 then Ok W32
  else if bits =? 40 then Ok W40 else if bits =? 48 then Ok W48
  else Err (Invariant "unsupported offsets_bits; expected one of 24/32/40/48").

(** [None] is the [panic!] of an offset at or above [2^48]. *)
Definition OffsetWidth_for_max (max_value : Z) : option OffsetWidth :=
  if max_value <? Z.shiftl 1 24 then Some W24
  else if max_value <? Z.shiftl 1 32 then Some W32
  else if max_value <? Z.shiftl 1 40 then Some W40
  else if max_value <? Z.shiftl 1 48 then Some W48
  else None.

Definition write_offset (value : Z) (width : OffsetWidth) (buf : list byte) : list byte :=
  let bytes := le_split 8 value in
  buf ++ take (OffsetWidth_bytes width) bytes.

Definition read_offset (buf : list byte) (cursor : nat) (width : OffsetWidth) : Result Z :=
  let need := OffsetWidth_bytes width in
  match checked_add64 (Z.of_nat cursor) (Z.of_nat need) with
  | None => Err (Invariant "offset read end overflows usize")
  | Some _ =>
      let end_ := (cursor + need)%nat in
      if (length buf <? end_)%nat then Err (Invariant "offset read out of bounds")
      else
        let raw := slice buf cursor end_ ++ replicate (8 - need) (z2b 0) in
        Ok (le_combine raw)
  end.

(** ** Partner blocks *)

Definition TAG_SPLIT : Z := 0x01.
Definition TAG_DENSE : Z := 0x10.
Definition DEFAULT_EDGE_DECODE_MAX_BYTES : Z := 64 * 1024 * 1024.

(** [while lo < hi]; the window shrinks every round, so [hi - lo] rounds are
    enough. *)
Fixpoint binary_search_fixed_16_loop (fuel : nat) (buf target : list byte) (lo hi : nat)
    : option nat :=
  match fuel with
  | O => None
  | S fuel' =>
      if (lo <? hi)%nat then
        let mid := (lo + (hi - lo) `div` 2)%nat in
        let probe := slice buf (mid * 16) ((mid + 1) * 16) in
        match bytes_cmp probe target with
        | Lt => binary_search_fixed_16_loop fuel' buf target (mid + 1) hi
        | Gt => binary_search_fixed_16_loop fuel' buf target lo mid
        | Eq => Some mid
        end
      else None
  end.

Definition binary_search_fixed_16 (buf target : list byte) : Result (option nat) :=
  if negb (length buf `mod` 16 =? 0)%nat then
    Err (Invariant "fixed-16 sequence length is not divisible by 16")
  else Ok (binary_search_fixed_16_loop (length buf) buf target 0 (length buf `div` 16)).

(** A partner is a [[u8; 16]]; these are the two [u64] halves. *)
Definition partner_top (p : list byte) : Z := le_combine (take 8 p).
Definition partner_bot (p : list byte) : Z := le_combine (drop 8 p).

Fixpoint split_block_cost_loop (prev_top : Z) (total : nat) (partners : list (list byte)) : nat :=
  match partners with
  | [] => total
  | p :: rest =>
      let top := partner_top p in
      let delta := wrapping_sub64 top prev_top in
      split_block_cost_loop top (total + (varint_len delta + 8)) rest
  end.

Definition split_block_cost (partners : list (list byte)) : nat :=
  match partners with
  | [] => 0
  | p0 :: rest =>
      let top0 := partner_top p0 in
      split_block_cost_loop top0 (varint_len top0 + 8) rest
  end.

Definition dense_block_cost (partners : list (list byte)) : Z :=
  saturating_mul64 (Z.of_nat (length partners)) 16.

Definition pick_block_tag (partners : list (list byte)) (skew_threshold : nat) : Z :=
  let deg := length partners in
  if (skew_threshold <? deg)%nat then TAG_DENSE
  else if dense_block_cost partners <=? Z.of_nat (split_block_cost partners) then TAG_DENSE
  else TAG_SPLIT.

Fixpoint write_split_loop (prev_top : Z) (partners : list (list byte)) (buf : list byte)
    : list byte :=
  match partners with
  | [] => buf
  | p :: rest =>
      let top := partner_top p in
      let bot := partner_bot p in
      let delta := wrapping_sub64 top prev_top in
      let buf := (write_varint delta buf).1 in
      write_split_loop top rest (buf ++ le_split 8 bot)
  end.

Definition write_split_payload (partners : list (list byte)) (buf : list byte) : list byte :=
  match partners with
  | [] => buf
  | p0 :: rest =>
      let top0 := partner_top p0 in
      let bot0 := partner_bot p0 in
      let buf := (write_varint top0 buf).1 in
      write_split_loop top0 rest (buf ++ le_split 8 bot0)
  end.

Fixpoint write_dense_payload (partners : list (list byte)) (buf : list byte) : list byte :=
  match partners with
  | [] => buf
  | p :: rest => write_dense_payload rest (buf ++ p)
  end.

Definition write_partner_block (partners : list (list byte)) (skew_threshold : nat)
    (buf : list byte) : list byte * Z :=
  let tag := pick_block_tag partners skew_threshold in
  let buf := (write_varint (Z.of_nat (length partners)) buf).1 in
  let buf := buf ++ [z2b tag] in
  let buf := if tag =? TAG_SPLIT then write_split_payload partners buf
             else write_dense_payload partners buf in
  (buf, tag).

Definition combine_top_bot (top bot : Z) : list byte := le_split 8 top ++ le_split 8 bot.

(** Advance a cursor with [checked_add]. *)
Definition cursor_add (msg : string) (c n : nat) : Result nat :=
  match checked_add64 (Z.of_nat c) (Z.of_nat n) with
  | Some _ => Ok (c + n)%nat
  | None => Err (Invariant msg)
  end.

(** One (varint, bot64) pair of a split payload at [c]: the value, the bottom
    half and the cursor after them. *)
Definition read_split_entry (buf : list byte) (c : nat) (truncated : string)
    : Result (Z * Z * nat) :=
  '(v, n) ← read_varint buf c;
  c ← cursor_add "split partner cursor overflows usize" c n;
  bot_end ← cursor_add "split partner bot64 end overflows usize" c 8;
  if (length buf <? bot_end)%nat then Err (Invariant truncated)
  else Ok (v, le_combine (slice buf c bot_end), bot_end).

(** The [for _ in 1..deg] loop. *)
Fixpoint read_split_loop (n : nat) (buf : list byte) (c : nat) (prev_top : Z)
    (out : list (list byte)) : Result (list (list byte) * nat) :=
  match n with
  | O => Ok (out, c)
  | S n' =>
      '(delta, bot, c) ← read_split_entry buf c "split block truncated: bot64[j]";
      let top := wrapping_add64 prev_top delta in
      read_split_loop n' buf c top (out ++ [combine_top_bot top bot])
  end.

Definition read_split_payload (buf : list byte) (cursor deg : nat)
    : Result (list (list byte) * nat) :=
  match deg with
  | O => Ok ([], 0%nat)
  | S deg' =>
      '(top, bot, c) ← read_split_entry buf cursor "split block truncated: bot64[0]";
      '(out, c) ← read_split_loop deg' buf c top [combine_top_bot top bot];
      Ok (out, (c - cursor)%nat)
  end.

(** The [for i in 0..deg] loop over 16-byte rows. *)
Fixpoint read_dense_loop (n : nat) (buf : list byte) (off : nat) : list (list byte) :=
  match n with
  | O => []
  | S n' => slice buf off (off + 16) :: read_dense_loop n' buf (off + 16)
  end.

Definition read_dense_payload (buf : list byte) (cursor deg : nat)
    : Result (list (list byte) * nat) :=
  need ← ok_or (Invariant "dense partner block size overflows usize")
           (checked_mul64 (Z.of_nat deg) 16);
  end_ ← ok_or (Invariant "dense partner block end overflows usize")
           (checked_add64 (Z.of_nat cursor) need);
  if Z.of_nat (length buf) <? end_ then Err (Invariant "dense block truncated")
  else Ok (read_dense_loop deg buf cursor, Z.to_nat need).

(** The outcome of [std::env::var] on [NAMIDB_EDGE_DECODE_MAX_BYTES], with the
    value already trimmed and parsed: [None] is a parse error. *)
Inductive EnvVar := EnvNotPresent | EnvNotUnicode | EnvValue (parsed : option Z).

Definition edge_decode_limit_bytes (env : EnvVar) : Result Z :=
  match env with
  | EnvValue None =>
      Err (Invariant "NAMIDB_EDGE_DECODE_MAX_BYTES must be an exact positive byte count")
  | EnvValue (Some value) =>
      if value <? 16 then Err (Invariant "NAMIDB_EDGE_DECODE_MAX_BYTES must be at least 16")
      else Ok value
  | EnvNotPresent => Ok DEFAULT_EDGE_DECODE_MAX_BYTES
  | EnvNotUnicode => Err (Invariant "NAMIDB_EDGE_DECODE_MAX_BYTES is not valid UTF-8")
  end.

Definition validate_partner_block_read_bounds (env : EnvVar) (degree encoded_len : Z)
    : Result unit :=
  decoded_bytes ← ok_or (Invariant "decoded partner block size overflows usize")
                    (checked_mul64 degree 16);
  workspace_limit_bytes ← edge_decode_limit_bytes env;
  if workspace_limit_bytes <? decoded_bytes then
    Err (Invariant "decoded partner block above NAMIDB_EDGE_DECODE_MAX_BYTES")
  else
    maximum_encoded ←
      ok_or (Invariant "maximum partner block wire length overflows u64")
        (match checked_mul64 degree 18 with
         | Some payload => checked_add64 payload 11
         | None => None
         end);
    if maximum_encoded <? encoded_len then
      Err (Corrupted "<edges>" "partner block length exceeds legal maximum")
    else Ok tt.

Definition read_partner_block_impl (buf : list byte) (cursor : nat)
    (expected_degree : option Z) (workspace_limit_bytes : Z)
    : Result (list (list byte) * nat) :=
  let start := cursor in
  '(deg, n) ← read_varint buf cursor;
  c ← cursor_add "partner block cursor overflows usize" cursor n;
  match buf !! c with
  | None => Err (Invariant "partner block truncated: missing tag")
  | Some tag =>
      let c := S c in
      if (match expected_degree with Some expected => negb (deg =? expected) | None => false end)
      then Err (Invariant "partner block degree disagrees with expected ordinal delta")
      else
        decoded_bytes ← ok_or (Invariant "decoded partner block size overflows usize")
                          (checked_mul64 deg 16);
        if workspace_limit_bytes <? decoded_bytes then
          Err (Invariant "decoded partner block above NAMIDB_EDGE_DECODE_MAX_BYTES")
        else
          let have := saturating_sub64 (Z.of_nat (length buf)) (Z.of_nat c) in
          '(partners, c) ←
            (if b2z tag =? TAG_SPLIT then
               minimum ← ok_or (Invariant "split partner minimum size overflows usize")
                           (checked_mul64 deg 9);
               if have <? minimum then
                 Err (Invariant "split block degree requires more payload bytes")
               else
                 '(out, consumed) ← read_split_payload buf c (Z.to_nat deg);
                 Ok (out, (c + consumed)%nat)
             else if b2z tag =? TAG_DENSE then
               if have <? decoded_bytes then Err (Invariant "dense block truncated")
               else
                 '(out, consumed) ← read_dense_payload buf c (Z.to_nat deg);
                 Ok (out, (c + consumed)%nat)
             else Err (Corrupted "<edges>" "unknown partner block tag"));
          Ok (partners, (c - start)%nat)
  end.

Definition read_partner_block (env : EnvVar) (buf : list byte) (cursor : nat)
    : Result (list (list byte) * nat) :=
  limit ← edge_decode_limit_bytes env;
  read_partner_block_impl buf cursor None limit.

Definition read_partner_block_expected (env : EnvVar) (buf : list byte) (cursor : nat)
    (expected_degree : Z) : Result (list (list byte) * nat) :=
  limit ← edge_decode_limit_bytes env;
  read_partner_block_impl buf cursor (Some expected_degree) limit.

(** The [for index in 0..deg] scan of a split block; [n] counts the entries
    that remain. *)
Fixpoint find_split_loop (n index : nat) (buf : list byte) (c : nat) (previous_top : Z)
    (target : list byte) : Result (option nat) :=
  match n with
  | O => Ok None
  | S n' =>
      '(encoded_top, bot, c) ← read_split_entry buf c "split block truncated: bot64[index]";
      let top := if (index =? 0)%nat then encoded_top
                 else wrapping_add64 previous_top encoded_top in
      let current := combine_top_bot top bot in
      match bytes_cmp current target with
      | Lt => find_split_loop n' (S index) buf c top target
      | Eq => Ok (Some index)
      | Gt => Ok None
      end
  end.

Definition find_partner_in_block (buf : list byte) (cursor : nat) (target : list byte)
    : Result (option nat) :=
  '(deg, n) ← read_varint buf cursor;
  let c := (cursor + n)%nat in
  match buf !! c with
  | None => Err (Invariant "partner block truncated: missing tag")
  | Some tag =>
      let c := S c in
      if b2z tag =? TAG_DENSE then
        need ← ok_or (Invariant "dense partner block size overflows usize")
                 (checked_mul64 deg 16);
        end_ ← ok_or (Invariant "dense partner block end overflows usize")
                 (checked_add64 (Z.of_nat c) need);
        if Z.of_nat (length buf) <? end_ then Err (Invariant "dense block truncated")
        else
          let rows := slice buf c (Z.to_nat end_) in
          binary_search_fixed_16 rows target
      else if b2z tag =? TAG_SPLIT then
        find_split_loop (Z.to_nat deg) 0 buf c 0 target
      else Err (Corrupted "<edges>" "unknown partner block tag")
  end.

(** ** Varints: round trip *)

(** The bytes the write loop appends. *)
Fixpoint varint_bytes (fuel : nat) (v : Z) : list byte :=
  match fuel with
  | S fuel' =>
      if 0x80 <=? v then
        z2b (Z.lor (Z.land (b2z (z2b v)) 0x7f) 0x80) :: varint_bytes fuel' (Z.shiftr v 7)
      else [z2b v]
  | O => [z2b v]
  end.
Definition varint (v : Z) : list byte := varint_bytes 9 v.
#[global] Arguments varint : simpl never.
#[global] Arguments write_varint : simpl never.
#[global] Arguments read_varint : simpl never.
#[global] Arguments varint_len : simpl never.

Lemma land_0x7f b : Z.land (b2z b) 0x7f = b2z b `mod` 128.
Proof. by destruct b. Qed.
Lemma land_0x80 b : (Z.land (b2z b) 0x80 =? 0) = (b2z b <? 128).
Proof. by destruct b. Qed.
Lemma cont_byte b : b2z (z2b (Z.lor (Z.land (b2z b) 0x7f) 0x80)) = 128 + b2z b `mod` 128.
Proof. by destruct b. Qed.

Lemma write_varint_loop_app fuel v buf w :
  write_varint_loop fuel v buf w = (buf ++ varint_bytes fuel v, w + length (varint_bytes fuel v))%nat.
Proof.
  revert v buf w. induction fuel as [|fuel IH]; intros v buf w; simpl; [done|].
  destruct (0x80 <=? v); [|done].
  rewrite IH. rewrite <- (assoc_L (++)). simpl. f_equal. lia.
Qed.

Lemma write_varint_app v buf : write_varint v buf = (buf ++ varint v, length (varint v)).
Proof. apply write_varint_loop_app. Qed.

Lemma varint_bytes_len_bounds fuel v : (1 ≤ length (varint_bytes fuel v) ≤ S fuel)%nat.
Proof.
  revert v. induction fuel as [|fuel IH]; intros v; simpl; [lia|].
  destruct (0x80 <=? v); simpl; [|lia]. specialize (IH (Z.shiftr v 7)). lia.
Qed.

Lemma shiftr7_bound v k : 0 ≤ v < 2 ^ (8 + 7 * k) → 0 ≤ k → 0 ≤ Z.shiftr v 7 < 2 ^ (1 + 7 * k).
Proof.
  intros Hv Hk. rewrite Z.shiftr_div_pow2 by lia. change (2 ^ 7) with 128.
  replace (8 + 7 * k) with (7 + (1 + 7 * k)) in Hv by lia.
  rewrite Z.pow_add_r in Hv by lia. change (2 ^ 7) with 128 in Hv.
  split; [apply Z.div_pos; lia|]. apply Z.div_lt_upper_bound; lia.
Qed.

(** Decoding what the encoder wrote, from any point of the loop: [k] more
    continuation bytes are possible, so the shift is [7 * (9 - k)]. *)
Lemma read_varint_loop_spec k fuel v acc buf cursor i post :
  (k ≤ 9)%nat → fuel = S k →
  0 ≤ v < 2 ^ (1 + 7 * Z.of_nat k) →
  0 ≤ acc < 2 ^ (7 * (9 - Z.of_nat k)) →
  drop (cursor + i) buf = varint_bytes k v ++ post →
  read_varint_loop fuel buf cursor acc (7 * (9 - Z.of_nat k)) i
  = Ok (acc + v * 2 ^ (7 * (9 - Z.of_nat k)), (i + length (varint_bytes k v))%nat).
Proof.
  revert fuel v acc i. induction k as [|k IH]; intros [|fuel] v acc i Hk Hf Hv Hacc Hdrop; try done;
    injection Hf as Hf.
  - simpl in Hdrop, Hacc, Hv |- *. apply drop_cons_inv in Hdrop as [-> _].
    rewrite land_0x7f, land_0x80, b2z_z2b_small by lia.
    rewrite !(Z.mod_small v 128) by lia.
    destruct (Z.ltb_spec 1 v); [lia|]. destruct (Z.ltb_spec v 128); [|lia]. simpl.
    rewrite (Z.mod_small (Z.shiftl _ _)) by (rewrite Z.shiftl_mul_pow2; lia).
    rewrite lor_shiftl_add by lia. f_equal. f_equal. lia.
  - set (s := 7 * (9 - Z.of_nat (S k))) in *.
    assert (Hp : 2 ^ s * 2 ^ (1 + 7 * Z.of_nat (S k)) = 2 ^ 64)
      by (rewrite <- Z.pow_add_r by lia; f_equal; lia).
    assert (0 < 2 ^ s) by (apply Z.pow_pos_nonneg; lia).
    simpl in Hdrop. cbn [read_varint_loop varint_bytes].
    destruct (Z.leb_spec 0x80 v) as [Hbig|Hsmall]; apply drop_cons_inv in Hdrop as [-> Hdrop].
    + rewrite land_0x7f, land_0x80, cont_byte, b2z_z2b.
      replace ((128 + (v `mod` 256) `mod` 128) `mod` 128) with (v `mod` 128)
        by (Z.div_mod_to_equations; lia).
      pose proof (Z.mod_pos_bound (v `mod` 256) 128 eq_refl).
      pose proof (Z.mod_pos_bound v 128 eq_refl).
      destruct (Z.eqb_spec s 63); [lia|]. cbn [andb].
      destruct (Z.ltb_spec (128 + (v `mod` 256) `mod` 128) 128); [lia|].
      destruct (Z.leb_spec 64 (s + 7)); [lia|].
      rewrite (Z.mod_small (Z.shiftl _ _)).
      2:{ rewrite Z.shiftl_mul_pow2 by lia.
          assert (2 ^ s * 128 ≤ 2 ^ 64) by (change 128 with (2 ^ 7); rewrite <- Z.pow_add_r by lia;
            apply Z.pow_le_mono_r; lia). nia. }
      rewrite lor_shiftl_add by lia.
      assert (Es : 7 * (9 - Z.of_nat k) = s + 7) by lia.
      assert (Ep : 2 ^ (s + 7) = 2 ^ s * 128) by (rewrite Z.pow_add_r; lia).
      rewrite <- Es, (IH fuel (Z.shiftr v 7)).
      * rewrite Es, Ep, Z.shiftr_div_pow2 by lia. change (2 ^ 7) with 128. cbn [length].
        f_equal. f_equal; [|lia]. pose proof (Z.div_mod v 128 ltac:(lia)). nia.
      * lia.
      * done.
      * apply shiftr7_bound; [|lia]. replace (8 + 7 * Z.of_nat k) with (1 + 7 * Z.of_nat (S k)) by lia. lia.
      * rewrite Es, Ep. nia.
      * replace (cursor + S i)%nat with (S (cursor + i)) by lia. done.
    + rewrite land_0x7f, land_0x80, b2z_z2b_small by lia.
      rewrite !(Z.mod_small v 128) by lia.
      destruct (Z.eqb_spec s 63); [lia|]. cbn [andb].
      destruct (Z.ltb_spec v 128); [|lia].
      rewrite (Z.mod_small (Z.shiftl _ _)).
      2:{ rewrite Z.shiftl_mul_pow2 by lia. nia. }
      rewrite lor_shiftl_add by lia. f_equal. f_equal. cbn [length]. lia.
Qed.

Lemma read_varint_spec buf cursor v post :
  is_u64 v → drop cursor buf = varint v ++ post →
  read_varint buf cursor = Ok (v, length (varint v)).
Proof.
  unfold is_uint. intros Hv Hdrop. unfold read_varint.
  pose proof (read_varint_loop_spec 9 10 v 0 buf cursor 0 post) as H.
  change (7 * (9 - Z.of_nat 9)) with 0 in H. rewrite Nat.add_0_r, Z.mul_1_r in H.
  apply H; try done; lia.
Qed.

Lemma varint_len_loop_spec k fuel n v :
  (k ≤ fuel)%nat → 0 ≤ v < 2 ^ (1 + 7 * Z.of_nat k) →
  varint_len_loop fuel n (Z.shiftr v 7) = (n + length (varint_bytes k v) - 1)%nat.
Proof.
  revert fuel n v. induction k as [|k IH]; intros fuel n v Hk Hv.
  - simpl in Hv. rewrite Z.shiftr_div_pow2, Z.div_small by lia.
    destruct fuel; simpl; lia.
  - destruct fuel as [|fuel]; [lia|]. cbn [varint_len_loop varint_bytes].
    rewrite Z.shiftr_div_pow2 by lia. change (2 ^ 7) with 128.
    destruct (Z.leb_spec 0x80 v).
    + destruct (Z.eqb_spec (v / 128) 0); [Z.div_mod_to_equations; lia|].
      change 128 with (2 ^ 7). rewrite <- Z.shiftr_div_pow2 by lia.
      pose proof (varint_bytes_len_bounds k (Z.shiftr v 7)).
      rewrite IH; [cbn [length]; lia|lia|].
      apply shiftr7_bound; [|lia].
      by replace (8 + 7 * Z.of_nat k) with (1 + 7 * Z.of_nat (S k)) by lia.
    + rewrite Z.div_small by lia. simpl. lia.
Qed.

Lemma varint_len_spec v : is_u64 v → varint_len v = length (varint v).
Proof.
  unfold is_uint. intros Hv. unfold varint_len, varint. rewrite (varint_len_loop_spec 9) by (simpl; lia).
  lia.
Qed.

(** ** Offsets *)

Lemma OffsetWidth_bits_bytes w : OffsetWidth_as_bits w = 8 * Z.of_nat (OffsetWidth_bytes w).
Proof. by destruct w. Qed.

Lemma read_offset_le_combine buf cursor w x post :
  Z.of_nat (length buf) ≤ usize_max →
  length x = OffsetWidth_bytes w → drop cursor buf = x ++ post →
  read_offset buf cursor w = Ok (le_combine x).
Proof.
  intros Hlen Hx Hdrop. unfold read_offset.
  assert (length (drop cursor buf) = length buf - cursor)%nat as Hl by apply length_drop.
  rewrite Hdrop, length_app in Hl.
  assert (0 < OffsetWidth_bytes w)%nat by (destruct w; simpl; lia).
  unfold checked_add64, usize_max in *.
  destruct (Z.leb_spec (Z.of_nat cursor + Z.of_nat (OffsetWidth_bytes w)) u64_max); [|lia].
  destruct (Nat.ltb_spec (length buf) (cursor + OffsetWidth_bytes w)); [lia|].
  f_equal. unfold slice. rewrite Hdrop.
  replace (cursor + OffsetWidth_bytes w - cursor)%nat with (length x) by lia.
  rewrite take_app_length. change (z2b 0) with Byte.x00.
  replace (replicate (8 - OffsetWidth_bytes w) Byte.x00)
    with (List.repeat Byte.x00 (8 - OffsetWidth_bytes w)) by (induction (8 - _)%nat; simpl; congruence).
  apply le_combine_app_0.
Qed.

Lemma le_combine_offset value w :
  0 ≤ value < 2 ^ OffsetWidth_as_bits w →
  le_combine (take (OffsetWidth_bytes w) (le_split 8 value)) = value.
Proof.
  intros Hv. rewrite le_combine_firstn, le_combine_split, OffsetWidth_bits_bytes in *.
  rewrite Z.mod_small; [|split; [apply Z.mod_pos_bound; lia|]].
  - apply Z.mod_small. split; [lia|]. eapply Z.lt_le_trans; [apply Hv|].
    apply Z.pow_le_mono_r; destruct w; simpl; lia.
  - eapply Z.le_lt_trans; [apply Z.mod_le; lia|apply Hv].
Qed.

Lemma write_offset_read buf value w post :
  0 ≤ value < 2 ^ OffsetWidth_as_bits w →
  Z.of_nat (length (write_offset value w buf ++ post)) ≤ usize_max →
  read_offset (write_offset value w buf ++ post) (length buf) w = Ok value.
Proof.
  intros Hv Hlen. unfold write_offset in *.
  rewrite (read_offset_le_combine _ _ w (take (OffsetWidth_bytes w) (le_split 8 value)) post).
  - f_equal. by apply le_combine_offset.
  - done.
  - rewrite length_take, length_le_split. destruct w; simpl; lia.
  - by rewrite <- (assoc_L (++)), drop_app_length.
Qed.

Lemma OffsetWidth_for_max_fits m w :
  0 ≤ m → OffsetWidth_for_max m = Some w → m < 2 ^ OffsetWidth_as_bits w.
Proof.
  intros Hm. unfold OffsetWidth_for_max. rewrite !Z.shiftl_mul_pow2 by lia.
  intros Hw. repeat match goal with
    | H : context [?a <? ?b] |- _ => destruct (Z.ltb_spec a b) end;
  simplify_eq; unfold OffsetWidth_as_bits; lia.
Qed.

(** ** Partner blocks: the bytes a writer appends *)

Fixpoint split_bytes (prev_top : Z) (partners : list (list byte)) : list byte :=
  match partners with
  | [] => []
  | p :: rest =>
      varint (wrapping_sub64 (partner_top p) prev_top) ++ le_split 8 (partner_bot p)
        ++ split_bytes (partner_top p) rest
  end.

Lemma write_split_loop_app prev ps buf : write_split_loop prev ps buf = buf ++ split_bytes prev ps.
Proof.
  revert prev buf. induction ps as [|p ps IH]; intros prev buf; simpl; [by rewrite app_nil_r|].
  rewrite IH, write_varint_app. cbn [fst]. by rewrite <- !(assoc_L (++)).
Qed.

Abbreviation is_partner p := (length p = 16%nat).

Lemma partner_top_u64 p : is_partner p → is_u64 (partner_top p).
Proof.
  intros Hp. unfold is_uint, partner_top. pose proof (le_combine_bound (take 8 p)) as H.
  rewrite length_take in H. by replace (8 `min` length p)%nat with 8%nat in H by lia.
Qed.
Lemma partner_bot_u64 p : is_partner p → is_u64 (partner_bot p).
Proof.
  intros Hp. unfold is_uint, partner_bot. pose proof (le_combine_bound (drop 8 p)) as H.
  rewrite length_drop in H. by replace (length p - 8)%nat with 8%nat in H by lia.
Qed.
Lemma combine_top_bot_partner p :
  is_partner p → combine_top_bot (partner_top p) (partner_bot p) = p.
Proof.
  intros Hp. unfold combine_top_bot, partner_top, partner_bot.
  rewrite !split_le_combine'; [apply take_drop| |];
    rewrite ?length_take, ?length_drop; lia.
Qed.
Lemma wrapping_sub64_u64 a b : is_u64 (wrapping_sub64 a b).
Proof. apply Z.mod_pos_bound. done. Qed.
Lemma wrapping_add_sub64 a b : is_u64 a → wrapping_add64 b (wrapping_sub64 a b) = a.
Proof.
  unfold is_uint, wrapping_add64, wrapping_sub64. intros.
  rewrite Zplus_mod_idemp_r. replace (b + (a - b)) with a by lia. by apply Z.mod_small.
Qed.
Lemma wrapping_sub64_0 a : is_u64 a → wrapping_sub64 a 0 = a.
Proof. unfold wrapping_sub64, is_uint. intros. rewrite Z.sub_0_r. by apply Z.mod_small. Qed.

(** The first partner is stored as the delta from 0, so the head of the split
    payload is the general case. *)
Lemma write_split_payload_app ps buf :
  Forall (λ p, is_partner p) ps → write_split_payload ps buf = buf ++ split_bytes 0 ps.
Proof.
  intros HF. destruct HF as [|p ps Hp HF]; simpl; [by rewrite app_nil_r|].
  rewrite write_split_loop_app, write_varint_app, wrapping_sub64_0 by by apply partner_top_u64.
  cbn [fst]. by rewrite <- !(assoc_L (++)).
Qed.

Lemma write_dense_payload_app ps buf : write_dense_payload ps buf = buf ++ concat ps.
Proof.
  revert buf. induction ps as [|p ps IH]; intros buf; simpl; [by rewrite app_nil_r|].
  by rewrite IH, (assoc_L (++)).
Qed.

Definition partner_block_bytes (ps : list (list byte)) (tag : Z) : list byte :=
  varint (Z.of_nat (length ps)) ++ z2b tag ::
    (if tag =? TAG_SPLIT then split_bytes 0 ps else concat ps).

Lemma write_partner_block_app ps skew buf :
  Forall (λ p, is_partner p) ps →
  write_partner_block ps skew buf
  = (buf ++ partner_block_bytes ps (pick_block_tag ps skew), pick_block_tag ps skew).
Proof.
  intros HF. unfold write_partner_block, partner_block_bytes.
  rewrite write_varint_app. cbn [fst]. f_equal.
  destruct (_ =? _); [rewrite write_split_payload_app by done|rewrite write_dense_payload_app];
    by rewrite <- !(assoc_L (++)).
Qed.

Lemma pick_block_tag_cases ps skew :
  pick_block_tag ps skew = TAG_SPLIT ∨ pick_block_tag ps skew = TAG_DENSE.
Proof. unfold pick_block_tag. repeat case_match; auto. Qed.

(** ** Partner blocks: reading them back *)

Lemma drop_prefix_length {A} (l x post : list A) c :
  drop c l = x ++ post → x ≠ [] → (c + length x + length post)%nat = length l.
Proof.
  intros H Hx. apply (f_equal length) in H. rewrite length_drop, length_app in H.
  destruct x; [done|]. simpl in *. lia.
Qed.

Lemma cursor_add_Ok msg c n : Z.of_nat (c + n) ≤ usize_max → cursor_add msg c n = Ok (c + n)%nat.
Proof.
  intros H. unfold cursor_add, checked_add64, usize_max in *.
  destruct (Z.leb_spec (Z.of_nat c + Z.of_nat n) u64_max); [done|lia].
Qed.

Lemma slice_drop_app {A} (l x post : list A) c e :
  drop c l = x ++ post → e = (c + length x)%nat → slice l c e = x.
Proof.
  intros H ->. unfold slice. rewrite H.
  replace (c + length x - c)%nat with (length x) by lia. apply take_app_length.
Qed.

Lemma length_concat_partners (ps : list (list byte)) :
  Forall (λ p, is_partner p) ps → length (concat ps) = (16 * length ps)%nat.
Proof. induction 1 as [|p ps Hp _ IH]; simpl; rewrite ?length_app; lia. Qed.

Lemma drop_length_le (buf : list byte) c (x post : list byte) :
  drop c buf = x ++ post → (length x + length post + (c `min` length buf) = length buf)%nat.
Proof. intros H%(f_equal length). rewrite length_drop, length_app in H. lia. Qed.

Section ReadBlock.
Context (buf : list byte).
Hypothesis buf_fits : Z.of_nat (length buf) ≤ usize_max.

Lemma read_split_entry_spec c msg v bot post :
  is_u64 v → is_u64 bot → drop c buf = varint v ++ le_split 8 bot ++ post →
  read_split_entry buf c msg = Ok (v, bot, c + length (varint v) + 8)%nat.
Proof.
  intros Hv Hbot Hdrop. unfold read_split_entry.
  rewrite (read_varint_spec _ _ v (le_split 8 bot ++ post)) by done. simpl.
  pose proof (varint_bytes_len_bounds 9 v) as Hl. fold (varint v) in Hl.
  assert (Hlen := drop_prefix_length _ _ _ _ Hdrop ltac:(intros E; rewrite E in Hl; simpl in Hl; lia)).
  rewrite length_app, length_le_split in Hlen.
  rewrite !cursor_add_Ok by lia. simpl. rewrite cursor_add_Ok by lia. simpl.
  destruct (Nat.ltb_spec (length buf) (c + length (varint v) + 8)); [lia|].
  rewrite (slice_drop_app _ (le_split 8 bot) post).
  - rewrite le_combine_split_small; [done|]. apply Hbot.
  - by apply drop_app_inv.
  - by rewrite length_le_split.
Qed.

Lemma read_split_loop_spec ps prev c post out :
  Forall (λ p, is_partner p) ps → is_u64 prev →
  drop c buf = split_bytes prev ps ++ post →
  read_split_loop (length ps) buf c prev out
  = Ok (out ++ ps, c + length (split_bytes prev ps))%nat.
Proof.
  intros HF. revert prev c out. induction HF as [|p ps Hp HF IH]; intros prev c out Hprev Hdrop.
  { simpl. by rewrite app_nil_r, Nat.add_0_r. }
  cbn [split_bytes] in Hdrop. rewrite <- !(assoc_L (++)) in Hdrop. cbn [length read_split_loop].
  rewrite (read_split_entry_spec _ _ _ _ _ (wrapping_sub64_u64 _ _) (partner_bot_u64 _ Hp) Hdrop).
  cbn [mbind result_bind]. rewrite wrapping_add_sub64 by by apply partner_top_u64.
  rewrite combine_top_bot_partner by done.
  apply drop_app_inv in Hdrop. apply drop_app_inv in Hdrop. rewrite length_le_split in Hdrop.
  rewrite IH by (done || by apply partner_top_u64).
  cbn [split_bytes]. rewrite <- (assoc_L (++)), !length_app, length_le_split.
  simpl. do 2 f_equal. lia.
Qed.

Lemma read_split_payload_spec ps c post :
  Forall (λ p, is_partner p) ps →
  drop c buf = split_bytes 0 ps ++ post →
  read_split_payload buf c (length ps) = Ok (ps, length (split_bytes 0 ps)).
Proof.
  intros HF Hdrop. destruct HF as [|p ps Hp HF]; [done|].
  cbn [split_bytes] in Hdrop. rewrite <- !(assoc_L (++)) in Hdrop.
  rewrite wrapping_sub64_0 in Hdrop by by apply partner_top_u64.
  unfold read_split_payload. cbn [length].
  rewrite (read_split_entry_spec _ _ _ _ _ (partner_top_u64 _ Hp) (partner_bot_u64 _ Hp) Hdrop).
  cbn [mbind result_bind]. rewrite combine_top_bot_partner by done.
  apply drop_app_inv in Hdrop. apply drop_app_inv in Hdrop. rewrite length_le_split in Hdrop.
  rewrite (read_split_loop_spec _ _ _ post) by (done || by apply partner_top_u64).
  cbn [mbind result_bind split_bytes]. rewrite wrapping_sub64_0 by by apply partner_top_u64.
  rewrite !length_app, length_le_split. simpl. do 2 f_equal. lia.
Qed.

Lemma read_dense_loop_spec ps c post :
  Forall (λ p, is_partner p) ps → drop c buf = concat ps ++ post →
  read_dense_loop (length ps) buf c = ps.
Proof.
  intros HF. revert c. induction HF as [|p ps Hp HF IH]; intros c Hdrop; [done|].
  simpl in *. rewrite <- (assoc_L (++)) in Hdrop.
  rewrite (slice_drop_app _ p (concat ps ++ post)) by (done || lia).
  f_equal. apply IH. apply drop_app_inv in Hdrop. by rewrite Hp in Hdrop.
Qed.

Lemma read_dense_payload_spec ps c post :
  (c ≤ length buf)%nat →
  Forall (λ p, is_partner p) ps → drop c buf = concat ps ++ post →
  read_dense_payload buf c (length ps) = Ok (ps, length (concat ps)).
Proof.
  intros Hc HF Hdrop. pose proof (drop_length_le _ _ _ _ Hdrop) as Hl.
  rewrite length_concat_partners in Hl |- * by done.
  unfold read_dense_payload, checked_mul64, checked_add64, usize_max in *.
  destruct (Z.leb_spec (Z.of_nat (length ps) * 16) u64_max); [|lia]. simpl.
  destruct (Z.leb_spec (Z.of_nat c + Z.of_nat (length ps) * 16) u64_max); [|lia]. simpl.
  destruct (Z.ltb_spec (Z.of_nat (length buf)) (Z.of_nat c + Z.of_nat (length ps) * 16)); [lia|].
  rewrite (read_dense_loop_spec _ _ post) by done. do 2 f_equal. lia.
Qed.
End ReadBlock.

Lemma varint_length v : (1 ≤ length (varint v) ≤ 10)%nat.
Proof. apply varint_bytes_len_bounds. Qed.

Lemma split_bytes_length prev ps :
  (9 * length ps ≤ length (split_bytes prev ps) ≤ 18 * length ps)%nat.
Proof.
  revert prev. induction ps as [|p ps IH]; intros prev; cbn [split_bytes length]; [lia|].
  rewrite !length_app, length_le_split.
  pose proof (varint_length (wrapping_sub64 (partner_top p) prev)).
  specialize (IH (partner_top p)). lia.
Qed.

Lemma b2z_tag tag : tag = TAG_SPLIT ∨ tag = TAG_DENSE → b2z (z2b tag) = tag.
Proof. by intros [-> | ->]. Qed.

Lemma checked_mul64_le a b m : a * b ≤ m → m ≤ u64_max → checked_mul64 a b = Some (a * b).
Proof. intros. unfold checked_mul64. destruct (Z.leb_spec (a * b) u64_max); [done|lia]. Qed.

(** Reading the degree and the tag of a block that starts at [c]. *)
Lemma read_block_header buf c ps tag post :
  Z.of_nat (length buf) ≤ usize_max → Z.of_nat (length ps) ≤ usize_max →
  drop c buf = partner_block_bytes ps tag ++ post →
  let v := varint (Z.of_nat (length ps)) in
  let c' := S (c + length v) in
  read_varint buf c = Ok (Z.of_nat (length ps), length v) ∧
  buf !! (c + length v)%nat = Some (z2b tag) ∧
  drop c' buf = (if tag =? TAG_SPLIT then split_bytes 0 ps else concat ps) ++ post ∧
  (c' ≤ length buf)%nat.
Proof.
  intros Hfit Hps Hdrop v c'. unfold partner_block_bytes in Hdrop.
  rewrite <- (assoc_L (++)) in Hdrop. fold v in Hdrop.
  pose proof (drop_app_inv _ _ _ _ Hdrop) as Hd.
  simpl in Hd. apply drop_cons_inv in Hd as [Htag Hd].
  split; [|split; [done|split; [done|]]].
  - eapply read_varint_spec; [|done]. word_lia.
  - apply lookup_lt_Some in Htag. subst c'. lia.
Qed.

Lemma read_partner_block_impl_spec buf c ps tag expected limit post :
  Z.of_nat (length buf) ≤ usize_max →
  Forall (λ p, is_partner p) ps →
  tag = TAG_SPLIT ∨ tag = TAG_DENSE →
  expected = None ∨ expected = Some (Z.of_nat (length ps)) →
  Z.of_nat (length ps) * 16 ≤ limit → limit ≤ usize_max →
  drop c buf = partner_block_bytes ps tag ++ post →
  read_partner_block_impl buf c expected limit
  = Ok (ps, length (partner_block_bytes ps tag)).
Proof.
  intros Hfit HF Htag Hexp Hlim Hlimu Hdrop.
  assert (Hpsu : Z.of_nat (length ps) ≤ usize_max) by lia.
  destruct (read_block_header _ _ _ _ _ Hfit Hpsu Hdrop)
    as (Hv & Htg & Hd & Hc').
  set (v := varint (Z.of_nat (length ps))) in *. set (c' := S (c + length v)) in *.
  unfold read_partner_block_impl. rewrite Hv. cbn [mbind result_bind].
  rewrite cursor_add_Ok by (subst c'; lia). cbn [mbind result_bind]. rewrite Htg.
  replace (match expected with Some e => negb (Z.of_nat (length ps) =? e) | None => false end)
    with false by (destruct Hexp as [-> | ->]; [done|by rewrite Z.eqb_refl]).
  rewrite (checked_mul64_le _ 16 limit) by (unfold usize_max in *; lia). cbn [ok_or mbind result_bind].
  destruct (Z.ltb_spec limit (Z.of_nat (length ps) * 16)); [lia|].
  rewrite b2z_tag by done. fold c'. rewrite Nat2Z.id.
  pose proof (drop_length_le _ _ _ _ Hd) as Hl.
  replace (saturating_sub64 (Z.of_nat (length buf)) (Z.of_nat c'))
    with (Z.of_nat (length buf) - Z.of_nat c') by (unfold saturating_sub64; lia).
  unfold partner_block_bytes. fold v. rewrite !length_app. cbn [length].
  destruct Htag as [-> | ->]; cbn [Z.eqb Pos.eqb TAG_SPLIT TAG_DENSE] in *.
  - pose proof (split_bytes_length 0 ps).
    rewrite (checked_mul64_le _ 9 limit) by (unfold usize_max in *; lia). cbn [ok_or mbind result_bind].
    destruct (Z.ltb_spec (Z.of_nat (length buf) - Z.of_nat c') (Z.of_nat (length ps) * 9)); [lia|].
    rewrite (read_split_payload_spec _ Hfit _ _ post) by done. cbn [mbind result_bind].
    do 2 f_equal. subst c'. lia.
  - rewrite (length_concat_partners ps) in Hl by done.
    destruct (Z.ltb_spec (Z.of_nat (length buf) - Z.of_nat c') (Z.of_nat (length ps) * 16)); [lia|].
    rewrite (read_dense_payload_spec _ Hfit _ _ post) by done. cbn [mbind result_bind].
    do 2 f_equal. subst c'. lia.
Qed.

(** ** Searching a block *)

Lemma slice_concat_16 (rows : list (list byte)) i r :
  Forall (λ p, is_partner p) rows → rows !! i = Some r →
  slice (concat rows) (i * 16) ((i + 1) * 16) = r.
Proof.
  intros HF. revert i. induction HF as [|p rows Hp HF IH]; intros i Hi; [done|].
  destruct i as [|i]; simpl in Hi.
  - simplify_eq. unfold slice. simpl. rewrite <- Hp at 1. apply take_app_length.
  - rewrite <- (IH i Hi). unfold slice. simpl concat.
    replace (S i * 16)%nat with (length p + i * 16)%nat by lia.
    rewrite <- drop_drop, drop_app_length. f_equal. lia.
Qed.

Abbreviation sorted_partners := (StronglySorted bytes_lt).

Lemma div2_bounds (lo hi : nat) :
  (lo < hi)%nat → (lo ≤ lo + (hi - lo) `div` 2 < hi)%nat.
Proof. intros. pose proof (Nat.div_lt (hi - lo) 2). lia. Qed.

(** The window of the search always brackets the target. *)
Lemma binary_search_loop_spec rows target fuel lo hi :
  Forall (λ p, is_partner p) rows → sorted_partners rows →
  (hi ≤ length rows)%nat → (hi - lo < fuel)%nat →
  (∀ i r, (i < lo)%nat → rows !! i = Some r → bytes_lt r target) →
  (∀ i r, (hi ≤ i)%nat → rows !! i = Some r → bytes_lt target r) →
  match binary_search_fixed_16_loop fuel (concat rows) target lo hi with
  | Some m => rows !! m = Some target
  | None => target ∉ rows
  end.
Proof.
  intros HF HS. revert lo hi.
  induction fuel as [|fuel IH]; intros lo hi Hhi Hfuel Hlo Hge; [lia|]. cbn [binary_search_fixed_16_loop].
  destruct (Nat.ltb_spec lo hi) as [Hlt|Hle].
  2:{ intros [i Hi]%list_elem_of_lookup.
      destruct (Nat.lt_ge_cases i lo) as [H|H];
        [apply (Hlo _ _ H) in Hi|apply (Hge i) in Hi; [|lia]]; by apply bytes_lt_irrefl in Hi. }
  pose proof (div2_bounds lo hi Hlt) as Hmid.
  set (mid := (lo + (hi - lo) `div` 2)%nat) in *.
  destruct (lookup_lt_is_Some_2 rows mid ltac:(lia)) as [r Hr].
  rewrite (slice_concat_16 _ _ _ HF Hr).
  destruct (bytes_cmp r target) eqn:Hc.
  - apply bytes_cmp_eq in Hc. congruence.
  - apply IH; try done; [lia|]. intros i x Hi Hx.
    destruct (decide (i = mid)) as [->|]; [by simplify_eq|].
    etrans; [eapply (StronglySorted_lookup_lt _ _ i mid); eauto; lia|done].
  - apply bytes_cmp_gt in Hc. apply IH; try done; [lia|lia|]. intros i x Hi Hx.
    destruct (decide (i = mid)) as [->|]; [by simplify_eq|].
    etrans; [done|eapply (StronglySorted_lookup_lt _ _ mid i); eauto; lia].
Qed.

(** The position of [target], as a linear scan finds it. *)
Definition position_of (target : list byte) (ps : list (list byte)) : option nat :=
  fst <$> list_find (eq target) ps.

Lemma position_of_Some target ps i :
  sorted_partners ps → ps !! i = Some target → position_of target ps = Some i.
Proof.
  intros HS Hi. unfold position_of. apply fmap_Some. exists (i, target). split; [|done].
  apply list_find_Some. split_and!; [done..|]. intros j y Hj Hlt ->.
  by apply (bytes_lt_irrefl y), (StronglySorted_lookup_lt _ _ _ _ _ _ HS Hj Hi Hlt).
Qed.

Lemma position_of_None target ps : target ∉ ps → position_of target ps = None.
Proof.
  intros H. unfold position_of. apply fmap_None, list_find_None, Forall_forall.
  intros x Hx ->. by apply H.
Qed.

Lemma binary_search_fixed_16_spec rows target :
  Forall (λ p, is_partner p) rows → sorted_partners rows →
  binary_search_fixed_16 (concat rows) target = Ok (position_of target rows).
Proof.
  intros HF HS. unfold binary_search_fixed_16.
  pose proof (length_concat_partners rows HF) as Hl.
  replace (length (concat rows) `div` 16)%nat with (length rows)
    by (rewrite Hl, Nat.mul_comm, Nat.div_mul; lia).
  replace (length (concat rows) `mod` 16)%nat with 0%nat
    by (rewrite Hl, Nat.mul_comm; symmetry; by apply Nat.Div0.mod_mul).
  cbn [Nat.eqb negb]. f_equal.
  destruct rows as [|r rows]; [done|].
  pose proof (binary_search_loop_spec (r :: rows) target (length (concat (r :: rows))) 0
    (length (r :: rows)) HF HS) as H.
  destruct (binary_search_fixed_16_loop _ _ _ _ _); symmetry.
  - apply position_of_Some; [done|]. apply H; rewrite ?Hl; simpl; try lia.
    intros i x Hi Hx%lookup_lt_Some. simpl in *. lia.
  - apply position_of_None. apply H; rewrite ?Hl; simpl; try lia.
    intros i x Hi Hx%lookup_lt_Some. simpl in *. lia.
Qed.

Lemma position_of_cons target p ps :
  position_of target (p :: ps)
  = if decide (target = p) then Some 0%nat else S <$> position_of target ps.
Proof.
  unfold position_of. cbn [list_find]. case_decide; [done|].
  by destruct (list_find (eq target) ps) as [[]|].
Qed.

Lemma find_split_loop_spec buf ps index c prev target post :
  Z.of_nat (length buf) ≤ usize_max →
  Forall (λ p, is_partner p) ps → sorted_partners ps →
  (index = 0%nat → prev = 0) → is_u64 prev →
  drop c buf = split_bytes prev ps ++ post →
  find_split_loop (length ps) index buf c prev target
  = Ok (Nat.add index <$> position_of target ps).
Proof.
  intros Hfit HF. revert index c prev. induction HF as [|p ps Hp HF IH];
    intros index c prev HS H0 Hprev Hdrop; [done|].
  apply StronglySorted_inv in HS as [HS Hall].
  cbn [split_bytes] in Hdrop. rewrite <- !(assoc_L (++)) in Hdrop. cbn [length find_split_loop].
  rewrite (read_split_entry_spec _ Hfit _ _ _ _ _ (wrapping_sub64_u64 _ _) (partner_bot_u64 _ Hp) Hdrop).
  cbn [mbind result_bind].
  replace (if (index =? 0)%nat then wrapping_sub64 (partner_top p) prev
           else wrapping_add64 prev (wrapping_sub64 (partner_top p) prev)) with (partner_top p).
  2:{ destruct (Nat.eqb_spec index 0).
      - rewrite H0 by done. by rewrite wrapping_sub64_0 by by apply partner_top_u64.
      - by rewrite wrapping_add_sub64 by by apply partner_top_u64. }
  rewrite combine_top_bot_partner by done. rewrite position_of_cons.
  destruct (bytes_cmp p target) eqn:Hc.
  - apply bytes_cmp_eq in Hc as ->. rewrite decide_True by done. simpl. do 2 f_equal. lia.
  - rewrite decide_False by (intros ->; by apply bytes_lt_irrefl in Hc).
    apply drop_app_inv in Hdrop. apply drop_app_inv in Hdrop. rewrite length_le_split in Hdrop.
    rewrite IH by (done || by apply partner_top_u64). f_equal.
    rewrite <- option_fmap_compose. apply option_fmap_ext. intros i. simpl. lia.
  - apply bytes_cmp_gt in Hc.
    rewrite decide_False by (intros ->; by apply bytes_lt_irrefl in Hc).
    rewrite position_of_None; [done|]. intros Hin. rewrite Forall_forall in Hall.
    apply (bytes_lt_irrefl target). by etrans; [|apply Hall].
Qed.

Lemma find_partner_in_block_bytes buf c ps tag target post :
  Z.of_nat (length buf) ≤ usize_max →
  Forall (λ p, is_partner p) ps → sorted_partners ps →
  Z.of_nat (length ps) ≤ usize_max →
  tag = TAG_SPLIT ∨ tag = TAG_DENSE →
  drop c buf = partner_block_bytes ps tag ++ post →
  find_partner_in_block buf c target = Ok (position_of target ps).
Proof.
  intros Hfit HF HS Hps Htag Hdrop.
  destruct (read_block_header _ _ _ _ _ Hfit Hps Hdrop) as (Hv & Htg & Hd & Hc').
  unfold find_partner_in_block. rewrite Hv. cbn [mbind result_bind]. rewrite Htg, b2z_tag by done.
  set (c' := S (c + length (varint (Z.of_nat (length ps))))) in *.
  destruct Htag as [-> | ->]; cbn [Z.eqb Pos.eqb TAG_SPLIT TAG_DENSE] in *.
  - rewrite Nat2Z.id, (find_split_loop_spec _ _ _ _ _ _ post) by done. f_equal.
    destruct (position_of target ps); done.
  - pose proof (drop_length_le _ _ _ _ Hd) as Hl.
    pose proof (length_concat_partners ps HF) as Hlc.
    rewrite (checked_mul64_le _ 16 (Z.of_nat (length buf))) by (unfold usize_max in *; lia).
    cbn [ok_or mbind result_bind]. unfold checked_add64.
    destruct (Z.leb_spec (Z.of_nat c' + Z.of_nat (length ps) * 16) u64_max); [|unfold usize_max in *; lia].
    cbn [ok_or mbind result_bind].
    destruct (Z.ltb_spec (Z.of_nat (length buf)) (Z.of_nat c' + Z.of_nat (length ps) * 16)); [lia|].
    rewrite (slice_drop_app _ (concat ps) post) by (done || lia).
    by apply binary_search_fixed_16_spec.
Qed.

(** ** Cost estimates *)

Lemma split_block_cost_loop_spec prev total ps :
  split_block_cost_loop prev total ps = (total + length (split_bytes prev ps))%nat.
Proof.
  revert prev total. induction ps as [|p ps IH]; intros prev total; cbn [split_block_cost_loop split_bytes].
  { simpl. lia. }
  rewrite IH, varint_len_spec by apply wrapping_sub64_u64.
  rewrite !length_app, length_le_split. lia.
Qed.

Lemma split_block_cost_spec ps :
  Forall (λ p, is_partner p) ps → split_block_cost ps = length (split_bytes 0 ps).
Proof.
  intros HF. destruct HF as [|p ps Hp HF]; [done|]. unfold split_block_cost.
  rewrite split_block_cost_loop_spec. cbn [split_bytes].
  rewrite wrapping_sub64_0, varint_len_spec by by apply partner_top_u64.
  rewrite !length_app, length_le_split. lia.
Qed.

(** ** Properties *)

(** Writing a [u64] as a varint and reading it back at the cursor where it
    was written yields the value and exactly the number of bytes written,
    whatever precedes and follows it; the encoding is 1 to 10 bytes long and
    [varint_len] predicts its length. *)
Theorem varint_roundtrip buf v post :
  is_u64 v →
  let '(out, n) := write_varint v buf in
  read_varint (out ++ post) (length buf) = Ok (v, n) ∧
  length out = (length buf + n)%nat ∧ (1 ≤ n ≤ 10)%nat ∧ varint_len v = n.
Proof.
  intros Hv. rewrite write_varint_app. split_and!.
  - eapply read_varint_spec; [done|]. by rewrite <- (assoc_L (++)), drop_app_length.
  - apply length_app.
  - apply varint_length.
  - apply varint_length.
  - by apply varint_len_spec.
Qed.

Lemma varint_roundtrip_witness :
  let '(out, n) := write_varint (2 ^ 64 - 1) [z2b 7] in
  read_varint (out ++ [z2b 9]) 1 = Ok (2 ^ 64 - 1, n) ∧
  length out = (1 + n)%nat ∧ (1 ≤ n ≤ 10)%nat ∧ varint_len (2 ^ 64 - 1) = n.
Proof. apply (varint_roundtrip [z2b 7] (2 ^ 64 - 1) [z2b 9]). unfold is_uint. lia. Defined.

(** A partner block written for any list of 16-byte ids, whichever of the
    split and dense encodings the selection rule picks, decodes to the same list
    and consumes exactly the block, provided the decoded size is within the
    workspace limit; the degree announced by the directory is accepted. *)
Theorem partner_block_roundtrip ps skew limit buf post :
  Forall (λ p, is_partner p) ps →
  let out := (write_partner_block ps skew buf).1 in
  Z.of_nat (length (out ++ post)) ≤ usize_max →
  Z.of_nat (length ps) * 16 ≤ limit ≤ usize_max →
  read_partner_block_impl (out ++ post) (length buf) None limit
    = Ok (ps, length out - length buf)%nat ∧
  read_partner_block_impl (out ++ post) (length buf) (Some (Z.of_nat (length ps))) limit
    = Ok (ps, length out - length buf)%nat.
Proof.
  intros HF out Hfit [Hlim Hmax]. subst out. rewrite write_partner_block_app in * by done.
  cbn [fst] in *. rewrite <- (assoc_L (++)) in *.
  replace (length (buf ++ _) - length buf)%nat
    with (length (partner_block_bytes ps (pick_block_tag ps skew))) by (rewrite length_app; lia).
  split; (eapply read_partner_block_impl_spec;
    [done|done|apply pick_block_tag_cases|auto|done|done|apply drop_app_length]).
Qed.

Definition example_partners : list (list byte) := map (be_split 16) [5; 5 * 2 ^ 90; 6 * 2 ^ 90].

Lemma partner_block_roundtrip_witness :
  read_partner_block_impl ((write_partner_block example_partners 100 [z2b 1]).1 ++ [z2b 2])
    1 None 48 = Ok (example_partners, 38%nat).
Proof.
  refine (proj1 (partner_block_roundtrip example_partners 100 48 [z2b 1] [z2b 2] _ _ _)).
  - repeat constructor.
  - vm_compute. discriminate.
  - vm_compute. split; discriminate.
Defined.

(** Probing a written block for a target without materialising it (binary
    search in a dense block, early-exit scan in a split block) returns the same
    position as a linear scan of the sorted partner list, and [None] exactly
    when the target is absent. *)
Theorem find_partner_correct ps skew target buf post :
  Forall (λ p, is_partner p) ps → sorted_partners ps →
  let out := (write_partner_block ps skew buf).1 in
  Z.of_nat (length (out ++ post)) ≤ usize_max →
  Z.of_nat (length ps) ≤ usize_max →
  find_partner_in_block (out ++ post) (length buf) target = Ok (position_of target ps).
Proof.
  intros HF HS out Hfit Hps. subst out. rewrite write_partner_block_app in * by done.
  cbn [fst] in *. rewrite <- (assoc_L (++)) in *.
  eapply find_partner_in_block_bytes;
    [done|done|done|done|apply pick_block_tag_cases|apply drop_app_length].
Qed.

Lemma find_partner_correct_witness :
  find_partner_in_block ((write_partner_block example_partners 1 []).1 ++ []) 0
    (be_split 16 (5 * 2 ^ 90)) = Ok (Some 1%nat).
Proof.
  apply (find_partner_correct example_partners 1 (be_split 16 (5 * 2 ^ 90)) [] []).
  - repeat constructor.
  - repeat constructor.
  - vm_compute. discriminate.
  - vm_compute. discriminate.
Defined.

(** the selection rule never emits a block longer than the dense encoding
    of the same partners, the split cost it compares is the exact payload length,
    and the length of every block it emits passes the bound a reader checks before
    issuing the ranged read. *)
Theorem partner_block_bounds ps skew buf env limit :
  Forall (λ p, is_partner p) ps →
  edge_decode_limit_bytes env = Ok limit → Z.of_nat (length ps) * 18 + 11 ≤ u64_max →
  Z.of_nat (length ps) * 16 ≤ limit →
  let n := (length (write_partner_block ps skew buf).1 - length buf)%nat in
  validate_partner_block_read_bounds env (Z.of_nat (length ps)) (Z.of_nat n) = Ok tt ∧
  (n ≤ length (varint (Z.of_nat (length ps))) + 1 + 16 * length ps)%nat ∧
  split_block_cost ps = length (write_split_payload ps []).
Proof.
  intros HF Henv Hmax Hlim n. subst n. rewrite write_partner_block_app by done. cbn [fst].
  rewrite length_app. unfold partner_block_bytes. rewrite length_app. cbn [length].
  set (v := varint _). pose proof (varint_length (Z.of_nat (length ps))) as Hv. fold v in Hv.
  set (pl := if pick_block_tag ps skew =? TAG_SPLIT then split_bytes 0 ps else concat ps).
  assert (Hpl : (length pl ≤ 16 * length ps)%nat).
  { subst pl. pose proof (length_concat_partners ps HF) as Hc.
    destruct (Z.eqb_spec (pick_block_tag ps skew) TAG_SPLIT) as [E|]; [|lia].
    unfold pick_block_tag in E. destruct (_ <? _)%nat; [done|].
    destruct (Z.leb_spec (dense_block_cost ps) (Z.of_nat (split_block_cost ps))) as [|Hlt]; [done|].
    rewrite split_block_cost_spec in Hlt by done. unfold dense_block_cost, saturating_mul64 in Hlt. lia. }
  replace (length buf + (length v + S (length pl)) - length buf)%nat
    with (length v + 1 + length pl)%nat by lia.
  split_and!.
  - unfold validate_partner_block_read_bounds.
    rewrite (checked_mul64_le _ 16 u64_max) by lia. cbn [ok_or mbind result_bind].
    rewrite Henv. cbn [ok_or mbind result_bind].
    destruct (Z.ltb_spec limit (Z.of_nat (length ps) * 16)); [lia|].
    rewrite (checked_mul64_le _ 18 u64_max) by lia. unfold checked_add64.
    destruct (Z.leb_spec (Z.of_nat (length ps) * 18 + 11) u64_max); [|lia].
    cbn [ok_or mbind result_bind].
    destruct (Z.ltb_spec (Z.of_nat (length ps) * 18 + 11) (Z.of_nat (length v + 1 + length pl))); [lia|done].
  - lia.
  - by rewrite write_split_payload_app, split_block_cost_spec.
Qed.

Lemma partner_block_bounds_witness :
  let n := (length (write_partner_block example_partners 100 []).1 - 0)%nat in
  validate_partner_block_read_bounds EnvNotPresent 3 (Z.of_nat n) = Ok tt ∧
  (n ≤ 1 + 1 + 16 * 3)%nat ∧
  split_block_cost example_partners = length (write_split_payload example_partners []).
Proof.
  refine (partner_block_bounds example_partners 100 [] EnvNotPresent
            DEFAULT_EDGE_DECODE_MAX_BYTES _ eq_refl _ _).
  - repeat constructor.
  - vm_compute. discriminate.
  - vm_compute. discriminate.
Defined.

(** an offset section written with the width chosen for its largest value
    reads back every offset up to that maximum. *)
Theorem offset_roundtrip m w value buf post :
  OffsetWidth_for_max m = Some w → 0 ≤ value ≤ m →
  Z.of_nat (length (write_offset value w buf ++ post)) ≤ usize_max →
  read_offset (write_offset value w buf ++ post) (length buf) w = Ok value ∧
  OffsetWidth_from_bits (OffsetWidth_as_bits w) = Ok w.
Proof.
  intros Hw Hv Hfit. split; [|by destruct w].
  apply write_offset_read; [|done].
  pose proof (OffsetWidth_for_max_fits m w ltac:(lia) Hw). lia.
Qed.

Lemma offset_roundtrip_witness :
  read_offset (write_offset 70000 W24 [z2b 1] ++ [z2b 3]) 1 W24 = Ok 70000 ∧
  OffsetWidth_from_bits (OffsetWidth_as_bits W24) = Ok W24.
Proof.
  apply (offset_roundtrip 80000 W24 70000 [z2b 1] [z2b 3] eq_refl).
  - lia.
  - vm_compute. discriminate.
Defined.
