(* ===== verification/EdgeFormat.v ===== *)
(** The wire layout of an edge SST ([sst/edges/format.rs]): the fixed header, the
    section table and footer, the identity binding and the page-checksum directory.

    A file is a [list byte], a section name the bytes of its UTF-8 text, a [u64]
    offset a [Z]; a [usize] cursor into a buffer is a [nat]. [xxh3_64] (crate
    [xxhash_rust]) and [blake3] are parameters. The streaming hasher [Xxh3] is the
    bytes fed to it so far: its digest is [xxh3_64] of their concatenation. *)
From S2P Require Import Prelude StorageError.

Definition corrupted (detail : string) : Error := Corrupted "<edges>" detail.

(** ** Constants *)

Definition HEADER_MAGIC : list byte := String.list_byte_of_string "TGEDGE" ++ [Byte.x00; Byte.x00].
Definition FOOTER_MAGIC : list byte := String.list_byte_of_string "TGEDGE" ++ [Byte.xfe; Byte.xef].
Definition HEADER_LEN : nat := 64.
Definition FORMAT_MAJOR : Z := 1.
Definition FORMAT_MINOR : Z := 2.

Definition FLAG_HAS_PROPERTIES : Z := Z.shiftl 1 0.
Definition FLAG_HAS_TOMBSTONES : Z := Z.shiftl 1 1.
Definition FLAG_SKEW_BUCKETS : Z := Z.shiftl 1 2.
Definition FLAG_INVERSE_PARTNER : Z := Z.shiftl 1 3.
(** [!0u32 << 4] *)
Definition FLAGS_RESERVED_MASK : Z := Z.shiftl u32_max 4 `mod` 2 ^ 32.

Definition SECTION_KEY_IDS : Z := 0x0001.
Definition SECTION_OFFSETS : Z := 0x0002.
Definition SECTION_PARTNERS : Z := 0x0003.
Definition SECTION_PER_EDGE_LSN : Z := 0x0004.
Definition SECTION_PER_EDGE_TOMBSTONES : Z := 0x0005.
Definition SECTION_FENCE_INDEX : Z := 0x0006.
Definition SECTION_EDGE_ORDINALS : Z := 0x0007.
Definition SECTION_PAGE_CHECKSUMS : Z := 0x0008.
Definition SECTION_SST_BINDING : Z := 0x0009.
Definition SECTION_PROPERTY_STREAM : Z := 0x0100.

Definition CODEC_NONE : Z := 0.
Definition CODEC_ZSTD : Z := 1.
Definition CODEC_PROPERTY_PAGED_NONE : Z := 2.
Definition CODEC_PROPERTY_PAGED_ZSTD : Z := 3.
Definition SECTION_ENTRY_FIXED_LEN : nat := 29.
Definition PAGE_CHECKSUM_DIRECTORY_MAGIC : list byte := String.list_byte_of_string "TGEPGC02".
Definition PAGE_CHECKSUM_DIRECTORY_HEADER_LEN : nat := 16.
Definition PAGE_CHECKSUM_SECTION_HEADER_LEN : nat := 20.
Definition EDGE_CHECKSUM_PAGE_BYTES : Z := 64 * 1024.
Definition MIN_EDGE_CHECKSUM_PAGE_BYTES : Z := 4 * 1024.
Definition MAX_EDGE_CHECKSUM_PAGE_BYTES : Z := 1024 * 1024.
Definition MAX_EDGE_PAGE_CHECKSUM_DIRECTORY_BYTES : Z := 64 * 1024 * 1024.
Definition OVERFLOW_JSON_NAME : list byte := String.list_byte_of_string "__overflow_json".
Definition SST_BINDING_MAGIC : list byte := String.list_byte_of_string "TGEBND02".
Definition SST_BINDING_LEN : nat := 40.
(** xxhash(8) + footer_len(4) + magic(8) *)
Definition FOOTER_TRAILER_LEN : nat := 20.

(** [a.checked_add(b).ok_or_else(|| e)] on [usize] cursors. *)
Definition checked_cursor (e : Error) (a b : nat) : Result nat :=
  match checked_add64 (Z.of_nat a) (Z.of_nat b) with
  | Some _ => Ok (a + b)%nat
  | None => Err e
  end.
(** [u32::try_from(v).map_err(|_| e)] *)
Definition try_u32 (e : Error) (v : Z) : Result Z := if v <=? u32_max then Ok v else Err e.

(** ** Header *)

Record EdgeFileHeader := {
  eh_format_major : Z;
  eh_format_minor : Z;
  eh_flags : Z;
  eh_edge_type_id : list byte;
  eh_src_label_id : list byte;
  eh_dst_label_id : list byte;
}.

Definition EdgeFileHeader_encode (h : EdgeFileHeader) (buf : list byte) : list byte :=
  let buf := buf ++ HEADER_MAGIC in
  let buf := buf ++ [z2b (eh_format_major h)] in
  let buf := buf ++ [z2b (eh_format_minor h)] in
  let buf := buf ++ le_split 2 (Z.of_nat HEADER_LEN) in
  let buf := buf ++ le_split 4 (eh_flags h) in
  let buf := buf ++ eh_edge_type_id h in
  let buf := buf ++ eh_src_label_id h in
  buf ++ eh_dst_label_id h.

Definition EdgeFileHeader_decode (buf : list byte) : Result EdgeFileHeader :=
  ensure negb (length buf <? HEADER_LEN)%nat else corrupted "edge SST header truncated";
  ensure bool_decide (slice buf 0 8 = HEADER_MAGIC) else corrupted "edge SST header magic mismatch";
  let format_major := b2z (byte_at buf 8) in
  let format_minor := b2z (byte_at buf 9) in
  ensure format_major =? FORMAT_MAJOR else corrupted "unsupported edge SST format_major";
  ensure format_minor <=? FORMAT_MINOR else corrupted "unsupported edge SST format_minor";
  let header_size := le_combine [byte_at buf 10; byte_at buf 11] in
  ensure header_size =? Z.of_nat HEADER_LEN else corrupted "edge SST header_size != HEADER_LEN";
  let flags := le_combine [byte_at buf 12; byte_at buf 13; byte_at buf 14; byte_at buf 15] in
  ensure Z.land flags FLAGS_RESERVED_MASK =? 0
    else corrupted "edge SST sets unknown reserved flag bits";
  Ok {| eh_format_major := format_major;
        eh_format_minor := format_minor;
        eh_flags := flags;
        eh_edge_type_id := slice buf 16 32;
        eh_src_label_id := slice buf 32 48;
        eh_dst_label_id := slice buf 48 64 |}.

(** ** Section table *)

Record SectionEntry := {
  se_kind : Z;
  se_offset : Z;
  se_length : Z;
  se_codec : Z;
  se_xxhash3_64 : Z;
  se_name : list byte;
}.

Definition SectionEntry_encode (e : SectionEntry) (buf : list byte) : Result (list byte) :=
  ensure (length (se_name e) <=? 255)%nat else Invariant "section name exceeds 255 bytes";
  let buf := buf ++ le_split 2 (se_kind e) in
  let buf := buf ++ le_split 8 (se_offset e) in
  let buf := buf ++ le_split 8 (se_length e) in
  let buf := buf ++ [z2b (se_codec e)] in
  let buf := buf ++ [z2b 0] in
  let buf := buf ++ le_split 8 (se_xxhash3_64 e) in
  let buf := buf ++ [z2b (Z.of_nat (length (se_name e)))] in
  Ok (buf ++ se_name e).

Definition SectionEntry_decode (buf : list byte) (cursor : nat) : Result (SectionEntry * nat) :=
  let need := SECTION_ENTRY_FIXED_LEN in
  fixed_end ← checked_cursor (corrupted "section entry cursor overflows usize") cursor need;
  ensure (fixed_end <=? length buf)%nat else corrupted "section entry header truncated";
  let kind := le_combine [byte_at buf cursor; byte_at buf (cursor + 1)] in
  let offset := le_combine (slice buf (cursor + 2) (cursor + 10)) in
  let length_ := le_combine (slice buf (cursor + 10) (cursor + 18)) in
  let codec := b2z (byte_at buf (cursor + 18)) in
  let xxhash3_64 := le_combine (slice buf (cursor + 20) (cursor + 28)) in
  let name_len := Z.to_nat (b2z (byte_at buf (cursor + 28))) in
  name_start ← checked_cursor (corrupted "section entry name start overflows usize") cursor 29;
  name_end ← checked_cursor (corrupted "section entry name end overflows usize") name_start name_len;
  ensure (name_end <=? length buf)%nat else corrupted "section entry name truncated";
  let name := slice buf name_start name_end in
  ensure utf8_valid name else corrupted "section entry name not utf-8";
  Ok ({| se_kind := kind; se_offset := offset; se_length := length_; se_codec := codec;
         se_xxhash3_64 := xxhash3_64; se_name := name |},
      (name_end - cursor)%nat).

Record EdgeFileFooter := {
  ef_sections : list SectionEntry;
  ef_key_count : Z;
  ef_edge_count : Z;
  ef_offsets_bits : Z;
  ef_min_key_id : list byte;
  ef_max_key_id : list byte;
  ef_min_lsn : Z;
  ef_max_lsn : Z;
  ef_schema_version_min : Z;
  ef_schema_version_max : Z;
}.

Definition EdgeFileFooter_find (f : EdgeFileFooter) (kind : Z) (name : list byte)
    : option SectionEntry :=
  snd <$> list_find (λ e, se_kind e = kind ∧ se_name e = name) (ef_sections f).

Definition EdgeFileFooter_find_kind (f : EdgeFileFooter) (kind : Z) : option SectionEntry :=
  snd <$> list_find (λ e, se_kind e = kind) (ef_sections f).

(** [for entry in &self.sections { entry.encode(buf)?; }] *)
Fixpoint encode_sections (sections : list SectionEntry) (buf : list byte) : Result (list byte) :=
  match sections with
  | [] => Ok buf
  | entry :: rest => buf ← SectionEntry_encode entry buf; encode_sections rest buf
  end.

(** [validate_checksum_page_size]; [is_power_of_two] is one bit set. *)
Definition is_power_of_two (v : Z) : bool := (0 <? v) && (Z.land v (v - 1) =? 0).

Definition validate_checksum_page_size (page_size : Z) : Result unit :=
  ensure negb (negb ((MIN_EDGE_CHECKSUM_PAGE_BYTES <=? page_size)
                     && (page_size <=? MAX_EDGE_CHECKSUM_PAGE_BYTES))
               || negb (is_power_of_two page_size))
    else Invariant "edge checksum page size must be a power of two in range";
  Ok tt.

Definition invariant_as_corrupted (error : Error) : Error :=
  match error with Invariant detail => corrupted detail | other => other end.

Record SectionPageChecksums := {
  pc_offset : Z;
  pc_length : Z;
  pc_checksums : list Z;
}.

Record EdgePageChecksumDirectory := {
  pd_page_size : Z;
  pd_sections : list SectionPageChecksums;
}.

Definition validate_directory_section_shape (section : SectionPageChecksums) (page_size : Z)
    : Result unit :=
  let expected_pages := div_ceil (pc_length section) page_size in
  ensure Z.of_nat (length (pc_checksums section)) =? expected_pages
    else Invariant "section has an unexpected number of page checksums";
  ensure Z.of_nat (length (pc_checksums section)) <=? u32_max
    else Invariant "section page count exceeds u32";
  Ok tt.

(** The length pass of [encode]: 20 bytes per section and 8 per checksum. *)
Fixpoint directory_encoded_len (page_size : Z) (sections : list SectionPageChecksums)
    (encoded_len : Z) : Result Z :=
  match sections with
  | [] => Ok encoded_len
  | section :: rest =>
      _ ← validate_directory_section_shape section page_size;
      encoded_len ← ok_or (Invariant "page checksum directory length overflows usize")
        (len ← checked_add64 encoded_len (Z.of_nat PAGE_CHECKSUM_SECTION_HEADER_LEN);
         hashes ← checked_mul64 (Z.of_nat (length (pc_checksums section))) 8;
         checked_add64 len hashes);
      directory_encoded_len page_size rest encoded_len
  end.

(** The write pass of [encode]. *)
Fixpoint directory_records (sections : list SectionPageChecksums) (out : list byte)
    : Result (list byte) :=
  match sections with
  | [] => Ok out
  | section :: rest =>
      page_count ← try_u32 (Invariant "section page count exceeds u32")
                     (Z.of_nat (length (pc_checksums section)));
      let out := out ++ le_split 8 (pc_offset section) in
      let out := out ++ le_split 8 (pc_length section) in
      let out := out ++ le_split 4 page_count in
      let out := out ++ concat (map (le_split 8) (pc_checksums section)) in
      directory_records rest out
  end.

Definition EdgePageChecksumDirectory_encode (d : EdgePageChecksumDirectory) : Result (list byte) :=
  _ ← validate_checksum_page_size (pd_page_size d);
  section_count ← try_u32 (Invariant "page checksum section count exceeds u32")
                    (Z.of_nat (length (pd_sections d)));
  encoded_len ← directory_encoded_len (pd_page_size d) (pd_sections d)
                  (Z.of_nat PAGE_CHECKSUM_DIRECTORY_HEADER_LEN);
  ensure encoded_len <=? MAX_EDGE_PAGE_CHECKSUM_DIRECTORY_BYTES
    else Invariant "page checksum directory above limit";
  directory_records (pd_sections d)
    (PAGE_CHECKSUM_DIRECTORY_MAGIC ++ le_split 4 (pd_page_size d) ++ le_split 4 section_count).

(** [for raw in hashes.chunks_exact(8)] *)
Fixpoint read_checksums (n : nat) (hashes : list byte) : list Z :=
  match n with
  | O => []
  | S n' => le_combine (take 8 hashes) :: read_checksums n' (drop 8 hashes)
  end.

(** The [for target in targets] loop of [decode]. *)
Fixpoint decode_directory_loop (page_size : Z) (bytes : list byte) (targets : list SectionEntry)
    (cursor : nat) (sections : list SectionPageChecksums)
    : Result (list SectionPageChecksums * nat) :=
  match targets with
  | [] => Ok (sections, cursor)
  | target :: rest =>
      header_end ← checked_cursor (corrupted "page checksum record cursor overflows")
                     cursor PAGE_CHECKSUM_SECTION_HEADER_LEN;
      header ← ok_or (corrupted "page checksum section record truncated")
                 (get_slice bytes cursor header_end);
      let offset := le_combine (slice header 0 8) in
      let length_ := le_combine (slice header 8 16) in
      let page_count := le_combine (slice header 16 20) in
      ensure negb (negb (offset =? se_offset target) || negb (length_ =? se_length target))
        else corrupted "page checksum target does not match footer section";
      let expected_pages := div_ceil length_ page_size in
      ensure page_count =? expected_pages else corrupted "page checksum count for section";
      hash_bytes ← ok_or (corrupted "page checksum byte count overflows usize")
                     (checked_mul64 page_count 8);
      hashes_end ← checked_cursor (corrupted "page checksum record end overflows usize")
                     header_end (Z.to_nat hash_bytes);
      hashes ← ok_or (corrupted "page checksum values truncated")
                 (get_slice bytes header_end hashes_end);
      let checksums := read_checksums (length hashes `div` 8) hashes in
      decode_directory_loop page_size bytes rest hashes_end
        (sections ++ [{| pc_offset := offset; pc_length := length_; pc_checksums := checksums |}])
  end.

Definition EdgePageChecksumDirectory_decode (bytes : list byte) (footer : EdgeFileFooter)
    : Result EdgePageChecksumDirectory :=
  ensure Z.of_nat (length bytes) <=? MAX_EDGE_PAGE_CHECKSUM_DIRECTORY_BYTES
    else corrupted "page checksum directory length exceeds limit";
  ensure negb (length bytes <? PAGE_CHECKSUM_DIRECTORY_HEADER_LEN)%nat
    else corrupted "page checksum directory header truncated";
  ensure bool_decide (slice bytes 0 8 = PAGE_CHECKSUM_DIRECTORY_MAGIC)
    else corrupted "page checksum directory magic mismatch";
  let page_size := le_combine (slice bytes 8 12) in
  _ ← match validate_checksum_page_size page_size with
      | Err e => Err (invariant_as_corrupted e)
      | ok => ok
      end;
  let section_count := le_combine (slice bytes 12 16) in
  let targets := filter (λ entry, se_kind entry ≠ SECTION_PAGE_CHECKSUMS) (ef_sections footer) in
  ensure section_count =? Z.of_nat (length targets)
    else corrupted "page checksum directory covers a different number of sections";
  minimum_len ←
    (records ← ok_or (corrupted "page checksum directory minimum length overflows")
       (checked_mul64 (Z.of_nat (length targets)) (Z.of_nat PAGE_CHECKSUM_SECTION_HEADER_LEN));
     ok_or (corrupted "page checksum directory minimum length overflows")
       (checked_add64 (Z.of_nat PAGE_CHECKSUM_DIRECTORY_HEADER_LEN) records));
  ensure minimum_len <=? Z.of_nat (length bytes)
    else corrupted "page checksum directory cannot contain its declared section records";
  '(sections, cursor) ← decode_directory_loop page_size bytes targets
                          PAGE_CHECKSUM_DIRECTORY_HEADER_LEN [];
  ensure (cursor =? length bytes)%nat else corrupted "page checksum directory has trailing bytes";
  Ok {| pd_page_size := page_size; pd_sections := sections |}.

Definition EdgePageChecksumDirectory_for_section (d : EdgePageChecksumDirectory)
    (entry : SectionEntry) : option SectionPageChecksums :=
  snd <$> list_find (λ s, pc_offset s = se_offset entry ∧ pc_length s = se_length entry)
            (pd_sections d).

(** [encoded_len_from_trailer] *)
Definition EdgeFileFooter_encoded_len_from_trailer (tail : list byte) : Result Z :=
  ensure negb (length tail <? FOOTER_TRAILER_LEN)%nat
    else corrupted "edge SST footer trailer truncated";
  let trailer_start := (length tail - FOOTER_TRAILER_LEN)%nat in
  ensure bool_decide (drop (length tail - 8) tail = FOOTER_MAGIC)
    else corrupted "edge SST footer magic mismatch";
  let footer_len := le_combine (slice tail (trailer_start + 8) (trailer_start + 12)) in
  ensure negb (footer_len <? Z.of_nat FOOTER_TRAILER_LEN)
    else corrupted "footer_len is smaller than trailer length";
  Ok footer_len.

(** The [for _ in 0..section_count] walk of the section table. *)
Fixpoint read_section_table (n : nat) (tail : list byte) (table_cursor table_end : nat)
    (sections : list SectionEntry) : Result (list SectionEntry * nat) :=
  match n with
  | O => Ok (sections, table_cursor)
  | S n' =>
      ensure negb (table_end <=? table_cursor)%nat
        else corrupted "section table ended before declared count";
      '(entry, consumed) ← SectionEntry_decode tail table_cursor;
      read_section_table n' tail (table_cursor + consumed) table_end (sections ++ [entry])
  end.

(** The range pass: ascending offsets, inside the body, no overlap. [prev] is
    [sections[i - 1]]. *)
Fixpoint validate_section_ranges (footer_start : Z) (prev : option SectionEntry) (prev_end : Z)
    (sections : list SectionEntry) : Result unit :=
  match sections with
  | [] => Ok tt
  | entry :: rest =>
      ensure match prev with Some p => negb (se_offset entry <? se_offset p) | None => true end
        else corrupted "section table not sorted by offset";
      end_ ← ok_or (corrupted "section offset+length overflow")
               (checked_add64 (se_offset entry) (se_length entry));
      ensure negb ((se_offset entry <? Z.of_nat HEADER_LEN) || (footer_start <? end_))
        else corrupted "section outside of file body";
      ensure negb (se_offset entry <? prev_end)
        else corrupted "section overlaps a prior section";
      validate_section_ranges footer_start (Some entry) end_ rest
  end.

(** section_count, key_count, edge_count, offsets_bits, min_key_id, max_key_id,
    min_lsn, max_lsn, schema_version_min, schema_version_max *)
Definition FOOTER_TAIL_SIZE : nat := 4 + 8 + 8 + 1 + 16 + 16 + 8 + 8 + 8 + 8.

Section Hashed.
Context (xxh3_64 : list byte → Z) (blake3 : list byte → list byte).

Definition blake3_short (s : list byte) : list byte := take 16 (blake3 s).

Definition EdgeFileHeader_new (edge_type src_label dst_label : list byte) (flags : Z)
    : EdgeFileHeader :=
  {| eh_format_major := FORMAT_MAJOR;
     eh_format_minor := FORMAT_MINOR;
     eh_flags := flags;
     eh_edge_type_id := blake3_short edge_type;
     eh_src_label_id := blake3_short src_label;
     eh_dst_label_id := blake3_short dst_label |}.

(** ** Binding *)

Record EdgeSstBinding := {
  eb_sst_id : list byte;
  eb_header_xxhash3_64 : Z;
  eb_sections_xxhash3_64 : Z;
}.

(** The loop of [for_sections]; [hasher] is what the hasher has been fed. *)
Fixpoint binding_root (sections : list SectionEntry) (hasher : list byte) : Result (list byte) :=
  match sections with
  | [] => Ok hasher
  | section :: rest =>
      if (se_kind section =? SECTION_SST_BINDING) || (se_kind section =? SECTION_PAGE_CHECKSUMS)
      then binding_root rest hasher
      else
        encoded ← SectionEntry_encode section [];
        binding_root rest (hasher ++ encoded)
  end.

Definition EdgeSstBinding_for_sections (sst_id header : list byte) (sections : list SectionEntry)
    : Result EdgeSstBinding :=
  hasher ← binding_root sections [];
  Ok {| eb_sst_id := sst_id;
        eb_header_xxhash3_64 := xxh3_64 header;
        eb_sections_xxhash3_64 := xxh3_64 hasher |}.

Definition EdgeSstBinding_encode (b : EdgeSstBinding) : list byte :=
  SST_BINDING_MAGIC ++ eb_sst_id b ++ le_split 8 (eb_header_xxhash3_64 b)
  ++ le_split 8 (eb_sections_xxhash3_64 b).

Definition EdgeSstBinding_decode (bytes : list byte) : Result EdgeSstBinding :=
  ensure (length bytes =? SST_BINDING_LEN)%nat else corrupted "edge SST binding length";
  ensure bool_decide (slice bytes 0 8 = SST_BINDING_MAGIC)
    else corrupted "edge SST binding magic mismatch";
  Ok {| eb_sst_id := slice bytes 8 24;
        eb_header_xxhash3_64 := le_combine (slice bytes 24 32);
        eb_sections_xxhash3_64 := le_combine (slice bytes 32 40) |}.

Definition EdgeSstBinding_validate (b : EdgeSstBinding) (header : list byte)
    (sections : list SectionEntry) (expected_sst_id : option (list byte)) : Result unit :=
  expected ← EdgeSstBinding_for_sections (eb_sst_id b) header sections;
  ensure eb_header_xxhash3_64 b =? eb_header_xxhash3_64 expected
    else corrupted "edge SST binding header checksum mismatch";
  ensure eb_sections_xxhash3_64 b =? eb_sections_xxhash3_64 expected
    else corrupted "edge SST binding section-root mismatch";
  ensure negb (match expected_sst_id with
               | Some id => bool_decide (id ≠ eb_sst_id b)
               | None => false
               end)
    else corrupted "edge SST binding UUID does not match immutable object path";
  Ok tt.

(** ** Page checksums *)

(** The [for entry in sections] loop of [build]. *)
Fixpoint build_directory_loop (file : list byte) (page_size : Z) (sections : list SectionEntry)
    (directory_bytes : Z) (directory_sections : list SectionPageChecksums)
    : Result (list SectionPageChecksums) :=
  match sections with
  | [] => Ok directory_sections
  | entry :: rest =>
      ensure negb (se_kind entry =? SECTION_PAGE_CHECKSUMS)
        else Invariant "page checksum directory cannot checksum itself";
      end_ ← ok_or (Invariant "section offset+length overflows u64")
               (checked_add64 (se_offset entry) (se_length entry));
      bytes ← ok_or (Invariant "section is outside the encoded edge body")
                (if Z.of_nat (length file) <? end_ then None
                 else get_slice file (Z.to_nat (se_offset entry)) (Z.to_nat end_));
      let page_count := div_ceil (se_length entry) page_size in
      ensure page_count <=? u32_max else Invariant "section page count exceeds u32";
      directory_bytes ← ok_or (Invariant "page checksum directory length overflows usize")
        (len ← checked_add64 directory_bytes (Z.of_nat PAGE_CHECKSUM_SECTION_HEADER_LEN);
         hashes ← checked_mul64 page_count 8;
         checked_add64 len hashes);
      ensure directory_bytes <=? MAX_EDGE_PAGE_CHECKSUM_DIRECTORY_BYTES
        else Invariant "page checksum directory requires too many bytes";
      let checksums := map xxh3_64 (chunks (Z.to_nat page_size) bytes) in
      ensure Z.of_nat (length checksums) =? page_count
        else Invariant "encoded section page count disagrees with section length";
      build_directory_loop file page_size rest directory_bytes
        (directory_sections ++ [{| pc_offset := se_offset entry; pc_length := se_length entry;
                                   pc_checksums := checksums |}])
  end.

Definition EdgePageChecksumDirectory_build (file : list byte) (sections : list SectionEntry)
    (page_size : Z) : Result EdgePageChecksumDirectory :=
  _ ← validate_checksum_page_size page_size;
  ensure Z.of_nat (length sections) <=? u32_max
    else Invariant "page checksum section count exceeds u32";
  directory_sections ← build_directory_loop file page_size sections
                         (Z.of_nat PAGE_CHECKSUM_DIRECTORY_HEADER_LEN) [];
  Ok {| pd_page_size := page_size; pd_sections := directory_sections |}.

(** ** Footer *)

(** The body and trailer are appended to [buf]; [footer_len] counts both. *)
Definition EdgeFileFooter_encode (f : EdgeFileFooter) (buf : list byte)
    : Result (list byte * nat) :=
  section_count ← try_u32 (Invariant "edge footer section count exceeds u32")
                    (Z.of_nat (length (ef_sections f)));
  let start := length buf in
  buf ← encode_sections (ef_sections f) buf;
  let buf := buf ++ le_split 4 section_count in
  let buf := buf ++ le_split 8 (ef_key_count f) in
  let buf := buf ++ le_split 8 (ef_edge_count f) in
  let buf := buf ++ [z2b (ef_offsets_bits f)] in
  let buf := buf ++ ef_min_key_id f in
  let buf := buf ++ ef_max_key_id f in
  let buf := buf ++ le_split 8 (ef_min_lsn f) in
  let buf := buf ++ le_split 8 (ef_max_lsn f) in
  let buf := buf ++ le_split 8 (ef_schema_version_min f) in
  let buf := buf ++ le_split 8 (ef_schema_version_max f) in
  let body_end := length buf in
  let body_hash := xxh3_64 (slice buf start body_end) in
  let buf := buf ++ le_split 8 body_hash in
  let total := (length buf + 4 + length FOOTER_MAGIC - start)%nat in
  total_u32 ← try_u32 (Invariant "encoded edge footer length exceeds u32") (Z.of_nat total);
  (* the placeholder of [footer_len] is patched before anyone reads it *)
  Ok (buf ++ le_split 4 total_u32 ++ FOOTER_MAGIC, total).

Definition EdgeFileFooter_decode_from_tail (file_size : Z) (tail : list byte)
    : Result (EdgeFileFooter * Z) :=
  footer_len ← EdgeFileFooter_encoded_len_from_trailer tail;
  ensure footer_len =? Z.of_nat (length tail)
    else corrupted "footer suffix length does not match encoded footer_len";
  footer_start ← ok_or (corrupted "footer_len exceeds file size")
                   (checked_sub64 file_size footer_len);
  ensure negb (footer_start <? Z.of_nat HEADER_LEN)
    else corrupted "footer starts before the edge header";
  let trailer_start := (length tail - FOOTER_TRAILER_LEN)%nat in
  let body_end := trailer_start in
  let body_hash_stored := le_combine (slice tail trailer_start (trailer_start + 8)) in
  let body_hash_computed := xxh3_64 (take body_end tail) in
  ensure body_hash_stored =? body_hash_computed else corrupted "edge SST footer xxhash mismatch";
  let tail_size := FOOTER_TAIL_SIZE in
  ensure negb (body_end <? tail_size)%nat
    else corrupted "footer body too small to contain the fixed tail";
  let tail_start := (body_end - tail_size)%nat in
  let section_count := le_combine (slice tail tail_start (tail_start + 4)) in
  let cursor := (tail_start + 4)%nat in
  let key_count := le_combine (slice tail cursor (cursor + 8)) in
  let cursor := (cursor + 8)%nat in
  let edge_count := le_combine (slice tail cursor (cursor + 8)) in
  let cursor := (cursor + 8)%nat in
  let offsets_bits := b2z (byte_at tail cursor) in
  let cursor := (cursor + 1)%nat in
  let min_key_id := slice tail cursor (cursor + 16) in
  let cursor := (cursor + 16)%nat in
  let max_key_id := slice tail cursor (cursor + 16) in
  let cursor := (cursor + 16)%nat in
  let min_lsn := le_combine (slice tail cursor (cursor + 8)) in
  let cursor := (cursor + 8)%nat in
  let max_lsn := le_combine (slice tail cursor (cursor + 8)) in
  let cursor := (cursor + 8)%nat in
  let schema_version_min := le_combine (slice tail cursor (cursor + 8)) in
  let cursor := (cursor + 8)%nat in
  let schema_version_max := le_combine (slice tail cursor (cursor + 8)) in
  let table_end := tail_start in
  ensure section_count <=? Z.of_nat (table_end `div` SECTION_ENTRY_FIXED_LEN)
    else corrupted "section_count cannot fit in footer table";
  '(sections, table_cursor) ← read_section_table (Z.to_nat section_count) tail 0 table_end [];
  ensure (table_cursor =? table_end)%nat else corrupted "section table ended early or late";
  _ ← validate_section_ranges footer_start None (Z.of_nat HEADER_LEN) sections;
  Ok ({| ef_sections := sections;
         ef_key_count := key_count;
         ef_edge_count := edge_count;
         ef_offsets_bits := offsets_bits;
         ef_min_key_id := min_key_id;
         ef_max_key_id := max_key_id;
         ef_min_lsn := min_lsn;
         ef_max_lsn := max_lsn;
         ef_schema_version_min := schema_version_min;
         ef_schema_version_max := schema_version_max |}, footer_start).

Definition EdgeFileFooter_decode (body : list byte) : Result (EdgeFileFooter * nat) :=
  let file_len := length body in
  footer_len ← EdgeFileFooter_encoded_len_from_trailer body;
  ensure footer_len <=? Z.of_nat file_len else corrupted "footer_len exceeds file size";
  let footer_start := (file_len - Z.to_nat footer_len)%nat in
  let footer_bytes := drop footer_start body in
  '(footer, _) ← EdgeFileFooter_decode_from_tail (Z.of_nat file_len) footer_bytes;
  Ok (footer, footer_start).

(** ** Round trips *)

Hypothesis xxh3_64_u64 : ∀ bs, is_u64 (xxh3_64 bs).
Hypothesis blake3_length : ∀ bs, length (blake3 bs) = 32%nat.

Definition header_ok (h : EdgeFileHeader) : Prop :=
  eh_format_major h = FORMAT_MAJOR ∧ 0 ≤ eh_format_minor h ≤ FORMAT_MINOR
  ∧ is_u32 (eh_flags h) ∧ Z.land (eh_flags h) FLAGS_RESERVED_MASK = 0
  ∧ length (eh_edge_type_id h) = 16%nat ∧ length (eh_src_label_id h) = 16%nat
  ∧ length (eh_dst_label_id h) = 16%nat.

Lemma header_encode_app h buf :
  EdgeFileHeader_encode h buf = buf ++ EdgeFileHeader_encode h [].
Proof. unfold EdgeFileHeader_encode. by rewrite <- !(assoc_L (++)). Qed.

Lemma le_bytes_at n l i v :
  slice l i (i + n) = le_split n v → (i + n ≤ length l)%nat →
  0 ≤ v < 2 ^ (Z.of_nat n * 8) →
  le_combine (map (λ j, byte_at l (i + j)) (seq 0 n)) = v.
Proof. intros Hs Hl Hv. by rewrite bytes_at_slice, Hs, le_combine_split_small. Qed.

Lemma header_decode_encode h post :
  header_ok h → EdgeFileHeader_decode (EdgeFileHeader_encode h [] ++ post) = Ok h.
Proof.
  intros (Hmaj & Hmin & Hf & Hres & H1 & H2 & H3). unfold EdgeFileHeader_encode.
  rewrite <- !(assoc_L (++)), (left_id_L [] (++)). unfold EdgeFileHeader_decode.
  set (buf := HEADER_MAGIC ++ _). unfold HEADER_LEN.
  assert (length buf = 64 + length post)%nat as Hl by (unfold buf; rewrite !length_app, H1, H2, H3; done).
  rewrite (proj2 (Nat.ltb_ge _ _)) by lia. cbn [negb].
  assert (le_combine [byte_at buf 10; byte_at buf 11] = 64) as Hsz.
  { apply (le_bytes_at 2 buf 10 64); [|lia|lia]. unfold buf. reads. done. }
  assert (le_combine [byte_at buf 12; byte_at buf 13; byte_at buf 14; byte_at buf 15] = eh_flags h) as Hfl.
  { apply (le_bytes_at 4 buf 12 (eh_flags h)); [|lia|done]. unfold buf. reads. done. }
  rewrite Hsz, Hfl, Hres. unfold buf. reads.
  rewrite bool_decide_true by done.
  rewrite !b2z_z2b_small by (unfold FORMAT_MAJOR, FORMAT_MINOR in *; lia).
  rewrite Hmaj. cbn. rewrite (proj2 (Z.leb_le _ _)) by lia. clear buf Hl Hsz Hfl. destruct h; simpl in *; by subst.
Qed.

Definition section_ok (e : SectionEntry) : Prop :=
  is_u16 (se_kind e) ∧ is_u64 (se_offset e) ∧ is_u64 (se_length e) ∧ is_u8 (se_codec e)
  ∧ is_u64 (se_xxhash3_64 e) ∧ (length (se_name e) ≤ 255)%nat ∧ utf8_valid (se_name e) = true.

Definition section_bytes (e : SectionEntry) : list byte :=
  le_split 2 (se_kind e) ++ le_split 8 (se_offset e) ++ le_split 8 (se_length e)
  ++ [z2b (se_codec e)] ++ [z2b 0] ++ le_split 8 (se_xxhash3_64 e)
  ++ [z2b (Z.of_nat (length (se_name e)))] ++ se_name e.

#[local] Arguments section_bytes : simpl never.

Lemma length_section_bytes e :
  length (section_bytes e) = (SECTION_ENTRY_FIXED_LEN + length (se_name e))%nat.
Proof. done. Qed.

Lemma section_encode_app e buf :
  (length (se_name e) ≤ 255)%nat → SectionEntry_encode e buf = Ok (buf ++ section_bytes e).
Proof.
  intros Hn. unfold SectionEntry_encode, section_bytes.
  rewrite (proj2 (Nat.leb_le _ _)) by done. by rewrite <- !(assoc_L (++)).
Qed.

Lemma encode_sections_app es buf :
  Forall section_ok es → encode_sections es buf = Ok (buf ++ concat (map section_bytes es)).
Proof.
  intros HF. revert buf. induction HF as [|e es He HF IH]; intros buf.
  { by rewrite app_nil_r. }
  cbn [encode_sections map concat]. rewrite section_encode_app by apply He.
  cbn [mbind result_bind]. by rewrite IH, (assoc_L (++)).
Qed.

Lemma checked_cursor_Ok e a b : Z.of_nat (a + b) ≤ usize_max → checked_cursor e a b = Ok (a + b)%nat.
Proof.
  intros H. unfold checked_cursor, checked_add64, usize_max in *.
  by rewrite (proj2 (Z.leb_le _ _)) by lia.
Qed.

Lemma section_decode_bytes e buf c post :
  section_ok e → Z.of_nat (length buf) ≤ usize_max → drop c buf = section_bytes e ++ post →
  SectionEntry_decode buf c = Ok (e, length (section_bytes e)).
Proof.
  intros (Hk & Ho & Hl & Hc & Hx & Hn & Hu) Hfit Hd.
  assert (c + length (section_bytes e) + length post = length buf)%nat as Hlen.
  { apply (f_equal length) in Hd. rewrite length_drop, length_app in Hd.
    rewrite length_section_bytes in *. unfold SECTION_ENTRY_FIXED_LEN in *. lia. }
  rewrite length_section_bytes in Hlen. unfold SECTION_ENTRY_FIXED_LEN in Hlen.
  unfold SectionEntry_decode, SECTION_ENTRY_FIXED_LEN.
  rewrite !checked_cursor_Ok by lia. cbn [mbind result_bind].
  rewrite (proj2 (Nat.leb_le _ _)) by lia.
  assert (le_combine [byte_at buf c; byte_at buf (c + 1)] = se_kind e) as ->.
  { rewrite <- (Nat.add_0_r c) at 1.
    change [byte_at buf (c + 0); byte_at buf (c + 1)] with (map (λ j, byte_at buf (c + j)) (seq 0 2)).
    apply le_bytes_at; [|lia|done]. rewrite <- (Nat.add_0_r c) at 1. rewrite slice_cursor, Hd.
    unfold section_bytes. rewrite <- !(assoc_L (++)). by reads. }
  rewrite !slice_cursor, !byte_at_cursor, Hd. unfold section_bytes at 1 2 3 4 5.
  rewrite <- !(assoc_L (++)). reads.
  rewrite !le_combine_split_small by done.
  rewrite !b2z_z2b_small by (done || lia). rewrite Nat2Z.id.
  rewrite checked_cursor_Ok by lia. cbn [mbind result_bind].
  rewrite (proj2 (Nat.leb_le _ _)) by lia.
  assert (slice buf (c + 29) (c + 29 + length (se_name e)) = se_name e) as ->.
  { rewrite <- Nat.add_assoc, slice_cursor, Hd. unfold section_bytes.
    rewrite <- !(assoc_L (++)). by reads. }
  rewrite Hu, length_section_bytes. unfold SECTION_ENTRY_FIXED_LEN.
  replace (c + 29 + length (se_name e) - c)%nat with (29 + length (se_name e))%nat by lia.
  by destruct e.
Qed.

Lemma read_section_table_bytes es tail c table_end acc post :
  Forall section_ok es → Z.of_nat (length tail) ≤ usize_max →
  drop c tail = concat (map section_bytes es) ++ post →
  table_end = (c + length (concat (map section_bytes es)))%nat →
  read_section_table (length es) tail c table_end acc = Ok (acc ++ es, table_end).
Proof.
  intros HF Hfit. revert c table_end acc. induction HF as [|e es He HF IH]; intros c table_end acc Hd ->.
  { simpl. by rewrite app_nil_r, Nat.add_0_r. }
  cbn [map concat read_section_table length] in *.
  rewrite <- (assoc_L (++)) in Hd. rewrite length_app.
  rewrite (proj2 (Nat.leb_gt _ _))
    by (rewrite length_section_bytes; unfold SECTION_ENTRY_FIXED_LEN; lia). cbn [negb].
  rewrite (section_decode_bytes e _ _ _ He Hfit Hd). cbn [mbind result_bind].
  apply drop_app_inv in Hd. erewrite IH; [|done|lia]. by rewrite <- (assoc_L (++)).
Qed.

(** The sections lie in [lo, hi), in order and without overlap. *)
Fixpoint ranges_ok (lo hi : Z) (es : list SectionEntry) : Prop :=
  match es with
  | [] => True
  | e :: rest =>
      lo ≤ se_offset e ∧ se_offset e + se_length e ≤ hi
      ∧ ranges_ok (se_offset e + se_length e) hi rest
  end.

Lemma validate_section_ranges_iff hi prev prev_end es :
  Forall section_ok es → hi ≤ u64_max → Z.of_nat HEADER_LEN ≤ prev_end →
  match prev with Some p => se_offset p ≤ prev_end | None => True end →
  validate_section_ranges hi prev prev_end es = Ok tt ↔ ranges_ok prev_end hi es.
Proof.
  intros HF Hhi. revert prev prev_end. induction HF as [|e es He HF IH]; intros prev prev_end Hpe Hprev;
    cbn [validate_section_ranges ranges_ok]; [done|].
  destruct He as (_ & Ho & Hl & _). unfold is_uint, checked_add64 in *.
  split.
  - destruct (match prev with Some p => _ | None => true end); [|done].
    destruct (Z.leb_spec (se_offset e + se_length e) u64_max); [|done]. cbn [mbind result_bind ok_or].
    destruct (Z.ltb_spec (se_offset e) (Z.of_nat HEADER_LEN)), (Z.ltb_spec hi (se_offset e + se_length e));
      try done. cbn [orb negb].
    destruct (Z.ltb_spec (se_offset e) prev_end); [done|]. cbn [negb].
    intros Hv. split_and!; [lia..|]. apply (IH (Some e)); [lia|lia|done].
  - intros (Hlo & Hh & Hr).
    replace (match prev with Some p => _ | None => true end) with true.
    2:{ destruct prev as [p|]; [|done]. by rewrite (proj2 (Z.ltb_ge _ _)) by lia. }
    rewrite (proj2 (Z.leb_le _ _)) by lia. cbn [mbind result_bind ok_or].
    rewrite !(proj2 (Z.ltb_ge _ _)) by lia. cbn [orb negb]. apply (IH (Some e)); [lia|lia|done].
Qed.

Definition footer_ok (f : EdgeFileFooter) : Prop :=
  Forall section_ok (ef_sections f)
  ∧ is_u64 (ef_key_count f) ∧ is_u64 (ef_edge_count f) ∧ is_u8 (ef_offsets_bits f)
  ∧ length (ef_min_key_id f) = 16%nat ∧ length (ef_max_key_id f) = 16%nat
  ∧ is_u64 (ef_min_lsn f) ∧ is_u64 (ef_max_lsn f)
  ∧ is_u64 (ef_schema_version_min f) ∧ is_u64 (ef_schema_version_max f).

Definition footer_tail (f : EdgeFileFooter) : list byte :=
  le_split 4 (Z.of_nat (length (ef_sections f)))
  ++ le_split 8 (ef_key_count f) ++ le_split 8 (ef_edge_count f) ++ [z2b (ef_offsets_bits f)]
  ++ ef_min_key_id f ++ ef_max_key_id f ++ le_split 8 (ef_min_lsn f) ++ le_split 8 (ef_max_lsn f)
  ++ le_split 8 (ef_schema_version_min f) ++ le_split 8 (ef_schema_version_max f).
Definition footer_body (f : EdgeFileFooter) : list byte :=
  concat (map section_bytes (ef_sections f)) ++ footer_tail f.
Definition footer_len (f : EdgeFileFooter) : nat := length (footer_body f) + FOOTER_TRAILER_LEN.
Definition footer_bytes (f : EdgeFileFooter) : list byte :=
  footer_body f ++ le_split 8 (xxh3_64 (footer_body f)) ++ le_split 4 (Z.of_nat (footer_len f))
  ++ FOOTER_MAGIC.
#[local] Arguments footer_tail : simpl never.
#[local] Arguments footer_body : simpl never.

Lemma length_footer_tail f : footer_ok f → length (footer_tail f) = FOOTER_TAIL_SIZE.
Proof.
  intros (_ & _ & _ & _ & H1 & H2 & _). unfold footer_tail. autorewrite with lengths.
  by rewrite H1, H2.
Qed.
Lemma length_footer_bytes f : length (footer_bytes f) = footer_len f.
Proof. unfold footer_bytes, footer_len. autorewrite with lengths. done. Qed.

Lemma length_sections_le es :
  (length es * SECTION_ENTRY_FIXED_LEN ≤ length (concat (map section_bytes es)))%nat.
Proof.
  induction es as [|e es IH]; [done|]. cbn [map concat length].
  rewrite length_app, length_section_bytes. lia.
Qed.

Lemma footer_encode_inv f buf r :
  footer_ok f → EdgeFileFooter_encode f buf = Ok r →
  r = (buf ++ footer_bytes f, footer_len f) ∧ Z.of_nat (footer_len f) ≤ u32_max.
Proof.
  intros Hok. unfold EdgeFileFooter_encode, try_u32.
  destruct (Z.leb_spec (Z.of_nat (length (ef_sections f))) u32_max); [|done]. cbn [mbind result_bind].
  rewrite encode_sections_app by apply Hok. cbn [mbind result_bind].
  match goal with |- context [xxh3_64 (slice ?b _ _)] =>
    assert (b = buf ++ footer_body f) as Hb
      by (unfold footer_body, footer_tail; by rewrite <- !(assoc_L (++))) end.
  rewrite !Hb. rewrite slice_skip by done.
  rewrite slice_whole by len.
  match goal with |- context [Z.of_nat (?n - length buf)] => replace (n - length buf)%nat with (footer_len f) end.
  2:{ unfold footer_len, FOOTER_TRAILER_LEN. autorewrite with lengths.
      change (length FOOTER_MAGIC) with 8%nat. lia. }
  destruct (Z.leb_spec (Z.of_nat (footer_len f)) u32_max); [|done]. cbn [mbind result_bind].
  intros Hr. apply Ok_inj in Hr as <-. split; [|done]. unfold footer_bytes. by rewrite <- !(assoc_L (++)).
Qed.

Lemma encoded_len_footer f pre :
  Z.of_nat (footer_len f) ≤ u32_max →
  EdgeFileFooter_encoded_len_from_trailer (pre ++ footer_bytes f) = Ok (Z.of_nat (footer_len f)).
Proof.
  intros Hlen. unfold EdgeFileFooter_encoded_len_from_trailer.
  assert (length (pre ++ footer_bytes f) = length pre + footer_len f)%nat as Hl
    by by rewrite length_app, length_footer_bytes.
  assert (FOOTER_TRAILER_LEN ≤ footer_len f)%nat by (unfold footer_len; lia).
  rewrite Hl, (proj2 (Nat.ltb_ge _ _)) by lia. cbn [negb].
  assert (drop (length pre + footer_len f - 8) (pre ++ footer_bytes f) = FOOTER_MAGIC) as ->.
  { unfold footer_bytes. rewrite !(assoc_L (++)). apply drop_app_length'.
    unfold footer_len, FOOTER_TRAILER_LEN. len. }
  rewrite bool_decide_true by done.
  assert (slice (pre ++ footer_bytes f)
            (length pre + footer_len f - FOOTER_TRAILER_LEN + 8)
            (length pre + footer_len f - FOOTER_TRAILER_LEN + 12)
          = le_split 4 (Z.of_nat (footer_len f))) as ->.
  { unfold footer_bytes, footer_len, FOOTER_TRAILER_LEN in *. by reads. }
  rewrite le_combine_split_small by (simpl; word_lia).
  by rewrite (proj2 (Z.ltb_ge _ _)) by lia.
Qed.

(** The fields of the fixed tail, read at the offsets of the decoder. *)
Lemma footer_tail_reads f pre post (tail := pre ++ footer_tail f ++ post) (c := length pre) :
  footer_ok f →
  slice tail c (c + 4) = le_split 4 (Z.of_nat (length (ef_sections f)))
  ∧ slice tail (c + 4) (c + 4 + 8) = le_split 8 (ef_key_count f)
  ∧ slice tail (c + 4 + 8) (c + 4 + 8 + 8) = le_split 8 (ef_edge_count f)
  ∧ byte_at tail (c + 4 + 8 + 8) = z2b (ef_offsets_bits f)
  ∧ slice tail (c + 4 + 8 + 8 + 1) (c + 4 + 8 + 8 + 1 + 16) = ef_min_key_id f
  ∧ slice tail (c + 4 + 8 + 8 + 1 + 16) (c + 4 + 8 + 8 + 1 + 16 + 16) = ef_max_key_id f
  ∧ slice tail (c + 4 + 8 + 8 + 1 + 16 + 16) (c + 4 + 8 + 8 + 1 + 16 + 16 + 8) = le_split 8 (ef_min_lsn f)
  ∧ slice tail (c + 4 + 8 + 8 + 1 + 16 + 16 + 8) (c + 4 + 8 + 8 + 1 + 16 + 16 + 8 + 8) = le_split 8 (ef_max_lsn f)
  ∧ slice tail (c + 4 + 8 + 8 + 1 + 16 + 16 + 8 + 8) (c + 4 + 8 + 8 + 1 + 16 + 16 + 8 + 8 + 8)
    = le_split 8 (ef_schema_version_min f)
  ∧ slice tail (c + 4 + 8 + 8 + 1 + 16 + 16 + 8 + 8 + 8) (c + 4 + 8 + 8 + 1 + 16 + 16 + 8 + 8 + 8 + 8)
    = le_split 8 (ef_schema_version_max f).
Proof.
  intros (_ & _ & _ & _ & H1 & H2 & _). subst tail c.
  rewrite <- !Nat.add_assoc, !(slice_cursor _ (length pre)), byte_at_cursor, drop_app_length.
  rewrite <- (Nat.add_0_r (length pre)) at 1. rewrite slice_cursor, drop_app_length.
  unfold footer_tail. rewrite <- !(assoc_L (++)). split_and!; by reads.
Qed.

Lemma footer_decode_from_tail_bytes f start :
  footer_ok f → Z.of_nat (footer_len f) ≤ u32_max →
  Z.of_nat HEADER_LEN ≤ start → start + Z.of_nat (footer_len f) ≤ u64_max →
  ranges_ok (Z.of_nat HEADER_LEN) start (ef_sections f) →
  EdgeFileFooter_decode_from_tail (start + Z.of_nat (footer_len f)) (footer_bytes f) = Ok (f, start).
Proof.
  intros Hok Hlen Hst Hfit Hr. unfold EdgeFileFooter_decode_from_tail.
  pose proof (encoded_len_footer f [] Hlen) as He. rewrite (left_id_L [] (++)) in He. rewrite He. cbn [mbind result_bind].
  rewrite length_footer_bytes, Z.eqb_refl. unfold checked_sub64.
  rewrite (proj2 (Z.leb_le (Z.of_nat (footer_len f)) _)) by lia. cbn [mbind result_bind ok_or].
  rewrite Z.add_simpl_r, (proj2 (Z.ltb_ge _ _)) by lia. cbn [negb].
  assert (footer_len f - FOOTER_TRAILER_LEN = length (footer_body f))%nat as -> by (unfold footer_len; lia).
  unfold footer_bytes at 1. rewrite slice_skip by lia. rewrite slice_here by len.
  rewrite le_combine_split_small by apply xxh3_64_u64.
  assert (take (length (footer_body f)) (footer_bytes f) = footer_body f) as -> by apply take_app_length.
  rewrite Z.eqb_refl.
  pose proof (length_footer_tail f Hok) as Ht.
  assert (length (footer_body f) = length (concat (map section_bytes (ef_sections f))) + FOOTER_TAIL_SIZE)%nat
    as Hb by (unfold footer_body; rewrite length_app; lia).
  rewrite Hb, (proj2 (Nat.ltb_ge _ _)) by lia. cbn [negb].
  rewrite Nat.add_sub.
  set (table := concat (map section_bytes (ef_sections f))) in *.
  assert (read_section_table (length (ef_sections f)) (footer_bytes f) 0 (length table) []
          = Ok (ef_sections f, length table)) as Htab.
  { apply (read_section_table_bytes _ _ 0 (length table) [] (footer_tail f ++ drop (length (footer_body f)) (footer_bytes f)));
      [apply Hok| | |done].
    - rewrite length_footer_bytes. word_lia.
    - unfold footer_bytes. rewrite drop_app_length. unfold footer_body at 1. by rewrite <- (assoc_L (++)). }
  pose proof (length_sections_le (ef_sections f)) as Hle. fold table in Hle.
  assert (is_uint (Z.of_nat 4 * 8) (Z.of_nat (length (ef_sections f)))) as Hn.
  { unfold footer_len in Hlen. unfold SECTION_ENTRY_FIXED_LEN in Hle. simpl. word_lia. }
  assert (Z.of_nat (length (ef_sections f)) ≤ Z.of_nat (length table `div` SECTION_ENTRY_FIXED_LEN)) as Hcnt.
  { apply inj_le, Nat.div_le_lower_bound; [done|]. lia. }
  pose proof Hok as (HF & Hk & Hec & Hob & H1 & H2 & Hl1 & Hl2 & Hv1 & Hv2).
  assert (∃ rest, footer_bytes f = table ++ footer_tail f ++ rest) as [rest Hs].
  { eexists. unfold footer_bytes, footer_body at 1. by rewrite <- (assoc_L (++)). }
  rewrite Hs in Htab |- *.
  destruct (footer_tail_reads f table rest Hok) as (-> & -> & -> & -> & -> & -> & -> & -> & -> & ->).
  rewrite !le_combine_split_small by done. rewrite b2z_z2b_small by done.
  rewrite (proj2 (Z.leb_le _ _)) by done. rewrite Nat2Z.id, Htab. cbn [mbind result_bind].
  rewrite Nat.eqb_refl.
  rewrite (proj2 (validate_section_ranges_iff start None (Z.of_nat HEADER_LEN) (ef_sections f) HF
    ltac:(lia) ltac:(lia) I)) by done.
  cbn [mbind result_bind]. by destruct f.
Qed.

Lemma footer_decode_bytes f pre :
  footer_ok f → Z.of_nat (footer_len f) ≤ u32_max → (HEADER_LEN ≤ length pre)%nat →
  Z.of_nat (length pre + footer_len f) ≤ usize_max →
  ranges_ok (Z.of_nat HEADER_LEN) (Z.of_nat (length pre)) (ef_sections f) →
  EdgeFileFooter_decode (pre ++ footer_bytes f) = Ok (f, length pre).
Proof.
  intros Hok Hlen Hpre Hfit Hr. unfold EdgeFileFooter_decode.
  rewrite encoded_len_footer by done. cbn [mbind result_bind].
  rewrite length_app, length_footer_bytes, (proj2 (Z.leb_le _ _)) by lia.
  rewrite Nat2Z.id, Nat.add_sub, drop_app_length, Nat2Z.inj_add.
  rewrite footer_decode_from_tail_bytes by (try done; unfold usize_max in *; lia). done.
Qed.

(** *** Binding *)

Definition is_data_section (e : SectionEntry) : Prop :=
  se_kind e ≠ SECTION_SST_BINDING ∧ se_kind e ≠ SECTION_PAGE_CHECKSUMS.
#[local] Instance is_data_section_dec e : Decision (is_data_section e).
Proof. unfold is_data_section. apply _. Defined.

Lemma binding_root_app es hasher :
  Forall section_ok es →
  binding_root es hasher = Ok (hasher ++ concat (map section_bytes (filter is_data_section es))).
Proof.
  intros HF. revert hasher. induction HF as [|e es He HF IH]; intros hasher.
  { simpl. by rewrite app_nil_r. }
  cbn [binding_root]. rewrite filter_cons.
  destruct (Z.eqb_spec (se_kind e) SECTION_SST_BINDING) as [Hb|Hb];
    [rewrite decide_False by (unfold is_data_section; tauto); apply IH|].
  destruct (Z.eqb_spec (se_kind e) SECTION_PAGE_CHECKSUMS) as [Hp|Hp];
    [rewrite decide_False by (unfold is_data_section; tauto); apply IH|].
  rewrite decide_True by (unfold is_data_section; tauto). cbn [orb]. rewrite section_encode_app by apply He.
  cbn [mbind result_bind map concat]. rewrite IH. by rewrite <- (assoc_L (++)).
Qed.

Lemma binding_decode_encode b :
  length (eb_sst_id b) = 16%nat → is_u64 (eb_header_xxhash3_64 b) → is_u64 (eb_sections_xxhash3_64 b) →
  length (EdgeSstBinding_encode b) = SST_BINDING_LEN ∧
  EdgeSstBinding_decode (EdgeSstBinding_encode b) = Ok b.
Proof.
  intros Hid Hh Hs. unfold EdgeSstBinding_decode.
  assert (length (EdgeSstBinding_encode b) = SST_BINDING_LEN) as Hl.
  { unfold EdgeSstBinding_encode. autorewrite with lengths. by rewrite Hid. }
  split; [done|]. rewrite Hl, Nat.eqb_refl. unfold EdgeSstBinding_encode. reads.
  rewrite bool_decide_true, !le_combine_split_small by done. by destruct b.
Qed.

(** The binding the writer computes over the data sections validates against the
    whole table: the binding itself and the page directory are left out. *)
Lemma binding_validates id header es rest b :
  Forall section_ok (es ++ rest) → Forall is_data_section es → Forall (λ e, ¬ is_data_section e) rest →
  EdgeSstBinding_for_sections id header es = Ok b →
  EdgeSstBinding_validate b header (es ++ rest) None = Ok tt ∧ eb_sst_id b = id.
Proof.
  intros HF Hd Hr. unfold EdgeSstBinding_for_sections.
  rewrite Forall_app in HF. rewrite binding_root_app by apply HF. intros [= <-].
  split; [|done]. unfold EdgeSstBinding_validate, EdgeSstBinding_for_sections.
  rewrite binding_root_app by (apply Forall_app; apply HF). cbn [mbind result_bind].
  cbn [eb_header_xxhash3_64 eb_sections_xxhash3_64].
  rewrite filter_app, (filter_nil_in _ rest), app_nil_r by (by apply Forall_forall).
  by rewrite !Z.eqb_refl.
Qed.

(** *** Page-checksum directory *)

Definition checksums_ok (page_size : Z) (s : SectionPageChecksums) : Prop :=
  is_u64 (pc_offset s) ∧ is_u64 (pc_length s) ∧ Forall is_u64 (pc_checksums s)
  ∧ Z.of_nat (length (pc_checksums s)) = div_ceil (pc_length s) page_size
  ∧ is_u32 (Z.of_nat (length (pc_checksums s))).

Definition checksum_record (s : SectionPageChecksums) : list byte :=
  le_split 8 (pc_offset s) ++ le_split 8 (pc_length s)
  ++ le_split 4 (Z.of_nat (length (pc_checksums s))) ++ concat (map (le_split 8) (pc_checksums s)).
#[local] Arguments checksum_record : simpl never.

Definition directory_bytes (d : EdgePageChecksumDirectory) : list byte :=
  PAGE_CHECKSUM_DIRECTORY_MAGIC ++ le_split 4 (pd_page_size d)
  ++ le_split 4 (Z.of_nat (length (pd_sections d))) ++ concat (map checksum_record (pd_sections d)).

Lemma length_le_concat (cs : list Z) : length (concat (map (le_split 8) cs)) = (8 * length cs)%nat.
Proof.
  induction cs as [|c cs IH]; [done|]. cbn [map concat]. rewrite length_app, IH, length_le_split.
  simpl. lia.
Qed.
Lemma length_checksum_record s :
  length (checksum_record s)
  = (PAGE_CHECKSUM_SECTION_HEADER_LEN + 8 * length (pc_checksums s))%nat.
Proof.
  unfold checksum_record. rewrite !length_app, !length_le_split, length_le_concat.
  unfold PAGE_CHECKSUM_SECTION_HEADER_LEN. lia.
Qed.

Lemma read_checksums_concat cs :
  Forall is_u64 cs → read_checksums (length cs) (concat (map (le_split 8) cs)) = cs.
Proof.
  induction 1 as [|c cs Hc HF IH]; [done|]. cbn [map concat length read_checksums].
  rewrite take_app_length', drop_app_length' by by rewrite length_le_split.
  by rewrite le_combine_split_small, IH.
Qed.

Lemma decode_directory_loop_bytes page_size bytes ss ts c acc post :
  Z.of_nat (length bytes) ≤ usize_max →
  Forall (checksums_ok page_size) ss →
  Forall2 (λ s t, pc_offset s = se_offset t ∧ pc_length s = se_length t) ss ts →
  drop c bytes = concat (map checksum_record ss) ++ post → (c ≤ length bytes)%nat →
  decode_directory_loop page_size bytes ts c acc
  = Ok (acc ++ ss, (c + length (concat (map checksum_record ss)))%nat).
Proof.
  intros Hfit HF H2. revert c acc HF. induction H2 as [|s t ss ts [Ho Hl] H2 IH]; intros c acc HF Hd Hc.
  { simpl. by rewrite app_nil_r, Nat.add_0_r. }
  inversion HF as [|?? (Hou & Hlu & Hcu & Hn & Hn32) HF']; subst.
  cbn [map concat decode_directory_loop] in *. rewrite <- (assoc_L (++)) in Hd.
  pose proof (drop_app_inv _ _ _ _ Hd) as Hd'.
  assert (length (checksum_record s) ≤ length bytes - c)%nat as Hle.
  { apply (f_equal length) in Hd. rewrite length_drop, length_app in Hd. lia. }
  rewrite length_checksum_record in Hle, Hd'. unfold PAGE_CHECKSUM_SECTION_HEADER_LEN in *.
  rewrite checked_cursor_Ok by lia. cbn [mbind result_bind].
  rewrite get_slice_Some by lia. cbn [ok_or mbind result_bind].
  assert (slice bytes c (c + 20) = le_split 8 (pc_offset s) ++ le_split 8 (pc_length s)
            ++ le_split 4 (Z.of_nat (length (pc_checksums s)))) as ->.
  { rewrite <- (Nat.add_0_r c) at 1. rewrite slice_cursor, Hd. unfold checksum_record.
    rewrite <- !(assoc_L (++)), !(assoc_L (++) (le_split 8 _)), (assoc_L (++)). by apply slice_here. }
  reads. rewrite !le_combine_split_small by (done || (simpl; word_lia)).
  rewrite Ho, Hl, !Z.eqb_refl. cbn [negb orb]. rewrite <- Hl, <- Hn, Z.eqb_refl.
  unfold checked_mul64. rewrite (proj2 (Z.leb_le _ _)) by word_lia. cbn [mbind result_bind ok_or].
  replace (Z.to_nat (Z.of_nat (length (pc_checksums s)) * 8)) with (8 * length (pc_checksums s))%nat by lia.
  rewrite checked_cursor_Ok by lia. cbn [mbind result_bind]. rewrite get_slice_Some by lia.
  cbn [mbind result_bind ok_or].
  assert (slice bytes (c + 20) (c + 20 + 8 * length (pc_checksums s))
          = concat (map (le_split 8) (pc_checksums s))) as ->.
  { rewrite <- Nat.add_assoc, slice_cursor, Hd. unfold checksum_record. rewrite <- !(assoc_L (++)).
    rewrite !(assoc_L (++) (le_split 8 _)), (assoc_L (++)).
    apply slice_app_mid; autorewrite with lengths; rewrite ?length_le_concat; done. }
  rewrite length_le_concat, (Nat.mul_comm 8), Nat.div_mul, read_checksums_concat by done.
  rewrite (IH _ _ HF'), length_app, length_checksum_record.
  - rewrite <- (assoc_L (++)), <- Ho. unfold PAGE_CHECKSUM_SECTION_HEADER_LEN.
    f_equal. f_equal; [by destruct s|lia].
  - rewrite <- Hd'. f_equal. lia.
  - lia.
Qed.

Lemma validate_page_size_u32 page_size :
  validate_checksum_page_size page_size = Ok tt → 0 < page_size ∧ is_u32 page_size.
Proof.
  unfold validate_checksum_page_size, MIN_EDGE_CHECKSUM_PAGE_BYTES, MAX_EDGE_CHECKSUM_PAGE_BYTES.
  destruct (Z.leb_spec (4 * 1024) page_size), (Z.leb_spec page_size (1024 * 1024)); try done.
  unfold is_uint. lia.
Qed.

Lemma length_directory_bytes d :
  length (directory_bytes d)
  = (PAGE_CHECKSUM_DIRECTORY_HEADER_LEN + length (concat (map checksum_record (pd_sections d))))%nat.
Proof. unfold directory_bytes. rewrite !length_app, !length_le_split. done. Qed.

Lemma length_records_ge ss :
  (PAGE_CHECKSUM_SECTION_HEADER_LEN * length ss ≤ length (concat (map checksum_record ss)))%nat.
Proof.
  induction ss as [|s ss IH]; [simpl; lia|]. cbn [map concat length].
  rewrite length_app, length_checksum_record. lia.
Qed.

Lemma directory_decode_bytes d footer :
  validate_checksum_page_size (pd_page_size d) = Ok tt →
  Forall (checksums_ok (pd_page_size d)) (pd_sections d) →
  Forall2 (λ s t, pc_offset s = se_offset t ∧ pc_length s = se_length t) (pd_sections d)
    (filter (λ entry, se_kind entry ≠ SECTION_PAGE_CHECKSUMS) (ef_sections footer)) →
  Z.of_nat (length (directory_bytes d)) ≤ MAX_EDGE_PAGE_CHECKSUM_DIRECTORY_BYTES →
  EdgePageChecksumDirectory_decode (directory_bytes d) footer = Ok d.
Proof.
  intros Hps HF H2 Hmax. pose proof (validate_page_size_u32 _ Hps) as [_ Hpu].
  pose proof (Forall2_length _ _ _ H2) as Hn. pose proof (length_directory_bytes d) as Hl.
  pose proof (length_records_ge (pd_sections d)) as Hge.
  unfold MAX_EDGE_PAGE_CHECKSUM_DIRECTORY_BYTES, PAGE_CHECKSUM_DIRECTORY_HEADER_LEN,
    PAGE_CHECKSUM_SECTION_HEADER_LEN in *.
  unfold EdgePageChecksumDirectory_decode, MAX_EDGE_PAGE_CHECKSUM_DIRECTORY_BYTES,
    PAGE_CHECKSUM_DIRECTORY_HEADER_LEN, PAGE_CHECKSUM_SECTION_HEADER_LEN.
  rewrite (proj2 (Z.leb_le _ _)), (proj2 (Nat.ltb_ge _ _)) by lia. cbn [negb].
  assert (slice (directory_bytes d) 0 8 = PAGE_CHECKSUM_DIRECTORY_MAGIC
    ∧ slice (directory_bytes d) 8 12 = le_split 4 (pd_page_size d)
    ∧ slice (directory_bytes d) 12 16 = le_split 4 (Z.of_nat (length (pd_sections d)))) as (-> & -> & ->).
  { unfold directory_bytes. split_and!; by reads. }
  rewrite bool_decide_true by done.
  rewrite !le_combine_split_small by (done || (simpl; lia)). rewrite Hps. cbn [mbind result_bind].
  rewrite Hn, Z.eqb_refl. unfold checked_mul64, checked_add64.
  rewrite (proj2 (Z.leb_le (_ * _) _)) by word_lia. cbn [mbind result_bind ok_or].
  rewrite (proj2 (Z.leb_le (_ + _) _)) by word_lia. cbn [mbind result_bind ok_or].
  rewrite (proj2 (Z.leb_le (_ + _) _)) by lia.
  rewrite (decode_directory_loop_bytes _ _ (pd_sections d) _ 16 [] []); try done.
  - cbn [mbind result_bind]. rewrite Hl, Nat.eqb_refl. by destruct d.
  - word_lia.
  - unfold directory_bytes. rewrite !(assoc_L (++)), app_nil_r. by rewrite drop_app_length'.
  - lia.
Qed.

Lemma directory_encoded_len_spec page_size ss n :
  Forall (checksums_ok page_size) ss →
  0 ≤ n → n + Z.of_nat (length (concat (map checksum_record ss))) ≤ u64_max →
  directory_encoded_len page_size ss n = Ok (n + Z.of_nat (length (concat (map checksum_record ss)))).
Proof.
  intros HF. revert n. induction HF as [|s ss (Ho & Hl & Hc & Hn & Hu) HF IH]; intros n Hn0 Hfit.
  { simpl. by rewrite Z.add_0_r. }
  cbn [map concat directory_encoded_len] in *. rewrite length_app, length_checksum_record in *.
  unfold validate_directory_section_shape. rewrite <- Hn, Z.eqb_refl.
  unfold is_uint, PAGE_CHECKSUM_SECTION_HEADER_LEN, checked_add64, checked_mul64 in *.
  do 4 (rewrite (proj2 (Z.leb_le _ _)) by word_lia; cbn [mbind option_bind ok_or result_bind]).
  rewrite IH by lia. f_equal. lia.
Qed.

Lemma directory_records_app page_size ss out :
  Forall (checksums_ok page_size) ss →
  directory_records ss out = Ok (out ++ concat (map checksum_record ss)).
Proof.
  intros HF. revert out. induction HF as [|s ss (Ho & Hl & Hc & Hn & Hu) HF IH]; intros out.
  { simpl. by rewrite app_nil_r. }
  cbn [map concat directory_records]. unfold try_u32. rewrite (proj2 (Z.leb_le _ _)) by word_lia.
  cbn [mbind result_bind]. rewrite IH. unfold checksum_record. by rewrite <- !(assoc_L (++)).
Qed.

Lemma directory_encode_bytes d :
  validate_checksum_page_size (pd_page_size d) = Ok tt →
  Forall (checksums_ok (pd_page_size d)) (pd_sections d) →
  Z.of_nat (length (directory_bytes d)) ≤ MAX_EDGE_PAGE_CHECKSUM_DIRECTORY_BYTES →
  EdgePageChecksumDirectory_encode d = Ok (directory_bytes d).
Proof.
  intros Hps HF Hmax. unfold EdgePageChecksumDirectory_encode. rewrite Hps. cbn [mbind result_bind].
  pose proof (length_directory_bytes d) as Hl. pose proof (length_records_ge (pd_sections d)) as Hge.
  unfold try_u32, MAX_EDGE_PAGE_CHECKSUM_DIRECTORY_BYTES, PAGE_CHECKSUM_DIRECTORY_HEADER_LEN,
    PAGE_CHECKSUM_SECTION_HEADER_LEN in *.
  rewrite (proj2 (Z.leb_le _ _)) by word_lia. cbn [mbind result_bind].
  rewrite directory_encoded_len_spec by (done || word_lia). cbn [mbind result_bind].
  rewrite (proj2 (Z.leb_le _ _)) by lia.
  rewrite (directory_records_app (pd_page_size d)) by done. unfold directory_bytes.
  by rewrite <- !(assoc_L (++)).
Qed.
End Hashed.
