(* ===== verification/EdgePages.v ===== *)
(** The indexed sections of an edge SST: the fence index over the key column
    ([sst/edges/fence_index.rs]), the independently decodable property pages
    ([sst/edges/property_pages.rs]) and the value of the exact-edge side-car
    ([sst/edges/point_index.rs]).

    A property value is an [Option<String>], [option (list byte)] here. [xxh3_64],
    [crc32], the zstd decoder and the JSON reader of a property map are parameters. *)
From S2P Require Import Prelude StorageError EdgeFormat.

(** ** Fence index *)

Definition DEFAULT_FENCE_STRIDE : Z := 256.
Definition FENCE_INDEX_THRESHOLD : Z := 65536.
Definition FENCE_ENTRY_LEN : nat := 16 + 8.
Definition FENCE_HEADER_LEN : nat := 4 + 4.

Record FenceEntry := { fe_key : list byte; fe_key_ids_offset : Z }.
Record FenceIndex := { fi_stride : Z; fi_entries : list FenceEntry }.

(** [key_ids.iter().enumerate().step_by(stride)], from position [i]. *)
Fixpoint fence_entries_from (i stride : Z) (key_ids : list (list byte)) : list FenceEntry :=
  match key_ids with
  | [] => []
  | key :: rest =>
      let entries := fence_entries_from (i + 1) stride rest in
      if i `mod` stride =? 0 then {| fe_key := key; fe_key_ids_offset := i * 16 |} :: entries
      else entries
  end.

Definition FenceIndex_build (key_ids : list (list byte)) (stride : Z) : FenceIndex :=
  let stride := Z.max stride 1 in
  {| fi_stride := stride; fi_entries := fence_entries_from 0 stride key_ids |}.

Definition FenceIndex_encode (f : FenceIndex) : list byte :=
  le_split 4 (fi_stride f) ++ le_split 4 (Z.of_nat (length (fi_entries f)))
  ++ concat (map (λ e, fe_key e ++ le_split 8 (fe_key_ids_offset e)) (fi_entries f)).

(** The [for i in 0..entry_count] loop, at byte [off]. *)
Fixpoint read_fence_entries (n : nat) (buf : list byte) (off : nat) : list FenceEntry :=
  match n with
  | O => []
  | S n' =>
      {| fe_key := slice buf off (off + 16);
         fe_key_ids_offset := le_combine (slice buf (off + 16) (off + 24)) |}
      :: read_fence_entries n' buf (off + FENCE_ENTRY_LEN)
  end.

Definition FenceIndex_decode (buf : list byte) : Result FenceIndex :=
  ensure negb (length buf <? FENCE_HEADER_LEN)%nat else corrupted "fence index header truncated";
  let stride := le_combine (slice buf 0 4) in
  let entry_count := le_combine (slice buf 4 8) in
  let need := Z.of_nat FENCE_HEADER_LEN + entry_count * Z.of_nat FENCE_ENTRY_LEN in
  ensure Z.of_nat (length buf) =? need else corrupted "fence index size mismatch";
  Ok {| fi_stride := stride;
        fi_entries := read_fence_entries (Z.to_nat entry_count) buf FENCE_HEADER_LEN |}.

(** [slice::partition_point]: the length of the prefix on which the predicate
    holds, for a slice the predicate partitions. *)
Fixpoint fence_partition_point {A} (p : A → bool) (l : list A) : nat :=
  match l with
  | [] => 0
  | x :: rest => if p x then S (fence_partition_point p rest) else 0
  end.

(** [a <= b] on [[u8; 16]] *)
Definition bytes_leb (a b : list byte) : bool :=
  match bytes_cmp a b with Gt => false | _ => true end.

Definition FenceIndex_bracket_for (f : FenceIndex) (target : list byte) (key_count : Z) : Z * Z :=
  match fi_entries f with
  | [] => (0, key_count)
  | e0 :: _ =>
      let pos := fence_partition_point (λ e, bytes_leb (fe_key e) target) (fi_entries f) in
      let lo_idx := if (pos =? 0)%nat then 0%nat else (pos - 1)%nat in
      let lo_offset := fe_key_ids_offset (default e0 (fi_entries f !! lo_idx)) / 16 in
      let hi_offset :=
        match fi_entries f !! pos with
        | Some e => fe_key_ids_offset e / 16
        | None => key_count
        end in
      (lo_offset, hi_offset)
  end.

(** ** Property pages *)

Definition PROPERTY_PAGES_MAGIC : list byte := String.list_byte_of_string "TGEPRP02".
Definition PROPERTY_PAGES_VERSION : Z := 1.
Definition PROPERTY_PAGES_HEADER_LEN : nat := 32.
Definition PROPERTY_PAGE_ENTRY_LEN : nat := 44.
Definition MAX_PROPERTY_PAGE_DIRECTORY_BYTES : Z := 64 * 1024 * 1024.
Definition MAX_PROPERTY_PAGE_DECODE_BYTES : Z := 64 * 1024 * 1024.

Record PropertyPageEntry := {
  pp_first_row : Z;
  pp_row_count : Z;
  pp_offset : Z;
  pp_encoded_len : Z;
  pp_decoded_len : Z;
  pp_checksum : Z;
}.

Definition PropertyPageEntry_encode (e : PropertyPageEntry) (out : list byte) : list byte :=
  out ++ le_split 8 (pp_first_row e) ++ le_split 4 (pp_row_count e) ++ le_split 8 (pp_offset e)
  ++ le_split 8 (pp_encoded_len e) ++ le_split 8 (pp_decoded_len e) ++ le_split 8 (pp_checksum e).

Definition PropertyPageEntry_decode (bytes : list byte) : PropertyPageEntry :=
  {| pp_first_row := le_combine (slice bytes 0 8);
     pp_row_count := le_combine (slice bytes 8 12);
     pp_offset := le_combine (slice bytes 12 20);
     pp_encoded_len := le_combine (slice bytes 20 28);
     pp_decoded_len := le_combine (slice bytes 28 36);
     pp_checksum := le_combine (slice bytes 36 44) |}.

Record PropertyPageIndex := { pi_row_count : Z; pi_entries : list PropertyPageEntry }.

Definition PropertyPageIndex_required_prefix_len (bytes : list byte) (section_len : Z) : Result nat :=
  ensure negb (length bytes <? PROPERTY_PAGES_HEADER_LEN)%nat
    else corrupted "edge property-page header truncated";
  ensure bool_decide (slice bytes 0 8 = PROPERTY_PAGES_MAGIC)
    else corrupted "edge property-page magic mismatch";
  let version := le_combine (slice bytes 8 10) in
  ensure version =? PROPERTY_PAGES_VERSION else corrupted "unsupported edge property-page version";
  ensure bool_decide (slice bytes 10 12 = [Byte.x00; Byte.x00])
    else corrupted "edge property-page flags are non-zero";
  let page_count := le_combine (slice bytes 12 16) in
  let entry_len := le_combine (slice bytes 24 28) in
  ensure entry_len =? Z.of_nat PROPERTY_PAGE_ENTRY_LEN
    else corrupted "edge property-page entry length";
  ensure bool_decide (slice bytes 28 32 = [Byte.x00; Byte.x00; Byte.x00; Byte.x00])
    else corrupted "edge property-page reserved bytes are non-zero";
  directory_len ← ok_or (corrupted "edge property-page directory length overflows usize")
                    (checked_mul64 page_count (Z.of_nat PROPERTY_PAGE_ENTRY_LEN));
  ensure directory_len <=? MAX_PROPERTY_PAGE_DIRECTORY_BYTES
    else corrupted "edge property-page directory requires too many bytes";
  prefix_len ← ok_or (corrupted "edge property-page prefix length overflows usize")
                 (checked_add64 (Z.of_nat PROPERTY_PAGES_HEADER_LEN) directory_len);
  ensure prefix_len <=? section_len
    else corrupted "edge property-page directory exceeds its section";
  Ok (Z.to_nat prefix_len).

(** The [for raw in bytes[32..prefix_len].chunks_exact(44)] loop: [raws] is what is
    left of the directory, [n] its number of entries. *)
Fixpoint parse_page_entries (n : nat) (raws : list byte) (section_len expected_row expected_offset : Z)
    (entries : list PropertyPageEntry) : Result (list PropertyPageEntry * Z * Z) :=
  match n with
  | O => Ok (entries, expected_row, expected_offset)
  | S n' =>
      let entry := PropertyPageEntry_decode (take PROPERTY_PAGE_ENTRY_LEN raws) in
      ensure negb (pp_row_count entry =? 0) else corrupted "edge property page has zero rows";
      ensure pp_first_row entry =? expected_row
        else corrupted "edge property pages do not cover rows contiguously";
      ensure pp_offset entry =? expected_offset
        else corrupted "edge property page payloads are not contiguous";
      ensure pp_decoded_len entry <=? MAX_PROPERTY_PAGE_DECODE_BYTES
        else corrupted "edge property page decoded length exceeds limit";
      expected_row ← ok_or (corrupted "edge property row count exceeds u64")
                       (checked_add64 expected_row (pp_row_count entry));
      expected_offset ← ok_or (corrupted "edge property payload end exceeds u64")
                          (checked_add64 expected_offset (pp_encoded_len entry));
      ensure expected_offset <=? section_len else corrupted "edge property page exceeds its section";
      parse_page_entries n' (drop PROPERTY_PAGE_ENTRY_LEN raws) section_len expected_row
        expected_offset (entries ++ [entry])
  end.

Definition PropertyPageIndex_parse_prefix (bytes : list byte) (section_len : Z)
    : Result PropertyPageIndex :=
  prefix_len ← PropertyPageIndex_required_prefix_len bytes section_len;
  let page_count := ((prefix_len - PROPERTY_PAGES_HEADER_LEN) `div` PROPERTY_PAGE_ENTRY_LEN)%nat in
  let row_count := le_combine (slice bytes 16 24) in
  ensure negb (length bytes <? prefix_len)%nat
    else corrupted "edge property-page directory truncated";
  '(entries, expected_row, expected_offset) ←
    parse_page_entries page_count (slice bytes PROPERTY_PAGES_HEADER_LEN prefix_len)
      section_len 0 (Z.of_nat prefix_len) [];
  ensure expected_row =? row_count else corrupted "edge property pages cover another row count";
  ensure expected_offset =? section_len else corrupted "edge property pages end elsewhere";
  Ok {| pi_row_count := row_count; pi_entries := entries |}.

(** The [for _ in 0..row_count] loop of [decode_rows]. *)
Fixpoint decode_rows_loop (n : nat) (bytes : list byte) (cursor : nat)
    (rows : list (option (list byte))) : Result (list (option (list byte)) * nat) :=
  match n with
  | O => Ok (rows, cursor)
  | S n' =>
      tag ← ok_or (corrupted "edge property row tag truncated") (bytes !! cursor);
      let cursor := S cursor in
      if b2z tag =? 0 then decode_rows_loop n' bytes cursor (rows ++ [None])
      else if b2z tag =? 1 then
        len_end ← checked_cursor (corrupted "edge property row length cursor overflows") cursor 4;
        len_bytes ← ok_or (corrupted "edge property row length truncated")
                      (get_slice bytes cursor len_end);
        let len := Z.to_nat (le_combine len_bytes) in
        let cursor := len_end in
        value_end ← checked_cursor (corrupted "edge property row end overflows") cursor len;
        value ← ok_or (corrupted "edge property row value truncated")
                  (get_slice bytes cursor value_end);
        ensure utf8_valid value else corrupted "edge property row is not utf-8";
        decode_rows_loop n' bytes value_end (rows ++ [Some value])
      else Err (corrupted "edge property row has unknown tag")
  end.

Definition decode_rows (bytes : list byte) (expected_rows : Z) : Result (list (option (list byte))) :=
  ensure negb (length bytes <? 4)%nat else corrupted "edge property page row header truncated";
  let row_count := le_combine (slice bytes 0 4) in
  ensure row_count =? expected_rows else corrupted "edge property page row count mismatch";
  '(rows, cursor) ← decode_rows_loop (Z.to_nat row_count) bytes 4 [];
  ensure (cursor =? length bytes)%nat else corrupted "edge property page has trailing bytes";
  Ok rows.

Section Pages.
Context (xxh3_64 : list byte → Z).
(** [zstd::bulk::decompress(encoded, capacity)] *)
Context (zstd_decompress : list byte → Z → option (list byte)).

Definition decode_property_page (encoded : list byte) (entry : PropertyPageEntry) (compressed : bool)
    : Result (list (option (list byte))) :=
  ensure Z.of_nat (length encoded) =? pp_encoded_len entry
    else corrupted "edge property page encoded length mismatch";
  ensure xxh3_64 encoded =? pp_checksum entry
    else corrupted "edge property page checksum mismatch";
  let decoded_len := pp_decoded_len entry in
  decoded ←
    (if compressed then
       ok_or (corrupted "edge property page zstd decode") (zstd_decompress encoded decoded_len)
     else
       ensure Z.of_nat (length encoded) =? decoded_len
         else corrupted "raw edge property page length mismatch";
       Ok encoded);
  ensure Z.of_nat (length decoded) =? decoded_len
    else corrupted "edge property page decoded length mismatch";
  decode_rows decoded (pp_row_count entry).
End Pages.

(** ** Exact-edge side-car values *)

Definition POINT_MAGIC : list byte := String.list_byte_of_string "NEP1".
Definition POINT_HEADER_SIZE : nat := 4 + 8 + 1 + 4 + 4.
Definition FLAG_TOMBSTONE : Z := 1.

Section PointValue.
Context {Props : Type} (no_props : Props).
(** [crc32fast] over the bytes fed to it, and [serde_json::from_slice] *)
Context (crc32 : list byte → Z) (props_from_slice : list byte → option Props).

Record EdgePointValue := { ep_lsn : Z; ep_tombstone : bool; ep_properties : Props }.

Definition value_checksum (lsn flags payload_len : Z) (payload : list byte) : Z :=
  crc32 (le_split 8 lsn ++ [z2b flags] ++ le_split 4 payload_len ++ payload).

Definition point_encode (lsn : Z) (tombstone : bool) (properties_payload : list byte)
    : Result (list byte) :=
  ensure negb (tombstone && negb (bool_decide (properties_payload = [])))
    else Invariant "edge-point tombstone cannot carry properties";
  payload_len ← try_u32 (Invariant "edge-point property payload exceeds 4 GiB")
                  (Z.of_nat (length properties_payload));
  let flags := (if tombstone then 1 else 0) * FLAG_TOMBSTONE in
  let checksum := value_checksum lsn flags payload_len properties_payload in
  Ok (POINT_MAGIC ++ le_split 8 lsn ++ [z2b flags] ++ le_split 4 payload_len
      ++ le_split 4 checksum ++ properties_payload).

Definition point_decode (bytes : list byte) (materialize_properties : bool) : Result EdgePointValue :=
  ensure negb ((length bytes <? POINT_HEADER_SIZE)%nat || negb (bool_decide (slice bytes 0 4 = POINT_MAGIC)))
    else Invariant "invalid edge-point value header";
  let lsn := le_combine (slice bytes 4 12) in
  let flags := b2z (byte_at bytes 12) in
  ensure Z.land flags (Z.lxor 0xFF FLAG_TOMBSTONE) =? 0
    else Invariant "edge-point value has unknown flags";
  let tombstone := negb (Z.land flags FLAG_TOMBSTONE =? 0) in
  let payload_len := le_combine (slice bytes 13 17) in
  let expected_crc := le_combine (slice bytes 17 21) in
  let payload := drop POINT_HEADER_SIZE bytes in
  ensure Z.of_nat (length payload) =? payload_len
    else Invariant "edge-point property payload length mismatch";
  ensure value_checksum lsn flags payload_len payload =? expected_crc
    else Invariant "edge-point value checksum mismatch";
  ensure negb (tombstone && negb (bool_decide (payload = [])))
    else Invariant "edge-point tombstone carries a property payload";
  properties ←
    (if materialize_properties && negb tombstone then
       ok_or (Invariant "edge-point properties decode") (props_from_slice payload)
     else Ok no_props);
  Ok {| ep_lsn := lsn; ep_tombstone := tombstone; ep_properties := properties |}.
End PointValue.

(** ** The fence index round-trips and brackets its target *)

Lemma read_fence_entries_bytes es buf off post :
  Forall (λ e, length (fe_key e) = 16%nat ∧ is_u64 (fe_key_ids_offset e)) es →
  drop off buf = concat (map (λ e, fe_key e ++ le_split 8 (fe_key_ids_offset e)) es) ++ post →
  read_fence_entries (length es) buf off = es.
Proof.
  intros HF. revert off. induction HF as [|e es [Hk Ho] HF IH]; intros off Hd; [done|].
  cbn [length read_fence_entries map concat] in *. rewrite <- !(assoc_L (++)) in Hd.
  f_equal.
  - rewrite <- (Nat.add_0_r off) at 1. rewrite !slice_cursor, Hd.
    reads. rewrite le_combine_split_small by done. by destruct e.
  - apply IH. unfold FENCE_ENTRY_LEN. rewrite (assoc_L (++)) in Hd.
    apply drop_app_inv in Hd. by rewrite length_app, Hk, length_le_split in Hd.
Qed.

Lemma fence_decode_encode f :
  is_u32 (fi_stride f) → Z.of_nat (length (fi_entries f)) ≤ u32_max →
  Forall (λ e, length (fe_key e) = 16%nat ∧ is_u64 (fe_key_ids_offset e)) (fi_entries f) →
  FenceIndex_decode (FenceIndex_encode f) = Ok f.
Proof.
  intros Hs Hn HF. unfold FenceIndex_decode.
  set (body := concat (map (λ e, fe_key e ++ le_split 8 (fe_key_ids_offset e)) (fi_entries f))).
  assert (length body = FENCE_ENTRY_LEN * length (fi_entries f))%nat as Hb.
  { unfold body. clear Hs Hn. induction HF as [|e es [Hk Ho] HF IH]; [done|]. cbn [map concat length].
    rewrite !length_app, IH, Hk, length_le_split. unfold FENCE_ENTRY_LEN. lia. }
  assert (length (FenceIndex_encode f) = FENCE_HEADER_LEN + length body)%nat as Hl.
  { unfold FenceIndex_encode. by rewrite !length_app, !length_le_split. }
  rewrite Hl, (proj2 (Nat.ltb_ge _ _)) by lia. cbn [negb].
  assert (slice (FenceIndex_encode f) 0 4 = le_split 4 (fi_stride f)
    ∧ slice (FenceIndex_encode f) 4 8 = le_split 4 (Z.of_nat (length (fi_entries f)))) as [-> ->].
  { unfold FenceIndex_encode. split; by reads. }
  rewrite !le_combine_split_small by (done || (simpl; word_lia)).
  rewrite (proj2 (Z.eqb_eq _ _)) by (rewrite Hb; lia). rewrite Nat2Z.id.
  rewrite (read_fence_entries_bytes _ _ _ []) by (done || by rewrite app_nil_r). by destruct f.
Qed.

Definition sorted_keys (keys : list (list byte)) : Prop := StronglySorted bytes_lt keys.

(** The [j]-th entry is the key at position [j * stride]. *)
Lemma fence_entries_from_lookup i stride keys j :
  0 < stride → 0 ≤ i →
  let d := (Z.to_nat ((- i) `mod` stride) + j * Z.to_nat stride)%nat in
  fence_entries_from i stride keys !! j
  = (λ key, {| fe_key := key; fe_key_ids_offset := (i + Z.of_nat d) * 16 |}) <$> keys !! d.
Proof.
  intros Hs. revert i j. induction keys as [|key keys IH]; intros i j Hi; cbn zeta; [done|].
  cbn [fence_entries_from]. destruct (Z.eqb_spec (i `mod` stride) 0) as [Hm|Hm].
  - rewrite Z.mod_opp_l_z by lia. destruct j as [|j]; [simpl; by rewrite Z.add_0_r|].
    cbn [lookup list_lookup]. rewrite IH by lia.
    assert ((- (i + 1)) `mod` stride = stride - 1) as ->.
    { apply Z.mod_divide in Hm as [q ->]; [|lia].
      symmetry. apply (Z.mod_unique_pos _ _ (- q - 1)); lia. }
    replace (Z.to_nat 0 + S j * Z.to_nat stride)%nat
      with (S (Z.to_nat (stride - 1) + j * Z.to_nat stride))%nat by lia.
    cbn [lookup list_lookup]. destruct (keys !! _); simpl; [|done]. do 2 f_equal. lia.
  - rewrite IH by lia.
    assert ((- i) `mod` stride = (- (i + 1)) `mod` stride + 1) as ->.
    { pose proof (Z.mod_pos_bound (- i) stride Hs) as Hb.
      pose proof (Z.div_mod (- i) stride ltac:(lia)) as Hd.
      assert ((- i) `mod` stride ≠ 0) by (intros H0; apply Hm; apply Z.mod_divide in H0 as [q Hq]; [|lia];
        apply Z.mod_divide; [lia|]; exists (- q); lia).
      enough ((- (i + 1)) `mod` stride = (- i) `mod` stride - 1) by lia.
      symmetry. apply (Z.mod_unique_pos _ _ ((- i) / stride)); lia. }
    pose proof (Z.mod_pos_bound (- (i + 1)) stride Hs).
    replace (Z.to_nat ((- (i + 1)) `mod` stride + 1) + j * Z.to_nat stride)%nat
      with (S (Z.to_nat ((- (i + 1)) `mod` stride) + j * Z.to_nat stride))%nat by lia.
    cbn [lookup list_lookup]. destruct (keys !! _); simpl; [|done]. do 2 f_equal. lia.
Qed.

Lemma fence_entries_lookup stride keys j :
  0 < stride →
  fence_entries_from 0 stride keys !! j
  = (λ key, {| fe_key := key; fe_key_ids_offset := Z.of_nat (j * Z.to_nat stride) * 16 |})
      <$> keys !! (j * Z.to_nat stride)%nat.
Proof. intros Hs. by rewrite fence_entries_from_lookup by lia. Qed.

Lemma fence_partition_prefix {A} (p : A → bool) l :
  (∀ j x, (j < fence_partition_point p l)%nat → l !! j = Some x → p x = true)
  ∧ (∀ x, l !! fence_partition_point p l = Some x → p x = false)
  ∧ (fence_partition_point p l ≤ length l)%nat.
Proof.
  induction l as [|y l (IH1 & IH2 & IH3)]; cbn [fence_partition_point].
  { split_and!; [intros; lia|done|done]. }
  destruct (p y) eqn:Hy; simpl; split_and!; try (intros; simplify_eq/=; lia); try done.
  - intros [|j] x Hj Hx; simplify_eq/=; [done|]. apply (IH1 j); [lia|done].
  - by intros x [= ->].
Qed.

Lemma bytes_leb_false a b : bytes_leb a b = false → bytes_lt b a.
Proof. unfold bytes_leb. destruct (bytes_cmp a b) eqn:E; try done. intros _. by apply bytes_cmp_gt. Qed.
Lemma bytes_leb_true a b : bytes_leb a b = true → a = b ∨ bytes_lt a b.
Proof. unfold bytes_leb. destruct (bytes_cmp a b) eqn:E; try done; intros _; [|by right]. left. by apply bytes_cmp_eq. Qed.

(** Positions in an ascending key column compare like the keys. *)
Lemma sorted_keys_index keys i j x y :
  sorted_keys keys → keys !! i = Some x → keys !! j = Some y → bytes_lt x y → (i < j)%nat.
Proof.
  intros HS Hi Hj Hxy. destruct (Nat.lt_trichotomy i j) as [|[->|Hlt]]; [done| |].
  - simplify_eq. by apply bytes_lt_irrefl in Hxy.
  - pose proof (StronglySorted_lookup_lt _ _ _ _ _ _ HS Hj Hi Hlt).
    exfalso. apply (bytes_lt_irrefl x). by apply (bytes_lt_trans x y x).
Qed.

Lemma fence_bracket_spec keys stride target lo hi :
  sorted_keys keys →
  FenceIndex_bracket_for (FenceIndex_build keys stride) target (Z.of_nat (length keys)) = (lo, hi) →
  0 ≤ lo ≤ hi ∧ hi ≤ Z.of_nat (length keys)
  ∧ ∀ i, keys !! i = Some target → lo ≤ Z.of_nat i < hi.
Proof.
  intros HS. unfold FenceIndex_bracket_for, FenceIndex_build. cbn [fi_entries].
  set (s := Z.max stride 1). assert (0 < s) as Hs by lia. set (es := fence_entries_from 0 s keys).
  assert (∀ j, es !! j = (λ key, {| fe_key := key; fe_key_ids_offset := Z.of_nat (j * Z.to_nat s) * 16 |})
                <$> keys !! (j * Z.to_nat s)%nat) as Hes by (intros; by apply fence_entries_lookup).
  clearbody es. destruct es as [|e0 es'] eqn:Ees.
  { intros [= <- <-]. split_and!; [lia..|]. intros i Hi. apply lookup_lt_Some in Hi. lia. }
  rewrite <- Ees in *. set (pos := fence_partition_point _ es).
  destruct (fence_partition_prefix (λ e, bytes_leb (fe_key e) target) es) as (Hlow & Hhigh & Hle).
  fold pos in Hlow, Hhigh, Hle.
  set (lo_idx := if (pos =? 0)%nat then 0%nat else (pos - 1)%nat).
  assert (is_Some (es !! lo_idx)) as [el Hel].
  { apply lookup_lt_is_Some. unfold lo_idx. destruct (Nat.eqb_spec pos 0); [rewrite Ees; simpl|]; lia. }
  pose proof Hel as Hel'. rewrite Hes in Hel'. apply fmap_Some in Hel' as (kl & Hkl & ->).
  rewrite Hel. cbn [from_option id fe_key_ids_offset]. rewrite Z.div_mul by lia.
  pose proof (lookup_lt_Some _ _ _ Hkl) as Hlen.
  assert (∀ i, keys !! i = Some target → (lo_idx * Z.to_nat s ≤ i)%nat) as Hlo.
  { intros i Hi. unfold lo_idx in *. destruct (Nat.eqb_spec pos 0); [lia|].
    destruct (bytes_leb_true kl target) as [->|Hlt].
    - by apply (Hlow (pos - 1)%nat _ ltac:(lia) Hel).
    - destruct (decide (i < (pos - 1) * Z.to_nat s)%nat) as [Hc|]; [|lia].
      pose proof (StronglySorted_lookup_lt _ _ _ _ _ _ HS Hi Hkl Hc). by apply bytes_lt_irrefl in H.
    - pose proof (sorted_keys_index _ _ _ _ _ HS Hkl Hi Hlt). lia. }
  destruct (es !! pos) as [eh|] eqn:Heh; intros [= <- <-].
  - pose proof (Hhigh eh eq_refl) as Hgt. rewrite Hes in Heh. apply fmap_Some in Heh as (kh & Hkh & ->).
    cbn [fe_key fe_key_ids_offset] in *. rewrite Z.div_mul by lia.
    pose proof (lookup_lt_Some _ _ _ Hkh) as Hlen'. apply bytes_leb_false in Hgt.
    split_and!; [lia| |lia|].
    + unfold lo_idx. destruct (Nat.eqb_spec pos 0) as [->|]; nia.
    + intros i Hi. specialize (Hlo i Hi). pose proof (sorted_keys_index _ _ _ _ _ HS Hi Hkh Hgt). lia.
  - split_and!; [lia..|]. intros i Hi. specialize (Hlo i Hi). apply lookup_lt_Some in Hi. lia.
Qed.

(** ** Property pages round-trip *)

Abbreviation PropValue := (option (list byte)).

Definition value_ok (v : PropValue) : Prop :=
  match v with Some s => utf8_valid s = true ∧ Z.of_nat (length s) ≤ u32_max | None => True end.

(** A row of a page: a tag, and for a present value its length and its bytes. *)
Definition row_bytes (v : PropValue) : list byte :=
  match v with
  | None => [z2b 0]
  | Some s => [z2b 1] ++ le_split 4 (Z.of_nat (length s)) ++ s
  end.
Definition rows_bytes (vs : list PropValue) : list byte :=
  le_split 4 (Z.of_nat (length vs)) ++ concat (map row_bytes vs).
#[global] Arguments row_bytes : simpl never.

Lemma row_bytes_length v : (1 ≤ length (row_bytes v))%nat.
Proof. destruct v; unfold row_bytes; simpl; lia. Qed.

Lemma decode_rows_loop_bytes vs bytes c acc post :
  Z.of_nat (length bytes) ≤ usize_max → Forall value_ok vs → (c ≤ length bytes)%nat →
  drop c bytes = concat (map row_bytes vs) ++ post →
  decode_rows_loop (length vs) bytes c acc
  = Ok (acc ++ vs, (c + length (concat (map row_bytes vs)))%nat).
Proof.
  intros Hfit HF. revert c acc. induction HF as [|v vs Hv HF IH]; intros c acc Hc Hd.
  { simpl. by rewrite app_nil_r, Nat.add_0_r. }
  cbn [map concat length decode_rows_loop] in *. rewrite <- (assoc_L (++)) in Hd.
  pose proof (drop_app_inv _ _ _ _ Hd) as Hd'.
  assert (c + length (row_bytes v) ≤ length bytes)%nat as Hle.
  { apply (f_equal length) in Hd. rewrite length_drop, length_app in Hd.
    pose proof (row_bytes_length v). lia. }
  rewrite length_app, Nat.add_assoc.
  specialize (λ acc', IH _ acc' Hle Hd'). destruct v as [s|]; unfold row_bytes in *.
  - destruct Hv as [Hu Hs]. cbn [length app] in Hd, Hd', Hle.
    apply drop_cons_inv in Hd as [-> Hd]. cbn [ok_or mbind result_bind].
    change (b2z (z2b 1) =? 0) with false. change (b2z (z2b 1) =? 1) with true. cbn iota.
    rewrite length_app, length_le_split in Hle. unfold usize_max in Hfit.
    rewrite checked_cursor_Ok by word_lia. cbn [mbind result_bind].
    rewrite get_slice_Some by lia. cbn [ok_or mbind result_bind].
    assert (slice bytes (S c) (S c + 4) = le_split 4 (Z.of_nat (length s))) as ->.
    { rewrite <- (Nat.add_0_r (S c)) at 1. rewrite slice_cursor, Hd, <- (assoc_L (++)). by reads. }
    rewrite le_combine_split_small by (simpl; word_lia). rewrite Nat2Z.id.
    rewrite checked_cursor_Ok by word_lia. cbn [mbind result_bind].
    rewrite get_slice_Some by lia. cbn [ok_or mbind result_bind].
    assert (slice bytes (S c + 4) (S c + 4 + length s) = s) as ->.
    { rewrite <- Nat.add_assoc, slice_cursor, Hd, <- (assoc_L (++)). by reads. }
    rewrite Hu.
    replace (S c + 4 + length s)%nat with (c + length ([z2b 1] ++ le_split 4 (Z.of_nat (length s)) ++ s))%nat.
    2:{ autorewrite with lengths. lia. }
    rewrite IH. by rewrite <- (assoc_L (++)).
  - cbn [app] in Hd. apply drop_cons_inv in Hd as [-> Hd]. cbn [ok_or mbind result_bind].
    change (b2z (z2b 0) =? 0) with true. cbn iota.
    replace (S c) with (c + length [z2b 0])%nat by (simpl; lia). rewrite IH. by rewrite <- (assoc_L (++)).
Qed.

Lemma decode_rows_bytes vs :
  Z.of_nat (length (rows_bytes vs)) ≤ u32_max → Forall value_ok vs →
  decode_rows (rows_bytes vs) (Z.of_nat (length vs)) = Ok vs.
Proof.
  intros Hfit HF. unfold decode_rows. unfold rows_bytes in *. set (rows := concat _) in *.
  assert (length vs ≤ length rows)%nat as Hge.
  { unfold rows. clear. induction vs as [|v vs IH]; [done|]. cbn [map concat length].
    rewrite length_app. pose proof (row_bytes_length v). lia. }
  rewrite length_app, length_le_split in *. rewrite (proj2 (Nat.ltb_ge _ _)) by lia. cbn [negb].
  reads. rewrite le_combine_split_small by (simpl; word_lia). rewrite Z.eqb_refl, Nat2Z.id.
  rewrite (decode_rows_loop_bytes vs _ _ _ []); [|rewrite length_app, length_le_split; word_lia|done| |].
  - cbn [mbind result_bind]. fold rows. by rewrite Nat.eqb_refl.
  - rewrite length_app, length_le_split. lia.
  - rewrite drop_app_length' by by rewrite length_le_split. by rewrite app_nil_r.
Qed.

Section PageFacts.
Context (xxh3_64 : list byte → Z) (zstd_decompress : list byte → Z → option (list byte)).
Hypothesis xxh3_64_u64 : ∀ bs, is_u64 (xxh3_64 bs).

(** A page in a stream: its rows and the bytes it is stored as. *)
Record page := { pg_rows : list PropValue; pg_enc : list byte }.

Definition page_ok (compressed : bool) (p : page) : Prop :=
  pg_rows p ≠ [] ∧ Z.of_nat (length (pg_rows p)) ≤ u32_max ∧ Forall value_ok (pg_rows p)
  ∧ Z.of_nat (length (rows_bytes (pg_rows p))) ≤ MAX_PROPERTY_PAGE_DECODE_BYTES
  ∧ if compressed
    then zstd_decompress (pg_enc p) (Z.of_nat (length (rows_bytes (pg_rows p))))
         = Some (rows_bytes (pg_rows p))
    else pg_enc p = rows_bytes (pg_rows p).

Definition page_entry (first_row offset : Z) (p : page) : PropertyPageEntry :=
  {| pp_first_row := first_row;
     pp_row_count := Z.of_nat (length (pg_rows p));
     pp_offset := offset;
     pp_encoded_len := Z.of_nat (length (pg_enc p));
     pp_decoded_len := Z.of_nat (length (rows_bytes (pg_rows p)));
     pp_checksum := xxh3_64 (pg_enc p) |}.

Fixpoint page_entries (first_row offset : Z) (ps : list page) : list PropertyPageEntry :=
  match ps with
  | [] => []
  | p :: rest =>
      page_entry first_row offset p
      :: page_entries (first_row + Z.of_nat (length (pg_rows p)))
           (offset + Z.of_nat (length (pg_enc p))) rest
  end.

Lemma decode_page compressed p first_row offset :
  page_ok compressed p →
  decode_property_page xxh3_64 zstd_decompress (pg_enc p) (page_entry first_row offset p) compressed
  = Ok (pg_rows p).
Proof.
  intros (_ & Hn & HF & Hmax & Henc). unfold decode_property_page. cbn.
  unfold MAX_PROPERTY_PAGE_DECODE_BYTES in Hmax.
  rewrite !Z.eqb_refl. destruct compressed.
  - rewrite Henc. cbn. rewrite Z.eqb_refl. apply decode_rows_bytes; [word_lia|done].
  - rewrite Henc, Z.eqb_refl. cbn. rewrite Z.eqb_refl. apply decode_rows_bytes; [word_lia|done].
Qed.

Definition entry_ok (e : PropertyPageEntry) : Prop :=
  is_u64 (pp_first_row e) ∧ is_u32 (pp_row_count e) ∧ is_u64 (pp_offset e)
  ∧ is_u64 (pp_encoded_len e) ∧ is_u64 (pp_decoded_len e) ∧ is_u64 (pp_checksum e).

Lemma length_entry_encode e : length (PropertyPageEntry_encode e []) = PROPERTY_PAGE_ENTRY_LEN.
Proof. done. Qed.

Lemma entry_decode_encode e :
  entry_ok e → PropertyPageEntry_decode (PropertyPageEntry_encode e []) = e.
Proof.
  intros (H1 & H2 & H3 & H4 & H5 & H6). unfold PropertyPageEntry_decode, PropertyPageEntry_encode.
  rewrite (left_id_L [] (++)). reads. rewrite !le_combine_split_small by done. by destruct e.
Qed.

Definition stream_rows (ps : list page) : list PropValue := concat (map pg_rows ps).
Definition stream_payload (ps : list page) : list byte := concat (map pg_enc ps).
Definition directory_of (es : list PropertyPageEntry) : list byte :=
  concat (map (λ e, PropertyPageEntry_encode e []) es).
Definition payload_start (ps : list page) : nat :=
  PROPERTY_PAGES_HEADER_LEN + PROPERTY_PAGE_ENTRY_LEN * length ps.

(** The section a stream of pages is stored as. *)
Definition stream_bytes (ps : list page) : list byte :=
  PROPERTY_PAGES_MAGIC ++ le_split 2 PROPERTY_PAGES_VERSION ++ le_split 2 0
  ++ le_split 4 (Z.of_nat (length ps)) ++ le_split 8 (Z.of_nat (length (stream_rows ps)))
  ++ le_split 4 (Z.of_nat PROPERTY_PAGE_ENTRY_LEN) ++ le_split 4 0
  ++ directory_of (page_entries 0 (Z.of_nat (payload_start ps)) ps) ++ stream_payload ps.

Lemma length_page_entries row off ps : length (page_entries row off ps) = length ps.
Proof. revert row off. induction ps as [|p ps IH]; intros; simpl; [done|]. by rewrite IH. Qed.
Lemma length_directory_of es : length (directory_of es) = (PROPERTY_PAGE_ENTRY_LEN * length es)%nat.
Proof.
  unfold directory_of. induction es as [|e es IH]; [done|]. cbn [map concat].
  rewrite length_app, IH, length_entry_encode. cbn [length]. lia.
Qed.
Lemma length_stream_bytes ps :
  length (stream_bytes ps) = (payload_start ps + length (stream_payload ps))%nat.
Proof.
  unfold stream_bytes. rewrite !length_app, !length_le_split, length_directory_of, length_page_entries.
  unfold payload_start, PROPERTY_PAGES_HEADER_LEN. simpl. lia.
Qed.

Lemma parse_page_entries_bytes compressed ps section_len row off acc :
  Forall (page_ok compressed) ps → 0 ≤ row → 0 ≤ off → section_len ≤ u64_max →
  row + Z.of_nat (length (stream_rows ps)) ≤ u64_max →
  off + Z.of_nat (length (stream_payload ps)) ≤ section_len →
  parse_page_entries (length ps) (directory_of (page_entries row off ps)) section_len row off acc
  = Ok (acc ++ page_entries row off ps, row + Z.of_nat (length (stream_rows ps)),
        off + Z.of_nat (length (stream_payload ps))).
Proof.
  intros HF. unfold stream_rows, stream_payload. revert row off acc.
  induction HF as [|p ps (Hne & Hn & _ & Hmax & _) HF IH]; intros row off acc Hrow Hoff Hsl Hr Ho.
  { simpl. by rewrite app_nil_r, !Z.add_0_r. }
  unfold directory_of. cbn [map concat page_entries length parse_page_entries] in *.
  rewrite !length_app in *.
  rewrite take_app_length', drop_app_length' by done.
  assert (Z.of_nat (length (pg_rows p)) ≠ 0) by (destruct (pg_rows p); simpl; [done|lia]).
  unfold MAX_PROPERTY_PAGE_DECODE_BYTES in Hmax.
  rewrite entry_decode_encode.
  2:{ unfold entry_ok, page_entry, is_uint. cbn. split_and!; try apply xxh3_64_u64; try word_lia. }
  cbn [pp_row_count pp_first_row pp_offset pp_decoded_len pp_encoded_len page_entry].
  rewrite (proj2 (Z.eqb_neq _ _)) by done. rewrite !Z.eqb_refl. cbn [negb].
  unfold MAX_PROPERTY_PAGE_DECODE_BYTES, checked_add64.
  do 4 (rewrite (proj2 (Z.leb_le _ _)) by lia; cbn [mbind result_bind ok_or]).
  fold (directory_of (page_entries (row + Z.of_nat (length (pg_rows p)))
    (off + Z.of_nat (length (pg_enc p))) ps)).
  rewrite IH by lia. rewrite <- (assoc_L (++)). f_equal. f_equal; [f_equal|]; lia.
Qed.

Lemma stream_prefix_len ps rest :
  let body := stream_bytes ps ++ rest in
  Z.of_nat (PROPERTY_PAGE_ENTRY_LEN * length ps) ≤ MAX_PROPERTY_PAGE_DIRECTORY_BYTES →
  Z.of_nat (payload_start ps) ≤ Z.of_nat (length body) →
  PropertyPageIndex_required_prefix_len body (Z.of_nat (length body)) = Ok (payload_start ps).
Proof.
  intros body Hdir Hle. unfold PropertyPageIndex_required_prefix_len.
  assert (PROPERTY_PAGES_HEADER_LEN ≤ length body)%nat by (unfold payload_start in Hle; lia).
  rewrite (proj2 (Nat.ltb_ge _ _)) by lia. cbn [negb].
  assert (slice body 0 8 = PROPERTY_PAGES_MAGIC ∧ slice body 8 10 = le_split 2 PROPERTY_PAGES_VERSION
    ∧ slice body 10 12 = le_split 2 0 ∧ slice body 12 16 = le_split 4 (Z.of_nat (length ps))
    ∧ slice body 24 28 = le_split 4 (Z.of_nat PROPERTY_PAGE_ENTRY_LEN) ∧ slice body 28 32 = le_split 4 0)
    as (-> & -> & -> & -> & -> & ->).
  { unfold body, stream_bytes. rewrite <- !(assoc_L (++)). split_and!; by reads. }
  unfold MAX_PROPERTY_PAGE_DIRECTORY_BYTES, PROPERTY_PAGE_ENTRY_LEN in *.
  rewrite !bool_decide_true by done. rewrite !le_combine_split_small by (done || (simpl; lia)).
  rewrite !Z.eqb_refl. unfold checked_mul64, checked_add64, payload_start, PROPERTY_PAGES_HEADER_LEN,
    PROPERTY_PAGE_ENTRY_LEN in *.
  do 4 (rewrite (proj2 (Z.leb_le _ _)) by (unfold u64_max; lia); cbn [mbind result_bind ok_or]).
  f_equal. lia.
Qed.

Lemma parse_prefix_stream compressed ps :
  Forall (page_ok compressed) ps →
  Z.of_nat (PROPERTY_PAGE_ENTRY_LEN * length ps) ≤ MAX_PROPERTY_PAGE_DIRECTORY_BYTES →
  Z.of_nat (length (stream_bytes ps)) ≤ u64_max → Z.of_nat (length (stream_rows ps)) ≤ u64_max →
  PropertyPageIndex_parse_prefix (stream_bytes ps) (Z.of_nat (length (stream_bytes ps)))
  = Ok {| pi_row_count := Z.of_nat (length (stream_rows ps));
          pi_entries := page_entries 0 (Z.of_nat (payload_start ps)) ps |}.
Proof.
  intros HF Hdir Hlen Hrows. unfold PropertyPageIndex_parse_prefix.
  pose proof (length_stream_bytes ps) as Hl.
  pose proof (stream_prefix_len ps []) as Hp. cbn zeta in Hp. rewrite app_nil_r in Hp.
  rewrite Hp by (done || lia). cbn [mbind result_bind].
  assert (slice (stream_bytes ps) 16 24 = le_split 8 (Z.of_nat (length (stream_rows ps)))
    ∧ slice (stream_bytes ps) PROPERTY_PAGES_HEADER_LEN (payload_start ps)
      = directory_of (page_entries 0 (Z.of_nat (payload_start ps)) ps)) as [-> ->].
  { split; [unfold stream_bytes; by reads|]. unfold stream_bytes. rewrite !(assoc_L (++)).
    rewrite <- (assoc_L (++) _ (directory_of _)).
    apply slice_app_mid; rewrite ?length_directory_of, ?length_page_entries; done. }
  rewrite (proj2 (Nat.ltb_ge _ _)) by lia. cbn [negb].
  replace ((payload_start ps - PROPERTY_PAGES_HEADER_LEN) `div` PROPERTY_PAGE_ENTRY_LEN)%nat with (length ps).
  2:{ unfold payload_start. replace (_ + _ - _)%nat with (length ps * PROPERTY_PAGE_ENTRY_LEN)%nat by lia.
      by rewrite Nat.div_mul. }
  rewrite (parse_page_entries_bytes compressed) by (done || lia). cbn [mbind result_bind].
  rewrite le_combine_split_small by (simpl; word_lia).
  rewrite (proj2 (Z.eqb_eq _ _)) by lia. rewrite (proj2 (Z.eqb_eq _ _)) by lia. done.
Qed.
End PageFacts.

(** ** Exact-edge values round-trip *)

Section PointFacts.
Context {Props : Type} (no_props : Props) (crc32 : list byte → Z) (props_from_slice : list byte → option Props).
Hypothesis crc32_u32 : ∀ bs, is_u32 (crc32 bs).

Lemma point_decode_encode lsn tombstone payload bytes materialize :
  is_u64 lsn → point_encode crc32 lsn tombstone payload = Ok bytes →
  point_decode no_props crc32 props_from_slice bytes materialize
  = (properties ← (if materialize && negb tombstone
                   then ok_or (Invariant "edge-point properties decode") (props_from_slice payload)
                   else Ok no_props);
     Ok {| ep_lsn := lsn; ep_tombstone := tombstone; ep_properties := properties |})
  ∧ (tombstone = true → payload = []).
Proof.
  intros Hlsn. unfold point_encode, try_u32.
  destruct (tombstone && negb (bool_decide (payload = []))) eqn:Ht; cbn [negb]; [done|].
  destruct (Z.leb_spec (Z.of_nat (length payload)) u32_max) as [Hlen|]; [|done].
  cbn [mbind result_bind]. set (flags := _ * FLAG_TOMBSTONE).
  set (crc := value_checksum crc32 lsn flags _ payload).
  set (buf := POINT_MAGIC ++ _). intros [= <-].
  split; [|intros ->; apply andb_false_iff in Ht as [|Ht]; [done|];
           apply negb_false_iff, bool_decide_eq_true in Ht; done].
  unfold point_decode.
  assert (length buf = POINT_HEADER_SIZE + length payload)%nat as Hl
    by (unfold buf; rewrite !length_app, !length_le_split; done).
  rewrite (proj2 (Nat.ltb_ge _ _)) by lia.
  assert (slice buf 0 4 = POINT_MAGIC ∧ slice buf 4 12 = le_split 8 lsn ∧ byte_at buf 12 = z2b flags
    ∧ slice buf 13 17 = le_split 4 (Z.of_nat (length payload)) ∧ slice buf 17 21 = le_split 4 crc
    ∧ drop POINT_HEADER_SIZE buf = payload) as (-> & -> & -> & -> & -> & ->).
  { unfold buf. split_and!; [by reads..|]. rewrite !(assoc_L (++)). by apply drop_app_length'. }
  rewrite bool_decide_true by done. cbn [negb orb].
  rewrite !le_combine_split_small by (done || apply crc32_u32 || (simpl; word_lia)).
  assert (b2z (z2b flags) = flags) as -> by (unfold flags; by destruct tombstone).
  fold crc. rewrite !Z.eqb_refl.
  assert (negb (Z.land flags FLAG_TOMBSTONE =? 0) = tombstone) as -> by (unfold flags; by destruct tombstone).
  assert ((Z.land flags (Z.lxor 255 FLAG_TOMBSTONE) =? 0) = true) as -> by (unfold flags; by destruct tombstone).
  by rewrite Ht.
Qed.
End PointFacts.
