(* ===== verification/EdgeReader.v ===== *)
(** The in-memory reader of an edge SST ([sst/edges/reader.rs]).

    [open] parses and validates a body; the lookups slice its sections. A computation
    that could index out of range is an [outcome], whose [None] is the panic.
    Parameters: [xxh3_64], zstd, the Arrow IPC reader of the legacy property streams,
    and the environment variable that bounds a decoded partner block. [usize] is 64
    bits wide, so the conversions from [u64] do not fail. *)
From S2P Require Import Prelude StorageError EdgeEncoding EdgeFormat EdgePages.

Record EdgeSstReader := {
  rd_body : list byte;
  rd_header : EdgeFileHeader;
  rd_footer : EdgeFileFooter;
  rd_fence_index : option FenceIndex;
  rd_offset_width : OffsetWidth;
  rd_cumulative_edges : list Z;
}.

Record EdgeLookup := {
  el_partners : list (list byte);
  el_lsns : list Z;
  el_tombstones : list bool;
  el_edge_offset : nat;
}.

Record EdgePointLookup := { epl_lsn : Z; epl_tombstone : bool; epl_edge_offset : nat }.

Record EdgeRowProjection := {
  ep_key_id : list byte; ep_partner_id : list byte; ep_row_lsn : Z; ep_row_tombstone : bool;
}.

(** ** Sections *)

Definition optional_unique_section (footer : EdgeFileFooter) (kind : Z) : Result (option SectionEntry) :=
  match filter (λ entry, se_kind entry = kind) (ef_sections footer) with
  | [] => Ok None
  | [first] => Ok (Some first)
  | _ => Err (corrupted "edge SST contains duplicate section kind")
  end.

Definition required_unique_section (footer : EdgeFileFooter) (kind : Z) : Result SectionEntry :=
  entry ← optional_unique_section footer kind;
  ok_or (corrupted "edge SST missing mandatory section kind") entry.

Definition section_slice (body : list byte) (entry : SectionEntry) : Result (list byte) :=
  let start := se_offset entry in
  end_ ← ok_or (Invariant "section offset+length overflows u64")
           (checked_add64 (se_offset entry) (se_length entry));
  body_end ← ok_or (Invariant "edge body is shorter than its footer trailer")
               (checked_sub64 (Z.of_nat (length body)) (Z.of_nat FOOTER_TRAILER_LEN));
  ensure negb ((start <? Z.of_nat HEADER_LEN) || (body_end <? end_))
    else corrupted "section outside body window";
  Ok (slice body (Z.to_nat start) (Z.to_nat end_)).

(** The checks of [validate_eager_layout]. *)
Definition validate_eager_layout (header : EdgeFileHeader) (footer : EdgeFileFooter)
    (offset_width : OffsetWidth) : Result unit :=
  key_ids ← required_unique_section footer SECTION_KEY_IDS;
  offsets ← required_unique_section footer SECTION_OFFSETS;
  partners ← required_unique_section footer SECTION_PARTNERS;
  lsns ← required_unique_section footer SECTION_PER_EDGE_LSN;
  ensure forallb (λ entry, se_codec entry =? CODEC_NONE) [key_ids; offsets; partners; lsns]
    else corrupted "topology section must be uncompressed";
  expected_key_bytes ← ok_or (Invariant "key_ids length overflows u64")
                         (checked_mul64 (ef_key_count footer) 16);
  ensure se_length key_ids =? expected_key_bytes else corrupted "key_ids length != key_count*16";
  let stride := Z.of_nat (OffsetWidth_bytes offset_width) in
  expected_offset_bytes ← ok_or (Invariant "offsets length overflows u64")
    (rows ← checked_add64 (ef_key_count footer) 1; checked_mul64 rows stride);
  ensure se_length offsets =? expected_offset_bytes
    else corrupted "offsets length != (key_count+1)*stride";
  expected_lsn_bytes ← ok_or (Invariant "per-edge LSN length overflows u64")
                         (checked_mul64 (ef_edge_count footer) 8);
  ensure se_length lsns =? expected_lsn_bytes else corrupted "per_edge_lsn length != edge_count*8";
  ensure ef_key_count footer <=? ef_edge_count footer else corrupted "key_count exceeds edge_count";
  ordinals ← optional_unique_section footer SECTION_EDGE_ORDINALS;
  ensure negb ((2 <=? eh_format_minor header) && match ordinals with None => true | _ => false end)
    else corrupted "edge SST v1.2 is missing its edge ordinal section";
  _ ← match ordinals with
      | None => Ok tt
      | Some ordinals =>
          ensure se_codec ordinals =? CODEC_NONE else corrupted "edge ordinal section must be uncompressed";
          expected ← ok_or (Invariant "edge ordinal length overflows u64")
            (rows ← checked_add64 (ef_key_count footer) 1; checked_mul64 rows 8);
          ensure se_length ordinals =? expected else corrupted "edge ordinal length != (key_count+1)*8";
          Ok tt
      end;
  tombstones ← optional_unique_section footer SECTION_PER_EDGE_TOMBSTONES;
  ensure Bool.eqb (negb (Z.land (eh_flags header) FLAG_HAS_TOMBSTONES =? 0))
           match tombstones with Some _ => true | None => false end
    else corrupted "HAS_TOMBSTONES flag and tombstone section presence disagree";
  _ ← match tombstones with
      | None => Ok tt
      | Some tombstones =>
          ensure se_codec tombstones =? CODEC_NONE else corrupted "tombstone section must be uncompressed";
          rounded ← ok_or (Invariant "tombstone length rounds past u64")
                      (checked_add64 (ef_edge_count footer) 7);
          ensure se_length tombstones =? rounded / 8
            else corrupted "tombstone length != ceil(edge_count/8)";
          Ok tt
      end;
  fence ← optional_unique_section footer SECTION_FENCE_INDEX;
  match fence with
  | None => Ok tt
  | Some fence =>
      ensure se_codec fence =? CODEC_NONE else corrupted "fence index must be uncompressed";
      Ok tt
  end.

(** The [for k in 0..key_count] loop of [build_cumulative_edges]. *)
Fixpoint cumulative_loop (n k stride : nat) (width : OffsetWidth) (offsets_bytes partners_bytes : list byte)
    (running : Z) (cumulative : list Z) : Result (list Z * Z) :=
  match n with
  | O => Ok (cumulative, running)
  | S n' =>
      block_start ← read_offset offsets_bytes (k * stride) width;
      '(deg, _) ← read_varint partners_bytes (Z.to_nat block_start);
      running ← ok_or (Invariant "cumulative edge count overflows u64 while opening SST")
                  (checked_add64 running deg);
      cumulative_loop n' (S k) stride width offsets_bytes partners_bytes running
        (cumulative ++ [running])
  end.

Definition build_cumulative_edges (body : list byte) (footer : EdgeFileFooter) (width : OffsetWidth)
    : Result (list Z) :=
  _ ← ok_or (Invariant "cumulative edge row count overflows usize")
        (checked_add64 (ef_key_count footer) 1);
  if ef_key_count footer =? 0 then
    ensure ef_edge_count footer =? 0 else corrupted "edge SST claims key_count=0 but has edges";
    Ok [0]
  else
    offsets_entry ← ok_or (Invariant "offsets section missing despite earlier check")
                      (EdgeFileFooter_find_kind footer SECTION_OFFSETS);
    partners_entry ← ok_or (Invariant "partners section missing despite earlier check")
                       (EdgeFileFooter_find_kind footer SECTION_PARTNERS);
    offsets_bytes ← section_slice body offsets_entry;
    partners_bytes ← section_slice body partners_entry;
    '(cumulative, running) ← cumulative_loop (Z.to_nat (ef_key_count footer)) 0
        (OffsetWidth_bytes width) width offsets_bytes partners_bytes 0 [0];
    ensure running =? ef_edge_count footer
      else corrupted "edge SST cumulative degrees disagree with footer.edge_count";
    Ok cumulative.

Section Reader.
Context (xxh3_64 : list byte → Z).
Context (zstd_decompress : list byte → Z → option (list byte)).
(** [zstd::stream::decode_all] and the strings of an Arrow IPC stream's first column *)
Context (zstd_decode_all : list byte → option (list byte)).
Context (arrow_ipc_strings : list byte → Result (list PropValue)).
(** [NAMIDB_EDGE_DECODE_MAX_BYTES] *)
Context (env : EnvVar).

Definition verified_section (body : list byte) (entry : SectionEntry) : Result (list byte) :=
  bytes ← section_slice body entry;
  ensure xxh3_64 bytes =? se_xxhash3_64 entry else corrupted "section xxhash mismatch";
  Ok bytes.

(** [for entry in &footer.sections] of [open]: property streams stay lazy. *)
Fixpoint verify_sections (body : list byte) (sections : list SectionEntry) : Result unit :=
  match sections with
  | [] => Ok tt
  | entry :: rest =>
      _ ← (if negb (se_kind entry =? SECTION_PROPERTY_STREAM)
           then (_ ← verified_section body entry; Ok tt) else Ok tt);
      verify_sections body rest
  end.

(** The page-checksum directory: at most one, mandatory from v1.2. *)
Definition check_page_directory (body : list byte) (header : EdgeFileHeader) (footer : EdgeFileFooter)
    : Result unit :=
  let checksum_entries := filter (λ entry, se_kind entry = SECTION_PAGE_CHECKSUMS) (ef_sections footer) in
  ensure (length checksum_entries <=? 1)%nat
    else corrupted "edge SST contains duplicate page checksum directories";
  ensure negb ((2 <=? eh_format_minor header) && bool_decide (checksum_entries = []))
    else corrupted "edge SST v1.2 is missing its page checksum directory";
  match checksum_entries with
  | [] => Ok tt
  | entry :: _ =>
      ensure (se_codec entry =? CODEC_NONE) && bool_decide (se_name entry = [])
        else corrupted "page checksum directory must be unnamed and uncompressed";
      ensure se_length entry <=? MAX_EDGE_PAGE_CHECKSUM_DIRECTORY_BYTES
        else corrupted "page checksum directory length exceeds limit";
      bytes ← section_slice body entry;
      _ ← EdgePageChecksumDirectory_decode bytes footer;
      Ok tt
  end.

(** The identity binding: at most one, validated against the header and the table. *)
Definition check_binding (body : list byte) (footer : EdgeFileFooter) : Result unit :=
  let bindings := filter (λ entry, se_kind entry = SECTION_SST_BINDING) (ef_sections footer) in
  ensure (length bindings <=? 1)%nat else corrupted "edge SST contains duplicate identity bindings";
  match bindings with
  | [] => Ok tt
  | entry :: _ =>
      ensure (se_codec entry =? CODEC_NONE) && bool_decide (se_name entry = [])
        else corrupted "edge SST identity binding must be unnamed and uncompressed";
      bytes ← section_slice body entry;
      binding ← EdgeSstBinding_decode bytes;
      EdgeSstBinding_validate xxh3_64 binding (take HEADER_LEN body) (ef_sections footer) None
  end.

Definition EdgeSstReader_open (body : list byte) : Result EdgeSstReader :=
  header ← EdgeFileHeader_decode body;
  '(footer, _) ← EdgeFileFooter_decode xxh3_64 body;
  offset_width ← OffsetWidth_from_bits (ef_offsets_bits footer);
  _ ← validate_eager_layout header footer offset_width;
  _ ← verify_sections body (ef_sections footer);
  _ ← check_page_directory body header footer;
  _ ← check_binding body footer;
  fence_index ←
    match EdgeFileFooter_find_kind footer SECTION_FENCE_INDEX with
    | Some entry => bytes ← section_slice body entry; f ← FenceIndex_decode bytes; Ok (Some f)
    | None => Ok None
    end;
  ensure forallb (λ required, match EdgeFileFooter_find_kind footer required with
                              | Some _ => true | None => false end)
           [SECTION_KEY_IDS; SECTION_OFFSETS; SECTION_PARTNERS; SECTION_PER_EDGE_LSN]
    else corrupted "edge SST missing mandatory section kind";
  cumulative_edges ← build_cumulative_edges body footer offset_width;
  Ok {| rd_body := body;
        rd_header := header;
        rd_footer := footer;
        rd_fence_index := fence_index;
        rd_offset_width := offset_width;
        rd_cumulative_edges := cumulative_edges |}.

(** [section(kind, name)] *)
Definition reader_section (r : EdgeSstReader) (kind : Z) (name : list byte) : Result (list byte) :=
  entry ← ok_or (corrupted "edge SST missing section")
            (match name with
             | [] => EdgeFileFooter_find_kind (rd_footer r) kind
             | _ => EdgeFileFooter_find (rd_footer r) kind name
             end);
  if kind =? SECTION_PROPERTY_STREAM then verified_section (rd_body r) entry
  else section_slice (rd_body r) entry.

Definition section_with_name (r : EdgeSstReader) (kind : Z) (name : list byte) : Result (list byte) :=
  entry ← ok_or (corrupted "edge SST missing section") (EdgeFileFooter_find (rd_footer r) kind name);
  verified_section (rd_body r) entry.

(** ** Key lookup *)

Definition reader_position_of (r : EdgeSstReader) (key : list byte) : Result (option Z) :=
  let footer := rd_footer r in
  if match bytes_cmp key (ef_min_key_id footer) with Lt => true | _ => false end
     || match bytes_cmp key (ef_max_key_id footer) with Gt => true | _ => false end
  then Ok None
  else
    key_ids ← reader_section r SECTION_KEY_IDS [];
    let key_count := ef_key_count footer in
    let bracket := match rd_fence_index r with
                   | Some fence => FenceIndex_bracket_for fence key key_count
                   | None => (0, key_count)
                   end in
    let lo := bracket.1 in
    let hi := bracket.2 in
    if lo =? hi then Ok None
    else
      start ← ok_or (Invariant "key-id window start overflows usize") (checked_mul64 lo 16);
      end_ ← ok_or (Invariant "key-id window end overflows usize") (checked_mul64 hi 16);
      window ← ok_or (corrupted "key-id window exceeds section length")
                 (if Z.of_nat (length key_ids) <? Z.max start end_ then None
                  else get_slice key_ids (Z.to_nat start) (Z.to_nat end_));
      found ← binary_search_fixed_16 window key;
      Ok (match found with Some offset => Some (lo + Z.of_nat offset) | None => None end).

(** The partner block of the [idx]-th key: its bounds in the partners section. *)
Definition block_bounds (r : EdgeSstReader) (offsets_bytes partners_bytes : list byte) (idx : nat)
    : Result (nat * nat) :=
  let stride := OffsetWidth_bytes (rd_offset_width r) in
  start ← read_offset offsets_bytes (idx * stride) (rd_offset_width r);
  end_ ← read_offset offsets_bytes ((idx + 1) * stride) (rd_offset_width r);
  ensure negb ((end_ <? start) || (Z.of_nat (length partners_bytes) <? end_))
    else corrupted "partner block bounds exceed section length";
  Ok (Z.to_nat start, Z.to_nat end_).

(** [self.cumulative_edges[idx + 1].checked_sub(self.cumulative_edges[idx])] *)
Definition expected_degree (r : EdgeSstReader) (idx : nat) : outcome Z :=
  hi ← index (rd_cumulative_edges r) (idx + 1);
  lo ← index (rd_cumulative_edges r) idx;
  lift (ok_or (Invariant "partner degree does not fit usize") (checked_sub64 hi lo)).

(** [(edge_offset..edge_end).map(lsn).collect()], and the same for the bits. *)
Fixpoint read_lsns (n i : nat) (lsn_bytes : list byte) : Result (list Z) :=
  match n with
  | O => Ok []
  | S n' =>
      off ← ok_or (Invariant "per-edge LSN offset overflows usize") (checked_mul64 (Z.of_nat i) 8);
      row ← ok_or (corrupted "per-edge LSN row exceeds section length")
              (get_slice lsn_bytes (Z.to_nat off) (Z.to_nat off + 8));
      rest ← read_lsns n' (S i) lsn_bytes;
      Ok (le_combine row :: rest)
  end.

(** [(byte >> (i % 8)) & 1 == 1] *)
Definition tombstone_bit (b : byte) (i : nat) : bool :=
  Z.land (Z.shiftr (b2z b) (Z.of_nat (i `mod` 8))) 1 =? 1.

Fixpoint read_tombstones (n i : nat) (tomb_bytes : list byte) : Result (list bool) :=
  match n with
  | O => Ok []
  | S n' =>
      byte ← ok_or (corrupted "per-edge tombstone row exceeds section length")
               (tomb_bytes !! (i `div` 8)%nat);
      rest ← read_tombstones n' (S i) tomb_bytes;
      Ok (tombstone_bit byte i :: rest)
  end.

Definition has_tombstones (r : EdgeSstReader) : bool :=
  match EdgeFileFooter_find_kind (rd_footer r) SECTION_PER_EDGE_TOMBSTONES with
  | Some _ => true | None => false end.

Definition EdgeSstReader_lookup (r : EdgeSstReader) (key : list byte) : outcome (option EdgeLookup) :=
  position ← lift (reader_position_of r key);
  match position with
  | None => mret None
  | Some idx =>
      let idx := Z.to_nat idx in
      offsets_bytes ← lift (reader_section r SECTION_OFFSETS []);
      partners_bytes ← lift (reader_section r SECTION_PARTNERS []);
      '(start, end_) ← lift (block_bounds r offsets_bytes partners_bytes idx);
      degree ← expected_degree r idx;
      '(partners, consumed) ← lift (read_partner_block_expected env partners_bytes start degree);
      if negb (start + consumed =? end_)%nat then
        fail (corrupted "partner block consumed another length than the offsets sentinel")
      else
        edge_offset ← index (rd_cumulative_edges r) idx;
        let edge_offset := Z.to_nat edge_offset in
        lsn_bytes ← lift (reader_section r SECTION_PER_EDGE_LSN []);
        lsns ← lift (read_lsns (length partners) edge_offset lsn_bytes);
        tombstones ←
          (if has_tombstones r then
             tomb_bytes ← lift (reader_section r SECTION_PER_EDGE_TOMBSTONES []);
             lift (read_tombstones (length partners) edge_offset tomb_bytes)
           else mret (replicate (length partners) false) : outcome (list bool));
        mret (Some {| el_partners := partners; el_lsns := lsns; el_tombstones := tombstones;
                      el_edge_offset := edge_offset |})
  end.

Definition EdgeSstReader_lookup_partner (r : EdgeSstReader) (key partner : list byte)
    : outcome (option EdgePointLookup) :=
  position ← lift (reader_position_of r key);
  match position with
  | None => mret None
  | Some idx =>
      let idx := Z.to_nat idx in
      offsets_bytes ← lift (reader_section r SECTION_OFFSETS []);
      partners_bytes ← lift (reader_section r SECTION_PARTNERS []);
      '(start, end_) ← lift (block_bounds r offsets_bytes partners_bytes idx);
      found ← lift (find_partner_in_block (slice partners_bytes start end_) 0 partner);
      match found with
      | None => mret None
      | Some relative_idx =>
          base ← index (rd_cumulative_edges r) idx;
          let edge_offset := (Z.to_nat base + relative_idx)%nat in
          if ef_edge_count (rd_footer r) <=? Z.of_nat edge_offset then
            fail (corrupted "edge point offset exceeds edge_count")
          else
            lsn_bytes ← lift (reader_section r SECTION_PER_EDGE_LSN []);
            lsns ← lift (read_lsns 1 edge_offset lsn_bytes);
            tombstones ←
              (if has_tombstones r then
                 tomb_bytes ← lift (reader_section r SECTION_PER_EDGE_TOMBSTONES []);
                 lift (read_tombstones 1 edge_offset tomb_bytes)
               else mret [false] : outcome (list bool));
            lsn ← index lsns 0;
            tombstone ← index tombstones 0;
            mret (Some {| epl_lsn := lsn; epl_tombstone := tombstone; epl_edge_offset := edge_offset |})
      end
  end.

(** ** Scans *)

(** [buf[a..b]]; out of range panics. *)
Definition index_range (buf : list byte) (a b : nat) : outcome (list byte) :=
  match get_slice buf a b with Some s => Some (Ok s) | None => None end.

(** The [for (i, partner_id) in partners.iter().enumerate()] loop, at edge [edge_i]. *)
Fixpoint project_edge_rows (key_id : list byte) (partners : list (list byte)) (edge_i : nat)
    (lsn_bytes : list byte) (tomb_bytes : option (list byte)) : outcome (list EdgeRowProjection) :=
  match partners with
  | [] => mret []
  | partner_id :: rest =>
      row ← index_range lsn_bytes (edge_i * 8) (edge_i * 8 + 8);
      tombstone ←
        (match tomb_bytes with
         | Some b => byte ← index b (edge_i `div` 8)%nat; mret (tombstone_bit byte edge_i)
         | None => mret false
         end : outcome bool);
      out ← project_edge_rows key_id rest (S edge_i) lsn_bytes tomb_bytes;
      mret ({| ep_key_id := key_id; ep_partner_id := partner_id; ep_row_lsn := le_combine row;
               ep_row_tombstone := tombstone |} :: out)
  end.

Definition EdgeSstReader_key_edges (r : EdgeSstReader) (k_idx : nat) : outcome (list EdgeRowProjection) :=
  key_ids ← lift (reader_section r SECTION_KEY_IDS []);
  offsets_bytes ← lift (reader_section r SECTION_OFFSETS []);
  partners_bytes ← lift (reader_section r SECTION_PARTNERS []);
  lsn_bytes ← lift (reader_section r SECTION_PER_EDGE_LSN []);
  tomb_bytes ←
    (if has_tombstones r
     then b ← lift (reader_section r SECTION_PER_EDGE_TOMBSTONES []); mret (Some b)
     else mret None : outcome (option (list byte)));
  let stride := OffsetWidth_bytes (rd_offset_width r) in
  key_id ← lift (ok_or (Invariant "key_ids row length != 16")
                   (get_slice key_ids (k_idx * 16) ((k_idx + 1) * 16)));
  start ← lift (read_offset offsets_bytes (k_idx * stride) (rd_offset_width r));
  edge_idx ← index (rd_cumulative_edges r) k_idx;
  degree ← expected_degree r k_idx;
  '(partners, _) ← lift (read_partner_block_expected env partners_bytes (Z.to_nat start) degree);
  project_edge_rows key_id partners (Z.to_nat edge_idx) lsn_bytes tomb_bytes.

(** [for k_idx in 0..key_count] *)
Fixpoint scan_keys (n k_idx : nat) (r : EdgeSstReader) (out : list EdgeRowProjection)
    : outcome (list EdgeRowProjection) :=
  match n with
  | O => mret out
  | S n' =>
      edges ← EdgeSstReader_key_edges r k_idx;
      scan_keys n' (S k_idx) r (out ++ edges)
  end.

Definition EdgeSstReader_scan_all_edges (r : EdgeSstReader) : outcome (list EdgeRowProjection) :=
  scan_keys (Z.to_nat (ef_key_count (rd_footer r))) 0 r [].

(** ** Property streams *)

(** The [for page in index.entries] loop. *)
Fixpoint read_pages (raw : list byte) (compressed : bool) (entries : list PropertyPageEntry)
    (out : list PropValue) : Result (list PropValue) :=
  match entries with
  | [] => Ok out
  | page :: rest =>
      end_ ← ok_or (Invariant "property page end exceeds u64")
               (checked_add64 (pp_offset page) (pp_encoded_len page));
      encoded ← ok_or (corrupted "property page stream is truncated")
                  (if Z.of_nat (length raw) <? end_ then None
                   else get_slice raw (Z.to_nat (pp_offset page)) (Z.to_nat end_));
      rows ← decode_property_page xxh3_64 zstd_decompress encoded page compressed;
      read_pages raw compressed rest (out ++ rows)
  end.

Definition read_named_property_stream (r : EdgeSstReader) (name : list byte)
    : Result (option (list PropValue)) :=
  match EdgeFileFooter_find (rd_footer r) SECTION_PROPERTY_STREAM name with
  | None => Ok None
  | Some entry =>
      raw ← section_with_name r SECTION_PROPERTY_STREAM name;
      if (se_codec entry =? CODEC_PROPERTY_PAGED_NONE) || (se_codec entry =? CODEC_PROPERTY_PAGED_ZSTD) then
        index ← PropertyPageIndex_parse_prefix raw (se_length entry);
        ensure pi_row_count index =? ef_edge_count (rd_footer r)
          else corrupted "property page stream row count != edge_count";
        out ← read_pages raw (se_codec entry =? CODEC_PROPERTY_PAGED_ZSTD) (pi_entries index) [];
        Ok (Some out)
      else
        decoded ←
          (if se_codec entry =? CODEC_NONE then Ok raw
           else if se_codec entry =? CODEC_ZSTD then
             ok_or (Invariant "zstd decode (property stream)") (zstd_decode_all raw)
           else Err (corrupted "unknown codec for property stream"));
        out ← arrow_ipc_strings decoded;
        ensure Z.of_nat (length out) =? ef_edge_count (rd_footer r)
          else corrupted "property stream row count != edge_count";
        Ok (Some out)
  end.

Definition read_overflow_strings (r : EdgeSstReader) : Result (option (list PropValue)) :=
  read_named_property_stream r OVERFLOW_JSON_NAME.

Definition read_declared_property_strings (r : EdgeSstReader) (name : list byte)
    : Result (option (list PropValue)) :=
  if bool_decide (name = OVERFLOW_JSON_NAME) then read_overflow_strings r
  else read_named_property_stream r name.
End Reader.
