(* ===== verification/EdgeSafety.v ===== *)
(** The edge SST reader on arbitrary bytes ([sst/edges/reader.rs]): a body that
    [EdgeSstReader::open] accepts never makes a lookup or the full scan index out of
    range. The bytes need not come from the writer: a crafted body whose checksums
    match is covered. *)
From S2P Require Import Prelude StorageError EdgeEncoding EdgeFormat EdgePages EdgeReader.

(** Step through an [ensure]. *)
Ltac ensured H := match type of H with (if ?c then _ else _) = _ => destruct c eqn:?; [|done] end.

(** ** What the decoders guarantee *)

Lemma section_table_lengths n tail c end_ out sections c' :
  Forall (λ e, 0 ≤ se_length e) out → read_section_table n tail c end_ out = Ok (sections, c') →
  Forall (λ e, 0 ≤ se_length e) sections.
Proof.
  revert c out. induction n as [|n IH]; intros c out HF H; cbn [read_section_table] in H; [by injection H as <- _|].
  ensured H. apply result_bind_Ok in H as ([e k] & He & H). apply IH in H; [done|]. apply Forall_app. split; [done|].
  constructor; [|done]. unfold SectionEntry_decode in He. apply result_bind_Ok in He as (fe & _ & He). ensured He.
  cbv zeta in He. apply result_bind_Ok in He as (ns & _ & He). apply result_bind_Ok in He as (ne & _ & He).
  ensured He. ensured He. apply Ok_inj in He. injection He as <- _. apply le_combine_bound.
Qed.

Lemma footer_counts h body f n :
  EdgeFileFooter_decode h body = Ok (f, n) →
  0 ≤ ef_key_count f ∧ 0 ≤ ef_edge_count f ∧ Forall (λ e, 0 ≤ se_length e) (ef_sections f).
Proof.
  unfold EdgeFileFooter_decode. intros H. apply result_bind_Ok in H as (len & _ & H). ensured H.
  apply result_bind_Ok in H as ([f' s] & Hd & H). apply Ok_inj in H. injection H as <- _.
  unfold EdgeFileFooter_decode_from_tail in Hd. apply result_bind_Ok in Hd as (len' & _ & Hd). ensured Hd.
  apply result_bind_Ok in Hd as (start & _ & Hd). ensured Hd. cbv zeta in Hd. ensured Hd. ensured Hd. ensured Hd.
  apply result_bind_Ok in Hd as ([secs c] & Hsecs & Hd). ensured Hd. apply result_bind_Ok in Hd as (_ & _ & Hd).
  apply Ok_inj in Hd. injection Hd as <- _. cbn [ef_key_count ef_edge_count ef_sections].
  split_and!; [apply le_combine_bound..|]. by eapply section_table_lengths.
Qed.

Lemma fence_offsets bytes f :
  FenceIndex_decode bytes = Ok f → Forall (λ e, 0 ≤ fe_key_ids_offset e) (fi_entries f).
Proof.
  unfold FenceIndex_decode. intros H. ensured H. cbv zeta in H. ensured H. apply Ok_inj in H as <-. cbn [fi_entries].
  generalize FENCE_HEADER_LEN as off. induction (Z.to_nat _) as [|n IH]; intros off; [constructor|].
  cbn [read_fence_entries]. constructor; [apply le_combine_bound|apply IH].
Qed.

Lemma bracket_nonneg f key n :
  Forall (λ e, 0 ≤ fe_key_ids_offset e) (fi_entries f) → 0 ≤ (FenceIndex_bracket_for f key n).1.
Proof.
  intros HF. unfold FenceIndex_bracket_for. destruct (fi_entries f) as [|e es] eqn:He; [done|]. cbn [fst].
  apply Z.div_pos; [|lia]. destruct ((e :: es) !! _) as [e'|] eqn:Hl; cbn.
  - rewrite Forall_lookup in HF. by eapply HF.
  - by inversion HF.
Qed.

Lemma section_slice_length body e bytes :
  section_slice body e = Ok bytes → 0 ≤ se_length e → Z.of_nat (length bytes) = se_length e.
Proof.
  unfold section_slice. intros H Hn. apply result_bind_Ok in H as (end_ & He%ok_or_Ok & H).
  apply checked_add64_Some in He as [-> _]. apply result_bind_Ok in H as (bend & Hb%ok_or_Ok & H).
  unfold checked_sub64 in Hb.
  match type of Hb with (if ?c then _ else _) = _ => destruct c eqn:Hc; [|done] end. injection Hb as <-.
  ensured H. apply Ok_inj in H as <-.
  apply negb_true_iff, orb_false_iff in Heqb as [H1%Z.ltb_ge H2%Z.ltb_ge].
  unfold slice. rewrite length_take, length_drop. lia.
Qed.

(** The unique section of a kind is the one [find_kind] finds. *)
Lemma unique_is_found f kind e :
  optional_unique_section f kind = Ok e → EdgeFileFooter_find_kind f kind = e.
Proof.
  unfold optional_unique_section, EdgeFileFooter_find_kind. generalize (ef_sections f) as l.
  induction l as [|x l IH]; cbn [list_find]; [by intros [= <-]|].
  rewrite filter_cons. destruct (decide (se_kind x = kind)) as [Hk|Hk].
  - destruct (filter _ l); [|done]. by intros [= <-].
  - intros H. specialize (IH H). rewrite <- IH. by destruct (list_find _ l) as [[]|].
Qed.
Lemma required_is_found f kind e :
  required_unique_section f kind = Ok e → EdgeFileFooter_find_kind f kind = Some e.
Proof.
  unfold required_unique_section. intros H. apply result_bind_Ok in H as (o & Ho & H).
  apply ok_or_Ok in H as ->. by apply unique_is_found.
Qed.

Lemma layout_lengths hd f w :
  validate_eager_layout hd f w = Ok tt →
  (∃ e, EdgeFileFooter_find_kind f SECTION_KEY_IDS = Some e ∧ se_length e = ef_key_count f * 16)
  ∧ (∃ e, EdgeFileFooter_find_kind f SECTION_PER_EDGE_LSN = Some e ∧ se_length e = ef_edge_count f * 8)
  ∧ ∀ e, EdgeFileFooter_find_kind f SECTION_PER_EDGE_TOMBSTONES = Some e →
      se_length e = (ef_edge_count f + 7) / 8.
Proof.
  unfold validate_eager_layout. intros H.
  apply result_bind_Ok in H as (ek & Hk & H). apply result_bind_Ok in H as (eo & _ & H).
  apply result_bind_Ok in H as (ep & _ & H). apply result_bind_Ok in H as (el & Hl & H). ensured H.
  apply result_bind_Ok in H as (kb & Hkb%ok_or_Ok & H). apply checked_mul64_Some in Hkb as [-> _].
  ensured H. cbv zeta in H. apply result_bind_Ok in H as (ob & _ & H). ensured H.
  apply result_bind_Ok in H as (lb & Hlb%ok_or_Ok & H). apply checked_mul64_Some in Hlb as [-> _]. ensured H. ensured H.
  apply result_bind_Ok in H as (eord & _ & H). ensured H. apply result_bind_Ok in H as (_ & _ & H).
  apply result_bind_Ok in H as (et & Het & H). ensured H. apply result_bind_Ok in H as (u & Ht & _).
  split_and!.
  - exists ek. split; [by apply required_is_found|by apply Z.eqb_eq].
  - exists el. split; [by apply required_is_found|by apply Z.eqb_eq].
  - intros e He. apply unique_is_found in Het. rewrite <- Het, He in Ht. ensured Ht.
    apply result_bind_Ok in Ht as (rounded & Hr%ok_or_Ok & Ht). apply checked_add64_Some in Hr as [-> _].
    ensured Ht. by apply Z.eqb_eq.
Qed.

Lemma read_varint_loop_nonneg fuel buf c acc shift i v n :
  0 ≤ acc → read_varint_loop fuel buf c acc shift i = Ok (v, n) → 0 ≤ v.
Proof.
  revert acc shift i. induction fuel as [|fuel IH]; intros acc shift i Hacc H; cbn [read_varint_loop] in H; [done|].
  destruct (buf !! _) as [b|]; [|done].
  match type of H with (if ?c then _ else _) = _ => destruct c; [done|] end.
  assert (0 ≤ Z.lor acc (Z.shiftl (Z.land (b2z b) 0x7f) shift `mod` 2 ^ 64)) as Hv.
  { apply Z.lor_nonneg. split; [done|]. by apply Z.mod_pos_bound. }
  match type of H with (if ?c then _ else _) = _ => destruct c; [by injection H as <- _|] end.
  cbv zeta in H. match type of H with (if ?c then _ else _) = _ => destruct c; [done|] end. by eapply IH.
Qed.
Lemma read_varint_nonneg buf c v n : read_varint buf c = Ok (v, n) → 0 ≤ v.
Proof. by apply read_varint_loop_nonneg. Qed.

Lemma read_split_loop_length n buf c top out l c' :
  read_split_loop n buf c top out = Ok (l, c') → length l = (length out + n)%nat.
Proof.
  revert c top out. induction n as [|n IH]; intros c top out H; cbn [read_split_loop] in H.
  { apply Ok_inj in H. injection H as <- _. lia. }
  apply result_bind_Ok in H as ([[delta bot] c1] & _ & H). apply IH in H. rewrite length_app in H. cbn in H. lia.
Qed.
Lemma read_split_payload_length buf c n l k :
  read_split_payload buf c n = Ok (l, k) → length l = n.
Proof.
  destruct n as [|n]; cbn [read_split_payload]; intros H; [by apply Ok_inj in H; injection H as <- _|].
  apply result_bind_Ok in H as ([[top bot] c1] & _ & H). apply result_bind_Ok in H as ([out c2] & Ho & H).
  apply Ok_inj in H. injection H as <- _. by apply read_split_loop_length in Ho.
Qed.
Lemma length_read_dense_loop n buf c : length (read_dense_loop n buf c) = n.
Proof. revert c. induction n as [|n IH]; intros c; [done|]. cbn. by rewrite IH. Qed.

(** A block read with its expected degree has that many partners. *)
Lemma read_block_length env buf c d l n :
  read_partner_block_expected env buf c d = Ok (l, n) → Z.of_nat (length l) = d ∧ 0 ≤ d.
Proof.
  unfold read_partner_block_expected, read_partner_block_impl. intros H.
  apply result_bind_Ok in H as (limit & _ & H). apply result_bind_Ok in H as ([deg k] & Hv & H).
  apply read_varint_nonneg in Hv. apply result_bind_Ok in H as (c1 & _ & H).
  destruct (buf !! c1) as [tag|]; [|done]. cbv zeta in H.
  destruct (Z.eqb_spec deg d) as [->|]; cbn [negb] in H; [|done].
  apply result_bind_Ok in H as (bytes & _ & H).
  match type of H with (if ?c then _ else _) = _ => destruct c; [done|] end.
  apply result_bind_Ok in H as ([ps c2] & Hp & H). apply Ok_inj in H. injection H as <- _. split; [|done].
  destruct (_ =? TAG_SPLIT); [|destruct (_ =? TAG_DENSE); [|done]].
  - apply result_bind_Ok in Hp as (m & _ & Hp).
    match type of Hp with (if ?c then _ else _) = _ => destruct c; [done|] end.
    apply result_bind_Ok in Hp as ([out k'] & Ho & Hp). apply Ok_inj in Hp. injection Hp as <- _.
    apply read_split_payload_length in Ho. lia.
  - match type of Hp with (if ?c then _ else _) = _ => destruct c; [done|] end.
    apply result_bind_Ok in Hp as ([out k'] & Ho & Hp). apply Ok_inj in Hp. injection Hp as <- _.
    unfold read_dense_payload in Ho. apply result_bind_Ok in Ho as (need & _ & Ho).
    apply result_bind_Ok in Ho as (end_ & _ & Ho).
    match type of Ho with (if ?c then _ else _) = _ => destruct c; [done|] end.
    apply Ok_inj in Ho. injection Ho as <- _. rewrite length_read_dense_loop. lia.
Qed.

(** ** The cumulative table *)

(** [ds] rises from [a] to [z]. *)
Fixpoint chain (a : Z) (ds : list Z) (z : Z) : Prop :=
  match ds with
  | [] => a = z
  | d :: rest => a ≤ d ∧ chain d rest z
  end.

Lemma chain_le a ds z : chain a ds z → a ≤ z.
Proof. revert a. induction ds as [|d ds IH]; intros a; cbn; [lia|]. intros [? ?%IH]. lia. Qed.

Lemma chain_lookup a ds z i :
  chain a ds z → (i < length ds)%nat →
  ∃ x y, (a :: ds) !! i = Some x ∧ (a :: ds) !! (i + 1)%nat = Some y ∧ a ≤ x ≤ y ∧ y ≤ z.
Proof.
  revert a i. induction ds as [|d ds IH]; intros a i Hc Hi; cbn [length] in Hi; [lia|]. destruct Hc as [Had Hc].
  pose proof (chain_le _ _ _ Hc). destruct i as [|i]; [by exists a, d|].
  destruct (IH d i Hc ltac:(lia)) as (x & y & Hx & Hy & Hxy & Hyz). exists x, y. split_and!; [done|done|lia|lia|lia].
Qed.

Lemma cumulative_loop_chain n k stride w offs parts running acc l z :
  cumulative_loop n k stride w offs parts running acc = Ok (l, z) →
  ∃ ds, l = acc ++ ds ∧ length ds = n ∧ chain running ds z.
Proof.
  revert k running acc. induction n as [|n IH]; intros k running acc H; cbn [cumulative_loop] in H.
  { apply Ok_inj in H. injection H as <- <-. exists []. by rewrite app_nil_r. }
  apply result_bind_Ok in H as (start & _ & H). apply result_bind_Ok in H as ([deg m] & Hv%read_varint_nonneg & H).
  apply result_bind_Ok in H as (run & Hr%ok_or_Ok & H). apply checked_add64_Some in Hr as [-> _].
  apply IH in H as (ds & -> & Hl & Hc). exists (running + deg :: ds).
  rewrite <- (assoc_L (++)). split_and!; [done|cbn; by rewrite Hl|]. cbn. split; [lia|done].
Qed.

Lemma cumulative_chain body f w l :
  build_cumulative_edges body f w = Ok l → 0 ≤ ef_key_count f →
  ∃ ds, l = 0 :: ds ∧ Z.of_nat (length ds) = ef_key_count f ∧ chain 0 ds (ef_edge_count f).
Proof.
  unfold build_cumulative_edges. intros H Hk. apply result_bind_Ok in H as (_ & _ & H).
  destruct (Z.eqb_spec (ef_key_count f) 0) as [H0|_].
  { destruct (Z.eqb_spec (ef_edge_count f) 0) as [He|]; [|done]. apply Ok_inj in H as <-. exists [].
    split_and!; [done|done|]. by rewrite He. }
  apply result_bind_Ok in H as (eo & _ & H). apply result_bind_Ok in H as (ep & _ & H).
  apply result_bind_Ok in H as (ob & _ & H). apply result_bind_Ok in H as (pb & _ & H).
  apply result_bind_Ok in H as ([cum run] & Hc & H). ensured H. apply Ok_inj in H as <-.
  apply Z.eqb_eq in Heqb as ->. apply cumulative_loop_chain in Hc as (ds & -> & Hl & Hch).
  exists ds. split_and!; [done|lia|done].
Qed.

(** ** An accepted body *)

Record reader_ok (r : EdgeSstReader) : Prop := {
  ro_keys : 0 ≤ ef_key_count (rd_footer r);
  ro_edges : 0 ≤ ef_edge_count (rd_footer r);
  ro_cumulative : ∃ ds, rd_cumulative_edges r = 0 :: ds ∧ Z.of_nat (length ds) = ef_key_count (rd_footer r)
                        ∧ chain 0 ds (ef_edge_count (rd_footer r));
  ro_fence : match rd_fence_index r with
             | Some f => Forall (λ e, 0 ≤ fe_key_ids_offset e) (fi_entries f)
             | None => True
             end;
  ro_key_ids : ∃ e, EdgeFileFooter_find_kind (rd_footer r) SECTION_KEY_IDS = Some e
                    ∧ se_length e = ef_key_count (rd_footer r) * 16;
  ro_lsns : ∃ e, EdgeFileFooter_find_kind (rd_footer r) SECTION_PER_EDGE_LSN = Some e
                 ∧ se_length e = ef_edge_count (rd_footer r) * 8;
  ro_tombstones : ∀ e, EdgeFileFooter_find_kind (rd_footer r) SECTION_PER_EDGE_TOMBSTONES = Some e →
                    se_length e = (ef_edge_count (rd_footer r) + 7) / 8;
  ro_sections : Forall (λ e, 0 ≤ se_length e) (ef_sections (rd_footer r));
}.

Lemma open_reader_ok h body r : EdgeSstReader_open h body = Ok r → reader_ok r.
Proof.
  unfold EdgeSstReader_open. intros H. apply result_bind_Ok in H as (hd & _ & H).
  apply result_bind_Ok in H as ([f n] & Hf%footer_counts & H). apply result_bind_Ok in H as (width & _ & H).
  apply result_bind_Ok in H as ([] & Hl%layout_lengths & H). apply result_bind_Ok in H as (u1 & _ & H).
  apply result_bind_Ok in H as (u2 & _ & H). apply result_bind_Ok in H as (u3 & _ & H).
  apply result_bind_Ok in H as (fence & Hfence & H). ensured H.
  apply result_bind_Ok in H as (cum & Hcum & H). apply Ok_inj in H as <-.
  apply cumulative_chain in Hcum; [|apply Hf].
  split; cbn [rd_footer rd_fence_index rd_cumulative_edges]; try apply Hf; try done; try apply Hl.
  destruct (EdgeFileFooter_find_kind f SECTION_FENCE_INDEX) as [e|].
  - apply result_bind_Ok in Hfence as (bytes & _ & Hfence).
    apply result_bind_Ok in Hfence as (fi & Hfi & Hfence). apply Ok_inj in Hfence as <-. by eapply fence_offsets.
  - by apply Ok_inj in Hfence as <-.
Qed.

(** The reader keeps the body and the width its footer names. *)
Lemma open_reader_keeps h body r :
  EdgeSstReader_open h body = Ok r →
  rd_body r = body ∧ OffsetWidth_from_bits (ef_offsets_bits (rd_footer r)) = Ok (rd_offset_width r).
Proof.
  unfold EdgeSstReader_open. intros H. apply result_bind_Ok in H as (hd & _ & H).
  apply result_bind_Ok in H as ([f n] & _ & H). apply result_bind_Ok in H as (width & Hw & H).
  apply result_bind_Ok in H as (u0 & _ & H). apply result_bind_Ok in H as (u1 & _ & H).
  apply result_bind_Ok in H as (u2 & _ & H). apply result_bind_Ok in H as (u3 & _ & H).
  apply result_bind_Ok in H as (fence & _ & H). ensured H.
  apply result_bind_Ok in H as (cum & _ & H). by apply Ok_inj in H as <-.
Qed.

(** ** No panic *)

Lemma bind_defined {A B} (m : outcome A) (k : A → outcome B) :
  m ≠ None → (∀ a, m = Some (Ok a) → k a ≠ None) → m ≫= k ≠ None.
Proof. intros Hm Hk. destruct m as [[a|e]|]; [by apply Hk|done|done]. Qed.
Lemma lift_defined {A} (x : Result A) : lift x ≠ None.
Proof. done. Qed.
Lemma index_defined {A} (l : list A) i : (i < length l)%nat → index l i ≠ None.
Proof. intros Hi. unfold index. destruct (lookup_lt_is_Some_2 l i Hi) as [x ->]. done. Qed.

Lemma binary_search_loop_range fuel buf target lo hi m :
  binary_search_fixed_16_loop fuel buf target lo hi = Some m → (lo ≤ m < hi)%nat.
Proof.
  revert lo hi. induction fuel as [|fuel IH]; intros lo hi H; cbn [binary_search_fixed_16_loop] in H; [done|].
  destruct (Nat.ltb_spec lo hi) as [Hlt|]; [|done]. pose proof (div2_bounds _ _ Hlt). cbv zeta in H.
  destruct (bytes_cmp _ _); [by injection H as <-|apply IH in H; lia|apply IH in H; lia].
Qed.

Section Safe.
Context (h : list byte → Z) (env : EnvVar) (r : EdgeSstReader).
Hypothesis rok : reader_ok r.

Lemma plain_section_length kind e bytes :
  reader_section h r kind [] = Ok bytes → kind ≠ SECTION_PROPERTY_STREAM →
  EdgeFileFooter_find_kind (rd_footer r) kind = Some e → 0 ≤ se_length e →
  Z.of_nat (length bytes) = se_length e.
Proof.
  unfold reader_section. intros H Hk He Hn. rewrite He in H. cbn [ok_or mbind result_bind] in H.
  rewrite (proj2 (Z.eqb_neq _ _)) in H by done. by eapply section_slice_length.
Qed.

Lemma position_bound key p :
  reader_position_of h r key = Ok (Some p) → 0 ≤ p < ef_key_count (rd_footer r).
Proof.
  unfold reader_position_of. cbv zeta. intros H.
  match type of H with (if ?c then _ else _) = _ => destruct c; [done|] end.
  apply result_bind_Ok in H as (ids & Hids & H).
  set (br := match rd_fence_index r with Some _ => _ | None => _ end) in H.
  assert (0 ≤ br.1) as Hlo.
  { subst br. pose proof (ro_fence _ rok) as Hf. destruct (rd_fence_index r); [|done]. by apply bracket_nonneg. }
  clearbody br. destruct br as [lo hi]. cbn [fst snd] in *. destruct (lo =? hi); [done|].
  apply result_bind_Ok in H as (start & Hs%ok_or_Ok & H). apply checked_mul64_Some in Hs as [-> _].
  apply result_bind_Ok in H as (end_ & He%ok_or_Ok & H). apply checked_mul64_Some in He as [-> _].
  apply result_bind_Ok in H as (window & Hw%ok_or_Ok & H).
  destruct (Z.ltb_spec (Z.of_nat (length ids)) (Z.max (lo * 16) (hi * 16))); [done|].
  apply get_slice_inv in Hw as [-> Hw]. apply result_bind_Ok in H as (found & Hf & H). apply Ok_inj in H.
  destruct found as [m|]; [|done]. injection H as <-. unfold binary_search_fixed_16 in Hf.
  match type of Hf with (if ?c then _ else _) = _ => destruct c; [done|] end. apply Ok_inj in Hf.
  apply binary_search_loop_range in Hf as [_ Hm].
  destruct (ro_key_ids _ rok) as (e & Hfe & Hlen). pose proof (ro_keys _ rok) as Hk.
  pose proof (plain_section_length _ _ _ Hids ltac:(done) Hfe ltac:(lia)) as Hids'.
  assert (length (slice ids (Z.to_nat (lo * 16)) (Z.to_nat (hi * 16))) = Z.to_nat (hi * 16) - Z.to_nat (lo * 16))%nat as Hsl.
  { unfold slice. rewrite length_take, length_drop. lia. }
  rewrite Hsl in Hm. pose proof (Nat.Div0.mul_div_le (Z.to_nat (hi * 16) - Z.to_nat (lo * 16)) 16).
  lia.
Qed.

(** The cumulative entries of a key that exists. *)
Lemma degree_at k :
  Z.of_nat k < ef_key_count (rd_footer r) →
  ∃ x y, index (rd_cumulative_edges r) k = Some (Ok x) ∧ expected_degree r k = Some (Ok (y - x))
    ∧ 0 ≤ x ≤ y ∧ y ≤ ef_edge_count (rd_footer r).
Proof.
  intros Hk. destruct (ro_cumulative _ rok) as (ds & Hc & Hl & Hch).
  destruct (chain_lookup _ _ _ k Hch ltac:(lia)) as (x & y & Hx & Hy & Hxy & Hyz).
  exists x, y. unfold expected_degree, index. rewrite Hc, Hx, Hy. cbn [mbind outcome_bind].
  unfold checked_sub64. rewrite (proj2 (Z.leb_le _ _)) by lia. split_and!; (done || lia).
Qed.

Lemma lookup_defined key : EdgeSstReader_lookup h env r key ≠ None.
Proof.
  unfold EdgeSstReader_lookup. apply bind_defined; [done|]. intros [p|] Hp; [|done]. injection Hp as Hp.
  apply position_bound in Hp. destruct (degree_at (Z.to_nat p) ltac:(lia)) as (x & y & Hx & Hd & _).
  do 3 (apply bind_defined; [done|]; intros ? _). case_match; subst.
  rewrite Hd. cbn [mbind outcome_bind]. apply bind_defined; [done|]. intros [ps consumed] _.
  match goal with |- (if ?c then _ else _) ≠ _ => destruct c; [done|] end.
  rewrite Hx. cbn [mbind outcome_bind]. do 2 (apply bind_defined; [done|]; intros ? _).
  apply bind_defined; [|done]. destruct (has_tombstones r); [|done]. by apply bind_defined.
Qed.

Lemma read_lsns_length n i bytes l : read_lsns n i bytes = Ok l → length l = n.
Proof.
  revert i l. induction n as [|n IH]; intros i l H; cbn [read_lsns] in H; [by apply Ok_inj in H as <-|].
  apply result_bind_Ok in H as (off & _ & H). apply result_bind_Ok in H as (row & _ & H).
  apply result_bind_Ok in H as (rest & Hr & H). apply Ok_inj in H as <-. cbn. by rewrite (IH _ _ Hr).
Qed.
Lemma read_tombstones_length n i bytes l : read_tombstones n i bytes = Ok l → length l = n.
Proof.
  revert i l. induction n as [|n IH]; intros i l H; cbn [read_tombstones] in H; [by apply Ok_inj in H as <-|].
  apply result_bind_Ok in H as (b & _ & H). apply result_bind_Ok in H as (rest & Hr & H).
  apply Ok_inj in H as <-. cbn. by rewrite (IH _ _ Hr).
Qed.

Lemma lookup_partner_defined key partner : EdgeSstReader_lookup_partner h r key partner ≠ None.
Proof.
  unfold EdgeSstReader_lookup_partner. apply bind_defined; [done|]. intros [p|] Hp; [|done]. injection Hp as Hp.
  apply position_bound in Hp. destruct (degree_at (Z.to_nat p) ltac:(lia)) as (x & y & Hx & _).
  do 3 (apply bind_defined; [done|]; intros ? _). case_match; subst.
  apply bind_defined; [done|]. intros [j|] _; [|done]. rewrite Hx. cbn [mbind outcome_bind].
  match goal with |- (if ?c then _ else _) ≠ _ => destruct c; [done|] end.
  apply bind_defined; [done|]. intros lsn_bytes _. apply bind_defined; [done|]. intros lsns Hl%lift_Ok.
  apply read_lsns_length in Hl. apply bind_defined.
  { destruct (has_tombstones r); [|done]. by apply bind_defined. }
  intros tombs Ht. apply bind_defined; [apply index_defined; lia|]. intros lsn _.
  apply bind_defined; [|done]. apply index_defined. destruct (has_tombstones r).
  - apply outcome_bind_Ok in Ht as (tb & _ & Ht%lift_Ok). apply read_tombstones_length in Ht. lia.
  - injection Ht as <-. cbn. lia.
Qed.

(** ** The scan *)

Lemma project_rows_defined key ps i lsn_bytes tomb n :
  Z.of_nat (length lsn_bytes) = n * 8 → (∀ b, tomb = Some b → Z.of_nat (length b) = (n + 7) / 8) →
  Z.of_nat i + Z.of_nat (length ps) ≤ n →
  project_edge_rows key ps i lsn_bytes tomb ≠ None.
Proof.
  intros Hl Ht. revert i. induction ps as [|p ps IH]; intros i Hi; [done|]. cbn [length] in Hi. cbn [project_edge_rows].
  apply bind_defined; [unfold index_range; by rewrite get_slice_Some by lia|]. intros row _. apply bind_defined.
  - destruct tomb as [b|]; [|done]. specialize (Ht _ eq_refl). apply bind_defined; [|done]. apply index_defined.
    apply Nat2Z.inj_lt. rewrite Ht, Nat2Z.inj_div. change (Z.of_nat 8) with 8.
    apply Z.lt_le_trans with (Z.of_nat i / 8 + 1); [lia|].
    replace (Z.of_nat i / 8 + 1) with ((Z.of_nat i + 1 * 8) / 8) by (by rewrite Z.div_add).
    apply Z.div_le_mono; lia.
  - intros t _. apply bind_defined; [apply IH; lia|done].
Qed.

Lemma key_edges_defined k :
  Z.of_nat k < ef_key_count (rd_footer r) → EdgeSstReader_key_edges h env r k ≠ None.
Proof.
  intros Hk. destruct (degree_at k Hk) as (x & y & Hx & Hd & Hxy & Hy). pose proof (ro_edges _ rok) as Hedges.
  unfold EdgeSstReader_key_edges. do 3 (apply bind_defined; [done|]; intros ? _).
  apply bind_defined; [done|]. intros lsn_bytes Hl%lift_Ok. apply bind_defined.
  { destruct (has_tombstones r); [|done]. by apply bind_defined. }
  intros tomb Ht. apply bind_defined; [done|]. intros key_id _. apply bind_defined; [done|]. intros start _.
  rewrite Hx. cbn [mbind outcome_bind]. rewrite Hd. cbn [mbind outcome_bind]. apply bind_defined; [done|].
  intros [ps n] Hps%lift_Ok. apply read_block_length in Hps as [Hps _].
  destruct (ro_lsns _ rok) as (el & Hel & Hll).
  apply (project_rows_defined _ _ _ _ _ (ef_edge_count (rd_footer r))); [|intros b ->|lia].
  - by rewrite (plain_section_length _ _ _ Hl ltac:(done) Hel ltac:(lia)).
  - unfold has_tombstones in Ht. destruct (EdgeFileFooter_find_kind _ _) as [et|] eqn:Het; [|done].
    apply outcome_bind_Ok in Ht as (tb & Htb%lift_Ok & Ht). injection Ht as ->.
    pose proof (ro_tombstones _ rok _ Het) as Hlen. rewrite <- Hlen.
    apply (plain_section_length _ _ _ Htb ltac:(done) Het). rewrite Hlen. apply Z.div_pos; lia.
Qed.

Lemma scan_defined : EdgeSstReader_scan_all_edges h env r ≠ None.
Proof.
  unfold EdgeSstReader_scan_all_edges.
  assert (∀ n k out, Z.of_nat (k + n) ≤ ef_key_count (rd_footer r) → scan_keys h env n k r out ≠ None) as Hs.
  { induction n as [|n IH]; intros k out Hk; [done|]. cbn [scan_keys]. apply bind_defined.
    - apply key_edges_defined. lia.
    - intros edges _. apply IH. lia. }
  apply Hs. pose proof (ro_keys _ rok). lia.
Qed.
End Safe.

(** C11: the edge SST reader does not panic on accepted input. For every byte string
    that [open] accepts, whoever wrote it, a key lookup, an edge lookup and the full
    scan return a value or an error: no index into the cumulative table, the LSN
    column or the tombstone bitmap is out of range. *)
Theorem edge_reader_never_panics h env body r :
  EdgeSstReader_open h body = Ok r →
  (∀ key, EdgeSstReader_lookup h env r key ≠ None)
  ∧ (∀ key partner, EdgeSstReader_lookup_partner h r key partner ≠ None)
  ∧ EdgeSstReader_scan_all_edges h env r ≠ None.
Proof.
  intros H%open_reader_ok. split_and!; [by apply lookup_defined|by apply lookup_partner_defined|by apply scan_defined].
Qed.
