(* ===== verification/Wal.v ===== *)
(** The write-ahead log segment codec ([wal.rs]): a header, length- and
    checksum-prefixed records, and a footer with the checksum of everything
    before it.

    [crc32] is [crc32fast::hash]; its incremental [Hasher] over two updates is
    the hash of their concatenation. *)
From S2P Require Import Prelude StorageError.

Definition MAGIC_HEADER : list byte := String.list_byte_of_string "TGWL".
Definition MAGIC_FOOTER : list byte := String.list_byte_of_string "TGEL".
Definition FORMAT_VERSION : Z := 2.

Record WalRecord := { rec_lsn : Z; rec_payload : list byte }.
Record WalSegment := { seg_seq : Z; seg_records : list WalRecord }.

Definition WalSegment_new (seq : Z) : WalSegment := {| seg_seq := seq; seg_records := [] |}.
Definition WalSegment_is_empty (s : WalSegment) : bool :=
  match seg_records s with [] => true | _ => false end.
Definition WalSegment_push (s : WalSegment) (r : WalRecord) : WalSegment :=
  {| seg_seq := seg_seq s; seg_records := seg_records s ++ [r] |}.
Definition first_lsn (s : WalSegment) : Z :=
  match head (seg_records s) with Some r => rec_lsn r | None => 0 end.
Definition last_lsn (s : WalSegment) : Z :=
  match last (seg_records s) with Some r => rec_lsn r | None => 0 end.

Section Codec.
Context (crc32 : list byte → Z).

Definition record_crc (lsn : Z) (payload : list byte) : Z := crc32 (le_split 8 lsn ++ payload).

Fixpoint encode_records (recs : list WalRecord) (buf : list byte) : list byte :=
  match recs with
  | [] => buf
  | rec :: rest =>
      let crc := record_crc (rec_lsn rec) (rec_payload rec) in
      let buf := buf ++ le_split 4 (Z.of_nat (length (rec_payload rec))) in
      let buf := buf ++ le_split 4 crc in
      let buf := buf ++ le_split 8 (rec_lsn rec) in
      let buf := buf ++ rec_payload rec in
      encode_records rest buf
  end.

Definition WalSegment_encode (s : WalSegment) : list byte :=
  let buf := MAGIC_HEADER in
  let buf := buf ++ le_split 2 FORMAT_VERSION in
  let buf := buf ++ le_split 2 0 in
  let buf := buf ++ le_split 4 (Z.of_nat (length (seg_records s))) in
  let buf := buf ++ le_split 8 (first_lsn s) in
  let buf := encode_records (seg_records s) buf in
  let so_far_crc := crc32 buf in
  let buf := buf ++ MAGIC_FOOTER in
  buf ++ le_split 4 so_far_crc.

(** The [for i in 0..record_count] loop. *)
Fixpoint decode_records (n : nat) (path : string) (cursor : list byte)
    (records : list WalRecord) : Result (list WalRecord * list byte) :=
  match n with
  | O => Ok (records, cursor)
  | S n' =>
      if (length cursor <? 4 + 4 + 8)%nat then Err (Corrupted path "truncated record")
      else
        let '(len, cursor) := get_le 4 cursor in
        let '(crc, cursor) := get_le 4 cursor in
        let '(lsn, cursor) := get_le 8 cursor in
        if Z.of_nat (length cursor) <? len then Err (Corrupted path "payload short")
        else
          let payload := take (Z.to_nat len) cursor in
          let cursor := drop (Z.to_nat len) cursor in
          let actual := record_crc lsn payload in
          if negb (actual =? crc) then Err (Corrupted path "record crc mismatch")
          else decode_records n' path cursor
                 (records ++ [{| rec_lsn := lsn; rec_payload := payload |}])
  end.

(** The path of every error is [wal#{seq}]; it is a parameter here. *)
Definition WalSegment_decode (path : string) (seq : Z) (bytes : list byte)
    : Result WalSegment :=
  if (length bytes <? 4 + 2 + 2 + 4 + 8 + (4 + 4))%nat
  then Err (Corrupted path "buffer too short")
  else
    let footer_start := (length bytes - 8)%nat in
    let body := take footer_start bytes in
    let footer := drop footer_start bytes in
    if negb (bool_decide (take 4 footer = MAGIC_FOOTER))
    then Err (Corrupted path "footer magic mismatch")
    else
      let footer_crc := (get_le 4 (drop 4 footer)).1 in
      let actual_crc := crc32 body in
      if negb (footer_crc =? actual_crc) then Err (Corrupted path "footer crc mismatch")
      else
        let cursor := body in
        let header_magic := take 4 cursor in
        let cursor := drop 4 cursor in
        if negb (bool_decide (header_magic = MAGIC_HEADER))
        then Err (Corrupted path "header magic mismatch")
        else
          let '(version, cursor) := get_le 2 cursor in
          if FORMAT_VERSION <? version
          then Err (Corrupted path "WAL format version is newer than supported")
          else
            let '(_reserved, cursor) := get_le 2 cursor in
            let '(record_count, cursor) := get_le 4 cursor in
            let '(_first_lsn_hint, cursor) := get_le 8 cursor in
            '(records, cursor) ← decode_records (Z.to_nat record_count) path cursor [];
            match cursor with
            | _ :: _ => Err (Corrupted path "trailing bytes after records")
            | [] => Ok {| seg_seq := seq; seg_records := records |}
            end.

(** ** Lemmas *)

Definition record_bytes (r : WalRecord) : list byte :=
  le_split 4 (Z.of_nat (length (rec_payload r)))
    ++ le_split 4 (record_crc (rec_lsn r) (rec_payload r))
    ++ le_split 8 (rec_lsn r) ++ rec_payload r.

Lemma encode_records_app recs buf :
  encode_records recs buf = buf ++ concat (map record_bytes recs).
Proof.
  revert buf. induction recs as [|r recs IH]; intros buf; cbn [encode_records map concat].
  { by rewrite app_nil_r. }
  rewrite IH. unfold record_bytes. by rewrite <- !(assoc_L (++)).
Qed.

(** A segment the writer can produce: LSNs are [u64]s and lengths fit the
    32-bit fields of the frame. *)
Definition record_wf (r : WalRecord) : Prop :=
  is_u64 (rec_lsn r) ∧ is_u32 (Z.of_nat (length (rec_payload r))).
Definition segment_wf (s : WalSegment) : Prop :=
  Forall record_wf (seg_records s) ∧ is_u32 (Z.of_nat (length (seg_records s))).
Hypothesis crc32_u32 : ∀ b, is_u32 (crc32 b).

Lemma decode_records_spec recs path out post :
  Forall record_wf recs →
  decode_records (length recs) path (concat (map record_bytes recs) ++ post) out
  = Ok (out ++ recs, post).
Proof.
  intros HF. revert out. induction HF as [|r recs [Hlsn Hlen] HF IH]; intros out.
  { simpl. by rewrite app_nil_r. }
  cbn [map concat length decode_records]. rewrite <- (assoc_L (++)).
  set (rest := concat (map record_bytes recs) ++ post) in *.
  destruct (Nat.ltb_spec (length (record_bytes r ++ rest)) (4 + 4 + 8)) as [Hs|_].
  { unfold record_bytes in Hs. rewrite !length_app, !length_le_split in Hs. lia. }
  unfold record_bytes. rewrite <- !(assoc_L (++)).
  rewrite get_le_app by apply Hlen. rewrite get_le_app by apply crc32_u32.
  rewrite get_le_app by apply Hlsn.
  destruct (Z.ltb_spec (Z.of_nat (length (rec_payload r ++ rest)))
    (Z.of_nat (length (rec_payload r)))) as [Hs|_].
  { rewrite length_app in Hs. lia. }
  rewrite Nat2Z.id, take_app_length, drop_app_length, Z.eqb_refl. cbn [negb].
  rewrite IH, <- (assoc_L (++)). by destruct r.
Qed.

(** Everything before the footer, and the whole segment, for a given header. *)
Definition frame_body (version reserved hint : Z) (recs : list WalRecord) : list byte :=
  MAGIC_HEADER ++ le_split 2 version ++ le_split 2 reserved
    ++ le_split 4 (Z.of_nat (length recs)) ++ le_split 8 hint
    ++ concat (map record_bytes recs).
Definition frame (version reserved hint : Z) (recs : list WalRecord) : list byte :=
  let body := frame_body version reserved hint recs in
  body ++ MAGIC_FOOTER ++ le_split 4 (crc32 body).

Lemma WalSegment_encode_frame s :
  WalSegment_encode s = frame FORMAT_VERSION 0 (first_lsn s) (seg_records s).
Proof.
  unfold WalSegment_encode. rewrite encode_records_app.
  unfold frame, frame_body. by rewrite <- !(assoc_L (++)).
Qed.

Lemma first_lsn_u64 s : segment_wf s → is_u64 (first_lsn s).
Proof.
  intros [HF _]. unfold first_lsn. destruct (seg_records s) as [|r l]; simpl; [unfold is_uint; lia|].
  apply Forall_cons in HF as [[] _]. done.
Qed.

Lemma frame_body_length version reserved hint recs :
  (20 ≤ length (frame_body version reserved hint recs))%nat.
Proof.
  unfold frame_body. rewrite !length_app, !length_le_split.
  change (length MAGIC_HEADER) with 4%nat. lia.
Qed.

Lemma decode_frame path seq version reserved hint recs :
  0 ≤ version ≤ FORMAT_VERSION → is_u16 reserved → is_u64 hint →
  Forall record_wf recs → is_u32 (Z.of_nat (length recs)) →
  WalSegment_decode path seq (frame version reserved hint recs)
  = Ok {| seg_seq := seq; seg_records := recs |}.
Proof.
  intros Hver Hres Hhint HF Hn. unfold frame. unfold FORMAT_VERSION in Hver.
  set (body := frame_body version reserved hint recs).
  assert (Hfl : length (MAGIC_FOOTER ++ le_split 4 (crc32 body)) = 8%nat)
    by by rewrite length_app, length_le_split.
  pose proof (frame_body_length version reserved hint recs) as Hbl. fold body in Hbl.
  set (foot := MAGIC_FOOTER ++ _) in *. unfold WalSegment_decode.
  destruct (Nat.ltb_spec (length (body ++ foot)) (4 + 2 + 2 + 4 + 8 + (4 + 4))) as [H|_].
  { rewrite length_app in H. lia. }
  replace (length (body ++ foot) - 8)%nat with (length body) by (rewrite length_app; lia).
  rewrite take_app_length, drop_app_length. subst foot.
  change (take 4 (MAGIC_FOOTER ++ ?l)) with MAGIC_FOOTER.
  change (drop 4 (MAGIC_FOOTER ++ ?l)) with l.
  rewrite bool_decide_eq_true_2 by done. cbn [negb].
  rewrite <- (app_nil_r (le_split 4 _)), get_le_app by apply crc32_u32.
  rewrite Z.eqb_refl. cbn [fst negb]. subst body. unfold frame_body.
  change (take 4 (MAGIC_HEADER ++ ?l)) with MAGIC_HEADER.
  change (drop 4 (MAGIC_HEADER ++ ?l)) with l.
  rewrite bool_decide_eq_true_2 by done. cbn [negb].
  rewrite get_le_app by lia. unfold FORMAT_VERSION.
  destruct (Z.ltb_spec 2 version); [lia|].
  rewrite get_le_app by apply Hres. rewrite get_le_app by apply Hn.
  rewrite get_le_app by apply Hhint.
  by rewrite Nat2Z.id, <- (app_nil_r (concat _)), decode_records_spec.
Qed.

Lemma decode_records_inv n path cursor out recs rest :
  decode_records n path cursor out = Ok (recs, rest) →
  ∃ new, recs = out ++ new ∧ length new = n ∧ Forall record_wf new ∧
    cursor = concat (map record_bytes new) ++ rest.
Proof.
  revert cursor out. induction n as [|n IH]; intros cursor out Hdec; cbn [decode_records] in Hdec.
  { simplify_eq. exists []. rewrite app_nil_r. split_and!; done. }
  destruct (Nat.ltb_spec (length cursor) (4 + 4 + 8)); [done|].
  destruct (get_le 4 cursor) as [len c1] eqn:E1.
  apply get_le_inv in E1 as [-> Hlen]; [|lia]. rewrite !length_app, length_le_split in *.
  destruct (get_le 4 c1) as [crc c2] eqn:E2.
  apply get_le_inv in E2 as [-> Hcrc]; [|lia]. rewrite !length_app, length_le_split in *.
  destruct (get_le 8 c2) as [lsn c3] eqn:E3.
  apply get_le_inv in E3 as [-> Hlsn]; [|lia].
  destruct (Z.ltb_spec (Z.of_nat (length c3)) len); [done|].
  destruct (Z.eqb_spec (record_crc lsn (take (Z.to_nat len) c3)) crc) as [<-|]; [|done].
  cbn [negb] in Hdec. apply IH in Hdec as (new & -> & <- & HF & Hc3).
  assert (Hpl : length (take (Z.to_nat len) c3) = Z.to_nat len) by (rewrite length_take; lia).
  exists ({| rec_lsn := lsn; rec_payload := take (Z.to_nat len) c3 |} :: new). split_and!.
  - by rewrite <- (assoc_L (++)).
  - done.
  - constructor; [|done]. split; [done|]. unfold is_uint. cbn [rec_payload]. rewrite Hpl. lia.
  - cbn [map concat]. unfold record_bytes at 1. cbn [rec_payload rec_lsn].
    rewrite Hpl, Z2Nat.id, <- !(assoc_L (++)), <- Hc3, take_drop by lia. done.
Qed.

Lemma decode_inv path seq bytes s :
  WalSegment_decode path seq bytes = Ok s →
  seg_seq s = seq ∧ segment_wf s ∧
  ∃ version reserved hint, 0 ≤ version ≤ FORMAT_VERSION ∧ is_u16 reserved ∧ is_u64 hint ∧
    bytes = frame version reserved hint (seg_records s).
Proof.
  unfold WalSegment_decode. destruct (Nat.ltb_spec (length bytes) (4 + 2 + 2 + 4 + 8 + (4 + 4))); [done|].
  set (body := take (length bytes - 8) bytes).
  assert (Hbody : length body = (length bytes - 8)%nat) by (subst body; rewrite length_take; lia).
  case_bool_decide as Hfm; [|done]. cbn [negb].
  destruct (get_le 4 (drop 4 (drop (length bytes - 8) bytes))) as [fcrc ftail] eqn:Ef.
  apply get_le_inv in Ef as [Hft Hfc]; [|rewrite !length_drop; lia]. cbn [fst].
  destruct (Z.eqb_spec fcrc (crc32 body)) as [->|]; [|done]. cbn [negb].
  case_bool_decide as Hhm; [|done]. cbn [negb].
  assert (Hd4 : length (drop 4 body) = (length bytes - 12)%nat) by (rewrite length_drop; lia).
  destruct (get_le 2 (drop 4 body)) as [version c1] eqn:E1.
  apply get_le_inv in E1 as [E1 Hver]; [|lia]. rewrite E1, length_app, length_le_split in Hd4.
  destruct (Z.ltb_spec FORMAT_VERSION version); [done|].
  destruct (get_le 2 c1) as [reserved c2] eqn:E2.
  apply get_le_inv in E2 as [-> Hres]; [|lia]. rewrite length_app, length_le_split in Hd4.
  destruct (get_le 4 c2) as [count c3] eqn:E3.
  apply get_le_inv in E3 as [-> Hcount]; [|lia]. rewrite length_app, length_le_split in Hd4.
  destruct (get_le 8 c3) as [hint c4] eqn:E4.
  apply get_le_inv in E4 as [-> Hhint]; [|lia].
  intros Hdec. apply result_bind_Ok in Hdec as ([recs rest] & Hdec & Hend).
  destruct rest; [|done]. simplify_eq.
  apply decode_records_inv in Hdec as (new & -> & Hcnt & HF & ->).
  cbn [seg_seq seg_records app] in *.
  assert (Hn : Z.of_nat (length new) = count) by lia.
  split; [done|]. split; [split; [done|unfold is_uint; cbn [seg_records]; lia]|].
  exists version, reserved, hint. split_and!; try done; try lia.
  unfold frame. replace (frame_body version reserved hint new) with body.
  - rewrite <- Hfm. assert (ftail = []) as ->.
    { apply (f_equal length) in Hft.
      rewrite length_app, !length_drop, length_le_split in Hft.
      apply length_zero_iff_nil. lia. }
    rewrite app_nil_r in Hft. rewrite <- Hft, take_drop. subst body. by rewrite take_drop.
  - unfold frame_body. rewrite Hn, <- Hhm. rewrite app_nil_r in E1.
    rewrite <- E1. by rewrite take_drop.
Qed.
End Codec.

Lemma decode_encode crc32 path s :
  (∀ b, is_u32 (crc32 b)) → segment_wf s →
  WalSegment_decode crc32 path (seg_seq s) (WalSegment_encode crc32 s) = Ok s.
Proof.
  intros Hcrc Hwf. pose proof Hwf as [HF Hn]. rewrite WalSegment_encode_frame.
  rewrite decode_frame; try done.
  - by destruct s.
  - by apply first_lsn_u64.
Qed.

(** ** Properties *)

(** A WAL segment decodes back from its encoding to the same records under
    the same sequence number. *)
Theorem wal_roundtrip crc32 path s :
  (∀ b, is_u32 (crc32 b)) → segment_wf s →
  WalSegment_decode crc32 path (seg_seq s) (WalSegment_encode crc32 s) = Ok s.
Proof. apply decode_encode. Qed.

(** A concrete stand-in for the checksum: the byte sum modulo [2^32]. *)
Definition sum32 (b : list byte) : Z := foldr (λ x acc, (b2z x + acc) `mod` 2 ^ 32) 0 b.
Lemma sum32_u32 b : is_u32 (sum32 b).
Proof. destruct b; [done|]. apply Z.mod_pos_bound. done. Qed.

Definition example_segment : WalSegment :=
  {| seg_seq := 3; seg_records := [ {| rec_lsn := 41; rec_payload := [z2b 1; z2b 255] |};
                                    {| rec_lsn := 42; rec_payload := [] |} ] |}.
Lemma example_segment_wf : segment_wf example_segment.
Proof. split; [repeat constructor; done|done]. Qed.

Lemma wal_roundtrip_witness :
  WalSegment_decode sum32 "wal#3" 3 (WalSegment_encode sum32 example_segment) = Ok example_segment.
Proof. apply (wal_roundtrip sum32 "wal#3" example_segment sum32_u32 example_segment_wf). Defined.

(** Decoding accepts exactly the well-formed frames: a segment is returned
    if and only if the bytes are the header magic, a supported version, the
    record count, every record with its own checksum, and the footer with the
    checksum of everything before it, with nothing left over. Any other byte
    string is rejected. *)
Theorem wal_decode_exact crc32 path seq bytes s :
  (∀ b, is_u32 (crc32 b)) →
  WalSegment_decode crc32 path seq bytes = Ok s ↔
  seg_seq s = seq ∧ segment_wf s ∧
  ∃ version reserved hint, 0 ≤ version ≤ FORMAT_VERSION ∧ is_u16 reserved ∧ is_u64 hint ∧
    bytes = frame crc32 version reserved hint (seg_records s).
Proof.
  intros Hcrc. split.
  - by apply decode_inv.
  - intros (<- & [HF Hn] & version & reserved & hint & ? & ? & ? & ->).
    rewrite decode_frame; try done. by destruct s.
Qed.

Lemma wal_decode_exact_witness :
  WalSegment_decode sum32 "wal#3" 3 (frame sum32 1 0 7 (seg_records example_segment))
    = Ok example_segment ↔
  seg_seq example_segment = 3 ∧ segment_wf example_segment ∧
  ∃ version reserved hint, 0 ≤ version ≤ FORMAT_VERSION ∧ is_u16 reserved ∧ is_u64 hint ∧
    frame sum32 1 0 7 (seg_records example_segment)
    = frame sum32 version reserved hint (seg_records example_segment).
Proof. apply (wal_decode_exact sum32 "wal#3" 3 _ example_segment sum32_u32). Defined.
