(* ===== verification/Memtable.v ===== *)
(** The in-memory write buffer ([memtable.rs]).

    The persistent [imbl::OrdMap] is a finite map together with iteration in the
    derived key order. A [NodeId] is the big-endian integer of its 16 bytes (the
    order is the same, [Prelude.bytes_cmp_be]); an edge type is a string under
    byte order. *)
From S2P Require Import Prelude.

Inductive MemKey :=
| KNode (id : Z)
| KEdge (edge_type : string) (src dst : Z).

Inductive MemOp :=
| Upsert (bytes : list byte)
| Tombstone.

Record MemEntry := { entry_lsn : Z; entry_op : MemOp }.

#[global] Instance MemKey_eq_dec : EqDecision MemKey.
Proof. solve_decision. Defined.
#[global] Instance MemKey_countable : Countable MemKey.
Proof.
  refine (inj_countable'
    (λ k, match k with KNode i => inl i | KEdge t s d => inr (t, s, d) end)
    (λ x, match x with inl i => KNode i | inr (t, s, d) => KEdge t s d end) _).
  by intros [].
Defined.
#[global] Instance MemOp_eq_dec : EqDecision MemOp.
Proof. solve_decision. Defined.
#[global] Instance MemEntry_eq_dec : EqDecision MemEntry.
Proof. solve_decision. Defined.

Definition scope (k : MemKey) : string :=
  match k with KNode _ => "" | KEdge edge_type _ _ => edge_type end.

Definition key_approx_bytes (k : MemKey) : Z :=
  match k with
  | KNode _ => 16
  | KEdge edge_type _ _ => Z.of_nat (String.length edge_type) + 32
  end.

Definition op_approx_bytes (op : MemOp) : Z :=
  match op with Upsert b => Z.of_nat (length b) | Tombstone => 0 end.

(** The derived [Ord]: variants in declaration order, then the fields. *)
Definition key_le (a b : MemKey) : Prop :=
  match a, b with
  | KNode i, KNode j => i ≤ j
  | KNode _, KEdge _ _ _ => True
  | KEdge _ _ _, KNode _ => False
  | KEdge t s d, KEdge t' s' d' =>
      (t ≠ t' ∧ String.le t t') ∨ (t = t' ∧ (s < s' ∨ (s = s' ∧ d ≤ d')))
  end.

Record Memtable := { mt_inner : gmap MemKey MemEntry; mt_bytes : Z }.
Record FrozenMemtable := { fz_inner : gmap MemKey MemEntry; fz_bytes : Z }.
Record MemtableSnapshot := { sn_inner : gmap MemKey MemEntry }.

Definition Memtable_new : Memtable := {| mt_inner := ∅; mt_bytes := 0 |}.
Definition MemtableSnapshot_empty : MemtableSnapshot := {| sn_inner := ∅ |}.

Definition Memtable_apply (m : Memtable) (key : MemKey) (lsn : Z) (op : MemOp)
    : Memtable * option MemEntry :=
  let new_bytes := key_approx_bytes key + op_approx_bytes op + 24 in
  let prev := mt_inner m !! key in
  let inner := <[key := {| entry_lsn := lsn; entry_op := op |}]> (mt_inner m) in
  let old_bytes :=
    match prev with
    | Some e => key_approx_bytes key + op_approx_bytes (entry_op e) + 24
    | None => 0
    end in
  ({| mt_inner := inner; mt_bytes := mt_bytes m + new_bytes - old_bytes |}, prev).

Definition Memtable_get (m : Memtable) (key : MemKey) : option MemEntry := mt_inner m !! key.

#[global] Instance key_le_dec : RelDecision key_le.
Proof. intros [] []; simpl; apply _. Defined.

Definition entry_le (a b : MemKey * MemEntry) : Prop := key_le a.1 b.1.
#[global] Instance entry_le_dec : RelDecision entry_le.
Proof. intros a b. unfold entry_le. apply _. Defined.

(** [OrdMap::iter] and [OrdMap::range] with two inclusive bounds. *)
Definition ord_iter (m : gmap MemKey MemEntry) : list (MemKey * MemEntry) :=
  merge_sort entry_le (map_to_list m).
Definition ord_range (m : gmap MemKey MemEntry) (start end_ : MemKey)
    : list (MemKey * MemEntry) :=
  filter (λ e, key_le start e.1 ∧ key_le e.1 end_) (ord_iter m).

(** [Uuid::nil()] and [Uuid::max()]. *)
Definition uuid_nil : Z := 0.
Definition uuid_max : Z := 2 ^ 128 - 1.

Definition Memtable_iter (m : Memtable) := ord_iter (mt_inner m).

Definition Memtable_iter_nodes (m : Memtable) : list (MemKey * MemEntry) :=
  ord_range (mt_inner m) (KNode uuid_nil) (KNode uuid_max).

Definition Memtable_iter_edge_type (m : Memtable) (edge_type : string)
    : list (MemKey * MemEntry) :=
  ord_range (mt_inner m) (KEdge edge_type uuid_nil uuid_nil) (KEdge edge_type uuid_max uuid_max).

Definition Memtable_iter_out_edges (m : Memtable) (edge_type : string) (src : Z)
    : list (MemKey * MemEntry) :=
  ord_range (mt_inner m) (KEdge edge_type src uuid_nil) (KEdge edge_type src uuid_max).

Definition Memtable_freeze (m : Memtable) : Memtable * FrozenMemtable :=
  (Memtable_new, {| fz_inner := mt_inner m; fz_bytes := mt_bytes m |}).

Definition restore_step (m : Memtable) (e : MemKey * MemEntry) : Memtable :=
  let '(key, entry) := e in
  let keep :=
    match mt_inner m !! key with
    | Some existing => entry_lsn existing <? entry_lsn entry
    | None => true
    end in
  if keep then (Memtable_apply m key (entry_lsn entry) (entry_op entry)).1 else m.

Definition Memtable_restore (m : Memtable) (frozen : FrozenMemtable) : Memtable :=
  foldl restore_step m (ord_iter (fz_inner frozen)).

Definition snapshot_view (m : Memtable) : MemtableSnapshot := {| sn_inner := mt_inner m |}.
Definition MemtableSnapshot_get (s : MemtableSnapshot) (key : MemKey) : option MemEntry :=
  sn_inner s !! key.
Definition MemtableSnapshot_iter_nodes (s : MemtableSnapshot) : list (MemKey * MemEntry) :=
  ord_range (sn_inner s) (KNode uuid_nil) (KNode uuid_max).
Definition MemtableSnapshot_iter_edge_type (s : MemtableSnapshot) (edge_type : string)
    : list (MemKey * MemEntry) :=
  ord_range (sn_inner s) (KEdge edge_type uuid_nil uuid_nil) (KEdge edge_type uuid_max uuid_max).
Definition MemtableSnapshot_iter_out_edges (s : MemtableSnapshot) (edge_type : string) (src : Z)
    : list (MemKey * MemEntry) :=
  ord_range (sn_inner s) (KEdge edge_type src uuid_nil) (KEdge edge_type src uuid_max).

(** ** The key order *)

Lemma key_le_refl k : key_le k k.
Proof. destruct k; simpl; [lia|]. right. split; [done|]. lia. Qed.

#[global] Instance key_le_trans : Transitive key_le.
Proof.
  intros [i|t s d] [j|t' s' d'] [k|t'' s'' d'']; simpl; try done; [lia|].
  intros [[Hne Hle]|[-> H1]] [[Hne' Hle']|[-> H2]].
  - left. split; [|by etrans]. intros ->. apply Hne. by apply (anti_symm String.le).
  - by left.
  - by left.
  - right. split; [done|]. lia.
Qed.

#[global] Instance key_le_total : Total key_le.
Proof.
  intros [i|t s d] [j|t' s' d']; simpl; auto; [lia|].
  destruct (decide (t = t')) as [->|Hne].
  { destruct (decide (s < s' ∨ s = s' ∧ d ≤ d')); [left|right]; right; split; try done; lia. }
  destruct (total String.le t t'); auto.
Qed.

#[global] Instance key_le_anti : AntiSymm (=) key_le.
Proof.
  intros [i|t s d] [j|t' s' d']; simpl; try done; [intros; f_equal; lia|].
  intros [[Hne Hle]|[-> H1]] [[Hne' Hle']|[E H2]]; try done.
  - destruct Hne. by apply (anti_symm String.le).
  - f_equal; lia.
Qed.

#[global] Instance entry_le_trans : Transitive entry_le.
Proof. intros ??? H1 H2. unfold entry_le in *. by etrans. Qed.
#[global] Instance entry_le_total : Total entry_le.
Proof. intros ??. apply key_le_total. Qed.

(** ** Iteration *)

Lemma ord_iter_Permutation m : ord_iter m ≡ₚ map_to_list m.
Proof. apply merge_sort_Permutation. Qed.

Lemma elem_of_ord_iter m k e : (k, e) ∈ ord_iter m ↔ m !! k = Some e.
Proof. by rewrite ord_iter_Permutation, elem_of_map_to_list. Qed.

Lemma ord_iter_NoDup_keys m : NoDup (ord_iter m).*1.
Proof. rewrite ord_iter_Permutation. apply NoDup_fst_map_to_list. Qed.

Lemma elem_of_ord_range m a b k e :
  (k, e) ∈ ord_range m a b ↔ m !! k = Some e ∧ key_le a k ∧ key_le k b.
Proof. unfold ord_range. rewrite list_elem_of_filter, elem_of_ord_iter. simpl. tauto. Qed.

Lemma ord_range_sorted m a b : StronglySorted entry_le (ord_range m a b).
Proof. apply StronglySorted_filter, (StronglySorted_merge_sort entry_le). Qed.

(** A range scan is the key-ordered list of exactly the entries that satisfy
    [P] when the bounds enclose precisely the keys of [P]. *)
Lemma ord_range_filter m a b (P : MemKey → bool) :
  (∀ k e, m !! k = Some e → P k ↔ key_le a k ∧ key_le k b) →
  ord_range m a b = filter (λ e, P e.1) (ord_iter m).
Proof.
  intros HP. unfold ord_range. apply filter_ext_in. intros [k e] Hin%elem_of_ord_iter.
  symmetry. by apply (HP k e).
Qed.

(** ** Byte accounting *)

Definition entry_bytes (k : MemKey) (e : MemEntry) : Z :=
  key_approx_bytes k + op_approx_bytes (entry_op e) + 24.

(** The sum of the sizes of all entries. *)
Definition total_bytes (m : gmap MemKey MemEntry) : Z :=
  map_fold (λ k e acc, entry_bytes k e + acc) 0 m.

Lemma total_bytes_empty : total_bytes ∅ = 0.
Proof. apply map_fold_empty. Qed.

Lemma total_bytes_insert_new m k e :
  m !! k = None → total_bytes (<[k := e]> m) = entry_bytes k e + total_bytes m.
Proof.
  intros Hk. unfold total_bytes. rewrite map_fold_insert_L; [done| |done]. intros. lia.
Qed.

Lemma total_bytes_delete m k e :
  m !! k = Some e → total_bytes m = entry_bytes k e + total_bytes (delete k m).
Proof.
  intros Hk. rewrite <- (insert_delete_id m k e) at 1 by done.
  by rewrite total_bytes_insert_new by apply lookup_delete_eq.
Qed.

Lemma total_bytes_insert m k e :
  total_bytes (<[k := e]> m)
  = total_bytes m + entry_bytes k e - from_option (entry_bytes k) 0 (m !! k).
Proof.
  destruct (m !! k) as [e'|] eqn:Hk; simpl.
  - rewrite <- insert_delete_eq, total_bytes_insert_new by apply lookup_delete_eq.
    rewrite (total_bytes_delete m k e') by done. lia.
  - rewrite total_bytes_insert_new by done. lia.
Qed.

Definition accounted (m : Memtable) : Prop := mt_bytes m = total_bytes (mt_inner m).

Lemma apply_accounted m k lsn op : accounted m → accounted (Memtable_apply m k lsn op).1.
Proof.
  unfold accounted. intros H. simpl. rewrite total_bytes_insert, H. unfold entry_bytes.
  destruct (mt_inner m !! k); simpl; lia.
Qed.

(** ** Restoring a frozen batch *)

(** What a key holds after the merge: the newer LSN, the live entry on a tie. *)
Definition newest (live frozen : option MemEntry) : option MemEntry :=
  match live, frozen with
  | Some l, Some f => if entry_lsn l <? entry_lsn f then Some f else Some l
  | None, Some f => Some f
  | l, None => l
  end.

Lemma newest_None_r o : newest o None = o.
Proof. by destruct o. Qed.

Lemma restore_step_lookup m k' e k :
  mt_inner (restore_step m (k', e)) !! k
  = if decide (k = k') then newest (mt_inner m !! k) (Some e) else mt_inner m !! k.
Proof.
  unfold restore_step, newest. case_decide as Hk.
  - subst. destruct (mt_inner m !! k') as [x|] eqn:E.
    + destruct (entry_lsn x <? entry_lsn e); simpl; [|done].
      rewrite lookup_insert_eq. by destruct e.
    + simpl. rewrite lookup_insert_eq. by destruct e.
  - destruct (match mt_inner m !! k' with Some _ => _ | None => _ end); [|done].
    simpl. by rewrite lookup_insert_ne.
Qed.

#[global] Arguments restore_step : simpl never.
Lemma restore_fold_lookup l m k :
  NoDup l.*1 →
  mt_inner (foldl restore_step m l) !! k
  = newest (mt_inner m !! k) ((list_to_map l : gmap MemKey MemEntry) !! k).
Proof.
  revert m. induction l as [|[k' e] l IH]; intros m Hnd; simpl.
  { rewrite lookup_empty. symmetry. apply newest_None_r. }
  apply NoDup_cons in Hnd as [Hk' Hnd]. rewrite IH by done. rewrite restore_step_lookup.
  case_decide; subst.
  - rewrite lookup_insert_eq. rewrite (not_elem_of_list_to_map_1 l k') by done.
    apply newest_None_r.
  - by rewrite lookup_insert_ne.
Qed.

Lemma restore_lookup m f k :
  mt_inner (Memtable_restore m f) !! k = newest (mt_inner m !! k) (fz_inner f !! k).
Proof.
  unfold Memtable_restore. rewrite restore_fold_lookup by apply ord_iter_NoDup_keys.
  f_equal. rewrite <- (list_to_map_to_list (fz_inner f)) at 2.
  rewrite (list_to_map_proper (ord_iter (fz_inner f)) (map_to_list (fz_inner f))); [done| |].
  - apply ord_iter_NoDup_keys.
  - apply ord_iter_Permutation.
Qed.

Lemma restore_accounted m f : accounted m → accounted (Memtable_restore m f).
Proof.
  unfold Memtable_restore. generalize (ord_iter (fz_inner f)). intros l.
  revert m. induction l as [|[k e] l IH]; intros m Hm; simpl; [done|].
  apply IH. unfold restore_step. destruct (match mt_inner m !! k with Some _ => _ | None => _ end); [|done].
  by apply apply_accounted.
Qed.

(** ** Logs of mutations *)

(** A committed record: the key, its LSN and the operation. *)
Definition mutation : Type := MemKey * Z * MemOp.

Definition apply_all (m : Memtable) (log : list mutation) : Memtable :=
  foldl (λ m '(k, lsn, op), (Memtable_apply m k lsn op).1) m log.

(** The last record of a log for a key. *)
Fixpoint last_for (k : MemKey) (log : list mutation) : option MemEntry :=
  match log with
  | [] => None
  | (k', lsn, op) :: rest =>
      match last_for k rest with
      | Some e => Some e
      | None => if decide (k = k') then Some {| entry_lsn := lsn; entry_op := op |} else None
      end
  end.

Lemma apply_all_lookup log m k :
  mt_inner (apply_all m log) !! k
  = match last_for k log with Some e => Some e | None => mt_inner m !! k end.
Proof.
  revert m. induction log as [|[[k' lsn] op] log IH]; intros m; simpl; [done|].
  unfold apply_all in IH |- *. simpl. rewrite IH. destruct (last_for k log); [done|].
  simpl. case_decide; subst; [by rewrite lookup_insert_eq|by rewrite lookup_insert_ne].
Qed.

Lemma apply_all_new_lookup log k : mt_inner (apply_all Memtable_new log) !! k = last_for k log.
Proof. rewrite apply_all_lookup. simpl. rewrite lookup_empty. by destruct (last_for k log). Qed.

Lemma apply_all_accounted log m : accounted m → accounted (apply_all m log).
Proof.
  revert m. induction log as [|[[k' lsn] op] log IH]; intros m Hm; simpl; [done|].
  apply IH. by apply apply_accounted.
Qed.

Lemma accounted_new : accounted Memtable_new.
Proof. unfold accounted. simpl. by rewrite total_bytes_empty. Qed.

Lemma memtable_ext m m' :
  accounted m → accounted m' → mt_inner m = mt_inner m' → m = m'.
Proof. destruct m, m'. unfold accounted. simpl. intros -> -> ->. done. Qed.

Lemma last_for_app k l1 l2 :
  last_for k (l1 ++ l2) = match last_for k l2 with Some e => Some e | None => last_for k l1 end.
Proof.
  induction l1 as [|[[k' lsn] op] l1 IH]; simpl; [by destruct (last_for k l2)|].
  rewrite IH. by destruct (last_for k l2).
Qed.

Lemma last_for_In k log e :
  last_for k log = Some e → (k, entry_lsn e, entry_op e) ∈ log.
Proof.
  induction log as [|[[k' lsn] op] log IH]; simpl; [done|].
  destruct (last_for k log) as [x|]; intros H; [right; apply IH; congruence|].
  case_decide; simplify_eq. left.
Qed.

(** Every LSN of the first log is below every LSN of the second. *)
Definition lsn_before (l1 l2 : list mutation) : Prop :=
  Forall (λ a, Forall (λ b, a.1.2 < b.1.2) l2) l1.

(** ** Properties *)

(** The byte estimate always equals the sum over the live entries of key
    size, payload size and fixed overhead: it holds of the empty memtable and is
    preserved by applying records, freezing and restoring, so it never drifts
    and never underflows. *)
Theorem memtable_accounting m k lsn op f :
  accounted m →
  accounted (Memtable_apply m k lsn op).1 ∧ accounted (Memtable_restore m f) ∧
  accounted (Memtable_freeze m).1 ∧ accounted Memtable_new ∧
  0 ≤ mt_bytes m ∧ fz_bytes (Memtable_freeze m).2 = total_bytes (fz_inner (Memtable_freeze m).2).
Proof.
  intros Hm. split_and!.
  - by apply apply_accounted.
  - by apply restore_accounted.
  - apply accounted_new.
  - apply accounted_new.
  - rewrite Hm. apply (map_fold_weak_ind (λ z _, 0 ≤ z)); [lia|].
    intros k' e m' z _ Hz. unfold entry_bytes.
    destruct k', e as [? []]; simpl; lia.
  - apply Hm.
Qed.

Definition example_log : list mutation :=
  [ (KNode 7, 1, Upsert [z2b 1; z2b 2]); (KEdge "KNOWS" 7 9, 2, Upsert [z2b 3]);
    (KNode 7, 3, Tombstone) ].

Lemma memtable_accounting_witness :
  let m := apply_all Memtable_new example_log in
  accounted (Memtable_apply m (KNode 8) 4 Tombstone).1 ∧
  accounted (Memtable_restore m (Memtable_freeze m).2) ∧
  accounted (Memtable_freeze m).1 ∧ accounted Memtable_new ∧
  0 ≤ mt_bytes m ∧ fz_bytes (Memtable_freeze m).2 = total_bytes (fz_inner (Memtable_freeze m).2).
Proof.
  apply (memtable_accounting (apply_all Memtable_new example_log) (KNode 8) 4 Tombstone).
  vm_compute. reflexivity.
Defined.

(** A failed flush loses nothing and reorders nothing: freezing a batch,
    accepting newer writes while the flush is in flight, and restoring the
    frozen batch gives exactly the memtable that would exist had the flush never
    been started, contents and byte accounting included. *)
Theorem freeze_restore_failed_flush l1 l2 :
  lsn_before l1 l2 →
  let '(live, frozen) := Memtable_freeze (apply_all Memtable_new l1) in
  Memtable_restore (apply_all live l2) frozen = apply_all Memtable_new (l1 ++ l2).
Proof.
  intros Hlsn. simpl. apply memtable_ext.
  - apply restore_accounted, apply_all_accounted, accounted_new.
  - apply apply_all_accounted, accounted_new.
  - apply map_eq. intros k. rewrite restore_lookup. simpl. rewrite !apply_all_new_lookup, last_for_app.
    destruct (last_for k l2) as [e2|] eqn:E2, (last_for k l1) as [e1|] eqn:E1;
      simpl; try done.
    apply last_for_In in E1. apply last_for_In in E2.
    unfold lsn_before in Hlsn. rewrite Forall_forall in Hlsn. specialize (Hlsn _ E1).
    rewrite Forall_forall in Hlsn. specialize (Hlsn _ E2). simpl in Hlsn.
    destruct (Z.ltb_spec (entry_lsn e2) (entry_lsn e1)); [lia|done].
Qed.

Lemma freeze_restore_failed_flush_witness :
  let '(live, frozen) := Memtable_freeze (apply_all Memtable_new example_log) in
  Memtable_restore (apply_all live [(KNode 7, 4, Upsert [])]) frozen
  = apply_all Memtable_new (example_log ++ [(KNode 7, 4, Upsert [])]).
Proof.
  apply (freeze_restore_failed_flush example_log [(KNode 7, 4, Upsert [])]).
  repeat constructor.
Defined.

(** restoring is newest-wins per key: after a restore every key holds the
    entry with the higher LSN of the live and the frozen one, the live entry on
    a tie, and no other key changes. *)
Theorem restore_newest_wins m f k :
  Memtable_get (Memtable_restore m f) k = newest (Memtable_get m k) (fz_inner f !! k).
Proof. apply restore_lookup. Qed.

(** All ids of the memtable are 128-bit. *)
Definition is_u128b (z : Z) : bool := (0 <=? z) && (z <=? uuid_max).
Definition key_wf (k : MemKey) : bool :=
  match k with KNode i => is_u128b i | KEdge _ s d => is_u128b s && is_u128b d end.
Definition ids_wf (m : gmap MemKey MemEntry) : Prop := map_Forall (λ k _, key_wf k) m.

Definition is_node (k : MemKey) : bool := match k with KNode _ => true | _ => false end.
Definition is_edge_of (t : string) (k : MemKey) : bool :=
  match k with KEdge t' _ _ => bool_decide (t = t') | _ => false end.
Definition is_out_edge_of (t : string) (src : Z) (k : MemKey) : bool :=
  match k with KEdge t' s _ => bool_decide (t = t') && (src =? s) | _ => false end.

Lemma edge_range_iff t s1 d1 s2 d2 t' s d :
  key_le (KEdge t s1 d1) (KEdge t' s d) ∧ key_le (KEdge t' s d) (KEdge t s2 d2) ↔
  t = t' ∧ (s1 < s ∨ s1 = s ∧ d1 ≤ d) ∧ (s < s2 ∨ s = s2 ∧ d ≤ d2).
Proof.
  simpl. split.
  - intros [[[Hne Hle]|[-> H1]] [[Hne' Hle']|[E H2]]]; subst; try done.
    destruct Hne. by apply (anti_symm String.le).
  - intros (-> & ? & ?). split; right; done.
Qed.

(** The range scans return, in key order, exactly the entries they name: all
    the nodes, all the edges of one type, and all the edges of one type out of
    one source; iteration is key-ordered and complete; and a published snapshot
    answers every scan as the memtable did when it was taken. *)
Theorem memtable_scans m t src :
  ids_wf (mt_inner m) →
  Memtable_iter_nodes m = filter (λ e, is_node e.1) (Memtable_iter m) ∧
  Memtable_iter_edge_type m t = filter (λ e, is_edge_of t e.1) (Memtable_iter m) ∧
  Memtable_iter_out_edges m t src = filter (λ e, is_out_edge_of t src e.1) (Memtable_iter m) ∧
  StronglySorted entry_le (Memtable_iter m) ∧
  (∀ k e, (k, e) ∈ Memtable_iter m ↔ Memtable_get m k = Some e) ∧
  MemtableSnapshot_iter_nodes (snapshot_view m) = Memtable_iter_nodes m ∧
  MemtableSnapshot_iter_edge_type (snapshot_view m) t = Memtable_iter_edge_type m t ∧
  MemtableSnapshot_iter_out_edges (snapshot_view m) t src = Memtable_iter_out_edges m t src.
Proof.
  intros Hwf. unfold ids_wf, map_Forall in Hwf.
  assert (Hu : ∀ z, Is_true (is_u128b z) ↔ 0 ≤ z ≤ uuid_max).
  { intros z. unfold is_u128b. rewrite andb_True, !Is_true_true, !Z.leb_le. done. }
  unfold Memtable_iter_nodes, Memtable_iter_edge_type, Memtable_iter_out_edges, Memtable_iter.
  split_and!; try done.
  - apply ord_range_filter with (P := is_node). intros [i|t' s d] e Hk%Hwf; simpl in *; [|tauto].
    apply Hu in Hk. unfold uuid_nil. tauto.
  - apply ord_range_filter with (P := is_edge_of t).
    intros [i|t' s d] e Hk%Hwf; [simpl; tauto|]. rewrite edge_range_iff.
    simpl in *. rewrite andb_True, !Hu in Hk. unfold uuid_nil. rewrite bool_decide_spec.
    split; [|tauto]. intros ->. split; [done|]. lia.
  - apply ord_range_filter with (P := is_out_edge_of t src).
    intros [i|t' s d] e Hk%Hwf; [simpl; tauto|]. rewrite edge_range_iff.
    simpl in *. rewrite andb_True, !Hu in Hk. unfold uuid_nil.
    rewrite andb_True, bool_decide_spec, Is_true_true, Z.eqb_eq.
    split; [intros [-> ->]|intros (-> & ?)]; (split; [done|]); lia.
  - apply (StronglySorted_merge_sort entry_le).
  - intros. apply elem_of_ord_iter.
Qed.

Lemma memtable_scans_witness :
  let m := apply_all Memtable_new example_log in
  Memtable_iter_nodes m = filter (λ e, is_node e.1) (Memtable_iter m).
Proof.
  apply (memtable_scans (apply_all Memtable_new example_log) "KNOWS" 7).
  unfold ids_wf. apply (bool_decide_unpack (map_Forall _ _)). vm_compute. exact I.
Defined.
