(* ===== verification/Bloom.v ===== *)
(** The split-block Bloom filter of an SST side-car ([sst/bloom.rs]): the filter,
    its probe, and its wire format.

    [xxh3_64] is the hash function of the [xxhash_rust] crate; only the range of
    its output is used. A 256-bit block is a list of eight 32-bit words. Indexing
    a block out of range panics in the source; the operations return [None]. *)
From S2P Require Import Prelude StorageError.

Definition DEFAULT_BITS_PER_KEY : Z := 10.
Definition BLOOM_OMIT_THRESHOLD_BYTES : Z := 256 * 1024.

Definition MAGIC : list byte := String.list_byte_of_string "TGBLOOM" ++ [Byte.x00].
Definition HEADER_LEN : nat := 28.
Definition TRAILER_LEN : nat := 8.
Definition BLOCK_BYTES : nat := 32.

Definition SALT : list Z :=
  [0x47b6137b; 0x44974d91; 0x8824ad5b; 0xa2b7289d; 0x705495c7; 0x2df1424b; 0x9efc4947; 0x5c6bfb31].

Record BloomDescriptor := {
  bd_path : string;
  bd_size_bytes : Z;
  bd_key_count : Z;
  bd_bits_per_key : Z;
  bd_block_count : Z;
  bd_xxhash3_64 : Z;
}.

Record BloomFilter := {
  bf_blocks : list (list Z);
  bf_bits_per_key : Z;
  bf_key_count : Z;
}.

Definition block_mask (key32 : Z) : list Z :=
  map (λ salt,
    let bit_index := Z.shiftr ((salt * key32) `mod` 2 ^ 32) 27 in
    Z.shiftl 1 (Z.land bit_index 31)) SALT.

Definition BloomFilter_with_capacity (expected_keys bits_per_key : Z) : BloomFilter :=
  let bpk := Z.max bits_per_key 1 in
  let total_bits := Z.max (saturating_mul64 expected_keys bpk) 256 in
  let block_count := Z.max ((total_bits + 255) / 256) 1 in
  {| bf_blocks := replicate (Z.to_nat block_count) (replicate 8 0);
     bf_bits_per_key := bits_per_key;
     bf_key_count := 0 |}.

(** The product is a [u64]; it wraps in release builds. *)
Definition block_index (f : BloomFilter) (h : Z) : nat :=
  Z.to_nat (Z.shiftr ((Z.shiftr h 32 * Z.of_nat (length (bf_blocks f))) `mod` 2 ^ 64) 32).

Definition block_count (f : BloomFilter) : Z := Z.of_nat (length (bf_blocks f)) `mod` 2 ^ 32.

Definition BloomDescriptor_from_body (path : string) (body : list byte) : Result BloomDescriptor :=
  ensure negb (length body <? HEADER_LEN + TRAILER_LEN)%nat else Corrupted path "bloom body too small";
  ensure bool_decide (take 8 body = MAGIC) else Corrupted path "bloom magic mismatch";
  let major := b2z (byte_at body 8) in
  ensure major =? 1 else Corrupted path "unsupported bloom format_major";
  let bits_per_key := b2z (byte_at body 12) in
  let block_count := le_combine (slice body 16 20) in
  let key_count := le_combine (slice body 20 28) in
  let expected_total := (HEADER_LEN + BLOCK_BYTES * Z.to_nat block_count + TRAILER_LEN)%nat in
  ensure (length body =? expected_total)%nat else Corrupted path "bloom size mismatch";
  let trailer_start := (length body - TRAILER_LEN)%nat in
  Ok {| bd_path := path;
        bd_size_bytes := Z.of_nat (length body) `mod` 2 ^ 32;
        bd_key_count := key_count;
        bd_bits_per_key := bits_per_key;
        bd_block_count := block_count;
        bd_xxhash3_64 := le_combine (drop trailer_start body) |}.

Section Filter.
Context (xxh3_64 : list byte → Z).

Definition BloomFilter_insert (f : BloomFilter) (key : list byte) : option BloomFilter :=
  let h := xxh3_64 key in
  let block_index := block_index f h in
  let mask := block_mask (h `mod` 2 ^ 32) in
  block ← bf_blocks f !! block_index;
  Some {| bf_blocks := <[block_index := zip_with Z.lor block mask]> (bf_blocks f);
          bf_bits_per_key := bf_bits_per_key f;
          bf_key_count := saturating_add64 (bf_key_count f) 1 |}.

Definition BloomFilter_contains (f : BloomFilter) (key : list byte) : option bool :=
  let h := xxh3_64 key in
  let block_index := block_index f h in
  let mask := block_mask (h `mod` 2 ^ 32) in
  block ← bf_blocks f !! block_index;
  Some (forallb (λ '(b, m), Z.land b m =? m) (zip block mask)).

Definition BloomFilter_to_bytes (f : BloomFilter) : list byte :=
  let block_count := length (bf_blocks f) in
  let buf := MAGIC in
  let buf := buf ++ [z2b 1] in
  let buf := buf ++ [z2b 0] in
  let buf := buf ++ le_split 2 0 in
  let buf := buf ++ [z2b (bf_bits_per_key f)] in
  let buf := buf ++ [z2b 0] in
  let buf := buf ++ le_split 2 0 in
  let buf := buf ++ le_split 4 (Z.of_nat block_count `mod` 2 ^ 32) in
  let buf := buf ++ le_split 8 (bf_key_count f) in
  let buf := buf ++ concat (map (λ block, concat (map (le_split 4) block)) (bf_blocks f)) in
  let body_hash := xxh3_64 buf in
  buf ++ le_split 8 body_hash.

(** [for word in &mut block { *word = cursor.get_u32_le() }] *)
Fixpoint read_words (n : nat) (cursor : list byte) : list Z * list byte :=
  match n with
  | O => ([], cursor)
  | S n' =>
      let '(word, cursor) := get_le 4 cursor in
      let '(words, cursor) := read_words n' cursor in
      (word :: words, cursor)
  end.

(** [for _ in 0..block_count] *)
Fixpoint read_blocks (n : nat) (cursor : list byte) : list (list Z) :=
  match n with
  | O => []
  | S n' =>
      let '(block, cursor) := read_words 8 cursor in
      block :: read_blocks n' cursor
  end.

Definition BloomFilter_from_bytes (path : string) (body : list byte) : Result BloomFilter :=
  ensure negb (length body <? HEADER_LEN + TRAILER_LEN)%nat else Corrupted path "bloom body too small";
  ensure bool_decide (take 8 body = MAGIC) else Corrupted path "bloom magic mismatch";
  let major := b2z (byte_at body 8) in
  ensure major =? 1 else Corrupted path "unsupported bloom format_major";
  let bits_per_key := b2z (byte_at body 12) in
  let block_count := Z.to_nat (le_combine (slice body 16 20)) in
  let key_count := le_combine (slice body 20 28) in
  let body_end := (HEADER_LEN + BLOCK_BYTES * block_count)%nat in
  let expected_total := (body_end + TRAILER_LEN)%nat in
  ensure (length body =? expected_total)%nat else Corrupted path "bloom size mismatch";
  let body_hash_computed := xxh3_64 (take body_end body) in
  let body_hash_stored := le_combine (slice body body_end (body_end + TRAILER_LEN)) in
  ensure body_hash_computed =? body_hash_stored else Corrupted path "bloom trailer xxhash mismatch";
  let blocks := read_blocks block_count (slice body HEADER_LEN body_end) in
  Ok {| bf_blocks := blocks; bf_bits_per_key := bits_per_key; bf_key_count := key_count |}.

(** ** Lemmas *)

(** What every operation of the filter keeps: whole blocks of 32-bit words, at
    least one of them, and a block count that fits the header field. *)
Definition block_wf (b : list Z) : Prop := length b = 8%nat ∧ Forall is_u32 b.
Definition bloom_wf (f : BloomFilter) : Prop :=
  Forall block_wf (bf_blocks f) ∧ (0 < length (bf_blocks f))%nat
  ∧ Z.of_nat (length (bf_blocks f)) < 2 ^ 32
  ∧ is_u8 (bf_bits_per_key f) ∧ is_u64 (bf_key_count f).

(** Inserting a batch of keys, as the SST writers do. *)
Fixpoint insert_all (f : BloomFilter) (keys : list (list byte)) : option BloomFilter :=
  match keys with
  | [] => Some f
  | key :: rest => f ← BloomFilter_insert f key; insert_all f rest
  end.

Hypothesis xxh3_64_u64 : ∀ bs, is_u64 (xxh3_64 bs).

Lemma lor_u32 a b : is_u32 a → is_u32 b → is_u32 (Z.lor a b).
Proof.
  unfold is_uint. intros [Ha Ha'] [Hb Hb']. split; [by apply Z.lor_nonneg|].
  destruct (decide (Z.lor a b = 0)) as [->|Hne]; [lia|].
  apply Z.log2_lt_pow2; [assert (0 ≤ Z.lor a b) by (by apply Z.lor_nonneg); lia|].
  rewrite Z.log2_lor by done. apply Z.max_lub_lt.
  - destruct (decide (a = 0)) as [->|]; [done|apply Z.log2_lt_pow2; lia].
  - destruct (decide (b = 0)) as [->|]; [done|apply Z.log2_lt_pow2; lia].
Qed.

Lemma block_mask_wf k : block_wf (block_mask k).
Proof.
  split; [done|]. unfold block_mask. apply Forall_map, Forall_forall. intros salt _. simpl.
  rewrite Z.land_ones with (n := 5) by lia.
  set (i := Z.shiftr _ _ `mod` _).
  assert (0 ≤ i < 32) by (apply Z.mod_pos_bound; lia).
  rewrite Z.shiftl_mul_pow2 by lia. split; [lia|].
  rewrite Z.mul_1_l. apply Z.pow_lt_mono_r; lia.
Qed.

#[local] Arguments block_mask : simpl never.

Lemma block_index_lt f h :
  is_u64 h → (0 < length (bf_blocks f))%nat → (block_index f h < length (bf_blocks f))%nat.
Proof.
  unfold block_index, is_uint. intros Hh Hlen. rewrite !Z.shiftr_div_pow2 by lia.
  set (n := length _) in *.
  assert (h / 2 ^ 32 < 2 ^ 32) by (apply Z.div_lt_upper_bound; lia).
  assert (0 ≤ h / 2 ^ 32) by (apply Z.div_pos; lia).
  destruct (Z.lt_ge_cases (2 ^ 32) (Z.of_nat n)) as [Hbig|Hsmall].
  - pose proof (Z.mod_pos_bound (h / 2 ^ 32 * Z.of_nat n) (2 ^ 64)).
    assert ((h / 2 ^ 32 * Z.of_nat n) `mod` 2 ^ 64 / 2 ^ 32 < 2 ^ 32)
      by (apply Z.div_lt_upper_bound; lia). lia.
  - rewrite Z.mod_small by nia.
    assert (h / 2 ^ 32 * Z.of_nat n / 2 ^ 32 < Z.of_nat n) by (apply Z.div_lt_upper_bound; nia).
    assert (0 ≤ h / 2 ^ 32 * Z.of_nat n / 2 ^ 32) by (apply Z.div_pos; nia). lia.
Qed.

(** The bits of a mask are set in a block. *)
Definition covers (block mask : list Z) : bool := forallb (λ '(b, m), Z.land b m =? m) (zip block mask).

Lemma land_lor_self b m : Z.land (Z.lor b m) m = m.
Proof. apply Z.bits_inj'. intros i _. rewrite Z.land_spec, Z.lor_spec. by destruct (Z.testbit b i), (Z.testbit m i). Qed.
Lemma land_lor_mono b m m' : Z.land b m = m → Z.land (Z.lor b m') m = m.
Proof.
  intros Hb. apply Z.bits_inj'. intros i _. rewrite <- Hb at 2. rewrite !Z.land_spec, Z.lor_spec.
  rewrite <- Hb, Z.land_spec. by destruct (Z.testbit b i), (Z.testbit m i), (Z.testbit m' i).
Qed.

Lemma covers_lor_self block mask : covers (zip_with Z.lor block mask) mask = true.
Proof.
  unfold covers. revert mask. induction block as [|b block IH]; intros [|m mask]; simpl; [done..|].
  by rewrite land_lor_self, Z.eqb_refl, IH.
Qed.
Lemma covers_lor_mono block mask mask' :
  length mask' = length block → covers block mask = true → covers (zip_with Z.lor block mask') mask = true.
Proof.
  unfold covers. revert mask mask'.
  induction block as [|b block IH]; intros [|m mask] [|m' mask'] Hlen; simplify_eq/=; [done..|].
  rewrite !andb_true_iff. intros [Hb%Z.eqb_eq Hr]. split; [|by apply IH].
  apply Z.eqb_eq. by apply land_lor_mono.
Qed.

Lemma insert_spec f key :
  bloom_wf f →
  ∃ block f', bf_blocks f !! block_index f (xxh3_64 key) = Some block ∧ block_wf block
  ∧ BloomFilter_insert f key = Some f' ∧ bloom_wf f'
  ∧ bf_blocks f' = <[block_index f (xxh3_64 key) :=
                       zip_with Z.lor block (block_mask (xxh3_64 key `mod` 2 ^ 32))]> (bf_blocks f).
Proof.
  intros (Hb & Hpos & Hmax & Hbpk & Hkc).
  destruct (lookup_lt_is_Some_2 (bf_blocks f) (block_index f (xxh3_64 key))) as [block Hl].
  { by apply block_index_lt. }
  pose proof (Forall_lookup_1 _ _ _ _ Hb Hl) as [Hlen Hw].
  eexists block, _. split; [exact Hl|]. split; [by split|]. unfold BloomFilter_insert. rewrite Hl.
  split; [reflexivity|]. split; [|reflexivity]. unfold bloom_wf; cbn [bf_blocks bf_bits_per_key bf_key_count].
  rewrite length_insert.
  split_and!; [|done..|word_lia].
  destruct (block_mask_wf (xxh3_64 key `mod` 2 ^ 32)) as [Hm HM].
  apply Forall_insert; [done|]. split; [by rewrite length_zip_with, Hlen, Hm|].
  apply Forall_lookup. intros i w. rewrite lookup_zip_with_Some. intros (x & y & -> & Hx & Hy).
  apply lor_u32; [exact (Forall_lookup_1 _ _ _ _ Hw Hx)|exact (Forall_lookup_1 _ _ _ _ HM Hy)].
Qed.

Lemma contains_covers f key block :
  bf_blocks f !! block_index f (xxh3_64 key) = Some block →
  BloomFilter_contains f key = Some (covers block (block_mask (xxh3_64 key `mod` 2 ^ 32))).
Proof. intros Hl. unfold BloomFilter_contains. by rewrite Hl. Qed.

Lemma insert_contains f key :
  bloom_wf f →
  ∃ f', BloomFilter_insert f key = Some f' ∧ bloom_wf f' ∧ BloomFilter_contains f' key = Some true
  ∧ ∀ key', BloomFilter_contains f key' = Some true → BloomFilter_contains f' key' = Some true.
Proof.
  intros Hwf. destruct (insert_spec f key Hwf) as (block & f' & Hl & [Hlen _] & Hi & Hwf' & Hb).
  assert (Hix : ∀ h, block_index f' h = block_index f h).
  { intros h. unfold block_index. by rewrite Hb, length_insert. }
  pose proof (lookup_lt_Some _ _ _ Hl) as Hlt. exists f'. split_and!; [done..| |].
  - erewrite contains_covers by (rewrite Hix, Hb; by apply list_lookup_insert_eq).
    by rewrite covers_lor_self.
  - intros key' Hc. unfold BloomFilter_contains in *. rewrite Hix, Hb.
    destruct (decide (block_index f (xxh3_64 key) = block_index f (xxh3_64 key'))) as [E|Hne].
    + rewrite <- E in *. rewrite Hl in Hc. rewrite list_lookup_insert_eq by done.
      apply (inj Some) in Hc. cbn [mbind option_bind]. f_equal.
      apply covers_lor_mono; [by rewrite Hlen|exact Hc].
    + by rewrite list_lookup_insert_ne.
Qed.

Lemma insert_all_contains f keys :
  bloom_wf f →
  ∃ f', insert_all f keys = Some f' ∧ bloom_wf f'
  ∧ (∀ key, key ∈ keys → BloomFilter_contains f' key = Some true)
  ∧ ∀ key, BloomFilter_contains f key = Some true → BloomFilter_contains f' key = Some true.
Proof.
  revert f. induction keys as [|key keys IH]; intros f Hwf; simpl.
  { exists f. split_and!; [done|done| |auto]. by intros ? ?%not_elem_of_nil. }
  destruct (insert_contains f key Hwf) as (f1 & -> & Hwf1 & Hk & Hmono).
  destruct (IH f1 Hwf1) as (f' & Hf' & Hwf' & Hin & Hmono'). exists f'. split_and!; [done..| |auto].
  intros k [->|]%elem_of_cons; auto.
Qed.

Lemma with_capacity_wf n bpk :
  is_u8 bpk → n * Z.max bpk 1 ≤ 256 * (2 ^ 32 - 1) → bloom_wf (BloomFilter_with_capacity n bpk).
Proof.
  intros Hb Hn. unfold bloom_wf, BloomFilter_with_capacity, saturating_mul64; simpl.
  rewrite !length_replicate.
  set (t := Z.max _ 256). assert (t ≤ 256 * (2 ^ 32 - 1)) by word_lia.
  assert ((t + 255) / 256 < 2 ^ 32) by (apply Z.div_lt_upper_bound; lia).
  split_and!; [|word_lia..].
  apply Forall_replicate. split; [done|]. repeat constructor; word_lia.
Qed.

(** ** The wire format *)

Definition words_bytes (block : list Z) : list byte := concat (map (le_split 4) block).

Lemma read_words_app block rest :
  Forall is_u32 block → read_words (length block) (words_bytes block ++ rest) = (block, rest).
Proof.
  unfold words_bytes. induction 1 as [|w block Hw _ IH]; [done|].
  cbn [length read_words map concat]. rewrite <- (assoc_L (++)), get_le_app by done. by rewrite IH.
Qed.

Lemma read_blocks_app blocks :
  Forall block_wf blocks → read_blocks (length blocks) (concat (map words_bytes blocks)) = blocks.
Proof.
  induction 1 as [|b blocks [Hlen Hw] _ IH]; [done|]. cbn [length read_blocks map concat].
  rewrite <- Hlen, read_words_app by done. by rewrite IH.
Qed.

Lemma length_blocks_bytes blocks :
  Forall block_wf blocks → length (concat (map words_bytes blocks)) = (BLOCK_BYTES * length blocks)%nat.
Proof.
  induction 1 as [|b blocks [Hlen _] _ IH]; [done|]. cbn [map concat length].
  rewrite length_app, IH. do 9 (destruct b as [|? b]; simplify_eq/=). unfold BLOCK_BYTES. lia.
Qed.

(** The 28 bytes before the blocks. *)
Definition header (bpk bc kc : Z) : list byte :=
  MAGIC ++ [z2b 1; z2b 0] ++ le_split 2 0 ++ [z2b bpk; z2b 0] ++ le_split 2 0 ++ le_split 4 bc ++ le_split 8 kc.

Lemma to_bytes_layout f :
  let body := header (bf_bits_per_key f) (Z.of_nat (length (bf_blocks f)) `mod` 2 ^ 32) (bf_key_count f)
                ++ concat (map words_bytes (bf_blocks f)) in
  BloomFilter_to_bytes f = body ++ le_split 8 (xxh3_64 body).
Proof.
  unfold BloomFilter_to_bytes, header, words_bytes. simpl. reflexivity.
Qed.

Lemma header_fields bpk bc kc rest :
  let body := header bpk bc kc ++ rest in
  take 8 body = MAGIC ∧ byte_at body 8 = z2b 1 ∧ byte_at body 12 = z2b bpk
  ∧ slice body 16 20 = le_split 4 bc ∧ slice body 20 28 = le_split 8 kc.
Proof. split_and!; reflexivity. Qed.

Lemma length_header bpk bc kc : length (header bpk bc kc) = HEADER_LEN.
Proof. reflexivity. Qed.

Lemma from_to_bytes path f : bloom_wf f → BloomFilter_from_bytes path (BloomFilter_to_bytes f) = Ok f.
Proof.
  intros (Hb & Hpos & Hmax & Hbpk & Hkc). rewrite to_bytes_layout; cbv zeta.
  rewrite Z.mod_small by lia. unfold BloomFilter_from_bytes.
  set (n := length (bf_blocks f)) in *. set (B := concat _).
  assert (HB : length B = (BLOCK_BYTES * n)%nat) by (by apply length_blocks_bytes).
  set (T := le_split 8 (xxh3_64 _)). assert (HT : length T = TRAILER_LEN) by reflexivity.
  set (h := header _ _ _). assert (Hh : length h = HEADER_LEN) by reflexivity.
  rewrite <- (assoc_L (++)).
  destruct (header_fields (bf_bits_per_key f) (Z.of_nat n) (bf_key_count f) (B ++ T))
    as (E1 & E2 & E3 & E4 & E5). fold h in E1, E2, E3, E4, E5.
  rewrite E1, E2, E3, E4, E5. rewrite !le_combine_split_small by (unfold is_uint in *; lia).
  rewrite !b2z_z2b_small by (unfold is_uint in *; lia). rewrite Nat2Z.id.
  assert (Hlen : length (h ++ B ++ T) = (HEADER_LEN + BLOCK_BYTES * n + TRAILER_LEN)%nat)
    by (rewrite !length_app, Hh, HB, HT; lia).
  rewrite Hlen, (proj2 (Nat.ltb_ge _ _)) by lia. cbn [negb].
  rewrite bool_decide_eq_true_2 by done. rewrite Z.eqb_refl, Nat.eqb_refl.
  replace (take (HEADER_LEN + BLOCK_BYTES * n) (h ++ B ++ T)) with (h ++ B)
    by (rewrite (assoc_L (++)), <- HB, <- Hh, <- length_app; by rewrite take_app_length).
  replace (slice (h ++ B ++ T) (HEADER_LEN + BLOCK_BYTES * n) _) with T.
  2:{ symmetry. rewrite (assoc_L (++)), <- (app_nil_r T) at 1. rewrite <- (assoc_L (++)), (assoc_L (++) h B).
      apply slice_app_mid; rewrite length_app, Hh, HB, ?HT; lia. }
  unfold T at 1. rewrite le_combine_split_small by apply xxh3_64_u64. rewrite Z.eqb_refl.
  rewrite (slice_app_mid h B T) by lia. unfold n, B. rewrite read_blocks_app by done. by destruct f.
Qed.

Lemma read_words_wf n cur ws rest :
  read_words n cur = (ws, rest) → (4 * n ≤ length cur)%nat →
  length ws = n ∧ Forall is_u32 ws ∧ length rest = (length cur - 4 * n)%nat.
Proof.
  revert cur ws rest. induction n as [|n IH]; intros cur ws rest; cbn [read_words].
  { intros [= <- <-] _. split_and!; [done..|lia]. }
  destruct (get_le 4 cur) as [w cur1] eqn:E1. destruct (read_words n cur1) as [ws1 rest1] eqn:E2.
  intros [= <- <-] Hlen. apply get_le_inv in E1 as [Ecur Hw]; [|lia].
  rewrite Ecur, length_app, length_le_split in *.
  destruct (IH _ _ _ E2) as (H1 & H2 & H3); [lia|]. split_and!; [simpl; lia|by constructor|lia].
Qed.

Lemma read_blocks_wf n cur :
  length cur = (BLOCK_BYTES * n)%nat →
  length (read_blocks n cur) = n ∧ Forall block_wf (read_blocks n cur).
Proof.
  revert cur. induction n as [|n IH]; intros cur Hlen; [done|]. cbn [read_blocks].
  destruct (read_words 8 cur) as [b rest] eqn:E. unfold BLOCK_BYTES in *.
  apply read_words_wf in E as (H1 & H2 & H3); [|lia].
  destruct (IH rest) as [H4 H5]; [lia|]. split; [simpl; lia|]. constructor; [by split|done].
Qed.

(** The reader's checks are the descriptor's, then the checksum. *)
Lemma from_bytes_via_descriptor path body :
  BloomFilter_from_bytes path body =
  (d ← BloomDescriptor_from_body path body;
   let body_end := (length body - TRAILER_LEN)%nat in
   ensure xxh3_64 (take body_end body) =? bd_xxhash3_64 d
     else Corrupted path "bloom trailer xxhash mismatch";
   Ok {| bf_blocks := read_blocks (Z.to_nat (bd_block_count d)) (slice body HEADER_LEN body_end);
         bf_bits_per_key := bd_bits_per_key d; bf_key_count := bd_key_count d |}).
Proof.
  unfold BloomFilter_from_bytes, BloomDescriptor_from_body.
  destruct (negb _); [|done]. destruct (bool_decide _); [|done]. destruct (_ =? 1); [|done].
  destruct (length body =? _)%nat eqn:E; [|done]. apply Nat.eqb_eq in E.
  set (e := (HEADER_LEN + BLOCK_BYTES * Z.to_nat (le_combine (slice body 16 20)))%nat) in *.
  cbn [mbind result_bind bd_xxhash3_64 bd_block_count bd_bits_per_key bd_key_count]. cbv zeta.
  replace (length body - TRAILER_LEN)%nat with e by lia.
  unfold slice at 1. rewrite (take_ge (drop e body)) by (rewrite length_drop; lia). done.
Qed.

(** A Bloom side-car has no false negatives: insert any sequence of keys into a
    filter sized for any expected count, write the side-car and read it back; no step
    fails or indexes out of range, the filter read back is the one written, and the
    probe answers true for every inserted key. *)
Theorem bloom_no_false_negatives path expected_keys bits_per_key keys :
  is_u8 bits_per_key → expected_keys * Z.max bits_per_key 1 ≤ 256 * (2 ^ 32 - 1) →
  ∃ f, insert_all (BloomFilter_with_capacity expected_keys bits_per_key) keys = Some f
  ∧ BloomFilter_from_bytes path (BloomFilter_to_bytes f) = Ok f
  ∧ ∀ key, key ∈ keys → BloomFilter_contains f key = Some true.
Proof.
  intros Hb Hn. destruct (insert_all_contains _ keys (with_capacity_wf _ _ Hb Hn))
    as (f & Hf & Hwf & Hin & _).
  exists f. split_and!; [done|by apply from_to_bytes|done].
Qed.

(** A side-car body that the reader accepts gives a well-typed filter (eight
    32-bit words per block, as many blocks as declared) that agrees with the
    descriptor built from the same body; a body the descriptor rejects is rejected by
    the reader with the same error, and a body it accepts is rejected exactly when the
    stored checksum is wrong. *)
Theorem bloom_decode_typed path body :
  match BloomDescriptor_from_body path body, BloomFilter_from_bytes path body with
  | Err e, r => r = Err e
  | Ok d, Ok f =>
      Forall block_wf (bf_blocks f) ∧ Z.of_nat (length (bf_blocks f)) = bd_block_count d
      ∧ is_u32 (bd_block_count d) ∧ is_u64 (bf_key_count f) ∧ is_u8 (bf_bits_per_key f)
      ∧ bf_key_count f = bd_key_count d ∧ bf_bits_per_key f = bd_bits_per_key d
      ∧ bd_path d = path
      ∧ length body = (HEADER_LEN + BLOCK_BYTES * length (bf_blocks f) + TRAILER_LEN)%nat
      ∧ bd_xxhash3_64 d = xxh3_64 (take (length body - TRAILER_LEN) body)
  | Ok d, Err e =>
      e = Corrupted path "bloom trailer xxhash mismatch"
      ∧ bd_xxhash3_64 d ≠ xxh3_64 (take (length body - TRAILER_LEN) body)
  end.
Proof.
  rewrite from_bytes_via_descriptor.
  destruct (BloomDescriptor_from_body path body) as [d|e] eqn:Ed; [|done]. cbn [mbind result_bind].
  destruct (xxh3_64 _ =? _) eqn:Eh; [|by apply Z.eqb_neq in Eh].
  apply Z.eqb_eq in Eh. revert Ed. unfold BloomDescriptor_from_body.
  destruct (length body <? _)%nat eqn:E1; [done|]. apply Nat.ltb_ge in E1.
  destruct (bool_decide _); [|done]. destruct (_ =? 1); [|done].
  destruct (length body =? _)%nat eqn:E2; [|done]. apply Nat.eqb_eq in E2.
  unfold HEADER_LEN, TRAILER_LEN in *.
  pose proof (le_combine_bound (slice body 16 20)) as B1. rewrite length_slice in B1 by lia.
  pose proof (le_combine_bound (slice body 20 28)) as B2. rewrite length_slice in B2 by lia.
  intros [= <-]. cbn [bd_block_count bd_key_count bd_bits_per_key bd_path bd_xxhash3_64
    bf_blocks bf_key_count bf_bits_per_key] in *.
  set (n := Z.to_nat (le_combine (slice body 16 20))) in *.
  destruct (read_blocks_wf n (slice body 28 (length body - 8))) as [L W].
  { rewrite length_slice by lia. lia. }
  rewrite L. split_and!; [done|lia|exact B1|exact B2|apply b2z_range|done..|lia|lia].
Qed.

End Filter.

(** A stand-in for the hash, for the concrete runs. *)
Definition sum_hash (bs : list byte) : Z :=
  foldl (λ acc b, (acc * 0x100000001b3 + b2z b + 1) `mod` 2 ^ 64) 0xcbf29ce484222325 bs.

Lemma sum_hash_u64 bs : is_u64 (sum_hash bs).
Proof.
  unfold sum_hash. induction bs as [|b bs _] using rev_ind; [done|].
  rewrite foldl_app. apply Z.mod_pos_bound. lia.
Qed.

Lemma bloom_no_false_negatives_witness :
  ∃ f, insert_all sum_hash (BloomFilter_with_capacity 60 10) [be_split 16 7; be_split 16 9] = Some f
  ∧ BloomFilter_from_bytes sum_hash "x.bloom" (BloomFilter_to_bytes sum_hash f) = Ok f
  ∧ ∀ key, key ∈ [be_split 16 7; be_split 16 9] → BloomFilter_contains sum_hash f key = Some true.
Proof. apply (bloom_no_false_negatives sum_hash sum_hash_u64); [done|vm_compute; congruence]. Defined.

(** The probe does rule keys out. *)
Example bloom_rules_out :
  (f ← insert_all sum_hash (BloomFilter_with_capacity 60 10) [be_split 16 7];
   BloomFilter_contains sum_hash f (be_split 16 1000)) = Some false.
Proof. vm_compute. reflexivity. Qed.
