(* ===== verification/EdgeWriter.v ===== *)
(** The streaming writer of an edge SST ([sst/edges/writer.rs]) and the degree
    histogram it feeds ([sst/stats.rs]).

    A [DiskSpool] is the bytes written to it; failures of the local disk are not
    modelled. The fields of [EdgeSstWriter] are grouped the way the source comments
    group them. Records arrive one by one; an operation that fails leaves no writer,
    as every caller drops it on an error. [None] is a panic (a Bloom block out of
    range, an offset of 2^48 or more).

    Parameters: [xxh3_64], [blake3], the zstd encoder, [serde_json] on property
    values ([PropertyJson]) and the exact-edge side-car index of
    [sst/paged_index.rs] ([EdgePointIndex]). *)
From S2P Require Import Prelude StorageError Bloom EdgeEncoding EdgeFormat EdgePages.

(** ** Degree histogram *)

Record DegreeHistogram := { dh_counts : list Z; dh_max_degree : Z; dh_sum_degree : Z }.

Definition DegreeHistogram_empty : DegreeHistogram :=
  {| dh_counts := replicate 64 0; dh_max_degree := 0; dh_sum_degree := 0 |}.

(** [63 - d.leading_zeros()] is [Z.log2 d] for a non-zero [u64]. *)
Definition DegreeHistogram_observe (h : DegreeHistogram) (degree : Z) : DegreeHistogram :=
  let bucket := if degree =? 0 then 0%nat else Z.to_nat (Z.log2 degree) in
  {| dh_counts := alter (λ c, Z.min (c + 1) u32_max) bucket (dh_counts h);
     dh_max_degree := if dh_max_degree h <? degree then degree else dh_max_degree h;
     dh_sum_degree := saturating_add64 (dh_sum_degree h) degree |}.

(** ** Data *)

Inductive EdgeDirection := Forward | Inverse.

Definition EdgeDirection_from_flags (flags : Z) : EdgeDirection :=
  if negb (Z.land flags FLAG_INVERSE_PARTNER =? 0) then Inverse else Forward.

Definition DEFAULT_SKEW_THRESHOLD : nat := 1024.
Definition DEFAULT_EDGE_POINT_MAX_ENTRY_BYTES : Z := 0.
Definition DEFAULT_EDGE_POINT_MAX_SST_BYTES : Z := 0.
Definition DEFAULT_EDGE_IN_MEMORY_FINISH_MAX_BYTES : Z := 64 * 1024 * 1024.
Definition EDGE_POINT_ESTIMATED_OVERHEAD_PER_ENTRY : Z := 32 + 18 + 64.
Definition EDGE_POINT_MIN_SERIALIZED_BYTES : Z := 64 + 4096.
Definition PROPERTY_STREAM_MINI_BATCH : nat := 1024.
Definition PROPERTY_STREAM_MAX_PENDING_BYTES : Z := 1024 * 1024.

Record EdgeRecord := {
  er_key_id : list byte;
  er_partner_id : list byte;
  er_lsn : Z;
  er_tombstone : bool;
  er_declared_properties : list PropValue;
  er_overflow_json : PropValue;
}.

Record EdgeSstWriterOptions := {
  eo_direction : EdgeDirection;
  eo_edge_type : list byte;
  eo_src_label : list byte;
  eo_dst_label : list byte;
  eo_schema_version : Z;
  eo_skew_threshold : option nat;
  eo_fence_stride : Z;
  eo_fence_threshold : Z;
  eo_bits_per_key : Z;
  eo_expected_keys : Z;
  eo_compress_property_streams : bool;
  eo_declared_properties : list (list byte);
}.

Definition EdgeSstWriterOptions_new (direction : EdgeDirection) (edge_type src_label dst_label : list byte)
    : EdgeSstWriterOptions :=
  {| eo_direction := direction;
     eo_edge_type := edge_type;
     eo_src_label := src_label;
     eo_dst_label := dst_label;
     eo_schema_version := 0;
     eo_skew_threshold := None;
     eo_fence_stride := DEFAULT_FENCE_STRIDE;
     eo_fence_threshold := FENCE_INDEX_THRESHOLD;
     eo_bits_per_key := DEFAULT_BITS_PER_KEY;
     eo_expected_keys := 0;
     eo_compress_property_streams := true;
     eo_declared_properties := [] |}.

Record EdgeSstStats := {
  es_direction : EdgeDirection;
  es_key_count : Z;
  es_edge_count : Z;
  es_tombstone_count : Z;
  es_min_key_id : list byte;
  es_max_key_id : list byte;
  es_min_lsn : Z;
  es_max_lsn : Z;
  es_degree_histogram : DegreeHistogram;
  es_schema_version_min : Z;
  es_schema_version_max : Z;
}.

(** The header and the spool files in wire order. *)
Record EdgeSstUpload := { eu_header : list byte; eu_files : list (list byte); eu_size_bytes : Z }.

Definition EdgeSstUpload_into_bytes (u : EdgeSstUpload) (cap : Z) : Result (list byte) :=
  ensure eu_size_bytes u <=? cap
    else Invariant "edge SST body above NAMIDB_EDGE_IN_MEMORY_FINISH_MAX_BYTES";
  let body := eu_header u ++ concat (eu_files u) in
  ensure Z.of_nat (length body) =? eu_size_bytes u
    else Invariant "edge SST spools produced another length than the descriptor requires";
  Ok body.

(** [serde_json] on property values: the map of an overflow object, a single value,
    and the encoding of a map. [BTreeMap<String, Value>] is its entries by key. *)
Class PropertyJson := {
  json_value : Type;
  json_map_from_str : list byte → option (list (list byte * json_value));
  json_value_from_str : list byte → option json_value;
  json_map_to_vec : list (list byte * json_value) → option (list byte);
}.

(** What the writer uses of [EdgePointIndexBuilder] and its upload. *)
Class EdgePointIndex := {
  point_builder : Type;
  point_upload : Type;
  point_new : point_builder;
  point_push : point_builder → list byte → list byte → list byte → Result point_builder;
  point_finish_upload : point_builder → Result point_upload;
  point_size_bytes : point_upload → Z;
  point_entry_count : point_upload → Z;
}.

(** ** Property streams *)

Record PropertyStream := {
  ps_name : list byte;
  ps_compress : bool;
  ps_payload : list byte;
  ps_directory : list byte;
  ps_pending : list PropValue;
  ps_pending_bytes : Z;
  ps_any_value : bool;
  ps_row_count : Z;
  ps_page_count : Z;
}.

Definition PropertyStream_new (name : list byte) (compress : bool) : PropertyStream :=
  {| ps_name := name; ps_compress := compress; ps_payload := []; ps_directory := [];
     ps_pending := []; ps_pending_bytes := 0; ps_any_value := false; ps_row_count := 0;
     ps_page_count := 0 |}.

(** The [for value in &self.pending] loop of [flush_batch]. *)
Fixpoint write_rows (pending : list PropValue) (raw : list byte) : Result (list byte) :=
  match pending with
  | [] => Ok raw
  | None :: rest => write_rows rest (raw ++ [z2b 0])
  | Some value :: rest =>
      len ← try_u32 (Invariant "edge property value exceeds u32 bytes") (Z.of_nat (length value));
      let raw := raw ++ [z2b 1] in
      let raw := raw ++ le_split 4 len in
      write_rows rest (raw ++ value)
  end.

Section Writer.
Context (xxh3_64 : list byte → Z) (blake3 : list byte → list byte).
(** [zstd::stream::write::Encoder] at level 3, over a whole input *)
Context (zstd_encode : list byte → option (list byte)).
Context `{PropertyJson, EdgePointIndex}.

Definition PropertyStream_flush_batch (s : PropertyStream) : Result PropertyStream :=
  if bool_decide (ps_pending s = []) then Ok s
  else
    page_rows ← try_u32 (Invariant "edge property page row count exceeds u32")
                  (Z.of_nat (length (ps_pending s)));
    first_row ← ok_or (Invariant "edge property first-row underflow")
                  (checked_sub64 (ps_row_count s) page_rows);
    raw ← write_rows (ps_pending s) (le_split 4 page_rows);
    ensure Z.of_nat (length raw) <=? MAX_PROPERTY_PAGE_DECODE_BYTES
      else Invariant "edge property page requires too many decoded bytes";
    let decoded_len := Z.of_nat (length raw) in
    encoded ← (if ps_compress s
               then ok_or (Invariant "edge property zstd encoder") (zstd_encode raw)
               else Ok raw);
    let payload_offset := Z.of_nat (length (ps_payload s)) in
    let entry := {| pp_first_row := first_row;
                    pp_row_count := page_rows;
                    pp_offset := payload_offset;
                    pp_encoded_len := Z.of_nat (length encoded);
                    pp_decoded_len := decoded_len;
                    pp_checksum := xxh3_64 encoded |} in
    let raw_entry := PropertyPageEntry_encode entry [] in
    ensure ps_page_count s <? u32_max else Invariant "edge property page count exceeds u32";
    Ok {| ps_name := ps_name s;
          ps_compress := ps_compress s;
          ps_payload := ps_payload s ++ encoded;
          ps_directory := ps_directory s ++ raw_entry;
          ps_pending := [];
          ps_pending_bytes := 0;
          ps_any_value := ps_any_value s;
          ps_row_count := ps_row_count s;
          ps_page_count := ps_page_count s + 1 |}.

Definition PropertyStream_append (s : PropertyStream) (value : PropValue) : Result PropertyStream :=
  let any_value := match value with Some _ => true | None => ps_any_value s end in
  let s := {| ps_name := ps_name s; ps_compress := ps_compress s; ps_payload := ps_payload s;
              ps_directory := ps_directory s; ps_pending := ps_pending s;
              ps_pending_bytes := ps_pending_bytes s; ps_any_value := any_value;
              ps_row_count := ps_row_count s; ps_page_count := ps_page_count s |} in
  let value_bytes := match value with Some v => Z.of_nat (length v) | None => 0 end in
  s ← (if negb (bool_decide (ps_pending s = []))
          && (PROPERTY_STREAM_MAX_PENDING_BYTES <? saturating_add64 (ps_pending_bytes s) value_bytes)
       then PropertyStream_flush_batch s else Ok s);
  row_count ← ok_or (Invariant "edge property row count exceeds u64")
                (checked_add64 (ps_row_count s) 1);
  let s := {| ps_name := ps_name s; ps_compress := ps_compress s; ps_payload := ps_payload s;
              ps_directory := ps_directory s; ps_pending := ps_pending s ++ [value];
              ps_pending_bytes := saturating_add64 (ps_pending_bytes s) value_bytes;
              ps_any_value := ps_any_value s; ps_row_count := row_count;
              ps_page_count := ps_page_count s |} in
  if (PROPERTY_STREAM_MINI_BATCH <=? length (ps_pending s))%nat
     || (PROPERTY_STREAM_MAX_PENDING_BYTES <=? ps_pending_bytes s)
  then PropertyStream_flush_batch s else Ok s.

(** The [for _ in 0..self.page_count] loop of [finish]: the payload offset of each
    directory entry becomes an offset in the section. *)
Fixpoint rebase_directory (n : nat) (payload_start : Z) (directory out : list byte)
    : Result (list byte) :=
  match n with
  | O => Ok out
  | S n' =>
      let raw := take PROPERTY_PAGE_ENTRY_LEN directory in
      let payload_offset := le_combine (slice raw 12 20) in
      section_offset ← ok_or (Invariant "edge property page offset exceeds u64")
                         (checked_add64 payload_start payload_offset);
      let raw := take 12 raw ++ le_split 8 section_offset ++ drop 20 raw in
      rebase_directory n' payload_start (drop PROPERTY_PAGE_ENTRY_LEN directory) (out ++ raw)
  end.

Definition PropertyStream_finish (s : PropertyStream) : Result (option (list byte * Z)) :=
  if negb (ps_any_value s) then Ok None
  else
    s ← PropertyStream_flush_batch s;
    directory_len ← ok_or (Invariant "edge property directory length exceeds u64")
                      (checked_mul64 (ps_page_count s) (Z.of_nat PROPERTY_PAGE_ENTRY_LEN));
    ensure Z.of_nat (length (ps_directory s)) =? directory_len
      else Invariant "edge property directory spool length mismatch";
    payload_start ← ok_or (Invariant "edge property payload start exceeds u64")
                      (checked_add64 (Z.of_nat PROPERTY_PAGES_HEADER_LEN) directory_len);
    let out := PROPERTY_PAGES_MAGIC in
    let out := out ++ le_split 2 PROPERTY_PAGES_VERSION in
    let out := out ++ le_split 2 0 in
    let out := out ++ le_split 4 (ps_page_count s) in
    let out := out ++ le_split 8 (ps_row_count s) in
    let out := out ++ le_split 4 (Z.of_nat PROPERTY_PAGE_ENTRY_LEN) in
    let out := out ++ le_split 4 0 in
    out ← rebase_directory (Z.to_nat (ps_page_count s)) payload_start (ps_directory s) out;
    let out := out ++ ps_payload s in
    let codec := if ps_compress s then CODEC_PROPERTY_PAGED_ZSTD else CODEC_PROPERTY_PAGED_NONE in
    Ok (Some (out, codec)).

(** ** The writer's state *)

(** The current key bucket. *)
Record Bucket := {
  bk_key : option (list byte);
  bk_partners : list byte;
  bk_degree : Z;
  bk_split_cost : Z;
  bk_prev_top : option Z;
  bk_last_partner : option (list byte);
}.

(** The monotonic disk spools. *)
Record Spools := {
  sp_partners : list byte;
  sp_raw_offsets : list byte;
  sp_edge_ordinals : list byte;
  sp_ordinals_started : bool;
  sp_key_ids : list byte;
  sp_fence_entries : list byte;
  sp_fence_entry_count : Z;
  sp_lsns : list byte;
  sp_tombstones : list byte;
  sp_tombstone_live_byte : Z;
  sp_tombstone_live_bits : Z;
}.

(** The running counters and statistics. *)
Record Counters := {
  ct_key_count : Z;
  ct_edge_count : Z;
  ct_tombstone_count : Z;
  ct_min_lsn : Z;
  ct_max_lsn : Z;
  ct_any_skew_block : bool;
  ct_degree_histogram : DegreeHistogram;
  ct_min_key_id : option (list byte);
  ct_max_key_id : option (list byte);
}.

(** The optional exact-edge side-car and its ceilings. *)
Record PointIndexState := {
  px_builder : option point_builder;
  px_estimated_bytes : Z;
  px_max_entry_bytes : Z;
  px_max_sst_bytes : Z;
}.

Record EdgeSstWriter := {
  ew_options : EdgeSstWriterOptions;
  ew_sst_id : list byte;
  ew_skew_threshold : nat;
  ew_bucket : Bucket;
  ew_spools : Spools;
  ew_counters : Counters;
  ew_overflow : PropertyStream;
  ew_declared_streams : list PropertyStream;
  ew_bloom : BloomFilter;
  ew_point : PointIndexState;
}.

(** [env_usize(name, default)]: the parsed value of the variable, if it has one. *)
Definition env_usize (var : option Z) (default : Z) : Z :=
  match var with Some v => v | None => default end.

Definition empty_bucket : Bucket :=
  {| bk_key := None; bk_partners := []; bk_degree := 0; bk_split_cost := 0; bk_prev_top := None;
     bk_last_partner := None |}.

(** [sst_id] is the fresh UUID; the environment gives the two ceilings. *)
Definition EdgeSstWriter_new (options : EdgeSstWriterOptions) (sst_id : list byte)
    (max_entry_env max_sst_env : option Z) : EdgeSstWriter :=
  {| ew_options := options;
     ew_sst_id := sst_id;
     ew_skew_threshold := default DEFAULT_SKEW_THRESHOLD (eo_skew_threshold options);
     ew_bucket := empty_bucket;
     ew_spools :=
       {| sp_partners := []; sp_raw_offsets := []; sp_edge_ordinals := [];
          sp_ordinals_started := false; sp_key_ids := []; sp_fence_entries := [];
          sp_fence_entry_count := 0; sp_lsns := []; sp_tombstones := [];
          sp_tombstone_live_byte := 0; sp_tombstone_live_bits := 0 |};
     ew_counters :=
       {| ct_key_count := 0; ct_edge_count := 0; ct_tombstone_count := 0; ct_min_lsn := u64_max;
          ct_max_lsn := 0; ct_any_skew_block := false;
          ct_degree_histogram := DegreeHistogram_empty; ct_min_key_id := None;
          ct_max_key_id := None |};
     ew_overflow := PropertyStream_new OVERFLOW_JSON_NAME (eo_compress_property_streams options);
     ew_declared_streams :=
       map (λ name, PropertyStream_new name (eo_compress_property_streams options))
         (eo_declared_properties options);
     ew_bloom := BloomFilter_with_capacity (Z.max (eo_expected_keys options) 1)
                   (Z.max (eo_bits_per_key options) 1);
     ew_point :=
       {| px_builder := match eo_direction options with Forward => Some point_new | Inverse => None end;
          px_estimated_bytes := EDGE_POINT_MIN_SERIALIZED_BYTES;
          px_max_entry_bytes := env_usize max_entry_env DEFAULT_EDGE_POINT_MAX_ENTRY_BYTES;
          px_max_sst_bytes := env_usize max_sst_env DEFAULT_EDGE_POINT_MAX_SST_BYTES |} |}.

(** ** Closing a bucket *)

(** The [for _ in 0..degree] loop of the split encoding: rows are read back from
    the bucket spool. *)
Fixpoint copy_split_rows (degree : nat) (source : list byte) (previous_top : option Z)
    (partners : list byte) : list byte :=
  match degree with
  | O => partners
  | S degree' =>
      let raw := take 16 source in
      let top := le_combine (take 8 raw) in
      let bottom := drop 8 raw in
      let encoded_top := match previous_top with
                         | Some previous => wrapping_sub64 top previous
                         | None => top
                         end in
      let varint := (write_varint encoded_top []).1 in
      copy_split_rows degree' (drop 16 source) (Some top) (partners ++ varint ++ bottom)
  end.

Definition flush_current_bucket (w : EdgeSstWriter) : Result EdgeSstWriter :=
  let b := ew_bucket w in let sp := ew_spools w in let ct := ew_counters w in
  match bk_key b with
  | None => Ok w
  | Some key =>
      if bk_degree b =? 0 then Ok w
      else
        let degree := bk_degree b in
        dense_cost ← ok_or (Invariant "dense edge bucket length exceeds u64")
                       (checked_mul64 degree 16);
        let is_skew := Z.of_nat (ew_skew_threshold w) <? degree in
        let tag := if is_skew || (dense_cost <=? bk_split_cost b) then TAG_DENSE else TAG_SPLIT in
        let raw_offsets := sp_raw_offsets sp ++ le_split 8 (Z.of_nat (length (sp_partners sp))) in
        let block_header := (write_varint degree []).1 ++ [z2b tag] in
        let partners := sp_partners sp ++ block_header in
        let source := bk_partners b in
        let partners :=
          if tag =? TAG_DENSE then partners ++ source
          else copy_split_rows (Z.to_nat degree) source None partners in
        let key_ids := sp_key_ids sp ++ key in
        let stride := Z.max (eo_fence_stride (ew_options w)) 1 in
        '(fence_entries, fence_entry_count) ←
          (if ct_key_count ct `mod` stride =? 0 then
             ensure sp_fence_entry_count sp <? u32_max
               else Invariant "edge fence entry count exceeds u32";
             Ok (sp_fence_entries sp ++ key ++ le_split 8 (saturating_mul64 (ct_key_count ct) 16),
                 sp_fence_entry_count sp + 1)
           else Ok (sp_fence_entries sp, sp_fence_entry_count sp));
        let edge_ordinals := if sp_ordinals_started sp then sp_edge_ordinals sp
                             else sp_edge_ordinals sp ++ le_split 8 0 in
        Ok {| ew_options := ew_options w;
              ew_sst_id := ew_sst_id w;
              ew_skew_threshold := ew_skew_threshold w;
              ew_bucket :=
                {| bk_key := Some key; bk_partners := []; bk_degree := 0; bk_split_cost := 0;
                   bk_prev_top := None; bk_last_partner := None |};
              ew_spools :=
                {| sp_partners := partners;
                   sp_raw_offsets := raw_offsets;
                   sp_edge_ordinals := edge_ordinals ++ le_split 8 (ct_edge_count ct);
                   sp_ordinals_started := true;
                   sp_key_ids := key_ids;
                   sp_fence_entries := fence_entries;
                   sp_fence_entry_count := fence_entry_count;
                   sp_lsns := sp_lsns sp;
                   sp_tombstones := sp_tombstones sp;
                   sp_tombstone_live_byte := sp_tombstone_live_byte sp;
                   sp_tombstone_live_bits := sp_tombstone_live_bits sp |};
              ew_counters :=
                {| ct_key_count := wrapping_add64 (ct_key_count ct) 1;
                   ct_edge_count := ct_edge_count ct;
                   ct_tombstone_count := ct_tombstone_count ct;
                   ct_min_lsn := ct_min_lsn ct;
                   ct_max_lsn := ct_max_lsn ct;
                   ct_any_skew_block := is_skew || ct_any_skew_block ct;
                   ct_degree_histogram := DegreeHistogram_observe (ct_degree_histogram ct) degree;
                   ct_min_key_id := match ct_min_key_id ct with Some k => Some k | None => Some key end;
                   ct_max_key_id := Some key |};
              ew_overflow := ew_overflow w;
              ew_declared_streams := ew_declared_streams w;
              ew_bloom := ew_bloom w;
              ew_point := ew_point w |}
  end.

(** ** Appending a record *)

(** [BTreeMap::insert] on the entries by key. *)
Fixpoint props_insert (name : list byte) (value : json_value)
    (properties : list (list byte * json_value)) : list (list byte * json_value) :=
  match properties with
  | [] => [(name, value)]
  | (k, v) :: rest =>
      match bytes_cmp name k with
      | Lt => (name, value) :: (k, v) :: rest
      | Eq => (name, value) :: rest
      | Gt => (k, v) :: props_insert name value rest
      end
  end.

(** The [for (name, encoded) in declared_names.iter().zip(declared_values)] loop. *)
Fixpoint merge_declared (declared : list (list byte * PropValue))
    (properties : list (list byte * json_value)) : Result (list (list byte * json_value)) :=
  match declared with
  | [] => Ok properties
  | (name, None) :: rest => merge_declared rest properties
  | (name, Some encoded) :: rest =>
      value ← ok_or (Invariant "edge declared property decode") (json_value_from_str encoded);
      merge_declared rest (props_insert name value properties)
  end.

Definition encode_point_properties (declared_names : list (list byte))
    (declared_values : list PropValue) (overflow_json : PropValue) : Result (list byte) :=
  properties ←
    match overflow_json with
    | Some json => ok_or (Invariant "edge overflow decode") (json_map_from_str json)
    | None => Ok []
    end;
  properties ← merge_declared (zip declared_names declared_values) properties;
  ok_or (Invariant "edge point properties encode") (json_map_to_vec properties).

(** The part of [append] that feeds the exact-edge side-car. *)
Definition append_point (crc32 : list byte → Z) (w : EdgeSstWriter) (record : EdgeRecord)
    : Result PointIndexState :=
  let px := ew_point w in
  match px_builder px with
  | None => Ok px
  | Some builder =>
      let value_len := λ v : PropValue, match v with Some s => Z.of_nat (length s) | None => 0 end in
      let source_bytes :=
        fold_left (λ size '(name, value),
            saturating_add64 (saturating_add64 size (Z.of_nat (length (name : list byte)))) (value_len value))
          (zip (eo_declared_properties (ew_options w)) (er_declared_properties record))
          (value_len (er_overflow_json record)) in
      ensure negb ((0 <? px_max_entry_bytes px) && negb (er_tombstone record)
                   && (px_max_entry_bytes px
                       <? saturating_add64 source_bytes EDGE_POINT_ESTIMATED_OVERHEAD_PER_ENTRY))
        else Invariant "edge point record exceeds NAMIDB_EDGE_POINT_MAX_ENTRY_BYTES";
      point_properties ←
        (if er_tombstone record then Ok []
         else encode_point_properties (eo_declared_properties (ew_options w))
                (er_declared_properties record) (er_overflow_json record));
      point_value ← point_encode crc32 (er_lsn record) (er_tombstone record) point_properties;
      let value_bytes := Z.of_nat (length point_value) in
      let next_estimate :=
        saturating_add64
          (saturating_add64 (px_estimated_bytes px) EDGE_POINT_ESTIMATED_OVERHEAD_PER_ENTRY) value_bytes in
      let entry_estimate := saturating_add64 value_bytes EDGE_POINT_ESTIMATED_OVERHEAD_PER_ENTRY in
      ensure negb ((0 <? px_max_entry_bytes px) && (px_max_entry_bytes px <? entry_estimate))
        else Invariant "encoded edge point record exceeds NAMIDB_EDGE_POINT_MAX_ENTRY_BYTES";
      ensure negb ((0 <? px_max_sst_bytes px) && (px_max_sst_bytes px <? next_estimate))
        else Invariant "edge point sidecar exceeds NAMIDB_EDGE_POINT_MAX_SST_BYTES";
      builder ← point_push builder (er_key_id record) (er_partner_id record) point_value;
      Ok {| px_builder := Some builder;
            px_estimated_bytes := next_estimate;
            px_max_entry_bytes := px_max_entry_bytes px;
            px_max_sst_bytes := px_max_sst_bytes px |}
  end.

(** The ordering check of [append]: a new key closes the bucket. *)
Definition advance_bucket (w : EdgeSstWriter) (record : EdgeRecord) : Result EdgeSstWriter :=
  match bk_key (ew_bucket w) with
  | None => Ok w
  | Some prev_key =>
      match bytes_cmp (er_key_id record) prev_key with
      | Lt => Err (Invariant "edge SST records must be sorted by key_id ascending")
      | Eq =>
          match bk_last_partner (ew_bucket w) with
          | Some prev_p =>
              ensure negb (bytes_leb (er_partner_id record) prev_p)
                else Invariant "edge SST partners within a key must be sorted ascending and unique";
              Ok w
          | None => Ok w
          end
      | Gt => flush_current_bucket w
      end
  end.

(** [for (stream, value) in streams.iter_mut().zip(values) { stream.append(value)?; }] *)
Fixpoint append_declared (streams : list PropertyStream) (values : list PropValue)
    : Result (list PropertyStream) :=
  match streams, values with
  | stream :: streams', value :: values' =>
      stream ← PropertyStream_append stream value;
      rest ← append_declared streams' values';
      Ok (stream :: rest)
  | _, _ => Ok streams
  end.

(** The partner, LSN and tombstone of one edge. *)
Definition append_bucket (b : Bucket) (record : EdgeRecord) : Result Bucket :=
  let top := le_combine (take 8 (er_partner_id record)) in
  let top_wire := match bk_prev_top b with
                  | Some previous => wrapping_sub64 top previous
                  | None => top
                  end in
  split_cost ← ok_or (Invariant "edge partner split cost exceeds u64")
                 (checked_add64 (bk_split_cost b) (Z.of_nat (varint_len top_wire + 8)));
  degree ← ok_or (Invariant "edge degree exceeds u64") (checked_add64 (bk_degree b) 1);
  Ok {| bk_key := Some (er_key_id record);
        bk_partners := bk_partners b ++ er_partner_id record;
        bk_degree := degree;
        bk_split_cost := split_cost;
        bk_prev_top := Some top;
        bk_last_partner := Some (er_partner_id record) |}.

Definition append_spools (sp : Spools) (record : EdgeRecord) : Spools :=
  let live_byte := if er_tombstone record
                   then Z.lor (sp_tombstone_live_byte sp) (Z.shiftl 1 (sp_tombstone_live_bits sp))
                   else sp_tombstone_live_byte sp in
  let live_bits := sp_tombstone_live_bits sp + 1 in
  let full := live_bits =? 8 in
  {| sp_partners := sp_partners sp;
     sp_raw_offsets := sp_raw_offsets sp;
     sp_edge_ordinals := sp_edge_ordinals sp;
     sp_ordinals_started := sp_ordinals_started sp;
     sp_key_ids := sp_key_ids sp;
     sp_fence_entries := sp_fence_entries sp;
     sp_fence_entry_count := sp_fence_entry_count sp;
     sp_lsns := sp_lsns sp ++ le_split 8 (er_lsn record);
     sp_tombstones := if full then sp_tombstones sp ++ [z2b live_byte] else sp_tombstones sp;
     sp_tombstone_live_byte := if full then 0 else live_byte;
     sp_tombstone_live_bits := if full then 0 else live_bits |}.

Definition append_counters (ct : Counters) (record : EdgeRecord) : Counters :=
  {| ct_key_count := ct_key_count ct;
     ct_edge_count := wrapping_add64 (ct_edge_count ct) 1;
     ct_tombstone_count := if er_tombstone record then wrapping_add64 (ct_tombstone_count ct) 1
                           else ct_tombstone_count ct;
     ct_min_lsn := Z.min (ct_min_lsn ct) (er_lsn record);
     ct_max_lsn := Z.max (ct_max_lsn ct) (er_lsn record);
     ct_any_skew_block := ct_any_skew_block ct;
     ct_degree_histogram := ct_degree_histogram ct;
     ct_min_key_id := ct_min_key_id ct;
     ct_max_key_id := ct_max_key_id ct |}.

Definition EdgeSstWriter_append (crc32 : list byte → Z) (w : EdgeSstWriter) (record : EdgeRecord)
    : outcome EdgeSstWriter :=
  if negb (length (er_declared_properties record) =? length (ew_declared_streams w))%nat then
    fail (Invariant "edge SST record carries another number of declared properties")
  else
    point ← lift (append_point crc32 w record);
    w ← lift (advance_bucket w record);
    bloom ←
      (if bool_decide (bk_key (ew_bucket w) ≠ Some (er_key_id record))
       then match BloomFilter_insert xxh3_64 (ew_bloom w) (er_key_id record) with
            | Some bloom => mret bloom
            | None => None
            end
       else mret (ew_bloom w) : outcome BloomFilter);
    bucket ← lift (append_bucket (ew_bucket w) record);
    let spools := append_spools (ew_spools w) record in
    let counters := append_counters (ew_counters w) record in
    overflow ← lift (PropertyStream_append (ew_overflow w) (er_overflow_json record));
    declared ← lift (append_declared (ew_declared_streams w) (er_declared_properties record));
    mret {| ew_options := ew_options w;
            ew_sst_id := ew_sst_id w;
            ew_skew_threshold := ew_skew_threshold w;
            ew_bucket := bucket;
            ew_spools := spools;
            ew_counters := counters;
            ew_overflow := overflow;
            ew_declared_streams := declared;
            ew_bloom := bloom;
            ew_point := point |}.

Fixpoint EdgeSstWriter_extend (crc32 : list byte → Z) (w : EdgeSstWriter) (records : list EdgeRecord)
    : outcome EdgeSstWriter :=
  match records with
  | [] => mret w
  | r :: rest => w ← EdgeSstWriter_append crc32 w r; EdgeSstWriter_extend crc32 w rest
  end.

(** ** Finalisation *)

Record PendingSection := {
  pn_kind : Z; pn_name : list byte; pn_codec : Z; pn_spool : list byte;
}.

Record FinalSection := {
  fs_entry : SectionEntry;
  fs_file : list byte;
  fs_page_checksums : list byte;
  fs_page_count : Z;
}.

(** The [while remaining > 0] scan: each round takes the next 64-KiB page. [whole]
    is what the section hasher has been fed. *)
Fixpoint scan_pages (pages : list (list byte)) (whole checksum_spool : list byte) (page_count : Z)
    : Result (list byte * list byte * Z) :=
  match pages with
  | [] => Ok (whole, checksum_spool, page_count)
  | page :: rest =>
      ensure page_count <? u32_max else Invariant "edge section page count exceeds u32";
      scan_pages rest (whole ++ page) (checksum_spool ++ le_split 8 (xxh3_64 page)) (page_count + 1)
  end.

Definition finalise_section (section : PendingSection) (offset : Z) : Result FinalSection :=
  let file := pn_spool section in
  '(whole, page_checksums, page_count) ←
    scan_pages (chunks (Z.to_nat EDGE_CHECKSUM_PAGE_BYTES) file) [] [] 0;
  ensure Z.of_nat (length page_checksums) =? page_count * 8
    else Invariant "edge section page-checksum spool length mismatch";
  Ok {| fs_entry :=
          {| se_kind := pn_kind section;
             se_offset := offset;
             se_length := Z.of_nat (length file);
             se_codec := pn_codec section;
             se_xxhash3_64 := xxh3_64 whole;
             se_name := pn_name section |};
        fs_file := file;
        fs_page_checksums := page_checksums;
        fs_page_count := page_count |}.

(** The [for section in pending_sections] loop of [finish_with_point_index]. *)
Fixpoint finalise_sections (pending : list PendingSection) (next_offset : Z)
    : Result (list FinalSection * Z) :=
  match pending with
  | [] => Ok ([], next_offset)
  | section :: rest =>
      section ← finalise_section section next_offset;
      next_offset ← ok_or (Invariant "edge SST section offsets exceed u64")
                      (checked_add64 next_offset (se_length (fs_entry section)));
      '(sections, next_offset) ← finalise_sections rest next_offset;
      Ok (section :: sections, next_offset)
  end.

(** [sections.iter().try_fold(0u64, ..)] *)
Fixpoint checksum_records_len (sections : list FinalSection) (total : Z) : option Z :=
  match sections with
  | [] => Some total
  | section :: rest =>
      value ← checked_add64 total 20;
      total ← checked_add64 value (saturating_mul64 (fs_page_count section) 8);
      checksum_records_len rest total
  end.

Definition build_page_checksum_spool (sections : list FinalSection) : Result (list byte) :=
  section_count ← try_u32 (Invariant "edge checksum section count exceeds u32")
                    (Z.of_nat (length sections));
  encoded_len ← ok_or (Invariant "edge checksum directory length exceeds u64")
                  (records ← checksum_records_len sections 0; checked_add64 16 records);
  ensure encoded_len <=? MAX_EDGE_PAGE_CHECKSUM_DIRECTORY_BYTES
    else Invariant "page checksum directory above limit";
  let out := PAGE_CHECKSUM_DIRECTORY_MAGIC in
  let out := out ++ le_split 4 EDGE_CHECKSUM_PAGE_BYTES in
  let out := out ++ le_split 4 section_count in
  let out := fold_left (λ out section,
      out ++ le_split 8 (se_offset (fs_entry section)) ++ le_split 8 (se_length (fs_entry section))
      ++ le_split 4 (fs_page_count section) ++ fs_page_checksums section) sections out in
  ensure Z.of_nat (length out) =? encoded_len
    else Invariant "edge checksum directory wrote another length";
  Ok out.

(** The [for _ in 0..offset_rows] loop: the native offsets at the chosen width. *)
Fixpoint pack_offsets (rows : nat) (raw_offsets : list byte) (width : OffsetWidth)
    (offsets : list byte) : list byte :=
  match rows with
  | O => offsets
  | S rows' =>
      let raw := take 8 raw_offsets in
      let encoded := write_offset (le_combine raw) width [] in
      pack_offsets rows' (drop 8 raw_offsets) width (offsets ++ encoded)
  end.

(** The declared sections: streams without a value are skipped. *)
Fixpoint finish_declared (streams : list (list byte * PropertyStream))
    : Result (list (list byte * list byte * Z)) :=
  match streams with
  | [] => Ok []
  | (name, stream) :: rest =>
      finished ← PropertyStream_finish stream;
      sections ← finish_declared rest;
      Ok (match finished with
          | Some (body, codec) => (name, body, codec) :: sections
          | None => sections
          end)
  end.

Record EdgeSstBuild := {
  ebd_id : list byte;
  ebd_body : EdgeSstUpload;
  ebd_stats : EdgeSstStats;
  ebd_bloom : option BloomFilter;
  ebd_point_index : option point_upload;
}.

(** The fixed spools once the last bucket is closed: the sentinel offset, the first
    ordinal of an empty file, and the last tombstone byte. *)
Definition close_spools (sp : Spools) : Spools :=
  {| sp_partners := sp_partners sp;
     sp_raw_offsets := sp_raw_offsets sp ++ le_split 8 (Z.of_nat (length (sp_partners sp)));
     sp_edge_ordinals := if sp_ordinals_started sp then sp_edge_ordinals sp
                         else sp_edge_ordinals sp ++ le_split 8 0;
     sp_ordinals_started := true;
     sp_key_ids := sp_key_ids sp;
     sp_fence_entries := sp_fence_entries sp;
     sp_fence_entry_count := sp_fence_entry_count sp;
     sp_lsns := sp_lsns sp;
     sp_tombstones := if 0 <? sp_tombstone_live_bits sp
                      then sp_tombstones sp ++ [z2b (sp_tombstone_live_byte sp)]
                      else sp_tombstones sp;
     sp_tombstone_live_byte := if 0 <? sp_tombstone_live_bits sp then 0 else sp_tombstone_live_byte sp;
     sp_tombstone_live_bits := 0 |}.

(** The sections of the body in wire order. *)
Definition pending_sections (sp : Spools) (offsets : list byte) (has_tombstones : bool)
    (fence : option (list byte)) (overflow_section : option (list byte * Z))
    (declared_sections : list (list byte * list byte * Z)) : list PendingSection :=
  let plain kind spool := {| pn_kind := kind; pn_name := []; pn_codec := CODEC_NONE; pn_spool := spool |} in
  [plain SECTION_KEY_IDS (sp_key_ids sp);
   plain SECTION_OFFSETS offsets;
   plain SECTION_EDGE_ORDINALS (sp_edge_ordinals sp);
   plain SECTION_PARTNERS (sp_partners sp);
   plain SECTION_PER_EDGE_LSN (sp_lsns sp)]
  ++ (if has_tombstones then [plain SECTION_PER_EDGE_TOMBSTONES (sp_tombstones sp)] else [])
  ++ match fence with Some fence => [plain SECTION_FENCE_INDEX fence] | None => [] end
  ++ match overflow_section with
     | Some (body, codec) =>
         [{| pn_kind := SECTION_PROPERTY_STREAM; pn_name := OVERFLOW_JSON_NAME; pn_codec := codec;
             pn_spool := body |}]
     | None => []
     end
  ++ map (λ '(name, body, codec),
         {| pn_kind := SECTION_PROPERTY_STREAM; pn_name := name; pn_codec := codec; pn_spool := body |})
       declared_sections.

(** The sections with their binding and page directory: the files in wire order,
    the section table and the offset after the last section. *)
Definition seal_sections (sst_id header : list byte) (pending : list PendingSection)
    : Result (list (list byte) * list SectionEntry * Z) :=
  '(final, next_offset) ← finalise_sections pending (Z.of_nat HEADER_LEN);
  let data_entries := map fs_entry final in
  binding ← EdgeSstBinding_for_sections xxh3_64 sst_id header data_entries;
  binding_section ← finalise_section
    {| pn_kind := SECTION_SST_BINDING; pn_name := []; pn_codec := CODEC_NONE;
       pn_spool := EdgeSstBinding_encode binding |} next_offset;
  next_offset ← ok_or (Invariant "edge SST binding end exceeds u64")
                  (checked_add64 next_offset (se_length (fs_entry binding_section)));
  let final := final ++ [binding_section] in
  page_directory ← build_page_checksum_spool final;
  page_directory ← finalise_section
    {| pn_kind := SECTION_PAGE_CHECKSUMS; pn_name := []; pn_codec := CODEC_NONE;
       pn_spool := page_directory |} next_offset;
  next_offset ← ok_or (Invariant "edge SST page-directory end exceeds u64")
                  (checked_add64 next_offset (se_length (fs_entry page_directory)));
  Ok (map fs_file final ++ [fs_file page_directory],
      map fs_entry final ++ [fs_entry page_directory], next_offset).

Definition finish_with_point_index (w : EdgeSstWriter) : outcome EdgeSstBuild :=
  w ← lift (flush_current_bucket w);
  let options := ew_options w in
  let ct := ew_counters w in
  let key_count := ct_key_count ct in
  let edge_count := ct_edge_count ct in
  let fence_stride := Z.max (eo_fence_stride options) 1 in
  let sp := close_spools (ew_spools w) in
  let max_offset := Z.of_nat (length (sp_partners sp)) in
  if Z.shiftl 1 48 <=? max_offset then
    fail (Invariant "edge partner section above the 2^48 bytes of format v1")
  else
  offset_width ← (match OffsetWidth_for_max max_offset with Some width => mret width | None => None end
                  : outcome OffsetWidth);
  offset_rows ← lift (ok_or (Invariant "edge offset row count exceeds u64") (checked_add64 key_count 1));
  let offsets := pack_offsets (Z.to_nat offset_rows) (sp_raw_offsets sp) offset_width [] in
  let has_tombstones := 0 <? ct_tombstone_count ct in
  let fence :=
    if eo_fence_threshold options <? key_count
    then Some (le_split 4 fence_stride ++ le_split 4 (sp_fence_entry_count sp) ++ sp_fence_entries sp)
    else None in
  overflow_section ← lift (PropertyStream_finish (ew_overflow w));
  declared_sections ← lift (finish_declared (zip (eo_declared_properties options) (ew_declared_streams w)));
  let min_lsn := if edge_count =? 0 then 0 else ct_min_lsn ct in
  let max_lsn := ct_max_lsn ct in
  let min_key_id := default (replicate 16 (z2b 0)) (ct_min_key_id ct) in
  let max_key_id := default (replicate 16 (z2b 0)) (ct_max_key_id ct) in
  let flags := 0 in
  let flags := match eo_direction options with
               | Inverse => Z.lor flags FLAG_INVERSE_PARTNER | Forward => flags end in
  let flags := if has_tombstones then Z.lor flags FLAG_HAS_TOMBSTONES else flags in
  let flags := if ct_any_skew_block ct then Z.lor flags FLAG_SKEW_BUCKETS else flags in
  let flags := if match overflow_section, declared_sections with None, [] => false | _, _ => true end
               then Z.lor flags FLAG_HAS_PROPERTIES else flags in
  let header := EdgeFileHeader_encode
    (EdgeFileHeader_new blake3 (eo_edge_type options) (eo_src_label options) (eo_dst_label options) flags) [] in
  '(files, sections, next_offset) ←
    lift (seal_sections (ew_sst_id w) header
            (pending_sections sp offsets has_tombstones fence overflow_section declared_sections));
  let footer :=
    {| ef_sections := sections;
       ef_key_count := key_count;
       ef_edge_count := edge_count;
       ef_offsets_bits := OffsetWidth_as_bits offset_width;
       ef_min_key_id := min_key_id;
       ef_max_key_id := max_key_id;
       ef_min_lsn := min_lsn;
       ef_max_lsn := max_lsn;
       ef_schema_version_min := eo_schema_version options;
       ef_schema_version_max := eo_schema_version options |} in
  '(footer_bytes, footer_len) ← lift (EdgeFileFooter_encode xxh3_64 footer []);
  body_len ← lift (ok_or (Invariant "edge SST body length exceeds u64")
                     (checked_add64 next_offset (Z.of_nat footer_len)));
  let bloom := if BLOOM_OMIT_THRESHOLD_BYTES <=? body_len then Some (ew_bloom w) else None in
  let stats :=
    {| es_direction := eo_direction options;
       es_key_count := key_count;
       es_edge_count := edge_count;
       es_tombstone_count := ct_tombstone_count ct;
       es_min_key_id := min_key_id;
       es_max_key_id := max_key_id;
       es_min_lsn := min_lsn;
       es_max_lsn := max_lsn;
       es_degree_histogram := ct_degree_histogram ct;
       es_schema_version_min := eo_schema_version options;
       es_schema_version_max := eo_schema_version options |} in
  point_index ←
    (match px_builder (ew_point w) with
     | Some builder => upload ← lift (point_finish_upload builder); mret (Some upload)
     | None => mret None
     end : outcome (option point_upload));
  if (0 <? px_max_sst_bytes (ew_point w))
     && match point_index with
        | Some upload => px_max_sst_bytes (ew_point w) <? point_size_bytes upload
        | None => false
        end
  then fail (Invariant "final edge point sidecar exceeds NAMIDB_EDGE_POINT_MAX_SST_BYTES")
  else if match point_index with
          | Some upload => negb (point_entry_count upload =? edge_count)
          | None => false
          end
  then fail (Invariant "edge point sidecar entry count disagrees with edge SST")
  else
    mret {| ebd_id := ew_sst_id w;
            ebd_body := {| eu_header := header; eu_files := files ++ [footer_bytes];
                           eu_size_bytes := body_len |};
            ebd_stats := stats;
            ebd_bloom := bloom;
            ebd_point_index := point_index |}.

(** [finish]: without the side-car, as one buffer of at most [cap] bytes. *)
Definition without_point (w : EdgeSstWriter) : EdgeSstWriter :=
  {| ew_options := ew_options w; ew_sst_id := ew_sst_id w; ew_skew_threshold := ew_skew_threshold w;
     ew_bucket := ew_bucket w; ew_spools := ew_spools w; ew_counters := ew_counters w;
     ew_overflow := ew_overflow w; ew_declared_streams := ew_declared_streams w;
     ew_bloom := ew_bloom w;
     ew_point := {| px_builder := None;
                    px_estimated_bytes := px_estimated_bytes (ew_point w);
                    px_max_entry_bytes := px_max_entry_bytes (ew_point w);
                    px_max_sst_bytes := px_max_sst_bytes (ew_point w) |} |}.

Definition EdgeSstWriter_finish (cap_env : option Z) (w : EdgeSstWriter)
    : outcome (list byte * EdgeSstStats * option BloomFilter) :=
  build ← finish_with_point_index (without_point w);
  let cap := env_usize cap_env DEFAULT_EDGE_IN_MEMORY_FINISH_MAX_BYTES in
  body ← lift (EdgeSstUpload_into_bytes (ebd_body build) cap);
  mret (body, ebd_stats build, ebd_bloom build).
End Writer.
