(* ===== verification/EdgeSealed.v ===== *)
(** A sealed edge SST body and its property streams: what the writer's finalisation lays out
    ([seal_sections] and the footer of [sst/edges/writer.rs]) passes every structural
    check of [EdgeSstReader::open], and each section reads back as its spool. *)
From S2P Require Import Prelude StorageError Bloom EdgeEncoding EdgeFormat EdgePages EdgeReader EdgeWriter.

Section Sealed.
Context (xxh3_64 : list byte → Z) (blake3 : list byte → list byte).
Hypothesis xxh3_64_u64 : ∀ bs, is_u64 (xxh3_64 bs).
Hypothesis blake3_length : ∀ bs, length (blake3 bs) = 32%nat.

(** ** The section table of a list of spools *)

Definition entry_of (off : Z) (p : PendingSection) : SectionEntry :=
  {| se_kind := pn_kind p;
     se_offset := off;
     se_length := Z.of_nat (length (pn_spool p));
     se_codec := pn_codec p;
     se_xxhash3_64 := xxh3_64 (pn_spool p);
     se_name := pn_name p |}.

Fixpoint entries_of (off : Z) (ps : list PendingSection) : list SectionEntry :=
  match ps with
  | [] => []
  | p :: rest => entry_of off p :: entries_of (off + Z.of_nat (length (pn_spool p))) rest
  end.

Definition payload (ps : list PendingSection) : list byte := concat (map pn_spool ps).
Definition page_bytes : nat := Z.to_nat EDGE_CHECKSUM_PAGE_BYTES.

Definition checks_of (off : Z) (p : PendingSection) : SectionPageChecksums :=
  {| pc_offset := off;
     pc_length := Z.of_nat (length (pn_spool p));
     pc_checksums := map xxh3_64 (chunks page_bytes (pn_spool p)) |}.

Fixpoint all_checks (off : Z) (ps : list PendingSection) : list SectionPageChecksums :=
  match ps with
  | [] => []
  | p :: rest => checks_of off p :: all_checks (off + Z.of_nat (length (pn_spool p))) rest
  end.

Definition final_of (off : Z) (p : PendingSection) : FinalSection :=
  {| fs_entry := entry_of off p;
     fs_file := pn_spool p;
     fs_page_checksums := concat (map (le_split 8) (pc_checksums (checks_of off p)));
     fs_page_count := Z.of_nat (length (pc_checksums (checks_of off p))) |}.

Fixpoint finals_of (off : Z) (ps : list PendingSection) : list FinalSection :=
  match ps with
  | [] => []
  | p :: rest => final_of off p :: finals_of (off + Z.of_nat (length (pn_spool p))) rest
  end.

Lemma entries_of_app off ps qs :
  entries_of off (ps ++ qs) = entries_of off ps ++ entries_of (off + Z.of_nat (length (payload ps))) qs.
Proof.
  revert off. induction ps as [|p ps IH]; intros off; [simpl; by rewrite Z.add_0_r|].
  simpl. rewrite IH. unfold payload. simpl. rewrite length_app. do 3 f_equal. lia.
Qed.
Lemma finals_entries off ps : map fs_entry (finals_of off ps) = entries_of off ps.
Proof. revert off. induction ps as [|p ps IH]; intros off; simpl; [done|]. by rewrite IH. Qed.
Lemma finals_files off ps : map fs_file (finals_of off ps) = map pn_spool ps.
Proof. revert off. induction ps as [|p ps IH]; intros off; simpl; [done|]. by rewrite IH. Qed.
Lemma finals_of_app off ps qs :
  finals_of off (ps ++ qs) = finals_of off ps ++ finals_of (off + Z.of_nat (length (payload ps))) qs.
Proof.
  revert off. induction ps as [|p ps IH]; intros off; [simpl; by rewrite Z.add_0_r|].
  simpl. rewrite IH. unfold payload. simpl. rewrite length_app. do 3 f_equal. lia.
Qed.
Lemma entries_of_kinds off ps : map se_kind (entries_of off ps) = map pn_kind ps.
Proof. revert off. induction ps as [|p ps IH]; intros off; simpl; [done|]. by rewrite IH. Qed.

(** ** Finalising *)

Lemma scan_pages_inv pages whole spool n r :
  n ≤ u32_max → scan_pages xxh3_64 pages whole spool n = Ok r →
  r = (whole ++ concat pages, spool ++ concat (map (le_split 8) (map xxh3_64 pages)),
       n + Z.of_nat (length pages)) ∧ n + Z.of_nat (length pages) ≤ u32_max.
Proof.
  revert whole spool n. induction pages as [|p pages IH]; intros whole spool n Hn; simpl.
  { intros [= <-]. by rewrite !app_nil_r, Z.add_0_r. }
  destruct (Z.ltb_spec n u32_max); [|done]. intros Hr. apply IH in Hr as [-> Hle]; [|lia].
  rewrite <- !(assoc_L (++)). split; [|lia]. f_equal. lia.
Qed.

Lemma finalise_section_inv p off f :
  finalise_section xxh3_64 p off = Ok f →
  f = final_of off p ∧ Z.of_nat (length (pc_checksums (checks_of off p))) ≤ u32_max.
Proof.
  unfold finalise_section. intros H. apply result_bind_Ok in H as ([[whole spool] n] & Hs & H).
  apply scan_pages_inv in Hs as [[= -> -> ->] Hle]; [|word_lia]. revert H. cbn [negb].
  rewrite concat_chunks by (unfold EDGE_CHECKSUM_PAGE_BYTES; lia).
  destruct (_ =? _); [|done]. intros [= <-].
  unfold final_of, checks_of, page_bytes. cbn [pc_checksums]. rewrite length_map. by split; [|lia].
Qed.

Lemma finalise_sections_inv ps off r :
  0 ≤ off ≤ u64_max → finalise_sections xxh3_64 ps off = Ok r →
  r = (finals_of off ps, off + Z.of_nat (length (payload ps)))
  ∧ off + Z.of_nat (length (payload ps)) ≤ u64_max
  ∧ Forall (λ c, Z.of_nat (length (pc_checksums c)) ≤ u32_max) (all_checks off ps).
Proof.
  revert off r. induction ps as [|p ps IH]; intros off r Hoff; cbn [finalise_sections].
  { intros [= <-]. unfold payload. simpl. rewrite Z.add_0_r. split_and!; [done|lia|constructor]. }
  intros H. apply result_bind_Ok in H as (f & Hf & H). apply finalise_section_inv in Hf as [-> Hc].
  cbn [final_of fs_entry entry_of se_length] in H. unfold checked_add64 in H.
  destruct (Z.leb_spec (off + Z.of_nat (length (pn_spool p))) u64_max); [|done]. cbn [ok_or mbind result_bind] in H.
  apply result_bind_Ok in H as ([fs n] & Hr & H). apply IH in Hr as ([= -> ->] & Hle & HF); [|lia].
  injection H as <-. unfold payload in *. cbn [map concat]. rewrite length_app.
  cbn [finals_of all_checks]. split_and!; [|lia|by constructor]. f_equal. lia.
Qed.

Definition plain_section (kind : Z) (spool : list byte) : PendingSection :=
  {| pn_kind := kind; pn_name := []; pn_codec := CODEC_NONE; pn_spool := spool |}.

(** The directory the writer builds is the directory of [format.rs] over the same
    sections. *)
Definition directory_for (off : Z) (ps : list PendingSection) : EdgePageChecksumDirectory :=
  {| pd_page_size := EDGE_CHECKSUM_PAGE_BYTES; pd_sections := all_checks off ps |}.

Lemma checksum_records_fold off ps out :
  fold_left (λ out section,
      out ++ le_split 8 (se_offset (fs_entry section)) ++ le_split 8 (se_length (fs_entry section))
      ++ le_split 4 (fs_page_count section) ++ fs_page_checksums section) (finals_of off ps) out
  = out ++ concat (map checksum_record (all_checks off ps)).
Proof.
  revert off out. induction ps as [|p ps IH]; intros off out.
  { simpl. by rewrite app_nil_r. }
  cbn [finals_of all_checks fold_left map concat]. rewrite IH, <- (assoc_L (++)). f_equal.
Qed.

Lemma length_all_checks off ps : length (all_checks off ps) = length ps.
Proof. revert off. induction ps as [|p ps IH]; intros; simpl; [done|]. by rewrite IH. Qed.
Lemma length_finals_of off ps : length (finals_of off ps) = length ps.
Proof. revert off. induction ps as [|p ps IH]; intros; simpl; [done|]. by rewrite IH. Qed.

Lemma build_page_checksum_spool_inv off ps out :
  build_page_checksum_spool (finals_of off ps) = Ok out →
  out = directory_bytes (directory_for off ps)
  ∧ Z.of_nat (length out) ≤ MAX_EDGE_PAGE_CHECKSUM_DIRECTORY_BYTES.
Proof.
  unfold build_page_checksum_spool, try_u32. rewrite length_finals_of.
  destruct (Z.leb_spec (Z.of_nat (length ps)) u32_max); [|done]. cbn [mbind result_bind].
  intros H'. apply result_bind_Ok in H' as (len & _ & H'). rewrite checksum_records_fold in H'.
  destruct (Z.leb_spec len MAX_EDGE_PAGE_CHECKSUM_DIRECTORY_BYTES); [|done].
  match type of H' with context [?l =? len] => destruct (Z.eqb_spec l len) as [Hb|]; [|done] end.
  apply Ok_inj in H' as <-. split; [|lia].
  unfold directory_bytes, directory_for. cbn [pd_sections pd_page_size].
  by rewrite length_all_checks, <- !(assoc_L (++)).
Qed.

Lemma all_checks_app off ps qs :
  all_checks off (ps ++ qs) = all_checks off ps ++ all_checks (off + Z.of_nat (length (payload ps))) qs.
Proof.
  revert off. induction ps as [|p ps IH]; intros off; [simpl; by rewrite Z.add_0_r|].
  simpl. rewrite IH. unfold payload. simpl. rewrite length_app. do 3 f_equal. lia.
Qed.

(** The body of a sealed file: header, data sections, binding, page directory. *)
Record sealed (id header : list byte) (pend : list PendingSection) (b : EdgeSstBinding)
    (full : list PendingSection) : Prop := {
  sealed_full : full = pend ++ [plain_section SECTION_SST_BINDING (EdgeSstBinding_encode b);
    plain_section SECTION_PAGE_CHECKSUMS (directory_bytes (directory_for (Z.of_nat HEADER_LEN)
      (pend ++ [plain_section SECTION_SST_BINDING (EdgeSstBinding_encode b)])))];
  sealed_binding : EdgeSstBinding_for_sections xxh3_64 id header (entries_of (Z.of_nat HEADER_LEN) pend) = Ok b;
  sealed_counts : Forall (λ c, Z.of_nat (length (pc_checksums c)) ≤ u32_max)
    (all_checks (Z.of_nat HEADER_LEN) (pend ++ [plain_section SECTION_SST_BINDING (EdgeSstBinding_encode b)]));
  sealed_directory : Z.of_nat (length (directory_bytes (directory_for (Z.of_nat HEADER_LEN)
      (pend ++ [plain_section SECTION_SST_BINDING (EdgeSstBinding_encode b)]))))
    ≤ MAX_EDGE_PAGE_CHECKSUM_DIRECTORY_BYTES;
  sealed_fits : Z.of_nat HEADER_LEN + Z.of_nat (length (payload full)) ≤ u64_max;
}.

Lemma payload_app ps qs : payload (ps ++ qs) = payload ps ++ payload qs.
Proof. unfold payload. by rewrite map_app, concat_app. Qed.

Lemma seal_sections_inv id header pend r :
  seal_sections xxh3_64 id header pend = Ok r →
  ∃ b full, sealed id header pend b full
  ∧ r = (map pn_spool full, entries_of (Z.of_nat HEADER_LEN) full,
         Z.of_nat HEADER_LEN + Z.of_nat (length (payload full))).
Proof.
  unfold seal_sections. assert (0 ≤ Z.of_nat HEADER_LEN ≤ u64_max) as Hh by done. intros H.
  apply result_bind_Ok in H as ([finals n1] & Hf & H).
  apply finalise_sections_inv in Hf as ([= -> ->] & Hn1 & HF); [|done].
  apply result_bind_Ok in H as (b & Hb & H). rewrite finals_entries in Hb.
  apply result_bind_Ok in H as (bs & Hbs & H). apply finalise_section_inv in Hbs as [-> Hbc].
  fold (plain_section SECTION_SST_BINDING (EdgeSstBinding_encode b)) in H, Hbc.
  set (bsec := plain_section _ _) in *.
  apply result_bind_Ok in H as (n2 & Hn2%ok_or_Ok & H).
  apply checked_add64_Some in Hn2 as [-> Hle2]. cbn [final_of fs_entry entry_of se_length] in Hle2, H.
  apply result_bind_Ok in H as (dir & Hd & H).
  change [final_of (Z.of_nat HEADER_LEN + Z.of_nat (length (payload pend))) bsec]
    with (finals_of (Z.of_nat HEADER_LEN + Z.of_nat (length (payload pend))) [bsec]) in Hd, H.
  rewrite <- finals_of_app in Hd, H. apply build_page_checksum_spool_inv in Hd as [-> Hdl].
  apply result_bind_Ok in H as (ds & Hds & H). apply finalise_section_inv in Hds as [-> Hdc].
  set (dsec := {| pn_kind := SECTION_PAGE_CHECKSUMS |}) in *.
  apply result_bind_Ok in H as (n3 & Hn3%ok_or_Ok & H).
  apply checked_add64_Some in Hn3 as [-> Hle3]. apply Ok_inj in H as <-.
  change (se_length (fs_entry (final_of ?o dsec))) with (Z.of_nat (length (pn_spool dsec))) in *.
  assert (Z.of_nat (length (payload (pend ++ [bsec; dsec])))
    = Z.of_nat (length (payload pend)) + Z.of_nat (length (pn_spool bsec)) + Z.of_nat (length (pn_spool dsec))) as Hpl.
  { rewrite payload_app. unfold payload. simpl. autorewrite with lengths. simpl. lia. }
  exists b, (pend ++ [bsec; dsec]). split.
  - split; try done.
    + rewrite all_checks_app, Forall_app. split; [done|]. cbn [all_checks]. by repeat constructor.
    + lia.
  - rewrite Hpl. rewrite finals_files, finals_entries, !map_app, !entries_of_app, <- !(assoc_L (++)).
    cbn [map app entries_of].
    f_equal. lia.
Qed.

(** ** Reading a sealed body *)

Abbreviation base := (Z.of_nat HEADER_LEN).

Section Body.
Context (header foot : list byte) (full : list PendingSection).
Hypothesis header_len : length header = HEADER_LEN.
Hypothesis foot_len : (FOOTER_TRAILER_LEN ≤ length foot)%nat.
Definition sealed_body : list byte := header ++ payload full ++ foot.
Hypothesis body_fits : Z.of_nat (length sealed_body) ≤ u64_max.

Lemma section_slice_at pre s post :
  full = pre ++ s :: post →
  section_slice sealed_body (entry_of (base + Z.of_nat (length (payload pre))) s) = Ok (pn_spool s).
Proof.
  intros Hf. unfold section_slice, checked_sub64. cbn [entry_of se_offset se_length].
  assert (payload full = payload pre ++ pn_spool s ++ payload post) as Hp.
  { by rewrite Hf, payload_app. }
  assert (length sealed_body = HEADER_LEN + length (payload pre) + length (pn_spool s)
            + length (payload post) + length foot)%nat as Hl.
  { unfold sealed_body. rewrite Hp, !length_app, header_len. lia. }
  rewrite checked_add64_le by lia. cbn [ok_or mbind result_bind].
  rewrite (proj2 (Z.leb_le _ _)) by lia. cbn [ok_or mbind result_bind].
  rewrite !(proj2 (Z.ltb_ge _ _)) by lia. cbn [orb negb]. f_equal.
  unfold sealed_body. rewrite Hp, <- !(assoc_L (++)), (assoc_L (++) header).
  apply slice_app_mid; rewrite length_app, header_len; lia.
Qed.

Lemma verified_section_at pre s post :
  full = pre ++ s :: post →
  verified_section xxh3_64 sealed_body (entry_of (base + Z.of_nat (length (payload pre))) s)
  = Ok (pn_spool s).
Proof.
  intros Hf. unfold verified_section. rewrite (section_slice_at _ _ _ Hf).
  cbn [mbind result_bind entry_of se_xxhash3_64]. by rewrite Z.eqb_refl.
Qed.

Lemma verify_sections_sealed pre ps :
  full = pre ++ ps →
  verify_sections xxh3_64 sealed_body (entries_of (base + Z.of_nat (length (payload pre))) ps) = Ok tt.
Proof.
  revert pre. induction ps as [|p ps IH]; intros pre Hf; [done|]. cbn [entries_of verify_sections].
  assert (verify_sections xxh3_64 sealed_body
    (entries_of (base + Z.of_nat (length (payload pre)) + Z.of_nat (length (pn_spool p))) ps) = Ok tt) as Hr.
  { rewrite <- (IH (pre ++ [p])) by by rewrite <- (assoc_L (++)). f_equal. f_equal.
    rewrite payload_app, length_app. unfold payload at 3. simpl. rewrite app_nil_r. lia. }
  destruct (negb _); [rewrite (verified_section_at _ _ _ Hf)|]; by cbn [mbind result_bind].
Qed.
End Body.

Lemma entries_of_kind_ne off ps kind :
  Forall (λ p, pn_kind p ≠ kind) ps → Forall (λ e, se_kind e ≠ kind) (entries_of off ps).
Proof. intros HF. revert off. induction HF; intros off; simpl; by constructor. Qed.

Lemma entries_of_name_ne off ps kind name :
  Forall (λ p, ¬ (pn_kind p = kind ∧ pn_name p = name)) ps →
  Forall (λ e, ¬ (se_kind e = kind ∧ se_name e = name)) (entries_of off ps).
Proof. intros HF. revert off. induction HF; intros off; simpl; by constructor. Qed.

Lemma filter_kind_none off ps kind :
  Forall (λ p, pn_kind p ≠ kind) ps → filter (λ e, se_kind e = kind) (entries_of off ps) = [].
Proof.
  intros HF. apply filter_nil_in. intros e He. eapply entries_of_kind_ne in HF.
  rewrite Forall_forall in HF. by apply HF.
Qed.

Lemma filter_kind_one pre s post kind :
  pn_kind s = kind → Forall (λ p, pn_kind p ≠ kind) pre → Forall (λ p, pn_kind p ≠ kind) post →
  filter (λ e, se_kind e = kind) (entries_of base (pre ++ s :: post))
  = [entry_of (base + Z.of_nat (length (payload pre))) s].
Proof.
  intros Hs Hpre Hpost. rewrite entries_of_app. cbn [entries_of].
  rewrite filter_app, filter_kind_none, filter_cons, decide_True, filter_kind_none by done. done.
Qed.

Lemma list_find_app_skip {A} (P : A → Prop) `{∀ x, Decision (P x)} (l1 : list A) x l2 :
  Forall (λ y, ¬ P y) l1 → P x → snd <$> list_find P (l1 ++ x :: l2) = Some x.
Proof.
  intros HF Hx. erewrite list_find_app_r by by apply list_find_None. cbn [list_find].
  by rewrite decide_True.
Qed.

Section Footer.
Context (f : EdgeFileFooter) (full : list PendingSection).
Hypothesis f_sections : ef_sections f = entries_of base full.

Lemma find_kind_at pre s post kind :
  full = pre ++ s :: post → pn_kind s = kind → Forall (λ p, pn_kind p ≠ kind) pre →
  EdgeFileFooter_find_kind f kind = Some (entry_of (base + Z.of_nat (length (payload pre))) s).
Proof.
  intros -> Hs Hpre. unfold EdgeFileFooter_find_kind. rewrite f_sections, entries_of_app.
  apply list_find_app_skip; [|done]. by apply entries_of_kind_ne.
Qed.
Lemma find_kind_none kind :
  Forall (λ p, pn_kind p ≠ kind) full → EdgeFileFooter_find_kind f kind = None.
Proof.
  intros HF. unfold EdgeFileFooter_find_kind. rewrite f_sections, (proj2 (list_find_None _ _)); [done|].
  by apply entries_of_kind_ne.
Qed.
Lemma unique_section_at pre s post kind :
  full = pre ++ s :: post → pn_kind s = kind →
  Forall (λ p, pn_kind p ≠ kind) pre → Forall (λ p, pn_kind p ≠ kind) post →
  optional_unique_section f kind = Ok (Some (entry_of (base + Z.of_nat (length (payload pre))) s)).
Proof. intros -> Hs Hpre Hpost. unfold optional_unique_section. by rewrite f_sections, filter_kind_one. Qed.
Lemma unique_section_none kind :
  Forall (λ p, pn_kind p ≠ kind) full → optional_unique_section f kind = Ok None.
Proof. intros HF. unfold optional_unique_section. by rewrite f_sections, filter_kind_none. Qed.

Lemma find_name_at pre s post kind name :
  full = pre ++ s :: post → pn_kind s = kind → pn_name s = name →
  Forall (λ p, ¬ (pn_kind p = kind ∧ pn_name p = name)) pre →
  EdgeFileFooter_find f kind name = Some (entry_of (base + Z.of_nat (length (payload pre))) s).
Proof.
  intros -> Hs Hn Hpre. unfold EdgeFileFooter_find. rewrite f_sections, entries_of_app.
  apply list_find_app_skip; [by apply entries_of_name_ne|done].
Qed.
Lemma find_name_none kind name :
  Forall (λ p, ¬ (pn_kind p = kind ∧ pn_name p = name)) full → EdgeFileFooter_find f kind name = None.
Proof.
  intros HF. unfold EdgeFileFooter_find. rewrite f_sections, (proj2 (list_find_None _ _)); [done|].
  by apply entries_of_name_ne.
Qed.
End Footer.

(** ** The structural checks of [open] *)

Definition pending_ok (p : PendingSection) : Prop :=
  is_u16 (pn_kind p) ∧ is_u8 (pn_codec p) ∧ (length (pn_name p) ≤ 255)%nat
  ∧ utf8_valid (pn_name p) = true.

Lemma entries_ok off ps :
  Forall pending_ok ps → 0 ≤ off → off + Z.of_nat (length (payload ps)) ≤ u64_max →
  Forall section_ok (entries_of off ps).
Proof.
  intros HF. revert off. induction HF as [|p ps (Hk & Hc & Hn & Hu) HF IH]; intros off H0 Hfit; [constructor|].
  unfold payload in *. cbn [map concat entries_of] in *. rewrite length_app in Hfit.
  constructor; [|apply IH; lia]. unfold section_ok, entry_of. cbn.
  split_and!; try done; try apply xxh3_64_u64; word_lia.
Qed.

Lemma entries_ranges lo hi off ps :
  lo ≤ off → off + Z.of_nat (length (payload ps)) ≤ hi → ranges_ok lo hi (entries_of off ps).
Proof.
  revert lo off. induction ps as [|p ps IH]; intros lo off Hlo Hhi; [done|].
  unfold payload in *. cbn [map concat entries_of ranges_ok] in *. rewrite length_app in Hhi.
  cbn [entry_of se_offset se_length]. split_and!; [lia|lia|]. apply IH; [done|lia].
Qed.

Lemma checks_ok off ps :
  Forall (λ c, Z.of_nat (length (pc_checksums c)) ≤ u32_max) (all_checks off ps) →
  0 ≤ off → off + Z.of_nat (length (payload ps)) ≤ u64_max →
  Forall (checksums_ok EDGE_CHECKSUM_PAGE_BYTES) (all_checks off ps).
Proof.
  revert off. induction ps as [|p ps IH]; intros off HF H0 Hfit; [constructor|].
  unfold payload in *. cbn [map concat all_checks] in *. rewrite length_app in Hfit.
  inversion HF as [|?? Hc HF']; subst. constructor; [|apply IH; [done|lia|lia]].
  unfold checksums_ok. cbn [checks_of pc_offset pc_length pc_checksums] in *. split_and!.
  - word_lia.
  - word_lia.
  - apply Forall_forall. intros c (page & -> & _)%list_elem_of_fmap. apply xxh3_64_u64.
  - rewrite length_map. apply length_chunks. unfold page_bytes, EDGE_CHECKSUM_PAGE_BYTES. lia.
  - word_lia.
Qed.

Lemma all_checks_match off ps :
  Forall2 (λ s t, pc_offset s = se_offset t ∧ pc_length s = se_length t)
    (all_checks off ps) (entries_of off ps).
Proof. revert off. induction ps as [|p ps IH]; intros off; simpl; by constructor. Qed.

Lemma binding_names es h r :
  binding_root es h = Ok r → Forall is_data_section es →
  Forall (λ e, (length (se_name e) ≤ 255)%nat) es.
Proof.
  intros Hr HF. revert h Hr. induction HF as [|e es [H1 H2] HF IH]; intros h Hr; [constructor|].
  cbn [binding_root] in Hr. rewrite (proj2 (Z.eqb_neq _ _)), (proj2 (Z.eqb_neq _ _)) in Hr by done.
  cbn [orb] in Hr. apply result_bind_Ok in Hr as (enc & He & Hr).
  constructor; [|by eapply IH]. unfold SectionEntry_encode in He.
  destruct (Nat.leb_spec (length (se_name e)) 255); [done|discriminate].
Qed.

Lemma entries_data off ps :
  Forall (λ p, pn_kind p ≠ SECTION_SST_BINDING ∧ pn_kind p ≠ SECTION_PAGE_CHECKSUMS) ps →
  Forall is_data_section (entries_of off ps).
Proof. intros HF. revert off. induction HF; intros off; simpl; by constructor. Qed.

Lemma entries_pending_ok off ps :
  Forall (λ p, is_u16 (pn_kind p) ∧ is_u8 (pn_codec p) ∧ utf8_valid (pn_name p) = true) ps →
  Forall (λ e, (length (se_name e) ≤ 255)%nat) (entries_of off ps) → Forall pending_ok ps.
Proof.
  intros HF. revert off. induction HF as [|p ps (H1 & H2 & H3) HF IH]; intros off Hr; [constructor|].
  cbn [entries_of] in Hr. inversion Hr; subst. constructor; [|by eapply IH]. split_and!; done.
Qed.

Section SealedChecks.
Context (id header foot : list byte) (pend full : list PendingSection) (b : EdgeSstBinding).
Hypothesis is_sealed : sealed id header pend b full.
Hypothesis header_len : length header = HEADER_LEN.
Hypothesis foot_len : (FOOTER_TRAILER_LEN ≤ length foot)%nat.
Hypothesis id_len : length id = 16%nat.
Hypothesis body_fits : Z.of_nat (length (sealed_body header foot full)) ≤ u64_max.
Context (f : EdgeFileFooter) (h : EdgeFileHeader).
Hypothesis f_sections : ef_sections f = entries_of base full.
(** The data sections are neither the binding nor the directory. *)
Hypothesis pend_kinds : Forall (λ p, pn_kind p ≠ SECTION_SST_BINDING ∧ pn_kind p ≠ SECTION_PAGE_CHECKSUMS) pend.
Hypothesis pend_ok : Forall (λ p, is_u16 (pn_kind p) ∧ is_u8 (pn_codec p) ∧ utf8_valid (pn_name p) = true) pend.

#[local] Abbreviation bsec := (plain_section SECTION_SST_BINDING (EdgeSstBinding_encode b)).
#[local] Abbreviation dsec := (plain_section SECTION_PAGE_CHECKSUMS
  (directory_bytes (directory_for base (pend ++ [bsec])))).

Lemma sealed_split : full = pend ++ [bsec] ++ [dsec].
Proof. apply is_sealed. Qed.

Lemma pend_data : Forall is_data_section (entries_of base pend).
Proof. by apply entries_data. Qed.

Lemma full_pending_ok : Forall pending_ok full.
Proof.
  rewrite sealed_split. apply Forall_app. split.
  - pose proof (sealed_binding _ _ _ _ _ is_sealed) as Hb. unfold EdgeSstBinding_for_sections in Hb.
    apply result_bind_Ok in Hb as (r & Hr & _). apply binding_names in Hr; [|apply pend_data].
    by eapply entries_pending_ok.
  - repeat constructor; done.
Qed.

Lemma full_entries_ok : Forall section_ok (entries_of base full).
Proof.
  apply entries_ok; [apply full_pending_ok|done|]. apply is_sealed.
Qed.

Lemma pend_no_directory : Forall (λ p, pn_kind p ≠ SECTION_PAGE_CHECKSUMS) (pend ++ [bsec]).
Proof.
  apply Forall_app. split; [|by repeat constructor].
  eapply Forall_impl; [apply pend_kinds|]. by intros p [_ ?].
Qed.
Lemma pend_no_binding : Forall (λ p, pn_kind p ≠ SECTION_SST_BINDING) pend.
Proof. eapply Forall_impl; [apply pend_kinds|]. by intros p [? _]. Qed.

Lemma directory_decodes :
  EdgePageChecksumDirectory_decode (directory_bytes (directory_for base (pend ++ [bsec]))) f
  = Ok (directory_for base (pend ++ [bsec])).
Proof.
  pose proof sealed_split as Hs. rewrite (assoc_L (++)) in Hs.
  apply directory_decode_bytes; [done| | |apply is_sealed].
  - apply checks_ok; [apply is_sealed|done|]. pose proof (sealed_fits _ _ _ _ _ is_sealed) as Hf.
    rewrite Hs, payload_app, length_app in Hf. lia.
  - rewrite f_sections, Hs, entries_of_app, filter_app. cbn [entries_of].
    rewrite filter_cons, decide_False by (intros Hn; by apply Hn).
    rewrite (filter_nil (λ entry, se_kind entry ≠ SECTION_PAGE_CHECKSUMS)), app_nil_r.
    rewrite filter_all_in; [apply all_checks_match|].
    apply Forall_forall, entries_of_kind_ne, pend_no_directory.
Qed.

Lemma check_page_directory_sealed : check_page_directory (sealed_body header foot full) h f = Ok tt.
Proof.
  unfold check_page_directory. pose proof sealed_split as Hs. rewrite (assoc_L (++)) in Hs.
  pose proof (section_slice_at header foot full header_len foot_len body_fits _ _ [] Hs) as Hsl.
  cbv zeta. rewrite f_sections.
  assert (filter (λ e, se_kind e = SECTION_PAGE_CHECKSUMS) (entries_of base full)
    = [entry_of (base + Z.of_nat (length (payload (pend ++ [bsec])))) dsec]) as ->.
  { rewrite Hs. by apply filter_kind_one; [|apply pend_no_directory|]. }
  pose proof (sealed_directory _ _ _ _ _ is_sealed) as Hdl.
  revert Hsl. cbn [pn_spool plain_section]. pose proof directory_decodes as Hd. revert Hdl Hd.
  generalize (directory_bytes (directory_for base (pend ++ [bsec]))). intros dir Hdl Hd Hsl.
  set (e := entry_of _ _) in *.
  assert (se_codec e = CODEC_NONE ∧ se_name e = [] ∧ se_length e = Z.of_nat (length dir)) as (Hc & Hn & Hl) by done.
  clearbody e. cbn [length Nat.leb]. rewrite bool_decide_false by done. rewrite andb_false_r. cbn [negb].
  rewrite Hc, Hn, Hl, bool_decide_true by done. cbn [Z.eqb CODEC_NONE andb].
  rewrite (proj2 (Z.leb_le _ _)) by done. rewrite Hsl. cbn [mbind result_bind]. by rewrite Hd.
Qed.

Lemma check_binding_sealed : check_binding xxh3_64 (sealed_body header foot full) f = Ok tt.
Proof.
  unfold check_binding. pose proof sealed_split as Hs.
  pose proof (section_slice_at header foot full header_len foot_len body_fits pend bsec [dsec] Hs) as Hsl.
  cbv zeta. rewrite f_sections.
  assert (filter (λ e, se_kind e = SECTION_SST_BINDING) (entries_of base full)
    = [entry_of (base + Z.of_nat (length (payload pend))) bsec]) as ->.
  { rewrite Hs. apply filter_kind_one; [done|apply pend_no_binding|by repeat constructor]. }
  cbn [pn_spool plain_section] in Hsl. set (e := entry_of _ _) in *.
  assert (se_codec e = CODEC_NONE ∧ se_name e = []) as (Hc & Hn) by done.
  clearbody e. cbn [length Nat.leb]. rewrite Hc, Hn, bool_decide_true by done.
  cbn [Z.eqb CODEC_NONE andb]. rewrite Hsl. cbn [mbind result_bind].
  pose proof (sealed_binding _ _ _ _ _ is_sealed) as Hb.
  assert (take HEADER_LEN (sealed_body header foot full) = header) as Hh.
  { unfold sealed_body. by apply take_app_length'. }
  rewrite Hh. pose proof full_entries_ok as Hok.
  rewrite Hs, entries_of_app in Hok |- *.
  destruct (binding_validates xxh3_64 id header _ (entries_of (base + Z.of_nat (length (payload pend))) [bsec; dsec])
    b Hok pend_data) as [Hv Hid]; [|done|].
  { repeat constructor; by intros [? ?]. }
  destruct (binding_decode_encode b) as [_ ->]; [by rewrite Hid| | |done];
    unfold EdgeSstBinding_for_sections in Hb; apply result_bind_Ok in Hb as (r & _ & [= <-]); apply xxh3_64_u64.
Qed.

Lemma verify_sections_full :
  verify_sections xxh3_64 (sealed_body header foot full) (ef_sections f) = Ok tt.
Proof.
  rewrite f_sections. rewrite <- (Z.add_0_r base) at 1.
  by apply (verify_sections_sealed header foot full header_len foot_len body_fits []).
Qed.
End SealedChecks.
End Sealed.

(** The property streams of the edge writer: what [PropertyStream] accumulates is a
    list of decodable pages followed by the pending rows, and what it finishes to is
    the section the reader parses. *)

Section Streams.
Context (xxh3_64 : list byte → Z).
Context (zstd_encode : list byte → option (list byte)) (zstd_decompress : list byte → Z → option (list byte)).
Hypothesis xxh3_64_u64 : ∀ bs, is_u64 (xxh3_64 bs).
(** What a zstd frame decompresses to. *)
Hypothesis zstd_law : ∀ raw enc,
  zstd_encode raw = Some enc → zstd_decompress enc (Z.of_nat (length raw)) = Some raw.

Definition value_utf8 (v : PropValue) : Prop :=
  match v with Some s => utf8_valid s = true | None => True end.
Definition is_value (v : PropValue) : bool := match v with Some _ => true | None => false end.

(** The stream holds [vs]: its pages, then its pending rows. *)
Record stream_inv (s : PropertyStream) (vs : list PropValue) (pages : list page) : Prop := {
  si_payload : ps_payload s = stream_payload pages;
  si_directory : ps_directory s = directory_of (page_entries xxh3_64 0 0 pages);
  si_rows : stream_rows pages ++ ps_pending s = vs;
  si_pages : Forall (page_ok zstd_decompress (ps_compress s)) pages;
  si_row_count : ps_row_count s = Z.of_nat (length vs);
  si_row_fits : Z.of_nat (length vs) ≤ u64_max;
  si_page_count : ps_page_count s = Z.of_nat (length pages);
  si_page_fits : Z.of_nat (length pages) ≤ u32_max;
}.

Lemma write_rows_inv pending raw out :
  Forall value_utf8 pending → write_rows pending raw = Ok out →
  out = raw ++ concat (map row_bytes pending) ∧ Forall value_ok pending.
Proof.
  intros HF. revert raw. induction HF as [|[s|] pending Hv HF IH]; intros raw; cbn [write_rows map concat].
  - intros [= <-]. by rewrite app_nil_r.
  - unfold try_u32. destruct (Z.leb_spec (Z.of_nat (length s)) u32_max); [|done]. cbn [mbind result_bind].
    intros [-> Hp]%IH. split; [|by constructor]. unfold row_bytes. by rewrite <- !(assoc_L (++)).
  - intros [-> Hp]%IH. split; [|by constructor]. by rewrite <- (assoc_L (++)).
Qed.

Lemma page_entries_app row off ps qs :
  page_entries xxh3_64 row off (ps ++ qs)
  = page_entries xxh3_64 row off ps
    ++ page_entries xxh3_64 (row + Z.of_nat (length (stream_rows ps)))
         (off + Z.of_nat (length (stream_payload ps))) qs.
Proof.
  revert row off. induction ps as [|p ps IH]; intros row off.
  { simpl. by rewrite !Z.add_0_r. }
  cbn [app page_entries]. rewrite IH. unfold stream_rows, stream_payload. cbn [map concat].
  rewrite !length_app. do 3 f_equal; lia.
Qed.

Lemma directory_of_app es es' : directory_of (es ++ es') = directory_of es ++ directory_of es'.
Proof. unfold directory_of. by rewrite map_app, concat_app. Qed.

Lemma flush_batch_inv s vs pages s' :
  stream_inv s vs pages → Forall value_utf8 vs →
  PropertyStream_flush_batch xxh3_64 zstd_encode s = Ok s' →
  ps_compress s' = ps_compress s ∧ ps_any_value s' = ps_any_value s ∧ ps_pending s' = [] ∧
  ∃ pages', stream_inv s' vs pages'.
Proof.
  intros [Hpay Hdir Hrows Hpages Hrc Hrf Hpc Hpf] Hutf. unfold PropertyStream_flush_batch.
  destruct (bool_decide_reflect (ps_pending s = [])) as [Hp|Hp].
  { intros [= <-]. split_and!; [done..|]. exists pages. by split. }
  unfold try_u32. destruct (Z.leb_spec (Z.of_nat (length (ps_pending s))) u32_max) as [Hn|]; [|done].
  cbn [mbind result_bind]. unfold checked_sub64. intros H.
  apply result_bind_Ok in H as (first_row & Hfr%ok_or_Ok & H).
  destruct (Z.leb_spec (Z.of_nat (length (ps_pending s))) (ps_row_count s)); [|done].
  injection Hfr as <-. apply result_bind_Ok in H as (raw & Hraw & H).
  apply write_rows_inv in Hraw as [Hraw Hok].
  2:{ rewrite <- Hrows in Hutf. by apply Forall_app in Hutf as [_ ?]. }
  destruct (Z.leb_spec (Z.of_nat (length raw)) MAX_PROPERTY_PAGE_DECODE_BYTES) as [Hmax|]; [|done].
  apply result_bind_Ok in H as (enc & Henc & H).
  destruct (Z.ltb_spec (ps_page_count s) u32_max) as [Hlt|]; [|done]. apply Ok_inj in H as <-.
  cbn [ps_compress ps_pending ps_any_value]. split_and!; [done..|].
  set (p := {| pg_rows := ps_pending s; pg_enc := enc |}). exists (pages ++ [p]).
  assert (raw = rows_bytes (pg_rows p)) as Hr by done.
  assert (stream_rows (pages ++ [p]) = vs) as Hsr.
  { unfold stream_rows. rewrite map_app, concat_app. cbn [map concat]. by rewrite app_nil_r. }
  assert (ps_row_count s - Z.of_nat (length (ps_pending s)) = 0 + Z.of_nat (length (stream_rows pages))) as Hfirst.
  { rewrite Hrc, <- Hrows, length_app. lia. }
  split; cbn [ps_payload ps_directory ps_pending ps_compress ps_row_count ps_page_count ps_any_value].
  - unfold stream_payload. rewrite map_app, concat_app. cbn [map concat]. rewrite app_nil_r. by rewrite Hpay.
  - rewrite page_entries_app, directory_of_app, Hdir. cbn [page_entries]. rewrite Hfirst, Hpay.
    f_equal. unfold directory_of. cbn [map concat]. rewrite app_nil_r. by rewrite Hr.
  - by rewrite Hsr, app_nil_r.
  - apply Forall_app. split; [done|]. constructor; [|constructor].
    unfold page_ok. cbn [pg_rows pg_enc]. fold (pg_rows p). rewrite <- Hr. split_and!; try done.
    destruct (ps_compress s); [apply zstd_law; by apply ok_or_Ok in Henc|by apply Ok_inj in Henc].
  - done.
  - done.
  - rewrite length_app. simpl. lia.
  - rewrite length_app. simpl. lia.
Qed.

Lemma append_inv s vs pages v s' :
  stream_inv s vs pages → Forall value_utf8 (vs ++ [v]) →
  PropertyStream_append xxh3_64 zstd_encode s v = Ok s' →
  ps_compress s' = ps_compress s ∧ ps_any_value s' = ps_any_value s || is_value v
  ∧ ∃ pages', stream_inv s' (vs ++ [v]) pages'.
Proof.
  intros Hinv Hutf. unfold PropertyStream_append. cbv zeta.
  replace (match v with Some _ => true | None => ps_any_value s end) with (ps_any_value s || is_value v)
    by (destruct v; simpl; by rewrite ?orb_true_r, ?orb_false_r).
  set (bytes := match v with Some v => Z.of_nat (length v) | None => 0 end). clearbody bytes.
  match goal with |- context [PropertyStream_flush_batch _ _ ?x] => set (s1 := x) end.
  assert (stream_inv s1 vs pages) as Hinv1 by (destruct Hinv; by split). intros H.
  apply result_bind_Ok in H as (s2 & H2 & H).
  assert (ps_compress s2 = ps_compress s ∧ ps_any_value s2 = ps_any_value s || is_value v
    ∧ ∃ pages', stream_inv s2 vs pages') as (Hc2 & Ha2 & pages2 & Hinv2).
  { destruct (_ && _); [|injection H2 as <-; by eauto].
    apply Forall_app in Hutf as [Hutf _].
    apply (flush_batch_inv _ _ _ _ Hinv1 Hutf) in H2 as (Hc & Ha & _ & ?). by eauto. }
  apply result_bind_Ok in H as (rc & Hrc%ok_or_Ok & H). apply checked_add64_Some in Hrc as [-> Hrc].
  match type of H with context [PropertyStream_flush_batch _ _ ?s0] =>
    assert (stream_inv s0 (vs ++ [v]) pages2) as Hinv3;
    [|assert (ps_compress s0 = ps_compress s2 ∧ ps_any_value s0 = ps_any_value s2) as [Hc3 Ha3] by done] end.
  { destruct Hinv2 as [Hpay Hdir Hrows Hpages Hrc2 Hrf Hpc Hpf]. split; try done; cbn.
    - by rewrite (assoc_L (++)), Hrows.
    - rewrite Hrc2, length_app. simpl. lia.
    - rewrite length_app. simpl. lia. }
  match type of H with (if ?c then _ else _) = _ => destruct c end.
  - apply (flush_batch_inv _ _ _ _ Hinv3 Hutf) in H as (Hc & Ha & _ & Hp).
    rewrite Hc, Ha, Hc3, Ha3. by eauto.
  - injection H as <-. rewrite Hc3, Ha3. by eauto.
Qed.

Lemma stream_new_inv name compress : stream_inv (PropertyStream_new name compress) [] [].
Proof. split; try done; cbn; word_lia. Qed.

Definition rebased (start : Z) (e : PropertyPageEntry) : PropertyPageEntry :=
  {| pp_first_row := pp_first_row e; pp_row_count := pp_row_count e;
     pp_offset := start + pp_offset e; pp_encoded_len := pp_encoded_len e;
     pp_decoded_len := pp_decoded_len e; pp_checksum := pp_checksum e |}.

Lemma rebase_entry start e :
  is_u64 (pp_offset e) →
  let raw := PropertyPageEntry_encode e [] in
  le_combine (slice raw 12 20) = pp_offset e ∧
  take 12 raw ++ le_split 8 (start + pp_offset e) ++ drop 20 raw
  = PropertyPageEntry_encode (rebased start e) [].
Proof.
  intros Ho. cbn zeta. unfold PropertyPageEntry_encode. rewrite !(left_id_L [] (++)). split.
  - reads. by rewrite le_combine_split_small.
  - rewrite (assoc_L (++) (le_split 8 (pp_first_row e)) (le_split 4 (pp_row_count e))) at 1 2.
    rewrite take_app_length' by done. cbn [rebased pp_first_row pp_row_count pp_offset].
    rewrite (assoc_L (++) (le_split 8 (pp_first_row e) ++ le_split 4 (pp_row_count e)) (le_split 8 (pp_offset e))) at 1.
    rewrite drop_app_length' by done. by rewrite <- !(assoc_L (++)).
Qed.

Lemma page_entries_rebased start row off ps :
  map (rebased start) (page_entries xxh3_64 row off ps) = page_entries xxh3_64 row (start + off) ps.
Proof.
  revert row off. induction ps as [|p ps IH]; intros row off; [done|]. cbn [page_entries map].
  rewrite IH. unfold rebased, page_entry. cbn. do 2 f_equal. lia.
Qed.

Lemma rebase_directory_inv es start out r :
  Forall (λ e, is_u64 (pp_offset e)) es →
  rebase_directory (length es) start (directory_of es) out = Ok r →
  r = out ++ directory_of (map (rebased start) es).
Proof.
  intros HF. revert out. induction HF as [|e es He HF IH]; intros out.
  { simpl. intros [= <-]. by rewrite app_nil_r. }
  unfold directory_of. cbn [map concat length rebase_directory].
  rewrite take_app_length', drop_app_length' by done. intros H.
  apply result_bind_Ok in H as (off & Hoff%ok_or_Ok & H). apply checked_add64_Some in Hoff as [-> _].
  destruct (rebase_entry start e He) as [Ho Hraw]. rewrite Ho, Hraw in H.
  apply IH in H as ->. by rewrite <- (assoc_L (++)).
Qed.

Lemma page_offsets_u64 row off ps :
  0 ≤ off → off + Z.of_nat (length (stream_payload ps)) ≤ u64_max →
  Forall (λ e, is_u64 (pp_offset e)) (page_entries xxh3_64 row off ps).
Proof.
  revert row off. induction ps as [|p ps IH]; intros row off H0 Hf; [constructor|].
  unfold stream_payload in *. cbn [map concat page_entries] in *. rewrite length_app in Hf.
  constructor; [cbn; word_lia|]. apply IH; lia.
Qed.

Lemma stream_pages_le ps :
  Forall (λ p, pg_rows p ≠ []) ps → (length ps ≤ length (stream_rows ps))%nat.
Proof.
  unfold stream_rows. induction 1 as [|p ps Hp HF IH]; [done|]. cbn [map concat length].
  rewrite length_app. destruct (pg_rows p); [done|]. simpl. lia.
Qed.

(** What a finished stream is: nothing if no row has a value, else the section of
    its pages. *)
Lemma finish_inv s vs pages r :
  stream_inv s vs pages → Forall value_utf8 vs → ps_any_value s = existsb is_value vs →
  PropertyStream_finish xxh3_64 zstd_encode s = Ok r →
  match r with
  | None => existsb is_value vs = false
  | Some (body, codec) =>
      existsb is_value vs = true ∧
      codec = (if ps_compress s then CODEC_PROPERTY_PAGED_ZSTD else CODEC_PROPERTY_PAGED_NONE) ∧
      ∃ ps, Forall (page_ok zstd_decompress (ps_compress s)) ps ∧ stream_rows ps = vs ∧
        (length ps ≤ length vs)%nat ∧
        (Z.of_nat (length body) ≤ u64_max → body = stream_bytes xxh3_64 ps)
  end.
Proof.
  intros Hinv Hutf Hany. unfold PropertyStream_finish. rewrite Hany.
  destruct (existsb is_value vs); cbn [negb]; [|by intros [= <-]]. intros H.
  apply result_bind_Ok in H as (s1 & Hs1 & H).
  apply (flush_batch_inv _ _ _ _ Hinv Hutf) in Hs1 as (Hc & _ & Hp & ps & [Hpay Hdir Hrows Hpages Hrc Hrf Hpc Hpf]).
  rewrite Hp, app_nil_r in Hrows.
  apply result_bind_Ok in H as (dl & Hdl%ok_or_Ok & H). apply checked_mul64_Some in Hdl as [-> _].
  destruct (_ =? _) in H; [|done].
  apply result_bind_Ok in H as (start & Hst%ok_or_Ok & H). apply checked_add64_Some in Hst as [-> Hst].
  apply result_bind_Ok in H as (out & Hout & H). apply Ok_inj in H as <-.
  rewrite Hc. split_and!; [done|done|]. exists ps.
  assert (length ps ≤ length vs)%nat.
  { rewrite <- Hrows. apply stream_pages_le. eapply Forall_impl; [apply Hpages|]. by intros p [? _]. }
  rewrite Hc in Hpages. split_and!; [done..|]. intros Hfit.
  rewrite Hpc, Nat2Z.id, Hdir in Hout. rewrite <- (length_page_entries xxh3_64 0 0 ps) in Hout at 1.
  rewrite length_app, Hpay in Hfit.
  apply rebase_directory_inv in Hout as ->; [|apply page_offsets_u64; [done|lia]].
  rewrite page_entries_rebased, Z.add_0_r, Hpay, Hrc, <- Hrows.
  unfold stream_bytes, payload_start. rewrite <- !(assoc_L (++)).
  replace (Z.of_nat PROPERTY_PAGES_HEADER_LEN + Z.of_nat (length ps) * Z.of_nat PROPERTY_PAGE_ENTRY_LEN)
    with (Z.of_nat (PROPERTY_PAGES_HEADER_LEN + PROPERTY_PAGE_ENTRY_LEN * length ps)) by lia.
  done.
Qed.
End Streams.
