(* ===== verification/EdgeImage.v ===== *)
(** The contents of an edge SST as buckets of records, their bytes, and reading them
    ([sst/edges/reader.rs]): what the reader answers when its
    sections are the tables of a list of buckets.

    [image] says that the sections, the footer's counts and the reader's cumulative
    table are those of the buckets. From it alone the lookups and the full scan are
    exact; [EdgeSst] shows that opening a finished body gives an image. *)
From S2P Require Import Prelude StorageError Bloom EdgeEncoding EdgeFormat EdgePages EdgeReader EdgeWriter EdgeSealed.

(** The contents as buckets.

    The records of an SST are a list of buckets, one per key. The blocks of the
    partner section, the offset and ordinal tables, the fence entries and the
    tombstone bitmap are functions of those buckets; [EdgeWriterInv] shows that the
    streaming writer's spools hold exactly them. *)

(** ** Buckets and their bytes *)

Record bucket := { bu_key : list byte; bu_edges : list EdgeRecord }.

Abbreviation partners_of := (map er_partner_id).

Definition record_ok (r : EdgeRecord) : Prop :=
  length (er_key_id r) = 16%nat ∧ length (er_partner_id r) = 16%nat ∧ is_u64 (er_lsn r)
  ∧ value_utf8 (er_overflow_json r) ∧ Forall value_utf8 (er_declared_properties r).

Definition bucket_ok (b : bucket) : Prop :=
  bu_edges b ≠ [] ∧ Forall (λ r, record_ok r ∧ er_key_id r = bu_key b) (bu_edges b)
  ∧ sorted_partners (partners_of (bu_edges b)).

Definition block_bytes (skew : nat) (b : bucket) : list byte :=
  partner_block_bytes (partners_of (bu_edges b)) (pick_block_tag (partners_of (bu_edges b)) skew).

Definition all_edges (bs : list bucket) : list EdgeRecord := concat (map bu_edges bs).
Definition partner_section (skew : nat) (bs : list bucket) : list byte := concat (map (block_bytes skew) bs).

(** Where each block starts, from [pos]. *)
Fixpoint block_starts (skew : nat) (pos : Z) (bs : list bucket) : list Z :=
  match bs with
  | [] => []
  | b :: rest => pos :: block_starts skew (pos + Z.of_nat (length (block_bytes skew b))) rest
  end.

(** The number of edges up to and including each bucket, from [n]. *)
Fixpoint ordinals (n : Z) (bs : list bucket) : list Z :=
  match bs with
  | [] => []
  | b :: rest =>
      let n := n + Z.of_nat (length (bu_edges b)) in n :: ordinals n rest
  end.

Definition le64s (zs : list Z) : list byte := concat (map (le_split 8) zs).

(** The fence entries the writer streams out, with its saturating offsets. *)
Fixpoint fence_spool (i stride : Z) (keys : list (list byte)) : list byte :=
  match keys with
  | [] => []
  | key :: rest =>
      (if i `mod` stride =? 0 then key ++ le_split 8 (saturating_mul64 i 16) else [])
      ++ fence_spool (i + 1) stride rest
  end.

(** The tombstone bitmap, least significant bit first. *)
Fixpoint bits_value (bits : list bool) : Z :=
  match bits with
  | [] => 0
  | b :: rest => Z.b2z b + 2 * bits_value rest
  end.

Lemma bits_value_testbit bits j :
  Z.testbit (bits_value bits) (Z.of_nat j) = default false (bits !! j).
Proof.
  revert j. induction bits as [|b bits IH]; intros j; [by rewrite Z.testbit_0_l|].
  cbn [bits_value]. rewrite Z.add_comm. destruct j as [|j].
  - by rewrite Z.testbit_0_r.
  - rewrite Nat2Z.inj_succ, Z.testbit_succ_r by lia. apply IH.
Qed.
Lemma bits_value_bound bits : 0 ≤ bits_value bits < 2 ^ Z.of_nat (length bits).
Proof.
  induction bits as [|b bits IH]; [done|]. cbn [bits_value length].
  rewrite Nat2Z.inj_succ, Z.pow_succ_r by lia. destruct b; simpl Z.b2z; lia.
Qed.
Lemma bits_value_snoc bits b :
  bits_value (bits ++ [b]) = bits_value bits + Z.b2z b * 2 ^ Z.of_nat (length bits).
Proof.
  induction bits as [|c bits IH]; [simpl; lia|]. cbn [app bits_value length]. rewrite IH.
  rewrite Nat2Z.inj_succ, Z.pow_succ_r by lia. lia.
Qed.

Lemma tombstone_bit_value chunk i :
  (length chunk ≤ 8)%nat →
  tombstone_bit (z2b (bits_value chunk)) i = default false (chunk !! (i `mod` 8)%nat).
Proof.
  intros Hl. unfold tombstone_bit. rewrite b2z_z2b_small.
  2:{ pose proof (bits_value_bound chunk). assert (2 ^ Z.of_nat (length chunk) ≤ 2 ^ 8); [|lia].
      apply Z.pow_le_mono_r; lia. }
  rewrite <- bits_value_testbit.
  replace (Z.land (Z.shiftr (bits_value chunk) (Z.of_nat (i `mod` 8))) 1)
    with (Z.b2z (Z.testbit (bits_value chunk) (Z.of_nat (i `mod` 8)))).
  - by destruct (Z.testbit _ _).
  - change 1 with (Z.ones 1). rewrite Z.land_ones by lia.
    rewrite Z.testbit_spec' by lia. by rewrite Z.shiftr_div_pow2 by lia.
Qed.

(** [bits] in octets: [full] ones, then the [rest]. *)
Record octets (bits : list bool) (full : list (list bool)) (rest : list bool) : Prop := {
  oc_split : bits = concat full ++ rest;
  oc_full : Forall (λ o, length o = 8%nat) full;
  oc_rest : (length rest < 8)%nat;
}.

Definition bitmap (full : list (list bool)) : list byte := map (λ o, z2b (bits_value o)) full.

Lemma concat_octets_lookup (full : list (list bool)) rest i :
  Forall (λ o, length o = 8%nat) full → (i < length (concat full ++ rest))%nat → (length rest ≤ 8)%nat →
  ∃ o, (full ++ [rest]) !! (i `div` 8)%nat = Some o ∧ (concat full ++ rest) !! i = o !! (i `mod` 8)%nat.
Proof.
  intros HF. revert i. induction HF as [|o full Ho HF IH]; intros i Hi Hr; cbn [concat app] in *.
  { exists rest. destruct (decide (i < 8)%nat).
    - by rewrite Nat.div_small, Nat.mod_small by lia.
    - lia. }
  destruct (decide (i < 8)%nat) as [Hlt|Hge].
  - exists o. rewrite Nat.div_small, Nat.mod_small by lia. split; [done|].
    rewrite <- (assoc_L (++)). by rewrite lookup_app_l by lia.
  - rewrite <- (assoc_L (++)) in *. rewrite length_app in Hi.
    destruct (IH (i - 8)%nat) as (o' & H1 & H2); [lia|done|]. exists o'.
    replace i with ((i - 8) + 1 * 8)%nat by lia. rewrite Nat.div_add, Nat.Div0.mod_add by lia.
    rewrite lookup_app_r by lia. rewrite Nat.add_1_r. cbn [lookup list_lookup]. split; [done|].
    by replace (i - 8 + 1 * 8 - length o)%nat with (i - 8)%nat by lia.
Qed.

(** ** The streamed split encoding *)

Lemma split_bytes_app prev ps qs :
  split_bytes prev (ps ++ qs)
  = split_bytes prev ps ++ split_bytes (from_option partner_top prev (last ps)) qs.
Proof.
  revert prev. induction ps as [|p ps IH]; intros prev; [done|]. cbn [app split_bytes].
  rewrite IH, <- !(assoc_L (++)). do 3 f_equal. rewrite last_cons. by destruct (last ps).
Qed.

Lemma copy_split_rows_spec ps prev out :
  Forall (λ p, is_partner p) ps →
  copy_split_rows (length ps) (concat ps) prev out
  = out ++ split_bytes (default 0 prev) ps.
Proof.
  intros HF. revert prev out. induction HF as [|p ps Hp HF IH]; intros prev out.
  { simpl. by rewrite app_nil_r. }
  cbn [length concat copy_split_rows split_bytes].
  rewrite take_app_length', drop_app_length' by done. rewrite IH, write_varint_app. cbn [fst default].
  change (le_combine (take 8 p)) with (partner_top p). cbn [from_option id].
  assert (match prev with Some previous => wrapping_sub64 (partner_top p) previous | None => partner_top p end
    = wrapping_sub64 (partner_top p) (default 0 prev)) as ->.
  { destruct prev; simpl; [done|]. symmetry. apply wrapping_sub64_0. by apply partner_top_u64. }
  assert (drop 8 p = le_split 8 (partner_bot p)) as ->.
  { unfold partner_bot. rewrite split_le_combine'; [done|]. rewrite length_drop. lia. }
  by rewrite <- !(assoc_L (++)), (left_id_L [] (++)).
Qed.

(** ** Tables of a longer list of buckets *)

Lemma block_starts_app skew pos bs b :
  block_starts skew pos (bs ++ [b])
  = block_starts skew pos bs ++ [pos + Z.of_nat (length (partner_section skew bs))].
Proof.
  revert pos. induction bs as [|c bs IH]; intros pos; [cbn; by rewrite Z.add_0_r|].
  cbn [app block_starts]. rewrite IH. unfold partner_section. cbn [map concat].
  rewrite length_app. do 3 f_equal. lia.
Qed.
Lemma ordinals_app n bs b :
  ordinals n (bs ++ [b]) = ordinals n bs ++ [n + Z.of_nat (length (all_edges (bs ++ [b])))].
Proof.
  revert n. induction bs as [|c bs IH]; intros n; cbn [app ordinals].
  { unfold all_edges. cbn. by rewrite app_nil_r. }
  rewrite IH. unfold all_edges. cbn [map concat]. rewrite (length_app (bu_edges c)). do 3 f_equal. lia.
Qed.
Lemma le64s_app xs ys : le64s (xs ++ ys) = le64s xs ++ le64s ys.
Proof. unfold le64s. by rewrite map_app, concat_app. Qed.
Lemma le64s_one x : le64s [x] = le_split 8 x.
Proof. apply app_nil_r. Qed.
Lemma fence_spool_app i stride ks k :
  fence_spool i stride (ks ++ [k])
  = fence_spool i stride ks
    ++ (if (i + Z.of_nat (length ks)) `mod` stride =? 0
        then k ++ le_split 8 (saturating_mul64 (i + Z.of_nat (length ks)) 16) else []).
Proof.
  revert i. induction ks as [|k' ks IH]; intros i; cbn [app fence_spool length].
  { by rewrite !app_nil_r, !Z.add_0_r. }
  rewrite IH, (assoc_L (++)). by replace (i + 1 + Z.of_nat (length ks)) with (i + Z.of_nat (S (length ks))) by lia.
Qed.
Lemma partner_section_app skew bs b :
  partner_section skew (bs ++ [b]) = partner_section skew bs ++ block_bytes skew b.
Proof. unfold partner_section. rewrite map_app, concat_app. cbn. by rewrite app_nil_r. Qed.
Lemma all_edges_app bs b : all_edges (bs ++ [b]) = all_edges bs ++ bu_edges b.
Proof. unfold all_edges. rewrite map_app, concat_app. cbn. by rewrite app_nil_r. Qed.

Lemma fence_entries_from_app i stride ks k :
  fence_entries_from i stride (ks ++ [k])
  = fence_entries_from i stride ks ++ fence_entries_from (i + Z.of_nat (length ks)) stride [k].
Proof.
  revert i. induction ks as [|k' ks IH]; intros i; cbn [app length]; [by rewrite Z.add_0_r|].
  cbn [fence_entries_from]. rewrite IH.
  replace (i + 1 + Z.of_nat (length ks)) with (i + Z.of_nat (S (length ks))) by lia.
  by destruct (_ =? _).
Qed.

Lemma octets_snoc bits full rest b :
  octets bits full rest →
  if (S (length rest) =? 8)%nat then octets (bits ++ [b]) (full ++ [rest ++ [b]]) []
  else octets (bits ++ [b]) full (rest ++ [b]).
Proof.
  intros [-> HF Hr]. destruct (Nat.eqb_spec (S (length rest)) 8) as [H8|H8].
  - split; [|apply Forall_app; split; [done|]|simpl; lia].
    + rewrite concat_app. cbn. by rewrite !app_nil_r, (assoc_L (++)).
    + constructor; [rewrite length_app; simpl; lia|constructor].
  - split; [by rewrite <- (assoc_L (++))|done|rewrite length_app; simpl; lia].
Qed.

Lemma bits_value_set bits (b : bool) :
  (if b then Z.lor (bits_value bits) (Z.shiftl 1 (Z.of_nat (length bits))) else bits_value bits)
  = bits_value (bits ++ [b]).
Proof.
  rewrite bits_value_snoc. pose proof (bits_value_bound bits) as Hb.
  destruct b; cbn [Z.b2z]; [|lia]. rewrite Z.mul_1_l, Z.shiftl_1_l.
  rewrite <- Z.add_lor_land. rewrite (Z.land_comm (bits_value bits)).
  assert (Z.land (2 ^ Z.of_nat (length bits)) (bits_value bits) = 0) as ->; [|lia].
  apply Z.bits_inj'. intros j Hj. rewrite Z.land_spec, Z.bits_0.
  destruct (decide (j = Z.of_nat (length bits))) as [->|Hne].
  - rewrite bits_value_testbit, (proj2 (lookup_ge_None bits (length bits))) by lia. cbn. apply andb_false_r.
  - by rewrite Z.pow2_bits_false.
Qed.

(** The tag the writer chooses from its running costs, and the block it streams:
    the ones of [write_partner_block]. *)
Lemma streamed_tag skew ps :
  Forall (λ p, is_partner p) ps → Z.of_nat (length ps) * 16 ≤ u64_max →
  (if (Z.of_nat skew <? Z.of_nat (length ps))
      || (Z.of_nat (length ps) * 16 <=? Z.of_nat (length (split_bytes 0 ps)))
   then TAG_DENSE else TAG_SPLIT) = pick_block_tag ps skew.
Proof.
  intros HF Hl. unfold pick_block_tag. rewrite split_block_cost_spec by done.
  unfold dense_block_cost, saturating_mul64. rewrite Z.min_l by lia.
  destruct (Z.ltb_spec (Z.of_nat skew) (Z.of_nat (length ps))), (Nat.ltb_spec skew (length ps)); (lia || done).
Qed.

Lemma streamed_block skew ps out :
  Forall (λ p, is_partner p) ps →
  let tag := pick_block_tag ps skew in
  let header := out ++ (write_varint (Z.of_nat (length ps)) []).1 ++ [z2b tag] in
  (if tag =? TAG_DENSE then header ++ concat ps
   else copy_split_rows (Z.to_nat (Z.of_nat (length ps))) (concat ps) None header)
  = out ++ partner_block_bytes ps tag.
Proof.
  intros HF tag. subst tag. cbv zeta. rewrite write_varint_app, Nat2Z.id. cbn [fst app].
  unfold partner_block_bytes.
  destruct (pick_block_tag_cases ps skew) as [-> | ->]; cbn [Z.eqb TAG_SPLIT TAG_DENSE Pos.eqb];
    [rewrite copy_split_rows_spec by done; cbn [default from_option]|];
    by rewrite <- !(assoc_L (++)).
Qed.

(** The offsets section: each value at the width of the table. *)
Definition offset_bytes (w : OffsetWidth) (x : Z) : list byte := take (OffsetWidth_bytes w) (le_split 8 x).
Definition offset_table (w : OffsetWidth) (xs : list Z) : list byte := concat (map (offset_bytes w) xs).

(** The block starts with the sentinel that ends the last block. *)
Definition starts_of (skew : nat) (bs : list bucket) : list Z :=
  block_starts skew 0 bs ++ [Z.of_nat (length (partner_section skew bs))].

Definition tombstones_of (rs : list EdgeRecord) : list bool := map er_tombstone rs.

(** A bitmap holds the flags [bits]. *)
Definition bitmap_holds (bytes : list byte) (bits : list bool) : Prop :=
  ∀ i b, bits !! i = Some b → ∃ byte, bytes !! (i `div` 8)%nat = Some byte ∧ tombstone_bit byte i = b.

(** The row a scan projects a record to. *)
Definition projection (r : EdgeRecord) : EdgeRowProjection :=
  {| ep_key_id := er_key_id r; ep_partner_id := er_partner_id r; ep_row_lsn := er_lsn r;
     ep_row_tombstone := er_tombstone r |}.

Record image (skew : nat) (bs : list bucket) (r : EdgeSstReader) : Prop := {
  im_buckets : Forall bucket_ok bs;
  im_sorted : sorted_keys (map bu_key bs);
  im_width : Z.of_nat (length (partner_section skew bs)) < 2 ^ OffsetWidth_as_bits (rd_offset_width r);
  im_key_count : ef_key_count (rd_footer r) = Z.of_nat (length bs);
  im_edge_count : ef_edge_count (rd_footer r) = Z.of_nat (length (all_edges bs));
  im_min_key : ∀ b, head bs = Some b → ef_min_key_id (rd_footer r) = bu_key b;
  im_max_key : ∀ b, last bs = Some b → ef_max_key_id (rd_footer r) = bu_key b;
  im_cumulative : rd_cumulative_edges r = 0 :: ordinals 0 bs;
  im_fence : match rd_fence_index r with
             | Some f => ∃ stride, f = FenceIndex_build (map bu_key bs) stride
             | None => True
             end;
  im_sections : ∀ h,
    reader_section h r SECTION_KEY_IDS [] = Ok (concat (map bu_key bs))
    ∧ reader_section h r SECTION_OFFSETS [] = Ok (offset_table (rd_offset_width r) (starts_of skew bs))
    ∧ reader_section h r SECTION_PARTNERS [] = Ok (partner_section skew bs)
    ∧ reader_section h r SECTION_PER_EDGE_LSN [] = Ok (le64s (map er_lsn (all_edges bs)));
  im_tombstones : ∀ h,
    if has_tombstones r
    then ∃ bytes, reader_section h r SECTION_PER_EDGE_TOMBSTONES [] = Ok bytes
                  ∧ bitmap_holds bytes (tombstones_of (all_edges bs))
    else Forall (λ e, er_tombstone e = false) (all_edges bs);
  im_fits : Z.of_nat (length (partner_section skew bs)) ≤ u64_max
            ∧ Z.of_nat (length (le64s (map er_lsn (all_edges bs)))) ≤ u64_max
            ∧ Z.of_nat (length (concat (map bu_key bs))) ≤ u64_max
            ∧ Z.of_nat (length (offset_table (rd_offset_width r) (starts_of skew bs))) ≤ u64_max;
}.

(** ** The tables at a position *)

Lemma block_starts_lookup skew pos pre b post :
  block_starts skew pos (pre ++ b :: post) !! length pre
  = Some (pos + Z.of_nat (length (partner_section skew pre))).
Proof.
  revert pos. induction pre as [|c pre IH]; intros pos; cbn [app length block_starts lookup list_lookup].
  { cbn. by rewrite Z.add_0_r. }
  rewrite IH. unfold partner_section. cbn [map concat]. rewrite length_app. f_equal. lia.
Qed.
Lemma length_block_starts skew pos bs : length (block_starts skew pos bs) = length bs.
Proof. revert pos. induction bs as [|b bs IH]; intros pos; [done|]. cbn. by rewrite IH. Qed.
Lemma length_ordinals n bs : length (ordinals n bs) = length bs.
Proof. revert n. induction bs as [|b bs IH]; intros n; [done|]. cbn. by rewrite IH. Qed.
Lemma ordinals_lookup n pre post :
  (n :: ordinals n (pre ++ post)) !! length pre = Some (n + Z.of_nat (length (all_edges pre))).
Proof.
  revert n. induction pre as [|c pre IH]; intros n; cbn [app length lookup list_lookup].
  { cbn. by rewrite Z.add_0_r. }
  cbn [ordinals]. rewrite IH. unfold all_edges. cbn [map concat]. rewrite length_app. f_equal. lia.
Qed.

(** The start of the block after [pre], whichever comes next. *)
Lemma starts_lookup skew pre post :
  starts_of skew (pre ++ post) !! length pre = Some (Z.of_nat (length (partner_section skew pre))).
Proof.
  unfold starts_of. destruct post as [|b post].
  - rewrite app_nil_r, lookup_app_r by (by rewrite length_block_starts).
    by rewrite length_block_starts, Nat.sub_diag.
  - rewrite lookup_app_l by (rewrite length_block_starts, length_app; cbn; lia).
    by rewrite block_starts_lookup.
Qed.

Lemma drop_concat_rows {A B} (f : A → list B) n (xs : list A) i x :
  (∀ y, length (f y) = n) → xs !! i = Some x →
  drop (i * n) (concat (map f xs)) = f x ++ concat (map f (drop (S i) xs)).
Proof.
  intros Hn. revert i. induction xs as [|y xs IH]; intros i Hi; [done|].
  destruct i as [|i]; cbn [lookup list_lookup] in Hi; [by injection Hi as ->|].
  cbn [map concat]. rewrite drop_app_ge by (rewrite Hn; lia).
  replace (S i * n - length (f y))%nat with (i * n)%nat by (rewrite Hn; lia). by rewrite IH.
Qed.

Lemma length_offset_bytes w x : length (offset_bytes w x) = OffsetWidth_bytes w.
Proof. unfold offset_bytes. rewrite length_take, length_le_split. by destruct w. Qed.

Lemma read_offset_table w xs i x :
  Z.of_nat (length (offset_table w xs)) ≤ u64_max → xs !! i = Some x →
  0 ≤ x < 2 ^ OffsetWidth_as_bits w →
  read_offset (offset_table w xs) (i * OffsetWidth_bytes w) w = Ok x.
Proof.
  intros Hfit Hi Hx.
  rewrite (read_offset_le_combine _ _ w (offset_bytes w x)
             (concat (map (offset_bytes w) (drop (S i) xs)))).
  - f_equal. by apply le_combine_offset.
  - exact Hfit.
  - apply length_offset_bytes.
  - apply drop_concat_rows; [apply length_offset_bytes|done].
Qed.

(** ** One key *)

Section Read.
Context (h : list byte → Z) (skew : nat) (bs : list bucket) (r : EdgeSstReader).
Hypothesis is_image : image skew bs r.

Lemma bucket_partners b : bucket_ok b → Forall (λ p, is_partner p) (partners_of (bu_edges b)).
Proof.
  intros (_ & HF & _). apply Forall_map. eapply Forall_impl; [apply HF|]. by intros e [(_ & Hp & _) _].
Qed.
Lemma bucket_at k b : bs !! k = Some b → bucket_ok b.
Proof. intros Hk. pose proof (im_buckets _ _ _ is_image) as HF. rewrite Forall_lookup in HF. eauto. Qed.
Lemma bucket_mid pre b post : bs = pre ++ b :: post → bucket_ok b.
Proof. intros Hbs. apply (bucket_at (length pre)). by rewrite Hbs, lookup_app_r, Nat.sub_diag by lia. Qed.

Lemma keys_partners : Forall (λ p, is_partner p) (map bu_key bs).
Proof.
  apply Forall_map. eapply Forall_impl; [apply (im_buckets _ _ _ is_image)|].
  intros c (Hne & HF & _). destruct (bu_edges c) as [|e es]; [done|].
  inversion HF as [|? ? [(Hk & _) <-] _]. exact Hk.
Qed.

Lemma bucket_split k b :
  bs !! k = Some b → ∃ pre post, bs = pre ++ b :: post ∧ length pre = k.
Proof.
  intros Hk. exists (take k bs), (drop (S k) bs). split; [symmetry; by apply take_drop_middle|].
  apply lookup_lt_Some in Hk. rewrite length_take. lia.
Qed.

(** The block of the [k]-th bucket, its bounds and its first edge. *)
Lemma bounds_at pre b post :
  bs = pre ++ b :: post →
  let start := length (partner_section skew pre) in
  read_offset (offset_table (rd_offset_width r) (starts_of skew bs))
    (length pre * OffsetWidth_bytes (rd_offset_width r)) (rd_offset_width r) = Ok (Z.of_nat start)
  ∧ block_bounds r (offset_table (rd_offset_width r) (starts_of skew bs)) (partner_section skew bs) (length pre)
    = Ok (start, (start + length (block_bytes skew b))%nat)
  ∧ drop start (partner_section skew bs) = block_bytes skew b ++ partner_section skew post.
Proof.
  intros Hbs start. pose proof (im_width _ _ _ is_image) as Hw.
  destruct (im_fits _ _ _ is_image) as (_ & _ & _ & Hfit).
  assert (partner_section skew bs = partner_section skew pre ++ block_bytes skew b ++ partner_section skew post)
    as Hps by (rewrite Hbs; unfold partner_section; by rewrite map_app, concat_app).
  assert (length (partner_section skew bs)
    = start + (length (block_bytes skew b) + length (partner_section skew post)))%nat as Hlen
    by (by rewrite Hps, !length_app).
  assert (read_offset (offset_table (rd_offset_width r) (starts_of skew bs))
    (length pre * OffsetWidth_bytes (rd_offset_width r)) (rd_offset_width r) = Ok (Z.of_nat start)) as H1.
  { apply read_offset_table; [done| |lia]. rewrite Hbs. apply starts_lookup. }
  split_and!; [exact H1| |rewrite Hps; by apply drop_app_length'].
  unfold block_bounds. rewrite H1. cbn [mbind result_bind].
  rewrite (read_offset_table _ _ _ (Z.of_nat (start + length (block_bytes skew b)))); [|done| |lia].
  - cbn [mbind result_bind]. destruct (Z.ltb_spec (Z.of_nat (start + length (block_bytes skew b))) (Z.of_nat start)),
      (Z.ltb_spec (Z.of_nat (length (partner_section skew bs))) (Z.of_nat (start + length (block_bytes skew b))));
      try lia. cbn [orb negb]. by rewrite !Nat2Z.id.
  - rewrite Hbs, cons_middle, (assoc_L (++)).
    replace (length pre + 1)%nat with (length (pre ++ [b])) by (by rewrite length_app).
    rewrite starts_lookup. by rewrite partner_section_app, length_app.
Qed.

Lemma cumulative_at pre b post :
  bs = pre ++ b :: post →
  index (rd_cumulative_edges r) (length pre) = Some (Ok (Z.of_nat (length (all_edges pre))))
  ∧ expected_degree r (length pre) = Some (Ok (Z.of_nat (length (bu_edges b)))).
Proof.
  intros Hbs. unfold expected_degree, index. rewrite (im_cumulative _ _ _ is_image), Hbs.
  rewrite ordinals_lookup, cons_middle, (assoc_L (++)).
  replace (length pre + 1)%nat with (length (pre ++ [b])) by (by rewrite length_app).
  rewrite ordinals_lookup, all_edges_app. split; [done|]. cbn [mbind outcome_bind lift].
  unfold checked_sub64. rewrite length_app.
  destruct (Z.leb_spec (0 + Z.of_nat (length (all_edges pre)))
    (0 + Z.of_nat (length (all_edges pre) + length (bu_edges b)))); [|lia].
  cbn. do 2 f_equal. lia.
Qed.

Lemma read_block_at env limit pre b post :
  bs = pre ++ b :: post → edge_decode_limit_bytes env = Ok limit → limit ≤ u64_max →
  Z.of_nat (length (bu_edges b)) * 16 ≤ limit →
  read_partner_block_expected env (partner_section skew bs) (length (partner_section skew pre))
    (Z.of_nat (length (bu_edges b)))
  = Ok (partners_of (bu_edges b), length (block_bytes skew b)).
Proof.
  intros Hbs Henv Hlim Hdeg. unfold read_partner_block_expected. rewrite Henv. cbn [mbind result_bind].
  destruct (bounds_at _ _ _ Hbs) as (_ & _ & Hdrop).
  pose proof (bucket_mid _ _ _ Hbs) as Hb.
  rewrite <- (length_map er_partner_id) in *.
  eapply read_partner_block_impl_spec; try done; [apply (im_fits _ _ _ is_image)|by apply bucket_partners| |auto].
  apply pick_block_tag_cases.
Qed.

(** ** The rows of a bucket *)

Lemma le64_row zs i z :
  Forall is_u64 zs → zs !! i = Some z →
  get_slice (le64s zs) (i * 8) (i * 8 + 8) = Some (le_split 8 z) ∧ le_combine (le_split 8 z) = z
  ∧ (i * 8 + 8 ≤ length (le64s zs))%nat.
Proof.
  intros HF Hi. rewrite Forall_lookup in HF. specialize (HF _ _ Hi).
  pose proof (drop_concat_rows (le_split 8) 8 zs i z (λ y, length_le_split 8 y) Hi) as Hd.
  fold (le64s zs) in Hd. pose proof (drop_length_le _ _ _ _ Hd) as Hl. rewrite length_le_split in Hl.
  assert (length (le64s zs) = 8 * length zs)%nat as Hlen by apply length_le_concat.
  apply lookup_lt_Some in Hi. split_and!; [|by apply le_combine_split_small|lia].
  rewrite get_slice_Some by lia. f_equal. by eapply slice_drop_app.
Qed.

Lemma read_lsns_spec zs n i xs ys :
  Forall is_u64 zs → Z.of_nat (length (le64s zs)) ≤ u64_max →
  drop i zs = xs ++ ys → n = length xs → read_lsns n i (le64s zs) = Ok xs.
Proof.
  intros HF Hfit. revert n i. induction xs as [|x xs IH]; intros n i Hd ->; [done|].
  assert (zs !! i = Some x) as Hx by (by rewrite <- (Nat.add_0_r i), <- lookup_drop, Hd).
  destruct (le64_row _ _ _ HF Hx) as (Hs & Hv & Hl). cbn [length read_lsns].
  rewrite (checked_mul64_le _ _ u64_max) by lia. cbn [ok_or mbind result_bind].
  replace (Z.to_nat (Z.of_nat i * 8)) with (i * 8)%nat by lia. rewrite Hs. cbn [ok_or mbind result_bind].
  rewrite (IH _ (S i)), Hv; [done| |done]. by rewrite <- Nat.add_1_r, <- drop_drop, Hd.
Qed.

Lemma read_tombstones_spec bytes bits n i xs ys :
  bitmap_holds bytes bits → drop i bits = xs ++ ys → n = length xs → read_tombstones n i bytes = Ok xs.
Proof.
  intros Hb. revert n i. induction xs as [|x xs IH]; intros n i Hd ->; [done|].
  assert (bits !! i = Some x) as Hx by (by rewrite <- (Nat.add_0_r i), <- lookup_drop, Hd).
  destruct (Hb _ _ Hx) as (byte & Hby & Hbit). cbn [length read_tombstones].
  rewrite Hby. cbn [ok_or mbind result_bind]. rewrite (IH _ (S i)); [by rewrite Hbit| |done].
  by rewrite <- Nat.add_1_r, <- drop_drop, Hd.
Qed.

Lemma project_rows_spec rs key es post i tomb :
  Forall is_u64 (map er_lsn rs) → drop i rs = es ++ post →
  match tomb with
  | Some bytes => bitmap_holds bytes (tombstones_of rs)
  | None => Forall (λ e, er_tombstone e = false) rs
  end →
  Forall (λ e, er_key_id e = key) es →
  project_edge_rows key (partners_of es) i (le64s (map er_lsn rs)) tomb = Some (Ok (map projection es)).
Proof.
  intros HF Hd Ht Hk. revert i Hd. induction Hk as [|e es Hke Hk IH]; intros i Hd; [done|].
  assert (rs !! i = Some e) as He by (by rewrite <- (Nat.add_0_r i), <- lookup_drop, Hd).
  destruct (le64_row (map er_lsn rs) i (er_lsn e) HF) as (Hs & Hv & _).
  { by rewrite list_lookup_fmap, He. }
  cbn [map project_edge_rows]. unfold index_range. rewrite Hs. cbn [mbind outcome_bind].
  rewrite (IH (S i)) by (by rewrite <- Nat.add_1_r, <- drop_drop, Hd).
  assert (tombstones_of rs !! i = Some (er_tombstone e)) as Hti by (unfold tombstones_of; by rewrite list_lookup_fmap, He).
  destruct tomb as [bytes|].
  - destruct (Ht _ _ Hti) as (byte & Hby & Hbit). unfold index. rewrite Hby. cbn [mbind outcome_bind mret outcome_ret].
    rewrite Hbit, Hv, <- Hke. done.
  - rewrite Forall_lookup in Ht. cbn [mbind outcome_bind mret outcome_ret]. rewrite Hv, <- Hke, <- (Ht _ _ He). done.
Qed.

Lemma edges_u64 : Forall is_u64 (map er_lsn (all_edges bs)).
Proof.
  apply Forall_map. unfold all_edges. apply Forall_concat, Forall_map.
  eapply Forall_impl; [apply (im_buckets _ _ _ is_image)|]. intros b (_ & HF & _).
  eapply Forall_impl; [apply HF|]. by intros e [(_ & _ & Hl & _) _].
Qed.
Lemma edges_at pre b post :
  bs = pre ++ b :: post → drop (length (all_edges pre)) (all_edges bs) = bu_edges b ++ all_edges post.
Proof. intros ->. unfold all_edges. rewrite map_app, concat_app. by rewrite drop_app_length. Qed.

(** ** The scan *)

Section Scan.
Context (env : EnvVar) (limit : Z).
Hypothesis env_limit : edge_decode_limit_bytes env = Ok limit.
Hypothesis limit_fits : limit ≤ u64_max.
Hypothesis blocks_fit : Forall (λ b, Z.of_nat (length (bu_edges b)) * 16 ≤ limit) bs.

Lemma block_fits pre b post : bs = pre ++ b :: post → Z.of_nat (length (bu_edges b)) * 16 ≤ limit.
Proof. intros Hbs. pose proof blocks_fit as HF. rewrite Hbs in HF. apply Forall_app in HF as [_ HF]. by inversion HF. Qed.

Lemma key_row pre b post :
  bs = pre ++ b :: post →
  get_slice (concat (map bu_key bs)) (length pre * 16) ((length pre + 1) * 16) = Some (bu_key b).
Proof.
  intros Hbs. pose proof keys_partners as HK.
  assert (map bu_key bs !! length pre = Some (bu_key b)) as Hk.
  { rewrite Hbs, list_lookup_fmap, lookup_app_r, Nat.sub_diag by lia. done. }
  pose proof (slice_concat_16 _ _ _ HK Hk) as Hs. pose proof (length_concat_partners _ HK) as Hl.
  apply lookup_lt_Some in Hk. rewrite get_slice_Some by lia. by rewrite Hs.
Qed.

Lemma key_edges_at pre b post :
  bs = pre ++ b :: post →
  EdgeSstReader_key_edges h env r (length pre) = Some (Ok (map projection (bu_edges b))).
Proof.
  intros Hbs. destruct (im_sections _ _ _ is_image h) as (Hki & Hof & Hpa & Hls).
  pose proof (im_tombstones _ _ _ is_image h) as Ht.
  unfold EdgeSstReader_key_edges. rewrite Hki, Hof, Hpa, Hls. cbn [lift mbind outcome_bind].
  destruct (bounds_at _ _ _ Hbs) as (Hstart & _ & _). destruct (cumulative_at _ _ _ Hbs) as (Hcum & Hdeg).
  destruct (bucket_mid _ _ _ Hbs) as (_ & HF & _).
  assert (Forall (λ e, er_key_id e = bu_key b) (bu_edges b)) as HK.
  { eapply Forall_impl; [apply HF|]. by intros e []. }
  destruct (has_tombstones r); [destruct Ht as (bytes & Hb & Ht); rewrite Hb|];
    cbn [lift mbind outcome_bind mret outcome_ret];
    rewrite (key_row _ _ _ Hbs); cbn [ok_or mbind outcome_bind]; rewrite Hstart; cbn [mbind outcome_bind];
    rewrite Hcum; cbn [mbind outcome_bind]; rewrite Hdeg; cbn [mbind outcome_bind]; rewrite !Nat2Z.id;
    rewrite (read_block_at env limit _ _ _ Hbs) by (done || by eapply block_fits); cbn [mbind outcome_bind];
    by eapply project_rows_spec; [apply edges_u64|by apply edges_at|..].
Qed.

Lemma scan_keys_spec pre post out :
  bs = pre ++ post →
  scan_keys h env (length post) (length pre) r out = Some (Ok (out ++ map projection (all_edges post))).
Proof.
  revert pre out. induction post as [|b post IH]; intros pre out Hbs; cbn [length scan_keys].
  { cbn. by rewrite app_nil_r. }
  rewrite (key_edges_at _ _ _ Hbs). cbn [mbind outcome_bind].
  replace (S (length pre)) with (length (pre ++ [b])) by (rewrite length_app; cbn; lia).
  rewrite IH by (by rewrite Hbs, <- (assoc_L (++))). unfold all_edges. cbn [map concat].
  by rewrite map_app, (assoc_L (++)).
Qed.

Lemma scan_image : EdgeSstReader_scan_all_edges h env r = Some (Ok (map projection (all_edges bs))).
Proof.
  unfold EdgeSstReader_scan_all_edges. rewrite (im_key_count _ _ _ is_image), Nat2Z.id.
  by apply (scan_keys_spec [] bs []).
Qed.
End Scan.

(** ** Key lookup *)

Lemma slice_concat_rows (rows : list (list byte)) lo hi :
  Forall (λ p, is_partner p) rows → (lo ≤ hi ≤ length rows)%nat →
  slice (concat rows) (lo * 16) (hi * 16) = concat (slice rows lo hi).
Proof.
  intros HF Hle. unfold slice. rewrite <- (take_drop lo rows) at 1. rewrite concat_app.
  assert (length (concat (take lo rows)) = lo * 16)%nat as Hl.
  { rewrite length_concat_partners, length_take by by apply Forall_take. lia. }
  rewrite drop_app_length' by done. rewrite <- (take_drop (hi - lo) (drop lo rows)) at 1. rewrite concat_app.
  apply take_app_length'. rewrite length_concat_partners, length_take, length_drop by by apply Forall_take, Forall_drop.
  lia.
Qed.

Lemma slice_lookup {A} (l : list A) lo hi i :
  (lo ≤ i < hi)%nat → slice l lo hi !! (i - lo)%nat = l !! i.
Proof. intros. unfold slice. rewrite lookup_take_lt, lookup_drop by lia. f_equal. lia. Qed.

Lemma sorted_slice keys lo hi : sorted_keys keys → sorted_partners (slice keys lo hi).
Proof.
  unfold sorted_keys, slice. intros HS. rewrite <- (take_drop lo keys) in HS. apply StronglySorted_app_1_r in HS.
  rewrite <- (take_drop (hi - lo) (drop lo keys)) in HS. by apply StronglySorted_app_1_l in HS.
Qed.

Lemma position_window keys key lo hi :
  sorted_keys keys → (lo ≤ hi ≤ length keys)%nat → (∀ i, keys !! i = Some key → lo ≤ i < hi)%nat →
  Nat.add lo <$> position_of key (slice keys lo hi) = position_of key keys.
Proof.
  intros HS Hle Hi.
  pose proof (sorted_slice _ lo hi HS) as HS'.
  destruct (decide (key ∈ keys)) as [Hin|Hin].
  - apply list_elem_of_lookup in Hin as [i Hk]. specialize (Hi _ Hk).
    rewrite (position_of_Some key keys i) by done.
    rewrite (position_of_Some key (slice keys lo hi) (i - lo)) by (done || by rewrite slice_lookup).
    cbn. f_equal. lia.
  - rewrite (position_of_None key keys) by done. rewrite position_of_None; [done|].
    unfold slice. intros Hin'. apply Hin. apply list_elem_of_lookup in Hin' as [j Hj].
    apply lookup_take_Some in Hj as [Hj _]. rewrite lookup_drop in Hj. by eapply list_elem_of_lookup_2.
Qed.

(** A key outside the footer's bounds is in no bucket. *)
Lemma outside_bounds key :
  bytes_cmp key (ef_min_key_id (rd_footer r)) = Lt ∨ bytes_cmp key (ef_max_key_id (rd_footer r)) = Gt →
  key ∉ map bu_key bs.
Proof.
  intros Hc Hin. apply list_elem_of_lookup in Hin as [i Hk].
  pose proof (im_sorted _ _ _ is_image) as HS. pose proof (lookup_lt_Some _ _ _ Hk) as Hi.
  rewrite length_map in Hi. destruct Hc as [Hc|Hc%bytes_cmp_gt].
  - destruct (lookup_lt_is_Some_2 bs 0) as [b Hb]; [lia|].
    rewrite (im_min_key _ _ _ is_image b) in Hc by (by destruct bs). change (bytes_lt key (bu_key b)) in Hc.
    pose proof (sorted_keys_index _ i 0 _ _ HS Hk (list_lookup_fmap_Some_2 bu_key bs 0 b Hb) Hc). lia.
  - destruct (lookup_lt_is_Some_2 bs (length bs - 1)) as [b Hb]; [lia|].
    rewrite (im_max_key _ _ _ is_image b) in Hc
      by (rewrite last_lookup; by replace (pred (length bs)) with (length bs - 1)%nat by lia).
    pose proof (sorted_keys_index _ (length bs - 1) i _ _ HS (list_lookup_fmap_Some_2 bu_key bs _ b Hb) Hk Hc). lia.
Qed.

(** The fence brackets the key, and without a fence the window is every key. *)
Lemma bracket_image key (keys := map bu_key bs) :
  let br := match rd_fence_index r with
            | Some fence => FenceIndex_bracket_for fence key (Z.of_nat (length bs))
            | None => (0, Z.of_nat (length bs))
            end in
  0 ≤ br.1 ≤ br.2 ∧ br.2 ≤ Z.of_nat (length keys) ∧ ∀ i, keys !! i = Some key → br.1 ≤ Z.of_nat i < br.2.
Proof.
  cbv zeta. pose proof (im_fence _ _ _ is_image) as Hf. destruct (rd_fence_index r) as [f|].
  - destruct Hf as [stride ->]. rewrite <- (length_map bu_key bs). fold keys.
    destruct (FenceIndex_bracket_for _ _ _) as [lo hi] eqn:Hbr.
    by apply (fence_bracket_spec _ _ _ _ _ (im_sorted _ _ _ is_image)) in Hbr.
  - cbn [fst snd]. subst keys. rewrite length_map. split_and!; [lia..|].
    intros i Hi%lookup_lt_Some. rewrite length_map in Hi. lia.
Qed.

Lemma position_of_image key :
  reader_position_of h r key = Ok (Z.of_nat <$> position_of key (map bu_key bs)).
Proof.
  unfold reader_position_of. cbv zeta.
  match goal with |- (if ?c then _ else _) = _ => destruct c eqn:Hc end.
  { rewrite position_of_None; [done|]. apply outside_bounds.
    apply orb_true_iff in Hc as [Hc|Hc]; repeat case_match; naive_solver. }
  destruct (im_sections _ _ _ is_image h) as (-> & _). cbn [mbind result_bind].
  rewrite (im_key_count _ _ _ is_image). pose proof (bracket_image key) as Hbr. cbv zeta in Hbr.
  set (br := match rd_fence_index r with Some _ => _ | None => _ end) in *.
  destruct Hbr as (Hb & Hbl & Hbi).
  clearbody br. destruct br as [lo hi]. cbn [fst snd] in *.
  rewrite <- (position_window _ key (Z.to_nat lo) (Z.to_nat hi) (im_sorted _ _ _ is_image))
    by (try lia; intros i Hi; specialize (Hbi _ Hi); lia).
  destruct (Z.eqb_spec lo hi) as [->|Hne].
  { unfold slice. by rewrite Nat.sub_diag. }
  pose proof (length_concat_partners _ keys_partners) as Hlc.
  destruct (im_fits _ _ _ is_image) as (_ & _ & Hkf & _).
  rewrite !(checked_mul64_le _ _ u64_max) by lia. cbn [ok_or mbind result_bind].
  destruct (Z.ltb_spec (Z.of_nat (length (concat (map bu_key bs)))) (Z.max (lo * 16) (hi * 16))); [lia|].
  rewrite !Z2Nat.inj_mul by lia. change (Z.to_nat 16) with 16%nat. rewrite get_slice_Some by lia.
  cbn [ok_or mbind result_bind]. rewrite slice_concat_rows by (lia || apply keys_partners).
  rewrite binary_search_fixed_16_spec; [|apply Forall_take, Forall_drop, keys_partners|apply sorted_slice, is_image].
  cbn [mbind result_bind]. f_equal. destruct (position_of _ _); cbn; [f_equal; lia|done].
Qed.

(** ** Lookups on the records *)

Lemma edges_without_key cs key :
  Forall bucket_ok cs → key ∉ map bu_key cs → Forall (λ e, er_key_id e ≠ key) (all_edges cs).
Proof.
  intros HF Hn. unfold all_edges. apply Forall_concat, Forall_map. rewrite Forall_forall in HF |- *.
  intros c Hc. destruct (HF _ Hc) as (_ & HE & _). eapply Forall_impl; [apply HE|].
  intros e [_ He] <-. apply Hn. rewrite He. by apply (list_elem_of_fmap_2 bu_key).
Qed.

Lemma bucket_other_keys pre b post :
  bs = pre ++ b :: post →
  Forall (λ e, er_key_id e ≠ bu_key b) (all_edges pre) ∧ Forall (λ e, er_key_id e ≠ bu_key b) (all_edges post).
Proof.
  intros Hbs. pose proof (im_buckets _ _ _ is_image) as HF. pose proof (im_sorted _ _ _ is_image) as HS.
  rewrite Hbs in HF, HS. unfold sorted_keys in HS. rewrite map_app in HS. cbn [map] in HS.
  apply Forall_app in HF as [HF1 HF2]. inversion HF2 as [|? ? _ HF3]; subst.
  split; apply edges_without_key; try done; intros Hin.
  - pose proof (StronglySorted_app_1_elem_of _ _ _ _ _ HS Hin (list_elem_of_here _ _)) as Hlt.
    by apply bytes_lt_irrefl in Hlt.
  - apply StronglySorted_app_1_r in HS. inversion HS as [|? ? _ Hall]; subst.
    rewrite Forall_forall in Hall. by apply Hall, bytes_lt_irrefl in Hin.
Qed.

Lemma bucket_key pre b post :
  bs = pre ++ b :: post → bucket_ok b ∧ Forall (λ e, er_key_id e = bu_key b) (bu_edges b).
Proof.
  intros Hbs. assert (bucket_ok b) as Hb.
  { apply (bucket_at (length pre)). rewrite Hbs. by rewrite lookup_app_r, Nat.sub_diag by lia. }
  split; [done|]. destruct Hb as (_ & HF & _). eapply Forall_impl; [apply HF|]. by intros e [].
Qed.

Lemma edges_split pre b post : bs = pre ++ b :: post → all_edges bs = all_edges pre ++ bu_edges b ++ all_edges post.
Proof. intros ->. unfold all_edges. by rewrite map_app, concat_app. Qed.

Lemma filter_none {A} (P : A → Prop) `{∀ x, Decision (P x)} l : Forall (λ x, ¬ P x) l → filter P l = [].
Proof. induction 1 as [|x l Hx HF IH]; [done|]. by rewrite filter_cons, decide_False. Qed.
Lemma filter_all {A} (P : A → Prop) `{∀ x, Decision (P x)} l : Forall P l → filter P l = l.
Proof. induction 1 as [|x l Hx HF IH]; [done|]. by rewrite filter_cons, decide_True, IH. Qed.
Lemma list_find_skip {A} (P : A → Prop) `{∀ x, Decision (P x)} l1 l2 :
  Forall (λ x, ¬ P x) l1 → list_find P (l1 ++ l2) = prod_map (Nat.add (length l1)) id <$> list_find P l2.
Proof. intros HF. rewrite list_find_app_r by (by apply list_find_None). destruct (list_find P l2) as [[i x]|]; [|done]. cbn. by rewrite Nat.add_comm. Qed.

Lemma bucket_filter pre b post :
  bs = pre ++ b :: post → filter (λ e, er_key_id e = bu_key b) (all_edges bs) = bu_edges b.
Proof.
  intros Hbs. destruct (bucket_other_keys _ _ _ Hbs) as [Hpre Hpost]. destruct (bucket_key _ _ _ Hbs) as [_ HK].
  rewrite (edges_split _ _ _ Hbs), !filter_app.
  by rewrite (filter_none _ (all_edges pre)), (filter_none _ (all_edges post)), filter_all, app_nil_r.
Qed.

(** The rows a key has, and the first of them. *)
Definition lookup_rows (rs : list EdgeRecord) (key : list byte) : option EdgeLookup :=
  match list_find (λ e, er_key_id e = key) rs with
  | None => None
  | Some (i, _) =>
      let es := filter (λ e, er_key_id e = key) rs in
      Some {| el_partners := partners_of es; el_lsns := map er_lsn es; el_tombstones := map er_tombstone es;
              el_edge_offset := i |}
  end.

(** The row of one edge. *)
Definition lookup_edge (rs : list EdgeRecord) (key partner : list byte) : option EdgePointLookup :=
  match list_find (λ e, er_key_id e = key ∧ er_partner_id e = partner) rs with
  | None => None
  | Some (i, e) => Some {| epl_lsn := er_lsn e; epl_tombstone := er_tombstone e; epl_edge_offset := i |}
  end.

Lemma lookup_rows_bucket pre b post :
  bs = pre ++ b :: post →
  lookup_rows (all_edges bs) (bu_key b)
  = Some {| el_partners := partners_of (bu_edges b); el_lsns := map er_lsn (bu_edges b);
            el_tombstones := map er_tombstone (bu_edges b); el_edge_offset := length (all_edges pre) |}.
Proof.
  intros Hbs. destruct (bucket_other_keys _ _ _ Hbs) as [Hpre Hpost].
  destruct (bucket_key _ _ _ Hbs) as [(Hne & _ & _) HK]. unfold lookup_rows.
  rewrite (bucket_filter _ _ _ Hbs), (edges_split _ _ _ Hbs), list_find_skip by done.
  destruct (bu_edges b) as [|e es]; [done|]. cbn [app list_find]. inversion HK; subst.
  rewrite decide_True by done. cbn. by rewrite Nat.add_0_r.
Qed.

Lemma lookup_rows_absent key : key ∉ map bu_key bs → lookup_rows (all_edges bs) key = None.
Proof.
  intros Hn. unfold lookup_rows. assert (list_find (λ e, er_key_id e = key) (all_edges bs) = None) as ->; [|done].
  apply list_find_None. apply edges_without_key; [apply is_image|done].
Qed.

Lemma lookup_edge_bucket pre b post partner :
  bs = pre ++ b :: post →
  lookup_edge (all_edges bs) (bu_key b) partner
  = match position_of partner (partners_of (bu_edges b)) with
    | Some j => match bu_edges b !! j with
                | Some e => Some {| epl_lsn := er_lsn e; epl_tombstone := er_tombstone e;
                                    epl_edge_offset := length (all_edges pre) + j |}
                | None => None
                end
    | None => None
    end.
Proof.
  intros Hbs. destruct (bucket_other_keys _ _ _ Hbs) as [Hpre Hpost].
  destruct (bucket_key _ _ _ Hbs) as [(_ & _ & HS) HK]. unfold lookup_edge.
  rewrite (edges_split _ _ _ Hbs), list_find_skip by (eapply Forall_impl; [apply Hpre|]; naive_solver).
  destruct (decide (partner ∈ partners_of (bu_edges b))) as [Hin|Hout].
  - apply list_elem_of_lookup in Hin as [j Hj]. rewrite (position_of_Some _ _ j) by done.
    apply list_lookup_fmap_Some in Hj as (e & -> & He). rewrite He.
    assert (list_find (λ e', er_key_id e' = bu_key b ∧ er_partner_id e' = er_partner_id e)
      (bu_edges b ++ all_edges post) = Some (j, e)) as ->; [|done].
    apply list_find_Some. split_and!.
    + by apply lookup_app_l_Some.
    + rewrite Forall_lookup in HK. eauto.
    + done.
    + intros i x Hx Hlt [_ Hp]. rewrite lookup_app_l in Hx by (apply lookup_lt_Some in He; lia).
      pose proof (StronglySorted_lookup_lt _ _ i j _ _ HS (list_lookup_fmap_Some_2 er_partner_id _ _ _ Hx)
        (list_lookup_fmap_Some_2 er_partner_id _ _ _ He) Hlt) as Hb. rewrite Hp in Hb. by apply bytes_lt_irrefl in Hb.
  - rewrite position_of_None by done.
    assert (list_find (λ e', er_key_id e' = bu_key b ∧ er_partner_id e' = partner)
      (bu_edges b ++ all_edges post) = None) as ->; [|done].
    apply list_find_None, Forall_app. split; [|eapply Forall_impl; [apply Hpost|]; naive_solver].
    apply Forall_forall. intros e He [_ <-]. apply Hout. by apply (list_elem_of_fmap_2 er_partner_id).
Qed.

(** A key is absent, or it is the key of one bucket. *)
Lemma position_cases key :
  (position_of key (map bu_key bs) = None ∧ key ∉ map bu_key bs)
  ∨ ∃ pre b post, bs = pre ++ b :: post ∧ key = bu_key b ∧ position_of key (map bu_key bs) = Some (length pre).
Proof.
  destruct (decide (key ∈ map bu_key bs)) as [Hin|Hin]; [right|left; by rewrite position_of_None].
  apply list_elem_of_lookup in Hin as [k Hk]. rewrite (position_of_Some _ _ _ (im_sorted _ _ _ is_image) Hk).
  apply list_lookup_fmap_Some in Hk as (b & -> & Hb). destruct (bucket_split _ _ Hb) as (pre & post & Hbs & <-).
  by exists pre, b, post.
Qed.

Lemma tombstones_at n pre b post xs ys :
  bs = pre ++ b :: post → bu_edges b = xs ++ ys → n = length xs →
  ((if has_tombstones r then
      tomb_bytes ← lift (reader_section h r SECTION_PER_EDGE_TOMBSTONES []);
      lift (read_tombstones n (length (all_edges pre)) tomb_bytes)
    else mret (replicate n false)) : outcome (list bool))
  = Some (Ok (map er_tombstone xs)).
Proof.
  intros Hbs Hxs ->. pose proof (im_tombstones _ _ _ is_image h) as Ht.
  pose proof (edges_at _ _ _ Hbs) as Hd. rewrite Hxs, <- (assoc_L (++)) in Hd.
  destruct (has_tombstones r).
  - destruct Ht as (bytes & -> & Hb). cbn [lift mbind outcome_bind].
    rewrite (read_tombstones_spec _ _ _ _ (map er_tombstone xs) (map er_tombstone (ys ++ all_edges post)) Hb);
      [done| |by rewrite length_map].
    unfold tombstones_of. by rewrite <- fmap_drop, Hd, fmap_app.
  - assert (map er_tombstone xs = replicate (length xs) false) as ->; [|done]. apply (Forall_drop _ (length (all_edges pre))) in Ht. rewrite Hd in Ht.
    apply Forall_app in Ht as [Ht _]. clear -Ht. induction Ht as [|e xs He Ht IH]; [done|].
    cbn. by rewrite He, IH.
Qed.

Lemma lsns_at n pre b post xs ys :
  bs = pre ++ b :: post → bu_edges b = xs ++ ys → n = length xs →
  read_lsns n (length (all_edges pre)) (le64s (map er_lsn (all_edges bs))) = Ok (map er_lsn xs).
Proof.
  intros Hbs Hxs ->. pose proof (edges_at _ _ _ Hbs) as Hd. rewrite Hxs, <- (assoc_L (++)) in Hd.
  apply (read_lsns_spec _ _ _ _ (map er_lsn (ys ++ all_edges post)));
    [apply edges_u64|apply (im_fits _ _ _ is_image)| |by rewrite length_map].
  change (map er_lsn (all_edges bs)) with (er_lsn <$> all_edges bs). by rewrite <- fmap_drop, Hd, fmap_app.
Qed.

Lemma lookup_image env limit key :
  edge_decode_limit_bytes env = Ok limit → limit ≤ u64_max →
  Z.of_nat (length (filter (λ e, er_key_id e = key) (all_edges bs))) * 16 ≤ limit →
  EdgeSstReader_lookup h env r key = Some (Ok (lookup_rows (all_edges bs) key)).
Proof.
  intros Henv Hlim Hdeg. unfold EdgeSstReader_lookup. rewrite position_of_image. cbn [lift mbind outcome_bind].
  destruct (position_cases key) as [[-> Hn]|(pre & b & post & Hbs & -> & ->)].
  { cbn. by rewrite lookup_rows_absent. }
  pose proof (lookup_rows_bucket _ _ _ Hbs) as Hrows.
  rewrite (bucket_filter _ _ _ Hbs) in Hdeg. rewrite Hrows. cbn [fmap option_fmap option_map]. rewrite Nat2Z.id.
  destruct (im_sections _ _ _ is_image h) as (_ & -> & -> & ->). cbn [lift mbind outcome_bind].
  destruct (bounds_at _ _ _ Hbs) as (_ & -> & _). destruct (cumulative_at _ _ _ Hbs) as (Hcum & ->).
  cbn [mbind outcome_bind]. rewrite (read_block_at env limit _ _ _ Hbs) by done. cbn [mbind outcome_bind].
  rewrite Nat.eqb_refl. cbn [negb]. rewrite Hcum. cbn [mbind outcome_bind]. rewrite Nat2Z.id, length_map.
  rewrite (lsns_at _ _ _ _ (bu_edges b) [] Hbs) by (done || by rewrite app_nil_r). cbn [mbind outcome_bind].
  pose proof (tombstones_at _ _ _ _ (bu_edges b) [] Hbs ltac:(by rewrite app_nil_r) eq_refl) as Ht.
  cbn [lift mbind outcome_bind] in Ht. by rewrite Ht.
Qed.

Lemma row_in_bucket pre b post i e :
  bs = pre ++ b :: post → bu_edges b !! i = Some e →
  (length (all_edges pre) + i < length (all_edges bs))%nat
  ∧ read_lsns 1 (length (all_edges pre) + i) (le64s (map er_lsn (all_edges bs))) = Ok [er_lsn e]
  ∧ ((if has_tombstones r then
        tomb_bytes ← lift (reader_section h r SECTION_PER_EDGE_TOMBSTONES []);
        lift (read_tombstones 1 (length (all_edges pre) + i) tomb_bytes)
      else mret [false]) : outcome (list bool)) = Some (Ok [er_tombstone e]).
Proof.
  intros Hbs He. pose proof (edges_at _ _ _ Hbs) as Hd.
  assert (all_edges bs !! (length (all_edges pre) + i)%nat = Some e) as Hi.
  { rewrite <- lookup_drop, Hd. by apply lookup_app_l_Some. }
  pose proof (drop_S _ _ _ Hi) as Hdi. split; [by eapply lookup_lt_Some|]. split.
  - apply (read_lsns_spec _ _ _ _ (map er_lsn (drop (S (length (all_edges pre) + i)) (all_edges bs))));
      [apply edges_u64|apply (im_fits _ _ _ is_image)| |done].
    change (map er_lsn (all_edges bs)) with (er_lsn <$> all_edges bs). by rewrite <- fmap_drop, Hdi.
  - pose proof (im_tombstones _ _ _ is_image h) as Ht. destruct (has_tombstones r).
    + destruct Ht as (bytes & -> & Hb). cbn [lift mbind outcome_bind].
      rewrite (read_tombstones_spec _ _ _ _ [er_tombstone e]
        (map er_tombstone (drop (S (length (all_edges pre) + i)) (all_edges bs))) Hb); [done| |done].
      unfold tombstones_of. change (map er_tombstone (all_edges bs)) with (er_tombstone <$> all_edges bs).
      by rewrite <- fmap_drop, Hdi.
    + rewrite Forall_lookup in Ht. by rewrite (Ht _ _ Hi).
Qed.

Lemma lookup_partner_image key partner :
  Z.of_nat (length (all_edges bs)) ≤ u64_max →
  EdgeSstReader_lookup_partner h r key partner = Some (Ok (lookup_edge (all_edges bs) key partner)).
Proof.
  intros Hfit. unfold EdgeSstReader_lookup_partner. rewrite position_of_image. cbn [lift mbind outcome_bind].
  destruct (position_cases key) as [[-> Hn]|(pre & b & post & Hbs & -> & ->)].
  { cbn. unfold lookup_edge.
    assert (list_find (λ e, er_key_id e = key ∧ er_partner_id e = partner) (all_edges bs) = None) as ->; [|done].
    apply list_find_None. eapply Forall_impl; [apply (edges_without_key _ key); [apply is_image|done]|]. naive_solver. }
  rewrite (lookup_edge_bucket _ _ _ _ Hbs). cbn [fmap option_fmap option_map]. rewrite Nat2Z.id.
  destruct (im_sections _ _ _ is_image h) as (_ & -> & -> & ->). cbn [lift mbind outcome_bind].
  destruct (bounds_at _ _ _ Hbs) as (_ & -> & Hdrop). destruct (cumulative_at _ _ _ Hbs) as (Hcum & _).
  cbn [mbind outcome_bind]. destruct (bucket_key _ _ _ Hbs) as [Hb _].
  assert (length (bu_edges b) ≤ length (all_edges bs))%nat as Hlen.
  { rewrite (edges_split _ _ _ Hbs), !length_app. lia. }
  rewrite (slice_drop_app _ (block_bytes skew b) (partner_section skew post)) by done.
  assert (Z.of_nat (length (block_bytes skew b)) ≤ usize_max) as Hbf.
  { destruct (im_fits _ _ _ is_image) as [Hpf _]. apply drop_length_le in Hdrop. unfold usize_max. lia. }
  rewrite (find_partner_in_block_bytes _ 0 (partners_of (bu_edges b))
    (pick_block_tag (partners_of (bu_edges b)) skew) partner []);
    [|done|by apply bucket_partners|apply Hb|rewrite length_map; unfold usize_max; lia|apply pick_block_tag_cases|].
  2:{ by rewrite app_nil_r. }
  cbn [mbind outcome_bind]. destruct (position_of partner _) as [j|] eqn:Hj; [|done].
  rewrite Hcum. cbn [mbind outcome_bind]. rewrite Nat2Z.id.
  assert (∃ e, bu_edges b !! j = Some e) as [e He].
  { unfold position_of in Hj. apply fmap_Some in Hj as ([j' p] & Hf & ->). apply list_find_Some in Hf as (Hf & _).
    apply list_lookup_fmap_Some in Hf as (e & _ & He). by exists e. }
  destruct (row_in_bucket _ _ _ _ _ Hbs He) as (Hlt & Hls & Ht). rewrite He, (im_edge_count _ _ _ is_image).
  destruct (Z.leb_spec (Z.of_nat (length (all_edges bs))) (Z.of_nat (length (all_edges pre) + j))); [lia|].
  rewrite Hls. cbn [lift mbind outcome_bind] in Ht |- *. by rewrite Ht.
Qed.
End Read.
