(* ===== verification/EdgeWriterInv.v ===== *)
(** The invariant of the streaming edge SST writer ([sst/edges/writer.rs]).

    The records appended so far are a list of closed buckets followed by the records
    of the open one. Each spool, counter and property stream of the writer is a
    function of those, the Bloom filter holds every key, and [append] and
    [flush_current_bucket] keep it so. *)
From S2P Require Import Prelude StorageError Bloom EdgeEncoding EdgeFormat EdgePages EdgeReader EdgeWriter EdgeSealed EdgeImage.

(** ** The writer's invariant *)

Definition open_key (cur : list EdgeRecord) : list (list byte) :=
  match cur with [] => [] | r :: _ => [er_key_id r] end.
Definition open_bucket (cur : list EdgeRecord) : list bucket :=
  match cur with [] => [] | r :: _ => [{| bu_key := er_key_id r; bu_edges := cur |}] end.
Definition all_keys (closed : list bucket) (cur : list EdgeRecord) : list (list byte) :=
  map bu_key closed ++ open_key cur.

(** Column [j] of the declared properties. *)
Definition column (j : nat) (rs : list EdgeRecord) : list PropValue :=
  map (λ r, nth j (er_declared_properties r) None) rs.
Definition overflow_column (rs : list EdgeRecord) : list PropValue := map er_overflow_json rs.

Record bucket_inv (b : Bucket) (cur : list EdgeRecord) : Prop := {
  bi_partners : bk_partners b = concat (partners_of cur);
  bi_degree : bk_degree b = Z.of_nat (length cur);
  bi_split_cost : bk_split_cost b = Z.of_nat (length (split_bytes 0 (partners_of cur)));
  bi_prev_top : bk_prev_top b = partner_top <$> last (partners_of cur);
  bi_last : bk_last_partner b = last (partners_of cur);
}.

Record spools_inv (skew : nat) (stride : Z) (sp : Spools) (closed : list bucket) (rs : list EdgeRecord)
    : Prop := {
  pi_partners : sp_partners sp = partner_section skew closed;
  pi_raw_offsets : sp_raw_offsets sp = le64s (block_starts skew 0 closed);
  pi_ordinals : (sp_ordinals_started sp, sp_edge_ordinals sp)
    = match closed with [] => (false, []) | _ => (true, le64s (0 :: ordinals 0 closed)) end;
  pi_key_ids : sp_key_ids sp = concat (map bu_key closed);
  pi_fence : sp_fence_entries sp = fence_spool 0 stride (map bu_key closed);
  pi_fence_count : sp_fence_entry_count sp
    = Z.of_nat (length (fence_entries_from 0 stride (map bu_key closed)));
  pi_fence_fits : sp_fence_entry_count sp ≤ u32_max;
  pi_lsns : sp_lsns sp = le64s (map er_lsn rs);
  pi_tombstones : ∃ full rest, octets (map er_tombstone rs) full rest ∧ sp_tombstones sp = bitmap full
    ∧ sp_tombstone_live_byte sp = bits_value rest ∧ sp_tombstone_live_bits sp = Z.of_nat (length rest);
}.

Record counters_inv (skew : nat) (ct : Counters) (closed : list bucket) (rs : list EdgeRecord) : Prop := {
  ci_key_count : ct_key_count ct = Z.of_nat (length closed);
  ci_edge_count : ct_edge_count ct = Z.of_nat (length rs);
  ci_tombstones : ct_tombstone_count ct
    = Z.of_nat (length (filter (λ r, er_tombstone r = true) rs));
  ci_min_lsn : ct_min_lsn ct = fold_left Z.min (map er_lsn rs) u64_max;
  ci_max_lsn : ct_max_lsn ct = fold_left Z.max (map er_lsn rs) 0;
  ci_skew : ct_any_skew_block ct
    = existsb (λ b, (skew <? length (bu_edges b))%nat) closed;
  ci_histogram : ct_degree_histogram ct
    = fold_left DegreeHistogram_observe (map (λ b, Z.of_nat (length (bu_edges b))) closed)
        DegreeHistogram_empty;
  ci_min_key : ct_min_key_id ct = head (map bu_key closed);
  ci_max_key : ct_max_key_id ct = last (map bu_key closed);
}.

Section WriterInv.
Context (xxh3_64 : list byte → Z).
Context (zstd_encode : list byte → option (list byte)) (zstd_decompress : list byte → Z → option (list byte)).
Hypothesis xxh3_64_u64 : ∀ bs, is_u64 (xxh3_64 bs).
Hypothesis zstd_law : ∀ raw enc,
  zstd_encode raw = Some enc → zstd_decompress enc (Z.of_nat (length raw)) = Some raw.
Context `{PJ : PropertyJson, PI : EdgePointIndex} (crc32 : list byte → Z).
Context (opts : EdgeSstWriterOptions) (id : list byte).

Definition skew_of : nat := default DEFAULT_SKEW_THRESHOLD (eo_skew_threshold opts).
Definition stride_of : Z := Z.max (eo_fence_stride opts) 1.

(** A property stream holds a column. *)
Definition holds (s : PropertyStream) (vs : list PropValue) : Prop :=
  ps_compress s = eo_compress_property_streams opts ∧ ps_any_value s = existsb is_value vs
  ∧ ∃ pages, stream_inv xxh3_64 zstd_decompress s vs pages.

Record writer_inv (w : EdgeSstWriter) (closed : list bucket) (cur : list EdgeRecord) : Prop := {
  wi_options : ew_options w = opts;
  wi_id : ew_sst_id w = id;
  wi_skew : ew_skew_threshold w = skew_of;
  wi_closed : Forall bucket_ok closed;
  wi_cur : Forall (λ r, record_ok r ∧ open_key cur = [er_key_id r]) cur;
  wi_cur_sorted : sorted_partners (partners_of cur);
  wi_sorted : sorted_keys (all_keys closed cur);
  wi_key : bk_key (ew_bucket w) = last (all_keys closed cur);
  wi_bucket : bucket_inv (ew_bucket w) cur;
  wi_spools : spools_inv skew_of stride_of (ew_spools w) closed (all_edges closed ++ cur);
  wi_counters : counters_inv skew_of (ew_counters w) closed (all_edges closed ++ cur);
  wi_overflow : holds (ew_overflow w) (overflow_column (all_edges closed ++ cur));
  wi_declared : length (ew_declared_streams w) = length (eo_declared_properties opts);
  wi_columns : ∀ j s, ew_declared_streams w !! j = Some s → holds s (column j (all_edges closed ++ cur));
  wi_bloom : insert_all xxh3_64 (BloomFilter_with_capacity (Z.max (eo_expected_keys opts) 1)
                 (Z.max (eo_bits_per_key opts) 1)) (all_keys closed cur) = Some (ew_bloom w);
}.

Lemma writer_new_inv max_entry max_sst : writer_inv (EdgeSstWriter_new opts id max_entry max_sst) [] [].
Proof.
  assert (∀ name, holds (PropertyStream_new name (eo_compress_property_streams opts)) []) as Hh.
  { intros name. split_and!; [done..|]. exists []. apply stream_new_inv. }
  split; try done.
  - constructor.
  - constructor.
  - split; try done. exists [], []. split_and!; [by split; [| |cbn; lia]|done..].
  - apply Hh.
  - cbn. by rewrite length_map.
  - intros j s Hs. cbn in Hs. apply list_lookup_fmap_Some in Hs as (name & -> & _). apply Hh.
Qed.

Lemma open_records_partners closed cur w :
  writer_inv w closed cur → Forall (λ p, is_partner p) (partners_of cur).
Proof.
  intros Hw. apply Forall_map. eapply Forall_impl; [apply (wi_cur _ _ _ Hw)|].
  intros r [(_ & Hp & _) _]. exact Hp.
Qed.

(** Every bucket has an edge, and the rows are counted in 64 bits. *)
Lemma closed_le_edges closed : Forall bucket_ok closed → (length closed ≤ length (all_edges closed))%nat.
Proof.
  induction 1 as [|b bs (Hne & _) HF IH]; [done|]. unfold all_edges. cbn [map concat length].
  rewrite length_app. destruct (bu_edges b); [done|]. unfold all_edges in IH. simpl. lia.
Qed.
Lemma rows_fit s vs : holds s vs → Z.of_nat (length vs) ≤ u64_max.
Proof. intros (_ & _ & pages & Hi). apply Hi. Qed.
Lemma edges_fit w closed cur :
  writer_inv w closed cur → Z.of_nat (length (all_edges closed ++ cur)) ≤ u64_max.
Proof.
  intros Hw. pose proof (rows_fit _ _ (wi_overflow _ _ _ Hw)) as Hf.
  unfold overflow_column in Hf. by rewrite length_map in Hf.
Qed.

(** ** Closing the bucket *)

Lemma flush_counters skew ct closed b rs :
  counters_inv skew ct closed rs → rs = all_edges (closed ++ [b]) → Forall bucket_ok (closed ++ [b]) →
  Z.of_nat (length rs) ≤ u64_max →
  counters_inv skew
    {| ct_key_count := wrapping_add64 (ct_key_count ct) 1;
       ct_edge_count := ct_edge_count ct;
       ct_tombstone_count := ct_tombstone_count ct;
       ct_min_lsn := ct_min_lsn ct;
       ct_max_lsn := ct_max_lsn ct;
       ct_any_skew_block := (Z.of_nat skew <? Z.of_nat (length (bu_edges b))) || ct_any_skew_block ct;
       ct_degree_histogram :=
         DegreeHistogram_observe (ct_degree_histogram ct) (Z.of_nat (length (bu_edges b)));
       ct_min_key_id := match ct_min_key_id ct with Some k => Some k | None => Some (bu_key b) end;
       ct_max_key_id := Some (bu_key b) |} (closed ++ [b]) rs.
Proof.
  intros [Hk He Ht Hmin Hmax Hs Hh Hmk Hxk] Hrs HF Hfit. split; cbn [ct_key_count ct_edge_count
    ct_tombstone_count ct_min_lsn ct_max_lsn ct_any_skew_block ct_degree_histogram ct_min_key_id ct_max_key_id];
    try done.
  - rewrite Hk. unfold wrapping_add64. pose proof (closed_le_edges _ HF) as Hle.
    rewrite <- Hrs in Hle. rewrite length_app in *. cbn [length] in *. rewrite Z.mod_small; [lia|].
    unfold u64_max in Hfit. lia.
  - rewrite existsb_app, Hs. cbn [existsb]. rewrite orb_false_r, orb_comm. f_equal.
    destruct (Z.ltb_spec (Z.of_nat skew) (Z.of_nat (length (bu_edges b)))),
      (Nat.ltb_spec skew (length (bu_edges b))); (lia || done).
  - by rewrite map_app, fold_left_app, Hh.
  - rewrite Hmk, map_app. by destruct closed.
  - rewrite map_app. cbn [map]. by rewrite last_snoc.
Qed.

Lemma flush_spools skew stride sp closed b rs fence_entries fence_count tag dense key_count edge_count :
  spools_inv skew stride sp closed rs → rs = all_edges (closed ++ [b]) → bucket_ok b →
  key_count = Z.of_nat (length closed) → edge_count = Z.of_nat (length rs) →
  dense = Z.of_nat (length (bu_edges b)) * 16 → dense ≤ u64_max →
  tag = (if (Z.of_nat skew <? Z.of_nat (length (bu_edges b)))
            || (dense <=? Z.of_nat (length (split_bytes 0 (partners_of (bu_edges b)))))
         then TAG_DENSE else TAG_SPLIT) →
  (if key_count `mod` stride =? 0
   then ensure sp_fence_entry_count sp <? u32_max else Invariant "edge fence entry count exceeds u32";
        Ok (sp_fence_entries sp ++ bu_key b ++ le_split 8 (saturating_mul64 key_count 16),
            sp_fence_entry_count sp + 1)
   else Ok (sp_fence_entries sp, sp_fence_entry_count sp)) = (Ok (fence_entries, fence_count) : Result _) →
  spools_inv skew stride
    {| sp_partners :=
         let partners := sp_partners sp
           ++ (write_varint (Z.of_nat (length (bu_edges b))) []).1 ++ [z2b tag] in
         if tag =? TAG_DENSE then partners ++ concat (partners_of (bu_edges b))
         else copy_split_rows (Z.to_nat (Z.of_nat (length (bu_edges b))))
                (concat (partners_of (bu_edges b))) None partners;
       sp_raw_offsets := sp_raw_offsets sp ++ le_split 8 (Z.of_nat (length (sp_partners sp)));
       sp_edge_ordinals := (if sp_ordinals_started sp then sp_edge_ordinals sp
                            else sp_edge_ordinals sp ++ le_split 8 0) ++ le_split 8 edge_count;
       sp_ordinals_started := true;
       sp_key_ids := sp_key_ids sp ++ bu_key b;
       sp_fence_entries := fence_entries;
       sp_fence_entry_count := fence_count;
       sp_lsns := sp_lsns sp;
       sp_tombstones := sp_tombstones sp;
       sp_tombstone_live_byte := sp_tombstone_live_byte sp;
       sp_tombstone_live_bits := sp_tombstone_live_bits sp |} (closed ++ [b]) rs.
Proof.
  intros [Hp Ho Hord Hk Hf Hfc Hff Hl Ht] Hrs (Hne & Hrec & Hsort) -> -> -> Hdense Htag Hfence.
  assert (Forall (λ p, is_partner p) (partners_of (bu_edges b))) as HP.
  { apply Forall_map. eapply Forall_impl; [apply Hrec|]. by intros r [(_ & Hr & _) _]. }
  assert (fence_entries = fence_spool 0 stride (map bu_key (closed ++ [b]))
    ∧ fence_count = Z.of_nat (length (fence_entries_from 0 stride (map bu_key (closed ++ [b]))))
    ∧ fence_count ≤ u32_max) as (Hf1 & Hf2 & Hf3).
  { rewrite map_app. cbn [map]. rewrite fence_spool_app, fence_entries_from_app, length_app, <- Hf.
    rewrite Z.add_0_l, length_map. cbn [fence_entries_from].
    destruct (_ `mod` _ =? 0).
    - destruct (Z.ltb_spec (sp_fence_entry_count sp) u32_max); [|done]. cbn [mbind result_bind] in Hfence.
      injection Hfence as <- <-. cbn [length]. split_and!; [done|lia|lia].
    - injection Hfence as <- <-. cbn [length]. rewrite app_nil_r. split_and!; [done|lia|lia]. }
  split; cbn [sp_partners sp_raw_offsets sp_edge_ordinals sp_ordinals_started sp_key_ids sp_fence_entries
    sp_fence_entry_count sp_lsns sp_tombstones sp_tombstone_live_byte sp_tombstone_live_bits]; try done.
  - rewrite <- (length_map er_partner_id), streamed_tag in Htag by (done || by rewrite length_map).
    rewrite partner_section_app, <- Hp. subst tag. unfold block_bytes.
    rewrite <- (length_map er_partner_id (bu_edges b)). by apply streamed_block.
  - by rewrite block_starts_app, le64s_app, le64s_one, <- Ho, <- Hp.
  - destruct closed as [|c closed]; cbn [app]; injection Hord as -> ->.
    + cbn [app]. f_equal. rewrite Hrs. cbn. unfold all_edges. by rewrite !app_nil_r.
    + f_equal. change (c :: closed ++ [b]) with ((c :: closed) ++ [b]).
      rewrite ordinals_app, app_comm_cons, le64s_app, le64s_one. by rewrite Z.add_0_l, <- Hrs.
  - by rewrite map_app, concat_app, Hk, <- (app_nil_r (bu_key b)) at 1.
Qed.

Lemma open_bucket_ok r cur :
  Forall (λ r', record_ok r' ∧ open_key (r :: cur) = [er_key_id r']) (r :: cur) →
  sorted_partners (partners_of (r :: cur)) →
  bucket_ok {| bu_key := er_key_id r; bu_edges := r :: cur |}.
Proof.
  intros HF HS. split_and!; [done| |done]. cbn [bu_edges bu_key]. eapply Forall_impl; [apply HF|].
  intros r' [Hr Hk]. cbn in Hk. injection Hk as Hk. by split.
Qed.

Lemma flush_inv w closed cur w' :
  writer_inv w closed cur → flush_current_bucket w = Ok w' →
  writer_inv w' (closed ++ open_bucket cur) [].
Proof.
  intros Hw. pose proof (edges_fit _ _ _ Hw) as Hfit. pose proof (wi_key _ _ _ Hw) as Hkey.
  destruct Hw as [Hopts Hid Hskew Hcl Hcur Hcs Hs _ Hb Hsp Hct Hov Hdl Hcol Hbl].
  unfold flush_current_bucket. rewrite Hkey, (bi_degree _ _ Hb).
  destruct cur as [|r cur].
  { cbn [open_bucket length]. rewrite app_nil_r. intros H.
    assert (w' = w) as ->. { change (Z.of_nat 0 =? 0) with true in H. by destruct (last _); simplify_eq. }
    by split. }
  unfold all_keys. cbn [open_key open_bucket]. rewrite last_snoc.
  destruct (Z.eqb_spec (Z.of_nat (length (r :: cur))) 0) as [?|_]; [done|].
  set (b := {| bu_key := er_key_id r; bu_edges := r :: cur |}) in *.
  assert (bucket_ok b) as Hbok by by apply open_bucket_ok.
  assert (all_edges closed ++ r :: cur = all_edges (closed ++ [b])) as Hall by by rewrite all_edges_app.
  assert (all_edges (closed ++ [b]) ++ [] = all_edges closed ++ r :: cur) as Hall' by by rewrite app_nil_r.
  assert (all_keys (closed ++ [b]) [] = all_keys closed (r :: cur)) as Hkeys
    by (unfold all_keys; by rewrite app_nil_r, map_app).
  assert (Forall bucket_ok (closed ++ [b])) as Hcl' by (apply Forall_app; split; [done|by constructor]).
  intros H. apply result_bind_Ok in H as (dense & Hd%ok_or_Ok & H).
  apply checked_mul64_Some in Hd as [Hdense Hdfit].
  apply result_bind_Ok in H as ([fence fc] & Hfence & H). apply Ok_inj in H as <-.
  rewrite (bi_partners _ _ Hb), (bi_split_cost _ _ Hb), Hskew, Hopts.
  rewrite Hopts, (ci_key_count _ _ _ _ Hct) in Hfence.
  split; rewrite ?Hall', ?Hkeys; cbn [ew_options ew_sst_id ew_skew_threshold ew_bucket ew_spools ew_counters
    ew_overflow ew_declared_streams ew_bloom bk_key]; try done.
  - constructor.
  - unfold all_keys. cbn [open_key]. by rewrite last_snoc.
  - eapply (flush_spools skew_of stride_of (ew_spools w) closed b _ fence fc _ dense
      (Z.of_nat (length closed)) (ct_edge_count (ew_counters w)) Hsp); [done|done|done|
      apply (ci_edge_count _ _ _ _ Hct)|done|by rewrite Hdense|done|exact Hfence].
  - by apply (flush_counters skew_of (ew_counters w) closed b).
Qed.

(** ** Appending a record *)

Lemma sorted_snoc ks k :
  StronglySorted bytes_lt ks → (∀ l, last ks = Some l → bytes_lt l k) → StronglySorted bytes_lt (ks ++ [k]).
Proof.
  intros HS. induction HS as [|x ks HS IH HF]; intros Hl; cbn [app]; [by repeat constructor|].
  assert (Forall (λ y, bytes_lt y k) (x :: ks)) as Hall.
  { destruct ks as [|y ks] using rev_ind; [by constructor; [apply Hl|]|]. clear IHks.
    rewrite last_cons, last_snoc in Hl. specialize (Hl y eq_refl).
    apply Forall_app in HF as [HF1 HF2]. inversion HF2 as [|? ? Hxy _]; subst.
    constructor; [by etrans|]. apply Forall_app. split; [|by constructor].
    apply Forall_lookup. intros i z Hz. etrans; [|exact Hl].
    apply (StronglySorted_lookup_lt _ _ i (length ks) _ _ HS).
    - by apply lookup_app_l_Some.
    - by rewrite lookup_app_r, Nat.sub_diag by lia.
    - by eapply lookup_lt_Some. }
  inversion Hall as [|? ? Hxk Hks]; subst. constructor.
  - apply IH. intros l Hl'. apply last_Some in Hl' as [pre ->].
    apply Forall_app in Hks as [_ Hks]. by inversion Hks.
  - apply Forall_app. split; [done|by constructor].
Qed.

(** The record continues the open bucket or starts the next one. *)
Definition fits (closed : list bucket) (cur : list EdgeRecord) (r : EdgeRecord) : Prop :=
  match cur with
  | [] => ∀ k, last (map bu_key closed) = Some k → bytes_lt k (er_key_id r)
  | r0 :: _ => er_key_id r = er_key_id r0
               ∧ ∀ p, last (partners_of cur) = Some p → bytes_lt p (er_partner_id r)
  end.

(** The append position after the ordering check. [cur] is open unless nothing was
    appended yet. *)
Lemma advance_inv w closed cur r w' :
  writer_inv w closed cur → (cur = [] → closed = []) → advance_bucket w r = Ok w' →
  ∃ closed' cur', writer_inv w' closed' cur' ∧ fits closed' cur' r ∧
    all_edges closed' ++ cur' = all_edges closed ++ cur.
Proof.
  intros Hw Hopen. unfold advance_bucket. rewrite (wi_key _ _ _ Hw). intros H.
  destruct cur as [|r0 cur].
  { rewrite (Hopen eq_refl) in *. cbn in H. apply Ok_inj in H as <-. by exists [], []. }
  unfold all_keys in H. cbn [open_key] in H. rewrite last_snoc in H.
  destruct (bytes_cmp (er_key_id r) (er_key_id r0)) eqn:Hc; [| done|].
  - exists closed, (r0 :: cur). rewrite (bi_last _ _ (wi_bucket _ _ _ Hw)) in H.
    apply bytes_cmp_eq in Hc. unfold fits.
    destruct (last (partners_of (r0 :: cur))) as [p|] eqn:Hp.
    + destruct (bytes_leb (er_partner_id r) p) eqn:Hle; [done|]. apply Ok_inj in H as <-.
      split_and!; [done..| |done]. intros p' [= <-]. by apply bytes_leb_false.
    + apply Ok_inj in H as <-. by split_and!.
  - exists (closed ++ open_bucket (r0 :: cur)), []. apply flush_inv with (1 := Hw) in H.
    split_and!; [done| |cbn [open_bucket]; by rewrite all_edges_app, app_nil_r].
    cbn [fits open_bucket]. rewrite map_app. cbn [map]. rewrite last_snoc. intros k [= <-].
    by apply bytes_cmp_gt.
Qed.

Lemma append_bucket_inv b cur r b' :
  bucket_inv b cur → Forall (λ p, is_partner p) (partners_of (cur ++ [r])) → append_bucket b r = Ok b' →
  bucket_inv b' (cur ++ [r]) ∧ bk_key b' = Some (er_key_id r).
Proof.
  intros [Hp Hd Hs Ht Hl] HF. unfold append_bucket. rewrite map_app in HF. cbn [map] in HF.
  pose proof HF as [_ Hr]%Forall_app. inversion Hr as [|? ? Hpr _]; subst. intros H.
  apply result_bind_Ok in H as (cost & Hcost%ok_or_Ok & H). apply checked_add64_Some in Hcost as [-> _].
  apply result_bind_Ok in H as (deg & Hdeg%ok_or_Ok & H). apply checked_add64_Some in Hdeg as [-> _].
  apply Ok_inj in H as <-. split; [|done].
  split; cbn [bk_partners bk_degree bk_split_cost bk_prev_top bk_last_partner]; rewrite ?map_app; cbn [map].
  - rewrite concat_app, Hp. cbn. by rewrite app_nil_r.
  - rewrite length_app, Hd. cbn. lia.
  - rewrite split_bytes_app, length_app, Hs, Ht. cbn [split_bytes].
    rewrite app_nil_r, length_app, length_le_split.
    change (le_combine (take 8 (er_partner_id r))) with (partner_top (er_partner_id r)).
    destruct (last (partners_of cur)) as [p|]; cbn [fmap option_fmap option_map from_option].
    + rewrite varint_len_spec by apply wrapping_sub64_u64. lia.
    + rewrite wrapping_sub64_0, varint_len_spec by by apply partner_top_u64. lia.
  - by rewrite last_snoc.
  - by rewrite last_snoc.
Qed.

Lemma append_spools_inv skew stride sp closed rs r :
  spools_inv skew stride sp closed rs → spools_inv skew stride (append_spools sp r) closed (rs ++ [r]).
Proof.
  intros [Hp Ho Hord Hk Hf Hfc Hff Hl (full & rest & Hoct & Ht & Hlb & Hln)]. unfold append_spools.
  rewrite Hlb, Hln, bits_value_set.
  split; cbn [sp_partners sp_raw_offsets sp_edge_ordinals sp_ordinals_started sp_key_ids sp_fence_entries
    sp_fence_entry_count sp_lsns sp_tombstones sp_tombstone_live_byte sp_tombstone_live_bits]; try done.
  - by rewrite map_app, le64s_app, Hl, <- le64s_one.
  - rewrite map_app. cbn [map]. pose proof (octets_snoc _ _ _ (er_tombstone r) Hoct) as Hs.
    destruct (Nat.eqb_spec (S (length rest)) 8) as [H8|H8];
      destruct (Z.eqb_spec (Z.of_nat (length rest) + 1) 8) as [H8'|H8']; try lia.
    + exists (full ++ [rest ++ [er_tombstone r]]), []. split_and!; [done| |done..].
      unfold bitmap. by rewrite map_app, Ht.
    + exists full, (rest ++ [er_tombstone r]). split_and!; [done..|]. rewrite length_app. cbn. lia.
Qed.

Lemma append_counters_inv skew ct closed rs r :
  counters_inv skew ct closed rs → Z.of_nat (length (rs ++ [r])) ≤ u64_max →
  counters_inv skew (append_counters ct r) closed (rs ++ [r]).
Proof.
  intros [Hk He Ht Hmin Hmax Hs Hh Hmk Hxk] Hfit. rewrite length_app in Hfit. cbn [length] in Hfit.
  assert (length (filter (λ r, er_tombstone r = true) rs) ≤ length rs)%nat as Hle by apply length_filter.
  unfold u64_max in Hfit. split; cbn [append_counters ct_key_count ct_edge_count
    ct_tombstone_count ct_min_lsn ct_max_lsn ct_any_skew_block ct_degree_histogram ct_min_key_id ct_max_key_id];
    try done.
  - rewrite He. unfold wrapping_add64. rewrite length_app, Z.mod_small; cbn [length]; lia.
  - rewrite filter_app, length_app, Ht, filter_cons, filter_nil. destruct (er_tombstone r) eqn:Er.
    + rewrite decide_True by done. unfold wrapping_add64. rewrite Z.mod_small; cbn [length]; lia.
    + rewrite decide_False by done. cbn. lia.
  - by rewrite Hmin, map_app, fold_left_app.
  - by rewrite Hmax, map_app, fold_left_app.
Qed.

Lemma holds_append s vs v s' :
  holds s vs → Forall value_utf8 (vs ++ [v]) → PropertyStream_append xxh3_64 zstd_encode s v = Ok s' →
  holds s' (vs ++ [v]).
Proof.
  intros (Hc & Ha & pages & Hi) Hutf H.
  destruct (append_inv xxh3_64 zstd_encode zstd_decompress zstd_law _ _ _ _ _ Hi Hutf H)
    as (Hc' & Ha' & pages' & Hi').
  split_and!; [congruence| |by exists pages']. rewrite Ha', Ha, existsb_app. cbn. by rewrite orb_false_r.
Qed.

Lemma append_declared_inv streams values streams' (cols : nat → list PropValue) :
  length values = length streams → Forall value_utf8 values → (∀ j, Forall value_utf8 (cols j)) →
  (∀ j s, streams !! j = Some s → holds s (cols j)) →
  append_declared xxh3_64 zstd_encode streams values = Ok streams' →
  length streams' = length streams ∧
  ∀ j s, streams' !! j = Some s → holds s (cols j ++ [nth j values None]).
Proof.
  revert values streams' cols. induction streams as [|s streams IH]; intros [|v values] streams' cols Hl Hv Hu Hs H;
    cbn [append_declared] in H; try done; [by apply Ok_inj in H as <-|].
  inversion Hv as [|? ? Hv1 Hv2]; subst. apply result_bind_Ok in H as (s1 & H1 & H).
  apply result_bind_Ok in H as (rest & H2 & H). apply Ok_inj in H as <-.
  apply (IH _ _ (λ j, cols (S j))) in H2 as [Hl2 Hs2]; [|by injection Hl|done|auto|by intros j; apply (Hs (S j))].
  split; [cbn; by rewrite Hl2|]. intros [|j] s' Hj; cbn in Hj; [|by apply Hs2]. injection Hj as <-.
  apply (holds_append s); [by apply (Hs 0%nat)| |done]. apply Forall_app. split; [done|by constructor].
Qed.

Lemma records_ok w closed cur : writer_inv w closed cur → Forall record_ok (all_edges closed ++ cur).
Proof.
  intros Hw. apply Forall_app. split.
  - unfold all_edges. apply Forall_concat, Forall_map. eapply Forall_impl; [apply (wi_closed _ _ _ Hw)|].
    intros b (_ & HF & _). eapply Forall_impl; [apply HF|]. by intros r [].
  - eapply Forall_impl; [apply (wi_cur _ _ _ Hw)|]. by intros r [].
Qed.
Lemma column_utf8 j rs : Forall record_ok rs → Forall value_utf8 (column j rs).
Proof.
  intros HF. apply Forall_map. eapply Forall_impl; [apply HF|]. intros r (_ & _ & _ & _ & Hd).
  destruct (nth_in_or_default j (er_declared_properties r) None) as [Hin| ->]; [|done].
  rewrite Forall_forall in Hd. apply Hd. by apply list_elem_of_In.
Qed.
Lemma overflow_utf8 rs : Forall record_ok rs → Forall value_utf8 (overflow_column rs).
Proof. intros HF. apply Forall_map. eapply Forall_impl; [apply HF|]. by intros r (_ & _ & _ & Ho & _). Qed.

Lemma insert_all_snoc f ks k f' f'' :
  insert_all xxh3_64 f ks = Some f' → BloomFilter_insert xxh3_64 f' k = Some f'' →
  insert_all xxh3_64 f (ks ++ [k]) = Some f''.
Proof.
  revert f. induction ks as [|k' ks IH]; intros f; cbn [insert_all app].
  - intros [= ->] Hk. cbn. by rewrite Hk.
  - intros H Hk. destruct (BloomFilter_insert xxh3_64 f k') as [f1|]; [|done]. by apply IH.
Qed.

Lemma fits_keys closed cur r :
  fits closed cur r → sorted_keys (all_keys closed cur) →
  sorted_keys (all_keys closed (cur ++ [r]))
  ∧ all_keys closed (cur ++ [r]) = all_keys closed cur ++ (if decide (cur = []) then [er_key_id r] else [])
  ∧ last (all_keys closed (cur ++ [r])) = Some (er_key_id r)
  ∧ (last (all_keys closed cur) = Some (er_key_id r) ↔ cur ≠ []).
Proof.
  unfold all_keys. intros Hf Hs. destruct cur as [|r0 cur]; cbn [open_key app fits] in *.
  - rewrite app_nil_r in *. rewrite last_snoc. split_and!; [by apply sorted_snoc|done|done|].
    split; [|done]. intros Hl. by apply Hf, bytes_lt_irrefl in Hl.
  - destruct Hf as [-> _]. rewrite decide_False by done. rewrite !app_nil_r, !last_snoc. by split_and!.
Qed.
Lemma fits_cur closed cur r :
  fits closed cur r → record_ok r → sorted_partners (partners_of cur) →
  Forall (λ r', record_ok r' ∧ open_key cur = [er_key_id r']) cur →
  Forall (λ r', record_ok r' ∧ open_key (cur ++ [r]) = [er_key_id r']) (cur ++ [r])
  ∧ sorted_partners (partners_of (cur ++ [r])).
Proof.
  intros Hf Hr Hs HF. rewrite map_app. destruct cur as [|r0 cur]; cbn [app fits] in *.
  - split; [by constructor|]. constructor; constructor.
  - destruct Hf as [Hk Hp]. split; [|by apply sorted_snoc]. rewrite app_comm_cons.
    apply Forall_app. split; [done|]. constructor; [|constructor]. cbn. by rewrite Hk.
Qed.

Lemma column_app j rs r : column j (rs ++ [r]) = column j rs ++ [nth j (er_declared_properties r) None].
Proof. apply map_app. Qed.
Lemma overflow_column_app rs r : overflow_column (rs ++ [r]) = overflow_column rs ++ [er_overflow_json r].
Proof. apply map_app. Qed.

(** The Bloom filter takes the key with the first record of its bucket. *)
Lemma append_bloom w closed cur r bloom :
  writer_inv w closed cur → fits closed cur r →
  ((if bool_decide (bk_key (ew_bucket w) ≠ Some (er_key_id r))
    then match BloomFilter_insert xxh3_64 (ew_bloom w) (er_key_id r) with
         | Some bloom => mret bloom
         | None => None
         end
    else mret (ew_bloom w)) : outcome BloomFilter) = Some (Ok bloom) →
  insert_all xxh3_64 (BloomFilter_with_capacity (Z.max (eo_expected_keys opts) 1)
      (Z.max (eo_bits_per_key opts) 1)) (all_keys closed (cur ++ [r])) = Some bloom.
Proof.
  intros Hw Hfit. destruct (fits_keys _ _ _ Hfit (wi_sorted _ _ _ Hw)) as (_ & Hkeys & _ & Hnew).
  rewrite (wi_key _ _ _ Hw), Hkeys. pose proof (wi_bloom _ _ _ Hw) as Hb.
  case_bool_decide as Hc; case_decide as Hcu; try tauto.
  - destruct (BloomFilter_insert _ _ _) as [f|] eqn:Hf; [|done]. intros [= <-]. by eapply insert_all_snoc.
  - intros [= <-]. by rewrite app_nil_r.
Qed.

Lemma append_row_inv w closed cur r bucket overflow declared bloom point :
  writer_inv w closed cur → fits closed cur r → record_ok r →
  length (er_declared_properties r) = length (ew_declared_streams w) →
  append_bucket (ew_bucket w) r = Ok bucket →
  PropertyStream_append xxh3_64 zstd_encode (ew_overflow w) (er_overflow_json r) = Ok overflow →
  append_declared xxh3_64 zstd_encode (ew_declared_streams w) (er_declared_properties r) = Ok declared →
  insert_all xxh3_64 (BloomFilter_with_capacity (Z.max (eo_expected_keys opts) 1)
      (Z.max (eo_bits_per_key opts) 1)) (all_keys closed (cur ++ [r])) = Some bloom →
  writer_inv {| ew_options := ew_options w; ew_sst_id := ew_sst_id w;
                ew_skew_threshold := ew_skew_threshold w; ew_bucket := bucket;
                ew_spools := append_spools (ew_spools w) r;
                ew_counters := append_counters (ew_counters w) r;
                ew_overflow := overflow; ew_declared_streams := declared; ew_bloom := bloom;
                ew_point := point |} closed (cur ++ [r]).
Proof.
  intros Hw Hfit Hr Hlen Hbk Hov Hdecl Hbloom.
  destruct (fits_cur _ _ _ Hfit Hr (wi_cur_sorted _ _ _ Hw) (wi_cur _ _ _ Hw)) as [Hcur' Hsort'].
  destruct (fits_keys _ _ _ Hfit (wi_sorted _ _ _ Hw)) as (Hks & _ & Hlast & _).
  assert (Forall record_ok ((all_edges closed ++ cur) ++ [r])) as Hok.
  { apply Forall_app. split; [by eapply records_ok|by constructor]. }
  apply append_bucket_inv with (1 := wi_bucket _ _ _ Hw) in Hbk as [Hbk Hkey].
  2:{ apply Forall_map. eapply Forall_impl; [apply Hcur'|]. by intros r' [(_ & Hp & _) _]. }
  apply (holds_append _ _ _ _ (wi_overflow _ _ _ Hw)) in Hov.
  2:{ rewrite <- overflow_column_app. by apply overflow_utf8. }
  rewrite <- overflow_column_app in Hov.
  apply (append_declared_inv _ _ _ (λ j, column j (all_edges closed ++ cur))) in Hdecl as [Hdl Hcols];
    [|done|apply Hr|intros j; apply column_utf8; by eapply records_ok|apply (wi_columns _ _ _ Hw)].
  split; rewrite ?(assoc_L (++)); cbn [ew_options ew_sst_id ew_skew_threshold ew_bucket ew_spools ew_counters
    ew_overflow ew_declared_streams ew_bloom]; try done; try by apply Hw.
  - by rewrite Hlast.
  - apply append_spools_inv, Hw.
  - apply append_counters_inv; [apply Hw|]. apply rows_fit in Hov. unfold overflow_column in Hov.
    by rewrite length_map in Hov.
  - rewrite Hdl. apply Hw.
  - intros j s Hj. rewrite column_app. by apply Hcols.
Qed.

Lemma advance_declared w r w' :
  advance_bucket w r = Ok w' → ew_declared_streams w' = ew_declared_streams w.
Proof.
  unfold advance_bucket, flush_current_bucket. intros H.
  destruct (bk_key (ew_bucket w)); [|by simplify_eq].
  destruct (bytes_cmp _ _); [|done|].
  - destruct (bk_last_partner _); [destruct (negb _)|]; by simplify_eq.
  - destruct (_ =? 0); [by simplify_eq|]. apply result_bind_Ok in H as (? & _ & H).
    apply result_bind_Ok in H as ([] & _ & H). by apply Ok_inj in H as <-.
Qed.

Lemma writer_append_inv w closed cur r w' :
  writer_inv w closed cur → (cur = [] → closed = []) → record_ok r →
  EdgeSstWriter_append xxh3_64 zstd_encode crc32 w r = Some (Ok w') →
  ∃ closed' cur', writer_inv w' closed' cur' ∧ cur' ≠ [] ∧
    all_edges closed' ++ cur' = (all_edges closed ++ cur) ++ [r].
Proof.
  intros Hw0 Hopen Hr. unfold EdgeSstWriter_append.
  match goal with |- (if negb ?c then _ else _) = _ → _ => destruct c eqn:Hlen; cbn [negb]; [|done] end.
  apply Nat.eqb_eq in Hlen. intros H.
  apply outcome_bind_Ok in H as (point & _ & H).
  apply outcome_bind_Ok in H as (w1 & Hadv%lift_Ok & H).
  destruct (advance_inv _ _ _ _ _ Hw0 Hopen Hadv) as (cl & cu & Hw & Hfit & Hrs).
  apply advance_declared in Hadv. rewrite <- Hadv in Hlen.
  apply outcome_bind_Ok in H as (bloom & Hbloom & H).
  apply outcome_bind_Ok in H as (bucket & Hbk%lift_Ok & H).
  apply outcome_bind_Ok in H as (ov & Hov%lift_Ok & H).
  apply outcome_bind_Ok in H as (decl & Hdecl%lift_Ok & H).
  injection H as <-. exists cl, (cu ++ [r]).
  split; [|split; [by destruct cu|by rewrite (assoc_L (++)), Hrs]].
  apply append_row_inv; try done. by apply (append_bloom w1).
Qed.

Lemma writer_extend_inv w closed cur rs w' :
  writer_inv w closed cur → (cur = [] → closed = []) → Forall record_ok rs →
  EdgeSstWriter_extend xxh3_64 zstd_encode crc32 w rs = Some (Ok w') →
  ∃ closed' cur', writer_inv w' closed' cur' ∧ all_edges closed' ++ cur' = (all_edges closed ++ cur) ++ rs.
Proof.
  intros Hw Hopen HF. revert w closed cur Hw Hopen. induction HF as [|r rs Hr HF IH]; intros w closed cur Hw Hopen;
    cbn [EdgeSstWriter_extend].
  { intros [= <-]. exists closed, cur. by rewrite app_nil_r. }
  intros H. apply outcome_bind_Ok in H as (w1 & H1 & H).
  destruct (writer_append_inv _ _ _ _ _ Hw Hopen Hr H1) as (cl & cu & Hw1 & Hne & Hrs).
  destruct (IH _ _ _ Hw1 ltac:(done) H) as (cl' & cu' & Hw' & Hrs'). exists cl', cu'. split; [done|].
  rewrite Hrs', Hrs, <- (assoc_L (++)). done.
Qed.

(** Every accepted record has one value per declared property. *)
Lemma extend_widths w closed cur rs w' :
  writer_inv w closed cur → (cur = [] → closed = []) → Forall record_ok rs →
  EdgeSstWriter_extend xxh3_64 zstd_encode crc32 w rs = Some (Ok w') →
  Forall (λ r, length (er_declared_properties r) = length (eo_declared_properties opts)) rs.
Proof.
  intros Hw Hopen HF. revert w closed cur Hw Hopen. induction HF as [|r rs Hr HF IH]; intros w closed cur Hw Hopen;
    cbn [EdgeSstWriter_extend]; [constructor|].
  intros H. apply outcome_bind_Ok in H as (w1 & H1 & H).
  destruct (writer_append_inv _ _ _ _ _ Hw Hopen Hr H1) as (cl & cu & Hw1 & Hne & _).
  constructor; [|by apply (IH _ _ _ Hw1)]. rewrite <- (wi_declared _ _ _ Hw). unfold EdgeSstWriter_append in H1.
  destruct (Nat.eqb_spec (length (er_declared_properties r)) (length (ew_declared_streams w))); [done|by cbn in H1].
Qed.

(** What the writer holds once every record is appended and the last bucket closed. *)
Lemma writer_flushed_inv max_entry max_sst rs w w' :
  Forall record_ok rs →
  EdgeSstWriter_extend xxh3_64 zstd_encode crc32 (EdgeSstWriter_new opts id max_entry max_sst) rs = Some (Ok w) →
  flush_current_bucket w = Ok w' →
  ∃ bs, writer_inv w' bs [] ∧ all_edges bs = rs.
Proof.
  intros HF He Hf.
  destruct (writer_extend_inv _ _ _ _ _ (writer_new_inv max_entry max_sst) ltac:(done) HF He)
    as (cl & cu & Hw & Hrs).
  exists (cl ++ open_bucket cu). split; [by eapply flush_inv|].
  destruct cu as [|r cu]; cbn [open_bucket] in *; [by rewrite !app_nil_r in *|].
  by rewrite all_edges_app.
Qed.
End WriterInv.
