(* ===== verification/EdgeOpen.v ===== *)
(** The closed tables of an edge SST, and opening it ([EdgeSstReader::open]) when its
    sections are known: the layout
    checks pass, the cumulative table is the one of the buckets, and the reader is an
    [image] of them. *)
From S2P Require Import Prelude StorageError Bloom EdgeEncoding EdgeFormat EdgePages EdgeReader EdgeWriter EdgeSealed EdgeImage EdgeWriterInv.

(** The closed tables: what the writer's finalisation makes of its
    spools ([pack_offsets], the last tombstone byte, the fence index) reads back, and
    the reader's cumulative degrees are the edge ordinals. *)

(** ** Offsets *)

Lemma pack_offsets_spec xs w out :
  Forall is_u64 xs → pack_offsets (length xs) (le64s xs) w out = out ++ offset_table w xs.
Proof.
  intros HF. revert out. induction HF as [|x xs Hx HF IH]; intros out; [cbn; by rewrite app_nil_r|].
  unfold le64s. cbn [length map concat pack_offsets].
  rewrite take_app_length', drop_app_length' by (by rewrite length_le_split). rewrite le_combine_split_small by done.
  fold (le64s xs). rewrite IH. unfold offset_table. cbn [map concat]. by rewrite <- (assoc_L (++)).
Qed.

Lemma length_offset_table w xs : length (offset_table w xs) = (length xs * OffsetWidth_bytes w)%nat.
Proof.
  unfold offset_table. induction xs as [|x xs IH]; [done|]. cbn [map concat length].
  rewrite length_app, length_offset_bytes, IH. lia.
Qed.

Lemma length_starts_of skew bs : length (starts_of skew bs) = S (length bs).
Proof. unfold starts_of. rewrite length_app, length_block_starts. cbn. lia. Qed.

Lemma block_starts_bound skew pos bs :
  0 ≤ pos →
  Forall (λ x, 0 ≤ x ≤ pos + Z.of_nat (length (partner_section skew bs))) (block_starts skew pos bs).
Proof.
  revert pos. induction bs as [|b bs IH]; intros pos Hp; cbn [block_starts]; [constructor|].
  unfold partner_section. cbn [map concat]. rewrite length_app. constructor; [lia|].
  eapply Forall_impl; [apply IH; lia|]. unfold partner_section. intros x Hx. cbv beta in *. lia.
Qed.
Lemma starts_bound skew bs :
  Forall (λ x, 0 ≤ x ≤ Z.of_nat (length (partner_section skew bs))) (starts_of skew bs).
Proof.
  unfold starts_of. apply Forall_app. split; [|constructor; [lia|constructor]].
  apply (block_starts_bound skew 0 bs). lia.
Qed.

(** ** The tombstone bitmap *)

Lemma bitmap_lookup full i : bitmap full !! i = (λ o, z2b (bits_value o)) <$> full !! i.
Proof. apply list_lookup_fmap. Qed.

Lemma octets_bitmap bits full rest :
  octets bits full rest →
  let chunks := full ++ (if decide (rest = []) then [] else [rest]) in
  bitmap_holds (bitmap chunks) bits ∧ Z.of_nat (length (bitmap chunks)) = (Z.of_nat (length bits) + 7) / 8.
Proof.
  intros [-> HF Hr] chunks. split.
  - intros i b Hi. pose proof (lookup_lt_Some _ _ _ Hi) as Hlt.
    destruct (concat_octets_lookup full rest i HF Hlt ltac:(lia)) as (o & Ho & Heq). rewrite Hi in Heq.
    assert (chunks !! (i `div` 8)%nat = Some o) as Hc.
    { subst chunks. destruct (decide (rest = [])) as [->|]; [|done]. rewrite app_nil_r.
      apply lookup_app_Some in Ho as [Ho|[_ Ho]]; [done|].
      apply list_lookup_singleton_Some in Ho as [_ <-]. done. }
    exists (z2b (bits_value o)). rewrite bitmap_lookup, Hc. split; [done|].
    rewrite tombstone_bit_value, <- Heq; [done|].
    apply lookup_app_Some in Ho as [Ho|[_ [_ <-]%list_lookup_singleton_Some]]; [|lia].
    rewrite Forall_lookup in HF. by rewrite (HF _ _ Ho).
  - unfold bitmap. rewrite length_map. subst chunks. rewrite !length_app.
    assert (length (concat full) = 8 * length full)%nat as ->.
    { clear -HF. induction HF as [|o full Ho HF IH]; [done|]. cbn [concat length]. rewrite length_app. lia. }
    apply Z.div_unique with (r := match rest with [] => 7 | _ => Z.of_nat (length rest) - 1 end).
    + left. destruct rest; cbn [length] in *; lia.
    + destruct (decide (rest = [])) as [->|Hne]; cbn [length]; [lia|]. destruct rest; [done|]. cbn [length]. lia.
Qed.

Lemma close_bitmap skew stride sp bs rs :
  spools_inv skew stride sp bs rs →
  bitmap_holds (sp_tombstones (close_spools sp)) (tombstones_of rs)
  ∧ Z.of_nat (length (sp_tombstones (close_spools sp))) = (Z.of_nat (length rs) + 7) / 8.
Proof.
  intros Hsp. destruct (pi_tombstones _ _ _ _ _ Hsp) as (full & rest & Hoct & Ht & Hlb & Hln).
  cbn [close_spools sp_tombstones]. rewrite Ht, Hlb, Hln. destruct (octets_bitmap _ _ _ Hoct) as [Hh Hl].
  rewrite length_map in Hl. destruct rest as [|b rest].
  - cbn [length]. change (0 <? Z.of_nat 0) with false. cbv iota. by rewrite decide_True, app_nil_r in Hh, Hl.
  - destruct (Z.ltb_spec 0 (Z.of_nat (length (b :: rest)))); [|cbn [length] in *; lia].
    rewrite decide_False in Hh, Hl by done. unfold bitmap in *. rewrite map_app in Hh, Hl. by split.
Qed.

(** ** The fence index *)

Lemma fence_spool_entries i stride keys :
  0 ≤ i → (i + Z.of_nat (length keys)) * 16 ≤ u64_max →
  fence_spool i stride keys
  = concat (map (λ e, fe_key e ++ le_split 8 (fe_key_ids_offset e)) (fence_entries_from i stride keys)).
Proof.
  revert i. induction keys as [|k keys IH]; intros i Hi Hfit; [done|]. cbn [length] in Hfit.
  cbn [fence_spool fence_entries_from]. rewrite IH by lia.
  destruct (_ =? 0); [|done]. cbn [map concat fe_key fe_key_ids_offset].
  unfold saturating_mul64. rewrite Z.min_l by lia. by rewrite <- (assoc_L (++)).
Qed.

Lemma fence_entries_ok i stride keys :
  Forall (λ k, length k = 16%nat) keys → 0 ≤ i → (i + Z.of_nat (length keys)) * 16 ≤ u64_max →
  Forall (λ e, length (fe_key e) = 16%nat ∧ is_u64 (fe_key_ids_offset e)) (fence_entries_from i stride keys).
Proof.
  intros HF. revert i. induction HF as [|k keys Hk HF IH]; intros i Hi Hfit; [constructor|]. cbn [length] in Hfit.
  cbn [fence_entries_from]. destruct (_ =? 0); [constructor|]; [|apply IH; lia..].
  split; [done|]. cbn. word_lia.
Qed.

Lemma fence_section_decodes stride keys count :
  Forall (λ k, length k = 16%nat) keys → Z.of_nat (length keys) * 16 ≤ u64_max →
  Z.max stride 1 ≤ u32_max →
  count = Z.of_nat (length (fence_entries_from 0 (Z.max stride 1) keys)) → count ≤ u32_max →
  FenceIndex_decode (le_split 4 (Z.max stride 1) ++ le_split 4 count ++ fence_spool 0 (Z.max stride 1) keys)
  = Ok (FenceIndex_build keys stride).
Proof.
  intros HF Hfit Hs -> Hc. rewrite fence_spool_entries by lia.
  apply (fence_decode_encode (FenceIndex_build keys stride)); [cbn; word_lia|done|].
  apply fence_entries_ok; [done|lia|lia].
Qed.

(** ** The cumulative degrees *)

Lemma cumulative_loop_spec skew w bs pre post running out :
  bs = pre ++ post → Forall bucket_ok bs →
  Z.of_nat (length (partner_section skew bs)) < 2 ^ OffsetWidth_as_bits w →
  Z.of_nat (length (offset_table w (starts_of skew bs))) ≤ u64_max →
  0 ≤ running → running + Z.of_nat (length (all_edges post)) ≤ u64_max →
  cumulative_loop (length post) (length pre) (OffsetWidth_bytes w) w (offset_table w (starts_of skew bs))
    (partner_section skew bs) running out
  = Ok (out ++ ordinals running post, running + Z.of_nat (length (all_edges post))).
Proof.
  intros Hbs HF Hw Hfit. revert pre running out Hbs.
  induction post as [|b post IH]; intros pre running out Hbs Hr Hsum; cbn [length cumulative_loop].
  { cbn. by rewrite app_nil_r, Z.add_0_r. }
  unfold all_edges in Hsum |- *. cbn [map concat] in Hsum |- *. rewrite length_app in Hsum |- *.
  fold (all_edges post) in Hsum |- *.
  assert (partner_section skew bs = partner_section skew pre ++ block_bytes skew b ++ partner_section skew post)
    as Hps by (rewrite Hbs; unfold partner_section; by rewrite map_app, concat_app).
  rewrite (read_offset_table _ _ _ (Z.of_nat (length (partner_section skew pre)))); [|done| |].
  2:{ rewrite Hbs. apply starts_lookup. }
  2:{ rewrite Hps, !length_app in Hw. lia. }
  cbn [mbind result_bind]. rewrite Nat2Z.id.
  rewrite (read_varint_spec _ _ (Z.of_nat (length (bu_edges b)))
    (z2b (pick_block_tag (partners_of (bu_edges b)) skew)
       :: (if pick_block_tag (partners_of (bu_edges b)) skew =? TAG_SPLIT
           then split_bytes 0 (partners_of (bu_edges b)) else concat (partners_of (bu_edges b)))
       ++ partner_section skew post)).
  2:{ word_lia. }
  2:{ rewrite Hps, drop_app_length. unfold block_bytes, partner_block_bytes. rewrite length_map.
      by rewrite <- (assoc_L (++)). }
  cbn [mbind result_bind]. rewrite checked_add64_le by lia. cbn [ok_or mbind result_bind].
  replace (S (length pre)) with (length (pre ++ [b])) by (rewrite length_app; cbn; lia).
  rewrite IH by (try lia; by rewrite Hbs, <- (assoc_L (++))). cbn [ordinals].
  rewrite <- (assoc_L (++)). cbn [app]. do 2 f_equal. lia.
Qed.

Section Open.
Context (body : list byte) (f : EdgeFileFooter) (hd : EdgeFileHeader).

(** The only section of its kind is uncompressed and holds [spool]. *)
Definition plain_at (kind : Z) (spool : list byte) : Prop :=
  ∃ e, optional_unique_section f kind = Ok (Some e) ∧ EdgeFileFooter_find_kind f kind = Some e
       ∧ section_slice body e = Ok spool ∧ se_codec e = CODEC_NONE ∧ se_length e = Z.of_nat (length spool).
Definition absent (kind : Z) : Prop :=
  optional_unique_section f kind = Ok None ∧ EdgeFileFooter_find_kind f kind = None.
Definition plain_or_absent (kind : Z) (spool : option (list byte)) : Prop :=
  match spool with Some spool => plain_at kind spool | None => absent kind end.

Lemma plain_fits kind spool :
  Z.of_nat (length body) ≤ u64_max → plain_at kind spool → Z.of_nat (length spool) ≤ u64_max.
Proof.
  intros Hfits (e & _ & _ & Hs & _). unfold section_slice in Hs.
  apply result_bind_Ok in Hs as (end_ & _ & Hs). apply result_bind_Ok in Hs as (body_end & _ & Hs).
  match type of Hs with (if ?c then _ else _) = _ => destruct c; [|done] end.
  apply Ok_inj in Hs as <-. unfold slice. rewrite length_take, length_drop. lia.
Qed.

Context (skew : nat) (bs : list bucket) (width : OffsetWidth) (tomb fence : option (list byte)).
Hypothesis key_ids_at : plain_at SECTION_KEY_IDS (concat (map bu_key bs)).
Hypothesis offsets_at : plain_at SECTION_OFFSETS (offset_table width (starts_of skew bs)).
Hypothesis ordinals_at : plain_at SECTION_EDGE_ORDINALS (le64s (0 :: ordinals 0 bs)).
Hypothesis partners_at : plain_at SECTION_PARTNERS (partner_section skew bs).
Hypothesis lsns_are : plain_at SECTION_PER_EDGE_LSN (le64s (map er_lsn (all_edges bs))).
Hypothesis tombstones_are : plain_or_absent SECTION_PER_EDGE_TOMBSTONES tomb.
Hypothesis fence_at : plain_or_absent SECTION_FENCE_INDEX fence.

Hypothesis buckets_ok : Forall bucket_ok bs.
Hypothesis keys_sorted : sorted_keys (map bu_key bs).
Hypothesis body_fits : Z.of_nat (length body) ≤ u64_max.
Hypothesis width_fits : Z.of_nat (length (partner_section skew bs)) < 2 ^ OffsetWidth_as_bits width.
Hypothesis edges_count_fit : Z.of_nat (length (all_edges bs)) + 7 ≤ u64_max.
Hypothesis f_key_count : ef_key_count f = Z.of_nat (length bs).
Hypothesis f_edge_count : ef_edge_count f = Z.of_nat (length (all_edges bs)).
Hypothesis tombstone_flag :
  negb (Z.land (eh_flags hd) FLAG_HAS_TOMBSTONES =? 0) = match tomb with Some _ => true | None => false end.
Hypothesis tombstone_bytes : match tomb with
  | Some bytes => bitmap_holds bytes (tombstones_of (all_edges bs))
                  ∧ Z.of_nat (length bytes) = (Z.of_nat (length (all_edges bs)) + 7) / 8
  | None => Forall (λ e, er_tombstone e = false) (all_edges bs)
  end.
Hypothesis fence_bytes : match fence with
  | Some bytes => ∃ stride, FenceIndex_decode bytes = Ok (FenceIndex_build (map bu_key bs) stride)
  | None => True
  end.

Lemma length_key_ids : length (concat (map bu_key bs)) = (16 * length bs)%nat.
Proof.
  rewrite length_concat_partners, length_map; [done|]. apply Forall_map. eapply Forall_impl; [apply buckets_ok|].
  intros c (Hne & HF & _). destruct (bu_edges c); [done|]. inversion HF as [|? ? [(Hk & _) <-] _]. exact Hk.
Qed.

Lemma required_at kind spool :
  plain_at kind spool → ∃ e, required_unique_section f kind = Ok e ∧ se_codec e = CODEC_NONE
    ∧ se_length e = Z.of_nat (length spool).
Proof. intros (e & Ho & _ & _ & Hc & Hl). exists e. unfold required_unique_section. by rewrite Ho. Qed.

Lemma fence_layout :
  (fence ← optional_unique_section f SECTION_FENCE_INDEX;
   match fence with
   | None => Ok tt
   | Some fence =>
       ensure se_codec fence =? CODEC_NONE else corrupted "fence index must be uncompressed";
       Ok tt
   end) = Ok tt.
Proof.
  destruct fence as [bytes|].
  - destruct fence_at as (e & -> & _ & _ & C & _). cbn [mbind result_bind]. by rewrite C.
  - by destruct fence_at as [-> _].
Qed.

Lemma validate_eager_layout_ok : validate_eager_layout hd f width = Ok tt.
Proof.
  pose proof (plain_fits _ _ body_fits key_ids_at) as F1. pose proof (plain_fits _ _ body_fits offsets_at) as F2.
  pose proof (plain_fits _ _ body_fits ordinals_at) as F3. pose proof (plain_fits _ _ body_fits lsns_are) as F5.
  destruct (required_at _ _ key_ids_at) as (e1 & H1 & C1 & L1).
  destruct (required_at _ _ offsets_at) as (e2 & H2 & C2 & L2).
  destruct (required_at _ _ partners_at) as (e3 & H3 & C3 & L3).
  destruct (required_at _ _ lsns_are) as (e4 & H4 & C4 & L4).
  destruct ordinals_at as (e5 & H5 & _ & _ & C5 & L5).
  assert (length (le64s (map er_lsn (all_edges bs))) = 8 * length (all_edges bs))%nat as N4
    by (unfold le64s; by rewrite length_le_concat, length_map).
  assert (length (le64s (0 :: ordinals 0 bs)) = (8 * S (length bs))%nat) as N5
    by (unfold le64s; rewrite length_le_concat; cbn [length]; by rewrite length_ordinals).
  pose proof (closed_le_edges _ buckets_ok) as Hle.
  rewrite length_offset_table, length_starts_of in L2, F2. rewrite length_key_ids in L1, F1.
  rewrite N4 in L4, F5. rewrite N5 in L5, F3. clear N4 N5.
  unfold validate_eager_layout. rewrite H1, H2, H3, H4. cbn [mbind result_bind].
  cbn [forallb]. rewrite C1, C2, C3, C4. cbn [Z.eqb andb CODEC_NONE]. rewrite f_key_count, f_edge_count.
  rewrite (checked_mul64_le (Z.of_nat (length bs)) 16 u64_max) by lia. cbn [ok_or mbind result_bind].
  rewrite L1, (proj2 (Z.eqb_eq _ _)) by lia.
  rewrite (checked_add64_le (Z.of_nat (length bs)) 1) by lia. cbn [mbind option_bind].
  rewrite !(checked_mul64_le _ _ u64_max) by lia. cbn [ok_or mbind result_bind].
  rewrite L2, (proj2 (Z.eqb_eq _ _)) by lia. rewrite L4, (proj2 (Z.eqb_eq _ _)) by lia.
  rewrite (proj2 (Z.leb_le _ _)) by lia. rewrite H5. cbn [mbind result_bind]. rewrite andb_false_r.
  cbn [negb]. rewrite C5. cbn [Z.eqb CODEC_NONE]. cbn [mbind option_bind].
  rewrite ?(checked_mul64_le _ _ u64_max) by lia. cbn [ok_or mbind result_bind].
  rewrite L5, (proj2 (Z.eqb_eq (Z.of_nat (8 * S (length bs))) _)) by lia. cbn [mbind result_bind].
  rewrite tombstone_flag. destruct tomb as [bytes|].
  - destruct tombstones_are as (et & -> & _ & _ & Ct & Lt). destruct tombstone_bytes as [_ Hl].
    cbn [mbind result_bind Bool.eqb]. rewrite Ct. cbn [Z.eqb CODEC_NONE].
    rewrite checked_add64_le by lia. cbn [ok_or mbind result_bind]. rewrite Lt, Hl, Z.eqb_refl. apply fence_layout.
  - destruct tombstones_are as [-> _]. apply fence_layout.
Qed.

Lemma cumulative_ok : build_cumulative_edges body f width = Ok (0 :: ordinals 0 bs).
Proof.
  unfold build_cumulative_edges. rewrite f_key_count, f_edge_count. pose proof (closed_le_edges _ buckets_ok) as Hle.
  rewrite checked_add64_le by lia. cbn [ok_or mbind result_bind].
  destruct (Z.eqb_spec (Z.of_nat (length bs)) 0) as [H0|H0].
  { by destruct bs. }
  destruct offsets_at as (e2 & _ & -> & Hs2 & _). destruct partners_at as (e3 & _ & -> & Hs3 & _).
  cbn [ok_or mbind result_bind]. rewrite Hs2, Hs3. cbn [mbind result_bind]. rewrite Nat2Z.id.
  pose proof (cumulative_loop_spec skew width bs [] bs 0 [0] eq_refl buckets_ok width_fits
    (plain_fits _ _ body_fits offsets_at) ltac:(lia) ltac:(lia)) as Hc. cbn [length] in Hc. rewrite Hc.
  cbn [mbind result_bind]. by rewrite Z.add_0_l, Z.eqb_refl.
Qed.

Definition opened : EdgeSstReader :=
  {| rd_body := body; rd_header := hd; rd_footer := f;
     rd_fence_index := match fence with
                       | Some bytes => match FenceIndex_decode bytes with Ok fi => Some fi | Err _ => None end
                       | None => None
                       end;
     rd_offset_width := width;
     rd_cumulative_edges := 0 :: ordinals 0 bs |}.

Lemma open_ok h n :
  EdgeFileHeader_decode body = Ok hd → EdgeFileFooter_decode h body = Ok (f, n) →
  OffsetWidth_from_bits (ef_offsets_bits f) = Ok width →
  verify_sections h body (ef_sections f) = Ok tt → check_page_directory body hd f = Ok tt →
  check_binding h body f = Ok tt →
  EdgeSstReader_open h body = Ok opened.
Proof.
  intros H1 H2 H3 H4 H5 H6. pose proof cumulative_ok as Hcum. unfold EdgeSstReader_open. rewrite H1. cbn [mbind result_bind].
  rewrite H2. cbn [mbind result_bind]. rewrite H3. cbn [mbind result_bind].
  rewrite validate_eager_layout_ok. cbn [mbind result_bind]. rewrite H4. cbn [mbind result_bind].
  rewrite H5. cbn [mbind result_bind]. rewrite H6. cbn [mbind result_bind].
  cbn [forallb]. destruct key_ids_at as (e1 & _ & -> & _). destruct offsets_at as (e2 & _ & -> & _).
  destruct partners_at as (e3 & _ & -> & _). destruct lsns_are as (e4 & _ & -> & _). cbn [andb].
  unfold opened. destruct fence as [bytes|].
  - destruct fence_at as (e & _ & -> & Hs & _). rewrite Hs. cbn [mbind result_bind].
    destruct fence_bytes as [stride ->]. cbn [mbind result_bind]. by rewrite Hcum.
  - destruct fence_at as [_ ->]. cbn [mbind result_bind]. by rewrite Hcum.
Qed.

Lemma section_plain h kind spool :
  plain_at kind spool → kind ≠ SECTION_PROPERTY_STREAM → reader_section h opened kind [] = Ok spool.
Proof.
  intros (e & _ & Hf & Hs & _) Hk. unfold reader_section. cbn [opened rd_footer rd_body].
  rewrite Hf. cbn [ok_or mbind result_bind]. by rewrite (proj2 (Z.eqb_neq _ _)).
Qed.

Lemma opened_image :
  (∀ b, head bs = Some b → ef_min_key_id f = bu_key b) →
  (∀ b, last bs = Some b → ef_max_key_id f = bu_key b) →
  image skew bs opened.
Proof.
  intros Hmin Hmax. split; try done.
  - cbn [opened rd_fence_index]. destruct fence as [bytes|]; [|done].
    destruct fence_bytes as [stride ->]. by exists stride.
  - intros h. split_and!; by apply section_plain.
  - intros h. unfold has_tombstones. cbn [opened rd_footer]. destruct tomb as [bytes|].
    + destruct tombstones_are as (e & Hrest). pose proof Hrest as (_ & -> & _). exists bytes.
      split; [|apply tombstone_bytes]. apply section_plain; [by exists e|done].
    + destruct tombstones_are as [_ ->]. done.
  - split_and!; by eapply plain_fits.
Qed.
End Open.
