(* ===== verification/EdgeSst.v ===== *)
(** An edge SST end to end: a body the streaming writer finished is one the reader
    opens, and the reader returns the records that were appended. *)
From S2P Require Import Prelude StorageError Bloom EdgeEncoding EdgeFormat EdgePages EdgeReader EdgeWriter EdgeSealed EdgeImage EdgeWriterInv EdgeOpen.

(** ** Statistics *)

(** The order of the rows of an edge SST. *)
Definition edge_lt (a b : EdgeRecord) : Prop :=
  bytes_lt (er_key_id a) (er_key_id b)
  ∨ er_key_id a = er_key_id b ∧ bytes_lt (er_partner_id a) (er_partner_id b).

Lemma buckets_sorted bs :
  Forall bucket_ok bs → sorted_keys (map bu_key bs) → StronglySorted edge_lt (all_edges bs).
Proof.
  intros HF. induction HF as [|b bs (Hne & HE & HP) HF IH]; intros HS; [constructor|].
  unfold all_edges. cbn [map concat] in HS |- *. fold (all_edges bs). apply StronglySorted_inv in HS as [HS Hlt].
  apply StronglySorted_app_2; [| |by apply IH].
  - rewrite Forall_forall in HE. intros e e' He He'. left. destruct (HE _ He) as [_ ->].
    unfold all_edges in He'. apply list_elem_of_In, in_concat in He' as (es & Hes & He').
    apply in_map_iff in Hes as (c & <- & Hc). apply list_elem_of_In in Hc, He'.
    rewrite Forall_forall in HF. rewrite Forall_forall in Hlt. destruct (HF _ Hc) as (_ & HEc & _). rewrite Forall_forall in HEc.
    destruct (HEc _ He') as [_ ->]. apply Hlt. by apply (list_elem_of_fmap_2 bu_key).
  - clear -HE HP. induction HE as [|e es [_ Hk] HE IH]; [constructor|]. cbn [map] in HP.
    apply StronglySorted_inv in HP as [HP Hlt]. constructor; [by apply IH|].
    rewrite Forall_forall in HE |- *. rewrite Forall_forall in Hlt. intros e' He'. right. destruct (HE _ He') as [_ ->].
    split; [done|]. apply Hlt. by apply (list_elem_of_fmap_2 er_partner_id).
Qed.

Lemma edge_bucket bs e :
  Forall bucket_ok bs → e ∈ all_edges bs → er_key_id e ∈ map bu_key bs.
Proof.
  intros HF He. destruct (decide (er_key_id e ∈ map bu_key bs)) as [|Hn]; [done|].
  pose proof (edges_without_key _ _ HF Hn) as HE. rewrite Forall_forall in HE. by apply HE in He.
Qed.
Lemma bucket_edge bs k : Forall bucket_ok bs → k ∈ map bu_key bs → k ∈ map er_key_id (all_edges bs).
Proof.
  intros HF Hk. apply list_elem_of_fmap in Hk as (b & -> & Hb). rewrite Forall_forall in HF.
  destruct (HF _ Hb) as (Hne & HE & _). destruct (bu_edges b) as [|e es] eqn:Ee; [done|].
  inversion HE as [|? ? [_ <-] _]; subst. apply (list_elem_of_fmap_2 er_key_id).
  apply list_elem_of_In, in_concat. exists (bu_edges b). split; [by apply in_map, list_elem_of_In|]. rewrite Ee. by left.
Qed.

Lemma fold_min_le zs a z : z ∈ a :: zs → fold_left Z.min zs a ≤ z.
Proof.
  revert a z. induction zs as [|y zs IH]; intros a z Hz; cbn [fold_left].
  - apply list_elem_of_singleton in Hz as ->. lia.
  - apply elem_of_cons in Hz as [->|[->|Hz]%elem_of_cons].
    + etrans; [apply IH; left|]. lia.
    + etrans; [apply IH; left|]. lia.
    + apply IH. by right.
Qed.
Lemma fold_max_ge zs a z : z ∈ a :: zs → z ≤ fold_left Z.max zs a.
Proof.
  revert a z. induction zs as [|y zs IH]; intros a z Hz; cbn [fold_left].
  - apply list_elem_of_singleton in Hz as ->. lia.
  - apply elem_of_cons in Hz as [->|[->|Hz]%elem_of_cons].
    + etrans; [|apply IH; left]. lia.
    + etrans; [|apply IH; left]. lia.
    + apply IH. by right.
Qed.

Lemma sorted_NoDup ks : sorted_keys ks → NoDup ks.
Proof.
  induction 1 as [|k ks HS IH HF]; constructor; [|done]. intros Hin. rewrite Forall_forall in HF.
  by apply HF, bytes_lt_irrefl in Hin.
Qed.

Lemma key_count_distinct bs :
  Forall bucket_ok bs → sorted_keys (map bu_key bs) →
  length bs = length (remove_dups (map er_key_id (all_edges bs))).
Proof.
  intros HF HS. rewrite <- (length_map bu_key bs). apply Permutation_length, NoDup_Permutation.
  - by apply sorted_NoDup.
  - apply NoDup_remove_dups.
  - intros k. rewrite elem_of_remove_dups. split; [by apply bucket_edge|].
    intros Hk. apply list_elem_of_fmap in Hk as (e & -> & He). by apply edge_bucket.
Qed.

Lemma sorted_head_le ks k a : sorted_keys ks → k ∈ ks → ¬ bytes_lt k (default a (head ks)).
Proof.
  intros HS Hk Hlt. destruct HS as [|x ks HS HF]; [by apply not_elem_of_nil in Hk|]. cbn in Hlt.
  apply elem_of_cons in Hk as [->|Hk]; [by apply bytes_lt_irrefl in Hlt|]. rewrite Forall_forall in HF.
  eapply bytes_lt_irrefl, bytes_lt_trans; [exact Hlt|by apply HF].
Qed.
Lemma sorted_last_ge ks k a : sorted_keys ks → k ∈ ks → ¬ bytes_lt (default a (last ks)) k.
Proof.
  intros HS Hk Hlt. destruct ks as [|y ks _] using rev_ind; [by apply not_elem_of_nil in Hk|].
  rewrite last_snoc in Hlt. cbn in Hlt. apply elem_of_app in Hk as [Hk|Hk%list_elem_of_singleton].
  - eapply bytes_lt_irrefl, bytes_lt_trans; [exact Hlt|].
    by apply (StronglySorted_app_1_elem_of _ _ _ _ _ HS Hk), list_elem_of_singleton.
  - rewrite Hk in Hlt. by apply bytes_lt_irrefl in Hlt.
Qed.

Section Sst.
Context (xxh3_64 : list byte → Z) (blake3 : list byte → list byte).
Context (zstd_encode : list byte → option (list byte)) (zstd_decompress : list byte → Z → option (list byte)).
Hypothesis xxh3_64_u64 : ∀ bs, is_u64 (xxh3_64 bs).
Hypothesis blake3_length : ∀ bs, length (blake3 bs) = 32%nat.
Hypothesis zstd_law : ∀ raw enc,
  zstd_encode raw = Some enc → zstd_decompress enc (Z.of_nat (length raw)) = Some raw.
Context `{PJ : PropertyJson, PI : EdgePointIndex} (crc32 : list byte → Z).
Context (opts : EdgeSstWriterOptions) (id : list byte).

(** The bytes of an upload, in wire order. *)
Definition upload_bytes (u : EdgeSstUpload) : list byte := eu_header u ++ concat (eu_files u).

(** ** What [finish_with_point_index] computed *)

Definition flags_of (w : EdgeSstWriter) (has_props : bool) : Z :=
  let flags := 0 in
  let flags := match eo_direction (ew_options w) with
               | Inverse => Z.lor flags FLAG_INVERSE_PARTNER | Forward => flags end in
  let flags := if 0 <? ct_tombstone_count (ew_counters w) then Z.lor flags FLAG_HAS_TOMBSTONES else flags in
  let flags := if ct_any_skew_block (ew_counters w) then Z.lor flags FLAG_SKEW_BUCKETS else flags in
  if has_props then Z.lor flags FLAG_HAS_PROPERTIES else flags.

Definition header_of (w : EdgeSstWriter) (has_props : bool) : EdgeFileHeader :=
  EdgeFileHeader_new blake3 (eo_edge_type (ew_options w)) (eo_src_label (ew_options w))
    (eo_dst_label (ew_options w)) (flags_of w has_props).

Definition fence_of (w : EdgeSstWriter) : option (list byte) :=
  if eo_fence_threshold (ew_options w) <? ct_key_count (ew_counters w)
  then Some (le_split 4 (Z.max (eo_fence_stride (ew_options w)) 1)
             ++ le_split 4 (sp_fence_entry_count (ew_spools w)) ++ sp_fence_entries (ew_spools w))
  else None.

Definition pending_of (w : EdgeSstWriter) (width : OffsetWidth) (overflow : option (list byte * Z))
    (declared : list (list byte * list byte * Z)) : list PendingSection :=
  let sp := close_spools (ew_spools w) in
  pending_sections sp
    (pack_offsets (Z.to_nat (ct_key_count (ew_counters w) + 1)) (sp_raw_offsets sp) width [])
    (0 <? ct_tombstone_count (ew_counters w)) (fence_of w) overflow declared.

Definition footer_of (w : EdgeSstWriter) (width : OffsetWidth) (sections : list SectionEntry)
    : EdgeFileFooter :=
  let ct := ew_counters w in
  {| ef_sections := sections;
     ef_key_count := ct_key_count ct;
     ef_edge_count := ct_edge_count ct;
     ef_offsets_bits := OffsetWidth_as_bits width;
     ef_min_key_id := default (replicate 16 (z2b 0)) (ct_min_key_id ct);
     ef_max_key_id := default (replicate 16 (z2b 0)) (ct_max_key_id ct);
     ef_min_lsn := if ct_edge_count ct =? 0 then 0 else ct_min_lsn ct;
     ef_max_lsn := ct_max_lsn ct;
     ef_schema_version_min := eo_schema_version (ew_options w);
     ef_schema_version_max := eo_schema_version (ew_options w) |}.

Record finished (w : EdgeSstWriter) (build : EdgeSstBuild) (width : OffsetWidth)
    (overflow : option (list byte * Z)) (declared : list (list byte * list byte * Z)) (has_props : bool)
    (files : list (list byte)) (sections : list SectionEntry) (next : Z) (foot : list byte) (foot_len : nat)
    : Prop := {
  fin_max : Z.of_nat (length (sp_partners (ew_spools w))) < 2 ^ 48;
  fin_width : OffsetWidth_for_max (Z.of_nat (length (sp_partners (ew_spools w)))) = Some width;
  fin_overflow : PropertyStream_finish xxh3_64 zstd_encode (ew_overflow w) = Ok overflow;
  fin_declared : finish_declared xxh3_64 zstd_encode
    (zip (eo_declared_properties (ew_options w)) (ew_declared_streams w)) = Ok declared;
  fin_props : has_props = match overflow, declared with None, [] => false | _, _ => true end;
  fin_sealed : seal_sections xxh3_64 (ew_sst_id w) (EdgeFileHeader_encode (header_of w has_props) [])
    (pending_of w width overflow declared) = Ok (files, sections, next);
  fin_footer : EdgeFileFooter_encode xxh3_64 (footer_of w width sections) [] = Ok (foot, foot_len);
  fin_fits : next + Z.of_nat foot_len ≤ u64_max;
  fin_body : ebd_body build = {| eu_header := EdgeFileHeader_encode (header_of w has_props) [];
                                 eu_files := files ++ [foot];
                                 eu_size_bytes := next + Z.of_nat foot_len |};
  fin_id : ebd_id build = ew_sst_id w;
  fin_bloom : ebd_bloom build = if BLOOM_OMIT_THRESHOLD_BYTES <=? next + Z.of_nat foot_len
                                then Some (ew_bloom w) else None;
  fin_point : ∀ u, ebd_point_index build = Some u → point_entry_count u = ct_edge_count (ew_counters w);
  fin_stats : ebd_stats build =
    {| es_direction := eo_direction (ew_options w);
       es_key_count := ct_key_count (ew_counters w);
       es_edge_count := ct_edge_count (ew_counters w);
       es_tombstone_count := ct_tombstone_count (ew_counters w);
       es_min_key_id := ef_min_key_id (footer_of w width sections);
       es_max_key_id := ef_max_key_id (footer_of w width sections);
       es_min_lsn := ef_min_lsn (footer_of w width sections);
       es_max_lsn := ef_max_lsn (footer_of w width sections);
       es_degree_histogram := ct_degree_histogram (ew_counters w);
       es_schema_version_min := eo_schema_version (ew_options w);
       es_schema_version_max := eo_schema_version (ew_options w) |};
}.

Lemma finish_inverted w0 build :
  finish_with_point_index xxh3_64 blake3 zstd_encode w0 = Some (Ok build) →
  ∃ w width overflow declared has_props files sections next foot foot_len,
    flush_current_bucket w0 = Ok w
    ∧ finished w build width overflow declared has_props files sections next foot foot_len.
Proof.
  unfold finish_with_point_index. intros H. apply outcome_bind_Ok in H as (w & Hw%lift_Ok & H).
  cbv zeta in H. match type of H with (if ?c then _ else _) = _ => destruct c eqn:Hmax; [done|] end.
  apply outcome_bind_Ok in H as (width & Hwidth & H). apply outcome_bind_Ok in H as (rows & Hrows%lift_Ok & H).
  apply ok_or_Ok, checked_add64_Some in Hrows as [-> Hrows].
  apply outcome_bind_Ok in H as (ov & Hov%lift_Ok & H). apply outcome_bind_Ok in H as (decl & Hdecl%lift_Ok & H).
  apply outcome_bind_Ok in H as ([[files sections] next] & Hseal%lift_Ok & H).
  apply outcome_bind_Ok in H as ([foot foot_len] & Hfoot%lift_Ok & H).
  apply outcome_bind_Ok in H as (body_len & Hlen%lift_Ok & H).
  apply ok_or_Ok, checked_add64_Some in Hlen as [-> Hlen].
  apply outcome_bind_Ok in H as (point & _ & H).
  match type of H with (if ?c then _ else _) = _ => destruct c; [done|] end.
  match type of H with (if ?c then _ else _) = _ => destruct c eqn:Hpoint; [done|] end.
  injection H as <-.
  exists w, width, ov, decl, (match ov, decl with None, [] => false | _, _ => true end), files, sections, next, foot, foot_len.
  split; [done|]. split; try done.
  - apply Z.leb_gt in Hmax. exact Hmax.
  - cbn [close_spools sp_partners] in Hwidth. destruct (OffsetWidth_for_max _); [|done]. by injection Hwidth as ->.
  - by destruct ov, decl.
  - by destruct ov, decl.
  - cbn. intros u ->. apply negb_false_iff, Z.eqb_eq in Hpoint. done.
Qed.

(** ** Finished property sections *)

Lemma finish_codec s body codec :
  PropertyStream_finish xxh3_64 zstd_encode s = Ok (Some (body, codec)) → is_u8 codec.
Proof.
  unfold PropertyStream_finish. destruct (negb _); [done|]. intros H.
  apply result_bind_Ok in H as (s' & _ & H). apply result_bind_Ok in H as (dl & _ & H).
  match type of H with (if ?c then _ else _) = _ => destruct c; [|done] end.
  apply result_bind_Ok in H as (ps & _ & H). cbv zeta in H. apply result_bind_Ok in H as (out & _ & H).
  apply Ok_inj in H. injection H as _ <-. by destruct (ps_compress s').
Qed.

Lemma finish_declared_inv streams secs :
  finish_declared xxh3_64 zstd_encode streams = Ok secs →
  Forall (λ sec, is_u8 sec.2 ∧ sec.1.1 ∈ map fst streams) secs.
Proof.
  revert secs. induction streams as [|[name s] streams IH]; intros secs H; cbn [finish_declared] in H.
  { apply Ok_inj in H as <-. constructor. }
  apply result_bind_Ok in H as (r & Hr & H). apply result_bind_Ok in H as (rest & Hrest & H).
  apply Ok_inj in H as <-. apply IH in Hrest.
  assert (Forall (λ sec : list byte * list byte * Z, is_u8 sec.2 ∧ sec.1.1 ∈ map fst ((name, s) :: streams)) rest) as HF.
  { eapply Forall_impl; [apply Hrest|]. intros sec [Hc Hn]. split; [done|]. by right. }
  destruct r as [[body codec]|]; [|done]. constructor; [|done]. split; [by eapply finish_codec|left].
Qed.

(** The section of a stream is the only one of its name. *)
Lemma finish_declared_lookup streams secs j name s :
  NoDup (map fst streams) → finish_declared xxh3_64 zstd_encode streams = Ok secs →
  streams !! j = Some (name, s) →
  ∃ r, PropertyStream_finish xxh3_64 zstd_encode s = Ok r ∧
    match r with
    | Some (body, codec) => ∃ pre post, secs = pre ++ (name, body, codec) :: post
        ∧ Forall (λ sec, sec.1.1 ≠ name) pre
    | None => Forall (λ sec, sec.1.1 ≠ name) secs
    end.
Proof.
  revert secs j. induction streams as [|[name' s'] streams IH]; intros secs j Hnd H Hj; [done|].
  cbn [finish_declared] in H. apply result_bind_Ok in H as (r & Hr & H).
  apply result_bind_Ok in H as (rest & Hrest & H). apply Ok_inj in H as <-.
  cbn [map fst] in Hnd. apply NoDup_cons in Hnd as [Hni Hnd].
  destruct j as [|j]; cbn [lookup list_lookup] in Hj.
  - injection Hj as -> ->. exists r. split; [done|]. apply finish_declared_inv in Hrest.
    assert (Forall (λ sec : list byte * list byte * Z, sec.1.1 ≠ name) rest) as HF.
    { eapply Forall_impl; [apply Hrest|]. intros sec [_ Hn] He. apply Hni. by rewrite <- He. }
    destruct r as [[body codec]|]; [|done]. by exists [], rest.
  - destruct (IH _ _ Hnd Hrest Hj) as (r' & Hr' & Hcase). exists r'. split; [done|].
    assert (name' ≠ name) as Hne.
    { intros ->. apply Hni. apply (list_elem_of_lookup_2 _ j).
      by apply (list_lookup_fmap_Some_2 fst streams j (name, s)). }
    destruct r' as [[body' codec']|]; destruct r as [[body codec]|]; try done.
    + destruct Hcase as (pre & post & -> & HF). exists ((name', body, codec) :: pre), post. split; [done|]. by constructor.
    + by constructor.
Qed.

(** ** Reading a stream back *)

(** The bytes of a page at its entry's offset. *)
Lemma page_slice raw pre p tail row :
  raw = pre ++ pg_enc p ++ tail → Z.of_nat (length raw) ≤ u64_max →
  let e := page_entry xxh3_64 row (Z.of_nat (length pre)) p in
  let end_ := Z.of_nat (length pre + length (pg_enc p)) in
  checked_add64 (pp_offset e) (pp_encoded_len e) = Some end_ ∧ end_ ≤ Z.of_nat (length raw)
  ∧ get_slice raw (Z.to_nat (pp_offset e)) (Z.to_nat end_) = Some (pg_enc p).
Proof.
  intros Hraw Hfit e end_.
  assert (length raw = length pre + (length (pg_enc p) + length tail))%nat as Hl by (by rewrite Hraw, !length_app).
  subst e end_. cbn [page_entry pp_offset pp_encoded_len]. rewrite checked_add64_le by lia.
  split_and!; [f_equal; lia|lia|]. rewrite get_slice_Some by lia. f_equal. rewrite Hraw. apply slice_app_mid; lia.
Qed.

Lemma read_pages_spec compressed pre ps raw out :
  Forall (page_ok zstd_decompress compressed) ps →
  raw = pre ++ stream_payload ps → Z.of_nat (length raw) ≤ u64_max →
  ∀ row, read_pages xxh3_64 zstd_decompress raw compressed (page_entries xxh3_64 row (Z.of_nat (length pre)) ps) out
  = Ok (out ++ stream_rows ps).
Proof.
  intros HF. revert pre out. induction HF as [|p ps Hp HF IH]; intros pre out Hraw Hfit row.
  { cbn. by rewrite app_nil_r. }
  destruct (page_slice raw pre p (stream_payload ps) row Hraw Hfit) as (Hadd & Hle & Hget).
  cbn [page_entries read_pages]. rewrite Hadd. cbn [ok_or mbind result_bind].
  rewrite (proj2 (Z.ltb_ge _ _) Hle), Hget. cbn [ok_or mbind result_bind].
  rewrite decode_page by done. cbn [mbind result_bind].
  replace (Z.of_nat (length pre) + Z.of_nat (length (pg_enc p))) with (Z.of_nat (length (pre ++ pg_enc p)))
    by (rewrite length_app; lia).
  rewrite IH; [by rewrite <- (assoc_L (++))|by rewrite Hraw, <- (assoc_L (++))|done].
Qed.

Lemma stream_bytes_split ps :
  ∃ pre, length pre = payload_start ps ∧ stream_bytes xxh3_64 ps = pre ++ stream_payload ps.
Proof.
  pose proof (length_stream_bytes xxh3_64 ps) as Hl. unfold stream_bytes in *.
  repeat rewrite (assoc_L (++)) in Hl |- *. eexists. split; [|done]. rewrite length_app in Hl. lia.
Qed.

(** Where a reader finds the values of a column: a section of decodable pages, or no
    section when there is no value. *)
Definition stream_found (r : EdgeSstReader) (name : list byte) (vs : list PropValue) : Prop :=
  match EdgeFileFooter_find (rd_footer r) SECTION_PROPERTY_STREAM name with
  | None => existsb is_value vs = false
  | Some entry =>
      existsb is_value vs = true ∧
      ∃ compressed ps,
        Forall (page_ok zstd_decompress compressed) ps ∧ stream_rows ps = vs ∧ (length ps ≤ length vs)%nat
        ∧ verified_section xxh3_64 (rd_body r) entry = Ok (stream_bytes xxh3_64 ps)
        ∧ se_length entry = Z.of_nat (length (stream_bytes xxh3_64 ps))
        ∧ Z.of_nat (length (stream_bytes xxh3_64 ps)) ≤ u64_max
        ∧ se_codec entry = (if compressed then CODEC_PROPERTY_PAGED_ZSTD else CODEC_PROPERTY_PAGED_NONE)
  end.

Lemma found_index ps compressed (n : nat) :
  Forall (page_ok zstd_decompress compressed) ps → length (stream_rows ps) = n → (length ps ≤ n)%nat →
  Z.of_nat n * Z.of_nat PROPERTY_PAGE_ENTRY_LEN ≤ MAX_PROPERTY_PAGE_DIRECTORY_BYTES → Z.of_nat n ≤ u64_max →
  Z.of_nat (length (stream_bytes xxh3_64 ps)) ≤ u64_max →
  PropertyPageIndex_parse_prefix (stream_bytes xxh3_64 ps) (Z.of_nat (length (stream_bytes xxh3_64 ps)))
  = Ok {| pi_row_count := Z.of_nat n; pi_entries := page_entries xxh3_64 0 (Z.of_nat (payload_start ps)) ps |}.
Proof.
  intros Hok Hn Hps Hdir Hfit Hlen. rewrite (parse_prefix_stream xxh3_64 zstd_decompress xxh3_64_u64 compressed);
    [by rewrite Hn|done| |done|by rewrite Hn]. unfold PROPERTY_PAGE_ENTRY_LEN in *. lia.
Qed.

(** What the reader returns for a column. *)
Definition column_value (vs : list PropValue) : option (list PropValue) :=
  if existsb is_value vs then Some vs else None.

Lemma found_reads zstd_decode_all arrow_ipc_strings r name vs n :
  stream_found r name vs → length vs = n → ef_edge_count (rd_footer r) = Z.of_nat n →
  Z.of_nat n * Z.of_nat PROPERTY_PAGE_ENTRY_LEN ≤ MAX_PROPERTY_PAGE_DIRECTORY_BYTES → Z.of_nat n ≤ u64_max →
  read_named_property_stream xxh3_64 zstd_decompress zstd_decode_all arrow_ipc_strings r name = Ok (column_value vs).
Proof.
  intros Hf Hvs Hn Hdir Hfit. unfold stream_found in Hf. unfold read_named_property_stream, column_value, section_with_name.
  destruct (EdgeFileFooter_find _ _ _) as [entry|]; [|by rewrite Hf].
  destruct Hf as (-> & compressed & ps & Hok & Hrows & Hps & Hv & Hlen & Hu & Hcodec).
  cbn [ok_or mbind result_bind]. rewrite Hv. cbn [mbind result_bind]. rewrite Hlen, Hcodec.
  rewrite (found_index ps compressed n) by (done || by rewrite ?Hrows, <- ?Hvs).
  destruct (stream_bytes_split ps) as (pre & Hpre & Hsplit).
  destruct compressed; cbn [Z.eqb Pos.eqb orb CODEC_PROPERTY_PAGED_NONE CODEC_PROPERTY_PAGED_ZSTD mbind result_bind
      pi_row_count pi_entries]; rewrite Hn, Z.eqb_refl, <- Hpre, (read_pages_spec _ pre ps) by done;
    cbn [mbind result_bind app]; by rewrite Hrows.
Qed.

(** ** Bounds of the LSN columns *)

Lemma fold_min_u64 zs a : is_u64 a → Forall is_u64 zs → is_u64 (fold_left Z.min zs a).
Proof.
  intros Ha HF. revert a Ha. induction HF as [|z zs Hz HF IH]; intros a Ha; [done|]. cbn [fold_left].
  apply IH. unfold is_uint in *. lia.
Qed.
Lemma fold_max_u64 zs a : is_u64 a → Forall is_u64 zs → is_u64 (fold_left Z.max zs a).
Proof.
  intros Ha HF. revert a Ha. induction HF as [|z zs Hz HF IH]; intros a Ha; [done|]. cbn [fold_left].
  apply IH. unfold is_uint in *. lia.
Qed.

(** ** Where each section is *)

Lemma plain_section_at header foot full f pre kind spool post :
  length header = HEADER_LEN → (FOOTER_TRAILER_LEN ≤ length foot)%nat →
  Z.of_nat (length (sealed_body header foot full)) ≤ u64_max →
  ef_sections f = entries_of xxh3_64 (Z.of_nat HEADER_LEN) full →
  full = pre ++ plain_section kind spool :: post →
  Forall (λ p, pn_kind p ≠ kind) pre → Forall (λ p, pn_kind p ≠ kind) post →
  plain_at (sealed_body header foot full) f kind spool.
Proof.
  intros Hh Hf Hb Hs Hfull H1 H2.
  exists (entry_of xxh3_64 (Z.of_nat HEADER_LEN + Z.of_nat (length (payload pre))) (plain_section kind spool)).
  split_and!; [|..|done|done].
  - by eapply unique_section_at.
  - by eapply find_kind_at.
  - by eapply (section_slice_at xxh3_64 header foot full Hh Hf Hb pre (plain_section kind spool)).
Qed.

Lemma section_absent f full kind :
  ef_sections f = entries_of xxh3_64 (Z.of_nat HEADER_LEN) full → Forall (λ p, pn_kind p ≠ kind) full →
  absent f kind.
Proof. intros Hs HF. split; [by eapply unique_section_none|by eapply find_kind_none]. Qed.

Section Finished.
Context (w : EdgeSstWriter) (bs : list bucket) (build : EdgeSstBuild) (width : OffsetWidth)
  (overflow : option (list byte * Z)) (declared : list (list byte * list byte * Z)) (has_props : bool)
  (files : list (list byte)) (sections : list SectionEntry) (next : Z) (foot : list byte) (foot_len : nat).
Hypothesis winv : writer_inv xxh3_64 zstd_decompress opts id w bs [].
Hypothesis fin : finished w build width overflow declared has_props files sections next foot foot_len.
Hypothesis id_len : length id = 16%nat.
Hypothesis schema_ok : is_u64 (eo_schema_version opts).
Hypothesis stride_ok : eo_fence_stride opts ≤ u32_max.
Hypothesis names_ok : Forall (λ name, utf8_valid name = true) (eo_declared_properties opts).

#[local] Abbreviation sk := (skew_of opts).
#[local] Abbreviation sp := (close_spools (ew_spools w)).
#[local] Abbreviation rs := (all_edges bs).

Lemma spools_are : spools_inv sk (stride_of opts) (ew_spools w) bs rs.
Proof. pose proof (wi_spools _ _ _ _ _ _ _ winv) as H. by rewrite app_nil_r in H. Qed.
Lemma counters_are : counters_inv sk (ew_counters w) bs rs.
Proof. pose proof (wi_counters _ _ _ _ _ _ _ winv) as H. by rewrite app_nil_r in H. Qed.

Lemma keys_are_sorted : sorted_keys (map bu_key bs).
Proof. pose proof (wi_sorted _ _ _ _ _ _ _ winv) as H. unfold all_keys in H. by rewrite app_nil_r in H. Qed.

Lemma width_fits : Z.of_nat (length (partner_section sk bs)) < 2 ^ OffsetWidth_as_bits width.
Proof.
  rewrite <- (pi_partners _ _ _ _ _ spools_are).
  apply OffsetWidth_for_max_fits; [lia|]. exact (fin_width _ _ _ _ _ _ _ _ _ _ _ fin).
Qed.

Lemma raw_offsets_are : sp_raw_offsets sp = le64s (starts_of sk bs).
Proof.
  cbn [close_spools sp_raw_offsets]. unfold starts_of.
  by rewrite (pi_raw_offsets _ _ _ _ _ spools_are), (pi_partners _ _ _ _ _ spools_are), le64s_app, le64s_one.
Qed.
Lemma ordinals_are : sp_edge_ordinals sp = le64s (0 :: ordinals 0 bs).
Proof.
  pose proof (pi_ordinals _ _ _ _ _ spools_are) as H. cbn [close_spools sp_edge_ordinals].
  destruct bs; injection H as -> ->; [|done]. by rewrite app_nil_l, <- le64s_one.
Qed.

Lemma offsets_are :
  pack_offsets (Z.to_nat (ct_key_count (ew_counters w) + 1)) (sp_raw_offsets sp) width []
  = offset_table width (starts_of sk bs).
Proof.
  rewrite raw_offsets_are, (ci_key_count _ _ _ _ counters_are).
  replace (Z.to_nat (Z.of_nat (length bs) + 1)) with (length (starts_of sk bs)) by (rewrite length_starts_of; lia).
  rewrite pack_offsets_spec; [done|]. eapply Forall_impl; [apply starts_bound|]. cbv beta.
  intros x Hx. pose proof (fin_max _ _ _ _ _ _ _ _ _ _ _ fin) as Hm. rewrite (pi_partners _ _ _ _ _ spools_are) in Hm.
  unfold is_uint. lia.
Qed.

Definition tomb_of : option (list byte) :=
  if 0 <? ct_tombstone_count (ew_counters w) then Some (sp_tombstones sp) else None.

Lemma tomb_bytes : match tomb_of with
  | Some bytes => bitmap_holds bytes (tombstones_of rs) ∧ Z.of_nat (length bytes) = (Z.of_nat (length rs) + 7) / 8
  | None => Forall (λ e, er_tombstone e = false) rs
  end.
Proof.
  unfold tomb_of. destruct (Z.ltb_spec 0 (ct_tombstone_count (ew_counters w))) as [_|H0].
  - exact (close_bitmap _ _ _ _ _ spools_are).
  - rewrite (ci_tombstones _ _ _ _ counters_are) in H0.
    assert (filter (λ r, er_tombstone r = true) rs = []) as Hf by (apply length_zero_iff_nil; lia).
    apply Forall_forall. intros e He. destruct (er_tombstone e) eqn:Et; [|done].
    exfalso. apply (not_elem_of_nil e). rewrite <- Hf. by apply list_elem_of_filter.
Qed.

Definition property_sections : list PendingSection :=
  match overflow with
  | Some (body, codec) =>
      [{| pn_kind := SECTION_PROPERTY_STREAM; pn_name := OVERFLOW_JSON_NAME; pn_codec := codec;
          pn_spool := body |}]
  | None => []
  end
  ++ map (λ '(name, body, codec),
         {| pn_kind := SECTION_PROPERTY_STREAM; pn_name := name; pn_codec := codec; pn_spool := body |})
       declared.
Definition optional_section (kind : Z) (spool : option (list byte)) : list PendingSection :=
  match spool with Some spool => [plain_section kind spool] | None => [] end.
Definition topology : list PendingSection :=
  [plain_section SECTION_KEY_IDS (concat (map bu_key bs));
   plain_section SECTION_OFFSETS (offset_table width (starts_of sk bs));
   plain_section SECTION_EDGE_ORDINALS (le64s (0 :: ordinals 0 bs));
   plain_section SECTION_PARTNERS (partner_section sk bs);
   plain_section SECTION_PER_EDGE_LSN (le64s (map er_lsn rs))].

Lemma pending_are :
  pending_of w width overflow declared
  = topology ++ optional_section SECTION_PER_EDGE_TOMBSTONES tomb_of
    ++ optional_section SECTION_FENCE_INDEX (fence_of w) ++ property_sections.
Proof.
  unfold pending_of, pending_sections. rewrite offsets_are, ordinals_are.
  cbn [close_spools sp_key_ids sp_partners sp_lsns].
  rewrite (pi_key_ids _ _ _ _ _ spools_are), (pi_partners _ _ _ _ _ spools_are), (pi_lsns _ _ _ _ _ spools_are).
  unfold tomb_of. by destruct (0 <? _).
Qed.

(** ** The sealed body *)

#[local] Abbreviation header_bytes := (EdgeFileHeader_encode (header_of w has_props) []).

Lemma sst_header_fields : header_ok (header_of w has_props) ∧ length header_bytes = HEADER_LEN.
Proof.
  assert (∀ bs, length (blake3_short blake3 bs) = 16%nat) as Hb.
  { intros b. unfold blake3_short. rewrite length_take, blake3_length. done. }
  split.
  - unfold header_ok, header_of, EdgeFileHeader_new. cbn [eh_format_major eh_format_minor eh_flags
      eh_edge_type_id eh_src_label_id eh_dst_label_id]. split_and!; try apply Hb; try done.
    + unfold flags_of. by destruct (eo_direction _), (0 <? _), (ct_any_skew_block _), has_props.
    + unfold flags_of. by destruct (eo_direction _), (0 <? _), (ct_any_skew_block _), has_props.
  - unfold EdgeFileHeader_encode, header_of, EdgeFileHeader_new. cbn [eh_format_major eh_format_minor eh_flags
      eh_edge_type_id eh_src_label_id eh_dst_label_id]. autorewrite with lengths. rewrite !Hb. done.
Qed.

Lemma tombstone_flag_is :
  negb (Z.land (eh_flags (header_of w has_props)) FLAG_HAS_TOMBSTONES =? 0)
  = match tomb_of with Some _ => true | None => false end.
Proof.
  unfold header_of, EdgeFileHeader_new, tomb_of, flags_of. cbn [eh_flags].
  by destruct (eo_direction _), (0 <? _), (ct_any_skew_block _), has_props.
Qed.

Lemma properties_ok :
  Forall (λ p, pn_kind p = SECTION_PROPERTY_STREAM ∧ is_u8 (pn_codec p) ∧ utf8_valid (pn_name p) = true)
    property_sections.
Proof.
  pose proof (fin_overflow _ _ _ _ _ _ _ _ _ _ _ fin) as Ho. pose proof (fin_declared _ _ _ _ _ _ _ _ _ _ _ fin) as Hd.
  unfold property_sections. apply Forall_app. split.
  - destruct overflow as [[body codec]|]; constructor; [|constructor]. cbn. split_and!; [done| |done].
    by eapply finish_codec.
  - apply Forall_map. eapply Forall_impl; [by apply finish_declared_inv in Hd|].
    intros [[name body] codec] [Hc Hn]. cbn in *. split_and!; [done..|].
    rewrite Forall_forall in names_ok. apply names_ok.
    apply list_elem_of_lookup in Hn as [j Hj]. apply list_lookup_fmap_Some in Hj as ([n s] & -> & Hj). cbn.
    apply lookup_zip_Some in Hj as [Hj _]. rewrite (wi_options _ _ _ _ _ _ _ winv) in Hj. by eapply list_elem_of_lookup_2.
Qed.

Lemma pending_kinds :
  Forall (λ p, pn_kind p ≠ SECTION_SST_BINDING ∧ pn_kind p ≠ SECTION_PAGE_CHECKSUMS)
    (pending_of w width overflow declared)
  ∧ Forall (λ p, is_u16 (pn_kind p) ∧ is_u8 (pn_codec p) ∧ utf8_valid (pn_name p) = true)
    (pending_of w width overflow declared).
Proof.
  rewrite pending_are. split; (apply Forall_app; split; [by repeat constructor|]).
  - apply Forall_app. split; [destruct tomb_of; by repeat constructor|].
    apply Forall_app. split; [destruct (fence_of w); by repeat constructor|].
    eapply Forall_impl; [apply properties_ok|]. by intros p (-> & _).
  - apply Forall_app. split; [destruct tomb_of; by repeat constructor|].
    apply Forall_app. split; [destruct (fence_of w); by repeat constructor|].
    eapply Forall_impl; [apply properties_ok|]. by intros p (-> & Hc & Hn).
Qed.

Lemma rows_are_ok : Forall record_ok rs ∧ Z.of_nat (length rs) ≤ u64_max.
Proof.
  pose proof (records_ok _ _ _ _ _ _ _ winv) as H1. pose proof (edges_fit _ _ _ _ _ _ _ winv) as H2.
  by rewrite app_nil_r in H1, H2.
Qed.

Lemma bucket_key_len b : b ∈ bs → length (bu_key b) = 16%nat.
Proof.
  intros Hb. pose proof (wi_closed _ _ _ _ _ _ _ winv) as HF. rewrite Forall_forall in HF.
  destruct (HF _ Hb) as (Hne & HE & _). destruct (bu_edges b); [done|].
  by inversion HE as [|? ? [(Hk & _) <-] _].
Qed.

Lemma footer_fields :
  Forall section_ok sections → footer_ok (footer_of w width sections).
Proof.
  intros Hs. destruct rows_are_ok as [Hr Hf]. pose proof counters_are as Hct.
  assert (Forall is_u64 (map er_lsn rs)) as Hl.
  { apply Forall_map. eapply Forall_impl; [apply Hr|]. by intros r (_ & _ & Hl & _). }
  pose proof (closed_le_edges _ (wi_closed _ _ _ _ _ _ _ winv)) as Hle.
  assert (∀ k : option (list byte), (∀ key, k = Some key → ∃ b, key = bu_key b ∧ b ∈ bs) →
    length (default (replicate 16 (z2b 0)) k) = 16%nat) as Hkey.
  { intros [key|] Hk; [|done]. destruct (Hk _ eq_refl) as (b & -> & Hb). by apply bucket_key_len. }
  unfold footer_ok, footer_of. cbn [ef_sections ef_key_count ef_edge_count ef_offsets_bits ef_min_key_id
    ef_max_key_id ef_min_lsn ef_max_lsn ef_schema_version_min ef_schema_version_max].
  rewrite (ci_key_count _ _ _ _ Hct), (ci_edge_count _ _ _ _ Hct), (ci_min_lsn _ _ _ _ Hct),
    (ci_max_lsn _ _ _ _ Hct), (ci_min_key _ _ _ _ Hct), (ci_max_key _ _ _ _ Hct),
    (wi_options _ _ _ _ _ _ _ winv).
  split_and!; try done; try (unfold is_uint; unfold u64_max in *; lia).
  - by destruct width.
  - apply Hkey. intros key Hh. destruct bs as [|b bs']; [done|]. injection Hh as <-. exists b. split; [done|left].
  - apply Hkey. intros key Hh. apply last_Some in Hh as [pre Hh].
    apply (list_elem_of_fmap bu_key). change (bu_key <$> bs) with (map bu_key bs). rewrite Hh. set_solver.
  - destruct (_ =? 0); [done|]. apply fold_min_u64; [done|done].
  - apply fold_max_u64; [done|done].
Qed.

(** The body is a sealed one, and its footer describes it. *)
Lemma body_sealed :
  ∃ b full (f := footer_of w width sections),
    sealed xxh3_64 id header_bytes (pending_of w width overflow declared) b full
    ∧ sections = entries_of xxh3_64 (Z.of_nat HEADER_LEN) full
    ∧ foot = footer_bytes xxh3_64 f ∧ footer_ok f
    ∧ upload_bytes (ebd_body build) = sealed_body header_bytes foot full
    ∧ (FOOTER_TRAILER_LEN ≤ length foot)%nat
    ∧ eu_size_bytes (ebd_body build) = Z.of_nat (length (upload_bytes (ebd_body build)))
    ∧ Z.of_nat (length (upload_bytes (ebd_body build))) ≤ u64_max
    ∧ EdgeFileFooter_decode xxh3_64 (sealed_body header_bytes foot full) = Ok (f, length (header_bytes ++ payload full)).
Proof.
  destruct sst_header_fields as [_ Hhl]. destruct pending_kinds as [Hk1 Hk2].
  pose proof (fin_sealed _ _ _ _ _ _ _ _ _ _ _ fin) as Hs. rewrite (wi_id _ _ _ _ _ _ _ winv) in Hs.
  apply seal_sections_inv in Hs as (b & full & Hsealed & Hr); [|done..]. injection Hr as Hfiles Hsec Hnext.
  exists b, full. cbv zeta.
  assert (Forall section_ok sections) as Hsok.
  { rewrite Hsec. eapply full_entries_ok; eassumption. }
  pose proof (footer_fields Hsok) as Hfok.
  destruct (footer_encode_inv xxh3_64 _ _ _ Hfok (fin_footer _ _ _ _ _ _ _ _ _ _ _ fin)) as [Hr Hu32].
  injection Hr as Hfoot Hlen. cbn [app] in Hfoot.
  assert (upload_bytes (ebd_body build) = sealed_body header_bytes foot full) as Hbody.
  { rewrite (fin_body _ _ _ _ _ _ _ _ _ _ _ fin). unfold upload_bytes, sealed_body, payload. cbn [eu_header eu_files].
    rewrite Hfiles, concat_app. cbn [concat]. by rewrite app_nil_r. }
  assert (length foot = foot_len) as Hfl by (by rewrite Hfoot, length_footer_bytes, Hlen).
  assert (eu_size_bytes (ebd_body build) = Z.of_nat (length (upload_bytes (ebd_body build)))) as Hsize.
  { rewrite Hbody, (fin_body _ _ _ _ _ _ _ _ _ _ _ fin). cbn [eu_size_bytes]. unfold sealed_body.
    rewrite !length_app, Hhl, Hnext, Hfl. lia. }
  pose proof (fin_fits _ _ _ _ _ _ _ _ _ _ _ fin) as Hfits.
  assert (Z.of_nat (length (upload_bytes (ebd_body build))) ≤ u64_max) as Hu.
  { rewrite <- Hsize, (fin_body _ _ _ _ _ _ _ _ _ _ _ fin). exact Hfits. }
  split_and!; try done.
  - rewrite Hfl, Hlen. unfold footer_len. lia.
  - unfold sealed_body. rewrite (assoc_L (++)), Hfoot. apply footer_decode_bytes; try done.
    + rewrite length_app, Hhl. lia.
    + unfold usize_max. rewrite Hbody in Hu. unfold sealed_body in Hu. rewrite !length_app in Hu |- *. lia.
    + cbn [footer_of ef_sections]. rewrite Hsec. apply entries_ranges; [lia|]. rewrite length_app, Hhl. lia.
Qed.

(** ** Opening it *)

Section Opening.
Context (b : EdgeSstBinding) (full : list PendingSection).
Hypothesis is_sealed : sealed xxh3_64 id header_bytes (pending_of w width overflow declared) b full.
Hypothesis sections_are : sections = entries_of xxh3_64 (Z.of_nat HEADER_LEN) full.
Hypothesis foot_fits : (FOOTER_TRAILER_LEN ≤ length foot)%nat.
Hypothesis body_fits : Z.of_nat (length (sealed_body header_bytes foot full)) ≤ u64_max.

#[local] Abbreviation f := (footer_of w width sections).
#[local] Abbreviation sbody := (sealed_body header_bytes foot full).

Definition trailer_sections : list PendingSection :=
  [plain_section SECTION_SST_BINDING (EdgeSstBinding_encode b);
   plain_section SECTION_PAGE_CHECKSUMS (directory_bytes (directory_for xxh3_64 (Z.of_nat HEADER_LEN)
     (pending_of w width overflow declared ++ [plain_section SECTION_SST_BINDING (EdgeSstBinding_encode b)])))].

Lemma full_is :
  full = topology ++ optional_section SECTION_PER_EDGE_TOMBSTONES tomb_of
         ++ optional_section SECTION_FENCE_INDEX (fence_of w) ++ property_sections ++ trailer_sections.
Proof.
  rewrite (sealed_full _ _ _ _ _ _ is_sealed). rewrite pending_are at 1. by rewrite <- !(assoc_L (++)).
Qed.

Lemma properties_kind kind :
  kind ≠ SECTION_PROPERTY_STREAM → Forall (λ p, pn_kind p ≠ kind) property_sections.
Proof. intros Hk. eapply Forall_impl; [apply properties_ok|]. intros p (-> & _). congruence. Qed.

Lemma optional_kind kind kind' spool :
  kind' ≠ kind → Forall (λ p, pn_kind p ≠ kind) (optional_section kind' spool).
Proof. intros Hk. destruct spool; by repeat constructor. Qed.

Lemma topology_at i kind spool :
  topology !! i = Some (plain_section kind spool) → plain_at sbody f kind spool.
Proof.
  intros Hi. destruct sst_header_fields as [_ Hhl].
  apply (plain_section_at header_bytes foot full f (take i topology) kind spool
    (drop (S i) topology ++ optional_section SECTION_PER_EDGE_TOMBSTONES tomb_of
     ++ optional_section SECTION_FENCE_INDEX (fence_of w) ++ property_sections ++ trailer_sections)); try done.
  - rewrite full_is, <- (take_drop_middle topology i (plain_section kind spool)) at 1 by done.
    by rewrite <- (assoc_L (++)).
  - do 5 (destruct i as [|i]; [injection Hi as <- _; by repeat constructor|]). done.
  - rewrite !Forall_app.
    do 5 (destruct i as [|i]; [injection Hi as <- _; split_and!;
      first [by apply optional_kind|by apply properties_kind|by repeat constructor]|]). done.
Qed.

Lemma optional_at :
  plain_or_absent sbody f SECTION_PER_EDGE_TOMBSTONES tomb_of
  ∧ plain_or_absent sbody f SECTION_FENCE_INDEX (fence_of w).
Proof.
  destruct sst_header_fields as [_ Hhl]. pose proof full_is as Hfull. split.
  - destruct tomb_of as [t|].
    + apply (plain_section_at header_bytes foot full f topology _ t _ Hhl foot_fits body_fits sections_are Hfull);
        [by repeat constructor|].
      rewrite !Forall_app. split_and!; [|by apply properties_kind|by repeat constructor].
      by apply optional_kind.
    + eapply section_absent; [done|]. rewrite Hfull, !Forall_app.
      split_and!; [by repeat constructor|by constructor|by apply optional_kind|by apply properties_kind
                  |by repeat constructor].
  - assert (Forall (λ p, pn_kind p ≠ SECTION_FENCE_INDEX)
      (topology ++ optional_section SECTION_PER_EDGE_TOMBSTONES tomb_of)) as Hpre.
    { apply Forall_app. split; [by repeat constructor|by apply optional_kind]. }
    rewrite (assoc_L (++)) in Hfull. destruct (fence_of w) as [t|].
    + apply (plain_section_at header_bytes foot full f _ _ t _ Hhl foot_fits body_fits sections_are Hfull Hpre).
      apply Forall_app. split; [by apply properties_kind|by repeat constructor].
    + eapply section_absent; [done|]. rewrite Hfull. apply Forall_app. split; [done|]. cbn [optional_section app].
      apply Forall_app. split; [by apply properties_kind|by repeat constructor].
Qed.

Lemma fence_decodes : match fence_of w with
  | Some bytes => ∃ stride, FenceIndex_decode bytes = Ok (FenceIndex_build (map bu_key bs) stride)
  | None => True
  end.
Proof.
  unfold fence_of. destruct (_ <? _); [|done]. exists (eo_fence_stride opts).
  pose proof spools_are as Hsp. rewrite (wi_options _ _ _ _ _ _ _ winv), (pi_fence _ _ _ _ _ Hsp).
  assert (Forall (λ k, length k = 16%nat) (map bu_key bs)) as Hkeys.
  { apply Forall_map, Forall_forall. apply bucket_key_len. }
  apply fence_section_decodes; [done| |unfold u32_max in *; lia|apply Hsp|apply Hsp].
  pose proof (plain_fits _ _ _ _ body_fits (topology_at 0 _ _ eq_refl)) as Hf.
  rewrite length_concat_partners in Hf by done. lia.
Qed.

Lemma opens_to_image :
  EdgeFileFooter_decode xxh3_64 sbody = Ok (f, length (header_bytes ++ payload full)) →
  let r := opened sbody f (header_of w has_props) bs width (fence_of w) in
  EdgeSstReader_open xxh3_64 sbody = Ok r ∧ image sk bs r.
Proof.
  intros Hdec r. destruct sst_header_fields as [Hh Hhl]. destruct pending_kinds as [Hk1 Hk2].
  destruct optional_at as [Ht Hf]. pose proof fence_decodes as Hfd. pose proof tomb_bytes as Htb.
  pose proof counters_are as Hct. destruct rows_are_ok as [Hr Hn].
  assert (Z.of_nat (length rs) + 7 ≤ u64_max) as Hfit.
  { pose proof (plain_fits _ _ _ _ body_fits (topology_at 4 _ _ eq_refl)) as Hl.
    unfold le64s in Hl. rewrite length_le_concat, length_map in Hl. unfold u64_max in *. lia. }
  assert (ef_key_count f = Z.of_nat (length bs)) as Hkc by apply Hct.
  assert (ef_edge_count f = Z.of_nat (length rs)) as Hec by apply Hct.
  pose proof (topology_at 0 _ _ eq_refl). pose proof (topology_at 1 _ _ eq_refl).
  pose proof (topology_at 2 _ _ eq_refl). pose proof (topology_at 3 _ _ eq_refl).
  pose proof (topology_at 4 _ _ eq_refl). pose proof width_fits. pose proof keys_are_sorted.
  pose proof (wi_closed _ _ _ _ _ _ _ winv). pose proof tombstone_flag_is. split.
  - eapply (open_ok sbody f (header_of w has_props) sk bs width tomb_of (fence_of w)); try eassumption.
    + unfold sealed_body. by apply header_decode_encode.
    + cbn [footer_of ef_offsets_bits]. by destruct width.
    + by eapply verify_sections_full.
    + by eapply check_page_directory_sealed.
    + by eapply check_binding_sealed.
  - apply (opened_image sbody f (header_of w has_props) sk bs width tomb_of (fence_of w)); try done;
      cbn [footer_of ef_min_key_id ef_max_key_id].
    + rewrite (ci_min_key _ _ _ _ Hct). intros c Hc. by destruct bs; simplify_eq/=.
    + rewrite (ci_max_key _ _ _ _ Hct). intros c Hc. change (map bu_key bs) with (bu_key <$> bs).
      by rewrite fmap_last, Hc.
Qed.

(** ** Property streams *)

#[local] Abbreviation rd := (opened sbody f (header_of w has_props) bs width (fence_of w)).

Lemma stream_at s vs pre sec post :
  full = pre ++ sec :: post → pn_kind sec = SECTION_PROPERTY_STREAM →
  Forall (λ p, ¬ (pn_kind p = SECTION_PROPERTY_STREAM ∧ pn_name p = pn_name sec)) pre →
  PropertyStream_finish xxh3_64 zstd_encode s = Ok (Some (pn_spool sec, pn_codec sec)) →
  holds xxh3_64 zstd_decompress opts s vs → Forall value_utf8 vs →
  stream_found rd (pn_name sec) vs.
Proof.
  intros Hfull Hkind Hpre Hfin (Hc & Ha & pages & Hi) Hutf. destruct sst_header_fields as [_ Hhl].
  apply (finish_inv xxh3_64 zstd_encode zstd_decompress zstd_law _ _ _ _ Hi Hutf Ha) in Hfin
    as (Hany & Hcodec & ps & Hok & Hrows & Hps & Hbody).
  unfold stream_found. cbn [opened rd_footer rd_body].
  rewrite (find_name_at xxh3_64 f full sections_are pre sec post _ _ Hfull Hkind eq_refl Hpre).
  assert (Z.of_nat (length (pn_spool sec)) ≤ u64_max) as Hspool.
  { rewrite Hfull in body_fits. unfold sealed_body, payload in body_fits.
    rewrite map_app, concat_app in body_fits. cbn [map concat] in body_fits. rewrite !length_app in body_fits. lia. }
  split; [done|]. exists (ps_compress s), ps. rewrite <- (Hbody Hspool).
  split_and!; try done. by eapply verified_section_at.
Qed.

Lemma stream_missing name vs :
  Forall (λ p, ¬ (pn_kind p = SECTION_PROPERTY_STREAM ∧ pn_name p = name)) full → existsb is_value vs = false →
  stream_found rd name vs.
Proof.
  intros Hn Hv. unfold stream_found. cbn [opened rd_footer].
  by rewrite (find_name_none xxh3_64 f full sections_are _ _ Hn).
Qed.

Lemma before_properties name :
  Forall (λ p, ¬ (pn_kind p = SECTION_PROPERTY_STREAM ∧ pn_name p = name))
    (topology ++ optional_section SECTION_PER_EDGE_TOMBSTONES tomb_of
     ++ optional_section SECTION_FENCE_INDEX (fence_of w)).
Proof.
  assert (∀ l : list PendingSection, Forall (λ p, pn_kind p ≠ SECTION_PROPERTY_STREAM) l →
    Forall (λ p, ¬ (pn_kind p = SECTION_PROPERTY_STREAM ∧ pn_name p = name)) l) as Hl.
  { intros l HF. eapply Forall_impl; [apply HF|]. naive_solver. }
  apply Hl. rewrite !Forall_app. split_and!; [by repeat constructor|by apply optional_kind..].
Qed.
Lemma trailer_not_properties name :
  Forall (λ p, ¬ (pn_kind p = SECTION_PROPERTY_STREAM ∧ pn_name p = name)) trailer_sections.
Proof. repeat constructor; by intros [? _]. Qed.

Definition overflow_sections : list PendingSection :=
  match overflow with
  | Some (body, codec) =>
      [{| pn_kind := SECTION_PROPERTY_STREAM; pn_name := OVERFLOW_JSON_NAME; pn_codec := codec;
          pn_spool := body |}]
  | None => []
  end.
Definition declared_section (sec : list byte * list byte * Z) : PendingSection :=
  {| pn_kind := SECTION_PROPERTY_STREAM; pn_name := sec.1.1; pn_codec := sec.2; pn_spool := sec.1.2 |}.

Lemma full_properties :
  full = (topology ++ optional_section SECTION_PER_EDGE_TOMBSTONES tomb_of
          ++ optional_section SECTION_FENCE_INDEX (fence_of w))
         ++ overflow_sections ++ map declared_section declared ++ trailer_sections.
Proof.
  rewrite full_is. unfold property_sections. rewrite <- !(assoc_L (++)). do 5 f_equal.
  apply map_ext. by intros [[name body] codec].
Qed.

Hypothesis names_distinct : NoDup (eo_declared_properties opts).
Hypothesis no_overflow_name : OVERFLOW_JSON_NAME ∉ eo_declared_properties opts.

Lemma stream_names : map fst (zip (eo_declared_properties opts) (ew_declared_streams w)) = eo_declared_properties opts.
Proof. apply fst_zip. rewrite (wi_declared _ _ _ _ _ _ _ winv). done. Qed.

Lemma overflow_found : stream_found rd OVERFLOW_JSON_NAME (overflow_column rs).
Proof.
  pose proof (wi_overflow _ _ _ _ _ _ _ winv) as Hh. rewrite app_nil_r in Hh.
  pose proof (overflow_utf8 _ (proj1 rows_are_ok)) as Hutf.
  pose proof (fin_overflow _ _ _ _ _ _ _ _ _ _ _ fin) as Hfin. pose proof full_properties as Hfull.
  unfold overflow_sections in Hfull. assert (∃ o, o = overflow) as [o Ho] by by eexists.
  rewrite <- Ho in Hfin, Hfull. destruct o as [[body codec]|].
  - by eapply (stream_at _ _ _ _ _ Hfull eq_refl); [apply before_properties|exact Hfin|..].
  - apply stream_missing.
    + rewrite Hfull. apply Forall_app. split; [apply before_properties|]. cbn [app].
      apply Forall_app. split; [|apply trailer_not_properties]. apply Forall_map. pose proof (fin_declared _ _ _ _ _ _ _ _ _ _ _ fin) as Hd.
      rewrite (wi_options _ _ _ _ _ _ _ winv) in Hd. eapply Forall_impl; [by apply finish_declared_inv in Hd|].
      intros sec [_ Hn] [_ He]. rewrite stream_names in Hn. cbn in He. rewrite He in Hn. done.
    + destruct Hh as (_ & Ha & pages & Hi).
      by apply (finish_inv xxh3_64 zstd_encode zstd_decompress zstd_law _ _ _ _ Hi Hutf Ha) in Hfin.
Qed.

Lemma declared_found j name :
  eo_declared_properties opts !! j = Some name → stream_found rd name (column j rs).
Proof.
  intros Hj. assert (∃ s, ew_declared_streams w !! j = Some s) as [s Hs].
  { apply lookup_lt_is_Some. rewrite (wi_declared _ _ _ _ _ _ _ winv). by eapply lookup_lt_Some. }
  pose proof (wi_columns _ _ _ _ _ _ _ winv _ _ Hs) as Hh. rewrite app_nil_r in Hh.
  pose proof (column_utf8 j _ (proj1 rows_are_ok)) as Hutf.
  pose proof (fin_declared _ _ _ _ _ _ _ _ _ _ _ fin) as Hd. rewrite (wi_options _ _ _ _ _ _ _ winv) in Hd.
  assert (zip (eo_declared_properties opts) (ew_declared_streams w) !! j = Some (name, s)) as Hz
    by (by apply lookup_zip_Some).
  destruct (finish_declared_lookup _ _ _ _ _ ltac:(by rewrite stream_names) Hd Hz) as (r & Hfin & Hcase).
  assert (name ≠ OVERFLOW_JSON_NAME) as Hne.
  { intros ->. apply no_overflow_name. by eapply list_elem_of_lookup_2. }
  assert (Forall (λ p, ¬ (pn_kind p = SECTION_PROPERTY_STREAM ∧ pn_name p = name)) overflow_sections) as Hov.
  { unfold overflow_sections. destruct overflow as [[body codec]|]; repeat constructor. intros [_ He]. by apply Hne. }
  pose proof full_properties as Hfull. pose proof (before_properties name) as Hbef.
  assert (∀ l, Forall (λ sec : list byte * list byte * Z, sec.1.1 ≠ name) l →
    Forall (λ p, ¬ (pn_kind p = SECTION_PROPERTY_STREAM ∧ pn_name p = name)) (map declared_section l)) as Hmap.
  { intros l HF. apply Forall_map. eapply Forall_impl; [apply HF|]. intros sec Hn [_ He]. done. }
  destruct r as [[body codec]|].
  - destruct Hcase as (pre & post & Hdecl & HF). rewrite Hdecl, map_app in Hfull. cbn [map] in Hfull.
    rewrite <- (assoc_L (++) (map declared_section pre)), (assoc_L (++) overflow_sections) in Hfull.
    rewrite (assoc_L (++) (topology ++ _ ++ _)) in Hfull. cbn [app] in Hfull.
    eapply (stream_at s _ _ (declared_section (name, body, codec)) _ Hfull eq_refl); [|exact Hfin|done|done].
    apply Forall_app. split; [done|]. apply Forall_app. auto.
  - apply stream_missing.
    + rewrite Hfull. apply Forall_app. split; [done|]. rewrite !Forall_app. split_and!; [done|by apply Hmap|].
      apply trailer_not_properties.
    + destruct Hh as (_ & Ha & pages & Hi).
      by apply (finish_inv xxh3_64 zstd_encode zstd_decompress zstd_law _ _ _ _ Hi Hutf Ha) in Hfin.
Qed.
End Opening.
End Finished.

(** ** The theorems *)

(** The options a schema gives: 64-bit schema versions, a 32-bit fence stride, UTF-8
    names, and an SST id of 16 bytes. *)
Record options_ok : Prop := {
  oo_id : length id = 16%nat;
  oo_schema : is_u64 (eo_schema_version opts);
  oo_stride : eo_fence_stride opts ≤ u32_max;
  oo_names : Forall (λ name, utf8_valid name = true) (eo_declared_properties opts);
}.
Hypothesis options_are : options_ok.

(** The writer run from an empty state over [rs], then finished. *)
Definition built (max_entry max_sst : option Z) (rs : list EdgeRecord) (build : EdgeSstBuild) : Prop :=
  ∃ w, EdgeSstWriter_extend xxh3_64 zstd_encode crc32 (EdgeSstWriter_new opts id max_entry max_sst) rs = Some (Ok w)
       ∧ finish_with_point_index xxh3_64 blake3 zstd_encode w = Some (Ok build).

Lemma built_finished max_entry max_sst rs build :
  Forall record_ok rs → built max_entry max_sst rs build →
  ∃ w bs width overflow declared has_props files sections next foot foot_len,
    writer_inv xxh3_64 zstd_decompress opts id w bs [] ∧ all_edges bs = rs
    ∧ finished w build width overflow declared has_props files sections next foot foot_len.
Proof.
  intros Hok (w0 & Hext & Hfin).
  apply finish_inverted in Hfin as (w & width & ov & decl & hp & files & secs & next & foot & n & Hflush & Hfin).
  destruct (writer_flushed_inv xxh3_64 zstd_encode zstd_decompress zstd_law crc32 opts id _ _ _ _ _ Hok Hext Hflush)
    as (bs & Hw & Hrs).
  by exists w, bs, width, ov, decl, hp, files, secs, next, foot, n.
Qed.

Lemma built_widths max_entry max_sst rs build :
  Forall record_ok rs → built max_entry max_sst rs build →
  Forall (λ r, length (er_declared_properties r) = length (eo_declared_properties opts)) rs.
Proof.
  intros Hok (w & Hext & _). by eapply (extend_widths xxh3_64 zstd_encode zstd_decompress zstd_law crc32 opts id);
    [apply (writer_new_inv xxh3_64 zstd_decompress opts id)|..|exact Hext].
Qed.

Lemma built_edge_count max_entry max_sst rs build :
  Forall record_ok rs → built max_entry max_sst rs build → es_edge_count (ebd_stats build) = Z.of_nat (length rs).
Proof.
  intros Hok Hb. destruct (built_finished _ _ _ _ Hok Hb)
    as (w & bs & width & ov & decl & hp & files & secs & next & foot & n & Hw & <- & Hfin).
  rewrite (fin_stats _ _ _ _ _ _ _ _ _ _ _ Hfin). apply (ci_edge_count _ _ _ _ (counters_are w bs Hw)).
Qed.

(** What a finished body is to a reader: an image of the buckets of the records, and
    the sections of their property columns. *)
Lemma built_source max_entry max_sst rs build :
  Forall record_ok rs → built max_entry max_sst rs build →
  ∃ bs r, all_edges bs = rs ∧ EdgeSstReader_open xxh3_64 (upload_bytes (ebd_body build)) = Ok r
    ∧ image (skew_of opts) bs r ∧ Z.of_nat (length rs) ≤ u64_max
    ∧ eu_size_bytes (ebd_body build) = Z.of_nat (length (upload_bytes (ebd_body build)))
    ∧ (NoDup (eo_declared_properties opts) → OVERFLOW_JSON_NAME ∉ eo_declared_properties opts →
       stream_found r OVERFLOW_JSON_NAME (overflow_column rs)
       ∧ ∀ j name, eo_declared_properties opts !! j = Some name → stream_found r name (column j rs)).
Proof.
  intros Hok Hb. destruct options_are as [Hid Hsch Hstr Hnames].
  destruct (built_finished _ _ _ _ Hok Hb)
    as (w & bs & width & ov & decl & hp & files & secs & next & foot & n & Hw & <- & Hfin).
  destruct (body_sealed w bs build width ov decl hp files secs next foot n Hw Hfin Hid Hsch Hstr Hnames)
    as (b & full & Hsealed & Hsecs & _ & _ & Hbody & Hfl & Hsize & Hfit & Hdec).
  rewrite Hbody in Hfit, Hsize |- *.
  destruct (opens_to_image w bs build width ov decl hp files secs next foot n Hw Hfin Hid Hstr Hnames
    b full Hsealed Hsecs Hfl Hfit Hdec) as [Hopen Himg].
  eexists bs, _. split_and!; [done|exact Hopen|done|eapply rows_are_ok; eassumption|exact Hsize|].
  intros Hnd Hov. split; [eapply overflow_found; eassumption|]. intros j name Hj. eapply declared_found; eassumption.
Qed.

(** C4: an edge SST round-trips. If the streaming writer accepts a list of records and
    finishes, then the reader opens the bytes it uploads, whose length is the declared
    one; the full scan returns the records in order; looking up a key returns exactly
    its partners, LSNs and tombstones and the index of its first row, and looking up
    an edge returns its LSN, tombstone and index, or nothing when there is none.
    Each key's block must fit the reader's decode limit. *)
Theorem edge_sst_roundtrip max_entry max_sst rs build env limit :
  Forall record_ok rs → built max_entry max_sst rs build →
  edge_decode_limit_bytes env = Ok limit → limit ≤ u64_max →
  (∀ key, Z.of_nat (length (filter (λ e, er_key_id e = key) rs)) * 16 ≤ limit) →
  eu_size_bytes (ebd_body build) = Z.of_nat (length (upload_bytes (ebd_body build))) ∧
  ∃ r, EdgeSstReader_open xxh3_64 (upload_bytes (ebd_body build)) = Ok r
    ∧ EdgeSstReader_scan_all_edges xxh3_64 env r = Some (Ok (map projection rs))
    ∧ (∀ key, EdgeSstReader_lookup xxh3_64 env r key = Some (Ok (lookup_rows rs key)))
    ∧ ∀ key partner,
        EdgeSstReader_lookup_partner xxh3_64 r key partner = Some (Ok (lookup_edge rs key partner)).
Proof.
  intros Hok Hb Henv Hlim Hdeg. destruct (built_source _ _ _ _ Hok Hb) as (bs & r & <- & Hopen & Himg & Hfit & Hsize & _).
  split; [done|]. exists r. split_and!; [done| | |].
  - apply (scan_image _ (skew_of opts) bs r Himg env limit Henv Hlim). apply Forall_lookup. intros k b Hk.
    destruct (bucket_split _ _ _ Hk) as (pre & post & Hbs & _).
    rewrite <- (bucket_filter _ _ _ Himg _ _ _ Hbs). apply Hdeg.
  - intros key. by apply (lookup_image _ (skew_of opts) bs r Himg env limit).
  - intros key partner. by apply (lookup_partner_image _ (skew_of opts) bs r Himg).
Qed.

(** C12: property columns round-trip. The reader of a finished SST returns, for the
    overflow JSON and for every declared property, the column of values in row order,
    or no column when no row has a value. The declared names are distinct and none is
    the reserved name of the overflow stream, and the page directory, at most one
    entry per row, fits the reader's limit. *)
Theorem edge_sst_properties max_entry max_sst rs build zstd_decode_all arrow_ipc_strings :
  Forall record_ok rs → built max_entry max_sst rs build →
  NoDup (eo_declared_properties opts) → OVERFLOW_JSON_NAME ∉ eo_declared_properties opts →
  Z.of_nat (length rs) * Z.of_nat PROPERTY_PAGE_ENTRY_LEN ≤ MAX_PROPERTY_PAGE_DIRECTORY_BYTES →
  ∃ r, EdgeSstReader_open xxh3_64 (upload_bytes (ebd_body build)) = Ok r
    ∧ read_overflow_strings xxh3_64 zstd_decompress zstd_decode_all arrow_ipc_strings r
      = Ok (column_value (overflow_column rs))
    ∧ ∀ j name, eo_declared_properties opts !! j = Some name →
        read_declared_property_strings xxh3_64 zstd_decompress zstd_decode_all arrow_ipc_strings r name
        = Ok (column_value (column j rs)).
Proof.
  intros Hok Hb Hnd Hov Hpages.
  destruct (built_source _ _ _ _ Hok Hb) as (bs & r & Hrs & Hopen & Himg & Hfit & _ & Hstreams).
  destruct (Hstreams Hnd Hov) as [Ho Hd].
  assert (ef_edge_count (rd_footer r) = Z.of_nat (length rs)) as Hn by (by rewrite <- Hrs, (im_edge_count _ _ _ Himg)).
  exists r. split; [exact Hopen|]. split.
  - apply (found_reads _ _ _ _ _ (length rs)); try done. unfold overflow_column. by rewrite length_map.
  - intros j name Hj. unfold read_declared_property_strings. case_bool_decide as He.
    + exfalso. apply Hov. rewrite <- He. by eapply list_elem_of_lookup_2.
    + apply (found_reads _ _ _ _ _ (length rs)); try done; [by apply Hd|]. unfold column. by rewrite length_map.
Qed.

(** The descriptor of a finished SST is right. The accepted records are strictly
    sorted by key and partner; the edge, key and tombstone counts are those of the
    records; every record is within the LSN and key bounds; the side-car has one entry
    per record; and the Bloom filter, which is left out only for a body under the
    threshold, holds every key. *)
Theorem edge_sst_statistics max_entry max_sst rs build :
  Forall record_ok rs → built max_entry max_sst rs build → is_u8 (eo_bits_per_key opts) →
  Z.max (eo_expected_keys opts) 1 * Z.max (Z.max (eo_bits_per_key opts) 1) 1 ≤ 256 * (2 ^ 32 - 1) →
  let st := ebd_stats build in
  StronglySorted edge_lt rs
  ∧ es_edge_count st = Z.of_nat (length rs)
  ∧ es_key_count st = Z.of_nat (length (remove_dups (map er_key_id rs)))
  ∧ es_tombstone_count st = Z.of_nat (length (filter (λ e, er_tombstone e = true) rs))
  ∧ (∀ e, e ∈ rs → es_min_lsn st ≤ er_lsn e ≤ es_max_lsn st
       ∧ ¬ bytes_lt (er_key_id e) (es_min_key_id st) ∧ ¬ bytes_lt (es_max_key_id st) (er_key_id e))
  ∧ (∀ u, ebd_point_index build = Some u → point_entry_count u = Z.of_nat (length rs))
  ∧ match ebd_bloom build with
    | Some f => ∀ e, e ∈ rs → BloomFilter_contains xxh3_64 f (er_key_id e) = Some true
    | None => eu_size_bytes (ebd_body build) < BLOOM_OMIT_THRESHOLD_BYTES
    end.
Proof.
  intros Hok Hb Hbits Hcap st.
  destruct (built_finished _ _ _ _ Hok Hb)
    as (w & bs & width & ov & decl & hp & files & secs & next & foot & n & Hw & Hrs & Hfin).
  pose proof (counters_are w bs Hw) as Hct. pose proof (keys_are_sorted w bs Hw) as Hks.
  pose proof (wi_closed _ _ _ _ _ _ _ Hw) as Hcl. rewrite Hrs in Hct.
  assert (st = _) as Hst by exact (fin_stats _ _ _ _ _ _ _ _ _ _ _ Hfin). clearbody st. subst st.
  cbn [es_edge_count es_key_count es_tombstone_count es_min_lsn es_max_lsn es_min_key_id es_max_key_id
    footer_of ef_min_key_id ef_max_key_id ef_min_lsn ef_max_lsn].
  rewrite (ci_edge_count _ _ _ _ Hct), (ci_min_lsn _ _ _ _ Hct), (ci_max_lsn _ _ _ _ Hct),
    (ci_min_key _ _ _ _ Hct), (ci_max_key _ _ _ _ Hct), (ci_key_count _ _ _ _ Hct), (ci_tombstones _ _ _ _ Hct).
  split_and!.
  - rewrite <- Hrs. by apply buckets_sorted.
  - done.
  - rewrite <- Hrs. by rewrite <- key_count_distinct.
  - done.
  - intros e He. assert (er_key_id e ∈ map bu_key bs) as Hk by (apply edge_bucket; [done|by rewrite Hrs]).
    assert (er_lsn e ∈ map er_lsn rs) as Hl by by apply (list_elem_of_fmap_2 er_lsn).
    split_and!; [| |by apply sorted_head_le|by apply sorted_last_ge].
    + destruct (Z.eqb_spec (Z.of_nat (length rs)) 0) as [H0|_]; [by destruct rs; [apply not_elem_of_nil in He|]|].
      apply fold_min_le. by right.
    + apply fold_max_ge. by right.
  - intros u Hu. rewrite (fin_point _ _ _ _ _ _ _ _ _ _ _ Hfin _ Hu). apply Hct.
  - rewrite (fin_bloom _ _ _ _ _ _ _ _ _ _ _ Hfin), (fin_body _ _ _ _ _ _ _ _ _ _ _ Hfin). cbn [eu_size_bytes].
    destruct (Z.leb_spec BLOOM_OMIT_THRESHOLD_BYTES (next + Z.of_nat n)); [|done]. intros e He.
    pose proof (wi_bloom _ _ _ _ _ _ _ Hw) as Hbl. unfold all_keys in Hbl. cbn [open_key] in Hbl. rewrite app_nil_r in Hbl.
    assert (is_u8 (Z.max (eo_bits_per_key opts) 1)) as Hbits' by (unfold is_uint in *; lia).
    destruct (insert_all_contains xxh3_64 xxh3_64_u64 _ (map bu_key bs) (with_capacity_wf _ _ Hbits' Hcap))
      as (bf & Hbf & _ & Hin & _).
    rewrite Hbl in Hbf. injection Hbf as <-. apply Hin. apply edge_bucket; [done|by rewrite Hrs].
Qed.
End Sst.
