(* ===== verification/Hll.v ===== *)
(** The HyperLogLog distinct-value sketch ([sst/hll.rs]).

    Registers are bytes, kept as integers. The float-valued [estimate] is not
    modelled; everything it reads is. [assert!] and indexing out of range panic in
    the source and give [None] here. A float is its bit pattern. *)
From S2P Require Import Prelude StorageError.

Definition DEFAULT_PRECISION : Z := 10.
Definition MAGIC : list byte := String.list_byte_of_string "HLL+".
Definition HEADER_LEN : nat := 8.
Definition VERSION : Z := 1.
Definition MIN_PRECISION : Z := 4.
Definition MAX_PRECISION : Z := 18.

Record Hll := { hll_precision : Z; hll_registers : list Z }.

#[global] Instance Hll_eq_dec : EqDecision Hll.
Proof. solve_decision. Defined.

(** [(MIN_PRECISION..=MAX_PRECISION).contains(&precision)] *)
Definition precision_ok (precision : Z) : bool :=
  (MIN_PRECISION <=? precision) && (precision <=? MAX_PRECISION).

Definition Hll_new (precision : Z) : option Hll :=
  if precision_ok precision
  then Some {| hll_precision := precision;
               hll_registers := replicate (Z.to_nat (Z.shiftl 1 precision)) 0 |}
  else None.

Definition with_default_precision : option Hll := Hll_new DEFAULT_PRECISION.

(** [u64::leading_zeros] *)
Definition leading_zeros64 (w : Z) : Z := if w =? 0 then 64 else 63 - Z.log2 w.

Definition register_index (p hash : Z) : Z := Z.shiftr hash (64 - p).

Definition rho (p hash : Z) : Z :=
  let bits := 64 - p in
  let w_mask := if bits =? 64 then u64_max else Z.shiftl 1 bits - 1 in
  let w := Z.land hash w_mask in
  let rho := if w =? 0 then bits + 1 else leading_zeros64 w - p + 1 in
  Z.min rho 255.

Definition Hll_add_hash (s : Hll) (hash : Z) : option Hll :=
  let p := hll_precision s in
  let idx := Z.to_nat (register_index p hash) in
  let rho := rho p hash in
  r ← hll_registers s !! idx;
  Some (if r <? rho
        then {| hll_precision := p; hll_registers := <[idx := rho]> (hll_registers s) |}
        else s).

(** The [for i in 0..self.registers.len()] loop of [merge]. *)
Fixpoint merge_registers (mine other : list Z) : option (list Z) :=
  match mine, other with
  | [], _ => Some []
  | _ :: _, [] => None
  | r :: mine, o :: other =>
      rest ← merge_registers mine other;
      Some ((if r <? o then o else r) :: rest)
  end.

Definition Hll_merge (s other : Hll) : option (Result Hll) :=
  if negb (hll_precision s =? hll_precision other)
  then Some (Err (Invariant "HLL merge precision mismatch"))
  else
    regs ← merge_registers (hll_registers s) (hll_registers other);
    Some (Ok {| hll_precision := hll_precision s; hll_registers := regs |}).

Definition Hll_is_empty (s : Hll) : bool := forallb (λ r, r =? 0) (hll_registers s).

Definition Hll_to_bytes (s : Hll) : list byte :=
  MAGIC ++ [z2b VERSION] ++ [z2b (hll_precision s)] ++ [z2b 0; z2b 0] ++ map z2b (hll_registers s).

Definition Hll_from_bytes (bytes : list byte) : Result Hll :=
  ensure negb (length bytes <? HEADER_LEN)%nat else Invariant "HLL sketch too short";
  ensure bool_decide (take 4 bytes = MAGIC) else Invariant "HLL sketch has invalid magic";
  let version := b2z (byte_at bytes 4) in
  ensure version =? VERSION else Invariant "HLL sketch unsupported version";
  let precision := b2z (byte_at bytes 5) in
  ensure precision_ok precision else Invariant "HLL sketch precision out of range";
  let expected_register_count := Z.to_nat (Z.shiftl 1 precision) in
  let registers := drop HEADER_LEN bytes in
  ensure (length registers =? expected_register_count)%nat
    else Invariant "HLL sketch register count mismatch";
  Ok {| hll_precision := precision; hll_registers := map b2z registers |}.

(** ** Scalars *)

Inductive StatScalar :=
| SBool (b : bool)
| SInt32 (n : Z)
| SInt64 (n : Z)
| SFloat32 (bits : Z)
| SFloat64 (bits : Z)
| SUtf8 (s : list byte)
| SLargeUtf8 (s : list byte)
| SBinary (b : list byte)
| SDate32 (n : Z)
| STimestampMicrosUtc (n : Z).

(** IEEE 754: all exponent bits set and a non-zero significand. *)
Definition is_nan32 (bits : Z) : bool :=
  (Z.land (Z.shiftr bits 23) 0xff =? 0xff) && negb (Z.land bits 0x7fffff =? 0).
Definition is_nan64 (bits : Z) : bool :=
  (Z.land (Z.shiftr bits 52) 0x7ff =? 0x7ff) && negb (Z.land bits 0xfffffffffffff =? 0).
Definition NAN32 : Z := 0x7fc00000.
Definition NAN64 : Z := 0x7ff8000000000000.

Definition stat_scalar_canonical_bytes (value : StatScalar) : list byte :=
  match value with
  | SBool b => [z2b (if b then 1 else 0)]
  | SInt32 n | SDate32 n => le_split 4 n
  | SInt64 n | STimestampMicrosUtc n => le_split 8 n
  | SFloat32 f => le_split 4 (if is_nan32 f then NAN32 else f)
  | SFloat64 f => le_split 8 (if is_nan64 f then NAN64 else f)
  | SUtf8 s | SLargeUtf8 s => s
  | SBinary b => b
  end.

Section Scalars.
Context (xxh3_64 : list byte → Z).

Definition Hll_add_scalar (s : Hll) (value : StatScalar) : option Hll :=
  let hash := xxh3_64 (stat_scalar_canonical_bytes value) in
  Hll_add_hash s hash.

(** Feeding a column. *)
Fixpoint add_scalars (s : Hll) (values : list StatScalar) : option Hll :=
  match values with
  | [] => Some s
  | v :: rest => s ← Hll_add_scalar s v; add_scalars s rest
  end.

End Scalars.

Fixpoint add_hashes (s : Hll) (hashes : list Z) : option Hll :=
  match hashes with
  | [] => Some s
  | h :: rest => s ← Hll_add_hash s h; add_hashes s rest
  end.

Definition sketch (p : Z) (hashes : list Z) : option Hll := s ← Hll_new p; add_hashes s hashes.

(** ** Lemmas *)

(** The type invariant: [2^p] registers, none above the largest possible rank. *)
Definition hll_wf (s : Hll) : Prop :=
  precision_ok (hll_precision s) = true
  ∧ length (hll_registers s) = Z.to_nat (2 ^ hll_precision s)
  ∧ Forall (λ r, 0 ≤ r ≤ 65 - hll_precision s) (hll_registers s).

(** The mathematical content of a register: the largest rank of the hashes that
    select it. *)
Definition register (p : Z) (hashes : list Z) (i : nat) : Z :=
  foldr (λ h acc, if (Z.to_nat (register_index p h) =? i)%nat then Z.max (rho p h) acc else acc) 0 hashes.

Lemma precision_ok_spec p : precision_ok p = true ↔ 4 ≤ p ≤ 18.
Proof. unfold precision_ok, MIN_PRECISION, MAX_PRECISION. rewrite andb_true_iff, !Z.leb_le. done. Qed.

Lemma register_index_range p h : 4 ≤ p ≤ 18 → is_u64 h → 0 ≤ register_index p h < 2 ^ p.
Proof.
  unfold is_uint, register_index. intros Hp Hh. rewrite Z.shiftr_div_pow2 by lia. split.
  - apply Z.div_pos; [lia|]. apply Z.pow_pos_nonneg; lia.
  - apply Z.div_lt_upper_bound; [apply Z.pow_pos_nonneg; lia|].
    rewrite <- Z.pow_add_r by lia. replace (64 - p + p) with 64 by lia. lia.
Qed.

Lemma rho_range p h : 4 ≤ p ≤ 18 → is_u64 h → 1 ≤ rho p h ≤ 65 - p.
Proof.
  unfold is_uint, rho. intros Hp Hh. rewrite (proj2 (Z.eqb_neq (64 - p) 64)) by lia.
  rewrite Z.shiftl_1_l, Z.sub_1_r, <- Z.ones_equiv, Z.land_ones by lia.
  set (w := h `mod` _). assert (0 ≤ w < 2 ^ (64 - p)) by (apply Z.mod_pos_bound, Z.pow_pos_nonneg; lia).
  destruct (Z.eqb_spec w 0); [lia|]. unfold leading_zeros64. rewrite (proj2 (Z.eqb_neq w 0)) by done.
  assert (Z.log2 w < 64 - p) by (apply Z.log2_lt_pow2; lia). pose proof (Z.log2_nonneg w). lia.
Qed.

Lemma register_le p hs i m :
  register p hs i ≤ m ↔ 0 ≤ m ∧ ∀ h, h ∈ hs → Z.to_nat (register_index p h) = i → rho p h ≤ m.
Proof.
  induction hs as [|h hs IH]; cbn [register foldr].
  { split; [|lia]. intros. split; [done|]. by intros ? ?%not_elem_of_nil. }
  fold (register p hs i). destruct (Nat.eqb_spec (Z.to_nat (register_index p h)) i) as [E|E].
  - rewrite Z.max_lub_iff, IH. split.
    + intros (Hh & Hm & Hall). split; [done|]. intros h' [->|]%elem_of_cons; auto.
    + intros (Hm & Hall). split_and!; [|done|]; intros; apply Hall; auto using list_elem_of_here, list_elem_of_further.
  - rewrite IH. split; intros [Hm Hall]; (split; [done|]).
    + intros h' [->|]%elem_of_cons; [done|auto].
    + intros. apply Hall; [by right|done].
Qed.

Lemma register_ext p hs hs' i : (∀ h, h ∈ hs ↔ h ∈ hs') → register p hs i = register p hs' i.
Proof.
  intros Heq. apply Z.le_antisymm; apply register_le.
  - pose proof (proj1 (register_le p hs' i _) (Z.le_refl _)) as [? Hall]. split; [done|].
    intros h Hh. apply Hall. by apply Heq.
  - pose proof (proj1 (register_le p hs i _) (Z.le_refl _)) as [? Hall]. split; [done|].
    intros h Hh. apply Hall. by apply Heq.
Qed.

Lemma register_app p hs hs' i :
  register p (hs ++ hs') i = Z.max (register p hs i) (register p hs' i).
Proof.
  pose proof (proj1 (register_le p hs i _) (Z.le_refl _)) as [H1 A1].
  pose proof (proj1 (register_le p hs' i _) (Z.le_refl _)) as [H2 A2].
  pose proof (proj1 (register_le p (hs ++ hs') i _) (Z.le_refl _)) as [H3 A3].
  apply Z.le_antisymm.
  - apply register_le. split; [lia|]. intros h [Hh|Hh]%elem_of_app Hi.
    + specialize (A1 h Hh Hi). lia.
    + specialize (A2 h Hh Hi). lia.
  - apply Z.max_lub; apply register_le; (split; [done|]); intros h Hh; apply A3, elem_of_app; auto.
Qed.

Lemma add_hash_spec s h :
  hll_wf s → is_u64 h →
  ∃ s', Hll_add_hash s h = Some s' ∧ hll_wf s' ∧ hll_precision s' = hll_precision s
  ∧ ∀ i r, hll_registers s !! i = Some r →
      hll_registers s' !! i = Some (Z.max r (register (hll_precision s) [h] i)).
Proof.
  destruct s as [p regs]. intros (Hp & Hlen & Hreg) Hh. cbn [hll_precision hll_registers] in *.
  pose proof Hp as Hp'. apply precision_ok_spec in Hp'.
  pose proof (register_index_range p h Hp' Hh) as Hix. pose proof (rho_range p h Hp' Hh) as Hrho.
  unfold Hll_add_hash; cbn [hll_precision hll_registers].
  destruct (lookup_lt_is_Some_2 regs (Z.to_nat (register_index p h))) as [r0 Hr0]; [rewrite Hlen; lia|].
  rewrite Hr0. cbn [mbind option_bind]. eexists. split; [reflexivity|].
  assert (Hr0' : 0 ≤ r0) by (by apply (Forall_lookup_1 _ _ _ _ Hreg Hr0)).
  unfold register, foldr. destruct (Z.ltb_spec r0 (rho p h)) as [Hlt|Hge].
  - split; [|split; [done|]]; cbn [hll_precision hll_registers].
    + unfold hll_wf; cbn [hll_precision hll_registers].
      split_and!; [done|by rewrite length_insert|]. apply Forall_insert; [done|lia].
    + intros i r Hi. destruct (Nat.eqb_spec (Z.to_nat (register_index p h)) i) as [<-|Hne].
      * rewrite list_lookup_insert_eq by (by apply lookup_lt_Some in Hi).
        simplify_eq. f_equal. lia.
      * rewrite list_lookup_insert_ne by done. rewrite Hi. f_equal.
        pose proof (Forall_lookup_1 _ _ _ _ Hreg Hi); simpl in *. lia.
  - split; [by split_and!|split; [done|]]. cbn [hll_precision hll_registers].
    intros i r Hi. rewrite Hi. f_equal. pose proof (Forall_lookup_1 _ _ _ _ Hreg Hi); simpl in *.
    destruct (Nat.eqb_spec (Z.to_nat (register_index p h)) i) as [<-|Hne]; simplify_eq; lia.
Qed.

Lemma add_hashes_spec s hs :
  hll_wf s → Forall is_u64 hs →
  ∃ s', add_hashes s hs = Some s' ∧ hll_wf s' ∧ hll_precision s' = hll_precision s
  ∧ ∀ i r, hll_registers s !! i = Some r →
      hll_registers s' !! i = Some (Z.max r (register (hll_precision s) hs i)).
Proof.
  intros Hwf Hhs. revert s Hwf. induction Hhs as [|h hs Hh _ IH]; intros s Hwf; cbn [add_hashes].
  { exists s. split_and!; [done..|]. intros i r Hi. rewrite Hi. f_equal.
    destruct Hwf as (_ & _ & Hreg). pose proof (Forall_lookup_1 _ _ _ _ Hreg Hi); simpl in *. lia. }
  destruct (add_hash_spec s h Hwf Hh) as (s1 & -> & Hwf1 & Hp1 & Hr1).
  destruct (IH s1 Hwf1) as (s' & Hs' & Hwf' & Hp' & Hr'). exists s'. split_and!; [done..|congruence|].
  intros i r Hi. rewrite (Hr' i _ (Hr1 i r Hi)), Hp1. f_equal.
  rewrite (register_app _ [h] hs). lia.
Qed.

Lemma new_spec p :
  4 ≤ p ≤ 18 → ∃ s, Hll_new p = Some s ∧ hll_wf s ∧ hll_precision s = p
  ∧ hll_registers s = replicate (Z.to_nat (2 ^ p)) 0.
Proof.
  intros Hp. pose proof (proj2 (precision_ok_spec p) Hp) as Hok. unfold Hll_new. rewrite Hok.
  rewrite Z.shiftl_1_l. eexists. split; [reflexivity|]. cbn [hll_precision hll_registers].
  split; [|done]. unfold hll_wf; cbn [hll_precision hll_registers].
  split_and!; [done|apply length_replicate|]. apply Forall_replicate. simpl. lia.
Qed.

(** A sketch holds, in every register, the largest rank of its hashes. *)
Lemma sketch_spec p hs :
  4 ≤ p ≤ 18 → Forall is_u64 hs →
  ∃ s, sketch p hs = Some s ∧ hll_wf s ∧ hll_precision s = p
  ∧ hll_registers s = map (register p hs) (seq 0 (Z.to_nat (2 ^ p))).
Proof.
  intros Hp Hhs. destruct (new_spec p Hp) as (s0 & E0 & Hwf0 & Hp0 & Hr0).
  destruct (add_hashes_spec s0 hs Hwf0 Hhs) as (s & Es & Hwf & Hps & Hr).
  unfold sketch. rewrite E0. exists s. split; [done|]. split; [done|]. split; [congruence|].
  apply list_eq_same_length with (n := Z.to_nat (2 ^ p)).
  - by rewrite length_map, length_seq.
  - destruct Hwf as (_ & -> & _). congruence.
  - intros i x y Hi Hx Hy. rewrite (Hr i 0) in Hx by (rewrite Hr0; by apply lookup_replicate_2).
    rewrite list_lookup_fmap in Hy. rewrite lookup_seq_lt in Hy by done. simplify_eq/=.
    pose proof (proj1 (register_le (hll_precision s0) hs i _) (Z.le_refl _)). lia.
Qed.

Lemma merge_registers_map {A} (f g : A → Z) (l : list A) :
  merge_registers (map f l) (map g l) = Some (map (λ x, Z.max (f x) (g x)) l).
Proof.
  induction l as [|x l IH]; [done|]. cbn [map merge_registers]. rewrite IH. cbn [mbind option_bind].
  do 2 f_equal. destruct (Z.ltb_spec (f x) (g x)); lia.
Qed.

(** Any buffer of the documented layout decodes to its fields. *)
Lemma from_bytes_layout p r1 r2 regs :
  precision_ok p = true → length regs = Z.to_nat (2 ^ p) →
  Hll_from_bytes (MAGIC ++ [z2b VERSION; z2b p; r1; r2] ++ regs)
  = Ok {| hll_precision := p; hll_registers := map b2z regs |}.
Proof.
  intros Hp Hlen. pose proof (proj1 (precision_ok_spec p) Hp) as Hp'. unfold Hll_from_bytes.
  set (bs := MAGIC ++ _). assert (E : byte_at bs 4 = z2b VERSION ∧ byte_at bs 5 = z2b p
    ∧ take 4 bs = MAGIC ∧ drop HEADER_LEN bs = regs ∧ length bs = (8 + length regs)%nat) by done.
  destruct E as (-> & -> & -> & -> & ->). rewrite bool_decide_eq_true_2 by done.
  rewrite !b2z_z2b_small by (unfold VERSION; lia). rewrite Z.eqb_refl, Hp.
  rewrite Z.shiftl_1_l, <- Hlen, Nat.eqb_refl.
  by rewrite (proj2 (Nat.ltb_ge _ HEADER_LEN)) by (unfold HEADER_LEN; lia).
Qed.

Lemma from_to_bytes_hll s : hll_wf s → Hll_from_bytes (Hll_to_bytes s) = Ok s.
Proof.
  destruct s as [p regs]. intros (Hp & Hlen & Hreg). cbn [hll_precision hll_registers] in *.
  apply precision_ok_spec in Hp as Hp'. unfold Hll_to_bytes. cbn [hll_precision hll_registers].
  etrans; [apply from_bytes_layout; [done|by rewrite length_map]|]. do 2 f_equal.
  rewrite map_map. rewrite <- (map_id regs) at 2. apply map_ext_Forall.
  eapply Forall_impl; [exact Hreg|]. simpl. intros r Hr. apply b2z_z2b_small. lia.
Qed.

(** Merging sketches is taking the union: the sketch of [xs] merged with the
    sketch of [ys] is the sketch of any list with the same hashes as both together,
    whatever the order and the repetitions, so merging per-SST sketches loses and
    double-counts nothing; no step panics, and the result survives serialisation. *)
Theorem hll_merge_is_union p xs ys zs :
  4 ≤ p ≤ 18 → Forall is_u64 xs → Forall is_u64 ys → (∀ h, h ∈ zs ↔ h ∈ xs ∨ h ∈ ys) →
  ∃ a b c, sketch p xs = Some a ∧ sketch p ys = Some b ∧ sketch p zs = Some c
  ∧ Hll_merge a b = Some (Ok c) ∧ Hll_from_bytes (Hll_to_bytes c) = Ok c.
Proof.
  intros Hp Hxs Hys Hzs.
  assert (Hzs' : Forall is_u64 zs).
  { rewrite Forall_forall in *. intros h [?|?]%Hzs; auto. }
  destruct (sketch_spec p xs Hp Hxs) as (a & Ea & _ & Pa & Ra).
  destruct (sketch_spec p ys Hp Hys) as (b & Eb & _ & Pb & Rb).
  destruct (sketch_spec p zs Hp Hzs') as (c & Ec & Wc & Pc & Rc).
  exists a, b, c. split_and!; [done..| |by apply from_to_bytes_hll].
  unfold Hll_merge. rewrite Pa, Pb, Z.eqb_refl, Ra, Rb, merge_registers_map. cbn [negb mbind option_bind].
  destruct c as [pc rc]. cbn [hll_precision hll_registers] in *. subst pc rc. do 3 f_equal.
  apply map_ext. intros i. rewrite <- register_app. symmetry. apply register_ext.
  intros h. by rewrite elem_of_app.
Qed.

Lemma hll_merge_is_union_witness :
  ∃ a b c, sketch 4 [5; 2 ^ 63; 5] = Some a ∧ sketch 4 [2 ^ 60 + 9; 5] = Some b
  ∧ sketch 4 [2 ^ 63; 2 ^ 60 + 9; 5] = Some c
  ∧ Hll_merge a b = Some (Ok c) ∧ Hll_from_bytes (Hll_to_bytes c) = Ok c.
Proof.
  apply hll_merge_is_union; [lia|repeat constructor; word_lia..|].
  intros h. rewrite !elem_of_cons. split; [tauto|]. intros; firstorder (subst; auto).
Defined.

(** The sketch decoder is the inverse of the encoder on its whole domain: it
    accepts exactly the buffers with the magic, version 1, a precision in range and
    one byte per register, and re-encoding what it returns gives the buffer back, up
    to the two reserved bytes it ignores. *)
Theorem hll_decode_exact bytes :
  match Hll_from_bytes bytes with
  | Ok s =>
      precision_ok (hll_precision s) = true
      ∧ length (hll_registers s) = Z.to_nat (2 ^ hll_precision s) ∧ Forall is_u8 (hll_registers s)
      ∧ ∃ r1 r2, bytes = MAGIC ++ [z2b VERSION; z2b (hll_precision s); r1; r2] ++ map z2b (hll_registers s)
  | Err e =>
      (∃ msg, e = Invariant msg)
      ∧ ∀ p r1 r2 regs, precision_ok p = true → length regs = Z.to_nat (2 ^ p) →
          bytes ≠ MAGIC ++ [z2b VERSION; z2b p; r1; r2] ++ regs
  end.
Proof.
  destruct (Hll_from_bytes bytes) as [s|e] eqn:E.
  2:{ split.
      - revert E. unfold Hll_from_bytes. repeat (case_match; [|by intros [= <-]; eauto]). done.
      - intros p r1 r2 regs Hp Hlen ->. by rewrite from_bytes_layout in E. }
  revert E. unfold Hll_from_bytes.
  destruct (length bytes <? HEADER_LEN)%nat eqn:E1; [done|]. apply Nat.ltb_ge in E1. cbn [negb].
  destruct (bool_decide _) eqn:E2; [|done]. apply bool_decide_eq_true in E2.
  destruct (_ =? VERSION) eqn:E3; [|done]. apply Z.eqb_eq in E3.
  destruct (precision_ok _) eqn:E4; [|done]. rewrite Z.shiftl_1_l.
  destruct (_ =? _)%nat eqn:E5; [|done]. apply Nat.eqb_eq in E5.
  intros [= <-]. cbn [hll_precision hll_registers]. split_and!; [done|by rewrite length_map| |].
  { apply Forall_map, Forall_true. intros b. apply b2z_range. }
  do 8 (destruct bytes as [|? bytes]; [simpl in E1; unfold HEADER_LEN in E1; lia|]).
  cbn in E2, E3, E5 |- *. injection E2 as -> -> -> ->. apply (f_equal z2b) in E3.
  rewrite z2b_b2z in E3. subst. rewrite !z2b_b2z. do 2 eexists. do 8 f_equal.
  rewrite map_map. rewrite <- (map_id bytes) at 1. apply map_ext. intros b. by rewrite z2b_b2z.
Qed.

(** [is_empty] holds exactly of the sketch of nothing. (Its doc comment states the
    opposite: that at least one register has been touched.) *)
Lemma is_empty_untouched p hs s :
  4 ≤ p ≤ 18 → Forall is_u64 hs → sketch p hs = Some s → (Hll_is_empty s = true ↔ hs = []).
Proof.
  intros Hp Hhs Hs. destruct (sketch_spec p hs Hp Hhs) as (s' & Es & _ & _ & Hr). simplify_eq.
  unfold Hll_is_empty. rewrite Hr, forallb_forall. split.
  - intros H0. destruct hs as [|h hs]; [done|]. exfalso.
    apply Forall_cons in Hhs as [Hh _].
    pose proof (register_index_range p h Hp Hh). pose proof (rho_range p h Hp Hh).
    assert (H2 : register p (h :: hs) (Z.to_nat (register_index p h)) = 0).
    { apply Z.eqb_eq, H0, in_map, in_seq. lia. }
    pose proof (proj1 (register_le p (h :: hs) _ _) (Z.eq_le_incl _ _ H2)) as [_ Hall].
    specialize (Hall h (list_elem_of_here _ _) eq_refl). lia.
  - intros -> x [i [<- _]]%in_map_iff. done.
Qed.
