(* ===== verification/Leapfrog.v ===== *)
(** The leapfrog join primitives of the query executor
    ([namidb-query/src/exec/leapfrog.rs]): cursors over sorted partner lists, their
    multi-way intersection and their multi-way union.

    A [NodeId] is its big-endian integer. The trait [OrdIterator] is a class, and
    its documented invariants are the class [OrdIteratorLaws] against which the two
    joins are proved. Loops take fuel and indexing may fail; both give [None], and the
    theorems show that neither happens. *)
From S2P Require Import Prelude.

(** ** The cursor interface *)

Class OrdIterator (I : Type) := {
  key : I → option Z;
  next : I → I;
  seek : I → Z → I;
  at_end : I → bool;
}.

(** ** [SortedSliceIter] *)

Record SortedSliceIter := { partners : list Z; cursor : Z }.

Definition SortedSliceIter_new (ps : list Z) : SortedSliceIter := {| partners := ps; cursor := 0 |}.

(** [usize] index into the slice. *)
Definition partner_at (ps : list Z) (i : Z) : option Z := ps !! Z.to_nat i.
Definition plen (ps : list Z) : Z := Z.of_nat (length ps).

Definition slice_key (it : SortedSliceIter) : option Z := partner_at (partners it) (cursor it).

Definition slice_next (it : SortedSliceIter) : SortedSliceIter :=
  if cursor it <? plen (partners it)
  then {| partners := partners it; cursor := cursor it + 1 |}
  else it.

(** The exponential probe; [fuel] bounds the doublings. *)
Fixpoint probe (fuel : nat) (ps : list Z) (cur target step lo hi : Z) : option (Z * Z) :=
  match fuel with
  | O => None
  | S fuel' =>
      match partner_at ps hi with
      | Some x =>
          if (hi <? plen ps) && (x <? target) then
            let lo := hi in
            let step := saturating_mul64 step 2 in
            let hi := saturating_add64 cur step in
            probe fuel' ps cur target step lo hi
          else Some (lo, hi)
      | None => Some (lo, hi)
      end
  end.

(** [slice::partition_point] on a partitioned slice: the length of the prefix that
    satisfies the predicate. *)
Fixpoint partition_point {A} (p : A → bool) (l : list A) : nat :=
  match l with
  | [] => 0
  | x :: l' => if p x then S (partition_point p l') else 0
  end.

(** 65 doublings saturate [usize]. *)
Definition slice_seek (it : SortedSliceIter) (target : Z) : SortedSliceIter :=
  let ps := partners it in
  let cur := cursor it in
  if plen ps <=? cur then it
  else
    match partner_at ps cur with
    | None => it
    | Some x =>
        if target <=? x then it
        else
          let step := 1 in
          let lo := cur in
          let hi := saturating_add64 cur step in
          match probe 65 ps cur target step lo hi with
          | None => it
          | Some (lo, hi) =>
              let hi := Z.min hi (plen ps) in
              let offset := partition_point (λ x, x <? target) (slice ps (Z.to_nat lo) (Z.to_nat hi)) in
              {| partners := ps; cursor := lo + Z.of_nat offset |}
          end
    end.

Definition slice_at_end (it : SortedSliceIter) : bool := plen (partners it) <=? cursor it.

#[global] Instance SortedSliceIter_OrdIterator : OrdIterator SortedSliceIter :=
  {| key := slice_key; next := slice_next; seek := slice_seek; at_end := slice_at_end |}.

(** ** [LeapfrogIntersect] *)

Record LeapfrogIntersect (I : Type) := {
  lf_iters : list I;
  lf_p : nat;
  lf_finished : bool;
  lf_current : option Z;
}.
Arguments lf_iters {I} _.
Arguments lf_p {I} _.
Arguments lf_finished {I} _.
Arguments lf_current {I} _.

(** The order of [sort_by_key(|i| i.key().unwrap())]; no iterator is at its end
    when it is used. *)
Definition key_le {I} `{OrdIterator I} (a b : I) : Prop := default 0 (key a) ≤ default 0 (key b).
#[global] Instance key_le_dec {I} `{OrdIterator I} : RelDecision (@key_le I _).
Proof. intros a b. unfold key_le. apply _. Defined.
#[global] Instance key_le_trans {I} `{OrdIterator I} : Transitive (@key_le I _).
Proof. intros a b c. unfold key_le. lia. Qed.
#[global] Instance key_le_total {I} `{OrdIterator I} : Total (@key_le I _).
Proof. intros a b. unfold key_le. lia. Qed.

Section Intersect.
Context {I : Type} `{OrdIterator I}.

Definition finish (iters : list I) (p : nat) : LeapfrogIntersect I :=
  {| lf_iters := iters; lf_p := p; lf_finished := true; lf_current := None |}.

Fixpoint search (fuel : nat) (lf : LeapfrogIntersect I) : option (LeapfrogIntersect I) :=
  match fuel with
  | O => None
  | S fuel' =>
      let k := length (lf_iters lf) in
      let p := lf_p lf in
      it ← lf_iters lf !! p;
      match key it with
      | None => Some (finish (lf_iters lf) p)
      | Some cur =>
          let prev := ((p + k - 1) mod k)%nat in
          last ← lf_iters lf !! prev;
          match key last with
          | None => Some (finish (lf_iters lf) p)
          | Some max =>
              if cur =? max
              then Some {| lf_iters := lf_iters lf; lf_p := p;
                           lf_finished := lf_finished lf; lf_current := Some cur |}
              else
                let it := seek it max in
                let iters := <[p := it]> (lf_iters lf) in
                if at_end it then Some (finish iters p)
                else search fuel' {| lf_iters := iters; lf_p := ((p + 1) mod k)%nat;
                                     lf_finished := lf_finished lf; lf_current := lf_current lf |}
          end
      end
  end.

Definition LeapfrogIntersect_new (fuel : nat) (iters : list I) : option (LeapfrogIntersect I) :=
  if (length iters =? 0)%nat || existsb at_end iters
  then Some (finish iters 0)
  else
    let iters := merge_sort key_le iters in
    search fuel {| lf_iters := iters; lf_p := 0; lf_finished := false; lf_current := None |}.

Definition LeapfrogIntersect_key (lf : LeapfrogIntersect I) : option Z :=
  if lf_finished lf then None else lf_current lf.

Definition LeapfrogIntersect_next (fuel : nat) (lf : LeapfrogIntersect I) : option (LeapfrogIntersect I) :=
  if lf_finished lf then Some lf
  else
    let p := lf_p lf in
    it ← lf_iters lf !! p;
    let it := next it in
    let iters := <[p := it]> (lf_iters lf) in
    if at_end it then Some (finish iters p)
    else
      search fuel {| lf_iters := iters; lf_p := ((p + 1) mod length iters)%nat;
                     lf_finished := lf_finished lf; lf_current := lf_current lf |}.

(** The documented use: [while let Some(k) = lf.key() { handle(k); lf.next(); }]. *)
Fixpoint intersect_loop (fuel : nat) (lf : LeapfrogIntersect I) : option (list Z) :=
  match fuel with
  | O => None
  | S fuel' =>
      match LeapfrogIntersect_key lf with
      | None => Some []
      | Some k =>
          lf ← LeapfrogIntersect_next fuel lf;
          out ← intersect_loop fuel' lf;
          Some (k :: out)
      end
  end.

Definition intersect (fuel : nat) (iters : list I) : option (list Z) :=
  lf ← LeapfrogIntersect_new fuel iters;
  intersect_loop fuel lf.

End Intersect.

(** ** [MergeSortedUnion] *)

Record HeapEntry := { he_key : Z; he_iter_idx : nat }.

(** [HeapEntry::cmp] reverses both components, so [BinaryHeap], a max-heap, yields
    the smallest key, and the smallest index among equal keys. The heap is the list
    of its entries in the order in which it would pop them. *)
Definition he_before (a b : HeapEntry) : bool :=
  match he_key a ?= he_key b with
  | Lt => true
  | Gt => false
  | Eq => (he_iter_idx a <=? he_iter_idx b)%nat
  end.

Fixpoint heap_push (e : HeapEntry) (heap : list HeapEntry) : list HeapEntry :=
  match heap with
  | [] => [e]
  | h :: rest => if he_before e h then e :: heap else h :: heap_push e rest
  end.

Record MergeSortedUnion (I : Type) := {
  mu_iters : list I;
  mu_heap : list HeapEntry;
  mu_current : option Z;
}.
Arguments mu_iters {I} _.
Arguments mu_heap {I} _.
Arguments mu_current {I} _.

Section Union.
Context {I : Type} `{OrdIterator I}.

(** [for (idx, it) in iters.iter().enumerate()] *)
Fixpoint push_all (idx : nat) (iters : list I) (heap : list HeapEntry) : list HeapEntry :=
  match iters with
  | [] => heap
  | it :: rest =>
      let heap :=
        match key it with
        | Some k => heap_push {| he_key := k; he_iter_idx := idx |} heap
        | None => heap
        end in
      push_all (S idx) rest heap
  end.

Definition MergeSortedUnion_new (iters : list I) : MergeSortedUnion I :=
  let heap := push_all 0 iters [] in
  {| mu_iters := iters; mu_heap := heap; mu_current := he_key <$> head heap |}.

Definition MergeSortedUnion_key (u : MergeSortedUnion I) : option Z := mu_current u.

(** The [while let Some(top) = self.heap.peek()] loop. *)
Fixpoint advance_equal (fuel : nat) (target : Z) (iters : list I) (heap : list HeapEntry)
    : option (list I * list HeapEntry) :=
  match fuel with
  | O => None
  | S fuel' =>
      match heap with
      | [] => Some (iters, heap)
      | top :: heap' =>
          if negb (he_key top =? target) then Some (iters, heap)
          else
            let iter_idx := he_iter_idx top in
            it ← iters !! iter_idx;
            let it := next it in
            let iters := <[iter_idx := it]> iters in
            let heap :=
              match key it with
              | Some k => heap_push {| he_key := k; he_iter_idx := iter_idx |} heap'
              | None => heap'
              end in
            advance_equal fuel' target iters heap
      end
  end.

Definition MergeSortedUnion_next (fuel : nat) (u : MergeSortedUnion I) : option (MergeSortedUnion I) :=
  match mu_current u with
  | None => Some u
  | Some target =>
      '(iters, heap) ← advance_equal fuel target (mu_iters u) (mu_heap u);
      Some {| mu_iters := iters; mu_heap := heap; mu_current := he_key <$> head heap |}
  end.

Fixpoint collect (fuel : nat) (u : MergeSortedUnion I) : option (list Z) :=
  match fuel with
  | O => None
  | S fuel' =>
      match MergeSortedUnion_key u with
      | None => Some []
      | Some k =>
          u ← MergeSortedUnion_next fuel u;
          out ← collect fuel' u;
          Some (k :: out)
      end
  end.

End Union.

Example leapfrog_runs :
  intersect 20 (map SortedSliceIter_new [[1; 3; 4; 9; 12]; [3; 9; 10; 12]; [0; 3; 5; 12]]) = Some [3; 12]
  ∧ collect 20 (MergeSortedUnion_new (map SortedSliceIter_new [[1; 3; 3]; [3; 9]; []; [0; 3]]))
    = Some [0; 1; 3; 9].
Proof. vm_compute. done. Qed.

(** ** The contract of a cursor

    [remaining] is the multiset still to be read. The trait's documentation asks that
    [key] is its first element and that [seek] moves to the first key at or above the
    target. *)
Class OrdIteratorLaws (I : Type) `{OrdIterator I} := {
  it_wf : I → Prop;
  remaining : I → list Z;
  remaining_sorted i : it_wf i → StronglySorted Z.le (remaining i);
  key_spec i : it_wf i → key i = head (remaining i);
  at_end_spec i : it_wf i → at_end i = bool_decide (remaining i = []);
  next_spec i : it_wf i → it_wf (next i) ∧ remaining (next i) = tail (remaining i);
  seek_spec i t : it_wf i → it_wf (seek i t) ∧ remaining (seek i t) = filter (λ x, t ≤ x) (remaining i);
}.

Lemma drop_filter_suffix {A} (P : A → Prop) `{∀ x, Decision (P x)} (l : list A) c d :
  (∀ i x, l !! i = Some x → (c ≤ i < d)%nat → ¬ P x) →
  (∀ i x, l !! i = Some x → (d ≤ i)%nat → P x) → (c ≤ d)%nat →
  drop d l = filter P (drop c l).
Proof.
  intros Hlt Hge Hcd. rewrite <- (take_drop (d - c) (drop c l)), drop_drop, filter_app.
  replace (c + (d - c))%nat with d by lia. rewrite filter_nil_in, filter_all_in; [done| |].
  - intros x [i Hi]%list_elem_of_lookup. rewrite lookup_drop in Hi. eapply Hge; [done|lia].
  - intros x [i Hi]%list_elem_of_lookup. apply lookup_take_Some in Hi as [Hi Hi'].
    rewrite lookup_drop in Hi. eapply Hlt; [done|lia].
Qed.

Lemma partition_point_spec {A} (p : A → bool) (l : list A) :
  (partition_point p l ≤ length l)%nat
  ∧ (∀ i x, l !! i = Some x → (i < partition_point p l)%nat → p x = true)
  ∧ (∀ x, l !! partition_point p l = Some x → p x = false).
Proof.
  induction l as [|y l (IH1 & IH2 & IH3)]; simpl; [by split_and!; intros|].
  destruct (p y) eqn:E; simpl.
  - split_and!; [lia| |done]. intros [|i] x Hi Hlt; simplify_eq/=; [done|]. apply (IH2 i x Hi). lia.
  - split_and!; [lia|lia|]. by intros x [= <-].
Qed.

(** A slice has at most [isize::MAX] elements. *)
Definition slice_wf (it : SortedSliceIter) : Prop :=
  StronglySorted Z.le (partners it) ∧ 0 ≤ cursor it ≤ plen (partners it) ∧ plen (partners it) < 2 ^ 63.
Definition slice_remaining (it : SortedSliceIter) : list Z := drop (Z.to_nat (cursor it)) (partners it).

(** The probe ends with a window whose left end is below the target and whose right
    end is past the slice or at or above the target. *)
Lemma probe_spec n ps cur target lo k :
  plen ps < 2 ^ 63 → 0 ≤ cur → 0 ≤ k ≤ 63 → 65 ≤ k + Z.of_nat n →
  cur ≤ lo < plen ps → lo < cur + 2 ^ k → (∃ x, partner_at ps lo = Some x ∧ x < target) →
  ∃ lo' hi', probe n ps cur target (2 ^ k) lo (cur + 2 ^ k) = Some (lo', hi')
  ∧ cur ≤ lo' < plen ps ∧ lo' < hi' ∧ (∃ x, partner_at ps lo' = Some x ∧ x < target)
  ∧ ∀ x, partner_at ps hi' = Some x → target ≤ x.
Proof.
  intros Hlen Hcur. revert lo k. induction n as [|n IH]; intros lo k Hk Hn Hlo Hhi Hx; [lia|].
  cbn [probe]. destruct (partner_at ps (cur + 2 ^ k)) as [x|] eqn:E.
  2:{ eexists _, _. split_and!; [reflexivity|lia|lia|lia|done|]. intros y; congruence. }
  assert (Hlt : cur + 2 ^ k < plen ps).
  { unfold partner_at in E. apply lookup_lt_Some in E. unfold plen. lia. }
  rewrite (proj2 (Z.ltb_lt _ _) Hlt). cbn [andb]. destruct (Z.ltb_spec x target).
  2:{ eexists _, _. split_and!; [reflexivity|lia|lia|lia|done|]. intros y; rewrite E; congruence. }
  assert (k < 63) by (apply (Z.pow_lt_mono_r_iff 2); lia).
  assert (2 ^ (k + 1) = 2 * 2 ^ k) by (rewrite Z.pow_add_r by lia; lia).
  assert (2 ^ (k + 1) ≤ 2 ^ 63) by (apply Z.pow_le_mono_r; lia).
  unfold saturating_mul64, saturating_add64, u64_max. rewrite !Z.min_l by lia.
  replace (2 ^ k * 2) with (2 ^ (k + 1)) by lia.
  destruct (IH (cur + 2 ^ k) (k + 1)) as (lo' & hi' & Hp & ?); [lia..|eauto|]. eauto.
Qed.

Lemma sorted_lookup_le ps i j x y :
  StronglySorted Z.le ps → ps !! i = Some x → ps !! j = Some y → (i ≤ j)%nat → x ≤ y.
Proof.
  intros HS Hi Hj Hij. destruct (decide (i = j)) as [->|]; [simplify_eq; lia|].
  eapply (StronglySorted_lookup_lt Z.le); [done..|]. lia.
Qed.

(** Partitioning such a window finds the first key at or above the target. *)
Lemma window_partition ps cur t lo hi x :
  StronglySorted Z.le ps → ps !! lo = Some x → x < t → (cur ≤ lo < hi)%nat →
  (∀ w, ps !! hi = Some w → t ≤ w) →
  let off := partition_point (λ x, x <? t) (slice ps lo (hi `min` length ps)) in
  (lo + off ≤ length ps)%nat ∧ drop (lo + off) ps = filter (λ x, t ≤ x) (drop cur ps).
Proof.
  intros HS Hlo Hx Hlohi Hhi. cbv zeta. set (sl := slice ps lo _).
  destruct (partition_point_spec (λ x, x <? t) sl) as (P1 & P2 & P3).
  set (off := partition_point _ sl) in *. pose proof (lookup_lt_Some _ _ _ Hlo).
  assert (Hsl : length sl = (hi `min` length ps - lo)%nat) by (apply length_slice; lia).
  assert (Hlk : ∀ i, (i < length sl)%nat → sl !! i = ps !! (lo + i)%nat).
  { intros i Hi. unfold sl, slice. by rewrite lookup_take_lt, lookup_drop by lia. }
  split; [lia|]. apply (drop_filter_suffix (λ x, t ≤ x)); [| |lia].
  - intros i z Hi Hc. destruct (decide (i < lo)%nat) as [Hilo|Hilo].
    + assert (z ≤ x) by (eapply sorted_lookup_le; [done..|]; lia). lia.
    + specialize (P2 (i - lo)%nat z). rewrite Hlk in P2 by lia.
      replace (lo + (i - lo))%nat with i in P2 by lia. specialize (P2 Hi ltac:(lia)). lia.
  - intros i z Hi Hc. destruct (decide (off < length sl)%nat) as [Hoff|Hoff].
    + destruct (lookup_lt_is_Some_2 sl off Hoff) as [w Hw]. pose proof (P3 w Hw) as Hwt.
      rewrite Hlk in Hw by done. pose proof (sorted_lookup_le _ _ _ _ _ HS Hw Hi Hc). lia.
    + pose proof (lookup_lt_Some _ _ _ Hi).
      destruct (lookup_lt_is_Some_2 ps hi) as [w Hw]; [lia|]. specialize (Hhi w Hw).
      pose proof (sorted_lookup_le _ _ _ _ _ HS Hw Hi ltac:(lia)). lia.
Qed.

Lemma slice_seek_spec it t :
  slice_wf it →
  slice_wf (slice_seek it t)
  ∧ slice_remaining (slice_seek it t) = filter (λ x, t ≤ x) (slice_remaining it).
Proof.
  destruct it as [ps cur]. intros (HS & Hcur & Hlen). unfold slice_seek, slice_remaining, slice_wf in *.
  cbn [partners cursor] in *.
  destruct (Z.leb_spec (plen ps) cur); cbn [partners cursor].
  { split; [done|]. rewrite !drop_ge by (unfold plen in *; lia). done. }
  destruct (partner_at ps cur) as [x|] eqn:Ex; cbn [partners cursor].
  2:{ unfold partner_at in Ex. apply lookup_ge_None in Ex. unfold plen in *. lia. }
  destruct (Z.leb_spec t x); cbn [partners cursor].
  { split; [done|]. apply (drop_filter_suffix (λ x, t ≤ x)); [intros; lia| |done].
    intros i y Hi Hc. pose proof (sorted_lookup_le _ _ _ _ _ HS Ex Hi Hc). lia. }
  destruct (probe_spec 65 ps cur t cur 0) as (lo & hi & Hp & Hlo & Hlohi & (y & Hy & Hyt) & Hhi); [lia..|eauto|].
  unfold saturating_add64, u64_max. rewrite Z.min_l by lia. change (2 ^ 0) with 1 in Hp. rewrite Hp.
  replace (Z.to_nat (Z.min hi (plen ps))) with (Z.to_nat hi `min` length ps)%nat by (unfold plen; lia).
  destruct (window_partition ps (Z.to_nat cur) t (Z.to_nat lo) (Z.to_nat hi) y) as [Hoff Hdrop];
    [done..|lia|done|]. cbv zeta in *. cbn [partners cursor].
  set (off := partition_point _ _) in *.
  replace (Z.to_nat (lo + Z.of_nat off)) with (Z.to_nat lo + off)%nat by lia.
  split; [|done]. split_and!; [done|lia|unfold plen in *; lia|done].
Qed.

#[global] Instance SortedSliceIter_laws : OrdIteratorLaws SortedSliceIter.
Proof.
  refine {| it_wf := slice_wf; remaining := slice_remaining |}.
  - intros it (HS & _). unfold slice_remaining. rewrite <- (take_drop (Z.to_nat (cursor it)) (partners it)) in HS.
    by apply StronglySorted_app in HS as (_ & _ & ?).
  - intros [ps cur] _. unfold slice_remaining. simpl. unfold slice_key, partner_at; simpl.
    rewrite <- (Nat.add_0_r (Z.to_nat cur)) at 1. rewrite <- lookup_drop. by destruct (drop _ ps).
  - intros [ps cur] (_ & Hc & _). unfold slice_remaining; simpl. unfold slice_at_end; cbn [partners cursor] in *.
    apply eq_true_iff_eq. rewrite Z.leb_le, bool_decide_eq_true. unfold plen in *. split.
    + intros. apply drop_ge. lia.
    + intros Hd%(f_equal length). rewrite length_drop in Hd. simpl in Hd. lia.
  - intros [ps cur] (HS & Hc & Hl). simpl. unfold slice_next, slice_remaining, slice_wf; cbn [partners cursor] in *.
    destruct (Z.ltb_spec cur (plen ps)); cbn [partners cursor].
    + split; [split_and!; [done|lia|lia|done]|]. replace (Z.to_nat (cur + 1)) with (Z.to_nat cur + 1)%nat by lia.
      rewrite <- drop_drop. by destruct (drop _ ps).
    + split; [done|]. rewrite drop_ge; [done|unfold plen in *; lia].
  - apply slice_seek_spec.
Defined.

(** ** Rotations

    The intersection walks its iterators cyclically; seen from the current one they
    form a list. *)
Definition rot {A} (p : nat) (l : list A) : list A := drop p l ++ take p l.

Lemma rot_perm {A} p (l : list A) : rot p l ≡ₚ l.
Proof. unfold rot. rewrite (comm (++)). by rewrite take_drop. Qed.

Lemma rot_split {A} (a b : list A) x : rot (length a) (a ++ x :: b) = x :: b ++ a.
Proof. unfold rot. by rewrite drop_app_length, take_app_length. Qed.

Lemma rot_prev {A} (l : list A) p :
  (p < length l)%nat → l !! ((p + length l - 1) mod length l)%nat = last (rot p l).
Proof.
  intros Hp. destruct (lookup_lt_is_Some_2 l p Hp) as [x Hx].
  apply list_elem_of_split_length in Hx as (a & b & -> & ->). rewrite rot_split, length_app. cbn [length].
  destruct a as [|y a _] using rev_ind; cbn [length app].
  - rewrite Nat.mod_small by lia. rewrite app_nil_r, last_lookup. f_equal. cbn [length]. lia.
  - replace (x :: b ++ a ++ [y]) with ((x :: b ++ a) ++ [y]) by (simpl; by rewrite <- (assoc_L (++))).
    rewrite last_snoc, length_app. cbn [length].
    replace (length a + 1 + (length a + 1 + S (length b)) - 1)%nat
      with (length a + 1 * (length a + 1 + S (length b)))%nat by lia.
    rewrite Nat.Div0.mod_add, Nat.mod_small by lia.
    rewrite <- (assoc_L (++)). cbn [app]. by rewrite list_lookup_middle.
Qed.

Lemma rot_next {A} (l : list A) p x x' :
  l !! p = Some x → ∃ t, rot p l = x :: t ∧ rot ((p + 1) mod length l) (<[p := x']> l) = t ++ [x'].
Proof.
  intros (a & b & -> & ->)%list_elem_of_split_length. exists (b ++ a). rewrite rot_split. split; [done|].
  rewrite insert_app_r_alt, Nat.sub_diag by lia. simpl. rewrite length_app. simpl.
  destruct b as [|y b]; simpl.
  - rewrite Nat.Div0.mod_same. unfold rot. by rewrite drop_0, take_0, app_nil_r.
  - rewrite Nat.mod_small by lia. change (a ++ x' :: y :: b) with (a ++ [x'] ++ y :: b).
    rewrite (assoc_L (++) a). replace (length a + 1)%nat with (length (a ++ [x'])) by (by rewrite length_app).
    rewrite rot_split. by rewrite <- (assoc_L (++)).
Qed.

Lemma sorted_first_le {A} (S : relation A) `{!Reflexive S} x l y :
  StronglySorted S (x :: l) → y ∈ x :: l → S x y.
Proof.
  intros [_ HF]%StronglySorted_inv [->|Hy]%elem_of_cons; [done|]. rewrite Forall_forall in HF. auto.
Qed.

Lemma sorted_last_le {A} (S : relation A) `{!Reflexive S} l y z :
  StronglySorted S l → last l = Some z → y ∈ l → S y z.
Proof.
  intros HS [l' ->]%last_Some [Hy|Hy]%elem_of_app.
  - apply StronglySorted_app in HS as (Hc & _ & _). apply Hc; [done|by apply list_elem_of_singleton].
  - by apply list_elem_of_singleton in Hy as ->.
Qed.

#[global] Instance key_le_refl {I} `{OrdIterator I} : Reflexive (@key_le I _).
Proof. intros a. unfold key_le. lia. Qed.

(** ** Correctness of the intersection *)

Section IntersectCorrect.
Context {I : Type} `{OrdIteratorLaws I}.
(** [Z.le] for lists with repetitions, [Z.lt] for lists without. *)
Context (R : relation Z).

Definition cursor_ok (i : I) : Prop := it_wf i ∧ StronglySorted R (remaining i).
Definition common (iters : list I) (x : Z) : Prop := ∀ i, i ∈ iters → x ∈ remaining i.
Definition total (iters : list I) : nat := sum_list (map (λ i, length (remaining i)) iters).

Lemma seek_ok i t :
  cursor_ok i → cursor_ok (seek i t) ∧ remaining (seek i t) = filter (λ x, t ≤ x) (remaining i).
Proof.
  intros [Hi HS]. destruct (seek_spec i t Hi) as [Hi' Hr]. split; [|done]. split; [done|].
  rewrite Hr. by apply StronglySorted_filter.
Qed.

Lemma next_ok i : cursor_ok i → cursor_ok (next i) ∧ remaining (next i) = tail (remaining i).
Proof.
  intros [Hi HS]. destruct (next_spec i Hi) as [Hi' Hr]. split; [|done]. split; [done|].
  rewrite Hr. destruct HS; [constructor|done].
Qed.

Lemma key_Some i x : it_wf i → key i = Some x → ∃ t, remaining i = x :: t.
Proof. intros Hi. rewrite key_spec by done. destruct (remaining i); simpl; intros; simplify_eq; eauto. Qed.

(** The current key bounds everything left. *)
Lemma key_lower_bound i x y : it_wf i → key i = Some x → y ∈ remaining i → x ≤ y.
Proof.
  intros Hi Hk Hy. destruct (key_Some i x Hi Hk) as [t Ht].
  pose proof (remaining_sorted i Hi) as HS. rewrite Ht in HS, Hy.
  apply StronglySorted_inv in HS as [_ HF]. rewrite Forall_forall in HF.
  apply elem_of_cons in Hy as [->|Hy]; [lia|auto].
Qed.

Lemma common_perm iters iters' x : iters ≡ₚ iters' → common iters x ↔ common iters' x.
Proof. intros Hp. unfold common. by setoid_rewrite Hp. Qed.

Lemma total_perm iters iters' : iters ≡ₚ iters' → total iters = total iters'.
Proof. intros Hp. unfold total. by rewrite Hp. Qed.

Lemma common_snoc t i x : common (t ++ [i]) x ↔ common t x ∧ x ∈ remaining i.
Proof.
  unfold common. split.
  - intros Hc. split; [intros j Hj|]; apply Hc, elem_of_app; [by left|right; by apply list_elem_of_singleton].
  - intros [Hc Hx] j [Hj| ->%list_elem_of_singleton]%elem_of_app; auto.
Qed.
Lemma common_cons t i x : common (i :: t) x ↔ x ∈ remaining i ∧ common t x.
Proof. rewrite (common_perm _ (t ++ [i])), common_snoc by (by rewrite Permutation_cons_append). tauto. Qed.
Lemma total_snoc t i : total (t ++ [i]) = (total t + length (remaining i))%nat.
Proof. unfold total. induction t; simpl in *; lia. Qed.
Lemma total_cons t i : total (i :: t) = (length (remaining i) + total t)%nat.
Proof. done. Qed.

(** What the search loop relies on: from the current iterator on, cyclically, the
    iterators are sorted by their keys, and none is at its end. *)
Definition ready (lf : LeapfrogIntersect I) : Prop :=
  (lf_p lf < length (lf_iters lf))%nat ∧ lf_finished lf = false
  ∧ Forall cursor_ok (lf_iters lf) ∧ Forall (λ i, remaining i ≠ []) (lf_iters lf)
  ∧ StronglySorted key_le (rot (lf_p lf) (lf_iters lf)).

(** What it establishes: either the end, or a key on which all iterators stand. *)
Definition settled (lf : LeapfrogIntersect I) : Prop :=
  Forall cursor_ok (lf_iters lf) ∧
  if lf_finished lf then ∀ x, ¬ common (lf_iters lf) x
  else (lf_p lf < length (lf_iters lf))%nat
       ∧ ∃ x, lf_current lf = Some x ∧ Forall (λ i, key i = Some x) (lf_iters lf).

(** One round: the current iterator jumps to the largest key and becomes the last. *)
Lemma leap_step it t l cur max :
  Forall cursor_ok (it :: t) → Forall (λ i, remaining i ≠ []) (it :: t) →
  StronglySorted key_le (it :: t) → last (it :: t) = Some l →
  key it = Some cur → key l = Some max → cur ≠ max →
  let it' := seek it max in
  cursor_ok it' ∧ (∀ x, common (t ++ [it']) x ↔ common (it :: t) x)
  ∧ (total (t ++ [it']) < total (it :: t))%nat
  ∧ (remaining it' ≠ [] → StronglySorted key_le (t ++ [it'])).
Proof.
  intros Hok Hne HS Hl Hcur Hmax Hneq. cbv zeta.
  apply Forall_cons in Hok as [Hit Hok]. apply StronglySorted_inv in HS as [HS HF].
  destruct (seek_ok it max Hit) as [Hit' Hrem].
  assert (Hlt : l ∈ t).
  { destruct t as [|j t]; [simplify_eq/=; congruence|]. rewrite last_cons_cons in Hl.
    by eapply last_Some_elem_of. }
  assert (Hlok : it_wf l) by (rewrite Forall_forall in Hok; by apply Hok).
  assert (Hle : cur < max).
  { rewrite Forall_forall in HF. specialize (HF l Hlt). unfold key_le in HF. rewrite Hcur, Hmax in HF.
    simpl in HF. lia. }
  split_and!; [done| | |].
  - intros x. rewrite common_snoc, common_cons, Hrem, list_elem_of_filter. split; [tauto|].
    intros [Hx Hc]. split_and!; [done| |done]. eapply key_lower_bound; eauto.
  - destruct (key_Some it cur (proj1 Hit) Hcur) as [r Hr].
    rewrite total_snoc, total_cons, Hrem, Hr, filter_cons_False by lia. simpl.
    pose proof (length_filter (λ x, max ≤ x) r). lia.
  - intros Hne'. apply StronglySorted_app. split_and!; [|done|repeat constructor].
    intros j it'' Hj ->%list_elem_of_singleton. unfold key_le.
    assert (Hjl : default 0 (key j) ≤ max).
    { change max with (default 0 (Some max)). rewrite <- Hmax.
      apply (sorted_last_le key_le t j l); [done| |done].
      destruct t as [|j' t]; [by apply elem_of_nil in Hj|]. by rewrite last_cons_cons in Hl. }
    destruct (remaining (seek it max)) as [|y r] eqn:Er; [done|].
    rewrite (key_spec (seek it max)), Er by apply Hit'. simpl.
    assert (Hy : y ∈ filter (λ x, max ≤ x) (remaining it)) by (rewrite <- Hrem; left).
    apply list_elem_of_filter in Hy as [Hy _]. lia.
Qed.

Lemma search_spec fuel lf :
  ready lf → (total (lf_iters lf) < fuel)%nat →
  ∃ lf', search fuel lf = Some lf' ∧ settled lf'
  ∧ (∀ x, common (lf_iters lf') x ↔ common (lf_iters lf) x)
  ∧ (total (lf_iters lf') ≤ total (lf_iters lf))%nat.
Proof.
  revert lf. induction fuel as [|fuel IH]; intros [iters p fin cur0] (Hp & Hfin & Hok & Hne & HS) Hfuel; [lia|].
  cbn [lf_iters lf_p lf_finished] in *. subst fin. cbn [search lf_iters lf_p lf_finished].
  destruct (lookup_lt_is_Some_2 iters p Hp) as [it Hit]. rewrite Hit. cbn [mbind option_bind].
  destruct (rot_next iters p it it Hit) as (t & Hrot & _).
  assert (Hperm : it :: t ≡ₚ iters) by (rewrite <- Hrot; apply rot_perm).
  rewrite Hrot in HS. rewrite rot_prev, Hrot by done.
  destruct (last (it :: t)) as [l|] eqn:Hl; [|by apply last_None in Hl].
  assert (Hlin : l ∈ it :: t) by (by eapply last_Some_elem_of).
  rewrite <- Hperm in Hok, Hne.
  assert (Hkeys : ∀ j, j ∈ it :: t → key j = Some (default 0 (key j))).
  { rewrite Forall_forall in Hok, Hne. intros j Hj. rewrite key_spec by (by apply Hok).
    specialize (Hne j Hj). by destruct (remaining j). }
  rewrite (Hkeys it) by left. cbn [mbind option_bind]. rewrite (Hkeys l) by done.
  destruct (Z.eqb_spec (default 0 (key it)) (default 0 (key l))) as [Heq|Hneq].
  - eexists. split; [reflexivity|]. cbn [lf_iters]. split; [|done]. unfold settled.
    cbn [lf_iters lf_p lf_finished lf_current]. split; [by rewrite <- Hperm|]. split; [done|].
    eexists. split; [done|]. rewrite <- Hperm. apply Forall_forall. intros j Hj. rewrite (Hkeys j Hj). f_equal.
    pose proof (sorted_last_le _ _ _ _ HS Hl Hj). pose proof (sorted_first_le _ _ _ _ HS Hj).
    unfold key_le in *. lia.
  - destruct (leap_step it t l _ _ Hok Hne HS Hl (Hkeys it ltac:(left)) (Hkeys l Hlin) Hneq)
      as (Hit' & Hcom & Htot & HS'). set (it' := seek it _) in *.
    destruct (rot_next iters p it it' Hit) as (t' & Ht' & Hrot'). rewrite Hrot in Ht'. injection Ht' as <-.
    assert (Hperm' : t ++ [it'] ≡ₚ <[p := it']> iters) by (rewrite <- Hrot'; apply rot_perm).
    assert (Hok' : Forall cursor_ok (<[p := it']> iters)).
    { rewrite <- Hperm'. apply Forall_app. split; [by inversion Hok|by constructor]. }
    setoid_rewrite <- (λ x, common_perm _ _ x Hperm). setoid_rewrite <- Hcom.
    setoid_rewrite (λ x, common_perm _ _ x Hperm').
    rewrite <- (total_perm _ _ Hperm) in Hfuel |- *. rewrite (total_perm _ _ Hperm') in Htot.
    rewrite at_end_spec by apply Hit'. case_bool_decide as Hend.
    + eexists. split; [reflexivity|]. cbn [lf_iters finish]. split; [|split; [done|lia]].
      split; [done|]. cbn [lf_iters lf_finished finish]. intros x. rewrite <- (common_perm _ _ _ Hperm').
      rewrite common_snoc, Hend. intros [_ Hx]. by apply elem_of_nil in Hx.
    + destruct (IH {| lf_iters := <[p := it']> iters; lf_p := ((p + 1) mod length iters)%nat;
                      lf_finished := false; lf_current := cur0 |}) as (lf' & ? & ? & ? & ?).
      * unfold ready. cbn [lf_iters lf_p lf_finished]. rewrite length_insert, Hrot'.
        split_and!; [apply Nat.mod_upper_bound; lia|done|done| |by apply HS'].
        rewrite <- Hperm'. apply Forall_app. split; [by inversion Hne|by constructor].
      * cbn [lf_iters]. lia.
      * exists lf'. cbn [lf_iters] in *. split_and!; [done..|lia].
Qed.

(** All iterators stand on [x]: the current one moves past it and becomes the last. *)
Lemma advance_step it t x :
  Forall cursor_ok (it :: t) → Forall (λ i, key i = Some x) (it :: t) →
  let it' := next it in
  Forall cursor_ok (t ++ [it'])
  ∧ (∀ y, common (it :: t) y ↔ y = x ∨ common (t ++ [it']) y)
  ∧ (∀ y, common (t ++ [it']) y → R x y)
  ∧ total (it :: t) = S (total (t ++ [it']))
  ∧ (remaining it' ≠ [] → Forall (λ i, remaining i ≠ []) (t ++ [it']) ∧ StronglySorted key_le (t ++ [it'])).
Proof.
  intros [Hit Hok]%Forall_cons [Hk Hkeys]%Forall_cons. cbv zeta.
  destruct (next_ok it Hit) as [Hn Hrem]. destruct (key_Some it x (proj1 Hit) Hk) as [r Hr].
  rewrite Hr in Hrem. simpl in Hrem. destruct Hit as [Hwf HS]. rewrite Hr in HS.
  assert (Ht : ∀ j, j ∈ t → ∃ rj, remaining j = x :: rj).
  { rewrite Forall_forall in Hok, Hkeys. intros j Hj. apply key_Some; [by apply Hok|by apply Hkeys]. }
  split_and!.
  - apply Forall_app. split; [done|by constructor].
  - intros y. rewrite common_snoc, common_cons, Hr, Hrem, elem_of_cons. split; [tauto|].
    intros [->|]; [|tauto]. split; [by left|]. intros j Hj. destruct (Ht j Hj) as [rj ->]. left.
  - intros y. rewrite common_snoc, Hrem. intros [_ Hy]. apply StronglySorted_inv in HS as [_ HF].
    rewrite Forall_forall in HF. by apply HF.
  - rewrite total_snoc, total_cons, Hr, Hrem. simpl. lia.
  - intros Hne. assert (Hnx : x ≤ default 0 (key (next it))).
    { rewrite (key_spec (next it)), Hrem by apply Hn. rewrite Hrem in Hne. destruct r as [|z r]; [done|].
      apply (key_lower_bound it); [done..|]. rewrite Hr. right. left. }
    split.
    + apply Forall_app. split; [|by constructor]. apply Forall_forall. intros j Hj.
      by destruct (Ht j Hj) as [rj ->].
    + apply StronglySorted_app. split_and!; [| |repeat constructor].
      * intros j it' Hj ->%list_elem_of_singleton. unfold key_le. rewrite Forall_forall in Hkeys.
        by rewrite (Hkeys j Hj).
      * clear -Hkeys. induction Hkeys as [|j t Hj Hks IH]; constructor; [done|].
        eapply Forall_impl; [exact Hks|]. intros j' Hj'. unfold key_le. rewrite Hj, Hj'. simpl. lia.
Qed.

Lemma intersect_next_spec fuel lf x :
  settled lf → lf_finished lf = false → lf_current lf = Some x → (total (lf_iters lf) ≤ fuel)%nat →
  ∃ lf', LeapfrogIntersect_next fuel lf = Some lf' ∧ settled lf'
  ∧ (total (lf_iters lf') < total (lf_iters lf))%nat
  ∧ (∀ y, common (lf_iters lf) y ↔ y = x ∨ common (lf_iters lf') y)
  ∧ (∀ y, common (lf_iters lf') y → R x y).
Proof.
  destruct lf as [iters p fin cur]. unfold settled. cbn [lf_iters lf_p lf_finished lf_current].
  intros [Hok Hrest] -> -> Hfuel. destruct Hrest as (Hp & x' & [= <-] & Hkeys).
  unfold LeapfrogIntersect_next. cbn [lf_iters lf_p lf_finished lf_current].
  destruct (lookup_lt_is_Some_2 iters p Hp) as [it Hit]. rewrite Hit. cbn [mbind option_bind].
  destruct (rot_next iters p it (next it) Hit) as (t & Hrot & Hrot').
  assert (Hperm : it :: t ≡ₚ iters) by (rewrite <- Hrot; apply rot_perm).
  assert (Hperm' : t ++ [next it] ≡ₚ <[p := next it]> iters) by (rewrite <- Hrot'; apply rot_perm).
  rewrite <- Hperm in Hok, Hkeys.
  destruct (advance_step it t x Hok Hkeys) as (Hok' & Hcom & HR & Htot & Hready).
  setoid_rewrite <- (λ y, common_perm _ _ y Hperm). rewrite <- (total_perm _ _ Hperm) in Hfuel |- *.
  setoid_rewrite (λ y, common_perm _ _ y Hperm') in Hcom.
  setoid_rewrite (λ y, common_perm _ _ y Hperm') in HR. rewrite (total_perm _ _ Hperm') in Htot.
  rewrite at_end_spec by (apply Forall_app in Hok' as [_ [[? _] _]%Forall_cons]; done).
  case_bool_decide as Hend.
  - eexists. split; [reflexivity|]. cbn [lf_iters lf_finished finish]. split; [|split_and!; [lia|done..]].
    split; [by rewrite <- Hperm'|]. intros y. rewrite <- (common_perm _ _ y Hperm'), common_snoc, Hend.
    intros [_ Hy]. by apply elem_of_nil in Hy.
  - rewrite length_insert.
    destruct (search_spec fuel {| lf_iters := <[p := next it]> iters; lf_p := ((p + 1) mod length iters)%nat;
      lf_finished := false; lf_current := Some x |}) as (lf' & Hs & Hset & Hc & Ht); [|cbn [lf_iters]; lia|].
    + destruct (Hready Hend) as [Hne HS]. unfold ready. cbn [lf_iters lf_p lf_finished].
      rewrite length_insert, Hrot'. split_and!; [apply Nat.mod_upper_bound; lia|done| | |done].
      * by rewrite <- Hperm'.
      * by rewrite <- Hperm'.
    + exists lf'. cbn [lf_iters] in *. do 2 (split; [done|]). split_and!; [lia| |].
      * intros y. by rewrite Hcom, Hc.
      * intros y Hy. by apply HR, Hc.
Qed.

Lemma intersect_loop_spec fuel lf :
  settled lf → (total (lf_iters lf) < fuel)%nat →
  ∃ out, intersect_loop fuel lf = Some out ∧ StronglySorted R out
  ∧ ∀ x, x ∈ out ↔ common (lf_iters lf) x.
Proof.
  revert lf. induction fuel as [|fuel IH]; intros lf Hset Hfuel; [lia|].
  cbn [intersect_loop]. unfold LeapfrogIntersect_key. destruct (lf_finished lf) eqn:Hfin.
  { exists []. split_and!; [done|constructor|]. destruct Hset as [_ Hset]. rewrite Hfin in Hset.
    intros x. split; [by intros ?%elem_of_nil|by intros ?%Hset]. }
  destruct (Hset) as [_ Hs]. rewrite Hfin in Hs. destruct Hs as (_ & x & Hx & _). rewrite Hx.
  destruct (intersect_next_spec (S fuel) lf x Hset Hfin Hx) as (lf' & -> & Hset' & Htot & Hcom & HR); [lia|].
  cbn [mbind option_bind]. destruct (IH lf' Hset') as (out & -> & HS & Hout); [lia|].
  eexists. split; [reflexivity|]. split.
  - constructor; [done|]. apply Forall_forall. intros y Hy. by apply HR, Hout.
  - intros y. by rewrite elem_of_cons, Hcom, Hout.
Qed.

Lemma intersect_spec fuel iters :
  iters ≠ [] → Forall cursor_ok iters → (total iters < fuel)%nat →
  ∃ out, intersect fuel iters = Some out ∧ StronglySorted R out ∧ ∀ x, x ∈ out ↔ common iters x.
Proof.
  intros Hne Hok Hfuel. unfold intersect, LeapfrogIntersect_new.
  rewrite (proj2 (Nat.eqb_neq (length iters) 0)) by (by destruct iters). cbn [orb].
  destruct (existsb at_end iters) eqn:Hend.
  - apply existsb_exists in Hend as (i & Hi & Hei). apply list_elem_of_In in Hi.
    apply intersect_loop_spec; [|done]. split; [done|]. cbn [lf_finished finish lf_iters].
    intros x Hx. specialize (Hx i Hi). rewrite Forall_forall in Hok. rewrite at_end_spec in Hei by (by apply Hok).
    apply bool_decide_eq_true in Hei. rewrite Hei in Hx. by apply elem_of_nil in Hx.
  - pose proof (merge_sort_Permutation key_le iters) as Hp.
    destruct (search_spec fuel {| lf_iters := merge_sort key_le iters; lf_p := 0;
      lf_finished := false; lf_current := None |}) as (lf & -> & Hset & Hc & Ht).
    + unfold ready. cbn [lf_iters lf_p lf_finished].
      split_and!; [rewrite Hp; destruct iters; simpl; [done|lia]|done|by rewrite Hp| |].
      * rewrite Hp. apply Forall_forall. intros i Hi Hr. rewrite Forall_forall in Hok.
        assert (at_end i = true) by (rewrite at_end_spec by (by apply Hok); by apply bool_decide_eq_true).
        enough (existsb at_end iters = true) by congruence. apply existsb_exists. exists i.
        split; [by apply list_elem_of_In|done].
      * unfold rot. rewrite drop_0, take_0, app_nil_r. apply (StronglySorted_merge_sort key_le).
    + cbn [lf_iters]. by rewrite (total_perm _ _ Hp).
    + cbn [mbind option_bind lf_iters] in *. rewrite (total_perm _ _ Hp) in Ht.
      destruct (intersect_loop_spec fuel lf Hset) as (out & Ho & HS & Hout); [lia|].
      exists out. split_and!; [done..|]. intros x. by rewrite Hout, Hc, (common_perm _ _ x Hp).
Qed.

End IntersectCorrect.

(** ** Correctness of the union *)

Section UnionCorrect.
Context {I : Type} `{OrdIteratorLaws I}.

Definition present (iters : list I) (x : Z) : Prop := ∃ i, i ∈ iters ∧ x ∈ remaining i.

Definition he_le (a b : HeapEntry) : Prop := he_key a ≤ he_key b.
#[local] Instance he_le_refl : Reflexive he_le.
Proof. intros a. unfold he_le. lia. Qed.

(** The heap holds one entry per iterator that is not at its end, smallest first. *)
Definition heap_ok (iters : list I) (heap : list HeapEntry) : Prop :=
  NoDup heap ∧ StronglySorted he_le heap
  ∧ ∀ e, e ∈ heap ↔ ∃ i, iters !! he_iter_idx e = Some i ∧ key i = Some (he_key e).

Lemma he_before_le a b : he_before a b = true → he_le a b.
Proof. unfold he_before, he_le. destruct (Z.compare_spec (he_key a) (he_key b)); intros; (lia || done). Qed.
Lemma he_before_false a b : he_before a b = false → he_le b a.
Proof. unfold he_before, he_le. destruct (Z.compare_spec (he_key a) (he_key b)); intros; (lia || done). Qed.

Lemma heap_push_perm e heap : heap_push e heap ≡ₚ e :: heap.
Proof.
  induction heap as [|h heap IH]; simpl; [done|]. destruct (he_before e h); [done|].
  rewrite IH. apply Permutation_swap.
Qed.

Lemma heap_push_sorted e heap : StronglySorted he_le heap → StronglySorted he_le (heap_push e heap).
Proof.
  induction 1 as [|h heap HS IH HF]; simpl; [by repeat constructor|].
  destruct (he_before e h) eqn:Eb.
  - apply he_before_le in Eb. constructor; [by constructor|]. constructor; [done|].
    eapply Forall_impl; [exact HF|]. unfold he_le in *. intros; lia.
  - apply he_before_false in Eb. constructor; [done|]. rewrite heap_push_perm. by constructor.
Qed.

Lemma push_all_spec iters idx heap :
  NoDup heap → StronglySorted he_le heap → (∀ e, e ∈ heap → (he_iter_idx e < idx)%nat) →
  NoDup (push_all idx iters heap) ∧ StronglySorted he_le (push_all idx iters heap)
  ∧ ∀ e, e ∈ push_all idx iters heap ↔
      e ∈ heap ∨ ∃ j i, he_iter_idx e = (idx + j)%nat ∧ iters !! j = Some i ∧ key i = Some (he_key e).
Proof.
  revert idx heap. induction iters as [|it iters IH]; intros idx heap Hnd HS Hidx; cbn [push_all].
  { split_and!; [done..|]. intros e. split; [by left|]. by intros [?|(j & i & _ & ? & _)]. }
  set (heap1 := match key it with Some k => _ | None => heap end).
  assert (H1 : NoDup heap1 ∧ StronglySorted he_le heap1
    ∧ (∀ e, e ∈ heap1 ↔ e ∈ heap ∨ he_iter_idx e = idx ∧ key it = Some (he_key e))).
  { unfold heap1. destruct (key it) as [k|].
    - split_and!.
      + rewrite heap_push_perm. constructor; [|done]. intros He%Hidx. simpl in He. lia.
      + by apply heap_push_sorted.
      + intros e. rewrite heap_push_perm, elem_of_cons. split.
        * intros [->|?]; [right; done|by left].
        * intros [?|[Hi [= Hk]]]; [by right|left]. destruct e; simpl in *; by subst.
    - split_and!; [done..|]. intros e. split; [by left|]. by intros [?|[_ ?]]. }
  destruct H1 as (Hnd1 & HS1 & Hin1). destruct (IH (S idx) heap1 Hnd1 HS1) as (R1 & R2 & R3).
  { intros e [He|[He _]]%Hin1; [specialize (Hidx e He); lia|lia]. }
  split_and!; [done..|]. intros e. rewrite R3, Hin1. split.
  - intros [[?|[Hi Hk]]|(j & i & Hj & Hi & Hk)]; [by left|right..].
    + exists 0%nat, it. split_and!; [lia|done..].
    + exists (S j), i. split_and!; [lia|done..].
  - intros [?|([|j] & i & Hj & Hi & Hk)]; [by left; left|left; right|right].
    + simplify_eq/=. split; [lia|done].
    + exists j, i. split_and!; [lia|done..].
Qed.

Lemma present_key iters x : Forall it_wf iters → present iters x →
  ∃ n i k, iters !! n = Some i ∧ key i = Some k ∧ k ≤ x.
Proof.
  intros Hwf (i & [n Hn]%list_elem_of_lookup & Hx). pose proof (Forall_lookup_1 _ _ _ _ Hwf Hn) as Hi.
  destruct (remaining i) as [|k r] eqn:Er; [by apply elem_of_nil in Hx|].
  assert (Hk : key i = Some k) by (by rewrite key_spec, Er).
  exists n, i, k. split_and!; [done..|]. eapply key_lower_bound; [done..|]. by rewrite Er.
Qed.

Lemma present_middle a i b x : present (a ++ i :: b) x ↔ x ∈ remaining i ∨ present (a ++ b) x.
Proof.
  unfold present. split.
  - intros (j & [Hj|[->|Hj]%elem_of_cons]%elem_of_app & Hx); [right|by left|right];
      exists j; rewrite elem_of_app; auto.
  - intros [Hx|(j & [Hj|Hj]%elem_of_app & Hx)]; [exists i|exists j..]; rewrite elem_of_app, elem_of_cons; auto.
Qed.

(** The heap stays right when its top entry is replaced by the new key of the
    iterator the entry names. *)
Lemma heap_replace iters top heap it' :
  heap_ok iters (top :: heap) →
  heap_ok (<[he_iter_idx top := it']> iters)
    (match key it' with
     | Some k => heap_push {| he_key := k; he_iter_idx := he_iter_idx top |} heap
     | None => heap
     end).
Proof.
  intros (Hnd & HS & Hin). destruct (proj1 (Hin top)) as (it & Hit & Hk); [left|].
  apply NoDup_cons in Hnd as [Htop Hnd]. apply StronglySorted_inv in HS as [HS _].
  pose proof (lookup_lt_Some _ _ _ Hit) as Hlt.
  assert (Hrest : ∀ e, e ∈ heap ↔ he_iter_idx e ≠ he_iter_idx top
    ∧ ∃ i, iters !! he_iter_idx e = Some i ∧ key i = Some (he_key e)).
  { intros e. rewrite <- Hin, elem_of_cons. split; [|by intros [Hne [->|He]]].
    intros He. split; [|by right]. intros Heq. destruct (proj1 (Hin e)) as (i & Hi & Hki); [by right|].
    rewrite Heq, Hit in Hi. simplify_eq. apply Htop.
    replace top with e; [done|]. destruct e, top; simpl in *; congruence. }
  split_and!.
  - destruct (key it'); [|done]. rewrite heap_push_perm. constructor; [|done]. by intros [Hne _]%Hrest.
  - destruct (key it'); [by apply heap_push_sorted|done].
  - intros e. destruct (decide (he_iter_idx e = he_iter_idx top)) as [Heq|Hne].
    + rewrite Heq, list_lookup_insert_eq by done. destruct (key it') as [k|] eqn:Ek.
      * rewrite heap_push_perm, elem_of_cons, Hrest. split; [intros [->|[? _]]; [by eauto|done]|].
        intros (i & [= <-] & Hki). left. destruct e; simpl in *. congruence.
      * rewrite Hrest. split; [by intros [? _]|]. intros (i & [= <-] & Hki). congruence.
    + rewrite list_lookup_insert_ne by done. destruct (key it') as [k|]; [|rewrite Hrest; tauto].
      rewrite heap_push_perm, elem_of_cons, Hrest. split; [|by right].
      intros [->|[_ ?]]; [by simpl in Hne|done].
Qed.

(** Popping the top entry, advancing its iterator and pushing the new key. *)
Lemma pop_step iters top heap it :
  Forall it_wf iters → heap_ok iters (top :: heap) → iters !! he_iter_idx top = Some it →
  let iters' := <[he_iter_idx top := next it]> iters in
  Forall it_wf iters' ∧ (∀ x, present iters x ↔ x = he_key top ∨ present iters' x)
  ∧ (total iters' < total iters)%nat.
Proof.
  intros Hwf (_ & _ & Hin) Hit. destruct (proj1 (Hin top)) as (it0 & Hit0 & Hk); [left|]. simplify_eq.
  cbv zeta. pose proof (Forall_lookup_1 _ _ _ _ Hwf Hit) as Hw.
  destruct (next_spec it Hw) as [Hw' Hrem]. destruct (key_Some it _ Hw Hk) as [r Hr].
  rewrite Hr in Hrem. simpl in Hrem.
  pose proof (list_elem_of_split_length _ _ _ Hit) as (a & b & Eab & Ea).
  assert (Eins : <[he_iter_idx top := next it]> iters = a ++ next it :: b).
  { rewrite Eab, Ea, insert_app_r_alt, Nat.sub_diag by lia. done. }
  split_and!; [by apply Forall_insert| |]; rewrite Eins, Eab.
  - intros x. rewrite !present_middle, Hr, Hrem, elem_of_cons. tauto.
  - rewrite <- !(total_perm _ _ (Permutation_middle _ _ _)), !total_cons, Hr, Hrem. simpl. lia.
Qed.

(** Heap entries are present keys, and below every present key there is one. *)
Lemma entry_present iters heap e :
  Forall it_wf iters → heap_ok iters heap → e ∈ heap → present iters (he_key e).
Proof.
  intros Hwf (_ & _ & Hin) (i & Hi & Hk)%Hin. exists i. split; [by eapply list_elem_of_lookup_2|].
  destruct (key_Some i _ (Forall_lookup_1 _ _ _ _ Hwf Hi) Hk) as [r ->]. left.
Qed.
Lemma present_entry iters heap x :
  Forall it_wf iters → heap_ok iters heap → present iters x → ∃ e, e ∈ heap ∧ he_key e ≤ x.
Proof.
  intros Hwf (_ & _ & Hin) Hx. destruct (present_key iters x Hwf Hx) as (n & i & k & Hn & Hk & Hle).
  exists {| he_key := k; he_iter_idx := n |}. split; [apply Hin; eauto|done].
Qed.
Lemma top_min iters top heap x :
  Forall it_wf iters → heap_ok iters (top :: heap) → present iters x → he_key top ≤ x.
Proof.
  intros Hwf Hok Hx. destruct (present_entry _ _ _ Hwf Hok Hx) as (e & He & Hle).
  pose proof (sorted_first_le he_le _ _ _ (proj1 (proj2 Hok)) He) as Ht. unfold he_le in Ht. lia.
Qed.

Lemma advance_equal_spec fuel target iters heap :
  Forall it_wf iters → heap_ok iters heap → (∀ x, present iters x → target ≤ x) →
  (total iters < fuel)%nat →
  ∃ iters' heap', advance_equal fuel target iters heap = Some (iters', heap')
  ∧ Forall it_wf iters' ∧ heap_ok iters' heap'
  ∧ (∀ x, present iters' x ↔ present iters x ∧ target < x)
  ∧ (total iters' ≤ total iters)%nat
  ∧ (he_key <$> head heap = Some target → total iters' < total iters)%nat.
Proof.
  revert iters heap. induction fuel as [|fuel IH]; intros iters heap Hwf Hok Hge Hfuel; [lia|].
  cbn [advance_equal]. destruct heap as [|top heap].
  { eexists _, _. split; [reflexivity|]. do 2 (split; [done|]). split_and!; [|lia|done].
    intros x. split; [|tauto]. intros Hx.
    destruct (present_entry _ _ _ Hwf Hok Hx) as (e & []%elem_of_nil & _). }
  destruct (Z.eqb_spec (he_key top) target) as [Heq|Hne]; cbn [negb].
  2:{ eexists _, _. split; [reflexivity|]. do 2 (split; [done|]). split_and!; [|lia|simpl; congruence].
      intros x. split; [|tauto]. intros Hx. split; [done|]. pose proof (top_min _ _ _ _ Hwf Hok Hx).
      pose proof (Hge _ (entry_present _ _ top Hwf Hok ltac:(left))). lia. }
  destruct (proj1 (proj2 (proj2 Hok) top)) as (it & Hit & Hk); [left|]. rewrite Hit. cbn [mbind option_bind].
  destruct (pop_step iters top heap it Hwf Hok Hit) as (Hwf1 & Hpres & Htot).
  pose proof (heap_replace iters top heap (next it) Hok) as Hok1. set (iters1 := <[_ := next it]> iters) in *.
  destruct (IH iters1 _ Hwf1 Hok1) as (iters' & heap' & -> & Hwf' & Hok' & Hp' & Ht' & _); [|lia|].
  { intros x Hx. apply Hge, Hpres. by right. }
  eexists _, _. split; [reflexivity|]. do 2 (split; [done|]). split_and!; [|lia|lia].
  intros x. rewrite Hp', Hpres, Heq. split; [tauto|]. intros [[->|?] ?]; [lia|done].
Qed.

Lemma collect_spec fuel u :
  Forall it_wf (mu_iters u) → heap_ok (mu_iters u) (mu_heap u) →
  mu_current u = he_key <$> head (mu_heap u) → (total (mu_iters u) < fuel)%nat →
  ∃ out, collect fuel u = Some out ∧ StronglySorted Z.lt out ∧ ∀ x, x ∈ out ↔ present (mu_iters u) x.
Proof.
  revert u. induction fuel as [|fuel IH]; intros [iters heap cur] Hwf Hok Hcur Hfuel; [lia|].
  cbn [mu_iters mu_heap mu_current] in *. cbn [collect]. unfold MergeSortedUnion_key, MergeSortedUnion_next.
  cbn [mu_iters mu_heap mu_current]. rewrite Hcur. destruct heap as [|top heap]; cbn [head fmap option_fmap option_map].
  - exists []. split_and!; [done|constructor|]. intros x. split; [by intros ?%elem_of_nil|].
    intros Hx. destruct (present_entry _ _ _ Hwf Hok Hx) as (e & []%elem_of_nil & _).
  - pose proof (λ x, top_min iters top heap x Hwf Hok) as Hmin.
    destruct (advance_equal_spec (S fuel) (he_key top) iters (top :: heap) Hwf Hok Hmin Hfuel)
      as (iters' & heap' & -> & Hwf' & Hok' & Hp & _ & Ht). cbn [mbind option_bind].
    specialize (Ht eq_refl).
    destruct (IH {| mu_iters := iters'; mu_heap := heap'; mu_current := he_key <$> head heap' |})
      as (out & -> & HS & Hout); [done..|cbn [mu_iters]; lia|]. cbn [mu_iters mbind option_bind] in *.
    eexists. split; [reflexivity|]. split.
    + constructor; [done|]. apply Forall_forall. intros y [_ Hy]%Hout%Hp. done.
    + intros x. rewrite elem_of_cons, Hout, Hp. split.
      * intros [->|[? _]]; [|done]. apply (entry_present _ (top :: heap)); [done..|left].
      * intros Hx. specialize (Hmin x Hx). destruct (decide (x = he_key top)); [by left|right].
        split; [done|lia].
Qed.

End UnionCorrect.

(** ** Candidate generation of the multi-way join

    The step of [descend_multiway] ([namidb-query/src/exec/walker.rs]) that computes the
    candidates of a variable: [sources] holds, for each edge constraint, the partner
    lists fetched for its edge types. Constraints with several types are merged, then
    all constraints are intersected. *)
Fixpoint constraint_lists (fuel : nat) (sources : list (list (list Z))) : option (list (list Z)) :=
  match sources with
  | [] => Some []
  | per_type :: rest =>
      l ← match per_type with
          | [l] => Some l
          | _ => collect fuel (MergeSortedUnion_new (map SortedSliceIter_new per_type))
          end;
      ls ← constraint_lists fuel rest;
      Some (l :: ls)
  end.

Definition candidates (fuel : nat) (sources : list (list (list Z))) : option (list Z) :=
  lists ← constraint_lists fuel sources;
  intersect fuel (map SortedSliceIter_new lists).

Definition slice_ok (R : relation Z) (l : list Z) : Prop := StronglySorted R l ∧ plen l < 2 ^ 63.
Definition total_length {A} (ls : list (list A)) : nat := sum_list (map length ls).

Lemma remaining_new l : remaining (SortedSliceIter_new l) = l.
Proof. done. Qed.

Lemma total_new ls : total (map SortedSliceIter_new ls) = total_length ls.
Proof. unfold total, total_length. by rewrite map_map. Qed.

Lemma slice_wf_new l : slice_ok Z.le l → slice_wf (SortedSliceIter_new l).
Proof. intros [HS Hl]. split_and!; [done|simpl; lia|unfold plen; simpl; lia|done]. Qed.

Lemma slice_ok_weaken (R : relation Z) l : (∀ x y, R x y → x ≤ y) → slice_ok R l → slice_ok Z.le l.
Proof. intros HR [HS Hl]. split; [by eapply StronglySorted_impl|done]. Qed.

Lemma slices_ok (R : relation Z) ls :
  (∀ x y, R x y → x ≤ y) → Forall (slice_ok R) ls → Forall (cursor_ok R) (map SortedSliceIter_new ls).
Proof.
  intros HR Hls. apply Forall_map. eapply Forall_impl; [exact Hls|]. intros l Hl. split; [|apply Hl].
  by apply slice_wf_new, (slice_ok_weaken R).
Qed.

Lemma common_new ls x : common (map SortedSliceIter_new ls) x ↔ ∀ l, l ∈ ls → x ∈ l.
Proof.
  unfold common. split.
  - intros Hc l Hl. apply (Hc (SortedSliceIter_new l)). by apply list_elem_of_fmap_2.
  - intros Hc i (l & -> & Hl)%list_elem_of_fmap_1. by apply Hc.
Qed.

Lemma present_new ls x : present (map SortedSliceIter_new ls) x ↔ ∃ l, l ∈ ls ∧ x ∈ l.
Proof.
  unfold present. split.
  - intros (i & (l & -> & Hl)%list_elem_of_fmap_1 & Hx). eauto.
  - intros (l & Hl & Hx). exists (SortedSliceIter_new l). split; [by apply list_elem_of_fmap_2|done].
Qed.

(** The union of sorted lists, repetitions collapsed. *)
Lemma union_correct fuel ls :
  Forall (slice_ok Z.le) ls → (total_length ls < fuel)%nat →
  ∃ out, collect fuel (MergeSortedUnion_new (map SortedSliceIter_new ls)) = Some out
  ∧ StronglySorted Z.lt out ∧ ∀ x, x ∈ out ↔ ∃ l, l ∈ ls ∧ x ∈ l.
Proof.
  intros Hls Hfuel. set (iters := map SortedSliceIter_new ls).
  destruct (push_all_spec iters 0 []) as (H1 & H2 & H3); [constructor..|by intros ? ?%elem_of_nil|].
  destruct (collect_spec fuel (MergeSortedUnion_new iters)) as (out & Ho & HS & Hout).
  - apply Forall_map. eapply Forall_impl; [exact Hls|]. apply slice_wf_new.
  - split_and!; [done..|]. intros e. rewrite H3. cbn [Nat.add MergeSortedUnion_new mu_iters]. split.
    + intros [[]%elem_of_nil|(j & i & -> & Hi & Hk)]. eauto.
    + intros (i & Hi & Hk). right. eauto 6.
  - done.
  - cbn [mu_iters MergeSortedUnion_new]. unfold iters. by rewrite total_new.
  - exists out. split_and!; [done..|]. intros x. rewrite Hout. apply present_new.
Qed.

Lemma ascending_NoDup l : StronglySorted Z.lt l → NoDup l.
Proof.
  induction 1 as [|x l HS IH HF]; constructor; [|done].
  intros Hx. rewrite Forall_forall in HF. specialize (HF x Hx). lia.
Qed.

(** A strictly ascending list has at most as many elements as the lists it draws from. *)
Lemma length_collected ls out :
  StronglySorted Z.lt out → (∀ x, x ∈ out → ∃ l, l ∈ ls ∧ x ∈ l) →
  (length out ≤ total_length ls)%nat.
Proof.
  intros HS Hin. transitivity (length (concat ls)).
  - apply submseteq_length, NoDup_submseteq; [by apply ascending_NoDup|].
    intros x (l & Hl & Hx)%Hin. apply list_elem_of_In, in_concat. exists l. by rewrite <- !list_elem_of_In.
  - clear. unfold total_length. induction ls as [|l ls IH]; simpl; [done|]. rewrite length_app. lia.
Qed.

Definition sources_length (sources : list (list (list Z))) : nat := sum_list (map total_length sources).

Lemma constraint_lists_spec fuel sources :
  Forall (Forall (slice_ok Z.lt)) sources → (sources_length sources < fuel)%nat →
  Z.of_nat (sources_length sources) < 2 ^ 63 →
  ∃ lists, constraint_lists fuel sources = Some lists ∧ Forall (slice_ok Z.lt) lists
  ∧ (total_length lists ≤ sources_length sources)%nat ∧ length lists = length sources
  ∧ ∀ x, (∀ l, l ∈ lists → x ∈ l) ↔ (∀ per_type, per_type ∈ sources → ∃ l, l ∈ per_type ∧ x ∈ l).
Proof.
  intros Hok. induction Hok as [|ls sources Hls Hok IH]; intros Hfuel Hmax; cbn [constraint_lists].
  { exists []. split_and!; [done..|]. intros x. split; intros _ l []%elem_of_nil. }
  unfold sources_length in *. cbn [map sum_list sum_list_with foldr id] in *.
  destruct IH as (lists & -> & Hlists & Htot & Hlen & Hin); [lia..|].
  assert (Hl : ∃ l, match ls with [l] => Some l
      | _ => collect fuel (MergeSortedUnion_new (map SortedSliceIter_new ls)) end = Some l
    ∧ slice_ok Z.lt l ∧ (length l ≤ total_length ls)%nat ∧ ∀ x, x ∈ l ↔ ∃ k, k ∈ ls ∧ x ∈ k).
  { destruct (decide (length ls = 1%nat)) as [H1|H1].
    - destruct ls as [|l [|? ?]]; try done. exists l. apply Forall_cons in Hls as [Hl _].
      split_and!; [done|done|unfold total_length; simpl; lia|].
      intros x. setoid_rewrite list_elem_of_singleton. split; [eauto|by intros (? & -> & ?)].
    - destruct (union_correct fuel ls) as (out & Ho & HS & Hout); [|lia|].
      { eapply Forall_impl; [exact Hls|]. intros l. apply slice_ok_weaken. lia. }
      pose proof (length_collected ls out HS (λ x, proj1 (Hout x))). exists out.
      split_and!; [by destruct ls as [|? [|? ?]]|split; [done|]|done|done].
      unfold plen, id in *. lia. }
  destruct Hl as (l & -> & Hl & Hll & Hlx). cbn [mbind option_bind]. eexists. split; [reflexivity|].
  split_and!; [by constructor|unfold total_length in *; simpl; lia|simpl; lia|].
  intros x. split.
  - intros Hx per_type [->|Hp]%elem_of_cons; [apply Hlx, Hx; left|].
    apply Hin; [|done]. intros k Hk. apply Hx. by right.
  - intros Hx k [->|Hk]%elem_of_cons; [apply Hlx, Hx; left|].
    revert k Hk. apply Hin. intros p Hp. apply Hx. by right.
Qed.

(** C38: The leapfrog intersection of any number of ascending lists terminates without
    an out-of-range access and yields, in ascending order, exactly the keys present in
    every list (in strictly ascending order when the lists are): the galloping cursors
    and the rotation are equivalent to filtering by membership. *)
Theorem leapfrog_intersection_correct (R : relation Z) fuel lists :
  (∀ x y, R x y → x ≤ y) → lists ≠ [] → Forall (slice_ok R) lists → (total_length lists < fuel)%nat →
  ∃ out, intersect fuel (map SortedSliceIter_new lists) = Some out
  ∧ StronglySorted R out ∧ ∀ x, x ∈ out ↔ ∀ l, l ∈ lists → x ∈ l.
Proof.
  intros HR Hne Hok Hfuel.
  destruct (intersect_spec R fuel (map SortedSliceIter_new lists)) as (out & Ho & HS & Hout).
  - by destruct lists.
  - by apply slices_ok.
  - by rewrite total_new.
  - exists out. split_and!; [done..|]. intros x. by rewrite Hout, common_new.
Qed.

Lemma leapfrog_intersection_correct_witness :
  ∃ out, intersect 20 (map SortedSliceIter_new [[1; 3; 4; 9; 12]; [3; 9; 10; 12]; [0; 3; 5; 12]]) = Some out
  ∧ StronglySorted Z.lt out
  ∧ ∀ x, x ∈ out ↔ ∀ l, l ∈ [[1; 3; 4; 9; 12]; [3; 9; 10; 12]; [0; 3; 5; 12]] → x ∈ l.
Proof.
  apply leapfrog_intersection_correct; [lia|done| |vm_compute; lia].
  repeat constructor.
Defined.

(** The candidates of a join variable are, in strictly ascending order and
    without repetition, exactly the nodes that every edge constraint reaches through
    at least one of its types, whatever mix of single and alternative types the
    constraints have. *)
Theorem multiway_candidates_correct fuel sources :
  sources ≠ [] → Forall (Forall (slice_ok Z.lt)) sources →
  (sources_length sources < fuel)%nat → Z.of_nat (sources_length sources) < 2 ^ 63 →
  ∃ out, candidates fuel sources = Some out ∧ StronglySorted Z.lt out
  ∧ ∀ x, x ∈ out ↔ ∀ per_type, per_type ∈ sources → ∃ l, l ∈ per_type ∧ x ∈ l.
Proof.
  intros Hne Hok Hfuel Hmax. unfold candidates.
  destruct (constraint_lists_spec fuel sources Hok Hfuel Hmax) as (lists & -> & Hl & Htot & Hlen & Hin).
  cbn [mbind option_bind].
  destruct (intersect_spec Z.lt fuel (map SortedSliceIter_new lists)) as (out & Ho & HS & Hout).
  - destruct lists; [by destruct sources|done].
  - apply slices_ok; [lia|done].
  - rewrite total_new. lia.
  - exists out. split_and!; [done..|]. intros x. by rewrite Hout, common_new, Hin.
Qed.

Lemma multiway_candidates_correct_witness :
  ∃ out, candidates 20 [[[1; 3; 9]; [3; 7]]; [[3; 7; 8]]] = Some out ∧ StronglySorted Z.lt out
  ∧ ∀ x, x ∈ out ↔ ∀ per_type, per_type ∈ [[[1; 3; 9]; [3; 7]]; [[3; 7; 8]]] → ∃ l, l ∈ per_type ∧ x ∈ l.
Proof.
  apply multiway_candidates_correct; [done| |vm_compute; lia|vm_compute; done].
  repeat constructor.
Defined.
