(* ===== verification/PackStream.v ===== *)
(** The PackStream codec of the Bolt front end ([namidb-bolt/src/codec.rs], with the
    value type of [value.rs] and the errors of [error.rs]).

    A [String] is the list of its UTF-8 bytes, a [BTreeMap<String, Value>] its entries
    in ascending key order, an [f64] its 64 bits. [encode] returns the bytes it appends
    to the output buffer. The decoder advances a slice and charges a heap budget; both
    are its state. Its recursion is bounded by the nesting limit of the source, so it
    needs no other fuel. [size_of::<Value>()] is a compiler constant and a parameter. *)
From S2P Require Import Prelude.

(** ** Values *)

#[local] Unset Elimination Schemes.
Inductive Value :=
| VNull
| VBool (b : bool)
| VInt (n : Z)
| VFloat (bits : Z)
| VString (s : list byte)
| VBytes (b : list byte)
| VList (items : list Value)
| VMap (m : list (list byte * Value))
| VStruct (tag : byte) (fields : list Value).
#[local] Set Elimination Schemes.

(** Induction with a hypothesis for every element of a list, map or struct. *)
Definition Value_ind (P : Value → Prop)
    (Hnull : P VNull) (Hbool : ∀ b, P (VBool b)) (Hint : ∀ n, P (VInt n)) (Hfloat : ∀ f, P (VFloat f))
    (Hstring : ∀ s, P (VString s)) (Hbytes : ∀ b, P (VBytes b))
    (Hlist : ∀ items, Forall P items → P (VList items))
    (Hmap : ∀ m, Forall (λ kv, P kv.2) m → P (VMap m))
    (Hstruct : ∀ tag fields, Forall P fields → P (VStruct tag fields)) : ∀ v, P v :=
  fix go v :=
    let all := fix all l : Forall P l :=
      match l with [] => Forall_nil_2 P | x :: l' => Forall_cons_2 P x l' (go x) (all l') end in
    match v with
    | VNull => Hnull | VBool b => Hbool b | VInt n => Hint n | VFloat f => Hfloat f
    | VString s => Hstring s | VBytes b => Hbytes b
    | VList items => Hlist items (all items)
    | VMap m =>
        Hmap m ((fix allm (m : list (list byte * Value)) : Forall (λ kv, P kv.2) m :=
          match m with
          | [] => Forall_nil_2 _
          | kv :: m' => Forall_cons_2 (λ kv, P kv.2) kv m' (go kv.2) (allm m')
          end) m)
    | VStruct tag fields => Hstruct tag fields (all fields)
    end.

Definition type_name (v : Value) : string :=
  match v with
  | VNull => "Null" | VBool _ => "Bool" | VInt _ => "Int" | VFloat _ => "Float"
  | VString _ => "String" | VBytes _ => "Bytes" | VList _ => "List" | VMap _ => "Map"
  | VStruct _ _ => "Struct"
  end.

(** The session states ([state.rs]). *)
Inductive State :=
| Negotiation | Connected | Authentication | Ready | Streaming | TxReady | TxStreaming | Failed | Defunct.

Definition is_streaming (s : State) : bool :=
  match s with Streaming | TxStreaming => true | _ => false end.

(** Wrapped [io::Error] and [Utf8Error] values are reduced to their occurrence. *)
Inductive BoltError :=
| BoltIo
| UnexpectedEof (what : string)
| InvalidMarker (marker : byte) (expected : string)
| InvalidUtf8
| TooLarge (what : string) (len max : Z)
| DecodedTooLarge (what : string) (estimated max wire_bytes : Z)
| MemoryBudgetExhausted (what : string) (requested available capacity : Z)
| NestingTooDeep (max : Z)
| UnsupportedStruct (tag : byte)
| MalformedStruct (struct_name detail : string)
| Handshake (msg : string)
| Protocol (msg : string)
| InvalidState (message : string) (state : State).

Abbreviation BoltResult := (result BoltError).

Definition DEFAULT_MAX_LEN : Z := Z.shiftl 1 24.
Definition MAX_NESTING_DEPTH : nat := 128.
Definition DECODE_HEAP_BASE_BYTES : Z := 2 * 1024 * 1024.
Definition DECODE_HEAP_BYTES_PER_WIRE_BYTE : Z := 8.
Definition MAP_ENTRY_HEAP_BYTES : Z := 128.

(** [len as Z] of a Rust [usize] length. *)
Abbreviation zlen l := (Z.of_nat (length l)).

(** ** Encoder *)

(** [out.put_u8(v as u8)] and the big-endian [put_u16], [put_i32], ... *)
Definition put_u8 (v : Z) : list byte := [z2b v].

Definition encode_int (n : Z) : list byte :=
  if (-16 <=? n) && (n <=? 127) then put_u8 n
  else if (- 2 ^ 7 <=? n) && (n <=? 2 ^ 7 - 1) then put_u8 0xC8 ++ be_split 1 n
  else if (- 2 ^ 15 <=? n) && (n <=? 2 ^ 15 - 1) then put_u8 0xC9 ++ be_split 2 n
  else if (- 2 ^ 31 <=? n) && (n <=? 2 ^ 31 - 1) then put_u8 0xCA ++ be_split 4 n
  else put_u8 0xCB ++ be_split 8 n.

Definition encode_string (s : list byte) : list byte :=
  let len := zlen s in
  (if len <=? 15 then put_u8 (Z.lor 0x80 len)
   else if len <=? 2 ^ 8 - 1 then put_u8 0xD0 ++ be_split 1 len
   else if len <=? u16_max then put_u8 0xD1 ++ be_split 2 len
   else put_u8 0xD2 ++ be_split 4 len)
  ++ s.

Definition encode_bytes (b : list byte) : list byte :=
  let len := zlen b in
  (if len <=? 2 ^ 8 - 1 then put_u8 0xCC ++ be_split 1 len
   else if len <=? u16_max then put_u8 0xCD ++ be_split 2 len
   else put_u8 0xCE ++ be_split 4 len)
  ++ b.

Definition encode_list_header (len : Z) : BoltResult (list byte) :=
  if len <=? 15 then Ok (put_u8 (Z.lor 0x90 len))
  else if len <=? 2 ^ 8 - 1 then Ok (put_u8 0xD4 ++ be_split 1 len)
  else if len <=? u16_max then Ok (put_u8 0xD5 ++ be_split 2 len)
  else if len <=? u32_max then Ok (put_u8 0xD6 ++ be_split 4 len)
  else Err (TooLarge "List" len u32_max).

Definition encode_map_header (len : Z) : BoltResult (list byte) :=
  if len <=? 15 then Ok (put_u8 (Z.lor 0xA0 len))
  else if len <=? 2 ^ 8 - 1 then Ok (put_u8 0xD8 ++ be_split 1 len)
  else if len <=? u16_max then Ok (put_u8 0xD9 ++ be_split 2 len)
  else if len <=? u32_max then Ok (put_u8 0xDA ++ be_split 4 len)
  else Err (TooLarge "Map" len u32_max).

Definition encode_struct_header (fields : Z) (tag : byte) : BoltResult (list byte) :=
  if fields <=? 15 then Ok (put_u8 (Z.lor 0xB0 fields) ++ [tag])
  else if fields <=? 2 ^ 8 - 1 then Ok (put_u8 0xDC ++ be_split 1 fields ++ [tag])
  else if fields <=? u16_max then Ok (put_u8 0xDD ++ be_split 2 fields ++ [tag])
  else Err (TooLarge "Struct" fields u16_max).

(** [for v in items { encode(out, v)? }] *)
Definition encode_items (encode : Value → BoltResult (list byte)) : list Value → BoltResult (list byte) :=
  fix go items :=
    match items with
    | [] => Ok []
    | v :: rest => b ← encode v; bs ← go rest; Ok (b ++ bs)
    end.

Definition encode_entries (encode : Value → BoltResult (list byte))
    : list (list byte * Value) → BoltResult (list byte) :=
  fix go m :=
    match m with
    | [] => Ok []
    | (k, v) :: rest => b ← encode v; bs ← go rest; Ok (encode_string k ++ b ++ bs)
    end.

Fixpoint encode (v : Value) : BoltResult (list byte) :=
  match v with
  | VNull => Ok (put_u8 0xC0)
  | VBool false => Ok (put_u8 0xC2)
  | VBool true => Ok (put_u8 0xC3)
  | VInt n => Ok (encode_int n)
  | VFloat f => Ok (put_u8 0xC1 ++ be_split 8 f)
  | VString s => Ok (encode_string s)
  | VBytes b => Ok (encode_bytes b)
  | VList items =>
      h ← encode_list_header (zlen items);
      bs ← encode_items encode items;
      Ok (h ++ bs)
  | VMap m =>
      h ← encode_map_header (zlen m);
      bs ← encode_entries encode m;
      Ok (h ++ bs)
  | VStruct tag fields =>
      h ← encode_struct_header (zlen fields) tag;
      bs ← encode_items encode fields;
      Ok (h ++ bs)
  end.

(** ** Decoder *)

Record DecodeBudget := { used : Z; max : Z; wire_bytes : Z }.

Definition for_message (wire_bytes max_len : Z) : DecodeBudget :=
  let bounded_wire := Z.min wire_bytes max_len in
  let proportional := saturating_mul64 bounded_wire DECODE_HEAP_BYTES_PER_WIRE_BYTE in
  {| used := 0; max := saturating_add64 DECODE_HEAP_BASE_BYTES proportional; wire_bytes := bounded_wire |}.

(** A decoder takes the unread slice and the budget and returns both with its value. *)
Definition Dec (A : Type) : Type := list byte → DecodeBudget → BoltResult (A * list byte * DecodeBudget).

#[global] Instance Dec_ret : MRet Dec := λ A a buf b, Ok (a, buf, b).
#[global] Instance Dec_bind : MBind Dec := λ A B k m buf b,
  match m buf b with Ok (a, buf, b) => k a buf b | Err e => Err e end.
Definition derr {A} (e : BoltError) : Dec A := λ _ _, Err e.

Definition charge (what : string) (bytes : Z) : Dec unit := λ buf b,
  let next := saturating_add64 (used b) bytes in
  if max b <? next then Err (DecodedTooLarge what next (max b) (wire_bytes b))
  else Ok (tt, buf, {| used := next; max := max b; wire_bytes := wire_bytes b |}).

(** [len.checked_mul(size)] with the error of the budget. *)
Definition charge_mul (what : string) (len size : Z) : Dec unit := λ buf b,
  match checked_mul64 len size with
  | None => Err (TooLarge what usize_max (max b))
  | Some bytes => charge what bytes buf b
  end.

Definition require_minimum_wire (len bytes_per_item : Z) (what : string) : Dec unit := λ buf b,
  match checked_mul64 len bytes_per_item with
  | None => Err (TooLarge what usize_max (zlen buf))
  | Some required => if zlen buf <? required then Err (UnexpectedEof what) else Ok (tt, buf, b)
  end.

Definition bound_check (what : string) (len max : Z) : Dec unit :=
  if max <? len then derr (TooLarge what len max) else mret tt.

(** [if buf.len() < n { Err } else { buf.get_uN() }], big-endian. *)
Definition read_be (n : nat) (what : string) : Dec Z := λ buf b,
  if (length buf <? n)%nat then Err (UnexpectedEof what)
  else Ok (be_combine (take n buf), drop n buf, b).
Definition read_u8 (what : string) : Dec Z := read_be 1 what.
Definition read_u16 (what : string) : Dec Z := read_be 2 what.
Definition read_u32 (what : string) : Dec Z := read_be 4 what.
Definition read_i8 : Dec Z := n ← read_be 1 "Int8"; mret (sign_wrap 8 n).
Definition read_i16 : Dec Z := n ← read_be 2 "Int16"; mret (sign_wrap 16 n).
Definition read_i32 : Dec Z := n ← read_be 4 "Int32"; mret (sign_wrap 32 n).
Definition read_i64 : Dec Z := n ← read_be 8 "Int64"; mret (sign_wrap 64 n).
Definition read_f64 : Dec Z := read_be 8 "Float".

(** [BTreeMap::insert] on the ordered entries. *)
Fixpoint map_insert (k : list byte) (v : Value) (m : list (list byte * Value)) : list (list byte * Value) :=
  match m with
  | [] => [(k, v)]
  | (k', v') :: rest =>
      match bytes_cmp k k' with
      | Lt => (k, v) :: m
      | Eq => (k, v) :: rest
      | Gt => (k', v') :: map_insert k v rest
      end
  end.

Section Decoder.
Context (size_of_Value : Z) (max_len : Z).

(** [&buf[..len]] and [buf.advance(len)], after the length check. *)
Definition take_slice (len : Z) : Dec (list byte) := λ buf b,
  Ok (take (Z.to_nat len) buf, drop (Z.to_nat len) buf, b).
Definition require_len (len : Z) (what : string) : Dec unit := λ buf b,
  if zlen buf <? len then Err (UnexpectedEof what) else Ok (tt, buf, b).

Definition decode_string_body (len : Z) : Dec Value :=
  _ ← bound_check "String" len max_len;
  _ ← require_len len "String";
  _ ← charge "decoded String heap" len;
  s ← take_slice len;
  if utf8_valid s then mret (VString s) else derr InvalidUtf8.

Definition decode_bytes_body (len : Z) : Dec Value :=
  _ ← bound_check "Bytes" len max_len;
  _ ← require_len len "Bytes";
  _ ← charge "decoded Bytes heap" len;
  out ← take_slice len;
  mret (VBytes out).

(** [for _ in 0..len { items.push(decode_inner(..)?) }] *)
Fixpoint decode_items (rec : Dec Value) (n : nat) : Dec (list Value) :=
  match n with
  | O => mret []
  | S n' => v ← rec; vs ← decode_items rec n'; mret (v :: vs)
  end.

Fixpoint decode_entries (rec : Dec Value) (n : nat) (out : list (list byte * Value))
    : Dec (list (list byte * Value)) :=
  match n with
  | O => mret out
  | S n' =>
      k ← rec;
      match k with
      | VString key => value ← rec; decode_entries rec n' (map_insert key value out)
      | _ => derr (MalformedStruct "Map" "key must be String")
      end
  end.

Definition decode_list_body (rec : Dec Value) (len : Z) : Dec Value :=
  _ ← bound_check "List" len max_len;
  _ ← require_minimum_wire len 1 "List items";
  _ ← charge_mul "decoded List heap" len size_of_Value;
  items ← decode_items rec (Z.to_nat len);
  mret (VList items).

Definition decode_map_body (rec : Dec Value) (len : Z) : Dec Value :=
  _ ← bound_check "Map" len max_len;
  _ ← require_minimum_wire len 2 "Map entries";
  _ ← charge_mul "decoded Map heap" len MAP_ENTRY_HEAP_BYTES;
  out ← decode_entries rec (Z.to_nat len) [];
  mret (VMap out).

Definition decode_struct_body (rec : Dec Value) (fields : Z) : Dec Value :=
  tag ← read_u8 "Struct tag";
  _ ← bound_check "Struct" fields max_len;
  _ ← require_minimum_wire fields 1 "Struct fields";
  _ ← charge_mul "decoded Struct heap" fields size_of_Value;
  out ← decode_items rec (Z.to_nat fields);
  mret (VStruct (z2b tag) out).

(** The body of [decode_inner]; [rec] decodes at [depth + 1]. *)
Definition decode_marker (rec : Dec Value) (marker : Z) : Dec Value :=
  if marker =? 0xC0 then mret VNull
  else if marker =? 0xC2 then mret (VBool false)
  else if marker =? 0xC3 then mret (VBool true)
  else if marker =? 0xC1 then f ← read_f64; mret (VFloat f)
  else if marker =? 0xC8 then n ← read_i8; mret (VInt n)
  else if marker =? 0xC9 then n ← read_i16; mret (VInt n)
  else if marker =? 0xCA then n ← read_i32; mret (VInt n)
  else if marker =? 0xCB then n ← read_i64; mret (VInt n)
  else if 0xF0 <=? marker then mret (VInt (sign_wrap 8 marker))
  else if marker <=? 0x7F then mret (VInt marker)
  else if (0x80 <=? marker) && (marker <=? 0x8F) then decode_string_body (Z.land marker 0x0F)
  else if marker =? 0xD0 then len ← read_u8 "String8 length"; decode_string_body len
  else if marker =? 0xD1 then len ← read_u16 "String16 length"; decode_string_body len
  else if marker =? 0xD2 then len ← read_u32 "String32 length"; decode_string_body len
  else if marker =? 0xCC then len ← read_u8 "Bytes8 length"; decode_bytes_body len
  else if marker =? 0xCD then len ← read_u16 "Bytes16 length"; decode_bytes_body len
  else if marker =? 0xCE then len ← read_u32 "Bytes32 length"; decode_bytes_body len
  else if (0x90 <=? marker) && (marker <=? 0x9F) then decode_list_body rec (Z.land marker 0x0F)
  else if marker =? 0xD4 then len ← read_u8 "List8 length"; decode_list_body rec len
  else if marker =? 0xD5 then len ← read_u16 "List16 length"; decode_list_body rec len
  else if marker =? 0xD6 then len ← read_u32 "List32 length"; decode_list_body rec len
  else if (0xA0 <=? marker) && (marker <=? 0xAF) then decode_map_body rec (Z.land marker 0x0F)
  else if marker =? 0xD8 then len ← read_u8 "Map8 length"; decode_map_body rec len
  else if marker =? 0xD9 then len ← read_u16 "Map16 length"; decode_map_body rec len
  else if marker =? 0xDA then len ← read_u32 "Map32 length"; decode_map_body rec len
  else if (0xB0 <=? marker) && (marker <=? 0xBF) then decode_struct_body rec (Z.land marker 0x0F)
  else if marker =? 0xDC then fields ← read_u8 "Struct8 size"; decode_struct_body rec fields
  else if marker =? 0xDD then fields ← read_u16 "Struct16 size"; decode_struct_body rec fields
  else derr (InvalidMarker (z2b marker) "any PackStream value").

(** [levels] is [MAX_NESTING_DEPTH + 1 - depth]: zero is [depth > MAX_NESTING_DEPTH]. *)
Fixpoint decode_inner (levels : nat) : Dec Value :=
  match levels with
  | O => derr (NestingTooDeep (Z.of_nat MAX_NESTING_DEPTH))
  | S levels' =>
      marker ← read_u8 "marker";
      decode_marker (decode_inner levels') marker
  end.

Definition decode_with_limit (buf : list byte) : BoltResult (Value * list byte) :=
  let budget := for_message (zlen buf) max_len in
  '(v, rest, _) ← decode_inner (MAX_NESTING_DEPTH + 1) buf budget;
  Ok (v, rest).

End Decoder.

Definition decode (size_of_Value : Z) : list byte → BoltResult (Value * list byte) :=
  decode_with_limit size_of_Value DEFAULT_MAX_LEN.

Example codec_runs :
  (bs ← encode (VMap [(String.list_byte_of_string "k", VList [VInt (-17); VInt 300; VNull; VString []])]);
   decode 32 (bs ++ [z2b 9]))
  = Ok (VMap [(String.list_byte_of_string "k", VList [VInt (-17); VInt 300; VNull; VString []])], [z2b 9]).
Proof. vm_compute. reflexivity. Qed.

(** ** Measures of a value *)

(** The type invariant: 64-bit integers and floats, UTF-8 strings, and maps in
    ascending key order. *)
Fixpoint keys_ascending (m : list (list byte * Value)) : bool :=
  match m with
  | [] => true
  | (k, _) :: rest =>
      match rest with
      | [] => true
      | (k', _) :: _ => bool_decide (bytes_cmp k k' = Lt) && keys_ascending rest
      end
  end.

Fixpoint value_ok (v : Value) : bool :=
  match v with
  | VNull | VBool _ | VBytes _ => true
  | VInt n => (- 2 ^ 63 <=? n) && (n <? 2 ^ 63)
  | VFloat f => (0 <=? f) && (f <? 2 ^ 64)
  | VString s => utf8_valid s
  | VList items => forallb value_ok items
  | VMap m => keys_ascending m && forallb (λ kv, utf8_valid kv.1 && value_ok kv.2) m
  | VStruct _ fields => forallb value_ok fields
  end.

(** Nesting as the decoder counts it; map keys are one level below the map. *)
Fixpoint depth (v : Value) : nat :=
  match v with
  | VList items | VStruct _ items => foldr (λ v d, Nat.max (S (depth v)) d) 0%nat items
  | VMap m => foldr (λ kv d, Nat.max (S (depth kv.2)) d) 0%nat m
  | _ => 0
  end.

(** Every length is within the decoder's limit and fits its length field. *)
Fixpoint fits (max_len : Z) (v : Value) : bool :=
  match v with
  | VString s | VBytes s => (zlen s <=? max_len) && (zlen s <=? u32_max)
  | VList items => (zlen items <=? max_len) && (zlen items <=? u32_max) && forallb (fits max_len) items
  | VMap m =>
      (zlen m <=? max_len) && (zlen m <=? u32_max)
      && forallb (λ kv, (zlen kv.1 <=? max_len) && (zlen kv.1 <=? u32_max) && fits max_len kv.2) m
  | VStruct _ fields =>
      (zlen fields <=? max_len) && (zlen fields <=? u16_max) && forallb (fits max_len) fields
  | _ => true
  end.

Section Cost.
Context (size_of_Value : Z).

(** The decoded-heap estimate that the decoder charges. *)
Fixpoint heap_cost (v : Value) : Z :=
  match v with
  | VString s | VBytes s => zlen s
  | VList items | VStruct _ items => zlen items * size_of_Value + foldr (λ v c, heap_cost v + c) 0 items
  | VMap m => zlen m * MAP_ENTRY_HEAP_BYTES + foldr (λ kv c, zlen kv.1 + heap_cost kv.2 + c) 0 m
  | _ => 0
  end.

Definition items_cost (items : list Value) : Z := foldr (λ v c, heap_cost v + c) 0 items.
Definition entries_cost (m : list (list byte * Value)) : Z := foldr (λ kv c, zlen kv.1 + heap_cost kv.2 + c) 0 m.

Hypothesis size_pos : 0 < size_of_Value.

Lemma heap_cost_nonneg v : 0 ≤ heap_cost v.
Proof.
  induction v using Value_ind; cbn [heap_cost]; try lia.
  - assert (0 ≤ foldr (λ v c, heap_cost v + c) 0 items) by (induction H; simpl; lia). nia.
  - assert (0 ≤ foldr (λ kv c, zlen kv.1 + heap_cost kv.2 + c) 0 m) by (induction H; simpl; lia).
    unfold MAP_ENTRY_HEAP_BYTES. lia.
  - assert (0 ≤ foldr (λ v c, heap_cost v + c) 0 fields) by (induction H; simpl; lia). nia.
Qed.
Lemma items_cost_nonneg items : 0 ≤ items_cost items.
Proof. induction items as [|v items IH]; simpl; [done|]. pose proof (heap_cost_nonneg v). unfold items_cost in *. lia. Qed.
Lemma entries_cost_nonneg m : 0 ≤ entries_cost m.
Proof. induction m as [|[k v] m IH]; simpl; [done|]. pose proof (heap_cost_nonneg v). unfold entries_cost in *. simpl. lia. Qed.

End Cost.

(** ** Primitive readers on encoded bytes *)

Lemma read_be_app n w v rest b :
  0 ≤ v < 2 ^ (Z.of_nat n * 8) → read_be n w (be_split n v ++ rest) b = Ok (v, rest, b).
Proof.
  intros Hv. unfold read_be. rewrite (proj2 (Nat.ltb_ge _ _)) by (rewrite length_app, length_be_split; lia).
  rewrite <- (length_be_split n v) at 1 3. by rewrite take_app_length, drop_app_length, be_combine_split_small.
Qed.

Lemma read_be_app_mod n w v rest b :
  read_be n w (be_split n v ++ rest) b = Ok (v `mod` 2 ^ (Z.of_nat n * 8), rest, b).
Proof.
  unfold read_be. rewrite (proj2 (Nat.ltb_ge _ _)) by (rewrite length_app, length_be_split; lia).
  rewrite <- (length_be_split n v) at 1 3. by rewrite take_app_length, drop_app_length, be_combine_split.
Qed.

Lemma sign_wrap_mod w v : 0 < w → is_sint w v → sign_wrap w (v `mod` 2 ^ w) = v.
Proof.
  intros Hw [Hlo Hhi]. unfold sign_wrap. rewrite Z.mod_mod by (apply Z.pow_nonzero; lia).
  assert (E : 2 ^ w = 2 * 2 ^ (w - 1)) by (rewrite <- Z.pow_succ_r by lia; f_equal; lia).
  destruct (Z.lt_ge_cases v 0).
  - assert (Em : v `mod` 2 ^ w = v + 2 ^ w).
    { symmetry. apply (Z.mod_unique_pos _ _ (-1)); lia. }
    rewrite Em, (proj2 (Z.ltb_ge _ _)) by lia. lia.
  - rewrite Z.mod_small by lia. rewrite (proj2 (Z.ltb_lt _ _)) by lia. done.
Qed.

(** The first byte of a value selects the branch of the decoder. *)
Definition decode_first (sz max_len : Z) (rec : Dec Value) : Dec Value :=
  marker ← read_u8 "marker"; decode_marker sz max_len rec marker.

Lemma decode_first_marker sz max_len rec m rest b :
  0 ≤ m < 256 → decode_first sz max_len rec (put_u8 m ++ rest) b = decode_marker sz max_len rec m rest b.
Proof.
  intros Hm. unfold decode_first, mbind, Dec_bind, read_u8, put_u8.
  change [z2b m] with (be_split 1 m). by rewrite read_be_app.
Qed.

Ltac pick_branch :=
  unfold decode_marker; cbn [Z.eqb Z.leb Z.compare Pos.eqb Pos.compare Pos.compare_cont andb].
Ltac read_field :=
  unfold mbind, Dec_bind, read_u8, read_u16, read_u32; rewrite read_be_app by (unfold u16_max, u32_max in *; lia).
Ltac tiny n :=
  let E := fresh in
  assert (E : n = 0 ∨ n = 1 ∨ n = 2 ∨ n = 3 ∨ n = 4 ∨ n = 5 ∨ n = 6 ∨ n = 7 ∨ n = 8 ∨ n = 9
    ∨ n = 10 ∨ n = 11 ∨ n = 12 ∨ n = 13 ∨ n = 14 ∨ n = 15) by lia;
  repeat (destruct E as [-> |E]); [..|subst n]; reflexivity.

Section RoundTrip.
Context (sz max_len : Z).
Hypothesis sz_pos : 0 < sz.
Abbreviation first rec := (decode_first sz max_len rec).

Lemma encode_string_first s rec rest b :
  zlen s ≤ u32_max → first rec (encode_string s ++ rest) b = decode_string_body max_len (zlen s) (s ++ rest) b.
Proof.
  intros Hs. unfold encode_string. rewrite <- (assoc_L (++)). set (l := zlen s) in *.
  assert (0 ≤ l) by (unfold l; lia). generalize (s ++ rest). intros rest'. clearbody l.
  destruct (Z.leb_spec l 15); [tiny l|].
  destruct (Z.leb_spec l (2 ^ 8 - 1)); [|destruct (Z.leb_spec l u16_max)];
    rewrite <- (assoc_L (++)), decode_first_marker by lia; pick_branch; by read_field.
Qed.

Lemma encode_bytes_first s rec rest b :
  zlen s ≤ u32_max → first rec (encode_bytes s ++ rest) b = decode_bytes_body max_len (zlen s) (s ++ rest) b.
Proof.
  intros Hs. unfold encode_bytes. rewrite <- (assoc_L (++)). set (l := zlen s) in *.
  assert (0 ≤ l) by (unfold l; lia). generalize (s ++ rest). intros rest'. clearbody l.
  destruct (Z.leb_spec l (2 ^ 8 - 1)); [|destruct (Z.leb_spec l u16_max)];
    rewrite <- (assoc_L (++)), decode_first_marker by lia; pick_branch; by read_field.
Qed.

Lemma encode_list_header_first l :
  0 ≤ l ≤ u32_max →
  ∃ h, encode_list_header l = Ok h ∧ (0 < length h)%nat
  ∧ ∀ rec rest b, first rec (h ++ rest) b = decode_list_body sz max_len rec l rest b.
Proof.
  intros Hl. unfold encode_list_header.
  destruct (Z.leb_spec l 15);
    [eexists; split_and!; [reflexivity|simpl; lia|]; intros rec rest b; tiny l|].
  destruct (Z.leb_spec l (2 ^ 8 - 1)); [|destruct (Z.leb_spec l u16_max);
    [|rewrite (proj2 (Z.leb_le l u32_max)) by lia]];
    (eexists; split_and!; [reflexivity|simpl; lia|]; intros rec rest b;
     rewrite <- (assoc_L (++)), decode_first_marker by lia; pick_branch; by read_field).
Qed.

Lemma encode_map_header_first l :
  0 ≤ l ≤ u32_max →
  ∃ h, encode_map_header l = Ok h ∧ (0 < length h)%nat
  ∧ ∀ rec rest b, first rec (h ++ rest) b = decode_map_body max_len rec l rest b.
Proof.
  intros Hl. unfold encode_map_header.
  destruct (Z.leb_spec l 15);
    [eexists; split_and!; [reflexivity|simpl; lia|]; intros rec rest b; tiny l|].
  destruct (Z.leb_spec l (2 ^ 8 - 1)); [|destruct (Z.leb_spec l u16_max);
    [|rewrite (proj2 (Z.leb_le l u32_max)) by lia]];
    (eexists; split_and!; [reflexivity|simpl; lia|]; intros rec rest b;
     rewrite <- (assoc_L (++)), decode_first_marker by lia; pick_branch; by read_field).
Qed.

Lemma encode_struct_header_first l tag :
  0 ≤ l ≤ u16_max →
  ∃ h, encode_struct_header l tag = Ok (h ++ [tag]) ∧ (0 < length h)%nat
  ∧ ∀ rec rest b, first rec (h ++ rest) b = decode_struct_body sz max_len rec l rest b.
Proof.
  intros Hl. unfold encode_struct_header.
  destruct (Z.leb_spec l 15);
    [eexists; split_and!; [reflexivity|simpl; lia|]; intros rec rest b; tiny l|].
  destruct (Z.leb_spec l (2 ^ 8 - 1)); [|rewrite (proj2 (Z.leb_le l u16_max)) by lia];
    (eexists; split_and!; [rewrite (assoc_L (++)); reflexivity|simpl; lia|]; intros rec rest b;
     rewrite <- (assoc_L (++)), decode_first_marker by lia; pick_branch; by read_field).
Qed.

Lemma encode_int_first n rec rest b :
  is_sint 64 n → first rec (encode_int n ++ rest) b = Ok (VInt n, rest, b).
Proof.
  unfold is_sint. intros Hn. unfold encode_int.
  destruct (_ && _) eqn:E1.
  { replace (put_u8 n) with (put_u8 (n `mod` 256)).
    2:{ unfold put_u8. f_equal. apply byte.unsigned_inj. by rewrite !b2z_z2b, Z.mod_mod. }
    rewrite decode_first_marker by (apply Z.mod_pos_bound; lia).
    destruct (Z.lt_ge_cases n 0).
    - assert (E : n `mod` 256 = n + 256) by (symmetry; apply (Z.mod_unique_pos _ _ (-1)); lia).
      rewrite E. unfold decode_marker. rewrite !(proj2 (Z.eqb_neq (n + 256) _)) by lia.
      rewrite (proj2 (Z.leb_le 240 _)) by lia. unfold mret, Dec_ret. do 4 f_equal.
      replace (n + 256) with (n `mod` 2 ^ 8) by (by rewrite <- E).
      apply sign_wrap_mod; [lia|unfold is_sint; lia].
    - rewrite Z.mod_small by lia. unfold decode_marker. rewrite !(proj2 (Z.eqb_neq n _)) by lia.
      by rewrite (proj2 (Z.leb_gt 240 _)), (proj2 (Z.leb_le n 127)) by lia. }
  destruct ((- 2 ^ 7 <=? n) && _) eqn:E2; [|destruct ((- 2 ^ 15 <=? n) && _) eqn:E3;
    [|destruct ((- 2 ^ 31 <=? n) && _) eqn:E4]];
    rewrite <- (assoc_L (++)), decode_first_marker by lia; pick_branch;
    unfold read_i8, read_i16, read_i32, read_i64, mbind, Dec_bind; rewrite read_be_app_mod;
    unfold mret, Dec_ret; do 4 f_equal; apply sign_wrap_mod; unfold is_sint; lia.
Qed.

Definition budget_ok (b : DecodeBudget) : Prop := 0 ≤ used b ≤ max b ∧ max b ≤ u64_max.
Definition spend (b : DecodeBudget) (c : Z) : DecodeBudget :=
  {| used := used b + c; max := max b; wire_bytes := wire_bytes b |}.

Lemma charge_ok w c buf b :
  budget_ok b → 0 ≤ c → used b + c ≤ max b → charge w c buf b = Ok (tt, buf, spend b c).
Proof.
  intros [Hu Hm] Hc Hle. unfold charge, saturating_add64.
  by rewrite Z.min_l, (proj2 (Z.ltb_ge _ _)) by lia.
Qed.

Lemma charge_mul_ok w len size buf b :
  budget_ok b → 0 ≤ len * size → used b + len * size ≤ max b →
  charge_mul w len size buf b = Ok (tt, buf, spend b (len * size)).
Proof.
  intros Hb Hc Hle. unfold charge_mul, checked_mul64. rewrite (proj2 (Z.leb_le _ _)) by (destruct Hb; lia).
  by apply charge_ok.
Qed.

Lemma require_minimum_wire_ok len k w buf b :
  len * k ≤ zlen buf → len * k ≤ u64_max → require_minimum_wire len k w buf b = Ok (tt, buf, b).
Proof.
  intros Hl Hm. unfold require_minimum_wire, checked_mul64.
  by rewrite (proj2 (Z.leb_le _ _)), (proj2 (Z.ltb_ge _ _)) by lia.
Qed.

Lemma bound_check_ok w len buf b : len ≤ max_len → bound_check w len max_len buf b = Ok (tt, buf, b).
Proof. intros. unfold bound_check. by rewrite (proj2 (Z.ltb_ge _ _)) by lia. Qed.

Lemma spend_ok b c : budget_ok b → 0 ≤ c → used b + c ≤ max b → budget_ok (spend b c).
Proof. unfold budget_ok, spend; simpl. lia. Qed.
Lemma spend_0 b : spend b 0 = b.
Proof. destruct b. unfold spend; simpl. by rewrite Z.add_0_r. Qed.
Lemma spend_spend b c d : spend (spend b c) d = spend b (c + d).
Proof. unfold spend; simpl. by rewrite Z.add_assoc. Qed.

Abbreviation cost := (heap_cost sz).
Abbreviation inner := (decode_inner sz max_len).

(** Encoding a value and decoding it, in front of anything and within any budget that
    covers its cost, gives the value back and charges exactly the cost. *)
Definition round_trips (v : Value) : Prop :=
  ∃ bs, encode v = Ok bs ∧ (0 < length bs)%nat
  ∧ ∀ levels rest b, (depth v < levels)%nat → budget_ok b → used b + cost v ≤ max b →
      inner levels (bs ++ rest) b = Ok (v, rest, spend b (cost v)).

Lemma decode_string_body_ok s rest b :
  utf8_valid s = true → zlen s ≤ max_len → budget_ok b → used b + zlen s ≤ max b →
  decode_string_body max_len (zlen s) (s ++ rest) b = Ok (VString s, rest, spend b (zlen s)).
Proof.
  intros Hu Hl Hb Hc. unfold decode_string_body, mbind, Dec_bind.
  rewrite bound_check_ok by done. unfold require_len.
  rewrite (proj2 (Z.ltb_ge (zlen (s ++ rest)) _)) by (rewrite length_app; lia).
  rewrite charge_ok by (done || lia). unfold take_slice.
  by rewrite Nat2Z.id, take_app_length, drop_app_length, Hu.
Qed.

Lemma decode_bytes_body_ok s rest b :
  zlen s ≤ max_len → budget_ok b → used b + zlen s ≤ max b →
  decode_bytes_body max_len (zlen s) (s ++ rest) b = Ok (VBytes s, rest, spend b (zlen s)).
Proof.
  intros Hl Hb Hc. unfold decode_bytes_body, mbind, Dec_bind.
  rewrite bound_check_ok by done. unfold require_len.
  rewrite (proj2 (Z.ltb_ge (zlen (s ++ rest)) _)) by (rewrite length_app; lia).
  rewrite charge_ok by (done || lia). unfold take_slice.
  by rewrite Nat2Z.id, take_app_length, drop_app_length.
Qed.

Lemma string_round_trips s levels rest b :
  (0 < levels)%nat → utf8_valid s = true → zlen s ≤ max_len → zlen s ≤ u32_max → budget_ok b →
  used b + zlen s ≤ max b →
  inner levels (encode_string s ++ rest) b = Ok (VString s, rest, spend b (zlen s)).
Proof.
  intros Hlv Hu Hl Hl' Hb Hc. destruct levels as [|levels]; [lia|].
  change (inner (S levels)) with (first (inner levels)).
  rewrite encode_string_first by done. by apply decode_string_body_ok.
Qed.

Lemma items_round_trip items :
  Forall round_trips items →
  ∃ bs, encode_items encode items = Ok bs ∧ (length items ≤ length bs)%nat
  ∧ ∀ levels rest b, Forall (λ v, depth v < levels)%nat items → budget_ok b →
      used b + items_cost sz items ≤ max b →
      decode_items (inner levels) (length items) (bs ++ rest) b = Ok (items, rest, spend b (items_cost sz items)).
Proof.
  induction 1 as [|v items (bs & Hbs & Hlen & Hdec) _ (bss & Hbss & Hlens & Hdecs)].
  { exists []. split_and!; [done|simpl; lia|]. intros. simpl. by rewrite spend_0. }
  exists (bs ++ bss). cbn [encode_items]. split_and!.
  - fold (encode_items encode). by rewrite Hbs, Hbss.
  - rewrite length_app. simpl. lia.
  - intros levels rest b [Hd Hds]%Forall_cons Hb Hc. cbn [length decode_items items_cost foldr] in *.
    fold (items_cost sz items) in *. pose proof (heap_cost_nonneg sz sz_pos v).
    pose proof (items_cost_nonneg sz sz_pos items).
    unfold mbind, Dec_bind. rewrite <- (assoc_L (++)), Hdec by (done || lia).
    rewrite Hdecs; [by rewrite spend_spend|done|apply spend_ok; done || lia|unfold spend; simpl; lia].
Qed.

Lemma map_insert_last k v m :
  Forall (λ kv, bytes_lt kv.1 k) m → map_insert k v m = m ++ [(k, v)].
Proof.
  induction 1 as [|[k' v'] m Hk _ IH]; [done|]. cbn [map_insert]. simpl in Hk.
  by rewrite (proj2 (bytes_cmp_gt _ _) Hk), IH.
Qed.

Definition key_lt (a b : list byte * Value) : Prop := bytes_lt a.1 b.1.

Lemma entries_round_trip m :
  Forall (λ kv, round_trips kv.2) m →
  Forall (λ kv, utf8_valid kv.1 = true ∧ zlen kv.1 ≤ max_len ∧ zlen kv.1 ≤ u32_max) m →
  ∃ bs, encode_entries encode m = Ok bs ∧ (2 * length m ≤ length bs)%nat
  ∧ ∀ levels rest b out, (0 < levels)%nat → Forall (λ kv, depth kv.2 < levels)%nat m →
      StronglySorted key_lt (out ++ m) → budget_ok b → used b + entries_cost sz m ≤ max b →
      decode_entries (inner levels) (length m) out (bs ++ rest) b
      = Ok (out ++ m, rest, spend b (entries_cost sz m)).
Proof.
  induction 1 as [|[k v] m (bs & Hbs & Hlen & Hdec) _ IH]; intros Hkeys.
  { exists []. split_and!; [done|simpl; lia|]. intros. simpl. by rewrite spend_0, app_nil_r. }
  apply Forall_cons in Hkeys as [(Hu & Hl & Hl') Hkeys]. cbn [fst snd] in *.
  destruct (IH Hkeys) as (bss & Hbss & Hlens & Hdecs).
  exists (encode_string k ++ bs ++ bss). cbn [encode_entries]. split_and!.
  - fold (encode_entries encode). by rewrite Hbs, Hbss.
  - rewrite !length_app. assert (0 < length (encode_string k))%nat; [|simpl; lia].
    unfold encode_string. rewrite length_app. repeat case_match; simpl; lia.
  - intros levels rest b out Hlv [Hd Hds]%Forall_cons HS Hb Hc.
    cbn [length decode_entries entries_cost foldr fst snd] in *. fold (entries_cost sz m) in *.
    pose proof (heap_cost_nonneg sz sz_pos v). pose proof (entries_cost_nonneg sz sz_pos m).
    unfold mbind, Dec_bind. rewrite <- !(assoc_L (++)), string_round_trips by (done || lia).
    rewrite Hdec by (done || (apply spend_ok; done || lia) || (cbn [spend used max]; lia)).
    rewrite map_insert_last.
    2:{ apply StronglySorted_app in HS as (Hlt & _ & _). apply Forall_forall. intros kv Hkv.
        apply (Hlt kv (k, v) Hkv). left. }
    rewrite Hdecs; [rewrite <- (assoc_L (++)), !spend_spend; do 3 f_equal; lia|done|done|by rewrite <- (assoc_L (++))| |].
    + rewrite spend_spend. apply spend_ok; done || lia.
    + unfold spend; simpl; lia.
Qed.

Lemma keys_ascending_sorted m : keys_ascending m = true ↔ StronglySorted key_lt m.
Proof.
  assert (Htr : Transitive key_lt) by (intros [? ?] [? ?] [? ?]; apply bytes_lt_trans).
  split.
  - intros Hm. apply Sorted_StronglySorted; [done|]. induction m as [|[k v] m IH]; [constructor|].
    destruct m as [|[k' v'] m]; [by repeat constructor|]. cbn [keys_ascending] in Hm.
    apply andb_true_iff in Hm as [Hk Hm]. apply bool_decide_eq_true in Hk.
    constructor; [by apply IH|]. by constructor.
  - induction 1 as [|[k v] m HS IH HF]; [done|]. destruct m as [|[k' v'] m]; [done|].
    cbn [keys_ascending]. apply andb_true_iff. split; [|done]. apply bool_decide_eq_true.
    by apply Forall_cons in HF as [? _].
Qed.

Lemma depth_items items n :
  (foldr (λ v d, Nat.max (S (depth v)) d) 0 items < S n)%nat → Forall (λ v, depth v < n)%nat items.
Proof. induction items as [|v items IH]; simpl; constructor; [lia|]. apply IH. lia. Qed.
Lemma depth_entries (m : list (list byte * Value)) n :
  (foldr (λ kv d, Nat.max (S (depth kv.2)) d) 0 m < S n)%nat → Forall (λ kv, depth kv.2 < n)%nat m.
Proof. induction m as [|v m IH]; simpl; constructor; [lia|]. apply IH. lia. Qed.

Lemma items_all items :
  Forall (λ v, value_ok v = true → fits max_len v = true → round_trips v) items →
  forallb value_ok items = true → forallb (fits max_len) items = true → Forall round_trips items.
Proof.
  intros HF Hok Hfit. rewrite Forall_forall in *. rewrite forallb_forall in Hok, Hfit.
  intros v Hv. apply HF; [done|apply Hok|apply Hfit]; by apply list_elem_of_In.
Qed.

Ltac level levels := destruct levels as [|levels]; [lia|]; change (inner (S levels)) with (first (inner levels)).

Lemma list_round_trips items :
  Forall round_trips items → zlen items ≤ max_len → zlen items ≤ u32_max → round_trips (VList items).
Proof.
  intros HF Hl Hl'. destruct (items_round_trip items HF) as (bs & Hbs & Hlen & Hdec).
  destruct (encode_list_header_first (zlen items)) as (h & Hh & Hhl & Hfirst); [lia|].
  exists (h ++ bs). cbn [encode]. rewrite Hh. cbn [mbind result_bind]. rewrite Hbs.
  split_and!; [done|rewrite length_app; lia|]. intros levels rest b Hd Hb Hc. level levels.
  cbn [depth heap_cost] in *. fold (items_cost sz items) in *. apply depth_items in Hd.
  pose proof (items_cost_nonneg sz sz_pos items).
  assert (0 ≤ zlen items * sz) by (apply Z.mul_nonneg_nonneg; lia).
  rewrite <- (assoc_L (++)), Hfirst. unfold decode_list_body, mbind, Dec_bind.
  rewrite bound_check_ok by done.
  rewrite require_minimum_wire_ok by (rewrite ?length_app; unfold u32_max, u64_max in *; lia).
  rewrite charge_mul_ok by (done || lia).
  rewrite Nat2Z.id, Hdec by (done || (apply spend_ok; done || lia) || (cbn [spend used max]; lia)).
  by rewrite spend_spend.
Qed.

Lemma struct_round_trips tag fields :
  Forall round_trips fields → zlen fields ≤ max_len → zlen fields ≤ u16_max → round_trips (VStruct tag fields).
Proof.
  intros HF Hl Hl'. destruct (items_round_trip fields HF) as (bs & Hbs & Hlen & Hdec).
  destruct (encode_struct_header_first (zlen fields) tag) as (h & Hh & Hhl & Hfirst); [lia|].
  exists ((h ++ [tag]) ++ bs). cbn [encode]. rewrite Hh. cbn [mbind result_bind]. rewrite Hbs.
  split_and!; [done|rewrite !length_app; lia|]. intros levels rest b Hd Hb Hc. level levels.
  cbn [depth heap_cost] in *. fold (items_cost sz fields) in *. apply depth_items in Hd.
  pose proof (items_cost_nonneg sz sz_pos fields).
  assert (0 ≤ zlen fields * sz) by (apply Z.mul_nonneg_nonneg; lia).
  rewrite <- !(assoc_L (++)), Hfirst. unfold decode_struct_body, mbind, Dec_bind, read_u8.
  replace [tag] with (be_split 1 (b2z tag)) by (unfold be_split; simpl; by rewrite z2b_b2z).
  rewrite read_be_app by apply b2z_range. rewrite bound_check_ok by done.
  rewrite require_minimum_wire_ok by (rewrite ?length_app; unfold u16_max, u64_max in *; lia).
  rewrite charge_mul_ok by (done || lia).
  rewrite Nat2Z.id, Hdec by (done || (apply spend_ok; done || lia) || (cbn [spend used max]; lia)).
  by rewrite spend_spend, z2b_b2z.
Qed.

Lemma map_round_trips m :
  Forall (λ kv, round_trips kv.2) m →
  Forall (λ kv, utf8_valid kv.1 = true ∧ zlen kv.1 ≤ max_len ∧ zlen kv.1 ≤ u32_max) m →
  keys_ascending m = true → zlen m ≤ max_len → zlen m ≤ u32_max → round_trips (VMap m).
Proof.
  intros HF Hk Hasc Hl Hl'. destruct (entries_round_trip m HF Hk) as (bs & Hbs & Hlen & Hdec).
  destruct (encode_map_header_first (zlen m)) as (h & Hh & Hhl & Hfirst); [lia|].
  exists (h ++ bs). cbn [encode]. rewrite Hh. cbn [mbind result_bind]. rewrite Hbs.
  split_and!; [done|rewrite length_app; lia|]. intros levels rest b Hd Hb Hc. level levels.
  cbn [depth heap_cost] in *. fold (entries_cost sz m) in *. apply keys_ascending_sorted in Hasc.
  pose proof (entries_cost_nonneg sz sz_pos m).
  assert (0 ≤ zlen m * MAP_ENTRY_HEAP_BYTES) by (unfold MAP_ENTRY_HEAP_BYTES; lia).
  rewrite <- (assoc_L (++)), Hfirst. unfold decode_map_body, mbind, Dec_bind.
  rewrite bound_check_ok by done.
  rewrite require_minimum_wire_ok by (rewrite ?length_app; unfold u32_max, u64_max in *; lia).
  rewrite charge_mul_ok by (done || lia). rewrite Nat2Z.id.
  destruct m as [|kv m].
  - simpl in Hbs. injection Hbs as <-. simpl. by rewrite Z.add_0_r.
  - assert (0 < levels)%nat by (simpl in Hd; lia). apply depth_entries in Hd.
    rewrite Hdec by (done || (apply spend_ok; done || lia) || (cbn [spend used max]; lia)).
    by rewrite spend_spend.
Qed.

Lemma value_round_trips v : value_ok v = true → fits max_len v = true → round_trips v.
Proof.
  assert (Hscalar : ∀ v bs, encode v = Ok bs → (0 < length bs)%nat → cost v = 0 →
    (∀ rec rest b, first rec (bs ++ rest) b = Ok (v, rest, b)) → round_trips v).
  { intros v' bs Hbs Hlen Hc Hf. exists bs. split_and!; [done..|]. intros levels rest b Hd _ _.
    level levels. by rewrite Hf, Hc, spend_0. }
  induction v as [ |b|n|f|s|s|items IH|m IH|tag fields IH] using Value_ind; cbn [value_ok fits]; intros Hok Hfit.
  - by apply (Hscalar _ (put_u8 0xC0)); [|simpl; lia|..].
  - destruct b; [apply (Hscalar _ (put_u8 0xC3))|apply (Hscalar _ (put_u8 0xC2))]; done || (simpl; lia).
  - apply (Hscalar _ (encode_int n)); [done| |done|].
    + unfold encode_int. repeat case_match; simpl; lia.
    + intros. apply encode_int_first. unfold is_sint. lia.
  - apply (Hscalar _ (put_u8 0xC1 ++ be_split 8 f)); [done|simpl; lia|done|]. intros rec rest b.
    rewrite <- (assoc_L (++)), decode_first_marker by lia. pick_branch. unfold read_f64, mbind, Dec_bind.
    by rewrite read_be_app by lia.
  - exists (encode_string s). split_and!; [done| |].
    + unfold encode_string. rewrite length_app. repeat case_match; simpl; lia.
    + intros levels rest b Hd Hb Hc. apply string_round_trips; (done || lia).
  - exists (encode_bytes s). split_and!; [done| |].
    + unfold encode_bytes. rewrite length_app. repeat case_match; simpl; lia.
    + intros levels rest b Hd Hb Hc. level levels. rewrite encode_bytes_first by lia.
      apply decode_bytes_body_ok; (done || lia).
  - rewrite !andb_true_iff, !Z.leb_le in Hfit. destruct Hfit as [[Hl Hl'] Hfit].
    apply list_round_trips; [by apply items_all|done..].
  - rewrite !andb_true_iff, !Z.leb_le in Hfit. rewrite andb_true_iff in Hok.
    destruct Hfit as [[Hl Hl'] Hfit], Hok as [Hasc Hok]. rewrite forallb_forall in Hok, Hfit.
    apply map_round_trips; [| |done..]; rewrite Forall_forall in IH |- *; intros kv Hkv;
      specialize (Hok kv (proj1 (list_elem_of_In _ _) Hkv)); specialize (Hfit kv (proj1 (list_elem_of_In _ _) Hkv));
      rewrite !andb_true_iff, !Z.leb_le in Hfit; rewrite andb_true_iff in Hok; [apply IH; tauto|tauto].
  - rewrite !andb_true_iff, !Z.leb_le in Hfit. destruct Hfit as [[Hl Hl'] Hfit].
    apply struct_round_trips; [by apply items_all|done..].
Qed.

End RoundTrip.

(** ** What a successful decoder guarantees

    [yields m Q]: whenever [m] succeeds it has consumed a prefix [pre], charged [c]
    bytes without exceeding the budget, and its value satisfies [Q pre c]. *)
Definition budget_fits (b : DecodeBudget) : Prop := 0 ≤ used b ≤ max b ∧ max b < u64_max.

Definition yields {A} (m : Dec A) (Q : list byte → Z → A → Prop) : Prop :=
  ∀ buf b a rest b', budget_fits b → m buf b = Ok (a, rest, b') →
  ∃ pre c, buf = pre ++ rest ∧ used b' = used b + c ∧ max b' = max b ∧ budget_fits b' ∧ Q pre c a.

Lemma yields_ret {A} (a : A) (Q : list byte → Z → A → Prop) : Q [] 0 a → yields (mret a) Q.
Proof. intros HQ buf b a' rest b' Hb [= <- <- <-]. exists [], 0. split_and!; [done|lia|done|apply Hb..|done]. Qed.

Lemma yields_err {A} e (Q : list byte → Z → A → Prop) : yields (derr e) Q.
Proof. intros buf b a rest b' _ [=]. Qed.

Lemma yields_bind {A B} (m : Dec A) (k : A → Dec B) (Q1 : list byte → Z → A → Prop) Q :
  yields m Q1 → (∀ pre c a, Q1 pre c a → yields (k a) (λ pre' c' r, Q (pre ++ pre') (c + c') r)) →
  yields (m ≫= k) Q.
Proof.
  intros Hm Hk buf b r rest b' Hb. unfold mbind, Dec_bind.
  destruct (m buf b) as [[[a buf1] b1]|e] eqn:E; [|done].
  destruct (Hm _ _ _ _ _ Hb E) as (pre & c & -> & Hu & Hmax & Hb1 & HQ1). intros Er.
  destruct (Hk pre c a HQ1 _ _ _ _ _ Hb1 Er) as (pre' & c' & -> & Hu' & Hmax' & Hb' & HQ).
  exists (pre ++ pre'), (c + c'). rewrite (assoc_L (++)). split_and!; [done|lia|congruence|apply Hb'..|done].
Qed.

Lemma yields_mono {A} (m : Dec A) (Q Q' : list byte → Z → A → Prop) :
  (∀ pre c a, Q pre c a → Q' pre c a) → yields m Q → yields m Q'.
Proof. intros HQ Hm buf b a rest b' Hb E. destruct (Hm _ _ _ _ _ Hb E) as (pre & c & ?). exists pre, c. intuition. Qed.

Lemma yields_read_be n w :
  yields (read_be n w) (λ pre c v, length pre = n ∧ c = 0 ∧ 0 ≤ v < 2 ^ (8 * Z.of_nat n)).
Proof.
  intros buf b a rest b' Hb. unfold read_be. destruct (Nat.ltb_spec (length buf) n); [done|].
  intros [= <- <- <-]. exists (take n buf), 0. rewrite take_drop.
  assert (Hl : length (take n buf) = n) by (rewrite length_take; lia).
  split_and!; [done|lia|done|apply Hb..|done|done| |];
    pose proof (be_combine_bound (take n buf)) as HB; rewrite Hl in HB; lia.
Qed.

Lemma yields_charge w n : 0 ≤ n → yields (charge w n) (λ pre c _, pre = [] ∧ c = n).
Proof.
  intros Hn buf b a rest b' Hb. unfold charge, saturating_add64.
  destruct (Z.ltb_spec (max b) (Z.min (used b + n) u64_max)); [done|]. intros [= <- <- <-].
  exists [], n. unfold budget_fits in *. cbn [used max]. split_and!; done || lia.
Qed.

Lemma yields_charge_mul w n k : 0 ≤ n * k → yields (charge_mul w n k) (λ pre c _, pre = [] ∧ c = n * k).
Proof.
  intros Hn. unfold charge_mul, checked_mul64. destruct (_ <=? _); [by apply yields_charge|].
  intros buf b a rest b' _ [=].
Qed.

Lemma yields_bound_check w n mx : yields (bound_check w n mx) (λ pre c _, pre = [] ∧ c = 0 ∧ n ≤ mx).
Proof.
  unfold bound_check. destruct (Z.ltb_spec mx n); [apply yields_err|]. by apply yields_ret.
Qed.

Lemma yields_require_minimum_wire n k w : yields (require_minimum_wire n k w) (λ pre c _, pre = [] ∧ c = 0).
Proof.
  intros buf b a rest b' Hb. unfold require_minimum_wire. destruct (checked_mul64 _ _); [|done].
  case_match; [done|]. intros [= <- <- <-]. exists [], 0. split_and!; [done|lia|done|apply Hb..|done|done].
Qed.

Lemma yields_require_len n w : yields (require_len n w) (λ pre c _, pre = [] ∧ c = 0).
Proof.
  intros buf b a rest b' Hb. unfold require_len. case_match; [done|]. intros [= <- <- <-].
  exists [], 0. split_and!; [done|lia|done|apply Hb..|done|done].
Qed.

Lemma yields_take_slice n : 0 ≤ n → yields (take_slice n) (λ pre c s, pre = s ∧ c = 0 ∧ zlen s ≤ n).
Proof.
  intros Hn buf b a rest b' Hb [= <- <- <-]. exists (take (Z.to_nat n) buf), 0. rewrite take_drop.
  split_and!; [done|lia|done|apply Hb..|done|done|]. rewrite length_take. lia.
Qed.

Section Sound.
Context (sz max_len : Z).
Hypothesis sz_pos : 0 < sz.
Abbreviation cost := (heap_cost sz).

(** The invariant of decoded values. *)
Definition decoded (levels : nat) (pre : list byte) (c : Z) (v : Value) : Prop :=
  value_ok v = true ∧ fits max_len v = true ∧ (depth v < levels)%nat ∧ cost v ≤ c.

Lemma yields_string_body levels n :
  (0 < levels)%nat → 0 ≤ n ≤ u32_max → yields (decode_string_body max_len n) (decoded levels).
Proof.
  intros Hlv Hn. eapply yields_bind; [apply yields_bound_check|]. intros ? ? _ (-> & -> & Hmax).
  eapply yields_bind; [apply yields_require_len|]. intros ? ? _ (-> & ->).
  eapply yields_bind; [apply yields_charge; lia|]. intros ? ? _ (-> & ->).
  eapply yields_bind; [apply yields_take_slice; lia|]. intros ? ? s (-> & -> & Hs).
  destruct (utf8_valid s) eqn:Hu; [|apply yields_err]. apply yields_ret.
  split_and!; simpl; [done|lia|done|lia].
Qed.

Lemma yields_bytes_body levels n :
  (0 < levels)%nat → 0 ≤ n ≤ u32_max → yields (decode_bytes_body max_len n) (decoded levels).
Proof.
  intros Hlv Hn. eapply yields_bind; [apply yields_bound_check|]. intros ? ? _ (-> & -> & Hmax).
  eapply yields_bind; [apply yields_require_len|]. intros ? ? _ (-> & ->).
  eapply yields_bind; [apply yields_charge; lia|]. intros ? ? _ (-> & ->).
  eapply yields_bind; [apply yields_take_slice; lia|]. intros ? ? s (-> & -> & Hs).
  apply yields_ret. split_and!; simpl; [done|lia|done|lia].
Qed.

Lemma yields_items rec levels n :
  yields rec (decoded levels) →
  yields (decode_items rec n) (λ _ c vs, length vs = n ∧ items_cost sz vs ≤ c
    ∧ Forall (λ v, value_ok v = true ∧ fits max_len v = true ∧ (depth v < levels)%nat) vs).
Proof.
  intros Hrec. induction n as [|n IH]; cbn [decode_items]; [apply yields_ret; by split_and!|].
  eapply yields_bind; [exact Hrec|]. intros pre c v (Hok & Hfit & Hd & Hc).
  eapply yields_bind; [exact IH|]. intros pre' c' vs (Hlen & Hcs & HF). apply yields_ret.
  split_and!; [simpl; lia| |by constructor].
  change (items_cost sz (v :: vs)) with (cost v + items_cost sz vs). lia.
Qed.

Definition entry_ok (levels : nat) (kv : list byte * Value) : Prop :=
  utf8_valid kv.1 = true ∧ zlen kv.1 ≤ max_len ∧ zlen kv.1 ≤ u32_max
  ∧ value_ok kv.2 = true ∧ fits max_len kv.2 = true ∧ (depth kv.2 < levels)%nat.

Lemma map_insert_spec k v m :
  StronglySorted key_lt m →
  StronglySorted key_lt (map_insert k v m) ∧ (length (map_insert k v m) ≤ S (length m))%nat
  ∧ entries_cost sz (map_insert k v m) ≤ zlen k + cost v + entries_cost sz m
  ∧ ∀ kv, kv ∈ map_insert k v m → kv = (k, v) ∨ kv ∈ m.
Proof.
  induction 1 as [|[k' v'] m HS (IH1 & IH2 & IH3 & IH4) HF].
  { simpl. unfold entries_cost. simpl.
    split_and!; [by repeat constructor|lia|lia|]. intros kv ->%list_elem_of_singleton. by left. }
  cbn [map_insert]. destruct (bytes_cmp k k') eqn:E.
  - apply bytes_cmp_eq in E as ->. pose proof (heap_cost_nonneg sz sz_pos v').
    split_and!; [by constructor|simpl; lia|unfold entries_cost; simpl; lia|].
    intros kv [->|?]%elem_of_cons; [by left|right; by right].
  - split_and!; [|simpl; lia|unfold entries_cost; simpl; lia|].
    + constructor; [by constructor|]. constructor; [done|]. eapply Forall_impl; [exact HF|].
      intros kv Hkv. unfold key_lt in *. simpl in *. by eapply bytes_lt_trans.
    + intros kv [->|?]%elem_of_cons; [by left|by right].
  - apply bytes_cmp_gt in E. split_and!; [|simpl; lia| |].
    + constructor; [done|]. apply Forall_forall. intros kv [->|Hkv]%IH4; [done|].
      rewrite Forall_forall in HF. auto.
    + unfold entries_cost in *. simpl. lia.
    + intros kv [->|Hkv]%elem_of_cons; [right; left|]. destruct (IH4 kv Hkv); [by left|right; by right].
Qed.

Lemma yields_entries rec levels n out :
  yields rec (decoded levels) →
  StronglySorted key_lt out → Forall (entry_ok levels) out →
  yields (decode_entries rec n out) (λ _ c m, (length m ≤ n + length out)%nat
    ∧ entries_cost sz m ≤ c + entries_cost sz out ∧ StronglySorted key_lt m ∧ Forall (entry_ok levels) m).
Proof.
  intros Hrec. revert out. induction n as [|n IH]; intros out HS HF; cbn [decode_entries].
  { apply yields_ret. split_and!; [lia|lia|done..]. }
  eapply yields_bind; [exact Hrec|]. intros pre c k (Hok & Hfit & _ & Hc).
  destruct k as [| | | |key| | | |]; try apply yields_err. cbn [value_ok fits heap_cost] in *.
  eapply yields_bind; [exact Hrec|]. intros pre' c' v (Hok' & Hfit' & Hd' & Hc').
  destruct (map_insert_spec key v out HS) as (HS' & Hlen & Hcost & Hin).
  eapply yields_mono; [|apply (IH _ HS')].
  - intros pre'' c'' m (Hl & Hcm & Hm). split_and!; [lia|lia|apply Hm..].
  - apply Forall_forall. intros kv [->|Hkv]%Hin; [|rewrite Forall_forall in HF; auto].
    unfold entry_ok; simpl. split_and!; [done|lia|lia|done..].
Qed.

Lemma decoded_items levels n vs :
  0 ≤ n ≤ max_len → n ≤ u32_max → length vs = Z.to_nat n →
  Forall (λ v, value_ok v = true ∧ fits max_len v = true ∧ (depth v < levels)%nat) vs →
  forallb value_ok vs = true ∧ forallb (fits max_len) vs = true ∧ zlen vs = n
  ∧ (foldr (λ v d, Nat.max (S (depth v)) d) 0%nat vs < S levels)%nat.
Proof.
  intros Hn Hn' Hlen HF. split_and!; [| |lia|].
  - apply forallb_Forall. eapply Forall_impl; [exact HF|]. intros v (Hv & _). by rewrite Hv.
  - apply forallb_Forall. eapply Forall_impl; [exact HF|]. intros v (_ & Hv & _). by rewrite Hv.
  - clear Hlen. induction HF as [|v vs (_ & _ & Hd) _ IH]; simpl in *; lia.
Qed.

Lemma yields_list_body rec levels n :
  yields rec (decoded levels) → 0 ≤ n ≤ u32_max → yields (decode_list_body sz max_len rec n) (decoded (S levels)).
Proof.
  intros Hrec Hn. eapply yields_bind; [apply yields_bound_check|]. intros ? ? _ (-> & -> & Hmax).
  eapply yields_bind; [apply yields_require_minimum_wire|]. intros ? ? _ (-> & ->).
  eapply yields_bind; [apply yields_charge_mul; nia|]. intros ? ? _ (-> & ->).
  eapply yields_bind; [by apply yields_items|]. intros pre c vs (Hlen & Hc & HF). apply yields_ret.
  destruct (decoded_items levels n vs) as (H1 & H2 & H3 & H4); [lia..|done|].
  unfold decoded; cbn [value_ok fits depth heap_cost]. fold (items_cost sz vs). rewrite H3.
  split_and!; [done|rewrite H2; lia|done|lia].
Qed.

Lemma yields_struct_body rec levels n :
  yields rec (decoded levels) → 0 ≤ n ≤ u16_max → yields (decode_struct_body sz max_len rec n) (decoded (S levels)).
Proof.
  intros Hrec Hn. eapply yields_bind; [apply yields_read_be|]. intros p0 c0 tag (_ & -> & _).
  eapply yields_bind; [apply yields_bound_check|]. intros ? ? _ (-> & -> & Hmax).
  eapply yields_bind; [apply yields_require_minimum_wire|]. intros ? ? _ (-> & ->).
  eapply yields_bind; [apply yields_charge_mul; nia|]. intros ? ? _ (-> & ->).
  eapply yields_bind; [by apply yields_items|]. intros pre c vs (Hlen & Hc & HF). apply yields_ret.
  destruct (decoded_items levels n vs) as (H1 & H2 & H3 & H4); [lia|unfold u16_max, u32_max in *; lia|done..|].
  unfold decoded; cbn [value_ok fits depth heap_cost]. fold (items_cost sz vs). rewrite H3.
  split_and!; [done|rewrite H2; lia|done|lia].
Qed.

Lemma yields_map_body rec levels n :
  yields rec (decoded levels) → 0 ≤ n ≤ u32_max →
  yields (decode_map_body max_len rec n) (decoded (S levels)).
Proof.
  intros Hrec Hn. eapply yields_bind; [apply yields_bound_check|]. intros ? ? _ (-> & -> & Hmax).
  eapply yields_bind; [apply yields_require_minimum_wire|]. intros ? ? _ (-> & ->).
  eapply yields_bind; [apply yields_charge_mul; unfold MAP_ENTRY_HEAP_BYTES; lia|]. intros ? ? _ (-> & ->).
  eapply yields_bind; [apply (yields_entries rec levels (Z.to_nat n) []); [done|constructor..]|].
  intros pre c m (Hlen & Hc & HS & HF). apply yields_ret. simpl in Hlen.
  unfold decoded; cbn [value_ok fits depth heap_cost]. fold (entries_cost sz m).
  rewrite (proj2 (keys_ascending_sorted m) HS). split_and!.
  - apply forallb_Forall. eapply Forall_impl; [exact HF|]. intros kv (H1 & _ & _ & H2 & _). by rewrite H1, H2.
  - rewrite (proj2 (Z.leb_le (zlen m) max_len)), (proj2 (Z.leb_le (zlen m) u32_max)) by lia.
    apply forallb_Forall. eapply Forall_impl; [exact HF|]. intros kv (_ & H1 & H2 & _ & H3 & _).
    by rewrite (proj2 (Z.leb_le _ _) H1), (proj2 (Z.leb_le _ _) H2), H3.
  - clear -HF. induction HF as [|kv m (_ & _ & _ & _ & _ & Hd) _ IH]; simpl in *; lia.
  - unfold entries_cost at 2 in Hc. simpl in Hc. unfold MAP_ENTRY_HEAP_BYTES. nia.
Qed.

Lemma yields_len n w (k : Z → Dec Value) levels :
  (∀ len, 0 ≤ len < 2 ^ (8 * Z.of_nat n) → yields (k len) (decoded levels)) →
  yields (len ← read_be n w; k len) (decoded levels).
Proof.
  intros Hk. eapply yields_bind; [apply yields_read_be|]. intros pre c len (_ & -> & Hlen).
  by apply Hk.
Qed.

Lemma yields_int n w levels :
  (n = 1 ∨ n = 2 ∨ n = 4 ∨ n = 8)%nat → 
  yields (v ← (x ← read_be n w; mret (sign_wrap (8 * Z.of_nat n) x)); mret (VInt v)) (decoded (S levels)).
Proof.
  intros Hn. eapply yields_bind.
  - eapply (yields_bind _ _ _ (λ _ c x, c = 0 ∧ is_sint 64 x)); [apply yields_read_be|].
    intros pre c x (_ & -> & Hx). apply yields_ret. split; [done|].
    unfold sign_wrap, is_sint. rewrite Z.mod_small by done.
    destruct Hn as [-> |[-> |[-> | ->]]];
      [change (8 * Z.of_nat 1) with 8 in *|change (8 * Z.of_nat 2) with 16 in *
      |change (8 * Z.of_nat 4) with 32 in *|change (8 * Z.of_nat 8) with 64 in *]; case_match; lia.
  - intros pre c x (-> & Hx). unfold is_sint in Hx. apply yields_ret.
    split_and!; cbn [value_ok fits depth heap_cost]; [|done|lia|lia]. lia.
Qed.

Lemma yields_scalar v levels :
  value_ok v = true → fits max_len v = true → depth v = 0%nat → cost v = 0 →
  yields (mret v) (decoded (S levels)).
Proof. intros H1 H2 H3 H4. apply yields_ret. split_and!; [done|done|lia|lia]. Qed.

Ltac yields_body :=
  first [ apply yields_string_body | apply yields_bytes_body | apply yields_list_body
        | apply yields_map_body | apply yields_struct_body ].

Lemma yields_marker rec levels marker :
  0 ≤ marker < 256 → yields rec (decoded levels) →
  yields (decode_marker sz max_len rec marker) (decoded (S levels)).
Proof.
  intros Hm Hrec.
  assert (Hland : 0 ≤ Z.land marker 15 ≤ 15).
  { pose proof (Z.land_ones marker 4 ltac:(lia)) as E. change (Z.ones 4) with 15 in E. rewrite E.
    pose proof (Z.mod_pos_bound marker (2 ^ 4) ltac:(lia)). lia. }
  unfold decode_marker.
  repeat match goal with
  | |- yields (if ?b then _ else _) _ => destruct b eqn:?
  end;
    try (by apply yields_scalar); try apply yields_err;
    try (apply (yields_int 1) || apply (yields_int 2) || apply (yields_int 4) || apply (yields_int 8); by auto);
    first [ yields_body | apply yields_len; intros len Hlen; simpl in Hlen; first [yields_body | apply yields_scalar]
          | apply yields_scalar ];
    try done; try (unfold u16_max, u32_max; lia).
  - cbn [value_ok]. lia.
  - cbn [value_ok]. unfold sign_wrap. rewrite Z.mod_small by (simpl; lia).
    rewrite (proj2 (Z.ltb_ge marker _)) by (simpl; lia). lia.
  - cbn [value_ok]. lia.
Qed.

Lemma yields_inner levels : yields (decode_inner sz max_len levels) (λ pre c v, pre ≠ [] ∧ decoded levels pre c v).
Proof.
  induction levels as [|levels IH]; cbn [decode_inner]; [apply yields_err|].
  eapply yields_bind; [apply yields_read_be|]. intros pre c marker (Hpre & -> & Hm).
  eapply yields_mono; [|apply yields_marker; [done|eapply yields_mono; [|exact IH]; by intros ? ? ? [_ ?]]].
  intros pre' c' v Hv. split; [by destruct pre|]. exact Hv.
Qed.

End Sound.

(** ** Properties *)

Lemma for_message_max wire max_len :
  0 ≤ wire < 2 ^ 60 → 0 ≤ max_len →
  max (for_message wire max_len) = DECODE_HEAP_BASE_BYTES + 8 * Z.min wire max_len
  ∧ budget_fits (for_message wire max_len).
Proof.
  intros Hw Hm. unfold budget_fits, for_message, saturating_add64, saturating_mul64,
    DECODE_HEAP_BASE_BYTES, DECODE_HEAP_BYTES_PER_WIRE_BYTE, u64_max. simpl. lia.
Qed.

(** Every well-typed PackStream value within the length, nesting and heap limits
    survives the wire: it encodes, and decoding the bytes in front of any rest gives
    the value and the rest back. The heap limit always includes the fixed 2 MiB base,
    so a value whose estimate fits it decodes whatever its wire size. *)
Theorem packstream_roundtrip sz max_len v :
  0 < sz → 0 ≤ max_len → value_ok v = true → fits max_len v = true → (depth v ≤ MAX_NESTING_DEPTH)%nat →
  ∃ bs, encode v = Ok bs
  ∧ ∀ rest, zlen (bs ++ rest) < 2 ^ 60 →
      let budget := for_message (zlen (bs ++ rest)) max_len in
      DECODE_HEAP_BASE_BYTES ≤ max budget
      ∧ (heap_cost sz v ≤ max budget → decode_with_limit sz max_len (bs ++ rest) = Ok (v, rest)).
Proof.
  intros Hsz Hml Hok Hfit Hd. destruct (value_round_trips sz max_len Hsz v Hok Hfit) as (bs & Hbs & _ & Hdec).
  exists bs. split; [done|]. intros rest Hlen. cbv zeta.
  destruct (for_message_max (zlen (bs ++ rest)) max_len) as [Hmax [Hu Hlt]]; [lia..|].
  split; [lia|]. intros Hc. unfold decode_with_limit.
  rewrite Hdec; [done|unfold MAX_NESTING_DEPTH in *; lia|split; lia|].
  change (used (for_message _ _)) with 0. lia.
Qed.

Lemma packstream_roundtrip_witness :
  let v := VStruct (z2b 0x71) [VList [VInt 300; VString (String.list_byte_of_string "abc"); VMap []]] in
  ∃ bs, encode v = Ok bs
  ∧ ∀ rest, zlen (bs ++ rest) < 2 ^ 60 →
      let budget := for_message (zlen (bs ++ rest)) DEFAULT_MAX_LEN in
      DECODE_HEAP_BASE_BYTES ≤ max budget
      ∧ (heap_cost 32 v ≤ max budget → decode_with_limit 32 DEFAULT_MAX_LEN (bs ++ rest) = Ok (v, rest)).
Proof. apply packstream_roundtrip; [lia|done|reflexivity|reflexivity|vm_compute; lia]. Defined.

(** C39: Whatever bytes arrive, a value the decoder returns is well typed (64-bit
    integers and floats, UTF-8 strings, maps with unique ascending keys), nested at
    most 128 levels, within the length limit, and its estimated heap is within the
    message's budget of 2 MiB plus eight bytes per wire byte; the decoder consumes at
    least one byte and only a prefix of its input. *)
Theorem packstream_decode_sound sz max_len buf :
  0 < sz → 0 ≤ max_len → zlen buf < 2 ^ 60 →
  match decode_with_limit sz max_len buf with
  | Err _ => True
  | Ok (v, rest) =>
      value_ok v = true ∧ fits max_len v = true ∧ (depth v ≤ MAX_NESTING_DEPTH)%nat
      ∧ heap_cost sz v ≤ DECODE_HEAP_BASE_BYTES + 8 * Z.min (zlen buf) max_len
      ∧ ∃ pre, pre ≠ [] ∧ buf = pre ++ rest
  end.
Proof.
  intros Hsz Hml Hlen. unfold decode_with_limit.
  destruct (decode_inner sz max_len _ buf _) as [[[v rest] b']|e] eqn:E; [|done]. cbn [mbind result_bind].
  destruct (for_message_max (zlen buf) max_len) as [Hmax Hfits]; [lia..|].
  destruct (yields_inner sz max_len Hsz (MAX_NESTING_DEPTH + 1) _ _ _ _ _ Hfits E)
    as (pre & c & -> & Hu & Hm & Hb' & Hpre & Hok & Hfit & Hd & Hc).
  change (used (for_message _ _)) with 0 in Hu. destruct Hb'.
  split_and!; [done|done|lia|lia|eauto].
Qed.

Lemma packstream_decode_sound_witness :
  match decode_with_limit 32 65536 [z2b 0x92; z2b 1; z2b 0xC0; z2b 7] with
  | Err _ => True
  | Ok (v, rest) =>
      value_ok v = true ∧ fits 65536 v = true ∧ (depth v ≤ MAX_NESTING_DEPTH)%nat
      ∧ heap_cost 32 v ≤ DECODE_HEAP_BASE_BYTES + 8 * Z.min (zlen [z2b 0x92; z2b 1; z2b 0xC0; z2b 7]) 65536
      ∧ ∃ pre, pre ≠ [] ∧ [z2b 0x92; z2b 1; z2b 0xC0; z2b 7] = pre ++ rest
  end.
Proof. apply packstream_decode_sound; [lia|lia|vm_compute; reflexivity]. Defined.

(** A string of 4 GiB or more is written with its length modulo [2^32] ([len as u32]),
    where a list or map of that size is refused. *)
Lemma oversized_string_truncated s :
  u32_max < zlen s → encode (VString s) = Ok (put_u8 0xD2 ++ be_split 4 (zlen s `mod` 2 ^ 32) ++ s).
Proof.
  intros Hs. cbn [encode]. unfold encode_string. cbv zeta.
  rewrite !(proj2 (Z.leb_gt (zlen s) _)) by (unfold u16_max, u32_max in *; lia). f_equal.
  rewrite <- (assoc_L (++)). do 2 f_equal. unfold be_split. f_equal.
  rewrite <- (split_le_combine (le_split 4 (zlen s))), length_le_split, le_combine_split. done.
Qed.
