(* ===== verification/BoltMessage.v ===== *)
(** Bolt connection handshake, chunked framing, and messages
    ([namidb-bolt/src/handshake.rs], [chunk.rs], [message.rs]).

    A connection is the list of bytes still to be read, or the bytes written so far.
    [read_exact] fails with an I/O error at the end of the stream. *)
From S2P Require Import Prelude PackStream.

Definition bs (s : string) : list byte := String.list_byte_of_string s.

(** [r.read_exact(&mut buf)] of [n] bytes. *)
Definition read_exact (r : list byte) (n : nat) : BoltResult (list byte * list byte) :=
  if (length r <? n)%nat then Err BoltIo else Ok (take n r, drop n r).

(** ** Handshake *)

Definition MAGIC : list byte := map z2b [0x60; 0x60; 0xB0; 0x17].

Record Version := { major : Z; minor : Z }.
#[global] Instance Version_eq_dec : EqDecision Version.
Proof. solve_decision. Defined.
Definition Version_new (major minor : Z) : Version := {| major := major; minor := minor |}.
Definition to_wire (v : Version) : list byte := [z2b 0; z2b 0; z2b (minor v); z2b (major v)].

Definition SUPPORTED_VERSIONS : list Version :=
  [Version_new 5 7; Version_new 5 4; Version_new 5 0; Version_new 4 4].

Record Offer := { o_range : Z; o_minor : Z; o_major : Z }.

Definition Offer_parse (bytes : list byte) : Offer :=
  {| o_range := b2z (byte_at bytes 1); o_minor := b2z (byte_at bytes 2); o_major := b2z (byte_at bytes 3) |}.

Definition Offer_matches (o : Offer) (v : Version) : bool :=
  if negb (o_major o =? major v) then false
  else
    let low := Z.max (o_minor o - o_range o) 0 in
    (low <=? minor v) && (minor v <=? o_minor o).

Definition read_offers (r : list byte) : BoltResult (list Offer * list byte) :=
  '(buf, r) ← read_exact r 20;
  ensure bool_decide (take 4 buf = MAGIC) else Handshake "expected magic 0x6060B017";
  Ok ([Offer_parse (slice buf 4 8); Offer_parse (slice buf 8 12);
       Offer_parse (slice buf 12 16); Offer_parse (slice buf 16 20)], r).

(** [for &candidate in SUPPORTED_VERSIONS { for offer in offers { .. } }] *)
Fixpoint negotiate_loop (candidates : list Version) (offers : list Offer) : option Version :=
  match candidates with
  | [] => None
  | candidate :: rest =>
      if existsb (λ offer, Offer_matches offer candidate) offers then Some candidate
      else negotiate_loop rest offers
  end.
Definition negotiate (offers : list Offer) : option Version := negotiate_loop SUPPORTED_VERSIONS offers.

Definition write_response (version : option Version) : list byte :=
  match version with
  | Some v => to_wire v
  | None => [z2b 0; z2b 0; z2b 0; z2b 0]
  end.

(** ** Chunked framing *)

Definition MAX_CHUNK_BODY : Z := u16_max.
Definition DEFAULT_CHUNK_SIZE : Z := 16 * 1024.

(** [None] is a loop that ran out of fuel. *)
Fixpoint read_message_loop (fuel : nat) (r : list byte) (max_message_bytes : Z) (body : list byte)
    : option (BoltResult (list byte * list byte)) :=
  match fuel with
  | O => None
  | S fuel' =>
      match read_exact r 2 with
      | Err e => Some (Err e)
      | Ok (len_buf, r) =>
          let len := be_combine len_buf in
          if len =? 0 then Some (Ok (body, r))
          else if max_message_bytes <? zlen body + len
          then Some (Err (TooLarge "message body" (zlen body + len) max_message_bytes))
          else
            match read_exact r (Z.to_nat len) with
            | Err e => Some (Err e)
            | Ok (chunk, r) => read_message_loop fuel' r max_message_bytes (body ++ chunk)
            end
      end
  end.

Definition read_message (r : list byte) (max_message_bytes : Z) : option (BoltResult (list byte * list byte)) :=
  read_message_loop (S (length r)) r max_message_bytes [].

(** The bytes written; [offset] counts up to the end of the body. *)
Fixpoint write_chunks (fuel : nat) (body : list byte) (chunk_size : nat) (offset : nat) : option (list byte) :=
  match fuel with
  | O => None
  | S fuel' =>
      if (offset <? length body)%nat then
        let end_ := Nat.min (offset + chunk_size) (length body) in
        let chunk := slice body offset end_ in
        let len := zlen chunk `mod` 2 ^ 16 in
        rest ← write_chunks fuel' body chunk_size end_;
        Some (be_split 2 len ++ chunk ++ rest)
      else Some []
  end.

Definition write_message_chunked (body : list byte) (chunk_size : Z) : option (list byte) :=
  let chunk_size := Z.min (Z.max chunk_size 1) MAX_CHUNK_BODY in
  chunks ← write_chunks (S (length body)) body (Z.to_nat chunk_size) 0;
  Some (chunks ++ [z2b 0; z2b 0]).

Definition write_message (body : list byte) : option (list byte) := write_message_chunked body DEFAULT_CHUNK_SIZE.

(** ** Messages *)

Module struct_tag.
Definition SUCCESS : Z := 0x70.
Definition RECORD : Z := 0x71.
Definition IGNORED : Z := 0x7E.
Definition FAILURE : Z := 0x7F.
Definition HELLO : Z := 0x01.
Definition GOODBYE : Z := 0x02.
Definition RESET : Z := 0x0F.
Definition RUN : Z := 0x10.
Definition BEGIN : Z := 0x11.
Definition COMMIT : Z := 0x12.
Definition ROLLBACK : Z := 0x13.
Definition DISCARD : Z := 0x2F.
Definition PULL : Z := 0x3F.
Definition ROUTE : Z := 0x66.
Definition LOGON : Z := 0x6A.
Definition LOGOFF : Z := 0x6B.
Definition TELEMETRY : Z := 0x54.
End struct_tag.

Abbreviation Map := (list (list byte * Value)).

Inductive Request :=
| Hello (extra : Map)
| Logon (extra : Map)
| Logoff
| Goodbye
| ResetR
| Run (cypher : list byte) (params extra : Map)
| Pull (extra : Map)
| Discard (extra : Map)
| Begin (extra : Map)
| Commit
| Rollback
| Route (routing : Map) (bookmarks : list Value) (extra : Value)
| Telemetry (extra : Map)
| UnknownR (tag : byte) (fields : list Value).

Definition Request_name (r : Request) : string :=
  match r with
  | Hello _ => "HELLO" | Logon _ => "LOGON" | Logoff => "LOGOFF" | Goodbye => "GOODBYE"
  | ResetR => "RESET" | Run _ _ _ => "RUN" | Pull _ => "PULL" | Discard _ => "DISCARD"
  | Begin _ => "BEGIN" | Commit => "COMMIT" | Rollback => "ROLLBACK" | Route _ _ _ => "ROUTE"
  | Telemetry _ => "TELEMETRY" | UnknownR _ _ => "UNKNOWN"
  end.

(** [std::mem::replace(value, Value::Null)]: the field and the fields left behind. *)
Definition take_optional_field (fields : list Value) (idx : nat) : option Value * list Value :=
  match fields !! idx with
  | Some v => (Some v, <[idx := VNull]> fields)
  | None => (None, fields)
  end.

Definition take_map_field (struct_name : string) (fields : list Value) (idx : nat)
    : BoltResult (Map * list Value) :=
  match take_optional_field fields idx with
  | (Some (VMap m), fields) => Ok (m, fields)
  | (Some _, _) => Err (MalformedStruct struct_name "field must be Map")
  | (None, _) => Err (MalformedStruct struct_name "missing field")
  end.

Definition take_string_field (struct_name : string) (fields : list Value) (idx : nat)
    : BoltResult (list byte * list Value) :=
  match take_optional_field fields idx with
  | (Some (VString s), fields) => Ok (s, fields)
  | (Some _, _) => Err (MalformedStruct struct_name "field must be String")
  | (None, _) => Err (MalformedStruct struct_name "missing field")
  end.

Definition Request_from_value (value : Value) : BoltResult Request :=
  match value with
  | VStruct tag fields =>
      let t := b2z tag in
      if t =? struct_tag.HELLO then '(extra, _) ← take_map_field "HELLO" fields 0; Ok (Hello extra)
      else if t =? struct_tag.LOGON then '(extra, _) ← take_map_field "LOGON" fields 0; Ok (Logon extra)
      else if t =? struct_tag.LOGOFF then Ok Logoff
      else if t =? struct_tag.GOODBYE then Ok Goodbye
      else if t =? struct_tag.RESET then Ok ResetR
      else if t =? struct_tag.RUN then
        '(cypher, fields) ← take_string_field "RUN" fields 0;
        '(params, fields) ← take_map_field "RUN" fields 1;
        extra ← match (take_optional_field fields 2).1 with
                | Some (VMap m) => Ok m
                | Some _ => Err (MalformedStruct "RUN" "field 2 must be Map")
                | None => Ok []
                end;
        Ok (Run cypher params extra)
      else if t =? struct_tag.PULL then '(extra, _) ← take_map_field "PULL" fields 0; Ok (Pull extra)
      else if t =? struct_tag.DISCARD then '(extra, _) ← take_map_field "DISCARD" fields 0; Ok (Discard extra)
      else if t =? struct_tag.BEGIN then '(extra, _) ← take_map_field "BEGIN" fields 0; Ok (Begin extra)
      else if t =? struct_tag.COMMIT then Ok Commit
      else if t =? struct_tag.ROLLBACK then Ok Rollback
      else if t =? struct_tag.ROUTE then
        '(routing, fields) ← take_map_field "ROUTE" fields 0;
        let '(f1, fields) := take_optional_field fields 1 in
        bookmarks ← match f1 with
                    | Some (VList items) => Ok items
                    | Some VNull | None => Ok []
                    | Some _ => Err (MalformedStruct "ROUTE" "field 1 must be List")
                    end;
        let extra := default VNull (take_optional_field fields 2).1 in
        Ok (Route routing bookmarks extra)
      else if t =? struct_tag.TELEMETRY then '(extra, _) ← take_map_field "TELEMETRY" fields 0; Ok (Telemetry extra)
      else Ok (UnknownR tag fields)
  | _ => Err (Protocol "expected Struct message")
  end.

Inductive Response :=
| Success (meta : Map)
| Record_ (values : list Value)
| Ignored
| Failure (meta : Map).

Definition Response_to_value (r : Response) : Value :=
  match r with
  | Success meta => VStruct (z2b struct_tag.SUCCESS) [VMap meta]
  | Record_ values => VStruct (z2b struct_tag.RECORD) [VList values]
  | Ignored => VStruct (z2b struct_tag.IGNORED) []
  | Failure meta => VStruct (z2b struct_tag.FAILURE) [VMap meta]
  end.

Definition Response_encode (r : Response) : BoltResult (list byte) := encode (Response_to_value r).

Definition gql_status_for_code (code : list byte) : list byte :=
  if bool_decide (code = bs "Neo.ClientError.Statement.SyntaxError") then bs "42001"
  else if bool_decide (code = bs "Neo.ClientError.Statement.SemanticError") then bs "42000"
  else if bool_decide (code = bs "Neo.ClientError.Statement.NotSupported") then bs "0A000"
  else if bool_decide (code = bs "Neo.ClientError.Statement.ArgumentError") then bs "22000"
  else if bool_decide (code = bs "Neo.ClientError.Schema.ConstraintValidationFailed") then bs "23000"
  else if bool_decide (code = bs "Neo.ClientError.Transaction.TransactionTimedOut") then bs "57014"
  else if bool_decide (code = bs "Neo.ClientError.Statement.ResourceLimitExceeded") then bs "54000"
  else if bool_decide (code = bs "Neo.TransientError.General.DatabaseUnavailable")
          || bool_decide (code = bs "Neo.TransientError.Transaction.LockClientStopped") then bs "53000"
  else if bool_decide (code = bs "Neo.ClientError.Security.Unauthorized") then bs "28000"
  else if bool_decide (code = bs "Neo.ClientError.Security.Forbidden") then bs "42501"
  else if bool_decide (code = bs "Neo.ClientError.Request.Invalid") then bs "08000"
  else bs "50N42".

Definition Response_failure (code message : list byte) : Response :=
  let m := [] in
  let m := map_insert (bs "code") (VString code) m in
  let m := map_insert (bs "message") (VString message) m in
  Failure m.

Definition failure_with_gql (code message : list byte) : Response :=
  let m := [] in
  let m := map_insert (bs "neo4j_code") (VString code) m in
  let m := map_insert (bs "code") (VString code) m in
  let m := map_insert (bs "message") (VString message) m in
  let m := map_insert (bs "gql_status") (VString (gql_status_for_code code)) m in
  let m := map_insert (bs "description") (VString (bs "error: " ++ message)) m in
  let diag := [] in
  let diag := map_insert (bs "OPERATION") (VString []) diag in
  let diag := map_insert (bs "OPERATION_CODE") (VString (bs "0")) diag in
  let diag := map_insert (bs "CURRENT_SCHEMA") (VString (bs "/")) diag in
  let m := map_insert (bs "diagnostic_record") (VMap diag) m in
  Failure m.

Definition success_empty : Response := Success [].

Section Requests.
Context (size_of_Value : Z).

Definition Request_decode (body : list byte) (max_len : Z) : BoltResult Request :=
  '(value, slice) ← decode_with_limit size_of_Value max_len body;
  match slice with
  | _ :: _ => Err (Protocol "trailing bytes after message struct")
  | [] => Request_from_value value
  end.

End Requests.

(** ** Framing *)

Lemma read_exact_app n a rest : length a = n → read_exact (a ++ rest) n = Ok (a, rest).
Proof.
  intros <-. unfold read_exact. rewrite (proj2 (Nat.ltb_ge _ _)) by (rewrite length_app; lia).
  by rewrite take_app_length, drop_app_length.
Qed.

Lemma take_slice_app {A} (l : list A) a b : (a ≤ b)%nat → take a l ++ slice l a b = take b l.
Proof.
  intros Hab. unfold slice. replace b with (a + (b - a))%nat at 2 by lia. by rewrite take_take_drop.
Qed.

(** Writing the body from [offset] on and reading it back onto what was read before. *)
Lemma chunks_round_trip fuel body cs offset :
  (0 < cs)%nat → Z.of_nat cs ≤ MAX_CHUNK_BODY → (offset ≤ length body)%nat → (length body - offset < fuel)%nat →
  ∃ chunks, write_chunks fuel body cs offset = Some chunks
  ∧ ∀ mx rest fuel', zlen body ≤ mx → (length chunks < fuel')%nat →
      read_message_loop fuel' (chunks ++ [z2b 0; z2b 0] ++ rest) mx (take offset body) = Some (Ok (body, rest)).
Proof.
  intros Hcs Hmax. revert offset. induction fuel as [|fuel IH]; intros offset Hoff Hfuel; [lia|].
  cbn [write_chunks]. destruct (Nat.ltb_spec offset (length body)) as [Hlt|Hge].
  2:{ exists []. split; [done|]. intros mx rest fuel' Hmx Hf. destruct fuel' as [|fuel']; [simpl in *; lia|].
      cbn [read_message_loop app]. change (z2b 0 :: z2b 0 :: rest) with ([z2b 0; z2b 0] ++ rest).
      rewrite read_exact_app by done. rewrite take_ge by lia. done. }
  set (e := Nat.min (offset + cs) (length body)). set (chunk := slice body offset e).
  assert (Hlen : length chunk = (e - offset)%nat) by (apply length_slice; lia).
  assert (Hz : 0 < zlen chunk ≤ MAX_CHUNK_BODY) by lia.
  unfold MAX_CHUNK_BODY, u16_max in Hz. rewrite Z.mod_small by lia.
  destruct (IH e) as (chunks & -> & Hread); [lia..|]. cbn [mbind option_bind].
  eexists. split; [reflexivity|]. intros mx rest fuel' Hmx Hf.
  destruct fuel' as [|fuel']; [lia|]. cbn [read_message_loop]. rewrite <- !(assoc_L (++)).
  rewrite read_exact_app by apply length_be_split. rewrite be_combine_split_small by lia.
  rewrite (proj2 (Z.eqb_neq _ _)) by lia.
  rewrite (proj2 (Z.ltb_ge _ _)) by (rewrite length_take; lia).
  rewrite Nat2Z.id, read_exact_app by done. unfold chunk. rewrite take_slice_app by lia.
  apply Hread; [done|]. rewrite !length_app, length_be_split in Hf. lia.
Qed.

Lemma message_round_trip body cs :
  ∃ wire, write_message_chunked body cs = Some wire
  ∧ ∀ mx rest, zlen body ≤ mx → read_message (wire ++ rest) mx = Some (Ok (body, rest)).
Proof.
  unfold write_message_chunked. set (c := Z.min _ _).
  assert (0 < c ≤ MAX_CHUNK_BODY) by (unfold c, MAX_CHUNK_BODY, u16_max; lia).
  destruct (chunks_round_trip (S (length body)) body (Z.to_nat c) 0) as (chunks & -> & Hread); [lia..|].
  eexists. split; [reflexivity|]. intros mx rest Hmx. unfold read_message.
  rewrite <- (assoc_L (++)). apply (Hread mx rest); [done|]. rewrite !length_app. lia.
Qed.

(** Reading always ends; what it returns respects the limit and is a prefix's worth. *)
Lemma read_message_loop_spec fuel r mx body :
  (length r < fuel)%nat → zlen body ≤ mx →
  ∃ res, read_message_loop fuel r mx body = Some res
  ∧ ∀ body' rest, res = Ok (body', rest) → zlen body' ≤ mx ∧ (length rest < length r)%nat.
Proof.
  revert r body. induction fuel as [|fuel IH]; intros r body Hf Hb; [lia|]. cbn [read_message_loop].
  unfold read_exact at 1. destruct (Nat.ltb_spec (length r) 2); [eexists; split; [reflexivity|done]|].
  set (len := be_combine (take 2 r)). destruct (Z.eqb_spec len 0).
  { eexists. split; [reflexivity|]. intros ? ? [= <- <-]. rewrite length_drop. lia. }
  destruct (Z.ltb_spec mx (zlen body + len)); [eexists; split; [reflexivity|done]|].
  unfold read_exact. destruct (Nat.ltb_spec (length (drop 2 r)) (Z.to_nat len)) as [|Hge];
    [eexists; split; [reflexivity|done]|].
  rewrite length_drop in Hge.
  destruct (IH (drop (Z.to_nat len) (drop 2 r)) (body ++ take (Z.to_nat len) (drop 2 r))) as (res & Hres & Hok).
  - rewrite !length_drop. lia.
  - rewrite length_app, length_take, length_drop. pose proof (be_combine_bound (take 2 r)) as HB. fold len in HB. lia.
  - exists res. split; [done|]. intros body' rest Hr. destruct (Hok _ _ Hr) as [? Hl].
    rewrite !length_drop in Hl. lia.
Qed.

(** ** Properties *)

(** C40: A message crosses the connection unchanged: every well-typed value within the
    limits encodes to a body which, split into chunks of any size, sent in front of
    anything and read back under any limit the body respects, is reassembled exactly,
    leaves the rest of the stream, and decodes to the value; as a request it is
    interpreted by its fields alone. *)
Theorem bolt_message_delivered sz max_len v :
  0 < sz → 0 ≤ max_len → value_ok v = true → fits max_len v = true →
  (depth v ≤ MAX_NESTING_DEPTH)%nat → heap_cost sz v ≤ DECODE_HEAP_BASE_BYTES →
  ∃ body, encode v = Ok body
  ∧ ∀ chunk_size max_bytes rest, zlen body ≤ max_bytes → zlen body < 2 ^ 60 →
      ∃ wire, write_message_chunked body chunk_size = Some wire
      ∧ read_message (wire ++ rest) max_bytes = Some (Ok (body, rest))
      ∧ decode_with_limit sz max_len body = Ok (v, [])
      ∧ Request_decode sz body max_len = Request_from_value v.
Proof.
  intros Hsz Hml Hok Hfit Hd Hc. destruct (value_round_trips sz max_len Hsz v Hok Hfit) as (body & Hbs & _ & Hdec).
  exists body. split; [done|]. intros cs mx rest Hmx Hlen.
  destruct (message_round_trip body cs) as (wire & Hw & Hread). exists wire.
  assert (Hd' : decode_with_limit sz max_len body = Ok (v, [])).
  { destruct (for_message_max (zlen body) max_len) as [Hmax [Hu Hlt]]; [lia..|].
    pose proof (Hdec (MAX_NESTING_DEPTH + 1)%nat [] (for_message (zlen body) max_len)) as E.
    rewrite app_nil_r in E. unfold decode_with_limit. rewrite E; [done|lia|split; lia|].
    change (used (for_message _ _)) with 0. lia. }
  split_and!; [done|by apply Hread|done|]. unfold Request_decode. by rewrite Hd'.
Qed.

Lemma bolt_message_delivered_witness :
  let v := Response_to_value (failure_with_gql (bs "Neo.ClientError.Request.Invalid") (bs "no")) in
  ∃ body, encode v = Ok body
  ∧ ∀ chunk_size max_bytes rest, zlen body ≤ max_bytes → zlen body < 2 ^ 60 →
      ∃ wire, write_message_chunked body chunk_size = Some wire
      ∧ read_message (wire ++ rest) max_bytes = Some (Ok (body, rest))
      ∧ decode_with_limit 32 65536 body = Ok (v, [])
      ∧ Request_decode 32 body 65536 = Request_from_value v.
Proof. apply bolt_message_delivered; [lia|lia|vm_compute; reflexivity..|vm_compute; lia|vm_compute; congruence]. Defined.

(** Reading a message terminates on every stream, and a message it returns never
    exceeds the limit, whatever chunk lengths the peer declares. *)
Theorem bolt_read_bounded r max_message_bytes :
  0 ≤ max_message_bytes →
  ∃ res, read_message r max_message_bytes = Some res
  ∧ ∀ body rest, res = Ok (body, rest) → zlen body ≤ max_message_bytes ∧ (length rest < length r)%nat.
Proof. intros Hmx. apply read_message_loop_spec; [lia|done]. Qed.

Lemma bolt_read_bounded_witness :
  ∃ res, read_message [z2b 0; z2b 1; z2b 7; z2b 0; z2b 0; z2b 9] 100 = Some res
  ∧ ∀ body rest, res = Ok (body, rest) →
      zlen body ≤ 100 ∧ (length rest < length [z2b 0; z2b 1; z2b 7; z2b 0; z2b 0; z2b 9])%nat.
Proof. apply bolt_read_bounded. lia. Defined.

(** Version negotiation answers with the server's most preferred version that
    some offer covers, whatever the order of the offers, and refuses exactly when no
    supported version is offered. *)
Theorem negotiate_most_preferred offers :
  match negotiate offers with
  | Some v =>
      (∃ o, o ∈ offers ∧ Offer_matches o v = true)
      ∧ ∃ before after, SUPPORTED_VERSIONS = before ++ v :: after
        ∧ ∀ v', v' ∈ before → ∀ o, o ∈ offers → Offer_matches o v' = false
  | None => ∀ v o, v ∈ SUPPORTED_VERSIONS → o ∈ offers → Offer_matches o v = false
  end.
Proof.
  unfold negotiate. generalize SUPPORTED_VERSIONS as vs.
  assert (Hnone : ∀ v, existsb (λ o, Offer_matches o v) offers = false →
    ∀ o, o ∈ offers → Offer_matches o v = false).
  { intros v Hf o Ho. apply not_true_is_false. intros Ht. enough (true = false) by done. rewrite <- Hf.
    symmetry. apply existsb_exists. exists o. split; [by apply list_elem_of_In|done]. }
  induction vs as [|v vs IH]; cbn [negotiate_loop]; [by intros v o []%elem_of_nil|].
  destruct (existsb _ offers) eqn:E.
  - split; [|exists [], vs; split; [done|by intros ? []%elem_of_nil]].
    apply existsb_exists in E as (o & Ho & Hm). exists o. split; [by apply list_elem_of_In|done].
  - destruct (negotiate_loop vs offers) as [v'|].
    + destruct IH as (Hm & before & after & -> & Hb). split; [done|]. exists (v :: before), after.
      split; [done|]. intros w [->|Hw]%elem_of_cons; auto.
    + intros w o [->|Hw]%elem_of_cons Ho; auto.
Qed.

(** The preference is the server's, not the client's: offering 4.4 before 5.4
    negotiates 5.4. *)
Example negotiate_server_preference :
  negotiate [Offer_parse (map z2b [0; 0; 4; 4]); Offer_parse (map z2b [0; 0; 4; 5]);
             Offer_parse (map z2b [0; 0; 0; 0]); Offer_parse (map z2b [0; 0; 0; 0])]
  = Some (Version_new 5 4).
Proof. reflexivity. Qed.
