(* ===== verification/ManifestTypes.v ===== *)
(** The label dictionary and the manifest data model ([manifest.rs]): what a namespace
    version holds.

    A [Uuid] and a 16-byte key are their big-endian integers; timestamps are
    integers. The descriptor fields that no operation of the development
    inspects (schema versions and column statistics) are collected in one opaque
    component, [sst_extra]. *)
From S2P Require Import Prelude Bloom.

(** The label dictionary ([namidb-core/src/schema.rs], [LabelDictionary]): an
    append-only mapping between label names and compact ids. Ids are [u32]s; on
    the wire the dictionary is the list of its names. *)

Record LabelDictionary := { ld_names : list string; ld_ids : gmap string Z }.

Definition LabelDictionary_new : LabelDictionary := {| ld_names := []; ld_ids := ∅ |}.

(** [i as u32] *)
Definition as_u32 (i : nat) : Z := Z.of_nat i mod 2 ^ 32.

Definition intern (d : LabelDictionary) (name : string) : LabelDictionary * Z :=
  match ld_ids d !! name with
  | Some id => (d, id)
  | None =>
      let id := as_u32 (length (ld_names d)) in
      ({| ld_names := ld_names d ++ [name]; ld_ids := <[name := id]> (ld_ids d) |}, id)
  end.

Definition label_id (d : LabelDictionary) (name : string) : option Z := ld_ids d !! name.
Definition label_name (d : LabelDictionary) (id : Z) : option string := ld_names d !! Z.to_nat id.

(** [From<Vec<String>>]: the first occurrence of a name keeps its index. *)
Definition from_names_step (ids : gmap string Z) (e : nat * string) : gmap string Z :=
  let '(i, name) := e in
  match ids !! name with Some _ => ids | None => <[name := as_u32 i]> ids end.
Definition LabelDictionary_from (names : list string) : LabelDictionary :=
  {| ld_names := names; ld_ids := foldl from_names_step ∅ (zip (seq 0 (length names)) names) |}.
Definition LabelDictionary_into (d : LabelDictionary) : list string := ld_names d.

(** ** Well-formedness *)

(** Both directions agree, no name occurs twice, and the ids fit [u32]. *)
Definition dict_wf (d : LabelDictionary) : Prop :=
  Z.of_nat (length (ld_names d)) ≤ 2 ^ 32 ∧
  ∀ name id, ld_ids d !! name = Some id ↔ 0 ≤ id ∧ label_name d id = Some name.

Lemma as_u32_small i : Z.of_nat i < 2 ^ 32 → as_u32 i = Z.of_nat i.
Proof. intros Hi. apply Z.mod_small. lia. Qed.

Lemma dict_wf_new : dict_wf LabelDictionary_new.
Proof.
  split; [done|]. intros name id. unfold label_name. simpl.
  rewrite lookup_empty, lookup_nil. split; [done|by intros [_ ?]].
Qed.

Lemma dict_wf_absent d name : dict_wf d → ld_ids d !! name = None → name ∉ ld_names d.
Proof.
  intros [_ Hd] Hn [i Hi]%list_elem_of_lookup.
  assert (E : ld_ids d !! name = Some (Z.of_nat i)).
  { apply Hd. unfold label_name. rewrite Nat2Z.id. split; [lia|done]. }
  congruence.
Qed.

Lemma dict_wf_NoDup d : dict_wf d → NoDup (ld_names d).
Proof.
  intros [_ Hd]. apply NoDup_alt. intros i j name Hi Hj.
  assert (E : ∀ k, ld_names d !! k = Some name → ld_ids d !! name = Some (Z.of_nat k)).
  { intros k Hk. apply Hd. unfold label_name. rewrite Nat2Z.id. split; [lia|done]. }
  pose proof (E i Hi) as Ei. rewrite (E j Hj) in Ei. injection Ei as ?. lia.
Qed.

(** A name that is not interned yet is appended under the next id. *)
Lemma append_wf d name :
  dict_wf d → Z.of_nat (length (ld_names d)) < 2 ^ 32 → name ∉ ld_names d →
  dict_wf {| ld_names := ld_names d ++ [name];
             ld_ids := <[name := Z.of_nat (length (ld_names d))]> (ld_ids d) |}.
Proof.
  intros [_ Hd] Hlen Hn. split; simpl; [rewrite length_app; simpl; lia|].
  intros name' id. unfold label_name in *. simpl.
  rewrite lookup_app. destruct (decide (name = name')) as [<- | Hne].
  - rewrite lookup_insert_eq. destruct (ld_names d !! Z.to_nat id) as [x|] eqn:Ei.
    + split; [intros [= <-]; apply lookup_lt_Some in Ei; lia|].
      intros [_ [= ->]]. destruct Hn. apply list_elem_of_lookup. eauto.
    + apply lookup_ge_None in Ei. rewrite list_lookup_singleton_Some.
      split; [intros [= <-]; split; [lia|]; split; [lia|done]|].
      intros (? & ? & _). f_equal. lia.
  - rewrite lookup_insert_ne, Hd by done. destruct (ld_names d !! Z.to_nat id) as [x|] eqn:Ei; [done|].
    rewrite list_lookup_singleton_Some. split; [by intros [_ ?]|by intros (_ & _ & ?)].
Qed.

Lemma intern_wf d name :
  dict_wf d → Z.of_nat (length (ld_names d)) < 2 ^ 32 → dict_wf (intern d name).1.
Proof.
  intros Hwf Hlen. unfold intern. destruct (ld_ids d !! name) as [id|] eqn:E; [done|].
  rewrite as_u32_small by done. apply append_wf; [done..|by apply dict_wf_absent].
Qed.

Lemma from_names_snoc names name :
  ld_ids (LabelDictionary_from (names ++ [name])) =
  from_names_step (ld_ids (LabelDictionary_from names)) (length names, name).
Proof.
  unfold LabelDictionary_from. simpl.
  rewrite length_app, seq_app, zip_with_app by (by rewrite length_seq).
  by rewrite foldl_app.
Qed.

Lemma from_names_wf names :
  NoDup names → Z.of_nat (length names) ≤ 2 ^ 32 → dict_wf (LabelDictionary_from names).
Proof.
  induction names as [|name names IH] using rev_ind; intros Hnd Hlen; [apply dict_wf_new|].
  apply NoDup_app in Hnd as (Hnd & Hn & _). rewrite length_app in Hlen. simpl in Hlen.
  assert (Hwf : dict_wf (LabelDictionary_from names)) by (apply IH; [done|lia]).
  assert (Hnew : name ∉ names) by (intros Hin; apply (Hn _ Hin); by left).
  assert (E : ld_ids (LabelDictionary_from names) !! name = None).
  { apply eq_None_not_Some. intros [id [_ Hid]%Hwf]. destruct Hnew.
    apply list_elem_of_lookup. eauto. }
  pose proof (append_wf _ name Hwf ltac:(simpl; lia) Hnew) as Happ.
  enough (LabelDictionary_from (names ++ [name]) =
    {| ld_names := names ++ [name];
       ld_ids := <[name := Z.of_nat (length names)]> (ld_ids (LabelDictionary_from names)) |})
    as -> by done.
  pose proof (from_names_snoc names name) as Hs. unfold from_names_step in Hs.
  rewrite E, as_u32_small in Hs by lia. rewrite <- Hs. done.
Qed.

Lemma dict_wf_ext d1 d2 : dict_wf d1 → dict_wf d2 → ld_names d1 = ld_names d2 → d1 = d2.
Proof.
  intros [_ H1] [_ H2] E. destruct d1 as [n1 i1], d2 as [n2 i2]. simpl in *. subst n2. f_equal.
  apply map_eq. intros name. apply option_eq. intros id.
  unfold label_name in *. simpl in *. by rewrite H1, H2.
Qed.

(** ** Properties *)

(** Label ids are stable. Interning a name returns an id that resolves in both
    directions, leaves every id handed out before unchanged, returns the same id and
    dictionary when repeated, and keeps the dictionary well formed. *)
Theorem intern_stable d name :
  dict_wf d → Z.of_nat (length (ld_names d)) < 2 ^ 32 →
  let '(d', id) := intern d name in
  dict_wf d' ∧ label_id d' name = Some id ∧ label_name d' id = Some name ∧
  intern d' name = (d', id) ∧
  (∀ id' name', label_id d name' = Some id' → label_id d' name' = Some id').
Proof.
  intros Hwf Hlen. pose proof (intern_wf d name Hwf Hlen) as Hwf'.
  assert (Hid : ld_ids (intern d name).1 !! name = Some (intern d name).2).
  { unfold intern. destruct (ld_ids d !! name) eqn:E; [done|]. apply lookup_insert_eq. }
  assert (Hold : ∀ id' name', ld_ids d !! name' = Some id' → ld_ids (intern d name).1 !! name' = Some id').
  { intros id' name' Ho. unfold intern. destruct (ld_ids d !! name) eqn:E; [done|]. simpl.
    rewrite lookup_insert_ne; [done|]. intros ->. congruence. }
  destruct (intern d name) as [d' id]. simpl in *. split_and!; [done|done| |by unfold intern; rewrite Hid|done].
  by apply Hwf'.
Qed.

(** the wire form loses nothing. A well-formed dictionary rebuilt from its list
    of names is the same dictionary. *)
Theorem dictionary_roundtrip d :
  dict_wf d → LabelDictionary_from (LabelDictionary_into d) = d.
Proof.
  intros Hwf. apply dict_wf_ext; [|done|done].
  apply from_names_wf; [by apply dict_wf_NoDup|apply Hwf].
Qed.

(** ** Witnesses *)

Definition example_dict : LabelDictionary :=
  (intern (intern LabelDictionary_new "Person"%string).1 "City"%string).1.
Lemma example_dict_wf : dict_wf example_dict.
Proof. apply intern_wf; [apply intern_wf; [apply dict_wf_new|done]|vm_compute; done]. Qed.

Lemma intern_stable_witness :
  label_id (intern example_dict "Movie"%string).1 "Movie"%string =
  Some (intern example_dict "Movie"%string).2.
Proof. destruct (intern_stable example_dict "Movie"%string example_dict_wf) as (_ & Hid & _); [by vm_compute|exact Hid]. Defined.

Lemma dictionary_roundtrip_witness :
  LabelDictionary_from ["Person"%string; "City"%string] = example_dict.
Proof. apply (dictionary_roundtrip example_dict example_dict_wf). Defined.

Inductive SstKind := SkNodes | SkEdgesFwd | SkEdgesInv | SkVectorGraph | SkTextIndex.

#[global] Instance SstKind_eq_dec : EqDecision SstKind.
Proof. solve_decision. Defined.
#[global] Instance SstKind_countable : Countable SstKind.
Proof.
  refine (inj_countable'
    (λ k, match k with SkNodes => 0 | SkEdgesFwd => 1 | SkEdgesInv => 2
                     | SkVectorGraph => 3 | SkTextIndex => 4 end)
    (λ z, match z with 0 => SkNodes | 1 => SkEdgesFwd | 2 => SkEdgesInv
                     | 3 => SkVectorGraph | _ => SkTextIndex end) _).
  by intros [].
Defined.

Definition path_tag (k : SstKind) : string :=
  match k with
  | SkNodes => "nodes"
  | SkEdgesFwd => "edges-fwd"
  | SkEdgesInv => "edges-inv"
  | SkVectorGraph => "vector-graph"
  | SkTextIndex => "text-index"
  end.

Record NodePropertyPagesDescriptor := {
  pp_id : Z;
  pp_parent_sst_id : Z;
  pp_path : string;
  pp_size_bytes : Z;
  pp_format_version : Z;
  pp_node_count : Z;
  pp_cell_count : Z;
  pp_property_count : Z;
  pp_page_count : Z;
  pp_content_xxh3 : Z;
}.

Record NodeLocatorDescriptor := {
  loc_path : string;
  loc_size_bytes : Z;
  loc_entry_count : Z;
  loc_property_pages : option NodePropertyPagesDescriptor;
}.

(** ** Index sidecars *)

Inductive PropertyIndexFormat := BincodeV0 | PagedV1.
Inductive EqualityKeyEncoding := StringV0 | ScalarV1.
Inductive CompositeKeyEncoding := TupleV1.

Record PagedPropertyIndexDescriptor := {
  pg_path : string;
  pg_size_bytes : Z;
}.

Record UniquePropertyIndexDescriptor := {
  ui_property : string;
  ui_path : string;
  ui_size_bytes : Z;
  ui_entry_count : Z;
  ui_format : PropertyIndexFormat;
  ui_paged : option PagedPropertyIndexDescriptor;
  ui_paged_build_unsupported : bool;
}.

Record EqualityIndexDescriptor := {
  ei_property : string;
  ei_path : string;
  ei_size_bytes : Z;
  ei_distinct_values : Z;
  ei_key_encoding : EqualityKeyEncoding;
  ei_mixed_type_complete : bool;
  ei_numeric_complete : bool;
  ei_format : PropertyIndexFormat;
  ei_paged : option PagedPropertyIndexDescriptor;
  ei_paged_build_unsupported : bool;
}.

Record CompositeEqualityIndexDescriptor := {
  ci_properties : list string;
  ci_path : string;
  ci_size_bytes : Z;
  ci_distinct_values : Z;
  ci_mixed_type_complete : bool;
  ci_key_encoding : CompositeKeyEncoding;
  ci_format : PropertyIndexFormat;
  ci_paged : option PagedPropertyIndexDescriptor;
  ci_paged_build_unsupported : bool;
}.

Record LabelIndexDescriptor := {
  li_path : string;
  li_size_bytes : Z;
  li_label_count : Z;
  li_posting_count : Z;
  li_format : PropertyIndexFormat;
  li_per_label_counts : list (Z * Z);
}.

(** ** Sorted string tables *)

Record SstDescriptor := {
  sst_id : Z;
  sst_kind : SstKind;
  sst_scope : string;
  sst_level : Z;
  sst_path : string;
  sst_size_bytes : Z;
  sst_row_count : Z;
  sst_created_at : Z;
  sst_min_key : Z;
  sst_max_key : Z;
  sst_min_lsn : Z;
  sst_max_lsn : Z;
  sst_bloom : option BloomDescriptor;
  sst_unique_property_indices : list UniquePropertyIndexDescriptor;
  sst_equality_property_indices : list EqualityIndexDescriptor;
  sst_composite_equality_indices : list CompositeEqualityIndexDescriptor;
  sst_label_index : option LabelIndexDescriptor;
  sst_node_locator : option NodeLocatorDescriptor;
  sst_extra : list byte;
}.

Definition is_bound_to (p : NodePropertyPagesDescriptor) (parent : SstDescriptor) : bool :=
  bool_decide (sst_kind parent = SkNodes)
  && (pp_id p =? sst_id parent)
  && (pp_parent_sst_id p =? sst_id parent)
  && (pp_node_count p =? sst_row_count parent)
  && (272 <=? pp_size_bytes p).

Definition node_property_pages_sidecar (d : SstDescriptor)
    : option NodePropertyPagesDescriptor :=
  match sst_node_locator d with
  | Some locator => loc_property_pages locator
  | None => None
  end.

Record WalSegmentDescriptor := {
  wd_seq : Z;
  wd_path : string;
  wd_last_lsn : Z;
  wd_xxh3 : option Z;
}.

(** The schema and the search-index catalogs travel with the manifest unchanged:
    one opaque component, [mf_catalog]. *)
Record Manifest := {
  mf_version : Z;
  mf_epoch : Z;
  mf_writer_id : Z;
  mf_created_at : Z;
  mf_ssts : list SstDescriptor;
  mf_wal_segments : list WalSegmentDescriptor;
  mf_label_dict : LabelDictionary;
  mf_catalog : list byte;
}.

Record ManifestPointer := {
  ptr_version : Z;
  ptr_epoch : Z;
  ptr_manifest_path : string;
}.

#[global] Instance BloomDescriptor_eq_dec : EqDecision BloomDescriptor.
Proof. solve_decision. Defined.
#[global] Instance PropertyIndexFormat_eq_dec : EqDecision PropertyIndexFormat.
Proof. solve_decision. Defined.
#[global] Instance EqualityKeyEncoding_eq_dec : EqDecision EqualityKeyEncoding.
Proof. solve_decision. Defined.
#[global] Instance CompositeKeyEncoding_eq_dec : EqDecision CompositeKeyEncoding.
Proof. solve_decision. Defined.
#[global] Instance PagedPropertyIndexDescriptor_eq_dec : EqDecision PagedPropertyIndexDescriptor.
Proof. solve_decision. Defined.
#[global] Instance UniquePropertyIndexDescriptor_eq_dec : EqDecision UniquePropertyIndexDescriptor.
Proof. solve_decision. Defined.
#[global] Instance EqualityIndexDescriptor_eq_dec : EqDecision EqualityIndexDescriptor.
Proof. solve_decision. Defined.
#[global] Instance CompositeEqualityIndexDescriptor_eq_dec : EqDecision CompositeEqualityIndexDescriptor.
Proof. solve_decision. Defined.
#[global] Instance LabelIndexDescriptor_eq_dec : EqDecision LabelIndexDescriptor.
Proof. solve_decision. Defined.
#[global] Instance NodePropertyPagesDescriptor_eq_dec : EqDecision NodePropertyPagesDescriptor.
Proof. solve_decision. Defined.
#[global] Instance NodeLocatorDescriptor_eq_dec : EqDecision NodeLocatorDescriptor.
Proof. solve_decision. Defined.
#[global] Instance SstDescriptor_eq_dec : EqDecision SstDescriptor.
Proof. solve_decision. Defined.
#[global] Instance WalSegmentDescriptor_eq_dec : EqDecision WalSegmentDescriptor.
Proof. solve_decision. Defined.
#[global] Instance LabelDictionary_eq_dec : EqDecision LabelDictionary.
Proof. solve_decision. Defined.
#[global] Instance Manifest_eq_dec : EqDecision Manifest.
Proof. solve_decision. Defined.
#[global] Instance ManifestPointer_eq_dec : EqDecision ManifestPointer.
Proof. solve_decision. Defined.

(** [now] is [Utc::now()]; the empty catalog is [Schema::empty()] and friends. *)
Definition Manifest_empty (epoch writer_id now : Z) : Manifest :=
  {| mf_version := 0; mf_epoch := epoch; mf_writer_id := writer_id; mf_created_at := now;
     mf_ssts := []; mf_wal_segments := [];
     mf_label_dict := LabelDictionary_new; mf_catalog := [] |}.

Definition next_version (m : Manifest) (writer_id now : Z) : Manifest :=
  {| mf_version := wrapping_add64 (mf_version m) 1; mf_epoch := mf_epoch m; mf_writer_id := writer_id;
     mf_created_at := now; mf_ssts := mf_ssts m; mf_wal_segments := mf_wal_segments m;
     mf_label_dict := mf_label_dict m; mf_catalog := mf_catalog m |}.

(** [TextIndexDescriptor] and its order-independent matching. *)
Record TextIndexDescriptor := { ti_name : string; ti_label : string; ti_properties : list string }.

(** [Vec::dedup]: drop consecutive repeats. *)
Fixpoint dedup_sorted (l : list string) : list string :=
  match l with
  | x :: ((y :: _) as rest) => if decide (x = y) then dedup_sorted rest else x :: dedup_sorted rest
  | _ => l
  end.
Definition normalize_properties (ps : list string) : list string :=
  dedup_sorted (merge_sort String.le ps).

Definition TextIndexDescriptor_new (name label : string) (properties : list string)
    : TextIndexDescriptor :=
  {| ti_name := name; ti_label := label; ti_properties := normalize_properties properties |}.

Definition TextIndexDescriptor_matches (d : TextIndexDescriptor) (label : string)
    (properties : list string) : bool :=
  if decide (ti_label d = label) then bool_decide (ti_properties d = normalize_properties properties)
  else false.
