(* ===== verification/DescriptorIndex.v ===== *)
(** The key-range index over a manifest's SSTs ([manifest.rs], [DescriptorIndex]):
    per (kind, scope) bucket, a centred interval tree for level 0 and, for each
    deeper level, binary search over disjoint ranges or the same tree.

    The lookup statistics are a test-only counter and are not modelled. *)
From S2P Require Import Prelude ManifestTypes.

Record IndexedRange := { ir_descriptor : nat; ir_min : Z; ir_max : Z }.

Definition IndexedRange_new (descriptor : nat) (desc : SstDescriptor) : IndexedRange :=
  {| ir_descriptor := descriptor; ir_min := sst_min_key desc; ir_max := sst_max_key desc |}.

(** [sort_by_key(|r| (r.min, r.max, r.descriptor))] *)
Definition range_le (a b : IndexedRange) : Prop :=
  ir_min a < ir_min b ∨ (ir_min a = ir_min b ∧
    (ir_max a < ir_max b ∨ (ir_max a = ir_max b ∧ (ir_descriptor a ≤ ir_descriptor b)%nat))).
(** Descending [max], then ascending [min] and [descriptor]. *)
Definition range_max_desc (a b : IndexedRange) : Prop :=
  ir_max b < ir_max a ∨ (ir_max a = ir_max b ∧
    (ir_min a < ir_min b ∨ (ir_min a = ir_min b ∧ (ir_descriptor a ≤ ir_descriptor b)%nat))).

#[global] Instance range_le_dec : RelDecision range_le.
Proof. intros a b. unfold range_le. apply _. Defined.
#[global] Instance range_max_desc_dec : RelDecision range_max_desc.
Proof. intros a b. unfold range_max_desc. apply _. Defined.

(** The binary search both bound functions run: the first index in [lo, hi)
    whose element fails [p]. *)
Fixpoint bound_loop (fuel : nat) (p : IndexedRange → bool) (ranges : list IndexedRange)
    (lo hi : nat) : nat :=
  match fuel with
  | O => lo
  | S fuel' =>
      if (lo <? hi)%nat then
        let mid := (lo + (hi - lo) `div` 2)%nat in
        match ranges !! mid with
        | None => lo
        | Some r =>
            if p r then bound_loop fuel' p ranges (mid + 1) hi
            else bound_loop fuel' p ranges lo mid
        end
      else lo
  end.

Definition upper_bound_min (ranges : list IndexedRange) (target : Z) : nat :=
  bound_loop (S (length ranges)) (λ r, ir_min r <=? target) ranges 0 (length ranges).

Definition lower_bound_max_desc (ranges : list IndexedRange) (target : Z) : nat :=
  bound_loop (S (length ranges)) (λ r, target <=? ir_max r) ranges 0 (length ranges).

(** [Option<Box<IntervalNode>>] *)
Inductive IntervalTree :=
| Leaf
| IntervalNode (center : Z) (by_min by_max_desc : list IndexedRange) (l r : IntervalTree).

(** [IntervalNode::build]. The median element crosses the centre, so each half
    is shorter: [length ranges] levels are enough. *)
Fixpoint IntervalNode_build (fuel : nat) (ranges : list IndexedRange) : IntervalTree :=
  match fuel with
  | O => Leaf
  | S fuel' =>
      let ranges := filter (λ r, ir_min r ≤ ir_max r) ranges in
      let ranges := merge_sort range_le ranges in
      match ranges !! (length ranges `div` 2)%nat with
      | None => Leaf
      | Some median =>
          let center := ir_min median in
          let left := filter (λ r, ir_max r < center) ranges in
          let right := filter (λ r, ¬ ir_max r < center ∧ center < ir_min r) ranges in
          let crossing := filter (λ r, ¬ ir_max r < center ∧ ¬ center < ir_min r) ranges in
          let by_min := merge_sort range_le crossing in
          let by_max_desc := merge_sort range_max_desc by_min in
          IntervalNode center by_min by_max_desc
            (IntervalNode_build fuel' left) (IntervalNode_build fuel' right)
      end
  end.

Fixpoint IntervalNode_query (t : IntervalTree) (target : Z) (out : list nat) : list nat :=
  match t with
  | Leaf => out
  | IntervalNode center by_min by_max_desc l r =>
      match Z.compare target center with
      | Lt =>
          let after := upper_bound_min by_min target in
          let out := out ++ map ir_descriptor (take after by_min) in
          IntervalNode_query l target out
      | Gt =>
          let after := lower_bound_max_desc by_max_desc target in
          let out := out ++ map ir_descriptor (take after by_max_desc) in
          IntervalNode_query r target out
      | Eq => out ++ map ir_descriptor by_min
      end
  end.

Definition OverlapRangeIndex_build (ranges : list IndexedRange) : IntervalTree :=
  IntervalNode_build (S (length ranges)) ranges.

Inductive LevelRangeIndex :=
| Disjoint (ranges : list IndexedRange)
| Overlapping (index : IntervalTree).

(** [ranges.windows(2).all(|pair| pair[0].max < pair[1].min)] *)
Fixpoint windows_disjoint (ranges : list IndexedRange) : bool :=
  match ranges with
  | a :: ((b :: _) as rest) => (ir_max a <? ir_min b) && windows_disjoint rest
  | _ => true
  end.

Definition LevelRangeIndex_build (ranges : list IndexedRange) : LevelRangeIndex :=
  let ranges := merge_sort range_le ranges in
  if windows_disjoint ranges then Disjoint ranges
  else Overlapping (OverlapRangeIndex_build ranges).

Definition LevelRangeIndex_query (l : LevelRangeIndex) (target : Z) (out : list nat) : list nat :=
  match l with
  | Disjoint ranges =>
      let after := upper_bound_min ranges target in
      match after with
      | O => out
      | S idx =>
          match ranges !! idx with
          | Some range => if target <=? ir_max range then out ++ [ir_descriptor range] else out
          | None => out
          end
      end
  | Overlapping index => IntervalNode_query index target out
  end.

Record DescriptorBucket := {
  all_by_min : list nat;
  bk_l0 : IntervalTree;
  bk_levels : list (Z * LevelRangeIndex);
}.

(** [(min_key, max_key, level, idx)] *)
Definition descriptor_le (ssts : list SstDescriptor) (i j : nat) : Prop :=
  match ssts !! i, ssts !! j with
  | Some a, Some b =>
      sst_min_key a < sst_min_key b ∨ (sst_min_key a = sst_min_key b ∧
        (sst_max_key a < sst_max_key b ∨ (sst_max_key a = sst_max_key b ∧
          (sst_level a < sst_level b ∨ (sst_level a = sst_level b ∧ (i ≤ j)%nat)))))
  | _, _ => True
  end.
#[global] Instance descriptor_le_dec ssts : RelDecision (descriptor_le ssts).
Proof. intros i j. unfold descriptor_le. repeat case_match; apply _. Defined.

Definition level_le (a b : Z * LevelRangeIndex) : Prop := a.1 ≤ b.1.
#[global] Instance level_le_dec : RelDecision level_le.
Proof. intros a b. unfold level_le. apply _. Defined.

(** One step of the loop that splits a bucket by level. *)
Definition bucket_step (ssts : list SstDescriptor)
    (acc : list IndexedRange * gmap Z (list IndexedRange)) (idx : nat)
    : list IndexedRange * gmap Z (list IndexedRange) :=
  match ssts !! idx with
  | None => acc
  | Some desc =>
      let range := IndexedRange_new idx desc in
      let level := sst_level desc in
      if level =? 0 then (acc.1 ++ [range], acc.2)
      else (acc.1, <[level := default [] (acc.2 !! level) ++ [range]]> acc.2)
  end.

Definition DescriptorBucket_build (descriptors : list nat) (ssts : list SstDescriptor)
    : DescriptorBucket :=
  let descriptors := merge_sort (descriptor_le ssts) descriptors in
  let '(l0, by_level) := foldl (bucket_step ssts) ([], ∅) descriptors in
  let levels := map (λ '(level, ranges), (level, LevelRangeIndex_build ranges))
                    (map_to_list by_level) in
  {| all_by_min := descriptors;
     bk_l0 := OverlapRangeIndex_build l0;
     bk_levels := merge_sort level_le levels |}.

Definition DescriptorBucket_query (b : DescriptorBucket) (target : Z) : list nat :=
  foldl (λ out '(_, level), LevelRangeIndex_query level target out)
    (IntervalNode_query (bk_l0 b) target []) (bk_levels b).

(** [HashMap<SstKind, HashMap<String, DescriptorBucket>>] *)
Abbreviation DescriptorIndex := (gmap SstKind (gmap string DescriptorBucket)).

Definition group_step (grouped : gmap SstKind (gmap string (list nat)))
    (e : nat * SstDescriptor) : gmap SstKind (gmap string (list nat)) :=
  let '(idx, desc) := e in
  let scopes := default ∅ (grouped !! sst_kind desc) in
  let descriptors := default [] (scopes !! sst_scope desc) in
  <[sst_kind desc := <[sst_scope desc := descriptors ++ [idx]]> scopes]> grouped.

Definition DescriptorIndex_build (ssts : list SstDescriptor) : DescriptorIndex :=
  let grouped := foldl group_step ∅ (zip (seq 0 (length ssts)) ssts) in
  fmap (M := gmap SstKind)
    (fmap (M := gmap string) (λ descriptors, DescriptorBucket_build descriptors ssts)) grouped.

Definition bucket (ix : DescriptorIndex) (kind : SstKind) (scope : string)
    : option DescriptorBucket :=
  match ix !! kind with Some scopes => scopes !! scope | None => None end.

Definition lookup_candidates (ix : DescriptorIndex) (kind : SstKind) (scope : string)
    (target : Z) : list nat :=
  match bucket ix kind scope with
  | Some b => DescriptorBucket_query b target
  | None => []
  end.

Definition scope_descriptors (ix : DescriptorIndex) (kind : SstKind) (scope : string)
    : list nat :=
  match bucket ix kind scope with Some b => all_by_min b | None => [] end.

Definition node_descriptors (ix : DescriptorIndex) : list nat :=
  let scopes := default ∅ (ix !! SkNodes) in
  merge_sort Nat.le (concat (map (λ e, all_by_min e.2) (map_to_list scopes))).

Definition node_candidates (ix : DescriptorIndex) (target : Z) : list nat :=
  match ix !! SkNodes with
  | Some scopes => concat (map (λ e, lookup_candidates ix SkNodes e.1 target) (map_to_list scopes))
  | None => []
  end.

(** ** Sorting *)

#[global] Instance range_le_total : Total range_le.
Proof. intros a b. unfold range_le. lia. Qed.
#[global] Instance range_le_trans : Transitive range_le.
Proof. intros a b c. unfold range_le. lia. Qed.
#[global] Instance range_max_desc_total : Total range_max_desc.
Proof. intros a b. unfold range_max_desc. lia. Qed.
#[global] Instance range_max_desc_trans : Transitive range_max_desc.
Proof. intros a b c. unfold range_max_desc. lia. Qed.
#[global] Instance level_le_total : Total level_le.
Proof. intros a b. unfold level_le. lia. Qed.

Lemma range_sorted_min l : StronglySorted (λ a b, ir_min a ≤ ir_min b) (merge_sort range_le l).
Proof.
  eapply StronglySorted_impl; [|apply (StronglySorted_merge_sort range_le)].
  unfold range_le. lia.
Qed.

Lemma range_sorted_max l :
  StronglySorted (λ a b, ir_max b ≤ ir_max a) (merge_sort range_max_desc l).
Proof.
  eapply StronglySorted_impl; [|apply (StronglySorted_merge_sort range_max_desc)].
  unfold range_max_desc. lia.
Qed.

(** ** Binary search *)

Lemma bound_loop_spec fuel (p : IndexedRange → bool) l lo hi :
  StronglySorted (λ a b, p b → p a) l →
  (lo ≤ hi ≤ length l)%nat → (hi - lo < fuel)%nat →
  (∀ i r, l !! i = Some r → (i < lo)%nat → p r) →
  (∀ i r, l !! i = Some r → (hi ≤ i)%nat → ¬ p r) →
  let n := bound_loop fuel p l lo hi in
  (n ≤ hi)%nat ∧
  (∀ i r, l !! i = Some r → (i < n)%nat → p r) ∧
  (∀ i r, l !! i = Some r → (n ≤ i)%nat → ¬ p r).
Proof.
  intros HS. revert lo hi. induction fuel as [|fuel IH]; intros lo hi Hb Hf Hlo Hhi; [lia|].
  cbn [bound_loop]. destruct (Nat.ltb_spec lo hi) as [Hlt|Hge].
  2:{ replace hi with lo in * by lia. split_and!; done. }
  assert (Hmid : (lo ≤ lo + (hi - lo) `div` 2 < hi)%nat) by (pose proof (Nat.div_lt (hi - lo) 2); lia).
  set (mid := (lo + (hi - lo) `div` 2)%nat) in *.
  destruct (lookup_lt_is_Some_2 l mid ltac:(lia)) as [r Hr]. rewrite Hr.
  destruct (p r) eqn:Hp.
  - apply (IH (mid + 1)%nat hi); try lia; [|done]. intros i x Hx Hi.
    destruct (decide (i = mid)) as [->|]; [simplify_eq; by rewrite Hp|].
    apply (StronglySorted_lookup_lt _ _ i mid x r HS Hx Hr ltac:(lia)). by rewrite Hp.
  - destruct (IH lo mid) as (? & ? & ?); [lia|lia|done| |split_and!; [lia|done|done]].
    intros i x Hx Hi Hpx. destruct (decide (i = mid)) as [->|]; [simplify_eq; by rewrite Hp in Hpx|].
    pose proof (StronglySorted_lookup_lt _ _ mid i r x HS Hr Hx ltac:(lia) Hpx). by rewrite Hp in *.
Qed.

Lemma bound_take (p : IndexedRange → bool) l :
  StronglySorted (λ a b, p b → p a) l →
  take (bound_loop (S (length l)) p l 0 (length l)) l = filter (λ r, p r) l.
Proof.
  intros HS. destruct (bound_loop_spec (S (length l)) p l 0 (length l) HS) as (_ & H1 & H2); try lia.
  - intros i r Hi Hge. apply lookup_lt_Some in Hi. lia.
  - by apply take_filter_prefix.
Qed.

Lemma upper_bound_min_take l target :
  StronglySorted (λ a b, ir_min a ≤ ir_min b) l →
  take (upper_bound_min l target) l = filter (λ r, ir_min r ≤ target) l.
Proof.
  intros HS. unfold upper_bound_min. rewrite bound_take.
  - apply filter_ext_in. intros r _. rewrite Is_true_true. apply Z.leb_le.
  - eapply StronglySorted_impl; [|done]. simpl. intros a b Hab. rewrite !Is_true_true, !Z.leb_le. lia.
Qed.

Lemma lower_bound_max_desc_take l target :
  StronglySorted (λ a b, ir_max b ≤ ir_max a) l →
  take (lower_bound_max_desc l target) l = filter (λ r, target ≤ ir_max r) l.
Proof.
  intros HS. unfold lower_bound_max_desc. rewrite bound_take.
  - apply filter_ext_in. intros r _. rewrite Is_true_true. apply Z.leb_le.
  - eapply StronglySorted_impl; [|done]. simpl. intros a b Hab. rewrite !Is_true_true, !Z.leb_le. lia.
Qed.

(** ** The interval tree *)

Definition contains (target : Z) (r : IndexedRange) : Prop := ir_min r ≤ target ∧ target ≤ ir_max r.
#[global] Instance contains_dec target r : Decision (contains target r).
Proof. unfold contains. apply _. Defined.

Lemma IntervalNode_query_app t target out :
  IntervalNode_query t target out = out ++ IntervalNode_query t target [].
Proof.
  revert out. induction t as [|c bm bx l IHl r IHr]; intros out; cbn [IntervalNode_query];
    [by rewrite app_nil_r|].
  destruct (target ?= c); [done|rewrite IHl, (IHl ([] ++ _))|rewrite IHr, (IHr ([] ++ _))];
    by rewrite (assoc_L (++)).
Qed.

(** Splitting around the centre loses nothing. *)
Lemma split_perm target center (l : list IndexedRange) :
  filter (contains target) l ≡ₚ
    filter (contains target) (filter (λ r, ir_max r < center) l) ++
    filter (contains target) (filter (λ r, ¬ ir_max r < center ∧ center < ir_min r) l) ++
    filter (contains target) (filter (λ r, ¬ ir_max r < center ∧ ¬ center < ir_min r) l).
Proof.
  rewrite (filter_app_perm (contains target) (λ r, ir_max r < center) l) at 1. f_equiv.
  rewrite (filter_app_perm (contains target) (λ r, center < ir_min r)) at 1.
  rewrite !list_filter_filter. f_equiv; apply reflexive_eq, filter_ext_in; intros; tauto.
Qed.

Lemma IntervalNode_build_query fuel l target :
  (length l < fuel)%nat →
  IntervalNode_query (IntervalNode_build fuel l) target []
  ≡ₚ map ir_descriptor (filter (contains target) l).
Proof.
  revert l. induction fuel as [|fuel IH]; intros l Hfuel; [lia|]. cbn [IntervalNode_build].
  set (valid := filter (λ r, ir_min r ≤ ir_max r) l).
  set (rs := merge_sort range_le valid).
  assert (Hrs : rs ≡ₚ valid) by apply merge_sort_Permutation.
  assert (Hval : ∀ r, r ∈ rs → ir_min r ≤ ir_max r).
  { intros r Hr. rewrite Hrs in Hr. by apply list_elem_of_filter in Hr as [? _]. }
  assert (Hgoal : filter (contains target) l ≡ₚ filter (contains target) rs).
  { rewrite Hrs. subst valid. rewrite list_filter_filter. apply reflexive_eq, filter_ext_in.
    unfold contains. intros r _. lia. }
  rewrite Hgoal.
  destruct (rs !! (length rs `div` 2)%nat) as [median|] eqn:Hmed.
  2:{ apply lookup_ge_None in Hmed. assert (length rs = 0%nat) as Hz.
      { destruct (length rs) as [|n] eqn:E; [done|]. pose proof (Nat.div_lt (S n) 2). lia. }
      apply length_zero_iff_nil in Hz. by rewrite Hz. }
  assert (Hmed' : median ∈ rs) by (apply list_elem_of_lookup; eauto).
  set (center := ir_min median).
  assert (Hlen : (length rs ≤ length l)%nat) by (rewrite Hrs; apply length_filter).
  rewrite (split_perm target center rs).
  set (left_ := filter (λ r, ir_max r < center) rs).
  set (right_ := filter (λ r, ¬ ir_max r < center ∧ center < ir_min r) rs).
  set (cross := filter (λ r, ¬ ir_max r < center ∧ ¬ center < ir_min r) rs).
  assert (Hll : (length left_ < length rs)%nat).
  { apply (length_filter_lt _ rs median); [done|]. pose proof (Hval _ Hmed'). subst center. lia. }
  assert (Hlr : (length right_ < length rs)%nat).
  { apply (length_filter_lt _ rs median); [done|]. subst center. lia. }
  cbn [IntervalNode_query]. destruct (Z.compare_spec target center) as [->|Hlt|Hgt].
  - rewrite (filter_nil_in _ left_), (filter_nil_in _ right_); simpl.
    + apply fmap_Permutation. rewrite merge_sort_Permutation. subst cross.
      rewrite list_filter_filter. apply reflexive_eq, filter_ext_in. unfold contains. intros; lia.
    + intros r [? ?]%list_elem_of_filter. unfold contains. lia.
    + intros r [? ?]%list_elem_of_filter. unfold contains. lia.
  - rewrite IntervalNode_query_app, IH by lia. rewrite upper_bound_min_take by apply range_sorted_min.
    rewrite (filter_nil_in _ right_).
    2:{ intros r [? ?]%list_elem_of_filter. unfold contains. lia. }
    simpl. rewrite merge_sort_Permutation, <- map_app. apply fmap_Permutation.
    rewrite (comm (++)). f_equiv. subst cross. rewrite !list_filter_filter.
    apply reflexive_eq, filter_ext_in. unfold contains. intros; lia.
  - rewrite IntervalNode_query_app, IH by lia.
    rewrite lower_bound_max_desc_take by apply range_sorted_max.
    rewrite (filter_nil_in _ left_).
    2:{ intros r [? ?]%list_elem_of_filter. unfold contains. lia. }
    simpl. rewrite !merge_sort_Permutation, <- map_app. apply fmap_Permutation.
    rewrite (comm (++)). f_equiv. subst cross. rewrite !list_filter_filter.
    apply reflexive_eq, filter_ext_in. unfold contains. intros; lia.
Qed.

(** ** One level *)

Lemma windows_disjoint_lt l i a b :
  windows_disjoint l = true → l !! i = Some a → l !! S i = Some b → ir_max a < ir_min b.
Proof.
  revert i. induction l as [|x l IH]; intros i Hd Ha Hb; [done|].
  destruct l as [|y l]; [by destruct i|]. cbn [windows_disjoint] in Hd.
  apply andb_true_iff in Hd as [Hxy Hd]. apply Z.ltb_lt in Hxy.
  destruct i as [|i]; simpl in Ha, Hb; simplify_eq; [done|]. by apply (IH i).
Qed.

Lemma disjoint_filter rs target :
  StronglySorted (λ a b, ir_min a ≤ ir_min b) rs → windows_disjoint rs = true →
  filter (contains target) rs
  = match upper_bound_min rs target with
    | O => []
    | S idx =>
        match rs !! idx with
        | Some r => if target <=? ir_max r then [r] else []
        | None => []
        end
    end.
Proof.
  intros HS Hd.
  assert (Hn : (upper_bound_min rs target ≤ length rs)%nat).
  { apply (bound_loop_spec (S (length rs)) (λ r, ir_min r <=? target) rs 0 (length rs)); try lia.
    - eapply StronglySorted_impl; [|done]. simpl. intros a b Hab.
      rewrite !Is_true_true, !Z.leb_le. lia.
    - intros i r Hi Hge. apply lookup_lt_Some in Hi. lia. }
  pose proof (upper_bound_min_take rs target HS) as Ht.
  replace (filter (contains target) rs)
    with (filter (λ r, target ≤ ir_max r) (filter (λ r, ir_min r ≤ target) rs)).
  2:{ rewrite list_filter_filter. apply filter_ext_in. unfold contains. intros; lia. }
  rewrite <- Ht. destruct (upper_bound_min rs target) as [|idx]; [done|].
  destruct (lookup_lt_is_Some_2 rs idx ltac:(lia)) as [r Hr]. rewrite Hr.
  rewrite (take_S_r _ _ _ Hr), filter_app, (filter_nil_in _ (take idx rs)).
  - simpl. rewrite filter_cons, filter_nil.
    destruct (Z.leb_spec target (ir_max r)); case_decide; done || lia.
  - intros x [i [Hx Hi]%lookup_take_Some]%list_elem_of_lookup.
    assert (Hr' : r ∈ filter (λ r, ir_min r ≤ target) rs).
    { rewrite <- Ht. apply list_elem_of_lookup. exists idx. apply lookup_take_Some. split; [done|lia]. }
    apply list_elem_of_filter in Hr' as [Hr' _].
    destruct (lookup_lt_is_Some_2 rs (S i)) as [y Hy]; [apply lookup_lt_Some in Hr; lia|].
    pose proof (windows_disjoint_lt _ _ _ _ Hd Hx Hy).
    assert (ir_min y ≤ ir_min r).
    { destruct (decide (S i = idx)) as [E|]; [rewrite E in Hy; by simplify_eq|].
      apply (StronglySorted_lookup_lt _ _ _ _ _ _ HS Hy Hr). lia. }
    lia.
Qed.

Lemma LevelRangeIndex_query_build l target out :
  LevelRangeIndex_query (LevelRangeIndex_build l) target out
  ≡ₚ out ++ map ir_descriptor (filter (contains target) l).
Proof.
  unfold LevelRangeIndex_build. set (rs := merge_sort range_le l).
  assert (Hrs : filter (contains target) l ≡ₚ filter (contains target) rs)
    by (subst rs; by rewrite merge_sort_Permutation).
  rewrite Hrs. destruct (windows_disjoint rs) eqn:Hd; cbn [LevelRangeIndex_query].
  - rewrite disjoint_filter by (done || apply range_sorted_min).
    destruct (upper_bound_min rs target); [by rewrite app_nil_r|].
    destruct (rs !! n); [|by rewrite app_nil_r].
    destruct (target <=? ir_max i); [done|by rewrite app_nil_r].
  - rewrite IntervalNode_query_app. unfold OverlapRangeIndex_build.
    by rewrite IntervalNode_build_query by lia.
Qed.

(** ** Buckets *)

(** The range of descriptor [idx]. *)
Definition range_of (ssts : list SstDescriptor) (idx : nat) : option IndexedRange :=
  IndexedRange_new idx <$> ssts !! idx.

(** What the level split of a bucket holds: every pushed range, level 0 apart. *)
Definition split_ranges (acc : list IndexedRange * gmap Z (list IndexedRange)) : list IndexedRange :=
  acc.1 ++ concat (map snd (map_to_list acc.2)).

Lemma concat_insert_push (m : gmap Z (list IndexedRange)) k r :
  concat (map snd (map_to_list (<[k := default [] (m !! k) ++ [r]]> m)))
  ≡ₚ concat (map snd (map_to_list m)) ++ [r].
Proof.
  destruct (m !! k) as [l|] eqn:Hk; simpl.
  - rewrite <- insert_delete_eq, map_to_list_insert by apply lookup_delete_eq. simpl.
    rewrite <- (insert_delete_id m k l) at 2 by done.
    rewrite map_to_list_insert by apply lookup_delete_eq. simpl.
    rewrite <- !(assoc_L (++)). f_equiv. by rewrite (comm (++)).
  - rewrite map_to_list_insert by done. simpl. by rewrite Permutation_cons_append.
Qed.

Lemma bucket_fold ssts ds acc :
  split_ranges (foldl (bucket_step ssts) acc ds) ≡ₚ split_ranges acc ++ omap (range_of ssts) ds.
Proof.
  revert acc. induction ds as [|d ds IH]; intros acc; simpl; [by rewrite app_nil_r|].
  rewrite IH. unfold range_of at 2, bucket_step. destruct (ssts !! d) as [desc|]; simpl; [|done].
  rewrite (cons_middle _ (split_ranges acc)), (assoc_L (++)). f_equiv; [|done]. unfold split_ranges.
  destruct (sst_level desc =? 0); simpl.
  - rewrite <- !(assoc_L (++)). f_equiv. by rewrite (comm (++)).
  - by rewrite concat_insert_push, (assoc_L (++)).
Qed.

Lemma LevelRangeIndex_query_app l target out :
  LevelRangeIndex_query l target out = out ++ LevelRangeIndex_query l target [].
Proof.
  destruct l as [rs|t]; simpl; [|apply IntervalNode_query_app].
  destruct (upper_bound_min rs target); [by rewrite app_nil_r|].
  destruct (rs !! n); [|by rewrite app_nil_r].
  destruct (target <=? ir_max i); [done|by rewrite app_nil_r].
Qed.

Lemma levels_fold levels target out :
  foldl (λ out '(_, level), LevelRangeIndex_query level target out) out levels
  = out ++ concat (map (λ e : Z * LevelRangeIndex, LevelRangeIndex_query e.2 target []) levels).
Proof.
  revert out. induction levels as [|[z l] levels IH]; intros out; simpl; [by rewrite app_nil_r|].
  by rewrite IH, LevelRangeIndex_query_app, <- (assoc_L (++)).
Qed.

Lemma levels_build target (m : list (Z * list IndexedRange)) :
  concat (map (λ e : Z * LevelRangeIndex, LevelRangeIndex_query e.2 target [])
    (map (λ '(level, ranges), (level, LevelRangeIndex_build ranges)) m))
  ≡ₚ map ir_descriptor (filter (contains target) (concat (map snd m))).
Proof.
  induction m as [|[z rs] m IH]; simpl; [done|].
  by rewrite IH, LevelRangeIndex_query_build, filter_app, map_app.
Qed.

Lemma bucket_query_build ds ssts target :
  DescriptorBucket_query (DescriptorBucket_build ds ssts) target
  ≡ₚ map ir_descriptor (filter (contains target) (omap (range_of ssts) ds)).
Proof.
  unfold DescriptorBucket_build, DescriptorBucket_query.
  pose proof (bucket_fold ssts (merge_sort (descriptor_le ssts) ds) ([], ∅)) as Hfold.
  destruct (foldl (bucket_step ssts) _ _) as [l0 by_level]. cbn [bk_l0 bk_levels].
  rewrite levels_fold, merge_sort_Permutation, levels_build.
  unfold OverlapRangeIndex_build. rewrite IntervalNode_build_query by lia.
  rewrite <- map_app, <- filter_app. unfold split_ranges in Hfold. simpl in Hfold.
  rewrite Hfold, map_to_list_empty, merge_sort_Permutation. done.
Qed.

(** ** The whole index *)

Definition lookup2 (g : gmap SstKind (gmap string (list nat))) (k : SstKind) (sc : string)
    : list nat := default [] (default ∅ (g !! k) !! sc).

Definition in_bucket (k : SstKind) (sc : string) (d : SstDescriptor) : Prop :=
  sst_kind d = k ∧ sst_scope d = sc.
#[global] Instance in_bucket_dec k sc d : Decision (in_bucket k sc d).
Proof. unfold in_bucket. apply _. Defined.

Lemma group_step_lookup2 g i d k sc :
  lookup2 (group_step g (i, d)) k sc
  = lookup2 g k sc ++ (if decide (in_bucket k sc d) then [i] else []).
Proof.
  unfold lookup2, group_step, in_bucket. rewrite lookup_insert.
  case_decide as Hk; simpl; subst.
  - rewrite lookup_insert. case_decide as Hs; simpl; subst.
    + by rewrite decide_True.
    + rewrite decide_False by tauto. by rewrite app_nil_r.
  - rewrite decide_False by (intros []; congruence). by rewrite app_nil_r.
Qed.

Lemma group_fold_lookup2 l g k sc :
  lookup2 (foldl group_step g l) k sc
  = lookup2 g k sc ++ map fst (filter (λ e : nat * SstDescriptor, in_bucket k sc e.2) l).
Proof.
  revert g. induction l as [|[i d] l IH]; intros g; cbn [foldl]; [by rewrite app_nil_r|].
  rewrite IH, group_step_lookup2, filter_cons, <- (assoc_L (++)). simpl. by case_decide.
Qed.

Definition bucket_ids (ssts : list SstDescriptor) (k : SstKind) (sc : string) : list nat :=
  map fst (filter (λ e : nat * SstDescriptor, in_bucket k sc e.2) (zip (seq 0 (length ssts)) ssts)).

Lemma bucket_build ssts k sc :
  match bucket (DescriptorIndex_build ssts) k sc with
  | Some b => b = DescriptorBucket_build (bucket_ids ssts k sc) ssts
  | None => bucket_ids ssts k sc = []
  end.
Proof.
  unfold bucket, DescriptorIndex_build. rewrite lookup_fmap.
  set (g := foldl group_step ∅ _).
  assert (Hg : lookup2 g k sc = bucket_ids ssts k sc) by apply group_fold_lookup2.
  unfold lookup2 in Hg. destruct (g !! k) as [scopes|]; simpl in *; [|by rewrite <- Hg].
  rewrite lookup_fmap. destruct (scopes !! sc) as [ids|]; simpl in *; by rewrite <- Hg.
Qed.

(** The descriptors a linear scan of the manifest would return. *)
Definition candidate (k : SstKind) (sc : string) (target : Z) (d : SstDescriptor) : Prop :=
  in_bucket k sc d ∧ sst_min_key d ≤ target ∧ target ≤ sst_max_key d.
#[global] Instance candidate_dec k sc target d : Decision (candidate k sc target d).
Proof. unfold candidate. apply _. Defined.

Definition linear_scan (P : SstDescriptor → Prop) `{∀ d, Decision (P d)} (ssts : list SstDescriptor)
    : list nat :=
  map fst (filter (λ e : nat * SstDescriptor, P e.2) (zip (seq 0 (length ssts)) ssts)).

Lemma zip_seq_lookup {A} (l : list A) n i x :
  (i, x) ∈ zip (seq n (length l)) l → (n ≤ i)%nat ∧ l !! (i - n)%nat = Some x.
Proof.
  revert n. induction l as [|y l IH]; intros n; simpl; [by intros ?%elem_of_nil|].
  intros [[= -> ->]|[Hn Hi]%IH]%elem_of_cons.
  - rewrite Nat.sub_diag. split; [lia|done].
  - split; [lia|]. by replace (i - n)%nat with (S (i - S n))%nat by lia.
Qed.

Lemma omap_range_of ssts (l : list (nat * SstDescriptor)) target :
  (∀ i d, (i, d) ∈ l → ssts !! i = Some d) →
  map ir_descriptor (filter (contains target) (omap (range_of ssts) (map fst l)))
  = map fst (filter (λ e : nat * SstDescriptor,
               sst_min_key e.2 ≤ target ∧ target ≤ sst_max_key e.2) l).
Proof.
  induction l as [|[i d] l IH]; intros Hl; [done|]. simpl. unfold range_of at 1.
  rewrite (Hl i d) by left. simpl. rewrite !filter_cons. simpl.
  specialize (IH ltac:(intros; apply Hl; by right)).
  repeat case_decide; simpl;
    first [exact IH|f_equal; exact IH|exfalso; unfold contains in *; simpl in *; tauto].
Qed.

Lemma lookup_candidates_linear ssts k sc target :
  lookup_candidates (DescriptorIndex_build ssts) k sc target
  ≡ₚ linear_scan (candidate k sc target) ssts.
Proof.
  assert (Hq : map ir_descriptor (filter (contains target)
                 (omap (range_of ssts) (bucket_ids ssts k sc)))
               = linear_scan (candidate k sc target) ssts).
  { unfold bucket_ids, linear_scan. rewrite omap_range_of.
    - rewrite list_filter_filter. f_equal. apply filter_ext_in. unfold candidate. intros; tauto.
    - intros i d [_ Hin]%list_elem_of_filter. apply zip_seq_lookup in Hin as [_ Hin].
      by rewrite Nat.sub_0_r in Hin. }
  unfold lookup_candidates. pose proof (bucket_build ssts k sc) as Hb.
  destruct (bucket _ k sc) as [b|]; [subst b; by rewrite bucket_query_build, Hq|].
  by rewrite <- Hq, Hb.
Qed.

Lemma linear_scan_NoDup P `{∀ d, Decision (P d)} ssts : NoDup (linear_scan P ssts).
Proof.
  unfold linear_scan. eapply (sublist_NoDup _ (seq 0 (length ssts))); [apply NoDup_seq|].
  rewrite <- (fst_zip (seq 0 (length ssts)) ssts) at 2 by (rewrite length_seq; lia).
  apply fmap_sublist, sublist_filter.
Qed.

(** ** Descriptor listings *)

Lemma bucket_ids_linear ssts k sc : bucket_ids ssts k sc = linear_scan (in_bucket k sc) ssts.
Proof. done. Qed.

Lemma scope_descriptors_perm ssts k sc :
  scope_descriptors (DescriptorIndex_build ssts) k sc ≡ₚ linear_scan (in_bucket k sc) ssts.
Proof.
  unfold scope_descriptors. pose proof (bucket_build ssts k sc) as Hb.
  rewrite <- bucket_ids_linear. destruct (bucket _ k sc) as [b|]; [subst b|by rewrite Hb].
  unfold DescriptorBucket_build. destruct (foldl _ _ _). apply merge_sort_Permutation.
Qed.

Lemma all_by_min_build ds ssts :
  all_by_min (DescriptorBucket_build ds ssts) = merge_sort (descriptor_le ssts) ds.
Proof. unfold DescriptorBucket_build. by destruct (foldl _ _ _). Qed.

Lemma elem_of_concat {A} (x : A) ls : x ∈ concat ls ↔ ∃ l, x ∈ l ∧ l ∈ ls.
Proof.
  rewrite list_elem_of_In, in_concat. setoid_rewrite list_elem_of_In.
  split; intros (l & ? & ?); by exists l.
Qed.

(** Flattening a scope map. *)
Lemma concat_scopes {B} (f : string → B → list nat) (g : string → list nat) (m : gmap string B) l :
  (∀ sc b, m !! sc = Some b → f sc b ≡ₚ g sc) →
  (∀ sc, m !! sc = None → g sc = []) →
  (∀ i, i ∈ l ↔ ∃ sc, i ∈ g sc) → NoDup l → (∀ sc, NoDup (g sc)) →
  (∀ i sc sc', i ∈ g sc → i ∈ g sc' → sc = sc') →
  concat (map (λ e, f e.1 e.2) (map_to_list m)) ≡ₚ l.
Proof.
  intros Hf Hnone Hl Hnd Hndg Huniq. apply NoDup_Permutation; [|done|].
  - assert (Hsub : ∀ e, e ∈ map_to_list m → f e.1 e.2 ≡ₚ g e.1).
    { intros [sc b] He%elem_of_map_to_list. by apply Hf. }
    pose proof (NoDup_fst_map_to_list m) as Hfst. revert Hsub Hfst.
    generalize (map_to_list m) as es. induction es as [|[sc b] es IH]; intros Hsub Hfst; [constructor|].
    simpl in *. apply NoDup_cons in Hfst as [Hsc Hfst]. apply NoDup_app. split_and!.
    + rewrite (Hsub (sc, b)) by left. done.
    + intros i Hi Hin. rewrite (Hsub (sc, b)) in Hi by left. simpl in Hi.
      apply elem_of_concat in Hin as (l' & Hil' & Hl').
      apply list_elem_of_fmap in Hl' as ([sc' b'] & -> & He). simpl in Hil'.
      rewrite (Hsub (sc', b')) in Hil' by by right. simpl in Hil'.
      destruct (Huniq i sc sc' Hi Hil'). apply Hsc.
      apply list_elem_of_fmap. by exists (sc, b').
    + apply IH; [|done]. intros e He. apply Hsub. by right.
  - intros i. rewrite Hl. split.
    + intros (l' & Hil' & Hl')%elem_of_concat.
      apply list_elem_of_fmap in Hl' as ([sc' b'] & -> & He%elem_of_map_to_list).
      simpl in Hil'. rewrite (Hf _ _ He) in Hil'. by exists sc'.
    + intros [sc Hi]. destruct (m !! sc) as [b|] eqn:Hb.
      * apply elem_of_concat. exists (f sc b). split; [by rewrite (Hf _ _ Hb)|].
        apply list_elem_of_fmap. exists (sc, b). split; [done|]. by apply elem_of_map_to_list.
      * rewrite Hnone in Hi by done. by apply elem_of_nil in Hi.
Qed.

(** The descriptors of one kind, over every scope. *)
Definition of_kind (k : SstKind) (d : SstDescriptor) : Prop := sst_kind d = k.
#[global] Instance of_kind_dec k d : Decision (of_kind k d).
Proof. unfold of_kind. apply _. Defined.

Definition kind_candidate (k : SstKind) (target : Z) (d : SstDescriptor) : Prop :=
  of_kind k d ∧ sst_min_key d ≤ target ∧ target ≤ sst_max_key d.
#[global] Instance kind_candidate_dec k target d : Decision (kind_candidate k target d).
Proof. unfold kind_candidate. apply _. Defined.

Lemma elem_of_linear_scan P `{∀ d, Decision (P d)} ssts i :
  i ∈ linear_scan P ssts ↔ ∃ d, ssts !! i = Some d ∧ P d.
Proof.
  unfold linear_scan. rewrite list_elem_of_fmap. split.
  - intros ([j d] & -> & [HP Hin]%list_elem_of_filter). apply zip_seq_lookup in Hin as [_ Hin].
    rewrite Nat.sub_0_r in Hin. eauto.
  - intros (d & Hi & HP). exists (i, d). split; [done|]. apply list_elem_of_filter. split; [done|].
    apply list_elem_of_lookup. exists i. pose proof (lookup_lt_Some _ _ _ Hi).
    apply lookup_zip_with_Some. exists i, d. split_and!; [done| |done].
    by rewrite lookup_seq_lt.
Qed.

(** Per-scope scans of one kind flatten to the scan of the kind. *)
Lemma concat_kind {B} (f : string → B → list nat) (m : gmap string B) k
    (Q : SstDescriptor → Prop) (Pk : SstDescriptor → Prop) (Psc : string → SstDescriptor → Prop)
    `{∀ d, Decision (Pk d)} `{∀ sc d, Decision (Psc sc d)} ssts :
  (∀ d, Pk d ↔ sst_kind d = k ∧ Q d) →
  (∀ sc d, Psc sc d ↔ (sst_kind d = k ∧ sst_scope d = sc) ∧ Q d) →
  (∀ sc b, m !! sc = Some b → f sc b ≡ₚ linear_scan (Psc sc) ssts) →
  (∀ sc, m !! sc = None → linear_scan (Psc sc) ssts = []) →
  concat (map (λ e, f e.1 e.2) (map_to_list m)) ≡ₚ linear_scan Pk ssts.
Proof.
  intros HPk HPsc Hf Hnone.
  apply (concat_scopes f (λ sc, linear_scan (Psc sc) ssts)); try done.
  - intros i. rewrite elem_of_linear_scan. setoid_rewrite elem_of_linear_scan.
    split; [intros (d & Hi & HP)|intros (sc & d & Hi & HP)].
    + exists (sst_scope d), d. split; [done|]. apply HPsc. apply HPk in HP. tauto.
    + exists d. split; [done|]. apply HPk. apply HPsc in HP. tauto.
  - apply linear_scan_NoDup.
  - intros sc. apply linear_scan_NoDup.
  - intros i sc sc' (d & Hi & HP)%elem_of_linear_scan (d' & Hi' & HP')%elem_of_linear_scan.
    apply HPsc in HP. apply HPsc in HP'. simplify_eq. destruct HP as [[_ <-] _].
    by destruct HP' as [[_ <-] _].
Qed.

Lemma node_descriptors_perm ssts :
  node_descriptors (DescriptorIndex_build ssts) ≡ₚ linear_scan (of_kind SkNodes) ssts.
Proof.
  unfold node_descriptors. rewrite merge_sort_Permutation.
  apply (concat_kind (λ _ b, all_by_min b) _ SkNodes (λ _, True) _ (in_bucket SkNodes)).
  - unfold of_kind. tauto.
  - unfold in_bucket. tauto.
  - intros sc b Hb. rewrite <- scope_descriptors_perm. unfold scope_descriptors, bucket.
    destruct (_ !! SkNodes) as [scopes|]; simpl in Hb; [by rewrite Hb|by rewrite lookup_empty in Hb].
  - intros sc Hb. pose proof (bucket_build ssts SkNodes sc) as Hbk. unfold bucket in Hbk.
    destruct (_ !! SkNodes) as [scopes|]; simpl in Hb; [by rewrite Hb in Hbk|done].
Qed.

Lemma node_candidates_perm ssts target :
  node_candidates (DescriptorIndex_build ssts) target ≡ₚ linear_scan (kind_candidate SkNodes target) ssts.
Proof.
  unfold node_candidates.
  trans (concat (map (λ e, lookup_candidates (DescriptorIndex_build ssts) SkNodes e.1 target)
    (map_to_list (default ∅ (DescriptorIndex_build ssts !! SkNodes))))).
  { destruct (DescriptorIndex_build ssts !! SkNodes); [done|]. simpl. by rewrite map_to_list_empty. }
  apply (concat_kind (λ sc (_ : DescriptorBucket),
             lookup_candidates (DescriptorIndex_build ssts) SkNodes sc target)
           _ SkNodes (λ d, sst_min_key d ≤ target ∧ target ≤ sst_max_key d)
           _ (λ sc, candidate SkNodes sc target)).
  - unfold kind_candidate, of_kind. tauto.
  - unfold candidate, in_bucket. tauto.
  - intros sc b Hb. by rewrite lookup_candidates_linear.
  - intros sc Hb. apply Permutation_nil_r. rewrite <- lookup_candidates_linear.
    unfold lookup_candidates, bucket.
    destruct (_ !! SkNodes) as [scopes|]; simpl in Hb; [by rewrite Hb|done].
Qed.

Lemma Sorted_strong_on {A} (P : A → Prop) (R : relation A) l :
  (∀ x y z, P x → P y → P z → R x y → R y z → R x z) →
  Forall P l → Sorted R l → StronglySorted R l.
Proof.
  intros Htr. induction l as [|x l IH]; intros HP Hs; [constructor|].
  apply Forall_cons in HP as [Hx HP]. apply Sorted_inv in Hs as [Hs Hhd].
  constructor; [by apply IH|]. specialize (IH HP Hs).
  destruct l as [|y l]; [constructor|]. apply HdRel_inv in Hhd.
  apply Forall_cons in HP as [Hy HP]. apply StronglySorted_inv in IH as [_ Hyl].
  constructor; [done|]. rewrite Forall_forall in HP, Hyl |- *. intros z Hz.
  apply (Htr x y z); auto.
Qed.

#[global] Instance descriptor_le_total ssts : Total (descriptor_le ssts).
Proof. intros i j. unfold descriptor_le. destruct (ssts !! i), (ssts !! j); auto. lia. Qed.

Lemma scope_descriptors_sorted ssts k sc :
  StronglySorted (descriptor_le ssts) (scope_descriptors (DescriptorIndex_build ssts) k sc).
Proof.
  apply (Sorted_strong_on (λ i, is_Some (ssts !! i))).
  - unfold descriptor_le. intros i j l [a ->] [b ->] [c ->]. lia.
  - rewrite scope_descriptors_perm. apply Forall_forall.
    intros i (d & -> & _)%elem_of_linear_scan. done.
  - unfold scope_descriptors. pose proof (bucket_build ssts k sc) as Hb.
    destruct (bucket _ k sc) as [b|]; [|constructor]. subst b.
    rewrite all_by_min_build. apply Sorted_merge_sort, _.
Qed.

Lemma zip_seq_sorted {A} (l : list A) n :
  StronglySorted (λ a b, (a.1 ≤ b.1)%nat) (zip (seq n (length l)) l).
Proof.
  revert n. induction l as [|x l IH]; intros n; simpl; constructor; [apply IH|].
  apply Forall_forall. intros [i y] Hin. apply zip_seq_lookup in Hin. simpl. lia.
Qed.

Lemma linear_scan_sorted P `{∀ d, Decision (P d)} ssts : StronglySorted Nat.le (linear_scan P ssts).
Proof.
  apply StronglySorted_fmap with (R1 := λ a b, (a.1 ≤ b.1)%nat); [done|].
  apply StronglySorted_filter, zip_seq_sorted.
Qed.

(** ** Properties *)

(** For every kind, scope and key, the index returns exactly the SSTs a
    linear scan of the manifest would return: those of that kind and scope whose
    key range contains the key, each once, whatever their levels, overlaps or
    malformed ranges. *)
Theorem lookup_candidates_correct ssts kind scope target :
  lookup_candidates (DescriptorIndex_build ssts) kind scope target
    ≡ₚ linear_scan (candidate kind scope target) ssts ∧
  NoDup (lookup_candidates (DescriptorIndex_build ssts) kind scope target).
Proof.
  rewrite lookup_candidates_linear. split; [done|]. apply linear_scan_NoDup.
Qed.

(** the listings agree with the manifest: a scope's descriptors are exactly the
    SSTs of that kind and scope, ordered by the build key; the node descriptors are
    exactly the node SSTs, in manifest order; and the node candidates of a key are
    the node SSTs, of any scope, whose range contains it. *)
Theorem index_listings_correct ssts kind scope target :
  let ix := DescriptorIndex_build ssts in
  (scope_descriptors ix kind scope ≡ₚ linear_scan (in_bucket kind scope) ssts ∧
   StronglySorted (descriptor_le ssts) (scope_descriptors ix kind scope)) ∧
  node_descriptors ix = linear_scan (of_kind SkNodes) ssts ∧
  node_candidates ix target ≡ₚ linear_scan (kind_candidate SkNodes target) ssts.
Proof.
  simpl. split_and!; [apply scope_descriptors_perm|apply scope_descriptors_sorted| |
                      apply node_candidates_perm].
  apply (StronglySorted_unique Nat.le).
  - apply StronglySorted_merge_sort; apply _.
  - apply linear_scan_sorted.
  - apply node_descriptors_perm.
Qed.
