(* ===== verification/Paths.v ===== *)
(** Object-store key conventions ([paths.rs]) and namespace identifiers
    ([namidb-core/src/id.rs]).

    [object_store::path::Path] belongs to another crate: a path is the string it
    holds, and [path_from] ([Path::from]) and [filename] are operations of the
    class [PathLib], with their documented behaviour on canonical paths as laws.
    The keys the manifest protocol needs are offered to it as the interface
    [KeySpace], which [keyspace_of] discharges for every validated namespace. *)
From Stdlib Require Import Ascii.
From S2P Require Import Prelude.

#[local] Ltac Zify.zify_post_hook ::= Z.to_euclidean_division_equations.

(** ** Hexadecimal *)

Definition hex_digit (d : Z) : ascii :=
  ascii_of_nat (Z.to_nat (if d <? 10 then 48 + d else 87 + d)).

(** The digits of [n], most significant first; sixteen cover a [u64]. *)
Fixpoint hex_digits (fuel : nat) (n : Z) (acc : string) : string :=
  match fuel with
  | O => acc
  | S fuel' =>
      let acc := String (hex_digit (n mod 16)) acc in
      if n <? 16 then acc else hex_digits fuel' (n / 16) acc
  end.

Fixpoint zeros (k : nat) (s : string) : string :=
  match k with O => s | S k' => String "0" (zeros k' s) end.

(** [format!("{n:0width$x}")] *)
Definition pad_hex (n : Z) (width : nat) : string :=
  let digits := hex_digits 16 n "" in
  zeros (width - String.length digits) digits.

Definition from_hex_digit (c : ascii) : option Z :=
  let v := Z.of_nat (nat_of_ascii c) in
  if (48 <=? v) && (v <=? 57) then Some (v - 48)
  else if (97 <=? v) && (v <=? 102) then Some (v - 87)
  else if (65 <=? v) && (v <=? 70) then Some (v - 55)
  else None.

(** [u64::from_str_radix(s, 16).ok()]: an optional [+], at least one digit, no
    overflow. *)
Fixpoint radix_loop (s : string) (acc : Z) : option Z :=
  match s with
  | EmptyString => Some acc
  | String c rest =>
      match from_hex_digit c with
      | None => None
      | Some d =>
          let v := acc * 16 + d in
          if u64_max <? v then None else radix_loop rest v
      end
  end.
Definition from_str_radix_16 (s : string) : option Z :=
  match s with
  | EmptyString => None
  | String c rest =>
      if Ascii.eqb c "+" then
        match rest with EmptyString => None | _ => radix_loop rest 0 end
      else radix_loop s 0
  end.

(** ** Namespace identifiers *)

Inductive CoreError := InvalidId (msg : string).

Definition is_ascii_lowercase (c : ascii) : bool :=
  let v := nat_of_ascii c in ((97 <=? v) && (v <=? 122))%nat.
Definition is_ascii_digit (c : ascii) : bool :=
  let v := nat_of_ascii c in ((48 <=? v) && (v <=? 57))%nat.

Fixpoint all_chars (p : ascii → bool) (s : string) : bool :=
  match s with EmptyString => true | String c rest => p c && all_chars p rest end.

Definition namespace_char (c : ascii) : bool :=
  is_ascii_lowercase c || is_ascii_digit c || Ascii.eqb c "-" || Ascii.eqb c "_".

Definition NamespaceId_new (name : string) : result CoreError string :=
  if (String.length name =? 0)%nat || (63 <? String.length name)%nat
  then Err (InvalidId "invalid length (1..=63)")
  else match name with
       | EmptyString => Err (InvalidId "invalid length (1..=63)")
       | String first _ =>
           if negb (is_ascii_lowercase first || is_ascii_digit first)
           then Err (InvalidId "must start with [a-z0-9]")
           else if negb (all_chars namespace_char name)
           then Err (InvalidId "contains invalid char")
           else Ok name
       end.

(** ** Paths *)

Abbreviation Path := string (only parsing).

(** Segments [Path::from] keeps verbatim. *)
Definition clean_char (c : ascii) : bool :=
  let v := nat_of_ascii c in
  ((97 <=? v) && (v <=? 122) || (65 <=? v) && (v <=? 90) || (48 <=? v) && (v <=? 57))%nat
  || Ascii.eqb c "-" || Ascii.eqb c "_" || Ascii.eqb c ".".
Definition clean_segment (s : string) : bool :=
  negb (String.eqb s "") && negb (String.eqb s ".") && negb (String.eqb s "..")
  && all_chars clean_char s.

Class PathLib := {
  path_from : string → Path;
  filename : Path → option string;
  (** [Path::from] is the identity on a path of clean segments. *)
  path_from_clean segs :
    Forall (λ s, clean_segment s = true) segs →
    path_from (String.concat "/" segs) = String.concat "/" segs;
  (** the filename is the last segment *)
  filename_last dir f :
    clean_segment f = true → filename (dir +:+ "/" +:+ f) = Some f;
}.

Record NamespacePaths := { np_root : string; np_namespace : string }.

Fixpoint trim_start (s : string) : string :=
  match s with String "/"%char rest => trim_start rest | _ => s end.
(** Dropping the trailing slashes, from the right end. *)
Fixpoint trim_end (s : string) : string :=
  match s with
  | EmptyString => EmptyString
  | String c rest =>
      match trim_end rest with
      | EmptyString => if Ascii.eqb c "/" then EmptyString else String c EmptyString
      | rest' => String c rest'
      end
  end.
Definition NamespacePaths_new (root_prefix namespace : string) : NamespacePaths :=
  {| np_root := trim_end (trim_start root_prefix); np_namespace := namespace |}.

(** The loop of [join]: [buf] followed by [/segment] for every segment. *)
Fixpoint push_segments (buf : string) (segments : list string) : string :=
  match segments with
  | [] => buf
  | s :: rest => push_segments (buf +:+ "/" +:+ s) rest
  end.

Section Renderers.
Context `{PathLib} (paths : NamespacePaths).

Definition join (segments : list string) : Path :=
  let buf := if String.eqb (np_root paths) "" then "" else np_root paths +:+ "/" in
  let buf := buf +:+ np_namespace paths in
  path_from (push_segments buf segments).

Definition np_namespace_prefix : Path := join [].
Definition np_manifest_dir : Path := join ["manifest"].
Definition np_current_pointer : Path := join ["manifest"; "current.json"].
Definition np_manifest_version (version : Z) : Path :=
  join ["manifest"; "v" +:+ pad_hex version 16 +:+ ".json"].
Definition np_pointer_dir : Path := join ["manifest"; "pointer"].
Definition np_pointer_version (version : Z) : Path :=
  join ["manifest"; "pointer"; "p" +:+ pad_hex version 16 +:+ ".json"].
Definition np_pins_dir : Path := join ["manifest"; "pins"].
Definition np_pin_object (id : string) : Path := join ["manifest"; "pins"; id +:+ ".json"].
Definition np_wal_dir : Path := join ["wal"].
Definition np_wal_segment (seq : Z) : Path := join ["wal"; pad_hex seq 16 +:+ ".wal"].
Definition np_snapshots_dir : Path := join ["snapshots"].
Definition np_snapshot (name : string) : Path := join ["snapshots"; name +:+ ".json"].
Definition np_memtable_snapshot : Path := join ["memtable_snapshot.bin"].

(** [str::strip_prefix('p')] and [str::strip_suffix(s)] *)
Definition strip_prefix_char (c : ascii) (s : string) : option string :=
  match s with String c' rest => if Ascii.eqb c' c then Some rest else None | _ => None end.
Definition strip_suffix (suffix s : string) : option string :=
  let k := (String.length s - String.length suffix)%nat in
  let stem := String.substring 0 k s in
  if String.eqb (stem +:+ suffix) s then Some stem else None.

Definition parse_pointer_version (location : Path) : option Z :=
  match filename location with
  | None => None
  | Some f =>
      match strip_prefix_char "p" f with
      | None => None
      | Some f =>
          match strip_suffix ".json" f with
          | None => None
          | Some hex => from_str_radix_16 hex
          end
      end
  end.
End Renderers.

(** ** The key interface of the manifest protocol *)

(** [k] is listed under the prefix [dir]: prefixes are evaluated by segment. *)
Definition under (dir k : Path) : bool := String.prefix (dir +:+ "/") k.

Class KeySpace := {
  namespace_prefix : Path;
  current_pointer : Path;
  pointer_dir : Path;
  wal_dir : Path;
  manifest_dir : Path;
  pins_dir : Path;
  memtable_snapshot : Path;
  manifest_version : Z → Path;
  pointer_version : Z → Path;
  wal_segment : Z → Path;
  pin_object : string → Path;
  key_from : string → Path;
  key_filename : Path → option string;
  pointer_number : Path → option Z;
  manifest_version_inj m n :
    is_u64 m → is_u64 n → manifest_version m = manifest_version n → m = n;
  pointer_version_inj m n :
    is_u64 m → is_u64 n → pointer_version m = pointer_version n → m = n;
  key_from_manifest n : key_from (manifest_version n) = manifest_version n;
  pointer_number_version n : is_u64 n → pointer_number (pointer_version n) = Some n;
  pointer_listed n : under pointer_dir (pointer_version n) = true;
  manifest_not_listed n : under pointer_dir (manifest_version n) = false;
  current_not_listed : under pointer_dir current_pointer = false;
  wal_not_listed n : under pointer_dir (wal_segment n) = false;
  current_not_manifest n : current_pointer ≠ manifest_version n;
  wal_not_manifest m n : wal_segment m ≠ manifest_version n;
  wal_not_current n : wal_segment n ≠ current_pointer;
  wal_segment_inj m n : is_u64 m → is_u64 n → wal_segment m = wal_segment n → m = n;
  wal_listed n : under wal_dir (wal_segment n) = true;
  wal_filename n : key_filename (wal_segment n) = Some (pad_hex n 16 +:+ ".wal");
  manifest_not_in_wal n : under wal_dir (manifest_version n) = false;
  pointer_not_in_wal n : under wal_dir (pointer_version n) = false;
  current_not_in_wal : under wal_dir current_pointer = false;
  snapshot_not_in_wal : under wal_dir memtable_snapshot = false;
  snapshot_not_listed : under pointer_dir memtable_snapshot = false;
  snapshot_not_current : memtable_snapshot ≠ current_pointer;
  snapshot_not_manifest n : memtable_snapshot ≠ manifest_version n;
  (** where each key lies below the namespace prefix *)
  ks_manifest_dir : manifest_dir = namespace_prefix +:+ "/manifest";
  ks_pins_dir : pins_dir = namespace_prefix +:+ "/manifest/pins";
  ks_pointer_dir : pointer_dir = namespace_prefix +:+ "/manifest/pointer";
  ks_sst_root : key_from (namespace_prefix +:+ "/sst") = namespace_prefix +:+ "/sst";
  ks_wal_dir : wal_dir = namespace_prefix +:+ "/wal";
  ks_snapshot : memtable_snapshot = namespace_prefix +:+ "/memtable_snapshot.bin";
  ks_current : current_pointer = namespace_prefix +:+ "/manifest/current.json";
  ks_manifest n :
    manifest_version n = namespace_prefix +:+ "/manifest/v" +:+ pad_hex n 16 +:+ ".json";
  ks_pointer n :
    pointer_version n = namespace_prefix +:+ "/manifest/pointer/p" +:+ pad_hex n 16 +:+ ".json";
  ks_wal n : wal_segment n = namespace_prefix +:+ "/wal/" +:+ pad_hex n 16 +:+ ".wal";
  ks_pin id :
    clean_segment (id +:+ ".json") = true →
    pin_object id = namespace_prefix +:+ "/manifest/pins/" +:+ id +:+ ".json";
  manifest_filename n : key_filename (manifest_version n) = Some ("v" +:+ pad_hex n 16 +:+ ".json");
  pointer_filename n : key_filename (pointer_version n) = Some ("p" +:+ pad_hex n 16 +:+ ".json");
  current_filename : key_filename current_pointer = Some "current.json";
}.

(** ** Hexadecimal lemmas *)

(** Exactly [w] digits of [n], before [acc]. *)
Fixpoint hex_fixed (w : nat) (n : Z) (acc : string) : string :=
  match w with
  | O => acc
  | S w' => hex_fixed w' (n / 16) (String (hex_digit (n mod 16)) acc)
  end.

Lemma hex_fixed_zero w acc : hex_fixed w 0 acc = zeros w acc.
Proof.
  revert acc. induction w as [|w IH]; intros acc; [done|]. cbn [hex_fixed].
  rewrite Zdiv_0_l, Zmod_0_l, IH. clear IH. change (hex_digit 0) with "0"%char.
  induction w as [|w IH]; [done|]. simpl in *. by rewrite IH.
Qed.

Lemma hex_digits_length fuel n acc :
  (fuel > 0)%nat → (String.length acc < String.length (hex_digits fuel n acc))%nat.
Proof.
  revert n acc. induction fuel as [|fuel IH]; intros n acc Hf; [lia|]. cbn [hex_digits].
  case_match; simpl; [lia|]. destruct fuel as [|fuel]; [simpl; lia|].
  specialize (IH (n / 16) (String (hex_digit (n mod 16)) acc)). simpl in IH |- *. lia.
Qed.

Lemma pad_hex_fixed w n acc :
  (w > 0)%nat → 0 ≤ n < 16 ^ Z.of_nat w →
  zeros (w - (String.length (hex_digits w n acc) - String.length acc)) (hex_digits w n acc)
  = hex_fixed w n acc.
Proof.
  revert n acc. induction w as [|w IH]; intros n acc Hw Hn; [lia|]. cbn [hex_fixed hex_digits].
  destruct (Z.ltb_spec n 16) as [Hlt|Hge].
  - rewrite (Z.div_small n 16) by lia. rewrite hex_fixed_zero. f_equal. simpl. lia.
  - rewrite Nat2Z.inj_succ, Z.pow_succ_r in Hn by lia.
    destruct (decide (w = 0%nat)) as [->|Hw0]; [simpl in Hn; lia|].
    rewrite <- IH by lia. f_equal. simpl.
    pose proof (hex_digits_length w (n / 16) (String (hex_digit (n mod 16)) acc)). simpl in *. lia.
Qed.

Lemma pad_hex_16 n : is_u64 n → pad_hex n 16 = hex_fixed 16 n "".
Proof.
  intros Hn. unfold pad_hex. rewrite <- pad_hex_fixed; [|lia|unfold is_uint in Hn; lia].
  f_equal. simpl String.length. lia.
Qed.

Lemma hex_fixed_length w n acc :
  String.length (hex_fixed w n acc) = (w + String.length acc)%nat.
Proof.
  revert n acc. induction w as [|w IH]; intros n acc; [done|]. cbn [hex_fixed].
  rewrite IH. simpl. lia.
Qed.

Ltac digit_cases d :=
  let H := fresh in
  assert (H : d = 0 ∨ d = 1 ∨ d = 2 ∨ d = 3 ∨ d = 4 ∨ d = 5 ∨ d = 6 ∨ d = 7 ∨ d = 8
            ∨ d = 9 ∨ d = 10 ∨ d = 11 ∨ d = 12 ∨ d = 13 ∨ d = 14 ∨ d = 15) by lia;
  repeat (destruct H as [->|H]); try subst d.

Lemma hex_digit_chars (p : ascii → bool) :
  (all_chars p "0123456789abcdef" = true) → ∀ d, 0 ≤ d < 16 → p (hex_digit d) = true.
Proof.
  intros Hp d Hd. simpl in Hp.
  repeat match type of Hp with _ && _ = true => apply andb_prop in Hp as [? Hp] end.
  digit_cases d; done.
Qed.

Lemma hex_digit_inv d : 0 ≤ d < 16 → from_hex_digit (hex_digit d) = Some d.
Proof. intros Hd. digit_cases d; reflexivity. Qed.

Lemma hex_digit_compare d e :
  0 ≤ d < 16 → 0 ≤ e < 16 → Ascii.compare (hex_digit d) (hex_digit e) = (d ?= e).
Proof. intros Hd He. digit_cases d; digit_cases e; reflexivity. Qed.

Lemma mod16_range n : 0 ≤ n mod 16 < 16.
Proof. apply Z.mod_pos_bound. lia. Qed.

Lemma hex_fixed_chars p w n acc :
  all_chars p "0123456789abcdef" = true →
  all_chars p (hex_fixed w n acc) = all_chars p acc.
Proof.
  intros Hp. revert n acc. induction w as [|w IH]; intros n acc; [done|]. cbn [hex_fixed].
  rewrite IH. cbn [all_chars]. by rewrite (hex_digit_chars p Hp _ (mod16_range n)).
Qed.

Lemma radix_loop_fixed w n acc a :
  0 ≤ n < 16 ^ Z.of_nat w → 0 ≤ a → a * 16 ^ Z.of_nat w + n ≤ u64_max →
  radix_loop (hex_fixed w n acc) a = radix_loop acc (a * 16 ^ Z.of_nat w + n).
Proof.
  revert n acc. induction w as [|w IH]; intros n acc Hn Ha Hmax; cbn [hex_fixed].
  { simpl in *. f_equal. lia. }
  rewrite Nat2Z.inj_succ, Z.pow_succ_r in * by lia.
  rewrite IH by nia. cbn [radix_loop]. rewrite hex_digit_inv by apply mod16_range.
  set (P := 16 ^ Z.of_nat w) in *.
  replace ((a * P + n / 16) * 16 + n mod 16) with (a * (16 * P) + n) by nia.
  by rewrite (proj2 (Z.ltb_ge _ _)) by lia.
Qed.

Lemma compare_hex_fixed w m n a b :
  0 ≤ m < 16 ^ Z.of_nat w → 0 ≤ n < 16 ^ Z.of_nat w →
  String.compare (hex_fixed w m a) (hex_fixed w n b)
  = match m ?= n with Eq => String.compare a b | c => c end.
Proof.
  revert m n a b. induction w as [|w IH]; intros m n a b Hm Hn; cbn [hex_fixed].
  { simpl in *. by replace m with n by lia; rewrite Z.compare_refl. }
  rewrite Nat2Z.inj_succ, Z.pow_succ_r in * by lia. rewrite IH by nia. cbn [String.compare].
  rewrite hex_digit_compare by apply mod16_range.
  pose proof (mod16_range m). pose proof (mod16_range n).
  destruct (Z.compare_spec (m / 16) (n / 16)), (Z.compare_spec m n), (Z.compare_spec (m mod 16) (n mod 16));
    first [reflexivity|exfalso; nia].
Qed.

Lemma hex_fixed_app w n acc post : hex_fixed w n acc +:+ post = hex_fixed w n (acc +:+ post).
Proof.
  revert n acc. induction w as [|w IH]; intros n acc; [done|]. cbn [hex_fixed]. by rewrite IH.
Qed.

#[local] Arguments hex_fixed : simpl never.
#[local] Arguments hex_digits : simpl never.

(** ** String lemmas *)

Lemma string_app_cons x a b : String x a +:+ b = String x (a +:+ b).
Proof. reflexivity. Qed.

Lemma string_app_assoc a b c : (a +:+ b) +:+ c = a +:+ b +:+ c.
Proof. induction a as [|x a IH]; [done|]. by rewrite !string_app_cons, IH. Qed.

Lemma string_app_nil_r s : s +:+ "" = s.
Proof. induction s as [|x s IH]; [done|]. by rewrite string_app_cons, IH. Qed.

Lemma string_length_app a b :
  String.length (a +:+ b) = (String.length a + String.length b)%nat.
Proof. induction a as [|x a IH]; [done|]. rewrite string_app_cons. simpl. by rewrite IH. Qed.

Lemma all_chars_app p a b : all_chars p (a +:+ b) = all_chars p a && all_chars p b.
Proof.
  induction a as [|x a IH]; [done|]. rewrite string_app_cons. simpl. by rewrite IH, andb_assoc.
Qed.

Lemma substring_app a b : String.substring 0 (String.length a) (a +:+ b) = a.
Proof.
  induction a as [|x a IH]; [by destruct b|]. rewrite string_app_cons. simpl. by rewrite IH.
Qed.

Lemma strip_suffix_app suffix s : strip_suffix suffix (s +:+ suffix) = Some s.
Proof.
  unfold strip_suffix. rewrite string_length_app, Nat.add_sub, substring_app.
  by rewrite String.eqb_refl.
Qed.

Lemma string_app_inv_tail a b s : a +:+ s = b +:+ s → a = b.
Proof.
  intros E. assert (Hs : strip_suffix s (a +:+ s) = strip_suffix s (b +:+ s)) by by rewrite E.
  rewrite !strip_suffix_app in Hs. by injection Hs.
Qed.

Lemma prefix_app a b c : String.prefix (a +:+ b) (a +:+ c) = String.prefix b c.
Proof.
  induction a as [|x a IH]; [done|]. rewrite !string_app_cons. simpl. rewrite IH.
  by destruct (ascii_dec x x).
Qed.

Lemma prefix_nil s : String.prefix "" s = true.
Proof. by destruct s. Qed.

Lemma compare_app a b c : String.compare (a +:+ b) (a +:+ c) = String.compare b c.
Proof.
  induction a as [|x a IH]; [done|]. rewrite !string_app_cons. simpl.
  rewrite IH. destruct (Ascii.compare x x) eqn:E; [done| |];
    pose proof (Ascii.compare_antisym x x) as Ha; by rewrite E in Ha.
Qed.

(** ** Joining segments *)

Lemma push_segments_app buf s segs :
  push_segments (buf +:+ s) segs = buf +:+ push_segments s segs.
Proof.
  revert s. induction segs as [|x segs IH]; intros s; [done|]. cbn [push_segments].
  by rewrite string_app_assoc, IH.
Qed.

Lemma concat_cons_push x segs : String.concat "/" (x :: segs) = push_segments x segs.
Proof.
  revert x. induction segs as [|y segs IH]; intros x; [done|].
  cbn [push_segments]. rewrite <- IH. clear IH.
  change (String.concat "/" (x :: y :: segs))
    with (x +:+ "/" +:+ String.concat "/" (y :: segs)).
  destruct segs as [|z segs]; [done|]. cbn [String.concat]. by rewrite !string_app_assoc.
Qed.

Lemma concat_app_push segs ns more :
  Forall (λ s, clean_segment s = true) segs →
  String.concat "/" (segs ++ ns :: more)
  = push_segments ((if String.eqb (String.concat "/" segs) "" then ""
                    else String.concat "/" segs +:+ "/") +:+ ns) more.
Proof.
  intros Hc. destruct segs as [|x segs]; [apply concat_cons_push|].
  assert (String.eqb (String.concat "/" (x :: segs)) "" = false) as ->.
  { apply Forall_cons in Hc as [Hx _]. destruct x as [|c x]; [done|]. by destruct segs. }
  cbn [app]. rewrite !concat_cons_push. clear Hc. revert x.
  induction segs as [|y segs IH]; intros x; cbn [app push_segments].
  - by rewrite string_app_assoc.
  - by rewrite IH.
Qed.

(** A namespace whose root and name are made of clean segments. *)
Definition wf_paths (p : NamespacePaths) : Prop :=
  clean_segment (np_namespace p) = true ∧
  ∃ segs, Forall (λ s, clean_segment s = true) segs ∧ np_root p = String.concat "/" segs.

(** The prefix of every key of a namespace. *)
Definition base_of (p : NamespacePaths) : string :=
  (if String.eqb (np_root p) "" then "" else np_root p +:+ "/") +:+ np_namespace p.

Lemma join_clean `{PathLib} p segs :
  wf_paths p → Forall (λ s, clean_segment s = true) segs →
  join p segs = push_segments (base_of p) segs.
Proof.
  intros [Hns (root & Hroot & Er)] Hsegs. unfold join, base_of. rewrite Er.
  rewrite <- (concat_app_push root _ segs Hroot). apply path_from_clean.
  apply Forall_app. split; [done|]. by constructor.
Qed.

Lemma clean_chars s :
  all_chars clean_char s = true → (2 < String.length s)%nat → clean_segment s = true.
Proof.
  intros Hc Hl. unfold clean_segment. rewrite Hc. destruct s as [|a [|b [|c s]]]; simpl in Hl; try lia.
  cbn [String.eqb]. by destruct (Ascii.eqb a "."), (Ascii.eqb b ".").
Qed.

Lemma pad_hex_chars p n w :
  all_chars p "0123456789abcdef" = true → all_chars p (pad_hex n w) = true.
Proof.
  intros Hp. unfold pad_hex. cbv zeta. generalize (w - String.length (hex_digits 16 n ""))%nat.
  assert (Hz : p "0"%char = true) by by apply (hex_digit_chars p Hp 0).
  intros k. induction k as [|k IH]; [|cbn [zeros all_chars]; by rewrite Hz, IH]. cbn [zeros].
  assert (Hd : ∀ fuel m acc, all_chars p acc = true → all_chars p (hex_digits fuel m acc) = true).
  { induction fuel as [|fuel IH]; intros m acc Ha; [done|]. unfold hex_digits; fold hex_digits.
    assert (all_chars p (String (hex_digit (m mod 16)) acc) = true).
    { cbn [all_chars]. by rewrite (hex_digit_chars p Hp _ (mod16_range m)). }
    case_match; [done|]. by apply IH. }
  by apply Hd.
Qed.

Lemma hex_segment_clean pre n post :
  all_chars clean_char pre = true → all_chars clean_char post = true →
  (2 < String.length post)%nat →
  clean_segment (pre +:+ pad_hex n 16 +:+ post) = true.
Proof.
  intros Hpre Hpost Hl. apply clean_chars.
  - rewrite !all_chars_app, Hpre, Hpost, pad_hex_chars by done. done.
  - rewrite !string_length_app. lia.
Qed.

(** Segment lists ending in a hexadecimal file name. *)
Ltac hex_clean :=
  repeat first
    [ apply Forall_nil_2
    | apply Forall_cons_2; [first [apply hex_segment_clean; [reflexivity|reflexivity|cbn; lia]
                                  |apply (hex_segment_clean ""); [reflexivity|reflexivity|cbn; lia]
                                  |reflexivity]|] ].

Lemma from_str_radix_pad_hex n : is_u64 n → from_str_radix_16 (pad_hex n 16) = Some n.
Proof.
  intros Hn. rewrite pad_hex_16 by done.
  assert (Hl : radix_loop (hex_fixed 16 n "") 0 = Some n).
  { unfold is_uint in Hn. rewrite radix_loop_fixed by (unfold u64_max; lia). done. }
  assert (Hp : all_chars (λ c, negb (Ascii.eqb c "+")) (hex_fixed 16 n "") = true)
    by by rewrite hex_fixed_chars.
  pose proof (hex_fixed_length 16 n "") as Hlen.
  destruct (hex_fixed 16 n "") as [|c s]; [done|]. simpl in Hp. unfold from_str_radix_16.
  by destruct (Ascii.eqb c "+").
Qed.

Lemma pad_hex_inj m n : is_u64 m → is_u64 n → pad_hex m 16 = pad_hex n 16 → m = n.
Proof.
  intros Hm Hn E. pose proof (from_str_radix_pad_hex m Hm) as Em.
  rewrite E, from_str_radix_pad_hex in Em by done. by injection Em.
Qed.

(** ** The namespace keys implement the interface *)

Section Instance_.
Context `{PathLib} (p : NamespacePaths) (Hp : wf_paths p).

Lemma manifest_version_eq n :
  np_manifest_version p n = base_of p +:+ "/manifest/v" +:+ pad_hex n 16 +:+ ".json".
Proof.
  unfold np_manifest_version. rewrite join_clean; [|done|].
  - cbn [push_segments]. by rewrite !string_app_assoc.
  - hex_clean.
Qed.

Lemma pointer_version_eq n :
  np_pointer_version p n = base_of p +:+ "/manifest/pointer/p" +:+ pad_hex n 16 +:+ ".json".
Proof.
  unfold np_pointer_version. rewrite join_clean; [|done|].
  - cbn [push_segments]. by rewrite !string_app_assoc.
  - hex_clean.
Qed.

Lemma wal_segment_eq n :
  np_wal_segment p n = base_of p +:+ "/wal/" +:+ pad_hex n 16 +:+ ".wal".
Proof.
  unfold np_wal_segment. rewrite join_clean; [|done|].
  - cbn [push_segments]. by rewrite !string_app_assoc.
  - hex_clean.
Qed.

Lemma current_pointer_eq : np_current_pointer p = base_of p +:+ "/manifest/current.json".
Proof.
  unfold np_current_pointer. rewrite join_clean by (done || by repeat constructor).
  cbn [push_segments]. by rewrite !string_app_assoc.
Qed.

Lemma wal_dir_eq : np_wal_dir p = base_of p +:+ "/wal".
Proof.
  unfold np_wal_dir. rewrite join_clean by (done || by repeat constructor).
  cbn [push_segments]. by rewrite ?string_app_assoc.
Qed.

Lemma memtable_snapshot_eq : np_memtable_snapshot p = base_of p +:+ "/memtable_snapshot.bin".
Proof.
  unfold np_memtable_snapshot. rewrite join_clean by (done || by repeat constructor).
  cbn [push_segments]. by rewrite ?string_app_assoc.
Qed.

Lemma under_wal_dir a :
  under (np_wal_dir p) (base_of p +:+ a) = String.prefix "/wal/" a.
Proof. unfold under. by rewrite wal_dir_eq, string_app_assoc, prefix_app. Qed.

Lemma pointer_dir_eq : np_pointer_dir p = base_of p +:+ "/manifest/pointer".
Proof.
  unfold np_pointer_dir. rewrite join_clean by (done || by repeat constructor).
  cbn [push_segments]. by rewrite !string_app_assoc.
Qed.

Lemma namespace_prefix_eq : np_namespace_prefix p = base_of p.
Proof. unfold np_namespace_prefix. by rewrite join_clean by (done || by constructor). Qed.

Lemma manifest_dir_eq : np_manifest_dir p = base_of p +:+ "/manifest".
Proof.
  unfold np_manifest_dir. rewrite join_clean by (done || by repeat constructor).
  cbn [push_segments]. by rewrite ?string_app_assoc.
Qed.

Lemma pins_dir_eq : np_pins_dir p = base_of p +:+ "/manifest/pins".
Proof.
  unfold np_pins_dir. rewrite join_clean by (done || by repeat constructor).
  cbn [push_segments]. by rewrite !string_app_assoc.
Qed.

Lemma pin_object_eq id :
  clean_segment (id +:+ ".json") = true →
  np_pin_object p id = base_of p +:+ "/manifest/pins/" +:+ id +:+ ".json".
Proof.
  intros Hid. unfold np_pin_object. rewrite join_clean by (done || by repeat constructor).
  cbn [push_segments]. by rewrite !string_app_assoc.
Qed.

(** A clean last segment is the filename. *)
Lemma filename_below pre f :
  clean_segment f = true → filename (base_of p +:+ (pre +:+ "/") +:+ f) = Some f.
Proof. intros Hf. rewrite string_app_assoc, <- string_app_assoc. by apply filename_last. Qed.

(** Two keys of the namespace compare by what follows the common prefix. *)
Lemma base_cancel a b : base_of p +:+ a = base_of p +:+ b → a = b.
Proof. apply String.app_inj. Qed.

Lemma parse_pointer_version_eq n :
  is_u64 n → parse_pointer_version (np_pointer_version p n) = Some n.
Proof.
  intros Hn. rewrite pointer_version_eq. unfold parse_pointer_version.
  change ("/manifest/pointer/p" +:+ pad_hex n 16 +:+ ".json")
    with ("/manifest/pointer" +:+ "/" +:+ "p" +:+ pad_hex n 16 +:+ ".json").
  rewrite <- string_app_assoc, filename_last
    by (apply (hex_segment_clean "p"); [reflexivity|reflexivity|cbn; lia]).
  change ("p" +:+ pad_hex n 16 +:+ ".json") with (String "p" (pad_hex n 16 +:+ ".json")).
  cbn [strip_prefix_char]. rewrite Ascii.eqb_refl, strip_suffix_app.
  by apply from_str_radix_pad_hex.
Qed.

Lemma under_pointer_dir a :
  under (np_pointer_dir p) (base_of p +:+ a) = String.prefix "/manifest/pointer/" a.
Proof. unfold under. by rewrite pointer_dir_eq, string_app_assoc, prefix_app. Qed.

#[refine] Definition keyspace_of : KeySpace := {|
  namespace_prefix := np_namespace_prefix p;
  current_pointer := np_current_pointer p;
  pointer_dir := np_pointer_dir p;
  wal_dir := np_wal_dir p;
  manifest_dir := np_manifest_dir p;
  pins_dir := np_pins_dir p;
  memtable_snapshot := np_memtable_snapshot p;
  manifest_version := np_manifest_version p;
  pointer_version := np_pointer_version p;
  wal_segment := np_wal_segment p;
  pin_object := np_pin_object p;
  key_from := path_from;
  key_filename := filename;
  pointer_number := parse_pointer_version;
|}.
Proof.
  - intros m n Hm Hn. rewrite !manifest_version_eq. intros E%base_cancel%String.app_inj.
    by apply string_app_inv_tail, pad_hex_inj in E.
  - intros m n Hm Hn. rewrite !pointer_version_eq. intros E%base_cancel%String.app_inj.
    by apply string_app_inv_tail, pad_hex_inj in E.
  - intros n. unfold np_manifest_version at 1. rewrite join_clean; [|done|];
      [|hex_clean].
    destruct Hp as [Hns (root & Hroot & Er)]. unfold np_manifest_version.
    rewrite join_clean; [|done|hex_clean].
    unfold base_of. rewrite Er, <- concat_app_push by done. apply path_from_clean.
    apply Forall_app. split; [done|]. constructor; [done|]. hex_clean.
  - apply parse_pointer_version_eq.
  - intros n. rewrite pointer_version_eq, under_pointer_dir.
    change "/manifest/pointer/p" with ("/manifest/pointer/" +:+ "p").
    rewrite string_app_assoc. rewrite <- (string_app_nil_r "/manifest/pointer/") at 1.
    by rewrite prefix_app, prefix_nil.
  - intros n. by rewrite manifest_version_eq, under_pointer_dir.
  - by rewrite current_pointer_eq, under_pointer_dir.
  - intros n. by rewrite wal_segment_eq, under_pointer_dir.
  - intros n. rewrite current_pointer_eq, manifest_version_eq. by intros E%base_cancel.
  - intros m n. rewrite wal_segment_eq, manifest_version_eq. by intros E%base_cancel.
  - intros n. rewrite wal_segment_eq, current_pointer_eq. by intros E%base_cancel.
  - intros m n Hm Hn. rewrite !wal_segment_eq. intros E%base_cancel%String.app_inj.
    by apply string_app_inv_tail, pad_hex_inj in E.
  - intros n. rewrite wal_segment_eq, under_wal_dir.
    rewrite <- (string_app_nil_r "/wal/") at 1. by rewrite prefix_app, prefix_nil.
  - intros n. rewrite wal_segment_eq.
    change ("/wal/" +:+ pad_hex n 16 +:+ ".wal") with ("/wal" +:+ "/" +:+ pad_hex n 16 +:+ ".wal").
    rewrite <- string_app_assoc. apply filename_last.
    apply (hex_segment_clean ""); [reflexivity|reflexivity|cbn; lia].
  - intros n. by rewrite manifest_version_eq, under_wal_dir.
  - intros n. by rewrite pointer_version_eq, under_wal_dir.
  - by rewrite current_pointer_eq, under_wal_dir.
  - by rewrite memtable_snapshot_eq, under_wal_dir.
  - by rewrite memtable_snapshot_eq, under_pointer_dir.
  - rewrite memtable_snapshot_eq, current_pointer_eq. by intros E%base_cancel.
  - intros n. rewrite memtable_snapshot_eq, manifest_version_eq. by intros E%base_cancel.
  - by rewrite namespace_prefix_eq, manifest_dir_eq.
  - by rewrite namespace_prefix_eq, pins_dir_eq.
  - by rewrite namespace_prefix_eq, pointer_dir_eq.
  - destruct Hp as [Hns (root & Hroot & Er)]. rewrite namespace_prefix_eq. unfold base_of.
    rewrite Er. pose proof (concat_app_push root (np_namespace p) ["sst"] Hroot) as E.
    cbn [push_segments] in E. change ("/" +:+ "sst") with "/sst" in E. rewrite <- E.
    apply path_from_clean. apply Forall_app. split; [done|]. by repeat constructor.
  - by rewrite namespace_prefix_eq, wal_dir_eq.
  - by rewrite namespace_prefix_eq, memtable_snapshot_eq.
  - by rewrite namespace_prefix_eq, current_pointer_eq.
  - intros n. by rewrite namespace_prefix_eq, manifest_version_eq.
  - intros n. by rewrite namespace_prefix_eq, pointer_version_eq.
  - intros n. by rewrite namespace_prefix_eq, wal_segment_eq.
  - intros id Hid. by rewrite namespace_prefix_eq, pin_object_eq.
  - intros n. rewrite manifest_version_eq.
    apply (filename_below "/manifest"), (hex_segment_clean "v"); [reflexivity|reflexivity|cbn; lia].
  - intros n. rewrite pointer_version_eq. apply (filename_below "/manifest/pointer"),
      (hex_segment_clean "p"); [reflexivity|reflexivity|cbn; lia].
  - rewrite current_pointer_eq. by apply (filename_below "/manifest" "current.json").
Defined.
End Instance_.

(** ** Normalisation *)

Fixpoint slashes (k : nat) : string :=
  match k with O => "" | S k' => String "/" (slashes k') end.

Lemma trim_start_slashes k s : trim_start (slashes k +:+ s) = trim_start s.
Proof. induction k as [|k IH]; [done|]. cbn [slashes]. by rewrite string_app_cons. Qed.

Lemma trim_end_slashes k s : trim_end (s +:+ slashes k) = trim_end s.
Proof.
  assert (Hk : trim_end (slashes k) = "").
  { induction k as [|k IH]; [done|]. simpl. by rewrite IH. }
  induction s as [|c s IH]; [done|]. rewrite string_app_cons. cbn [trim_end]. by rewrite IH.
Qed.

Lemma clean_not_slash s : all_chars clean_char s = true → all_chars (λ c, negb (Ascii.eqb c "/")) s = true.
Proof.
  induction s as [|c s IH]; [done|]. simpl. intros [Hc Hs]%andb_prop. rewrite IH by done.
  by destruct (Ascii.eqb_spec c "/"%char) as [->|].
Qed.

Lemma trim_end_no_slash s : all_chars (λ c, negb (Ascii.eqb c "/")) s = true → trim_end s = s.
Proof.
  induction s as [|c s IH]; [done|]. cbn [all_chars trim_end]. intros [Hc Hs]%andb_prop.
  rewrite IH by done. destruct s; [|done]. by destruct (Ascii.eqb c "/").
Qed.

Lemma trim_end_app_nonempty a b : trim_end b = b → b ≠ "" → trim_end (a +:+ b) = a +:+ b.
Proof.
  intros Hb Hne. induction a as [|c a IH]; [done|]. rewrite string_app_cons. cbn [trim_end].
  rewrite IH. destruct a; [by destruct b|]. done.
Qed.

Lemma clean_segment_parts s : clean_segment s = true → s ≠ "" ∧ all_chars clean_char s = true.
Proof.
  unfold clean_segment. rewrite !andb_true_iff. intros [[[Hne _] _] Hc]. split; [|done].
  by intros ->.
Qed.

Lemma trim_clean_root segs :
  Forall (λ s, clean_segment s = true) segs →
  trim_end (trim_start (String.concat "/" segs)) = String.concat "/" segs.
Proof.
  intros Hc. destruct segs as [|x segs]; [done|]. rewrite concat_cons_push.
  assert (Hs : trim_start (push_segments x segs) = push_segments x segs).
  { apply Forall_cons in Hc as [Hx _]. apply clean_segment_parts in Hx as [Hne Hx].
    destruct x as [|c x]; [done|]. replace (String c x) with (String c "" +:+ x) by done.
    rewrite push_segments_app. rewrite string_app_cons. simpl in Hx. apply andb_prop in Hx as [Hx _].
    destruct (Ascii.eqb_spec c "/"%char) as [->|Hn]; [done|].
    by destruct c as [[] [] [] [] [] [] [] []]. }
  rewrite Hs. clear Hs. revert x Hc. induction segs as [|y segs IH]; intros x Hc.
  - apply Forall_cons in Hc as [Hx _]. apply clean_segment_parts in Hx as [_ Hx].
    by apply trim_end_no_slash, clean_not_slash.
  - cbn [push_segments]. apply Forall_cons in Hc as [_ Hc].
    replace (x +:+ "/" +:+ y) with ((x +:+ "/") +:+ y) by by rewrite string_app_assoc.
    rewrite push_segments_app. apply trim_end_app_nonempty; [by apply IH|].
    rewrite <- concat_cons_push. apply Forall_cons in Hc as [Hy _].
    apply clean_segment_parts in Hy as [Hy _]. destruct y; [done|]. by destruct segs.
Qed.

Lemma all_chars_impl (p q : ascii → bool) s :
  (∀ c, p c = true → q c = true) → all_chars p s = true → all_chars q s = true.
Proof.
  intros Hpq. induction s as [|c s IH]; [done|]. simpl. rewrite !andb_true_iff.
  intros [Hc Hs]. auto.
Qed.

Lemma namespace_char_clean c : namespace_char c = true → clean_char c = true.
Proof.
  unfold namespace_char, clean_char, is_ascii_lowercase, is_ascii_digit. intros Hc.
  rewrite !orb_true_iff in *. tauto.
Qed.

Lemma NamespaceId_new_inv name ns :
  NamespaceId_new name = Ok ns →
  ns = name ∧ (1 ≤ String.length name ≤ 63)%nat ∧ all_chars namespace_char name = true ∧
  ∃ first rest, name = String first rest ∧ (is_ascii_lowercase first || is_ascii_digit first) = true.
Proof.
  unfold NamespaceId_new. destruct (_ || _)%bool eqn:Hl; [done|].
  apply orb_false_iff in Hl as [Hl0 Hl1]. apply Nat.eqb_neq in Hl0. apply Nat.ltb_ge in Hl1.
  destruct name as [|first rest]; [done|].
  destruct (negb (_ || _)) eqn:Hf; [done|]. destruct (negb (all_chars _ _)) eqn:Ha; [done|].
  intros [= <-]. apply negb_false_iff in Hf, Ha. split_and!; [done|lia|lia|done|]. eauto.
Qed.

Lemma NamespaceId_clean name ns : NamespaceId_new name = Ok ns → clean_segment ns = true.
Proof.
  intros (-> & Hl & Hc & first & rest & -> & Hf)%NamespaceId_new_inv.
  unfold clean_segment. rewrite (all_chars_impl _ _ _ namespace_char_clean Hc).
  assert (Ascii.eqb first "." = false) as Hdot.
  { destruct (Ascii.eqb_spec first "."%char) as [->|]; done. }
  cbn [String.eqb]. by rewrite Hdot.
Qed.

(** A stand-in for the path library: paths kept verbatim, the file name after
    the last slash. *)
Fixpoint after_last_slash (s : string) : option string :=
  match s with
  | EmptyString => None
  | String c rest =>
      match after_last_slash rest with
      | Some t => Some t
      | None => if Ascii.eqb c "/" then Some rest else None
      end
  end.

Lemma after_last_slash_none f :
  all_chars (λ c, negb (Ascii.eqb c "/")) f = true → after_last_slash f = None.
Proof.
  induction f as [|c f IH]; [done|]. simpl. intros [Hc Hf]%andb_prop. rewrite IH by done.
  by destruct (Ascii.eqb c "/").
Qed.

#[refine] Definition verbatim_paths : PathLib := {|
  path_from s := s;
  filename s := Some (default s (after_last_slash s));
|}.
Proof.
  - done.
  - intros dir f [_ Hf]%clean_segment_parts. f_equal. simpl.
    assert (after_last_slash (dir +:+ "/" +:+ f) = Some f) as ->; [|done].
    induction dir as [|c dir IH].
    + change (after_last_slash (String "/" f) = Some f). simpl.
      by rewrite after_last_slash_none by by apply clean_not_slash.
    + rewrite string_app_cons. cbn [after_last_slash]. by rewrite IH.
Defined.

Lemma root_normalised i j segs :
  Forall (λ s, clean_segment s = true) segs →
  trim_end (trim_start (slashes i +:+ String.concat "/" segs +:+ slashes j)) = String.concat "/" segs.
Proof.
  intros Hc. rewrite trim_start_slashes. rewrite <- (trim_clean_root segs Hc) at 2.
  destruct segs as [|x segs].
  { rewrite <- (string_app_nil_r (slashes j)). change (String.concat "/" [] +:+ ?s) with s.
    by rewrite trim_start_slashes. }
  apply Forall_cons in Hc as [[Hne Hx]%clean_segment_parts _]. rewrite concat_cons_push.
  destruct x as [|c x]; [done|]. change (String c x) with (String c "" +:+ x).
  rewrite push_segments_app, string_app_assoc. rewrite !string_app_cons. cbn [all_chars] in Hx.
  apply andb_prop in Hx as [Hx _].
  destruct c as [[] [] [] [] [] [] [] []]; try discriminate Hx;
    cbn [trim_start]; apply (trim_end_slashes j (String _ _)).
Qed.

(** ** Properties *)

(** A validated namespace name with any root made of clean segments, written
    with any number of leading and trailing slashes, is normalised to the bare root
    and gives canonical paths. *)
Theorem validated_namespace_paths name ns segs i j :
  NamespaceId_new name = Ok ns → Forall (λ s, clean_segment s = true) segs →
  let p := NamespacePaths_new (slashes i +:+ String.concat "/" segs +:+ slashes j) ns in
  np_root p = String.concat "/" segs ∧ wf_paths p.
Proof.
  intros Hns Hsegs p. assert (Hr : np_root p = String.concat "/" segs) by by apply root_normalised.
  split; [done|]. split; [by apply (NamespaceId_clean name)|]. by exists segs.
Qed.

Lemma validated_namespace_paths_witness :
  np_root (NamespacePaths_new "//tenants/prod/" "acme-1") = "tenants/prod" ∧
  wf_paths (NamespacePaths_new "//tenants/prod/" "acme-1").
Proof.
  apply (validated_namespace_paths "acme-1" "acme-1" ["tenants"; "prod"] 2 1).
  - reflexivity.
  - repeat constructor.
Defined.

(** In a canonical namespace, manifest bodies, pointers and WAL segments list in
    numeric order, since their keys compare lexicographically as their numbers do,
    and a pointer key parses back to its version. *)
Theorem keys_ordered_and_parsed `{PathLib} p m n :
  wf_paths p → is_u64 m → is_u64 n →
  String.compare (np_pointer_version p m) (np_pointer_version p n) = (m ?= n) ∧
  String.compare (np_manifest_version p m) (np_manifest_version p n) = (m ?= n) ∧
  String.compare (np_wal_segment p m) (np_wal_segment p n) = (m ?= n) ∧
  parse_pointer_version (np_pointer_version p n) = Some n.
Proof.
  intros Hp Hm Hn.
  assert (Hcmp : ∀ post, String.compare (pad_hex m 16 +:+ post) (pad_hex n 16 +:+ post) = (m ?= n)).
  { intros post. rewrite !pad_hex_16, !hex_fixed_app by done. unfold is_uint in *.
    rewrite compare_hex_fixed by lia. destruct (m ?= n) eqn:E; [|done|done].
    rewrite <- (string_app_nil_r ("" +:+ post)). by rewrite compare_app. }
  rewrite !pointer_version_eq, !manifest_version_eq, !wal_segment_eq by done.
  rewrite !compare_app, !Hcmp. rewrite <- pointer_version_eq by done.
  by rewrite parse_pointer_version_eq.
Qed.

Lemma keys_ordered_and_parsed_witness :
  let H := verbatim_paths in let p := NamespacePaths_new "prod" "acme" in
  String.compare (np_pointer_version p 9) (np_pointer_version p 10) = Lt ∧
  String.compare (np_manifest_version p 9) (np_manifest_version p 10) = Lt ∧
  String.compare (np_wal_segment p 9) (np_wal_segment p 10) = Lt ∧
  parse_pointer_version (np_pointer_version p 10) = Some 10.
Proof.
  apply (@keys_ordered_and_parsed verbatim_paths (NamespacePaths_new "prod" "acme") 9 10).
  - split; [reflexivity|]. exists ["prod"]. repeat constructor.
  - unfold is_uint; lia.
  - unfold is_uint; lia.
Defined.
