(* ===== verification/ObjectStore.v ===== *)
(** The object store as its clients see it, and programs over it.

    A store maps paths to byte strings. A client is a [prog]: an interaction tree
    of store requests whose continuation receives the response, ending in a
    result ([async] functions that [await] store calls). The store itself is
    third-party code: [reply] states the documented behaviour of each request
    ([PutMode::Create] is atomic create-if-absent; GET and HEAD of a key are
    read-after-write consistent; LIST is only eventually consistent, so it may
    miss any key), and [fault] the ways a request can go wrong (lost, its
    response lost, or sent twice by the transport's retry).

    [run] executes a program alone against a store; [wp] is the weakest
    precondition of one client of a store shared with others. *)
From S2P Require Import Prelude StorageError Paths.

Record PutResult := { put_e_tag : option string; put_version : option string }.
(** [GetResult]: the metadata, and the outcome of reading the body stream. *)
Record GetResult := {
  get_e_tag : option string;
  get_version : option string;
  get_bytes : result StoreError (list byte);
}.

Inductive StoreOp :=
| PutCreate (p : Path) (b : list byte)
| PutOverwrite (p : Path) (b : list byte)
| Get (p : Path)
| Head (p : Path)
| Delete (p : Path)
| ListDir (dir : Path).

Definition StoreOk (op : StoreOp) : Type :=
  match op with
  | PutCreate _ _ | PutOverwrite _ _ => PutResult
  | Get _ => GetResult
  | Head _ => Z
  | Delete _ => unit
  | ListDir _ => list Path
  end.
Abbreviation StoreResp op := (result StoreError (StoreOk op)).

(** ** Programs *)

Inductive prog (A : Type) :=
| Ret (r : Result A)
| OutOfFuel
| Call (op : StoreOp) (k : StoreResp op → prog A).
Arguments Ret {A} r.
Arguments OutOfFuel {A}.
Arguments Call {A} op k.

(** Sequencing on the result of [p], error or not. *)
Fixpoint pthen {A B} (p : prog A) (k : Result A → prog B) : prog B :=
  match p with
  | Ret r => k r
  | OutOfFuel => OutOfFuel
  | Call op k' => Call op (λ r, pthen (k' r) k)
  end.

(** [?]: stop at an error. *)
#[global] Instance prog_bind : MBind prog := λ A B k p,
  pthen p (λ r, match r with Ok a => k a | Err e => Ret (Err e) end).
#[global] Instance prog_ret : MRet prog := λ A a, Ret (Ok a).

(** [match p.await { ... }] *)
Definition attempt {A} (p : prog A) : prog (Result A) := pthen p (λ r, Ret (Ok r)).

Definition store (op : StoreOp) : prog (StoreResp op) := Call op (λ r, Ret (Ok r)).
Definition fail {A} (e : Error) : prog A := Ret (Err e).

(** [tokio::join!]: both futures run to completion, their requests interleaved. The
    schedule says whose request goes next; once it is used up, the first future's. *)
Fixpoint pjoin {A B} (p : prog A) : list bool → prog B → prog (Result A * Result B) :=
  fix go (sched : list bool) (q : prog B) {struct q} : prog (Result A * Result B) :=
    match p, q with
    | OutOfFuel, _ | _, OutOfFuel => OutOfFuel
    | Ret a, Ret b => Ret (Ok (a, b))
    | Ret _, Call op k => Call op (λ r, go sched (k r))
    | Call op k, Ret _ => Call op (λ r, pjoin (k r) sched q)
    | Call op k, Call op' k' =>
        match sched with
        | false :: sched' => Call op' (λ r, go sched' (k' r))
        | _ => Call op (λ r, pjoin (k r) (tail sched) q)
        end
    end.

(** [From<object_store::Error>] and [From<serde_json::Error>]. *)
Definition lift {A} (r : result StoreError A) : prog A :=
  Ret (match r with Ok a => Ok a | Err e => Err (ObjectStore e) end).
Definition lift_json {A} (r : result string A) : prog A :=
  Ret (match r with Ok a => Ok a | Err e => Err (Json e) end).

(** ** The store *)

Abbreviation Objects := (gmap Path (list byte)).

(** What an answered request may return, and its effect. *)
Definition reply (s : Objects) (op : StoreOp) : StoreResp op → Objects → Prop :=
  match op with
  | PutCreate p b => λ r s',
      match s !! p with
      | Some _ => r = Err AlreadyExists ∧ s' = s
      | None => (∃ m, r = Ok m) ∧ s' = <[p := b]> s
      end
  | PutOverwrite p b => λ r s', (∃ m, r = Ok m) ∧ s' = <[p := b]> s
  | Get p => λ r s',
      s' = s ∧
      match s !! p with
      | Some b => ∃ e v, r = Ok {| get_e_tag := e; get_version := v; get_bytes := Ok b |}
      | None => r = Err NotFound
      end
  | Head p => λ r s',
      s' = s ∧
      match s !! p with
      | Some b => r = Ok (Z.of_nat (length b))
      | None => r = Err NotFound
      end
  | Delete p => λ r s',
      s' = delete p s ∧ (r = Ok tt ∨ (s !! p = None ∧ r = Err NotFound))
  | ListDir dir => λ r s',
      s' = s ∧ ∃ l, r = Ok l ∧ ∀ k, k ∈ l → is_Some (s !! k) ∧ under dir k = true
  end.

(** A request that failed: never executed; executed with its response lost;
    executed twice, the second answer delivered; or a body stream cut short. *)
Definition fault (s : Objects) (op : StoreOp) (r : StoreResp op) (s' : Objects) : Prop :=
  (∃ d, r = Err (OtherStoreError d) ∧ (s' = s ∨ ∃ r0, reply s op r0 s')) ∨
  (∃ r0 s1, reply s op r0 s1 ∧ reply s1 op r s') ∨
  match op return StoreResp op → Prop with
  | Get p => λ r, s' = s ∧ ∃ b e v d, s !! p = Some b ∧
      r = Ok {| get_e_tag := e; get_version := v; get_bytes := Err (OtherStoreError d) |}
  | _ => λ _, False
  end r.

(** Which behaviours an execution includes. *)
Record Mode := { with_faults : bool; with_deletes : bool }.

Definition is_delete (op : StoreOp) : bool := match op with Delete _ => true | _ => false end.

Definition outcome (md : Mode) (s : Objects) (op : StoreOp) (r : StoreResp op) (s' : Objects) : Prop :=
  if is_delete op && negb (with_deletes md)
  then s' = s ∧ ∃ d, r = Err (OtherStoreError d)
  else reply s op r s' ∨ (with_faults md = true ∧ fault s op r s').

(** ** Sequential execution *)

(** The deterministic answers of a store without faults and with a consistent
    LIST. *)
Definition answer (s : Objects) (op : StoreOp) : StoreResp op * Objects :=
  match op return StoreResp op * Objects with
  | PutCreate p b =>
      match s !! p with
      | Some _ => (Err AlreadyExists, s)
      | None => (Ok {| put_e_tag := None; put_version := None |}, <[p := b]> s)
      end
  | PutOverwrite p b => (Ok {| put_e_tag := None; put_version := None |}, <[p := b]> s)
  | Get p =>
      (match s !! p with
       | Some b => Ok {| get_e_tag := None; get_version := None; get_bytes := Ok b |}
       | None => Err NotFound
       end, s)
  | Head p =>
      (match s !! p with Some b => Ok (Z.of_nat (length b)) | None => Err NotFound end, s)
  | Delete p => (Ok tt, delete p s)
  | ListDir dir => (Ok (filter (λ k, under dir k = true) (map fst (map_to_list s))), s)
  end.

(** [None]: the fuel of a loop in the program ran out. *)
Fixpoint run {A} (p : prog A) (s : Objects) : option (Result A) * Objects :=
  match p with
  | Ret r => (Some r, s)
  | OutOfFuel => (None, s)
  | Call op k => let '(r, s') := answer s op in run (k r) s'
  end.

Lemma answer_reply s op : reply s op (answer s op).1 (answer s op).2.
Proof.
  destruct op as [p b|p b|p|p|p|dir]; simpl.
  - destruct (s !! p); simpl; eauto.
  - eauto.
  - destruct (s !! p); simpl; eauto.
  - destruct (s !! p); simpl; eauto.
  - eauto.
  - split; [done|]. eexists. split; [done|]. intros k [Hu Hk]%list_elem_of_filter.
    apply list_elem_of_fmap in Hk as ([k' b] & -> & Hk%elem_of_map_to_list). eauto.
Qed.

Lemma run_pthen {A B} (p : prog A) (k : Result A → prog B) s :
  run (pthen p k) s =
  match run p s with (Some r, s') => run (k r) s' | (None, s') => (None, s') end.
Proof.
  revert s. induction p as [r| |op k' IH]; intros s; [done|done|]. simpl.
  destruct (answer s op). apply IH.
Qed.

Lemma run_bind {A B} (p : prog A) (k : A → prog B) s :
  run (p ≫= k) s =
  match run p s with
  | (Some (Ok a), s') => run (k a) s'
  | (Some (Err e), s') => (Some (Err e), s')
  | (None, s') => (None, s')
  end.
Proof. unfold mbind, prog_bind. rewrite run_pthen. by destruct (run p s) as [[[]|] ?]. Qed.

(** A program that returned a value ran its first part to a value. *)
Lemma run_bind_ok {A B} (p : prog A) (k : A → prog B) s b s' :
  run (p ≫= k) s = (Some (Ok b), s') →
  ∃ a s1, run p s = (Some (Ok a), s1) ∧ run (k a) s1 = (Some (Ok b), s').
Proof. rewrite run_bind. destruct (run p s) as [[[a|e]|] s1]; [eauto|done|done]. Qed.

Lemma run_store {A} op (k : StoreResp op → prog A) s :
  run (store op ≫= k) s = let '(r, s') := answer s op in run (k r) s'.
Proof. rewrite run_bind. unfold store. simpl. by destruct (answer s op). Qed.

Lemma run_attempt {A} (p : prog A) s :
  run (attempt p) s =
  match run p s with (Some r, s') => (Some (Ok r), s') | (None, s') => (None, s') end.
Proof. unfold attempt. rewrite run_pthen. by destruct (run p s) as [[]]. Qed.

Lemma elem_of_listed (s : Objects) dir k :
  k ∈ filter (λ k, under dir k = true) (map fst (map_to_list s)) ↔
  is_Some (s !! k) ∧ under dir k = true.
Proof.
  rewrite list_elem_of_filter. split.
  - intros [Hu ([k' b] & -> & Hk%elem_of_map_to_list)%list_elem_of_fmap]. eauto.
  - intros [[b Hb] Hu]. split; [done|]. apply list_elem_of_fmap. exists (k, b).
    split; [done|]. by apply elem_of_map_to_list.
Qed.

(** ** Concurrent clients *)

(** The shared store, with the client whose create each key came from (a ghost
    of the proofs: no program reads it). *)
Record World := { w_objs : Objects; w_owner : gmap Path nat }.

Definition owner_after (i : nat) (op : StoreOp) (r : StoreResp op) (o : gmap Path nat) : gmap Path nat :=
  match op, r with
  | PutCreate p _, Ok _ => <[p := i]> o
  | _, _ => o
  end.

Definition client_step (md : Mode) (i : nat) (w : World) (op : StoreOp) (r : StoreResp op)
    (w' : World) : Prop :=
  outcome md (w_objs w) op r (w_objs w') ∧ w_owner w' = owner_after i op r (w_owner w).

(** ** What a step of a client tells *)

Lemma world_eta w w' : w_objs w' = w_objs w → w_owner w' = w_owner w → w' = w.
Proof. destruct w, w'. simpl. by intros -> ->. Qed.

(** Requests without effect: what their answers tell about the store. *)
Lemma step_read md i w op r w' (Φ : Objects → StoreResp op → Prop) :
  client_step md i w op r w' →
  is_delete op = false → (∀ o, owner_after i op r o = o) →
  (∀ s r s', reply s op r s' → s' = s ∧ Φ s r) →
  (∀ s d, Φ s (Err (OtherStoreError d))) →
  (∀ s r s', match op return StoreResp op → Prop with
             | Get p => λ r, s' = s ∧ ∃ b e v d, s !! p = Some b ∧
                 r = Ok {| get_e_tag := e; get_version := v; get_bytes := Err (OtherStoreError d) |}
             | _ => λ _, False
             end r → s' = s ∧ Φ s r) →
  w' = w ∧ Φ (w_objs w) r.
Proof.
  intros [Ho Hw] Hdel Hown Hr Hother Hcut. rewrite Hown in Hw. unfold outcome in Ho.
  rewrite Hdel in Ho.
  assert (w_objs w' = w_objs w ∧ Φ (w_objs w) r) as [Hs HΦ]; [|split; [by apply world_eta|done]].
  destruct Ho as [Ho|[_ [(d & -> & Ho)|[(r0 & s1 & H1 & H2)|Ho]]]]; [by apply Hr| | |by apply Hcut].
  - split; [|done]. destruct Ho as [Ho|(r0 & Ho)]; [done|]. by destruct (Hr _ _ _ Ho).
  - destruct (Hr _ _ _ H1) as [-> _]. by apply Hr.
Qed.

Lemma step_get md i w p r w' :
  client_step md i w (Get p) r w' →
  w' = w ∧ (∀ res b, r = Ok res → get_bytes res = Ok b → w_objs w !! p = Some b) ∧
  (r = Err NotFound → w_objs w !! p = None).
Proof.
  intros Hs. apply (step_read _ _ _ (Get p) _ _ (λ s r,
    (∀ res b, r = Ok res → get_bytes res = Ok b → s !! p = Some b) ∧
    (r = Err NotFound → s !! p = None)) Hs); [done|done| |done|].
  - intros s r0 s' [-> H]. split; [done|]. destruct (s !! p).
    + destruct H as (e & v & ->). split; [|done]. intros res b [= <-]. simpl. by intros [= <-].
    + subst r0. done.
  - intros s r0 s' (-> & b & e & v & d & Hb & ->). split_and!; [done| |done].
    by intros res b' [= <-].
Qed.

Lemma step_head md i w p r w' :
  client_step md i w (Head p) r w' →
  w' = w ∧ (∀ z, r = Ok z → is_Some (w_objs w !! p)) ∧
  (r = Err NotFound → w_objs w !! p = None).
Proof.
  intros Hs. apply (step_read _ _ _ (Head p) _ _ (λ s r,
    (∀ z, r = Ok z → is_Some (s !! p)) ∧ (r = Err NotFound → s !! p = None)) Hs);
    [done|done| |done|done].
  intros s r0 s' [-> H]. split; [done|]. destruct (s !! p); subst r0; [|done].
  split; [|done]. eauto.
Qed.

(** Without faults, a failed HEAD means an absent key. *)
Lemma step_head_reliable md i w p r w' e :
  with_faults md = false → client_step md i w (Head p) r w' → r = Err e → w_objs w !! p = None.
Proof.
  intros Hmd [[[_ Ho]|[Hf _]] _] ->; [|by rewrite Hmd in Hf]. by destruct (w_objs w !! p).
Qed.

Lemma step_list md i w dir r w' :
  client_step md i w (ListDir dir) r w' →
  w' = w ∧ (∀ l, r = Ok l → ∀ k, k ∈ l → is_Some (w_objs w !! k) ∧ under dir k = true).
Proof.
  intros Hs. apply (step_read _ _ _ (ListDir dir) _ _ (λ s r,
    ∀ l, r = Ok l → ∀ k, k ∈ l → is_Some (s !! k) ∧ under dir k = true) Hs); [done|done| |done|done].
  intros s r0 s' [-> (l & -> & Hl)]. split; [done|]. by intros l' [= <-].
Qed.

(** The key was absent and now holds [b]. *)
Definition created (p : Path) (b : list byte) (w w' : World) : Prop :=
  w_objs w !! p = None ∧ w_objs w' = <[p := b]> (w_objs w).

(** A create either has no effect or creates the key; it answers [Ok] only to the
    client whose request created it. *)
Lemma step_create md i w p b r w' :
  client_step md i w (PutCreate p b) r w' →
  (w' = w ∨ created p b w w' ∧ w_owner w' = w_owner w
   ∨ created p b w w' ∧ w_owner w' = <[p := i]> (w_owner w)) ∧
  (∀ m, r = Ok m → created p b w w' ∧ w_owner w' = <[p := i]> (w_owner w)).
Proof.
  intros [Ho Hw]. unfold owner_after in Hw.
  assert (Hr : ∀ s r s', reply s (PutCreate p b) r s' →
    (s' = s ∧ r = Err AlreadyExists ∧ is_Some (s !! p))
    ∨ (s !! p = None ∧ s' = <[p := b]> s ∧ ∃ m, r = Ok m)).
  { intros s r0 s' H. simpl in H. destruct (s !! p) eqn:E.
    - left. destruct H as [-> ->]. eauto.
    - right. destruct H as [[m ->] ->]. eauto. }
  destruct Ho as [Ho|[_ [(d & -> & Ho)|[(r0 & s1 & H1 & H2)|[]]]]].
  - destruct (Hr _ _ _ Ho) as [(Hs & -> & _)|(Hn & Hs & m & ->)].
    + split; [left; by apply world_eta|done].
    + split; [right; right; done|]. intros m' _. done.
  - split; [|done]. destruct Ho as [Ho|(r0 & Ho)]; [left; by apply world_eta|].
    destruct (Hr _ _ _ Ho) as [(Hs & -> & _)|(Hn & Hs & m & ->)]; [left; by apply world_eta|].
    right; left. done.
  - destruct (Hr _ _ _ H2) as [(Hs & -> & Hp)|(Hn & Hs & m & ->)].
    + split; [|done]. destruct (Hr _ _ _ H1) as [(Hs1 & -> & _)|(Hn & Hs1 & m & ->)].
      * left. apply world_eta; congruence.
      * right; left. split; [|done]. split; [done|]. congruence.
    + exfalso. destruct (Hr _ _ _ H1) as [(Hs1 & _ & [x Hx])|(_ & Hs1 & _)].
      * congruence.
      * subst s1. by rewrite lookup_insert_eq in Hn.
Qed.

Lemma step_overwrite md i w p b r w' :
  client_step md i w (PutOverwrite p b) r w' →
  w_owner w' = w_owner w ∧ (w_objs w' = w_objs w ∨ w_objs w' = <[p := b]> (w_objs w)).
Proof.
  intros [Ho Hw]. split; [done|].
  destruct Ho as [[_ Ho]|[_ [(d & -> & Ho)|[(r0 & s1 & [_ H1] & [_ H2])|[]]]]].
  - by right.
  - destruct Ho as [Ho|(r0 & _ & Ho)]; [by left|by right].
  - right. by rewrite H2, H1, insert_insert_eq.
Qed.

Lemma step_no_delete md i w p r w' :
  with_deletes md = false → client_step md i w (Delete p) r w' → w' = w.
Proof.
  intros Hmd [Ho Hw]. unfold outcome in Ho. rewrite Hmd in Ho. destruct Ho as [Ho _].
  by apply world_eta.
Qed.

(** ** Programs that only read *)

Definition is_read (op : StoreOp) : bool :=
  match op with Get _ | Head _ | ListDir _ => true | _ => false end.

Fixpoint reads_only {A} (p : prog A) : Prop :=
  match p with
  | Ret _ | OutOfFuel => True
  | Call op k => is_read op = true ∧ ∀ r, reads_only (k r)
  end.

Lemma run_reads_only {A} (p : prog A) s : reads_only p → (run p s).2 = s.
Proof.
  revert s. induction p as [r| |op k IH]; intros s Hp; [done|done|]. destruct Hp as [Hop Hk].
  simpl. assert (Hs : (answer s op).2 = s) by by destruct op.
  destruct (answer s op) as [r s1]. simpl in Hs. subst s1. by apply IH.
Qed.

Lemma reads_only_then {A B} (p : prog A) (k : Result A → prog B) :
  reads_only p → (∀ r, reads_only (k r)) → reads_only (pthen p k).
Proof. intros Hp Hk. induction p as [r| |op k' IH]; simpl; [done|done|]. destruct Hp. eauto. Qed.

Lemma reads_only_bind {A B} (p : prog A) (k : A → prog B) :
  reads_only p → (∀ a, reads_only (k a)) → reads_only (p ≫= k).
Proof. intros Hp Hk. apply reads_only_then; [done|]. by intros [a|e]; [apply Hk|]. Qed.

Lemma reads_only_store {A} op (k : StoreResp op → prog A) :
  is_read op = true → (∀ r, reads_only (k r)) → reads_only (store op ≫= k).
Proof. by split. Qed.

(** ** Weakest preconditions *)

Section Logic.
Context (md : Mode) (Inv : World → Prop) (ext : relation World) `{!PreOrder ext}.

(** [Q] holds of the result of client [i] whatever the other clients do, as long
    as they keep [Inv] and only change the world along [ext]; and client [i]
    itself does the same at every request. *)
Fixpoint wp {A} (i : nat) (p : prog A) (Q : Result A → World → Prop) (w : World) : Prop :=
  match p with
  | Ret r => ∀ w', ext w w' → Inv w' → Q r w'
  | OutOfFuel => True
  | Call op k => ∀ w1, ext w w1 → Inv w1 → ∀ r w2, client_step md i w1 op r w2 →
      Inv w2 ∧ ext w1 w2 ∧ wp i (k r) Q w2
  end.

Lemma wp_ext {A} i (p : prog A) Q w w' : ext w w' → wp i p Q w → wp i p Q w'.
Proof.
  intros He. destruct p as [r| |op k]; simpl; [|done|].
  - intros H w2 Hw. apply H. by trans w'.
  - intros H w1 Hw. apply H. by trans w'.
Qed.

Lemma wp_weaken {A} i (p : prog A) (Q Q' : Result A → World → Prop) w :
  (∀ r w', ext w w' → Inv w' → Q r w' → Q' r w') → wp i p Q w → wp i p Q' w.
Proof.
  revert w. induction p as [r| |op k IH]; intros w HQ; simpl; [|done|].
  - intros H w' He Hi. apply HQ; auto.
  - intros H w1 He Hi r w2 Hs. destruct (H w1 He Hi r w2 Hs) as (Hi2 & He2 & Hwp).
    split_and!; [done|done|]. apply IH; [|done]. intros r' w' He' Hi'.
    apply HQ; [|done]. by trans w1; [|trans w2].
Qed.

Lemma wp_then {A B} i (p : prog A) (k : Result A → prog B) Q w :
  wp i p (λ r w', wp i (k r) Q w') w → wp i (pthen p k) Q w.
Proof.
  revert w. induction p as [r| |op k' IH]; intros w; simpl; [|done|].
  - intros H. destruct (k r) as [r'| |op' k'']; simpl; [|done|].
    + intros w' He Hi. apply (H w' He Hi); done.
    + intros w1 He Hi. apply (H w1 He Hi); done.
  - intros H w1 He Hi r w2 Hs. destruct (H w1 He Hi r w2 Hs) as (Hi2 & He2 & Hwp). eauto.
Qed.

(** Each branch of a join meets its own postcondition: it already tolerates the
    steps of the other. *)
Lemma wp_pjoin {A B} i (p : prog A) (q : prog B) sched Q1 Q2 w :
  wp i p Q1 w → wp i q Q2 w →
  wp i (pjoin p sched q)
    (λ r w', match r with Ok (a, b) => Q1 a w' ∧ Q2 b w' | Err _ => False end) w.
Proof.
  revert sched q w. induction p as [a| |op k IH]; intros sched q.
  - revert sched. induction q as [b| |op' k' IHq]; intros sched w Hp Hq; [|done|].
    + intros w' He Hi. split; [by apply Hp|by apply Hq].
    + intros w1 He Hi r w2 Hs. destruct (Hq w1 He Hi r w2 Hs) as (Hi2 & He2 & Hk).
      split_and!; [done|done|]. apply IHq; [|done]. eapply wp_ext; [|exact Hp]. by trans w1.
  - intros w _ _. by destruct q.
  - revert sched. induction q as [b| |op' k' IHq]; intros sched w Hp Hq; [|done|].
    + intros w1 He Hi r w2 Hs. destruct (Hp w1 He Hi r w2 Hs) as (Hi2 & He2 & Hk).
      split_and!; [done|done|]. apply IH; [done|]. eapply wp_ext; [|exact Hq]. by trans w1.
    + assert (Hleft : wp i (Call op (λ r, pjoin (k r) (tail sched) (Call op' k')))
        (λ r w', match r with Ok (a, b) => Q1 a w' ∧ Q2 b w' | Err _ => False end) w).
      { intros w1 He Hi r w2 Hs. destruct (Hp w1 He Hi r w2 Hs) as (Hi2 & He2 & Hk).
        split_and!; [done|done|]. apply IH; [done|]. eapply wp_ext; [|exact Hq]. by trans w1. }
      destruct sched as [|[] sched']; [exact Hleft|exact Hleft|].
      intros w1 He Hi r w2 Hs. destruct (Hq w1 He Hi r w2 Hs) as (Hi2 & He2 & Hk).
      split_and!; [done|done|]. apply IHq; [|done]. eapply wp_ext; [|exact Hp]. by trans w1.
Qed.

Lemma wp_ret {A} i (r : Result A) (Q : Result A → World → Prop) w :
  (∀ w', ext w w' → Inv w' → Q r w') → wp i (Ret r) Q w.
Proof. done. Qed.

(** Postconditions of successful results only. *)
Definition wpe {A} (i : nat) (p : prog A) (Φ : A → World → Prop) : World → Prop :=
  wp i p (λ r w, match r with Ok a => Φ a w | Err _ => True end).

Lemma wpe_ext {A} i (p : prog A) Φ w w' : ext w w' → wpe i p Φ w → wpe i p Φ w'.
Proof. apply wp_ext. Qed.

Lemma wpe_weaken {A} i (p : prog A) (Φ Ψ : A → World → Prop) w :
  (∀ a w', ext w w' → Inv w' → Φ a w' → Ψ a w') → wpe i p Φ w → wpe i p Ψ w.
Proof. intros H. apply wp_weaken. intros [a|e] w'; [apply H|done]. Qed.

Lemma wpe_bind {A B} i (p : prog A) (k : A → prog B) Φ w :
  wpe i p (λ a, wpe i (k a) Φ) w → wpe i (p ≫= k) Φ w.
Proof.
  intros H. apply wp_then. eapply wp_weaken; [|exact H]. intros [a|e] w' _ _ Ha; [done|]. done.
Qed.

(** [match p.await]: the client also continues after an error. *)
Lemma wpe_attempt {A B} i (p : prog A) (k : Result A → prog B) Φ w :
  wp i p (λ r, wpe i (k r) Φ) w → wpe i (attempt p ≫= k) Φ w.
Proof.
  intros H. apply wpe_bind, wp_then. eapply wp_weaken; [|exact H]. intros r w' _ _ Hr w2 He _.
  by eapply wpe_ext.
Qed.

Lemma wpe_try {A B} i (p : prog A) (k : Result A → prog B) Ψ Φ w :
  wpe i p Ψ w →
  (∀ a w', ext w w' → Inv w' → Ψ a w' → wpe i (k (Ok a)) Φ w') →
  (∀ e w', ext w w' → Inv w' → wpe i (k (Err e)) Φ w') →
  wpe i (attempt p ≫= k) Φ w.
Proof.
  intros Hp Hok Herr. apply wpe_attempt. eapply wp_weaken; [|exact Hp].
  intros [a|e] w' He Hi Ha; [by apply Hok|by apply Herr].
Qed.

Lemma wpe_ret {A} i (a : A) (Φ : A → World → Prop) w :
  (∀ w', ext w w' → Inv w' → Φ a w') → wpe i (mret a) Φ w.
Proof. done. Qed.

Lemma wpe_fail {A} i e (Φ : A → World → Prop) w : wpe i (fail e) Φ w.
Proof. done. Qed.

Lemma wpe_pure {A} i (r : Result A) (Φ : A → World → Prop) w :
  (∀ a w', r = Ok a → ext w w' → Inv w' → Φ a w') → wpe i (Ret r) Φ w.
Proof. intros H w' He Hi. destruct r; [by apply H|done]. Qed.

Lemma wpe_lift {A} i (r : result StoreError A) (Φ : A → World → Prop) w :
  (∀ a w', r = Ok a → ext w w' → Inv w' → Φ a w') → wpe i (lift r) Φ w.
Proof. intros H. apply wpe_pure. intros a w'. destruct r; [|done]. intros [= <-]. by apply H. Qed.

Lemma wpe_lift_json {A} i (r : result string A) (Φ : A → World → Prop) w :
  (∀ a w', r = Ok a → ext w w' → Inv w' → Φ a w') → wpe i (lift_json r) Φ w.
Proof. intros H. apply wpe_pure. intros a w'. destruct r; [|done]. intros [= <-]. by apply H. Qed.

Lemma wpe_store {A} i op (k : StoreResp op → prog A) Φ w :
  (∀ w1 r w2, ext w w1 → Inv w1 → client_step md i w1 op r w2 →
     Inv w2 ∧ ext w1 w2 ∧ wpe i (k r) Φ w2) →
  wpe i (store op ≫= k) Φ w.
Proof. intros H w1 He Hi r w2 Hs. by apply (H w1). Qed.

Lemma wpe_get {A} i p (k : StoreResp (Get p) → prog A) Φ w :
  (∀ w1 r, ext w w1 → Inv w1 →
     (∀ res b, r = Ok res → get_bytes res = Ok b → w_objs w1 !! p = Some b) →
     (r = Err NotFound → w_objs w1 !! p = None) → wpe i (k r) Φ w1) →
  wpe i (store (Get p) ≫= k) Φ w.
Proof.
  intros H. apply wpe_store. intros w1 r w2 He Hi (-> & Hok & Hn)%step_get.
  split_and!; [done|done|]. by apply H.
Qed.

Lemma wpe_head {A} i p (k : StoreResp (Head p) → prog A) Φ w :
  (∀ w1 r, ext w w1 → Inv w1 → (∀ z, r = Ok z → is_Some (w_objs w1 !! p)) →
     (r = Err NotFound → w_objs w1 !! p = None) →
     (with_faults md = false → ∀ e, r = Err e → w_objs w1 !! p = None) → wpe i (k r) Φ w1) →
  wpe i (store (Head p) ≫= k) Φ w.
Proof.
  intros H. apply wpe_store. intros w1 r w2 He Hi Hs.
  destruct (step_head _ _ _ _ _ _ Hs) as (-> & Hok & Hn).
  split_and!; [done|done|]. apply H; [done|done|done|done|].
  intros Hmd e. by apply (step_head_reliable md i _ _ _ _ e Hmd Hs).
Qed.

Lemma wpe_list {A} i dir (k : StoreResp (ListDir dir) → prog A) Φ w :
  (∀ w1 r, ext w w1 → Inv w1 →
     (∀ l, r = Ok l → ∀ x, x ∈ l → is_Some (w_objs w1 !! x) ∧ under dir x = true) →
     wpe i (k r) Φ w1) →
  wpe i (store (ListDir dir) ≫= k) Φ w.
Proof.
  intros H. apply wpe_store. intros w1 r w2 He Hi (-> & Hok)%step_list.
  split_and!; [done|done|]. by apply H.
Qed.

Lemma wpe_reads {A} i (p : prog A) w : reads_only p → wpe i p (λ _ _, True) w.
Proof.
  revert w. induction p as [r| |op k IH]; intros w Hp; [by destruct r|done|].
  destruct Hp as [Hop Hk]. intros w1 He Hi r w2 Hs.
  assert (w2 = w1) as ->.
  { destruct op; simpl in Hop; [done|done| | |done|];
      [by apply step_get in Hs as [? _]|by apply step_head in Hs as [? _]|by apply step_list in Hs as [? _]]. }
  split_and!; [done|done|]. apply IH, Hk.
Qed.
End Logic.
