(* ===== verification/Recovery.v ===== *)
(** The WAL's requests ([WalStore] of [wal.rs]), WAL replay and the memtable checkpoint
    ([recovery.rs]).

    [bincode] is third-party: a [Bincode] instance is what it promises for a type,
    a decoder that reads a value off the front of a buffer and says how much it
    consumed. [xxh3_64] is a hash function of another crate. *)
From S2P Require Import Prelude StorageError Wal Paths ObjectStore Memtable ManifestTypes.

(** ** The WAL's I/O surface

    [WalStore]: append a sealed segment with
    create-only semantics, list the segments, read them back. The size a listing
    reports is not modelled. *)

Record WalSegmentRef := { ref_seq : Z; ref_path : Path }.

Definition ref_le (a b : WalSegmentRef) : Prop := ref_seq a ≤ ref_seq b.
#[global] Instance ref_le_dec : RelDecision ref_le.
Proof. intros a b. unfold ref_le. apply _. Defined.

Section WalStore.
Context `{!KeySpace} (crc32 : list byte → Z).

Definition append_segment (segment : WalSegment) : prog Path :=
  let path := wal_segment (seg_seq segment) in
  let body := WalSegment_encode crc32 segment in
  r ← store (PutCreate path body);
  match r with
  | Ok _ => mret path
  | Err AlreadyExists => fail (Precondition "WAL segment already exists; another writer raced ahead")
  | Err other => fail (ObjectStore other)
  end.

(** The body of the listing loop. *)
Fixpoint collect_refs (locations : list Path) (out : list WalSegmentRef)
    : Result (list WalSegmentRef) :=
  match locations with
  | [] => Ok out
  | location :: rest =>
      match key_filename location with
      | None => Err (Invariant "WAL object has no filename")
      | Some name =>
          match strip_suffix ".wal" name with
          | None => collect_refs rest out
          | Some stem =>
              match from_str_radix_16 stem with
              | None => Err (Corrupted location "WAL filename is not a 16-hex-digit seq")
              | Some seq => collect_refs rest (out ++ [{| ref_seq := seq; ref_path := location |}])
              end
          end
      end
  end.

Definition list_segments : prog (list WalSegmentRef) :=
  r ← store (ListDir wal_dir);
  listed ← lift r;
  out ← Ret (collect_refs listed []);
  mret (merge_sort ref_le out).

Definition read_segment (seq : Z) : prog WalSegment :=
  r ← store (Get (wal_segment seq));
  res ← lift r;
  body ← lift (get_bytes res);
  Ret (WalSegment_decode crc32 "wal#" seq body).

Fixpoint read_refs (refs : list WalSegmentRef) (out : list WalSegment) : prog (list WalSegment) :=
  match refs with
  | [] => mret out
  | r :: rest => seg ← read_segment (ref_seq r); read_refs rest (out ++ [seg])
  end.
Definition read_segments_since (start_seq : Z) : prog (list WalSegment) :=
  refs ← list_segments;
  read_refs (filter (λ r, start_seq ≤ ref_seq r) refs) [].
End WalStore.

(** [bincode::serialize], and [deserialize_from] over a cursor. *)
Class Bincode (A : Type) (typed : A → Prop) := {
  bincode_serialize : A → result string (list byte);
  bincode_deserialize_from : list byte → result string (A * nat);
  bincode_roundtrip a b rest :
    typed a → bincode_serialize a = Ok b →
    bincode_deserialize_from (b ++ rest) = Ok (a, length b);
  (** the cursor stays inside the buffer *)
  bincode_consumed b a n : bincode_deserialize_from b = Ok (a, n) → (n ≤ length b)%nat;
}.
(** [bincode::deserialize]: trailing bytes are permitted. *)
Definition bincode_deserialize {A typed} `{!Bincode A typed} (b : list byte) : result string A :=
  match bincode_deserialize_from b with Ok (a, _) => Ok a | Err e => Err e end.

Inductive WalOp := WUpsert (bytes : list byte) | WTombstone.
Record WalEntry := { we_key : MemKey; we_op : WalOp; we_lsn : Z }.

Definition wal_op_of (op : MemOp) : WalOp :=
  match op with Upsert b => WUpsert b | Tombstone => WTombstone end.
Definition mem_op_of (op : WalOp) : MemOp :=
  match op with WUpsert v => Upsert v | WTombstone => Tombstone end.

Definition from_apply (key : MemKey) (lsn : Z) (op : MemOp) : WalEntry :=
  {| we_key := key; we_op := wal_op_of op; we_lsn := lsn |}.
Definition into_memtable_apply (e : WalEntry) : MemKey * Z * MemOp :=
  (we_key e, we_lsn e, mem_op_of (we_op e)).

Record RecoveredMemtable := {
  rm_memtable : Memtable;
  rm_max_lsn : Z;
  rm_records_replayed : nat;
  rm_used_snapshot : bool;
}.

Record MemtableSnapshotEntry := { se_key : MemKey; se_lsn : Z; se_op : WalOp }.
Record MemtableSnapshotFile := {
  sf_version : Z;
  sf_last_lsn : Z;
  sf_entries : list MemtableSnapshotEntry;
}.
Record WalSegmentBindingV2 := { wb_seq : Z; wb_path : string; wb_last_lsn : Z; wb_xxh3 : option Z }.
Record MemtableSnapshotBindingV2 := { sb_wal_segments : option (list WalSegmentBindingV2) }.
Record DecodedMemtableSnapshot := {
  ds_snapshot : MemtableSnapshotFile;
  ds_wal_segments : option (list WalSegmentBindingV2);
}.

Definition MEMTABLE_SNAPSHOT_VERSION : Z := 3.
Definition MEMTABLE_SNAPSHOT_MAGIC : list byte := String.list_byte_of_string "NAMIMS02".
Definition MEMTABLE_SNAPSHOT_HEADER_BYTES : nat := 8 + 8.
Definition MEMTABLE_SNAPSHOT_FOOTER_BYTES : nat := 8.

Definition from_descriptor (d : WalSegmentDescriptor) : WalSegmentBindingV2 :=
  {| wb_seq := wd_seq d; wb_path := wd_path d; wb_last_lsn := wd_last_lsn d; wb_xxh3 := wd_xxh3 d |}.
Definition binding_matches (b : WalSegmentBindingV2) (d : WalSegmentDescriptor) : bool :=
  (wb_seq b =? wd_seq d) && bool_decide (wb_path b = wd_path d)
  && (wb_last_lsn b =? wd_last_lsn d) && bool_decide (wb_xxh3 b = wd_xxh3 d).

(** [wal_segments.iter().map(|s| s.last_lsn).max().unwrap_or(0)] *)
Definition max_last_lsn (segments : list WalSegmentDescriptor) : Z :=
  match map wd_last_lsn segments with [] => 0 | x :: rest => foldl Z.max x rest end.

Definition covers_manifest (d : DecodedMemtableSnapshot) (manifest : Manifest) : bool :=
  let binding_matches :=
    match ds_wal_segments d with
    | None => false
    | Some segments =>
        (length segments =? length (mf_wal_segments manifest))%nat
        && forallb (λ '(bound, current), binding_matches bound current)
             (zip segments (mf_wal_segments manifest))
    end in
  if negb (sf_version (ds_snapshot d) =? MEMTABLE_SNAPSHOT_VERSION) || negb binding_matches
  then false
  else
    (sf_last_lsn (ds_snapshot d) =? max_last_lsn (mf_wal_segments manifest))
    && forallb (λ e, se_lsn e <=? sf_last_lsn (ds_snapshot d)) (sf_entries (ds_snapshot d))
    && (negb (match mf_wal_segments manifest with [] => true | _ => false end)
        || match sf_entries (ds_snapshot d) with [] => true | _ => false end).

Definition collect_entries (iter : list (MemKey * Z * MemOp)) : list MemtableSnapshotEntry :=
  map (λ '(key, lsn, op), {| se_key := key; se_lsn := lsn; se_op := wal_op_of op |}) iter.

Definition from_manifest (manifest : Manifest) (iter : list (MemKey * Z * MemOp)) : MemtableSnapshotFile :=
  {| sf_version := MEMTABLE_SNAPSHOT_VERSION;
     sf_last_lsn := max_last_lsn (mf_wal_segments manifest);
     sf_entries := collect_entries iter |}.
Definition snapshot_from_iter (last_lsn : Z) (iter : list (MemKey * Z * MemOp)) : MemtableSnapshotFile :=
  {| sf_version := MEMTABLE_SNAPSHOT_VERSION; sf_last_lsn := last_lsn;
     sf_entries := collect_entries iter |}.

(** The machine ranges of the serialised values. *)
Definition entry_typed (e : WalEntry) : Prop := is_u64 (we_lsn e).
Definition snapshot_typed (s : MemtableSnapshotFile) : Prop :=
  is_u64 (sf_last_lsn s) ∧ Forall (λ e, is_u64 (se_lsn e)) (sf_entries s).
Definition binding_typed (b : MemtableSnapshotBindingV2) : Prop := True.

Section Recovery.
Context `{!KeySpace} `{!Bincode WalEntry entry_typed}.
Context `{!Bincode MemtableSnapshotFile snapshot_typed}.
Context `{!Bincode MemtableSnapshotBindingV2 binding_typed}.
Context (crc32 xxh3_64 : list byte → Z).

Definition WalEntry_encode (e : WalEntry) : Result (list byte) :=
  match bincode_serialize e with Ok b => Ok b | Err _ => Err (Invariant "bincode encode WalEntry") end.
Definition WalEntry_decode (b : list byte) : Result WalEntry :=
  match bincode_deserialize b with Ok e => Ok e | Err _ => Err (Invariant "bincode decode WalEntry") end.

(** The bytes of [write_memtable_snapshot_with_binding]. *)
Definition snapshot_bytes (snapshot : MemtableSnapshotFile)
    (wal_segments : option (list WalSegmentDescriptor)) : Result (list byte) :=
  match bincode_serialize snapshot with
  | Err _ => Err (Invariant "bincode encode memtable snapshot")
  | Ok prefix =>
      let binding := {| sb_wal_segments :=
        match wal_segments with Some l => Some (map from_descriptor l) | None => None end |} in
      match bincode_serialize binding with
      | Err _ => Err (Invariant "bincode encode snapshot binding")
      | Ok binding =>
          let bytes := prefix ++ MEMTABLE_SNAPSHOT_MAGIC
                       ++ le_split 8 (Z.of_nat (length binding)) ++ binding in
          Ok (bytes ++ le_split 8 (xxh3_64 bytes))
      end
  end.

Definition write_memtable_snapshot_with_binding (snapshot : MemtableSnapshotFile)
    (wal_segments : option (list WalSegmentDescriptor)) : prog unit :=
  bytes ← Ret (snapshot_bytes snapshot wal_segments);
  r ← store (PutOverwrite memtable_snapshot bytes);
  _ ← lift r; mret ().
Definition write_memtable_snapshot (snapshot : MemtableSnapshotFile) : prog unit :=
  write_memtable_snapshot_with_binding snapshot None.
Definition write_memtable_snapshot_for_manifest (manifest : Manifest)
    (snapshot : MemtableSnapshotFile) : prog unit :=
  write_memtable_snapshot_with_binding snapshot (Some (mf_wal_segments manifest)).

(** The checksum and the binding, once the lengths agree. Errors are the message,
    as in the source. *)
Definition check_appendix (snapshot : MemtableSnapshotFile) (bytes : list byte)
    (binding_start binding_end expected_len : nat) : result string DecodedMemtableSnapshot :=
  let declared_checksum := le_combine (slice bytes binding_end expected_len) in
  if negb (declared_checksum =? xxh3_64 (take binding_end bytes))
  then Err "snapshot checksum mismatch"
  else
    match bincode_deserialize (slice bytes binding_start binding_end) with
    | Err _ => Err "bincode decode snapshot binding"
    | Ok binding => Ok {| ds_snapshot := snapshot; ds_wal_segments := sb_wal_segments binding |}
    end.

Definition decode_memtable_snapshot (bytes : list byte) : result string DecodedMemtableSnapshot :=
  match bincode_deserialize_from bytes with
  | Err _ => Err "bincode decode memtable snapshot prefix"
  | Ok (snapshot, prefix_len) =>
      if negb (sf_version snapshot =? MEMTABLE_SNAPSHOT_VERSION)
      then Err "snapshot payload version is unsupported"
      else
        let appendix := drop prefix_len bytes in
        if (length appendix <? MEMTABLE_SNAPSHOT_HEADER_BYTES + MEMTABLE_SNAPSHOT_FOOTER_BYTES)%nat
        then Err "body is too short for the v2 appendix"
        else if negb (bool_decide (take 8 appendix = MEMTABLE_SNAPSHOT_MAGIC))
        then Err "missing or unknown snapshot appendix magic"
        else
          let declared_len := le_combine (slice appendix 8 16) in
          match checked_add64 (Z.of_nat prefix_len) (Z.of_nat MEMTABLE_SNAPSHOT_HEADER_BYTES) with
          | None => Err "snapshot binding start overflow"
          | Some binding_start =>
              match checked_add64 binding_start declared_len with
              | None => Err "snapshot binding end overflow"
              | Some binding_end =>
                  match checked_add64 binding_end (Z.of_nat MEMTABLE_SNAPSHOT_FOOTER_BYTES) with
                  | None => Err "snapshot wire length overflow"
                  | Some expected_len =>
                      if negb (Z.of_nat (length bytes) =? expected_len)
                      then Err "snapshot wire length mismatch"
                      else
                        check_appendix snapshot bytes (Z.to_nat binding_start) (Z.to_nat binding_end)
                          (Z.to_nat expected_len)
                  end
              end
          end
  end.

Definition try_read_memtable_snapshot (path : Path) : prog (option DecodedMemtableSnapshot) :=
  g ← store (Get path);
  mret (match g with
        | Ok res =>
            match get_bytes res with
            | Err _ => None
            | Ok bytes =>
                match decode_memtable_snapshot bytes with Ok s => Some s | Err _ => None end
            end
        | Err _ => None
        end).

(** ** Replay *)

Definition seed_entry (m : Memtable) (e : MemtableSnapshotEntry) : Memtable :=
  (Memtable_apply m (se_key e) (se_lsn e) (mem_op_of (se_op e))).1.

(** The record loop of one segment. *)
Fixpoint replay_records (path : string) (floor : Z) (records : list WalRecord)
    (memtable : Memtable) (max_lsn : Z) (replayed : nat) : Result (Memtable * Z * nat) :=
  match records with
  | [] => Ok (memtable, max_lsn, replayed)
  | record :: rest =>
      if rec_lsn record <=? floor then replay_records path floor rest memtable max_lsn replayed
      else
        entry ← WalEntry_decode (rec_payload record);
        if negb (we_lsn entry =? rec_lsn record)
        then Err (Corrupted path "WalEntry.lsn differs from WalRecord.lsn")
        else
          let '(key, lsn, op) := into_memtable_apply entry in
          let memtable := (Memtable_apply memtable key lsn op).1 in
          replay_records path floor rest memtable (Z.max max_lsn lsn) (S replayed)
  end.

(** The segment loop. *)
Fixpoint replay_segments (floor : Z) (segments : list WalSegmentDescriptor)
    (memtable : Memtable) (max_lsn : Z) (replayed : nat) : prog (Memtable * Z * nat) :=
  match segments with
  | [] => mret (memtable, max_lsn, replayed)
  | seg_desc :: rest =>
      if wd_last_lsn seg_desc <=? floor then replay_segments floor rest memtable max_lsn replayed
      else
        segment ← read_segment crc32 (wd_seq seg_desc);
        if negb (last_lsn segment =? wd_last_lsn seg_desc)
        then fail (Corrupted (wd_path seg_desc) "wal segment last_lsn differs from the manifest")
        else
          '(memtable, max_lsn, replayed) ←
            Ret (replay_records (wd_path seg_desc) floor (seg_records segment) memtable max_lsn replayed);
          replay_segments floor rest memtable max_lsn replayed
  end.

Definition seq_le (a b : WalSegmentDescriptor) : Prop := wd_seq a ≤ wd_seq b.
#[global] Instance seq_le_dec : RelDecision seq_le.
Proof. intros a b. unfold seq_le. apply _. Defined.

(** Replay on top of what the checkpoint seeded. *)
Definition replay_manifest (manifest : Manifest) (memtable : Memtable) (max_lsn floor : Z)
    (used_snapshot : bool) : prog RecoveredMemtable :=
  match mf_wal_segments manifest with
  | [] => mret {| rm_memtable := memtable; rm_max_lsn := max_lsn; rm_records_replayed := 0;
                  rm_used_snapshot := used_snapshot |}
  | _ :: _ =>
      '(memtable, max_lsn, replayed) ←
        replay_segments floor (merge_sort seq_le (mf_wal_segments manifest)) memtable max_lsn 0;
      mret {| rm_memtable := memtable; rm_max_lsn := max_lsn; rm_records_replayed := replayed;
              rm_used_snapshot := used_snapshot |}
  end.

Definition recover_memtable_with_snapshot (manifest : Manifest) (use_snapshot : bool)
    : prog RecoveredMemtable :=
  if use_snapshot then
    snap ← try_read_memtable_snapshot memtable_snapshot;
    match snap with
    | None => replay_manifest manifest Memtable_new 0 0 false
    | Some snap =>
        if negb (covers_manifest snap manifest) then replay_manifest manifest Memtable_new 0 0 false
        else
          let snapshot := ds_snapshot snap in
          let memtable := foldl seed_entry Memtable_new (sf_entries snapshot) in
          replay_manifest manifest memtable (Z.max 0 (sf_last_lsn snapshot)) (sf_last_lsn snapshot)
            (negb (match mf_wal_segments manifest with [] => true | _ => false end))
    end
  else replay_manifest manifest Memtable_new 0 0 false.
Definition recover_memtable (manifest : Manifest) : prog RecoveredMemtable :=
  recover_memtable_with_snapshot manifest false.

(** ** Replaying a log *)

Definition lsn_of (mu : mutation) : Z := mu.1.2.

(** The WAL record of a mutation. *)
Definition log_record (mu : mutation) (r : WalRecord) : Prop :=
  rec_lsn r = lsn_of mu ∧ WalEntry_encode (from_apply mu.1.1 (lsn_of mu) mu.2) = Ok (rec_payload r).

Definition lsn_ok (mu : mutation) : Prop := 1 ≤ lsn_of mu ≤ u64_max.

(** The object of segment [d] holds exactly the records of [log]. *)
Definition segment_durable (s : Objects) (d : WalSegmentDescriptor) (log : list mutation) : Prop :=
  ∃ recs, let seg := {| seg_seq := wd_seq d; seg_records := recs |} in
    Forall2 log_record log recs ∧ Forall lsn_ok log ∧ segment_wf seg ∧
    s !! wal_segment (wd_seq d) = Some (WalSegment_encode crc32 seg) ∧
    last_lsn seg = wd_last_lsn d.

Lemma mem_wal_op op : mem_op_of (wal_op_of op) = op.
Proof. by destruct op. Qed.

Lemma WalEntry_decode_encode e b :
  entry_typed e → WalEntry_encode e = Ok b → WalEntry_decode b = Ok e.
Proof.
  unfold WalEntry_encode, WalEntry_decode, bincode_deserialize. intros Ht.
  destruct (bincode_serialize e) as [b'|] eqn:E; [|done]. intros [= <-].
  rewrite <- (app_nil_r b'). by rewrite (bincode_roundtrip _ _ _ Ht E).
Qed.

Lemma replay_records_log path log recs m mx n :
  Forall2 log_record log recs → Forall lsn_ok log →
  replay_records path 0 recs m mx n
  = Ok (apply_all m log, foldl Z.max mx (map lsn_of log), (n + length log)%nat).
Proof.
  intros Hlog. revert m mx n. induction Hlog as [|[[k lsn] op] r log recs [Hl He] _ IH];
    intros m mx n Hok; simpl; [by rewrite Nat.add_0_r|].
  apply Forall_cons in Hok as [Hlsn Hok]. unfold lsn_ok, lsn_of in Hlsn. simpl in Hlsn, Hl, He.
  unfold lsn_of in Hl, He. simpl in Hl, He. rewrite Hl.
  destruct (Z.leb_spec lsn 0); [lia|].
  assert (Ht : entry_typed (from_apply k lsn op)).
  { unfold entry_typed, is_uint, u64_max in *. simpl. lia. }
  rewrite (WalEntry_decode_encode _ _ Ht He).
  simpl. rewrite Z.eqb_refl. simpl. rewrite mem_wal_op, IH by done. do 2 f_equal. lia.
Qed.

Lemma last_lsn_log log recs seq :
  Forall2 log_record log recs →
  last_lsn {| seg_seq := seq; seg_records := recs |} = default 0 (lsn_of <$> last log).
Proof.
  intros Hlog. unfold last_lsn. simpl.
  induction Hlog as [|mu r log recs [Hl _] Hrest IH]; [done|].
  destruct Hrest as [|mu' r' log' recs' Hx Hrest']; [done|]. exact IH.
Qed.

Hypothesis crc32_u32 : ∀ b, is_u32 (crc32 b).

Lemma run_read_segment s d log recs :
  let seg := {| seg_seq := wd_seq d; seg_records := recs |} in
  Forall2 log_record log recs → segment_wf seg →
  s !! wal_segment (wd_seq d) = Some (WalSegment_encode crc32 seg) →
  run (read_segment crc32 (wd_seq d)) s = (Some (Ok seg), s).
Proof.
  intros seg _ Hwf Hs. unfold read_segment. simpl. rewrite Hs. simpl.
  exact (f_equal (λ r, (Some r, s)) (decode_encode crc32 "wal#" seg crc32_u32 Hwf)).
Qed.

Lemma replay_segments_log s segs logs m mx n :
  Forall2 (segment_durable s) segs logs →
  run (replay_segments 0 segs m mx n) s
  = (Some (Ok (apply_all m (concat logs), foldl Z.max mx (map lsn_of (concat logs)),
               (n + length (concat logs))%nat)), s).
Proof.
  intros Hd. revert m mx n.
  induction Hd as [|d log segs logs (recs & Hlog & Hok & Hwf & Hs & Hlast) _ IH]; intros m mx n;
    cbn [replay_segments concat]; [by rewrite Nat.add_0_r|].
  destruct (Z.leb_spec (wd_last_lsn d) 0) as [Hle|Hgt].
  - assert (log = []) as ->; [|by rewrite IH].
    rewrite (last_lsn_log log recs _ Hlog) in Hlast.
    destruct (last log) as [mu|] eqn:El; [|by apply last_None in El].
    apply last_Some in El as [l' ->]. apply Forall_app in Hok as [_ Hok].
    apply Forall_cons in Hok as [Hmu _]. unfold lsn_ok in Hmu. simpl in Hlast. lia.
  - unfold mbind, prog_bind. rewrite run_pthen, (run_read_segment s d log recs Hlog Hwf Hs).
    rewrite Hlast, Z.eqb_refl. cbn [negb pthen seg_records].
    rewrite (replay_records_log _ log recs) by done. rewrite IH.
    unfold apply_all. rewrite foldl_app, map_app, foldl_app, length_app. do 4 f_equal. lia.
Qed.

Lemma foldl_max_ge mx l : mx ≤ foldl Z.max mx l.
Proof. revert mx. induction l as [|x l IH]; intros mx; simpl; [lia|]. specialize (IH (Z.max mx x)). lia. Qed.

Lemma foldl_max_elem mx l x : x ∈ l → x ≤ foldl Z.max mx l.
Proof.
  revert mx. induction l as [|y l IH]; intros mx; simpl; [by intros ?%elem_of_nil|].
  intros [->|Hx]%elem_of_cons; [|by apply IH]. pose proof (foldl_max_ge (Z.max mx y) l). lia.
Qed.

Lemma foldl_max_least mx l b : mx ≤ b → Forall (λ x, x ≤ b) l → foldl Z.max mx l ≤ b.
Proof.
  intros Hmx HF. revert mx Hmx. induction HF as [|x l Hx _ IH]; intros mx Hmx; simpl; [done|].
  apply IH. lia.
Qed.

Lemma max_last_lsn_spec segs :
  (∀ d, d ∈ segs → wd_last_lsn d ≤ max_last_lsn segs) ∧
  (segs ≠ [] → ∃ d, d ∈ segs ∧ wd_last_lsn d = max_last_lsn segs).
Proof.
  unfold max_last_lsn. destruct segs as [|d segs]; [split; [by intros d ?%elem_of_nil|done]|].
  simpl. split.
  - intros d' [->|Hd']%elem_of_cons; [apply foldl_max_ge|].
    apply foldl_max_elem. by apply list_elem_of_fmap_2.
  - intros _.
    assert (H0 : ∀ (d : WalSegmentDescriptor) l, ∃ d', d' ∈ d :: l ∧ wd_last_lsn d' = foldl Z.max (wd_last_lsn d) (map wd_last_lsn l)).
    { clear d segs. intros d l. revert d. induction l as [|e l IH]; intros d; simpl;
        [exists d; split; [left|done]|].
      destruct (Z.max_spec (wd_last_lsn d) (wd_last_lsn e)) as [[_ ->]|[_ ->]].
      - destruct (IH e) as (d' & Hd' & E). exists d'. split; [by right|done].
      - destruct (IH d) as (d' & Hd' & E). exists d'. split; [|done].
        apply elem_of_cons in Hd' as [->|?]; [left|right; by right]. }
    apply H0.
Qed.

(** LSNs grow within a segment, so its last record has the largest. *)
Definition ascending (log : list mutation) : Prop := StronglySorted Z.lt (map lsn_of log).

Lemma ascending_last log mu : ascending log → mu ∈ log → lsn_of mu ≤ default 0 (lsn_of <$> last log).
Proof.
  unfold ascending. revert mu. induction log as [|x log IH]; intros mu Hs Hmu;
    [by apply elem_of_nil in Hmu|].
  simpl in Hs. apply StronglySorted_inv in Hs as [Hs Hx].
  destruct log as [|y log].
  - apply list_elem_of_singleton in Hmu as ->. simpl. lia.
  - change (last (x :: y :: log)) with (last (y :: log)).
    apply elem_of_cons in Hmu as [->|Hmu]; [|by apply IH].
    assert (lsn_of y ≤ default 0 (lsn_of <$> last (y :: log))) by (apply IH; [done|left]).
    apply Forall_cons in Hx as [Hxy _]. lia.
Qed.

Lemma durable_lsn_bound s segs logs mu :
  Forall2 (segment_durable s) segs logs → Forall ascending logs → mu ∈ concat logs →
  ∃ d, d ∈ segs ∧ lsn_of mu ≤ wd_last_lsn d.
Proof.
  intros Hd. induction Hd as [|d log segs logs (recs & Hlog & _ & _ & _ & Hlast) _ IH];
    intros Hasc Hmu; [by apply elem_of_nil in Hmu|].
  apply Forall_cons in Hasc as [Ha Hasc]. simpl in Hmu. apply elem_of_app in Hmu as [Hmu|Hmu].
  - exists d. split; [left|]. rewrite (last_lsn_log log recs _ Hlog) in Hlast. rewrite <- Hlast.
    by apply ascending_last.
  - destruct (IH Hasc Hmu) as (d' & ? & ?). exists d'. split; [by right|done].
Qed.

Lemma durable_lsn_attained s segs logs d :
  Forall2 (segment_durable s) segs logs → d ∈ segs → 0 < wd_last_lsn d →
  ∃ mu, mu ∈ concat logs ∧ lsn_of mu = wd_last_lsn d.
Proof.
  intros Hd Hin Hpos. induction Hd as [|d' log segs logs (recs & Hlog & _ & _ & _ & Hlast) _ IH];
    [by apply elem_of_nil in Hin|].
  apply elem_of_cons in Hin as [->|Hin].
  - rewrite (last_lsn_log log recs _ Hlog) in Hlast.
    destruct (last log) as [mu|] eqn:El; simpl in Hlast; [|lia]. exists mu. split; [|done].
    simpl. apply elem_of_app. left. apply last_Some in El as [l' ->]. set_solver.
  - destruct (IH Hin) as (mu & ? & ?). exists mu. split; [|done]. simpl. apply elem_of_app. by right.
Qed.

(** The largest LSN of the log is the largest [last_lsn] the manifest declares. *)
Lemma max_lsn_log s segs segs' logs :
  Forall2 (segment_durable s) segs' logs → segs' ≡ₚ segs → Forall ascending logs →
  0 ≤ max_last_lsn segs →
  foldl Z.max 0 (map lsn_of (concat logs)) = max_last_lsn segs.
Proof.
  intros Hd Hp Hasc H0. destruct (max_last_lsn_spec segs) as [Hle Hex]. apply Z.le_antisymm.
  - apply foldl_max_least; [done|]. apply Forall_forall. intros x Hx.
    apply list_elem_of_fmap in Hx as (mu & -> & Hmu).
    destruct (durable_lsn_bound s segs' logs mu Hd Hasc Hmu) as (d & Hin & Hb).
    rewrite Hp in Hin. specialize (Hle d Hin). lia.
  - destruct (decide (max_last_lsn segs ≤ 0)) as [Hz|Hz].
    { pose proof (foldl_max_ge 0 (map lsn_of (concat logs))). lia. }
    destruct Hex as (d & Hin & E); [by intros ->|].
    destruct (durable_lsn_attained s segs' logs d Hd) as (mu & Hmu & Emu); [by rewrite Hp|lia|].
    rewrite <- E, <- Emu. apply foldl_max_elem. by apply list_elem_of_fmap_2.
Qed.

(** ** Seeding from a checkpoint *)

Definition entries_of (m : Memtable) : list (MemKey * Z * MemOp) :=
  map (λ '(k, e), (k, entry_lsn e, entry_op e)) (Memtable_iter m).

Lemma seed_collected m iter : foldl seed_entry m (collect_entries iter) = apply_all m iter.
Proof.
  revert m. induction iter as [|[[k lsn] op] iter IH]; intros m; [done|].
  simpl. rewrite IH. unfold seed_entry. simpl. by rewrite mem_wal_op.
Qed.

(** Applying the entries of a memtable to an empty one rebuilds it. *)
Lemma apply_entries m : accounted m → apply_all Memtable_new (entries_of m) = m.
Proof.
  intros Hacc. apply memtable_ext; [apply apply_all_accounted, accounted_new|done|].
  apply map_eq. intros k. rewrite apply_all_new_lookup. unfold entries_of, Memtable_iter.
  pose proof (ord_iter_NoDup_keys (mt_inner m)) as Hnd.
  assert (Hl : ∀ k e, (k, e) ∈ ord_iter (mt_inner m) ↔ mt_inner m !! k = Some e).
  { intros k' e'. rewrite ord_iter_Permutation. apply elem_of_map_to_list. }
  destruct (mt_inner m !! k) as [e|] eqn:E.
  - apply Hl in E. revert Hnd E. generalize (ord_iter (mt_inner m)). intros l.
    induction l as [|[k' e'] l IH]; intros Hnd Hin; [by apply elem_of_nil in Hin|].
    simpl in *. apply NoDup_cons in Hnd as [Hk' Hnd]. apply elem_of_cons in Hin as [[= <- <-]|Hin].
    + destruct (last_for k _) as [e2|] eqn:E2.
      * exfalso. apply Hk'. apply last_for_In in E2. apply list_elem_of_fmap in E2 as ([k2 e3] & [= <- _ _] & ?).
        apply list_elem_of_fmap. by exists (k, e3).
      * rewrite decide_True by done. by destruct e.
    + by rewrite IH.
  - destruct (last_for k _) as [e|] eqn:El; [|done]. exfalso. apply last_for_In in El.
    apply list_elem_of_fmap in El as ([k2 e3] & [= <- _ _] & Hin). apply Hl in Hin. congruence.
Qed.

Lemma replay_segments_covered floor segs m mx n s :
  (∀ d, d ∈ segs → wd_last_lsn d ≤ floor) →
  run (replay_segments floor segs m mx n) s = (Some (Ok (m, mx, n)), s).
Proof.
  intros Hc. induction segs as [|d segs IH]; [done|]. cbn [replay_segments].
  rewrite (proj2 (Z.leb_le _ _)) by (apply Hc; left). apply IH. intros d' Hd'. apply Hc. by right.
Qed.

(** ** The checkpoint wire *)

Hypothesis xxh3_u64 : ∀ b, is_u64 (xxh3_64 b).

Lemma check_appendix_ok sn prefix magic_len binding bv :
  bincode_deserialize binding = Ok bv →
  let body := prefix ++ magic_len ++ binding in
  check_appendix sn (body ++ le_split 8 (xxh3_64 body)) (length prefix + length magic_len)
    (length body) (length body + 8)
  = Ok {| ds_snapshot := sn; ds_wal_segments := sb_wal_segments bv |}.
Proof.
  intros Hb body. unfold check_appendix.
  assert (slice (body ++ le_split 8 (xxh3_64 body)) (length body) (length body + 8)
          = le_split 8 (xxh3_64 body)) as ->.
  { unfold slice. rewrite drop_app_length, take_ge; [done|]. rewrite length_le_split. lia. }
  rewrite take_app_length, le_combine_split_small by apply xxh3_u64. rewrite Z.eqb_refl. cbn [negb].
  assert (slice (body ++ le_split 8 (xxh3_64 body)) (length prefix + length magic_len) (length body)
          = binding) as ->; [|by rewrite Hb].
  unfold slice, body. rewrite !length_app. rewrite <- !(assoc_L (++)).
  rewrite (assoc_L (++) prefix magic_len).
  replace (length prefix + length magic_len)%nat with (length (prefix ++ magic_len))
    by by rewrite length_app.
  rewrite drop_app_length. rewrite length_app.
  replace (_ - _)%nat with (length binding) by lia. by rewrite take_app_length.
Qed.

Lemma decode_snapshot_bytes sn segs b :
  snapshot_typed sn → sf_version sn = MEMTABLE_SNAPSHOT_VERSION →
  snapshot_bytes sn segs = Ok b → Z.of_nat (length b) ≤ u64_max →
  decode_memtable_snapshot b
  = Ok {| ds_snapshot := sn;
          ds_wal_segments := match segs with Some l => Some (map from_descriptor l) | None => None end |}.
Proof.
  intros Ht Hv Hb Hlen. unfold snapshot_bytes in Hb.
  destruct (bincode_serialize sn) as [prefix|] eqn:Ep; [|done].
  set (bind := {| sb_wal_segments := _ |}) in Hb.
  destruct (bincode_serialize bind) as [binding|] eqn:Eb; [|done].
  set (ml := MEMTABLE_SNAPSHOT_MAGIC ++ le_split 8 (Z.of_nat (length binding))).
  assert (Hbb : b = (prefix ++ ml ++ binding) ++ le_split 8 (xxh3_64 (prefix ++ ml ++ binding))).
  { injection Hb as <-. unfold ml. by rewrite <- !(assoc_L (++)). }
  clear Hb. assert (Hml : length ml = 16%nat) by (unfold ml; by rewrite length_app, length_le_split).
  assert (Hlb : length b = (length prefix + 16 + length binding + 8)%nat).
  { rewrite Hbb, !length_app, length_le_split, Hml. lia. }
  assert (Hde : bincode_deserialize binding = Ok bind).
  { unfold bincode_deserialize. rewrite <- (app_nil_r binding).
    by rewrite (bincode_roundtrip bind binding [] I Eb). }
  unfold decode_memtable_snapshot. rewrite Hbb at 1. rewrite <- (assoc_L (++)).
  rewrite (bincode_roundtrip sn prefix _ Ht Ep). rewrite Hv, Z.eqb_refl. cbn [negb].
  assert (Happ : drop (length prefix) b = ml ++ binding ++ le_split 8 (xxh3_64 (prefix ++ ml ++ binding))).
  { rewrite Hbb, <- (assoc_L (++)), drop_app_length. by rewrite <- (assoc_L (++)). }
  rewrite Happ. unfold MEMTABLE_SNAPSHOT_HEADER_BYTES, MEMTABLE_SNAPSHOT_FOOTER_BYTES.
  destruct (Nat.ltb_spec (length (ml ++ binding ++ le_split 8 (xxh3_64 (prefix ++ ml ++ binding)))) (8 + 8 + 8)) as [Hs|_].
  { rewrite !length_app, Hml, length_le_split in Hs. lia. }
  assert (Ht8 : take 8 (ml ++ binding ++ le_split 8 (xxh3_64 (prefix ++ ml ++ binding))) = MEMTABLE_SNAPSHOT_MAGIC).
  { unfold ml. rewrite <- (assoc_L (++)). by rewrite (take_app_length' MEMTABLE_SNAPSHOT_MAGIC). }
  rewrite bool_decide_eq_true_2 by done. cbn [negb].
  assert (Hsl : slice (ml ++ binding ++ le_split 8 (xxh3_64 (prefix ++ ml ++ binding))) 8 16
                = le_split 8 (Z.of_nat (length binding))).
  { unfold slice, ml. rewrite <- (assoc_L (++)). rewrite (drop_app_length' MEMTABLE_SNAPSHOT_MAGIC) by done.
    rewrite take_app_length'; [done|]. by rewrite length_le_split. }
  rewrite Hsl, le_combine_split_small by (unfold u64_max in Hlen; lia).
  unfold checked_add64. rewrite !(proj2 (Z.leb_le _ _)) by lia.
  replace (Z.of_nat (length b) =? _) with true by (symmetry; apply Z.eqb_eq; lia). cbn [negb].
  pose proof (check_appendix_ok sn prefix ml binding bind Hde) as Hc. cbv zeta in Hc. rewrite <- Hbb in Hc.
  rewrite !length_app, Hml in Hc.
  replace (Z.to_nat (Z.of_nat (length prefix) + Z.of_nat (8 + 8))) with (length prefix + 16)%nat by lia.
  replace (Z.to_nat (Z.of_nat (length prefix) + Z.of_nat (8 + 8) + Z.of_nat (length binding)))
    with (length prefix + (16 + length binding))%nat by lia.
  replace (Z.to_nat _) with (length prefix + (16 + length binding) + 8)%nat by lia.
  done.
Qed.

Lemma run_replay s m mt mx logs used :
  Forall2 (segment_durable s) (merge_sort seq_le (mf_wal_segments m)) logs →
  run (replay_manifest m mt mx 0 used) s
  = (Some (Ok {| rm_memtable := apply_all mt (concat logs);
                 rm_max_lsn := foldl Z.max mx (map lsn_of (concat logs));
                 rm_records_replayed := length (concat logs); rm_used_snapshot := used |}), s).
Proof.
  intros Hd. unfold replay_manifest. destruct (mf_wal_segments m) as [|d segs].
  { apply Forall2_nil_inv_l in Hd as ->. done. }
  unfold mbind, prog_bind. rewrite run_pthen, (replay_segments_log s _ logs mt mx 0 Hd). done.
Qed.

Lemma run_replay_covered s m mt used :
  ∃ n used', run (replay_manifest m mt (max_last_lsn (mf_wal_segments m))
                    (max_last_lsn (mf_wal_segments m)) used) s
  = (Some (Ok {| rm_memtable := mt; rm_max_lsn := max_last_lsn (mf_wal_segments m);
                 rm_records_replayed := n; rm_used_snapshot := used' |}), s).
Proof.
  unfold replay_manifest. destruct (mf_wal_segments m) as [|d0 segs] eqn:Es; [by eexists _, _|].
  rewrite <- Es. unfold mbind, prog_bind.
  rewrite run_pthen, replay_segments_covered; [by eexists _, _|].
  intros d Hin. rewrite (merge_sort_Permutation seq_le) in Hin. by apply max_last_lsn_spec.
Qed.

Lemma durable_last_lsn_range s segs logs d :
  Forall2 (segment_durable s) segs logs → d ∈ segs → 0 ≤ wd_last_lsn d ≤ u64_max.
Proof.
  intros Hd Hin. induction Hd as [|d' log segs logs (recs & Hlog & Hok & _ & _ & Hlast) _ IH];
    [by apply elem_of_nil in Hin|]. apply elem_of_cons in Hin as [->|Hin]; [|by apply IH].
  rewrite (last_lsn_log log recs _ Hlog) in Hlast.
  destruct (last log) as [mu|] eqn:El; simpl in Hlast; [|unfold u64_max; lia].
  apply last_Some in El as [l' ->]. apply Forall_app in Hok as [_ Hok].
  apply Forall_cons in Hok as [Hmu _]. unfold lsn_ok in Hmu. lia.
Qed.

Lemma durable_lsn_ok s segs logs : Forall2 (segment_durable s) segs logs → Forall lsn_ok (concat logs).
Proof.
  intros Hd. induction Hd as [|d log segs logs (recs & _ & Hok & _) _ IH]; simpl; [constructor|].
  by apply Forall_app.
Qed.

Lemma checkpoint_typed s m logs :
  Forall2 (segment_durable s) (merge_sort seq_le (mf_wal_segments m)) logs →
  snapshot_typed (from_manifest m (entries_of (apply_all Memtable_new (concat logs)))).
Proof.
  intros Hd. split; simpl.
  - destruct (max_last_lsn_spec (mf_wal_segments m)) as [_ Hex].
    destruct (mf_wal_segments m) as [|d0 segs0] eqn:Es; [done|]. rewrite <- Es in *.
    destruct Hex as (d & Hin & <-); [by rewrite Es|].
    rewrite <- (merge_sort_Permutation seq_le) in Hin.
    pose proof (durable_last_lsn_range s _ logs d Hd Hin). word_lia.
  - apply Forall_forall. intros e He. apply list_elem_of_fmap in He as ([[k lsn] op] & -> & He).
    apply list_elem_of_fmap in He as ([k' e'] & [= <- -> ->] & He). simpl.
    unfold Memtable_iter in He. rewrite ord_iter_Permutation in He.
    apply elem_of_map_to_list in He. rewrite apply_all_new_lookup in He. apply last_for_In in He.
    pose proof (durable_lsn_ok s _ logs Hd) as Hok. rewrite Forall_forall in Hok.
    specialize (Hok _ He). unfold lsn_ok, lsn_of, is_uint, u64_max in *. simpl in Hok. lia.
Qed.

(** The checkpoint object is missing, unusable, of another WAL closure, or the one
    the writer stores for this manifest and memtable. *)
Definition checkpoint_state (s : Objects) (m : Manifest) (mt : Memtable) : Prop :=
  match s !! memtable_snapshot with
  | None => True
  | Some b =>
      (∃ e, decode_memtable_snapshot b = Err e) ∨
      (∃ d, decode_memtable_snapshot b = Ok d ∧ covers_manifest d m = false) ∨
      (snapshot_bytes (from_manifest m (entries_of mt)) (Some (mf_wal_segments m)) = Ok b ∧
       Z.of_nat (length b) ≤ u64_max)
  end.

(** ** Properties *)

(** C29: cold-start recovery replays exactly the committed log: when every WAL
    segment the manifest references is durable, the recovered memtable is the result
    of applying all their records in segment order, with the largest LSN and the
    exact record count. *)
Theorem recovery_replays_log s m logs :
  Forall2 (segment_durable s) (merge_sort seq_le (mf_wal_segments m)) logs →
  run (recover_memtable m) s
  = (Some (Ok {| rm_memtable := apply_all Memtable_new (concat logs);
                 rm_max_lsn := foldl Z.max 0 (map lsn_of (concat logs));
                 rm_records_replayed := length (concat logs);
                 rm_used_snapshot := false |}), s).
Proof. apply run_replay. Qed.

End Recovery.
