(* ===== verification/ManifestProtocol.v ===== *)
(** The epoch fence ([fence.rs]) and the manifest commit protocol ([manifest.rs],
    [ManifestStore]).

    Each [async fn] of [ManifestStore] is a program over the object store, with
    the same requests in the same order and the same decisions on their
    answers. JSON is third-party: a [JsonCodec] is what [serde_json] promises for
    a type. [crc32] and [xxh3_64] are hash functions of other crates. The clock
    and the UUID generator are arguments, indexed by the round that reads them.
    The unbounded loops ([claim_writer], [wal_slot_matches]) take fuel, and end in
    [OutOfFuel] when it runs out. *)
From S2P Require Import Prelude StorageError Wal ManifestTypes DescriptorIndex Paths ObjectStore.

(** ** Single-writer epoch fencing *)

Abbreviation Epoch := Z (only parsing).

Definition Epoch_ZERO : Epoch := 0.
Definition Epoch_next (e : Epoch) : Epoch := wrapping_add64 e 1.

Record WriterFence := { f_epoch : Epoch; f_writer_id : Z }.

(** [uuid] is [Uuid::now_v7()]. *)
Definition WriterFence_new (epoch : Epoch) (uuid : Z) : WriterFence :=
  {| f_epoch := epoch; f_writer_id := uuid |}.

Definition assert_alive (f : WriterFence) (current : Epoch) : Result unit :=
  if f_epoch f <? current then Err (Fenced (f_epoch f) current) else Ok tt.

(** [serde_json::to_vec] and [from_slice] for a type whose values satisfy [typed]
    (the ranges of its machine integers). *)
Class JsonCodec (A : Type) (typed : A → Prop) := {
  to_vec : A → result string (list byte);
  from_slice : list byte → result string A;
  from_to_vec a b : typed a → to_vec a = Ok b → from_slice b = Ok a;
  from_slice_typed b a : from_slice b = Ok a → typed a;
}.

Definition manifest_typed (m : Manifest) : Prop := is_u64 (mf_version m) ∧ is_u64 (mf_epoch m).
Definition pointer_typed (p : ManifestPointer) : Prop := is_u64 (ptr_version p) ∧ is_u64 (ptr_epoch p).

(** [LoadedManifest]; the descriptor index is built from the manifest. *)
Record LoadedManifest := {
  lm_pointer : ManifestPointer;
  lm_pointer_etag : option string;
  lm_pointer_version : option string;
  lm_manifest : Manifest;
  lm_index : DescriptorIndex;
}.

Definition LoadedManifest_new (pointer : ManifestPointer) (etag version : option string)
    (manifest : Manifest) : LoadedManifest :=
  {| lm_pointer := pointer; lm_pointer_etag := etag; lm_pointer_version := version;
     lm_manifest := manifest; lm_index := DescriptorIndex_build (mf_ssts manifest) |}.

Definition MAX_PROBE : nat := Z.to_nat 8192.
Definition MAX_STALLED_ROUNDS : nat := 8.
Definition MAX_REPAIR_PASSES : nat := 4.

(** [parsed.created_at = new_manifest.created_at] *)
Definition with_created_at (m : Manifest) (t : Z) : Manifest :=
  {| mf_version := mf_version m; mf_epoch := mf_epoch m; mf_writer_id := mf_writer_id m;
     mf_created_at := t; mf_ssts := mf_ssts m; mf_wal_segments := mf_wal_segments m;
     mf_label_dict := mf_label_dict m; mf_catalog := mf_catalog m |}.
(** [new_manifest.epoch = e] *)
Definition with_epoch (m : Manifest) (e : Z) : Manifest :=
  {| mf_version := mf_version m; mf_epoch := e; mf_writer_id := mf_writer_id m;
     mf_created_at := mf_created_at m; mf_ssts := mf_ssts m;
     mf_wal_segments := mf_wal_segments m;
     mf_label_dict := mf_label_dict m; mf_catalog := mf_catalog m |}.

Section Protocol.
Context `{!KeySpace} `{!JsonCodec Manifest manifest_typed}.
Context `{!JsonCodec ManifestPointer pointer_typed}.
Context (crc32 : list byte → Z) (xxh3_64 : list byte → Z).

Definition put_create (path : Path) (body : list byte) : prog PutResult :=
  r ← store (PutCreate path body); lift r.

Definition write_advisory_current (pointer_bytes : list byte) : prog unit :=
  r ← store (PutOverwrite current_pointer pointer_bytes); _ ← lift r; mret ().

(** ** Loading *)

Definition load_manifest_at (version : Z) : prog Manifest :=
  r ← store (Get (manifest_version version));
  res ← lift r;
  body ← lift (get_bytes res);
  lift_json (from_slice body).

(** The bounded HEAD loop; the fuel is what is left of [MAX_PROBE]. *)
Fixpoint probe_loop (fuel : nat) (n : Z) : prog Z :=
  match fuel with
  | O => fail PointerResolveStale
  | S fuel' =>
      let next := saturating_add64 n 1 in
      r ← store (Head (pointer_version next));
      match r with
      | Ok _ => probe_loop fuel' next
      | Err NotFound => mret n
      | Err e => fail (ObjectStore e)
      end
  end.
Definition probe_pointer_forward (n : Z) : prog Z := probe_loop MAX_PROBE n.

Definition max_listed (l : list Path) : option Z :=
  foldl (λ max location,
    match pointer_number location with
    | Some v => Some (match max with Some m => Z.max m v | None => v end)
    | None => max
    end) None l.

Definition max_pointer_version : prog (option Z) :=
  r ← store (ListDir pointer_dir);
  listed ← lift r;
  match max_listed listed with
  | Some max => mret (Some max)
  | None =>
      h ← store (Head (pointer_version 0));
      match h with
      | Ok _ => mret (Some 0)
      | Err _ =>
          g ← store (Get current_pointer);
          match g with
          | Ok res =>
              match get_bytes res with
              | Ok body =>
                  match from_slice body with
                  | Ok p =>
                      h ← store (Head (pointer_version (ptr_version p)));
                      mret (match h with Ok _ => Some (ptr_version p) | Err _ => None end)
                  | Err _ => mret None
                  end
              | Err _ => mret None
              end
          | Err _ => mret None
          end
      end
  end.

Definition load_pointer : prog (ManifestPointer * option string * option string) :=
  max ← max_pointer_version;
  path ← match max with
         | Some max_n => n ← probe_pointer_forward max_n; mret (pointer_version n)
         | None => mret current_pointer
         end;
  r ← store (Get path);
  res ← lift r;
  body ← lift (get_bytes res);
  pointer ← lift_json (from_slice body);
  mret (pointer, get_e_tag res, get_version res).

Definition load_current : prog LoadedManifest :=
  '(pointer, pointer_etag, pointer_version) ← load_pointer;
  let manifest_path := key_from (ptr_manifest_path pointer) in
  r ← store (Get manifest_path);
  manifest_res ← lift r;
  manifest_body ← lift (get_bytes manifest_res);
  manifest ← lift_json (from_slice manifest_body);
  if negb (mf_version manifest =? ptr_version pointer)
  then fail (Corrupted manifest_path "manifest version does not match pointer version")
  else mret (LoadedManifest_new pointer pointer_etag pointer_version manifest).

(** ** Bootstrap *)

Definition bootstrap (writer_id now : Z) : prog LoadedManifest :=
  let empty := Manifest_empty Epoch_ZERO writer_id now in
  let manifest_path := manifest_version (mf_version empty) in
  body ← lift_json (to_vec empty);
  r ← attempt (put_create manifest_path body);
  manifest ← match r with
    | Ok _ => mret empty
    | Err (ObjectStore AlreadyExists) =>
        existing ← load_manifest_at (mf_version empty);
        if negb (mf_version existing =? mf_version empty)
        then fail (Corrupted manifest_path "manifest body holds another version")
        else mret existing
    | Err other => fail other
    end;
  let pointer := {| ptr_version := mf_version manifest; ptr_epoch := mf_epoch manifest;
                    ptr_manifest_path := manifest_path |} in
  let pointer_path := pointer_version (mf_version manifest) in
  pointer_bytes ← lift_json (to_vec pointer);
  r ← attempt (put_create pointer_path pointer_bytes);
  put_res ← match r with
    | Ok r => mret r
    | Err (ObjectStore AlreadyExists) => fail (Precondition "namespace already bootstrapped")
    | Err other => fail other
    end;
  _ ← write_advisory_current pointer_bytes;
  mret (LoadedManifest_new pointer (put_e_tag put_res) (put_version put_res) manifest).

(** ** Commit *)

Definition existing_body_is_ours (manifest_path : Path) (attempted : list byte)
    (new_manifest : Manifest) : prog bool :=
  g ← store (Get manifest_path);
  match g with
  | Ok res =>
      existing ← lift (get_bytes res);
      if bool_decide (existing = attempted) then mret true
      else match from_slice existing with
           | Err _ => mret false
           | Ok parsed =>
               let parsed := with_created_at parsed (mf_created_at new_manifest) in
               mret (bool_decide (parsed = new_manifest))
           end
  | Err NotFound => mret false
  | Err e => fail (ObjectStore e)
  end.

Definition put_body (fence : WriterFence) (base : LoadedManifest) (new_manifest : Manifest)
    : prog ManifestPointer :=
  _ ← Ret (assert_alive fence (mf_epoch (lm_manifest base)));
  if negb (mf_version new_manifest =? wrapping_add64 (mf_version (lm_manifest base)) 1)
  then fail (Invariant "new manifest version must be base + 1")
  else if mf_epoch new_manifest <? mf_epoch (lm_manifest base)
  then fail (Invariant "new epoch cannot regress below base epoch")
  else
    let manifest_path := manifest_version (mf_version new_manifest) in
    body ← lift_json (to_vec new_manifest);
    r ← attempt (put_create manifest_path body);
    _ ← match r with
      | Ok _ => mret ()
      | Err (ObjectStore AlreadyExists) =>
          ours ← existing_body_is_ours manifest_path body new_manifest;
          if negb ours then
            reloaded ← load_current;
            if f_epoch fence <? mf_epoch (lm_manifest reloaded)
            then fail (Fenced (f_epoch fence) (mf_epoch (lm_manifest reloaded)))
            else fail (ManifestCommitCas (ptr_version (lm_pointer base)) (mf_version new_manifest))
          else mret ()
      | Err other => fail other
      end;
    mret {| ptr_version := mf_version new_manifest; ptr_epoch := mf_epoch new_manifest;
            ptr_manifest_path := manifest_path |}.

Definition cas_pointer (fence : WriterFence) (base : LoadedManifest) (new_manifest : Manifest)
    (pointer : ManifestPointer) : prog LoadedManifest :=
  let pointer_path := pointer_version (ptr_version pointer) in
  pointer_bytes ← lift_json (to_vec pointer);
  r ← attempt (put_create pointer_path pointer_bytes);
  put_res ← match r with
    | Ok r => mret r
    | Err (ObjectStore AlreadyExists) =>
        reloaded ← load_current;
        if f_epoch fence <? mf_epoch (lm_manifest reloaded)
        then fail (Fenced (f_epoch fence) (mf_epoch (lm_manifest reloaded)))
        else fail (ManifestCommitCas (ptr_version (lm_pointer base))
                     (ptr_version (lm_pointer reloaded)))
    | Err other => fail other
    end;
  _ ← write_advisory_current pointer_bytes;
  mret (LoadedManifest_new pointer (put_e_tag put_res) (put_version put_res) new_manifest).

Definition commit (fence : WriterFence) (base : LoadedManifest) (new_manifest : Manifest)
    : prog LoadedManifest :=
  pointer ← put_body fence base new_manifest;
  cas_pointer fence base new_manifest pointer.

(** ** Stall repair *)

Fixpoint wal_slot_matches (fuel : nat) (seq declared_last_lsn : Z) (declared_xxh3 : option Z)
    (seg_path : Path) : prog bool :=
  match fuel with
  | O => OutOfFuel
  | S fuel' =>
      g ← store (Get seg_path);
      match g with
      | Err NotFound =>
          let sentinel := WalSegment_encode crc32 (WalSegment_new seq) in
          r ← store (PutCreate seg_path sentinel);
          match r with
          | Ok _ => mret false
          | Err AlreadyExists => wal_slot_matches fuel' seq declared_last_lsn declared_xxh3 seg_path
          | Err e => fail (ObjectStore e)
          end
      | Err e => fail (ObjectStore e)
      | Ok res =>
          bytes ← lift (get_bytes res);
          let content_verified :=
            match declared_xxh3 with Some h => xxh3_64 bytes =? h | None => false end in
          mret (match WalSegment_decode crc32 "wal#" seq bytes with
                | Ok segment =>
                    negb (WalSegment_is_empty segment)
                    && (last_lsn segment =? declared_last_lsn)
                    && content_verified
                | Err _ => false
                end)
      end
  end.

(** The SST loop: [true] when every added SST is durable. *)
Fixpoint orphan_ssts_durable (added : list SstDescriptor) : prog bool :=
  match added with
  | [] => mret true
  | sst :: rest =>
      let absolute := namespace_prefix +:+ "/" +:+ sst_path sst in
      h ← store (Head (key_from absolute));
      match h with
      | Err NotFound => mret false
      | Err e => fail (ObjectStore e)
      | Ok _ =>
          match node_property_pages_sidecar sst with
          | None => orphan_ssts_durable rest
          | Some properties =>
              if negb (is_bound_to properties sst) then mret false
              else
                let absolute := namespace_prefix +:+ "/" +:+ pp_path properties in
                h ← store (Head (key_from absolute));
                match h with
                | Ok size => if size =? pp_size_bytes properties
                             then orphan_ssts_durable rest else mret false
                | Err NotFound => mret false
                | Err e => fail (ObjectStore e)
                end
          end
      end
  end.

(** The WAL loop. *)
Fixpoint orphan_wal_durable (fuel : nat) (added : list WalSegmentDescriptor) : prog bool :=
  match added with
  | [] => mret true
  | seg :: rest =>
      let seg_path := wal_segment (wd_seq seg) in
      if negb (bool_decide (wd_path seg = seg_path)) then mret false
      else
        matches ← wal_slot_matches fuel (wd_seq seg) (wd_last_lsn seg) (wd_xxh3 seg) seg_path;
        if negb matches then mret false else orphan_wal_durable fuel rest
  end.

Definition orphan_ready_to_publish (fuel : nat) (base : LoadedManifest) (version : Z)
    (body : list byte) : prog (option Manifest) :=
  match from_slice body with
  | Err _ => mret None
  | Ok orphan =>
      if negb (mf_version orphan =? version) || (mf_epoch orphan <? mf_epoch (lm_manifest base))
      then mret None
      else
        let base_ssts := map sst_path (mf_ssts (lm_manifest base)) in
        ok ← orphan_ssts_durable (filter (λ s, sst_path s ∉ base_ssts) (mf_ssts orphan));
        if negb ok then mret None
        else
          let base_wal := map wd_seq (mf_wal_segments (lm_manifest base)) in
          ok ← orphan_wal_durable fuel (filter (λ s, wd_seq s ∉ base_wal) (mf_wal_segments orphan));
          if negb ok then mret None else mret (Some orphan)
  end.

Definition repair_stalled_commit (fuel : nat) (base : LoadedManifest) : prog unit :=
  let version := saturating_add64 (ptr_version (lm_pointer base)) 1 in
  let body_path := manifest_version version in
  h ← store (Head (pointer_version version));
  match h with
  | Ok _ => mret ()
  | Err NotFound =>
      g ← store (Get body_path);
      match g with
      | Err NotFound => mret ()
      | Err e => fail (ObjectStore e)
      | Ok res =>
          body ← lift (get_bytes res);
          verdict ← orphan_ready_to_publish fuel base version body;
          match verdict with
          | Some orphan =>
              let pointer := {| ptr_version := version; ptr_epoch := mf_epoch orphan;
                                ptr_manifest_path := body_path |} in
              pointer_bytes ← lift_json (to_vec pointer);
              r ← attempt (put_create (pointer_version version) pointer_bytes);
              match r with
              | Ok _ => write_advisory_current pointer_bytes
              | Err (ObjectStore AlreadyExists) => mret ()
              | Err e => fail e
              end
          | None =>
              d ← store (Delete body_path);
              match d with
              | Ok _ => mret ()
              | Err NotFound => mret ()
              | Err e => fail (ObjectStore e)
              end
          end
      end
  | Err e => fail (ObjectStore e)
  end.

(** ** Claiming the writer role *)

(** [uuids] and [now] are [Uuid::now_v7()] and [Utc::now()] at each round. *)
Fixpoint claim_loop (fuel : nat) (uuids now : nat → Z) (round : nat) (mine : option Epoch)
    (stalled_rounds repair_passes : nat) (last_version : option Z)
    : prog (LoadedManifest * WriterFence) :=
  match fuel with
  | O => OutOfFuel
  | S fuel' =>
      base ← load_current;
      if match mine with Some mine => mine <? mf_epoch (lm_manifest base) | None => false end
      then fail (Fenced (default 0 mine) (mf_epoch (lm_manifest base)))
      else
        let new_manifest := next_version (lm_manifest base) (uuids (2 * round)%nat) (now round) in
        let new_manifest := with_epoch new_manifest (Epoch_next (mf_epoch (lm_manifest base))) in
        let fence := WriterFence_new (mf_epoch new_manifest) (uuids (2 * round + 1)%nat) in
        let pretend := {| f_epoch := mf_epoch (lm_manifest base); f_writer_id := f_writer_id fence |} in
        r ← attempt (commit pretend base new_manifest);
        match r with
        | Ok loaded => mret (loaded, fence)
        | Err (ManifestCommitCas _ _) =>
            if bool_decide (last_version = Some (ptr_version (lm_pointer base))) then
              let stalled_rounds := S stalled_rounds in
              if (MAX_STALLED_ROUNDS <=? stalled_rounds)%nat then
                if (MAX_REPAIR_PASSES <=? repair_passes)%nat
                then fail (OrphanManifestBody (saturating_add64 (ptr_version (lm_pointer base)) 1))
                else
                  _ ← repair_stalled_commit fuel' base;
                  claim_loop fuel' uuids now (S round) mine 0 (S repair_passes) last_version
              else claim_loop fuel' uuids now (S round) mine stalled_rounds repair_passes last_version
            else claim_loop fuel' uuids now (S round) mine 0 repair_passes
                   (Some (ptr_version (lm_pointer base)))
        | Err other => fail other
        end
  end.

Definition claim_writer_unless_newer (fuel : nat) (uuids now : nat → Z) (mine : option Epoch)
    : prog (LoadedManifest * WriterFence) :=
  claim_loop fuel uuids now 0 mine 0 0 None.

Definition claim_writer (fuel : nat) (uuids now : nat → Z) : prog (LoadedManifest * WriterFence) :=
  claim_writer_unless_newer fuel uuids now None.
End Protocol.

#[global] Arguments MAX_PROBE : simpl never.
#[global] Opaque MAX_PROBE.
