(* ===== verification/Pins.v ===== *)
(** Retention pins ([pin.rs]): lease objects that tell the sweep of any process
    which versions a holder still reads.

    Wall-clock types belong to the [chrono] crate and are the class [Chrono]: an
    instant, a signed and an unsigned duration are their number of nanoseconds,
    with the documented behaviour of the conversions as laws. What the clock shows
    at a call is an argument of the operation; so is the fresh UUID of a lease. *)
From coqutil Require Import Datatypes.RecordSetters.
From S2P Require Import Prelude StorageError ManifestTypes Paths ObjectStore ManifestProtocol.
Import DoubleBraceUpdate.

Definition NANOS_PER_SEC : Z := 1000000000.

Class Chrono := {
  timestamp : Z → Z;                            (* [DateTime::timestamp] *)
  from_timestamp : Z → option Z;                (* [DateTime::from_timestamp(secs, 0)] *)
  num_seconds : Z → Z;                          (* [TimeDelta::num_seconds] *)
  from_std : Z → option Z;                      (* [TimeDelta::from_std] *)
  checked_sub_signed : Z → Z → option Z;
  checked_add_signed : Z → Z → option Z;
  MIN_UTC : Z;
  MAX_UTC : Z;
  is_instant : Z → Prop;                        (* the values a [DateTime] can take *)
  (** whole seconds since the epoch, rounded down *)
  timestamp_secs t : timestamp t = t / NANOS_PER_SEC;
  (** whole seconds of a duration, rounded towards zero *)
  num_seconds_secs d : num_seconds d = Z.quot d NANOS_PER_SEC;
  from_timestamp_nanos secs t : from_timestamp secs = Some t → t = secs * NANOS_PER_SEC;
  from_std_nanos d d' : from_std d = Some d' → d' = d;
  checked_sub_signed_exact t d u : checked_sub_signed t d = Some u → u = t - d;
  checked_add_signed_exact t d u : checked_add_signed t d = Some u → u = t + d;
  MIN_UTC_least t : is_instant t → MIN_UTC ≤ t;
}.

(** [std::time::Duration::as_secs] *)
Definition as_secs (d : Z) : Z := d / NANOS_PER_SEC.

Definition DEFAULT_PIN_TTL : Z := 15 * 60 * NANOS_PER_SEC.

Inductive PinScope := Floor | Point | Window (since : Z).
#[global] Instance PinScope_eq_dec : EqDecision PinScope.
Proof. solve_decision. Defined.

Definition is_floor (s : PinScope) : bool := match s with Floor => true | _ => false end.

Record PinLease := {
  pl_version : Z;
  pl_expires_at_unix : Z;
  pl_scope : PinScope;
}.
#[global] Instance PinLease_eq_dec : EqDecision PinLease.
Proof. solve_decision. Defined.

Definition i64_max : Z := 2 ^ 63 - 1.
Definition is_i64 (v : Z) : Prop := - 2 ^ 63 ≤ v ≤ i64_max.
Definition lease_typed (l : PinLease) : Prop := is_u64 (pl_version l) ∧ is_i64 (pl_expires_at_unix l).

(** [i64::saturating_add] *)
Definition saturating_add_i64 (a b : Z) : Z := Z.max (- 2 ^ 63) (Z.min i64_max (a + b)).

Record RetentionPin := {
  pin_path : Path;
  pin_version : Z;
  pin_scope : PinScope;
  pin_ttl : Z;
  pin_expires_at_unix : Z;
}.

(** [i64::try_from(self.ttl.as_secs()).unwrap_or(i64::MAX)] *)
Definition ttl_secs (pin : RetentionPin) : Z :=
  let secs := as_secs (pin_ttl pin) in
  if secs <=? i64_max then secs else i64_max.

Definition lapsed (pin : RetentionPin) (unix_now : Z) : bool :=
  pin_expires_at_unix pin - ttl_secs pin / 4 <=? unix_now.

Section Pins.
Context `{!KeySpace} `{!JsonCodec PinLease lease_typed}.

Definition write_lease (pin : RetentionPin) (unix_now : Z) : prog RetentionPin :=
  let lease := {| pl_version := pin_version pin;
                  pl_expires_at_unix := saturating_add_i64 unix_now (ttl_secs pin);
                  pl_scope := pin_scope pin |} in
  body ← lift_json (to_vec lease);
  r ← store (PutOverwrite (pin_path pin) body);
  _ ← lift r;
  mret pin{{ pin_expires_at_unix := pl_expires_at_unix lease }}.

Definition acquire_scoped (uuid : string) (version : Z) (scope : PinScope) (ttl unix_now : Z)
    : prog RetentionPin :=
  let pin := {| pin_path := pin_object uuid; pin_version := version; pin_scope := scope;
                pin_ttl := ttl; pin_expires_at_unix := 0 |} in
  write_lease pin unix_now.

Definition acquire (uuid : string) (version ttl unix_now : Z) : prog RetentionPin :=
  acquire_scoped uuid version Floor ttl unix_now.

Definition renew_if_due (pin : RetentionPin) (unix_now : Z) : prog RetentionPin :=
  if pin_expires_at_unix pin - ttl_secs pin / 2 <=? unix_now
  then write_lease pin unix_now
  else mret pin.

Definition release (pin : RetentionPin) : prog unit :=
  r ← store (Delete (pin_path pin));
  match r with
  | Ok _ | Err NotFound => mret ()
  | Err e => fail (ObjectStore e)
  end.

(** ** What a pin guarantees *)

(** The store holds the lease the handle believes in. *)
Definition lease_of (pin : RetentionPin) : PinLease :=
  {| pl_version := pin_version pin; pl_expires_at_unix := pin_expires_at_unix pin;
     pl_scope := pin_scope pin |}.
Definition pin_backed (s : Objects) (pin : RetentionPin) : Prop :=
  ∃ body, s !! pin_path pin = Some body ∧ from_slice body = Ok (lease_of pin).

Lemma saturating_add_i64_typed a b : is_i64 (saturating_add_i64 a b).
Proof. unfold is_i64, saturating_add_i64, i64_max. lia. Qed.

(** Writing a lease leaves the handle backed by the store, and nothing else changes. *)
Lemma run_write_lease pin now s pin' s' :
  is_u64 (pin_version pin) → run (write_lease pin now) s = (Some (Ok pin'), s') →
  pin_path pin' = pin_path pin ∧ pin_version pin' = pin_version pin ∧ pin_scope pin' = pin_scope pin ∧
  pin_ttl pin' = pin_ttl pin ∧ pin_backed s' pin' ∧ ∀ k, k ≠ pin_path pin → s' !! k = s !! k.
Proof.
  intros Hv. unfold write_lease. cbv zeta. rewrite run_bind.
  destruct (to_vec _) as [body|e] eqn:Eb; cbn [lift_json run]; [|done].
  rewrite (run_store (PutOverwrite _ _)). cbn [answer]. rewrite run_bind. cbn [lift run].
  intros [= <- <-]. destruct pin as [path version scope ttl exp].
  do 4 (split; [done|]). split; [|intros k Hk; by rewrite lookup_insert_ne].
  exists body. rewrite lookup_insert_eq. split; [done|]. apply from_to_vec in Eb; [done|].
  split; [done|]. apply saturating_add_i64_typed.
Qed.

(** The renewal check leaves at least half of the lifetime, and a pin that has not
    lapsed is unexpired for every clock within a quarter of the lifetime. *)
Lemma not_lapsed_unexpired pin h now :
  lapsed pin h = false → now ≤ h + ttl_secs pin / 4 → now < pin_expires_at_unix pin.
Proof. unfold lapsed. rewrite Z.leb_gt. lia. Qed.
End Pins.
