(* ===== verification/Janitor.v ===== *)
(** The orphan sweep ([janitor.rs]): [sweep_orphans] and its report.

    The sweep is a program over the object store, phase by phase in the order of
    the source: honour the pin leases, mark what the retained versions reference,
    re-check the leases, and reclaim the unreferenced SST objects, the retired
    manifest bodies and pointers, the dead WAL segments and a stale memtable
    checkpoint. The metadata a listing carries for a key (its write time and size)
    is given by [last_modified] and [object_size]: the sweep reads it once per key.
    Log lines are left out, and with them the expected level depth, which nothing
    else uses. *)
From coqutil Require Import Datatypes.RecordSetters.
From Stdlib Require Import Ascii.
From S2P Require Import Prelude StorageError Bloom ManifestTypes Paths ObjectStore Memtable Recovery ManifestProtocol Pins.

Import DoubleBraceUpdate.

(** ** Strings *)

(** [str::strip_prefix] *)
Fixpoint strip_prefix (pre s : string) : option string :=
  match pre with
  | EmptyString => Some s
  | String c pre' =>
      match s with
      | String c' s' => if Ascii.eqb c c' then strip_prefix pre' s' else None
      | EmptyString => None
      end
  end.

(** [str::split_once(c)] *)
Fixpoint split_once (c : ascii) (s : string) : option (string * string) :=
  match s with
  | EmptyString => None
  | String c' rest =>
      if Ascii.eqb c' c then Some (EmptyString, rest)
      else match split_once c rest with
           | Some (a, b) => Some (String c' a, b)
           | None => None
           end
  end.

(** [str::contains] *)
Fixpoint contains (needle s : string) : bool :=
  String.prefix needle s ||
  match s with EmptyString => false | String _ rest => contains needle rest end.

(** [str::parse::<u32>().ok()]: an optional [+], at least one digit, no overflow. *)
Fixpoint decimal_loop (s : string) (acc : Z) : option Z :=
  match s with
  | EmptyString => Some acc
  | String c rest =>
      if is_ascii_digit c then
        let v := acc * 10 + (Z.of_nat (nat_of_ascii c) - 48) in
        if 2 ^ 32 - 1 <? v then None else decimal_loop rest v
      else None
  end.
Definition parse_u32 (s : string) : option Z :=
  match s with
  | EmptyString => None
  | String c rest =>
      if Ascii.eqb c "+" then
        match rest with EmptyString => None | _ => decimal_loop rest 0 end
      else decimal_loop s 0
  end.

(** ** Data *)

Record JanitorReport := {
  orphans_found : Z;
  orphans_deleted : Z;
  bytes_freed : Z;
  skipped_too_young : Z;
  manifest_snapshots_reclaimed : Z;
  manifest_bytes_freed : Z;
  pointer_files_reclaimed : Z;
  pointer_bytes_freed : Z;
  wal_segments_reclaimed : Z;
  wal_bytes_freed : Z;
  memtable_snapshots_reclaimed : Z;
  memtable_snapshot_bytes_freed : Z;
  pins_honoured : Z;
  expired_pins_reclaimed : Z;
  aborted_by_pin : bool;
  restore_window_retained : Z;
  restore_window_bytes : Z;
}.

Definition JanitorReport_default : JanitorReport :=
  {| orphans_found := 0; orphans_deleted := 0; bytes_freed := 0; skipped_too_young := 0;
     manifest_snapshots_reclaimed := 0; manifest_bytes_freed := 0;
     pointer_files_reclaimed := 0; pointer_bytes_freed := 0;
     wal_segments_reclaimed := 0; wal_bytes_freed := 0;
     memtable_snapshots_reclaimed := 0; memtable_snapshot_bytes_freed := 0;
     pins_honoured := 0; expired_pins_reclaimed := 0; aborted_by_pin := false;
     restore_window_retained := 0; restore_window_bytes := 0 |}.

Record RestoreWindow := { rw_version : Z; rw_since : Z }.

(** The pin variables of the sweep. *)
Record PinView := {
  pv_report : JanitorReport;
  pv_floor : Z;
  pv_points : gset Z;
  pv_window : option RestoreWindow;
  pv_honoured : gmap Path PinLease;
}.

(** The sets [mark_live] fills. *)
Record LiveSet := {
  referenced : gset string;
  referenced_wal : gset Z;
}.

(** What a reclaim loop decides about one listed object. *)
Inductive Verdict := Keep | WindowKept | TooYoung | Reclaim.
#[global] Instance Verdict_eq_dec : EqDecision Verdict.
Proof. solve_decision. Defined.

(** ** Marking *)

Definition edge_point_sidecar_path (descriptor : SstDescriptor) : option string :=
  if negb (bool_decide (sst_kind descriptor = SkEdgesFwd)) then None
  else match strip_suffix ".ep.csr" (sst_path descriptor) with
       | Some base => Some (base +:+ ".epidx")
       | None => None
       end.

Definition paged_path (paged : option PagedPropertyIndexDescriptor) : list string :=
  match paged with Some p => [pg_path p] | None => [] end.

(** Every path [mark_live] inserts for one descriptor. *)
Definition descriptor_paths (desc : SstDescriptor) : list string :=
  [sst_path desc]
  ++ match sst_bloom desc with Some b => [bd_path b] | None => [] end
  ++ flat_map (λ u, ui_path u :: paged_path (ui_paged u)) (sst_unique_property_indices desc)
  ++ flat_map (λ e, ei_path e :: paged_path (ei_paged e)) (sst_equality_property_indices desc)
  ++ flat_map (λ c, ci_path c :: paged_path (ci_paged c)) (sst_composite_equality_indices desc)
  ++ match sst_label_index desc with Some li => [li_path li] | None => [] end
  ++ match sst_node_locator desc with
     | Some locator =>
         loc_path locator ::
         match loc_property_pages locator with Some p => [pp_path p] | None => [] end
     | None => []
     end
  ++ match edge_point_sidecar_path desc with Some point => [point] | None => [] end.

Definition mark_live (live : LiveSet) (manifest : Manifest) : LiveSet :=
  {| referenced :=
       foldl (λ acc desc, foldl (λ acc path, {[path]} ∪ acc) acc (descriptor_paths desc))
         (referenced live) (mf_ssts manifest);
     referenced_wal :=
       foldl (λ acc seg, {[wd_seq seg]} ∪ acc) (referenced_wal live) (mf_wal_segments manifest) |}.

(** ** The sweep *)

(** One unexpired lease, folded into the pin variables. *)
Definition honour (location : Path) (lease : PinLease) (pv : PinView) : PinView :=
  let pv := pv{{ pv_report ::= λ r, r{{ pins_honoured ::= Z.add 1 }};
                 pv_honoured ::= <[location := lease]> }} in
  match pl_scope lease with
  | Floor => pv{{ pv_floor ::= λ f, Z.min f (pl_version lease) }}
  | Point => pv{{ pv_points ::= λ ps, {[pl_version lease]} ∪ ps }}
  | Window since =>
      pv{{ pv_window := Some
             match pv_window pv with
             | None => {| rw_version := pl_version lease; rw_since := since |}
             | Some w => {| rw_version := Z.min (rw_version w) (pl_version lease);
                            rw_since := Z.min (rw_since w) since |}
             end }}
  end.

(** What the lease the sweep honoured at a key still covers of the one found there
    by the re-check. *)
Definition covered (seen : option PinLease) (lease : PinLease) : bool :=
  match seen with
  | None => false
  | Some seen =>
      match pl_scope seen, pl_scope lease with
      | Floor, _ => pl_version seen <=? pl_version lease
      | Point, Point => pl_version seen =? pl_version lease
      | Window a, Window b => (pl_version seen <=? pl_version lease) && (a <=? b)
      | _, _ => false
      end
  end.

Section Janitor.
Context `{!KeySpace} `{!JsonCodec Manifest manifest_typed} `{!JsonCodec ManifestPointer pointer_typed}.
Context `{!JsonCodec PinLease lease_typed} `{!Chrono}.
Context `{!Bincode MemtableSnapshotFile snapshot_typed}.
Context `{!Bincode MemtableSnapshotBindingV2 binding_typed}.
Context (xxh3_64 : list byte → Z) (last_modified object_size : Path → Z).

(** *** Leases *)

Fixpoint scan_pins (now_unix : Z) (delete : bool) (pins : list Path) (pv : PinView) : prog PinView :=
  match pins with
  | [] => mret pv
  | location :: rest =>
      g ← store (Get location);
      match g with
      | Ok res =>
          body ← lift (get_bytes res);
          match from_slice body with
          | Err _ => scan_pins now_unix delete rest pv
          | Ok lease =>
              if pl_expires_at_unix lease <? now_unix then
                let pv := pv{{ pv_report ::= λ r, r{{ expired_pins_reclaimed ::= Z.add 1 }} }} in
                if delete then
                  d ← store (Delete location); _ ← lift d;
                  scan_pins now_unix delete rest pv
                else scan_pins now_unix delete rest pv
              else scan_pins now_unix delete rest (honour location lease pv)
          end
      | Err NotFound => scan_pins now_unix delete rest pv
      | Err other => fail (ObjectStore other)
      end
  end.

Fixpoint pins_changed_loop (now_unix : Z) (honoured : gmap Path PinLease) (horizon : Z)
    (pins : list Path) : prog bool :=
  match pins with
  | [] => mret false
  | location :: rest =>
      g ← store (Get location);
      match g with
      | Ok res =>
          body ← lift (get_bytes res);
          match from_slice body with
          | Err _ => pins_changed_loop now_unix honoured horizon rest
          | Ok lease =>
              if (pl_expires_at_unix lease <? now_unix) || (horizon <=? pl_version lease)
              then pins_changed_loop now_unix honoured horizon rest
              else if negb (covered (honoured !! location) lease) then mret true
              else pins_changed_loop now_unix honoured horizon rest
          end
      | Err NotFound => pins_changed_loop now_unix honoured horizon rest
      | Err other => fail (ObjectStore other)
      end
  end.

Definition pins_changed_below_horizon (now_unix : Z) (honoured : gmap Path PinLease) (horizon : Z)
    : prog bool :=
  l ← store (ListDir pins_dir);
  pins ← lift l;
  pins_changed_loop now_unix honoured horizon pins.

(** *** The live set *)

(** [for version in horizon..=current_version] *)
Fixpoint mark_versions (current : Manifest) (strict_floor : Z) (versions : list Z) (live : LiveSet)
    : prog LiveSet :=
  match versions with
  | [] => mret live
  | version :: rest =>
      if version =? mf_version current
      then mark_versions current strict_floor rest (mark_live live current)
      else
        r ← attempt (load_manifest_at version);
        match r with
        | Ok m => mark_versions current strict_floor rest (mark_live live m)
        | Err (ObjectStore NotFound) =>
            if version <? strict_floor then mark_versions current strict_floor rest live
            else fail (ObjectStore NotFound)
        | Err e => fail e
        end
  end.

Fixpoint mark_extra (versions : list Z) (live : LiveSet) : prog LiveSet :=
  match versions with
  | [] => mret live
  | version :: rest =>
      r ← attempt (load_manifest_at version);
      match r with
      | Ok m => mark_extra rest (mark_live live m)
      | Err (ObjectStore NotFound) => mark_extra rest live
      | Err e => fail e
      end
  end.

(** *** Reclaiming *)

Definition too_young (now min_age_secs : Z) (location : Path) : bool :=
  num_seconds (now - last_modified location) <? min_age_secs.
Definition in_window (window_keep_since : option Z) (location : Path) : bool :=
  match window_keep_since with Some since => since <=? last_modified location | None => false end.

(** The part of a [levelN/] key after the level number, for a canonical number. *)
Definition level_file (relative : string) : option string :=
  match strip_prefix "sst/level" relative with
  | None => None
  | Some rest =>
      match split_once "/" rest with
      | None => None
      | Some (raw_level, file_name) =>
          match parse_u32 raw_level with Some _ => Some file_name | None => None end
      end
  end.

Definition sst_verdict (live : LiveSet) (window_keep_since : option Z) (now min_age_secs : Z)
    (absolute : Path) : Verdict :=
  match strip_prefix namespace_prefix absolute ≫= strip_prefix "/" with
  | None => Keep
  | Some relative =>
      match level_file relative with
      | None => Keep
      | Some file_name =>
          if String.eqb file_name "" || contains "/" file_name then Keep
          else if bool_decide (relative ∈ referenced live) then Keep
          else if in_window window_keep_since absolute then WindowKept
          else if too_young now min_age_secs absolute then TooYoung
          else Reclaim
      end
  end.

(** [(is_pointer, version)] of a manifest body or pointer file name. *)
Definition manifest_file (filename : string) : option (bool * Z) :=
  match match strip_prefix_char "v" filename with
        | Some rest => Some (false, rest)
        | None =>
            match strip_prefix_char "p" filename with Some rest => Some (true, rest) | None => None end
        end with
  | None => None
  | Some (is_pointer, rest) =>
      match strip_suffix ".json" rest with
      | None => None
      | Some hex =>
          match from_str_radix_16 hex with Some v => Some (is_pointer, v) | None => None end
      end
  end.

Definition listed_manifest (location : Path) : option (bool * Z) :=
  if contains "/pins/" location then None
  else match key_filename location with Some f => manifest_file f | None => None end.

Definition manifest_verdict (horizon body_floor : Z) (points : gset Z) (now min_age_secs : Z)
    (location : Path) : Verdict :=
  match listed_manifest location with
  | None => Keep
  | Some (is_pointer, version) =>
      if horizon <=? version then Keep
      else if negb is_pointer && ((body_floor <=? version) || bool_decide (version ∈ points)) then Keep
      else if too_young now min_age_secs location then TooYoung
      else Reclaim
  end.

Definition wal_file (location : Path) : option Z :=
  match key_filename location with
  | None => None
  | Some name =>
      match strip_suffix ".wal" name with Some hex => from_str_radix_16 hex | None => None end
  end.

Definition wal_verdict (live : LiveSet) (window_keep_since : option Z) (now min_age_secs : Z)
    (location : Path) : Verdict :=
  match wal_file location with
  | None => Keep
  | Some seq =>
      if bool_decide (seq ∈ referenced_wal live) then Keep
      else if in_window window_keep_since location then WindowKept
      else if too_young now min_age_secs location then TooYoung
      else Reclaim
  end.

Definition count_window (location : Path) (report : JanitorReport) : JanitorReport :=
  report{{ restore_window_retained ::= Z.add 1;
           restore_window_bytes ::= λ b, saturating_add64 b (object_size location) }}.
Definition count_orphan (location : Path) (report : JanitorReport) : JanitorReport :=
  report{{ orphans_found ::= Z.add 1;
           bytes_freed ::= λ b, saturating_add64 b (object_size location) }}.
Definition count_manifest (location : Path) (report : JanitorReport) : JanitorReport :=
  match listed_manifest location with
  | Some (true, _) =>
      report{{ pointer_files_reclaimed ::= Z.add 1;
               pointer_bytes_freed ::= λ b, saturating_add64 b (object_size location) }}
  | _ =>
      report{{ manifest_snapshots_reclaimed ::= Z.add 1;
               manifest_bytes_freed ::= λ b, saturating_add64 b (object_size location) }}
  end.
Definition count_wal (location : Path) (report : JanitorReport) : JanitorReport :=
  report{{ wal_segments_reclaimed ::= Z.add 1;
           wal_bytes_freed ::= λ b, saturating_add64 b (object_size location) }}.

(** The loop over a listing: [count] counts a reclaimed object, [deleted] a DELETE. *)
Fixpoint reclaim_loop (delete : bool) (verdict : Path → Verdict)
    (count : Path → JanitorReport → JanitorReport) (deleted : JanitorReport → JanitorReport)
    (objects : list Path) (report : JanitorReport) : prog JanitorReport :=
  match objects with
  | [] => mret report
  | location :: rest =>
      match verdict location with
      | Keep => reclaim_loop delete verdict count deleted rest report
      | WindowKept => reclaim_loop delete verdict count deleted rest (count_window location report)
      | TooYoung =>
          reclaim_loop delete verdict count deleted rest (report{{ skipped_too_young ::= Z.add 1 }})
      | Reclaim =>
          let report := count location report in
          if delete then
            d ← store (Delete location); _ ← lift d;
            reclaim_loop delete verdict count deleted rest (deleted report)
          else reclaim_loop delete verdict count deleted rest report
      end
  end.

Definition reclaim_listed (dir : Path) (delete : bool) (verdict : Path → Verdict)
    (count : Path → JanitorReport → JanitorReport) (deleted : JanitorReport → JanitorReport)
    (report : JanitorReport) : prog JanitorReport :=
  l ← store (ListDir dir);
  objects ← lift l;
  reclaim_loop delete verdict count deleted objects report.

Definition reclaim_snapshot (delete : bool) (current : Manifest) (now min_age_secs : Z)
    (report : JanitorReport) : prog JanitorReport :=
  g ← store (Get memtable_snapshot);
  match g with
  | Ok res =>
      body ← lift (get_bytes res);
      let stale := match decode_memtable_snapshot xxh3_64 body with
                   | Ok snapshot => negb (covers_manifest snapshot current)
                   | Err _ => false
                   end in
      if stale then
        if too_young now min_age_secs memtable_snapshot
        then mret (report{{ skipped_too_young ::= Z.add 1 }})
        else
          let report := report{{ memtable_snapshots_reclaimed ::= Z.add 1;
            memtable_snapshot_bytes_freed ::= λ b, saturating_add64 b (object_size memtable_snapshot) }} in
          if delete then
            d ← store (Delete memtable_snapshot); _ ← lift d; mret report
          else mret report
      else mret report
  | Err NotFound => mret report
  | Err other => fail (ObjectStore other)
  end.

Definition PinView_init : PinView :=
  {| pv_report := JanitorReport_default; pv_floor := u64_max; pv_points := ∅; pv_window := None;
     pv_honoured := ∅ |}.
Definition LiveSet_empty : LiveSet := {| referenced := ∅; referenced_wal := ∅ |}.

Definition window_keep_since (window : option RestoreWindow) (min_age : Z) : option Z :=
  match window with
  | None => None
  | Some w =>
      Some (default MIN_UTC (margin ← from_std min_age; checked_sub_signed (rw_since w) margin))
  end.

(** Point leases and the window's floor, below the dense horizon, ascending. *)
Definition extra_versions (points : gset Z) (window : option RestoreWindow) (horizon : Z) : list Z :=
  let all := points ∪ match window with Some w => {[rw_version w]} | None => ∅ end in
  merge_sort Z.le (elements (filter (λ v, v < horizon) all)).

(** Everything between the live set and the report. *)
Definition reclaim (delete : bool) (current : Manifest) (live : LiveSet) (pv : PinView)
    (horizon body_floor now min_age min_age_secs : Z) : prog JanitorReport :=
  let keep_since := window_keep_since (pv_window pv) min_age in
  report ← reclaim_listed (key_from (namespace_prefix +:+ "/sst")) delete
             (sst_verdict live keep_since now min_age_secs) count_orphan
             (λ r, r{{ orphans_deleted ::= Z.add 1 }}) (pv_report pv);
  report ← reclaim_listed manifest_dir delete
             (manifest_verdict horizon body_floor (pv_points pv) now min_age_secs) count_manifest id
             report;
  report ← reclaim_listed wal_dir delete
             (wal_verdict live keep_since now min_age_secs) count_wal id report;
  reclaim_snapshot delete current now min_age_secs report.

Definition sweep_orphans (retention_horizon min_age : Z) (delete : bool) (now : Z)
    : prog JanitorReport :=
  current ← load_current;
  let current := lm_manifest current in
  let current_version := mf_version current in
  let min_age_secs := sign_wrap 64 (as_secs min_age) in
  let now_unix := timestamp now in
  l ← store (ListDir pins_dir);
  pins ← lift l;
  pv ← scan_pins now_unix delete pins PinView_init;
  let horizon := Z.min (Z.min retention_horizon (pv_floor pv)) current_version in
  let body_floor := match pv_window pv with
                    | None => horizon
                    | Some w => Z.min horizon (rw_version w)
                    end in
  let strict_floor := Z.min retention_horizon current_version in
  live ← mark_versions current strict_floor (seqZ horizon (current_version - horizon + 1)) LiveSet_empty;
  live ← mark_extra (extra_versions (pv_points pv) (pv_window pv) horizon) live;
  changed ← (if delete then pins_changed_below_horizon now_unix (pv_honoured pv) horizon
             else mret false);
  if (changed : bool) then mret ((pv_report pv){{ aborted_by_pin := true }})
  else reclaim delete current live pv horizon body_floor now min_age min_age_secs.
End Janitor.
