(* ===== verification/RestorePoint.v ===== *)
(** Restore points ([restore_point.rs]): the window lease, the binary search over the
    retained versions, and the listing and resolution of restore points.

    The bodies read here are JSON documents read under several types: a manifest body
    under its two-field header, a window lease under [PinLease]. [ManifestHeader] and
    [WindowLease] are what [serde_json] documents of it: the fields two types share
    are read alike, the others are ignored. Log lines are left out. *)
From coqutil Require Import Datatypes.RecordSetters.
From S2P Require Import Prelude StorageError ManifestTypes Paths ObjectStore ManifestProtocol Pins.
Import DoubleBraceUpdate.

Definition RESTORE_POINT_LEASE_ID : string := "restore-points".
Definition MAX_RESTORE_POINT_PAGE : Z := 1000.

Record RestorePoint := { rp_version : Z; rp_created_at : Z }.

Definition RestorePoint_of (manifest : Manifest) : RestorePoint :=
  {| rp_version := mf_version manifest; rp_created_at := mf_created_at manifest |}.

Record RestorePointLease := {
  rl_floor : RestorePoint;
  rl_expires_at : Z;
  rl_retention : Z;
}.

Record WindowLeaseBody := {
  wl_version : Z;
  wl_expires_at_unix : Z;
  wl_scope : PinScope;
  wl_retention_secs : Z;
}.
#[global] Instance WindowLeaseBody_eq_dec : EqDecision WindowLeaseBody.
Proof. solve_decision. Defined.

Record RestorePointWindow := {
  rpw_earliest : RestorePoint;
  rpw_latest : RestorePoint;
  rpw_lease : option RestorePointLease;
}.

Record RestorePointPage := {
  page_window : RestorePointWindow;
  page_points : list RestorePoint;
  page_next_before : option Z;
}.

Inductive AsOf := AsOfVersion (v : Z) | AsOfTime (t : Z).

Inductive RestorePointResolution :=
| Found (p : RestorePoint)
| OutOfWindow (w : RestorePointWindow)
| InFuture (now : Z).

(** The [Header] of [load_restore_point]. *)
Record Header := { hd_version : Z; hd_created_at : Z }.
#[global] Instance Header_eq_dec : EqDecision Header.
Proof. solve_decision. Defined.
Definition header_typed (h : Header) : Prop := is_u64 (hd_version h).
Definition window_typed (b : WindowLeaseBody) : Prop :=
  is_u64 (wl_version b) ∧ is_i64 (wl_expires_at_unix b) ∧ is_u64 (wl_retention_secs b).

Class ManifestHeader `{!JsonCodec Manifest manifest_typed} `{!JsonCodec Header header_typed} := {
  header_of_manifest b m : from_slice b = Ok m →
    from_slice b = Ok {| hd_version := mf_version m; hd_created_at := mf_created_at m |};
}.
Class WindowLease `{!JsonCodec WindowLeaseBody window_typed} `{!JsonCodec PinLease lease_typed} := {
  lease_of_window (w : WindowLeaseBody) b : window_typed w → to_vec w = Ok b →
    from_slice b = Ok {| pl_version := wl_version w; pl_expires_at_unix := wl_expires_at_unix w;
                         pl_scope := wl_scope w |};
}.

(** [std::time::Duration::MAX] and [saturating_add]. *)
Definition DURATION_MAX : Z := u64_max * NANOS_PER_SEC + 999999999.
Definition duration_saturating_add (a b : Z) : Z := Z.min (a + b) DURATION_MAX.

Section RestorePoints.
Context `{!KeySpace} `{!JsonCodec Manifest manifest_typed} `{!JsonCodec ManifestPointer pointer_typed}.
Context `{!JsonCodec Header header_typed} `{!JsonCodec WindowLeaseBody window_typed} `{!Chrono}.

Definition load_restore_point (version : Z) : prog RestorePoint :=
  let path := manifest_version version in
  r ← store (Get path);
  res ← lift r;
  body ← lift (get_bytes res);
  header ← lift_json (from_slice body);
  if negb (hd_version header =? version)
  then fail (Corrupted path "manifest body names another version")
  else mret {| rp_version := version; rp_created_at := hd_created_at header |}.

Definition read_window_lease : prog (option WindowLeaseBody) :=
  let path := pin_object RESTORE_POINT_LEASE_ID in
  g ← store (Get path);
  match g with
  | Ok res =>
      body ← lift (get_bytes res);
      mret (match from_slice body with
            | Ok lease => match wl_scope lease with Window _ => Some lease | _ => None end
            | Err _ => None
            end)
  | Err NotFound => mret None
  | Err e => fail (ObjectStore e)
  end.

Definition live_lease (lease : option WindowLeaseBody) (now : Z) : option RestorePointLease :=
  match lease with
  | None => None
  | Some lease =>
      if wl_expires_at_unix lease <? timestamp now then None
      else match wl_scope lease with
           | Window since =>
               Some {| rl_floor := {| rp_version := wl_version lease; rp_created_at := since |};
                       rl_expires_at := default MAX_UTC (from_timestamp (wl_expires_at_unix lease));
                       rl_retention := wl_retention_secs lease * NANOS_PER_SEC |}
           | _ => None
           end
  end.

(** The bisection loop; every round halves the distance, so 64 rounds are enough for
    versions of 64 bits. *)
Fixpoint bisect (fuel : nat) (lo hi : RestorePoint) (t : Z) : prog RestorePoint :=
  match fuel with
  | O => OutOfFuel
  | S fuel' =>
      if 1 <? rp_version hi - rp_version lo then
        mid ← load_restore_point (rp_version lo + (rp_version hi - rp_version lo) / 2);
        if rp_created_at mid <=? t then bisect fuel' mid hi t else bisect fuel' lo mid t
      else mret lo
  end.
Definition BISECT_FUEL : nat := 65.

Definition newest_at_or_before (lo hi : RestorePoint) (t : Z) : prog (option RestorePoint) :=
  if rp_created_at hi <=? t then mret (Some hi)
  else if t <? rp_created_at lo then mret None
  else lo ← bisect BISECT_FUEL lo hi t; mret (Some lo).

Definition release_restore_point_lease : prog unit :=
  r ← store (Delete (pin_object RESTORE_POINT_LEASE_ID));
  match r with
  | Ok _ | Err NotFound => mret ()
  | Err e => fail (ObjectStore e)
  end.

Definition held_lease (now : Z) (latest : RestorePoint) (lease : option WindowLeaseBody)
    : option RestorePointLease :=
  match live_lease lease now with
  | Some lease => if rp_version (rl_floor lease) <=? rp_version latest then Some lease else None
  | None => None
  end.

(** The floor the window moves to. *)
Definition choose_floor (held : option RestorePointLease) (latest : RestorePoint) (cutoff : Z)
    : prog RestorePoint :=
  match held with
  | None => mret latest
  | Some lease =>
      r ← attempt (load_restore_point (rp_version (rl_floor lease)));
      match r with
      | Ok lo => f ← newest_at_or_before lo latest cutoff; mret (default lo f)
      | Err (ObjectStore NotFound) => mret latest
      | Err e => fail e
      end
  end.

Definition cutoff_of (retention now : Z) : Z :=
  default MIN_UTC (r ← from_std retention; checked_sub_signed now r).

Definition refresh_restore_point_lease_at (retention renew_margin now : Z)
    : prog (option RestorePointLease) :=
  if retention =? 0 then _ ← release_restore_point_lease; mret None
  else
    current ← load_current;
    let latest := RestorePoint_of (lm_manifest current) in
    lease ← read_window_lease;
    let held := held_lease now latest lease in
    floor ← choose_floor held latest (cutoff_of retention now);
    let lifetime := duration_saturating_add retention renew_margin in
    let expires_at := default MAX_UTC (d ← from_std lifetime; checked_add_signed now d) in
    let body := {| wl_version := rp_version floor; wl_expires_at_unix := timestamp expires_at;
                   wl_scope := Window (rp_created_at floor);
                   wl_retention_secs := as_secs retention |} in
    bytes ← lift_json (to_vec body);
    r ← store (PutOverwrite (pin_object RESTORE_POINT_LEASE_ID) bytes);
    _ ← lift r;
    mret (Some {| rl_floor := floor;
                  rl_expires_at := default expires_at (from_timestamp (wl_expires_at_unix body));
                  rl_retention := retention |}).

Definition restore_point_window_at (now : Z) : prog RestorePointWindow :=
  current ← load_current;
  let latest := RestorePoint_of (lm_manifest current) in
  lease ← read_window_lease;
  let lease := held_lease now latest lease in
  earliest ← match lease with
    | None => mret latest
    | Some lease =>
        r ← attempt (load_restore_point (rp_version (rl_floor lease)));
        match r with
        | Ok point => mret point
        | Err (ObjectStore NotFound) => mret latest
        | Err e => fail e
        end
    end;
  mret {| rpw_earliest := earliest; rpw_latest := latest; rpw_lease := lease |}.

(** The reads of a page, which the source issues eight at a time and collects in
    order. *)
Fixpoint load_points (versions : list Z) : prog (list RestorePoint) :=
  match versions with
  | [] => mret []
  | version :: rest =>
      r ← attempt (load_restore_point version);
      match r with
      | Ok point => points ← load_points rest; mret (point :: points)
      | Err (ObjectStore NotFound) => load_points rest
      | Err e => fail e
      end
  end.

(** The newest version a page may show. *)
Definition page_hi (window : RestorePointWindow) (before : option Z) : option Z :=
  let hi := match before with
            | Some b => if b =? 0 then None else Some (Z.min (b - 1) (rp_version (rpw_latest window)))
            | None => Some (rp_version (rpw_latest window))
            end in
  match hi with
  | Some hi => if rp_version (rpw_earliest window) <=? hi then Some hi else None
  | None => None
  end.

Definition list_restore_points (before : option Z) (limit now : Z) : prog RestorePointPage :=
  window ← restore_point_window_at now;
  let limit := Z.max 1 (Z.min limit MAX_RESTORE_POINT_PAGE) in
  let lo := rp_version (rpw_earliest window) in
  match page_hi window before with
  | None => mret {| page_window := window; page_points := []; page_next_before := None |}
  | Some hi =>
      let last := Z.max (saturating_sub64 hi (limit - 1)) lo in
      points ← load_points (rev (seqZ last (hi - last + 1)));
      mret {| page_window := window; page_points := points;
              page_next_before := if lo <? last then Some last else None |}
  end.

Definition resolve_restore_point_at (as_of : AsOf) (now : Z) : prog RestorePointResolution :=
  if match as_of with AsOfTime t => now <? t | AsOfVersion _ => false end then mret (InFuture now)
  else
    window ← restore_point_window_at now;
    found ← match as_of with
      | AsOfVersion v =>
          if v =? rp_version (rpw_latest window) then mret (Some (rpw_latest window))
          else if (v <? rp_version (rpw_earliest window)) || (rp_version (rpw_latest window) <? v)
          then mret None
          else
            r ← attempt (load_restore_point v);
            match r with
            | Ok point => mret (Some point)
            | Err (ObjectStore NotFound) => mret None
            | Err e => fail e
            end
      | AsOfTime t => newest_at_or_before (rpw_earliest window) (rpw_latest window) t
      end;
    mret (match found with Some point => Found point | None => OutOfWindow window end).
End RestorePoints.
