(* ===== verification/WriterSession.v ===== *)
(** The single-writer ingest session ([ingest.rs], [WriterSession]): staging, the
    commit pipeline, opening and reopening.

    The session's caches and accelerators (adjacency, node, SST and property-index
    caches, the unique index, the placeholder-type tracker) are not part of the
    state; neither are log lines, nor the reads [commit_batch] does to prepare their
    deltas, whose failures it ignores. Staging takes the record's encoder, since the
    property encoding is not modelled. The probe points of [cancel::check], the clock
    and the schedule of [tokio::join!] are arguments. A method that mutates the
    session on its error paths returns the session next to its result. *)
From S2P Require Import Prelude StorageError Wal Memtable ManifestTypes DescriptorIndex Paths ManifestProtocol ObjectStore Recovery.

Inductive CommitOutcome :=
| Empty
| Committed (wal_seq last_lsn : Z) (records : nat) (manifest_version : Z).

Record WriterSession := {
  ws_fence : WriterFence;
  ws_current : LoadedManifest;
  ws_memtable : Memtable;
  ws_published : MemtableSnapshot;
  ws_next_lsn : Z;
  ws_durable_lsn : Z;
  ws_dropped_batches : Z;
  ws_next_wal_seq : Z;
  ws_pending : WalSegment;
  ws_payloads : list (MemKey * Z * MemOp);
  ws_staged : Memtable;
  ws_node_mutations : bool;
  ws_auto_snapshot_every : Z;
  ws_commits_since_snapshot : Z;
  ws_poisoned : bool;
  ws_label_dict : LabelDictionary;
}.

Record StageMark := { sm_records : nat; sm_payloads : nat; sm_node_mutations : bool }.
Record PointerCasProbe := { pc_version : Z; pc_wal_xxh3 : option Z }.

(** ** Field updates *)

Definition with_batch (ses : WriterSession) (pending : WalSegment)
    (payloads : list (MemKey * Z * MemOp)) (staged : Memtable) (nodes : bool) : WriterSession :=
  {| ws_fence := ws_fence ses; ws_current := ws_current ses; ws_memtable := ws_memtable ses;
     ws_published := ws_published ses; ws_next_lsn := ws_next_lsn ses;
     ws_durable_lsn := ws_durable_lsn ses; ws_dropped_batches := ws_dropped_batches ses;
     ws_next_wal_seq := ws_next_wal_seq ses; ws_pending := pending; ws_payloads := payloads;
     ws_staged := staged; ws_node_mutations := nodes;
     ws_auto_snapshot_every := ws_auto_snapshot_every ses;
     ws_commits_since_snapshot := ws_commits_since_snapshot ses; ws_poisoned := ws_poisoned ses;
     ws_label_dict := ws_label_dict ses |}.
Definition with_counters (ses : WriterSession) (next_lsn dropped snapshot_age : Z) (poisoned : bool)
    (dict : LabelDictionary) : WriterSession :=
  {| ws_fence := ws_fence ses; ws_current := ws_current ses; ws_memtable := ws_memtable ses;
     ws_published := ws_published ses; ws_next_lsn := next_lsn;
     ws_durable_lsn := ws_durable_lsn ses; ws_dropped_batches := dropped;
     ws_next_wal_seq := ws_next_wal_seq ses; ws_pending := ws_pending ses;
     ws_payloads := ws_payloads ses; ws_staged := ws_staged ses;
     ws_node_mutations := ws_node_mutations ses;
     ws_auto_snapshot_every := ws_auto_snapshot_every ses;
     ws_commits_since_snapshot := snapshot_age; ws_poisoned := poisoned; ws_label_dict := dict |}.

Definition set_poisoned (ses : WriterSession) : WriterSession :=
  with_counters ses (ws_next_lsn ses) (ws_dropped_batches ses) (ws_commits_since_snapshot ses) true
    (ws_label_dict ses).
Definition set_dropped_batches (ses : WriterSession) (n : Z) : WriterSession :=
  with_counters ses (ws_next_lsn ses) n (ws_commits_since_snapshot ses) (ws_poisoned ses)
    (ws_label_dict ses).
Definition set_commits_since_snapshot (ses : WriterSession) (n : Z) : WriterSession :=
  with_counters ses (ws_next_lsn ses) (ws_dropped_batches ses) n (ws_poisoned ses)
    (ws_label_dict ses).
Definition set_label_dict (ses : WriterSession) (d : LabelDictionary) : WriterSession :=
  with_counters ses (ws_next_lsn ses) (ws_dropped_batches ses) (ws_commits_since_snapshot ses)
    (ws_poisoned ses) d.
Definition set_pending_seq (ses : WriterSession) (seq : Z) : WriterSession :=
  with_batch ses {| seg_seq := seq; seg_records := seg_records (ws_pending ses) |}
    (ws_payloads ses) (ws_staged ses) (ws_node_mutations ses).

Definition is_node_key (k : MemKey) : bool := match k with KNode _ => true | KEdge _ _ _ => false end.

(** [self.pending_payloads] replayed in order. *)
Definition apply_payload (m : Memtable) (p : MemKey * Z * MemOp) : Memtable :=
  let '(key, lsn, op) := p in (Memtable_apply m key lsn op).1.

(** ** Staged requests *)

Definition begin_staged_request (ses : WriterSession) : StageMark :=
  {| sm_records := length (seg_records (ws_pending ses)); sm_payloads := length (ws_payloads ses);
     sm_node_mutations := ws_node_mutations ses |}.

Definition rollback_staged_request (ses : WriterSession) (mark : StageMark) : WriterSession :=
  let pending := {| seg_seq := seg_seq (ws_pending ses);
                    seg_records := take (sm_records mark) (seg_records (ws_pending ses)) |} in
  let payloads := take (sm_payloads mark) (ws_payloads ses) in
  with_batch ses pending payloads (foldl apply_payload Memtable_new payloads)
    (sm_node_mutations mark).

Definition staged_last_lsn (ses : WriterSession) : option Z :=
  rec_lsn <$> last (seg_records (ws_pending ses)).

Definition discard_batch (ses : WriterSession) : WriterSession * nat :=
  let discarded := length (seg_records (ws_pending ses)) in
  let ses := if (0 <? discarded)%nat
             then set_dropped_batches ses (saturating_add64 (ws_dropped_batches ses) 1) else ses in
  (with_batch ses (WalSegment_new (seg_seq (ws_pending ses))) [] Memtable_new false, discarded).

Definition alloc_lsn (ses : WriterSession) : WriterSession * Z :=
  (with_counters ses (saturating_add64 (ws_next_lsn ses) 1) (ws_dropped_batches ses)
     (ws_commits_since_snapshot ses) (ws_poisoned ses) (ws_label_dict ses), ws_next_lsn ses).

(** [labels.into_iter().map(|name| self.label_dict.intern(&name).get()).collect()] *)
Fixpoint intern_all (d : LabelDictionary) (names : list string) : LabelDictionary * list Z :=
  match names with
  | [] => (d, [])
  | name :: rest =>
      let '(d, id) := intern d name in
      let '(d, ids) := intern_all d rest in (d, id :: ids)
  end.

(** [Vec::dedup] on a sorted vector of ids. *)
Fixpoint dedup_ids (l : list Z) : list Z :=
  match l with
  | x :: ((y :: _) as rest) => if x =? y then dedup_ids rest else x :: dedup_ids rest
  | _ => l
  end.

Section Session.
Context `{!KeySpace} `{!JsonCodec Manifest manifest_typed} `{!JsonCodec ManifestPointer pointer_typed}.
Context `{!Bincode WalEntry entry_typed} `{!Bincode MemtableSnapshotFile snapshot_typed}.
Context `{!Bincode MemtableSnapshotBindingV2 binding_typed}.
Context (crc32 xxh3_64 : list byte → Z).

Definition append_pending (ses : WriterSession) (entry : WalEntry) (op : MemOp) (lsn : Z)
    (key : MemKey) : Result unit * WriterSession :=
  match WalEntry_encode entry with
  | Err e => (Err e, ses)
  | Ok payload =>
      (Ok (), with_batch ses
         (WalSegment_push (ws_pending ses) {| rec_lsn := lsn; rec_payload := payload |})
         (ws_payloads ses ++ [(key, lsn, op)])
         (Memtable_apply (ws_staged ses) key lsn op).1
         (if is_node_key key then true else ws_node_mutations ses))
  end.

(** Encode the record, build the WAL entry and queue it under a fresh LSN. *)
Definition upsert_node_with_labels (ses : WriterSession) (labels : list string) (id : Z)
    (encode : list Z → Result (list byte)) : Result Z * WriterSession :=
  let '(ses, lsn) := alloc_lsn ses in
  let '(dict, ids) := intern_all (ws_label_dict ses) labels in
  let ses := set_label_dict ses dict in
  let label_ids := dedup_ids (merge_sort Z.le ids) in
  let key := KNode id in
  match encode label_ids with
  | Err e => (Err e, ses)
  | Ok payload =>
      let entry := {| we_key := key; we_op := WUpsert payload; we_lsn := lsn |} in
      let '(r, ses) := append_pending ses entry (Upsert payload) lsn key in
      (match r with Ok _ => Ok lsn | Err e => Err e end, ses)
  end.

Definition upsert_node (ses : WriterSession) (label : string) (id : Z)
    (encode : list Z → Result (list byte)) : Result Z * WriterSession :=
  upsert_node_with_labels ses [label] id encode.

Definition tombstone_node (ses : WriterSession) (id : Z) : Result Z * WriterSession :=
  let '(ses, lsn) := alloc_lsn ses in
  let key := KNode id in
  let entry := {| we_key := key; we_op := WTombstone; we_lsn := lsn |} in
  let '(r, ses) := append_pending ses entry Tombstone lsn key in
  (match r with Ok _ => Ok lsn | Err e => Err e end, ses).

Definition upsert_edge (ses : WriterSession) (edge_type : string) (src dst : Z)
    (encoded : Result (list byte)) : Result Z * WriterSession :=
  let '(ses, lsn) := alloc_lsn ses in
  let key := KEdge edge_type src dst in
  match encoded with
  | Err e => (Err e, ses)
  | Ok payload =>
      let entry := {| we_key := key; we_op := WUpsert payload; we_lsn := lsn |} in
      let '(r, ses) := append_pending ses entry (Upsert payload) lsn key in
      (match r with Ok _ => Ok lsn | Err e => Err e end, ses)
  end.

Definition tombstone_edge (ses : WriterSession) (edge_type : string) (src dst : Z)
    : Result Z * WriterSession :=
  let '(ses, lsn) := alloc_lsn ses in
  let key := KEdge edge_type src dst in
  let entry := {| we_key := key; we_op := WTombstone; we_lsn := lsn |} in
  let '(r, ses) := append_pending ses entry Tombstone lsn key in
  (match r with Ok _ => Ok lsn | Err e => Err e end, ses).

(** ** The commit pipeline *)

Definition for_manifest (next : Manifest) : PointerCasProbe :=
  {| pc_version := mf_version next;
     pc_wal_xxh3 := last (mf_wal_segments next) ≫= wd_xxh3 |}.

Definition build_next (ses : WriterSession) (seq last_lsn now : Z) : Manifest :=
  let next := next_version (lm_manifest (ws_current ses)) (f_writer_id (ws_fence ses)) now in
  {| mf_version := mf_version next; mf_epoch := mf_epoch next; mf_writer_id := mf_writer_id next;
     mf_created_at := mf_created_at next; mf_ssts := mf_ssts next;
     mf_wal_segments := mf_wal_segments next ++
       [{| wd_seq := seq; wd_path := wal_segment seq; wd_last_lsn := last_lsn;
           wd_xxh3 := Some (xxh3_64 (WalSegment_encode crc32 (ws_pending ses))) |}];
     mf_label_dict := ws_label_dict ses; mf_catalog := mf_catalog next |}.

(** The orphan clean-up loop; [Some] is the error that poisons the session. *)
Fixpoint neutralize (paths : list Path) : prog (option Error) :=
  match paths with
  | [] => mret None
  | path :: rest =>
      r ← store (Delete path);
      match r with
      | Ok _ | Err NotFound => neutralize rest
      | Err _ =>
          mret (Some (Precondition "commit failed and orphan cleanup failed too; the session is poisoned"))
      end
  end.

Definition resolve_failed_pointer_cas (ses : WriterSession) (probe : PointerCasProbe)
    (wal_seq : Z) (cas_err : Error) : prog (Result LoadedManifest * WriterSession) :=
  r ← attempt load_current;
  match r with
  | Err _ =>
      mret (Err (Precondition "commit outcome indeterminate; the session is poisoned"), set_poisoned ses)
  | Ok reloaded =>
      let m := lm_manifest reloaded in
      if f_epoch (ws_fence ses) <? mf_epoch m
      then mret (Err (Fenced (f_epoch (ws_fence ses)) (mf_epoch m)), set_poisoned ses)
      else
        let ours :=
          (mf_version m =? pc_version probe)
          && (mf_writer_id m =? f_writer_id (ws_fence ses))
          && bool_decide (is_Some (pc_wal_xxh3 probe))
          && existsb (λ segment, (wd_seq segment =? wal_seq)
                                 && bool_decide (wd_xxh3 segment = pc_wal_xxh3 probe))
               (mf_wal_segments m) in
        if ours then mret (Ok reloaded, ses)
        else if pc_version probe <=? mf_version m
        then mret (Err (ManifestCommitCas (saturating_sub64 (pc_version probe) 1) (mf_version m)), ses)
        else
          d ← neutralize [manifest_version (pc_version probe); wal_segment wal_seq];
          match d with
          | Some e => mret (Err e, set_poisoned ses)
          | None => mret (Err cas_err, ses)
          end
  end.

(** The pointer CAS of a prepared commit, its indeterminate failures resolved: the
    tail [commit_batch] and [commit_body_first] share. *)
Definition publish (ses : WriterSession) (next : Manifest) (pointer : ManifestPointer) (seq : Z)
    : prog (Result LoadedManifest * WriterSession) :=
  let probe := for_manifest next in
  r ← attempt (cas_pointer (ws_fence ses) (ws_current ses) next pointer);
  match r with
  | Ok current => mret (Ok current, ses)
  | Err ((Fenced _ _ | ManifestCommitCas _ _) as err) => mret (Err err, ses)
  | Err cas_err => resolve_failed_pointer_cas ses probe seq cas_err
  end.

Definition commit_body_first (ses : WriterSession) (next : Manifest)
    : prog (Result LoadedManifest * WriterSession) :=
  r ← attempt (put_body (ws_fence ses) (ws_current ses) next);
  match r with
  | Err e => mret (Err e, ses)
  | Ok pointer =>
      r ← attempt (append_segment crc32 (ws_pending ses));
      match r with
      | Err e => mret (Err e, ses)
      | Ok _ => publish ses next pointer (seg_seq (ws_pending ses))
      end
  end.

(** The orphan-WAL retry at a fresh sequence number. *)
Definition commit_reseq (ses : WriterSession) (check : Result unit) (now : Z)
    : prog (Result (Z * LoadedManifest) * WriterSession) :=
  let base_seq := seg_seq (ws_pending ses) in
  match check with
  | Err e => mret (Err e, ses)
  | Ok _ =>
      r ← attempt list_segments;
      match r with
      | Err e => mret (Err e, ses)
      | Ok listed =>
          let fresh := match last listed with
                       | Some r => saturating_add64 (ref_seq r) 1
                       | None => saturating_add64 base_seq 1
                       end in
          let ses := set_pending_seq ses fresh in
          let next := build_next ses fresh (last_lsn (ws_pending ses)) now in
          '(r, ses) ← commit_body_first ses next;
          match r with
          | Ok new_current => mret (Ok (fresh, new_current), ses)
          | Err err => mret (Err err, set_poisoned (set_pending_seq ses base_seq))
          end
      end
  end.

(** The WAL segment and the manifest body, pipelined, then the pointer. *)
Definition commit_durable (ses : WriterSession) (sched : list bool) (check : Result unit)
    (now now' : Z) : prog (Result (Z * LoadedManifest) * WriterSession) :=
  let base_seq := seg_seq (ws_pending ses) in
  let next := build_next ses base_seq (last_lsn (ws_pending ses)) now in
  '(wal_result, body_result) ←
    pjoin (append_segment crc32 (ws_pending ses)) sched
          (put_body (ws_fence ses) (ws_current ses) next);
  match wal_result with
  | Ok _ =>
      match body_result with
      | Err e => mret (Err e, ses)
      | Ok pointer =>
          '(r, ses) ← publish ses next pointer base_seq;
          mret (match r with Ok new_current => Ok (base_seq, new_current) | Err e => Err e end, ses)
      end
  | Err (Precondition _) => commit_reseq ses check now'
  | Err other => mret (Err other, ses)
  end.

Definition write_memtable_snapshot_inner (ses : WriterSession) : prog unit :=
  let entries := map (λ '(key, entry), (key, entry_lsn entry, entry_op entry))
                     (Memtable_iter (ws_memtable ses)) in
  let snapshot := from_manifest (lm_manifest (ws_current ses)) entries in
  write_memtable_snapshot_for_manifest xxh3_64 (lm_manifest (ws_current ses)) snapshot.

Definition write_memtable_snapshot_now (ses : WriterSession) : prog (Result unit * WriterSession) :=
  r ← attempt (write_memtable_snapshot_inner ses);
  match r with
  | Ok _ => mret (Ok (), set_commits_since_snapshot ses 0)
  | Err e => mret (Err e, ses)
  end.

(** Durability achieved: drain the batch into the memtable and publish it. *)
Definition drain_batch (ses : WriterSession) (committed_seq : Z) (new_current : LoadedManifest)
    : WriterSession :=
  let memtable := foldl apply_payload (ws_memtable ses) (ws_payloads ses) in
  {| ws_fence := ws_fence ses; ws_current := new_current; ws_memtable := memtable;
     ws_published := snapshot_view memtable; ws_next_lsn := ws_next_lsn ses;
     ws_durable_lsn := Z.max (ws_durable_lsn ses) (last_lsn (ws_pending ses));
     ws_dropped_batches := ws_dropped_batches ses;
     ws_next_wal_seq := saturating_add64 committed_seq 1;
     ws_pending := WalSegment_new (saturating_add64 committed_seq 1); ws_payloads := [];
     ws_staged := Memtable_new; ws_node_mutations := false;
     ws_auto_snapshot_every := ws_auto_snapshot_every ses;
     ws_commits_since_snapshot := ws_commits_since_snapshot ses; ws_poisoned := ws_poisoned ses;
     ws_label_dict := ws_label_dict ses |}.

(** The auto-snapshot tick, best effort. *)
Definition snapshot_tick (ses : WriterSession) : prog WriterSession :=
  let ses := set_commits_since_snapshot ses (saturating_add64 (ws_commits_since_snapshot ses) 1) in
  if (0 <? ws_auto_snapshot_every ses)
     && (ws_auto_snapshot_every ses <=? ws_commits_since_snapshot ses)
  then
    r ← attempt (write_memtable_snapshot_inner ses);
    match r with
    | Ok _ => mret (set_commits_since_snapshot ses 0)
    | Err _ => mret ses
    end
  else mret ses.

Definition commit_batch (ses : WriterSession) (sched : list bool) (check check' : Result unit)
    (now now' : Z) : prog (Result CommitOutcome * WriterSession) :=
  if ws_poisoned ses
  then mret (Err (Precondition "writer session poisoned by a prior terminal commit failure; drop and reopen"), ses)
  else if WalSegment_is_empty (ws_pending ses) then mret (Ok Empty, ses)
  else
    match check with
    | Err e => mret (Err e, ses)
    | Ok _ =>
        '(r, ses) ← commit_durable ses sched check' now now';
        match r with
        | Err e => mret (Err e, ses)
        | Ok (committed_seq, new_current) =>
            let lsn := last_lsn (ws_pending ses) in
            let records := length (seg_records (ws_pending ses)) in
            ses ← snapshot_tick (drain_batch ses committed_seq new_current);
            mret (Ok (Committed committed_seq lsn records (mf_version (lm_manifest new_current))), ses)
        end
    end.

(** ** Opening *)

(** [listed.last().map(|r| r.seq.saturating_add(1)).unwrap_or(1)] and the LSN floor. *)
Definition max_sst_lsn (m : Manifest) : Z :=
  match map sst_max_lsn (mf_ssts m) with [] => 0 | x :: rest => foldl Z.max x rest end.

(** [observe] is [observe_recovered_pending_types], which only fails or succeeds. *)
Definition open_claiming (fuel : nat) (uuids now : nat → Z) (every : Z) (yield_above : option Epoch)
    (observe : LoadedManifest → Memtable → Result unit) : prog WriterSession :=
  r ← attempt load_current;
  '(current, fence) ← match r with
    | Ok _ => claim_writer_unless_newer crc32 xxh3_64 fuel uuids now yield_above
    | Err (ObjectStore NotFound) =>
        loaded ← bootstrap (uuids 0%nat) (now 0%nat);
        mret (loaded, WriterFence_new (mf_epoch (lm_manifest loaded)) (uuids 1%nat))
    | Err other => fail other
    end;
  recovered ← recover_memtable_with_snapshot crc32 xxh3_64 (lm_manifest current) true;
  let next_lsn := Z.max (saturating_add64 (Z.max (rm_max_lsn recovered) (max_sst_lsn (lm_manifest current))) 1) 1 in
  listed ← list_segments;
  let next_wal_seq := match last listed with Some r => saturating_add64 (ref_seq r) 1 | None => 1 end in
  let session :=
    {| ws_fence := fence; ws_current := current; ws_memtable := rm_memtable recovered;
       ws_published := snapshot_view (rm_memtable recovered); ws_next_lsn := next_lsn;
       ws_durable_lsn := saturating_sub64 next_lsn 1; ws_dropped_batches := 0;
       ws_next_wal_seq := next_wal_seq; ws_pending := WalSegment_new next_wal_seq; ws_payloads := [];
       ws_staged := Memtable_new; ws_node_mutations := false; ws_auto_snapshot_every := every;
       ws_commits_since_snapshot := 0; ws_poisoned := false;
       ws_label_dict := mf_label_dict (lm_manifest current) |} in
  _ ← Ret (observe current (rm_memtable recovered));
  mret session.

Definition reopen_claiming (ses : WriterSession) (fuel : nat) (uuids now : nat → Z) (every : Z)
    (yield_above : option Epoch) (observe : LoadedManifest → Memtable → Result unit)
    : prog (Result unit * WriterSession) :=
  let dropped_batches := saturating_add64 (ws_dropped_batches ses) 1 in
  r ← attempt (open_claiming fuel uuids now every yield_above observe);
  match r with
  | Err e => mret (Err e, ses)
  | Ok fresh => mret (Ok (), set_dropped_batches fresh dropped_batches)
  end.
End Session.
