(* ===== verification/SessionStaging.v ===== *)
(** The uncommitted batch of a writer session: what staging, rolling a request back
    and discarding do to it ([ingest.rs]). *)
From S2P Require Import Prelude StorageError Wal Memtable ManifestTypes DescriptorIndex Paths ManifestProtocol ObjectStore Recovery WriterSession.

(** The staging calls of a session. *)
Inductive StageOp :=
| SUpsertNode (labels : list string) (id : Z) (encode : list Z → Result (list byte))
| STombstoneNode (id : Z)
| SUpsertEdge (edge_type : string) (src dst : Z) (encoded : Result (list byte))
| STombstoneEdge (edge_type : string) (src dst : Z).

Section Staging.
Context `{!Bincode WalEntry entry_typed}.

Definition stage (ses : WriterSession) (op : StageOp) : WriterSession :=
  match op with
  | SUpsertNode labels id encode => (upsert_node_with_labels ses labels id encode).2
  | STombstoneNode id => (tombstone_node ses id).2
  | SUpsertEdge edge_type src dst encoded => (upsert_edge ses edge_type src dst encoded).2
  | STombstoneEdge edge_type src dst => (tombstone_edge ses edge_type src dst).2
  end.
Definition stage_all (ses : WriterSession) (ops : list StageOp) : WriterSession :=
  foldl stage ses ops.

Definition has_node (log : list mutation) : bool := existsb (λ mu, is_node_key mu.1.1) log.

(** Everything but the batch, the LSN counter and the label dictionary. *)
Definition same_base (ses ses' : WriterSession) : Prop :=
  ws_fence ses' = ws_fence ses ∧ ws_current ses' = ws_current ses ∧
  ws_memtable ses' = ws_memtable ses ∧ ws_published ses' = ws_published ses ∧
  ws_durable_lsn ses' = ws_durable_lsn ses ∧ ws_dropped_batches ses' = ws_dropped_batches ses ∧
  ws_next_wal_seq ses' = ws_next_wal_seq ses ∧
  ws_auto_snapshot_every ses' = ws_auto_snapshot_every ses ∧
  ws_commits_since_snapshot ses' = ws_commits_since_snapshot ses ∧
  ws_poisoned ses' = ws_poisoned ses ∧ seg_seq (ws_pending ses') = seg_seq (ws_pending ses).

(** [ses'] is [ses] with the mutations [log] appended to the batch, their LSNs
    drawn from the counter. *)
Record appended (ses ses' : WriterSession) (log : list mutation) : Prop := {
  ap_base : same_base ses ses';
  ap_payloads : ws_payloads ses' = ws_payloads ses ++ log;
  ap_records : ∃ recs, Forall2 log_record log recs ∧
    seg_records (ws_pending ses') = seg_records (ws_pending ses) ++ recs;
  ap_staged : ws_staged ses' = apply_all (ws_staged ses) log;
  ap_nodes : ws_node_mutations ses' = ws_node_mutations ses || has_node log;
  ap_lsn : ws_next_lsn ses ≤ ws_next_lsn ses';
  ap_ascending : ascending log;
  ap_range : Forall (λ mu, ws_next_lsn ses ≤ lsn_of mu < ws_next_lsn ses') log;
}.

Lemma ascending_app b l1 l2 :
  ascending l1 → ascending l2 →
  Forall (λ mu, lsn_of mu < b) l1 → Forall (λ mu, b ≤ lsn_of mu) l2 → ascending (l1 ++ l2).
Proof.
  unfold ascending. intros A1 A2 G1 G2. rewrite map_app. apply StronglySorted_app. split_and!; [|done|done].
  rewrite Forall_forall in G1, G2. intros x1 x2 Hx1 Hx2.
  apply list_elem_of_fmap in Hx1 as (mu1 & -> & H1), Hx2 as (mu2 & -> & H2).
  specialize (G1 _ H1). specialize (G2 _ H2). lia.
Qed.

Lemma appended_nothing ses next dict :
  ws_next_lsn ses ≤ next →
  appended ses (with_counters ses next (ws_dropped_batches ses) (ws_commits_since_snapshot ses)
                  (ws_poisoned ses) dict) [].
Proof.
  intros Hn. split; simpl; [done|by rewrite app_nil_r| |done|by rewrite orb_false_r|done| |by constructor].
  - exists []. by rewrite app_nil_r.
  - constructor.
Qed.

Lemma appended_trans s1 s2 s3 l1 l2 :
  appended s1 s2 l1 → appended s2 s3 l2 → appended s1 s3 (l1 ++ l2).
Proof.
  intros [B1 P1 (r1 & F1 & R1) S1 N1 L1 A1 G1] [B2 P2 (r2 & F2 & R2) S2 N2 L2 A2 G2]. split.
  - unfold same_base in *. destruct_and!. split_and!; congruence.
  - by rewrite P2, P1, <- app_assoc.
  - exists (r1 ++ r2). split; [by apply Forall2_app|]. by rewrite R2, R1, <- app_assoc.
  - rewrite S2, S1. unfold apply_all. by rewrite foldl_app.
  - rewrite N2, N1. unfold has_node. by rewrite existsb_app, orb_assoc.
  - lia.
  - apply (ascending_app (ws_next_lsn s2)); [done|done| |];
      (eapply Forall_impl; [eassumption|]; simpl; intros mu; lia).
  - apply Forall_app. split.
    + eapply Forall_impl; [exact G1|]. simpl. intros mu. lia.
    + eapply Forall_impl; [exact G2|]. simpl. intros mu. lia.
Qed.

(** Queueing under an LSN the counter has passed. *)
Lemma append_pending_appended ses key lsn op ses0 :
  ws_next_lsn ses0 ≤ lsn < ws_next_lsn ses → appended ses0 ses [] →
  ∃ log, appended ses0 (append_pending ses (from_apply key lsn op) op lsn key).2 log ∧
         (log = [] ∨ log = [(key, lsn, op)]).
Proof.
  intros Hl Hap. unfold append_pending.
  destruct (WalEntry_encode (from_apply key lsn op)) as [payload|e] eqn:E; simpl; [|by exists []; auto].
  exists [(key, lsn, op)]. split; [|by right]. destruct Hap as [B P (r & F & R) S N L A G].
  apply Forall2_nil_inv_l in F as ->. rewrite app_nil_r in P, R. rewrite orb_false_r in N.
  split; simpl; [done|by rewrite P| |by rewrite S| |done| |].
  - exists [{| rec_lsn := lsn; rec_payload := payload |}]. rewrite R. split; [|done].
    constructor; [|constructor]. by split.
  - rewrite orb_false_r, N. by destruct (is_node_key key), (ws_node_mutations ses0).
  - apply SSorted_cons; constructor.
  - constructor; [|constructor]. done.
Qed.

(** A staging call appends at most one mutation, failing or not. *)
Lemma stage_appended ses op :
  ws_next_lsn ses < u64_max →
  ∃ log, appended ses (stage ses op) log ∧ (length log ≤ 1)%nat ∧
         ws_next_lsn (stage ses op) = ws_next_lsn ses + 1.
Proof.
  intros Hlt.
  assert (Hsat : saturating_add64 (ws_next_lsn ses) 1 = ws_next_lsn ses + 1).
  { unfold saturating_add64, u64_max in *. lia. }
  assert (Hgo : ∀ dict key mop,
    let ses1 := with_counters ses (saturating_add64 (ws_next_lsn ses) 1) (ws_dropped_batches ses)
                  (ws_commits_since_snapshot ses) (ws_poisoned ses) dict in
    let ses2 := (append_pending ses1 (from_apply key (ws_next_lsn ses) mop) mop (ws_next_lsn ses) key).2 in
    ∃ log, appended ses ses2 log ∧ (length log ≤ 1)%nat ∧ ws_next_lsn ses2 = ws_next_lsn ses + 1).
  { intros dict key mop ses1 ses2.
    destruct (append_pending_appended ses1 key (ws_next_lsn ses) mop ses) as (log & Hap & Hlog).
    - unfold ses1. simpl. lia.
    - apply appended_nothing. lia.
    - exists log. split_and!; [done|by destruct Hlog as [-> | ->]; simpl; lia|].
      unfold ses2, append_pending. destruct (WalEntry_encode _); simpl; lia. }
  assert (Hno : ∀ dict, ∃ log, appended ses (with_counters ses (saturating_add64 (ws_next_lsn ses) 1)
      (ws_dropped_batches ses) (ws_commits_since_snapshot ses) (ws_poisoned ses) dict) log ∧
      (length log ≤ 1)%nat ∧ saturating_add64 (ws_next_lsn ses) 1 = ws_next_lsn ses + 1).
  { intros dict. exists []. split_and!; [apply appended_nothing; lia|simpl; lia|done]. }
  destruct op as [labels id enc|id|ty src dst enc|ty src dst]; simpl.
  - unfold upsert_node_with_labels. simpl. destruct (intern_all _ labels) as [dict ids].
    destruct (enc _) as [payload|e]; [|apply Hno].
    pose proof (Hgo dict (KNode id) (Upsert payload)) as Hg. cbv zeta in Hg. revert Hg.
    unfold from_apply, set_label_dict. simpl. by destruct (append_pending _ _ _ _ _).
  - pose proof (Hgo (ws_label_dict ses) (KNode id) Tombstone) as Hg. cbv zeta in Hg. revert Hg.
    unfold tombstone_node, from_apply. simpl. by destruct (append_pending _ _ _ _ _).
  - unfold upsert_edge. simpl. destruct enc as [payload|e]; [|apply Hno].
    pose proof (Hgo (ws_label_dict ses) (KEdge ty src dst) (Upsert payload)) as Hg. cbv zeta in Hg.
    revert Hg. unfold from_apply. simpl. by destruct (append_pending _ _ _ _ _).
  - pose proof (Hgo (ws_label_dict ses) (KEdge ty src dst) Tombstone) as Hg. cbv zeta in Hg. revert Hg.
    unfold tombstone_edge, from_apply. simpl. by destruct (append_pending _ _ _ _ _).
Qed.

Lemma stage_all_appended ops ses :
  ws_next_lsn ses + Z.of_nat (length ops) ≤ u64_max →
  ∃ log, appended ses (stage_all ses ops) log ∧
         ws_next_lsn (stage_all ses ops) = ws_next_lsn ses + Z.of_nat (length ops).
Proof.
  revert ses. induction ops as [|op ops IH]; intros ses Hn; cbn [stage_all foldl length] in *.
  { exists []. split; [|lia].
    pose proof (appended_nothing ses (ws_next_lsn ses) (ws_label_dict ses) (Z.le_refl _)) as Hap.
    by destruct ses. }
  destruct (stage_appended ses op) as (l1 & H1 & _ & E1); [lia|].
  destruct (IH (stage ses op)) as (l2 & H2 & E2); [lia|].
  exists (l1 ++ l2). split; [by eapply appended_trans|]. unfold stage_all in E2. lia.
Qed.

(** ** The batch invariant *)

(** The overlay is the fold of the staged mutations, the pending WAL records encode
    them one by one, LSNs increase and lie between the durable watermark and the
    counter, and the node flag is exact. *)
Record batch_ok (ses : WriterSession) : Prop := {
  bo_staged : ws_staged ses = apply_all Memtable_new (ws_payloads ses);
  bo_records : Forall2 log_record (ws_payloads ses) (seg_records (ws_pending ses));
  bo_nodes : ws_node_mutations ses = has_node (ws_payloads ses);
  bo_ascending : ascending (ws_payloads ses);
  bo_range : Forall (λ mu, ws_durable_lsn ses < lsn_of mu < ws_next_lsn ses) (ws_payloads ses);
  bo_lsn : 0 ≤ ws_durable_lsn ses < ws_next_lsn ses ∧ ws_next_lsn ses ≤ u64_max;
}.

Lemma appended_batch_ok ses ses' log :
  batch_ok ses → appended ses ses' log → ws_next_lsn ses' ≤ u64_max → batch_ok ses'.
Proof.
  intros [S F N A G L] [B P (r & F' & R) S' N' L' A' G'] Hmax.
  assert (Hd : ws_durable_lsn ses' = ws_durable_lsn ses) by (unfold same_base in B; tauto).
  split.
  - rewrite S', S, P. unfold apply_all. by rewrite foldl_app.
  - rewrite P, R. by apply Forall2_app.
  - rewrite N', N, P. unfold has_node. by rewrite existsb_app.
  - rewrite P. apply (ascending_app (ws_next_lsn ses)); [done|done| |];
      (eapply Forall_impl; [eassumption|]; simpl; intros mu; lia).
  - rewrite P, Hd. apply Forall_app. split.
    + eapply Forall_impl; [exact G|]. simpl. intros mu. lia.
    + eapply Forall_impl; [exact G'|]. simpl. intros mu. lia.
  - lia.
Qed.

Lemma empty_batch_ok ses pending_seq next_lsn :
  ws_pending ses = WalSegment_new pending_seq → ws_payloads ses = [] → ws_staged ses = Memtable_new →
  ws_node_mutations ses = false → ws_next_lsn ses = next_lsn →
  0 ≤ ws_durable_lsn ses < next_lsn ∧ next_lsn ≤ u64_max → batch_ok ses.
Proof.
  intros Hp Hl Hs Hn Hx Hr. split; rewrite ?Hp, ?Hl, ?Hs, ?Hn, ?Hx; try done; constructor.
Qed.

Lemma rollback_appended ses ses' log :
  batch_ok ses → appended ses ses' log →
  rollback_staged_request ses' (begin_staged_request ses)
  = with_counters ses (ws_next_lsn ses') (ws_dropped_batches ses) (ws_commits_since_snapshot ses)
      (ws_poisoned ses) (ws_label_dict ses').
Proof.
  intros Hok [B P (r & F & R) S N L A G]. unfold rollback_staged_request, begin_staged_request. simpl.
  rewrite P, R, !take_app_length. unfold same_base in B. destruct_and!.
  pose proof (bo_staged _ Hok) as Hs. unfold apply_all in Hs. unfold apply_payload.
  destruct ses as [????????[]???????], ses' as [????????[]???????]. simpl in *. subst. done.
Qed.

(** ** Properties *)

(** C37: staging keeps the uncommitted batch consistent. After any sequence of node and
    edge upserts and tombstones, successful or failing, the read-your-own-writes
    overlay is the fold of the queued mutations, the pending WAL records encode
    exactly them, their LSNs strictly increase above the durable watermark, and
    nothing committed has changed. *)
Theorem staging_consistent ses ops :
  batch_ok ses → ws_next_lsn ses + Z.of_nat (length ops) ≤ u64_max →
  batch_ok (stage_all ses ops) ∧ same_base ses (stage_all ses ops) ∧
  ∃ log, ws_payloads (stage_all ses ops) = ws_payloads ses ++ log.
Proof.
  intros Hok Hn. destruct (stage_all_appended ops ses Hn) as (log & Hap & E).
  split_and!; [eapply appended_batch_ok; [done|done|lia]|apply Hap|exists log; apply Hap].
Qed.

(** A failed statement rolls back alone. Whatever was staged since the request
    began, rolling back to its mark restores the session exactly, but for the LSNs
    consumed and the label names interned; the batch stays consistent. *)
Theorem rollback_restores ses ops :
  batch_ok ses → ws_next_lsn ses + Z.of_nat (length ops) ≤ u64_max →
  let rolled := rollback_staged_request (stage_all ses ops) (begin_staged_request ses) in
  rolled = with_counters ses (ws_next_lsn ses + Z.of_nat (length ops)) (ws_dropped_batches ses)
             (ws_commits_since_snapshot ses) (ws_poisoned ses) (ws_label_dict (stage_all ses ops)) ∧
  batch_ok rolled.
Proof.
  intros Hok Hn rolled. destruct (stage_all_appended ops ses Hn) as (log & Hap & E).
  assert (Hr : rolled = with_counters ses (ws_next_lsn ses + Z.of_nat (length ops))
    (ws_dropped_batches ses) (ws_commits_since_snapshot ses) (ws_poisoned ses)
    (ws_label_dict (stage_all ses ops))).
  { unfold rolled. by rewrite (rollback_appended ses _ log Hok Hap), E. }
  split; [done|]. rewrite Hr. eapply appended_batch_ok; [done|apply appended_nothing; lia|simpl; lia].
Qed.

(** discarding drops the whole batch and nothing else, counts a non-empty drop,
    and reports how many records went. *)
Theorem discard_drops_batch ses :
  batch_ok ses →
  let '(ses', n) := discard_batch ses in
  n = length (ws_payloads ses) ∧ ws_payloads ses' = [] ∧ batch_ok ses' ∧
  ws_memtable ses' = ws_memtable ses ∧ ws_published ses' = ws_published ses ∧
  ws_current ses' = ws_current ses ∧ ws_durable_lsn ses' = ws_durable_lsn ses ∧
  ws_dropped_batches ses'
  = (if (n =? 0)%nat then ws_dropped_batches ses else saturating_add64 (ws_dropped_batches ses) 1).
Proof.
  intros Hok. unfold discard_batch. pose proof (bo_lsn _ Hok) as Hlsn.
  assert (length (ws_payloads ses) = length (seg_records (ws_pending ses))) as ->
    by exact (Forall2_length _ _ _ (bo_records _ Hok)).
  destruct (length (seg_records (ws_pending ses))) as [|n]; simpl; split_and!; try done;
    (eapply empty_batch_ok; simpl; [done..|lia]).
Qed.
End Staging.
