(* ===== verification/ManifestSafety.v ===== *)
(** Safety of the manifest protocol under concurrency.

    Any number of clients run the operations of [ManifestStore] against one
    shared store, their requests interleaved arbitrarily, with lost requests,
    lost responses, duplicated requests and stale listings. In every execution
    in which no DELETE takes effect, the pointer family is a gap-free chain of
    durable manifests with monotone epochs, a version is published by at most one
    request, and a fenced writer publishes nothing. *)
From S2P Require Import Prelude StorageError Wal ManifestTypes DescriptorIndex Paths ManifestProtocol ObjectStore.

(** Every fault, but no effective DELETE. *)
Definition faulty : Mode := {| with_faults := true; with_deletes := false |}.
(** Neither faults nor DELETEs; LIST may still be stale. *)
Definition reliable : Mode := {| with_faults := false; with_deletes := false |}.

(** Equal but for the audit-only [created_at]. *)
Definition same_content (m m' : Manifest) : Prop := with_created_at m 0 = with_created_at m' 0.

Section Chain.
Context `{!KeySpace} `{!JsonCodec Manifest manifest_typed}.
Context `{!JsonCodec ManifestPointer pointer_typed}.

(** The pointer that publishes [m] as version [n]. *)
Definition pointer_to (n : Z) (m : Manifest) : ManifestPointer :=
  {| ptr_version := n; ptr_epoch := mf_epoch m; ptr_manifest_path := manifest_version n |}.

Definition body_at (s : Objects) (n : Z) (m : Manifest) : Prop :=
  ∃ b, s !! manifest_version n = Some b ∧ from_slice b = Ok m ∧ mf_version m = n.

Definition published (s : Objects) (n : Z) (m : Manifest) : Prop :=
  is_u64 n ∧ body_at s n m ∧
  ∃ b, s !! pointer_version n = Some b ∧ from_slice b = Ok (pointer_to n m).

(** Version [n] may follow what is published. *)
Definition extends (s : Objects) (n : Z) (m : Manifest) : Prop :=
  n = 0 ∨ ∃ m', published s (n - 1) m' ∧ mf_epoch m' ≤ mf_epoch m.

Record Inv (w : World) : Prop := {
  inv_pointers k : is_Some (w_objs w !! k) → under pointer_dir k = true →
    ∃ n m, k = pointer_version n ∧ published (w_objs w) n m;
  inv_chain n m : published (w_objs w) n m → extends (w_objs w) n m;
  inv_advisory b : w_objs w !! current_pointer = Some b →
    ∃ n m, published (w_objs w) n m ∧ from_slice b = Ok (pointer_to n m);
  inv_owner k i : w_owner w !! k = Some i → is_Some (w_objs w !! k);
}.

(** What never changes once there: pointers, bodies, WAL segments, ownership. *)
Record ext (w w' : World) : Prop := {
  ext_pointer n b : w_objs w !! pointer_version n = Some b → w_objs w' !! pointer_version n = Some b;
  ext_body n b : w_objs w !! manifest_version n = Some b → w_objs w' !! manifest_version n = Some b;
  ext_wal n b : w_objs w !! wal_segment n = Some b → w_objs w' !! wal_segment n = Some b;
  ext_owner k i : w_owner w !! k = Some i → w_owner w' !! k = Some i;
}.

#[global] Instance ext_preorder : PreOrder ext.
Proof.
  split; [by intros w; split|].
  intros w1 w2 w3 [] []. split; auto.
Qed.

Lemma pointer_not_manifest m n : pointer_version m ≠ manifest_version n.
Proof.
  intros E. pose proof (pointer_listed m) as Hp. by rewrite E, manifest_not_listed in Hp.
Qed.
Lemma pointer_not_current n : pointer_version n ≠ current_pointer.
Proof. intros E. pose proof (pointer_listed n) as Hp. by rewrite E, current_not_listed in Hp. Qed.
Lemma pointer_not_wal m n : pointer_version m ≠ wal_segment n.
Proof. intros E. pose proof (pointer_listed m) as Hp. by rewrite E, wal_not_listed in Hp. Qed.

Lemma body_at_ext w w' n m : ext w w' → body_at (w_objs w) n m → body_at (w_objs w') n m.
Proof. intros He (b & Hb & Hm). exists b. split; [by apply (ext_body _ _ He)|done]. Qed.
#[local] Hint Resolve body_at_ext : namidb.

Lemma published_ext w w' n m : ext w w' → published (w_objs w) n m → published (w_objs w') n m.
Proof.
  intros He (Hn & Hb & b & Hp & Hd). split_and!; [done|stable|].
  exists b. split; [by apply (ext_pointer _ _ He)|done].
Qed.
#[local] Hint Resolve published_ext : namidb.

Lemma published_typed s n m : published s n m → manifest_typed m.
Proof. intros (_ & (b & _ & Hd & _) & _). by eapply from_slice_typed. Qed.

Lemma published_unique s n m m' : published s n m → published s n m' → m = m'.
Proof.
  intros (_ & (b & Hb & Hd & _) & _) (_ & (b' & Hb' & Hd' & _) & _). congruence.
Qed.

(** [published] from the two objects. *)
Lemma published_by_lookup s n m b pb :
  is_u64 n → s !! manifest_version n = Some b → from_slice b = Ok m → mf_version m = n →
  s !! pointer_version n = Some pb → from_slice pb = Ok (pointer_to n m) → published s n m.
Proof. intros Hn Hb Hm Hv Hpb Hp. split_and!; [done|by exists b|by exists pb]. Qed.

(** The pointer chain reaches down to version 0, with smaller epochs below. *)
Lemma published_below w n m k :
  Inv w → published (w_objs w) n m → 0 ≤ k ≤ n →
  ∃ m', published (w_objs w) k m' ∧ mf_epoch m' ≤ mf_epoch m.
Proof.
  intros HI Hn Hk. assert (Hj : ∃ j : nat, n = k + Z.of_nat j).
  { exists (Z.to_nat (n - k)). lia. }
  destruct Hj as [j ->]. revert m Hn. induction j as [|j IH]; intros m Hn.
  - exists m. replace (k + Z.of_nat 0) with k in Hn by lia. split; [done|lia].
  - destruct (inv_chain w HI _ _ Hn) as [|(m' & Hm' & He)]; [lia|].
    replace (k + Z.of_nat (S j) - 1) with (k + Z.of_nat j) in Hm' by lia.
    destruct (IH ltac:(lia) m' Hm') as (m'' & ? & ?). exists m''. split; [done|lia].
Qed.

(** A present pointer key is a published version. *)
Lemma present_published w n b :
  Inv w → is_u64 n → w_objs w !! pointer_version n = Some b →
  ∃ m, published (w_objs w) n m ∧ from_slice b = Ok (pointer_to n m).
Proof.
  intros HI Hn Hb. destruct (inv_pointers w HI (pointer_version n)) as (n' & m & E & Hp).
  - by rewrite Hb.
  - apply pointer_listed.
  - assert (n = n') as <- by (apply pointer_version_inj; [done|by destruct Hp|done]).
    exists m. split; [done|]. destruct Hp as (_ & _ & b' & Hb' & Hd). congruence.
Qed.

(** ** Effects that keep the invariant *)

Lemma extends_ext w w' n m : ext w w' → extends (w_objs w) n m → extends (w_objs w') n m.
Proof.
  intros He [->|(m' & Hm' & Hle)]; [by left|]. right. exists m'. split; [|done].
  stable.
Qed.
#[local] Hint Resolve extends_ext : namidb.

Lemma owner_kept i p b w w' :
  Inv w → created p b w w' → w_owner w' = w_owner w ∨ w_owner w' = <[p := i]> (w_owner w) →
  (∀ k j, w_owner w !! k = Some j → w_owner w' !! k = Some j) ∧
  (∀ k j, w_owner w' !! k = Some j → is_Some (w_objs w' !! k)).
Proof.
  intros HI [Hnone Hs] Ho.
  assert (Hmono : ∀ k, is_Some (w_objs w !! k) → is_Some (w_objs w' !! k)).
  { intros k Hk. rewrite Hs. destruct (decide (p = k)) as [->|Hne];
      [by rewrite lookup_insert_eq|by rewrite lookup_insert_ne]. }
  destruct Ho as [-> | ->]; [split; [done|]; intros k j Hk; by apply Hmono, (inv_owner w HI k j)|].
  split; intros k j Hk.
  - destruct (decide (p = k)) as [->|Hne]; [|by rewrite lookup_insert_ne].
    apply (inv_owner w HI) in Hk. rewrite Hnone in Hk. by destruct Hk.
  - destruct (decide (p = k)) as [->|Hne]; [rewrite Hs; by rewrite lookup_insert_eq|].
    rewrite lookup_insert_ne in Hk by done. by apply Hmono, (inv_owner w HI k j).
Qed.

Lemma created_ext i p b w w' :
  Inv w → created p b w w' → w_owner w' = w_owner w ∨ w_owner w' = <[p := i]> (w_owner w) →
  ext w w'.
Proof.
  intros HI Hc Ho. pose proof (owner_kept i p b w w' HI Hc Ho) as [Hown _].
  destruct Hc as [Hnone Hs].
  assert (Hmono : ∀ k x, w_objs w !! k = Some x → w_objs w' !! k = Some x).
  { intros k x Hk. rewrite Hs. apply lookup_insert_Some. right. split; [|done].
    intros ->. by rewrite Hnone in Hk. }
  split; auto.
Qed.

(** A change that leaves the pointer directory alone publishes nothing. *)
Lemma published_back w w' n m :
  Inv w → ext w w' → (∀ k, under pointer_dir k = true → w_objs w' !! k = w_objs w !! k) →
  published (w_objs w') n m → published (w_objs w) n m.
Proof.
  intros HI He Hsame Hp. pose proof Hp as (Hn & _ & b & Hb & _).
  rewrite Hsame in Hb by apply pointer_listed.
  destruct (present_published w n b HI Hn Hb) as (m0 & Hm0 & _).
  by rewrite (published_unique _ _ _ _ Hp (published_ext _ _ _ _ He Hm0)).
Qed.

Lemma inv_same_pointers w w' :
  Inv w → ext w w' → (∀ k, under pointer_dir k = true → w_objs w' !! k = w_objs w !! k) →
  (∀ b, w_objs w' !! current_pointer = Some b →
     ∃ n m, published (w_objs w') n m ∧ from_slice b = Ok (pointer_to n m)) →
  (∀ k j, w_owner w' !! k = Some j → is_Some (w_objs w' !! k)) → Inv w'.
Proof.
  intros HI He Hsame Hcur Hown. split; [| |done|done].
  - intros k Hk Hu. rewrite Hsame in Hk by done.
    destruct (inv_pointers w HI k Hk Hu) as (n & m & -> & Hp).
    exists n, m. split; [done|]. stable.
  - intros n m Hp. eapply extends_ext; [done|]. apply (inv_chain w HI).
    by eapply published_back.
Qed.

Lemma create_other i p b w w' :
  under pointer_dir p = false → p ≠ current_pointer →
  Inv w → created p b w w' → w_owner w' = w_owner w ∨ w_owner w' = <[p := i]> (w_owner w) →
  Inv w' ∧ ext w w'.
Proof.
  intros Hu Hc HI Hcr Ho. pose proof (created_ext i p b w w' HI Hcr Ho) as He.
  split; [|done]. destruct (owner_kept i p b w w' HI Hcr Ho) as [_ Hown].
  destruct Hcr as [Hnone Hs]. apply (inv_same_pointers w); [done|done| | |done].
  - intros k Hk. rewrite Hs, lookup_insert_ne; [done|]. intros ->. by rewrite Hk in Hu.
  - intros b' Hb'. rewrite Hs, lookup_insert_ne in Hb' by done.
    destruct (inv_advisory w HI b' Hb') as (n & m & Hp & Hd). exists n, m.
    split; [stable|done].
Qed.

Lemma overwrite_current b w w' n m :
  Inv w → w_owner w' = w_owner w →
  w_objs w' = w_objs w ∨ w_objs w' = <[current_pointer := b]> (w_objs w) →
  published (w_objs w) n m → from_slice b = Ok (pointer_to n m) →
  Inv w' ∧ ext w w'.
Proof.
  intros HI Ho Hs Hp Hd.
  assert (Hk : ∀ k, k ≠ current_pointer → w_objs w' !! k = w_objs w !! k).
  { intros k Hk. destruct Hs as [->| ->]; [done|]. by rewrite lookup_insert_ne. }
  assert (He : ext w w').
  { split.
    - intros v x. by rewrite Hk by apply pointer_not_current.
    - intros v x. rewrite Hk; [done|]. apply not_eq_sym, current_not_manifest.
    - intros v x. by rewrite Hk by apply wal_not_current.
    - by rewrite Ho. }
  split; [|done]. apply (inv_same_pointers w); [done|done| | |].
  - intros k Hu. apply Hk. intros ->. by rewrite current_not_listed in Hu.
  - intros b' Hb'. destruct Hs as [Hs|Hs]; rewrite Hs in Hb' |- *.
    + apply (inv_advisory w HI). done.
    + rewrite lookup_insert_eq in Hb'. injection Hb' as <-. exists n, m. rewrite <- Hs.
      split; [stable|done].
  - intros k j Hj. rewrite Ho in Hj. apply (inv_owner w HI) in Hj.
    destruct Hs as [->| ->]; [done|]. destruct (decide (k = current_pointer)) as [->|Hne];
      [by rewrite lookup_insert_eq|by rewrite lookup_insert_ne by done].
Qed.

(** Replacing the memtable checkpoint. *)
Lemma overwrite_snapshot b w w' :
  Inv w → w_owner w' = w_owner w →
  w_objs w' = w_objs w ∨ w_objs w' = <[memtable_snapshot := b]> (w_objs w) →
  Inv w' ∧ ext w w'.
Proof.
  intros HI Ho Hs.
  assert (Hk : ∀ k, k ≠ memtable_snapshot → w_objs w' !! k = w_objs w !! k).
  { intros k Hk. destruct Hs as [->| ->]; [done|]. by rewrite lookup_insert_ne. }
  assert (Hp : ∀ k, under pointer_dir k = true → w_objs w' !! k = w_objs w !! k).
  { intros k Hu. apply Hk. intros ->. by rewrite snapshot_not_listed in Hu. }
  assert (He : ext w w').
  { split.
    - intros v x. by rewrite Hp by apply pointer_listed.
    - intros v x. rewrite Hk; [done|]. apply not_eq_sym, snapshot_not_manifest.
    - intros v x. rewrite Hk; [done|]. intros E. pose proof (wal_listed v) as Hu.
      by rewrite E, snapshot_not_in_wal in Hu.
    - by rewrite Ho. }
  split; [|done]. apply (inv_same_pointers w); [done|done|done| |].
  - intros b' Hb'. rewrite Hk in Hb' by apply not_eq_sym, snapshot_not_current.
    destruct (inv_advisory w HI b' Hb') as (n & m & Hp' & Hd). exists n, m.
    split; [stable|done].
  - intros k j Hj. rewrite Ho in Hj. apply (inv_owner w HI) in Hj.
    destruct Hs as [->| ->]; [done|]. destruct (decide (k = memtable_snapshot)) as [->|Hne];
      [by rewrite lookup_insert_eq|by rewrite lookup_insert_ne by done].
Qed.

(** Publishing the next version. *)
Lemma create_pointer i n m b w w' :
  is_u64 n → body_at (w_objs w) n m → extends (w_objs w) n m → from_slice b = Ok (pointer_to n m) →
  Inv w → created (pointer_version n) b w w' →
  w_owner w' = w_owner w ∨ w_owner w' = <[pointer_version n := i]> (w_owner w) →
  Inv w' ∧ ext w w' ∧ published (w_objs w') n m.
Proof.
  intros Hn Hbody Hext Hd HI Hcr Ho. pose proof (created_ext i _ b w w' HI Hcr Ho) as He.
  destruct (owner_kept i _ b w w' HI Hcr Ho) as [_ Hown]. destruct Hcr as [Hnone Hs].
  assert (Hpub : published (w_objs w') n m).
  { split_and!; [done|stable|]. exists b. by rewrite Hs, lookup_insert_eq. }
  split_and!; [|done|done]. split; [| | |done].
  - intros k Hk Hu. destruct (decide (k = pointer_version n)) as [->|Hne]; [by exists n, m|].
    rewrite Hs, lookup_insert_ne in Hk by done.
    destruct (inv_pointers w HI k Hk Hu) as (n' & m' & -> & Hp').
    exists n', m'. split; [done|]. stable.
  - intros n' m' Hp'. destruct (decide (n' = n)) as [->|Hne].
    { rewrite (published_unique _ _ _ _ Hp' Hpub). stable. }
    eapply extends_ext; [done|]. apply (inv_chain w HI).
    pose proof Hp' as (Hn' & _ & b' & Hb' & _).
    rewrite Hs, lookup_insert_ne in Hb' by (intros E; apply pointer_version_inj in E; done).
    destruct (present_published w n' b' HI Hn' Hb') as (m0 & Hm0 & _).
    by rewrite (published_unique _ _ _ _ Hp' (published_ext _ _ _ _ He Hm0)).
  - intros b' Hb'. rewrite Hs, lookup_insert_ne in Hb' by apply pointer_not_current.
    destruct (inv_advisory w HI b' Hb') as (n' & m' & Hp' & Hd'). exists n', m'.
    split; [stable|done].
Qed.
End Chain.
#[export] Hint Resolve body_at_ext published_ext extends_ext : namidb.

(** ** The operations keep the invariant *)

Section Programs.
Context `{!KeySpace} `{!JsonCodec Manifest manifest_typed}.
Context `{!JsonCodec ManifestPointer pointer_typed}.
Context (crc32 xxh3_64 : list byte → Z).
Context (md : Mode) (Hmd : with_deletes md = false).
#[local] Abbreviation spec := (wpe md Inv ext).

(** [put_create] under [match]: its effect must be safe; [Ok] means ownership. *)
Lemma spec_put_create {A} i path b (k : Result PutResult → prog A) Φ w :
  (∀ w1 w2, ext w w1 → Inv w1 → created path b w1 w2 →
     w_owner w2 = w_owner w1 ∨ w_owner w2 = <[path := i]> (w_owner w1) → Inv w2 ∧ ext w1 w2) →
  (∀ w0 w1 r, ext w w0 → Inv w0 → w_objs w0 !! path = None → ext w0 w1 → Inv w1 →
     w_objs w1 !! path = Some b → w_owner w1 !! path = Some i → spec i (k (Ok r)) Φ w1) →
  (∀ w1 e, ext w w1 → Inv w1 → spec i (k (Err (ObjectStore e))) Φ w1) →
  spec i (attempt (put_create path b) ≫= k) Φ w.
Proof.
  intros Heff Hok Herr. apply (wpe_attempt md Inv ext). intros w1 He Hi r w2 Hs.
  apply step_create in Hs as [Hcase Hown].
  assert (Inv w2 ∧ ext w1 w2) as [Hi2 He2].
  { destruct Hcase as [->|[[Hc Ho]|[Hc Ho]]]; [done| |]; apply (Heff w1 w2); auto. }
  split_and!; [done|done|]. assert (He' : ext w w2) by by trans w1.
  intros w3 He3 Hi3. destruct r as [m|e]; simpl; [|eapply (wpe_ext md Inv ext); [exact He3|by apply Herr]].
  destruct (Hown m eq_refl) as [[Hnone Hs2] Ho2]. eapply (wpe_ext md Inv ext); [done|].
  apply (Hok w1); [done|done|done|done|done| |].
  - by rewrite Hs2, lookup_insert_eq.
  - by rewrite Ho2, lookup_insert_eq.
Qed.

Definition loaded (w : World) (lm : LoadedManifest) : Prop :=
  ∃ m, published (w_objs w) (ptr_version (lm_pointer lm)) m ∧
       lm_pointer lm = pointer_to (ptr_version (lm_pointer lm)) m ∧ same_content (lm_manifest lm) m.

Lemma loaded_ext w w' lm : ext w w' → loaded w lm → loaded w' lm.
Proof. intros He (m & Hp & Hc). exists m. split; [stable|done]. Qed.
#[local] Hint Resolve loaded_ext : namidb.

Lemma spec_probe i fuel n w m :
  published (w_objs w) n m →
  spec i (probe_loop fuel n)
    (λ n' w', (∃ m', published (w_objs w') n' m') ∧ ∀ lb mlb, published (w_objs w) lb mlb → lb ≤ n') w.
Proof.
  revert n m w. induction fuel as [|fuel IH]; intros n m w Hn; cbn [probe_loop]; [done|].
  apply (wpe_head md Inv ext). intros w1 r He Hi Hok Hnf _.
  pose proof (published_ext _ _ _ _ He Hn) as Hn1.
  set (next := saturating_add64 n 1) in *.
  assert (Hnext : is_u64 next ∧ (next = n ∨ next = n + 1)).
  { destruct Hn as (Hu & _). unfold next, saturating_add64, is_uint, u64_max in *. lia. }
  destruct r as [z|[]].
  - destruct (Hok z eq_refl) as [b Hb].
    destruct (present_published w1 next b Hi (proj1 Hnext) Hb) as (m' & Hm' & _).
    eapply (wpe_weaken md Inv ext); [|by eapply IH]. intros n' w' He' Hi' [Hp Hlb]. split; [done|].
    intros lb mlb Hl. eapply Hlb. stable.
  - apply wpe_ret. intros w' He' Hi'. split; [exists m; stable|].
    intros lb mlb Hl. destruct (decide (lb ≤ n)) as [|Hgt]; [done|exfalso].
    destruct (published_below w1 lb mlb next Hi) as (m' & Hm' & _).
    + stable.
    + destruct Hn as (Hu & _), Hl as (Hul & _).
      unfold next, saturating_add64, is_uint, u64_max in *. lia.
    + destruct Hm' as (_ & _ & b & Hb & _). by rewrite (Hnf eq_refl) in Hb.
  - done.
  - done.
Qed.

Lemma max_listed_elem l v : max_listed l = Some v → ∃ k, k ∈ l ∧ pointer_number k = Some v.
Proof.
  unfold max_listed.
  assert (H0 : ∀ acc pre, (∀ v, acc = Some v → ∃ k, k ∈ pre ∧ pointer_number k = Some v) →
    ∀ v, foldl (λ max location,
      match pointer_number location with
      | Some v => Some (match max with Some m => Z.max m v | None => v end)
      | None => max
      end) acc l = Some v → ∃ k, k ∈ pre ++ l ∧ pointer_number k = Some v); [|by apply (H0 None [])].
  induction l as [|x l IH]; intros acc pre Hacc v'; cbn [foldl].
  { rewrite app_nil_r. apply Hacc. }
  replace (pre ++ x :: l) with ((pre ++ [x]) ++ l) by by rewrite <- app_assoc.
  apply IH. intros v0 Hv0. destruct (pointer_number x) as [vx|] eqn:Ex.
  - injection Hv0 as <-. destruct acc as [a|]; [|exists x; set_solver].
    destruct (Z.max_spec a vx) as [[_ ->]|[_ ->]]; [exists x; set_solver|].
    destruct (Hacc a eq_refl) as (k & Hk & Hpk). exists k. set_solver.
  - destruct (Hacc v0 Hv0) as (k & Hk & Hpk). exists k. set_solver.
Qed.

Lemma spec_max_pointer_version i w :
  spec i max_pointer_version
    (λ o w', match o with
             | Some n => ∃ m, published (w_objs w') n m
             | None => with_faults md = false → ∀ lb mlb, ¬ published (w_objs w) lb mlb
             end) w.
Proof.
  unfold max_pointer_version. apply (wpe_list md Inv ext). intros w1 r He Hi Hl.
  apply (wpe_bind md Inv ext), wpe_lift. intros l w2 -> He2 Hi2.
  destruct (max_listed l) as [v|] eqn:Ev.
  { apply wpe_ret. intros w3 He3 Hi3. apply max_listed_elem in Ev as (k & Hk & Hv).
    destruct (Hl l eq_refl k Hk) as [Hs Hu].
    destruct (inv_pointers w1 Hi k Hs Hu) as (n & m & -> & Hp).
    rewrite pointer_number_version in Hv by by destruct Hp. injection Hv as <-.
    exists m. stable. }
  apply (wpe_head md Inv ext). intros w3 h He3 Hi3 Hok Hnf Hrel. destruct h as [z|e].
  { apply wpe_ret. intros w4 He4 Hi4. destruct (Hok z eq_refl) as [b Hb].
    destruct (present_published w3 0 b Hi3) as (m & Hm & _); [done|done|].
    exists m. stable. }
  assert (Hnone : with_faults md = false → ∀ lb mlb, ¬ published (w_objs w) lb mlb).
  { intros Hf lb mlb Hp. assert (He' : ext w w3) by (trans w1; [done|by trans w2]).
    apply (published_ext _ _ _ _ He') in Hp.
    destruct (published_below w3 lb mlb 0 Hi3 Hp) as (m0 & (_ & _ & b & Hb & _) & _).
    - destruct Hp as [Hu _]. unfold is_uint in Hu. lia.
    - by rewrite (Hrel Hf e eq_refl) in Hb. }
  apply (wpe_get md Inv ext). intros w4 g He4 Hi4 _ _. destruct g as [res|]; [|by apply wpe_ret].
  destruct (get_bytes res) as [body|]; [|by apply wpe_ret].
  destruct (from_slice body) as [p|] eqn:Ep; [|by apply wpe_ret].
  apply (wpe_head md Inv ext). intros w5 h He5 Hi5 Hok5 _ _. apply wpe_ret. intros w6 He6 Hi6.
  destruct h as [z|]; [|done]. destruct (Hok5 z eq_refl) as [b Hb].
  apply from_slice_typed in Ep as [Hu _].
  destruct (present_published w5 _ b Hi5 Hu Hb) as (m & Hm & _).
  exists m. stable.
Qed.

(** The pointer [load_pointer] returns is published, and not older than anything
    published before the call, unless LIST and HEAD both failed. *)
Lemma spec_load_pointer i w :
  spec i load_pointer
    (λ x w', (∃ m, published (w_objs w') (ptr_version x.1.1) m ∧ x.1.1 = pointer_to (ptr_version x.1.1) m) ∧
             (with_faults md = false → ∀ lb mlb, published (w_objs w) lb mlb → lb ≤ ptr_version x.1.1)) w.
Proof.
  unfold load_pointer. apply (wpe_bind md Inv ext).
  eapply (wpe_weaken md Inv ext); [|apply spec_max_pointer_version].
  intros o w1 He1 Hi1 Ho. apply (wpe_bind md Inv ext).
  set (Φ := λ (path : Path) (w' : World),
    (∃ n m, path = pointer_version n ∧ published (w_objs w') n m ∧
            ∀ lb mlb, published (w_objs w) lb mlb → lb ≤ n)
    ∨ (path = current_pointer ∧ (with_faults md = false → ∀ lb mlb, ¬ published (w_objs w) lb mlb))).
  apply (wpe_weaken md Inv ext) with (Φ := Φ).
  { intros path w2 He2 Hi2 HΦ. apply (wpe_get md Inv ext). intros w3 g He3 Hi3 Hg _.
    apply (wpe_bind md Inv ext), wpe_lift. intros res w4 -> He4 Hi4. apply (wpe_bind md Inv ext), wpe_lift.
    intros body w5 Hb He5 Hi5. apply (wpe_bind md Inv ext), wpe_lift_json. intros ptr w6 Hptr He6 Hi6.
    apply wpe_ret. intros w7 He7 Hi7. specialize (Hg res body eq_refl Hb). simpl.
    assert (He37 : ext w3 w7) by (trans w4; [done|]; trans w5; [done|]; by trans w6).
    destruct HΦ as [(n & m & -> & Hp & Hlb)|[-> Hnone]].
    - destruct (present_published w3 n body Hi3) as (m' & Hm' & Hd); [by destruct Hp|done|].
      assert (ptr = pointer_to n m') as -> by congruence. simpl. split; [|by eauto].
      exists m'. split; [stable|done].
    - destruct (inv_advisory w3 Hi3 body Hg) as (n & m & Hp & Hd).
      assert (ptr = pointer_to n m) as -> by congruence. simpl. split.
      + exists m. split; [stable|done].
      + intros Hf lb mlb Hlb. by destruct (Hnone Hf lb mlb). }
  destruct o as [n|].
  - destruct Ho as [m Hm]. apply (wpe_bind md Inv ext).
    eapply (wpe_weaken md Inv ext); [|by eapply spec_probe].
    intros n' w2 He2 Hi2 [[m' Hm'] Hlb]. apply wpe_ret. intros w3 He3 Hi3. left.
    exists n', m'. split_and!; [done|stable|].
    intros lb mlb Hl. eapply Hlb. stable.
  - apply wpe_ret. intros w2 He2 Hi2. by right.
Qed.

Lemma spec_load_current i w :
  spec i load_current
    (λ lm w', loaded w' lm ∧ mf_version (lm_manifest lm) = ptr_version (lm_pointer lm) ∧
      (with_faults md = false → ∀ lb mlb, published (w_objs w) lb mlb → lb ≤ ptr_version (lm_pointer lm))) w.
Proof.
  unfold load_current. apply (wpe_bind md Inv ext).
  eapply (wpe_weaken md Inv ext); [|apply spec_load_pointer].
  intros [[ptr e] v] w1 He1 Hi1 [(m & Hm & Ep) Hlb]. simpl in Ep, Hm, Hlb.
  assert (Ek : key_from (ptr_manifest_path ptr) = manifest_version (ptr_version ptr)).
  { rewrite Ep. apply key_from_manifest. }
  apply (wpe_get md Inv ext). rewrite Ek. intros w2 g He2 Hi2 Hg _.
  apply (wpe_bind md Inv ext), wpe_lift. intros res w3 -> He3 Hi3. apply (wpe_bind md Inv ext), wpe_lift.
  intros body w4 Hb He4 Hi4. apply (wpe_bind md Inv ext), wpe_lift_json. intros m' w5 Hm' He5 Hi5.
  destruct (mf_version m' =? ptr_version ptr) eqn:Ev; simpl; [|done].
  apply wpe_ret. intros w6 He6 Hi6. apply Z.eqb_eq in Ev.
  specialize (Hg res body eq_refl Hb). split_and!; [|done|done].
  assert (Hm2 : published (w_objs w2) (ptr_version ptr) m) by stable.
  assert (m' = m) as ->.
  { destruct Hm2 as (_ & (b & Hbb & Hd & _) & _). congruence. }
  exists m. simpl. split_and!; [|done|done].
  stable.
Qed.

Lemma same_content_fields m m' :
  same_content m m' → mf_version m = mf_version m' ∧ mf_epoch m = mf_epoch m'.
Proof. unfold same_content, with_created_at. by intros [= -> -> _ _ _ _]. Qed.

Lemma loaded_fields w lm :
  loaded w lm →
  is_u64 (ptr_version (lm_pointer lm)) ∧
  mf_version (lm_manifest lm) = ptr_version (lm_pointer lm) ∧
  ∃ m, published (w_objs w) (ptr_version (lm_pointer lm)) m ∧ mf_epoch (lm_manifest lm) = mf_epoch m.
Proof.
  intros (m & Hp & _ & Hc). apply same_content_fields in Hc as [Hv He].
  pose proof Hp as (Hu & (b & _ & _ & Hm) & _). split_and!; [done|congruence|]. eauto.
Qed.

Lemma spec_write_advisory i b n m w :
  published (w_objs w) n m → from_slice b = Ok (pointer_to n m) →
  spec i (write_advisory_current b) (λ _ _, True) w.
Proof.
  intros Hp Hd. apply (wpe_store md Inv ext). intros w1 r w2 He Hi [Ho Hs]%step_overwrite.
  destruct (overwrite_current b w1 w2 n m) as [Hi2 He2]; [done|done|done|stable|done|].
  split_and!; [done|done|]. apply (wpe_bind md Inv ext), wpe_lift. by intros.
Qed.

Lemma spec_existing_body_is_ours i b new w :
  manifest_typed new → to_vec new = Ok b →
  spec i (existing_body_is_ours (manifest_version (mf_version new)) b new)
    (λ ours w', ours = true → ∃ m, body_at (w_objs w') (mf_version new) m ∧ same_content new m) w.
Proof.
  intros Ht Hb. unfold existing_body_is_ours. apply (wpe_get md Inv ext). intros w1 g He1 Hi1 Hg _.
  destruct g as [res|[]]; [|by apply wpe_ret|done|done].
  apply (wpe_bind md Inv ext), wpe_lift. intros ex w2 Hex He2 Hi2. specialize (Hg res ex eq_refl Hex).
  case_bool_decide as E.
  { subst ex. apply wpe_ret. intros w3 He3 Hi3 _. exists new. split; [|done].
    do 2 (eapply body_at_ext; [done|]). exists b. split_and!; [done|by apply from_to_vec|done]. }
  destruct (from_slice ex) as [m|] eqn:Em; [|by apply wpe_ret].
  apply wpe_ret. intros w3 He3 Hi3 Hm%bool_decide_eq_true. exists m.
  assert (same_content new m) by by rewrite <- Hm. split; [|done].
  do 2 (eapply body_at_ext; [done|]). exists ex. split_and!; [done|done|].
  by destruct (same_content_fields new m) as [-> _].
Qed.

(** What [put_body] has established when it returns. *)
Definition prepared (w : World) (fence : WriterFence) (base : LoadedManifest) (new : Manifest)
    (ptr : ManifestPointer) : Prop :=
  loaded w base ∧ manifest_typed new ∧
  (∃ m, body_at (w_objs w) (mf_version new) m ∧ same_content new m) ∧
  ptr = pointer_to (mf_version new) new ∧
  mf_version new = wrapping_add64 (mf_version (lm_manifest base)) 1 ∧
  mf_epoch (lm_manifest base) ≤ mf_epoch new ∧ mf_epoch (lm_manifest base) ≤ f_epoch fence.

Lemma prepared_ext w w' fence base new ptr :
  ext w w' → prepared w fence base new ptr → prepared w' fence base new ptr.
Proof.
  intros He (Hl & Ht & (m & Hb & Hc) & Hrest). split; [stable|].
  split; [done|]. split; [|done]. exists m. split; [stable|done].
Qed.
#[local] Hint Resolve prepared_ext : namidb.

Lemma spec_put_body i fence base new w :
  loaded w base → manifest_typed new →
  spec i (put_body fence base new) (λ ptr w', prepared w' fence base new ptr) w.
Proof.
  intros Hbase Ht. unfold put_body. apply (wpe_bind md Inv ext), wpe_pure. intros [] w1 Halive He1 Hi1.
  unfold assert_alive in Halive. destruct (Z.ltb_spec (f_epoch fence) (mf_epoch (lm_manifest base)));
    [done|]. destruct (Z.eqb_spec (mf_version new) (wrapping_add64 (mf_version (lm_manifest base)) 1))
    as [Hver|]; cbn [negb]; [|done].
  destruct (Z.ltb_spec (mf_epoch new) (mf_epoch (lm_manifest base))); [done|].
  apply (wpe_bind md Inv ext), wpe_lift_json. intros b w2 Hb He2 Hi2.
  assert (Hdone : ∀ w3, ext w2 w3 → Inv w3 →
    (∃ m, body_at (w_objs w3) (mf_version new) m ∧ same_content new m) →
    spec i (mret (pointer_to (mf_version new) new)) (λ ptr w', prepared w' fence base new ptr) w3).
  { intros w3 He3 Hi3 Hbody. apply wpe_ret. intros w4 He4 Hi4.
    eapply prepared_ext; [done|]. split_and!; try done.
    stable. }
  apply spec_put_create.
  - intros w3 w4 He3 Hi3 Hc Ho. eapply create_other; [apply manifest_not_listed| |done|done|done].
    apply not_eq_sym, current_not_manifest.
  - intros w3' w3 r He3' _ _ He3'' Hi3 Hs _. assert (He3 : ext w2 w3) by by trans w3'.
    apply (wpe_bind md Inv ext), wpe_ret. intros w4 He4 Hi4. apply Hdone; [by trans w3|done|]. exists new. split; [|done]. eapply body_at_ext; [done|].
    exists b. split_and!; [done|by apply from_to_vec|done].
  - intros w3 e He3 Hi3. apply (wpe_bind md Inv ext). destruct e; [done| |done]. apply (wpe_bind md Inv ext).
    eapply (wpe_weaken md Inv ext); [|by eapply spec_existing_body_is_ours].
    intros ours w4 He4 Hi4 Hours. destruct ours; cbn [negb].
    + apply wpe_ret. intros w5 He5 Hi5. apply Hdone; [by trans w3; [|trans w4]|done|].
      destruct (Hours eq_refl) as (m & Hm & Hc). exists m. split; [stable|done].
    + apply (wpe_bind md Inv ext). eapply (wpe_weaken md Inv ext); [|apply spec_load_current].
      intros lm w5 He5 Hi5 _. by case_match.
Qed.

Lemma pointer_bytes_typed new b :
  manifest_typed new → to_vec (pointer_to (mf_version new) new) = Ok b →
  from_slice b = Ok (pointer_to (mf_version new) new).
Proof. intros [? ?]. by apply from_to_vec. Qed.

Lemma pointer_to_content n m m' : same_content m m' → pointer_to n m = pointer_to n m'.
Proof. intros [_ He]%same_content_fields. unfold pointer_to. by rewrite He. Qed.

(** The version a prepared commit publishes does not wrap around. *)
Lemma prepared_next w0 fence base new ptr :
  Inv w0 → prepared w0 fence base new ptr → w_objs w0 !! pointer_version (mf_version new) = None →
  mf_version new = ptr_version (lm_pointer base) + 1.
Proof.
  intros Hi (Hl & _ & _ & _ & Hv & _) Hnone.
  destruct (loaded_fields w0 base Hl) as (Hu & Hvb & m & Hm & _). rewrite Hvb in Hv.
  destruct (decide (ptr_version (lm_pointer base) = u64_max)) as [Emax|Hne].
  - exfalso. assert (E0 : mf_version new = 0).
    { rewrite Hv, Emax. reflexivity. }
    destruct (published_below w0 _ m 0 Hi Hm) as (m0 & (_ & _ & b & Hb & _) & _).
    + unfold is_uint in Hu. lia.
    + rewrite E0, Hb in Hnone. done.
  - rewrite Hv. unfold wrapping_add64, is_uint, u64_max in *. apply Z.mod_small. lia.
Qed.

Lemma prepared_extends w fence base new ptr m :
  prepared w fence base new ptr → same_content new m → extends (w_objs w) (mf_version new) m.
Proof.
  intros (Hl & _ & _ & _ & Hv & Hep & _) [_ Em]%same_content_fields.
  destruct (loaded_fields w base Hl) as (Hu & Hvb & m' & Hm' & Em'). rewrite Hvb in Hv.
  destruct (decide (ptr_version (lm_pointer base) = u64_max)) as [Emax|Hne].
  - left. rewrite Hv, Emax. reflexivity.
  - right. exists m'. split; [|lia]. replace (mf_version new - 1) with (ptr_version (lm_pointer base)); [done|].
    rewrite Hv. unfold wrapping_add64, is_uint, u64_max in *. rewrite Z.mod_small; lia.
Qed.

(** The result of a successful publication by client [i]. *)
Definition won (w : World) (i : nat) (base : LoadedManifest) (new : Manifest) (lm : LoadedManifest)
    : Prop :=
  loaded w lm ∧ lm_manifest lm = new ∧ lm_pointer lm = pointer_to (mf_version new) new ∧
  w_owner w !! pointer_version (mf_version new) = Some i ∧
  loaded w base ∧ mf_version new = ptr_version (lm_pointer base) + 1.

Lemma won_ext w w' i base new lm : ext w w' → won w i base new lm → won w' i base new lm.
Proof.
  intros He (Hl & E1 & E2 & Ho & Hb & Hv).
  split_and!; [stable|done|done|by apply (ext_owner _ _ He)|stable|done].
Qed.
#[local] Hint Resolve won_ext : namidb.

Lemma spec_cas_pointer i fence base new ptr w :
  prepared w fence base new ptr →
  spec i (cas_pointer fence base new ptr) (λ lm w', won w' i base new lm) w.
Proof.
  intros Hprep. pose proof Hprep as (Hl & Ht & (m & Hbody & Hc) & -> & Hv & Hep & Hf).
  unfold cas_pointer. cbn [ptr_version pointer_to]. apply (wpe_bind md Inv ext), wpe_lift_json.
  intros b w1 Hb He1 Hi1. apply pointer_bytes_typed in Hb; [|done].
  rewrite (pointer_to_content _ new m Hc) in Hb.
  apply (prepared_ext _ _ _ _ _ _ He1) in Hprep. apply (body_at_ext _ _ _ _ He1) in Hbody.
  assert (Hu : is_u64 (mf_version new)) by by destruct Ht.
  apply spec_put_create.
  - intros w2 w3 He2 Hi2 Hcr Ho.
    destruct (create_pointer i (mf_version new) m b w2 w3) as (Hi3 & He3 & _); try done.
    + stable.
    + eapply prepared_extends; [stable|done].
  - intros w0 w2 r He0 Hi0 Hnone He2 Hi2 Hs Ho. apply (wpe_bind md Inv ext), wpe_ret. intros w3 He3 Hi3.
    apply (wpe_bind md Inv ext).
    assert (Hnext : mf_version new = ptr_version (lm_pointer base) + 1).
    { eapply (prepared_next w0); [done|stable|done]. }
    assert (Hpub : published (w_objs w2) (mf_version new) m).
    { split_and!; [done| |by exists b]. stable. }
    eapply (wpe_weaken md Inv ext); [|by eapply spec_write_advisory; [eapply published_ext|]].
    intros [] w4 He4 Hi4 _. apply wpe_ret. intros w5 He5 Hi5.
    assert (He25 : ext w2 w5) by (trans w3; [done|by trans w4]).
    split_and!; [|done|done|by apply (ext_owner _ _ He25)| |done].
    + exists m. simpl. split_and!; [stable|by apply pointer_to_content|done].
    + destruct Hprep as [Hlb _]. do 3 (eapply loaded_ext; [done|]). done.
  - intros w2 e He2 Hi2. apply (wpe_bind md Inv ext). destruct e; [done| |done].
    apply (wpe_bind md Inv ext). eapply (wpe_weaken md Inv ext); [|apply spec_load_current].
    intros lm w3 He3 Hi3 _. by case_match.
Qed.

Lemma spec_commit i fence base new w :
  loaded w base → manifest_typed new →
  spec i (commit fence base new)
    (λ lm w', won w' i base new lm ∧ mf_epoch (lm_manifest base) ≤ f_epoch fence
              ∧ mf_epoch (lm_manifest base) ≤ mf_epoch new) w.
Proof.
  intros Hl Ht. unfold commit. apply (wpe_bind md Inv ext).
  eapply (wpe_weaken md Inv ext); [|by apply spec_put_body]. intros ptr w1 He1 Hi1 Hp.
  eapply (wpe_weaken md Inv ext); [|by apply spec_cas_pointer].
  intros lm w2 He2 Hi2 Hw. split; [done|]. by destruct Hp as (_ & _ & _ & _ & _ & ? & ?).
Qed.

Lemma spec_load_manifest_at i n w :
  spec i (load_manifest_at n) (λ m w', mf_version m = n → body_at (w_objs w') n m) w.
Proof.
  apply (wpe_get md Inv ext). intros w1 g He1 Hi1 Hg _. apply (wpe_bind md Inv ext), wpe_lift.
  intros res w2 -> He2 Hi2. apply (wpe_bind md Inv ext), wpe_lift. intros b w3 Hb He3 Hi3.
  apply wpe_lift_json. intros m w4 Hm He4 Hi4 Hv. do 3 (eapply body_at_ext; [done|]).
  exists b. split_and!; [by apply (Hg res)|done|done].
Qed.

Lemma spec_bootstrap i writer now w :
  spec i (bootstrap writer now)
    (λ lm w', loaded w' lm ∧ ptr_version (lm_pointer lm) = 0 ∧
              w_owner w' !! pointer_version 0 = Some i) w.
Proof.
  unfold bootstrap. set (empty := Manifest_empty Epoch_ZERO writer now).
  assert (Ht : manifest_typed empty) by done.
  apply (wpe_bind md Inv ext), wpe_lift_json. intros b w1 Hb He1 Hi1.
  set (Φ := λ (m : Manifest) (w' : World), body_at (w_objs w') 0 m).
  assert (Hrest : ∀ m w2, Φ m w2 →
    spec i (let pointer := {| ptr_version := mf_version m; ptr_epoch := mf_epoch m;
                              ptr_manifest_path := manifest_version (mf_version empty) |} in
            let pointer_path := pointer_version (mf_version m) in
            pointer_bytes ← lift_json (to_vec pointer);
            r ← attempt (put_create pointer_path pointer_bytes);
            put_res ← match r with
              | Ok r => mret r
              | Err (ObjectStore AlreadyExists) => fail (Precondition "namespace already bootstrapped")
              | Err other => fail other
              end;
            _ ← write_advisory_current pointer_bytes;
            mret (LoadedManifest_new pointer (put_e_tag put_res) (put_version put_res) m))
      (λ lm w', loaded w' lm ∧ ptr_version (lm_pointer lm) = 0 ∧
                w_owner w' !! pointer_version 0 = Some i) w2).
  { intros m w2 Hm. pose proof Hm as (bb & _ & Hdm & Hv). rewrite Hv. cbv zeta.
    apply from_slice_typed in Hdm as [_ Hue].
    apply (wpe_bind md Inv ext), wpe_lift_json. intros pb w3 Hpb He3 Hi3.
    change (to_vec (pointer_to 0 m) = Ok pb) in Hpb. apply from_to_vec in Hpb; [|done].
    apply spec_put_create.
    - intros w4 w5 He4 Hi4 Hcr Ho.
      destruct (create_pointer i 0 m pb w4 w5) as (Hi5 & He5 & _); try done; [|by left].
      stable.
    - intros w0 w4 r He0 Hi0 Hnone He4 Hi4 Hs Ho. apply (wpe_bind md Inv ext), wpe_ret. intros w5 He5 Hi5.
      apply (wpe_bind md Inv ext). assert (Hpub : published (w_objs w4) 0 m).
      { split_and!; [done| |by exists pb]. stable. }
      eapply (wpe_weaken md Inv ext); [|by eapply spec_write_advisory; [eapply published_ext|]].
      intros [] w6 He6 Hi6 _. apply wpe_ret. intros w7 He7 Hi7.
      assert (He47 : ext w4 w7) by (trans w5; [done|by trans w6]).
      split_and!; [|done|by apply (ext_owner _ _ He47)].
      exists m. simpl. split_and!; [stable|done|done].
    - intros w4 e He4 Hi4. apply (wpe_bind md Inv ext). by destruct e. }
  apply spec_put_create.
  - intros w2 w3 He2 Hi2 Hc Ho. eapply create_other; [apply manifest_not_listed| |done|done|done].
    apply not_eq_sym, current_not_manifest.
  - intros w0 w2 r He0 Hi0 _ He2 Hi2 Hs _. apply (wpe_bind md Inv ext), wpe_ret. intros w3 He3 Hi3. apply Hrest.
    eapply body_at_ext; [done|]. exists b. split_and!; [done|by apply from_to_vec|done].
  - intros w2 e He2 Hi2. apply (wpe_bind md Inv ext). destruct e; [done| |done]. apply (wpe_bind md Inv ext).
    eapply (wpe_weaken md Inv ext); [|apply spec_load_manifest_at].
    intros m w3 He3 Hi3 Hm. destruct (Z.eqb_spec (mf_version m) (mf_version empty)) as [Ev|];
      cbn [negb]; [|done].
    apply wpe_ret. intros w4 He4 Hi4. apply Hrest. eapply body_at_ext; [done|]. by apply Hm.
Qed.

(** ** Stall repair and claims *)

Lemma spec_wal_slot_matches i fuel seq lsn h n w :
  spec i (wal_slot_matches crc32 xxh3_64 fuel seq lsn h (wal_segment n)) (λ _ _, True) w.
Proof.
  revert w. induction fuel as [|fuel IH]; intros w; cbn [wal_slot_matches]; [done|].
  apply (wpe_get md Inv ext). intros w1 g He1 Hi1 _ _. destruct g as [res|[]]; [| |done|done].
  - apply (wpe_bind md Inv ext), wpe_lift. by intros.
  - apply (wpe_store md Inv ext). intros w2 r w3 He2 Hi2 [Hcase _]%step_create.
    assert (Inv w3 ∧ ext w2 w3) as [Hi3 He3].
    { destruct Hcase as [->|[[Hc Ho]|[Hc Ho]]]; [done| |];
        (eapply (create_other i (wal_segment n)); [apply wal_not_listed|apply wal_not_current|done|done|auto]). }
    split_and!; [done|done|]. destruct r as [m|[]]; [by apply wpe_ret|done|apply IH|done].
Qed.

Lemma spec_orphan_ssts_durable i added w : spec i (orphan_ssts_durable added) (λ _ _, True) w.
Proof.
  revert w. induction added as [|sst added IH]; intros w; cbn [orphan_ssts_durable]; [by apply wpe_ret|].
  apply (wpe_head md Inv ext). intros w1 h _ _ _ _ _. destruct h as [z|[]]; [|by apply wpe_ret|done|done].
  destruct (node_property_pages_sidecar sst) as [pp|]; [|apply IH].
  destruct (is_bound_to pp sst); cbn [negb]; [|by apply wpe_ret].
  apply (wpe_head md Inv ext). intros w2 h _ _ _ _ _. destruct h as [z2|[]]; [|by apply wpe_ret|done|done].
  destruct (z2 =? _); [apply IH|by apply wpe_ret].
Qed.

Lemma spec_orphan_wal_durable i fuel added w :
  spec i (orphan_wal_durable crc32 xxh3_64 fuel added) (λ _ _, True) w.
Proof.
  revert w. induction added as [|seg added IH]; intros w; cbn [orphan_wal_durable]; [by apply wpe_ret|].
  destruct (negb _); [by apply wpe_ret|]. apply (wpe_bind md Inv ext).
  eapply (wpe_weaken md Inv ext); [|apply spec_wal_slot_matches].
  intros b w1 _ _ _. destruct b; [apply IH|by apply wpe_ret].
Qed.

Lemma spec_orphan_ready i fuel base version body w :
  spec i (orphan_ready_to_publish crc32 xxh3_64 fuel base version body)
    (λ o _, ∀ m, o = Some m →
       from_slice body = Ok m ∧ mf_version m = version ∧ mf_epoch (lm_manifest base) ≤ mf_epoch m) w.
Proof.
  unfold orphan_ready_to_publish. destruct (from_slice body) as [m|]; [|by apply wpe_ret].
  destruct (_ || _) eqn:Ev; [by apply wpe_ret|]. apply orb_false_iff in Ev as [Ev Ee].
  apply negb_false_iff, Z.eqb_eq in Ev. apply Z.ltb_ge in Ee. apply (wpe_bind md Inv ext).
  eapply (wpe_weaken md Inv ext); [|apply spec_orphan_ssts_durable].
  intros [] w1 _ _ _; [|by apply wpe_ret]. apply (wpe_bind md Inv ext).
  eapply (wpe_weaken md Inv ext); [|apply spec_orphan_wal_durable].
  intros [] w2 _ _ _; [|by apply wpe_ret]. apply wpe_ret. by intros w3 _ _ m' [= <-].
Qed.

Lemma spec_repair i fuel base w :
  loaded w base → spec i (repair_stalled_commit crc32 xxh3_64 fuel base) (λ _ _, True) w.
Proof.
  intros Hl. unfold repair_stalled_commit. set (v := saturating_add64 _ 1).
  destruct (loaded_fields w base Hl) as (Hu & Hvb & mb & Hmb & Eb).
  assert (Huv : is_u64 v) by (unfold v, saturating_add64, is_uint, u64_max in *; lia).
  apply (wpe_head md Inv ext). intros w1 h He1 Hi1 _ Hnf _.
  destruct h as [z|[]]; [by apply wpe_ret| |done|done]. specialize (Hnf eq_refl).
  assert (Hv : v = ptr_version (lm_pointer base) + 1).
  { destruct (decide (ptr_version (lm_pointer base) = u64_max)) as [Em|Hm].
    - exfalso. assert (Evv : v = ptr_version (lm_pointer base)) by (unfold v; rewrite Em; reflexivity).
      apply (published_ext _ _ _ _ He1) in Hmb as (_ & _ & b & Hb & _).
      by rewrite <- Evv, Hnf in Hb.
    - unfold v, saturating_add64, is_uint, u64_max in *. lia. }
  apply (wpe_get md Inv ext). intros w2 g He2 Hi2 Hg _. destruct g as [res|[]]; [|by apply wpe_ret|done|done].
  apply (wpe_bind md Inv ext), wpe_lift. intros body w3 Hbody He3 Hi3. specialize (Hg res body eq_refl Hbody).
  apply (wpe_bind md Inv ext). eapply (wpe_weaken md Inv ext); [|apply spec_orphan_ready].
  intros verdict w4 He4 Hi4 Hready. destruct verdict as [orphan|].
  - destruct (Hready orphan eq_refl) as (Hd & Ev & Ee).
    apply (wpe_bind md Inv ext), wpe_lift_json. intros pb w5 Hpb He5 Hi5.
    change (to_vec (pointer_to v orphan) = Ok pb) in Hpb.
    apply from_to_vec in Hpb; [|by apply from_slice_typed in Hd as [_ ?]].
    assert (Hb5 : body_at (w_objs w5) v orphan).
    { do 3 (eapply body_at_ext; [done|]). by exists body. }
    assert (Hx5 : extends (w_objs w5) v orphan).
    { right. exists mb. split; [|lia]. rewrite Hv, Z.add_simpl_r.
      stable. }
    apply spec_put_create.
    + intros w6 w7 He6 Hi6 Hcr Ho.
      destruct (create_pointer i v orphan pb w6 w7) as (Hi7 & He7 & _); try done.
      * stable.
      * stable.
    + intros w0 w6 r He0 Hi0 _ He6 Hi6 Hs _. apply (spec_write_advisory _ _ v orphan); [|done].
      split_and!; [done| |by exists pb]. stable.
    + intros w6 e He6 Hi6. by destruct e; try apply wpe_ret.
  - apply (wpe_store md Inv ext). intros w5 d w6 He5 Hi5 ->%step_no_delete; [|done].
    split_and!; [done|done|]. by destruct d as [|[]]; try apply wpe_ret.
Qed.

(** The result of a successful claim by client [i]. *)
Definition claimed (w : World) (i : nat) (mine : option Epoch) (lm : LoadedManifest)
    (fence : WriterFence) : Prop :=
  ∃ base, won w i base (lm_manifest lm) lm ∧ f_epoch fence = mf_epoch (lm_manifest lm) ∧
          mf_epoch (lm_manifest lm) = mf_epoch (lm_manifest base) + 1 ∧
          (∀ e, mine = Some e → mf_epoch (lm_manifest base) ≤ e).

Lemma epoch_next_above e : is_u64 e → e ≤ Epoch_next e → Epoch_next e = e + 1.
Proof.
  unfold Epoch_next, wrapping_add64, is_uint. intros He Hle.
  destruct (decide (e + 1 < 2 ^ 64)); [by apply Z.mod_small; lia|].
  assert (e + 1 = 2 ^ 64) as E by lia. rewrite E, Z_mod_same_full in Hle. lia.
Qed.

Lemma wrapping_add64_typed a b : is_u64 (wrapping_add64 a b).
Proof. unfold wrapping_add64, is_uint. apply Z.mod_pos_bound. lia. Qed.

Lemma spec_claim_loop i fuel uuids now round mine stalled repairs last w :
  spec i (claim_loop crc32 xxh3_64 fuel uuids now round mine stalled repairs last)
    (λ x w', claimed w' i mine x.1 x.2) w.
Proof.
  revert round stalled repairs last w.
  induction fuel as [|fuel IH]; intros round stalled repairs last w; cbn [claim_loop]; [done|].
  apply (wpe_bind md Inv ext). eapply (wpe_weaken md Inv ext); [|apply spec_load_current].
  intros base w1 He1 Hi1 (Hl & Hvb & _). destruct (match mine with Some _ => _ | None => _ end) eqn:Em; [done|].
  set (new := with_epoch _ _). set (fence := WriterFence_new _ _). set (pretend := {| f_epoch := _ |}).
  assert (Hue : is_u64 (mf_epoch (lm_manifest base))).
  { destruct (loaded_fields w1 base Hl) as (_ & _ & m & Hm & ->). by apply published_typed in Hm as [_ ?]. }
  assert (Ht : manifest_typed new) by (split; apply wrapping_add64_typed).
  apply (wpe_attempt md Inv ext). eapply (wp_weaken md Inv ext); [|by apply (spec_commit i pretend base new)].
  intros r w2 He2 Hi2 Hr. destruct r as [lm|e].
  - apply wpe_ret. intros w3 He3 Hi3. destruct Hr as (Hw & _ & Hle). simpl. exists base.
    pose proof Hw as (_ & E1 & _). rewrite E1. split_and!; [stable|done| |].
    + by apply epoch_next_above.
    + intros e ->. by apply Z.ltb_ge.
  - destruct e; try done. case_bool_decide; [|apply IH].
    destruct (_ <=? _)%nat; [|apply IH]. destruct (_ <=? _)%nat; [done|].
    apply (wpe_bind md Inv ext). eapply (wpe_weaken md Inv ext); [|apply spec_repair; stable].
    intros [] w3 He3 Hi3 _. apply IH.
Qed.
End Programs.
#[export] Hint Resolve loaded_ext prepared_ext won_ext : namidb.
