(* ===== verification/ManifestLiveness.v ===== *)
(** Progress of the manifest protocol: what an undisturbed client achieves.

    The safety theorems say that results are right; here the operations are shown to
    return. On any store the protocol can reach, a load returns the newest version,
    and a claim or commit whose next version is free succeeds and is what the next
    load returns. *)
From S2P Require Import Prelude StorageError Wal ManifestTypes DescriptorIndex Paths ManifestProtocol ObjectStore ManifestSafety.

Section Liveness.
Context `{!KeySpace} `{!JsonCodec Manifest manifest_typed}.
Context `{!JsonCodec ManifestPointer pointer_typed}.
Context (crc32 xxh3_64 : list byte → Z).

(** [m] is the newest published version [n]. *)
Definition newest (w : World) (n : Z) (m : Manifest) : Prop :=
  Inv w ∧ published (w_objs w) n m ∧ w_objs w !! pointer_version (n + 1) = None ∧ n < u64_max.

(** No client has written anything of version [n + 1]. *)
Definition next_free (w : World) (n : Z) : Prop := w_objs w !! manifest_version (n + 1) = None.

Lemma max_listed_ge l k v :
  k ∈ l → pointer_number k = Some v → ∃ v', max_listed l = Some v' ∧ v ≤ v'.
Proof.
  unfold max_listed. intros Hk Hv.
  set (f := λ max location, match pointer_number location with
    | Some v => Some (match max with Some m => Z.max m v | None => v end) | None => max end).
  assert (Hmono : ∀ l acc a, acc = Some a → ∃ v', foldl f acc l = Some v' ∧ a ≤ v').
  { clear. induction l as [|x l IH]; intros acc a ->; [by exists a|]. cbn [foldl]. unfold f at 2.
    destruct (pointer_number x) as [vx|]; [|by apply IH].
    destruct (IH (Some (Z.max a vx)) _ eq_refl) as (v' & ? & ?). exists v'. split; [done|lia]. }
  generalize (@None Z). induction l as [|x l IH]; intros acc; [by apply elem_of_nil in Hk|].
  apply elem_of_cons in Hk as [<-|Hk]; [|by apply IH]. cbn [foldl].
  assert (f acc k = Some (match acc with Some m => Z.max m v | None => v end)) as Ef
    by (unfold f; by rewrite Hv).
  destruct (Hmono l _ _ Ef) as (v' & ? & ?). exists v'. split; [done|]. destruct acc; lia.
Qed.

Lemma newest_bound w n m n' m' : newest w n m → published (w_objs w) n' m' → n' ≤ n.
Proof.
  intros (HI & Hp & Hnone & _) Hp'. destruct (decide (n' ≤ n)) as [|Hgt]; [done|exfalso].
  destruct Hp as (Hu & _). destruct (published_below w n' m' (n + 1) HI Hp') as (m1 & (_ & _ & b & Hb & _) & _).
  - unfold is_uint in Hu. lia.
  - congruence.
Qed.

(** [n] is the largest number a listed pointer carries, and [m] its manifest. This
    is all a load depends on; versions below [n] may be gone. *)
Definition head_of (s : Objects) (n : Z) (m : Manifest) : Prop :=
  published s n m ∧ s !! pointer_version (n + 1) = None ∧ n < u64_max ∧
  ∀ k v, is_Some (s !! k) → under pointer_dir k = true → pointer_number k = Some v → v ≤ n.

Lemma newest_head w n m : newest w n m → head_of (w_objs w) n m.
Proof.
  intros Hnew. pose proof Hnew as (HI & Hp & Hnone & Hmax). split_and!; [done|done|done|].
  intros k v [b Hb] Hu Ev. destruct (inv_pointers w HI k ltac:(by rewrite Hb) Hu) as (n' & m' & -> & Hp').
  rewrite pointer_number_version in Ev by apply Hp'. injection Ev as ->.
  by apply (newest_bound w n m v m').
Qed.

Lemma run_max_pointer_version s n m :
  head_of s n m → run max_pointer_version s = (Some (Ok (Some n)), s).
Proof.
  intros (Hp & _ & _ & Hmax). unfold max_pointer_version. cbn -[max_listed].
  set (l := filter _ _).
  assert (Hin : pointer_version n ∈ l).
  { apply elem_of_listed. split; [|apply pointer_listed]. destruct Hp as (_ & _ & b & Hb & _). eauto. }
  destruct (max_listed_ge l (pointer_version n) n Hin) as (v & Ev & Hle).
  { apply pointer_number_version. apply Hp. }
  rewrite Ev. destruct (max_listed_elem faulty eq_refl l v Ev) as (k & [Hk Hu]%elem_of_listed & Ek).
  pose proof (Hmax k v Hk Hu Ek). by replace v with n by lia.
Qed.

Definition loaded_as (n : Z) (m : Manifest) : LoadedManifest :=
  LoadedManifest_new (pointer_to n m) None None m.

Lemma run_load_head s n m :
  head_of s n m → run load_current s = (Some (Ok (loaded_as n m)), s).
Proof.
  intros Hh. pose proof Hh as (Hp & Hnone & Hmax & _).
  destruct Hp as (Hu & (b & Hb & Hd & Hv) & pb & Hpb & Hpd).
  unfold load_current, load_pointer, mbind, prog_bind.
  rewrite run_pthen, run_pthen, (run_max_pointer_version s n m Hh).
  unfold probe_pointer_forward. destruct MAX_PROBE as [|fuel] eqn:Ef; [done|].
  assert (Hnext : saturating_add64 n 1 = n + 1) by word_lia.
  cbn [probe_loop pthen run store mbind prog_bind]. simpl. rewrite Hnext, Hnone. simpl.
  rewrite Hpb. simpl. rewrite Hpd. simpl. rewrite key_from_manifest, Hb. simpl. rewrite Hd. simpl.
  rewrite Hv, Z.eqb_refl. done.
Qed.

Lemma run_load_current w n m :
  newest w n m → run load_current (w_objs w) = (Some (Ok (loaded_as n m)), w_objs w).
Proof. intros Hnew. by apply run_load_head, newest_head. Qed.

(** The objects a successful publication of [new] adds. *)
Definition publishing (s : Objects) (n : Z) (b pb : list byte) : Objects :=
  <[current_pointer := pb]> (<[pointer_version n := pb]> (<[manifest_version n := b]> s)).

Lemma run_commit w n m fence new b pb :
  newest w n m → next_free w n → mf_version new = n + 1 → mf_epoch m ≤ mf_epoch new →
  mf_epoch m ≤ f_epoch fence → to_vec new = Ok b → to_vec (pointer_to (n + 1) new) = Ok pb →
  run (commit fence (loaded_as n m) new) (w_objs w)
  = (Some (Ok (loaded_as (n + 1) new)), publishing (w_objs w) (n + 1) b pb).
Proof.
  intros (HI & Hp & Hnone & Hmax) Hfree Hv He Hf Hb Hpb.
  pose proof Hp as (Hu & (b0 & _ & _ & Hvm) & _). unfold pointer_to in Hpb.
  assert (Hw : wrapping_add64 (mf_version m) 1 = n + 1).
  { unfold wrapping_add64. rewrite Z.mod_small; [lia|word_lia]. }
  unfold commit, put_body, assert_alive. cbn [lm_manifest loaded_as LoadedManifest_new].
  rewrite (proj2 (Z.ltb_ge (f_epoch fence) (mf_epoch m))) by done. rewrite Hw, Hv, Z.eqb_refl.
  rewrite (proj2 (Z.ltb_ge (mf_epoch new) _)) by done. simpl. rewrite Hb. simpl.
  rewrite Hfree. simpl. unfold cas_pointer. simpl. rewrite Hpb. simpl.
  rewrite lookup_insert_ne by apply not_eq_sym, pointer_not_manifest. by rewrite Hnone.
Qed.

Lemma publishing_newest w n m new b pb :
  newest w n m → next_free w n → mf_version new = n + 1 → manifest_typed new →
  mf_epoch m ≤ mf_epoch new → to_vec new = Ok b → to_vec (pointer_to (n + 1) new) = Ok pb →
  n + 1 < u64_max →
  ∃ w', w_objs w' = publishing (w_objs w) (n + 1) b pb ∧ newest w' (n + 1) new.
Proof.
  intros Hnew Hfree Hv Ht He Hb Hpb Hmax. pose proof Hnew as (HI & Hp & Hnone & _).
  assert (Hu : is_u64 (n + 1)) by (rewrite <- Hv; apply Ht).
  assert (Hd : from_slice pb = Ok (pointer_to (n + 1) new)).
  { apply from_to_vec; [split; [done|apply Ht]|done]. }
  set (w1 := {| w_objs := <[manifest_version (n + 1) := b]> (w_objs w); w_owner := w_owner w |}).
  destruct (create_other 0 (manifest_version (n + 1)) b w w1) as [HI1 He1];
    [apply manifest_not_listed|apply not_eq_sym, current_not_manifest|done|by split|by left|].
  set (w2 := {| w_objs := <[pointer_version (n + 1) := pb]> (w_objs w1); w_owner := w_owner w |}).
  destruct (create_pointer 0 (n + 1) new pb w1 w2) as (HI2 & He2 & Hp2); try done.
  - exists b. simpl. rewrite lookup_insert_eq. split_and!; [done|by apply from_to_vec|done].
  - right. exists m. replace (n + 1 - 1) with n by lia. split; [stable|done].
  - split; [|done]. simpl. by rewrite lookup_insert_ne by apply not_eq_sym, pointer_not_manifest.
  - by left.
  - set (w3 := {| w_objs := <[current_pointer := pb]> (w_objs w2); w_owner := w_owner w |}).
    destruct (overwrite_current pb w2 w3 (n + 1) new) as [HI3 He3]; [done|done|by right|done|done|].
    exists w3. split; [done|]. split_and!; [done|stable| |done].
    simpl. rewrite lookup_insert_ne by apply not_eq_sym, pointer_not_current.
    rewrite lookup_insert_ne, lookup_insert_ne by
      (first [apply not_eq_sym, pointer_not_manifest | intros E; apply pointer_version_inj in E; word_lia]).
    destruct (w_objs w !! pointer_version (n + 1 + 1)) as [x|] eqn:Ex; [|done]. exfalso.
    destruct (present_published w (n + 1 + 1) x HI) as (m' & Hm' & _); [word_lia|done|].
    pose proof (newest_bound w n m _ _ Hnew Hm'). lia.
Qed.

(** The manifest a claim on top of [m] publishes. *)
Definition claim_manifest (m : Manifest) (writer now : Z) : Manifest :=
  with_epoch (next_version m writer now) (Epoch_next (mf_epoch m)).

(** ** Properties *)

(** An undisturbed load returns the newest published version and changes
    nothing, on every store that satisfies the protocol's invariant. *)
Theorem load_returns_newest w n m :
  newest w n m → run load_current (w_objs w) = (Some (Ok (loaded_as n m)), w_objs w).
Proof. apply run_load_current. Qed.

(** An undisturbed claim terminates with success. When the next version is free,
    one round is enough: the claim publishes its manifest with the next epoch,
    returns the fence of that epoch, and the next load returns exactly that
    manifest. *)
Theorem claim_succeeds_when_free w n m fuel uuids now b pb :
  let new := claim_manifest m (uuids 0%nat) (now 0%nat) in
  newest w n m → next_free w n → n + 1 < u64_max → mf_epoch m < u64_max →
  to_vec new = Ok b → to_vec (pointer_to (n + 1) new) = Ok pb →
  let s' := publishing (w_objs w) (n + 1) b pb in
  run (claim_writer crc32 xxh3_64 (S fuel) uuids now) (w_objs w)
  = (Some (Ok (loaded_as (n + 1) new, WriterFence_new (mf_epoch m + 1) (uuids 1%nat))), s') ∧
  run load_current s' = (Some (Ok (loaded_as (n + 1) new)), s').
Proof.
  intros new Hnew Hfree Hmax Hemax Hb Hpb s'.
  pose proof Hnew as (HI & Hp & _). pose proof Hp as (Hu & (b0 & _ & _ & Hvm) & _).
  destruct (published_typed _ _ _ Hp) as [_ Hte].
  assert (Hep : Epoch_next (mf_epoch m) = mf_epoch m + 1).
  { unfold Epoch_next, wrapping_add64. rewrite Z.mod_small; [done|word_lia]. }
  assert (Hv : mf_version new = n + 1).
  { unfold new. simpl. unfold wrapping_add64. rewrite Z.mod_small; [lia|word_lia]. }
  assert (He : mf_epoch new = mf_epoch m + 1) by done.
  assert (Ht : manifest_typed new) by (split; [rewrite Hv|rewrite He]; word_lia).
  split.
  - unfold claim_writer, claim_writer_unless_newer. cbn [claim_loop].
    unfold mbind at 1, prog_bind at 1. rewrite run_pthen, (run_load_current w n m Hnew).
    cbv beta iota. unfold mbind at 1, prog_bind at 1, attempt. rewrite run_pthen, run_pthen.
    rewrite (run_commit w n m _ new b pb Hnew Hfree Hv); try done; [|lia]. simpl. by rewrite Hep.
  - destruct (publishing_newest w n m new b pb) as (w' & Hs & Hw'); try done; [lia|].
    unfold s'. rewrite <- Hs. by apply run_load_current.
Qed.
End Liveness.
