(* ===== verification/JanitorSafety.v ===== *)
(** What the orphan sweep keeps and what it reclaims.

    The statements are about a sweep that runs alone ([run]) on an arbitrary store:
    the key-level effect of each phase, what a lease protects, and the correctness of
    the whole sweep against the retained versions. *)
From coqutil Require Import Datatypes.RecordSetters.
From Stdlib Require Import Ascii.
From S2P Require Import Prelude StorageError Wal Bloom ManifestTypes Paths ObjectStore Memtable Recovery ManifestProtocol ManifestSafety ManifestLiveness Pins Janitor.

Import DoubleBraceUpdate.

(** ** Strings *)

Lemma strip_prefix_app a b : strip_prefix a (a +:+ b) = Some b.
Proof. induction a as [|c a IH]; [done|]. rewrite string_app_cons. simpl. by rewrite Ascii.eqb_refl. Qed.

Lemma strip_prefix_Some a s b : strip_prefix a s = Some b → s = a +:+ b.
Proof.
  revert s. induction a as [|c a IH]; intros s; simpl; [by intros [= ->]|].
  destruct s as [|c' s]; [done|]. destruct (Ascii.eqb_spec c c') as [<-|]; [|done].
  intros ->%IH. by rewrite string_app_cons.
Qed.

Lemma contains_app a needle s : (∃ rest, s = needle +:+ rest) → contains needle (a +:+ s) = true.
Proof.
  intros (rest & ->). induction a as [|c a IH].
  - change (contains needle (needle +:+ rest) = true). destruct (needle +:+ rest) as [|c s] eqn:E.
    + destruct needle; [done|by rewrite string_app_cons in E].
    + cbn [contains]. pose proof (prefix_app needle "" rest) as Hp.
      rewrite string_app_nil_r, prefix_nil, E in Hp. by rewrite Hp.
  - rewrite string_app_cons. cbn [contains]. by rewrite IH, orb_true_r.
Qed.

(** ** Marking *)

(** Each object an SST descriptor refers to, sidecar by sidecar. *)
Inductive sst_refers (d : SstDescriptor) : string → Prop :=
| refers_body : sst_refers d (sst_path d)
| refers_bloom b : sst_bloom d = Some b → sst_refers d (bd_path b)
| refers_unique u : u ∈ sst_unique_property_indices d → sst_refers d (ui_path u)
| refers_unique_paged u p :
    u ∈ sst_unique_property_indices d → ui_paged u = Some p → sst_refers d (pg_path p)
| refers_equality e : e ∈ sst_equality_property_indices d → sst_refers d (ei_path e)
| refers_equality_paged e p :
    e ∈ sst_equality_property_indices d → ei_paged e = Some p → sst_refers d (pg_path p)
| refers_composite c : c ∈ sst_composite_equality_indices d → sst_refers d (ci_path c)
| refers_composite_paged c p :
    c ∈ sst_composite_equality_indices d → ci_paged c = Some p → sst_refers d (pg_path p)
| refers_labels li : sst_label_index d = Some li → sst_refers d (li_path li)
| refers_locator l : sst_node_locator d = Some l → sst_refers d (loc_path l)
| refers_property_pages p : node_property_pages_sidecar d = Some p → sst_refers d (pp_path p)
| refers_edge_points base :
    sst_kind d = SkEdgesFwd → sst_path d = base +:+ ".ep.csr" → sst_refers d (base +:+ ".epidx").

(** The objects and the WAL segments a manifest references. *)
Definition references (m : Manifest) (p : string) : Prop := ∃ d, d ∈ mf_ssts m ∧ sst_refers d p.

Definition manifest_paths (m : Manifest) : list string := flat_map descriptor_paths (mf_ssts m).
Definition manifest_seqs (m : Manifest) : list Z := map wd_seq (mf_wal_segments m).

Lemma paged_path_elem p paged : p ∈ paged_path paged ↔ ∃ q, paged = Some q ∧ p = pg_path q.
Proof.
  destruct paged as [q|]; cbn.
  - rewrite list_elem_of_singleton. split; [by exists q|]. by intros (? & [= <-] & ->).
  - rewrite elem_of_nil. split; [done|]. by intros (? & ? & _).
Qed.

(** A list of sidecars, each with an optional paged mirror. *)
Lemma sidecar_paths {A} (path : A → string) (paged : A → option PagedPropertyIndexDescriptor) l p :
  p ∈ flat_map (λ x, path x :: paged_path (paged x)) l ↔
  (∃ x, x ∈ l ∧ p = path x) ∨ (∃ x q, x ∈ l ∧ paged x = Some q ∧ p = pg_path q).
Proof.
  rewrite list_elem_of_In, in_flat_map. split.
  - intros (x & Hx & Hp). apply list_elem_of_In in Hx, Hp.
    apply elem_of_cons in Hp as [->|(q & Hq & ->)%paged_path_elem]; [left|right]; eauto.
  - intros [(x & Hx & ->)|(x & q & Hx & Hq & ->)]; exists x; rewrite <- !list_elem_of_In;
      (split; [done|]); [by left|right]. apply paged_path_elem. eauto.
Qed.

Lemma edge_point_refers d p :
  edge_point_sidecar_path d = Some p ↔
  ∃ base, sst_kind d = SkEdgesFwd ∧ sst_path d = base +:+ ".ep.csr" ∧ p = base +:+ ".epidx".
Proof.
  unfold edge_point_sidecar_path. destruct (decide (sst_kind d = SkEdgesFwd)) as [Hk|Hk].
  - rewrite bool_decide_true by done. cbn [negb]. split.
    + destruct (strip_suffix ".ep.csr" (sst_path d)) as [base|] eqn:E; [|done]. intros [= <-].
      exists base. split; [done|]. split; [|done]. revert E. unfold strip_suffix.
      destruct (String.eqb_spec (String.substring 0 (String.length (sst_path d) - String.length ".ep.csr")
        (sst_path d) +:+ ".ep.csr") (sst_path d)) as [E|]; [|done]. by intros [= <-].
    + intros (base & _ & -> & ->). by rewrite strip_suffix_app.
  - rewrite bool_decide_false by done. split; [done|]. by intros (base & ? & _).
Qed.

(** What [mark_live] inserts for a descriptor is what the descriptor refers to. *)
Lemma descriptor_paths_refers d p : p ∈ descriptor_paths d ↔ sst_refers d p.
Proof.
  unfold descriptor_paths. rewrite !elem_of_app, list_elem_of_singleton, !sidecar_paths. split.
  - intros [->|[H1|[[(u & Hu & ->)|(u & q & Hu & Hq & ->)]|[[(u & Hu & ->)|(u & q & Hu & Hq & ->)]
      |[[(u & Hu & ->)|(u & q & Hu & Hq & ->)]|[H1|[H1|H1]]]]]]]; try by econstructor.
    + destruct (sst_bloom d) eqn:E; [|by apply elem_of_nil in H1].
      apply list_elem_of_singleton in H1 as ->. by econstructor.
    + destruct (sst_label_index d) eqn:E; [|by apply elem_of_nil in H1].
      apply list_elem_of_singleton in H1 as ->. by econstructor.
    + destruct (sst_node_locator d) as [l|] eqn:E; [|by apply elem_of_nil in H1].
      apply elem_of_cons in H1 as [->|H1]; [by econstructor|].
      destruct (loc_property_pages l) as [pp|] eqn:Epp; [|by apply elem_of_nil in H1].
      apply list_elem_of_singleton in H1 as ->. constructor. unfold node_property_pages_sidecar. by rewrite E.
    + destruct (edge_point_sidecar_path d) as [q|] eqn:E; [|by apply elem_of_nil in H1].
      apply list_elem_of_singleton in H1 as ->. apply edge_point_refers in E as (base & ? & ? & ->). by constructor.
  - intros [|b Hb|u Hu|u q Hu Hq|u Hu|u q Hu Hq|u Hu|u q Hu Hq|li Hli|l Hl|pp Hpp|base Hk Hp].
    + by left.
    + right; left. rewrite Hb. by left.
    + do 2 right; left. eauto.
    + do 2 right; left. right. eauto.
    + do 3 right; left. eauto.
    + do 3 right; left. right. eauto.
    + do 4 right; left. eauto.
    + do 4 right; left. right. eauto.
    + do 5 right; left. rewrite Hli. by left.
    + do 6 right; left. rewrite Hl. by left.
    + do 6 right; left. unfold node_property_pages_sidecar in Hpp.
      destruct (sst_node_locator d); [|done]. rewrite Hpp. by right; left.
    + do 7 right. rewrite (proj2 (edge_point_refers d (base +:+ ".epidx"))) by eauto. by left.
Qed.

Lemma references_paths m p : references m p ↔ p ∈ manifest_paths m.
Proof.
  unfold references, manifest_paths. rewrite list_elem_of_In, in_flat_map. split.
  - intros (d & Hd & Hp). exists d. by rewrite <- !list_elem_of_In, descriptor_paths_refers.
  - intros (d & Hd & Hp). exists d. by rewrite <- descriptor_paths_refers, !list_elem_of_In.
Qed.

Lemma foldl_insert `{Countable A} {B} (f : B → A) (l : list B) (acc : gset A) x :
  x ∈ foldl (λ acc b, {[f b]} ∪ acc) acc l ↔ x ∈ acc ∨ x ∈ map f l.
Proof.
  revert acc. induction l as [|b l IH]; intros acc; cbn [foldl map].
  - rewrite elem_of_nil. tauto.
  - rewrite IH, elem_of_cons, elem_of_union, elem_of_singleton. tauto.
Qed.

Lemma mark_referenced live m p :
  p ∈ referenced (mark_live live m) ↔ p ∈ referenced live ∨ p ∈ manifest_paths m.
Proof.
  unfold mark_live, manifest_paths. cbn [referenced]. generalize (referenced live).
  induction (mf_ssts m) as [|d ds IH]; intros acc; cbn [foldl flat_map].
  - rewrite elem_of_nil. tauto.
  - rewrite IH, (foldl_insert id), List.map_id, elem_of_app. tauto.
Qed.

Lemma mark_referenced_wal live m q :
  q ∈ referenced_wal (mark_live live m) ↔ q ∈ referenced_wal live ∨ q ∈ manifest_seqs m.
Proof. apply foldl_insert. Qed.

(** [m] is in the live set. *)
Definition marked (live : LiveSet) (m : Manifest) : Prop :=
  (∀ p, p ∈ manifest_paths m → p ∈ referenced live) ∧
  (∀ q, q ∈ manifest_seqs m → q ∈ referenced_wal live).
Definition live_incl (l1 l2 : LiveSet) : Prop :=
  referenced l1 ⊆ referenced l2 ∧ referenced_wal l1 ⊆ referenced_wal l2.
#[global] Instance live_incl_preorder : PreOrder live_incl.
Proof. split; [done|]. intros a b c [] []. split; set_solver. Qed.

Lemma marked_mono l1 l2 m : live_incl l1 l2 → marked l1 m → marked l2 m.
Proof. intros [H1 H2] [Hp Hq]. split; eauto. Qed.

Lemma mark_live_incl live m : live_incl live (mark_live live m).
Proof. split; intros x Hx; [apply mark_referenced|apply mark_referenced_wal]; by left. Qed.

Lemma mark_live_marked live m : marked (mark_live live m) m.
Proof. split; intros x Hx; [apply mark_referenced|apply mark_referenced_wal]; by right. Qed.

Section Safety.
Context `{!KeySpace} `{!JsonCodec Manifest manifest_typed} `{!JsonCodec ManifestPointer pointer_typed}.
Context `{!JsonCodec PinLease lease_typed} `{!Chrono}.
Context `{!Bincode MemtableSnapshotFile snapshot_typed}.
Context `{!Bincode MemtableSnapshotBindingV2 binding_typed}.
Context (xxh3_64 : list byte → Z) (last_modified object_size : Path → Z).
Implicit Types (s : Objects) (k : Path).

#[local] Abbreviation reclaim_loop := (reclaim_loop object_size).
#[local] Abbreviation reclaim_listed := (reclaim_listed object_size).
#[local] Abbreviation reclaim_snapshot := (reclaim_snapshot xxh3_64 last_modified object_size).
#[local] Abbreviation too_young := (too_young last_modified).

(** ** Leases *)

(** The store holds an unexpired lease at [k]. *)
Definition leased (s : Objects) (now_unix : Z) (k : Path) (l : PinLease) : Prop :=
  under pins_dir k = true ∧
  (∃ b, s !! k = Some b ∧ from_slice b = Ok l) ∧ now_unix ≤ pl_expires_at_unix l.

(** The pin variables honour a lease. *)
Definition honours (pv : PinView) (l : PinLease) : Prop :=
  match pl_scope l with
  | Floor => pv_floor pv ≤ pl_version l
  | Point => pl_version l ∈ pv_points pv
  | Window since =>
      ∃ w, pv_window pv = Some w ∧ rw_version w ≤ pl_version l ∧ rw_since w ≤ since
  end.

Lemma honour_honours location l pv : honours (honour location l pv) l.
Proof.
  unfold honours, honour. destruct pv, (pl_scope l) as [| |since] eqn:E; cbn.
  - lia.
  - apply elem_of_union_l. by apply elem_of_singleton.
  - eexists. split; [done|]. case_match; cbn; lia.
Qed.

Lemma honour_mono location l l' pv : honours pv l' → honours (honour location l pv) l'.
Proof.
  unfold honours, honour.
  destruct pv, (pl_scope l') as [| |since'], (pl_scope l) as [| |since]; cbn; try done.
  - lia.
  - apply elem_of_union_r.
  - intros (w & -> & Hv & Hs). eexists. split; [done|]. cbn. lia.
Qed.

(** The decodable lease at a key, and its effect on the scan. *)
Definition lease_at (s : Objects) (k : Path) : option PinLease :=
  match s !! k with
  | Some b => match from_slice b with Ok l => Some l | Err _ => None end
  | None => None
  end.
Definition expired_at (s : Objects) (now_unix : Z) (k : Path) : bool :=
  match lease_at s k with Some l => pl_expires_at_unix l <? now_unix | None => false end.
Definition scan_step (s : Objects) (now_unix : Z) (pv : PinView) (k : Path) : PinView :=
  match lease_at s k with
  | None => pv
  | Some l =>
      if pl_expires_at_unix l <? now_unix
      then pv{{ pv_report ::= λ r, r{{ expired_pins_reclaimed ::= Z.add 1 }} }}
      else honour k l pv
  end.

(** The store after the keys of [keys] that [dead] names are deleted. *)
Definition pruned (del : bool) (dead : Path → bool) (keys : list Path) (s : Objects) : Objects :=
  filter (λ kb, ¬ (del = true ∧ kb.1 ∈ keys ∧ dead kb.1 = true)) s.

Lemma pruned_lookup del dead keys s k :
  pruned del dead keys s !! k =
  if decide (del = true ∧ k ∈ keys ∧ dead k = true) then None else s !! k.
Proof.
  unfold pruned. rewrite map_lookup_filter. destruct (s !! k) as [b|]; cbn.
  - case_decide; [by rewrite option_guard_False by tauto|by rewrite option_guard_True by tauto].
  - by case_decide.
Qed.

Lemma pruned_nil del dead s : pruned del dead [] s = s.
Proof.
  apply map_eq. intros k. rewrite pruned_lookup. case_decide as Hd; [|done].
  destruct Hd as (_ & []%elem_of_nil & _).
Qed.

Lemma pruned_cons del dead k keys s :
  pruned del dead (k :: keys) s
  = pruned del dead keys (if del && dead k then delete k s else s).
Proof.
  apply map_eq. intros k'. rewrite !pruned_lookup. pose proof (elem_of_cons keys k' k) as Hc.
  destruct (decide (k' = k)) as [->|Hne].
  - destruct del, (dead k) eqn:E; cbn; rewrite ?lookup_delete_eq; repeat case_decide; intuition congruence.
  - assert (∀ b : bool, (if b then delete k s else s) !! k' = s !! k') as ->
      by (intros []; [by rewrite lookup_delete_ne|done]).
    repeat case_decide; intuition congruence.
Qed.

Lemma run_scan_pins now_unix del pins pv s0 s :
  NoDup pins → (∀ k, k ∈ pins → s !! k = s0 !! k) →
  run (scan_pins now_unix del pins pv) s
  = (Some (Ok (foldl (scan_step s0 now_unix) pv pins)), pruned del (expired_at s0 now_unix) pins s).
Proof.
  revert pv s. induction pins as [|k pins IH]; intros pv s Hnd Hs; [by rewrite pruned_nil|].
  apply NoDup_cons in Hnd as [Hk Hnd]. rewrite pruned_cons. cbn [scan_pins foldl].
  rewrite (run_store (Get k)). cbn [answer]. unfold scan_step at 2, expired_at at 2, lease_at.
  rewrite <- Hs by left.
  assert (Hrest : ∀ pv, run (scan_pins now_unix del pins pv) s
    = (Some (Ok (foldl (scan_step s0 now_unix) pv pins)), pruned del (expired_at s0 now_unix) pins s)).
  { intros pv'. apply IH; [done|]. intros k' Hk'. apply Hs. by right. }
  destruct (s !! k) as [b|] eqn:E; [|by rewrite andb_false_r].
  rewrite run_bind. cbn [lift get_bytes run]. destruct (from_slice b) as [l|e]; [|by rewrite andb_false_r].
  destruct (pl_expires_at_unix l <? now_unix) eqn:El; [|by rewrite andb_false_r].
  rewrite andb_true_r. destruct del; [|apply Hrest].
  rewrite (run_store (Delete k)). cbn [answer]. rewrite run_bind. cbn [lift run]. apply IH; [done|].
  intros k' Hk'. rewrite lookup_delete_ne; [apply Hs; by right|]. by intros <-.
Qed.

(** What the scan knows of the leases comes from the store. *)
Record justified (s : Objects) (now_unix : Z) (pins : list Path) (pv : PinView) : Prop := {
  just_floor : pv_floor pv = u64_max ∨
    ∃ k l, k ∈ pins ∧ lease_at s k = Some l ∧ now_unix ≤ pl_expires_at_unix l ∧
      pl_scope l = Floor ∧ pl_version l = pv_floor pv;
  just_points v : v ∈ pv_points pv →
    ∃ k l, k ∈ pins ∧ lease_at s k = Some l ∧ now_unix ≤ pl_expires_at_unix l ∧
      pl_scope l = Point ∧ pl_version l = v;
  just_window w : pv_window pv = Some w →
    ∃ k l since, k ∈ pins ∧ lease_at s k = Some l ∧ now_unix ≤ pl_expires_at_unix l ∧
      pl_scope l = Window since ∧ pl_version l = rw_version w;
}.

Lemma justified_step s now_unix pins pv k :
  k ∈ pins → justified s now_unix pins pv → justified s now_unix pins (scan_step s now_unix pv k).
Proof.
  intros Hk [Hf Hp Hw]. unfold scan_step. destruct (lease_at s k) as [l|] eqn:El; [|done].
  destruct (Z.ltb_spec (pl_expires_at_unix l) now_unix) as [|Hex]; [by destruct pv|].
  unfold honour. destruct pv as [rep fl pts win hon]. cbn in Hf, Hp, Hw.
  destruct (pl_scope l) as [| |since] eqn:Es; split; cbn; try done.
  - destruct (Z.min_spec fl (pl_version l)) as [[_ ->]|[_ ->]]; [done|]. right. by exists k, l.
  - intros v [->%elem_of_singleton|Hv]%elem_of_union; [by exists k, l|by apply Hp].
  - intros w [= <-]. destruct win as [w|]; [|by exists k, l, since]. cbn [rw_version].
    destruct (Z.min_spec (rw_version w) (pl_version l)) as [[_ ->]|[_ ->]];
      [by apply Hw|by exists k, l, since].
Qed.

Lemma scan_justified s now_unix pins pins' pv :
  (∀ k, k ∈ pins' → k ∈ pins) → justified s now_unix pins pv →
  justified s now_unix pins (foldl (scan_step s now_unix) pv pins').
Proof.
  revert pv. induction pins' as [|k pins' IH]; intros pv Hin Hj; [done|]. cbn [foldl].
  apply IH; [intros k' Hk'; apply Hin; by right|]. apply justified_step; [apply Hin; by left|done].
Qed.

Lemma scan_step_mono s now_unix pv k l : honours pv l → honours (scan_step s now_unix pv k) l.
Proof.
  intros Hl. unfold scan_step. repeat case_match; [by destruct pv|by apply honour_mono|done].
Qed.

Lemma scan_mono s now_unix pins pv l :
  honours pv l → honours (foldl (scan_step s now_unix) pv pins) l.
Proof.
  revert pv. induction pins as [|k pins IH]; intros pv Hl; [done|]. by apply IH, scan_step_mono.
Qed.

Lemma scan_honours s now_unix pins pv k l :
  k ∈ pins → lease_at s k = Some l → now_unix ≤ pl_expires_at_unix l →
  honours (foldl (scan_step s now_unix) pv pins) l.
Proof.
  intros Hk Hl He. revert pv. induction pins as [|k' pins IH]; intros pv; [by apply elem_of_nil in Hk|].
  apply elem_of_cons in Hk as [<-|Hk]; [|by apply IH]. cbn [foldl]. apply scan_mono.
  unfold scan_step. rewrite Hl. destruct (Z.ltb_spec (pl_expires_at_unix l) now_unix); [lia|].
  apply honour_honours.
Qed.

(** The re-check sees the leases the scan honoured. *)
Lemma scan_honoured_at s now_unix pins pv k l :
  (pv_honoured pv !! k = Some l ∨ k ∈ pins) → lease_at s k = Some l →
  now_unix ≤ pl_expires_at_unix l →
  pv_honoured (foldl (scan_step s now_unix) pv pins) !! k = Some l.
Proof.
  intros Hk Hl He. revert pv Hk. induction pins as [|k' pins IH]; intros pv Hk.
  { destruct Hk as [|Hk]; [done|by apply elem_of_nil in Hk]. }
  cbn [foldl]. apply IH.
  assert (Hh : ∀ l', pv_honoured (honour k' l' pv) = <[k' := l']> (pv_honoured pv)).
  { intros l'. unfold honour. destruct pv, (pl_scope l'); done. }
  unfold scan_step. destruct (decide (k' = k)) as [->|Hne].
  - left. rewrite Hl. destruct (Z.ltb_spec (pl_expires_at_unix l) now_unix); [lia|].
    by rewrite Hh, lookup_insert_eq.
  - rewrite elem_of_cons in Hk. destruct Hk as [Hk|[?|Hk]]; [left|done|by right].
    destruct (lease_at s k') as [l'|]; [|done]. case_match; [by destruct pv|].
    by rewrite Hh, lookup_insert_ne.
Qed.

(** ** The live set *)

(** The manifest a sweep reads for a version. *)
Definition at_version (s : Objects) (current : Manifest) (v : Z) (m : Manifest) : Prop :=
  if v =? mf_version current then m = current
  else ∃ b, s !! manifest_version v = Some b ∧ from_slice b = Ok m.

(** The live set grew by the manifests of [P] and nothing else. *)
Record grown (live live' : LiveSet) (P : Manifest → Prop) : Prop := {
  grown_incl : live_incl live live';
  grown_marked m : P m → marked live' m;
  grown_paths p : p ∈ referenced live' → p ∈ referenced live ∨ ∃ m, P m ∧ p ∈ manifest_paths m;
  grown_seqs q : q ∈ referenced_wal live' → q ∈ referenced_wal live ∨ ∃ m, P m ∧ q ∈ manifest_seqs m;
}.

Lemma grown_none live (P : Manifest → Prop) : (∀ m, ¬ P m) → grown live live P.
Proof. intros HP. split; [done|by intros m []%HP|by left|by left]. Qed.

Lemma grown_one live m (P : Manifest → Prop) :
  (∀ m', P m' ↔ m' = m) → grown live (mark_live live m) P.
Proof.
  intros HP. split; [apply mark_live_incl|intros m' ->%HP; apply mark_live_marked| |].
  - intros p [|]%mark_referenced; [by left|]. right. exists m. by rewrite HP.
  - intros p [|]%mark_referenced_wal; [by left|]. right. exists m. by rewrite HP.
Qed.

Lemma grown_trans l1 l2 l3 (P Q R : Manifest → Prop) :
  (∀ m, R m ↔ P m ∨ Q m) → grown l1 l2 P → grown l2 l3 Q → grown l1 l3 R.
Proof.
  intros HR [Hi1 Hm1 Hp1 Hq1] [Hi2 Hm2 Hp2 Hq2]. split.
  - by trans l2.
  - intros m [Hm|Hm]%HR; [eapply marked_mono; [done|]|]; auto.
  - intros p [[|(m & ? & ?)]%Hp1|(m & ? & ?)]%Hp2; [by left| |]; right; exists m; by rewrite HR; auto.
  - intros p [[|(m & ? & ?)]%Hq1|(m & ? & ?)]%Hq2; [by left| |]; right; exists m; by rewrite HR; auto.
Qed.

Lemma run_load_manifest_at v s :
  run (load_manifest_at v) s =
  (Some match s !! manifest_version v with
        | None => Err (ObjectStore NotFound)
        | Some b => match from_slice b with Ok m => Ok m | Err e => Err (Json e) end
        end, s).
Proof.
  unfold load_manifest_at. rewrite (run_store (Get _)). cbn [answer].
  destruct (s !! manifest_version v) as [b|]; [|done]. cbn. by destruct (from_slice b).
Qed.

(** A version a marking loop can pass: its body decodes, or it may be missing. *)
Definition loadable (s : Objects) (may_miss : bool) (v : Z) : Prop :=
  match s !! manifest_version v with
  | None => may_miss = true
  | Some b => ∃ m : Manifest, from_slice b = Ok m
  end.

Lemma run_mark_versions current sf versions live s :
  match run (mark_versions current sf versions live) s with
  | (Some (Ok live'), s') =>
      s' = s ∧ grown live live' (λ m, ∃ v, v ∈ versions ∧ at_version s current v m)
  | (Some (Err _), _) =>
      ∃ v, v ∈ versions ∧ v ≠ mf_version current ∧ ¬ loadable s (v <? sf) v
  | (None, _) => False
  end.
Proof.
  revert live. induction versions as [|v versions IH]; intros live.
  { split; [done|]. apply grown_none. intros m (v & Hv & _). by apply elem_of_nil in Hv. }
  assert (Hstep : ∀ live1, grown live live1 (at_version s current v) →
    match run (mark_versions current sf versions live1) s with
    | (Some (Ok live'), s') =>
        s' = s ∧ grown live live' (λ m, ∃ v', v' ∈ v :: versions ∧ at_version s current v' m)
    | (Some (Err _), _) =>
        ∃ v', v' ∈ v :: versions ∧ v' ≠ mf_version current ∧ ¬ loadable s (v' <? sf) v'
    | (None, _) => False
    end).
  { intros live1 Hg. specialize (IH live1).
    destruct (run (mark_versions current sf versions live1) s) as [[[live'|e]|] s']; [| |done].
    - destruct IH as [-> Hg']. split; [done|]. eapply grown_trans; [|exact Hg|exact Hg'].
      intros m. split.
      + intros (v' & [->|Hv']%elem_of_cons & Hm); [by left|right; eauto].
      + intros [Hm|(v' & Hv' & Hm)]; eexists; rewrite elem_of_cons; eauto.
    - destruct IH as (v' & Hv' & ?). exists v'. by rewrite elem_of_cons; auto. }
  cbn [mark_versions]. unfold at_version in Hstep at 1. destruct (Z.eqb_spec v (mf_version current)) as [Hv|Hv].
  { apply Hstep, grown_one. done. }
  rewrite run_bind, run_attempt, run_load_manifest_at.
  assert (Hfail : ¬ loadable s (v <? sf) v → ∃ v', v' ∈ v :: versions ∧ v' ≠ mf_version current ∧
    ¬ loadable s (v' <? sf) v') by (intros Hl; exists v; by rewrite elem_of_cons; auto).
  unfold loadable in Hfail at 1. destruct (s !! manifest_version v) as [b|].
  - destruct (from_slice b : result string Manifest) as [m|e] eqn:Eb.
    + cbv beta iota. apply Hstep, grown_one. intros m'. split; [intros (b' & [= <-] & Hb'); congruence|].
      intros ->. eauto.
    + apply Hfail. intros (m & ?). congruence.
  - cbv beta iota. destruct (v <? sf); [|by apply Hfail]. apply Hstep, grown_none. by intros m (b & ? & _).
Qed.

Lemma run_mark_extra versions live s :
  match run (mark_extra versions live) s with
  | (Some (Ok live'), s') =>
      s' = s ∧ grown live live' (λ m, ∃ v b, v ∈ versions ∧
        s !! manifest_version v = Some b ∧ from_slice b = Ok m)
  | (Some (Err _), _) => ∃ v, v ∈ versions ∧ ¬ loadable s true v
  | (None, _) => False
  end.
Proof.
  revert live. induction versions as [|v versions IH]; intros live.
  { split; [done|]. apply grown_none. intros m (v & b & Hv & _). by apply elem_of_nil in Hv. }
  assert (Hstep : ∀ live1,
    grown live live1 (λ m, ∃ b, s !! manifest_version v = Some b ∧ from_slice b = Ok m) →
    match run (mark_extra versions live1) s with
    | (Some (Ok live'), s') =>
        s' = s ∧ grown live live' (λ m, ∃ v' b, v' ∈ v :: versions ∧
          s !! manifest_version v' = Some b ∧ from_slice b = Ok m)
    | (Some (Err _), _) => ∃ v', v' ∈ v :: versions ∧ ¬ loadable s true v'
    | (None, _) => False
    end).
  { intros live1 Hg. specialize (IH live1).
    destruct (run (mark_extra versions live1) s) as [[[live'|e]|] s']; [| |done].
    - destruct IH as [-> Hg']. split; [done|]. eapply grown_trans; [|exact Hg|exact Hg'].
      intros m. split.
      + intros (v' & b & [->|Hv']%elem_of_cons & Hm); [left; eauto|right; eauto].
      + intros [(b & Hm)|(v' & b & Hv' & Hm)]; eexists _, b; rewrite elem_of_cons; eauto.
    - destruct IH as (v' & Hv' & ?). exists v'. by rewrite elem_of_cons; auto. }
  cbn [mark_extra]. rewrite run_bind, run_attempt, run_load_manifest_at.
  assert (Hfail : ¬ loadable s true v → ∃ v', v' ∈ v :: versions ∧ ¬ loadable s true v')
    by (intros Hl; exists v; by rewrite elem_of_cons; auto).
  unfold loadable in Hfail at 1. destruct (s !! manifest_version v) as [b|].
  - destruct (from_slice b : result string Manifest) as [m|e] eqn:Eb.
    + cbv beta iota. apply Hstep, grown_one. intros m'. split; [intros (b' & [= <-] & Hb'); congruence|].
      intros ->. eauto.
    + apply Hfail. intros (m & ?). congruence.
  - cbv beta iota. apply Hstep, grown_none. by intros m (b & ? & _).
Qed.

Lemma mark_versions_same current sf versions live s live' s' :
  run (mark_versions current sf versions live) s = (Some (Ok live'), s') → s' = s.
Proof. intros E. pose proof (run_mark_versions current sf versions live s) as Hm. rewrite E in Hm. apply Hm. Qed.
Lemma mark_extra_same versions live s live' s' :
  run (mark_extra versions live) s = (Some (Ok live'), s') → s' = s.
Proof. intros E. pose proof (run_mark_extra versions live s) as Hm. rewrite E in Hm. apply Hm. Qed.

(** ** The re-check *)

Lemma covered_refl l : covered (Some l) l = true.
Proof. unfold covered. destruct (pl_scope l); rewrite ?Z.leb_refl, ?Z.eqb_refl; done. Qed.

Lemma run_pins_changed_loop now_unix honoured horizon pins s :
  (∀ k l, k ∈ pins → lease_at s k = Some l → now_unix ≤ pl_expires_at_unix l →
     honoured !! k = Some l) →
  run (pins_changed_loop now_unix honoured horizon pins) s = (Some (Ok false), s).
Proof.
  intros Hh. induction pins as [|k pins IH]; [done|]. cbn [pins_changed_loop].
  specialize (IH (λ k' l Hk', Hh k' l (list_elem_of_further _ _ _ Hk'))).
  rewrite (run_store (Get k)). cbn [answer]. specialize (Hh k). unfold lease_at in Hh.
  destruct (s !! k) as [b|]; [|done]. rewrite run_bind. cbn [lift get_bytes run].
  destruct (from_slice b) as [l|e]; [|done].
  destruct (Z.ltb_spec (pl_expires_at_unix l) now_unix); [done|]. cbn [orb].
  case_match; [done|]. rewrite (Hh l), covered_refl; [done|by left|done|done].
Qed.

(** ** Reclaiming *)

Definition is_reclaim (v : Verdict) : bool := match v with Reclaim => true | _ => false end.

Lemma run_reclaim_loop del verdict count deleted keys report s :
  ∃ report', run (reclaim_loop del verdict count deleted keys report) s
    = (Some (Ok report'), pruned del (λ k, is_reclaim (verdict k)) keys s).
Proof.
  revert report s. induction keys as [|k keys IH]; intros report s.
  { exists report. by rewrite pruned_nil. }
  rewrite pruned_cons. cbn [Janitor.reclaim_loop]. cbv beta.
  destruct (verdict k); cbn [is_reclaim]; rewrite ?andb_false_r; [apply IH|apply IH|apply IH|].
  rewrite andb_true_r. destruct del; [|apply IH].
  rewrite (run_store (Delete k)). cbn [answer]. rewrite run_bind. cbn [lift run]. apply IH.
Qed.

Lemma run_reclaim_listed dir del verdict count deleted report s :
  ∃ report' s', run (reclaim_listed dir del verdict count deleted report) s = (Some (Ok report'), s') ∧
    ∀ k, s' !! k = if decide (del = true ∧ under dir k = true ∧ verdict k = Reclaim) then None else s !! k.
Proof.
  unfold Janitor.reclaim_listed. rewrite (run_store (ListDir dir)). cbn [answer].
  rewrite run_bind. cbn [lift run].
  destruct (run_reclaim_loop del verdict count deleted
    (filter (λ k, under dir k = true) (map fst (map_to_list s))) report s) as [report' ->].
  eexists _, _. split; [done|]. intros k. rewrite pruned_lookup.
  pose proof (elem_of_listed s dir k) as Hl. unfold is_reclaim.
  destruct (s !! k) as [b|] eqn:E.
  - pose proof (mk_is_Some _ _ (eq_refl (Some b))).
    destruct (verdict k); repeat case_decide; intuition congruence.
  - by repeat case_decide.
Qed.

Definition stale_snapshot (current : Manifest) (s : Objects) : Prop :=
  ∃ b d, s !! memtable_snapshot = Some b ∧ decode_memtable_snapshot xxh3_64 b = Ok d ∧
    covers_manifest d current = false.

Lemma run_reclaim_snapshot del current now min_age_secs report s :
  ∃ report' s', run (reclaim_snapshot del current now min_age_secs report) s = (Some (Ok report'), s') ∧
    ∀ k, s' !! k = s !! k ∨
      del = true ∧ s' !! k = None ∧ k = memtable_snapshot ∧ stale_snapshot current s ∧
      too_young now min_age_secs k = false.
Proof.
  unfold Janitor.reclaim_snapshot. rewrite (run_store (Get memtable_snapshot)). cbn [answer].
  destruct (s !! memtable_snapshot) as [b|] eqn:Eb; [|by eexists _, _; split; [|left]].
  rewrite run_bind. cbn [lift get_bytes run].
  destruct (decode_memtable_snapshot xxh3_64 b) as [d|e] eqn:Ed; [|by eexists _, _; split; [|left]].
  destruct (covers_manifest d current) eqn:Ec; cbn [negb]; [by eexists _, _; split; [|left]|].
  destruct (too_young now min_age_secs memtable_snapshot) eqn:Ey; [by eexists _, _; split; [|left]|].
  destruct del; [|by eexists _, _; split; [|left]].
  rewrite (run_store (Delete memtable_snapshot)). cbn [answer]. rewrite run_bind. cbn [lift run].
  eexists _, _. split; [done|]. intros k. destruct (decide (k = memtable_snapshot)) as [->|Hne].
  - right. rewrite lookup_delete_eq. do 3 (split; [done|]). split; [by exists b, d|done].
  - left. by rewrite lookup_delete_ne.
Qed.

(** The parameters of the reclaim phases. *)
Record Plan := {
  pl_current : Manifest;
  pl_live : LiveSet;
  pl_pins : PinView;
  pl_horizon : Z;
  pl_body_floor : Z;
  pl_now : Z;
  pl_min_age : Z;
  pl_min_age_secs : Z;
}.

Definition run_plan (del : bool) (p : Plan) : prog JanitorReport :=
  reclaim xxh3_64 last_modified object_size del (pl_current p) (pl_live p) (pl_pins p) (pl_horizon p)
    (pl_body_floor p) (pl_now p) (pl_min_age p) (pl_min_age_secs p).

(** The listed keys a plan condemns. *)
Inductive condemned (p : Plan) (k : Path) : Prop :=
| condemned_sst :
    under (namespace_prefix +:+ "/sst") k = true →
    sst_verdict last_modified (pl_live p) (window_keep_since (pv_window (pl_pins p)) (pl_min_age p))
      (pl_now p) (pl_min_age_secs p) k = Reclaim → condemned p k
| condemned_manifest :
    under manifest_dir k = true →
    manifest_verdict last_modified (pl_horizon p) (pl_body_floor p) (pv_points (pl_pins p))
      (pl_now p) (pl_min_age_secs p) k = Reclaim → condemned p k
| condemned_wal :
    under wal_dir k = true →
    wal_verdict last_modified (pl_live p) (window_keep_since (pv_window (pl_pins p)) (pl_min_age p))
      (pl_now p) (pl_min_age_secs p) k = Reclaim → condemned p k.

Lemma run_plan_effect del p s :
  ∃ report s', run (run_plan del p) s = (Some (Ok report), s') ∧
    (∀ k, s' !! k = s !! k ∨ del = true ∧ s' !! k = None ∧
       (condemned p k ∨ k = memtable_snapshot ∧ too_young (pl_now p) (pl_min_age_secs p) k = false)) ∧
    (∀ k, del = true → condemned p k → s' !! k = None).
Proof.
  unfold run_plan, reclaim. cbv zeta.
  match goal with |- context [Janitor.reclaim_listed _ ?d ?del ?v ?c ?f ?r ≫= ?K] =>
    destruct (run_reclaim_listed d del v c f r s) as (r1 & s1 & E1 & H1); rewrite run_bind, E1 end.
  match goal with |- context [Janitor.reclaim_listed _ ?d ?del ?v ?c ?f ?r ≫= ?K] =>
    destruct (run_reclaim_listed d del v c f r s1) as (r2 & s2 & E2 & H2); rewrite run_bind, E2 end.
  match goal with |- context [Janitor.reclaim_listed _ ?d ?del ?v ?c ?f ?r ≫= ?K] =>
    destruct (run_reclaim_listed d del v c f r s2) as (r3 & s3 & E3 & H3); rewrite run_bind, E3 end.
  destruct (run_reclaim_snapshot del (pl_current p) (pl_now p) (pl_min_age_secs p) r3 s3)
    as (r4 & s4 & E4 & H4).
  rewrite ks_sst_root in H1. exists r4, s4. split; [exact E4|].
  split; intros k; specialize (H1 k); specialize (H2 k); specialize (H3 k); specialize (H4 k).
  - destruct H4 as [H4|(-> & H4 & -> & _ & Hy)]; [|right; auto]. rewrite H4.
    case_decide as D3; [destruct D3 as (-> & ? & ?); right; auto using condemned_wal|]. rewrite H3.
    case_decide as D2; [destruct D2 as (-> & ? & ?); right; auto using condemned_manifest|]. rewrite H2.
    case_decide as D1; [destruct D1 as (-> & ? & ?); right; auto using condemned_sst|]. by left.
  - intros -> Hk. assert (Hnone : s3 !! k = None); [|destruct H4 as [->|(_ & -> & _)]; done].
    rewrite H3. case_decide as D3; [done|]. rewrite H2. case_decide as D2; [done|]. rewrite H1.
    case_decide as D1; [done|]. destruct Hk; tauto.
Qed.

(** ** Where the keys lie *)

Lemma under_below d a :
  under (namespace_prefix +:+ d) (namespace_prefix +:+ a) = String.prefix (d +:+ "/") a.
Proof. unfold under. by rewrite string_app_assoc, prefix_app. Qed.

Lemma prefix_shorter a b k : String.prefix (a +:+ b) k = true → String.prefix a k = true.
Proof.
  revert k. induction a as [|c a IH]; intros k; [by rewrite prefix_nil|].
  rewrite string_app_cons. destruct k as [|c' k]; simpl; [done|]. case_match; [apply IH|done].
Qed.

Lemma pins_in_manifest k : under pins_dir k = true → under manifest_dir k = true.
Proof.
  unfold under. rewrite ks_pins_dir, ks_manifest_dir.
  change "/manifest/pins" with ("/manifest" +:+ "/" +:+ "pins").
  rewrite !string_app_assoc. intros Hk. eapply prefix_shorter. rewrite !string_app_assoc. exact Hk.
Qed.

Lemma manifest_not_pin n : under pins_dir (manifest_version n) = false.
Proof. by rewrite ks_pins_dir, ks_manifest, under_below. Qed.
Lemma manifest_in_dir n : under manifest_dir (manifest_version n) = true.
Proof.
  rewrite ks_manifest_dir, ks_manifest, under_below. change "/manifest/v" with ("/manifest/" +:+ "v").
  rewrite string_app_assoc. rewrite <- (string_app_nil_r ("/manifest" +:+ "/")). apply prefix_app.
Qed.
Lemma manifest_not_sst n : under (namespace_prefix +:+ "/sst") (manifest_version n) = false.
Proof. by rewrite ks_manifest, under_below. Qed.
Lemma pointer_not_pin n : under pins_dir (pointer_version n) = false.
Proof. by rewrite ks_pins_dir, ks_pointer, under_below. Qed.
Lemma pointer_not_sst n : under (namespace_prefix +:+ "/sst") (pointer_version n) = false.
Proof. by rewrite ks_pointer, under_below. Qed.
Lemma wal_not_pin n : under pins_dir (wal_segment n) = false.
Proof. by rewrite ks_pins_dir, ks_wal, under_below. Qed.
Lemma wal_not_sst n : under (namespace_prefix +:+ "/sst") (wal_segment n) = false.
Proof. by rewrite ks_wal, under_below. Qed.
Lemma wal_not_in_manifest n : under manifest_dir (wal_segment n) = false.
Proof. by rewrite ks_manifest_dir, ks_wal, under_below. Qed.

(** The key of a namespace-relative path. *)
Definition absolute (relative : string) : Path := namespace_prefix +:+ "/" +:+ relative.

Lemma sst_not_pin rest : under pins_dir (absolute ("sst/" +:+ rest)) = false.
Proof. unfold absolute. by rewrite ks_pins_dir, under_below. Qed.
Lemma sst_not_in_manifest rest : under manifest_dir (absolute ("sst/" +:+ rest)) = false.
Proof. unfold absolute. by rewrite ks_manifest_dir, under_below. Qed.
Lemma sst_not_in_wal rest : under wal_dir (absolute ("sst/" +:+ rest)) = false.
Proof. unfold absolute. by rewrite ks_wal_dir, under_below. Qed.
Lemma absolute_not_snapshot rest : absolute ("sst/" +:+ rest) ≠ memtable_snapshot.
Proof. unfold absolute. rewrite ks_snapshot. by intros E%String.app_inj. Qed.
Lemma wal_not_snapshot n : wal_segment n ≠ memtable_snapshot.
Proof. rewrite ks_wal, ks_snapshot. by intros E%String.app_inj. Qed.
Lemma pointer_not_snapshot n : pointer_version n ≠ memtable_snapshot.
Proof. rewrite ks_pointer, ks_snapshot. by intros E%String.app_inj. Qed.

(** ** What a verdict protects *)

Lemma manifest_file_body n : is_u64 n → manifest_file ("v" +:+ pad_hex n 16 +:+ ".json") = Some (false, n).
Proof.
  intros Hn. unfold manifest_file. change ("v" +:+ pad_hex n 16 +:+ ".json")
    with (String "v" (pad_hex n 16 +:+ ".json")). cbn [strip_prefix_char].
  by rewrite Ascii.eqb_refl, strip_suffix_app, from_str_radix_pad_hex.
Qed.

Lemma manifest_file_pointer n :
  is_u64 n → manifest_file ("p" +:+ pad_hex n 16 +:+ ".json") = Some (true, n).
Proof.
  intros Hn. unfold manifest_file. change ("p" +:+ pad_hex n 16 +:+ ".json")
    with (String "p" (pad_hex n 16 +:+ ".json")). cbn [strip_prefix_char].
  rewrite (eq_refl : Ascii.eqb "p" "v" = false), Ascii.eqb_refl, strip_suffix_app.
  by rewrite from_str_radix_pad_hex.
Qed.

(** Outside the pin leases, a body or pointer key is classified by its number. *)
Lemma listed_body n x : is_u64 n → listed_manifest (manifest_version n) = Some x → x = (false, n).
Proof.
  intros Hn. unfold listed_manifest. case_match; [done|].
  rewrite manifest_filename, manifest_file_body by done. by intros [= <-].
Qed.
Lemma listed_pointer n x : is_u64 n → listed_manifest (pointer_version n) = Some x → x = (true, n).
Proof.
  intros Hn. unfold listed_manifest. case_match; [done|].
  rewrite pointer_filename, manifest_file_pointer by done. by intros [= <-].
Qed.

Lemma wal_file_segment n : is_u64 n → wal_file (wal_segment n) = Some n.
Proof.
  intros Hn. unfold wal_file. by rewrite wal_filename, strip_suffix_app, from_str_radix_pad_hex.
Qed.

Lemma strip_absolute rel :
  (strip_prefix namespace_prefix (absolute rel) ≫= strip_prefix "/") = Some rel.
Proof. unfold absolute. rewrite strip_prefix_app. apply (strip_prefix_app "/"). Qed.

(** Referenced objects are never condemned. *)
Lemma referenced_not_condemned p rest :
  "sst/" +:+ rest ∈ referenced (pl_live p) → ¬ condemned p (absolute ("sst/" +:+ rest)).
Proof.
  intros Hr [Hu Hv|Hu Hv|Hu Hv].
  - revert Hv. unfold sst_verdict. rewrite strip_absolute. case_match; [|done]. case_match; [done|].
    by rewrite bool_decide_true.
  - by rewrite sst_not_in_manifest in Hu.
  - by rewrite sst_not_in_wal in Hu.
Qed.

Lemma segment_not_condemned p n :
  is_u64 n → n ∈ referenced_wal (pl_live p) → ¬ condemned p (wal_segment n).
Proof.
  intros Hn Hr [Hu Hv|Hu Hv|Hu Hv].
  - by rewrite wal_not_sst in Hu.
  - by rewrite wal_not_in_manifest in Hu.
  - revert Hv. unfold wal_verdict. by rewrite wal_file_segment, bool_decide_true.
Qed.

Lemma body_not_condemned p v :
  is_u64 v → pl_horizon p ≤ v ∨ pl_body_floor p ≤ v ∨ v ∈ pv_points (pl_pins p) →
  ¬ condemned p (manifest_version v).
Proof.
  intros Hn Hr [Hu Hv|Hu Hv|Hu Hv].
  - by rewrite manifest_not_sst in Hu.
  - revert Hv. unfold manifest_verdict. destruct (listed_manifest _) as [x|] eqn:E; [|done].
    apply listed_body in E as ->; [|done]. cbn [negb andb].
    destruct (Z.leb_spec (pl_horizon p) v); [done|]. destruct (Z.leb_spec (pl_body_floor p) v); [done|].
    cbn [orb]. rewrite bool_decide_true; [done|]. destruct Hr as [|[|]]; [lia|lia|done].
  - by rewrite manifest_not_in_wal in Hu.
Qed.

Lemma pointer_not_condemned p v :
  is_u64 v → pl_horizon p ≤ v → ¬ condemned p (pointer_version v).
Proof.
  intros Hn Hr [Hu Hv|Hu Hv|Hu Hv].
  - by rewrite pointer_not_sst in Hu.
  - revert Hv. unfold manifest_verdict. destruct (listed_manifest _) as [x|] eqn:E; [|done].
    apply listed_pointer in E as ->; [|done]. by destruct (Z.leb_spec (pl_horizon p) v); [|lia].
  - by rewrite pointer_not_in_wal in Hu.
Qed.

Lemma current_not_condemned p : ¬ condemned p current_pointer.
Proof.
  intros [Hu Hv|Hu Hv|Hu Hv].
  - by rewrite ks_current, under_below in Hu.
  - revert Hv. unfold manifest_verdict, listed_manifest. rewrite current_filename.
    by destruct (contains _ _).
  - by rewrite current_not_in_wal in Hu.
Qed.

(** Nothing within [min_age] of its write time is condemned. *)
Lemma condemned_old p k : condemned p k → too_young (pl_now p) (pl_min_age_secs p) k = false.
Proof.
  intros [_ Hv|_ Hv|_ Hv]; revert Hv;
    [unfold sst_verdict|unfold manifest_verdict|unfold wal_verdict];
    repeat (case_match; try done).
Qed.

(** Nor an SST object or WAL segment the restore window covers. *)
Lemma condemned_outside_window p k :
  under manifest_dir k = false → condemned p k →
  in_window last_modified (window_keep_since (pv_window (pl_pins p)) (pl_min_age p)) k = false.
Proof.
  intros Hm [_ Hv|Hu _|_ Hv]; [|congruence|]; revert Hv; [unfold sst_verdict|unfold wal_verdict];
    repeat (case_match; try done).
Qed.

(** ** The whole sweep *)

Lemma probe_loop_reads fuel n : reads_only (probe_loop fuel n).
Proof.
  revert n. induction fuel as [|fuel IH]; intros n; [done|]. cbn [probe_loop].
  apply reads_only_store; [done|]. intros [z|[]]; done || apply IH.
Qed.

Lemma max_pointer_version_reads : reads_only max_pointer_version.
Proof.
  unfold max_pointer_version. apply reads_only_store; [done|]. intros l.
  apply reads_only_bind; [by destruct l|]. intros listed. destruct (max_listed listed); [done|].
  apply reads_only_store; [done|]. intros [h|e]; [done|].
  apply reads_only_store; [done|]. intros [res|e']; [|done].
  destruct (get_bytes res) as [body|]; [|done].
  destruct (from_slice body : result string ManifestPointer) as [p|]; [|done].
  apply reads_only_store; [done|]. by intros [].
Qed.

Lemma load_current_reads : reads_only load_current.
Proof.
  unfold load_current. apply reads_only_bind.
  - unfold load_pointer. apply reads_only_bind; [apply max_pointer_version_reads|]. intros mx.
    apply reads_only_bind.
    { destruct mx; [|done]. by apply reads_only_bind; [apply probe_loop_reads|]. }
    intros path. apply reads_only_store; [done|]. intros r. apply reads_only_bind; [by destruct r|].
    intros res. apply reads_only_bind; [by destruct (get_bytes res)|]. intros b.
    by apply reads_only_bind; [by destruct (from_slice b)|].
  - intros [[pointer e] v]. apply reads_only_store; [done|]. intros r.
    apply reads_only_bind; [by destruct r|]. intros res.
    apply reads_only_bind; [by destruct (get_bytes res)|]. intros b.
    apply reads_only_bind; [by destruct (from_slice b)|]. intros m. by case_match.
Qed.

Lemma load_current_typed s lm :
  (run load_current s).1 = Some (Ok lm) → manifest_typed (lm_manifest lm).
Proof.
  destruct (run load_current s) as [r s'] eqn:E. cbn. intros ->. revert E. unfold load_current.
  intros ([[ptr e] v] & s1 & _ & E)%run_bind_ok. cbv beta iota in E. rewrite (run_store (Get _)) in E.
  cbn [answer] in E. destruct (s1 !! key_from (ptr_manifest_path ptr)) as [b|]; [|done].
  rewrite run_bind in E. cbn [lift run get_bytes] in E. rewrite run_bind in E. cbn [lift run] in E.
  rewrite run_bind in E. destruct (from_slice b : result string Manifest) as [m|] eqn:Eb; [|done].
  cbn [lift_json run] in E. destruct (negb _); [done|]. cbn in E. injection E as <- _. cbn.
  by apply from_slice_typed in Eb.
Qed.

Section Sweep.
Context (retention_horizon min_age now : Z) (del : bool).

#[local] Abbreviation now_unix := (timestamp now).
#[local] Abbreviation sweep := (sweep_orphans xxh3_64 last_modified object_size retention_horizon min_age del now).

Definition listed_pins (s : Objects) : list Path :=
  filter (λ k, under pins_dir k = true) (map fst (map_to_list s)).
Definition pins_of (s : Objects) : PinView :=
  foldl (scan_step s now_unix) PinView_init (listed_pins s).
(** The store after the scan. *)
Definition scanned (s : Objects) : Objects :=
  pruned del (expired_at s now_unix) (listed_pins s) s.

Definition plan_of (s : Objects) (current : Manifest) (live : LiveSet) : Plan :=
  let horizon := Z.min (Z.min retention_horizon (pv_floor (pins_of s))) (mf_version current) in
  {| pl_current := current; pl_live := live; pl_pins := pins_of s; pl_horizon := horizon;
     pl_body_floor := match pv_window (pins_of s) with
                      | None => horizon
                      | Some w => Z.min horizon (rw_version w)
                      end;
     pl_now := now; pl_min_age := min_age; pl_min_age_secs := sign_wrap 64 (as_secs min_age) |}.

(** The versions whose manifests the sweep reads. *)
Definition retained (s : Objects) (current : Manifest) (v : Z) : Prop :=
  let horizon := pl_horizon (plan_of s current LiveSet_empty) in
  horizon ≤ v ≤ mf_version current ∨
  v < horizon ∧ (v ∈ pv_points (pins_of s) ∨ ∃ w, pv_window (pins_of s) = Some w ∧ rw_version w = v).

Lemma listed_pins_elem s k : k ∈ listed_pins s ↔ is_Some (s !! k) ∧ under pins_dir k = true.
Proof. apply elem_of_listed. Qed.

Lemma scanned_outside s k : under pins_dir k = false → scanned s !! k = s !! k.
Proof.
  intros Hk. unfold scanned. rewrite pruned_lookup. case_decide as Hd; [|done].
  destruct Hd as (_ & [_ Hu]%listed_pins_elem & _). congruence.
Qed.

Lemma scanned_effect s k :
  scanned s !! k = s !! k ∨ del = true ∧ scanned s !! k = None ∧ expired_at s now_unix k = true.
Proof.
  unfold scanned. rewrite pruned_lookup. case_decide as Hd; [|by left].
  right. by destruct Hd as (? & _ & ?).
Qed.

Lemma scanned_at_version s current v m : at_version (scanned s) current v m ↔ at_version s current v m.
Proof. unfold at_version. by rewrite scanned_outside by apply manifest_not_pin. Qed.

(** The re-check of an undisturbed sweep finds every lease honoured. *)
Lemma run_recheck s horizon :
  run (pins_changed_below_horizon now_unix (pv_honoured (pins_of s)) horizon) (scanned s)
  = (Some (Ok false), scanned s).
Proof.
  unfold pins_changed_below_horizon. rewrite (run_store (ListDir _)). cbn [answer].
  rewrite run_bind. cbn [lift run]. apply run_pins_changed_loop.
  intros k l [Hk Hu]%elem_of_listed Hl He. apply scan_honoured_at; [| |done].
  - right. apply listed_pins_elem. split; [|done].
    destruct (scanned_effect s k) as [<-|(_ & Hnone & _)]; [done|]. rewrite Hnone in Hk. by destruct Hk.
  - revert Hl. unfold lease_at. destruct (scanned_effect s k) as [->|(_ & -> & _)]; done.
Qed.

Lemma extra_versions_elem pv horizon v :
  v ∈ extra_versions (pv_points pv) (pv_window pv) horizon ↔
  v < horizon ∧ (v ∈ pv_points pv ∨ ∃ w, pv_window pv = Some w ∧ rw_version w = v).
Proof.
  unfold extra_versions. rewrite merge_sort_Permutation, elem_of_elements, elem_of_filter, elem_of_union.
  destruct (pv_window pv) as [w|].
  - rewrite elem_of_singleton. split; intros [? [|Hv]]; (split; [done|]); eauto.
    destruct Hv as (w' & [= <-] & <-). auto.
  - split; intros [? [|Hv]]; (split; [done|]); [by left|set_solver|by left|]. by destruct Hv as (w & ? & _).
Qed.

(** An undisturbed sweep is its scan, its two marking loops and the plan they make. *)
Lemma run_sweep s lm :
  (run load_current s).1 = Some (Ok lm) →
  let current := lm_manifest lm in
  let horizon := pl_horizon (plan_of s current LiveSet_empty) in
  run sweep s =
  run (live ← mark_versions current (Z.min retention_horizon (mf_version current))
                (seqZ horizon (mf_version current - horizon + 1)) LiveSet_empty;
       live ← mark_extra (extra_versions (pv_points (pins_of s)) (pv_window (pins_of s)) horizon) live;
       run_plan del (plan_of s current live)) (scanned s).
Proof.
  intros Hload. pose proof (run_reads_only _ s load_current_reads) as Hs.
  unfold sweep_orphans. rewrite run_bind. destruct (run load_current s) as [r s1].
  cbn in Hload, Hs. subst r s1. cbv zeta.
  rewrite (run_store (ListDir _)). cbn [answer]. rewrite run_bind. cbn [lift run].
  rewrite run_bind, (run_scan_pins _ _ _ _ s) by (try apply NoDup_filter, NoDup_fst_map_to_list; done).
  rewrite !run_bind. fold (listed_pins s). fold (scanned s). fold (pins_of s).
  cbn [plan_of pl_horizon]. destruct (run (mark_versions _ _ _ _) _) as [[[live1|]|] s1] eqn:E1; [|done|done].
  apply mark_versions_same in E1 as ->. rewrite !run_bind.
  destruct (run (mark_extra _ _) _) as [[[live2|]|] s2] eqn:E2; [|done|done].
  apply mark_extra_same in E2 as ->. rewrite run_bind. destruct del; [rewrite run_recheck|]; done.
Qed.

Lemma sweep_outcome s lm :
  (run load_current s).1 = Some (Ok lm) →
  let current := lm_manifest lm in
  match run sweep s with
  | (Some (Ok report), s') => ∃ live,
      grown LiveSet_empty live (λ m, ∃ v, retained s current v ∧ at_version s current v m) ∧
      run (run_plan del (plan_of s current live)) (scanned s) = (Some (Ok report), s')
  | (Some (Err _), _) => ∃ v, retained s current v ∧ v ≠ mf_version current ∧
      ¬ loadable s (v <? Z.min retention_horizon (mf_version current)) v
  | (None, _) => False
  end.
Proof.
  intros Hload current. rewrite (run_sweep s lm Hload). fold current.
  set (horizon := pl_horizon (plan_of s current LiveSet_empty)).
  assert (Hh : horizon ≤ Z.min retention_horizon (mf_version current)) by (cbn in horizon; lia).
  rewrite run_bind. match goal with |- context [run (mark_versions ?c ?f ?vs ?l) ?st] =>
    pose proof (run_mark_versions c f vs l st) as Hm;
    destruct (run (mark_versions c f vs l) st) as [[[live1|e]|] s1] end; [| |done].
  2: { destruct Hm as (v & Hv%elem_of_seqZ & Hne & Hl). exists v. split; [left; fold horizon; lia|].
       split; [done|]. unfold loadable in Hl |- *. by rewrite <- (scanned_outside s) by apply manifest_not_pin. }
  destruct Hm as [-> Hg1]. rewrite run_bind. match goal with |- context [run (mark_extra ?vs ?l) ?st] =>
    pose proof (run_mark_extra vs l st) as Hx;
    destruct (run (mark_extra vs l) st) as [[[live2|e]|] s2] end; [| |done].
  2: { destruct Hx as (v & [Hv Hin]%extra_versions_elem & Hl). exists v. split; [by right|].
       split; [lia|]. rewrite (proj2 (Z.ltb_lt v _)) by lia. unfold loadable in Hl |- *.
       by rewrite <- (scanned_outside s) by apply manifest_not_pin. }
  destruct Hx as [-> Hg2].
  destruct (run_plan_effect del (plan_of s current live2) (scanned s)) as (rep & s3 & E3 & _).
  rewrite E3. exists live2. split; [|done]. eapply grown_trans; [|exact Hg1|exact Hg2]. intros m. split.
  - intros (v & [Hv|[Hv Hin]] & Hm).
    + left. exists v. split; [apply elem_of_seqZ; fold horizon in Hv; lia|by apply scanned_at_version].
    + right. unfold at_version in Hm. rewrite (proj2 (Z.eqb_neq v _)) in Hm by (fold horizon in Hv; lia).
      destruct Hm as (b & Hb & Hd). exists v, b. rewrite extra_versions_elem, scanned_outside by apply manifest_not_pin.
      done.
  - intros [(v & Hv%elem_of_seqZ & Hm)|(v & b & [Hv Hin]%extra_versions_elem & Hb & Hd)].
    + exists v. split; [left; fold horizon; lia|by apply scanned_at_version].
    + exists v. split; [by right|]. unfold at_version. rewrite (proj2 (Z.eqb_neq v _)) by lia.
      exists b. by rewrite <- (scanned_outside s) by apply manifest_not_pin.
Qed.

(** ** Leases and the versions they need *)

Lemma leased_at s k l :
  leased s now_unix k l ↔
  k ∈ listed_pins s ∧ lease_at s k = Some l ∧ now_unix ≤ pl_expires_at_unix l.
Proof.
  rewrite listed_pins_elem. unfold leased, lease_at. split.
  - intros (Hu & (b & -> & ->) & He). eauto.
  - intros ([[b Hb] Hu] & Hl & He). rewrite Hb in Hl |- *. split; [done|]. split; [|done].
    exists b. split; [done|]. by destruct (from_slice b : result string PinLease); simplify_eq.
Qed.

Lemma pins_of_honours s k l : leased s now_unix k l → honours (pins_of s) l.
Proof. intros (Hk & Hl & He)%leased_at. by eapply scan_honours. Qed.

Lemma pins_of_justified s : justified s now_unix (listed_pins s) (pins_of s).
Proof.
  apply scan_justified; [done|]. split; [by left|intros v Hv|done]. by apply elem_of_empty in Hv.
Qed.

(** The versions somebody needs: a reader of this process (at or above the
    retention horizon), the current version, or the holder of an unexpired lease. *)
Definition needed (s : Objects) (current_version v : Z) : Prop :=
  v ≤ current_version ∧
  (retention_horizon ≤ v ∨ v = current_version ∨
   (∃ k l, leased s now_unix k l ∧ pl_scope l = Floor ∧ pl_version l ≤ v) ∨
   (∃ k l, leased s now_unix k l ∧ pl_scope l = Point ∧ pl_version l = v) ∨
   (∃ k l since, leased s now_unix k l ∧ pl_scope l = Window since ∧ pl_version l = v ∧
      ∀ k' l' since', leased s now_unix k' l' → pl_scope l' = Window since' → v ≤ pl_version l')).

Lemma needed_retained s current v : needed s (mf_version current) v → retained s current v.
Proof.
  intros [Hle Hn]. unfold retained. cbn [plan_of pl_horizon].
  set (horizon := Z.min _ _). destruct (decide (horizon ≤ v)) as [|Hlt]; [by left|]. right.
  split; [lia|]. destruct Hn as [Hr|[Hc|[(k & l & Hl & Es & Hv)|[(k & l & Hl & Es & Hv)|Hn]]]].
  - lia.
  - lia.
  - pose proof (pins_of_honours s k l Hl) as Hh. unfold honours in Hh. rewrite Es in Hh. lia.
  - pose proof (pins_of_honours s k l Hl) as Hh. unfold honours in Hh. rewrite Es, Hv in Hh. by left.
  - destruct Hn as (k & l & since & Hl & Es & Hv & Hmin). right.
    pose proof (pins_of_honours s k l Hl) as Hh. unfold honours in Hh. rewrite Es in Hh.
    destruct Hh as (w & Hw & Hwv & _). exists w. split; [done|].
    destruct (just_window _ _ _ _ (pins_of_justified s) w Hw) as (k' & l' & since' & Hk' & Hl' & He' & Es' & Hv').
    specialize (Hmin k' l' since' (proj2 (leased_at s k' l') (conj Hk' (conj Hl' He'))) Es'). lia.
Qed.

Lemma retained_needed s current v :
  mf_version current ≤ u64_max → retained s current v → needed s (mf_version current) v.
Proof.
  intros Hmax. pose proof (pins_of_justified s) as [Hf Hp Hw]. unfold retained.
  cbn [plan_of pl_horizon]. set (horizon := Z.min _ _). intros [[Hlo Hhi]|[Hlt Hv]].
  - split; [done|]. destruct (decide (retention_horizon ≤ v)) as [|Hr]; [by left|].
    destruct (decide (v = mf_version current)) as [|Hne]; [right; by left|].
    right; right; left. destruct Hf as [Hf|(k & l & Hk & Hl & He & Es & Hv)]; [lia|].
    exists k, l. split; [by apply leased_at|]. split; [done|lia].
  - split; [lia|]. right; right; right. destruct Hv as [Hv|(w & Ew & Hv)].
    + left. destruct (Hp v Hv) as (k & l & Hk & Hl & He & Es & Hlv). exists k, l.
      split; [by apply leased_at|done].
    + right. destruct (Hw w Ew) as (k & l & since & Hk & Hl & He & Es & Hlv). exists k, l, since.
      split; [by apply leased_at|]. split; [done|]. split; [congruence|]. intros k' l' since' Hl' Es'.
      pose proof (pins_of_honours s k' l' Hl') as Hh. unfold honours in Hh. rewrite Es' in Hh.
      destruct Hh as (w' & Ew' & Hle & _). rewrite Ew in Ew'. injection Ew' as <-. lia.
Qed.

(** What a completed sweep did to one key. *)
Lemma sweep_effect s lm report s' :
  (run load_current s).1 = Some (Ok lm) → run sweep s = (Some (Ok report), s') →
  ∃ live, grown LiveSet_empty live
      (λ m, ∃ v, retained s (lm_manifest lm) v ∧ at_version s (lm_manifest lm) v m) ∧
    (∀ k, s' !! k = s !! k ∨ del = true ∧ s' !! k = None ∧
       (expired_at s now_unix k = true ∧ under pins_dir k = true ∨
        condemned (plan_of s (lm_manifest lm) live) k ∨
        k = memtable_snapshot ∧ too_young now (sign_wrap 64 (as_secs min_age)) k = false)) ∧
    (∀ k, del = true → condemned (plan_of s (lm_manifest lm) live) k → s' !! k = None).
Proof.
  intros Hload Hrun. pose proof (sweep_outcome s lm Hload) as Ho. rewrite Hrun in Ho.
  destruct Ho as (live & Hg & Hp).
  destruct (run_plan_effect del (plan_of s (lm_manifest lm) live) (scanned s)) as (rep & s1 & E & Hk & Hd).
  rewrite Hp in E. injection E as <- <-. exists live. split; [done|]. split; [|done]. intros k.
  destruct (Hk k) as [->|(-> & -> & [Hc|Hc])]; [|right; auto|right; auto].
  unfold scanned. rewrite pruned_lookup. case_decide as D; [|by left].
  destruct D as (-> & [_ Hu]%listed_pins_elem & He). right. auto.
Qed.

(** The keys a version consists of. *)
Inductive version_key (v : Z) (m : Manifest) : Path → Prop :=
| version_body : version_key v m (manifest_version v)
| version_object rest :
    references m ("sst/" +:+ rest) → version_key v m (absolute ("sst/" +:+ rest))
| version_segment q : is_u64 q → q ∈ manifest_seqs m → version_key v m (wal_segment q).

Lemma sweep_spares s lm report s' :
  (run load_current s).1 = Some (Ok lm) → run sweep s = (Some (Ok report), s') →
  ∃ live, grown LiveSet_empty live
      (λ m, ∃ v, retained s (lm_manifest lm) v ∧ at_version s (lm_manifest lm) v m) ∧
    ∀ k, under pins_dir k = false → k ≠ memtable_snapshot →
      ¬ condemned (plan_of s (lm_manifest lm) live) k → s' !! k = s !! k.
Proof.
  intros Hload Hrun. destruct (sweep_effect s lm report s' Hload Hrun) as (live & Hg & Hk & _).
  exists live. split; [done|]. intros k Hu Hs Hc.
  destruct (Hk k) as [|(_ & _ & [[_ ?]|[?|[? _]]])]; [done|congruence|done|done].
Qed.

Lemma needed_key_kept s lm report s' v m k :
  (run load_current s).1 = Some (Ok lm) → run sweep s = (Some (Ok report), s') →
  is_u64 v → needed s (mf_version (lm_manifest lm)) v → at_version s (lm_manifest lm) v m →
  version_key v m k → s' !! k = s !! k.
Proof.
  intros Hload Hrun Hv Hn%needed_retained Hm Hk.
  destruct (sweep_spares s lm report s' Hload Hrun) as (live & Hg & Hkeep).
  destruct (grown_marked _ _ _ Hg m (ex_intro _ v (conj Hn Hm))) as [Hpaths Hseqs].
  destruct Hk as [|rest Hr|q Hq Hin].
  - apply Hkeep; [apply manifest_not_pin|by intros ?%symmetry%snapshot_not_manifest|].
    apply body_not_condemned; [done|]. cbn [plan_of pl_horizon pl_body_floor pl_pins].
    destruct Hn as [[Hlo _]|[_ [Hp|(w & Ew & Hw)]]]; [by left|by right; right|].
    right; left. rewrite Ew. lia.
  - apply Hkeep; [apply sst_not_pin|apply absolute_not_snapshot|].
    by apply referenced_not_condemned, Hpaths, references_paths.
  - apply Hkeep; [apply wal_not_pin|apply wal_not_snapshot|].
    by apply segment_not_condemned, Hseqs.
Qed.

Lemma pointer_kept s lm report s' n :
  (run load_current s).1 = Some (Ok lm) → run sweep s = (Some (Ok report), s') →
  is_u64 n → retention_horizon ≤ n ∨ mf_version (lm_manifest lm) ≤ n →
  s' !! pointer_version n = s !! pointer_version n.
Proof.
  intros Hload Hrun Hn Hle. destruct (sweep_spares s lm report s' Hload Hrun) as (live & _ & Hkeep).
  apply Hkeep; [apply pointer_not_pin|apply pointer_not_snapshot|].
  apply pointer_not_condemned; [done|]. cbn [plan_of pl_horizon]. lia.
Qed.

(** ** The theorems *)

(** C33: the sweep keeps everything a needed version consists of. A version is needed
    when a reader of this process may hold it (at or above the retention horizon),
    when it is current, or when an unexpired lease asks for it: a floor lease for
    every version from its own up, a point lease for its version, the oldest window
    lease for its floor. Its manifest body, every SST object and sidecar it
    references and every WAL segment it lists are after the sweep what they were
    before; the advisory pointer and every pointer from the horizon up as well. *)
Theorem sweep_keeps_needed s lm report s' v m :
  (run load_current s).1 = Some (Ok lm) →
  run sweep s = (Some (Ok report), s') →
  is_u64 v → needed s (mf_version (lm_manifest lm)) v → at_version s (lm_manifest lm) v m →
  s' !! manifest_version v = s !! manifest_version v ∧
  (∀ rest, references m ("sst/" +:+ rest) →
     s' !! absolute ("sst/" +:+ rest) = s !! absolute ("sst/" +:+ rest)) ∧
  (∀ q, is_u64 q → q ∈ manifest_seqs m → s' !! wal_segment q = s !! wal_segment q) ∧
  s' !! current_pointer = s !! current_pointer ∧
  (∀ n, is_u64 n → retention_horizon ≤ n ∨ mf_version (lm_manifest lm) ≤ n →
     s' !! pointer_version n = s !! pointer_version n).
Proof.
  intros Hload Hrun Hv Hn Hm.
  assert (Hkey : ∀ k, version_key v m k → s' !! k = s !! k) by eauto using needed_key_kept.
  do 3 (split; [by intros; apply Hkey; constructor|]).
  split; [|by intros; eapply pointer_kept].
  destruct (sweep_spares s lm report s' Hload Hrun) as (live & _ & Hkeep). apply Hkeep.
  - by rewrite ks_pins_dir, ks_current, under_below.
  - by intros ?%symmetry%snapshot_not_current.
  - apply current_not_condemned.
Qed.

(** The restore window. Under an unexpired window lease the sweep keeps every
    manifest body from the lease's version up, and every object outside the manifest
    directory written since the window opened, less [min_age] (the checkpoint apart,
    which belongs to the current version only). *)
Lemma sweep_keeps_window s lm report s' k0 l since :
  (run load_current s).1 = Some (Ok lm) →
  run sweep s = (Some (Ok report), s') →
  leased s now_unix k0 l → pl_scope l = Window since →
  (∀ v, is_u64 v → pl_version l ≤ v → s' !! manifest_version v = s !! manifest_version v) ∧
  (∀ k, under manifest_dir k = false → k ≠ memtable_snapshot →
     is_instant (last_modified k) → since - min_age ≤ last_modified k → 0 ≤ min_age →
     s' !! k = s !! k).
Proof.
  intros Hload Hrun Hl Es.
  destruct (sweep_effect s lm report s' Hload Hrun) as (live & _ & Hk & _).
  pose proof (pins_of_honours s k0 l Hl) as Hh. unfold honours in Hh. rewrite Es in Hh.
  destruct Hh as (w & Ew & Hwv & Hws). split.
  - intros v Hv Hle. destruct (Hk (manifest_version v)) as [|(_ & _ & [[_ Hu]|[Hc|[Hc _]]])]; [done| | |].
    + by rewrite manifest_not_pin in Hu.
    + exfalso. revert Hc. apply body_not_condemned; [done|]. right; left.
      cbn [plan_of pl_body_floor]. rewrite Ew. lia.
    + by apply symmetry, snapshot_not_manifest in Hc.
  - intros k Hm Hs Hi Hsince Hage. destruct (Hk k) as [|(_ & _ & [[_ Hu]|[Hc|[? _]]])]; [done| | |done].
    + apply pins_in_manifest in Hu. congruence.
    + exfalso. apply condemned_outside_window in Hc; [|done]. revert Hc.
      cbn [plan_of pl_pins pl_min_age]. unfold in_window, window_keep_since. rewrite Ew.
      rewrite Z.leb_gt. intros Hc. revert Hc.
      destruct (from_std min_age) as [d|] eqn:Ed; cbn; [|pose proof (MIN_UTC_least _ Hi); lia].
      apply from_std_nanos in Ed as ->.
      destruct (checked_sub_signed (rw_since w) min_age) as [u|] eqn:Eu; cbn;
        [|pose proof (MIN_UTC_least _ Hi); lia].
      apply checked_sub_signed_exact in Eu as ->. lia.
Qed.

(** The sweep only reclaims. Whatever it changes it deletes, and only when asked
    to: an expired lease, or an object at least [min_age] old; a dry run leaves the
    store as it is. *)
Theorem sweep_only_reclaims s lm report s' k :
  (run load_current s).1 = Some (Ok lm) →
  run sweep s = (Some (Ok report), s') →
  s' !! k = s !! k ∨
  del = true ∧ s' !! k = None ∧
  (expired_at s now_unix k = true ∨ sign_wrap 64 (as_secs min_age) ≤ num_seconds (now - last_modified k)).
Proof.
  intros Hload Hrun. destruct (sweep_effect s lm report s' Hload Hrun) as (live & _ & Hk & _).
  assert (Hy : ∀ k, too_young now (sign_wrap 64 (as_secs min_age)) k = false →
    sign_wrap 64 (as_secs min_age) ≤ num_seconds (now - last_modified k)).
  { intros k'. unfold Janitor.too_young. by rewrite Z.ltb_ge. }
  destruct (Hk k) as [|(-> & -> & [[? _]|[Hc|[_ Hc]]])]; [by left| | |]; right; auto.
  split; [done|]. split; [done|]. right. apply Hy. by apply condemned_old in Hc.
Qed.

(** No needed version's manifest has the property. *)
Definition unneeded (s : Objects) (current : Manifest) (has : Manifest → Prop) : Prop :=
  ∀ v m, needed s (mf_version current) v → at_version s current v m → ¬ has m.

Definition no_window (s : Objects) : Prop :=
  ∀ k l since, leased s now_unix k l → pl_scope l ≠ Window since.

Lemma no_window_none s : no_window s → pv_window (pins_of s) = None.
Proof.
  intros Hnw. destruct (pv_window (pins_of s)) as [w|] eqn:E; [|done]. exfalso.
  destruct (just_window _ _ _ _ (pins_of_justified s) w E) as (k & l & since & Hk & Hl & He & Es & _).
  apply (Hnw k l since); [by apply leased_at|done].
Qed.

(** Below the horizon and unleased: a version nobody needs. *)
Lemma unneeded_below s current v :
  mf_version current ≤ u64_max → v ≤ mf_version current → ¬ needed s (mf_version current) v →
  v < pl_horizon (plan_of s current LiveSet_empty) ∧ v ∉ pv_points (pins_of s).
Proof.
  intros Hmax Hle Hn.
  destruct (decide (v < pl_horizon (plan_of s current LiveSet_empty))) as [Hlt|Hge].
  - split; [done|]. intros Hp. apply Hn, retained_needed; [done|]. right. auto.
  - exfalso. apply Hn, retained_needed; [done|]. left. lia.
Qed.

Lemma condemn_sst s current live rel f :
  no_window s → rel ∉ referenced live → String.prefix "sst/" rel = true →
  level_file rel = Some f → f ≠ "" → contains "/" f = false →
  too_young now (sign_wrap 64 (as_secs min_age)) (absolute rel) = false →
  condemned (plan_of s current live) (absolute rel).
Proof.
  intros Hnw Hr Hpre Hf Hne Hc Hy. apply condemned_sst.
  - unfold absolute. rewrite under_below. cbn. done.
  - unfold sst_verdict. rewrite strip_absolute, Hf. apply String.eqb_neq in Hne. rewrite Hne, Hc. cbn [orb].
    rewrite bool_decide_false by done. cbn [plan_of pl_pins pl_now pl_min_age_secs pl_min_age].
    by rewrite (no_window_none s Hnw), Hy.
Qed.

Lemma condemn_wal s current live q :
  no_window s → is_u64 q → q ∉ referenced_wal live →
  too_young now (sign_wrap 64 (as_secs min_age)) (wal_segment q) = false →
  condemned (plan_of s current live) (wal_segment q).
Proof.
  intros Hnw Hq Hr Hy. apply condemned_wal; [apply wal_listed|].
  unfold wal_verdict. rewrite wal_file_segment, bool_decide_false by done.
  cbn [plan_of pl_pins pl_now pl_min_age_secs pl_min_age]. by rewrite (no_window_none s Hnw), Hy.
Qed.

Lemma condemn_body s current live v :
  mf_version current ≤ u64_max → no_window s → is_u64 v → v ≤ mf_version current →
  ¬ needed s (mf_version current) v → contains "/pins/" (manifest_version v) = false →
  too_young now (sign_wrap 64 (as_secs min_age)) (manifest_version v) = false →
  condemned (plan_of s current live) (manifest_version v).
Proof.
  intros Hmax Hnw Hv Hle Hn Hc Hy. destruct (unneeded_below s current v Hmax Hle Hn) as [Hlt Hp].
  apply condemned_manifest; [apply manifest_in_dir|]. unfold manifest_verdict, listed_manifest.
  rewrite Hc, manifest_filename, manifest_file_body by done.
  cbn [plan_of pl_horizon pl_body_floor pl_pins pl_now pl_min_age_secs] in Hlt |- *.
  rewrite (no_window_none s Hnw), (proj2 (Z.leb_gt _ v)) by done. cbn [negb andb orb].
  by rewrite bool_decide_false, Hy.
Qed.


(** C31: a [pins] segment in the namespace key disables manifest reclamation. When
    the namespace prefix ends in [/pins], as for the valid namespace name [pins]
    below a root, every body and pointer file has the substring the sweep takes for
    a pin lease, and no sweep ever deletes one, however old and unneeded. *)
Theorem pins_namespace_never_reclaimed s lm report s' base n :
  namespace_prefix = base +:+ "/pins" →
  (run load_current s).1 = Some (Ok lm) → run sweep s = (Some (Ok report), s') →
  s' !! manifest_version n = s !! manifest_version n ∧ s' !! pointer_version n = s !! pointer_version n.
Proof.
  intros Hbase Hload Hrun. destruct (sweep_effect s lm report s' Hload Hrun) as (live & _ & Hk & _).
  assert (Hkeep : ∀ rest, under pins_dir (namespace_prefix +:+ "/manifest/" +:+ rest) = false →
    s' !! (namespace_prefix +:+ "/manifest/" +:+ rest) = s !! (namespace_prefix +:+ "/manifest/" +:+ rest)).
  { intros rest Hp. destruct (Hk (namespace_prefix +:+ "/manifest/" +:+ rest))
      as [|(_ & _ & [[_ Hu]|[[Hu Hv|Hu Hv|Hu Hv]|[Hc _]]])]; [done| | | | |].
    - congruence.
    - by rewrite under_below in Hu.
    - exfalso. revert Hv. unfold manifest_verdict, listed_manifest. rewrite Hbase, string_app_assoc.
      rewrite contains_app; [done|]. by exists ("manifest/" +:+ rest).
    - by rewrite ks_wal_dir, under_below in Hu.
    - exfalso. revert Hc. rewrite ks_snapshot. by intros ?%String.app_inj. }
  split.
  - pose proof (manifest_not_pin n) as Hp. rewrite ks_manifest in Hp |- *. by apply (Hkeep ("v" +:+ _)).
  - pose proof (pointer_not_pin n) as Hp. rewrite ks_pointer in Hp |- *. by apply (Hkeep ("pointer/p" +:+ _)).
Qed.
End Sweep.

(** ** A pinned reader *)

(** A holder's lease is one the sweep honours, as long as the pin has not lapsed for
    its holder and the clocks differ by at most a quarter of the lifetime. *)
Lemma backed_leased s pin h now :
  under pins_dir (pin_path pin) = true → pin_backed s pin → lapsed pin h = false →
  timestamp now ≤ h + ttl_secs pin / 4 →
  leased s (timestamp now) (pin_path pin) (lease_of pin).
Proof.
  intros Hu (b & Hb & Hd) Hl Hc. split; [done|]. split; [eauto|].
  pose proof (not_lapsed_unexpired pin h (timestamp now) Hl Hc). cbn. lia.
Qed.

(** C35: acquiring a pin protects the version. After a floor or point pin on version
    [v] was acquired, a sweep by any process whose clock is within a quarter of the
    lease's lifetime of the holder's, run while the pin has not lapsed for its
    holder, keeps every object version [v] consists of. *)
Theorem acquired_version_survives s uuid v scope ttl t0 pin s1 h
    retention_horizon min_age now del lm report s' m k :
  scope = Floor ∨ scope = Point → is_u64 v → clean_segment (uuid +:+ ".json") = true →
  run (acquire_scoped uuid v scope ttl t0) s = (Some (Ok pin), s1) →
  lapsed pin h = false → timestamp now ≤ h + ttl_secs pin / 4 →
  (run load_current s1).1 = Some (Ok lm) →
  run (sweep_orphans xxh3_64 last_modified object_size retention_horizon min_age del now) s1
  = (Some (Ok report), s') →
  v ≤ mf_version (lm_manifest lm) → at_version s1 (lm_manifest lm) v m →
  version_key v m k → s' !! k = s1 !! k.
Proof.
  intros Hscope Hv Hid Hacq Hl Hc Hload Hrun Hle Hm Hk.
  apply run_write_lease in Hacq as (Ep & Ev & Es & _ & Hb & _); [|done]. cbn in Ep, Ev, Es.
  assert (Hu : under pins_dir (pin_path pin) = true).
  { rewrite Ep, ks_pin, ks_pins_dir, under_below by done.
    pose proof (prefix_app "/manifest/pins/" "" (uuid +:+ ".json")) as Hp.
    by rewrite string_app_nil_r, prefix_nil in Hp. }
  pose proof (backed_leased s1 pin h now Hu Hb Hl Hc) as Hleased.
  eapply needed_key_kept; [done|done|done| |done|done]. split; [done|].
  destruct Hscope as [-> | ->].
  - right; right; left. exists (pin_path pin), (lease_of pin). cbn. rewrite Ev. done.
  - right; right; right; left. exists (pin_path pin), (lease_of pin). done.
Qed.

(** ** The namespace after a sweep *)

(** Recovery reads nothing but the segments the manifest lists. *)
Lemma run_read_segment_same crc32 seq s s' :
  s' !! wal_segment seq = s !! wal_segment seq →
  run (read_segment crc32 seq) s' = ((run (read_segment crc32 seq) s).1, s').
Proof.
  intros E. unfold read_segment. rewrite !(run_store (Get _)). cbn [answer]. rewrite E.
  by destruct (s !! wal_segment seq).
Qed.

Lemma run_replay_segments_same `{!Bincode WalEntry entry_typed} crc32 floor segs mt mx n s s' :
  (∀ d, d ∈ segs → s' !! wal_segment (wd_seq d) = s !! wal_segment (wd_seq d)) →
  run (replay_segments crc32 floor segs mt mx n) s' = ((run (replay_segments crc32 floor segs mt mx n) s).1, s').
Proof.
  intros Hs. revert mt mx n. induction segs as [|d segs IH]; intros mt mx n; [done|].
  cbn [replay_segments]. specialize (IH (λ d' Hd, Hs d' (list_elem_of_further _ _ _ Hd))).
  case_match; [apply IH|]. rewrite !run_bind.
  rewrite (run_read_segment_same crc32 (wd_seq d) s s') by (apply Hs; by left).
  assert (Hr : (run (read_segment crc32 (wd_seq d)) s).2 = s).
  { unfold read_segment. rewrite (run_store (Get _)). cbn [answer].
    by destruct (s !! wal_segment (wd_seq d)). }
  destruct (run (read_segment crc32 (wd_seq d)) s) as [[[seg|e]|] s1]; cbn [fst snd] in Hr |- *; [|done|done].
  subst s1. case_match; [done|]. rewrite !run_bind. cbn [run].
  destruct (replay_records _ _ _ _ _ _) as [[[mt' mx'] n']|]; [apply IH|done].
Qed.

(** A sweep does not disturb the namespace. Where a load returns version [n],
    it still does after a completed sweep with any parameters; recovering that
    version's memtable from its WAL segments gives the same result; and the state
    stays one to which this applies again. *)
Theorem namespace_survives_sweep `{!Bincode WalEntry entry_typed} crc32
    retention_horizon min_age now del s n m report s' :
  head_of s n m → (∀ q, q ∈ manifest_seqs m → is_u64 q) →
  run (sweep_orphans xxh3_64 last_modified object_size retention_horizon min_age del now) s
  = (Some (Ok report), s') →
  run load_current s' = (Some (Ok (loaded_as n m)), s') ∧
  (run (recover_memtable crc32 xxh3_64 m) s').1 = (run (recover_memtable crc32 xxh3_64 m) s).1 ∧
  head_of s' n m.
Proof.
  intros Hh Hq Hrun. pose proof (run_load_head s n m Hh) as Hload.
  assert (Hload' : (run load_current s).1 = Some (Ok (loaded_as n m))) by by rewrite Hload.
  pose proof Hh as (Hp & Hnone & Hmax & Hall). pose proof Hp as (Hu & (b & Hb & Hd & Hv) & pb & Hpb & Hpd).
  assert (Hcur : mf_version (lm_manifest (loaded_as n m)) = n) by done.
  assert (Hkey : ∀ k, version_key n m k → s' !! k = s !! k).
  { intros k Hk. eapply (needed_key_kept _ _ _ _ s _ report s' n m); try done.
    - split; [lia|]. right; left. done.
    - unfold at_version. by rewrite Hcur, Z.eqb_refl. }
  destruct (sweep_effect _ _ _ _ s _ report s' Hload' Hrun) as (live & _ & Hk & _).
  assert (Hsub : ∀ k, is_Some (s' !! k) → is_Some (s !! k)).
  { intros k [x Hx]. destruct (Hk k) as [<-|(_ & E & _)]; [eauto|congruence]. }
  assert (Hh' : head_of s' n m).
  { split; [|split; [|split; [done|]]].
    - split; [done|]. split.
      + exists b. by rewrite (Hkey _ (version_body n m)).
      + exists pb. erewrite pointer_kept; [done|done|done|done|]. right. lia.
    - apply eq_None_not_Some. intros Hx%Hsub. rewrite Hnone in Hx. by destruct Hx.
    - intros k v Hx%Hsub. by apply Hall. }
  split; [by apply run_load_head|]. split; [|done].
  unfold recover_memtable, recover_memtable_with_snapshot, replay_manifest.
  destruct (mf_wal_segments m) as [|d ds] eqn:Ew; [done|]. rewrite !run_bind, <- Ew.
  rewrite (run_replay_segments_same crc32 0 _ _ _ _ s s').
  - destruct (run (replay_segments _ _ _ _ _ _) s) as [[[[[]]|]|] ?]; done.
  - intros d' Hd'. rewrite merge_sort_Permutation in Hd'. apply Hkey, version_segment; [apply Hq|]; by apply list_elem_of_fmap_2.
Qed.
End Safety.
