(* ===== verification/RestoreSafety.v ===== *)
(** Correctness of the restore point window: the binary search finds the newest
    version at an instant, a refresh moves the window's floor forward and never past
    the retention, and the sweep keeps every restore point of a refreshed window. *)
From S2P Require Import Prelude StorageError ManifestTypes Paths ObjectStore Memtable Recovery ManifestProtocol ManifestSafety ManifestLiveness Pins Janitor RestorePoint JanitorSafety.

Section Restore.
Context `{!KeySpace} `{!JsonCodec Manifest manifest_typed} `{!JsonCodec ManifestPointer pointer_typed}.
Context `{!JsonCodec Header header_typed} `{!JsonCodec WindowLeaseBody window_typed} `{!Chrono}.
Context `{!ManifestHeader}.
Implicit Types (s : Objects) (c : Z → Z).

(** The versions from [lo] to [hi] are readable, version [v] committed at [c v]. *)
Definition history (s : Objects) (c : Z → Z) (lo hi : Z) : Prop :=
  ∀ v, lo ≤ v ≤ hi → ∃ b m, s !! manifest_version v = Some b ∧ from_slice b = Ok m ∧
    mf_version m = v ∧ mf_created_at m = c v.
(** Commit times follow the version order. *)
Definition ordered (c : Z → Z) (lo hi : Z) : Prop := ∀ u v, lo ≤ u ≤ v → v ≤ hi → c u ≤ c v.

Definition point_at (c : Z → Z) (v : Z) : RestorePoint := {| rp_version := v; rp_created_at := c v |}.

Lemma run_load_restore_point s c lo hi v :
  history s c lo hi → lo ≤ v ≤ hi → run (load_restore_point v) s = (Some (Ok (point_at c v)), s).
Proof.
  intros Hh Hv. destruct (Hh v Hv) as (b & m & Hb & Hd & Hmv & Hc).
  apply header_of_manifest in Hd. unfold load_restore_point. rewrite (run_store (Get _)). cbn [answer].
  rewrite Hb, !run_bind. cbn [lift run get_bytes]. rewrite !run_bind. cbn [lift run]. rewrite run_bind.
  rewrite Hd. cbn [lift_json run hd_version hd_created_at]. rewrite Hmv, Z.eqb_refl, Hc. done.
Qed.

Lemma bisect_correct s c fuel lo hi t :
  history s c lo hi → lo < hi → hi - lo ≤ 2 ^ Z.of_nat fuel → c lo ≤ t < c hi →
  ∃ p, run (bisect (S fuel) (point_at c lo) (point_at c hi) t) s = (Some (Ok (point_at c p)), s) ∧
    lo ≤ p < hi ∧ c p ≤ t < c (p + 1).
Proof.
  revert lo hi. induction fuel as [|fuel IH]; intros lo hi Hh Hlt Hd Ht.
  { exists lo. cbn [bisect point_at rp_version]. rewrite (proj2 (Z.ltb_ge 1 (hi - lo))) by lia.
    split; [done|]. replace (lo + 1) with hi by lia. lia. }
  cbn [bisect]. change (rp_version (point_at c ?v)) with v. fold (bisect (S fuel)).
  destruct (Z.ltb_spec 1 (hi - lo)) as [Hgt|Hle].
  2: { exists lo. split; [done|]. replace (lo + 1) with hi by lia. lia. }
  set (mid := lo + (hi - lo) / 2).
  assert (Hmid : lo < mid < hi ∧ hi - mid ≤ 2 ^ Z.of_nat fuel ∧ mid - lo ≤ 2 ^ Z.of_nat fuel).
  { rewrite Nat2Z.inj_succ, Z.pow_succ_r in Hd by lia. unfold mid.
    Z.to_euclidean_division_equations. lia. }
  rewrite run_bind, (run_load_restore_point s c lo hi mid) by (done || lia).
  change (rp_created_at (point_at c mid)) with (c mid). destruct (Z.leb_spec (c mid) t).
  - destruct (IH mid hi) as (p & E & Hp & Hc); [intros v Hv; apply Hh; lia|lia|lia|lia|].
    exists p. split; [exact E|]. lia.
  - destruct (IH lo mid) as (p & E & Hp & Hc); [intros v Hv; apply Hh; lia|lia|lia|lia|].
    exists p. split; [exact E|]. lia.
Qed.

(** What the search answers. *)
Definition newest_answer (c : Z → Z) (lo hi t : Z) (r : option RestorePoint) : Prop :=
  match r with
  | None => t < c lo ∧ t < c hi
  | Some p => ∃ v, p = point_at c v ∧ lo ≤ v ≤ hi ∧ c v ≤ t ∧ (v = hi ∨ t < c (v + 1))
  end.

Lemma run_newest s c lo hi t :
  history s c lo hi → is_u64 lo → is_u64 hi → lo ≤ hi →
  ∃ r, run (newest_at_or_before (point_at c lo) (point_at c hi) t) s = (Some (Ok r), s) ∧
    newest_answer c lo hi t r.
Proof.
  intros Hh Hlo Hhi Hle. unfold newest_at_or_before. cbn [point_at rp_created_at].
  destruct (Z.leb_spec (c hi) t) as [|Hgt].
  { eexists. split; [done|]. exists hi. split; [done|]. split; [lia|]. split; [done|]. by left. }
  destruct (Z.ltb_spec t (c lo)); [by eexists|].
  assert (lo ≠ hi) by (intros ->; lia).
  destruct (bisect_correct s c 64 lo hi t) as (p & E & Hp & Hc); [done|lia|unfold is_uint in *; lia|lia|].
  rewrite run_bind. change BISECT_FUEL with 65%nat. rewrite E. eexists. split; [done|].
  exists p. split; [done|]. split; [lia|]. split; [lia|]. right. lia.
Qed.

Lemma newest_ordered c lo hi t v u :
  ordered c lo hi → lo ≤ v ≤ hi → c v ≤ t → v = hi ∨ t < c (v + 1) → lo ≤ u ≤ hi →
  c u ≤ t ↔ u ≤ v.
Proof.
  intros Ho Hv Hc Hnext Hu. split; intros Hcmp.
  - destruct (decide (u ≤ v)) as [|Hgt]; [done|exfalso].
    destruct Hnext as [->|Hnext]; [lia|]. pose proof (Ho (v + 1) u ltac:(lia) ltac:(lia)). lia.
  - pose proof (Ho u v ltac:(lia) ltac:(lia)). lia.
Qed.

(** The search over the retained versions terminates and finds the restore point
    of an instant. It answers [None] only when even the oldest version is later;
    otherwise a version committed at or before the instant whose successor was
    committed after it, and when commit times follow the version order, exactly the
    newest version committed at or before the instant. *)
Theorem newest_restore_point s c lo hi t :
  history s c lo hi → is_u64 lo → is_u64 hi → lo ≤ hi →
  ∃ r, run (newest_at_or_before (point_at c lo) (point_at c hi) t) s = (Some (Ok r), s) ∧
    match r with
    | None => t < c lo
    | Some p => ∃ v, p = point_at c v ∧ lo ≤ v ≤ hi ∧ c v ≤ t ∧ (v = hi ∨ t < c (v + 1)) ∧
        (ordered c lo hi → ∀ u, lo ≤ u ≤ hi → c u ≤ t ↔ u ≤ v)
    end.
Proof.
  intros Hh Hlo Hhi Hle. destruct (run_newest s c lo hi t Hh Hlo Hhi Hle) as (r & E & Hr).
  exists r. split; [done|]. destruct r as [p|]; [|apply Hr].
  destruct Hr as (v & -> & Hv & Hc & Hn). exists v. do 4 (split; [done|]).
  intros Ho u Hu. by eapply newest_ordered.
Qed.

(** ** Refreshing the window *)

(** The lease a refresh at [now] writes for floor [f]. *)
Definition window_body (c : Z → Z) (retention renew_margin now f : Z) : WindowLeaseBody :=
  {| wl_version := f;
     wl_expires_at_unix := timestamp (default MAX_UTC
       (d ← from_std (duration_saturating_add retention renew_margin); checked_add_signed now d));
     wl_scope := Window (c f); wl_retention_secs := as_secs retention |}.

(** The store holds the unexpired window lease [w], with a floor not above [n]. *)
Definition window_held (s : Objects) (now n : Z) (w : WindowLeaseBody) : Prop :=
  (∃ b since, s !! pin_object RESTORE_POINT_LEASE_ID = Some b ∧ from_slice b = Ok w ∧
     wl_scope w = Window since) ∧
  timestamp now ≤ wl_expires_at_unix w ∧ wl_version w ≤ n.

Lemma run_read_window_lease s now n w :
  window_held s now n w → run read_window_lease s = (Some (Ok (Some w)), s).
Proof.
  intros [(b & since & Hb & Hd & Hs) _]. unfold read_window_lease. rewrite (run_store (Get _)).
  cbn [answer]. rewrite Hb, run_bind. cbn [lift run get_bytes]. by rewrite Hd, Hs.
Qed.

(** The manifest a load returns is the newest point of the history. *)
Lemma head_point s n m c lo : head_of s n m → history s c lo n → lo ≤ n → RestorePoint_of m = point_at c n.
Proof.
  intros ((_ & (b & Hb & Hd & Hv) & _) & _) Hh Hle.
  destruct (Hh n ltac:(lia)) as (b' & m' & Hb' & Hd' & Hv' & Hc'). rewrite Hb in Hb'.
  injection Hb' as <-. rewrite Hd in Hd'. injection Hd' as <-.
  unfold RestorePoint_of, point_at. by rewrite Hv, Hc'.
Qed.

Lemma window_held_lease s now n c w :
  window_held s now n w →
  ∃ l, held_lease now (point_at c n) (Some w) = Some l ∧ rp_version (rl_floor l) = wl_version w.
Proof.
  intros ((b & since & _ & _ & Es) & He & Hle). unfold held_lease, live_lease.
  rewrite (proj2 (Z.ltb_ge _ _)), Es by done. cbn [rl_floor rp_version point_at].
  rewrite (proj2 (Z.leb_le _ _)) by done. by eexists.
Qed.

(** The floor a refresh with start of retention [cutoff] moves from [lo] to. *)
Definition floor_moved (c : Z → Z) (lo n cutoff f : Z) : Prop :=
  lo ≤ f ≤ n ∧ (∀ v, lo ≤ v ≤ n → c v ≤ cutoff → v ≤ f) ∧ (c f ≤ cutoff ∨ f = lo).

Lemma run_choose_floor s c n held cutoff :
  let lo := rp_version (rl_floor held) in
  history s c lo n → ordered c lo n → is_u64 lo → is_u64 n → lo ≤ n →
  ∃ f, run (choose_floor (Some held) (point_at c n) cutoff) s = (Some (Ok (point_at c f)), s) ∧
    floor_moved c lo n cutoff f.
Proof.
  intros lo Hh Ho Hlo Hn Hle. destruct (run_newest s c lo n cutoff Hh Hlo Hn Hle) as (r & En & Hr).
  unfold choose_floor. rewrite run_bind, run_attempt. fold lo.
  rewrite (run_load_restore_point s c lo n) by (done || lia). rewrite run_bind, En.
  destruct r as [p|].
  - destruct Hr as (v & -> & Hv & Hc & Hnx). exists v. split; [done|]. split; [done|].
    split; [|by left]. intros u Hu Hcu. by apply (newest_ordered c lo n cutoff v u Ho Hv Hc Hnx Hu).
  - destruct Hr as [Hlt _]. exists lo. split; [done|]. split; [lia|]. split; [|by right].
    intros v Hv Hcv. pose proof (Ho lo v ltac:(lia) ltac:(lia)). lia.
Qed.

(** A refresh moves the window's floor forward, and only as far as the retention
    allows. It terminates and writes a lease whose floor is not below the previous
    one and not above the current version; every version committed at or before the
    start of the retention period is at or below the floor; and the floor itself was
    committed by then, unless it did not move. *)
Theorem refresh_moves_floor s n m c w retention renew_margin now :
  head_of s n m → 0 < retention → window_held s now n w →
  history s c (wl_version w) n → ordered c (wl_version w) n →
  (∀ f, wl_version w ≤ f ≤ n → ∃ b, to_vec (window_body c retention renew_margin now f) = Ok b) →
  ∃ f b lease,
    run (refresh_restore_point_lease_at retention renew_margin now) s
    = (Some (Ok (Some lease)), <[pin_object RESTORE_POINT_LEASE_ID := b]> s) ∧
    to_vec (window_body c retention renew_margin now f) = Ok b ∧
    rl_floor lease = point_at c f ∧ floor_moved c (wl_version w) n (cutoff_of retention now) f.
Proof.
  intros Hhead Hret Hw Hh Ho Hvec. pose proof Hw as ((wb & since & _ & Hd & _) & _ & Hle).
  apply from_slice_typed in Hd as [Hu _]. pose proof (head_point s n m c _ Hhead Hh Hle) as Hlast.
  destruct (window_held_lease s now n c w Hw) as (held & Ehd & Hfl). rewrite <- Hfl in *.
  destruct (run_choose_floor s c n held (cutoff_of retention now)) as (f & Ef & Hf);
    [done|done|done|apply Hhead|done|].
  destruct (Hvec f (proj1 Hf)) as (b & Eb).
  refine (ex_intro _ f (ex_intro _ b (ex_intro _ _ (conj _ (conj Eb (conj _ Hf)))))).
  - unfold refresh_restore_point_lease_at. rewrite (proj2 (Z.eqb_neq retention 0)) by lia.
    rewrite run_bind, (run_load_head s n m Hhead). cbn [lm_manifest loaded_as LoadedManifest_new].
    rewrite Hlast, run_bind, (run_read_window_lease s now n w Hw), Ehd, run_bind, Ef.
    cbn [rp_version rp_created_at point_at]. fold (window_body c retention renew_margin now f).
    rewrite run_bind, Eb. cbn [lift_json run]. by rewrite (run_store (PutOverwrite _ _)).
  - done.
Qed.

(** ** The window and the sweep *)

Section Window.
Context `{!JsonCodec PinLease lease_typed} `{!WindowLease}.
Context `{!Bincode MemtableSnapshotFile snapshot_typed}.
Context `{!Bincode MemtableSnapshotBindingV2 binding_typed}.
Context (xxh3_64 : list byte → Z) (last_modified object_size : Path → Z).

(** The store holds [w], as a refresh wrote it. *)
Definition window_written (s : Objects) (w : WindowLeaseBody) (since : Z) : Prop :=
  ∃ b, s !! pin_object RESTORE_POINT_LEASE_ID = Some b ∧ to_vec w = Ok b ∧ window_typed w ∧
    wl_scope w = Window since.

Definition lease_view (w : WindowLeaseBody) : PinLease :=
  {| pl_version := wl_version w; pl_expires_at_unix := wl_expires_at_unix w; pl_scope := wl_scope w |}.

Lemma window_written_leased s w since now_unix :
  window_written s w since → now_unix ≤ wl_expires_at_unix w →
  leased s now_unix (pin_object RESTORE_POINT_LEASE_ID) (lease_view w).
Proof.
  intros (b & Hb & Hw & Ht & _) He. split; [|split; [|done]].
  - rewrite ks_pin, ks_pins_dir, under_below by done. done.
  - exists b. split; [done|]. by apply lease_of_window.
Qed.

Lemma key_outside_manifests v m k :
  version_key v m k → k ≠ manifest_version v → under manifest_dir k = false ∧ k ≠ memtable_snapshot.
Proof.
  intros [|rest _|q _ _] Hne; [done| |].
  - split; [apply sst_not_in_manifest|apply absolute_not_snapshot].
  - split; [apply wal_not_in_manifest|apply wal_not_snapshot].
Qed.

(** C36: the sweep keeps every restore point of the window. While the window lease a
    refresh wrote is unexpired and is the only window lease, every version from its
    floor to the current one keeps all its objects, under the rule the design states:
    an object such a version references belongs to the floor version or was written
    since the floor's commit, less the sweep's [min_age]. *)
Theorem restore_points_survive s w since lm retention_horizon min_age now del report s' mf v m k :
  window_written s w since → timestamp now ≤ wl_expires_at_unix w →
  (∀ k' l' since', leased s (timestamp now) k' l' → pl_scope l' = Window since' →
     k' = pin_object RESTORE_POINT_LEASE_ID) →
  (run load_current s).1 = Some (Ok lm) →
  run (sweep_orphans xxh3_64 last_modified object_size retention_horizon min_age del now) s
  = (Some (Ok report), s') →
  wl_version w ≤ v ≤ mf_version (lm_manifest lm) → is_u64 v → 0 ≤ min_age →
  at_version s (lm_manifest lm) (wl_version w) mf → at_version s (lm_manifest lm) v m →
  (∀ k', version_key v m k' → k' ≠ manifest_version v →
     version_key (wl_version w) mf k' ∨
     is_instant (last_modified k') ∧ since - min_age ≤ last_modified k') →
  version_key v m k → s' !! k = s !! k.
Proof.
  intros Hw He Honly Hload Hrun Hv Huv Hage Hmf Hm Hrule Hk.
  pose proof (window_written_leased s w since _ Hw He) as Hl. pose proof Hw as (b & _ & _ & [Huw _] & Es).
  destruct (sweep_keeps_window xxh3_64 last_modified object_size _ _ _ _ s lm report s' _ _ since
    Hload Hrun Hl Es) as [Hbodies Hrecent].
  destruct (decide (k = manifest_version v)) as [->|Hne]; [apply Hbodies; [done|apply Hv]|].
  destruct (key_outside_manifests v m k Hk Hne) as [Hout Hns].
  destruct (Hrule k Hk Hne) as [Hfl|[Hi Hsince]]; [|by apply Hrecent].
  eapply needed_key_kept; [done|done| | |exact Hmf|exact Hfl]; [done|]. split; [lia|].
  do 4 right. exists (pin_object RESTORE_POINT_LEASE_ID), (lease_view w), since.
  do 3 (split; [done|]). intros k' l' since' Hl' Es'. pose proof (Honly k' l' since' Hl' Es') as ->.
  destruct Hl as (_ & (b1 & Hb1 & Hd1) & _), Hl' as (_ & (b2 & Hb2 & Hd2) & _).
  rewrite Hb1 in Hb2. injection Hb2 as <-. rewrite Hd1 in Hd2. injection Hd2 as <-. done.
Qed.
End Window.
End Restore.
