(* ===== verification/SessionSafety.v ===== *)
(** The commit pipeline of a writer session under concurrency ([ingest.rs]).

    The specifications hold against any number of other clients and under every
    fault, as long as no DELETE takes effect. An acknowledged commit is a published
    manifest version that references the durable WAL segment; a failed commit leaves
    the session as it was, but for the poison flag. *)
From S2P Require Import Prelude StorageError Wal Memtable ManifestTypes DescriptorIndex Paths ManifestProtocol ObjectStore Recovery WriterSession SessionStaging ManifestSafety.

Section SessionSafety.
Context `{!KeySpace} `{!JsonCodec Manifest manifest_typed} `{!JsonCodec ManifestPointer pointer_typed}.
Context `{!Bincode WalEntry entry_typed} `{!Bincode MemtableSnapshotFile snapshot_typed}.
Context `{!Bincode MemtableSnapshotBindingV2 binding_typed}.
Context (crc32 xxh3_64 : list byte → Z).
Context (md : Mode) (Hmd : with_deletes md = false).
#[local] Abbreviation spec := (wpe md Inv ext).

(** The records of the batch, sealed as segment [seq]. *)
Definition sealed (ses : WriterSession) (seq : Z) : list byte :=
  WalSegment_encode crc32 {| seg_seq := seq; seg_records := seg_records (ws_pending ses) |}.

Definition segment_at (w : World) (ses : WriterSession) (seq : Z) : Prop :=
  w_objs w !! wal_segment seq = Some (sealed ses seq).

(** [lm] is the published successor of the session's manifest: it references segment
    [seq] by content hash, that segment holds the batch, and the SSTs are those of
    the session. *)
Definition acked (w : World) (ses : WriterSession) (seq : Z) (lm : LoadedManifest) : Prop :=
  loaded w lm ∧
  mf_version (lm_manifest lm) = wrapping_add64 (mf_version (lm_manifest (ws_current ses))) 1 ∧
  (∃ d, d ∈ mf_wal_segments (lm_manifest lm) ∧ wd_seq d = seq ∧
        wd_xxh3 d = Some (xxh3_64 (sealed ses seq))) ∧
  segment_at w ses seq ∧
  mf_ssts (lm_manifest lm) = mf_ssts (lm_manifest (ws_current ses)) ∧
  mf_label_dict (lm_manifest lm) = ws_label_dict ses.

Lemma acked_ext w w' ses seq lm : ext w w' → acked w ses seq lm → acked w' ses seq lm.
Proof.
  intros He (Hl & Hv & Hd & Hs & Hc). split_and!; [stable|done|done| |apply Hc|apply Hc].
  by apply (ext_wal _ _ He).
Qed.
#[local] Hint Resolve acked_ext : namidb.

(** The same session, possibly poisoned. *)
Definition kept (ses ses' : WriterSession) : Prop := ses' = ses ∨ ses' = set_poisoned ses.

Lemma spec_append_segment i ses w :
  spec i (append_segment crc32 (ws_pending ses))
    (λ _ w', segment_at w' ses (seg_seq (ws_pending ses))) w.
Proof.
  unfold append_segment. apply (wpe_store md Inv ext). intros w1 r w2 He1 Hi1 Hs.
  apply step_create in Hs as [Hcase Hok].
  assert (Hsafe : Inv w2 ∧ ext w1 w2).
  { destruct Hcase as [->|[[Hc Ho]|[Hc Ho]]]; [done| |];
      (eapply (create_other i); [apply wal_not_listed|apply wal_not_current|done|done|auto]). }
  destruct Hsafe as [Hi2 He2]. split_and!; [done|done|].
  destruct r as [m|[]]; [|done|done|done]. apply wpe_ret. intros w3 He3 Hi3.
  apply (ext_wal _ _ He3). destruct (Hok m eq_refl) as [[_ ->] _]. rewrite lookup_insert_eq.
  unfold sealed. by destruct (ws_pending ses).
Qed.

Lemma build_next_typed w ses seq lsn now :
  loaded w (ws_current ses) → manifest_typed (build_next crc32 xxh3_64 ses seq lsn now).
Proof.
  intros (m & Hp & _ & Hc). apply same_content_fields in Hc as [_ He]. apply published_typed in Hp.
  split; [apply wrapping_add64_typed|]. simpl. rewrite He. apply Hp.
Qed.

(** The descriptor [build_next] appends. *)
Definition fresh_descriptor (ses : WriterSession) (seq lsn : Z) : WalSegmentDescriptor :=
  {| wd_seq := seq; wd_path := wal_segment seq; wd_last_lsn := lsn;
     wd_xxh3 := Some (xxh3_64 (WalSegment_encode crc32 (ws_pending ses))) |}.

Lemma build_next_segments ses seq lsn now :
  mf_wal_segments (build_next crc32 xxh3_64 ses seq lsn now)
  = mf_wal_segments (lm_manifest (ws_current ses)) ++ [fresh_descriptor ses seq lsn].
Proof. done. Qed.

Lemma spec_neutralize i paths w : spec i (neutralize paths) (λ _ _, True) w.
Proof.
  revert w. induction paths as [|p paths IH]; intros w; [done|]. cbn [neutralize].
  apply (wpe_store md Inv ext). intros w1 r w2 He Hi Hs.
  apply (step_no_delete md i w1 p r w2 Hmd) in Hs as ->. split_and!; [done|done|].
  destruct r as [[]|[]]; [apply IH|apply IH|by apply wpe_ret|by apply wpe_ret].
Qed.

Lemma sealed_pending ses :
  WalSegment_encode crc32 (ws_pending ses) = sealed ses (seg_seq (ws_pending ses)).
Proof. unfold sealed. by destruct (ws_pending ses). Qed.

(** A loaded manifest of the version whose body was put is that body. *)
Lemma prepared_loaded w fence base new ptr lm :
  prepared w fence base new ptr → loaded w lm → mf_version (lm_manifest lm) = mf_version new →
  mf_ssts (lm_manifest lm) = mf_ssts new ∧ mf_label_dict (lm_manifest lm) = mf_label_dict new.
Proof.
  intros (_ & _ & (m & (b & Hb & Hd & _) & Hc) & _) (m' & (_ & (b' & Hb' & Hd' & Hv') & _) & _ & Hc') Hv.
  pose proof (same_content_fields _ _ Hc') as [Hv'' _]. rewrite <- Hv', <- Hv'', Hv in Hb'.
  assert (m' = m) as -> by congruence.
  unfold same_content, with_created_at in Hc, Hc'. injection Hc as _ _ _ E1 _ E2 _. injection Hc' as _ _ _ E3 _ E4 _.
  by rewrite E1, E2, E3, E4.
Qed.

Lemma spec_resolve i ses seq lsn now cas_err ptr w :
  seq = seg_seq (ws_pending ses) → segment_at w ses seq →
  prepared w (ws_fence ses) (ws_current ses) (build_next crc32 xxh3_64 ses seq lsn now) ptr →
  spec i (resolve_failed_pointer_cas ses (for_manifest (build_next crc32 xxh3_64 ses seq lsn now)) seq cas_err)
    (λ '(r, ses') w', kept ses ses' ∧
       match r with Ok lm => ses' = ses ∧ acked w' ses seq lm | Err _ => True end) w.
Proof.
  intros -> Hseg Hprep. unfold resolve_failed_pointer_cas.
  eapply (wpe_try md Inv ext); [by apply spec_load_current| |].
  2:{ intros e w1 He1 Hi1. apply wpe_ret. intros w2 He2 Hi2. split; [by right|done]. }
  intros lm w1 He1 Hi1 (Hl & Hv & _).
  case_match; [apply wpe_ret; intros w2 He2 Hi2; split; [by right|done]|].
  destruct (_ && _ && _ && _) eqn:Eours.
  - apply wpe_ret. intros w2 He2 Hi2. split; [by left|]. split; [done|].
    apply andb_prop in Eours as [Eours Hex]. apply andb_prop in Eours as [Eours _].
    apply andb_prop in Eours as [Ev _]. apply Z.eqb_eq in Ev.
    apply existsb_exists in Hex as (d & Hin & Hd). apply andb_prop in Hd as [Hd1 Hd2].
    apply Z.eqb_eq in Hd1. apply bool_decide_eq_true in Hd2.
    unfold for_manifest in Hd2. cbn [pc_wal_xxh3] in Hd2.
    rewrite build_next_segments, last_snoc in Hd2. simpl in Hd2. rewrite sealed_pending in Hd2.
    destruct (prepared_loaded w1 _ _ _ _ lm (prepared_ext _ _ _ _ _ _ He1 Hprep) Hl Ev) as [Hss Hld].
    apply (acked_ext w1); [done|]. split_and!; [done|done| |by apply (ext_wal _ _ He1)|done|done].
    exists d. split_and!; [by apply list_elem_of_In|done|done].
  - case_match; [apply wpe_ret; intros w2 He2 Hi2; split; [by left|done]|].
    apply (wpe_bind md Inv ext). eapply (wpe_weaken md Inv ext); [|apply spec_neutralize].
    intros [e|] w2 He2 Hi2 _; apply wpe_ret; intros w3 He3 Hi3; (split; [|done]); [by right|by left].
Qed.

Lemma spec_publish i ses lsn now ptr w :
  let seq := seg_seq (ws_pending ses) in
  let next := build_next crc32 xxh3_64 ses seq lsn now in
  prepared w (ws_fence ses) (ws_current ses) next ptr → segment_at w ses seq →
  spec i (publish ses next ptr seq)
    (λ '(r, ses') w', kept ses ses' ∧
       match r with Ok lm => ses' = ses ∧ acked w' ses seq lm | Err _ => True end) w.
Proof.
  intros seq next Hprep Hseg. unfold publish.
  eapply (wpe_try md Inv ext); [by apply spec_cas_pointer| |].
  - intros lm w1 He1 Hi1 (Hl & Hm & _). apply wpe_ret. intros w2 He2 Hi2. split; [by left|].
    split; [done|]. apply (acked_ext w1); [done|]. split_and!; [done| | |by apply (ext_wal _ _ He1)|by rewrite Hm|by rewrite Hm].
    + by rewrite Hm.
    + exists (fresh_descriptor ses seq lsn). rewrite Hm. unfold next. rewrite build_next_segments.
      split_and!; [set_solver|done|]. simpl. by rewrite sealed_pending.
  - intros e w1 He1 Hi1.
    assert (Hres : spec i (resolve_failed_pointer_cas ses (for_manifest next) seq e)
      (λ '(r, ses') w', kept ses ses' ∧
         match r with Ok lm => ses' = ses ∧ acked w' ses seq lm | Err _ => True end) w1).
    { apply (spec_resolve _ _ _ _ _ _ ptr); [done|by apply (ext_wal _ _ He1)|by eapply prepared_ext]. }
    destruct e; try exact Hres; (apply wpe_ret; intros w2 He2 Hi2; split; [by left|done]).
Qed.

Lemma spec_commit_body_first i ses lsn now w :
  let seq := seg_seq (ws_pending ses) in
  let next := build_next crc32 xxh3_64 ses seq lsn now in
  loaded w (ws_current ses) →
  spec i (commit_body_first crc32 ses next)
    (λ '(r, ses') w', kept ses ses' ∧
       match r with Ok lm => ses' = ses ∧ acked w' ses seq lm | Err _ => True end) w.
Proof.
  intros seq next Hl. unfold commit_body_first.
  eapply (wpe_try md Inv ext); [apply spec_put_body; [done|done|by eapply build_next_typed]| |].
  2:{ intros e w1 He1 Hi1. apply wpe_ret. intros w2 He2 Hi2. split; [by left|done]. }
  intros ptr w1 He1 Hi1 Hprep. eapply (wpe_try md Inv ext); [apply spec_append_segment| |].
  2:{ intros e w2 He2 Hi2. apply wpe_ret. intros w3 He3 Hi3. split; [by left|done]. }
  intros path w2 He2 Hi2 Hseg. apply spec_publish; [|done]. stable.
Qed.

Lemma list_segments_reads : reads_only list_segments.
Proof.
  unfold list_segments. apply reads_only_store; [done|]. intros r.
  apply reads_only_bind; [by destruct r|]. intros l. by apply reads_only_bind.
Qed.

(** A successful commit at [seq] of a session that differs from [ses] only in the
    sequence number of its pending segment; a failed one keeps [ses]. *)
Definition committed_post (ses : WriterSession) (x : Result (Z * LoadedManifest) * WriterSession)
    (w : World) : Prop :=
  match x with
  | (Ok (seq, lm), ses') => ses' = set_pending_seq ses seq ∧ acked w ses seq lm
  | (Err _, ses') => kept ses ses'
  end.

Lemma set_pending_seq_self ses : set_pending_seq ses (seg_seq (ws_pending ses)) = ses.
Proof. by destruct ses as [????????[]???????]. Qed.

Lemma kept_reseq ses ses' seq :
  kept (set_pending_seq ses seq) ses' →
  kept ses (set_poisoned (set_pending_seq ses' (seg_seq (ws_pending ses)))).
Proof. intros [-> | ->]; right; by destruct ses as [????????[]???????]. Qed.

Lemma spec_commit_reseq i ses check now w :
  loaded w (ws_current ses) →
  spec i (commit_reseq crc32 xxh3_64 ses check now) (committed_post ses) w.
Proof.
  intros Hl. unfold commit_reseq. destruct check as [[]|e]; [|apply wpe_ret; intros; by left].
  eapply (wpe_try md Inv ext); [apply (wpe_reads md Inv ext), list_segments_reads| |].
  2:{ intros e w1 He1 Hi1. apply wpe_ret. intros w2 He2 Hi2. by left. }
  intros listed w1 He1 Hi1 _. set (fresh := match last listed with Some r => _ | None => _ end).
  apply (wpe_bind md Inv ext). eapply (wpe_weaken md Inv ext);
    [|exact (spec_commit_body_first i (set_pending_seq ses fresh) _ now w1 (loaded_ext _ _ _ He1 Hl))].
  intros [[lm|e] ses'] w2 He2 Hi2 [Hk Hr]; apply wpe_ret; intros w3 He3 Hi3.
  - destruct Hr as [-> Hack]. split; [done|]. exact (acked_ext w2 w3 _ _ _ He3 Hack).
  - by eapply kept_reseq.
Qed.

Lemma spec_commit_durable i ses sched check now now' w :
  loaded w (ws_current ses) →
  spec i (commit_durable crc32 xxh3_64 ses sched check now now') (committed_post ses) w.
Proof.
  intros Hl. unfold commit_durable. set (seq := seg_seq (ws_pending ses)).
  set (next := build_next _ _ _ _ _ _). apply (wpe_bind md Inv ext).
  pose proof (wp_pjoin md Inv ext i _ _ sched _ _ w (spec_append_segment i ses w)
    (spec_put_body md Hmd i (ws_fence ses) (ws_current ses) next w Hl
       (build_next_typed w ses seq _ now Hl))) as Hj.
  eapply (wp_weaken md Inv ext); [|exact Hj].
  intros [[wal_r body_r]|e] w1 He1 Hi1 Hx; [|done]. destruct Hx as [Hseg Hprep].
  destruct wal_r as [path|e].
  - destruct body_r as [ptr|e]; [|apply wpe_ret; intros; by left].
    apply (wpe_bind md Inv ext). eapply (wpe_weaken md Inv ext); [|by apply spec_publish].
    intros [[lm|e] ses'] w2 He2 Hi2 [Hk Hr]; apply wpe_ret; intros w3 He3 Hi3; [|done].
    destruct Hr as [-> Hack]. split; [by rewrite set_pending_seq_self|stable].
  - destruct e; try (apply wpe_ret; intros; by left). apply spec_commit_reseq. stable.
Qed.

(** ** The whole commit *)

Lemma spec_snapshot_tick i ses w :
  spec i (snapshot_tick xxh3_64 ses)
    (λ ses' _, ∃ age, ses' = set_commits_since_snapshot ses age) w.
Proof.
  unfold snapshot_tick. case_match; [|apply wpe_ret; intros; by eexists].
  unfold write_memtable_snapshot_inner, write_memtable_snapshot_for_manifest, write_memtable_snapshot_with_binding.
  eapply (wpe_try md Inv ext) with (Ψ := λ _ _, True).
  - apply (wpe_bind md Inv ext), wpe_pure. intros b w1 _ He1 Hi1. apply (wpe_store md Inv ext).
    intros w2 r w3 He2 Hi2 [Ho Hs]%step_overwrite.
    destruct (overwrite_snapshot b w2 w3 Hi2 Ho Hs) as [Hi3 He3]. split_and!; [done|done|].
    apply (wpe_bind md Inv ext), wpe_lift. by intros.
  - intros _ w1 He1 Hi1 _. apply wpe_ret. intros. eexists. by destruct ses.
  - intros e w1 He1 Hi1. apply wpe_ret. intros. by eexists.
Qed.

(** What [commit_batch] guarantees when it returns. *)
Definition commit_post (ses : WriterSession) (x : Result CommitOutcome * WriterSession) (w : World)
    : Prop :=
  match x with
  | (Ok Empty, ses') => ses' = ses ∧ seg_records (ws_pending ses) = []
  | (Ok (Committed seq lsn records version), ses') =>
      acked w ses seq (ws_current ses') ∧
      version = mf_version (lm_manifest (ws_current ses')) ∧
      lsn = last_lsn (ws_pending ses) ∧ records = length (seg_records (ws_pending ses)) ∧
      seg_records (ws_pending ses) ≠ [] ∧
      ∃ lm age, ses' = set_commits_since_snapshot (drain_batch (set_pending_seq ses seq) seq lm) age
  | (Err _, ses') => kept ses ses'
  end.

Lemma spec_commit_batch i ses sched check check' now now' w :
  loaded w (ws_current ses) →
  spec i (commit_batch crc32 xxh3_64 ses sched check check' now now') (commit_post ses) w.
Proof.
  intros Hl. unfold commit_batch. destruct (ws_poisoned ses); [apply wpe_ret; intros; by left|].
  destruct (WalSegment_is_empty (ws_pending ses)) eqn:Ee.
  { apply wpe_ret. intros w1 _ _. split; [done|]. unfold WalSegment_is_empty in Ee.
    by destruct (seg_records (ws_pending ses)). }
  destruct check as [[]|e]; [|apply wpe_ret; intros; by left].
  apply (wpe_bind md Inv ext). eapply (wpe_weaken md Inv ext); [|by apply spec_commit_durable].
  intros [[[seq lm]|e] ses'] w1 He1 Hi1 Hp; [|by apply wpe_ret]. destruct Hp as [-> Hack].
  apply (wpe_bind md Inv ext). eapply (wpe_weaken md Inv ext); [|apply spec_snapshot_tick].
  intros ses' w2 He2 Hi2 [age ->]. apply wpe_ret. intros w3 He3 Hi3.
  split_and!; [|done|done|done| |by eexists _, _].
  2:{ unfold WalSegment_is_empty in Ee. by destruct (seg_records (ws_pending ses)). }
  apply (acked_ext w1); [by trans w2|done].
Qed.

(** ** Opening a session *)

Lemma read_segment_reads seq : reads_only (read_segment crc32 seq).
Proof.
  unfold read_segment. apply reads_only_store; [done|]. intros r.
  apply reads_only_bind; [by destruct r|]. intros res. by apply reads_only_bind.
Qed.

Lemma replay_segments_reads floor segs m mx n : reads_only (replay_segments crc32 floor segs m mx n).
Proof.
  revert m mx n. induction segs as [|d segs IH]; intros m mx n; cbn [replay_segments]; [done|].
  case_match; [apply IH|]. apply reads_only_bind; [apply read_segment_reads|]. intros seg.
  case_match; [done|]. apply reads_only_bind; [done|]. intros [[m' mx'] n']. apply IH.
Qed.

Lemma replay_manifest_reads m mt mx floor used : reads_only (replay_manifest crc32 m mt mx floor used).
Proof.
  unfold replay_manifest. destruct (mf_wal_segments m); [done|].
  apply reads_only_bind; [apply replay_segments_reads|]. by intros [[? ?] ?].
Qed.

Lemma recover_reads m b : reads_only (recover_memtable_with_snapshot crc32 xxh3_64 m b).
Proof.
  unfold recover_memtable_with_snapshot. destruct b; [|apply replay_manifest_reads].
  apply reads_only_bind; [by apply reads_only_store|]. intros [snap|]; [|apply replay_manifest_reads].
  case_match; apply replay_manifest_reads.
Qed.

(** A fresh session holds a published manifest, the fence of its epoch and an empty
    batch. *)
Definition open_post (ses : WriterSession) (w : World) : Prop :=
  loaded w (ws_current ses) ∧ f_epoch (ws_fence ses) = mf_epoch (lm_manifest (ws_current ses)) ∧
  ws_payloads ses = [] ∧ seg_records (ws_pending ses) = [] ∧ ws_poisoned ses = false ∧
  ws_published ses = snapshot_view (ws_memtable ses).

Lemma spec_open_claiming i fuel uuids now every mine observe w :
  spec i (open_claiming crc32 xxh3_64 fuel uuids now every mine observe) open_post w.
Proof.
  unfold open_claiming.
  assert (Htail : ∀ current fence w1,
    loaded w1 current → f_epoch fence = mf_epoch (lm_manifest current) →
    spec i (recovered ← recover_memtable_with_snapshot crc32 xxh3_64 (lm_manifest current) true;
            let next_lsn := Z.max (saturating_add64 (Z.max (rm_max_lsn recovered) (max_sst_lsn (lm_manifest current))) 1) 1 in
            listed ← list_segments;
            let next_wal_seq := match last listed with Some r => saturating_add64 (ref_seq r) 1 | None => 1 end in
            let session :=
              {| ws_fence := fence; ws_current := current; ws_memtable := rm_memtable recovered;
                 ws_published := snapshot_view (rm_memtable recovered); ws_next_lsn := next_lsn;
                 ws_durable_lsn := saturating_sub64 next_lsn 1; ws_dropped_batches := 0;
                 ws_next_wal_seq := next_wal_seq; ws_pending := WalSegment_new next_wal_seq;
                 ws_payloads := []; ws_staged := Memtable_new; ws_node_mutations := false;
                 ws_auto_snapshot_every := every; ws_commits_since_snapshot := 0;
                 ws_poisoned := false; ws_label_dict := mf_label_dict (lm_manifest current) |} in
            _ ← Ret (observe current (rm_memtable recovered));
            mret session) open_post w1).
  { intros current fence w1 Hl Hf. apply (wpe_bind md Inv ext).
    eapply (wpe_weaken md Inv ext); [|apply (wpe_reads md Inv ext), recover_reads].
    intros rec w2 He2 Hi2 _. apply (wpe_bind md Inv ext).
    eapply (wpe_weaken md Inv ext); [|apply (wpe_reads md Inv ext), list_segments_reads].
    intros listed w3 He3 Hi3 _. apply (wpe_bind md Inv ext), wpe_pure. intros [] w4 _ He4 Hi4.
    apply wpe_ret. intros w5 He5 Hi5. split; [stable|done]. }
  eapply (wpe_try md Inv ext); [by apply spec_load_current| |].
  - intros lm w1 He1 Hi1 _. apply (wpe_bind md Inv ext). unfold claim_writer_unless_newer.
    eapply (wpe_weaken md Inv ext); [|exact (spec_claim_loop crc32 xxh3_64 md Hmd i fuel uuids now 0 mine 0 0 None w1)].
    intros [current fence] w2 He2 Hi2 (base & (Hl & _) & Hf & _). by apply Htail.
  - intros e w1 He1 Hi1. apply (wpe_bind md Inv ext). destruct e as [[]| | | | | | | | | | | | | | | | | |];
      try done. apply (wpe_bind md Inv ext).
    eapply (wpe_weaken md Inv ext); [|by apply spec_bootstrap]. intros lm w2 He2 Hi2 (Hl & _).
    apply wpe_ret. intros w3 He3 Hi3. apply Htail; [stable|done].
Qed.

Lemma commit_post_loaded ses res ses' w :
  loaded w (ws_current ses) → commit_post ses (res, ses') w → loaded w (ws_current ses').
Proof.
  intros Hl. destruct res as [[|seq lsn n v]|e]; simpl.
  - by intros [-> _].
  - by intros ((Hl' & _) & _).
  - by intros [-> | ->].
Qed.

Lemma commit_post_ext w w' ses x : ext w w' → commit_post ses x w → commit_post ses x w'.
Proof.
  intros He. destruct x as [[[|seq lsn n v]|e] ses']; simpl; [done| |done].
  intros (Ha & Hrest). split; [stable|done].
Qed.
End SessionSafety.
#[export] Hint Resolve acked_ext : namidb.
