(* ===== verification/KwayMerge.v ===== *)
(** The k-way merge of sorted runs by key and log sequence number.

    The streaming merges of [compact.rs] pop, among the current rows of their
    sources, the one with the least key, then the highest LSN, then the earliest
    source, and keep the first row popped per key. [kstep] is one such pop on the
    rows still to come; the theorem says what the kept rows are: sorted by key, and
    for every key the newest row of any source. *)
From S2P Require Import Prelude.

(** [BinaryHeap<Reverse<A>>] as the list of its elements: [pop] takes the least. *)
Fixpoint pop_min {A} (lt : A → A → bool) (heap : list A) : option (A * list A) :=
  match heap with
  | [] => None
  | x :: heap' =>
      match pop_min lt heap' with
      | Some (m, rest) => if lt m x then Some (m, x :: rest) else Some (x, heap')
      | None => Some (x, heap')
      end
  end.

Lemma pop_min_None {A} (lt : A → A → bool) heap : pop_min lt heap = None ↔ heap = [].
Proof. destruct heap as [|x heap]; simpl; [done|]. split; [|done]. repeat case_match; done. Qed.

Lemma pop_min_Some {A} (lt : A → A → bool) heap m rest :
  (∀ a b c, lt a b = false → lt b c = false → lt a c = false) → (∀ a, lt a a = false) →
  (∀ a b, lt a b = true → lt b a = false) →
  pop_min lt heap = Some (m, rest) → heap ≡ₚ m :: rest ∧ ∀ y, y ∈ rest → lt y m = false.
Proof.
  intros Htrans Hirr Hasym. revert m rest. induction heap as [|x heap IH]; simpl; [done|]. intros m rest.
  destruct (pop_min lt heap) as [[m' rest']|] eqn:Hp.
  - destruct (IH _ _ eq_refl) as [Hperm Hmin]. destruct (lt m' x) eqn:Hlt; intros [= <- <-].
    + split; [by rewrite Hperm; constructor|]. intros y [->|Hy]%elem_of_cons; auto.
    + split; [done|]. intros y. rewrite Hperm. intros [->|Hy]%elem_of_cons; [done|]. eauto.
  - intros [= <- <-]. apply pop_min_None in Hp as ->. split; [done|]. intros y Hy. by apply elem_of_nil in Hy.
Qed.

Section kway.
Context {K R : Type} `{EqDecision K} (klt : relation K).
Context (key : R → K) (lsn : R → Z) (tomb : R → bool).

(** The row of a run with the key. *)
Definition find_row (k : K) (rows : list R) : option R :=
  List.find (λ r, bool_decide (key r = k)) rows.

(** Last LSN wins: a candidate replaces the winner only if it is strictly newer. *)
Definition newer (winner candidate : option R) : option R :=
  match candidate, winner with
  | None, _ => winner
  | Some _, None => candidate
  | Some r, Some w => if lsn w <? lsn r then candidate else winner
  end.

Definition newest (k : K) (srcs : list (list R)) : option R :=
  foldl newer None (map (find_row k) srcs).

(** What a merge keeps of a winner. *)
Definition kept (gc : bool) (o : option R) : option R :=
  match o with
  | Some r => if gc && tomb r then None else Some r
  | None => None
  end.

Definition run (rows : list R) : Prop := StronglySorted (λ a b, klt (key a) (key b)) rows.

(** The heap order: key ascending, LSN descending, source ascending. *)
Definition before (a b : R * nat) : Prop :=
  klt (key a.1) (key b.1) ∨
  (key a.1 = key b.1 ∧ (lsn b.1 < lsn a.1 ∨ (lsn a.1 = lsn b.1 ∧ (a.2 < b.2)%nat))).

Definition emit (gc : bool) (last : option K) (r : R) (out : list R) : list R :=
  if decide (last = Some (key r)) then out
  else if gc && tomb r then out else out ++ [r].

Inductive kstep (gc : bool) : list (list R) → option K → list R →
    list (list R) → option K → list R → Prop :=
| kstep_pop rem last out i r rest :
    rem !! i = Some (r :: rest) →
    (∀ j r' rest', rem !! j = Some (r' :: rest') → j ≠ i → before (r, i) (r', j)) →
    kstep gc rem last out (<[i := rest]> rem) (Some (key r)) (emit gc last r out).

Context (klt_trans : ∀ a b c, klt a b → klt b c → klt a c) (klt_irrefl : ∀ a, ¬ klt a a).
Context (klt_total : ∀ a b, klt a b ∨ a = b ∨ klt b a).

Lemma find_row_Some k rows r : find_row k rows = Some r → r ∈ rows ∧ key r = k.
Proof using Type.
  intros [Hin Hk%bool_decide_eq_true]%List.find_some. by rewrite list_elem_of_In.
Qed.

Lemma find_row_None k rows : (∀ r, r ∈ rows → key r ≠ k) → find_row k rows = None.
Proof using Type.
  intros Hno. destruct (find_row k rows) as [r|] eqn:Hf; [|done].
  apply find_row_Some in Hf as [Hin Hk]. by destruct (Hno r).
Qed.

Lemma find_row_is_None k rows r : find_row k rows = None → r ∈ rows → key r ≠ k.
Proof using Type.
  intros Hf Hin Hk. apply list_elem_of_In in Hin.
  pose proof (List.find_none _ _ Hf _ Hin) as Hb. simpl in Hb. by rewrite bool_decide_true in Hb.
Qed.

Lemma run_find k rows r : run rows → r ∈ rows → key r = k → find_row k rows = Some r.
Proof.
  induction 1 as [|x rows Hs IH Hall]; intros Hin Hk; [by apply elem_of_nil in Hin|].
  unfold find_row. simpl. apply elem_of_cons in Hin as [<-|Hin]; [by rewrite bool_decide_true|].
  rewrite bool_decide_false; [by apply IH|]. intros Hx. rewrite Forall_forall in Hall.
  apply (klt_irrefl k). rewrite <- Hx at 1. rewrite <- Hk. by apply Hall.
Qed.

Lemma find_row_snoc k rows r : find_row k (rows ++ [r]) =
  match find_row k rows with Some x => Some x | None => if decide (key r = k) then Some r else None end.
Proof using Type.
  unfold find_row. induction rows as [|x rows IH]; simpl.
  - destruct (decide (key r = k)); [by rewrite bool_decide_true|by rewrite bool_decide_false].
  - by case_bool_decide.
Qed.

(** ** The newest row *)

Lemma foldl_newer_None cs : Forall (λ c, c = None) cs → ∀ w, foldl newer w cs = w.
Proof using Type. induction 1 as [|c cs -> _ IH]; intros w; [done|]. apply IH. Qed.

Lemma foldl_newer_keep cs w :
  Forall (λ c, ∀ r, c = Some r → lsn r ≤ lsn w) cs → foldl newer (Some w) cs = Some w.
Proof using Type.
  induction 1 as [|[r|] cs Hc _ IH]; [done| |done]. simpl.
  assert ((lsn w <? lsn r) = false) as -> by (specialize (Hc r eq_refl); lia). done.
Qed.

(** The first of the newest candidates wins. *)
Lemma foldl_newer_at cs i r :
  cs !! i = Some (Some r) →
  (∀ j r', cs !! j = Some (Some r') → lsn r' < lsn r ∨ (lsn r' = lsn r ∧ (i ≤ j)%nat)) →
  foldl newer None cs = Some r.
Proof using Type.
  intros Hi Hmax. rewrite <- (take_drop_middle _ _ _ Hi), foldl_app.
  set (w := foldl newer None (take i cs)). change (foldl newer (newer w (Some r)) (drop (S i) cs) = Some r).
  assert (∀ x, w = Some x → lsn x < lsn r) as Hw.
  { assert (Forall (λ c, ∀ x, c = Some x → lsn x < lsn r) (take i cs)) as Hall.
    { apply Forall_lookup_2. intros j c [Hj Hlt]%lookup_take_Some x ->.
      destruct (Hmax _ _ Hj) as [?|[_ ?]]; [done|lia]. }
    subst w. assert (∀ x, (None : option R) = Some x → lsn x < lsn r) as H0 by done.
    revert H0. generalize (None : option R). induction Hall as [|c cs' Hc _ IH]; intros w0 Hw0; [done|].
    apply IH. intros x. destruct c as [y|], w0 as [w1|]; simpl; try case_match; intros [= <-]; eauto. }
  assert (newer w (Some r) = Some r) as ->.
  { destruct w as [x|]; [|done]. simpl. specialize (Hw x eq_refl).
    by destruct (lsn x <? lsn r) eqn:?; [|lia]. }
  apply foldl_newer_keep, Forall_lookup_2. intros j c Hj r' ->.
  rewrite lookup_drop in Hj. destruct (Hmax _ _ Hj) as [?|[? _]]; lia.
Qed.

Lemma newest_at k srcs i rows r :
  Forall run srcs → srcs !! i = Some rows → r ∈ rows → key r = k →
  (∀ j rows' r', srcs !! j = Some rows' → r' ∈ rows' → key r' = k →
     lsn r' < lsn r ∨ (lsn r' = lsn r ∧ (i ≤ j)%nat)) →
  newest k srcs = Some r.
Proof.
  intros Hruns Hi Hr Hk Hmax. rewrite Forall_lookup in Hruns. apply (foldl_newer_at _ i).
  - rewrite list_lookup_fmap, Hi. simpl. f_equal. eapply run_find; eauto.
  - intros j r'. rewrite list_lookup_fmap. destruct (srcs !! j) as [rows'|] eqn:Hj; [|done]. simpl.
    intros [= Hf]. apply find_row_Some in Hf as [Hin Hk']. eauto.
Qed.

Lemma newest_None k srcs :
  (∀ rows r, rows ∈ srcs → r ∈ rows → key r ≠ k) → newest k srcs = None.
Proof using Type.
  intros Hno. apply foldl_newer_None, Forall_map, Forall_forall. intros rows Hrows. simpl.
  apply find_row_None. eauto.
Qed.

Lemma newest_Some k srcs r : newest k srcs = Some r → ∃ rows, rows ∈ srcs ∧ r ∈ rows ∧ key r = k.
Proof using Type.
  unfold newest. intros Hn.
  assert (∀ cs w, foldl newer w cs = Some r → w = Some r ∨ Some r ∈ cs) as Hgen.
  { induction cs as [|c cs IH]; simpl; [auto|]. intros w Hf.
    destruct (IH _ Hf) as [Hw|?]; [|right; by apply elem_of_cons; right].
    destruct c as [y|], w as [x|]; simpl in Hw; try case_match; simplify_eq;
      first [by left|right; by apply elem_of_cons; left]. }
  destruct (Hgen _ _ Hn) as [?|Hin]; [done|].
  apply list_elem_of_fmap in Hin as (rows & Hf & Hrows).
  symmetry in Hf. apply find_row_Some in Hf as [? ?]. eauto.
Qed.

Lemma newest_max k srcs rows r :
  Forall run srcs → rows ∈ srcs → r ∈ rows → key r = k →
  ∃ w, newest k srcs = Some w ∧ lsn r ≤ lsn w.
Proof.
  intros Hruns Hrows Hr Hk.
  assert (∀ cs w, (∀ x, w = Some x ∨ Some x ∈ cs → ∃ m, foldl newer w cs = Some m ∧ lsn x ≤ lsn m)) as Hgen.
  { induction cs as [|c cs IH]; intros w x Hx; simpl.
    - destruct Hx as [->|Hx%elem_of_nil]; [by exists x|done].
    - assert (∃ y, (newer w c = Some y ∨ Some y ∈ cs) ∧ lsn x ≤ lsn y) as (y & Hy & Hle).
      { rewrite elem_of_cons in Hx. destruct Hx as [->|[<-|Hx]]; [| |exists x; split; [by right|done]].
        - destruct c as [y|]; simpl; [|by exists x; split; [left|]].
          destruct (Z.ltb_spec (lsn x) (lsn y)); [exists y|exists x]; (split; [by left|lia]).
        - destruct w as [y|]; simpl; [|by exists x; split; [left|]].
          destruct (Z.ltb_spec (lsn y) (lsn x)); [exists x|exists y]; (split; [by left|lia]). }
      destruct (IH _ _ Hy) as (m & Hm & ?). exists m. split; [done|lia]. }
  apply Hgen. right. apply list_elem_of_fmap. exists rows. split; [|done].
  symmetry. rewrite Forall_forall in Hruns. eapply run_find; eauto.
Qed.

(** ** The merge *)

Definition upto (last : option K) (k : K) : Prop := ∃ l, last = Some l ∧ ¬ klt l k.

Lemma upto_mono l k k' : ¬ klt k' l → upto (Some l) k → upto (Some k') k.
Proof.
  intros Hl (? & [= <-] & Hk). exists k'. split; [done|]. intros Hlt. apply Hk.
  destruct (klt_total l k') as [?|[->|?]]; [by eapply klt_trans|done|done].
Qed.

Lemma upto_dec last k : upto last k ∨ ¬ upto last k.
Proof.
  destruct last as [l|]; [|right; by intros (? & ? & _)].
  destruct (klt_total l k) as [Hlt|[->|Hlt]].
  - right. by intros (? & [= <-] & ?).
  - left. exists k. split; [done|apply klt_irrefl].
  - left. exists l. split; [done|]. intros ?. apply (klt_irrefl k). by apply (klt_trans _ l).
Qed.

(** Rows up to the last key are settled, the others are still to come. *)
Record merging (gc : bool) (all rem : list (list R)) (last : option K) (out : list R) : Prop := {
  mg_suffix : Forall2 (λ rows rest, ∃ done_, rows = done_ ++ rest ∧ Forall (λ r, upto last (key r)) done_) all rem;
  mg_rem : ∀ rest r l, rest ∈ rem → r ∈ rest → last = Some l → ¬ klt (key r) l;
  mg_out : run out;
  mg_below : Forall (λ r, upto last (key r)) out;
  mg_settled : ∀ k, upto last k → find_row k out = kept gc (newest k all) }.

Lemma merging_init gc all : merging gc all all None [].
Proof.
  split; try done; [|constructor| by intros k (? & ? & _)].
  apply Forall_Forall2_diag, Forall_true. intros rows. by exists [].
Qed.

(** The popped row is least among everything still to come. *)
Lemma popped_least rem i r rest j rest' r' :
  Forall run rem → rem !! i = Some (r :: rest) →
  (∀ j r' rest', rem !! j = Some (r' :: rest') → j ≠ i → before (r, i) (r', j)) →
  rem !! j = Some rest' → r' ∈ rest' →
  klt (key r) (key r') ∨ (key r = key r' ∧ (lsn r' < lsn r ∨ (lsn r' = lsn r ∧ (i ≤ j)%nat))).
Proof.
  intros Hruns Hi Hmin Hj Hr'. rewrite Forall_lookup in Hruns.
  destruct rest' as [|h rest']; [by apply elem_of_nil in Hr'|].
  pose proof (Hruns _ _ Hj) as Hrun. apply StronglySorted_inv in Hrun as [_ Hall].
  rewrite Forall_forall in Hall.
  assert (r' = h ∨ klt (key h) (key r')) as Hh by (apply elem_of_cons in Hr' as [->|?]; auto).
  destruct (decide (j = i)) as [->|Hne].
  - simplify_eq. destruct Hh as [->|?]; [right; split; [done|lia]|by left].
  - destruct (Hmin _ _ _ Hj Hne) as [Hlt|[Heq Hl]]; simpl in *.
    + left. destruct Hh as [->|?]; [done|by apply (klt_trans _ (key h))].
    + destruct Hh as [->|Hlt]; [right; split; [done|lia]|left; by rewrite Heq].
Qed.

Lemma run_drop rows rest done_ : run (done_ ++ rest) → rows = done_ ++ rest → run rest.
Proof. intros Hr _. unfold run in *. by apply StronglySorted_app_1_r in Hr. Qed.

Lemma merging_runs gc all rem last out : merging gc all rem last out → Forall run all → Forall run rem.
Proof.
  intros [Hs _ _ _ _] Hruns. rewrite Forall_lookup in *. intros i rest Hi.
  destruct (Forall2_lookup_r _ _ _ _ _ Hs Hi) as (rows & Ha & done_ & -> & _).
  specialize (Hruns _ _ Ha). by eapply run_drop.
Qed.

(** A popped key above the last one has all its rows still to come, so the popped
    row is its newest. *)
Lemma popped_newest gc all rem last out i r rest :
  Forall run all → merging gc all rem last out → rem !! i = Some (r :: rest) →
  (∀ j r' rest', rem !! j = Some (r' :: rest') → j ≠ i → before (r, i) (r', j)) →
  last ≠ Some (key r) → newest (key r) all = Some r.
Proof.
  intros Hruns Hm Hi Hmin Hlast. pose proof (merging_runs _ _ _ _ _ Hm Hruns) as Hrruns.
  destruct Hm as [Hs Hrem _ _ _].
  destruct (Forall2_lookup_r _ _ _ _ _ Hs Hi) as (rows & Ha & done_ & -> & _).
  assert (∀ k, upto last k → k ≠ key r) as Hnew.
  { intros k (l & Hl & Hk) ->. destruct (klt_total l (key r)) as [?|[?|?]]; [done| |].
    - subst. by destruct Hlast.
    - apply (Hrem (r :: rest) r l); [by eapply list_elem_of_lookup_2|set_solver|done|done]. }
  eapply newest_at; [done|exact Ha|set_solver|done|]. intros j rows' r' Hj Hr' Hk.
  destruct (Forall2_lookup_l _ _ _ _ _ Hs Hj) as (rest' & Hj' & done' & -> & Hdone).
  apply elem_of_app in Hr' as [Hr'|Hr'].
  - rewrite Forall_forall in Hdone. by destruct (Hnew _ (Hdone _ Hr')).
  - destruct (popped_least _ _ _ _ _ _ _ Hrruns Hi Hmin Hj' Hr') as [Hlt|[_ ?]]; [|done].
    rewrite Hk in Hlt. by destruct (klt_irrefl (key r)).
Qed.

Lemma merging_emit_find gc all rem last out i r rest k :
  Forall run all → merging gc all rem last out → rem !! i = Some (r :: rest) →
  (∀ j r' rest', rem !! j = Some (r' :: rest') → j ≠ i → before (r, i) (r', j)) →
  upto (Some (key r)) k → find_row k (emit gc last r out) = kept gc (newest k all).
Proof.
  intros Hruns Hm Hi Hmin (? & [= <-] & Hk). pose proof Hm as [Hs Hrem _ Hbelow Hset].
  unfold emit. case_decide as Hlast; [apply Hset; by exists (key r)|].
  pose proof (popped_newest _ _ _ _ _ _ _ _ Hruns Hm Hi Hmin Hlast) as Hnew.
  assert (¬ upto last (key r)) as Hup.
  { intros (l & -> & Hl). destruct (klt_total l (key r)) as [?|[->|Hlt]]; [done|done|].
    revert Hlt. apply (Hrem (r :: rest)); [by eapply list_elem_of_lookup_2|set_solver|done]. }
  destruct (decide (k = key r)) as [->|Hne].
  - rewrite Hnew. simpl. assert (find_row (key r) out = None) as Hf.
    { apply find_row_None. intros x Hx Hkx. rewrite Forall_forall in Hbelow.
      apply Hup. rewrite <- Hkx. by apply Hbelow. }
    destruct (gc && tomb r); [done|]. rewrite find_row_snoc, Hf. by rewrite decide_True.
  - assert (find_row k (if gc && tomb r then out else out ++ [r]) = find_row k out) as ->.
    { destruct (gc && tomb r); [done|]. rewrite find_row_snoc.
      destruct (find_row k out); [done|]. rewrite decide_False; [done|congruence]. }
    assert (klt k (key r)) as Hlt by (destruct (klt_total k (key r)) as [?|[?|?]]; done).
    destruct (upto_dec last k) as [Hu|Hn]; [by apply Hset|].
    rewrite newest_None; [apply find_row_None|]; rewrite Forall_forall in Hbelow.
    + intros x Hx <-. by apply Hn, Hbelow.
    + intros rows x [j Hj]%list_elem_of_lookup Hx <-.
      destruct (Forall2_lookup_l _ _ _ _ _ Hs Hj) as (rest' & Hj' & done_ & -> & Hdone).
      rewrite Forall_forall in Hdone. apply elem_of_app in Hx as [Hx|Hx]; [by apply Hn, Hdone|].
      pose proof (merging_runs _ _ _ _ _ Hm Hruns) as Hrruns.
      destruct (popped_least _ _ _ _ _ _ _ Hrruns Hi Hmin Hj' Hx) as [?|[Heq _]]; [done|].
      by rewrite Heq in Hne.
Qed.

Lemma merging_step gc all rem last out rem' last' out' :
  Forall run all → merging gc all rem last out → kstep gc rem last out rem' last' out' →
  merging gc all rem' last' out'.
Proof.
  intros Hruns Hm Hstep. destruct Hstep as [rem last out i r rest Hi Hmin].
  pose proof (merging_runs _ _ _ _ _ Hm Hruns) as Hrruns.
  pose proof (λ k, merging_emit_find _ _ _ _ _ _ _ _ k Hruns Hm Hi Hmin) as Hfind.
  destruct Hm as [Hs Hrem Hout Hbelow Hset].
  assert (∀ k, upto last k → upto (Some (key r)) k) as Hmono.
  { intros k Hu. pose proof Hu as (l & -> & _). revert Hu. apply upto_mono.
    apply (Hrem (r :: rest) r l); [by eapply list_elem_of_lookup_2|set_solver|done]. }
  assert (upto (Some (key r)) (key r)) as Hself by (exists (key r); split; [done|apply klt_irrefl]).
  split.
  - destruct (Forall2_lookup_r _ _ _ _ _ Hs Hi) as (rows & Ha & done_ & -> & Hdone).
    rewrite <- (list_insert_id all i (done_ ++ r :: rest)) by done.
    apply Forall2_insert.
    + eapply Forall2_impl; [exact Hs|]. intros rows rest0 (d & -> & Hd). exists d. split; [done|].
      eapply Forall_impl; [exact Hd|]. intros x. apply Hmono.
    + exists (done_ ++ [r]). split; [by rewrite <- app_assoc|]. apply Forall_app. split; [|by constructor].
      eapply Forall_impl; [exact Hdone|]. intros x. apply Hmono.
  - intros rest0 x l [j Hj]%list_elem_of_lookup Hx [= <-] Hlt.
    assert (∃ rest1, rem !! j = Some rest1 ∧ x ∈ rest1) as (rest1 & Hj1 & Hx1).
    { destruct (decide (j = i)) as [->|Hne].
      - rewrite list_lookup_insert_eq in Hj by (by eapply lookup_lt_Some). simplify_eq.
        eexists. split; [exact Hi|]. by apply elem_of_cons; right.
      - rewrite list_lookup_insert_ne in Hj by done. eauto. }
    destruct (popped_least _ _ _ _ _ _ _ Hrruns Hi Hmin Hj1 Hx1) as [?|[Heq _]].
    + apply (klt_irrefl (key r)). by apply (klt_trans _ (key x)).
    + rewrite Heq in Hlt. by apply (klt_irrefl (key x)).
  - unfold emit. case_decide as Hlast; [done|]. destruct (gc && tomb r); [done|].
    apply StronglySorted_app_2; [|done|by repeat constructor].
    intros x y Hx ->%list_elem_of_singleton.
    rewrite Forall_forall in Hbelow. destruct (Hbelow _ Hx) as (l & -> & Hl).
    assert (¬ klt (key r) l) as Hrl.
    { apply (Hrem (r :: rest) r l); [by eapply list_elem_of_lookup_2|set_solver|done]. }
    destruct (klt_total (key x) (key r)) as [?|[Heq|?]]; [done| |].
    + rewrite Heq in Hl. destruct (klt_total l (key r)) as [?|[->|?]]; done.
    + destruct (klt_total l (key r)) as [?|[->|?]]; [|done|done].
      destruct Hl. by apply (klt_trans _ (key r)).
  - assert (Forall (λ x, upto (Some (key r)) (key x)) out).
    { eapply Forall_impl; [exact Hbelow|]. intros x. apply Hmono. }
    unfold emit. repeat case_match; try done. apply Forall_app. split; [done|by constructor].
  - done.
Qed.

(** When nothing is left to come, the kept rows are the newest of every key. *)
Lemma merging_done gc all rem last out :
  Forall run all → merging gc all rem last out → Forall (λ rest, rest = []) rem →
  run out ∧ ∀ k, find_row k out = kept gc (newest k all).
Proof.
  intros Hruns [Hs _ Hout Hbelow Hset] Hnil. split; [done|]. intros k.
  destruct (upto_dec last k) as [?|Hn]; [by apply Hset|].
  rewrite Forall_forall in Hbelow. rewrite Forall_forall in Hnil.
  rewrite newest_None; [apply find_row_None|].
  - intros x Hx <-. by apply Hn, Hbelow.
  - intros rows x [j Hj]%list_elem_of_lookup Hx <-.
    destruct (Forall2_lookup_l _ _ _ _ _ Hs Hj) as (rest & Hj' & done_ & -> & Hdone).
    rewrite (Hnil rest) in Hx by (by eapply list_elem_of_lookup_2). rewrite app_nil_r in Hx.
    rewrite Forall_forall in Hdone. by apply Hn, Hdone.
Qed.
End kway.

(** ** The heap of a merge: the current row of every source that has one *)

Section heads.
Context {E R : Type} (entry : R → nat → E) (src : E → nat) (src_entry : ∀ r i, src (entry r i) = i).

Record heads (heap : list E) (rem : list (list R)) : Prop := {
  hd_in : ∀ e, e ∈ heap ↔ ∃ r rest, rem !! src e = Some (r :: rest) ∧ e = entry r (src e);
  hd_nodup : NoDup heap }.

(** [if let Some(..) = cursor.peek() { heap.push(..) }] *)
Definition push_head (rows : list R) (i : nat) (heap : list E) : list E :=
  match rows with r :: _ => entry r i :: heap | [] => heap end.

Lemma elem_of_push rows i heap e :
  e ∈ push_head rows i heap ↔ (∃ r rest, rows = r :: rest ∧ e = entry r i) ∨ e ∈ heap.
Proof using Type. destruct rows as [|r rest]; simpl; [|rewrite elem_of_cons]; naive_solver. Qed.

Lemma heads_nil : heads [] [].
Proof using Type.
  split; [|constructor]. intros e. split; [by intros ?%elem_of_nil|]. by intros (r & rest & Hr & _).
Qed.

Lemma heads_snoc heap rem rows : heads heap rem → heads (push_head rows (length rem) heap) (rem ++ [rows]).
Proof.
  intros [Hin Hnd]. split.
  - intros e. rewrite elem_of_push, Hin. split.
    + intros [(r & rest & -> & ->)|(r & rest & Hr & He)]; exists r, rest; rewrite ?src_entry.
      * by rewrite lookup_app_r, Nat.sub_diag by lia.
      * split; [|done]. by rewrite lookup_app_l by (by eapply lookup_lt_Some).
    + intros (r & rest & [Hr|[Hge Hr]]%lookup_app_Some & He); [right; by exists r, rest|left].
      destruct (src e - length rem)%nat as [|n] eqn:Hn; simplify_eq/=. exists r, rest. split; [done|].
      rewrite He. f_equal. lia.
  - destruct rows as [|r rest]; simpl; [done|]. constructor; [|done]. rewrite Hin, src_entry.
    intros (? & ? & Hr%lookup_lt_Some & _). lia.
Qed.

Lemma heads_pop heap rem e heap' r rest :
  heads heap rem → heap ≡ₚ e :: heap' → rem !! src e = Some (r :: rest) →
  heads (push_head rest (src e) heap') (<[src e := rest]> rem).
Proof.
  intros [Hin Hnd] Hperm Hr. rewrite Hperm in Hnd. apply NoDup_cons in Hnd as [Hfresh Hnd].
  assert (src e < length rem)%nat as Hlt by (by eapply lookup_lt_Some).
  assert (e = entry r (src e)) as He.
  { destruct (proj1 (Hin e)) as (r0 & rest0 & Hr0 & He); [by rewrite Hperm; left|]. congruence. }
  assert (∀ x, x ∈ heap' ↔ src x ≠ src e ∧ ∃ r0 rest0, rem !! src x = Some (r0 :: rest0) ∧ x = entry r0 (src x)) as Hin'.
  { intros x. rewrite <- Hin, Hperm, elem_of_cons. split; [|naive_solver]. intros Hx. split; [|by right].
    intros Hs. destruct (proj1 (Hin x)) as (r0 & rest0 & Hr0 & Hx0); [by rewrite Hperm; right|].
    rewrite Hs in Hr0, Hx0. apply Hfresh. rewrite He. by simplify_eq. }
  split.
  - intros x. rewrite elem_of_push, Hin'. destruct (decide (src x = src e)) as [Hs|Hne].
    + rewrite Hs, list_lookup_insert_eq by done. naive_solver.
    + rewrite list_lookup_insert_ne by done. split; [|naive_solver].
      intros [(r' & rest' & -> & ->)|?]; [by rewrite src_entry in Hne|naive_solver].
  - destruct rest as [|r' rest]; simpl; [done|]. constructor; [|done]. rewrite Hin', src_entry. naive_solver.
Qed.

(** A pop removes one row of the rest. *)
Lemma popped_total rem i (r : R) rest :
  rem !! i = Some (r :: rest) → length (concat rem) = S (length (concat (<[i := rest]> rem))).
Proof using Type.
  intros Hr. rewrite <- (take_drop_middle _ _ _ Hr) at 1. rewrite insert_take_drop by (by eapply lookup_lt_Some).
  rewrite !concat_app. simpl. rewrite !length_app. simpl. rewrite length_app. lia.
Qed.
End heads.
