(* ===== verification/EdgeMerge.v ===== *)
(** The streaming merge of edge SSTs ([merge_edge_sources] of [compact.rs]).

    Each source body is read by a cursor, one partner block and one property page at
    a time; a heap pops the least [(key, partner)], the highest LSN first, and the
    first row popped per pair goes to the writer of the merged SST.

    [None] is a panic or, for [merge_edges], the end of its fuel, one turn more than
    the sources have rows. Parameters: those of the reader and of the writer, and the
    Arrow IPC stream reader of the legacy property streams. *)
From S2P Require Import Prelude StorageError EdgeEncoding EdgeFormat EdgePages EdgeReader EdgeWriter KwayMerge.

(** [arrow::ipc::reader::StreamReader]: opened over the bytes, or over their zstd
    decoder, it yields record batches; a column that is not Utf8 has no strings. *)
Class ArrowIpc := {
  ipc_batch : Type;
  ipc_open : bool → list byte → Result (list (Result ipc_batch));
  ipc_columns : ipc_batch → list (option (list PropValue));
  ipc_num_rows : ipc_batch → nat;
}.

(** What the merge uses of [EdgeTypeDef]: the labels and the property names. *)
Record EdgeTypeDef := {
  etd_src_label : list byte;
  etd_dst_label : list byte;
  etd_properties : list (list byte);
}.

(** ** Property names of a schema ([schema.rs]) *)

Definition RESERVED_PROPERTY_NAMES : list (list byte) :=
  map String.list_byte_of_string ["node_id"; "tombstone"; "lsn"]%string.

(** [name.starts_with(prefix)] *)
Definition has_prefix (name : list byte) (prefix : string) : bool :=
  let p := String.list_byte_of_string prefix in bool_decide (take (length p) name = p).

Definition validate_property_name (name : list byte) : Result unit :=
  ensure negb (bool_decide (name = [])) else Core "property name must be non-empty";
  ensure negb (has_prefix name "__") else Core "property name uses the reserved '__' prefix";
  ensure negb (has_prefix name "prop_") else Core "property name uses the reserved 'prop_' prefix";
  ensure negb (bool_decide (name ∈ RESERVED_PROPERTY_NAMES))
    else Core "property name collides with an engine-managed column";
  Ok tt.

Section EdgeMerge.
Context (xxh3_64 : list byte → Z) (blake3 : list byte → list byte).
Context (zstd_encode : list byte → option (list byte)) (zstd_decompress : list byte → Z → option (list byte)).
Context `{PJ : PropertyJson, PI : EdgePointIndex, AI : ArrowIpc} (crc32 : list byte → Z).
(** [NAMIDB_EDGE_DECODE_MAX_BYTES] *)
Context (env : EnvVar).

(** ** Property streams *)

Inductive PropertyStreamCursorInner :=
| Arrow (reader : list (Result ipc_batch)) (current : option (list PropValue)) (row : nat)
| Paged (bytes : list byte) (entries : list PropertyPageEntry) (compressed : bool)
    (current : list PropValue) (row : nat).

Record PropertyStreamCursor := {
  psc_name : list byte;
  psc_inner : PropertyStreamCursorInner;
  psc_rows_read : Z;
  psc_edge_count : Z;
}.

Definition PropertyStreamCursor_open (name bytes : list byte) (codec edge_count : Z)
    : Result PropertyStreamCursor :=
  inner ←
    (if (codec =? CODEC_NONE) || (codec =? CODEC_ZSTD) then
       reader ← ipc_open (negb (codec =? CODEC_NONE)) bytes;
       Ok (Arrow reader None 0)
     else if (codec =? CODEC_PROPERTY_PAGED_NONE) || (codec =? CODEC_PROPERTY_PAGED_ZSTD) then
       index ← PropertyPageIndex_parse_prefix bytes (Z.of_nat (length bytes));
       ensure pi_row_count index =? edge_count else corrupted "property stream row count != edge_count";
       Ok (Paged bytes (pi_entries index) (codec =? CODEC_PROPERTY_PAGED_ZSTD) [] 0)
     else Err (corrupted "unknown codec for property stream"));
  Ok {| psc_name := name; psc_inner := inner; psc_rows_read := 0; psc_edge_count := edge_count |}.

Definition property_short_stream_error {A} : outcome A :=
  fail (corrupted "property stream row count != edge_count").

(** The [loop] of [next] over record batches. *)
Fixpoint next_arrow (want : bool) (reader : list (Result ipc_batch)) (current : option (list PropValue))
    (row : nat) : outcome (PropValue * PropertyStreamCursorInner) :=
  match current ≫= λ batch, batch !! row with
  | Some value => mret (if want then value else None, Arrow reader current (S row))
  | None =>
      match reader with
      | [] => property_short_stream_error
      | batch :: reader' =>
          batch ← lift batch;
          column ← index (ipc_columns batch) 0;
          strings ← lift (ok_or (Invariant "property IPC column is not Utf8") column);
          next_arrow want reader' (Some strings) 0
      end
  end.

(** The same over property pages. *)
Fixpoint next_paged (want : bool) (bytes : list byte) (entries : list PropertyPageEntry) (compressed : bool)
    (current : list PropValue) (row : nat) : outcome (PropValue * PropertyStreamCursorInner) :=
  match current !! row with
  | Some value => mret (if want then value else None, Paged bytes entries compressed current (S row))
  | None =>
      match entries with
      | [] => property_short_stream_error
      | entry :: entries' =>
          end_ ← lift (ok_or (Invariant "property page end exceeds u64")
                         (checked_add64 (pp_offset entry) (pp_encoded_len entry)));
          encoded ← lift (ok_or (corrupted "property page is truncated")
                            (if Z.of_nat (length bytes) <? end_ then None
                             else get_slice bytes (Z.to_nat (pp_offset entry)) (Z.to_nat end_)));
          rows ← lift (decode_property_page xxh3_64 zstd_decompress encoded entry compressed);
          next_paged want bytes entries' compressed rows 0
      end
  end.

(** The value of the next edge; a shadowed row ([want = false]) only advances. *)
Definition PropertyStreamCursor_next (c : PropertyStreamCursor) (want : bool)
    : outcome (PropValue * PropertyStreamCursor) :=
  '(value, inner) ←
    match psc_inner c with
    | Arrow reader current row => next_arrow want reader current row
    | Paged bytes entries compressed current row => next_paged want bytes entries compressed current row
    end;
  mret (value, {| psc_name := psc_name c; psc_inner := inner;
                  psc_rows_read := wrapping_add64 (psc_rows_read c) 1; psc_edge_count := psc_edge_count c |}).

Definition PropertyStreamCursor_assert_exhausted (c : PropertyStreamCursor) : Result unit :=
  leftover ←
    match psc_inner c with
    | Arrow reader current row =>
        if match current with Some batch => (row <? length batch)%nat | None => false end then Ok true
        else match reader with
             | batch :: _ => batch ← batch; Ok (0 <? ipc_num_rows batch)%nat
             | [] => Ok false
             end
    | Paged _ entries _ current row => Ok ((row <? length current)%nat || negb (bool_decide (entries = [])))
    end;
  ensure negb leftover else corrupted "property stream carries more than edge_count rows";
  Ok tt.

(** ** The cursor over one source *)

(** [body.slice(start..end)] panics out of range. *)
Definition edge_section_slice (body : list byte) (r : EdgeSstReader) (kind : Z) (name : list byte)
    : outcome (option (list byte * Z)) :=
  match (match name with
         | [] => EdgeFileFooter_find_kind (rd_footer r) kind
         | _ => EdgeFileFooter_find (rd_footer r) kind name
         end) with
  | None => mret None
  | Some entry =>
      let start := se_offset entry in
      let end_ := wrapping_add64 (se_offset entry) (se_length entry) in
      _ ← lift (reader_section xxh3_64 r kind name);
      bytes ← index_range body (Z.to_nat start) (Z.to_nat end_);
      mret (Some (bytes, se_codec entry))
  end.

Record EdgeSourceCursor := {
  ec_key_ids : list byte;
  ec_offsets : list byte;
  ec_partners : list byte;
  ec_lsns : list byte;
  ec_tombstones : option (list byte);
  ec_offset_width : OffsetWidth;
  ec_key_count : nat;
  ec_key_idx : nat;
  ec_current_key : list byte;
  ec_current_partners : list (list byte);
  ec_partner_idx : nat;
  ec_edge_idx : nat;
  ec_overflow : option PropertyStreamCursor;
  ec_declared : list (option PropertyStreamCursor);
}.

(** The cursor at another key, block, edge and position of the streams. *)
Definition moved (c : EdgeSourceCursor) (key_idx : nat) (key : list byte) (partners : list (list byte))
    (partner_idx edge_idx : nat) (overflow : option PropertyStreamCursor)
    (declared : list (option PropertyStreamCursor)) : EdgeSourceCursor :=
  {| ec_key_ids := ec_key_ids c; ec_offsets := ec_offsets c; ec_partners := ec_partners c;
     ec_lsns := ec_lsns c; ec_tombstones := ec_tombstones c; ec_offset_width := ec_offset_width c;
     ec_key_count := ec_key_count c; ec_key_idx := key_idx; ec_current_key := key;
     ec_current_partners := partners; ec_partner_idx := partner_idx; ec_edge_idx := edge_idx;
     ec_overflow := overflow; ec_declared := declared |}.

(** Decode the key and the block at [key_idx]; nothing is left past the end. *)
Definition load_key (c : EdgeSourceCursor) : outcome EdgeSourceCursor :=
  if (ec_key_count c <=? ec_key_idx c)%nat then
    mret (moved c (ec_key_idx c) (ec_current_key c) [] 0 (ec_edge_idx c) (ec_overflow c) (ec_declared c))
  else
    key ← index_range (ec_key_ids c) (ec_key_idx c * 16) ((ec_key_idx c + 1) * 16);
    start ← lift (read_offset (ec_offsets c) (ec_key_idx c * OffsetWidth_bytes (ec_offset_width c))
                    (ec_offset_width c));
    '(partners, _) ← lift (read_partner_block env (ec_partners c) (Z.to_nat start));
    mret (moved c (ec_key_idx c) key partners 0 (ec_edge_idx c) (ec_overflow c) (ec_declared c)).

(** [match edge_section_slice(..)? { Some((bytes, codec)) => Some(open(..)?), None => None }] *)
Definition open_stream (body : list byte) (r : EdgeSstReader) (name : list byte)
    : outcome (option PropertyStreamCursor) :=
  section ← edge_section_slice body r SECTION_PROPERTY_STREAM name;
  match section with
  | Some (bytes, codec) =>
      c ← lift (PropertyStreamCursor_open name bytes codec (ef_edge_count (rd_footer r)));
      mret (Some c)
  | None => mret None
  end.

(** The [for name in declared_property_names] loop. *)
Fixpoint open_declared (body : list byte) (r : EdgeSstReader) (names : list (list byte))
    : outcome (list (option PropertyStreamCursor)) :=
  match names with
  | [] => mret []
  | name :: rest =>
      c ← open_stream body r name;
      cs ← open_declared body r rest;
      mret (c :: cs)
  end.

(** The closure [required]. *)
Definition required_section (body : list byte) (r : EdgeSstReader) (kind : Z) : outcome (list byte) :=
  section ← edge_section_slice body r kind [];
  lift (ok_or (corrupted "edge SST missing mandatory section") (fst <$> section)).

Definition EdgeSourceCursor_open (body : list byte) (names : list (list byte))
    : outcome EdgeSourceCursor :=
  r ← lift (EdgeSstReader_open xxh3_64 body);
  let key_count := ef_key_count (rd_footer r) in
  let edge_count := ef_edge_count (rd_footer r) in
  offset_width ← lift (OffsetWidth_from_bits (ef_offsets_bits (rd_footer r)));
  key_ids ← required_section body r SECTION_KEY_IDS;
  offsets ← required_section body r SECTION_OFFSETS;
  partners ← required_section body r SECTION_PARTNERS;
  lsns ← required_section body r SECTION_PER_EDGE_LSN;
  tombstones ← edge_section_slice body r SECTION_PER_EDGE_TOMBSTONES [];
  let tombstones := fst <$> tombstones in
  if negb (Z.of_nat (length key_ids) =? (key_count * 16) `mod` 2 ^ 64) then
    fail (corrupted "key_ids section length for another number of keys")
  else if negb (Z.of_nat (length lsns) =? (edge_count * 8) `mod` 2 ^ 64) then
    fail (corrupted "per_edge_lsn section length for another number of edges")
  else if match tombstones with
          | Some bits => Z.of_nat (length bits) <? div_ceil edge_count 8
          | None => false
          end then
    fail (corrupted "per_edge_tombstones section too short")
  else
    overflow ← open_stream body r OVERFLOW_JSON_NAME;
    declared ← open_declared body r names;
    load_key {| ec_key_ids := key_ids; ec_offsets := offsets; ec_partners := partners; ec_lsns := lsns;
                ec_tombstones := tombstones; ec_offset_width := offset_width;
                ec_key_count := Z.to_nat key_count; ec_key_idx := 0;
                ec_current_key := replicate 16 (z2b 0); ec_current_partners := [];
                ec_partner_idx := 0; ec_edge_idx := 0; ec_overflow := overflow;
                ec_declared := declared |}.

(** Key, partner and LSN of the current edge, [None] once exhausted. *)
Definition peek (c : EdgeSourceCursor) : outcome (option (list byte * list byte * Z)) :=
  match ec_current_partners c !! ec_partner_idx c with
  | None => mret None
  | Some partner =>
      let off := (ec_edge_idx c * 8)%nat in
      row ← index_range (ec_lsns c) off (off + 8);
      mret (Some (ec_current_key c, partner, le_combine row))
  end.

(** One property stream, present or not. *)
Definition next_value (want : bool) (stream : option PropertyStreamCursor)
    : outcome (PropValue * option PropertyStreamCursor) :=
  match stream with
  | Some c => '(value, c) ← PropertyStreamCursor_next c want; mret (value, Some c)
  | None => mret (None, None)
  end.

(** The [for stream in &mut self.declared] loop. *)
Fixpoint next_declared (want : bool) (streams : list (option PropertyStreamCursor))
    : outcome (list PropValue * list (option PropertyStreamCursor)) :=
  match streams with
  | [] => mret ([], [])
  | stream :: rest =>
      '(value, stream) ← next_value want stream;
      '(values, rest) ← next_declared want rest;
      mret (value :: values, stream :: rest)
  end.

(** The [for stream in overflow.iter_mut().chain(declared.iter_mut().flatten())] loop. *)
Fixpoint assert_all_exhausted (streams : list (option PropertyStreamCursor)) : Result unit :=
  match streams with
  | [] => Ok tt
  | None :: rest => assert_all_exhausted rest
  | Some c :: rest => _ ← PropertyStreamCursor_assert_exhausted c; assert_all_exhausted rest
  end.

(** Consume the current edge and advance every stream in lockstep. *)
Definition pop (c : EdgeSourceCursor) (want_props : bool) : outcome (option EdgeRecord * EdgeSourceCursor) :=
  current ← peek c;
  match current with
  | None => fail (Invariant "edge merge cursor popped past its end")
  | Some (key_id, partner_id, lsn) =>
      tombstone ←
        (match ec_tombstones c with
         | Some bits => byte ← index bits (ec_edge_idx c `div` 8)%nat; mret (tombstone_bit byte (ec_edge_idx c))
         | None => mret false
         end : outcome bool);
      '(overflow_json, overflow) ← next_value want_props (ec_overflow c);
      '(declared_properties, declared) ← next_declared want_props (ec_declared c);
      let edge_idx := S (ec_edge_idx c) in
      let partner_idx := S (ec_partner_idx c) in
      c ← (if (length (ec_current_partners c) <=? partner_idx)%nat then
             c ← load_key (moved c (S (ec_key_idx c)) (ec_current_key c) (ec_current_partners c) partner_idx
                             edge_idx overflow declared);
             _ ← lift (if (ec_key_count c <=? ec_key_idx c)%nat
                       then assert_all_exhausted (ec_overflow c :: ec_declared c) else Ok tt);
             mret c
           else mret (moved c (ec_key_idx c) (ec_current_key c) (ec_current_partners c) partner_idx edge_idx
                        overflow declared) : outcome EdgeSourceCursor);
      mret (if want_props then
              Some {| er_key_id := key_id; er_partner_id := partner_id; er_lsn := lsn;
                      er_tombstone := tombstone; er_declared_properties := declared_properties;
                      er_overflow_json := overflow_json |}
            else None, c)
  end.

(** ** The merge *)

Record EdgeHeapEntry := {
  he_key_id : list byte;
  he_partner_id : list byte;
  he_lsn : Z;
  he_src : nat;
}.

(** [a.then(b)] *)
Definition then_cmp (a b : comparison) : comparison := match a with Eq => b | _ => a end.

Definition EdgeHeapEntry_cmp (a b : EdgeHeapEntry) : comparison :=
  then_cmp (bytes_cmp (he_key_id a) (he_key_id b))
    (then_cmp (bytes_cmp (he_partner_id a) (he_partner_id b))
       (then_cmp (he_lsn b ?= he_lsn a) (he_src a ?= he_src b)%nat)).
Definition edge_entry_lt (a b : EdgeHeapEntry) : bool :=
  match EdgeHeapEntry_cmp a b with Lt => true | _ => false end.

(** [if let Some(..) = cursor.peek() { heap.push(..) }] *)
Definition push_current (c : EdgeSourceCursor) (src : nat) (heap : list EdgeHeapEntry)
    : outcome (list EdgeHeapEntry) :=
  current ← peek c;
  mret match current with
       | Some (key_id, partner_id, lsn) =>
           {| he_key_id := key_id; he_partner_id := partner_id; he_lsn := lsn; he_src := src |} :: heap
       | None => heap
       end.

(** The [for body in bodies] and the [for (src, cursor) in cursors.iter().enumerate()] loops. *)
Fixpoint open_cursors (bodies : list (list byte)) (names : list (list byte))
    (cursors : list EdgeSourceCursor) (total_keys : Z) : outcome (list EdgeSourceCursor * Z) :=
  match bodies with
  | [] => mret (cursors, total_keys)
  | body :: rest =>
      c ← EdgeSourceCursor_open body names;
      open_cursors rest names (cursors ++ [c]) (saturating_add64 total_keys (Z.of_nat (ec_key_count c)))
  end.
Fixpoint fill_heap (cursors : list EdgeSourceCursor) (src : nat) (heap : list EdgeHeapEntry)
    : outcome (list EdgeHeapEntry) :=
  match cursors with
  | [] => mret heap
  | c :: rest => heap ← push_current c src heap; fill_heap rest (S src) heap
  end.

(** The [while let Some(Reverse(entry)) = heap.pop()] loop. *)
Fixpoint merge_edges (fuel : nat) (gc_tombstones : bool) (cursors : list EdgeSourceCursor)
    (heap : list EdgeHeapEntry) (last : option (list byte * list byte)) (writer : EdgeSstWriter)
    : outcome EdgeSstWriter :=
  match fuel with
  | O => None
  | S fuel' =>
      match pop_min edge_entry_lt heap with
      | None => mret writer
      | Some (entry, heap) =>
          cursor ← index cursors (he_src entry);
          let pair := (he_key_id entry, he_partner_id entry) in
          '(cursor, writer) ←
            (if decide (last ≠ Some pair) then
               '(record, cursor) ← pop cursor true;
               record ← lift (ok_or (Invariant "edge merge winner yielded no record") record);
               writer ← (if negb (gc_tombstones && er_tombstone record)
                         then EdgeSstWriter_append xxh3_64 zstd_encode crc32 writer record
                         else mret writer);
               mret (cursor, writer)
             else
               '(_, cursor) ← pop cursor false;
               mret (cursor, writer) : outcome (EdgeSourceCursor * EdgeSstWriter));
          heap ← push_current cursor (he_src entry) heap;
          merge_edges fuel' gc_tombstones (<[he_src entry := cursor]> cursors) heap (Some pair) writer
      end
  end.

(** The rows of the sources: one LSN each. *)
Definition source_rows (cursors : list EdgeSourceCursor) : nat :=
  sum_list_with (λ c, length (ec_lsns c) `div` 8)%nat cursors.

Definition merge_options (edge_type : list byte) (edge_def : option EdgeTypeDef) (direction : EdgeDirection)
    (total_keys : Z) : EdgeSstWriterOptions :=
  let labels := match edge_def with
                | Some def => (etd_src_label def, etd_dst_label def)
                | None => (String.list_byte_of_string "_", String.list_byte_of_string "_")
                end in
  let o := EdgeSstWriterOptions_new direction edge_type labels.1 labels.2 in
  {| eo_direction := eo_direction o;
     eo_edge_type := eo_edge_type o;
     eo_src_label := eo_src_label o;
     eo_dst_label := eo_dst_label o;
     eo_schema_version := eo_schema_version o;
     eo_skew_threshold := eo_skew_threshold o;
     eo_fence_stride := eo_fence_stride o;
     eo_fence_threshold := eo_fence_threshold o;
     eo_bits_per_key := eo_bits_per_key o;
     eo_expected_keys := Z.max total_keys 1;
     eo_compress_property_streams := eo_compress_property_streams o;
     eo_declared_properties := match edge_def with
                               | Some def => etd_properties def
                               | None => eo_declared_properties o
                               end |}.

(** [sst_id] and the two ceilings are what [EdgeSstWriter::new] draws from its
    environment. *)
Definition merge_edge_sources (bodies : list (list byte)) (edge_type : list byte)
    (edge_def : option EdgeTypeDef) (names : list (list byte))
    (direction : EdgeDirection) (gc_tombstones : bool) (sst_id : list byte) (max_entry max_sst : option Z)
    : outcome EdgeSstBuild :=
  '(cursors, total_keys) ← open_cursors bodies names [] 0;
  let writer := EdgeSstWriter_new (merge_options edge_type edge_def direction total_keys)
                  sst_id max_entry max_sst in
  heap ← fill_heap cursors 0 [];
  writer ← merge_edges (S (source_rows cursors)) gc_tombstones cursors heap None writer;
  finish_with_point_index xxh3_64 blake3 zstd_encode writer.

(** [edge_def.map(|def| ..).unwrap_or_default()] *)
Definition declared_property_names (edge_def : option EdgeTypeDef) : list (list byte) :=
  match edge_def with Some def => etd_properties def | None => [] end.

(** [compact_and_write_edges] between its reads and its write: an empty merge writes
    no SST. *)
Definition compact_edges (bodies : list (list byte)) (edge_type : list byte)
    (edge_def : option EdgeTypeDef) (direction : EdgeDirection) (gc_tombstones : bool)
    (sst_id : list byte) (max_entry max_sst : option Z) : outcome (option EdgeSstBuild) :=
  finish ← merge_edge_sources bodies edge_type edge_def (declared_property_names edge_def) direction gc_tombstones
             sst_id max_entry max_sst;
  mret (if es_edge_count (ebd_stats finish) =? 0 then None else Some finish).
End EdgeMerge.
