(* ===== verification/EdgeCompaction.v ===== *)
(** Compacting edge SSTs ([compact_and_write_edges] of [compact.rs]).

    The sources are bodies the writer built. The merge is the writer's run over the
    newest record of every edge, and the SST it writes reads back as those records,
    property values included. The first part is about cursors and the merge loop. *)
From S2P Require Import Prelude StorageError Bloom EdgeEncoding EdgeFormat EdgePages EdgeReader EdgeSafety EdgeWriter EdgeSealed EdgeImage EdgeWriterInv EdgeOpen EdgeSst KwayMerge EdgeMerge.

(** The streaming edge merge delivers the newest record of every edge.

    A cursor over a body that holds some records is shown to pop exactly those
    records, properties included; each turn of the merge loop is then a step of
    [KwayMerge.kstep], and the writer receives the newest record of every
    [(key, partner)] pair, in order. *)

Definition pair_of (e : EdgeRecord) : list byte * list byte := (er_key_id e, er_partner_id e).
Definition pair_lt (a b : list byte * list byte) : Prop :=
  bytes_lt a.1 b.1 ∨ (a.1 = b.1 ∧ bytes_lt a.2 b.2).
Abbreviation edge_run := (run pair_lt pair_of).
Abbreviation find_edge := (find_row pair_of).
Abbreviation newest_edge := (newest pair_of er_lsn).
Abbreviation kept_edge := (kept er_tombstone).

Section Facts.
Context (xxh3_64 : list byte → Z) (blake3 : list byte → list byte).
Context (zstd_encode : list byte → option (list byte)) (zstd_decompress : list byte → Z → option (list byte)).
Hypothesis xxh3_64_u64 : ∀ bs, is_u64 (xxh3_64 bs).
Context `{PJ : PropertyJson, PI : EdgePointIndex, AI : ArrowIpc} (crc32 : list byte → Z).

(** ** Streams *)

(** The values a stream still has to deliver. *)
Definition delivers (stream : option PropertyStreamCursor) (vs : list PropValue) : Prop :=
  match stream with
  | None => Forall (λ v, v = None) vs
  | Some c =>
      match psc_inner c with
      | Arrow _ _ _ => False
      | Paged bytes entries compressed current row =>
          ∃ pre ps first_row,
            bytes = pre ++ stream_payload ps ∧ Z.of_nat (length bytes) ≤ u64_max
            ∧ entries = page_entries xxh3_64 first_row (Z.of_nat (length pre)) ps
            ∧ Forall (page_ok zstd_decompress compressed) ps
            ∧ vs = drop row current ++ stream_rows ps
      end
  end.

Lemma next_paged_value want bytes entries compressed current row v :
  current !! row = Some v →
  next_paged xxh3_64 zstd_decompress want bytes entries compressed current row
  = Some (Ok (if want then v else None, Paged bytes entries compressed current (S row))).
Proof. intros Hv. destruct entries; cbn [next_paged]; by rewrite Hv. Qed.

Lemma next_delivers stream v vs want :
  delivers stream (v :: vs) →
  ∃ stream', next_value xxh3_64 zstd_decompress want stream = Some (Ok (if want then v else None, stream'))
             ∧ delivers stream' vs.
Proof.
  destruct stream as [c|]; cbn [delivers next_value].
  2:{ intros HF. inversion HF as [|? ? -> HF']; subst. exists None. by destruct want. }
  unfold PropertyStreamCursor_next. destruct (psc_inner c) as [|bytes entries compressed current row]; [done|].
  intros (pre & ps & first_row & Hbytes & Hfit & -> & HF & Hvs). destruct (current !! row) as [x|] eqn:Hx.
  - rewrite (drop_S _ _ _ Hx) in Hvs. cbn [app] in Hvs. injection Hvs as <- ->.
    rewrite (next_paged_value _ _ _ _ _ _ _ Hx). cbn [mret outcome_ret mbind outcome_bind].
    eexists. split; [done|]. by exists pre, ps, first_row.
  - apply lookup_ge_None in Hx. rewrite drop_ge in Hvs by done. cbn [app] in Hvs.
    destruct HF as [|p ps Hp HF]; [done|].
    destruct (page_slice xxh3_64 bytes pre p (stream_payload ps) first_row Hbytes Hfit) as (Hadd & Hle & Hget).
    cbn [page_entries next_paged]. rewrite (lookup_ge_None_2 _ _ Hx), Hadd. cbn [ok_or lift mbind outcome_bind].
    rewrite (proj2 (Z.ltb_ge _ _) Hle), Hget. cbn [ok_or lift mbind outcome_bind].
    rewrite decode_page by done. cbn [mbind outcome_bind].
    unfold stream_rows in Hvs. cbn [map concat] in Hvs. destruct Hp as (Hne & _).
    destruct (pg_rows p) as [|x rows] eqn:Hrows; [done|]. cbn [app] in Hvs. injection Hvs as <- ->.
    rewrite (next_paged_value _ _ _ _ (v :: rows) 0 v eq_refl). cbn [mret outcome_ret mbind outcome_bind].
    eexists. split; [done|]. exists (pre ++ pg_enc p), ps, (first_row + Z.of_nat (length (v :: rows))).
    split_and!; try done.
    + rewrite Hbytes. unfold stream_payload. cbn [map concat]. by rewrite (assoc_L (++)).
    + f_equal. rewrite length_app. lia.
Qed.

Lemma delivered_exhausted c : delivers (Some c) [] → PropertyStreamCursor_assert_exhausted c = Ok tt.
Proof.
  cbn [delivers]. unfold PropertyStreamCursor_assert_exhausted.
  destruct (psc_inner c) as [|bytes entries compressed current row]; [done|].
  intros (pre & ps & first_row & _ & _ & -> & HF & Hvs). symmetry in Hvs. apply app_nil in Hvs as [Hd Hs].
  apply (f_equal length) in Hd. rewrite length_drop in Hd. cbn in Hd.
  destruct HF as [|p ps (Hne & _) HF].
  - cbn [page_entries]. by rewrite (proj2 (Nat.ltb_ge _ _)) by lia.
  - unfold stream_rows in Hs. cbn [map concat] in Hs. by apply app_nil in Hs as [? _].
Qed.

(** The declared streams, one per column. *)
Definition delivers_columns (streams : list (option PropertyStreamCursor)) (rs : list EdgeRecord) : Prop :=
  Forall (λ r, length (er_declared_properties r) = length streams) rs ∧
  ∀ j stream, streams !! j = Some stream → delivers stream (column j rs).

Lemma next_columns streams values rows want :
  length values = length streams →
  (∀ j stream, streams !! j = Some stream → delivers stream (nth j values None :: rows j)) →
  ∃ streams', next_declared xxh3_64 zstd_decompress want streams
      = Some (Ok (if want then values else replicate (length values) None, streams'))
    ∧ length streams' = length streams
    ∧ ∀ j stream, streams' !! j = Some stream → delivers stream (rows j).
Proof.
  revert values rows. induction streams as [|stream streams IH]; intros [|v values] rows Hlen Hd; try done.
  { exists []. by destruct want. }
  destruct (next_delivers stream v (rows 0%nat) want) as (stream' & Hnext & Hd'); [by apply (Hd 0%nat)|].
  destruct (IH values (λ j, rows (S j)) ltac:(cbn in Hlen; lia)) as (streams' & Hrest & Hl & Hds).
  { intros j s Hj. by apply (Hd (S j)). }
  cbn [next_declared]. rewrite Hnext. cbn [mbind outcome_bind]. rewrite Hrest. cbn [mbind outcome_bind mret outcome_ret].
  exists (stream' :: streams'). split_and!; [by destruct want|by cbn; rewrite Hl|].
  intros [|j] s Hj; cbn in Hj; [by injection Hj as <-|by apply Hds].
Qed.

(** ** A source *)

Section Source.
Context (skew : nat) (bs : list bucket) (r : EdgeSstReader) (env : EnvVar) (limit : Z).
Hypothesis is_image : image skew bs r.
Hypothesis env_limit : edge_decode_limit_bytes env = Ok limit.
Hypothesis limit_fits : limit ≤ u64_max.
Hypothesis blocks_fit : Forall (λ b, Z.of_nat (length (bu_edges b)) * 16 ≤ limit) bs.

(** The sections the cursor owns are those of the image. *)
Record tables (c : EdgeSourceCursor) : Prop := {
  tb_key_ids : ec_key_ids c = concat (map bu_key bs);
  tb_offsets : ec_offsets c = offset_table (rd_offset_width r) (starts_of skew bs);
  tb_partners : ec_partners c = partner_section skew bs;
  tb_lsns : ec_lsns c = le64s (map er_lsn (all_edges bs));
  tb_tombstones : match ec_tombstones c with
                  | Some bytes => bitmap_holds bytes (tombstones_of (all_edges bs))
                  | None => Forall (λ e, er_tombstone e = false) (all_edges bs)
                  end;
  tb_width : ec_offset_width c = rd_offset_width r;
  tb_key_count : ec_key_count c = length bs;
}.

(** The records still to come, from the current position. *)
Definition cursor_position (c : EdgeSourceCursor) (rem : list EdgeRecord) : Prop :=
  ∃ pre post, bs = pre ++ post ∧ ec_key_idx c = length pre ∧
    match post with
    | [] => ec_current_partners c = [] ∧ rem = []
    | b :: post' =>
        ec_current_key c = bu_key b ∧ ec_current_partners c = partners_of (bu_edges b)
        ∧ (ec_partner_idx c < length (bu_edges b))%nat
        ∧ ec_edge_idx c = (length (all_edges pre) + ec_partner_idx c)%nat
        ∧ rem = drop (ec_partner_idx c) (bu_edges b) ++ all_edges post'
    end.

Record cursor_at (c : EdgeSourceCursor) (rem : list EdgeRecord) : Prop := {
  ca_tables : tables c;
  ca_position : cursor_position c rem;
  ca_overflow : delivers (ec_overflow c) (overflow_column rem);
  ca_declared : delivers_columns (ec_declared c) rem;
}.

Lemma load_key_at c pre post :
  tables c → bs = pre ++ post → ec_key_idx c = length pre → ec_edge_idx c = length (all_edges pre) →
  delivers (ec_overflow c) (overflow_column (all_edges post)) → delivers_columns (ec_declared c) (all_edges post) →
  ∃ c', load_key env c = Some (Ok c') ∧ cursor_at c' (all_edges post)
    ∧ ec_key_idx c' = ec_key_idx c ∧ ec_overflow c' = ec_overflow c ∧ ec_declared c' = ec_declared c.
Proof.
  intros Ht Hbs Hidx Hedge Ho Hd. unfold load_key. pose proof Ht as [Hk Hof Hp Hl Htomb Hw Hc].
  rewrite Hc, Hidx. destruct post as [|b post].
  - rewrite (proj2 (Nat.leb_le _ _)) by (rewrite Hbs, app_nil_r; lia). eexists. split; [done|].
    split_and!; [|done..]. split; [by destruct Ht| |exact Ho|exact Hd]. exists pre, []. by rewrite <- Hbs.
  - rewrite (proj2 (Nat.leb_gt _ _)) by (rewrite Hbs, length_app; cbn; lia). unfold index_range.
    rewrite Hk, Hof, Hp, Hw, (key_row _ _ _ is_image _ _ _ Hbs). cbn [mbind outcome_bind].
    destruct (bounds_at _ _ _ is_image _ _ _ Hbs) as (Hstart & _ & Hdrop). rewrite Hstart.
    cbn [lift mbind outcome_bind]. rewrite Nat2Z.id.
    assert (read_partner_block env (partner_section skew bs) (length (partner_section skew pre))
      = Ok (partners_of (bu_edges b), length (block_bytes skew b))) as ->.
    { unfold read_partner_block. rewrite env_limit. cbn [mbind result_bind].
      pose proof (bucket_mid _ _ _ is_image _ _ _ Hbs) as Hb.
      eapply read_partner_block_impl_spec; try done; [apply (im_fits _ _ _ is_image)|by apply bucket_partners| |by left|].
      - apply pick_block_tag_cases.
      - rewrite length_map. by eapply block_fits. }
    cbn [mbind outcome_bind]. eexists. split; [done|]. split_and!; [|done..].
    split; [by destruct Ht| |exact Ho|exact Hd]. exists pre, (b :: post). split_and!; try done; cbn.
    + destruct (bucket_mid _ _ _ is_image _ _ _ Hbs) as (Hne & _). destruct (bu_edges b); [done|cbn; lia].
    + lia.
Qed.

(** A current edge: where it is in the tables. *)
Lemma current_at c rem :
  tables c → cursor_position c rem →
  match rem with
  | [] => ec_current_partners c !! ec_partner_idx c = None
  | e :: _ =>
      ec_current_partners c !! ec_partner_idx c = Some (er_partner_id e) ∧ ec_current_key c = er_key_id e
      ∧ all_edges bs !! ec_edge_idx c = Some e
  end.
Proof.
  intros Ht (pre & post & Hbs & Hidx & Hpos). destruct post as [|b post]; [destruct Hpos as (-> & ->); done|].
  destruct Hpos as (Hkey & Hps & Hlt & Hedge & ->).
  destruct (lookup_lt_is_Some_2 _ _ Hlt) as [e He]. rewrite (drop_S _ _ _ He). cbn [app].
  rewrite Hps, Hkey, Hedge. split_and!.
  - change (map er_partner_id (bu_edges b)) with (er_partner_id <$> bu_edges b). by rewrite list_lookup_fmap, He.
  - destruct (bucket_mid _ _ _ is_image _ _ _ Hbs) as (_ & HF & _). rewrite Forall_lookup in HF.
    by destruct (HF _ _ He) as [_ ->].
  - rewrite <- lookup_drop, (edges_at _ _ _ is_image _ _ _ Hbs), lookup_app_l by done. exact He.
Qed.

Lemma peek_at c rem :
  cursor_at c rem → peek c = Some (Ok ((λ e, (er_key_id e, er_partner_id e, er_lsn e)) <$> head rem)).
Proof.
  intros [Ht Hpos _ _]. pose proof (current_at _ _ Ht Hpos) as Hc. unfold peek.
  destruct rem as [|e rem]; [by rewrite Hc|]. destruct Hc as (-> & -> & He).
  destruct (le64_row (map er_lsn (all_edges bs)) (ec_edge_idx c) (er_lsn e)) as (Hs & Hv & _).
  { by eapply edges_u64. }
  { by rewrite list_lookup_fmap, He. }
  unfold index_range. rewrite (tb_lsns _ Ht), Hs. cbn [mbind outcome_bind mret outcome_ret]. by rewrite Hv.
Qed.

Lemma assert_all_delivered streams :
  (∀ j stream, streams !! j = Some stream → delivers stream []) → assert_all_exhausted streams = Ok tt.
Proof.
  induction streams as [|[c|] streams IH]; intros Hd; [done| |].
  - cbn [assert_all_exhausted]. rewrite delivered_exhausted by (by apply (Hd 0%nat)). cbn [mbind result_bind].
    apply IH. intros j s Hj. by apply (Hd (S j)).
  - apply IH. intros j s Hj. by apply (Hd (S j)).
Qed.

Lemma tombstone_at c e :
  tables c → all_edges bs !! ec_edge_idx c = Some e →
  (match ec_tombstones c with
   | Some bits => byte ← index bits (ec_edge_idx c `div` 8)%nat; mret (tombstone_bit byte (ec_edge_idx c))
   | None => mret false
   end : outcome bool) = Some (Ok (er_tombstone e)).
Proof.
  intros Ht He. pose proof (tb_tombstones _ Ht) as Hb. destruct (ec_tombstones c) as [bits|].
  - destruct (Hb (ec_edge_idx c) (er_tombstone e)) as (byte & Hby & <-).
    { unfold tombstones_of. by rewrite list_lookup_fmap, He. }
    unfold index. by rewrite Hby.
  - rewrite Forall_lookup in Hb. by rewrite (Hb _ _ He).
Qed.

(** The edge after the current one, in the same block or at the start of the next. *)
Lemma position_next c e rem :
  cursor_position c (e :: rem) →
  (∃ pre b post, bs = pre ++ b :: post ∧ ec_key_idx c = length pre
     ∧ ec_current_partners c = partners_of (bu_edges b) ∧ S (ec_partner_idx c) = length (bu_edges b)
     ∧ S (ec_edge_idx c) = length (all_edges (pre ++ [b])) ∧ rem = all_edges post)
  ∨ (S (ec_partner_idx c) < length (ec_current_partners c))%nat
    ∧ ∀ ov decl, cursor_position (moved c (ec_key_idx c) (ec_current_key c) (ec_current_partners c)
                             (S (ec_partner_idx c)) (S (ec_edge_idx c)) ov decl) rem.
Proof.
  intros (pre & post & Hbs & Hidx & Hpos). destruct post as [|b post]; [by destruct Hpos|].
  destruct Hpos as (Hkey & Hps & Hlt & Hedge & Hrem).
  destruct (lookup_lt_is_Some_2 _ _ Hlt) as [x Hx]. rewrite (drop_S _ _ _ Hx) in Hrem. cbn [app] in Hrem.
  injection Hrem as -> ->. destruct (decide (S (ec_partner_idx c) = length (bu_edges b))) as [Hend|Hmore].
  - left. exists pre, b, post. split_and!; try done; [|by rewrite Hend, drop_all].
    rewrite Hedge, all_edges_app, length_app. lia.
  - right. split; [rewrite Hps, length_map; lia|]. intros ov decl. exists pre, (b :: post). cbn. split_and!; try done; lia.
Qed.

Lemma pop_at c e rem want :
  cursor_at c (e :: rem) →
  ∃ c', pop xxh3_64 zstd_decompress env c want = Some (Ok (if want then Some e else None, c')) ∧ cursor_at c' rem.
Proof.
  intros Hat. pose proof (peek_at _ _ Hat) as Hpeek. destruct Hat as [Ht Hpos Ho [Hlen Hd]].
  pose proof (current_at _ _ Ht Hpos) as (_ & _ & He). unfold pop. rewrite Hpeek.
  cbn [head fmap option_fmap option_map mbind outcome_bind]. rewrite (tombstone_at _ _ Ht He).
  cbn [mbind outcome_bind]. destruct (next_delivers _ (er_overflow_json e) (overflow_column rem) want Ho) as (ov & -> & Hov). cbn [mbind outcome_bind].
  inversion Hlen as [|? ? Hlen1 Hlens]; subst.
  destruct (next_columns _ _ (λ j, column j rem) want Hlen1 Hd) as (decl & -> & Hlend & Hdecl).
  cbn [mbind outcome_bind]. rewrite <- Hlend in Hlens.
  assert (∀ c' : EdgeSourceCursor, (if want then Some {| er_key_id := er_key_id e; er_partner_id := er_partner_id e; er_lsn := er_lsn e;
      er_tombstone := er_tombstone e;
      er_declared_properties := if want then er_declared_properties e
                                else replicate (length (er_declared_properties e)) None;
      er_overflow_json := if want then er_overflow_json e else None |} else None, c')
    = (if want then Some e else None, c')) as Hrec by (intros c'; by destruct want, e).
  destruct (position_next _ _ _ Hpos) as [(pre & b & post & Hbs & Hidx & Hps & Hend & Hedge & Hrem)|[Hlt Hnext]].
  - rewrite (proj2 (Nat.leb_le _ _)) by (rewrite Hps, length_map; lia). subst rem.
    destruct (load_key_at (moved c (S (ec_key_idx c)) (ec_current_key c) (ec_current_partners c)
      (S (ec_partner_idx c)) (S (ec_edge_idx c)) ov decl) (pre ++ [b]) post) as (c' & -> & Hat & Hidx' & Hov' & Hdecl').
    + by destruct Ht.
    + by rewrite Hbs, <- (assoc_L (++)).
    + rewrite length_app. cbn. lia.
    + done.
    + done.
    + done.
    + cbn [mbind outcome_bind]. rewrite (tb_key_count _ (ca_tables _ _ Hat)), Hidx', Hov', Hdecl'.
      cbn [moved ec_key_idx ec_overflow ec_declared].
      exists c'. split; [|done]. destruct (Nat.leb_spec (length bs) (S (ec_key_idx c))) as [Hle|]; cbn [lift mbind outcome_bind].
      * assert (post = []) as -> by (rewrite Hbs, Hidx, length_app in Hle; destruct post; [done|cbn in Hle; lia]).
        rewrite assert_all_delivered; [cbn [mbind outcome_bind mret outcome_ret]; by rewrite Hrec|].
        intros [|j] s Hs; cbn in Hs; [by injection Hs as <-|by apply (Hdecl j)].
      * cbn [mret outcome_ret mbind outcome_bind]. by rewrite Hrec.
  - rewrite (proj2 (Nat.leb_gt _ _)) by lia. cbn [mret outcome_ret mbind outcome_bind]. rewrite Hrec.
    eexists. split; [done|]. split; [by destruct Ht|by apply Hnext|done|done].
Qed.

(** ** Opening a cursor *)

Section Opening.
Context (body : list byte).
Hypothesis opens : EdgeSstReader_open xxh3_64 body = Ok r.

(** A section the reader slices is one the cursor can own. *)
Lemma owned_slice entry bytes :
  entry ∈ ef_sections (rd_footer r) → section_slice (rd_body r) entry = Ok bytes →
  index_range body (Z.to_nat (se_offset entry)) (Z.to_nat (wrapping_add64 (se_offset entry) (se_length entry)))
  = Some (Ok bytes).
Proof.
  intros Hin H. destruct (open_reader_keeps _ _ _ opens) as [Hbody _]. rewrite Hbody in H.
  pose proof (ro_sections _ (open_reader_ok _ _ _ opens)) as HF. rewrite Forall_forall in HF. specialize (HF _ Hin).
  unfold section_slice in H. apply result_bind_Ok in H as (end_ & He%ok_or_Ok & H).
  apply checked_add64_Some in He as [-> Hu]. apply result_bind_Ok in H as (bend & Hb%ok_or_Ok & H).
  unfold checked_sub64 in Hb. ensured Hb. injection Hb as <-. ensured H. apply Ok_inj in H as <-.
  apply negb_true_iff, orb_false_iff in Heqb0 as [H1%Z.ltb_ge H2%Z.ltb_ge].
  unfold wrapping_add64. rewrite Z.mod_small by (unfold u64_max in Hu; lia).
  unfold index_range. by rewrite get_slice_Some by lia.
Qed.

Lemma find_kind_in kind entry : EdgeFileFooter_find_kind (rd_footer r) kind = Some entry → entry ∈ ef_sections (rd_footer r).
Proof.
  unfold EdgeFileFooter_find_kind. intros ([i e] & Hf & Heq)%fmap_Some. cbn in Heq. subst e.
  apply list_find_Some in Hf as (Hi & _). by eapply list_elem_of_lookup_2.
Qed.
Lemma find_name_in kind name entry : EdgeFileFooter_find (rd_footer r) kind name = Some entry → entry ∈ ef_sections (rd_footer r).
Proof.
  unfold EdgeFileFooter_find. intros ([i e] & Hf & Heq)%fmap_Some. cbn in Heq. subst e.
  apply list_find_Some in Hf as (Hi & _). by eapply list_elem_of_lookup_2.
Qed.

Lemma kind_slice kind bytes :
  kind ≠ SECTION_PROPERTY_STREAM → reader_section xxh3_64 r kind [] = Ok bytes →
  ∃ codec, edge_section_slice xxh3_64 body r kind [] = Some (Ok (Some (bytes, codec))).
Proof.
  intros Hk H. unfold edge_section_slice. pose proof H as Hs. unfold reader_section in Hs.
  apply result_bind_Ok in Hs as (entry & Hf%ok_or_Ok & Hs). rewrite (proj2 (Z.eqb_neq _ _) Hk) in Hs.
  rewrite Hf, H. cbn [lift mbind outcome_bind]. rewrite (owned_slice _ _ (find_kind_in _ _ Hf) Hs).
  cbn [mbind outcome_bind mret outcome_ret]. by exists (se_codec entry).
Qed.

Lemma required_section_at kind bytes :
  kind ≠ SECTION_PROPERTY_STREAM → reader_section xxh3_64 r kind [] = Ok bytes →
  required_section xxh3_64 body r kind = Some (Ok bytes).
Proof.
  intros Hk H. destruct (kind_slice _ _ Hk H) as (codec & Hs). unfold required_section. by rewrite Hs.
Qed.

Lemma tombstones_slice :
  ∃ o, edge_section_slice xxh3_64 body r SECTION_PER_EDGE_TOMBSTONES [] = Some (Ok o)
    ∧ match fst <$> o with
      | Some bits => bitmap_holds bits (tombstones_of (all_edges bs))
      | None => Forall (λ e, er_tombstone e = false) (all_edges bs)
      end.
Proof.
  pose proof (im_tombstones _ _ _ is_image xxh3_64) as Ht. unfold has_tombstones in Ht.
  destruct (EdgeFileFooter_find_kind (rd_footer r) SECTION_PER_EDGE_TOMBSTONES) eqn:Hf.
  - destruct Ht as (bytes & Hs & Hb). destruct (kind_slice SECTION_PER_EDGE_TOMBSTONES bytes ltac:(done) Hs) as (codec & ->).
    by eexists.
  - unfold edge_section_slice. rewrite Hf. by eexists.
Qed.

Lemma open_stream_at name vs :
  name ≠ [] → stream_found xxh3_64 zstd_decompress r name vs → length vs = length (all_edges bs) →
  Z.of_nat (length (all_edges bs)) * Z.of_nat PROPERTY_PAGE_ENTRY_LEN ≤ MAX_PROPERTY_PAGE_DIRECTORY_BYTES →
  ∃ stream, open_stream xxh3_64 body r name = Some (Ok stream) ∧ delivers stream vs.
Proof.
  intros Hname Hf Hlen Hdir. unfold open_stream, edge_section_slice, reader_section.
  destruct name as [|x name]; [done|]. unfold stream_found in Hf.
  destruct (EdgeFileFooter_find _ _ _) as [entry|] eqn:Hfind.
  - destruct Hf as (_ & compressed & ps & Hok & Hrows & Hps & Hv & Hl & Hu & Hcodec).
    cbn [ok_or mbind result_bind]. rewrite Z.eqb_refl, Hv. cbn [lift mbind outcome_bind].
    apply result_bind_Ok in Hv as (bytes & Hs & Hv). ensured Hv. apply Ok_inj in Hv as ->.
    rewrite (owned_slice _ _ (find_name_in _ _ _ Hfind) Hs). cbn [mbind outcome_bind mret outcome_ret].
    unfold PropertyStreamCursor_open. rewrite Hcodec.
    rewrite (found_index _ _ xxh3_64_u64 ps compressed (length vs)) by
      (try done; rewrite ?Hrows, ?Hlen; try done; unfold MAX_PROPERTY_PAGE_DIRECTORY_BYTES, PROPERTY_PAGE_ENTRY_LEN, u64_max in *; lia).
    rewrite (im_edge_count _ _ _ is_image), <- Hlen. destruct (stream_bytes_split xxh3_64 ps) as (pre & Hpre & Hsplit).
    destruct compressed; cbn [Z.eqb Pos.eqb orb mbind result_bind pi_row_count pi_entries CODEC_PROPERTY_PAGED_NONE
      CODEC_PROPERTY_PAGED_ZSTD CODEC_NONE CODEC_ZSTD]; rewrite Z.eqb_refl; cbn [mbind result_bind lift outcome_bind mret outcome_ret];
      eexists; (split; [done|]); cbn [delivers psc_inner]; exists pre, ps, 0; rewrite Hpre; by split_and!.
  - eexists. split; [done|]. cbn [delivers]. clear -Hf. induction vs as [|[v|] vs IH]; [done|done|].
    constructor; [done|]. by apply IH.
Qed.

Hypothesis pages_fit :
  Z.of_nat (length (all_edges bs)) * Z.of_nat PROPERTY_PAGE_ENTRY_LEN ≤ MAX_PROPERTY_PAGE_DIRECTORY_BYTES.

Lemma open_declared_at names (k : nat) :
  Forall (λ name, name ≠ []) names →
  (∀ j name, names !! j = Some name → stream_found xxh3_64 zstd_decompress r name (column (k + j) (all_edges bs))) →
  ∃ streams, open_declared xxh3_64 body r names = Some (Ok streams) ∧ length streams = length names
    ∧ ∀ j stream, streams !! j = Some stream → delivers stream (column (k + j) (all_edges bs)).
Proof.
  intros HF. revert k. induction HF as [|name names Hname HF IH]; intros k Hfound.
  { exists []. by split_and!. }
  destruct (open_stream_at name (column k (all_edges bs))) as (stream & Hs & Hd); [done| | |done|].
  { rewrite <- (Nat.add_0_r k). by apply Hfound. }
  { unfold column. by rewrite length_map. }
  destruct (IH (S k)) as (streams & Hss & Hl & Hds).
  { intros j n Hj. rewrite Nat.add_succ_comm. by apply Hfound. }
  cbn [open_declared]. rewrite Hs. cbn [mbind outcome_bind]. rewrite Hss. cbn [mbind outcome_bind mret outcome_ret].
  exists (stream :: streams). split_and!; [done|by cbn; rewrite Hl|].
  intros [|j] x Hx; cbn in Hx; [injection Hx as <-; by rewrite Nat.add_0_r|].
  rewrite <- Nat.add_succ_comm. by apply Hds.
Qed.

Lemma bitmap_long bits :
  bitmap_holds bits (tombstones_of (all_edges bs)) →
  div_ceil (Z.of_nat (length (all_edges bs))) 8 ≤ Z.of_nat (length bits).
Proof.
  intros Hb. unfold div_ceil. destruct (length (all_edges bs)) as [|n] eqn:Hn; [change ((Z.of_nat 0 + 8 - 1) / 8) with 0; lia|].
  destruct (lookup_lt_is_Some_2 (tombstones_of (all_edges bs)) n) as [t Ht].
  { unfold tombstones_of. rewrite length_map. lia. }
  destruct (Hb _ _ Ht) as (byte & Hby & _). apply lookup_lt_Some in Hby.
  replace (Z.of_nat (S n) + 8 - 1) with (Z.of_nat n + 1 * 8) by lia. rewrite Z.div_add by lia.
  change 8 with (Z.of_nat 8). rewrite <- Nat2Z.inj_div. lia.
Qed.

Lemma cursor_opens names :
  Forall (λ name, name ≠ []) names → Forall (λ e, length (er_declared_properties e) = length names) (all_edges bs) →
  stream_found xxh3_64 zstd_decompress r OVERFLOW_JSON_NAME (overflow_column (all_edges bs)) →
  (∀ j name, names !! j = Some name → stream_found xxh3_64 zstd_decompress r name (column j (all_edges bs))) →
  ∃ c, EdgeSourceCursor_open xxh3_64 env body names = Some (Ok c) ∧ cursor_at c (all_edges bs).
Proof.
  intros Hnames Hlens Hov Hdecl. destruct (open_reader_keeps _ _ _ opens) as [_ Hwidth].
  destruct (im_sections _ _ _ is_image xxh3_64) as (Hki & Hof & Hpa & Hls).
  destruct (im_fits _ _ _ is_image) as (_ & Hfl & Hfk & _).
  unfold EdgeSourceCursor_open. rewrite opens. cbn [lift mbind outcome_bind]. rewrite Hwidth. cbn [mbind outcome_bind].
  do 4 (erewrite required_section_at by (done || eassumption); cbn [mbind outcome_bind]).
  destruct tombstones_slice as (o & -> & Ht). cbn [mbind outcome_bind].
  pose proof (length_concat_partners _ (keys_partners _ _ _ is_image)) as Hlk. rewrite length_map in Hlk.
  assert (length (le64s (map er_lsn (all_edges bs))) = 8 * length (all_edges bs))%nat as Hll
    by (unfold le64s; by rewrite length_le_concat, length_map).
  rewrite (im_key_count _ _ _ is_image), (im_edge_count _ _ _ is_image).
  rewrite !Z.mod_small by (unfold u64_max in *; lia).
  rewrite (proj2 (Z.eqb_eq (Z.of_nat (length (concat (map bu_key bs)))) _)) by lia.
  rewrite (proj2 (Z.eqb_eq (Z.of_nat (length (le64s _))) _)) by lia. cbn [negb].
  assert (match fst <$> o with
          | Some bits => Z.of_nat (length bits) <? div_ceil (Z.of_nat (length (all_edges bs))) 8
          | None => false end = false) as ->.
  { destruct (fst <$> o) as [bits|]; [|done]. apply Z.ltb_ge. by apply bitmap_long. }
  destruct (open_stream_at OVERFLOW_JSON_NAME (overflow_column (all_edges bs)) ltac:(done) Hov) as (ov & -> & Hdo);
    [unfold overflow_column; by rewrite length_map|done|]. cbn [mbind outcome_bind].
  destruct (open_declared_at names 0 Hnames Hdecl) as (decl & -> & Hld & Hdd). cbn [mbind outcome_bind].
  match goal with |- context [load_key env ?c0] =>
    destruct (load_key_at c0 [] bs) as (c & Hc & Hat & _); [..|by exists c] end; try done.
  - split; try done. cbn. lia.
  - split; [|exact Hdd]. by rewrite <- Hld in Hlens.
Qed.
End Opening.
End Source.

(** ** The merge loop *)

Section Loop.
Context (env : EnvVar) (limit : Z).
Hypothesis env_limit : edge_decode_limit_bytes env = Ok limit.
Hypothesis limit_fits : limit ≤ u64_max.

(** The cursor stands before the records [rem] of some source. *)
Definition standing (c : EdgeSourceCursor) (rem : list EdgeRecord) : Prop :=
  ∃ skew bs r, image skew bs r ∧ Forall (λ b, Z.of_nat (length (bu_edges b)) * 16 ≤ limit) bs
               ∧ cursor_at skew bs r c rem.

Definition heap_entry (e : EdgeRecord) (src : nat) : EdgeHeapEntry :=
  {| he_key_id := er_key_id e; he_partner_id := er_partner_id e; he_lsn := er_lsn e; he_src := src |}.
Abbreviation edge_heads := (heads heap_entry he_src).

Lemma push_standing c rows src heap :
  standing c rows → push_current c src heap = Some (Ok (push_head heap_entry rows src heap)).
Proof.
  intros (skew & bs & r & Himg & _ & Hat). unfold push_current. rewrite (peek_at skew bs r Himg _ _ Hat).
  by destruct rows.
Qed.

Lemma pop_standing c e rows want :
  standing c (e :: rows) →
  ∃ c', pop xxh3_64 zstd_decompress env c want = Some (Ok (if want then Some e else None, c')) ∧ standing c' rows.
Proof.
  intros (skew & bs & r & Himg & Hfit & Hat).
  destruct (pop_at skew bs r env limit Himg env_limit limit_fits Hfit c e rows want Hat) as (c' & Hp & Hat').
  exists c'. split; [done|]. by exists skew, bs, r.
Qed.

Definition before_entry (a b : EdgeHeapEntry) : Prop :=
  before pair_lt (λ x, (he_key_id x, he_partner_id x)) he_lsn (a, he_src a) (b, he_src b).

Lemma edge_entry_lt_spec a b : edge_entry_lt a b = true ↔ before_entry a b.
Proof.
  unfold edge_entry_lt, EdgeHeapEntry_cmp, before_entry, before, pair_lt, bytes_lt. cbn [fst snd].
  destruct (bytes_cmp (he_key_id a) (he_key_id b)) eqn:Hk; cbn [then_cmp].
  - apply bytes_cmp_eq in Hk. rewrite Hk. destruct (bytes_cmp (he_partner_id a) (he_partner_id b)) eqn:Hp; cbn [then_cmp].
    + apply bytes_cmp_eq in Hp. rewrite Hp.
      split; [intros H; right; split; [done|]|intros [[?|[_ ?]]|[_ H]]; [done..|]]; revert H;
        destruct (Z.compare_spec (he_lsn b) (he_lsn a)), (Nat.compare_spec (he_src a) (he_src b)); cbn [then_cmp];
        intros; try done; lia.
    + split; [auto|done].
    + split; [done|]. intros [[?|[_ ?]]|[[= He] _]]; [done..|].
      by rewrite He, bytes_cmp_refl in Hp.
  - split; [auto|done].
  - split; [done|]. intros [[?|[He _]]|[[= He _] _]]; [done|..]; by rewrite He, bytes_cmp_refl in Hk.
Qed.

Lemma pair_lt_trans a b c : pair_lt a b → pair_lt b c → pair_lt a c.
Proof.
  unfold pair_lt. intros [H1|[E1 H1]] [H2|[E2 H2]]; rewrite ?E1, <- ?E2; auto.
  - left. by eapply bytes_lt_trans.
  - right. split; [done|]. by eapply bytes_lt_trans.
Qed.
Lemma pair_lt_irrefl a : ¬ pair_lt a a.
Proof. intros [H|[_ H]]; by apply bytes_lt_irrefl in H. Qed.
Lemma bytes_lt_total a b : bytes_lt a b ∨ a = b ∨ bytes_lt b a.
Proof.
  destruct (bytes_cmp a b) eqn:H; [right; left; by apply bytes_cmp_eq|by left|right; right; by apply bytes_cmp_gt].
Qed.
Lemma pair_lt_total a b : pair_lt a b ∨ a = b ∨ pair_lt b a.
Proof.
  destruct a as [a1 a2], b as [b1 b2]. unfold pair_lt. cbn.
  destruct (bytes_lt_total a1 b1) as [?|[->|?]]; [auto| |auto].
  destruct (bytes_lt_total a2 b2) as [?|[->|?]]; auto.
Qed.

(** The heap order is a strict order, total up to entries that tie in everything. *)
Lemma entry_not_lt a b :
  edge_entry_lt a b = false ↔ before_entry b a ∨ ((he_key_id a, he_partner_id a) = (he_key_id b, he_partner_id b)
    ∧ he_lsn a = he_lsn b ∧ he_src a = he_src b).
Proof.
  rewrite <- not_true_iff_false, edge_entry_lt_spec. unfold before_entry, before. cbn [fst snd].
  destruct (pair_lt_total (he_key_id a, he_partner_id a) (he_key_id b, he_partner_id b)) as [H|[->|H]].
  - split; [tauto|]. intros [[H'|[He _]]|[He _]]; [|by rewrite <- He in H; apply pair_lt_irrefl in H..].
    exfalso. eapply pair_lt_irrefl. by eapply pair_lt_trans.
  - split; [intros Hn|intros [[H'|[_ H']]|[_ H']] [H|[_ H]]; try (by apply pair_lt_irrefl in H);
      try (by apply pair_lt_irrefl in H'); lia].
    destruct (decide (he_lsn a = he_lsn b ∧ he_src a = he_src b)); [by right|]. left. right. split; [done|].
    assert (¬ (he_lsn b < he_lsn a ∨ he_lsn a = he_lsn b ∧ (he_src a < he_src b)%nat)) by tauto. lia.
  - split; [auto|]. intros _ [H'|[He _]]; [|by rewrite He in H; apply pair_lt_irrefl in H].
    eapply pair_lt_irrefl. by eapply pair_lt_trans.
Qed.

Lemma pop_edge heap m rest :
  pop_min edge_entry_lt heap = Some (m, rest) →
  heap ≡ₚ m :: rest ∧ ∀ y, y ∈ rest → edge_entry_lt y m = false.
Proof.
  apply pop_min_Some.
  - intros a b c. rewrite !entry_not_lt. unfold before_entry, before. cbn [fst snd].
    intros [[H1|[H1 H1']]|[H1 H1']] [[H2|[H2 H2']]|[H2 H2']].
    all: rewrite ?H1, ?H2 in *.
    1: left; left; by eapply pair_lt_trans.
    all: auto with lia.
  - intros a. rewrite entry_not_lt. by right.
  - intros a b. rewrite edge_entry_lt_spec, entry_not_lt. by left.
Qed.

(** The popped entry is the current record of its source, and least among all. *)
Lemma popped_edge cursors heap rem entry heap' :
  Forall2 standing cursors rem → edge_heads heap rem → pop_min edge_entry_lt heap = Some (entry, heap') →
  ∃ c e rest, cursors !! he_src entry = Some c ∧ rem !! he_src entry = Some (e :: rest)
    ∧ entry = heap_entry e (he_src entry) ∧ standing c (e :: rest) ∧ heap ≡ₚ entry :: heap'
    ∧ ∀ j e' rest', rem !! j = Some (e' :: rest') → j ≠ he_src entry →
        before pair_lt pair_of er_lsn (e, he_src entry) (e', j).
Proof.
  intros Hst [Hin Hnd] [Hperm Hleast]%pop_edge.
  destruct (proj1 (Hin entry)) as (e & rest & Hr & He); [by rewrite Hperm; left|].
  destruct (Forall2_lookup_r _ _ _ _ _ Hst Hr) as (c & Hc & Hs). exists c, e, rest. split_and!; try done.
  intros j e' rest' Hj Hne.
  assert (heap_entry e' j ∈ heap') as Hin'.
  { assert (heap_entry e' j ∈ heap) as Hh by (apply Hin; by exists e', rest').
    rewrite Hperm in Hh. apply elem_of_cons in Hh as [Heq|?]; [|done]. destruct Hne. by rewrite <- Heq. }
  apply Hleast, entry_not_lt in Hin' as [Hb|(_ & _ & Hs')]; [|by cbn in Hs'].
  unfold before_entry in Hb. rewrite He in Hb. exact Hb.
Qed.

Context (gc : bool).
Abbreviation extend := (EdgeSstWriter_extend xxh3_64 zstd_encode crc32).
Abbreviation merging_edges := (merging pair_lt pair_of er_lsn er_tombstone gc).

(** One turn of the loop feeds the writer the record [emit] keeps. *)
Lemma turn_ok c e rest last :
  standing c (e :: rest) →
  ∃ c', standing c' rest ∧ ∀ w,
    (if decide (last ≠ Some (pair_of e)) then
       '(record, cursor) ← pop xxh3_64 zstd_decompress env c true;
       record ← lift (ok_or (Invariant "edge merge winner yielded no record") record);
       writer ← (if negb (gc && er_tombstone record)
                 then EdgeSstWriter_append xxh3_64 zstd_encode crc32 w record else mret w);
       mret (cursor, writer)
     else
       '(_, cursor) ← pop xxh3_64 zstd_decompress env c false; mret (cursor, w)
     : outcome (EdgeSourceCursor * EdgeSstWriter))
    = (w' ← extend w (emit pair_of er_tombstone gc last e []); mret (c', w')).
Proof.
  intros Hst. unfold emit. destruct (decide (last = Some (pair_of e))) as [Hl|Hl].
  - destruct (pop_standing _ _ _ false Hst) as (c' & Hp & Hst'). exists c'. split; [done|]. intros w.
    rewrite decide_False by tauto. by rewrite Hp.
  - destruct (pop_standing _ _ _ true Hst) as (c' & Hp & Hst'). exists c'. split; [done|]. intros w.
    rewrite decide_True by done. rewrite Hp. cbn [mbind outcome_bind lift ok_or].
    destruct (gc && er_tombstone e); cbn [negb app EdgeSstWriter_extend]; [done|].
    by destruct (EdgeSstWriter_append _ _ _ _ _) as [[w'|]|].
Qed.

Lemma extend_app w xs ys : extend w (xs ++ ys) = (w' ← extend w xs; extend w' ys).
Proof.
  revert w. induction xs as [|x xs IH]; intros w; [done|]. cbn [app EdgeSstWriter_extend].
  destruct (EdgeSstWriter_append _ _ _ _ _) as [[w'|]|]; cbn [mbind outcome_bind]; [apply IH|done|done].
Qed.

Lemma emit_app last e out : emit pair_of er_tombstone gc last e out = out ++ emit pair_of er_tombstone gc last e [].
Proof. unfold emit. repeat case_match; by rewrite ?app_nil_r. Qed.

Lemma merge_edges_ok fuel all cursors heap rem last out :
  Forall edge_run all → Forall2 standing cursors rem → edge_heads heap rem → merging_edges all rem last out →
  (length (concat rem) < fuel)%nat →
  ∃ out', (∀ w, merge_edges xxh3_64 zstd_encode zstd_decompress crc32 env fuel gc cursors heap last w = extend w out')
    ∧ edge_run (out ++ out') ∧ ∀ k, find_edge k (out ++ out') = kept_edge gc (newest_edge k all).
Proof.
  intros Hruns. revert cursors heap rem last out.
  induction fuel as [|fuel IH]; intros cursors heap rem last out Hst Hheads Hm Hfuel; [lia|]. cbn [merge_edges].
  destruct (pop_min edge_entry_lt heap) as [[entry heap']|] eqn:Hp.
  - destruct (popped_edge _ _ _ _ _ Hst Hheads Hp) as (c & e & rest & Hc & Hr & He & Hs & Hperm & Hmin).
    destruct (turn_ok c e rest last Hs) as (c' & Hs' & Hturn).
    assert (merging_edges all (<[he_src entry := rest]> rem) (Some (pair_of e))
              (out ++ emit pair_of er_tombstone gc last e [])) as Hm'.
    { rewrite <- emit_app. eapply merging_step; [apply pair_lt_trans|apply pair_lt_irrefl|apply pair_lt_total|done|exact Hm|].
      by constructor. }
    pose proof (heads_pop heap_entry he_src (λ _ _, eq_refl) _ _ _ _ _ _ Hheads Hperm Hr) as Hheads'.
    assert (Forall2 standing (<[he_src entry := c']> cursors) (<[he_src entry := rest]> rem)) as Hst'
      by (by apply Forall2_insert).
    assert (length (concat (<[he_src entry := rest]> rem)) < fuel)%nat as Hlt
      by (pose proof (popped_total _ _ _ _ Hr); lia).
    destruct (IH _ _ _ _ _ Hst' Hheads' Hm' Hlt) as (out' & Hrun & Hsort & Hfind).
    exists (emit pair_of er_tombstone gc last e [] ++ out'). rewrite (assoc_L (++)). split_and!; [|done|done].
    intros w. unfold index. rewrite Hc. cbn [mbind outcome_bind].
    assert ((he_key_id entry, he_partner_id entry) = pair_of e) as -> by (by rewrite He).
    rewrite Hturn, extend_app. destruct (extend w _) as [[w'|]|]; cbn [mbind outcome_bind mret outcome_ret]; [|done|done].
    rewrite (push_standing _ _ _ _ Hs'). cbn [mbind outcome_bind]. apply Hrun.
  - apply pop_min_None in Hp as ->. exists []. split; [done|]. rewrite app_nil_r.
    eapply merging_done; [apply pair_lt_trans|apply pair_lt_irrefl|apply pair_lt_total|done|exact Hm|].
    apply Forall_lookup_2. intros i [|e rest] Hi; [done|]. exfalso.
    assert (heap_entry e i ∈ []) as Hin by (apply (hd_in _ _ _ _ Hheads); by exists e, rest). by apply elem_of_nil in Hin.
Qed.
End Loop.

(** ** From bodies to the merged SST *)

Lemma validated_names names :
  Forall (λ name, validate_property_name name = Ok tt) names →
  Forall (λ name, name ≠ []) names ∧ OVERFLOW_JSON_NAME ∉ names.
Proof.
  intros HF. split.
  - eapply Forall_impl; [exact HF|]. intros name Hv ->. done.
  - intros Hin. rewrite Forall_forall in HF. by specialize (HF _ Hin).
Qed.

Section Sources.
Hypothesis blake3_length : ∀ bs, length (blake3 bs) = 32%nat.
Hypothesis zstd_law : ∀ raw enc,
  zstd_encode raw = Some enc → zstd_decompress enc (Z.of_nat (length raw)) = Some raw.
Context (names : list (list byte)).
Hypothesis names_valid : Forall (λ name, validate_property_name name = Ok tt) names.
Hypothesis names_distinct : NoDup names.
Hypothesis names_utf8 : Forall (λ name, utf8_valid name = true) names.

(** A body the writer built from the records, for the same declared properties. *)
Definition source (body : list byte) (rs : list EdgeRecord) : Prop :=
  ∃ opts id max_entry max_sst build,
    options_ok opts id ∧ eo_declared_properties opts = names ∧ Forall record_ok rs
    ∧ built xxh3_64 blake3 zstd_encode crc32 opts id max_entry max_sst rs build
    ∧ body = upload_bytes (ebd_body build).

Context (env : EnvVar) (limit : Z).
Hypothesis env_limit : edge_decode_limit_bytes env = Ok limit.
Hypothesis limit_fits : limit ≤ u64_max.

(** The reader's limits, for the records of all sources together. *)
Definition within_limits (rs : list EdgeRecord) : Prop :=
  (∀ key, Z.of_nat (length (filter (λ e, er_key_id e = key) rs)) * 16 ≤ limit)
  ∧ Z.of_nat (length rs) * Z.of_nat PROPERTY_PAGE_ENTRY_LEN ≤ MAX_PROPERTY_PAGE_DIRECTORY_BYTES.

Lemma within_submseteq rs rs' : rs ⊆+ rs' → within_limits rs' → within_limits rs.
Proof.
  intros [more Hp]%submseteq_Permutation [Hk Hn]. rewrite Hp, length_app in Hn. split; [|unfold PROPERTY_PAGE_ENTRY_LEN in *; lia].
  intros key. specialize (Hk key). rewrite Hp, filter_app, length_app in Hk. lia.
Qed.

Lemma blocks_within skew bs r : image skew bs r → within_limits (all_edges bs) →
  Forall (λ b, Z.of_nat (length (bu_edges b)) * 16 ≤ limit) bs.
Proof.
  intros Himg [Hk _]. apply Forall_lookup. intros k b Hb.
  destruct (bucket_split _ _ _ Hb) as (pre & post & Hbs & _).
  rewrite <- (bucket_filter _ _ _ Himg _ _ _ Hbs). apply Hk.
Qed.

Lemma source_opens body rs :
  source body rs → within_limits rs →
  edge_run rs ∧ Forall record_ok rs
  ∧ ∃ c, EdgeSourceCursor_open xxh3_64 env body names = Some (Ok c) ∧ standing limit c rs
         ∧ (length (ec_lsns c) `div` 8 = length rs)%nat ∧ (ec_key_count c ≤ length rs)%nat.
Proof.
  intros (opts & id & me & ms & build & Hopts & Hn & Hok & Hb & ->) Hlim.
  pose proof (built_widths xxh3_64 blake3 zstd_encode zstd_decompress zstd_law crc32 opts id me ms rs build Hok Hb) as Hw.
  destruct (built_source xxh3_64 blake3 zstd_encode zstd_decompress xxh3_64_u64 blake3_length zstd_law crc32 opts id
    Hopts me ms rs build Hok Hb) as (bs & r & <- & Hopen & Himg & _ & _ & Hstreams). rewrite Hn in *.
  destruct (validated_names _ names_valid) as [Hne Hov]. destruct (Hstreams names_distinct Hov) as [Ho Hd].
  pose proof (blocks_within _ _ _ Himg Hlim) as Hfit. destruct Hlim as [_ Hpages].
  destruct (cursor_opens _ bs r env limit Himg env_limit limit_fits Hfit _ Hopen Hpages names Hne Hw Ho Hd) as (c & Hc & Hat).
  split_and!; [|done|].
  - exact (buckets_sorted bs (im_buckets _ _ _ Himg) (im_sorted _ _ _ Himg)).
  - exists c. split_and!; [done|by exists (skew_of opts), bs, r| |].
    + rewrite (tb_lsns _ _ _ _ (ca_tables _ _ _ _ _ Hat)). unfold le64s. rewrite length_le_concat, length_map.
      rewrite Nat.mul_comm. by apply Nat.div_mul.
    + rewrite (tb_key_count _ _ _ _ (ca_tables _ _ _ _ _ Hat)). apply closed_le_edges, (im_buckets _ _ _ Himg).
Qed.

(** What the eager reader answers on such a body. *)
Lemma source_reads body rs zstd_decode_all arrow_ipc_strings :
  source body rs → within_limits rs →
  edge_run rs ∧ Forall record_ok rs ∧ Forall (λ e, length (er_declared_properties e) = length names) rs
  ∧ ∃ r, EdgeSstReader_open xxh3_64 body = Ok r
      ∧ EdgeSstReader_scan_all_edges xxh3_64 env r = Some (Ok (map projection rs))
      ∧ (∀ key partner, EdgeSstReader_lookup_partner xxh3_64 r key partner = Some (Ok (lookup_edge rs key partner)))
      ∧ read_overflow_strings xxh3_64 zstd_decompress zstd_decode_all arrow_ipc_strings r
        = Ok (column_value (overflow_column rs))
      ∧ ∀ j name, names !! j = Some name →
          read_declared_property_strings xxh3_64 zstd_decompress zstd_decode_all arrow_ipc_strings r name
          = Ok (column_value (column j rs)).
Proof.
  intros (opts & id & me & ms & build & Hopts & Hn & Hok & Hb & ->) Hlim.
  pose proof (built_widths xxh3_64 blake3 zstd_encode zstd_decompress zstd_law crc32 opts id me ms rs build Hok Hb) as Hw.
  destruct (built_source xxh3_64 blake3 zstd_encode zstd_decompress xxh3_64_u64 blake3_length zstd_law crc32 opts id
    Hopts me ms rs build Hok Hb) as (bs & r & <- & Hopen & Himg & Hfit & _ & Hstreams). rewrite Hn in *.
  destruct (validated_names _ names_valid) as [_ Hov]. destruct (Hstreams names_distinct Hov) as [Ho Hdecl].
  pose proof (blocks_within _ _ _ Himg Hlim) as Hblocks. destruct Hlim as [_ Hpages].
  split_and!; [exact (buckets_sorted bs (im_buckets _ _ _ Himg) (im_sorted _ _ _ Himg))|done|done|].
  exists r. split_and!; try done.
  - by eapply (scan_image _ _ bs r Himg env limit).
  - intros key partner. by eapply (lookup_partner_image _ _ bs r Himg).
  - eapply (found_reads _ _ xxh3_64_u64 _ _ _ _ _ (length (all_edges bs))); try done; [by unfold overflow_column; rewrite length_map|apply Himg].
  - intros j name Hj. unfold read_declared_property_strings. case_bool_decide as He.
    + destruct Hov. rewrite <- He. by eapply list_elem_of_lookup_2.
    + eapply (found_reads _ _ xxh3_64_u64 _ _ _ _ _ (length (all_edges bs))); try done;
        [by apply Hdecl|by unfold column; rewrite length_map|apply Himg].
Qed.

Lemma open_cursors_ok bodies all cursors total :
  Forall2 source bodies all → within_limits (concat all) →
  ∃ cursors' total', open_cursors xxh3_64 env bodies names cursors total = Some (Ok (cursors ++ cursors', total'))
    ∧ Forall2 (standing limit) cursors' all ∧ source_rows cursors' = length (concat all)
    ∧ Forall edge_run all ∧ Forall record_ok (concat all) ∧ total' ≤ total + Z.of_nat (length (concat all)).
Proof.
  intros Hsrc. revert cursors total. induction Hsrc as [|body rs bodies all Hs Hsrc IH]; intros cursors total Hlim.
  { exists [], total. rewrite app_nil_r. split_and!; [done|constructor|done|constructor|constructor|cbn; lia]. }
  cbn [concat] in Hlim. destruct (source_opens _ _ Hs) as (Hrun & Hok & c & Hc & Hst & Hlen & Hkeys).
  { eapply within_submseteq; [|exact Hlim]. by apply submseteq_inserts_r. }
  cbn [open_cursors]. rewrite Hc. cbn [mbind outcome_bind].
  destruct (IH (cursors ++ [c]) (saturating_add64 total (Z.of_nat (ec_key_count c)))) as (cs & t & -> & Hcs & Hrows & Hruns & Hoks & Ht).
  { eapply within_submseteq; [|exact Hlim]. by apply submseteq_inserts_l. }
  exists (c :: cs), t. cbn [concat]. rewrite length_app.
  split_and!; [by rewrite <- (assoc_L (++))|by constructor| |by constructor|by apply Forall_app|].
  - unfold source_rows in *. cbn [sum_list_with]. lia.
  - unfold saturating_add64 in Ht. lia.
Qed.

Lemma fill_heap_ok cursors rows pre heap :
  Forall2 (standing limit) cursors rows → heads heap_entry he_src heap pre →
  ∃ heap', fill_heap cursors (length pre) heap = Some (Ok heap') ∧ heads heap_entry he_src heap' (pre ++ rows).
Proof.
  intros HF. revert pre heap. induction HF as [|c rs cursors rows Hst HF IH]; intros pre heap Hh.
  { exists heap. by rewrite app_nil_r. }
  cbn [fill_heap]. rewrite (push_standing _ _ _ _ _ Hst). cbn [mbind outcome_bind].
  pose proof (heads_snoc heap_entry he_src (λ _ _, eq_refl) _ _ rs Hh) as Hh'.
  destruct (IH _ _ Hh') as (heap' & Hf & Hh''). exists heap'. rewrite length_app, Nat.add_1_r in Hf.
  split; [exact Hf|]. by rewrite <- (assoc_L (++)) in Hh''.
Qed.

(** What the merge writes. *)
Lemma merge_sources_newest bodies all edge_type edge_def direction gc sst_id max_entry max_sst :
  Forall2 source bodies all → within_limits (concat all) →
  ∃ total_keys out (options := merge_options edge_type edge_def direction total_keys),
    total_keys ≤ Z.of_nat (length (concat all)) ∧ edge_run out ∧ out ⊆+ concat all ∧ Forall record_ok out
    ∧ (∀ k, find_edge k out = kept_edge gc (newest_edge k all))
    ∧ merge_edge_sources xxh3_64 blake3 zstd_encode zstd_decompress crc32 env bodies edge_type edge_def names direction
        gc sst_id max_entry max_sst
      = (w ← EdgeSstWriter_extend xxh3_64 zstd_encode crc32 (EdgeSstWriter_new options sst_id max_entry max_sst) out;
         finish_with_point_index xxh3_64 blake3 zstd_encode w).
Proof.
  intros Hsrc Hlim.
  destruct (open_cursors_ok _ _ [] 0 Hsrc Hlim) as (cursors & total & Hopen & Hst & Hrows & Hruns & Hoks & Htotal).
  destruct (fill_heap_ok cursors all [] [] Hst (heads_nil _ _)) as (heap & Hfill & Hheads). cbn [app] in Hopen, Hheads.
  destruct (merge_edges_ok env limit env_limit limit_fits gc (S (source_rows cursors)) all cursors heap all None []
    Hruns Hst Hheads (merging_init _ _ _ _ _ _) ltac:(lia)) as (out & Hloop & Hrun & Hfind). cbn [app] in Hrun, Hfind.
  exists total, out. cbv zeta.
  assert (∀ e, e ∈ out → e ∈ concat all) as Hincl.
  { intros e He. pose proof (run_find _ _ pair_lt_irrefl _ _ _ Hrun He eq_refl) as Hf. rewrite Hfind in Hf.
    unfold kept in Hf. destruct (newest_edge (pair_of e) all) as [x|] eqn:Hn; [|done]. destruct (gc && _); [done|].
    injection Hf as ->. apply newest_Some in Hn as (rows & Hin & He' & _).
    apply list_elem_of_In, in_concat. exists rows. by rewrite <- !list_elem_of_In. }
  split_and!; [lia|done| | |done|].
  - apply NoDup_submseteq; [|done]. clear -Hrun. induction Hrun as [|x out Hs IH Hall]; constructor; [|done].
    intros Hin. rewrite Forall_forall in Hall. by apply Hall, pair_lt_irrefl in Hin.
  - rewrite Forall_forall in Hoks |- *. auto.
  - unfold merge_edge_sources. rewrite Hopen. cbn [mbind outcome_bind]. cbn [length] in Hfill. rewrite Hfill.
    cbn [mbind outcome_bind]. by rewrite Hloop.
Qed.
End Sources.
End Facts.

Section Compaction.
Context (xxh3_64 : list byte → Z) (blake3 : list byte → list byte).
Context (zstd_encode : list byte → option (list byte)) (zstd_decompress : list byte → Z → option (list byte)).
Hypothesis xxh3_64_u64 : ∀ bs, is_u64 (xxh3_64 bs).
Hypothesis blake3_length : ∀ bs, length (blake3 bs) = 32%nat.
Hypothesis zstd_law : ∀ raw enc,
  zstd_encode raw = Some enc → zstd_decompress enc (Z.of_nat (length raw)) = Some raw.
Context `{PJ : PropertyJson, PI : EdgePointIndex, AI : ArrowIpc} (crc32 : list byte → Z).

(** The edge type: its declared properties are valid, distinct names. *)
Record edge_def_ok (edge_def : option EdgeTypeDef) : Prop := {
  do_valid : Forall (λ name, validate_property_name name = Ok tt) (declared_property_names edge_def);
  do_distinct : NoDup (declared_property_names edge_def);
  do_utf8 : Forall (λ name, utf8_valid name = true) (declared_property_names edge_def);
}.

(** The sources hold [all]; the environment's decode limit is enough for the largest
    block they can be merged to, and the page directories for all their rows. *)
Record sources_ok (edge_def : option EdgeTypeDef) (env : EnvVar) (limit : Z) (bodies : list (list byte))
    (all : list (list EdgeRecord)) : Prop := {
  so_def : edge_def_ok edge_def;
  so_limit : edge_decode_limit_bytes env = Ok limit ∧ limit ≤ u64_max;
  so_sources : Forall2 (source xxh3_64 blake3 zstd_encode crc32 (declared_property_names edge_def)) bodies all;
  so_within : within_limits limit (concat all);
}.

Lemma merge_declared_properties edge_type edge_def direction total :
  eo_declared_properties (merge_options edge_type edge_def direction total) = declared_property_names edge_def.
Proof. by destruct edge_def. Qed.

(** ** The writer returns *)

Lemma finish_defined w : finish_with_point_index xxh3_64 blake3 zstd_encode w ≠ None.
Proof.
  unfold finish_with_point_index. apply bind_defined; [done|]. intros w' _. cbv zeta.
  destruct (Z.leb_spec (Z.shiftl 1 48) (Z.of_nat (length (sp_partners (close_spools (ew_spools w')))))) as [|Hmax]; [done|].
  apply bind_defined.
  { unfold OffsetWidth_for_max. by repeat case_match; [..|lia]. }
  intros width _. do 3 (apply bind_defined; [done|]; intros ? _). apply bind_defined; [done|]. intros [[files sections] next] _.
  apply bind_defined; [done|]. intros [foot foot_len] _. apply bind_defined; [done|]. intros body_len _.
  apply bind_defined; [by destruct (px_builder _); [apply bind_defined|]|]. intros point _. by repeat case_match.
Qed.

Lemma advance_bloom w r w' : advance_bucket w r = Ok w' → ew_bloom w' = ew_bloom w.
Proof.
  unfold advance_bucket. destruct (bk_key _) as [prev|]; [|by intros [= <-]].
  destruct (bytes_cmp _ _); [|done|].
  - destruct (bk_last_partner _) as [p|]; [|by intros [= <-]]. intros H. ensured H. by injection H as <-.
  - unfold flush_current_bucket. destruct (bk_key _) as [key|]; [|by intros [= <-]]. destruct (_ =? 0); [by intros [= <-]|].
    intros H. apply result_bind_Ok in H as (dense & _ & H). cbv zeta in H.
    apply result_bind_Ok in H as ([fence n] & _ & H). by injection H as <-.
Qed.

Lemma extend_defined w rs :
  bloom_wf (ew_bloom w) → EdgeSstWriter_extend xxh3_64 zstd_encode crc32 w rs ≠ None.
Proof.
  revert w. induction rs as [|r rs IH]; intros w Hwf; [done|]. cbn [EdgeSstWriter_extend].
  assert (EdgeSstWriter_append xxh3_64 zstd_encode crc32 w r ≠ None
    ∧ ∀ w', EdgeSstWriter_append xxh3_64 zstd_encode crc32 w r = Some (Ok w') → bloom_wf (ew_bloom w')) as [Hd Hw].
  2:{ apply bind_defined; [done|]. intros w' Hw'. by apply IH, Hw. }
  unfold EdgeSstWriter_append. destruct (negb _); [done|]. destruct (append_point _ _ _) as [point|]; [|done].
  cbn [lift mbind outcome_bind]. destruct (advance_bucket w r) as [w1|] eqn:Hadv; [|done].
  apply advance_bloom in Hadv. cbn [mbind outcome_bind]. rewrite <- Hadv in Hwf.
  destruct (insert_contains xxh3_64 xxh3_64_u64 (ew_bloom w1) (er_key_id r) Hwf) as (f & -> & Hf & _).
  assert (∃ g, (if bool_decide (bk_key (ew_bucket w1) ≠ Some (er_key_id r)) then mret f else mret (ew_bloom w1) : outcome BloomFilter)
    = Some (Ok g) ∧ bloom_wf g) as (g & -> & Hg) by (case_bool_decide; by eexists). cbn [mbind outcome_bind].
  destruct (append_bucket _ _) as [b|]; [|done]. destruct (PropertyStream_append _ _ _ _) as [ov|]; [|done].
  destruct (append_declared _ _ _ _) as [decl|]; [|done]. split; [done|]. by intros w' [= <-].
Qed.

Lemma compact_newest edge_def env limit bodies all edge_type direction gc sst_id max_entry max_sst :
  sources_ok edge_def env limit bodies all →
  ∃ total_keys out (options := merge_options edge_type edge_def direction total_keys),
    total_keys ≤ Z.of_nat (length (concat all)) ∧ edge_run out ∧ out ⊆+ concat all ∧ Forall record_ok out
    ∧ (∀ k, find_edge k out = kept_edge gc (newest_edge k all))
    ∧ compact_edges xxh3_64 blake3 zstd_encode zstd_decompress crc32 env bodies edge_type edge_def direction gc
        sst_id max_entry max_sst
      = (w ← EdgeSstWriter_extend xxh3_64 zstd_encode crc32 (EdgeSstWriter_new options sst_id max_entry max_sst) out;
         build ← finish_with_point_index xxh3_64 blake3 zstd_encode w;
         mret (if decide (out = []) then None else Some build)).
Proof.
  intros [[Hv Hd Hu] [Henv Hlim] Hsrc Hwithin].
  destruct (merge_sources_newest xxh3_64 blake3 zstd_encode zstd_decompress xxh3_64_u64 crc32 blake3_length zstd_law
    _ Hv Hd env limit Henv Hlim bodies all edge_type edge_def direction gc sst_id max_entry max_sst Hsrc Hwithin)
    as (total & out & Htotal & Hrun & Hsub & Hok & Hfind & Hmerge).
  exists total, out. cbv zeta. split_and!; try done. unfold compact_edges. rewrite Hmerge.
  destruct (EdgeSstWriter_extend _ _ _ _ _) as [[w|]|] eqn:Hext; [|done|done]. cbn [mbind outcome_bind].
  destruct (finish_with_point_index _ _ _ _) as [[build|]|] eqn:Hfin; [|done|done]. cbn [mbind outcome_bind mret outcome_ret].
  rewrite (built_edge_count xxh3_64 blake3 zstd_encode zstd_decompress zstd_law crc32 _ _ max_entry max_sst out build Hok)
    by (by exists w). destruct out; [done|]. by rewrite decide_False.
Qed.

Lemma merge_options_ok edge_type edge_def direction total sst_id :
  edge_def_ok edge_def → length sst_id = 16%nat →
  options_ok (merge_options edge_type edge_def direction total) sst_id.
Proof.
  intros [_ _ Hu] Hid. split; [done|done|done|]. by rewrite merge_declared_properties.
Qed.

(** ** The theorems *)

(** C5: the edge merge terminates and is a rewrite. Whatever bodies the writer built,
    [compact_edges] returns: the merge loop ends within one turn per source row, no
    read or write panics, and the outcome, errors included, is that of one writer fed
    the records [out]. These are strictly sorted by key and partner, and hold for every
    edge the newest record of any source, the earliest source winning a tie, unless it
    is a tombstone and tombstones are collected. *)
Theorem edge_merge_rewrites edge_def env limit bodies all edge_type direction gc sst_id max_entry max_sst :
  sources_ok edge_def env limit bodies all →
  let merged := compact_edges xxh3_64 blake3 zstd_encode zstd_decompress crc32 env bodies edge_type edge_def
                  direction gc sst_id max_entry max_sst in
  merged ≠ None ∧
  ∃ total_keys out,
    edge_run out
    ∧ (∀ key partner, find_edge (key, partner) out = kept_edge gc (newest_edge (key, partner) all))
    ∧ merged = (w ← EdgeSstWriter_extend xxh3_64 zstd_encode crc32
                      (EdgeSstWriter_new (merge_options edge_type edge_def direction total_keys)
                         sst_id max_entry max_sst) out;
                build ← finish_with_point_index xxh3_64 blake3 zstd_encode w;
                mret (if decide (out = []) then None else Some build)).
Proof.
  intros Hok merged.
  destruct (compact_newest _ _ _ _ _ edge_type direction gc sst_id max_entry max_sst Hok)
    as (total & out & Htotal & Hrun & _ & _ & Hfind & Hmerged).
  fold merged in Hmerged. split; [|by exists total, out]. rewrite Hmerged.
  apply bind_defined; [apply extend_defined|]; [|intros w _; apply bind_defined; [apply finish_defined|done]].
  apply with_capacity_wf; [done|]. destruct (so_within _ _ _ _ _ Hok) as [_ Hrows].
  cbn [merge_options eo_expected_keys eo_bits_per_key EdgeSstWriterOptions_new].
  unfold MAX_PROPERTY_PAGE_DIRECTORY_BYTES, PROPERTY_PAGE_ENTRY_LEN, DEFAULT_BITS_PER_KEY in *. lia.
Qed.

(** The merged edge SST reads back as the newest records. When the compaction
    writes an SST, the reader opens it; its rows are strictly sorted records [out]
    that are, for every edge, the newest record of any source (none for a collected
    tombstone); the scan, the point lookups, the overflow column and every declared
    column are those of [out]. When it writes none, no edge has a record to keep. *)
Theorem edge_compaction_reads edge_def env limit bodies all edge_type direction gc sst_id max_entry max_sst res
    zstd_decode_all arrow_ipc_strings :
  sources_ok edge_def env limit bodies all → length sst_id = 16%nat →
  compact_edges xxh3_64 blake3 zstd_encode zstd_decompress crc32 env bodies edge_type edge_def direction gc
    sst_id max_entry max_sst = Some (Ok res) →
  match res with
  | None => ∀ key partner, kept_edge gc (newest_edge (key, partner) all) = None
  | Some build =>
      ∃ r out,
        EdgeSstReader_open xxh3_64 (upload_bytes (ebd_body build)) = Ok r
        ∧ edge_run out
        ∧ (∀ key partner, find_edge (key, partner) out = kept_edge gc (newest_edge (key, partner) all))
        ∧ EdgeSstReader_scan_all_edges xxh3_64 env r = Some (Ok (map projection out))
        ∧ (∀ key partner,
             EdgeSstReader_lookup_partner xxh3_64 r key partner = Some (Ok (lookup_edge out key partner)))
        ∧ read_overflow_strings xxh3_64 zstd_decompress zstd_decode_all arrow_ipc_strings r
          = Ok (column_value (overflow_column out))
        ∧ ∀ j name, declared_property_names edge_def !! j = Some name →
            read_declared_property_strings xxh3_64 zstd_decompress zstd_decode_all arrow_ipc_strings r name
            = Ok (column_value (column j out))
  end.
Proof.
  intros Hok Hid Hres.
  destruct (compact_newest _ _ _ _ _ edge_type direction gc sst_id max_entry max_sst Hok)
    as (total & out & _ & Hrun & Hsub & Hrec & Hfind & Hmerged).
  rewrite Hmerged in Hres. apply outcome_bind_Ok in Hres as (w & Hext & Hres).
  apply outcome_bind_Ok in Hres as (build & Hfin & Hres). injection Hres as <-.
  destruct (decide (out = [])) as [->|_]; [intros key partner; by rewrite <- Hfind|].
  pose proof (merge_options_ok edge_type edge_def direction total sst_id (so_def _ _ _ _ _ Hok) Hid) as Hopts.
  destruct Hok as [[Hv Hd Hu] [Henv Hlim] _ Hwithin].
  destruct (source_reads xxh3_64 blake3 zstd_encode zstd_decompress xxh3_64_u64 crc32 blake3_length zstd_law _ Hv Hd
    env limit Henv Hlim (upload_bytes (ebd_body build)) out zstd_decode_all arrow_ipc_strings)
    as (_ & _ & _ & r & Hopen & Hscan & Hlookup & Ho & Hdecl).
  - eexists _, sst_id, max_entry, max_sst, build. split_and!; [done|apply merge_declared_properties|done|by exists w|done].
  - by eapply within_submseteq.
  - by exists r, out.
Qed.
End Compaction.
