(* ===== verification/Compaction.v ===== *)
(** Leveled compaction of node SSTs ([compact.rs], and the row type of [flush.rs]).

    [plan_bucket_merge] chooses the inputs of a merge, [merge_node_sources] streams
    the inputs into one run, [install_ssts] is the change of the manifest. A node
    body is read through the parquet and arrow crates: the class [Arrow] is what the
    cursor uses of them. The collectors of sidecars and the output writer see the
    kept rows one by one and can fail; they are the argument [observe], a state and a
    step of any kind. *)
From S2P Require Import Prelude StorageError Memtable ManifestTypes KwayMerge.

(** ** Rows *)

Record NodeRow := { nr_id : Z; nr_lsn : Z; nr_op : MemOp }.

(** ** Planning *)

(** [base * ratio^(level-1)], saturating. *)
Definition level_budget_bytes (level base ratio : Z) : Z :=
  Nat.iter (Z.to_nat (level - 1)) (λ budget, saturating_mul64 budget ratio) base.

Record BucketPlan := {
  bp_inputs : list SstDescriptor;
  bp_target_level : Z;
  bp_is_deepest : bool;
}.

Definition at_level (level : Z) (sources : list SstDescriptor) : list SstDescriptor :=
  List.filter (λ d, sst_level d =? level) sources.
(** [iter().map(|d| d.size_bytes).sum()] in the release profile *)
Definition total_size (start : Z) (ds : list SstDescriptor) : Z :=
  foldl (λ cum d, wrapping_add64 cum (sst_size_bytes d)) start ds.
Definition deepest_level (sources : list SstDescriptor) : Z :=
  foldr Z.max 0 (map sst_level sources).

(** The cascade. [deeper] is the number of levels from [target] down to the
    deepest occupied one. *)
Fixpoint cascade (deeper : nat) (sources : list SstDescriptor) (base ratio : Z)
    (inputs : list SstDescriptor) (cum target : Z) : list SstDescriptor * Z :=
  let ds := at_level target sources in
  let inputs := inputs ++ ds in
  let cum := total_size cum ds in
  if cum <=? level_budget_bytes target base ratio then (inputs, target)
  else
    match deeper with
    | S deeper => cascade deeper sources base ratio inputs cum (target + 1)
    | O => (inputs, if 1 <=? deepest_level sources then (target + 1) `mod` 2 ^ 32 else target)
    end.

Definition plan_bucket_merge (sources : list SstDescriptor) (base ratio : Z) : option BucketPlan :=
  let l0 := at_level 0 sources in
  let deepest_present := deepest_level sources in
  let '(inputs, target) :=
    cascade (Z.to_nat (deepest_present - 1)) sources base ratio l0 (total_size 0 l0) 1 in
  if (length inputs <? 2)%nat then None
  else Some {| bp_inputs := inputs; bp_target_level := target; bp_is_deepest := deepest_present <=? target |}.

(** The node wrapper adds the one-time format migration of whole buckets;
    [needs_migration] is [node_descriptor_needs_migration] for the bucket's schema. *)
Definition plan_node_bucket (sources : list SstDescriptor) (base ratio : Z)
    (needs_migration : SstDescriptor → bool) (force_search_rebuild : bool) : option BucketPlan :=
  match plan_bucket_merge sources base ratio with
  | Some plan => Some plan
  | None =>
      let needs_migration := force_search_rebuild || existsb needs_migration sources in
      match negb needs_migration, sources with
      | false, _ :: _ =>
          Some {| bp_inputs := sources; bp_target_level := Z.max (deepest_level sources) 1; bp_is_deepest := true |}
      | _, _ => None
      end
  end.

(** ** The node merge *)

(** A parquet body is read as a sequence of record batches. *)
Class Arrow := {
  Body : Type;
  RecordBatch : Type;
  (** opening checks the footer and the schema; each further batch can fail *)
  open_batches : Body → Result (list (Result RecordBatch));
  num_rows : RecordBatch → nat;
  (** a mandatory column that is absent or of the wrong type *)
  missing_column : RecordBatch → option string;
  (** [None] when the value is not 16 bytes long *)
  node_id_at : RecordBatch → nat → option Z;
  lsn_at : RecordBatch → nat → Z;
  tombstone_at : RecordBatch → nat → bool;
  (** the declared columns and the overflow map, re-encoded as a node payload *)
  payload_at : RecordBatch → nat → Result (list byte);
}.

Section node_merge.
Context `{Arrow}.

Definition NodeBatchView_new (batch : RecordBatch) : Result RecordBatch :=
  match missing_column batch with
  | None => Ok batch
  | Some name => Err (Invariant (name +:+ " column missing"))
  end.

Definition batch_key (view : RecordBatch) (row : nat) : Result (Z * Z) :=
  match node_id_at view row with
  | Some id => Ok (id, lsn_at view row)
  | None => Err (Invariant "node_id row length != 16")
  end.

Definition materialize (view : RecordBatch) (row : nat) : Result NodeRow :=
  '(id, lsn) ← batch_key view row;
  if tombstone_at view row then Ok {| nr_id := id; nr_lsn := lsn; nr_op := Tombstone |}
  else
    payload ← payload_at view row;
    Ok {| nr_id := id; nr_lsn := lsn; nr_op := Upsert payload |}.

Record NodeSourceCursor := {
  sc_batches : list (Result RecordBatch);
  sc_view : option RecordBatch;
  sc_row : nat;
  sc_current : option (Z * Z);
  sc_started : bool;
}.

Definition NodeSourceCursor_open (body : Body) : Result NodeSourceCursor :=
  batches ← open_batches body;
  Ok {| sc_batches := batches; sc_view := None; sc_row := 0; sc_current := None; sc_started := false |}.

Definition at_row (batches : list (Result RecordBatch)) (view : RecordBatch) (row : nat)
    : Result NodeSourceCursor :=
  current ← batch_key view row;
  Ok {| sc_batches := batches; sc_view := Some view; sc_row := row; sc_current := Some current; sc_started := true |}.

(** The loop of [position] once the current view is used up. *)
Fixpoint next_view (batches : list (Result RecordBatch)) (row : nat) : Result NodeSourceCursor :=
  match batches with
  | [] => Ok {| sc_batches := []; sc_view := None; sc_row := row; sc_current := None; sc_started := true |}
  | Err e :: _ => Err e
  | Ok batch :: batches =>
      if (0 <? num_rows batch)%nat then
        view ← NodeBatchView_new batch;
        if (row <? num_rows view)%nat then at_row batches view row else next_view batches 0
      else next_view batches row
  end.

Definition position (c : NodeSourceCursor) : Result NodeSourceCursor :=
  match sc_view c with
  | Some view =>
      if (sc_row c <? num_rows view)%nat then at_row (sc_batches c) view (sc_row c)
      else next_view (sc_batches c) 0
  | None => next_view (sc_batches c) (sc_row c)
  end.

Definition ensure_positioned (c : NodeSourceCursor) : Result NodeSourceCursor :=
  if sc_started c then Ok c else position c.

Definition advance (c : NodeSourceCursor) : Result NodeSourceCursor :=
  if negb (sc_started c) then Err (Invariant "node merge cursor advanced before activation")
  else
    position {| sc_batches := sc_batches c; sc_view := sc_view c; sc_row := S (sc_row c);
                sc_current := sc_current c; sc_started := true |}.

Definition materialize_current (c : NodeSourceCursor) : Result NodeRow :=
  match sc_view c with
  | Some view => materialize view (sc_row c)
  | None => Err (Invariant "node merge cursor materialised past its end")
  end.

Record NodeHeapEntry := { nh_id : Z; nh_lsn : Z; nh_src : nat }.

(** [impl Ord]: id ascending, LSN descending, source ascending. *)
Definition NodeHeapEntry_cmp (a b : NodeHeapEntry) : comparison :=
  match nh_id a ?= nh_id b with
  | Eq => match nh_lsn b ?= nh_lsn a with
          | Eq => (nh_src a ?= nh_src b)%nat
          | o => o
          end
  | o => o
  end.
Definition node_entry_lt (a b : NodeHeapEntry) : bool :=
  match NodeHeapEntry_cmp a b with Lt => true | _ => false end.

(** The order of the unopened sources: tuples of a minimum key and a source. *)
Definition hint_lt (a b : Z * nat) : bool :=
  match a.1 ?= b.1 with Lt => true | Eq => (a.2 <? b.2)%nat | Gt => false end.

(** The loop that activates every source at or below the heap's frontier;
    [n] is the number of unopened sources. Indexing out of range would panic
    ([None]). *)
Fixpoint activate (n : nat) (cursors : list NodeSourceCursor) (unopened : list (Z * nat))
    (heap : list NodeHeapEntry)
    : option (Result (list NodeSourceCursor * list (Z * nat) * list NodeHeapEntry)) :=
  match n, pop_min hint_lt unopened with
  | S n, Some ((hinted_min, src), unopened') =>
      let active_min := (λ '(e, _), nh_id e) <$> pop_min node_entry_lt heap in
      if match active_min with Some active => active <? hinted_min | None => false end
      then Some (Ok (cursors, unopened, heap))
      else
        cursor ← cursors !! src;
        match ensure_positioned cursor with
        | Err e => Some (Err e)
        | Ok cursor =>
            match sc_current cursor with
            | None => Some (Err (Invariant "manifest references an empty node compaction input"))
            | Some (id, lsn) =>
                if negb (id =? hinted_min)
                then Some (Err (Corrupted "<compaction-input>" "node SST first key disagrees with manifest min_key"))
                else activate n (<[src := cursor]> cursors) unopened'
                       ({| nh_id := id; nh_lsn := lsn; nh_src := src |} :: heap)
            end
        end
  | _, _ => Some (Ok (cursors, unopened, heap))
  end.

Section merge_loop.
Context {Sink : Type} (observe : Sink → NodeRow → Result Sink) (gc_tombstones : bool).

Definition is_tombstone (op : MemOp) : bool := match op with Tombstone => true | Upsert _ => false end.

(** What the loop does with a popped entry: the first of an id is the winner. *)
Definition consume (cursor : NodeSourceCursor) (entry : NodeHeapEntry) (last_id : option Z)
    (out : list NodeRow) (sink : Sink) : Result (list NodeRow * Sink) :=
  if decide (last_id = Some (nh_id entry)) then Ok (out, sink)
  else
    row ← materialize_current cursor;
    if gc_tombstones && is_tombstone (nr_op row) then Ok (out, sink)
    else
      sink ← observe sink row;
      Ok (out ++ [row], sink).

(** [None]: out of fuel, or an index out of range. *)
Fixpoint merge_nodes (fuel : nat) (cursors : list NodeSourceCursor) (unopened : list (Z * nat))
    (heap : list NodeHeapEntry) (last_id : option Z) (out : list NodeRow) (sink : Sink)
    : option (Result (list NodeRow * Sink)) :=
  match fuel with
  | O => None
  | S fuel =>
      r ← activate (length unopened) cursors unopened heap;
      match r with
      | Err e => Some (Err e)
      | Ok (cursors, unopened, heap) =>
          match pop_min node_entry_lt heap with
          | None => Some (Ok (out, sink))
          | Some (entry, heap) =>
              cursor ← cursors !! nh_src entry;
              match consume cursor entry last_id out sink, advance cursor with
              | Ok (out, sink), Ok cursor =>
                  let heap :=
                    match sc_current cursor with
                    | Some (id, lsn) => {| nh_id := id; nh_lsn := lsn; nh_src := nh_src entry |} :: heap
                    | None => heap
                    end in
                  merge_nodes fuel (<[nh_src entry := cursor]> cursors) unopened heap (Some (nh_id entry)) out sink
              | Err e, _ | _, Err e => Some (Err e)
              end
          end
      end
  end.

Record NodeMergeInput := { mi_body : Body; mi_min_key : Z }.

Fixpoint open_inputs (inputs : list NodeMergeInput) (src : nat)
    : Result (list NodeSourceCursor * list (Z * nat)) :=
  match inputs with
  | [] => Ok ([], [])
  | input :: inputs =>
      cursor ← NodeSourceCursor_open (mi_body input);
      '(cursors, unopened) ← open_inputs inputs (S src);
      Ok (cursor :: cursors, (mi_min_key input, src) :: unopened)
  end.

(** The rows a source can still deliver, which bounds the loop. *)
Definition batch_rows (r : Result RecordBatch) : nat :=
  match r with Ok batch => num_rows batch | Err _ => 0 end.
Definition total_rows (cursors : list NodeSourceCursor) : nat :=
  list_sum (map (λ c, list_sum (map batch_rows (sc_batches c))) cursors).

Definition merge_node_sources (inputs : list NodeMergeInput) (sink : Sink)
    : option (Result (list NodeRow * Sink)) :=
  match open_inputs inputs 0 with
  | Err e => Some (Err e)
  | Ok (cursors, unopened) => merge_nodes (S (total_rows cursors)) cursors unopened [] None [] sink
  end.
End merge_loop.
End node_merge.

(** ** Installing a merge *)

(** A node bucket may drop tombstones only if all node SSTs share its scope. *)
Definition node_gc_safe (ssts : list SstDescriptor) : bool :=
  (size (list_to_set (map sst_scope (List.filter (λ d, bool_decide (sst_kind d = SkNodes)) ssts)) : gset string) <=? 1)%nat.

Record PreparedNodeRewrite := {
  pr_inputs : list SstDescriptor;
  pr_output : option SstDescriptor;
}.

(** The outcome of a node merge; [write] uploads a non-empty output. *)
Definition node_rewrite (gc : bool) (inputs : list SstDescriptor) (out : list NodeRow)
    (write : list NodeRow → Result SstDescriptor) : Result PreparedNodeRewrite :=
  match out with
  | [] =>
      if gc then Ok {| pr_inputs := inputs; pr_output := None |}
      else Err (Invariant "non-authoritative node compaction produced an empty output")
  | _ => desc ← write out; Ok {| pr_inputs := inputs; pr_output := Some desc |}
  end.

(** One input of a rewrite: still in the manifest, once and unchanged. *)
Definition verify_input (ssts : list SstDescriptor) (claimed : gset Z) (input : SstDescriptor) : Result (gset Z) :=
  if bool_decide (sst_kind input = SkNodes) && bool_decide (sst_id input ∉ claimed) then
    match List.filter (λ d, sst_id d =? sst_id input) ssts with
    | [current] =>
        if decide (current = input) then Ok ({[sst_id input]} ∪ claimed)
        else Err (Precondition "abandoning prepared compaction: Nodes input changed between prepare and install")
    | [] => Err (Precondition "abandoning prepared compaction: another compaction won the install race")
    | _ => Err (Invariant "manifest lists Nodes SST more than once")
    end
  else Err (Invariant "prepared Nodes rewrite inputs are not unique Nodes descriptors").

Fixpoint verify_inputs (ssts : list SstDescriptor) (claimed : gset Z) (inputs : list SstDescriptor) : Result (gset Z) :=
  match inputs with
  | [] => Ok claimed
  | input :: inputs => claimed ← verify_input ssts claimed input; verify_inputs ssts claimed inputs
  end.

Fixpoint verify_rewrites (ssts : list SstDescriptor) (claimed : gset Z) (rewrites : list PreparedNodeRewrite)
    : Result () :=
  match rewrites with
  | [] => Ok ()
  | rewrite_ :: rewrites =>
      match pr_inputs rewrite_ with
      | [] => Err (Invariant "prepared Nodes rewrite has no input descriptors")
      | inputs =>
          claimed ← verify_inputs ssts claimed inputs;
          if match pr_output rewrite_ with Some output => bool_decide (sst_kind output = SkNodes) | None => true end
          then verify_rewrites ssts claimed rewrites
          else Err (Invariant "prepared Nodes rewrite output is not a Nodes descriptor")
      end
  end.
Definition verify_node_rewrite_inputs (ssts : list SstDescriptor) (rewrites : list PreparedNodeRewrite) : Result () :=
  verify_rewrites ssts ∅ rewrites.

(** [install_prepared]: every input still referenced, then [retain] and [extend]. *)
Definition install_ssts (current : list SstDescriptor) (removed_ids : list Z) (new_descs : list SstDescriptor)
    : Result (list SstDescriptor) :=
  if forallb (λ id, existsb (λ d, sst_id d =? id) current) removed_ids
  then Ok (List.filter (λ d, negb (existsb (λ id, sst_id d =? id) removed_ids)) current ++ new_descs)
  else Err (Precondition "abandoning prepared compaction: input SST is no longer referenced").

(** [prepare_leveled] and [install_prepared] for one node bucket. [current] is the
    manifest at install time, which flushes may have advanced past [base].
    [body_of] fetches an input, [finish] closes the writer and the collectors,
    [write_sst] uploads the output, and [access_bundle] is the rebuilt locator of a
    lone input that needs nothing else. *)
Section compact.
Context `{Arrow} {Sink : Type} (observe : Sink → NodeRow → Result Sink).
Context (body_of : SstDescriptor → Result Body) (finish : Sink → Result unit).
Context (write_sst : list NodeRow → Result SstDescriptor).
Context (needs_migration : SstDescriptor → bool) (access_bundle : SstDescriptor → option (Result NodeLocatorDescriptor)).

Definition node_sources (ssts : list SstDescriptor) (label : string) : list SstDescriptor :=
  List.filter (λ d, bool_decide (sst_kind d = SkNodes) && String.eqb (sst_scope d) label) ssts.

Definition with_locator (d : SstDescriptor) (locator : NodeLocatorDescriptor) : SstDescriptor :=
  {| sst_id := sst_id d; sst_kind := sst_kind d; sst_scope := sst_scope d; sst_level := sst_level d;
     sst_path := sst_path d; sst_size_bytes := sst_size_bytes d; sst_row_count := sst_row_count d;
     sst_created_at := sst_created_at d; sst_min_key := sst_min_key d; sst_max_key := sst_max_key d;
     sst_min_lsn := sst_min_lsn d; sst_max_lsn := sst_max_lsn d; sst_bloom := sst_bloom d;
     sst_unique_property_indices := sst_unique_property_indices d;
     sst_equality_property_indices := sst_equality_property_indices d;
     sst_composite_equality_indices := sst_composite_equality_indices d;
     sst_label_index := sst_label_index d; sst_node_locator := Some locator; sst_extra := sst_extra d |}.

Definition install_rewrite (current : list SstDescriptor) (rewrite_ : PreparedNodeRewrite) : Result (list SstDescriptor) :=
  _ ← verify_node_rewrite_inputs current [rewrite_];
  install_ssts current (map sst_id (pr_inputs rewrite_)) (match pr_output rewrite_ with Some d => [d] | None => [] end).

Fixpoint fetch_inputs (inputs : list SstDescriptor) : Result (list NodeMergeInput) :=
  match inputs with
  | [] => Ok []
  | d :: inputs =>
      body ← body_of d;
      rest ← fetch_inputs inputs;
      Ok ({| mi_body := body; mi_min_key := sst_min_key d |} :: rest)
  end.

Definition lone_bundle (plan : BucketPlan) : option (SstDescriptor * Result NodeLocatorDescriptor) :=
  match bp_inputs plan with
  | [d] => pair d <$> access_bundle d
  | _ => None
  end.

Definition compact_node_bucket (base current : list SstDescriptor) (label : string) (base_bytes ratio : Z)
    (force_search_rebuild : bool) (sink : Sink) : option (Result (list SstDescriptor)) :=
  match plan_node_bucket (node_sources base label) base_bytes ratio needs_migration force_search_rebuild with
  | None => Some (Ok current)
  | Some plan =>
      match lone_bundle plan with
      | Some (d, locator) =>
          Some (locator ← locator;
                install_rewrite current {| pr_inputs := [d]; pr_output := Some (with_locator d locator) |})
      | None =>
          let gc := node_gc_safe base && bp_is_deepest plan in
          match fetch_inputs (bp_inputs plan) with
          | Err e => Some (Err e)
          | Ok inputs =>
              r ← merge_node_sources observe gc inputs sink;
              match r with
              | Err e => Some (Err e)
              | Ok (out, sink) =>
                  Some (_ ← finish sink;
                        rewrite_ ← node_rewrite gc (bp_inputs plan) out write_sst;
                        install_rewrite current rewrite_)
              end
          end
      end
  end.
End compact.
