(* ===== verification/CompactionMerge.v ===== *)
(** The streaming node merge delivers the newest row of every id.

    [body_holds body rows] says what a body contains; the cursor is shown to
    deliver those rows one by one, and each turn of the merge loop to be a step of
    [KwayMerge.kstep], although sources are opened only when the frontier reaches
    their minimum key. *)
From S2P Require Import Prelude StorageError Memtable ManifestTypes KwayMerge Compaction.

Abbreviation node_run := (run Z.lt nr_id).
Abbreviation find_node := (find_row nr_id).
Abbreviation newest_node := (newest nr_id nr_lsn).
Definition node_tomb (r : NodeRow) : bool := is_tombstone (nr_op r).
Abbreviation kept_node := (kept node_tomb).

Section cursor.
Context `{Arrow}.

Definition decoded (view : RecordBatch) (rows : list NodeRow) : Prop :=
  missing_column view = None ∧ length rows = num_rows view ∧
  ∀ i r, rows !! i = Some r → materialize view i = Ok r.
Definition batches_hold (batches : list (Result RecordBatch)) (rows : list NodeRow) : Prop :=
  ∃ parts, Forall2 (λ b part, ∃ view, b = Ok view ∧ decoded view part) batches parts ∧ rows = concat parts.
(** The body opens, all its batches decode, and these are its rows. *)
Definition body_holds (body : Body) (rows : list NodeRow) : Prop :=
  ∃ batches, open_batches body = Ok batches ∧ batches_hold batches rows.

Definition fresh (c : NodeSourceCursor) (rows : list NodeRow) : Prop :=
  sc_started c = false ∧ sc_view c = None ∧ sc_row c = 0%nat ∧ batches_hold (sc_batches c) rows.
Definition positioned (c : NodeSourceCursor) (rows : list NodeRow) : Prop :=
  sc_started c = true ∧
  match rows with
  | [] => sc_current c = None
  | r :: _ =>
      sc_current c = Some (nr_id r, nr_lsn r) ∧
      ∃ view part tail, sc_view c = Some view ∧ decoded view part ∧ batches_hold (sc_batches c) tail ∧
        rows = drop (sc_row c) part ++ tail ∧ (sc_row c < length part)%nat
  end.

Lemma materialize_key view i r : materialize view i = Ok r → batch_key view i = Ok (nr_id r, nr_lsn r).
Proof.
  unfold materialize. destruct (batch_key view i) as [[id l]|e] eqn:Hk; [|done]. simpl.
  destruct (tombstone_at view i); [by intros [= <-]|].
  destruct (payload_at view i); simpl; [by intros [= <-]|done].
Qed.

Lemma at_row_positioned batches view part row tail rows :
  decoded view part → batches_hold batches tail → (row < length part)%nat →
  rows = drop row part ++ tail → ∃ c, at_row batches view row = Ok c ∧ positioned c rows.
Proof.
  intros Hd Hb Hlt ->. destruct (lookup_lt_is_Some_2 part row Hlt) as [r Hr].
  pose proof Hd as (_ & _ & Hmat). pose proof (materialize_key _ _ _ (Hmat _ _ Hr)) as Hkey.
  unfold at_row. rewrite Hkey. simpl. eexists. split; [done|]. split; [done|].
  rewrite (drop_S _ _ _ Hr). simpl. split; [done|]. exists view, part, tail.
  split_and!; try done. by rewrite (drop_S _ _ _ Hr).
Qed.

Lemma next_view_positioned batches rows :
  batches_hold batches rows → ∃ c, next_view batches 0 = Ok c ∧ positioned c rows.
Proof.
  intros (parts & Hall & ->).
  induction Hall as [|b part batches parts (view & -> & Hd) Hall IH]; simpl; [eexists; split; [done|by split]|].
  pose proof Hd as (Hcol & Hlen & _). destruct (decide (part = [])) as [->|Hne].
  - simpl in Hlen. rewrite <- Hlen. simpl. exact IH.
  - assert (0 < length part)%nat as Hpos by (destruct part; [done|simpl; lia]).
    assert ((0 <? num_rows view)%nat = true) as Hz by (apply Nat.ltb_lt; lia).
    rewrite Hz. unfold NodeBatchView_new. rewrite Hcol. simpl. rewrite Hz.
    eapply at_row_positioned; [exact Hd|by exists parts|lia|done].
Qed.

Lemma ensure_fresh c rows :
  fresh c rows → ∃ c', ensure_positioned c = Ok c' ∧ positioned c' rows.
Proof.
  intros (Hs & Hv & Hr & Hb). unfold ensure_positioned, position. rewrite Hs, Hv, Hr.
  by apply next_view_positioned.
Qed.

Lemma materialize_positioned c r rest : positioned c (r :: rest) → materialize_current c = Ok r.
Proof.
  intros (_ & _ & view & part & tail & Hv & (_ & _ & Hmat) & _ & Hrows & Hlt).
  unfold materialize_current. rewrite Hv. apply Hmat.
  destruct (lookup_lt_is_Some_2 part _ Hlt) as [x Hx]. rewrite (drop_S _ _ _ Hx) in Hrows.
  simpl in Hrows. by simplify_eq.
Qed.

Lemma advance_positioned c r rest :
  positioned c (r :: rest) → ∃ c', advance c = Ok c' ∧ positioned c' rest.
Proof.
  intros (Hs & _ & view & part & tail & Hv & Hd & Hb & Hrows & Hlt).
  destruct (lookup_lt_is_Some_2 part _ Hlt) as [x Hx]. rewrite (drop_S _ _ _ Hx) in Hrows.
  simpl in Hrows. simplify_eq. pose proof Hd as (_ & Hlen & _).
  unfold advance, position. rewrite Hs, Hv. simpl. destruct (S (sc_row c) <? num_rows view)%nat eqn:Hn.
  - apply Nat.ltb_lt in Hn. eapply at_row_positioned; [done|done|lia|done].
  - apply Nat.ltb_ge in Hn. rewrite drop_ge by lia. by apply next_view_positioned.
Qed.

Lemma positioned_current c rows : positioned c rows →
  sc_current c = (λ r, (nr_id r, nr_lsn r)) <$> head rows.
Proof. destruct rows as [|r rows]; intros [_ Hc]; [done|]. by destruct Hc. Qed.
End cursor.

(** ** The loop *)

Lemma node_entry_lt_spec a b :
  node_entry_lt a b = true ↔
  nh_id a < nh_id b ∨ (nh_id a = nh_id b ∧ (nh_lsn b < nh_lsn a ∨ (nh_lsn a = nh_lsn b ∧ (nh_src a < nh_src b)%nat))).
Proof.
  unfold node_entry_lt, NodeHeapEntry_cmp.
  destruct (Z.compare_spec (nh_id a) (nh_id b)), (Z.compare_spec (nh_lsn b) (nh_lsn a)),
    (Nat.compare_spec (nh_src a) (nh_src b)); split; intros; try done; try lia.
Qed.

Lemma node_entry_lt_false a b :
  node_entry_lt a b = false ↔
  nh_id b < nh_id a ∨ (nh_id a = nh_id b ∧ (nh_lsn a < nh_lsn b ∨ (nh_lsn a = nh_lsn b ∧ (nh_src b ≤ nh_src a)%nat))).
Proof.
  rewrite <- not_true_iff_false, node_entry_lt_spec. lia.
Qed.

Lemma hint_lt_false a b : hint_lt a b = false ↔ b.1 < a.1 ∨ (a.1 = b.1 ∧ (b.2 ≤ a.2)%nat).
Proof.
  unfold hint_lt. destruct (Z.compare_spec a.1 b.1), (Nat.ltb_spec a.2 b.2); split; intros; try done; lia.
Qed.
Lemma hint_lt_true a b : hint_lt a b = true ↔ a.1 < b.1 ∨ (a.1 = b.1 ∧ (a.2 < b.2)%nat).
Proof. rewrite <- not_false_iff_true, hint_lt_false. lia. Qed.

Lemma pop_entry heap m rest :
  pop_min node_entry_lt heap = Some (m, rest) →
  heap ≡ₚ m :: rest ∧ ∀ y, y ∈ rest → node_entry_lt y m = false.
Proof.
  apply pop_min_Some; [intros a b c|intros a|intros a b]; rewrite ?node_entry_lt_spec, ?node_entry_lt_false; lia.
Qed.

Lemma pop_hint unopened m rest :
  pop_min hint_lt unopened = Some (m, rest) →
  unopened ≡ₚ m :: rest ∧ ∀ y, y ∈ rest → hint_lt y m = false.
Proof.
  apply pop_min_Some; [intros a b c|intros a|intros a b]; rewrite ?hint_lt_true, ?hint_lt_false; lia.
Qed.

Section loop.
Context `{Arrow}.

Definition entry_of (r : NodeRow) (src : nat) : NodeHeapEntry :=
  {| nh_id := nr_id r; nh_lsn := nr_lsn r; nh_src := src |}.

(** The cursors stand at the rows still to come, the heap holds the current row of
    every opened source, and the unopened ones are known by their first id. *)
Record at_rows (cursors : list NodeSourceCursor) (unopened : list (Z * nat)) (heap : list NodeHeapEntry)
    (rem : list (list NodeRow)) : Prop := {
  ar_length : length cursors = length rem;
  ar_opened : ∀ i c rows, cursors !! i = Some c → rem !! i = Some rows → (i ∉ unopened.*2) → positioned c rows;
  ar_unopened : ∀ k i, (k, i) ∈ unopened →
    ∃ c r rest, cursors !! i = Some c ∧ rem !! i = Some (r :: rest) ∧ fresh c (r :: rest) ∧ nr_id r = k;
  ar_distinct : NoDup unopened.*2;
  ar_heap : ∀ e, e ∈ heap ↔
    ∃ r rest, rem !! nh_src e = Some (r :: rest) ∧ (nh_src e ∉ unopened.*2) ∧ e = entry_of r (nh_src e);
  ar_nodup : NoDup heap }.

(** Every unopened source starts above the heap's least id. *)
Definition frontier (unopened : list (Z * nat)) (heap : list NodeHeapEntry) : Prop :=
  ∀ k i, (k, i) ∈ unopened → ∃ m rest, pop_min node_entry_lt heap = Some (m, rest) ∧ nh_id m < k.

Lemma at_rows_open cursors unopened heap rem k src unopened' c c' r rest :
  at_rows cursors unopened heap rem → unopened ≡ₚ (k, src) :: unopened' →
  cursors !! src = Some c → rem !! src = Some (r :: rest) → positioned c' (r :: rest) →
  at_rows (<[src := c']> cursors) unopened' (entry_of r src :: heap) rem.
Proof.
  intros [Hlen Hop Hun Hdis Hheap Hnd] Hperm Hc Hrem Hpos.
  assert ((src ∉ unopened'.*2) ∧ NoDup unopened'.*2) as [Hsrc Hdis'].
  { rewrite Hperm in Hdis. simpl in Hdis. by apply NoDup_cons in Hdis. }
  assert (∀ i, i ∈ unopened.*2 ↔ i = src ∨ i ∈ unopened'.*2) as Hmem.
  { intros i. rewrite Hperm. simpl. by rewrite elem_of_cons. }
  split; [by rewrite length_insert| | |done| |].
  - intros i c0 rows Hi Hri Hnot. destruct (decide (i = src)) as [->|Hne].
    + rewrite list_lookup_insert_eq in Hi by (by eapply lookup_lt_Some). by simplify_eq.
    + rewrite list_lookup_insert_ne in Hi by done. apply (Hop i); [done|done|]. rewrite Hmem. tauto.
  - intros k0 i Hin. destruct (Hun k0 i) as (c0 & r0 & rest0 & Hc0 & Hr0 & Hf & Hk); [by rewrite Hperm; right|].
    exists c0, r0, rest0. split_and!; try done. rewrite list_lookup_insert_ne; [done|]. intros ->.
    apply Hsrc. apply list_elem_of_fmap. by exists (k0, i).
  - intros e. rewrite elem_of_cons, Hheap. split.
    + intros [->|(r0 & rest0 & Hr0 & Hnot & He)]; [by exists r, rest|].
      exists r0, rest0. split_and!; [done| |done]. intros ?. apply Hnot, Hmem. by right.
    + intros (r0 & rest0 & Hr0 & Hnot & He). destruct (decide (nh_src e = src)) as [Hes|Hne].
      * left. rewrite He, Hes. rewrite Hes in Hr0. by simplify_eq.
      * right. exists r0, rest0. split_and!; [done| |done]. rewrite Hmem. tauto.
  - constructor; [|done]. rewrite Hheap. intros (? & ? & _ & Hnot & _). apply Hnot, Hmem. by left.
Qed.

Lemma activate_ok n cursors unopened heap rem :
  length unopened = n → at_rows cursors unopened heap rem →
  ∃ cursors' unopened' heap', activate n cursors unopened heap = Some (Ok (cursors', unopened', heap')) ∧
    at_rows cursors' unopened' heap' rem ∧ frontier unopened' heap'.
Proof.
  revert cursors unopened heap. induction n as [|n IH]; intros cursors unopened heap Hn Hat.
  - apply nil_length_inv in Hn as ->. eexists _, _, _. split; [done|]. split; [done|].
    intros k i Hin. by apply elem_of_nil in Hin.
  - simpl. destruct (pop_min hint_lt unopened) as [[[k src] unopened']|] eqn:Hp;
      [|by apply pop_min_None in Hp as ->].
    apply pop_hint in Hp as [Hperm Hleast].
    destruct (ar_unopened _ _ _ _ Hat k src) as (c & r & rest & Hc & Hr & Hf & Hk); [by rewrite Hperm; left|].
    case_match eqn:Hcmp.
    + eexists _, _, _. split; [done|]. split; [done|]. intros k' i Hin.
      destruct (pop_min node_entry_lt heap) as [[m rest']|]; [|done]. simpl in Hcmp.
      exists m, rest'. split; [done|]. rewrite Hperm in Hin. apply elem_of_cons in Hin as [[= -> ->]|Hin]; [lia|].
      apply Hleast, hint_lt_false in Hin. simpl in Hin. lia.
    + rewrite Hc. simpl. destruct (ensure_fresh _ _ Hf) as (c' & -> & Hpos).
      rewrite (positioned_current _ _ Hpos). simpl. rewrite Hk, Z.eqb_refl. simpl. apply IH.
      * apply Permutation_length in Hperm. simpl in Hperm. lia.
      * rewrite <- Hk. by eapply at_rows_open.
Qed.

(** The popped entry is the current row of its source, and least among all. *)
Lemma popped_entry cursors unopened heap rem entry heap' :
  at_rows cursors unopened heap rem → frontier unopened heap →
  pop_min node_entry_lt heap = Some (entry, heap') →
  ∃ c r rest, cursors !! nh_src entry = Some c ∧ rem !! nh_src entry = Some (r :: rest) ∧
    (nh_src entry ∉ unopened.*2) ∧ entry = entry_of r (nh_src entry) ∧ positioned c (r :: rest) ∧
    ∀ j r' rest', rem !! j = Some (r' :: rest') → j ≠ nh_src entry →
      before Z.lt nr_id nr_lsn (r, nh_src entry) (r', j).
Proof.
  intros Hat Hfr Hp. pose proof (pop_entry _ _ _ Hp) as [Hperm Hleast].
  pose proof Hat as [Hlen Hop Hun _ Hheap _].
  destruct (proj1 (Hheap entry)) as (r & rest & Hr & Hnot & He); [by rewrite Hperm; left|].
  assert (is_Some (cursors !! nh_src entry)) as [c Hc].
  { apply lookup_lt_is_Some_2. rewrite Hlen. by eapply lookup_lt_Some. }
  exists c, r, rest. split_and!; try done; [by eapply Hop|]. intros j r' rest' Hj Hne.
  destruct (decide (j ∈ (unopened.*2))) as [Hin|Hnj].
  - apply list_elem_of_fmap in Hin as ([k i] & -> & Hin). simpl in *.
    destruct (Hun k i Hin) as (c0 & r0 & rest0 & _ & Hr0 & _ & Hk). rewrite Hr0 in Hj. simplify_eq.
    destruct (Hfr _ _ Hin) as (m & ? & Hm & Hlt). rewrite Hp in Hm. simplify_eq. left. simpl.
    rewrite He in Hlt. done.
  - assert (entry_of r' j ∈ heap') as Hin.
    { assert (entry_of r' j ∈ heap) as Hin by (apply Hheap; by exists r', rest').
      rewrite Hperm in Hin. apply elem_of_cons in Hin as [Heq|?]; [|done].
      destruct Hne. by rewrite <- Heq. }
    apply Hleast, node_entry_lt_false in Hin. rewrite He in Hin. unfold before. simpl in *. lia.
Qed.

Lemma at_rows_pop cursors unopened heap rem entry heap' c' r rest :
  at_rows cursors unopened heap rem → pop_min node_entry_lt heap = Some (entry, heap') →
  rem !! nh_src entry = Some (r :: rest) → (nh_src entry ∉ unopened.*2) → positioned c' rest →
  at_rows (<[nh_src entry := c']> cursors) unopened
    (match rest with r' :: _ => entry_of r' (nh_src entry) :: heap' | [] => heap' end)
    (<[nh_src entry := rest]> rem).
Proof.
  intros Hat Hp Hr Hnot Hpos. pose proof (pop_entry _ _ _ Hp) as [Hperm _].
  destruct Hat as [Hlen Hop Hun Hdis Hheap Hnd]. rewrite Hperm in Hnd. apply NoDup_cons in Hnd as [Hfresh Hnd].
  set (src := nh_src entry) in *.
  assert (src < length rem)%nat as Hlt by (by eapply lookup_lt_Some).
  assert (entry = entry_of r src) as Hentry.
  { destruct (proj1 (Hheap entry)) as (r0 & rest0 & Hr0 & _ & He); [by rewrite Hperm; left|].
    fold src in Hr0, He. rewrite Hr0 in Hr. by simplify_eq. }
  assert (∀ e, e ∈ heap' ↔ ∃ r0 rest0, rem !! nh_src e = Some (r0 :: rest0) ∧ nh_src e ≠ src ∧
            (nh_src e ∉ unopened.*2) ∧ e = entry_of r0 (nh_src e)) as Hheap'.
  { intros e. split.
    - intros Hin. destruct (proj1 (Hheap e)) as (r0 & rest0 & Hr0 & Hn & He); [by rewrite Hperm; right|].
      exists r0, rest0. split_and!; try done. intros Hes. apply Hfresh. rewrite Hes in Hr0, He.
      rewrite Hentry. rewrite Hr0 in Hr. by simplify_eq.
    - intros (r0 & rest0 & Hr0 & Hne & Hn & He). assert (e ∈ heap) as Hin by (apply Hheap; by exists r0, rest0).
      rewrite Hperm in Hin. apply elem_of_cons in Hin as [->|?]; [|done]. by destruct Hne. }
  split; [by rewrite !length_insert| | |done| |].
  - intros i c rows Hi Hri Hn. destruct (decide (i = src)) as [->|Hne].
    + rewrite list_lookup_insert_eq in Hi by lia. rewrite list_lookup_insert_eq in Hri by done. by simplify_eq.
    + rewrite list_lookup_insert_ne in Hi by done. rewrite list_lookup_insert_ne in Hri by done. by eapply Hop.
  - intros k i Hin. destruct (Hun k i Hin) as (c & r0 & rest0 & Hc & Hr0 & Hf & Hk).
    assert (i ≠ src) by (intros ->; apply Hnot, list_elem_of_fmap; by exists (k, src)).
    exists c, r0, rest0. by rewrite !list_lookup_insert_ne by done.
  - intros e. transitivity ((∃ r', head rest = Some r' ∧ e = entry_of r' src) ∨ e ∈ heap').
    { destruct rest as [|r' rest']; simpl; [naive_solver|]. rewrite elem_of_cons. naive_solver. }
    rewrite Hheap'. destruct (decide (nh_src e = src)) as [Hes|Hne].
    + rewrite Hes, list_lookup_insert_eq by done. destruct rest as [|r' rest']; simpl; naive_solver.
    + rewrite list_lookup_insert_ne by done. split; [|naive_solver].
      intros [(r' & _ & ->)|?]; [done|naive_solver].
  - destruct rest as [|r' rest']; [done|]. constructor; [|done]. rewrite Hheap'. naive_solver.
Qed.

(** *** The whole merge *)

Context {Sink : Type} (observe : Sink → NodeRow → Result Sink) (gc : bool).
(** the collectors and the writer take every row *)
Definition accepts : Prop := ∀ sink row, ∃ sink', observe sink row = Ok sink'.
Abbreviation merging_nodes := (merging Z.lt nr_id nr_lsn node_tomb gc).

Lemma consume_ok c r rest src last out sink :
  accepts → positioned c (r :: rest) →
  ∃ sink', consume observe gc c (entry_of r src) last out sink = Ok (emit nr_id node_tomb gc last r out, sink').
Proof.
  intros Hacc Hpos. unfold consume, emit. simpl. case_decide; [eauto|].
  rewrite (materialize_positioned _ _ _ Hpos). simpl. fold (node_tomb r).
  destruct (gc && node_tomb r); [eauto|]. destruct (Hacc sink r) as [sink' ->]. simpl. eauto.
Qed.

Lemma merge_nodes_ok fuel all cursors unopened heap rem last out sink :
  accepts → Forall node_run all → at_rows cursors unopened heap rem → merging_nodes all rem last out →
  (length (concat rem) < fuel)%nat →
  ∃ out' sink', merge_nodes observe gc fuel cursors unopened heap last out sink = Some (Ok (out', sink')) ∧
    node_run out' ∧ ∀ id, find_node id out' = kept_node gc (newest_node id all).
Proof.
  intros Hacc Hruns. revert cursors unopened heap rem last out sink.
  induction fuel as [|fuel IH]; intros cursors unopened heap rem last out sink Hat Hm Hfuel; [lia|].
  destruct (activate_ok _ _ _ _ _ eq_refl Hat) as (cs & un & hp & Hact & Hat' & Hfr).
  cbn [merge_nodes]. rewrite Hact. cbn [mbind option_bind].
  destruct (pop_min node_entry_lt hp) as [[entry hp']|] eqn:Hp.
  - destruct (popped_entry _ _ _ _ _ _ Hat' Hfr Hp) as (c & r & rest & Hc & Hr & Hn & He & Hpos & Hmin).
    rewrite Hc. cbn [mbind option_bind].
    destruct (consume_ok c r rest (nh_src entry) last out sink Hacc Hpos) as [sink' Hcons].
    rewrite <- He in Hcons. rewrite Hcons.
    destruct (advance_positioned _ _ _ Hpos) as (c' & -> & Hpos'). rewrite (positioned_current _ _ Hpos').
    assert (nh_id entry = nr_id r) as -> by (by rewrite He).
    assert (merging_nodes all (<[nh_src entry := rest]> rem) (Some (nr_id r)) (emit nr_id node_tomb gc last r out)) as Hm'.
    { eapply merging_step; [lia|lia|lia|done|exact Hm|]. by constructor. }
    pose proof (at_rows_pop _ _ _ _ _ _ _ _ _ Hat' Hp Hr Hn Hpos') as Hat''.
    assert (length (concat (<[nh_src entry := rest]> rem)) < fuel)%nat as Hlt
      by (pose proof (popped_total _ _ _ _ Hr); lia).
    destruct rest as [|r' rest']; by apply (IH _ _ _ _ _ _ _ Hat'' Hm' Hlt).
  - apply pop_min_None in Hp as ->. eexists _, _. split; [done|].
    eapply merging_done; [lia|lia|lia|done|exact Hm|]. apply Forall_lookup_2. intros i [|r rest] Hi; [done|].
    exfalso. destruct Hat' as [_ _ Hun _ Hheap _].
    assert (i ∉ un.*2) as Hi'.
    { intros Hin. apply list_elem_of_fmap in Hin as ([k j] & -> & Hin).
      by destruct (Hfr _ _ Hin) as (? & ? & ? & _). }
    assert (entry_of r i ∈ []) as Hin by (apply Hheap; by exists r, rest). by apply elem_of_nil in Hin.
Qed.

Lemma open_inputs_ok inputs all src :
  Forall2 (λ i rows, body_holds (mi_body i) rows) inputs all →
  ∃ cursors, open_inputs inputs src = Ok (cursors, zip (map mi_min_key inputs) (seq src (length inputs))) ∧
    Forall2 fresh cursors all ∧ total_rows cursors = length (concat all).
Proof.
  intros Hall. revert src. induction Hall as [|i rows inputs all (bs & Ho & Hb) Hall IH]; intros src.
  - exists []. by repeat constructor.
  - destruct (IH (S src)) as (cs & Hop & Hf & Ht). cbn [open_inputs]. unfold NodeSourceCursor_open.
    rewrite Ho. simpl. rewrite Hop. simpl. eexists. split; [done|]. split; [by constructor|].
    unfold total_rows in *. simpl. rewrite Ht, length_app. f_equal.
    destruct Hb as (parts & Hparts & ->). clear -Hparts.
    induction Hparts as [|b part bs parts (view & -> & _ & Hlen & _) _ IHp]; [done|].
    simpl. rewrite IHp, length_app. lia.
Qed.

Lemma at_rows_init inputs all cursors :
  Forall2 fresh cursors all →
  Forall2 (λ i rows, nr_id <$> head rows = Some (mi_min_key i)) inputs all →
  at_rows cursors (zip (map mi_min_key inputs) (seq 0 (length inputs))) [] all.
Proof.
  intros Hf Hh. pose proof (Forall2_length _ _ _ Hf) as Hlf. pose proof (Forall2_length _ _ _ Hh) as Hlh.
  assert ((zip (map mi_min_key inputs) (seq 0 (length inputs))).*2 = seq 0 (length inputs)) as Hsnd.
  { apply snd_zip. rewrite length_seq, length_map. lia. }
  split; [done| | |by rewrite Hsnd; apply NoDup_seq| |constructor].
  - intros i c rows Hc _ Hn. destruct Hn. rewrite Hsnd. apply elem_of_seq.
    apply lookup_lt_Some in Hc. lia.
  - intros k i Hin. apply list_elem_of_lookup in Hin as [j Hj].
    apply lookup_zip_with_Some in Hj as (k' & i' & [= <- <-] & Hk & Hi).
    apply lookup_seq in Hi as [-> Hlt]. rewrite list_lookup_fmap in Hk.
    destruct (inputs !! j) as [inp|] eqn:Hj; [|done]. simpl in Hk. simplify_eq.
    destruct (Forall2_lookup_l _ _ _ _ _ Hh Hj) as (rows & Hr & Hhead).
    destruct (Forall2_lookup_r _ _ _ _ _ Hf Hr) as (c & Hc & Hfr).
    destruct rows as [|r rest]; [done|]. exists c, r, rest. simpl in Hhead. simplify_eq. done.
  - intros e. split; [by intros ?%elem_of_nil|]. intros (r & rest & Hr & Hn & _). destruct Hn.
    rewrite Hsnd. apply elem_of_seq. apply lookup_lt_Some in Hr. lia.
Qed.

(** The merge of bodies that decode to sorted runs, with the right minimum keys,
    returns the newest row of every id, in id order; with tombstone collection,
    those that are no tombstones. *)
Lemma merge_node_sources_newest inputs all sink :
  accepts → Forall node_run all →
  Forall2 (λ i rows, body_holds (mi_body i) rows ∧ nr_id <$> head rows = Some (mi_min_key i)) inputs all →
  ∃ out sink', merge_node_sources observe gc inputs sink = Some (Ok (out, sink')) ∧
    node_run out ∧ ∀ id, find_node id out = kept_node gc (newest_node id all).
Proof.
  intros Hacc Hruns Hall. destruct (open_inputs_ok inputs all 0) as (cursors & Hop & Hf & Ht).
  { eapply Forall2_impl; [exact Hall|]. by intros i rows [? _]. }
  unfold merge_node_sources. rewrite Hop. apply (merge_nodes_ok _ _ _ _ _ all); try done.
  - apply at_rows_init; [done|]. eapply Forall2_impl; [exact Hall|]. by intros i rows [_ ?].
  - apply merging_init.
  - lia.
Qed.
End loop.
