(* ===== verification/NodeReads.v ===== *)
(** Point reads of nodes at a snapshot ([read.rs], [Snapshot::lookup_node_by_id]).

    A lookup starts from the memtable entry of the id, visits the candidate SSTs the
    manifest index names, and keeps the row with the highest LSN. How a row leaves an
    SST depends on the caches: from decoded row groups, from a cached or fetched body,
    or by a ranged read, the last two behind the Bloom filter. These routes are
    arguments; [serves] says that each finds the row the body holds. *)
From S2P Require Import Prelude StorageError Memtable Bloom ManifestTypes DescriptorIndex KwayMerge Compaction CompactionMerge.

Section reads.
Context {NodeView : Type}.
(** [node_view_from_payload], with the dictionary of the manifest and the scope as
    the label of rows that carry none *)
Context (node_view_from_payload : Z → Z → list byte → string → Result NodeView).
Context (xxh3_64 : list byte → Z).

Abbreviation found := (option (Z * option NodeView)).
Context (cached_row : SstDescriptor → Z → option (Result found)).
Context (bloom_filter : SstDescriptor → Result (option BloomFilter)).
Context (read_row : SstDescriptor → Z → Result found).

Record Snapshot := {
  ss_memtable : MemtableSnapshot;
  ss_overlay : option MemtableSnapshot;
  ss_ssts : list SstDescriptor;
}.

Definition node_mem_entry (s : Snapshot) (id : Z) : option MemEntry :=
  let committed := MemtableSnapshot_get (ss_memtable s) (KNode id) in
  let staged := o ← ss_overlay s; MemtableSnapshot_get o (KNode id) in
  match staged, committed with
  | Some st, Some c => if entry_lsn c <=? entry_lsn st then Some st else Some c
  | Some st, None => Some st
  | None, c => c
  end.

Definition row_view (scope : string) (r : NodeRow) : Result (option NodeView) :=
  match nr_op r with
  | Tombstone => Ok None
  | Upsert payload => v ← node_view_from_payload (nr_id r) (nr_lsn r) payload scope; Ok (Some v)
  end.

Definition mem_row (id : Z) (e : MemEntry) : NodeRow :=
  {| nr_id := id; nr_lsn := entry_lsn e; nr_op := entry_op e |}.

(** The outer [None] is a panic (a Bloom block out of range). *)
Definition bloom_admits (desc : SstDescriptor) (id : Z) : option (Result bool) :=
  match bloom_filter desc with
  | Err e => Some (Err e)
  | Ok None => Some (Ok true)
  | Ok (Some f) => Ok <$> BloomFilter_contains xxh3_64 f (be_split 16 id)
  end.

Definition probe_sst (desc : SstDescriptor) (id : Z) : option (Result found) :=
  match cached_row desc id with
  | Some r => Some r
  | None =>
      r ← bloom_admits desc id;
      match r with
      | Err e => Some (Err e)
      | Ok false => Some (Ok None)
      | Ok true => Some (read_row desc id)
      end
  end.

Definition keep_newer (winner candidate : found) : found :=
  match candidate, winner with
  | None, _ => winner
  | Some _, None => candidate
  | Some (lsn, _), Some (w_lsn, _) => if w_lsn <? lsn then candidate else winner
  end.

Fixpoint probe_candidates (ssts : list SstDescriptor) (candidates : list nat) (id : Z) (winner : found)
    : option (Result found) :=
  match candidates with
  | [] => Some (Ok winner)
  | idx :: candidates =>
      desc ← ssts !! idx;
      r ← probe_sst desc id;
      match r with
      | Err e => Some (Err e)
      | Ok candidate => probe_candidates ssts candidates id (keep_newer winner candidate)
      end
  end.

Definition mem_winner (s : Snapshot) (id : Z) : Result found :=
  match node_mem_entry s id with
  | Some e =>
      match row_view "" (mem_row id e) with
      | Err err => Err err
      | Ok view => Ok (Some (entry_lsn e, view))
      end
  | None => Ok None
  end.

Definition lookup_node_by_id (s : Snapshot) (id : Z) : option (Result (option NodeView)) :=
  match mem_winner s id with
  | Err e => Some (Err e)
  | Ok winner =>
      r ← probe_candidates (ss_ssts s) (node_candidates (DescriptorIndex_build (ss_ssts s)) id) id winner;
      match r with
      | Err e => Some (Err e)
      | Ok winner => Some (Ok (match winner with Some (_, view) => view | None => None end))
      end
  end.

(** ** What a lookup returns *)

Context (rows : SstDescriptor → list NodeRow).

(** Every route finds the row the body holds, and the descriptor bounds its ids. *)
Record serves (desc : SstDescriptor) : Prop := {
  sv_run : node_run (rows desc);
  sv_bounds : ∀ r, r ∈ rows desc → sst_min_key desc ≤ nr_id r ≤ sst_max_key desc;
  sv_cached : ∀ id r, cached_row desc id = Some r → r = read_row desc id;
  sv_read : ∀ id, read_row desc id =
    match find_node id (rows desc) with
    | None => Ok None
    | Some r => match row_view (sst_scope desc) r with Err e => Err e | Ok v => Ok (Some (nr_lsn r, v)) end
    end;
  sv_bloom : ∀ id, ∃ admits, bloom_admits desc id = Some (Ok admits) ∧
    (admits = false → find_node id (rows desc) = None);
}.

Abbreviation candidate_row := (NodeRow * string)%type.
Definition cand_view (c : candidate_row) : Result (option NodeView) := row_view c.2 c.1.
Definition sst_cand (id : Z) (desc : SstDescriptor) : option candidate_row :=
  (λ r, (r, sst_scope desc)) <$> find_node id (rows desc).

(** The rows of an id a snapshot can see: its memtable entry and one row per node
    SST that holds it. *)
Definition visible (s : Snapshot) (id : Z) (c : candidate_row) : Prop :=
  (∃ e, node_mem_entry s id = Some e ∧ c = (mem_row id e, "")) ∨
  ∃ desc, desc ∈ ss_ssts s ∧ sst_kind desc = SkNodes ∧ sst_cand id desc = Some c.

(** Every visible row decodes, and the answer is the newest of them. *)
Definition reads_as (s : Snapshot) (id : Z) (v : option NodeView) : Prop :=
  (∀ c, visible s id c → ∃ w, cand_view c = Ok w) ∧
  ((v = None ∧ ∀ c, ¬ visible s id c) ∨
   ∃ c, visible s id c ∧ cand_view c = Ok v ∧ ∀ c', visible s id c' → nr_lsn c'.1 ≤ nr_lsn c.1).

Lemma probe_sst_serves desc id :
  serves desc → probe_sst desc id =
  Some (match sst_cand id desc with
        | None => Ok None
        | Some c => match cand_view c with Err e => Err e | Ok v => Ok (Some (nr_lsn c.1, v)) end
        end).
Proof.
  intros [_ _ Hc Hr Hb]. unfold probe_sst, sst_cand, cand_view.
  assert (Some (read_row desc id) = Some (match (λ r, (r, sst_scope desc)) <$> find_node id (rows desc) with
        | None => Ok None
        | Some c => match row_view c.2 c.1 with Err e => Err e | Ok v => Ok (Some (nr_lsn c.1, v)) end
        end)) as Hread by (rewrite Hr; by destruct (find_node id (rows desc))).
  destruct (cached_row desc id) as [r|] eqn:Hcr; [by rewrite (Hc _ _ Hcr)|].
  destruct (Hb id) as (admits & -> & Hno). simpl. destruct admits; [done|].
  by rewrite Hno.
Qed.

Definition best (seen : list candidate_row) (winner : found) : Prop :=
  (winner = None ∧ seen = []) ∨
  ∃ c w, c ∈ seen ∧ cand_view c = Ok w ∧ winner = Some (nr_lsn c.1, w) ∧ ∀ c', c' ∈ seen → nr_lsn c'.1 ≤ nr_lsn c.1.

Lemma best_snoc seen winner c w :
  best seen winner → cand_view c = Ok w → best (seen ++ [c]) (keep_newer winner (Some (nr_lsn c.1, w))).
Proof.
  intros [[-> ->]|(b & v & Hb & Hv & -> & Hmax)] Hw; right.
  - exists c, w. split_and!; [set_solver|done|done|]. intros c' ->%list_elem_of_singleton. lia.
  - simpl. destruct (Z.ltb_spec (nr_lsn b.1) (nr_lsn c.1)).
    + exists c, w. split_and!; [set_solver|done|done|].
      intros c' [Hc'|Hc']%elem_of_app; [specialize (Hmax _ Hc')|apply list_elem_of_singleton in Hc' as ->]; lia.
    + exists b, v. split_and!; [set_solver|done|done|].
      intros c' [Hc'|Hc']%elem_of_app; [by apply Hmax|apply list_elem_of_singleton in Hc' as ->; lia].
Qed.

Definition cands_at (ssts : list SstDescriptor) (id : Z) (idxs : list nat) : list candidate_row :=
  omap (λ idx, desc ← ssts !! idx; sst_cand id desc) idxs.

Lemma probe_candidates_best ssts id idxs seen winner :
  (∀ idx, idx ∈ idxs → ∃ desc, ssts !! idx = Some desc ∧ serves desc) → best seen winner →
  ∃ r, probe_candidates ssts idxs id winner = Some r ∧
    (∀ winner', r = Ok winner' →
       best (seen ++ cands_at ssts id idxs) winner' ∧ ∀ c, c ∈ cands_at ssts id idxs → ∃ w, cand_view c = Ok w) ∧
    ((∀ c, c ∈ cands_at ssts id idxs → ∃ w, cand_view c = Ok w) → ∃ winner', r = Ok winner').
Proof.
  revert seen winner. induction idxs as [|idx idxs IH]; intros seen winner Hidx Hbest.
  - exists (Ok winner). split; [done|]. rewrite app_nil_r. split; [|eauto].
    intros winner' [= <-]. split; [done|]. by intros c Hc%elem_of_nil.
  - destruct (Hidx idx) as (desc & Hd & Hs); [set_solver|].
    assert (cands_at ssts id (idx :: idxs) = match sst_cand id desc with
              | Some c => c :: cands_at ssts id idxs | None => cands_at ssts id idxs end) as ->.
    { unfold cands_at. simpl. rewrite Hd. simpl. by destruct (sst_cand id desc). }
    cbn [probe_candidates]. rewrite Hd. cbn [mbind option_bind]. rewrite (probe_sst_serves _ _ Hs).
    cbn [mbind option_bind]. destruct (sst_cand id desc) as [c|]; [|apply IH; [set_solver|done]].
    destruct (cand_view c) as [w|e] eqn:Hw.
    + destruct (IH (seen ++ [c]) (keep_newer winner (Some (nr_lsn c.1, w)))) as (r & Hr & Hok & Hall);
        [set_solver|by apply best_snoc|]. exists r. split; [done|]. split.
      * intros winner' Hr'. destruct (Hok _ Hr') as [Hb Hv]. split.
        -- by rewrite <- app_assoc in Hb.
        -- intros c' [->|Hc']%elem_of_cons; eauto.
      * intros Hv. apply Hall. intros c' Hc'. apply Hv. by right.
    + exists (Err e). split; [done|]. split; [done|]. intros Hv. destruct (Hv c) as [w' ?]; [by left|congruence].
Qed.

Lemma elem_of_node_cands ssts id c :
  (∀ desc, desc ∈ ssts → sst_kind desc = SkNodes → serves desc) →
  c ∈ cands_at ssts id (node_candidates (DescriptorIndex_build ssts) id) ↔
  ∃ desc, desc ∈ ssts ∧ sst_kind desc = SkNodes ∧ sst_cand id desc = Some c.
Proof.
  intros Hserves. unfold cands_at. rewrite list_elem_of_omap. split.
  - intros (idx & Hidx & Hc). rewrite node_candidates_perm, elem_of_linear_scan in Hidx.
    destruct Hidx as (desc & Hd & [Hk _]). rewrite Hd in Hc. simpl in Hc.
    exists desc. split; [by eapply list_elem_of_lookup_2|]. by split.
  - intros (desc & Hd & Hk & Hc). apply list_elem_of_lookup in Hd as [idx Hd]. exists idx.
    rewrite Hd. split; [|done]. rewrite node_candidates_perm, elem_of_linear_scan. exists desc. split; [done|].
    unfold kind_candidate. split; [done|].
    unfold sst_cand in Hc. destruct (find_node id (rows desc)) as [r|] eqn:Hf; [|done].
    apply find_row_Some in Hf as [Hr <-]. eapply sv_bounds; [|done].
    apply Hserves; [by eapply list_elem_of_lookup_2|done].
Qed.

(** A lookup that returns gives the newest visible row, and it returns whenever the
    visible rows decode. *)
Lemma lookup_reads s id :
  (∀ desc, desc ∈ ss_ssts s → sst_kind desc = SkNodes → serves desc) →
  (∀ v, lookup_node_by_id s id = Some (Ok v) → reads_as s id v) ∧
  ((∀ c, visible s id c → ∃ w, cand_view c = Ok w) → ∃ v, lookup_node_by_id s id = Some (Ok v)).
Proof.
  intros Hserves. set (idxs := node_candidates (DescriptorIndex_build (ss_ssts s)) id).
  assert (∀ idx, idx ∈ idxs → ∃ desc, ss_ssts s !! idx = Some desc ∧ serves desc) as Hidx.
  { intros idx Hin. subst idxs. rewrite node_candidates_perm, elem_of_linear_scan in Hin.
    destruct Hin as (desc & Hd & [Hk _]). exists desc. split; [done|].
    apply Hserves; [by eapply list_elem_of_lookup_2|done]. }
  set (mem := match node_mem_entry s id with Some e => [(mem_row id e, "")] | None => [] end : list candidate_row).
  assert (∀ c, visible s id c ↔ c ∈ mem ++ cands_at (ss_ssts s) id idxs) as Hvis.
  { intros c. rewrite elem_of_app. subst idxs. rewrite elem_of_node_cands by done. unfold visible, mem.
    destruct (node_mem_entry s id) as [e|]; [rewrite list_elem_of_singleton|rewrite elem_of_nil]; naive_solver. }
  assert (∀ w, mem_winner s id = Ok w → best mem w ∧ ∀ c, c ∈ mem → ∃ v, cand_view c = Ok v) as Hmem.
  { intros w. unfold mem_winner, mem. destruct (node_mem_entry s id) as [e|].
    - destruct (row_view "" (mem_row id e)) as [v|] eqn:Hv; [|done]. intros [= <-]. split.
      + right. exists (mem_row id e, ""), v. split_and!; [set_solver|done|done|].
        intros c ->%list_elem_of_singleton. done.
      + intros c ->%list_elem_of_singleton. eauto.
    - intros [= <-]. split; [by left|]. by intros c ?%elem_of_nil. }
  unfold lookup_node_by_id. fold idxs. split.
  - intros v. destruct (mem_winner s id) as [w|]; [|done]. destruct (Hmem w eq_refl) as [Hb Hdec].
    destruct (probe_candidates_best _ id idxs mem w Hidx Hb) as (r & Hr & Hok & _). rewrite Hr.
    cbn [mbind option_bind]. destruct r as [w'|]; [|done]. intros [= <-].
    destruct (Hok w' eq_refl) as [Hb' Hdec']. split.
    { intros c. rewrite Hvis, elem_of_app. intros [?|?]; eauto. }
    destruct Hb' as [[-> Hnil]|(c & u & Hc & Hu & -> & Hmax)].
    + left. split; [done|]. intros c. rewrite Hvis, Hnil. apply not_elem_of_nil.
    + right. exists c. setoid_rewrite Hvis. done.
  - intros Hdec. assert (∃ w, mem_winner s id = Ok w) as [w Hw].
    { unfold mem_winner. destruct (node_mem_entry s id) as [e|] eqn:He; [|eauto].
      destruct (Hdec (mem_row id e, "")) as [v Hv]; [left; eauto|]. unfold cand_view in Hv. simpl in Hv.
      rewrite Hv. eauto. }
    rewrite Hw. destruct (Hmem w Hw) as [Hb _].
    destruct (probe_candidates_best _ id idxs mem w Hidx Hb) as (r & Hr & _ & Hall). rewrite Hr.
    cbn [mbind option_bind]. destruct Hall as [w' ->]; [|eauto].
    intros c Hc. apply Hdec, Hvis, elem_of_app. by right.
Qed.

(** Two answers over rows that agree on every LSN are the same. *)
Lemma reads_as_unique s id v v' :
  (∀ c c', visible s id c → visible s id c' → nr_lsn c.1 = nr_lsn c'.1 → c = c') →
  reads_as s id v → reads_as s id v' → v = v'.
Proof.
  intros Huniq [_ [[-> Hno]|(c & Hc & Hv & Hmax)]] [_ [[-> Hno']|(c' & Hc' & Hv' & Hmax')]].
  - done.
  - by destruct (Hno c').
  - by destruct (Hno' c).
  - assert (c = c') as -> by (apply Huniq; [done|done|]; specialize (Hmax _ Hc'); specialize (Hmax' _ Hc); lia).
    congruence.
Qed.
End reads.
