(* ===== verification/CompactionView.v ===== *)
(** Compaction and flush do not change what a reader sees.

    The theorems compose the planner, the streaming merge, the install checks and the
    read path. They hold for a manifest that advanced while the merge ran, provided
    later flushes carry higher LSNs, which is what makes dropping tombstones safe. *)
From S2P Require Import Prelude StorageError Memtable Bloom ManifestTypes DescriptorIndex KwayMerge Compaction CompactionMerge NodeReads.

(** ** The planner *)

Lemma elem_of_at_level l d sources : d ∈ at_level l sources ↔ d ∈ sources ∧ sst_level d = l.
Proof. unfold at_level. rewrite !list_elem_of_In, List.filter_In, Z.eqb_eq. done. Qed.

Lemma deepest_level_ge d sources : d ∈ sources → sst_level d ≤ deepest_level sources.
Proof.
  unfold deepest_level. induction sources as [|x sources IH]; [by intros ?%elem_of_nil|].
  intros [->|Hd]%elem_of_cons; simpl; [lia|]. specialize (IH Hd). lia.
Qed.

Lemma cascade_levels deeper sources base ratio inputs cum target inputs' target' :
  deeper = Z.to_nat (deepest_level sources - target) →
  cascade deeper sources base ratio inputs cum target = (inputs', target') →
  ∃ last, target ≤ last ∧ (deepest_level sources ≤ target' → deepest_level sources ≤ last) ∧
    ∀ d, d ∈ inputs' ↔ d ∈ inputs ∨ (d ∈ sources ∧ target ≤ sst_level d ≤ last).
Proof.
  revert inputs cum target. induction deeper as [|deeper IH]; intros inputs cum target Hn Hc; simpl in Hc;
    destruct (_ <=? _) in Hc.
  - simplify_eq. exists target'. split_and!; [lia|done|]. intros d. rewrite elem_of_app, elem_of_at_level.
    intuition lia.
  - simplify_eq. exists target. split_and!; [lia|intros _; lia|]. intros d. rewrite elem_of_app, elem_of_at_level. intuition lia.
  - simplify_eq. exists target'. split_and!; [lia|done|]. intros d. rewrite elem_of_app, elem_of_at_level.
    intuition lia.
  - apply IH in Hc as (last & Hlast & Hdeep & Hin); [|lia]. exists last. split_and!; [lia|done|].
    intros d. rewrite Hin, elem_of_app, elem_of_at_level.
    split; [intuition lia|]. intros [?|[Hs Hl]]; [by left; left|].
    destruct (decide (sst_level d = target)); [left; right; done|right; split; [done|lia]].
Qed.

(** A plan merges SSTs of the bucket, and all of them when it is the deepest. *)
Lemma plan_inputs sources base ratio needs_migration force plan :
  (∀ d, d ∈ sources → 0 ≤ sst_level d) →
  plan_node_bucket sources base ratio needs_migration force = Some plan →
  (∀ d, d ∈ bp_inputs plan → d ∈ sources) ∧
  (bp_is_deepest plan = true → ∀ d, d ∈ sources → d ∈ bp_inputs plan).
Proof.
  intros Hlevels. unfold plan_node_bucket, plan_bucket_merge.
  destruct (cascade _ _ _ _ _ _ _) as [inputs target] eqn:Hc.
  destruct (cascade_levels _ _ _ _ _ _ _ _ _ eq_refl Hc) as (last & Hlast & Hdeep & Hin).
  destruct (length inputs <? 2)%nat; simpl.
  - destruct (negb _), sources; try done. intros [= <-]. simpl. done.
  - intros [= <-]. simpl. split.
    + intros d. rewrite Hin, elem_of_at_level. tauto.
    + intros Hd%Z.leb_le d Hs. apply Hin. rewrite elem_of_at_level.
      pose proof (deepest_level_ge _ _ Hs). specialize (Hlevels _ Hs). specialize (Hdeep Hd).
      destruct (decide (sst_level d = 0)); [by left|right; split; [done|lia]].
Qed.

Lemma node_gc_safe_scope ssts d d' :
  node_gc_safe ssts = true → d ∈ ssts → d' ∈ ssts → sst_kind d = SkNodes → sst_kind d' = SkNodes →
  sst_scope d = sst_scope d'.
Proof.
  unfold node_gc_safe. set (X := list_to_set _). intros Hsize%Nat.leb_le Hd Hd' Hk Hk'.
  assert (∀ e, e ∈ ssts → sst_kind e = SkNodes → sst_scope e ∈ X) as HX.
  { intros e He Hke. subst X. apply elem_of_list_to_set, list_elem_of_fmap. exists e. split; [done|].
    apply list_elem_of_In, List.filter_In. split; [by apply list_elem_of_In|by apply bool_decide_eq_true]. }
  destruct (decide (sst_scope d = sst_scope d')) as [|Hne]; [done|exfalso].
  assert ({[sst_scope d; sst_scope d']} ⊆ X) as Hsub by (pose proof (HX d); pose proof (HX d'); set_solver).
  apply subseteq_size in Hsub. rewrite size_union, !size_singleton in Hsub by set_solver. lia.
Qed.

(** ** The install *)

Lemma verify_inputs_ok ssts claimed inputs claimed' :
  verify_inputs ssts claimed inputs = Ok claimed' →
  ∀ input, input ∈ inputs → input ∈ ssts ∧ sst_kind input = SkNodes ∧
    ∀ d, d ∈ ssts → sst_id d = sst_id input → d = input.
Proof.
  revert claimed. induction inputs as [|x inputs IH]; intros claimed; simpl; [by intros _ input ?%elem_of_nil|].
  unfold verify_input. destruct (bool_decide (sst_kind x = SkNodes)) eqn:Hk; simpl; [|done].
  destruct (bool_decide (sst_id x ∉ claimed)); simpl; [|done].
  destruct (List.filter _ ssts) as [|current [|]] eqn:Hf; simpl; [done| |done].
  destruct (decide (current = x)) as [Heq|]; simpl; [|done]. intros Hv input [->|Hin]%elem_of_cons; [|by apply (IH _ Hv)].
  subst current. apply bool_decide_eq_true in Hk.
  assert (∀ d, d ∈ ssts ∧ sst_id d = sst_id x ↔ d = x) as Hall.
  { intros d. transitivity (d ∈ [x]); [|apply list_elem_of_singleton].
    rewrite <- Hf, !list_elem_of_In, List.filter_In, Z.eqb_eq. done. }
  split_and!; [by apply (Hall x)|done|]. intros d Hd Hid. by apply Hall.
Qed.

Lemma install_ssts_ok current removed new next :
  install_ssts current removed new = Ok next →
  ∀ d, d ∈ next ↔ (d ∈ current ∧ sst_id d ∉ removed) ∨ d ∈ new.
Proof.
  unfold install_ssts. destruct (forallb _ _); [|done]. intros [= <-] d.
  rewrite elem_of_app, !list_elem_of_In, List.filter_In.
  assert (negb (existsb (λ id, sst_id d =? id) removed) = true ↔ ¬ In (sst_id d) removed) as ->; [|done].
  rewrite negb_true_iff, <- not_true_iff_false, existsb_exists. split.
  - intros Hn Hin. apply Hn. exists (sst_id d). split; [done|apply Z.eqb_refl].
  - intros Hn (id & Hin & Heq%Z.eqb_eq). apply Hn. by rewrite Heq.
Qed.

(** ** Readers *)

Section view.
Context `{Arrow} {NodeView : Type}.
Context (node_view_from_payload : Z → Z → list byte → string → Result NodeView) (xxh3_64 : list byte → Z).
Context (cached_row : SstDescriptor → Z → option (Result (option (Z * option NodeView)))).
Context (bloom_filter : SstDescriptor → Result (option BloomFilter)).
Context (read_row : SstDescriptor → Z → Result (option (Z * option NodeView))).
Context (rows : SstDescriptor → list NodeRow).

Abbreviation lookup := (lookup_node_by_id node_view_from_payload xxh3_64 cached_row bloom_filter read_row).
Abbreviation served := (serves node_view_from_payload xxh3_64 cached_row bloom_filter read_row rows).
Abbreviation sees := (visible rows).
Abbreviation answers := (reads_as node_view_from_payload rows).

Definition with_ssts (s : Snapshot) (ssts : list SstDescriptor) : Snapshot :=
  {| ss_memtable := ss_memtable s; ss_overlay := ss_overlay s; ss_ssts := ssts |}.
(** LSNs identify the writes a reader can see. *)
Definition lsn_unique (s : Snapshot) (id : Z) : Prop :=
  ∀ c c', sees s id c → sees s id c' → nr_lsn c.1 = nr_lsn c'.1 → c = c'.

(** An answer survives when nothing new becomes visible and the newest row stays, or
    is a tombstone with nothing left behind it. *)
Lemma lookup_transfer s s' id v :
  (∀ desc, desc ∈ ss_ssts s → sst_kind desc = SkNodes → served desc) →
  (∀ desc, desc ∈ ss_ssts s' → sst_kind desc = SkNodes → served desc) →
  lsn_unique s id → (∀ c, sees s' id c → sees s id c) →
  (∀ c, sees s id c → (∀ c', sees s id c' → nr_lsn c'.1 ≤ nr_lsn c.1) →
     sees s' id c ∨ (nr_op c.1 = Tombstone ∧ ∀ c', ¬ sees s' id c')) →
  lookup s id = Some (Ok v) → lookup s' id = Some (Ok v).
Proof.
  intros Hs Hs' Huniq Hsub Hmax Hv.
  destruct (lookup_reads _ _ _ _ _ rows s id Hs) as [Hreads _].
  destruct (lookup_reads _ _ _ _ _ rows s' id Hs') as [Hreads' Hreturns].
  pose proof (Hreads v Hv) as [Hdec Hans].
  destruct Hreturns as [v' Hv']; [by intros c Hc; apply Hdec, Hsub|].
  rewrite Hv'. do 2 f_equal. apply (reads_as_unique node_view_from_payload rows s' id);
    [by intros c c' Hc Hc'; apply Huniq; apply Hsub|by apply Hreads'|].
  split; [by intros c Hc; apply Hdec, Hsub|].
  destruct Hans as [[-> Hno]|(c & Hc & Hcv & Hnew)].
  - left. split; [done|]. intros c Hc. by eapply Hno, Hsub.
  - destruct (Hmax c Hc Hnew) as [Hc'|[Htomb Hno]].
    + right. exists c. split_and!; [done|done|]. intros c' Hc''. by apply Hnew, Hsub.
    + left. split; [|done]. unfold cand_view, row_view in Hcv. rewrite Htomb in Hcv. by simplify_eq.
Qed.

Context {Sink : Type} (observe : Sink → NodeRow → Result Sink).
Context (body_of : SstDescriptor → Result Body) (finish : Sink → Result unit).
Context (write_sst : list NodeRow → Result SstDescriptor).
Context (needs_migration : SstDescriptor → bool) (access_bundle : SstDescriptor → option (Result NodeLocatorDescriptor)).

(** What a compaction of the bucket relies on: bodies hold the rows their
    descriptors describe, written outputs are readable, and whatever reached the
    current manifest or the memtable after the base was read is newer. *)
Record lsm_ok (base : list SstDescriptor) (label : string) (s : Snapshot) (id : Z) : Prop := {
  lo_levels : ∀ d, d ∈ base → 0 ≤ sst_level d;
  lo_bodies : ∀ d body, d ∈ base → sst_kind d = SkNodes → body_of d = Ok body → body_holds body (rows d);
  lo_runs : ∀ d, d ∈ base → sst_kind d = SkNodes →
    node_run (rows d) ∧ nr_id <$> head (rows d) = Some (sst_min_key d);
  lo_served : ∀ d, d ∈ ss_ssts s → sst_kind d = SkNodes → served d;
  lo_written : ∀ out d, out ≠ [] → node_run out → write_sst out = Ok d →
    sst_kind d = SkNodes ∧ rows d = out ∧ sst_scope d = label ∧ served d;
  lo_bundle : ∀ d locator, access_bundle d = Some (Ok locator) →
    rows (with_locator d locator) = rows d ∧ (served d → served (with_locator d locator));
  lo_flushed : ∀ d r d0 r0, d ∈ ss_ssts s → sst_kind d = SkNodes → d ∉ base → r ∈ rows d →
    d0 ∈ base → sst_kind d0 = SkNodes → r0 ∈ rows d0 → nr_id r = nr_id r0 → nr_lsn r0 < nr_lsn r;
  lo_memtable : ∀ e d0 r0, node_mem_entry s id = Some e →
    d0 ∈ base → sst_kind d0 = SkNodes → r0 ∈ rows d0 → nr_id r0 = id → nr_lsn r0 < entry_lsn e;
  lo_unique : lsn_unique s id }.

Lemma elem_of_node_sources d ssts label :
  d ∈ node_sources ssts label ↔ d ∈ ssts ∧ sst_kind d = SkNodes ∧ sst_scope d = label.
Proof.
  unfold node_sources. rewrite !list_elem_of_In, List.filter_In, andb_true_iff, bool_decide_eq_true, String.eqb_eq. done.
Qed.

(** A rewrite that installs takes out its inputs and nothing else. *)
Lemma install_rewrite_ok current rw next :
  install_rewrite current rw = Ok next →
  (∀ d, d ∈ pr_inputs rw → d ∈ current) ∧
  ∀ d, d ∈ next ↔ (d ∈ current ∧ d ∉ pr_inputs rw) ∨ pr_output rw = Some d.
Proof.
  unfold install_rewrite, verify_node_rewrite_inputs, verify_rewrites.
  destruct (pr_inputs rw) as [|x inputs] eqn:Hin; [done|]. set (ins := x :: inputs) in *.
  destruct (verify_inputs current ∅ ins) as [claimed|] eqn:Hv; simpl; [|done].
  destruct (match pr_output rw with Some output => bool_decide (sst_kind output = SkNodes) | None => true end); simpl; [|done].
  intros Hinst. pose proof (verify_inputs_ok _ _ _ _ Hv) as Hver. split; [intros d Hd; by apply Hver|].
  intros d. rewrite (install_ssts_ok _ _ _ _ Hinst).
  assert (d ∈ match pr_output rw with Some d => [d] | None => [] end ↔ pr_output rw = Some d) as ->.
  { destruct (pr_output rw); [rewrite list_elem_of_singleton|rewrite elem_of_nil]; naive_solver. }
  assert (d ∈ current → (sst_id d ∉ map sst_id ins ↔ d ∉ ins)) as Hids.
  { intros Hd. rewrite list_elem_of_fmap. split.
    - intros Hn Hi. apply Hn. by exists d.
    - intros Hn (y & Hy & Hi). apply Hn. destruct (Hver y Hi) as (_ & _ & Hu). by rewrite (Hu d Hd Hy). }
  tauto.
Qed.

Lemma install_rewrite_inputs current rw next : install_rewrite current rw = Ok next → pr_inputs rw ≠ [].
Proof. unfold install_rewrite, verify_node_rewrite_inputs, verify_rewrites. by destruct (pr_inputs rw). Qed.

(** Replacing SSTs of one scope by a run with their newest rows: the heart of the
    matter. Tombstones may go ([gc]) when every node SST of the base is replaced. *)
Section rewriting.
Context (base : list SstDescriptor) (label : string) (s : Snapshot) (id : Z) (gc : bool).
Context (rw : PreparedNodeRewrite) (out : list NodeRow) (next : list SstDescriptor).
Context (Hok : lsm_ok base label s id) (Hinst : install_rewrite (ss_ssts s) rw = Ok next).
Context (Hins : ∀ d, d ∈ pr_inputs rw → d ∈ base ∧ sst_kind d = SkNodes ∧ sst_scope d = label).
Context (Hgc : gc = true → ∀ d, d ∈ base → sst_kind d = SkNodes → d ∈ pr_inputs rw).
Context (Hout : find_node id out = kept_node gc (newest_node id (map rows (pr_inputs rw)))).
Context (Hdesc : ∀ d, pr_output rw = Some d → sst_kind d = SkNodes ∧ rows d = out ∧ sst_scope d = label ∧ served d).
Context (Hnonempty : out ≠ [] → is_Some (pr_output rw)).

Let Hnext := proj2 (install_rewrite_ok _ _ _ Hinst).

Lemma input_run d : d ∈ pr_inputs rw → node_run (rows d).
Proof. intros Hd. destruct (Hins d Hd) as (Hb & Hk & _). by apply (lo_runs _ _ _ _ Hok d Hb Hk). Qed.

Lemma input_seen d r : d ∈ pr_inputs rw → r ∈ rows d → nr_id r = id → sees s id (r, label).
Proof.
  intros Hd Hr Hid. destruct (Hins d Hd) as (Hb & Hk & Hsc). right. exists d.
  split_and!; [by apply (install_rewrite_ok _ _ _ Hinst)|done|]. unfold sst_cand.
  rewrite (run_find Z.lt nr_id ltac:(lia) id (rows d) r (input_run d Hd) Hr Hid). by rewrite <- Hsc.
Qed.

Lemma newest_seen r : newest_node id (map rows (pr_inputs rw)) = Some r → sees s id (r, label).
Proof.
  intros Hr. apply newest_Some in Hr as (rs & Hrs & Hin & Hid).
  apply list_elem_of_fmap in Hrs as (d & -> & Hd). by eapply input_seen.
Qed.

(** Whatever is seen after the install was seen before. *)
Lemma seen_after c : sees (with_ssts s next) id c →
  sees s id c ∧ ((∃ e, node_mem_entry s id = Some e ∧ c = (mem_row id e, "")) ∨
    (∃ d, d ∈ ss_ssts s ∧ (d ∉ pr_inputs rw) ∧ sst_kind d = SkNodes ∧ sst_cand rows id d = Some c) ∨
    find_node id out ≠ None).
Proof.
  intros [Hm|(d & Hd & Hk & Hc)]; [split; [by left|by left]|]. apply Hnext in Hd as [[Hd Hn]|Hd].
  - split; [right; by exists d|]. right. left. by exists d.
  - destruct (Hdesc d Hd) as (_ & Hrows & Hsc & _). unfold sst_cand in Hc. rewrite Hrows, Hsc in Hc.
    pose proof Hout as Hk'. destruct (find_node id out) as [r|]; [|done]. simpl in Hc. injection Hc as <-.
    split; [|right; right; done]. apply newest_seen. unfold kept in Hk'.
    destruct (newest_node id _) as [w|]; [|done]. by destruct (gc && node_tomb w).
Qed.

(** The newest row an input shows is the newest of the inputs. *)
Lemma newest_input d c :
  d ∈ pr_inputs rw → sst_cand rows id d = Some c → (∀ c', sees s id c' → nr_lsn c'.1 ≤ nr_lsn c.1) →
  c.2 = label ∧ nr_id c.1 = id ∧ c.1 ∈ rows d ∧ newest_node id (map rows (pr_inputs rw)) = Some c.1.
Proof.
  intros Hd Hc Hmax. destruct (Hins d Hd) as (_ & _ & Hsc). unfold sst_cand in Hc.
  destruct (find_node id (rows d)) as [r|] eqn:Hf; [|done]. simpl in Hc. injection Hc as <-. simpl in *.
  apply find_row_Some in Hf as [Hr Hid].
  destruct (newest_max Z.lt nr_id nr_lsn ltac:(lia) id (map rows (pr_inputs rw)) (rows d) r) as (w & Hw & Hle);
    [|by apply list_elem_of_fmap; exists d|done|done|].
  { apply Forall_map, Forall_forall. intros x Hx. by apply input_run. }
  split_and!; try done. rewrite Hw. f_equal.
  assert ((w, label) = (r, label)) as Heq; [|by simplify_eq].
  pose proof (newest_seen w Hw) as Hsw. pose proof (Hmax _ Hsw) as Hlew. simpl in Hlew.
  apply (lo_unique _ _ _ _ Hok); [done|by eapply input_seen|simpl; lia].
Qed.

(** If the newest row is a tombstone the merge dropped, nothing is left to see. *)
Lemma dropped_hides d c :
  d ∈ pr_inputs rw → sst_cand rows id d = Some c → (∀ c', sees s id c' → nr_lsn c'.1 ≤ nr_lsn c.1) →
  gc = true → find_node id out = None → ∀ c', ¬ sees (with_ssts s next) id c'.
Proof.
  intros Hd Hc Hmax Hg Hno c' Hc'. destruct (Hins d Hd) as (Hb & Hk & _).
  destruct (newest_input d c Hd Hc Hmax) as (_ & Hid & Hr & _).
  destruct (seen_after c' Hc') as [Hs [(e & He & ->)|[(d' & Hd' & Hn & Hk' & Hcd)|?]]]; [| |done].
  - specialize (Hmax _ Hs). pose proof (lo_memtable _ _ _ _ Hok e d c.1 He Hb Hk Hr Hid). simpl in *. lia.
  - specialize (Hmax _ Hs). assert (d' ∉ base) as Hnb by (intros ?; apply Hn; by apply Hgc).
    unfold sst_cand in Hcd. destruct (find_node id (rows d')) as [r'|] eqn:Hf; [|done]. simpl in Hcd. simplify_eq.
    apply find_row_Some in Hf as [Hr' Hid'].
    pose proof (lo_flushed _ _ _ _ Hok d' r' d c.1 Hd' Hk' Hnb Hr' Hb Hk Hr ltac:(congruence)). simpl in *. lia.
Qed.

Lemma rewrite_preserves v : lookup s id = Some (Ok v) → lookup (with_ssts s next) id = Some (Ok v).
Proof.
  apply lookup_transfer; [by apply Hok| |by apply Hok|by intros c Hc; apply seen_after|].
  { intros d Hd Hk. apply Hnext in Hd as [[Hd _]|Hd]; [by apply (lo_served _ _ _ _ Hok)|by apply Hdesc]. }
  intros c Hc Hmax. destruct Hc as [Hm|(d & Hd & Hk & Hcd)]; [by left; left|].
  destruct (decide (d ∈ pr_inputs rw)) as [Hdin|Hdn].
  2:{ left. right. exists d. split; [|done]. apply Hnext. by left. }
  destruct (newest_input d c Hdin Hcd Hmax) as (Hsc & Hid & Hr & Hnew). pose proof Hout as Hf.
  rewrite Hnew in Hf. simpl in Hf. destruct (gc && node_tomb c.1) eqn:Hdrop.
  - apply andb_true_iff in Hdrop as [Hg Ht]. right. split; [|by eapply dropped_hides].
    unfold node_tomb, is_tombstone in Ht. by destruct (nr_op c.1).
  - left. right. destruct Hnonempty as [d' Hd']; [by intros ->|]. destruct (Hdesc d' Hd') as (Hk' & Hrows & Hsc' & _).
    exists d'. split_and!; [apply Hnext; by right|done|]. unfold sst_cand. rewrite Hrows, Hf, Hsc'. simpl.
    rewrite <- Hsc. by destruct c.
Qed.
End rewriting.

(** Rebuilding only the locator of a lone input. *)
Lemma bundle_preserves base label s id d locator next v :
  lsm_ok base label s id → d ∈ base → sst_kind d = SkNodes → sst_scope d = label →
  access_bundle d = Some (Ok locator) →
  install_rewrite (ss_ssts s) {| pr_inputs := [d]; pr_output := Some (with_locator d locator) |} = Ok next →
  lookup s id = Some (Ok v) → lookup (with_ssts s next) id = Some (Ok v).
Proof.
  intros Hok Hb Hk Hl Hbundle Hinst. destruct (lo_bundle _ _ _ _ Hok _ _ Hbundle) as [Hrows Hserved].
  apply (rewrite_preserves base label s id false _ (rows d) next Hok Hinst); simpl.
  - intros d' ->%list_elem_of_singleton. done.
  - done.
  - unfold newest. simpl. by destruct (find_node id (rows d)).
  - intros d' [= <-]. split_and!; try done. apply Hserved, (lo_served _ _ _ _ Hok); [|done].
    apply (install_rewrite_ok _ _ _ Hinst). by apply list_elem_of_singleton.
  - done.
Qed.

(** Installing the output of a merge. *)
Lemma merged_preserves base label s id plan out rw next v :
  let gc := node_gc_safe base && bp_is_deepest plan in
  lsm_ok base label s id → node_run out →
  (∀ d, d ∈ bp_inputs plan → d ∈ node_sources base label) →
  (bp_is_deepest plan = true → ∀ d, d ∈ node_sources base label → d ∈ bp_inputs plan) →
  find_node id out = kept_node gc (newest_node id (map rows (bp_inputs plan))) →
  node_rewrite gc (bp_inputs plan) out write_sst = Ok rw → install_rewrite (ss_ssts s) rw = Ok next →
  lookup s id = Some (Ok v) → lookup (with_ssts s next) id = Some (Ok v).
Proof.
  intros gc Hok Hrun Hsub Hall Hfind Hrw Hinst.
  assert (pr_inputs rw = bp_inputs plan ∧
    (out = [] ∧ pr_output rw = None ∨ out ≠ [] ∧ ∃ d, write_sst out = Ok d ∧ pr_output rw = Some d)) as [Hpi Hpo].
  { unfold node_rewrite in Hrw. destruct out as [|r out]; [destruct gc; [|done]; simplify_eq; by auto|].
    destruct (write_sst (r :: out)) as [d|] eqn:Hd; simplify_eq/=. split; [done|]. right. split; [done|]. by exists d. }
  destruct (install_rewrite_ok _ _ _ Hinst) as [Hcur _].
  apply (rewrite_preserves base label s id gc rw out next Hok Hinst).
  - intros d Hd. rewrite Hpi in Hd. by apply elem_of_node_sources, Hsub.
  - intros [Hsafe Hdeep]%andb_true_iff d Hb Hk. rewrite Hpi. apply (Hall Hdeep), elem_of_node_sources.
    split_and!; [done|done|]. destruct (bp_inputs plan) as [|x ins] eqn:Hbp; [by destruct (install_rewrite_inputs _ _ _ Hinst)|].
    destruct (proj1 (elem_of_node_sources x base label) (Hsub x ltac:(by left))) as (Hxb & Hxk & <-).
    by apply (node_gc_safe_scope base).
  - by rewrite Hpi.
  - intros d Hd. destruct Hpo as [[_ Hpo]|(Hne & d' & Hw & Hpo)]; rewrite Hpo in Hd; [done|].
    injection Hd as <-. by apply (lo_written _ _ _ _ Hok).
  - intros Hne. destruct Hpo as [[? _]|(_ & d & _ & Hpo)]; [done|]. rewrite Hpo. by eexists.
Qed.

(** The fetched inputs hold the rows of their descriptors. *)
Lemma fetch_inputs_ok base label s id ds inputs :
  lsm_ok base label s id → (∀ d, d ∈ ds → d ∈ node_sources base label) → fetch_inputs body_of ds = Ok inputs →
  Forall2 (λ i rs, body_holds (mi_body i) rs ∧ nr_id <$> head rs = Some (mi_min_key i)) inputs (map rows ds).
Proof.
  intros Hok. revert inputs. induction ds as [|d ds IH]; intros inputs Hsub; simpl; [by intros [= <-]; constructor|].
  destruct (body_of d) as [body|] eqn:Hbody; simpl; [|done].
  destruct (fetch_inputs body_of ds) as [rest|]; simpl; [|done]. intros [= <-].
  destruct (proj1 (elem_of_node_sources d base label) (Hsub d ltac:(by left))) as (Hb & Hk & _).
  constructor; [|apply IH; [intros d' Hd'; apply Hsub; by right|done]]. simpl.
  split; [by eapply lo_bodies|by apply (lo_runs _ _ _ _ Hok)].
Qed.

(** C3: compaction does not change what a reader sees. Planning a merge of a node
    bucket, streaming the inputs, collecting tombstones when the plan allows it, and
    installing the result into a manifest that flushes have advanced in the meantime
    either fails with an error or leaves every node lookup that answered before with
    the same answer. Neither the planner nor the merge panics or fails to end. *)
Theorem compaction_preserves_lookup base label s id base_bytes ratio force sink :
  accepts observe → lsm_ok base label s id →
  ∃ r, compact_node_bucket observe body_of finish write_sst needs_migration access_bundle
         base (ss_ssts s) label base_bytes ratio force sink = Some r ∧
    ∀ next v, r = Ok next → lookup s id = Some (Ok v) → lookup (with_ssts s next) id = Some (Ok v).
Proof.
  intros Hacc Hok. unfold compact_node_bucket.
  destruct (plan_node_bucket _ _ _ _ _) as [plan|] eqn:Hplan.
  2:{ eexists. split; [done|]. intros next v [= <-]. by destruct s. }
  apply plan_inputs in Hplan as [Hsub Hall].
  2:{ intros d (Hd & _)%elem_of_node_sources. by apply (lo_levels _ _ _ _ Hok). }
  destruct (lone_bundle access_bundle plan) as [[d locator]|] eqn:Hlone.
  - unfold lone_bundle in Hlone. destruct (bp_inputs plan) as [|d0 [|]] eqn:Hbp; try done.
    destruct (access_bundle d0) as [loc|] eqn:Hb; simplify_eq/=.
    destruct (proj1 (elem_of_node_sources d base label) (Hsub d ltac:(by left))) as (Hdb & Hdk & Hdl).
    eexists. split; [done|]. intros next v Hinst. destruct locator as [locator|]; [|done]. by eapply bundle_preserves.
  - cbv zeta. destruct (fetch_inputs body_of (bp_inputs plan)) as [inputs|e] eqn:Hfetch; [|by eexists].
    destruct (merge_node_sources_newest observe (node_gc_safe base && bp_is_deepest plan) inputs (map rows (bp_inputs plan)) sink)
      as (out & sink' & Hmerge & Hrun & Hfind); [done| |by eapply fetch_inputs_ok|].
    { apply Forall_map, Forall_forall. intros d (Hb & Hk & _)%Hsub%elem_of_node_sources.
      by apply (lo_runs _ _ _ _ Hok). }
    rewrite Hmerge. eexists. split; [done|]. intros next v Hinst.
    destruct (finish sink') as [[]|]; simpl in Hinst; [|done].
    destruct (node_rewrite _ _ out _) as [rw|] eqn:Hrw; [simpl in Hinst|done].
    by eapply merged_preserves.
Qed.
End view.
