(* ===== verification/CompactionExample.v ===== *)
(** A small tree of node SSTs, and the theorem of [CompactionView] on it.

    An SST is addressed by its content: its id encodes its rows, so that [ex_write]
    describes any run. A deep SST holds two nodes, a newer one deletes the first, and
    a third was flushed after the compaction read the manifest. *)
From S2P Require Import Prelude StorageError Memtable Bloom ManifestTypes DescriptorIndex KwayMerge Compaction CompactionMerge NodeReads CompactionView.

#[local] Instance ex_arrow : Arrow := {
  Body := list (list NodeRow);
  RecordBatch := list NodeRow;
  open_batches b := Ok (map Ok b);
  num_rows := length;
  missing_column _ := None;
  node_id_at b i := nr_id <$> b !! i;
  lsn_at b i := from_option nr_lsn 0 (b !! i);
  tombstone_at b i := from_option (is_tombstone ∘ nr_op) false (b !! i);
  payload_at b i := match nr_op <$> b !! i with Some (Upsert payload) => Ok payload | _ => Err (Invariant "payload") end;
}.

(** ** Content addressing *)

#[local] Instance byte_countable : Countable byte := inj_countable' b2z z2b byte.of_Z_unsigned.

Definition row_tuple (r : NodeRow) : Z * Z * option (list byte) :=
  (nr_id r, nr_lsn r, match nr_op r with Upsert p => Some p | Tombstone => None end).
Definition tuple_row (t : Z * Z * option (list byte)) : NodeRow :=
  {| nr_id := t.1.1; nr_lsn := t.1.2; nr_op := match t.2 with Some p => Upsert p | None => Tombstone end |}.
Definition ex_address (rs : list NodeRow) : Z := Z.pos (encode (map row_tuple rs)).
Definition ex_rows (d : SstDescriptor) : list NodeRow :=
  match sst_id d with
  | Z.pos p => map tuple_row (default [] (decode p))
  | _ => []
  end.

Definition ex_sst (label : string) (level : Z) (rs : list NodeRow) : SstDescriptor :=
  {| sst_id := ex_address rs; sst_kind := SkNodes; sst_scope := label; sst_level := level;
     sst_path := "p"; sst_size_bytes := 100; sst_row_count := Z.of_nat (length rs); sst_created_at := 0;
     sst_min_key := foldr Z.min (from_option nr_id 0 (head rs)) (map nr_id rs);
     sst_max_key := foldr Z.max 0 (map nr_id rs);
     sst_min_lsn := 0; sst_max_lsn := 10; sst_bloom := None; sst_unique_property_indices := [];
     sst_equality_property_indices := []; sst_composite_equality_indices := []; sst_label_index := None;
     sst_node_locator := None; sst_extra := [] |}.
Definition ex_write (rs : list NodeRow) : Result SstDescriptor := Ok (ex_sst "Person" 1 rs).
Definition ex_body (d : SstDescriptor) : Result Body := Ok [ex_rows d].

Lemma ex_rows_sst label level rs : ex_rows (ex_sst label level rs) = rs.
Proof.
  unfold ex_rows, ex_sst, ex_address. simpl sst_id. cbv iota. rewrite decode_encode. simpl.
  rewrite map_map. rewrite <- (map_id rs) at 2. apply map_ext. by intros [? ? []].
Qed.

(** ** Reading *)

Definition ex_view (id lsn : Z) (payload : list byte) (label : string) : Result (Z * Z * string) := Ok (id, lsn, label).
Definition ex_cached (_ : SstDescriptor) (_ : Z) : option (Result (option (Z * option (Z * Z * string)))) := None.
Definition ex_bloom (_ : SstDescriptor) : Result (option BloomFilter) := Ok None.
Definition ex_read (d : SstDescriptor) (id : Z) : Result (option (Z * option (Z * Z * string))) :=
  match find_node id (ex_rows d) with
  | None => Ok None
  | Some r => match row_view ex_view (sst_scope d) r with Err e => Err e | Ok v => Ok (Some (nr_lsn r, v)) end
  end.
Abbreviation ex_lookup := (lookup_node_by_id ex_view (λ _, 0) ex_cached ex_bloom ex_read).

Lemma ex_bounds a rs r : r ∈ rs → foldr Z.min a (map nr_id rs) ≤ nr_id r ≤ foldr Z.max 0 (map nr_id rs).
Proof.
  induction rs as [|x rs IH]; [by intros ?%elem_of_nil|].
  intros [->|Hr]%elem_of_cons; simpl; [lia|]. specialize (IH Hr). lia.
Qed.

Lemma ex_serves hash label level rs :
  node_run rs → serves ex_view hash ex_cached ex_bloom ex_read ex_rows (ex_sst label level rs).
Proof.
  intros Hrun. split.
  - by rewrite ex_rows_sst.
  - intros r. rewrite ex_rows_sst. apply ex_bounds.
  - done.
  - done.
  - intros id. by exists true.
Qed.

Lemma ex_body_holds d : body_holds [ex_rows d] (ex_rows d).
Proof.
  exists [Ok (ex_rows d)]. split; [done|]. exists [ex_rows d]. split; [|by rewrite concat_cons, app_nil_r].
  repeat constructor. eexists. split_and!; [done|]. split_and!; [done|done|].
  intros i r Hr. unfold materialize, batch_key. simpl. rewrite !Hr. simpl.
  destruct r as [id lsn []]; simpl; by rewrite ?Hr.
Qed.

(** ** The tree *)

Definition ex_up (id lsn : Z) : NodeRow := {| nr_id := id; nr_lsn := lsn; nr_op := Upsert [] |}.
Definition ex_del (id lsn : Z) : NodeRow := {| nr_id := id; nr_lsn := lsn; nr_op := Tombstone |}.
Definition ex_deep : SstDescriptor := ex_sst "Person" 1 [ex_up 1 1; ex_up 2 2].
Definition ex_recent : SstDescriptor := ex_sst "Person" 0 [ex_del 1 5; ex_up 3 6].
Definition ex_flushed : SstDescriptor := ex_sst "Person" 0 [ex_up 3 8].
Definition ex_base : list SstDescriptor := [ex_deep; ex_recent].
Definition ex_snapshot : Snapshot :=
  {| ss_memtable := MemtableSnapshot_empty; ss_overlay := None; ss_ssts := [ex_flushed; ex_deep; ex_recent] |}.
(** The collectors of the example count the rows they see. *)
Definition ex_observe (seen : nat) (_ : NodeRow) : Result nat := Ok (S seen).

Lemma ex_visible id c : visible ex_rows ex_snapshot id c →
  c ∈ [(ex_up 1 1, "Person"); (ex_up 2 2, "Person"); (ex_del 1 5, "Person"); (ex_up 3 6, "Person"); (ex_up 3 8, "Person")].
Proof.
  intros [(e & He & _)|(d & Hd & _ & Hc)]; [done|]. unfold sst_cand in Hc.
  destruct (find_node id (ex_rows d)) as [r|] eqn:Hf; [|done]. simpl in Hc. injection Hc as <-.
  apply find_row_Some in Hf as [Hr _].
  repeat (apply elem_of_cons in Hd as [->|Hd]; [unfold ex_flushed, ex_deep, ex_recent in *; rewrite ex_rows_sst in Hr; set_solver|]).
  by apply elem_of_nil in Hd.
Qed.

Lemma ex_lsm_ok id :
  lsm_ok ex_view (λ _, 0) ex_cached ex_bloom ex_read ex_rows ex_body ex_write (λ _, None) ex_base "Person" ex_snapshot id.
Proof.
  split.
  - intros d Hd. repeat (apply elem_of_cons in Hd as [->|Hd]; [vm_compute; done|]). by apply elem_of_nil in Hd.
  - intros d body Hd _ [= <-]. apply ex_body_holds.
  - intros d Hd _.
    repeat (apply elem_of_cons in Hd as [->|Hd];
      [unfold ex_deep, ex_recent; rewrite ex_rows_sst; split; [|done]; repeat constructor|]).
    by apply elem_of_nil in Hd.
  - intros d Hd _. repeat (apply elem_of_cons in Hd as [->|Hd]; [apply ex_serves; repeat constructor|]).
    by apply elem_of_nil in Hd.
  - intros out d _ Hrun [= <-]. split_and!; [done|apply ex_rows_sst|done|by apply ex_serves].
  - done.
  - intros d r d0 r0 Hd _ Hn Hr Hd0 _ Hr0 Hid.
    apply elem_of_cons in Hd as [->|Hd]; [|by destruct Hn].
    unfold ex_flushed in Hr. rewrite ex_rows_sst in Hr. apply list_elem_of_singleton in Hr as ->.
    repeat (apply elem_of_cons in Hd0 as [->|Hd0];
      [unfold ex_deep, ex_recent in Hr0; rewrite ex_rows_sst in Hr0;
       repeat (apply elem_of_cons in Hr0 as [->|Hr0]; [simpl in *; lia|]); by apply elem_of_nil in Hr0|]).
    by apply elem_of_nil in Hd0.
  - done.
  - intros c c' Hc%ex_visible Hc'%ex_visible Hl.
    repeat (apply elem_of_cons in Hc as [->|Hc];
      [repeat (apply elem_of_cons in Hc' as [->|Hc']; [first [reflexivity|simpl in Hl; lia]|]); by apply elem_of_nil in Hc'|]).
    by apply elem_of_nil in Hc.
Qed.

(** The merge drops the tombstone with the row under it, and readers agree. *)
Lemma compaction_preserves_lookup_witness :
  ∃ next, compact_node_bucket ex_observe ex_body (λ _, Ok tt) ex_write (λ _, false) (λ _, None) ex_base (ss_ssts ex_snapshot)
      "Person" 1000 10 false 0%nat = Some (Ok next) ∧ next = [ex_flushed; ex_sst "Person" 1 [ex_up 2 2; ex_up 3 6]] ∧
    ex_lookup ex_snapshot 1 = Some (Ok None) ∧ ex_lookup (with_ssts ex_snapshot next) 1 = Some (Ok None).
Proof.
  destruct (compaction_preserves_lookup ex_view (λ _, 0) ex_cached ex_bloom ex_read ex_rows ex_observe ex_body (λ _, Ok tt) ex_write
    (λ _, false) (λ _, None) ex_base "Person" ex_snapshot 1 1000 10 false 0%nat) as (r & Hr & Hpres);
    [by intros x y; exists (S x)|apply ex_lsm_ok|].
  assert (r = Ok [ex_flushed; ex_sst "Person" 1 [ex_up 2 2; ex_up 3 6]]) as ->.
  { apply (inj Some). rewrite <- Hr. vm_compute. reflexivity. }
  exists [ex_flushed; ex_sst "Person" 1 [ex_up 2 2; ex_up 3 6]]. split_and!; [exact Hr|reflexivity|vm_compute; reflexivity|].
  apply (Hpres _ None); [reflexivity|vm_compute; reflexivity].
Defined.
