(* ===== verification/Flush.v ===== *)
(** Flushing the memtable into level-0 SSTs ([flush.rs], [spooled_object.rs], and the
    flush of a session in [ingest.rs]).

    The encoders of SST bodies and sidecars run off the store. [SstBuilders] has the
    work product for the node bucket and for one edge type, and the preparation of
    the search indexes, which may read the store. A multipart
    upload becomes visible, and replaces what is there, when it completes: it is one
    overwriting request. The manifest fields other than SSTs, WAL segments and labels
    are opaque bytes, so a schema is a function on them. *)
From S2P Require Import Prelude StorageError Wal Memtable ManifestTypes DescriptorIndex Paths ManifestProtocol ObjectStore Recovery WriterSession KwayMerge Compaction CompactionMerge NodeReads.

(** ** Bucketing *)

Record EdgeRow := { ed_src : Z; ed_dst : Z; ed_lsn : Z; ed_op : MemOp }.

Definition bucket_row (acc : list NodeRow * gmap string (list EdgeRow)) (ke : MemKey * MemEntry)
    : list NodeRow * gmap string (list EdgeRow) :=
  let '(nodes, edges) := acc in
  let '(k, e) := ke in
  match k with
  | KNode id => (nodes ++ [{| nr_id := id; nr_lsn := entry_lsn e; nr_op := entry_op e |}], edges)
  | KEdge edge_type src dst =>
      (nodes, <[edge_type := default [] (edges !! edge_type)
                             ++ [{| ed_src := src; ed_dst := dst; ed_lsn := entry_lsn e; ed_op := entry_op e |}]]> edges)
  end.
Definition bucket_nodes_and_edges (frozen : FrozenMemtable)
    : list NodeRow * gmap string (list EdgeRow) :=
  foldl bucket_row ([], ∅) (ord_iter (fz_inner frozen)).

(** ** Uploads *)

Definition MULTIPART_PART_SIZE : Z := 5 * 1024 * 1024.
Definition MULTIPART_MAX_PARTS : Z := 10000.
Definition MULTIPART_MAX_PART_SIZE : Z := 5 * 1024 * 1024 * 1024.
Definition S3_MAX_OBJECT_BYTES : Z := 5 * 1024 * 1024 * 1024 * 1024.

Definition put_create_payload (path : Path) (body : list byte) : prog unit :=
  r ← store (PutCreate path body);
  _ ← lift r;
  mret ().
Definition put_multipart (path : Path) (body : list byte) : prog unit :=
  r ← store (PutOverwrite path body);
  _ ← lift r;
  mret ().

Definition put_payload (path : Path) (body : list byte) : prog unit :=
  if Z.of_nat (length body) <? MULTIPART_PART_SIZE then put_create_payload path body
  else put_multipart path body.

Definition effective_multipart_part_size (exact_len minimum_part_size : Z) : Result Z :=
  if S3_MAX_OBJECT_BYTES <? exact_len then Err (Invariant "spooled object length exceeds the S3 object limit")
  else
    let by_part_count := (exact_len + MULTIPART_MAX_PARTS - 1) / MULTIPART_MAX_PARTS in
    let part_size := Z.max by_part_count minimum_part_size in
    if MULTIPART_MAX_PART_SIZE <? part_size then Err (Invariant "spooled multipart part size exceeds the S3 limit")
    else Ok part_size.

Definition verify_uploaded_object (path : Path) (expected_len : Z) : prog unit :=
  r ← store (Head path);
  size ← lift r;
  if negb (size =? expected_len) then fail (Invariant "uploaded object verification failed") else mret ().

(** [spool] is what reading the temporary file back gives. *)
Definition put_spooled_object (path : Path) (exact_len : Z) (spool : Result (list byte)) : prog unit :=
  part_size ← Ret (effective_multipart_part_size exact_len MULTIPART_PART_SIZE);
  if MULTIPART_MAX_PARTS <? (exact_len + part_size - 1) / part_size
  then fail (Invariant "spooled object would require too many multipart parts")
  else
    body ← Ret spool;
    if negb (Z.of_nat (length body) =? exact_len)
    then fail (Invariant "spooled byte count disagrees with descriptor")
    else
      _ ← if exact_len <? part_size then put_create_payload path body else put_multipart path body;
      verify_uploaded_object path exact_len.

(** The variants that spool differ only in where their bytes come from. *)
Inductive SidecarPayload :=
| InMemory (body : list byte)
| Spooled (exact_len : Z) (spool : Result (list byte)).

Definition put_sidecar_payload (path : Path) (body : SidecarPayload) : prog unit :=
  match body with
  | InMemory body => put_payload path body
  | Spooled exact_len spool => put_spooled_object path exact_len spool
  end.

(** Futures driven together. The schedules cover the interleavings of the requests;
    [completed] names uploads in the order they finished, which decides the error
    that is reported. *)
Fixpoint join_all (uploads : list (prog unit)) (scheds : list (list bool)) : prog (list (Result unit)) :=
  match uploads with
  | [] => mret []
  | upload :: uploads =>
      '(r, rs) ← pjoin upload (default [] (head scheds)) (join_all uploads (tail scheds));
      rs ← Ret rs;
      mret (r :: rs)
  end.

Definition await_all_object_uploads (uploads : list (prog unit)) (scheds : list (list bool)) (completed : list nat)
    : prog unit :=
  results ← join_all uploads scheds;
  Ret (foldr (λ r rest, match r with Ok _ => rest | Err e => Err e end) (Ok ())
         (omap (λ i, results !! i) completed ++ results)).

(** ** The flush of a frozen memtable *)

Record PendingSst := {
  pd_descriptor : SstDescriptor;
  pd_body_path : Path;
  pd_body : SidecarPayload;
  pd_bloom_path : option Path;
  pd_bloom_body : option (list byte);
  pd_index_sidecars : list (Path * SidecarPayload);
}.

Record SearchFlushManifestUpdate := {
  su_descriptors : list SstDescriptor;
  su_states : list byte → list byte;
  su_retired_descriptor_ids : gset Z;
}.
Record SearchFlushPlan := {
  sp_uploads : list (Path * SidecarPayload);
  sp_manifest : SearchFlushManifestUpdate;
}.
Definition SearchFlushPlan_default : SearchFlushPlan :=
  {| sp_uploads := []; sp_manifest := {| su_descriptors := []; su_states := id; su_retired_descriptor_ids := ∅ |} |}.

Record SstBuilders := {
  node_pending : list NodeRow → Result PendingSst;
  edge_pending : string → list EdgeRow → Result (PendingSst * PendingSst);
  prepare_search_flush : LoadedManifest → SstDescriptor → list NodeRow → prog SearchFlushPlan;
}.

Record FlushOutcome := {
  fo_committed : LoadedManifest;
  fo_ssts_written : nat;
  fo_bloom_sidecars_written : nat;
}.

Definition with_contents (m : Manifest) (ssts : list SstDescriptor) (wal : list WalSegmentDescriptor)
    (catalog : list byte) : Manifest :=
  {| mf_version := mf_version m; mf_epoch := mf_epoch m; mf_writer_id := mf_writer_id m;
     mf_created_at := mf_created_at m; mf_ssts := ssts; mf_wal_segments := wal;
     mf_label_dict := mf_label_dict m; mf_catalog := catalog |}.

Definition SearchFlushManifestUpdate_apply (u : SearchFlushManifestUpdate) (m : Manifest) : Manifest :=
  with_contents m
    (List.filter (λ d, bool_decide (sst_id d ∉ su_retired_descriptor_ids u)) (mf_ssts m) ++ su_descriptors u)
    (mf_wal_segments m) (su_states u (mf_catalog m)).

Definition sst_uploads (p : PendingSst) : list (prog unit) :=
  put_sidecar_payload (pd_body_path p) (pd_body p) ::
  match pd_bloom_path p, pd_bloom_body p with
  | Some path, Some body => [put_payload path body]
  | _, _ => []
  end ++ map (λ '(path, body), put_sidecar_payload path body) (pd_index_sidecars p).
Definition has_bloom (p : PendingSst) : bool :=
  match pd_bloom_path p, pd_bloom_body p with Some _, Some _ => true | _, _ => false end.

(** ** What the session reads *)

(** Read your own writes: the staged batch over the published tables, labels resolved
    through the dictionary that knows the names interned in the batch. *)
Definition overlay_snapshot (ses : WriterSession) : Snapshot :=
  {| ss_memtable := ws_published ses;
     ss_overlay := if decide (mt_inner (ws_staged ses) = ∅) then None else Some (snapshot_view (ws_staged ses));
     ss_ssts := mf_ssts (lm_manifest (ws_current ses)) |}.
Definition overlay_dict (ses : WriterSession) : LabelDictionary :=
  if decide (mt_inner (ws_staged ses) = ∅) then mf_label_dict (lm_manifest (ws_current ses)) else ws_label_dict ses.

Section flush.
Context `{!KeySpace} `{!JsonCodec Manifest manifest_typed} `{!JsonCodec ManifestPointer pointer_typed}.
Context `{!Bincode WalEntry entry_typed} `{!Bincode MemtableSnapshotFile snapshot_typed}.
Context `{!Bincode MemtableSnapshotBindingV2 binding_typed}.
Context (crc32 xxh3_64 : list byte → Z).
Context (b : SstBuilders).

(** The edge types in the order of the [BTreeMap], forward before inverse. *)
Fixpoint edge_pendings (buckets : list (string * list EdgeRow)) : Result (list PendingSst) :=
  match buckets with
  | [] => Ok []
  | (edge_type, rows) :: buckets =>
      '(forward, inverse) ← edge_pending b edge_type rows;
      rest ← edge_pendings buckets;
      Ok (forward :: inverse :: rest)
  end.
Definition build_pending_ssts (node_rows : list NodeRow) (edge_buckets : gmap string (list EdgeRow))
    : Result (list PendingSst) :=
  nodes ← match node_rows with
          | [] => Ok []
          | _ => p ← node_pending b node_rows; Ok [p]
          end;
  edges ← edge_pendings (merge_sort (λ a b, String.le a.1 b.1) (map_to_list edge_buckets));
  Ok (nodes ++ edges).

Definition flush (fence : WriterFence) (base : LoadedManifest) (frozen : FrozenMemtable)
    (schema : list byte → list byte) (now : Z) (scheds : list (list bool)) (completed : list nat) : prog FlushOutcome :=
  _ ← Ret (assert_alive fence (mf_epoch (lm_manifest base)));
  if decide (fz_inner frozen = ∅)
  then mret {| fo_committed := base; fo_ssts_written := 0; fo_bloom_sidecars_written := 0 |}
  else
    let '(node_rows, edge_buckets) := bucket_nodes_and_edges frozen in
    pendings ← Ret (build_pending_ssts node_rows edge_buckets);
    plan ← match List.find (λ p, bool_decide (sst_kind (pd_descriptor p) = SkNodes)) pendings with
           | Some nodes => prepare_search_flush b base (pd_descriptor nodes) node_rows
           | None => mret SearchFlushPlan_default
           end;
    let uploads := flat_map sst_uploads pendings
                   ++ map (λ '(path, body), put_sidecar_payload path body) (sp_uploads plan) in
    _ ← await_all_object_uploads uploads scheds completed;
    let new_ssts := map pd_descriptor pendings in
    let next := next_version (lm_manifest base) (f_writer_id fence) now in
    let next := with_contents next (mf_ssts next ++ new_ssts) (mf_wal_segments next) (schema (mf_catalog next)) in
    let next := SearchFlushManifestUpdate_apply (sp_manifest plan) next in
    let next := with_contents next (mf_ssts next) [] (mf_catalog next) in
    committed ← commit fence base next;
    mret {| fo_committed := committed;
            fo_ssts_written := length new_ssts + length (su_descriptors (sp_manifest plan));
            fo_bloom_sidecars_written := length (List.filter has_bloom pendings) |}.

(** ** The flush of a session *)

(** The manifest and the memtable change together with the published view. *)
Definition with_tables (ses : WriterSession) (current : LoadedManifest) (memtable : Memtable) : WriterSession :=
  {| ws_fence := ws_fence ses; ws_current := current; ws_memtable := memtable;
     ws_published := snapshot_view memtable; ws_next_lsn := ws_next_lsn ses;
     ws_durable_lsn := ws_durable_lsn ses; ws_dropped_batches := ws_dropped_batches ses;
     ws_next_wal_seq := ws_next_wal_seq ses; ws_pending := ws_pending ses; ws_payloads := ws_payloads ses;
     ws_staged := ws_staged ses; ws_node_mutations := ws_node_mutations ses;
     ws_auto_snapshot_every := ws_auto_snapshot_every ses;
     ws_commits_since_snapshot := ws_commits_since_snapshot ses; ws_poisoned := ws_poisoned ses;
     ws_label_dict := ws_label_dict ses |}.

(** [retire] is [retire_signature_stale_generations]. *)
Definition commit_schema (ses : WriterSession) (schema : list byte → list byte) (retire : Manifest → Manifest) (now : Z)
    : prog (Result Z * WriterSession) :=
  let next := next_version (lm_manifest (ws_current ses)) (f_writer_id (ws_fence ses)) now in
  let next := retire (with_contents next (mf_ssts next) (mf_wal_segments next) (schema (mf_catalog next))) in
  r ← attempt (commit (ws_fence ses) (ws_current ses) next);
  match r with
  | Err e => mret (Err e, ses)
  | Ok committed =>
      mret (Ok (mf_version (lm_manifest committed)), with_tables ses committed (ws_memtable ses))
  end.

(** [pending] is the schema of the current manifest with the observed types applied,
    if that changes anything. *)
Definition resolve_pending_types (ses : WriterSession) (pending : option (list byte → list byte))
    (retire : Manifest → Manifest) (now : Z) : prog (Result unit * WriterSession) :=
  match pending with
  | None => mret (Ok (), ses)
  | Some schema =>
      '(r, ses) ← commit_schema ses schema retire now;
      mret (match r with Ok _ => Ok () | Err e => Err e end, ses)
  end.

Record FlushArgs := {
  fa_sched : list bool;
  fa_check : Result unit;
  fa_check' : Result unit;
  fa_now : nat → Z;
  fa_pending : option (list byte → list byte);
  fa_retire : Manifest → Manifest;
  fa_schema : list byte → list byte;
  fa_scheds : list (list bool);
  fa_completed : list nat;
}.

Definition WriterSession_flush (ses : WriterSession) (a : FlushArgs) : prog (Result FlushOutcome * WriterSession) :=
  '(r, ses) ← commit_batch crc32 xxh3_64 ses (fa_sched a) (fa_check a) (fa_check' a) (fa_now a 0%nat) (fa_now a 1%nat);
  match r with
  | Err e => mret (Err e, ses)
  | Ok _ =>
      '(r, ses) ← resolve_pending_types ses (fa_pending a) (fa_retire a) (fa_now a 2%nat);
      match r with
      | Err e => mret (Err e, ses)
      | Ok _ =>
          let '(live, frozen) := Memtable_freeze (ws_memtable ses) in
          r ← attempt (flush (ws_fence ses) (ws_current ses) frozen (fa_schema a) (fa_now a 3%nat) (fa_scheds a) (fa_completed a));
          match r with
          | Ok outcome => mret (Ok outcome, with_tables ses (fo_committed outcome) live)
          | Err e => mret (Err e, with_tables ses (ws_current ses) (Memtable_restore live frozen))
          end
      end
  end.

Definition maybe_flush (ses : WriterSession) (max_wal_segments : nat) (a : FlushArgs)
    : prog (Result bool * WriterSession) :=
  if (max_wal_segments =? 0)%nat || (length (mf_wal_segments (lm_manifest (ws_current ses))) <? max_wal_segments)%nat
  then mret (Ok false, ses)
  else
    '(r, ses) ← WriterSession_flush ses a;
    mret (match r with Ok _ => Ok true | Err e => Err e end, ses).
End flush.
