(* ===== verification/EdgeFlush.v ===== *)
(** Flushing the edges of a memtable ([build_edge_stream_rows], [build_edge_sst] and
    the edge loop of [build_pending_ssts] in [flush.rs], [sst/edges/inverse.rs]).

    One edge type becomes two SSTs: the rows as the memtable orders them, and the same
    rows with source and destination swapped, sorted again. The theorem says that both
    read back as the memtable. Parameter: [serde_json] on the write records
    ([EdgePayload]). *)
From S2P Require Import Prelude StorageError Bloom Memtable Compaction Flush EdgeEncoding EdgeFormat EdgePages EdgeReader EdgeWriter EdgeSealed EdgeImage EdgeWriterInv EdgeSst KwayMerge EdgeMerge EdgeCompaction.

(** [EdgeWriteRecord::decode], of which the flush keeps the properties by name, and
    [serde_json::to_string]. *)
Class EdgePayload `{PJ : PropertyJson} := {
  edge_write_decode : list byte → option (list (list byte * json_value));
  json_value_to_string : json_value → option (list byte);
  json_map_to_string : list (list byte * json_value) → option (list byte);
}.

(** ** The inverse order ([inverse.rs]) *)

Definition swapped (r : EdgeRecord) : EdgeRecord :=
  {| er_key_id := er_partner_id r; er_partner_id := er_key_id r; er_lsn := er_lsn r;
     er_tombstone := er_tombstone r; er_declared_properties := er_declared_properties r;
     er_overflow_json := er_overflow_json r |}.

(** [a.key_id.cmp(&b.key_id).then(a.partner_id.cmp(&b.partner_id))] is not [Greater]. *)
Definition record_le (a b : EdgeRecord) : Prop :=
  then_cmp (bytes_cmp (er_key_id a) (er_key_id b)) (bytes_cmp (er_partner_id a) (er_partner_id b)) ≠ Gt.
#[global] Instance record_le_dec : RelDecision record_le.
Proof. unfold record_le. intros a b. apply _. Defined.

Definition transpose_forward_to_inverse (forward : list EdgeRecord) : list EdgeRecord :=
  merge_sort record_le (map swapped forward).

Section Flush.
Context (xxh3_64 : list byte → Z) (blake3 : list byte → list byte).
Context (zstd_encode : list byte → option (list byte)) (zstd_decompress : list byte → Z → option (list byte)).
Context `{PJ : PropertyJson, PI : EdgePointIndex, EP : !EdgePayload} (crc32 : list byte → Z).

(** ** Rows *)

(** The [for (name, value) in &rec.properties] loop: declared properties go to their
    column, the others to the overflow map. *)
Fixpoint route_properties (names : list (list byte)) (properties : list (list byte * json_value))
    (declared : list PropValue) (overflow_map : list (list byte * json_value))
    : Result (list PropValue * list (list byte * json_value)) :=
  match properties with
  | [] => Ok (declared, overflow_map)
  | (name, value) :: rest =>
      match list_find (λ n, n = name) names with
      | Some (idx, _) =>
          encoded ← ok_or (Invariant "edge property encode") (json_value_to_string value);
          route_properties names rest (<[idx := Some encoded]> declared) overflow_map
      | None => route_properties names rest declared (props_insert name value overflow_map)
      end
  end.

Definition edge_stream_row (names : list (list byte)) (row : EdgeRow) : Result EdgeRecord :=
  let empty_declared := replicate (length names) None in
  match ed_op row with
  | Upsert bytes =>
      properties ← ok_or (Json "edge write record") (edge_write_decode bytes);
      '(declared, overflow_map) ← route_properties names properties empty_declared [];
      overflow_json ←
        (if bool_decide (overflow_map = []) then Ok None
         else json ← ok_or (Invariant "edge overflow encode") (json_map_to_string overflow_map); Ok (Some json));
      Ok {| er_key_id := be_split 16 (ed_src row); er_partner_id := be_split 16 (ed_dst row);
            er_lsn := ed_lsn row; er_tombstone := false; er_declared_properties := declared;
            er_overflow_json := overflow_json |}
  | Tombstone =>
      Ok {| er_key_id := be_split 16 (ed_src row); er_partner_id := be_split 16 (ed_dst row);
            er_lsn := ed_lsn row; er_tombstone := true; er_declared_properties := empty_declared;
            er_overflow_json := None |}
  end.

(** The [for row in rows] loop. *)
Fixpoint build_edge_stream_rows (rows : list EdgeRow) (names : list (list byte)) : Result (list EdgeRecord) :=
  match rows with
  | [] => Ok []
  | row :: rest =>
      r ← edge_stream_row names row;
      out ← build_edge_stream_rows rest names;
      Ok (r :: out)
  end.

(** ** SSTs *)

(** The [for r in rows] loop that counts distinct keys. *)
Fixpoint distinct_keys (rows : list EdgeRecord) (last_key : option (list byte)) (n : Z) : Z :=
  match rows with
  | [] => n
  | r :: rest =>
      if decide (Some (er_key_id r) ≠ last_key) then distinct_keys rest (Some (er_key_id r)) (wrapping_add64 n 1)
      else distinct_keys rest last_key n
  end.

(** The options are those of a merge, sized for the distinct keys. *)
Definition build_edge_sst (edge_type : list byte) (edge_def : option EdgeTypeDef) (rows : list EdgeRecord)
    (direction : EdgeDirection) (sst_id : list byte) (max_entry max_sst : option Z) : outcome EdgeSstBuild :=
  let options := merge_options edge_type edge_def direction (distinct_keys rows None 0) in
  writer ← EdgeSstWriter_extend xxh3_64 zstd_encode crc32 (EdgeSstWriter_new options sst_id max_entry max_sst) rows;
  finish_with_point_index xxh3_64 blake3 zstd_encode writer.

(** One turn of the [for (edge_type, rows) in edge_buckets] loop. *)
Definition flush_edge_bucket (edge_type : list byte) (edge_def : option EdgeTypeDef) (rows : list EdgeRow)
    (forward_id inverse_id : list byte) (max_entry max_sst : option Z) : outcome (EdgeSstBuild * EdgeSstBuild) :=
  forward_rows ← lift (build_edge_stream_rows rows (declared_property_names edge_def));
  let inverse_rows := transpose_forward_to_inverse forward_rows in
  forward ← build_edge_sst edge_type edge_def forward_rows Forward forward_id max_entry max_sst;
  inverse ← build_edge_sst edge_type edge_def inverse_rows Inverse inverse_id max_entry max_sst;
  mret (forward, inverse).
End Flush.

(** ** The transposed order *)

Lemma record_le_spec a b : record_le a b ↔ pair_lt (pair_of a) (pair_of b) ∨ pair_of a = pair_of b.
Proof.
  unfold record_le, pair_of, pair_lt, bytes_lt. cbn [fst snd].
  destruct (bytes_cmp (er_key_id a) (er_key_id b)) eqn:Hk; cbn [then_cmp].
  - apply bytes_cmp_eq in Hk. rewrite Hk.
    destruct (bytes_cmp (er_partner_id a) (er_partner_id b)) eqn:Hp.
    + apply bytes_cmp_eq in Hp. rewrite Hp. by split; [right|].
    + by split; [left; right|].
    + split; [done|]. intros [[?|[_ ?]]|[= He]]; [done..|]. by rewrite He, bytes_cmp_refl in Hp.
  - by split; [left; left|].
  - split; [done|]. intros [[?|[He _]]|[= He _]]; [done|..]; by rewrite He, bytes_cmp_refl in Hk.
Qed.

#[global] Instance record_le_trans : Transitive record_le.
Proof.
  intros a b c. rewrite !record_le_spec. intros [H1|H1] [H2|H2]; rewrite ?H1, <- ?H2; auto.
  left. by eapply pair_lt_trans.
Qed.
#[global] Instance record_le_total : Total record_le.
Proof.
  intros a b. rewrite !record_le_spec. destruct (pair_lt_total (pair_of a) (pair_of b)) as [?|[?|?]]; auto.
Qed.

Lemma pair_swapped r : pair_of (swapped r) = ((pair_of r).2, (pair_of r).1).
Proof. done. Qed.

Lemma transpose_perm forward : transpose_forward_to_inverse forward ≡ₚ map swapped forward.
Proof. apply merge_sort_Permutation. Qed.

Lemma run_NoDup rs : edge_run rs → NoDup (map pair_of rs).
Proof.
  induction 1 as [|r rs Hs IH Hall]; [constructor|]. cbn [map]. constructor; [|done].
  intros (x & Hx & Hin)%list_elem_of_fmap. rewrite Forall_forall in Hall. specialize (Hall _ Hin). cbn in Hall.
  rewrite <- Hx in Hall. by apply pair_lt_irrefl in Hall.
Qed.

Lemma transpose_run forward : edge_run forward → edge_run (transpose_forward_to_inverse forward).
Proof.
  intros Hnd%run_NoDup. assert (NoDup (map pair_of (transpose_forward_to_inverse forward))) as Hnd'.
  { change (NoDup (pair_of <$> transpose_forward_to_inverse forward)). rewrite transpose_perm.
    assert (map pair_of (map swapped forward) = map (λ p, (p.2, p.1)) (map pair_of forward)) as Hm by (by rewrite !map_map).
    change (NoDup (map pair_of (map swapped forward))). rewrite Hm.
    apply NoDup_fmap_2_strong; [|done]. intros [] [] _ _ [= -> ->]. done. }
  revert Hnd'. unfold transpose_forward_to_inverse.
  pose proof (StronglySorted_merge_sort record_le (map swapped forward)) as Hs. revert Hs.
  generalize (merge_sort record_le (map swapped forward)) as l. induction 1 as [|r l Hs IH Hall]; cbn [map]; [constructor|].
  intros [Hr Hl]%NoDup_cons. constructor; [by apply IH|]. rewrite Forall_forall in Hall |- *. intros x Hx.
  destruct (proj1 (record_le_spec r x) (Hall _ Hx)) as [?|He]; [done|]. destruct Hr. rewrite He.
  by apply (list_elem_of_fmap_2 pair_of).
Qed.

Lemma transpose_find forward a b :
  edge_run forward →
  find_edge (b, a) (transpose_forward_to_inverse forward) = swapped <$> find_edge (a, b) forward.
Proof.
  intros Hrun. pose proof (transpose_run _ Hrun) as Hrun'.
  destruct (find_edge (a, b) forward) as [e|] eqn:He; cbn.
  - apply find_row_Some in He as [Hin Hp]. apply (run_find _ _ pair_lt_irrefl); [done| |by rewrite pair_swapped, Hp].
    rewrite transpose_perm. by apply (list_elem_of_fmap_2 swapped).
  - apply find_row_None. intros r Hr Hp. rewrite transpose_perm in Hr. apply list_elem_of_fmap in Hr as (x & -> & Hx).
    apply (find_row_is_None _ _ _ x) in He; [|done]. apply He. rewrite pair_swapped in Hp. injection Hp as H1 H2.
    unfold pair_of in *. cbn in *. by rewrite H1, H2.
Qed.

(** ** The rows of an edge type *)

Lemma stream_rows_each `{PJ : PropertyJson, EP : !EdgePayload} names rows out :
  build_edge_stream_rows rows names = Ok out → Forall2 (λ row r, edge_stream_row names row = Ok r) rows out.
Proof.
  revert out. induction rows as [|row rows IH]; intros out H; cbn [build_edge_stream_rows] in H; [by injection H as <-|].
  apply result_bind_Ok in H as (r & Hr & H). apply result_bind_Ok in H as (rest & Hrest & H).
  injection H as <-. constructor; [done|by apply IH].
Qed.

Section Rows.
Context `{PJ : PropertyJson, EP : !EdgePayload}.
(** A [String] is UTF-8. *)
Hypothesis value_string_utf8 : ∀ v s, json_value_to_string v = Some s → utf8_valid s = true.
Hypothesis map_string_utf8 : ∀ m s, json_map_to_string m = Some s → utf8_valid s = true.

(** A record holds a row. *)
Definition row_of (names : list (list byte)) (row : EdgeRow) (r : EdgeRecord) : Prop :=
  pair_of r = (be_split 16 (ed_src row), be_split 16 (ed_dst row)) ∧ er_lsn r = ed_lsn row
  ∧ er_tombstone r = is_tombstone (ed_op row) ∧ value_utf8 (er_overflow_json r)
  ∧ Forall value_utf8 (er_declared_properties r) ∧ length (er_declared_properties r) = length names.

Lemma route_ok names properties declared overflow declared' overflow' :
  Forall value_utf8 declared → length declared = length names →
  route_properties names properties declared overflow = Ok (declared', overflow') →
  Forall value_utf8 declared' ∧ length declared' = length names.
Proof.
  revert declared overflow. induction properties as [|[name value] rest IH]; intros declared overflow HF Hl H;
    cbn [route_properties] in H; [by injection H as <- _|].
  destruct (list_find _ names) as [[idx n]|]; [|by eapply IH].
  apply result_bind_Ok in H as (encoded & He%ok_or_Ok & H). apply IH in H; [done| |by rewrite length_insert].
  apply Forall_insert; [done|]. by eapply value_string_utf8.
Qed.

Lemma replicate_utf8 n : Forall value_utf8 (replicate n None).
Proof. by apply Forall_replicate. Qed.

Lemma stream_row_ok names row r : edge_stream_row names row = Ok r → row_of names row r.
Proof.
  unfold edge_stream_row, row_of. destruct (ed_op row) as [bytes|].
  - intros H. apply result_bind_Ok in H as (props & _ & H). apply result_bind_Ok in H as ([decl ov] & Hr & H).
    apply route_ok in Hr as [HF Hl]; [|apply replicate_utf8|by rewrite length_replicate].
    apply result_bind_Ok in H as (json & Hj & H). injection H as <-. cbn. split_and!; try done.
    case_bool_decide; [by injection Hj as <-|]. apply result_bind_Ok in Hj as (s & Hs%ok_or_Ok & Hj).
    injection Hj as <-. by eapply map_string_utf8.
  - intros [= <-]. cbn. split_and!; try done; [apply replicate_utf8|by rewrite length_replicate].
Qed.

Lemma stream_rows_ok names rows out :
  build_edge_stream_rows rows names = Ok out → Forall2 (row_of names) rows out.
Proof. intros H%stream_rows_each. eapply Forall2_impl; [exact H|]. apply stream_row_ok. Qed.
End Rows.

Definition edge_row (edge_type : string) (ke : MemKey * MemEntry) : option EdgeRow :=
  match ke.1 with
  | KNode _ => None
  | KEdge t s d => if decide (t = edge_type)
                   then Some {| ed_src := s; ed_dst := d; ed_lsn := entry_lsn ke.2; ed_op := entry_op ke.2 |} else None
  end.

Lemma bucket_fold_edges l acc t :
  default [] ((foldl bucket_row acc l).2 !! t) = default [] (acc.2 !! t) ++ omap (edge_row t) l.
Proof.
  revert acc. induction l as [|[[id|t' s d] e] l IH]; intros [nodes edges]; simpl; [by rewrite app_nil_r| |];
    rewrite IH; [done|]. cbn [snd]. change (edge_row t (KEdge t' s d, e)) with (if decide (t' = t)
      then Some {| ed_src := s; ed_dst := d; ed_lsn := entry_lsn e; ed_op := entry_op e |} else None). case_decide as Ht.
  - subst t'. rewrite lookup_insert_eq. cbn. by rewrite <- app_assoc.
  - by rewrite lookup_insert_ne.
Qed.

Lemma bucket_edges frozen t :
  default [] ((bucket_nodes_and_edges frozen).2 !! t) = omap (edge_row t) (ord_iter (fz_inner frozen)).
Proof. unfold bucket_nodes_and_edges. by rewrite bucket_fold_edges. Qed.

(** The rows come in the order of the SST. *)
Definition row_lt (a b : EdgeRow) : Prop :=
  ed_src a < ed_src b ∨ (ed_src a = ed_src b ∧ ed_dst a < ed_dst b).

Lemma edge_rows_sorted l t : StronglySorted entry_le l → NoDup l.*1 → StronglySorted row_lt (omap (edge_row t) l).
Proof.
  induction 1 as [|[k e] l Hs IH Hall]; simpl; [constructor|]. intros [Hk Hnd]%NoDup_cons.
  destruct (edge_row t (k, e)) as [row|] eqn:Hr; [|by apply IH]. constructor; [by apply IH|].
  apply Forall_forall. intros row' ([k' e'] & Hin & Hr')%list_elem_of_omap.
  rewrite Forall_forall in Hall. specialize (Hall _ Hin). unfold entry_le, edge_row in *. cbn [fst snd] in *.
  destruct k as [|t1 s1 d1], k' as [|t2 s2 d2]; try done. repeat case_decide; simplify_eq. cbn in Hall |- *.
  unfold row_lt. cbn. assert (s1 ≠ s2 ∨ d1 ≠ d2); [|naive_solver lia].
  destruct (decide (s1 = s2 ∧ d1 = d2)) as [[-> ->]|]; [|lia]. destruct Hk. apply list_elem_of_fmap. by exists (KEdge t s2 d2, e').
Qed.

(** ** Both SSTs read back as the memtable *)

Definition is_id (z : Z) : Prop := 0 ≤ z < 2 ^ 128.

(** Node ids have 16 bytes and LSNs 8. *)
Definition memtable_typed (frozen : FrozenMemtable) : Prop :=
  ∀ t s d e, fz_inner frozen !! KEdge t s d = Some e → is_id s ∧ is_id d ∧ is_u64 (entry_lsn e).

Lemma be_split_cmp a b : is_id a → is_id b → bytes_cmp (be_split 16 a) (be_split 16 b) = (a ?= b).
Proof.
  intros Ha Hb. rewrite bytes_cmp_be by (by rewrite !length_be_split).
  by rewrite !be_combine_split_small by done.
Qed.
Lemma be_split_inj a b : is_id a → is_id b → be_split 16 a = be_split 16 b → a = b.
Proof. intros Ha Hb He. apply Z.compare_eq. rewrite <- be_split_cmp by done. by apply bytes_cmp_eq. Qed.

Definition row_ids (row : EdgeRow) : Prop := is_id (ed_src row) ∧ is_id (ed_dst row) ∧ is_u64 (ed_lsn row).

Lemma rows_run names rows out :
  Forall2 (row_of names) rows out → StronglySorted row_lt rows → Forall row_ids rows →
  edge_run out ∧ Forall record_ok out.
Proof.
  induction 1 as [|row r rows out Hr HF IH]; intros HS Hids; [by repeat constructor|].
  apply StronglySorted_inv in HS as [HS Hall]. inversion Hids as [|? ? (Hs & Hd & Hl) Hids']; subst.
  destruct (IH HS Hids') as [Hrun Hok]. destruct Hr as (Hp & Hlsn & _ & Hov & Hdecl & _). split; constructor; try done.
  - rewrite Forall_forall in Hall. rewrite Forall_forall in Hids'. apply Forall_forall. intros x [i Hx]%list_elem_of_lookup.
    destruct (Forall2_lookup_r _ _ _ _ _ HF Hx) as (row' & Hrow & (Hp' & _)). apply list_elem_of_lookup_2 in Hrow.
    destruct (Hids' _ Hrow) as (Hs' & Hd' & _). rewrite Hp, Hp'. unfold pair_lt, bytes_lt. cbn [fst snd].
    rewrite !be_split_cmp by done. destruct (Hall _ Hrow) as [Hlt|[He Hlt]]; [by left|right].
    split; [by rewrite He|done].
  - injection Hp as Hk Hpp. unfold record_ok. rewrite Hk, Hpp, Hlsn, !length_be_split. done.
Qed.

(** What a lookup says of an edge: its LSN and whether it is deleted. *)
Definition point_of (o : option EdgePointLookup) : option (Z * bool) :=
  (λ p, (epl_lsn p, epl_tombstone p)) <$> o.
Definition entry_point (e : MemEntry) : Z * bool := (entry_lsn e, is_tombstone (entry_op e)).

Lemma point_lookup rs k p :
  point_of (lookup_edge rs k p) = (λ e, (er_lsn e, er_tombstone e)) <$> find_edge (k, p) rs.
Proof.
  unfold lookup_edge, find_row. induction rs as [|r rs IH]; [done|]. cbn [list_find List.find].
  destruct (decide (er_key_id r = k ∧ er_partner_id r = p)) as [[Hk Hp]|Hn].
  - rewrite bool_decide_true by (unfold pair_of; by rewrite Hk, Hp). done.
  - rewrite bool_decide_false by (unfold pair_of; intros [= ? ?]; tauto). rewrite <- IH.
    by destruct (list_find _ rs) as [[i e]|].
Qed.

Lemma rows_find frozen t names out s d :
  memtable_typed frozen → is_id s → is_id d → edge_run out →
  Forall2 (row_of names) (omap (edge_row t) (ord_iter (fz_inner frozen))) out →
  (λ e, (er_lsn e, er_tombstone e)) <$> find_edge (be_split 16 s, be_split 16 d) out
  = entry_point <$> fz_inner frozen !! KEdge t s d.
Proof.
  intros Hty Hs Hd Hrun HF.
  destruct (fz_inner frozen !! KEdge t s d) as [e|] eqn:He.
  - assert ({| ed_src := s; ed_dst := d; ed_lsn := entry_lsn e; ed_op := entry_op e |}
      ∈ omap (edge_row t) (ord_iter (fz_inner frozen))) as [i Hi]%list_elem_of_lookup.
    { apply list_elem_of_omap. exists (KEdge t s d, e). split; [by apply elem_of_ord_iter|]. unfold edge_row. cbn.
      by rewrite decide_True. }
    destruct (Forall2_lookup_l _ _ _ _ _ HF Hi) as (r & Hr & Hp & Hl & Ht & _). apply list_elem_of_lookup_2 in Hr.
    rewrite (run_find _ _ pair_lt_irrefl _ _ r Hrun Hr Hp). cbn. unfold entry_point. by rewrite Hl, Ht.
  - rewrite find_row_None; [done|]. intros r [i Hr]%list_elem_of_lookup Hp.
    destruct (Forall2_lookup_r _ _ _ _ _ HF Hr) as (row & Hrow & Hp' & _). apply list_elem_of_lookup_2 in Hrow.
    apply list_elem_of_omap in Hrow as ([k e] & Hin & Hrow). apply elem_of_ord_iter in Hin.
    unfold edge_row in Hrow. cbn [fst snd] in Hrow. destruct k as [|t' s' d']; [done|]. case_decide; [|done]. simplify_eq.
    destruct (Hty _ _ _ _ Hin) as (Hs' & Hd' & _). rewrite Hp' in Hp. cbn [ed_src ed_dst] in Hp.
    pose proof (f_equal fst Hp) as H1. pose proof (f_equal snd Hp) as H2. cbn [fst snd] in H1, H2. clear Hp Hp'.
    apply be_split_inj in H1 as ->; [|done..]. apply be_split_inj in H2 as ->; [|done..]. by rewrite He in Hin.
Qed.

Section Reads.
Context (xxh3_64 : list byte → Z) (blake3 : list byte → list byte).
Context (zstd_encode : list byte → option (list byte)) (zstd_decompress : list byte → Z → option (list byte)).
Hypothesis xxh3_64_u64 : ∀ bs, is_u64 (xxh3_64 bs).
Hypothesis blake3_length : ∀ bs, length (blake3 bs) = 32%nat.
Hypothesis zstd_law : ∀ raw enc,
  zstd_encode raw = Some enc → zstd_decompress enc (Z.of_nat (length raw)) = Some raw.
Context `{PJ : PropertyJson, PI : EdgePointIndex, EP : !EdgePayload} (crc32 : list byte → Z).
Hypothesis value_string_utf8 : ∀ v s, json_value_to_string v = Some s → utf8_valid s = true.
Hypothesis map_string_utf8 : ∀ m s, json_map_to_string m = Some s → utf8_valid s = true.

Lemma transpose_ok rows : Forall record_ok rows → Forall record_ok (transpose_forward_to_inverse rows).
Proof.
  intros HF. rewrite transpose_perm. apply Forall_map. eapply Forall_impl; [exact HF|].
  intros r (Hk & Hp & Hl & Ho & Hd). by split_and!.
Qed.

Lemma flush_rows_ok frozen t names out :
  memtable_typed frozen →
  build_edge_stream_rows (default [] ((bucket_nodes_and_edges frozen).2 !! t)) names = Ok out →
  Forall2 (row_of names) (omap (edge_row t) (ord_iter (fz_inner frozen))) out ∧ edge_run out ∧ Forall record_ok out.
Proof.
  rewrite bucket_edges. intros Hty HF%(stream_rows_ok value_string_utf8 map_string_utf8). split; [done|].
  eapply rows_run; [exact HF| |].
  - apply edge_rows_sorted; [apply (StronglySorted_merge_sort _)|apply ord_iter_NoDup_keys].
  - apply Forall_forall. intros row ([k e] & Hin & Hr)%list_elem_of_omap. apply elem_of_ord_iter in Hin.
    unfold edge_row in Hr. cbn [fst snd] in Hr. destruct k; [done|]. case_decide; [|done]. injection Hr as <-.
    by apply Hty in Hin.
Qed.

Lemma built_lookup edge_type edge_def rows direction id max_entry max_sst build :
  edge_def_ok edge_def → length id = 16%nat → Forall record_ok rows →
  build_edge_sst xxh3_64 blake3 zstd_encode crc32 edge_type edge_def rows direction id max_entry max_sst
  = Some (Ok build) →
  ∃ r, EdgeSstReader_open xxh3_64 (upload_bytes (ebd_body build)) = Ok r
    ∧ ∀ key partner, ∃ o, EdgeSstReader_lookup_partner xxh3_64 r key partner = Some (Ok o)
        ∧ point_of o = (λ e, (er_lsn e, er_tombstone e)) <$> find_edge (key, partner) rows.
Proof.
  intros Hdef Hid Hok H. unfold build_edge_sst in H. apply outcome_bind_Ok in H as (w & Hext & Hfin).
  destruct (built_source xxh3_64 blake3 zstd_encode zstd_decompress xxh3_64_u64 blake3_length zstd_law crc32 _ _
    (merge_options_ok edge_type edge_def direction (distinct_keys rows None 0) id Hdef Hid) max_entry max_sst rows build
    Hok ltac:(by exists w)) as (bs & r & <- & Hopen & Himg & Hfit & _).
  exists r. split; [done|]. intros key partner. eexists. split; [by apply (lookup_partner_image _ _ _ _ Himg)|].
  apply point_lookup.
Qed.

(** C6: flushing edges keeps them. The rows the flush gives the forward and the
    inverse writer are strictly sorted, as the writer demands. When one edge type of
    the frozen memtable is flushed, both SSTs open, and for every source and
    destination the forward SST under (source, destination) and the inverse SST under
    (destination, source) answer the LSN and the deletion mark of the memtable's
    entry, or nothing when it has none. *)
Theorem edge_flush_reads frozen edge_type edge_def forward_id inverse_id max_entry max_sst :
  memtable_typed frozen → edge_def_ok edge_def → length forward_id = 16%nat → length inverse_id = 16%nat →
  let rows := default [] ((bucket_nodes_and_edges frozen).2 !! edge_type) in
  (∀ forward_rows, build_edge_stream_rows rows (declared_property_names edge_def) = Ok forward_rows →
     edge_run forward_rows ∧ edge_run (transpose_forward_to_inverse forward_rows))
  ∧ ∀ forward inverse,
      flush_edge_bucket xxh3_64 blake3 zstd_encode crc32 (String.list_byte_of_string edge_type) edge_def rows
        forward_id inverse_id max_entry max_sst = Some (Ok (forward, inverse)) →
      ∃ rf ri,
        EdgeSstReader_open xxh3_64 (upload_bytes (ebd_body forward)) = Ok rf
        ∧ EdgeSstReader_open xxh3_64 (upload_bytes (ebd_body inverse)) = Ok ri
        ∧ ∀ src dst, is_id src → is_id dst → ∃ o o',
            EdgeSstReader_lookup_partner xxh3_64 rf (be_split 16 src) (be_split 16 dst) = Some (Ok o)
            ∧ EdgeSstReader_lookup_partner xxh3_64 ri (be_split 16 dst) (be_split 16 src) = Some (Ok o')
            ∧ point_of o = entry_point <$> fz_inner frozen !! KEdge edge_type src dst
            ∧ point_of o' = entry_point <$> fz_inner frozen !! KEdge edge_type src dst.
Proof.
  intros Hty Hdef Hfid Hiid rows. subst rows.
  pose proof (λ out, flush_rows_ok frozen edge_type (declared_property_names edge_def) out Hty) as Hrows.
  rewrite bucket_edges in *.
  split; [intros out (_ & Hrun & _)%Hrows; split; [done|by apply transpose_run]|].
  intros forward inverse H. apply outcome_bind_Ok in H as (out & Hout%lift_Ok & H).
  destruct (Hrows _ Hout) as (HF & Hrun & Hok). apply outcome_bind_Ok in H as (f & Hf & H).
  apply outcome_bind_Ok in H as (i & Hi & H). injection H as -> ->.
  destruct (built_lookup _ _ _ _ _ _ _ _ Hdef Hfid Hok Hf) as (rf & Hrf & Hlf).
  destruct (built_lookup _ _ _ _ _ _ _ _ Hdef Hiid (transpose_ok _ Hok) Hi) as (ri & Hri & Hli).
  exists rf, ri. split_and!; [done..|]. intros src dst Hs Hd.
  pose proof (rows_find _ _ _ _ _ _ Hty Hs Hd Hrun HF) as Hfind.
  destruct (Hlf (be_split 16 src) (be_split 16 dst)) as (o & Ho & Hpo).
  destruct (Hli (be_split 16 dst) (be_split 16 src)) as (o' & Ho' & Hpo'). exists o, o'. rewrite Hpo, Hpo', <- Hfind.
  split_and!; try done. rewrite transpose_find by done. by destruct (find_edge _ out).
Qed.
End Reads.
