(* ===== verification/EdgeScan.v ===== *)
(** Scanning and counting the edges of a type at a snapshot ([read.rs],
    [Snapshot::scan_edge_type] and [Snapshot::count_edge_type]).

    A scan folds the memtable, the staged overlay and every forward SST of the type into
    one map from (source, destination) to the version with the highest LSN, and returns
    the live ones in order. The theorems say that this is the newest version of every
    edge, that flushing a memtable and compacting SSTs leave it as it is, and that the
    count is its length, also on the path that reads only metadata.

    Arguments: the body of an SST ([get_sst_body]), the answers of [cancel::check], the
    tombstone count in the descriptor's statistics and the lookup of the paged reader.
    [serde_json] must return the property maps of the flushed payloads as it wrote them
    ([payload_ok]). *)
From S2P Require Import Prelude StorageError Bloom Memtable ManifestTypes DescriptorIndex Compaction NodeReads Flush EdgeEncoding EdgeFormat EdgePages EdgeReader EdgeWriter EdgeSealed EdgeImage EdgeWriterInv EdgeSst KwayMerge EdgeMerge EdgeCompaction EdgeFlush.

(** ** Winners *)

Abbreviation node_pair := (Z * Z)%type.
(** [BTreeMap<(NodeId, NodeId), (u64, V)>] *)
Abbreviation latest_map V := (gmap node_pair (Z * V)).

(** [update_edge_winner], and [update_edge_count_winner] at [V = bool]. *)
Definition update_edge_winner {V} (map : latest_map V) (key : node_pair) (lsn : Z) (view : V) : latest_map V :=
  match map !! key with
  | Some (existing_lsn, _) => if lsn <=? existing_lsn then map else <[key := (lsn, view)]> map
  | None => <[key := (lsn, view)]> map
  end.

(** The derived order of a pair of ids, and [BTreeMap::into_values]. *)
Definition pair_before {A} (a b : node_pair * A) : Prop :=
  a.1.1 < b.1.1 ∨ (a.1.1 = b.1.1 ∧ a.1.2 ≤ b.1.2).
#[global] Instance pair_before_dec A : RelDecision (@pair_before A).
Proof. unfold pair_before. intros a b. apply _. Defined.
Definition into_values {A} (m : gmap node_pair A) : list A := (merge_sort pair_before (map_to_list m)).*2.

Section Scan.
Context (xxh3_64 : list byte → Z) (zstd_decompress : list byte → Z → option (list byte)).
Context (zstd_decode_all : list byte → option (list byte)).
Context (arrow_ipc_strings : list byte → Result (list PropValue)).
Context `{PJ : PropertyJson, EP : !EdgePayload}.
Context (env : EnvVar).
Context (get_sst_body : SstDescriptor → Result (list byte)).
(** [cancel::check] before row [idx] of SST [i] *)
Context (cancel_check : nat → nat → Result unit).

Abbreviation properties := (list (list byte * json_value)).

Record EdgeView := {
  ev_edge_type : string;
  ev_src : Z;
  ev_dst : Z;
  ev_properties : properties;
  ev_lsn : Z;
}.

Definition edge_mem_entries_for_type (s : Snapshot) (edge_type : string) : list (MemKey * MemEntry) :=
  MemtableSnapshot_iter_edge_type (ss_memtable s) edge_type
  ++ match ss_overlay s with Some o => MemtableSnapshot_iter_edge_type o edge_type | None => [] end.

(** ** Property maps *)

Definition decode_overflow_props (slot : option PropValue) : Result properties :=
  match slot with
  | Some (Some json) => ok_or (Json "edge overflow properties") (json_map_from_str json)
  | _ => Ok []
  end.

(** The [for (name, stream) in declared_streams] loop, on the slots [stream.get(idx)]. *)
Fixpoint insert_declared (slots : list (list byte * option PropValue)) (out : properties) : Result properties :=
  match slots with
  | [] => Ok out
  | (name, Some (Some encoded)) :: rest =>
      value ← ok_or (Invariant "edge declared property decode") (json_value_from_str encoded);
      insert_declared rest (props_insert name value out)
  | _ :: rest => insert_declared rest out
  end.

Definition decode_edge_properties (overflow_slot : option PropValue)
    (declared_streams : list (list byte * list PropValue)) (idx : nat) : Result properties :=
  out ← decode_overflow_props overflow_slot;
  insert_declared (map (λ s, (s.1, s.2 !! idx)) declared_streams) out.

Fixpoint load_declared_streams (reader : EdgeSstReader) (names : list (list byte))
    : Result (list (list byte * list PropValue)) :=
  match names with
  | [] => Ok []
  | name :: rest =>
      stream ← read_declared_property_strings xxh3_64 zstd_decompress zstd_decode_all arrow_ipc_strings reader name;
      out ← load_declared_streams reader rest;
      Ok match stream with Some stream => (name, stream) :: out | None => out end
  end.

(** ** [scan_edge_type] *)

Definition memtable_view (edge_type : string) (src dst : Z) (entry : MemEntry) : Result (option EdgeView) :=
  match entry_op entry with
  | Tombstone => Ok None
  | Upsert payload =>
      properties ← ok_or (Json "edge write record") (edge_write_decode payload);
      Ok (Some {| ev_edge_type := edge_type; ev_src := src; ev_dst := dst; ev_properties := properties;
                  ev_lsn := entry_lsn entry |})
  end.

(** The loops over the memtable: [view] is what the caller keeps of an entry. *)
Fixpoint fold_memtable {V} (view : Z → Z → MemEntry → Result V) (edge_type : string)
    (entries : list (MemKey * MemEntry)) (latest : latest_map V) : Result (latest_map V) :=
  match entries with
  | [] => Ok latest
  | (KNode _, _) :: rest => fold_memtable view edge_type rest latest
  | (KEdge et src dst, entry) :: rest =>
      if decide (et ≠ edge_type) then fold_memtable view edge_type rest latest
      else
        v ← view src dst entry;
        fold_memtable view edge_type rest (update_edge_winner latest (src, dst) (entry_lsn entry) v)
  end.

Definition sst_row_view (edge_type : string) (overflows : option (list PropValue))
    (declared_streams : list (list byte * list PropValue)) (idx : nat) (row : EdgeRowProjection)
    : Result (option EdgeView) :=
  if ep_row_tombstone row then Ok None
  else
    properties ← decode_edge_properties (o ← overflows; o !! idx) declared_streams idx;
    Ok (Some {| ev_edge_type := edge_type; ev_src := be_combine (ep_key_id row);
                ev_dst := be_combine (ep_partner_id row); ev_properties := properties;
                ev_lsn := ep_row_lsn row |}).

Definition CHECK_STRIDE : nat := 1024.

(** The loops over the rows of SST [i], from row [idx]. *)
Fixpoint fold_rows {V} (view : nat → EdgeRowProjection → Result V) (i : nat) (rows : list EdgeRowProjection)
    (idx : nat) (latest : latest_map V) : Result (latest_map V) :=
  match rows with
  | [] => Ok latest
  | row :: rest =>
      _ ← (if (idx mod CHECK_STRIDE =? 0)%nat then cancel_check i idx else Ok tt);
      v ← view idx row;
      fold_rows view i rest (S idx)
        (update_edge_winner latest (be_combine (ep_key_id row), be_combine (ep_partner_id row)) (ep_row_lsn row) v)
  end.

(** The [for &idx in scope_descriptors(..)] loop. *)
Fixpoint scan_ssts (edge_type : string) (names : list (list byte)) (ssts : list SstDescriptor) (idxs : list nat)
    (latest : latest_map (option EdgeView)) : outcome (latest_map (option EdgeView)) :=
  match idxs with
  | [] => mret latest
  | i :: rest =>
      desc ← index ssts i;
      body ← lift (get_sst_body desc);
      reader ← lift (EdgeSstReader_open xxh3_64 body);
      rows ← EdgeSstReader_scan_all_edges xxh3_64 env reader;
      overflows ← lift (read_overflow_strings xxh3_64 zstd_decompress zstd_decode_all arrow_ipc_strings reader);
      declared_streams ← lift (load_declared_streams reader names);
      latest ← lift (fold_rows (sst_row_view edge_type overflows declared_streams) i rows 0 latest);
      scan_ssts edge_type names ssts rest latest
  end.

(** [edge_def] is [schema.edge_type(edge_type)]. *)
Definition scan_edge_type (s : Snapshot) (edge_def : option EdgeTypeDef) (edge_type : string)
    : outcome (list EdgeView) :=
  latest ← lift (fold_memtable (memtable_view edge_type) edge_type (edge_mem_entries_for_type s edge_type) ∅);
  latest ← scan_ssts edge_type (declared_property_names edge_def) (ss_ssts s)
             (scope_descriptors (DescriptorIndex_build (ss_ssts s)) SkEdgesFwd edge_type) latest;
  mret (omap snd (into_values latest)).

(** ** [count_edge_type] *)

(** The tombstone count of [KindSpecificStats::Edges], and the lookup of the paged
    reader on the SST. *)
Context (edge_tombstone_count : SstDescriptor → option Z).
Context (paged_lookup_partner : SstDescriptor → list byte → list byte → outcome (option EdgePointLookup)).

Definition entry_live (src dst : Z) (entry : MemEntry) : Result bool := Ok (negb (is_tombstone (entry_op entry))).
Definition row_live (idx : nat) (row : EdgeRowProjection) : Result bool := Ok (negb (ep_row_tombstone row)).

Definition live_count (latest : latest_map bool) : Z := Z.of_nat (length (filter (λ e, e.2 = true) (into_values latest))).

Fixpoint count_ssts (ssts : list SstDescriptor) (idxs : list nat) (latest : latest_map bool)
    : outcome (latest_map bool) :=
  match idxs with
  | [] => mret latest
  | i :: rest =>
      desc ← index ssts i;
      body ← lift (get_sst_body desc);
      reader ← lift (EdgeSstReader_open xxh3_64 body);
      rows ← EdgeSstReader_scan_all_edges xxh3_64 env reader;
      latest ← lift (fold_rows row_live i rows 0 latest);
      count_ssts ssts rest latest
  end.

(** The [for ((src, dst), (_, live)) in winners] loop; [delta] is an [i64]. *)
Fixpoint count_delta (desc : SstDescriptor) (winners : list (node_pair * (Z * bool))) (delta : Z) : outcome Z :=
  match winners with
  | [] => mret delta
  | ((src, dst), (_, live)) :: rest =>
      row ← paged_lookup_partner desc (be_split 16 src) (be_split 16 dst);
      let sst_live := match row with Some row => negb (epl_tombstone row) | None => false end in
      count_delta desc rest
        match live, sst_live with
        | true, false => sign_wrap 64 (delta + 1)
        | false, true => sign_wrap 64 (delta - 1)
        | _, _ => delta
        end
  end.

(** The general path, as [scan_edge_type] without properties. *)
Definition count_merged (s : Snapshot) (edge_type : string) : outcome Z :=
  latest ← lift (fold_memtable entry_live edge_type (edge_mem_entries_for_type s edge_type) ∅);
  latest ← count_ssts (ss_ssts s) (scope_descriptors (DescriptorIndex_build (ss_ssts s)) SkEdgesFwd edge_type) latest;
  mret (live_count latest).

Definition count_edge_type (s : Snapshot) (edge_type : string) : outcome Z :=
  match scope_descriptors (DescriptorIndex_build (ss_ssts s)) SkEdgesFwd edge_type with
  | [] =>
      winners ← lift (fold_memtable entry_live edge_type (edge_mem_entries_for_type s edge_type) ∅);
      mret (live_count winners)
  | [i] =>
      winners ← lift (fold_memtable entry_live edge_type (edge_mem_entries_for_type s edge_type) ∅);
      desc ← index (ss_ssts s) i;
      match edge_tombstone_count desc with
      | Some tombstone_count =>
          let base_live := Z.max 0 (sst_row_count desc - tombstone_count) in
          delta ← count_delta desc (merge_sort pair_before (map_to_list winners)) 0;
          mret (Z.max (sign_wrap 64 (sign_wrap 64 base_live + delta)) 0)
      | None => count_merged s edge_type
      end
  | _ => count_merged s edge_type
  end.
End Scan.

(** ** What a fold keeps

    A version is the pair of an edge, an LSN and what a source says of the edge. *)

Abbreviation version V := (node_pair * (Z * V))%type.

Section Winners.
Context {V : Type}.
Implicit Types (cs : list (version V)) (c : version V) (m : latest_map V).

Definition winners cs m : latest_map V := foldl (λ m c, update_edge_winner m c.1 c.2.1 c.2.2) m cs.

(** [m] holds, for every edge [cs] mentions, a version with the highest LSN. *)
Definition newest_of cs m : Prop :=
  ∀ p, match m !! p with
       | None => ∀ c, c ∈ cs → c.1 ≠ p
       | Some x => (p, x) ∈ cs ∧ ∀ c, c ∈ cs → c.1 = p → c.2.1 ≤ x.1
       end.

Lemma update_newest cs m c :
  newest_of cs m → newest_of (cs ++ [c]) (update_edge_winner m c.1 c.2.1 c.2.2).
Proof.
  destruct c as [q [lsn v]]. cbn [fst snd]. intros Hm p. unfold update_edge_winner.
  assert (∀ c, c ∈ cs ++ [(q, (lsn, v))] ↔ c ∈ cs ∨ c = (q, (lsn, v))) as snoc.
  { intros c. by rewrite elem_of_app, list_elem_of_singleton. }
  assert (∀ m', m' !! p = m !! p → (p = q → ∃ x, m !! q = Some x ∧ lsn ≤ x.1) →
    match m' !! p with
    | None => ∀ c, c ∈ cs ++ [(q, (lsn, v))] → c.1 ≠ p
    | Some x => (p, x) ∈ cs ++ [(q, (lsn, v))] ∧ ∀ c, c ∈ cs ++ [(q, (lsn, v))] → c.1 = p → c.2.1 ≤ x.1
    end) as kept.
  { intros m' -> Hq. specialize (Hm p). destruct (m !! p) as [x|] eqn:Hp.
    - destruct Hm as [Hin Hmax]. split; [apply snoc; by left|]. intros c [Hc| ->]%snoc He; [by apply Hmax|].
      cbn in He. subst q. destruct Hq as (x' & Hx' & Hle); [done|]. rewrite Hp in Hx'. injection Hx' as <-. done.
    - intros c [Hc| ->]%snoc He; [by apply (Hm c)|]. cbn in He. subst q. destruct Hq as (x' & Hx' & _); [done|congruence]. }
  assert ((∀ x, m !! q = Some x → x.1 < lsn) →
    match <[q := (lsn, v)]> m !! p with
    | None => ∀ c, c ∈ cs ++ [(q, (lsn, v))] → c.1 ≠ p
    | Some x => (p, x) ∈ cs ++ [(q, (lsn, v))] ∧ ∀ c, c ∈ cs ++ [(q, (lsn, v))] → c.1 = p → c.2.1 ≤ x.1
    end) as replaced.
  { intros Hlt. destruct (decide (q = p)) as [<-|Hne].
    - rewrite lookup_insert_eq. split; [apply snoc; by right|]. intros c [Hc| ->]%snoc He; [|done].
      specialize (Hm q). destruct (m !! q) as [x|]; [|by destruct (Hm c)]. destruct Hm as [_ Hmax].
      specialize (Hmax _ Hc He). specialize (Hlt _ eq_refl). cbn in *. lia.
    - apply kept; [by apply lookup_insert_ne|]. intros ->. done. }
  destruct (m !! q) as [[l' v']|] eqn:Hq; [|apply replaced; by intros ? [=]].
  destruct (Z.leb_spec lsn l').
  - apply kept; [done|]. intros ->. by exists (l', v').
  - apply replaced. intros x [= <-]. cbn. lia.
Qed.

Lemma winners_newest_app cs cs0 m : newest_of cs0 m → newest_of (cs0 ++ cs) (winners cs m).
Proof.
  revert cs0 m. induction cs as [|c cs IH]; intros cs0 m Hm; cbn; [by rewrite app_nil_r|].
  rewrite cons_middle, (assoc_L (++)). by apply IH, update_newest.
Qed.

Lemma winners_newest cs : newest_of cs (winners cs ∅).
Proof. apply (winners_newest_app cs [] ∅). intros p. rewrite lookup_empty. by intros c ?%elem_of_nil. Qed.

Lemma winners_app cs cs' m : winners (cs ++ cs') m = winners cs' (winners cs m).
Proof. apply foldl_app. Qed.
End Winners.

(** Versions of an edge with one LSN agree. *)
Definition versions_agree {V} (cs : list (version V)) : Prop :=
  ∀ c c', c ∈ cs → c' ∈ cs → c.1 = c'.1 → c.2.1 = c'.2.1 → c.2.2 = c'.2.2.

(** [cs'] tells of every edge what [cs] does: it adds no version, and of an edge it
    leaves out a newest version only if that is a tombstone and the edge is gone. *)
Definition covers {W} (cs cs' : list (version (option W))) : Prop :=
  (∀ c, c ∈ cs' → c ∈ cs)
  ∧ ∀ c, c ∈ cs → (∀ d, d ∈ cs → d.1 = c.1 → d.2.1 ≤ c.2.1) →
      (∃ c', c' ∈ cs' ∧ c'.1 = c.1 ∧ c.2.1 ≤ c'.2.1) ∨ (c.2.2 = None ∧ ∀ c', c' ∈ cs' → c'.1 ≠ c.1).

Definition live {W} (m : latest_map (option W)) : gmap node_pair W := omap snd m.

Lemma covers_live {W} (cs cs' : list (version (option W))) m m' :
  versions_agree cs → covers cs cs' → newest_of cs m → newest_of cs' m' → live m = live m'.
Proof.
  intros Hag [Hsub Hcov] Hm Hm'. apply map_eq. intros p. unfold live. rewrite !lookup_omap.
  specialize (Hm p). specialize (Hm' p). destruct (m !! p) as [x|].
  - destruct Hm as [Hin Hmax]. destruct (Hcov _ Hin) as [(c' & Hc' & Hp & Hle)|[Ht Hno]]; [done|..]; cbn in *.
    + destruct (m' !! p) as [y|]; [|by destruct (Hm' c')]. destruct Hm' as [Hy Hmax']. cbn.
      specialize (Hmax' _ Hc' Hp). apply Hsub in Hy. pose proof (Hmax _ Hy eq_refl) as Hle'. cbn in Hle'.
      apply (Hag (p, x) (p, y)); [done|done|done|cbn; lia].
    + destruct (m' !! p) as [y|]; [destruct Hm' as [Hy _]; by destruct (Hno _ Hy)|]. cbn. by rewrite Ht.
  - destruct (m' !! p) as [y|]; [|done]. destruct Hm' as [Hy _]. by destruct (Hm _ (Hsub _ Hy)).
Qed.

(** ** Maps in key order *)

#[global] Instance pair_before_trans A : Transitive (@pair_before A).
Proof. intros a b c. unfold pair_before. lia. Qed.
#[global] Instance pair_before_total A : Total (@pair_before A).
Proof. intros a b. unfold pair_before. lia. Qed.

(** The entries of a map in key order are the only sorted list of its entries. *)
Lemma sorted_entries_unique {A} (l l' : list (node_pair * A)) :
  NoDup l.*1 → l ≡ₚ l' → StronglySorted pair_before l → StronglySorted pair_before l' → l = l'.
Proof.
  intros Hnd Hp Hs Hs'. revert l' Hp Hs'. induction Hs as [|x l Hs IH Hall]; intros l' Hp Hs'.
  { by apply Permutation_nil in Hp as ->. }
  destruct Hs' as [|y l' Hs' Hall']; [by apply Permutation_sym, Permutation_nil in Hp|].
  cbn in Hnd. apply NoDup_cons in Hnd as [Hx Hnd].
  assert (x = y) as ->.
  { assert (x ∈ y :: l') as [Hx'|Hx']%elem_of_cons by (rewrite <- Hp; by left); [done|].
    assert (y ∈ x :: l) as [Hy|Hy]%elem_of_cons by (rewrite Hp; by left); [done|].
    rewrite Forall_forall in Hall, Hall'. specialize (Hall _ Hy). specialize (Hall' _ Hx').
    assert (x.1 = y.1) as He by (destruct x as [[? ?] ?], y as [[? ?] ?]; unfold pair_before in *; cbn in *; f_equal; lia).
    destruct Hx. rewrite He. by apply (list_elem_of_fmap_2 fst). }
  f_equal. apply IH; [done| |done]. by apply Permutation_cons_inv in Hp.
Qed.

Lemma live_values {W} (m : latest_map (option W)) : omap snd (into_values m) = into_values (live m).
Proof.
  unfold into_values.
  set (f := λ e : node_pair * (Z * option W), (λ w, (e.1, w)) <$> e.2.2).
  assert (∀ l, omap snd (l.*2) = (omap f l).*2) as Hf.
  { induction l as [|[p [lsn [w|]]] l IH]; cbn; [done| |done]. by f_equal. }
  assert (∀ l, (omap f l).*1 `sublist_of` l.*1) as Hk.
  { induction l as [|[p [lsn [w|]]] l IH]; cbn; by constructor. }
  assert (∀ (e : node_pair * W) (l : list (version (option W))), e ∈ omap f l ↔ ∃ lsn, (e.1, (lsn, Some e.2)) ∈ l) as Hin.
  { intros [p w] l. rewrite list_elem_of_omap. split.
    - intros ([q [lsn [w'|]]] & Hx & He); cbn in He; [|done]. injection He as -> ->. by exists lsn.
    - intros [lsn Hx]. by exists (p, (lsn, Some w)). }
  assert (NoDup (omap f (merge_sort pair_before (map_to_list m))).*1) as Hnd.
  { eapply sublist_NoDup; [|apply Hk]. rewrite merge_sort_Permutation. apply NoDup_fst_map_to_list. }
  rewrite Hf. f_equal. apply sorted_entries_unique; [done| | |apply (StronglySorted_merge_sort _)].
  - apply NoDup_Permutation; [by eapply NoDup_fmap_1|rewrite merge_sort_Permutation; apply NoDup_map_to_list|].
    intros [p w]. rewrite Hin, (merge_sort_Permutation _ (map_to_list (live m))), elem_of_map_to_list.
    unfold live. rewrite lookup_omap_Some. cbn. setoid_rewrite merge_sort_Permutation. setoid_rewrite elem_of_map_to_list. split.
    + intros [lsn Hm]. by exists (lsn, Some w).
    + intros ([lsn o] & Ho & Hm). cbn in Ho. subst o. by exists lsn.
  - generalize (StronglySorted_merge_sort pair_before (map_to_list m)). generalize (merge_sort pair_before (map_to_list m)).
    induction 1 as [|[p [lsn [w|]]] l Hs IH Hall]; cbn; [constructor| |done]. constructor; [done|].
    apply Forall_forall. intros e [lsn' He]%Hin. rewrite Forall_forall in Hall. specialize (Hall _ He). done.
Qed.

(** ** The loops as folds of versions *)

Section Said.
Context {V : Type}.
Implicit Types (cs : list (version (Result V))) (m : latest_map V).

(** A source may fail to say what a version is. *)
Fixpoint apply_versions cs m : Result (latest_map V) :=
  match cs with
  | [] => Ok m
  | (p, (lsn, r)) :: rest => v ← r; apply_versions rest (update_edge_winner m p lsn v)
  end.

Definition said (c : version (Result V)) : option (version V) :=
  match c.2.2 with Ok v => Some (c.1, (c.2.1, v)) | Err _ => None end.
Definition all_said cs : Prop := Forall (λ c, ∃ v, c.2.2 = Ok v) cs.

Lemma apply_said cs m : all_said cs → apply_versions cs m = Ok (winners (omap said cs) m).
Proof.
  intros HF. revert m. induction HF as [|[p [lsn r]] cs [v Hv] HF IH]; intros m; [done|]. cbn in Hv. subst r. cbn.
  by rewrite IH.
Qed.

Lemma apply_Ok cs m m' : apply_versions cs m = Ok m' → all_said cs ∧ m' = winners (omap said cs) m.
Proof.
  intros H. assert (all_said cs) as HF.
  { revert m H. induction cs as [|[p [lsn r]] cs IH]; intros m H; [constructor|]. cbn in H.
    apply result_bind_Ok in H as (v & -> & H). constructor; [by exists v|by eapply IH]. }
  split; [done|]. rewrite apply_said in H by done. by injection H as <-.
Qed.

Lemma apply_app cs cs' m : apply_versions (cs ++ cs') m = (m' ← apply_versions cs m; apply_versions cs' m').
Proof.
  revert m. induction cs as [|[p [lsn [v|e]]] cs IH]; intros m; [done| |done]. cbn. apply IH.
Qed.

Lemma elem_of_said c cs : c ∈ omap said cs ↔ (c.1, (c.2.1, Ok c.2.2)) ∈ cs.
Proof.
  rewrite list_elem_of_omap. destruct c as [p [lsn v]]. split.
  - intros ([q [l [w|]]] & Hin & He); cbn in *; [|done]. by injection He as -> -> ->.
  - intros Hin. eexists. split; [exact Hin|]. done.
Qed.
End Said.

(** The versions of a list of memtable entries. *)
Definition entry_versions {V} (view : Z → Z → MemEntry → Result V) (edge_type : string)
    (entries : list (MemKey * MemEntry)) : list (version (Result V)) :=
  omap (λ ke, match ke.1 with
              | KNode _ => None
              | KEdge et s d => if decide (et = edge_type) then Some ((s, d), (entry_lsn ke.2, view s d ke.2)) else None
              end) entries.

Lemma fold_memtable_versions {V} (view : Z → Z → MemEntry → Result V) edge_type entries m :
  fold_memtable view edge_type entries m = apply_versions (entry_versions view edge_type entries) m.
Proof.
  revert m. induction entries as [|[[id|et s d] e] entries IH]; intros m; [done|apply IH|]. cbn.
  destruct (decide (et = edge_type)) as [->|Hne].
  - rewrite decide_False by (by intros []). cbn. destruct (view s d e); [apply IH|done].
  - rewrite decide_True by done. apply IH.
Qed.

(** The pair of a record. *)
Definition id_pair (e : EdgeRecord) : node_pair := (be_combine (er_key_id e), be_combine (er_partner_id e)).
Definition record_version {V} (view : EdgeRecord → Result V) (e : EdgeRecord) : version (Result V) :=
  (id_pair e, (er_lsn e, view e)).

Section Rows.
Context (cancel_check : nat → nat → Result unit).
Hypothesis not_cancelled : ∀ i idx, cancel_check i idx = Ok tt.

Lemma fold_rows_versions {V} (view : nat → EdgeRowProjection → Result V) (said_of : EdgeRecord → Result V) i pre rs m :
  (∀ k e, (pre ++ rs) !! k = Some e → view k (projection e) = said_of e) →
  fold_rows cancel_check view i (map projection rs) (length pre) m = apply_versions (map (record_version said_of) rs) m.
Proof.
  revert pre m. induction rs as [|e rs IH]; intros pre m Hview; [done|]. cbn [map fold_rows].
  assert ((if (length pre mod CHECK_STRIDE =? 0)%nat then cancel_check i (length pre) else Ok tt) = Ok tt) as ->
    by (case_match; [apply not_cancelled|done]). cbn [mbind result_bind].
  rewrite (Hview (length pre) e) by (by rewrite lookup_app_r, Nat.sub_diag). cbn [apply_versions record_version].
  destruct (said_of e) as [v|err]; [|done]. cbn [mbind result_bind].
  replace (S (length pre)) with (length (pre ++ [e])) by (rewrite length_app; cbn; lia).
  apply IH. by rewrite <- (assoc_L (++)).
Qed.
End Rows.

(** ** What an SST row says *)

Section Views.
Context `{PJ : PropertyJson}.

Definition record_properties (names : list (list byte)) (e : EdgeRecord) : Result (list (list byte * json_value)) :=
  out ← decode_overflow_props (Some (er_overflow_json e));
  insert_declared (zip names (map Some (er_declared_properties e))) out.

Definition record_view (edge_type : string) (names : list (list byte)) (e : EdgeRecord) : Result (option EdgeView) :=
  if er_tombstone e then Ok None
  else
    properties ← record_properties names e;
    Ok (Some {| ev_edge_type := edge_type; ev_src := (id_pair e).1; ev_dst := (id_pair e).2;
                ev_properties := properties; ev_lsn := er_lsn e |}).

(** The loaded columns: those with a value. *)
Fixpoint loaded_streams (names : list (list byte)) (j : nat) (rs : list EdgeRecord) : list (list byte * list PropValue) :=
  match names with
  | [] => []
  | name :: rest =>
      match column_value (column j rs) with
      | Some stream => (name, stream) :: loaded_streams rest (S j) rs
      | None => loaded_streams rest (S j) rs
      end
  end.

Lemma column_value_at vs k (v : PropValue) :
  vs !! k = Some v → (c ← column_value vs; c !! k) = Some v ∨ (column_value vs = None ∧ v = None).
Proof.
  intros Hk. unfold column_value. destruct (existsb is_value vs) eqn:Hv; [by left|]. right. split; [done|].
  destruct v as [s|]; [|done]. enough (existsb is_value vs = true) by congruence.
  apply existsb_exists. exists (Some s). split; [|done]. apply list_elem_of_In. by eapply list_elem_of_lookup_2.
Qed.

Lemma column_at j rs k e : rs !! k = Some e → column j rs !! k = Some (nth j (er_declared_properties e) None).
Proof. intros Hk. unfold column. by rewrite list_lookup_fmap, Hk. Qed.

Lemma insert_loaded names j rs k e out :
  rs !! k = Some e → length (er_declared_properties e) = (j + length names)%nat →
  insert_declared (map (λ s, (s.1, s.2 !! k)) (loaded_streams names j rs)) out
  = insert_declared (zip names (map Some (drop j (er_declared_properties e)))) out.
Proof.
  intros Hk. revert j out. induction names as [|name names IH]; intros j out Hl; [done|]. cbn [length] in Hl.
  destruct (lookup_lt_is_Some_2 (er_declared_properties e) j ltac:(lia)) as [v Hv].
  rewrite (drop_S _ _ _ Hv). cbn [map zip zip_with loaded_streams].
  pose proof (column_value_at _ _ _ (column_at j rs k e Hk)) as Hc. rewrite (nth_lookup_Some _ _ _ _ Hv) in Hc.
  destruct Hc as [Hc|[-> ->]].
  - destruct (column_value (column j rs)) as [c|]; [|done]. cbn in Hc. cbn [map fst snd]. rewrite Hc.
    cbn [insert_declared]. destruct v as [encoded|]; [|apply IH; lia].
    destruct (json_value_from_str encoded); [|done]. cbn. apply IH. lia.
  - cbn [insert_declared]. apply IH. lia.
Qed.

(** Reading a row through the columns is reading the record. *)
Lemma sst_row_record edge_type names rs k e :
  Forall (λ e, length (er_declared_properties e) = length names) rs → rs !! k = Some e →
  sst_row_view edge_type (column_value (overflow_column rs)) (loaded_streams names 0 rs) k (projection e)
  = record_view edge_type names e.
Proof.
  intros Hw Hk. unfold sst_row_view, record_view, record_properties, decode_edge_properties.
  cbn [projection ep_row_tombstone ep_key_id ep_partner_id ep_row_lsn]. destruct (er_tombstone e); [done|].
  assert (overflow_column rs !! k = Some (er_overflow_json e)) as Ho
    by (unfold overflow_column; by rewrite list_lookup_fmap, Hk).
  assert (decode_overflow_props (o ← column_value (overflow_column rs); o !! k)
    = decode_overflow_props (Some (er_overflow_json e))) as ->.
  { destruct (column_value_at _ _ _ Ho) as [->|[-> ->]]; done. }
  destruct (decode_overflow_props _) as [out|]; [|done]. cbn [mbind result_bind].
  rewrite (insert_loaded _ _ _ _ e) by (done || by apply (Forall_lookup_1 _ _ _ _ Hw Hk)). by rewrite drop_0.
Qed.
End Views.

(** ** Property maps survive a flush *)

Section Properties.
Context `{PJ : PropertyJson, EP : !EdgePayload}.
Implicit Types (ps out : list (list byte * json_value)) (name : list byte).

(** The order of a [BTreeMap], and its [get]. *)
Definition props_sorted ps : Prop := StronglySorted (λ a b, bytes_lt a.1 b.1) ps.
Fixpoint props_get name ps : option json_value :=
  match ps with
  | [] => None
  | (k, v) :: rest => if decide (k = name) then Some v else props_get name rest
  end.

Lemma get_insert name k v ps :
  props_get name (props_insert k v ps) = if decide (k = name) then Some v else props_get name ps.
Proof.
  induction ps as [|[k' v'] ps IH]; [done|]. cbn [props_insert]. destruct (bytes_cmp k k') eqn:Hc; cbn [props_get].
  - apply bytes_cmp_eq in Hc as ->. by case_decide.
  - done.
  - rewrite IH. destruct (decide (k = name)) as [<-|]; [|done]. rewrite decide_False; [done|].
    intros ->. by rewrite bytes_cmp_refl in Hc.
Qed.

Lemma insert_elem e k v ps : e ∈ props_insert k v ps → e = (k, v) ∨ e ∈ ps.
Proof.
  induction ps as [|[k' v'] ps IH]; cbn [props_insert]; [by intros ->%list_elem_of_singleton; left|].
  destruct (bytes_cmp k k'); rewrite !elem_of_cons; naive_solver.
Qed.

Lemma insert_sorted k v ps : props_sorted ps → props_sorted (props_insert k v ps).
Proof.
  unfold props_sorted. induction 1 as [|[k' v'] ps Hs IH Hall]; cbn [props_insert]; [by repeat constructor|].
  destruct (bytes_cmp k k') eqn:Hc.
  - apply bytes_cmp_eq in Hc as ->. by constructor.
  - constructor; [by constructor|]. constructor; [done|]. eapply Forall_impl; [exact Hall|]. intros e He.
    by eapply bytes_lt_trans.
  - constructor; [done|]. apply Forall_forall. intros e [->|He]%insert_elem; [|rewrite Forall_forall in Hall; by apply Hall].
    cbn. unfold bytes_lt. rewrite bytes_cmp_antisym, Hc. done.
Qed.

Lemma get_below name ps : Forall (λ e, bytes_lt name e.1) ps → props_get name ps = None.
Proof.
  induction 1 as [|[k v] ps Hlt HF IH]; [done|]. cbn in *. rewrite decide_False; [done|]. intros ->.
  by apply bytes_lt_irrefl in Hlt.
Qed.

(** A sorted map is determined by its [get]. *)
Lemma props_ext ps out :
  props_sorted ps → props_sorted out → (∀ name, props_get name ps = props_get name out) → ps = out.
Proof.
  intros Hs. revert out. induction Hs as [|[k v] ps Hs IH Hall]; intros out Ho Hget.
  - destruct Ho as [|[k' v'] out Ho Hall']; [done|]. specialize (Hget k'). cbn in Hget. by rewrite decide_True in Hget.
  - destruct Ho as [|[k' v'] out Ho Hall']; [specialize (Hget k); cbn in Hget; by rewrite decide_True in Hget|].
    assert (k = k') as <-.
    { destruct (bytes_lt_total k k') as [Hlt|[?|Hlt]]; [|done|].
      - specialize (Hget k). cbn in Hget. rewrite decide_True in Hget by done.
        rewrite decide_False in Hget by (intros ->; by apply bytes_lt_irrefl in Hlt). rewrite get_below in Hget; [done|].
        eapply Forall_impl; [exact Hall'|]. intros e He. by eapply bytes_lt_trans.
      - specialize (Hget k'). cbn in Hget. rewrite (decide_True _ _ (eq_refl k')) in Hget.
        rewrite decide_False in Hget by (intros ->; by apply bytes_lt_irrefl in Hlt). rewrite get_below in Hget; [done|].
        eapply Forall_impl; [exact Hall|]. intros e He. by eapply bytes_lt_trans. }
    pose proof (Hget k) as Hk. cbn in Hk. rewrite !decide_True in Hk by done. injection Hk as <-. f_equal.
    apply IH; [done|]. intros name. specialize (Hget name). cbn in Hget. case_decide; [|done]. subst name.
    by rewrite !get_below.
Qed.

(** [serde_json] returns what it wrote. *)
Definition value_roundtrips (v : json_value) : Prop :=
  ∀ s, json_value_to_string v = Some s → json_value_from_str s = Some v.

Lemma route_slots names ps declared overflow declared' overflow' :
  NoDup names → props_sorted ps → length declared = length names → props_sorted overflow →
  route_properties names ps declared overflow = Ok (declared', overflow') →
  (∀ j name, names !! j = Some name → ∃ slot, declared' !! j = Some slot
     ∧ match props_get name ps with
       | Some v => json_value_to_string v = slot ∧ is_Some slot
       | None => declared !! j = Some slot
       end)
  ∧ props_sorted overflow'
  ∧ ∀ name, props_get name overflow'
            = if decide (name ∈ names) then props_get name overflow
              else match props_get name ps with Some v => Some v | None => props_get name overflow end.
Proof.
  intros Hnd Hs. revert declared overflow. induction Hs as [|[k v] ps Hs IH Hall]; intros declared overflow Hl Ho H;
    cbn [route_properties] in H.
  { injection H as <- <-. split_and!; [|done|intros name; by case_decide].
    intros j name Hj. destruct (lookup_lt_is_Some_2 declared j) as [slot Hslot]; [|by exists slot].
    rewrite Hl. by eapply lookup_lt_Some. }
  pose proof (get_below k ps Hall) as Hk. destruct (list_find (λ n, n = k) names) as [[idx n]|] eqn:Hf.
  - apply list_find_Some in Hf as (Hidx & -> & _). apply result_bind_Ok in H as (encoded & He%ok_or_Ok & H).
    apply IH in H as (Hdecl & Hso & Hov); [|by rewrite length_insert|done]. split_and!; [|done|].
    + intros j name Hj. destruct (Hdecl j name Hj) as (slot & Hslot & Hget). exists slot. split; [done|]. cbn [props_get].
      case_decide as Hkn.
      * subst name. rewrite Hk in Hget. rewrite (NoDup_lookup _ _ _ _ Hnd Hj Hidx) in Hget.
        rewrite list_lookup_insert_eq in Hget by (rewrite Hl; by eapply lookup_lt_Some). injection Hget as <-. by rewrite He.
      * destruct (props_get name ps); [done|]. rewrite list_lookup_insert_ne in Hget; [done|]. intros ->. congruence.
    + intros name. rewrite Hov. case_decide as Hin; [done|]. cbn [props_get]. case_decide as Hkn; [|done].
      subst name. destruct Hin. by eapply list_elem_of_lookup_2.
  - apply list_find_None in Hf. rewrite Forall_forall in Hf.
    apply IH in H as (Hdecl & Hso & Hov); [|done|by apply insert_sorted]. split_and!; [|done|].
    + intros j name Hj. destruct (Hdecl j name Hj) as (slot & Hslot & Hget). exists slot. split; [done|]. cbn [props_get].
      rewrite decide_False; [done|]. intros ->. by apply (Hf name (list_elem_of_lookup_2 _ _ _ Hj)).
    + intros name. rewrite Hov, get_insert. cbn [props_get]. repeat case_decide; try done; [subst name; by destruct (Hf k)|].
      subst name. by rewrite Hk.
Qed.
End Properties.

Section Rebuilt.
Context `{PJ : PropertyJson, EP : !EdgePayload}.
Implicit Types (ps out : list (list byte * json_value)) (name : list byte).

(** What a slot contributes to the map. *)
Definition slot_value (slot : PropValue) : option json_value := s ← slot; json_value_from_str s.

Lemma insert_slots names slots out :
  NoDup names → length slots = length names → props_sorted out →
  Forall (λ slot, ∀ s, slot = Some s → is_Some (json_value_from_str s)) slots →
  ∃ out', insert_declared (zip names (map Some slots)) out = Ok out' ∧ props_sorted out'
    ∧ (∀ j name slot, names !! j = Some name → slots !! j = Some slot →
         props_get name out' = match slot_value slot with Some v => Some v | None => props_get name out end)
    ∧ ∀ name, name ∉ names → props_get name out' = props_get name out.
Proof.
  intros Hnd. revert slots out. induction Hnd as [|name names Hn Hnd IH]; intros [|slot slots] out Hl Ho HF; try done.
  { exists out. by split_and!. }
  apply Forall_cons in HF as [Hslot HF]. injection Hl as Hl. cbn [zip zip_with map].
  assert (∃ out1, insert_declared ((name, Some slot) :: zip names (map Some slots)) out
      = insert_declared (zip names (map Some slots)) out1 ∧ props_sorted out1
      ∧ ∀ n, props_get n out1 = if decide (name = n) then match slot_value slot with Some v => Some v | None => props_get n out end
                                else props_get n out) as (out1 & -> & Ho1 & Hget1).
  { destruct slot as [s|]; [|exists out; split_and!; [done|done|intros n; by case_decide]].
    destruct (Hslot s eq_refl) as [v Hv]. exists (props_insert name v out). cbn. rewrite Hv. cbn.
    split_and!; [done|by apply insert_sorted|]. intros n. rewrite get_insert. by case_decide. }
  destruct (IH slots out1 Hl Ho1 HF) as (out' & -> & Ho' & Hin & Hout). exists out'. split_and!; [done|done| |].
  - intros [|j] n sl Hj Hs; cbn in Hj, Hs.
    + injection Hj as <-. injection Hs as <-. rewrite Hout, Hget1 by done. by rewrite decide_True.
    + rewrite (Hin j n sl Hj Hs), Hget1. rewrite decide_False; [done|]. intros ->. destruct Hn. by eapply list_elem_of_lookup_2.
  - intros n Hnn. rewrite Hout, Hget1 by (intros ?; apply Hnn; by right). rewrite decide_False; [done|].
    intros ->. apply Hnn. by left.
Qed.

Lemma route_length names ps declared overflow declared' overflow' :
  length declared = length names →
  route_properties names ps declared overflow = Ok (declared', overflow') → length declared' = length names.
Proof.
  revert declared overflow. induction ps as [|[k v] ps IH]; intros declared overflow Hl H; cbn [route_properties] in H;
    [by injection H as <- _|]. destruct (list_find _ names) as [[idx n]|]; [|by eapply IH].
  apply result_bind_Ok in H as (encoded & _ & H). by apply IH in H; rewrite ?length_insert.
Qed.

(** A map read from a payload: in key order, of values that [serde_json] returns as it
    wrote them, alone or in a map. *)
Record payload_ok ps : Prop := {
  po_sorted : props_sorted ps;
  po_values : ∀ name v, props_get name ps = Some v → value_roundtrips v;
  po_maps : ∀ ps' s, (∀ name v, props_get name ps' = Some v → props_get name ps = Some v) → props_sorted ps' →
    json_map_to_string ps' = Some s → json_map_from_str s = Some ps';
}.

(** The record of a flushed row shows what the memtable entry did. *)
Lemma flushed_view edge_type names row r :
  NoDup names → is_id (ed_src row) → is_id (ed_dst row) →
  (∀ bytes ps, ed_op row = Upsert bytes → edge_write_decode bytes = Some ps → payload_ok ps) →
  edge_stream_row names row = Ok r →
  record_version (record_view edge_type names) r
  = ((ed_src row, ed_dst row), (ed_lsn row, memtable_view edge_type (ed_src row) (ed_dst row)
       {| entry_lsn := ed_lsn row; entry_op := ed_op row |})).
Proof.
  intros Hnd Hs Hd Hpay H. unfold edge_stream_row in H.
  unfold record_version, id_pair, memtable_view, record_view, id_pair. cbn [entry_op entry_lsn].
  destruct (ed_op row) as [bytes|]; [|injection H as <-; cbn [er_key_id er_partner_id er_lsn er_tombstone];
    by rewrite !be_combine_split_small by done].
  apply result_bind_Ok in H as (ps & Hps%ok_or_Ok & H). apply result_bind_Ok in H as ([declared overflow] & Hr & H).
  apply result_bind_Ok in H as (json & Hj & H). injection H as <-.
  cbn [er_key_id er_partner_id er_lsn er_tombstone fst snd]. rewrite !be_combine_split_small by done. do 2 f_equal.
  rewrite Hps. cbn [ok_or mbind result_bind]. destruct (Hpay bytes ps eq_refl Hps) as [Hsort Hval Hmaps].
  pose proof Hr as Hlen. apply route_length in Hlen; [|by rewrite length_replicate].
  apply route_slots in Hr as (Hdecl & Hos & Hov); [|done|done|by rewrite length_replicate|constructor].
  assert (decode_overflow_props (Some json) = Ok overflow) as Hover.
  { case_bool_decide as He; [injection Hj as <-; by rewrite He|]. apply result_bind_Ok in Hj as (s & Hm%ok_or_Ok & Hj).
    injection Hj as <-. cbn. rewrite (Hmaps overflow s); [done| |done|done]. intros n v. rewrite Hov.
    case_decide; [done|]. by destruct (props_get n ps). }
  assert (∀ j name slot, names !! j = Some name → declared !! j = Some slot → slot_value slot = props_get name ps
    ∧ ∀ s, slot = Some s → is_Some (json_value_from_str s)) as Hslots.
  { intros j name slot Hj' Hsl. destruct (Hdecl j name Hj') as (slot' & Hsl' & Hget). rewrite Hsl in Hsl'. injection Hsl' as <-.
    destruct (props_get name ps) as [v|] eqn:Hv.
    - destruct Hget as [Hto [s ->]]. cbn. rewrite (Hval _ _ Hv s Hto). split; [done|]. intros s' [= <-].
      rewrite (Hval _ _ Hv s Hto). by eexists.
    - apply lookup_replicate in Hget as [-> _]. done. }
  unfold record_properties. cbn [er_overflow_json er_declared_properties]. rewrite Hover. cbn [mbind result_bind].
  destruct (insert_slots names declared overflow) as (out & Hout & Hso & Hin & Hnin); [done|done|done| |].
  { apply Forall_lookup. intros j slot Hsl. destruct (lookup_lt_is_Some_2 names j) as [name Hn];
      [rewrite <- Hlen; by eapply lookup_lt_Some|]. by eapply Hslots. }
  rewrite Hout. cbn [mbind result_bind]. do 4 f_equal. apply props_ext; [done|done|]. intros name.
  destruct (decide (name ∈ names)) as [[j Hj']%list_elem_of_lookup|Hnn].
  - destruct (Hdecl j name Hj') as (slot & Hsl & _). rewrite (Hin _ _ _ Hj' Hsl).
    destruct (Hslots _ _ _ Hj' Hsl) as [-> _]. rewrite Hov, decide_True by (by eapply list_elem_of_lookup_2).
    by destruct (props_get name ps).
  - rewrite Hnin, Hov, decide_False by done. by destruct (props_get name ps).
Qed.
End Rebuilt.

(** ** Counting *)

Definition is_live {W} (o : option W) : bool := match o with Some _ => true | None => false end.

(** The map of a count is the map of a scan without the views. *)
Definition liveness {W} (m : latest_map (option W)) : latest_map bool := (λ x, (x.1, is_live x.2)) <$> m.
Definition version_live {W} (c : version (option W)) : version bool := (c.1, (c.2.1, is_live c.2.2)).

Lemma winners_live {W} (cs : list (version (option W))) m :
  winners (map version_live cs) (liveness m) = liveness (winners cs m).
Proof.
  revert m. induction cs as [|[p [lsn v]] cs IH]; intros m; [done|].
  change (winners (map version_live cs) (update_edge_winner (liveness m) p lsn (is_live v))
    = liveness (winners cs (update_edge_winner m p lsn v))).
  rewrite <- IH. f_equal. unfold update_edge_winner, liveness. rewrite lookup_fmap.
  destruct (m !! p) as [[l' v']|]; cbn; [|by rewrite fmap_insert]. destruct (lsn <=? l'); [done|]. by rewrite fmap_insert.
Qed.

(** The keys of a map whose entry satisfies [P], and their number. *)
Definition keys_where (m : latest_map bool) (P : version bool → Prop) `{!∀ e, Decision (P e)} : gset node_pair :=
  list_to_set (filter P (map_to_list m)).*1.

Lemma elem_of_keys_where m (P : version bool → Prop) `{!∀ e, Decision (P e)} p :
  p ∈ keys_where m P ↔ ∃ x, m !! p = Some x ∧ P (p, x).
Proof.
  unfold keys_where. rewrite elem_of_list_to_set, list_elem_of_fmap. setoid_rewrite list_elem_of_filter. split.
  - intros ([q x] & -> & HP & Hin%elem_of_map_to_list). by exists x.
  - intros (x & Hx & HP). exists (p, x). by rewrite elem_of_map_to_list.
Qed.

Lemma filter_keys_NoDup {A} (l : list (node_pair * A)) (P : node_pair * A → Prop) `{!∀ e, Decision (P e)} :
  NoDup l.*1 → NoDup (filter P l).*1.
Proof. intros Hnd. eapply sublist_NoDup; [exact Hnd|]. apply fmap_sublist, sublist_filter. Qed.

Lemma size_keys_where m (P : version bool → Prop) `{!∀ e, Decision (P e)} l :
  l ≡ₚ map_to_list m → length (filter P l) = size (keys_where m P).
Proof.
  intros Hl. unfold keys_where. rewrite size_list_to_set, length_fmap; [by rewrite Hl|].
  apply filter_keys_NoDup, NoDup_fst_map_to_list.
Qed.

Lemma live_count_size m : live_count m = Z.of_nat (size (keys_where m (λ e, e.2.2 = true))).
Proof.
  unfold live_count, into_values. f_equal. rewrite <- (size_keys_where m _ (merge_sort pair_before (map_to_list m)))
    by apply merge_sort_Permutation.
  generalize (merge_sort pair_before (map_to_list m)) as l.
  induction l as [|e l IH]; [done|]. rewrite fmap_cons, !filter_cons. case_decide; cbn; by rewrite IH.
Qed.

Lemma live_count_values {W} (m : latest_map (option W)) : live_count (liveness m) = Z.of_nat (length (into_values (live m))).
Proof.
  rewrite live_count_size. f_equal. unfold into_values. rewrite length_fmap, merge_sort_Permutation, length_map_to_list.
  rewrite <- size_dom. f_equal. apply set_eq. intros p. rewrite elem_of_dom, elem_of_keys_where. unfold is_Some, liveness, live.
  setoid_rewrite lookup_fmap. setoid_rewrite lookup_omap. destruct (m !! p) as [[l [w|]]|]; cbn; naive_solver.
Qed.

(** Versions of distinct edges that are not newer only fill gaps. *)
Lemma winners_older {V} (cs : list (version V)) m :
  NoDup cs.*1 → (∀ c x, c ∈ cs → m !! c.1 = Some x → c.2.1 ≤ x.1) → winners cs m = m ∪ list_to_map cs.
Proof.
  revert m. induction cs as [|[p [lsn v]] cs IH]; intros m Hnd Hold.
  { cbn. by rewrite map_union_empty. }
  cbn in Hnd. apply NoDup_cons in Hnd as [Hp Hnd].
  change (winners cs (update_edge_winner m p lsn v) = m ∪ <[p := (lsn, v)]> (list_to_map cs)).
  unfold update_edge_winner. destruct (m !! p) as [[l' v']|] eqn:Hm.
  - pose proof (Hold (p, (lsn, v)) _ ltac:(by left) Hm) as Hle. cbn in Hle. rewrite (proj2 (Z.leb_le _ _) Hle).
    rewrite IH; [|done|intros c x Hc; apply Hold; by right]. apply map_eq. intros q. rewrite !lookup_union.
    destruct (decide (p = q)) as [<-|Hne]; [|by rewrite lookup_insert_ne].
    rewrite Hm, lookup_insert_eq. by destruct (list_to_map cs !! p).
  - rewrite IH; [by rewrite <- insert_union_l, insert_union_r|done|]. intros c x Hc Hx.
    rewrite lookup_insert_ne in Hx; [apply (Hold c x); [by right|done]|]. intros ->. destruct Hp. by apply (list_elem_of_fmap_2 fst).
Qed.

(** The count of the metadata path, as sizes of sets: [L] are the live edges of the SST. *)
Lemma live_union_size (m : latest_map bool) (cs : list (version bool)) (L : gset node_pair) :
  (∀ p, p ∈ L ↔ ∃ lsn, (list_to_map cs : latest_map bool) !! p = Some (lsn, true)) →
  live_count (m ∪ list_to_map cs)
  = Z.of_nat (size L) + Z.of_nat (size (keys_where m (λ e, e.2.2 = true ∧ e.1 ∉ L)))
    - Z.of_nat (size (keys_where m (λ e, e.2.2 = false ∧ e.1 ∈ L))).
Proof.
  intros HL. rewrite live_count_size.
  set (A := keys_where m (λ e, e.2.2 = true ∧ e.1 ∉ L)). set (B := keys_where m (λ e, e.2.2 = false ∧ e.1 ∈ L)).
  assert (keys_where (m ∪ list_to_map cs) (λ e, e.2.2 = true) = (L ∖ B) ∪ A) as ->.
  { apply set_eq. intros p. rewrite elem_of_union, elem_of_difference. unfold A, B. rewrite !elem_of_keys_where, HL.
    setoid_rewrite lookup_union. cbn. destruct (m !! p) as [[l []]|] eqn:Hm; cbn.
    - destruct (decide (p ∈ L)) as [Hp|Hp]; pose proof Hp as Hp'; rewrite HL in Hp'.
      + destruct Hp' as [lsn ->]. cbn. split; [|naive_solver]. intros _. left. split; [naive_solver|].
        intros (x & [= <-] & [=] & _).
      + destruct (list_to_map cs !! p) as [x|]; cbn; split; try naive_solver; intros _; right; exists (l, true); naive_solver.
    - split; [|naive_solver]. destruct (list_to_map cs !! p); cbn; naive_solver.
    - destruct (list_to_map cs !! p) as [[l b]|]; cbn; naive_solver. }
  assert (B ⊆ L) as HB.
  { intros p (x & _ & _ & HpL)%elem_of_keys_where. done. }
  rewrite size_union, size_difference; [|done|].
  - pose proof (subseteq_size _ _ HB). lia.
  - intros p [HpL _]%elem_of_difference (x & _ & _ & Hn)%elem_of_keys_where. done.
Qed.

Lemma sign_wrap_small d : Z.abs d < 2 ^ 63 → sign_wrap 64 d = d.
Proof.
  intros Hd. unfold sign_wrap. change (64 - 1) with 63. destruct (Z.ltb_spec d 0).
  - rewrite <- (Z.mod_unique_pos d (2 ^ 64) (-1) (d + 2 ^ 64)) by lia. case_match; lia.
  - rewrite Z.mod_small by lia. case_match; lia.
Qed.

Lemma count_delta_sizes (lookup : SstDescriptor → list byte → list byte → outcome (option EdgePointLookup))
    (desc : SstDescriptor) (L : gset node_pair) (ws : list (version bool)) (delta : Z) :
  (∀ e, e ∈ ws → ∃ o, lookup desc (be_split 16 e.1.1) (be_split 16 e.1.2) = Some (Ok o)
     ∧ match o with Some row => negb (epl_tombstone row) | None => false end = bool_decide (e.1 ∈ L)) →
  Z.abs delta + Z.of_nat (length ws) < 2 ^ 63 →
  count_delta lookup desc ws delta
  = Some (Ok (delta + Z.of_nat (length (filter (λ e, e.2.2 = true ∧ e.1 ∉ L) ws))
                    - Z.of_nat (length (filter (λ e, e.2.2 = false ∧ e.1 ∈ L) ws)))).
Proof.
  revert delta. induction ws as [|[[src dst] [lsn live]] ws IH]; intros delta Hlook Hb.
  { rewrite !filter_nil. cbn. unfold mret, outcome_ret. do 2 f_equal. lia. }
  cbn [count_delta]. destruct (Hlook _ ltac:(by left)) as (o & Ho & Hlive). cbn [fst snd] in Ho, Hlive.
  rewrite Ho. cbn [mbind outcome_bind]. rewrite Hlive, !filter_cons. cbn [fst snd].
  cbn [length] in Hb.
  assert (∀ d, Z.abs d + Z.of_nat (length ws) < 2 ^ 63 → count_delta lookup desc ws d = _) as IH'
    by (intros d Hd; apply IH; [intros e He; apply Hlook; by right|exact Hd]).
  destruct live; case_bool_decide as HL; rewrite ?sign_wrap_small by lia; rewrite IH' by lia; do 2 f_equal.
  - rewrite !decide_False by (intros []; done). lia.
  - rewrite decide_True, decide_False by (done || intros []; done). cbn [length]. lia.
  - rewrite decide_False, decide_True by (done || intros []; done). cbn [length]. lia.
  - rewrite !decide_False by (intros []; done). lia.
Qed.

(** ** What a scan returns *)

Section Spec.
Context (xxh3_64 : list byte → Z) (blake3 : list byte → list byte).
Context (zstd_encode : list byte → option (list byte)) (zstd_decompress : list byte → Z → option (list byte)).
Hypothesis xxh3_64_u64 : ∀ bs, is_u64 (xxh3_64 bs).
Hypothesis blake3_length : ∀ bs, length (blake3 bs) = 32%nat.
Hypothesis zstd_law : ∀ raw enc,
  zstd_encode raw = Some enc → zstd_decompress enc (Z.of_nat (length raw)) = Some raw.
Context (zstd_decode_all : list byte → option (list byte)).
Context (arrow_ipc_strings : list byte → Result (list PropValue)).
Context `{PJ : PropertyJson, PI : EdgePointIndex, EP : !EdgePayload} (crc32 : list byte → Z).
Context (env : EnvVar) (limit : Z).
Hypothesis env_limit : edge_decode_limit_bytes env = Ok limit.
Hypothesis limit_fits : limit ≤ u64_max.
Context (get_sst_body : SstDescriptor → Result (list byte)).
Context (cancel_check : nat → nat → Result unit).
Hypothesis not_cancelled : ∀ i idx, cancel_check i idx = Ok tt.
Context (edge_type : string) (edge_def : option EdgeTypeDef).
Hypothesis def_ok : edge_def_ok edge_def.

Abbreviation names := (declared_property_names edge_def).
Abbreviation source := (source xxh3_64 blake3 zstd_encode crc32 names).

Definition is_forward (desc : SstDescriptor) : Prop := in_bucket SkEdgesFwd edge_type desc.

(** The stored body of an SST is one the writer built from the records. *)
Definition holds (records : SstDescriptor → list EdgeRecord) (desc : SstDescriptor) : Prop :=
  within_limits limit (records desc) ∧ ∃ body, get_sst_body desc = Ok body ∧ source body (records desc).
Definition scannable (records : SstDescriptor → list EdgeRecord) (s : Snapshot) : Prop :=
  ∀ desc, desc ∈ ss_ssts s → is_forward desc → holds records desc.

Abbreviation scan := (scan_edge_type xxh3_64 zstd_decompress zstd_decode_all arrow_ipc_strings env get_sst_body cancel_check).
Abbreviation view_of := (record_view edge_type names).

Definition sst_versions (records : SstDescriptor → list EdgeRecord) (ssts : list SstDescriptor) (idxs : list nat)
    : list (version (Result (option EdgeView))) :=
  concat (map (λ i, map (record_version view_of) match ssts !! i with Some desc => records desc | None => [] end) idxs).
Definition versions (records : SstDescriptor → list EdgeRecord) (s : Snapshot) : list (version (Result (option EdgeView))) :=
  entry_versions (memtable_view edge_type) edge_type (edge_mem_entries_for_type s edge_type)
  ++ sst_versions records (ss_ssts s) (scope_descriptors (DescriptorIndex_build (ss_ssts s)) SkEdgesFwd edge_type).

Lemma load_loaded r ns (j : nat) rs :
  (∀ k name, ns !! k = Some name →
     read_declared_property_strings xxh3_64 zstd_decompress zstd_decode_all arrow_ipc_strings r name
     = Ok (column_value (column (j + k) rs))) →
  load_declared_streams xxh3_64 zstd_decompress zstd_decode_all arrow_ipc_strings r ns = Ok (loaded_streams ns j rs).
Proof.
  revert j. induction ns as [|name ns IH]; intros j Hread; [done|]. cbn [load_declared_streams loaded_streams].
  rewrite (Hread 0%nat name eq_refl), Nat.add_0_r. cbn [mbind result_bind]. rewrite (IH (S j)).
  - cbn. by destruct (column_value (column j rs)).
  - intros k name' Hk. rewrite (Hread (S k) name' Hk). by rewrite Nat.add_succ_r.
Qed.

Lemma scan_ssts_versions records ssts idxs m :
  (∀ i, i ∈ idxs → ∃ desc, ssts !! i = Some desc ∧ holds records desc) →
  scan_ssts xxh3_64 zstd_decompress zstd_decode_all arrow_ipc_strings env get_sst_body cancel_check edge_type names ssts idxs m
  = Some (apply_versions (sst_versions records ssts idxs) m).
Proof.
  revert m. induction idxs as [|i idxs IH]; intros m Hidx; [done|].
  destruct (Hidx i) as (desc & Hd & Hlim & body & Hbody & Hsrc); [by left|]. destruct def_ok as [Hv Hnd Hu].
  destruct (source_reads xxh3_64 blake3 zstd_encode zstd_decompress xxh3_64_u64 crc32 blake3_length zstd_law _ Hv Hnd
    env limit env_limit limit_fits body (records desc) zstd_decode_all arrow_ipc_strings Hsrc Hlim)
    as (_ & _ & Hw & r & Hopen & Hscan & _ & Ho & Hdecl).
  cbn [scan_ssts sst_versions map concat]. rewrite apply_app. fold (sst_versions records ssts idxs).
  unfold index. rewrite Hd. cbn [mbind outcome_bind mret outcome_ret]. rewrite Hbody. cbn [lift mbind outcome_bind].
  rewrite Hopen. cbn [lift mbind outcome_bind]. rewrite Hscan. cbn [mbind outcome_bind]. rewrite Ho. cbn [lift mbind outcome_bind].
  rewrite (load_loaded r names 0 (records desc)) by exact Hdecl. cbn [lift mbind outcome_bind].
  rewrite (fold_rows_versions cancel_check not_cancelled _ view_of i [] (records desc)).
  - destruct (apply_versions _ m) as [m'|]; [|done]. cbn. apply IH. intros k Hk. apply Hidx. by right.
  - intros k e Hk. by apply sst_row_record.
Qed.

Lemma forward_index records s i :
  scannable records s → i ∈ scope_descriptors (DescriptorIndex_build (ss_ssts s)) SkEdgesFwd edge_type →
  ∃ desc, ss_ssts s !! i = Some desc ∧ is_forward desc ∧ holds records desc.
Proof.
  intros Hs Hi. rewrite scope_descriptors_perm, elem_of_linear_scan in Hi. destruct Hi as (desc & Hd & Hb).
  exists desc. split_and!; [done|done|]. apply Hs; [by eapply list_elem_of_lookup_2|done].
Qed.

Lemma scan_versions records s :
  scannable records s →
  scan s edge_def edge_type = Some (m ← apply_versions (versions records s) ∅; Ok (into_values (live m))).
Proof.
  intros Hs. unfold scan_edge_type, versions. rewrite fold_memtable_versions, apply_app.
  destruct (apply_versions (entry_versions _ _ _) ∅) as [m|e]; [|done]. cbn [lift mbind outcome_bind result_bind].
  rewrite (scan_ssts_versions records) by (intros i Hi; destruct (forward_index records s i Hs Hi) as (desc & Hd & _ & Hh); by exists desc).
  destruct (apply_versions _ m) as [m'|]; [|done]. cbn. by rewrite live_values.
Qed.

(** The versions of a snapshot, without the order of the index. *)
Lemma elem_of_versions records s c :
  c ∈ versions records s ↔
  c ∈ entry_versions (memtable_view edge_type) edge_type (edge_mem_entries_for_type s edge_type)
  ∨ ∃ desc e, desc ∈ ss_ssts s ∧ is_forward desc ∧ e ∈ records desc ∧ c = record_version view_of e.
Proof.
  unfold versions, sst_versions. rewrite elem_of_app. apply or_iff_compat_l. rewrite elem_of_concat. split.
  - intros (l & Hc & (i & -> & Hi)%list_elem_of_fmap). rewrite scope_descriptors_perm, elem_of_linear_scan in Hi.
    destruct Hi as (desc & Hd & Hb). rewrite Hd in Hc. apply list_elem_of_fmap in Hc as (e & -> & He).
    exists desc, e. split_and!; [by eapply list_elem_of_lookup_2|done|done|done].
  - intros (desc & e & [i Hi]%list_elem_of_lookup & Hb & He & ->). eexists. split; [|apply list_elem_of_fmap_2].
    + instantiate (1 := i). rewrite Hi. by apply list_elem_of_fmap_2.
    + rewrite scope_descriptors_perm, elem_of_linear_scan. by exists desc.
Qed.

(** ** Snapshots with the same edges *)

(** Versions of an edge that decode and carry the same LSN agree. *)
Definition lsns_identify (records : SstDescriptor → list EdgeRecord) (s : Snapshot) : Prop :=
  versions_agree (omap said (versions records s)).

Lemma scan_covered records records' s s' out :
  scannable records s → scannable records' s' → lsns_identify records s →
  (all_said (versions records s) → all_said (versions records' s')
     ∧ covers (omap said (versions records s)) (omap said (versions records' s'))) →
  scan s edge_def edge_type = Some (Ok out) → scan s' edge_def edge_type = Some (Ok out).
Proof.
  intros Hs Hs' Hag Hcov. rewrite (scan_versions records), (scan_versions records') by done.
  intros [= H]. f_equal. apply result_bind_Ok in H as (m & Hm & H). injection H as <-.
  apply apply_Ok in Hm as [Hall ->]. destruct (Hcov Hall) as [Hall' Hc]. rewrite (apply_said _ _ Hall'). cbn. do 2 f_equal.
  symmetry. by eapply covers_live; [done|exact Hc|apply winners_newest..].
Qed.

(** A row of an SST says what the row of another one does if the records agree. *)
Lemma id_pair_inj e e' : record_ok e → record_ok e' → id_pair e = id_pair e' → pair_of e = pair_of e'.
Proof.
  intros (Hk & Hp & _) (Hk' & Hp' & _) [= H1 H2]. unfold pair_of.
  f_equal; apply bytes_cmp_eq; rewrite bytes_cmp_be by congruence; by apply Z.compare_eq_iff.
Qed.

Lemma holds_records records desc :
  holds records desc → edge_run (records desc) ∧ Forall record_ok (records desc).
Proof.
  intros [Hlim (body & _ & Hsrc)]. destruct def_ok as [Hv Hnd Hu].
  by destruct (source_reads xxh3_64 blake3 zstd_encode zstd_decompress xxh3_64_u64 crc32 blake3_length zstd_law _ Hv Hnd
    env limit env_limit limit_fits body (records desc) zstd_decode_all arrow_ipc_strings Hsrc Hlim) as (? & ? & _).
Qed.

(** ** The newest version of every edge *)

Definition view_before (a b : EdgeView) : Prop :=
  ev_src a < ev_src b ∨ (ev_src a = ev_src b ∧ ev_dst a < ev_dst b).

Lemma version_pair records s c v : c ∈ versions records s → c.2.2 = Ok (Some v) → (ev_src v, ev_dst v) = c.1.
Proof.
  rewrite elem_of_versions. intros [Hc|(desc & e & _ & _ & _ & ->)].
  - apply list_elem_of_omap in Hc as ([[id|et src dst] e] & _ & Hc); cbn in Hc; [done|]. case_decide as Het; [|done].
    injection Hc as <-. cbn. unfold memtable_view. destruct (entry_op e); [|done].
    intros H. apply result_bind_Ok in H as (ps & _ & H). by injection H as <-.
  - cbn. unfold record_view. destruct (er_tombstone e); [done|]. intros H. apply result_bind_Ok in H as (ps & _ & H).
    by injection H as <-.
Qed.

Lemma sorted_views (l : list (node_pair * EdgeView)) :
  StronglySorted pair_before l → NoDup l.*1 → Forall (λ e, (ev_src e.2, ev_dst e.2) = e.1) l →
  StronglySorted view_before l.*2.
Proof.
  induction 1 as [|e l Hs IH Hall]; cbn; [constructor|]. intros [He Hnd]%NoDup_cons [Hp HF]%Forall_cons.
  constructor; [by apply IH|]. apply Forall_forall. intros v (e' & -> & He')%list_elem_of_fmap.
  rewrite Forall_forall in Hall, HF. specialize (Hall _ He'). specialize (HF _ He'). unfold pair_before in Hall.
  assert (e.1 ≠ e'.1) as Hne by (intros Heq; apply He; rewrite Heq; by apply (list_elem_of_fmap_2 fst)).
  rewrite <- Hp, <- HF in Hall, Hne. cbn in Hall. unfold view_before.
  destruct (decide (ev_dst e.2 = ev_dst e'.2)) as [Heq|]; [|lia]. rewrite Heq in Hne.
  destruct (decide (ev_src e.2 = ev_src e'.2)) as [Heq'|]; [by rewrite Heq' in Hne|lia].
Qed.

(** C9: a scan returns the newest version of every edge. It never panics; it returns
    rows exactly when every visible version of the type, in the memtable, the overlay
    or a forward SST, decodes; and the rows are, strictly ordered by source and
    destination, the views of those versions that are live and the newest of their
    edge. *)
Theorem edge_scan_newest records s :
  scannable records s → lsns_identify records s →
  (∃ result, scan s edge_def edge_type = Some result)
  ∧ ((∃ out, scan s edge_def edge_type = Some (Ok out)) ↔ all_said (versions records s))
  ∧ ∀ out, scan s edge_def edge_type = Some (Ok out) →
      StronglySorted view_before out
      ∧ ∀ v, v ∈ out ↔ ∃ c, c ∈ versions records s ∧ c.2.2 = Ok (Some v)
                           ∧ ∀ d, d ∈ versions records s → d.1 = c.1 → d.2.1 ≤ c.2.1.
Proof.
  intros Hs Hag. rewrite (scan_versions records s Hs). split; [by eexists|].
  set (vs := versions records s) in *. split.
  { split; [|intros Hall; rewrite (apply_said _ _ Hall); by eexists].
    intros [out [= H]]. apply result_bind_Ok in H as (m & Hm & _). by apply apply_Ok in Hm as [? _]. }
  intros out [= H]. apply result_bind_Ok in H as (m & Hm & H). injection H as <-. apply apply_Ok in Hm as [Hall ->].
  pose proof (winners_newest (omap said vs)) as Hnew. set (m := winners _ ∅) in *.
  assert (∀ p v, live m !! p = Some v ↔ ∃ lsn, m !! p = Some (lsn, Some v)) as Hlive.
  { intros p v. unfold live. rewrite lookup_omap_Some. split.
    - intros ([lsn o] & Ho & Hm). cbn in Ho. subst o. by exists lsn.
    - intros [lsn Hm]. by exists (lsn, Some v). }
  assert (∀ p lsn v, m !! p = Some (lsn, v) → (p, (lsn, Ok v)) ∈ vs) as Hin.
  { intros p lsn v Hm. specialize (Hnew p). rewrite Hm in Hnew. destruct Hnew as [Hc _]. by apply elem_of_said in Hc. }
  split.
  - apply sorted_views; [apply (StronglySorted_merge_sort _)|rewrite merge_sort_Permutation; apply NoDup_fst_map_to_list|].
    apply Forall_forall. intros [p v] He. rewrite merge_sort_Permutation in He. apply elem_of_map_to_list, Hlive in He as [lsn Hm].
    by apply (version_pair records s (p, (lsn, Ok (Some v)))); [apply Hin|].
  - intros v. unfold into_values. setoid_rewrite list_elem_of_fmap. split.
    + intros ([p v'] & -> & He). rewrite merge_sort_Permutation in He. apply elem_of_map_to_list, Hlive in He as [lsn Hm].
      exists (p, (lsn, Ok (Some v'))). split_and!; [by apply Hin|done|]. intros d Hd Hp.
      specialize (Hnew p). rewrite Hm in Hnew. destruct Hnew as [_ Hmax].
      unfold all_said in Hall. rewrite Forall_forall in Hall. destruct (Hall _ Hd) as [w Hw].
      apply (Hmax (d.1, (d.2.1, w))); [|done]. apply elem_of_said. destruct d as [? [? ?]]. cbn in *. by subst.
    + intros ([p [lsn r]] & Hc & Hr & Hmax). cbn in Hr. subst r. exists (p, v). split; [done|].
      rewrite merge_sort_Permutation. apply elem_of_map_to_list, Hlive. pose proof (Hnew p) as Hp.
      assert ((p, (lsn, Some v)) ∈ omap said vs) as Hc' by (by apply elem_of_said).
      destruct (m !! p) as [[l w]|] eqn:Hm; [|by destruct (Hp _ Hc')]. destruct Hp as [Hx Hle]. exists l.
      specialize (Hle _ Hc' eq_refl). apply Hin in Hm. specialize (Hmax _ Hm eq_refl). cbn in *.
      pose proof (Hag (p, (l, w)) (p, (lsn, Some v)) Hx Hc' eq_refl ltac:(cbn; lia)) as He. cbn in He. by rewrite He.
Qed.

(** ** Compaction *)

Context `{AI : ArrowIpc}.

(** What is visible outside the SSTs [sources]. *)
Definition outside (records : SstDescriptor → list EdgeRecord) (s : Snapshot) (others : list SstDescriptor)
    (c : version (Result (option EdgeView))) : Prop :=
  c ∈ entry_versions (memtable_view edge_type) edge_type (edge_mem_entries_for_type s edge_type)
  ∨ ∃ desc e, desc ∈ others ∧ is_forward desc ∧ e ∈ records desc ∧ c = record_version view_of e.

(** A tombstone may be collected when nothing older of its edge is left outside. *)
Definition gc_safe (records : SstDescriptor → list EdgeRecord) (s : Snapshot) (sources others : list SstDescriptor) : Prop :=
  ∀ desc e c, desc ∈ sources → e ∈ records desc → er_tombstone e = true → outside records s others c →
    c.1 = id_pair e → er_lsn e < c.2.1.

(** A manifest with the merged SST, if there is one, in place of the sources. *)
Definition installed (s s' : Snapshot) (others : list SstDescriptor) (res : option EdgeSstBuild) : Prop :=
  ss_memtable s' = ss_memtable s ∧ ss_overlay s' = ss_overlay s
  ∧ match res with
    | None => ss_ssts s' ≡ₚ others
    | Some build => ∃ desc, ss_ssts s' ≡ₚ desc :: others ∧ is_forward desc
        ∧ get_sst_body desc = Ok (upload_bytes (ebd_body build)) ∧ ∀ d, d ∈ ss_ssts s → sst_id d ≠ sst_id desc
    end.

Definition with_records (records : SstDescriptor → list EdgeRecord) (id : Z) (rs : list EdgeRecord) (desc : SstDescriptor)
    : list EdgeRecord := if sst_id desc =? id then rs else records desc.

Lemma with_records_other records s id rs d :
  (∀ d, d ∈ ss_ssts s → sst_id d ≠ id) → d ∈ ss_ssts s → with_records records id rs d = records d.
Proof. intros Hid Hd. unfold with_records. destruct (Z.eqb_spec (sst_id d) id); [by destruct (Hid d)|done]. Qed.

Lemma versions_split records s sources others c :
  ss_ssts s ≡ₚ sources ++ others → Forall is_forward sources →
  c ∈ versions records s ↔
  outside records s others c ∨ ∃ desc e, desc ∈ sources ∧ e ∈ records desc ∧ c = record_version view_of e.
Proof.
  intros Hp HF. rewrite elem_of_versions. unfold outside. setoid_rewrite Hp. setoid_rewrite elem_of_app.
  rewrite Forall_forall in HF. naive_solver.
Qed.

(** The merged records [out] stand for the records of the sources. *)
Lemma merged_covers records records' s s' sources others gc (out : list EdgeRecord) :
  scannable records s → lsns_identify records s → ss_ssts s ≡ₚ sources ++ others → Forall is_forward sources →
  (gc = true → gc_safe records s sources others) →
  out ⊆+ concat (map records sources) →
  (∀ k, find_edge k out = kept_edge gc (newest_edge k (map records sources))) →
  (∀ c, c ∈ versions records' s' ↔ outside records s others c ∨ ∃ e, e ∈ out ∧ c = record_version view_of e) →
  all_said (versions records s) →
  all_said (versions records' s') ∧ covers (omap said (versions records s)) (omap said (versions records' s')).
Proof.
  intros Hs Hag Hp HF Hgc Hsub Hfind Hvs' Hall.
  pose proof (λ c, versions_split records s sources others c Hp HF) as Hvs.
  assert (∀ e, e ∈ out → ∃ desc, desc ∈ sources ∧ e ∈ records desc) as Hfrom.
  { intros e He. apply (elem_of_submseteq _ _ _ He), elem_of_concat in Hsub as (rs & He' & (desc & -> & Hd)%list_elem_of_fmap).
    by exists desc. }
  assert (∀ c, c ∈ versions records' s' → c ∈ versions records s) as Hincl.
  { intros c. rewrite Hvs, Hvs'. intros [?|(e & He & ->)]; [by left|right]. destruct (Hfrom e He) as (desc & ? & ?).
    by exists desc, e. }
  unfold all_said in *. rewrite Forall_forall in Hall. split; [apply Forall_forall; auto|].
  split; [intros c; rewrite !elem_of_said; apply Hincl|].
  intros c Hc Hmax. pose proof Hc as Hc0. apply elem_of_said, Hvs in Hc as [Hout|(desc & e & Hd & He & Hce)].
  { left. exists c. split_and!; [apply elem_of_said, Hvs'; by left|done|done]. }
  assert (∀ d, d ∈ sources → edge_run (records d) ∧ ∀ e, e ∈ records d → record_ok e) as Hrec.
  { intros d Hd'. assert (holds records d) as [Hrun HR]%holds_records.
    { rewrite Forall_forall in HF. apply Hs; [rewrite Hp; apply elem_of_app; by left|by apply HF]. }
    split; [done|]. by rewrite Forall_forall in HR. }
  injection Hce as Hc1 Hc2 Hc3.
  destruct (newest_max pair_lt pair_of er_lsn pair_lt_irrefl (pair_of e) (map records sources) (records desc) e)
    as (w & Hw & Hle); [|by apply list_elem_of_fmap_2|done|done|].
  { apply Forall_map, Forall_forall. intros d Hd'. by apply Hrec. }
  pose proof (newest_Some _ _ _ _ _ Hw) as (rows & (dw & -> & Hdw)%list_elem_of_fmap & Hwin & Hwp).
  assert (id_pair w = c.1) as Hwc by (rewrite Hc1; unfold id_pair, pair_of in *; by injection Hwp as -> ->).
  assert (record_version view_of w ∈ versions records s) as Hwv by (apply Hvs; right; by exists dw, w).
  destruct (Hall _ Hwv) as [vw Hvw]. cbn in Hvw.
  assert ((id_pair w, (er_lsn w, vw)) ∈ omap said (versions records s)) as Hws.
  { apply elem_of_said. cbn. rewrite <- Hvw. exact Hwv. }
  specialize (Hfind (pair_of e)). rewrite Hw in Hfind. cbn [kept] in Hfind.
  destruct (gc && er_tombstone w) eqn:Hg.
  - apply andb_true_iff in Hg as [-> Ht]. right.
    assert (er_lsn w = c.2.1) as Hlsn.
    { rewrite Hc2. specialize (Hmax _ Hws Hwc). cbn in Hmax. lia. }
    split.
    + rewrite <- (Hag _ _ Hws Hc0 Hwc Hlsn). cbn. unfold record_view in Hvw. rewrite Ht in Hvw. by injection Hvw as <-.
    + intros c' Hc' Hpair. apply elem_of_said, Hvs' in Hc' as [Hout|(x & Hx & Hcx)].
      * pose proof (Hgc eq_refl dw w _ Hdw Hwin Ht Hout ltac:(cbn; congruence)) as Hlt. cbn in Hlt.
        assert (c' ∈ omap said (versions records s)) as Hcs by (apply elem_of_said, Hvs; by left).
        specialize (Hmax _ Hcs Hpair). lia.
      * injection Hcx as Hx1 _ _. apply (find_row_is_None _ _ _ x) in Hfind; [|done]. apply Hfind.
        destruct (Hfrom x Hx) as (dx & Hdx & Hxr). apply id_pair_inj; [by apply (Hrec dx)|by apply (Hrec desc)|congruence].
  - left. exists (id_pair w, (er_lsn w, vw)). split_and!; [|done|cbn; lia]. apply elem_of_said, Hvs'. right.
    apply find_row_Some in Hfind as [Hwo _]. exists w. split; [done|]. unfold record_version. by rewrite Hvw.
Qed.

(** A snapshot whose SSTs are [others] and at most one more shows the outside versions
    and the records of that one. *)
Definition replaced (records records' : SstDescriptor → list EdgeRecord) (s' : Snapshot) (others : list SstDescriptor)
    (out : list EdgeRecord) : Prop :=
  (∀ d, d ∈ others → records' d = records d)
  ∧ ((∃ desc, ss_ssts s' ≡ₚ desc :: others ∧ is_forward desc ∧ records' desc = out)
     ∨ (ss_ssts s' ≡ₚ others ∧ out = [])).

Lemma replaced_versions records records' s s' others out c :
  ss_memtable s' = ss_memtable s → ss_overlay s' = ss_overlay s → replaced records records' s' others out →
  c ∈ versions records' s' ↔ outside records s others c ∨ ∃ e, e ∈ out ∧ c = record_version view_of e.
Proof.
  intros Hm Ho [Hother Hssts]. rewrite elem_of_versions. unfold outside, edge_mem_entries_for_type. rewrite Hm, Ho.
  destruct Hssts as [(desc & Hp & Hf & Hdesc)|[Hp ->]]; setoid_rewrite Hp; split.
  - intros [?|(d & e & [->|Hd]%elem_of_cons & Hfd & He & ->)]; [by left; left|right|left; right].
    + rewrite Hdesc in He. by exists e.
    + rewrite Hother in He by done. by exists d, e.
  - intros [[?|(d & e & Hd & Hfd & He & ->)]|(e & He & ->)]; [by left|right..].
    + exists d, e. rewrite Hother by done. split_and!; [by right|done..].
    + exists desc, e. rewrite Hdesc. split_and!; [by left|done..].
  - intros [?|(d & e & Hd & Hfd & He & ->)]; left; [by left|right]. rewrite Hother in He by done. by exists d, e.
  - intros [[?|(d & e & Hd & Hfd & He & ->)]|(e & He%elem_of_nil & _)]; [by left|right|done].
    exists d, e. by rewrite Hother.
Qed.

Lemma replaced_scannable records records' s s' others out :
  scannable records s → (∀ d, d ∈ others → d ∈ ss_ssts s) → replaced records records' s' others out →
  (∀ d, d ∈ ss_ssts s' → d ∈ others ∨ holds records' d) → scannable records' s'.
Proof.
  intros Hs Hsub [Hother _] Hnew d Hd Hf. destruct (Hnew d Hd) as [Hin|]; [|done].
  unfold holds. rewrite (Hother _ Hin). apply Hs; [by apply Hsub|done].
Qed.

Lemma sources_are records s sources others bodies :
  scannable records s → ss_ssts s ≡ₚ sources ++ others → Forall is_forward sources →
  Forall2 (λ desc body, get_sst_body desc = Ok body) sources bodies →
  within_limits limit (concat (map records sources)) →
  sources_ok xxh3_64 blake3 zstd_encode crc32 edge_def env limit bodies (map records sources).
Proof.
  intros Hs Hp HF Hb Hlim. split; [done|done| |done].
  assert (∀ d, d ∈ sources → holds records d) as Hh.
  { intros d Hd. rewrite Forall_forall in HF. apply Hs; [rewrite Hp; apply elem_of_app; by left|by apply HF]. }
  clear -Hb Hh. induction Hb as [|d body sources bodies Hd Hb IH]; constructor; [|apply IH; intros; apply Hh; by right].
  destruct (Hh d ltac:(by left)) as (_ & body' & Hd' & Hsrc). rewrite Hd in Hd'. by injection Hd' as <-.
Qed.

(** C8: compacting edge SSTs preserves scans. The forward SSTs [sources] of a type are
    merged, tombstones collected only when nothing older of their edge is left outside
    the sources, and the merged SST, if any, takes their place. If a scan of the type
    returned rows before, it returns the same rows after, properties included. *)
Theorem edge_compaction_preserves_scan records s s' sources others bodies gc id max_entry max_sst res out :
  scannable records s → lsns_identify records s →
  ss_ssts s ≡ₚ sources ++ others → Forall is_forward sources →
  Forall2 (λ desc body, get_sst_body desc = Ok body) sources bodies →
  within_limits limit (concat (map records sources)) → length id = 16%nat →
  (gc = true → gc_safe records s sources others) →
  compact_edges xxh3_64 blake3 zstd_encode zstd_decompress crc32 env bodies (String.list_byte_of_string edge_type)
    edge_def Forward gc id max_entry max_sst = Some (Ok res) →
  installed s s' others res →
  scan s edge_def edge_type = Some (Ok out) → scan s' edge_def edge_type = Some (Ok out).
Proof.
  intros Hs Hag Hp HF Hb Hlim Hid Hgc Hmerge (Hm & Ho & Hres).
  pose proof (sources_are _ _ _ _ _ Hs Hp HF Hb Hlim) as Hok.
  destruct (compact_newest xxh3_64 blake3 zstd_encode zstd_decompress xxh3_64_u64 blake3_length zstd_law crc32 _ _ _ _ _
    (String.list_byte_of_string edge_type) Forward gc id max_entry max_sst Hok)
    as (total & rs & _ & Hrun & Hsub & Hrec & Hfind & Heq).
  rewrite Heq in Hmerge. apply outcome_bind_Ok in Hmerge as (w & Hext & Hmerge).
  apply outcome_bind_Ok in Hmerge as (build & Hfin & Hmerge). injection Hmerge as <-.
  assert (∀ d, d ∈ others → d ∈ ss_ssts s) as Hothers by (intros d Hd; rewrite Hp; apply elem_of_app; by right).
  assert (∃ records', replaced records records' s' others rs ∧ scannable records' s') as (records' & Hrep & Hs').
  { destruct (decide (rs = [])) as [->|Hne].
    - exists records. split; [split; [done|by right]|]. apply (replaced_scannable records _ s s' others []); [done|done| |].
      + split; [done|by right].
      + intros d Hd. left. by rewrite <- Hres.
    - destruct Hres as (desc & Hp' & Hf & Hbody & Hfresh). exists (with_records records (sst_id desc) rs).
      assert (with_records records (sst_id desc) rs desc = rs) as Hdesc by (unfold with_records; by rewrite Z.eqb_refl).
      assert (replaced records (with_records records (sst_id desc) rs) s' others rs) as Hrep.
      { split; [|left; by exists desc]. intros d Hd. apply (with_records_other records s); [done|by apply Hothers]. }
      split; [done|]. apply (replaced_scannable records _ s s' others rs); [done..|].
      intros d Hd. rewrite Hp' in Hd. apply elem_of_cons in Hd as [->|?]; [right|by left]. unfold holds. rewrite Hdesc.
      split; [by eapply within_submseteq|]. eexists. split; [exact Hbody|].
      eexists _, id, max_entry, max_sst, build.
      split_and!; [by apply merge_options_ok|apply merge_declared_properties|done|by exists w|done]. }
  apply (scan_covered records records'); [done..|]. eapply merged_covers; [done..|exact Hfind|].
  intros c. by apply replaced_versions.
Qed.

(** ** Flush *)

(** Every edge entry of the type decodes to a map that [serde_json] preserves. *)
Definition payloads_ok (frozen : FrozenMemtable) : Prop :=
  ∀ src dst e bytes ps, fz_inner frozen !! KEdge edge_type src dst = Some e → entry_op e = Upsert bytes →
    edge_write_decode bytes = Some ps → payload_ok ps.

(** A string of JSON is UTF-8. *)
Hypothesis value_string_utf8 : ∀ v s, json_value_to_string v = Some s → utf8_valid s = true.
Hypothesis map_string_utf8 : ∀ m s, json_map_to_string m = Some s → utf8_valid s = true.

Lemma elem_of_entry_versions {V} (view : Z → Z → MemEntry → Result V) (m : gmap MemKey MemEntry) c :
  (∀ t s d e, m !! KEdge t s d = Some e → is_id s ∧ is_id d) →
  c ∈ entry_versions view edge_type (ord_range m (KEdge edge_type uuid_nil uuid_nil) (KEdge edge_type uuid_max uuid_max))
  ↔ ∃ s d e, m !! KEdge edge_type s d = Some e ∧ c = ((s, d), (entry_lsn e, view s d e)).
Proof.
  intros Hid. unfold entry_versions. rewrite list_elem_of_omap. split.
  - intros ([[id|t s d] e] & Hin%elem_of_ord_range & Hc); cbn in Hc; [done|]. case_decide as Ht; [|done]. subst t.
    injection Hc as <-. exists s, d, e. by destruct Hin.
  - intros (s & d & e & He & ->). exists (KEdge edge_type s d, e). split; [|cbn; by rewrite decide_True].
    apply elem_of_ord_range. destruct (Hid _ _ _ _ He) as [Hs Hd]. unfold is_id, uuid_nil, uuid_max in *. cbn.
    split_and!; [done|right..]; split; [done|lia|done|lia].
Qed.

(** The flushed records show exactly the entries of the memtable. *)
Lemma flushed_versions frozen rows c :
  memtable_typed frozen → payloads_ok frozen →
  build_edge_stream_rows (default [] ((bucket_nodes_and_edges frozen).2 !! edge_type)) names = Ok rows →
  (∃ e, e ∈ rows ∧ c = record_version view_of e) ↔
  ∃ s d e, fz_inner frozen !! KEdge edge_type s d = Some e ∧ c = ((s, d), (entry_lsn e, memtable_view edge_type s d e)).
Proof.
  intros Hty Hpay. rewrite bucket_edges.
  assert (∀ row, row ∈ omap (edge_row edge_type) (ord_iter (fz_inner frozen)) ↔
    ∃ e, fz_inner frozen !! KEdge edge_type (ed_src row) (ed_dst row) = Some e ∧ ed_lsn row = entry_lsn e ∧ ed_op row = entry_op e) as Hrow.
  { intros row. rewrite list_elem_of_omap. split.
    - intros ([[id|t s d] e] & Hin%elem_of_ord_iter & Hr); cbn in Hr; [done|]. case_decide as Ht; [|done]. subst t.
      injection Hr as <-. by exists e.
    - intros (e & He & Hl & Ho). exists (KEdge edge_type (ed_src row) (ed_dst row), e). split; [by apply elem_of_ord_iter|].
      cbn. rewrite decide_True by done. destruct row. cbn in *. by subst. }
  intros Hrows. apply stream_rows_each in Hrows.
  assert (∀ row r, row ∈ omap (edge_row edge_type) (ord_iter (fz_inner frozen)) → edge_stream_row names row = Ok r →
    ∃ e, fz_inner frozen !! KEdge edge_type (ed_src row) (ed_dst row) = Some e ∧ record_version view_of r
      = ((ed_src row, ed_dst row), (entry_lsn e, memtable_view edge_type (ed_src row) (ed_dst row) e))) as Hver.
  { intros row r (e & He & Hl & Ho)%Hrow Hr. exists e. split; [done|]. destruct (Hty _ _ _ _ He) as (Hs & Hd & _).
    rewrite (flushed_view edge_type names row r); [|apply def_ok|done|done| |done].
    - rewrite Hl, Ho. by destruct e.
    - intros bytes ps Hop Hdec. rewrite Ho in Hop. by eapply Hpay. }
  split.
  - intros (r & [i Hi]%list_elem_of_lookup & ->). destruct (Forall2_lookup_r _ _ _ _ _ Hrows Hi) as (row & Hrw & Hr).
    apply list_elem_of_lookup_2 in Hrw. destruct (Hver _ _ Hrw Hr) as (e & He & ->). by exists (ed_src row), (ed_dst row), e.
  - intros (s & d & e & He & ->). set (row := {| ed_src := s; ed_dst := d; ed_lsn := entry_lsn e; ed_op := entry_op e |}).
    assert (row ∈ omap (edge_row edge_type) (ord_iter (fz_inner frozen))) as Hin by (apply Hrow; by exists e).
    pose proof Hin as [i Hi]%list_elem_of_lookup. destruct (Forall2_lookup_l _ _ _ _ _ Hrows Hi) as (r & Hr & Heq).
    exists r. split; [by eapply list_elem_of_lookup_2|]. destruct (Hver _ _ Hin Heq) as (e' & He' & ->).
    cbn in He' |- *. rewrite He in He'. by injection He' as <-.
Qed.

(** The snapshot after a flush of [frozen]: its rows have moved to the forward SST. *)
Definition flushed (s s' : Snapshot) (frozen : FrozenMemtable) (desc : SstDescriptor) (forward : EdgeSstBuild) : Prop :=
  sn_inner (ss_memtable s) = fz_inner frozen ∧ ss_memtable s' = MemtableSnapshot_empty ∧ ss_overlay s' = ss_overlay s
  ∧ ss_ssts s' ≡ₚ desc :: ss_ssts s ∧ is_forward desc ∧ (∀ d, d ∈ ss_ssts s → sst_id d ≠ sst_id desc)
  ∧ get_sst_body desc = Ok (upload_bytes (ebd_body forward)).

Lemma flushed_same_versions records s s' frozen desc forward rows c :
  memtable_typed frozen → payloads_ok frozen → flushed s s' frozen desc forward →
  build_edge_stream_rows (default [] ((bucket_nodes_and_edges frozen).2 !! edge_type)) names = Ok rows →
  c ∈ versions (with_records records (sst_id desc) rows) s' ↔ c ∈ versions records s.
Proof.
  intros Hty Hpay (Hm & Hm' & Ho & Hp & Hf & Hfresh & _) Hrows.
  assert (with_records records (sst_id desc) rows desc = rows) as Hdesc by (unfold with_records; by rewrite Z.eqb_refl).
  pose proof (λ d, with_records_other records s (sst_id desc) rows d Hfresh) as Hother.
  pose proof (flushed_versions frozen rows c Hty Hpay Hrows) as Hfl.
  rewrite !elem_of_versions. setoid_rewrite Hp. unfold edge_mem_entries_for_type, MemtableSnapshot_iter_edge_type.
  rewrite Hm, Hm', Ho. unfold entry_versions. rewrite !omap_app, !elem_of_app.
  fold (entry_versions (memtable_view edge_type) edge_type
    (ord_range (fz_inner frozen) (KEdge edge_type uuid_nil uuid_nil) (KEdge edge_type uuid_max uuid_max))).
  rewrite elem_of_entry_versions, <- Hfl by (intros t a b e He; destruct (Hty _ _ _ _ He) as (? & ? & _); done).
  assert (ord_range (sn_inner MemtableSnapshot_empty) (KEdge edge_type uuid_nil uuid_nil) (KEdge edge_type uuid_max uuid_max) = []) as ->.
  { done. }
  split.
  - intros [[Hn%elem_of_nil|?]|(d & e & [->|Hd]%elem_of_cons & Hfd & He & ->)]; [done|by left; right| |].
    + rewrite Hdesc in He. left; left. by exists e.
    + right. rewrite Hother in He by done. by exists d, e.
  - intros [[(e & He & ->)|?]|(d & e & Hd & Hfd & He & ->)]; [right|by left; right|right].
    + exists desc, e. rewrite Hdesc. split_and!; [by left|done..].
    + exists d, e. rewrite Hother by done. split_and!; [by right|done..].
Qed.

Lemma covers_same {W} (cs cs' : list (version (option W))) : (∀ c, c ∈ cs' ↔ c ∈ cs) → covers cs cs'.
Proof. intros Hsame. split; [apply Hsame|]. intros c Hc _. left. exists c. by rewrite Hsame. Qed.

Lemma scan_same records records' s s' out :
  scannable records s → scannable records' s' → lsns_identify records s →
  (∀ c, c ∈ versions records' s' ↔ c ∈ versions records s) →
  scan s edge_def edge_type = Some (Ok out) ↔ scan s' edge_def edge_type = Some (Ok out).
Proof.
  intros Hs Hs' Hag Hsame.
  assert (∀ vs vs' : list (version (Result (option EdgeView))), (∀ c, c ∈ vs' ↔ c ∈ vs) →
    all_said vs → all_said vs' ∧ covers (omap said vs) (omap said vs')) as Hcov.
  { intros vs vs' Hv Hall. unfold all_said in *. rewrite Forall_forall in Hall. split.
    - apply Forall_forall. intros c Hc. by apply Hall, Hv.
    - apply covers_same. intros c. by rewrite !elem_of_said. }
  split; [apply (scan_covered records records')|apply (scan_covered records' records)]; try done; try (by apply Hcov).
  intros c c'. rewrite !elem_of_said, !Hsame, <- !elem_of_said. apply Hag.
Qed.

(** C7: flushing the memtable preserves scans. When the edges of a type are flushed and
    the forward SST is installed in place of the memtable, a scan of the type returns
    the same edges as before, with their properties, which went through the declared
    columns and the overflow object; and it fails after the flush if it did before. *)
Theorem edge_flush_preserves_scan records s s' frozen desc forward inverse forward_id inverse_id max_entry max_sst out :
  scannable records s → lsns_identify records s → memtable_typed frozen → payloads_ok frozen →
  length forward_id = 16%nat →
  (∀ rows, build_edge_stream_rows (default [] ((bucket_nodes_and_edges frozen).2 !! edge_type)) names = Ok rows →
     within_limits limit rows) →
  flush_edge_bucket xxh3_64 blake3 zstd_encode crc32 (String.list_byte_of_string edge_type) edge_def
    (default [] ((bucket_nodes_and_edges frozen).2 !! edge_type)) forward_id inverse_id max_entry max_sst
  = Some (Ok (forward, inverse)) →
  flushed s s' frozen desc forward →
  scan s edge_def edge_type = Some (Ok out) ↔ scan s' edge_def edge_type = Some (Ok out).
Proof.
  intros Hs Hag Hty Hpay Hid Hlim H Hfl. apply outcome_bind_Ok in H as (rows & Hrows%lift_Ok & H).
  apply outcome_bind_Ok in H as (f & Hf & H). apply outcome_bind_Ok in H as (i & _ & H). injection H as -> ->.
  destruct (flush_rows_ok value_string_utf8 map_string_utf8 _ _ _ _ Hty Hrows) as (_ & _ & Hrec).
  apply (scan_same records (with_records records (sst_id desc) rows)); [done| |done|].
  - destruct Hfl as (_ & _ & _ & Hp & Hfd & Hfresh & Hbody). intros d Hd Hfw. rewrite Hp in Hd. unfold holds.
    apply elem_of_cons in Hd as [->|Hd]; [|rewrite (with_records_other records s) by done; by apply Hs].
    assert (with_records records (sst_id desc) rows desc = rows) as -> by (unfold with_records; by rewrite Z.eqb_refl).
    split; [by apply Hlim|]. eexists. split; [exact Hbody|]. unfold build_edge_sst in Hf.
    apply outcome_bind_Ok in Hf as (w & Hext & Hfin). eexists _, forward_id, max_entry, max_sst, forward.
    split_and!; [by apply merge_options_ok|apply merge_declared_properties|done|by exists w|done].
  - intros c. by apply (flushed_same_versions records s s' frozen desc forward rows).
Qed.

(** ** The count *)

Context (edge_tombstone_count : SstDescriptor → option Z).
Context (paged_lookup_partner : SstDescriptor → list byte → list byte → outcome (option EdgePointLookup)).
Abbreviation count := (count_edge_type xxh3_64 env get_sst_body cancel_check edge_tombstone_count paged_lookup_partner).

(** The descriptor's statistics are those of the records, and the paged reader answers
    as the eager one. *)
Record described (records : SstDescriptor → list EdgeRecord) (desc : SstDescriptor) : Prop := {
  de_rows : sst_row_count desc = Z.of_nat (length (records desc));
  de_tombstones : ∀ n, edge_tombstone_count desc = Some n →
    n = Z.of_nat (length (filter (λ e, er_tombstone e = true) (records desc)));
  de_lookup : ∀ key partner, paged_lookup_partner desc key partner = Some (Ok (lookup_edge (records desc) key partner));
}.

(** Edge entries of the memtable and the overlay have 16-byte ids, and no flushed row of
    their edge is newer. *)
Definition memtable_newer (records : SstDescriptor → list EdgeRecord) (s : Snapshot) : Prop :=
  ∀ src dst entry, (KEdge edge_type src dst, entry) ∈ edge_mem_entries_for_type s edge_type →
    is_id src ∧ is_id dst
    ∧ ∀ desc e, desc ∈ ss_ssts s → is_forward desc → e ∈ records desc → id_pair e = (src, dst) → er_lsn e ≤ entry_lsn entry.

Definition record_live (e : EdgeRecord) : version bool := (id_pair e, (er_lsn e, negb (er_tombstone e))).
Definition mem_live (s : Snapshot) : list (version bool) :=
  omap said (entry_versions entry_live edge_type (edge_mem_entries_for_type s edge_type)).
Definition ssts_live (records : SstDescriptor → list EdgeRecord) (ssts : list SstDescriptor) (idxs : list nat)
    : list (version bool) :=
  concat (map (λ i, map record_live match ssts !! i with Some desc => records desc | None => [] end) idxs).

Lemma fold_memtable_live s m :
  fold_memtable entry_live edge_type (edge_mem_entries_for_type s edge_type) m = Ok (winners (mem_live s) m).
Proof.
  rewrite fold_memtable_versions. apply apply_said. apply Forall_forall. intros c ([[id|t a b] e] & _ & Hc)%list_elem_of_omap;
    cbn in Hc; [done|]. case_decide; [|done]. injection Hc as <-. by eexists.
Qed.

Lemma count_ssts_live records ssts idxs m :
  (∀ i, i ∈ idxs → ∃ desc, ssts !! i = Some desc ∧ holds records desc) →
  count_ssts xxh3_64 env get_sst_body cancel_check ssts idxs m = Some (Ok (winners (ssts_live records ssts idxs) m)).
Proof.
  revert m. induction idxs as [|i idxs IH]; intros m Hidx; [done|].
  destruct (Hidx i) as (desc & Hd & Hlim & body & Hbody & Hsrc); [by left|]. destruct def_ok as [Hv Hnd Hu].
  destruct (source_reads xxh3_64 blake3 zstd_encode zstd_decompress xxh3_64_u64 crc32 blake3_length zstd_law _ Hv Hnd
    env limit env_limit limit_fits body (records desc) zstd_decode_all arrow_ipc_strings Hsrc Hlim)
    as (_ & _ & _ & r & Hopen & Hscan & _).
  cbn [count_ssts ssts_live map concat]. rewrite winners_app. fold (ssts_live records ssts idxs).
  unfold index. rewrite Hd. cbn [mbind outcome_bind mret outcome_ret]. rewrite Hbody. cbn [lift mbind outcome_bind].
  rewrite Hopen. cbn [lift mbind outcome_bind]. rewrite Hscan. cbn [mbind outcome_bind].
  rewrite (fold_rows_versions cancel_check not_cancelled row_live (λ e, Ok (negb (er_tombstone e))) i [] (records desc)) by done.
  rewrite apply_said by (apply Forall_forall; intros c (e & -> & _)%list_elem_of_fmap; by eexists).
  assert (∀ rs, omap said (map (record_version (λ e, Ok (negb (er_tombstone e)))) rs) = map record_live rs) as ->
    by (induction rs as [|e rs IHrs]; cbn; by f_equal).
  cbn [lift mbind outcome_bind]. apply IH. intros k Hk. apply Hidx. by right.
Qed.

(** When everything decodes, the versions of a count are those of the scan. *)
Lemma count_versions records s :
  all_said (versions records s) →
  mem_live s ++ ssts_live records (ss_ssts s) (scope_descriptors (DescriptorIndex_build (ss_ssts s)) SkEdgesFwd edge_type)
  = map version_live (omap said (versions records s)).
Proof.
  unfold versions, all_said. rewrite Forall_app, omap_app, map_app. intros [Hm Hs]. f_equal.
  - unfold mem_live. revert Hm. induction (edge_mem_entries_for_type s edge_type) as [|[[id|t a b] e] l IH];
      [done|exact IH|]. unfold entry_versions in *. cbn. case_decide; [|exact IH]. cbn. intros [[v Hv] HF]%Forall_cons.
    cbn in Hv. rewrite Hv. cbn. rewrite IH by done. f_equal. unfold version_live. cbn. do 2 f_equal.
    unfold memtable_view in Hv. destruct (entry_op e); [|by injection Hv as <-].
    apply result_bind_Ok in Hv as (ps & _ & Hv). by injection Hv as <-.
  - unfold sst_versions, ssts_live in *. revert Hs. induction (scope_descriptors _ _ _) as [|i idxs IH]; [done|].
    cbn. rewrite Forall_app, omap_app, map_app. intros [Hi Hs]. rewrite IH by done. f_equal. clear IH Hs Hm.
    induction (match ss_ssts s !! i with Some desc => records desc | None => [] end) as [|e rs IH]; [done|].
    apply Forall_cons in Hi as [[v Hv] Hi]. cbn [record_version fst snd] in Hv.
    assert (said (record_version view_of e) = Some (id_pair e, (er_lsn e, v))) as Hsaid
      by (unfold said, record_version; cbn [fst snd]; by rewrite Hv).
    cbn [map omap list_omap]. rewrite Hsaid. cbn [map]. rewrite IH by done. f_equal.
    unfold version_live, record_live. cbn [fst snd]. do 2 f_equal. unfold record_view in Hv. destruct (er_tombstone e);
      [by injection Hv as <-|]. apply result_bind_Ok in Hv as (ps & _ & Hv). by injection Hv as <-.
Qed.

Section OneSst.
Context (rs : list EdgeRecord).
Hypothesis rs_run : edge_run rs.
Hypothesis rs_ok : Forall record_ok rs.

Definition live_edges : gset node_pair := list_to_set (map id_pair (filter (λ e, er_tombstone e = false) rs)).

Lemma id_pairs_NoDup : NoDup (map id_pair rs).
Proof.
  apply (NoDup_fmap_2_strong id_pair); [|by eapply NoDup_fmap_1, run_NoDup]. rewrite Forall_forall in rs_ok.
  intros e e' He He' Hp. apply id_pair_inj in Hp; [|by apply rs_ok..].
  pose proof (run_find _ _ pair_lt_irrefl _ _ e rs_run He Hp) as H1.
  rewrite (run_find _ _ pair_lt_irrefl _ _ e' rs_run He' eq_refl) in H1. by injection H1.
Qed.

Lemma elem_of_live_edges p : p ∈ live_edges ↔ ∃ e, e ∈ rs ∧ id_pair e = p ∧ er_tombstone e = false.
Proof.
  unfold live_edges. rewrite elem_of_list_to_set, list_elem_of_fmap. setoid_rewrite list_elem_of_filter. naive_solver.
Qed.

Lemma live_edges_map p : p ∈ live_edges ↔ ∃ lsn, (list_to_map (map record_live rs) : latest_map bool) !! p = Some (lsn, true).
Proof.
  rewrite elem_of_live_edges. setoid_rewrite <- elem_of_list_to_map; [|by rewrite <- list_fmap_compose; apply id_pairs_NoDup].
  setoid_rewrite list_elem_of_fmap. unfold record_live. split.
  - intros (e & He & <- & Ht). exists (er_lsn e), e. by rewrite Ht.
  - intros (lsn & e & Heq & He). injection Heq as -> -> Ht. exists e. split_and!; [done|done|]. by destruct (er_tombstone e).
Qed.

Lemma live_edges_size :
  Z.of_nat (size live_edges) = Z.of_nat (length rs) - Z.of_nat (length (filter (λ e, er_tombstone e = true) rs)).
Proof.
  unfold live_edges. rewrite size_list_to_set, length_map.
  - clear. induction rs as [|e l IH]; [done|]. rewrite !filter_cons. destruct (er_tombstone e) eqn:He;
      [rewrite decide_False, decide_True by done|rewrite decide_True, decide_False by done]; cbn [length]; lia.
  - eapply sublist_NoDup; [exact id_pairs_NoDup|]. apply (fmap_sublist id_pair), sublist_filter.
Qed.

Lemma lookup_live src dst :
  is_id src → is_id dst →
  match lookup_edge rs (be_split 16 src) (be_split 16 dst) with Some row => negb (epl_tombstone row) | None => false end
  = bool_decide ((src, dst) ∈ live_edges).
Proof.
  intros Hs Hd. pose proof (point_lookup rs (be_split 16 src) (be_split 16 dst)) as Hpt.
  assert (∀ e, e ∈ rs → id_pair e = (src, dst) ↔ pair_of e = (be_split 16 src, be_split 16 dst)) as Hpair.
  { intros e He. rewrite Forall_forall in rs_ok. destruct (rs_ok _ He) as (Hk & Hp & _). unfold id_pair, pair_of. split.
    - intros [= H1 H2]. f_equal; apply bytes_cmp_eq; (rewrite bytes_cmp_be by (by rewrite length_be_split));
        apply Z.compare_eq_iff; by rewrite be_combine_split_small.
    - intros Heq. pose proof (f_equal fst Heq) as H1. pose proof (f_equal snd Heq) as H2. cbn [fst snd] in H1, H2.
      by rewrite H1, H2, !be_combine_split_small. }
  destruct (find_edge (be_split 16 src, be_split 16 dst) rs) as [e|] eqn:Hf.
  - destruct (lookup_edge rs _ _) as [row|]; [|done]. cbn in Hpt. injection Hpt as _ Ht. rewrite Ht.
    pose proof Hf as [He Hp]%find_row_Some. destruct (er_tombstone e) eqn:Htomb; symmetry.
    + apply bool_decide_eq_false. intros (e' & He' & Hp' & Ht')%elem_of_live_edges. apply Hpair in Hp'; [|done].
      rewrite (run_find _ _ pair_lt_irrefl _ _ e' rs_run He' Hp') in Hf. congruence.
    + apply bool_decide_eq_true, elem_of_live_edges. exists e. split_and!; [done|by apply Hpair|done].
  - destruct (lookup_edge rs _ _) as [row|]; [done|]. symmetry. apply bool_decide_eq_false.
    intros (e & He & Hp & _)%elem_of_live_edges. apply Hpair in Hp; [|done]. by apply (find_row_is_None _ _ _ e) in Hf.
Qed.
End OneSst.

Lemma mem_live_elem s c :
  c ∈ mem_live s → ∃ src dst entry, (KEdge edge_type src dst, entry) ∈ edge_mem_entries_for_type s edge_type
    ∧ c = ((src, dst), (entry_lsn entry, negb (is_tombstone (entry_op entry)))).
Proof.
  unfold mem_live. rewrite elem_of_said. intros ([[id|t a b] e] & Hin & Hc)%list_elem_of_omap; cbn in Hc; [done|].
  case_decide; [|done]. subst t. exists a, b, e. split; [done|]. destruct c as [p [l v]]. cbn in *. by injection Hc as <- <- <-.
Qed.

(** The metadata path of one SST counts what the merge would. *)
Lemma one_sst_count records s desc n :
  scannable records s → memtable_newer records s → desc ∈ ss_ssts s → is_forward desc → described records desc →
  edge_tombstone_count desc = Some n →
  Z.of_nat (length (records desc) + size (winners (mem_live s) ∅)) < 2 ^ 63 →
  (delta ← count_delta paged_lookup_partner desc (merge_sort pair_before (map_to_list (winners (mem_live s) ∅))) 0;
   mret (Z.max (sign_wrap 64 (sign_wrap 64 (Z.max 0 (sst_row_count desc - n)) + delta)) 0))
  = Some (Ok (live_count (winners (map record_live (records desc)) (winners (mem_live s) ∅)))).
Proof.
  intros Hs Hnew Hd Hf [Hrows Htombs Hlook] Hn Hsmall. destruct (holds_records _ _ (Hs _ Hd Hf)) as [Hrun Hok].
  pose proof (winners_newest (mem_live s)) as Hwm. set (wm := winners (mem_live s) ∅) in *.
  assert (∀ p x, wm !! p = Some x → (p, x) ∈ mem_live s) as Hmem.
  { intros p x Hx. specialize (Hwm p). rewrite Hx in Hwm. by destruct Hwm. }
  rewrite winners_older; [|by rewrite <- list_fmap_compose; apply id_pairs_NoDup|].
  2: { intros c x (e & -> & He)%list_elem_of_fmap Hx. cbn [record_live fst snd] in Hx |- *.
       apply Hmem, mem_live_elem in Hx as (a & b & en & Hen & Heq). destruct (Hnew _ _ _ Hen) as (_ & _ & Hle).
       pose proof (f_equal fst Heq) as Hp. pose proof (f_equal snd Heq) as Hx. cbn [fst snd] in Hp, Hx. subst x. by eapply Hle. }
  rewrite (live_union_size wm _ _ (live_edges_map _ Hrun Hok)).
  pose proof (live_edges_size _ Hrun Hok) as Hsize. pose proof (Htombs _ Hn) as ->.
  assert (length (map_to_list wm) = size wm) as Hlen by apply length_map_to_list.
  rewrite (count_delta_sizes _ _ (live_edges (records desc))).
  - cbn [mbind outcome_bind].
    rewrite !(size_keys_where wm) by apply merge_sort_Permutation. rewrite Hrows, <- Hsize.
    set (A := keys_where wm (λ e, e.2.2 = true ∧ e.1 ∉ live_edges (records desc))).
    set (B := keys_where wm (λ e, e.2.2 = false ∧ e.1 ∈ live_edges (records desc))).
    assert (B ⊆ live_edges (records desc)) as HB%subseteq_size by (intros p (x & _ & _ & HpL)%elem_of_keys_where; done).
    assert (A ⊆ dom wm) as HA%subseteq_size by (intros p (x & Hx & _)%elem_of_keys_where; by eapply elem_of_dom_2).
    rewrite size_dom in HA.
    rewrite (sign_wrap_small (Z.max 0 _)), sign_wrap_small by lia. unfold mret, outcome_ret. do 2 f_equal. lia.
  - intros [[a b] x] He. rewrite merge_sort_Permutation in He. apply elem_of_map_to_list, Hmem, mem_live_elem in He
      as (a' & b' & en & Hen & Heq). injection Heq as -> -> ->. destruct (Hnew _ _ _ Hen) as (Ha & Hb & _).
    eexists. split; [apply Hlook|]. by apply lookup_live.
  - rewrite merge_sort_Permutation, Hlen. lia.
Qed.

(** C10: the count of an edge type is the length of its scan. This holds on the merging
    path and on the path that reads only the counts in the descriptor of the one forward
    SST and corrects them by a point lookup per memtable entry. The statistics of the
    descriptor must be those of the SST, no flushed row newer than a memtable entry, and
    the numbers of rows below 2^63. *)
Theorem edge_count_matches_scan records s out :
  scannable records s → memtable_newer records s →
  (∀ desc, desc ∈ ss_ssts s → is_forward desc → described records desc
     ∧ Z.of_nat (length (records desc) + size (winners (mem_live s) ∅)) < 2 ^ 63) →
  scan s edge_def edge_type = Some (Ok out) → count s edge_type = Some (Ok (Z.of_nat (length out))).
Proof.
  intros Hs Hnew Hdesc Hscan. rewrite (scan_versions records s Hs) in Hscan. injection Hscan as Hscan.
  apply result_bind_Ok in Hscan as (m & Hm & Hout). injection Hout as <-. apply apply_Ok in Hm as [Hall ->].
  rewrite <- live_count_values, <- winners_live, <- (count_versions records s Hall), winners_app.
  unfold liveness. rewrite fmap_empty.
  set (idxs := scope_descriptors (DescriptorIndex_build (ss_ssts s)) SkEdgesFwd edge_type) in *.
  assert (∀ i, i ∈ idxs → ∃ desc, ss_ssts s !! i = Some desc ∧ is_forward desc ∧ holds records desc) as Hidx.
  { intros i Hi. by apply forward_index. }
  assert (count_merged xxh3_64 env get_sst_body cancel_check s edge_type
    = Some (Ok (live_count (winners (ssts_live records (ss_ssts s) idxs) (winners (mem_live s) ∅))))) as Hmerged.
  { unfold count_merged. fold idxs. rewrite fold_memtable_live. cbn [lift mbind outcome_bind].
    rewrite (count_ssts_live records) by (intros i Hi; destruct (Hidx i Hi) as (desc & ? & _ & ?); by exists desc). done. }
  unfold count_edge_type. fold idxs. destruct idxs as [|i [|i' more]]; [|..|done].
  - rewrite fold_memtable_live. done.
  - rewrite fold_memtable_live. cbn [lift mbind outcome_bind]. destruct (Hidx i) as (desc & Hd & Hf & Hh); [by left|].
    unfold index. rewrite Hd. cbn [mbind outcome_bind mret outcome_ret].
    destruct (edge_tombstone_count desc) as [n|] eqn:Hn; [|done].
    apply list_elem_of_lookup_2 in Hd as Hin. destruct (Hdesc _ Hin Hf) as [Hde Hsmall].
    pose proof (one_sst_count records s desc n Hs Hnew Hin Hf Hde Hn Hsmall) as Hone.
    cbn [ssts_live map concat]. rewrite Hd, app_nil_r. exact Hone.
Qed.
End Spec.
