(* ===== verification/EdgeExample.v ===== *)
(** Concrete edge SSTs: written and read, merged, flushed from a memtable, and scanned.

    The first: two keys, a tombstone, a declared property and an overflow
    value, written with a stored (uncompressed) codec and a toy hash. The theorems of
    [EdgeSst] apply to it. *)
From S2P Require Import Prelude StorageError Bloom EdgeEncoding EdgeFormat EdgePages EdgeReader EdgeWriter EdgeSafety EdgeSealed EdgeImage EdgeWriterInv EdgeSst KwayMerge EdgeMerge EdgeCompaction Memtable ManifestTypes DescriptorIndex Compaction NodeReads Flush EdgeFlush EdgeScan.

Module EdgeSstExample.
Definition toy_hash (bs : list byte) : Z := fold_left (λ a b, (a * 31 + b2z b + 7) `mod` 2 ^ 64) bs 11.
Definition toy_blake3 (bs : list byte) : list byte := le_split 32 (toy_hash bs).
Definition stored (raw : list byte) : option (list byte) := Some raw.
Definition unstored (enc : list byte) (_ : Z) : option (list byte) := Some enc.

Lemma toy_hash_u64 bs : is_u64 (toy_hash bs).
Proof.
  unfold toy_hash. assert (is_u64 11) as H11 by done. revert H11. generalize 11 as a.
  induction bs as [|b bs IH]; intros a Ha; [done|]. cbn [fold_left]. apply IH.
  apply Z.mod_pos_bound. done.
Qed.
Lemma toy_blake3_length bs : length (toy_blake3 bs) = 32%nat.
Proof. apply length_le_split. Qed.
Lemma stored_law raw enc : stored raw = Some enc → unstored enc (Z.of_nat (length raw)) = Some raw.
Proof. by intros [= <-]. Qed.

Definition str (s : String.string) : list byte := String.list_byte_of_string s.

(** A value is its text, an object holds one value under one name. *)
#[export] Instance toy_json : PropertyJson :=
  {| json_value := list byte;
     json_map_from_str s := Some [(str "note", s)];
     json_value_from_str s := Some s;
     json_map_to_vec m := Some (concat (map snd m)) |}.
(** A side-car that only counts its entries. *)
#[export] Instance toy_point_index : EdgePointIndex :=
  {| point_builder := nat;
     point_upload := nat;
     point_new := 0%nat;
     point_push n _ _ _ := Ok (S n);
     point_finish_upload n := Ok n;
     point_size_bytes := Z.of_nat;
     point_entry_count := Z.of_nat |}.

Definition options : EdgeSstWriterOptions :=
  let o := EdgeSstWriterOptions_new Forward (str "KNOWS") (str "Person") (str "Person") in
  {| eo_direction := eo_direction o; eo_edge_type := eo_edge_type o; eo_src_label := eo_src_label o;
     eo_dst_label := eo_dst_label o; eo_schema_version := 3; eo_skew_threshold := Some 2%nat;
     eo_fence_stride := 2; eo_fence_threshold := 1; eo_bits_per_key := 10; eo_expected_keys := 3;
     eo_compress_property_streams := true; eo_declared_properties := [str "since"] |}.
Definition record (k p lsn : Z) (t : bool) (since overflow : option (list byte)) : EdgeRecord :=
  {| er_key_id := be_split 16 k; er_partner_id := be_split 16 p; er_lsn := lsn; er_tombstone := t;
     er_declared_properties := [since]; er_overflow_json := overflow |}.
Definition records : list EdgeRecord :=
  [record 1 5 10 false (Some (str "2019")) None;
   record 1 6 11 true None (Some (str "{}"));
   record 2 1 12 false None None;
   record 7 2 13 false None None;
   record 7 3 14 false (Some (str "2020")) None;
   record 7 4 15 true None None].
Definition id : list byte := be_split 16 99.

Definition write (rs : list EdgeRecord) : EdgeSstWriter :=
  match EdgeSstWriter_extend toy_hash stored toy_hash (EdgeSstWriter_new options id None None) rs with
  | Some (Ok w) => w
  | _ => EdgeSstWriter_new options id None None
  end.
Definition empty_build : EdgeSstBuild :=
  {| ebd_id := []; ebd_body := {| eu_header := []; eu_files := []; eu_size_bytes := 0 |};
     ebd_stats := {| es_direction := Forward; es_key_count := 0; es_edge_count := 0; es_tombstone_count := 0;
                     es_min_key_id := []; es_max_key_id := []; es_min_lsn := 0; es_max_lsn := 0;
                     es_degree_histogram := DegreeHistogram_empty; es_schema_version_min := 0;
                     es_schema_version_max := 0 |};
     ebd_bloom := None; ebd_point_index := None |}.
Definition build_of (rs : list EdgeRecord) : EdgeSstBuild :=
  match finish_with_point_index toy_hash toy_blake3 stored (write rs) with Some (Ok b) => b | _ => empty_build end.
Definition build : EdgeSstBuild := build_of records.

Lemma records_are_ok : Forall record_ok records.
Proof. unfold record_ok. repeat constructor; vm_compute; congruence. Qed.
Lemma options_hold : options_ok options id.
Proof. split; [done|done|done|by repeat constructor]. Qed.
Lemma was_built : built toy_hash toy_blake3 stored toy_hash options id None None records build.
Proof. exists (write records). split; vm_compute; reflexivity. Qed.

Lemma degrees_fit key :
  Z.of_nat (length (filter (λ e, er_key_id e = key) records)) * 16 ≤ DEFAULT_EDGE_DECODE_MAX_BYTES.
Proof.
  pose proof (length_filter (λ e, er_key_id e = key) records) as Hl.
  change (length records) with 6%nat in Hl. unfold DEFAULT_EDGE_DECODE_MAX_BYTES. lia.
Qed.

Lemma edge_sst_roundtrip_witness :
  ∃ r, EdgeSstReader_open toy_hash (upload_bytes (ebd_body build)) = Ok r
    ∧ EdgeSstReader_scan_all_edges toy_hash EnvNotPresent r = Some (Ok (map projection records))
    ∧ EdgeSstReader_lookup_partner toy_hash r (be_split 16 7) (be_split 16 3)
      = Some (Ok (Some {| epl_lsn := 14; epl_tombstone := false; epl_edge_offset := 4 |}))
    ∧ EdgeSstReader_lookup toy_hash EnvNotPresent r (be_split 16 3) = Some (Ok None).
Proof.
  destruct (edge_sst_roundtrip toy_hash toy_blake3 stored unstored toy_hash_u64 toy_blake3_length stored_law
    toy_hash options id options_hold None None records build EnvNotPresent DEFAULT_EDGE_DECODE_MAX_BYTES
    records_are_ok was_built eq_refl ltac:(by vm_compute) degrees_fit) as (_ & r & Hopen & Hscan & Hkey & Hedge).
  exists r. split_and!; [exact Hopen|exact Hscan| |].
  - rewrite (Hedge (be_split 16 7) (be_split 16 3)). vm_compute. reflexivity.
  - rewrite (Hkey (be_split 16 3)). vm_compute. reflexivity.
Defined.

Lemma edge_sst_properties_witness :
  ∃ r, EdgeSstReader_open toy_hash (upload_bytes (ebd_body build)) = Ok r
    ∧ read_overflow_strings toy_hash unstored stored (λ _, Ok []) r
      = Ok (Some [None; Some (str "{}"); None; None; None; None])
    ∧ read_declared_property_strings toy_hash unstored stored (λ _, Ok []) r (str "since")
      = Ok (Some [Some (str "2019"); None; None; None; Some (str "2020"); None]).
Proof.
  destruct (edge_sst_properties toy_hash toy_blake3 stored unstored toy_hash_u64 toy_blake3_length stored_law
    toy_hash options id options_hold None None records build stored (λ _, Ok [])
    records_are_ok was_built ltac:(by apply NoDup_singleton)
    ltac:(intros Hin; apply list_elem_of_singleton in Hin; discriminate)
    ltac:(by vm_compute)) as (r & Hopen & Hov & Hdecl).
  exists r. split_and!; [exact Hopen|rewrite Hov; vm_compute; reflexivity|].
  rewrite (Hdecl 0%nat (str "since") eq_refl). vm_compute. reflexivity.
Defined.

Lemma edge_sst_statistics_witness :
  es_edge_count (ebd_stats build) = 6 ∧ es_key_count (ebd_stats build) = 3
  ∧ es_tombstone_count (ebd_stats build) = 2
  ∧ eu_size_bytes (ebd_body build) < BLOOM_OMIT_THRESHOLD_BYTES.
Proof.
  destruct (edge_sst_statistics toy_hash toy_blake3 stored unstored toy_hash_u64 stored_law
    toy_hash options id None None records build records_are_ok was_built
    ltac:(done) ltac:(by vm_compute)) as (_ & He & Hk & Ht & _ & _ & Hb).
  split_and!; [rewrite He; reflexivity|rewrite Hk; vm_compute; reflexivity|rewrite Ht; vm_compute; reflexivity|].
  assert (ebd_bloom build = None) as Hn by (vm_compute; reflexivity). rewrite Hn in Hb. exact Hb.
Defined.

Lemma edge_reader_never_panics_witness :
  ∃ r, EdgeSstReader_open toy_hash (upload_bytes (ebd_body build)) = Ok r
    ∧ EdgeSstReader_scan_all_edges toy_hash EnvNotPresent r ≠ None
    ∧ EdgeSstReader_lookup toy_hash EnvNotPresent r (be_split 16 7) ≠ None.
Proof.
  destruct (built_source toy_hash toy_blake3 stored unstored toy_hash_u64 toy_blake3_length stored_law toy_hash options id
    options_hold None None records build records_are_ok was_built) as (bs & r & _ & Hopen & _).
  destruct (edge_reader_never_panics toy_hash EnvNotPresent _ r Hopen) as (Hkey & _ & Hscan).
  exists r. split_and!; [exact Hopen|exact Hscan|apply Hkey].
Defined.
End EdgeSstExample.

(** Two concrete edge SSTs merged with tombstone collection: a newer tombstone hides
    an edge, an older duplicate loses, a new key is added. The theorems of
    [EdgeCompaction] apply to them. *)

Import EdgeSstExample.

Module EdgeCompactionExample.
(** No legacy stream is read. *)
#[export] Instance no_arrow : ArrowIpc :=
  {| ipc_batch := unit; ipc_open _ _ := Ok []; ipc_columns _ := []; ipc_num_rows _ := 0%nat |}.

Definition newer_records : list EdgeRecord :=
  [record 1 5 20 true None None;
   record 2 1 5 false (Some (str "1999")) None;
   record 8 1 30 false (Some (str "2024")) None].
Definition bodies : list (list byte) :=
  [upload_bytes (ebd_body build); upload_bytes (ebd_body (build_of newer_records))].
Definition all : list (list EdgeRecord) := [records; newer_records].
Definition knows : option EdgeTypeDef :=
  Some {| etd_src_label := str "Person"; etd_dst_label := str "Person"; etd_properties := [str "since"] |}.

Lemma newer_built : built toy_hash toy_blake3 stored toy_hash options id None None newer_records (build_of newer_records).
Proof. exists (write newer_records). split; vm_compute; reflexivity. Qed.
Lemma newer_ok : Forall record_ok newer_records.
Proof. unfold record_ok. repeat constructor; vm_compute; congruence. Qed.

Lemma sources_hold :
  sources_ok toy_hash toy_blake3 stored toy_hash knows EnvNotPresent DEFAULT_EDGE_DECODE_MAX_BYTES bodies all.
Proof.
  split.
  - split; [by repeat constructor|apply NoDup_singleton|by repeat constructor].
  - by split.
  - constructor; [|constructor; [|constructor]].
    + exists options, id, None, None, build.
      exact (conj options_hold (conj eq_refl (conj records_are_ok (conj was_built eq_refl)))).
    + exists options, id, None, None, (build_of newer_records).
      exact (conj options_hold (conj eq_refl (conj newer_ok (conj newer_built eq_refl)))).
  - split; [|by vm_compute]. intros key. pose proof (length_filter (λ e, er_key_id e = key) (concat all)) as Hl.
    change (length (concat all)) with 9%nat in Hl. unfold DEFAULT_EDGE_DECODE_MAX_BYTES. lia.
Qed.

Abbreviation merged :=
  (compact_edges toy_hash toy_blake3 stored unstored toy_hash EnvNotPresent bodies (str "KNOWS") knows Forward true id None None).

Definition build_in (m : outcome (option EdgeSstBuild)) : EdgeSstBuild :=
  match m with Some (Ok (Some b)) => b | _ => empty_build end.
Definition merged_build : EdgeSstBuild := build_in merged.
Lemma merged_is : merged = Some (Ok (Some merged_build)).
Proof. vm_compute. reflexivity. Qed.

Lemma edge_merge_rewrites_witness :
  merged ≠ None ∧
  ∃ out, find_edge (be_split 16 1, be_split 16 5) out = None
    ∧ find_edge (be_split 16 2, be_split 16 1) out = Some (record 2 1 12 false None None)
    ∧ find_edge (be_split 16 8, be_split 16 1) out = Some (record 8 1 30 false (Some (str "2024")) None).
Proof.
  destruct (edge_merge_rewrites toy_hash toy_blake3 stored unstored toy_hash_u64 toy_blake3_length stored_law toy_hash
    knows EnvNotPresent DEFAULT_EDGE_DECODE_MAX_BYTES bodies all (str "KNOWS") Forward true id None None sources_hold)
    as (Hdef & total & out & _ & Hfind & _).
  split; [exact Hdef|]. exists out. rewrite !Hfind. split_and!; vm_compute; reflexivity.
Defined.

Lemma edge_compaction_reads_witness :
  ∃ r out, EdgeSstReader_open toy_hash (upload_bytes (ebd_body merged_build)) = Ok r
    ∧ EdgeSstReader_scan_all_edges toy_hash EnvNotPresent r = Some (Ok (map projection out))
    ∧ find_edge (be_split 16 8, be_split 16 1) out = Some (record 8 1 30 false (Some (str "2024")) None).
Proof.
  destruct (edge_compaction_reads toy_hash toy_blake3 stored unstored toy_hash_u64 toy_blake3_length stored_law toy_hash
    knows EnvNotPresent DEFAULT_EDGE_DECODE_MAX_BYTES bodies all (str "KNOWS") Forward true id None None (Some merged_build)
    stored (λ _, Ok []) sources_hold eq_refl merged_is) as (r & out & Hopen & _ & Hfind & Hscan & _).
  exists r, out. split_and!; [exact Hopen|exact Hscan|]. rewrite Hfind. vm_compute. reflexivity.
Defined.
End EdgeCompactionExample.

(** A concrete memtable with two edge types flushed: the theorem of [EdgeFlush] applies
    to one of them. *)

Import EdgeCompactionExample.

Module EdgeFlushExample.
Definition checked_utf8 (s : list byte) : option (list byte) := if utf8_valid s then Some s else None.
(** A payload is one value, stored under a declared and an undeclared name. *)
#[export] Instance toy_payload : EdgePayload :=
  {| edge_write_decode bytes := Some [(str "note", bytes : json_value); (str "since", bytes)];
     json_value_to_string v := checked_utf8 v;
     json_map_to_string m := match m with
                             | [(k, v)] => if bool_decide (k = str "note") then checked_utf8 v else None
                             | _ => None
                             end |}.

Lemma checked_utf8_valid s s' : checked_utf8 s = Some s' → utf8_valid s' = true.
Proof. unfold checked_utf8. destruct (utf8_valid s) eqn:Hu; [|done]. by intros [= <-]. Qed.

Lemma value_strings v s : json_value_to_string v = Some s → utf8_valid s = true.
Proof. apply checked_utf8_valid. Qed.
Lemma map_strings m s : json_map_to_string m = Some s → utf8_valid s = true.
Proof. destruct m as [|[k v] [|]]; [done| |done]. cbn. case_bool_decide; [apply checked_utf8_valid|done]. Qed.

Definition entry (lsn : Z) (op : MemOp) : MemEntry := {| entry_lsn := lsn; entry_op := op |}.
Definition frozen : FrozenMemtable :=
  {| fz_inner := {[ KEdge "KNOWS" 1 9 := entry 24 (Upsert (str "2001"));
                    KEdge "KNOWS" 2 3 := entry 25 Tombstone;
                    KEdge "KNOWS" 1 5 := entry 26 (Upsert (str "2020"));
                    KEdge "LIKES" 1 5 := entry 7 Tombstone;
                    KNode 1 := entry 1 Tombstone ]};
     fz_bytes := 0 |}.

Lemma frozen_typed : memtable_typed frozen.
Proof.
  intros t s d e. unfold frozen. cbn [fz_inner]. intros He.
  repeat (apply lookup_insert_Some in He as [[Hk <-]|[_ He]]; [by simplify_eq|]).
  apply lookup_singleton_Some in He as [Hk <-]. by simplify_eq.
Qed.
Lemma small_id z : 0 ≤ z < 100 → is_id z.
Proof. unfold is_id. lia. Qed.
Lemma knows_ok : edge_def_ok knows.
Proof. split; [by repeat constructor|apply NoDup_singleton|by repeat constructor]. Qed.

Abbreviation rows := (default [] ((bucket_nodes_and_edges frozen).2 !! "KNOWS")).
Abbreviation flush_result :=
  (flush_edge_bucket toy_hash toy_blake3 stored toy_hash (str "KNOWS") knows rows id id None None).
Definition builds_in (m : outcome (EdgeSstBuild * EdgeSstBuild)) : EdgeSstBuild * EdgeSstBuild :=
  match m with Some (Ok b) => b | _ => (empty_build, empty_build) end.
Definition builds : EdgeSstBuild * EdgeSstBuild := builds_in flush_result.
Lemma flushed_is : flush_result = Some (Ok (builds.1, builds.2)).
Proof. vm_compute. reflexivity. Qed.

Lemma edge_flush_reads_witness :
  ∃ rf ri o o', EdgeSstReader_open toy_hash (upload_bytes (ebd_body builds.1)) = Ok rf
    ∧ EdgeSstReader_open toy_hash (upload_bytes (ebd_body builds.2)) = Ok ri
    ∧ EdgeSstReader_lookup_partner toy_hash rf (be_split 16 1) (be_split 16 5) = Some (Ok o)
    ∧ EdgeSstReader_lookup_partner toy_hash ri (be_split 16 5) (be_split 16 1) = Some (Ok o')
    ∧ point_of o = Some (26, false) ∧ point_of o' = Some (26, false).
Proof.
  destruct (edge_flush_reads toy_hash toy_blake3 stored unstored toy_hash_u64 toy_blake3_length stored_law toy_hash
    value_strings map_strings frozen "KNOWS" knows id id None None
    frozen_typed knows_ok eq_refl eq_refl) as [_ Hreads].
  destruct (Hreads _ _ flushed_is) as (rf & ri & Hrf & Hri & Hlook).
  destruct (Hlook 1 5 (small_id 1 ltac:(lia)) (small_id 5 ltac:(lia))) as (o & o' & Ho & Ho' & Hp & Hp').
  exists rf, ri, o, o'. split_and!; [exact Hrf|exact Hri|exact Ho|exact Ho'|..].
  - rewrite Hp. vm_compute. reflexivity.
  - rewrite Hp'. vm_compute. reflexivity.
Defined.
End EdgeFlushExample.

(** A snapshot over the two SSTs and the memtable above, scanned before and after a
    compaction and a flush, and counted. The theorems of [EdgeScan] apply to it. *)

Import EdgeFlushExample.

Module EdgeScanExample.
Definition sst (id rows : Z) : SstDescriptor :=
  {| sst_id := id; sst_kind := SkEdgesFwd; sst_scope := "KNOWS"; sst_level := 0; sst_path := ""; sst_size_bytes := 0;
     sst_row_count := rows; sst_created_at := 0; sst_min_key := 0; sst_max_key := 9; sst_min_lsn := 0; sst_max_lsn := 30;
     sst_bloom := None; sst_unique_property_indices := []; sst_equality_property_indices := [];
     sst_composite_equality_indices := []; sst_label_index := None; sst_node_locator := None; sst_extra := [] |}.
Definition contents (desc : SstDescriptor) : list EdgeRecord := if sst_id desc =? 1 then records else newer_records.
Definition body (desc : SstDescriptor) : Result (list byte) :=
  Ok (upload_bytes (ebd_body (if sst_id desc =? 1 then build else if sst_id desc =? 2 then build_of newer_records
                              else if sst_id desc =? 3 then merged_build else builds.1))).
Definition at_memtable (m : gmap MemKey MemEntry) (ssts : list SstDescriptor) : Snapshot :=
  {| ss_memtable := {| sn_inner := m |}; ss_overlay := None; ss_ssts := ssts |}.
Definition before : Snapshot := at_memtable (fz_inner frozen) [sst 1 6; sst 2 3].
Definition compacted : Snapshot := at_memtable (fz_inner frozen) [sst 3 4].
Definition after_flush : Snapshot := at_memtable ∅ [sst 4 3; sst 1 6; sst 2 3].
Definition one_sst : Snapshot := at_memtable (fz_inner frozen) [sst 1 6].

Abbreviation scan_knows s :=
  (scan_edge_type toy_hash unstored stored (λ _, Ok []) EnvNotPresent body (λ _ _, Ok tt) s knows "KNOWS").
Abbreviation scannable_knows :=
  (scannable toy_hash toy_blake3 stored toy_hash DEFAULT_EDGE_DECODE_MAX_BYTES body "KNOWS" knows contents).

Lemma small_within rs : (length rs < 100)%nat → within_limits DEFAULT_EDGE_DECODE_MAX_BYTES rs.
Proof.
  intros Hl. split; [|unfold MAX_PROPERTY_PAGE_DIRECTORY_BYTES, PROPERTY_PAGE_ENTRY_LEN; lia]. intros key.
  pose proof (length_filter (λ e, er_key_id e = key) rs). unfold DEFAULT_EDGE_DECODE_MAX_BYTES. lia.
Qed.

Lemma holds_contents desc :
  sst_id desc = 1 ∨ sst_id desc = 2 →
  holds toy_hash toy_blake3 stored toy_hash DEFAULT_EDGE_DECODE_MAX_BYTES body knows contents desc.
Proof.
  intros [Hid|Hid]; unfold holds, contents, body; rewrite Hid; cbn [Z.eqb Pos.eqb]; (split; [apply small_within; cbn; lia|]); eexists; (split; [reflexivity|]).
  - exists options, id, None, None, build.
    exact (conj options_hold (conj eq_refl (conj records_are_ok (conj was_built eq_refl)))).
  - exists options, id, None, None, (build_of newer_records).
    exact (conj options_hold (conj eq_refl (conj newer_ok (conj newer_built eq_refl)))).
Qed.

Lemma before_scannable : scannable_knows before.
Proof. intros desc Hin _. apply holds_contents. cbn in Hin. set_solver. Qed.
Lemma one_scannable : scannable_knows one_sst.
Proof. intros desc Hin _. apply holds_contents. cbn in Hin. set_solver. Qed.

(** No edge has two versions with one LSN. *)
Lemma distinct_agree {V} (cs : list (version V)) : NoDup (map (λ c, (c.1, c.2.1)) cs) → versions_agree cs.
Proof.
  intros Hnd c c' [i Hi]%list_elem_of_lookup [j Hj]%list_elem_of_lookup Hp Hl.
  assert (i = j) as <-; [|congruence]. eapply (NoDup_lookup _ _ _ (c.1, c.2.1) Hnd); rewrite list_lookup_fmap.
  - by rewrite Hi.
  - rewrite Hj. cbn. by rewrite Hp, Hl.
Qed.
Lemma before_identified : lsns_identify "KNOWS" knows contents before.
Proof. apply distinct_agree. apply (bool_decide_unpack _). vm_compute. reflexivity. Qed.

Definition entries : list (MemKey * MemEntry) :=
  [(KEdge "KNOWS" 1 5, entry 26 (Upsert (str "2020"))); (KEdge "KNOWS" 1 9, entry 24 (Upsert (str "2001")));
   (KEdge "KNOWS" 2 3, entry 25 Tombstone)].
Lemma entries_are ssts : edge_mem_entries_for_type (at_memtable (fz_inner frozen) ssts) "KNOWS" = entries.
Proof. vm_compute. reflexivity. Qed.

Definition rows_of (m : outcome (list EdgeView)) : list EdgeView := match m with Some (Ok out) => out | _ => [] end.
Definition found : list EdgeView := rows_of (scan_knows before).
Lemma found_is : scan_knows before = Some (Ok found).
Proof. vm_compute. reflexivity. Qed.
Definition edges_of (out : list EdgeView) : list (Z * Z * Z) := map (λ v, (ev_src v, ev_dst v, ev_lsn v)) out.

Lemma edge_scan_newest_witness :
  StronglySorted view_before found
  ∧ edges_of found = [(1, 5, 26); (1, 9, 24); (2, 1, 12); (7, 2, 13); (7, 3, 14); (8, 1, 30)].
Proof.
  destruct (edge_scan_newest toy_hash toy_blake3 stored unstored toy_hash_u64 toy_blake3_length stored_law stored (λ _, Ok [])
    toy_hash EnvNotPresent DEFAULT_EDGE_DECODE_MAX_BYTES eq_refl ltac:(by vm_compute) body (λ _ _, Ok tt) (λ _ _, eq_refl)
    "KNOWS" knows knows_ok contents before before_scannable before_identified) as (_ & _ & Hrows).
  destruct (Hrows _ found_is) as [Hsorted _]. split; [exact Hsorted|]. vm_compute. reflexivity.
Defined.

(** ** Compaction *)

Lemma forward_sst id rows : is_forward "KNOWS" (sst id rows).
Proof. by split. Qed.

Lemma tombstones_old : Forall (λ e, er_tombstone e = true → er_lsn e ≤ 20) (records ++ newer_records).
Proof. by repeat constructor. Qed.
Lemma entries_new k e : (k, e) ∈ entries → 20 < entry_lsn e.
Proof. unfold entries. intros Hin. repeat (apply elem_of_cons in Hin as [[= -> ->]|Hin]; [done|]). by apply elem_of_nil in Hin. Qed.

Lemma collectable : gc_safe "KNOWS" knows contents before [sst 1 6; sst 2 3] [].
Proof.
  intros desc e c _ He Ht Hout _.
  assert (er_lsn e ≤ 20) as Hle.
  { pose proof tombstones_old as HF. rewrite Forall_forall in HF. apply HF; [|done]. apply elem_of_app.
    unfold contents in He. destruct (sst_id desc =? 1); [by left|by right]. }
  destruct Hout as [Hc|(d & _ & Hd & _)]; [|by apply elem_of_nil in Hd]. unfold before in Hc. rewrite entries_are in Hc.
  apply list_elem_of_omap in Hc as ([[|t s d] en] & Hin & Hc); cbn in Hc; [done|]. case_decide; [|done].
  injection Hc as <-. apply entries_new in Hin. cbn. lia.
Qed.

Lemma merged_installed : installed body "KNOWS" before compacted [] (Some merged_build).
Proof.
  split; [done|]. split; [done|]. exists (sst 3 4). split_and!; [done|apply forward_sst|reflexivity|].
  intros d Hd. cbn in Hd |- *. set_solver.
Qed.

Lemma edge_compaction_preserves_scan_witness :
  scan_knows compacted = Some (Ok found) ∧ length found = 6%nat.
Proof.
  split; [|vm_compute; reflexivity].
  apply (edge_compaction_preserves_scan toy_hash toy_blake3 stored unstored toy_hash_u64 toy_blake3_length stored_law stored
    (λ _, Ok []) toy_hash EnvNotPresent DEFAULT_EDGE_DECODE_MAX_BYTES eq_refl ltac:(by vm_compute) body (λ _ _, Ok tt)
    (λ _ _, eq_refl) "KNOWS" knows knows_ok contents before compacted [sst 1 6; sst 2 3] [] bodies true id None None
    (Some merged_build) found before_scannable before_identified).
  - reflexivity.
  - repeat constructor.
  - constructor; [reflexivity|constructor; [reflexivity|constructor]].
  - apply small_within. cbn. lia.
  - reflexivity.
  - intros _. exact collectable.
  - exact merged_is.
  - exact merged_installed.
  - exact found_is.
Defined.

(** ** Flush *)

Lemma payload_is_ok bytes : payload_ok [(str "note", bytes); (str "since", bytes)].
Proof.
  split.
  - repeat constructor.
  - intros name v _ s. cbn. unfold checked_utf8. case_match; [|done]. by intros [= ->].
  - intros ps s _ _ Hs. destruct ps as [|[k v] [|]]; [done| |done]. cbn in Hs |- *. case_bool_decide as Hk; [|done].
    unfold checked_utf8 in Hs. case_match; [|done]. injection Hs as ->. by rewrite Hk.
Qed.
Lemma frozen_payloads : payloads_ok "KNOWS" frozen.
Proof. intros src dst e bytes ps _ _ [= <-]. apply payload_is_ok. Qed.

Lemma rows_within forward_rows :
  build_edge_stream_rows rows (declared_property_names knows) = Ok forward_rows →
  within_limits DEFAULT_EDGE_DECODE_MAX_BYTES forward_rows.
Proof. intros H%stream_rows_each%Forall2_length. apply small_within. rewrite <- H. vm_compute. lia. Qed.

Lemma is_flushed : flushed body "KNOWS" before after_flush frozen (sst 4 3) builds.1.
Proof.
  split_and!; [done|done|done|done|apply forward_sst| |reflexivity]. intros d Hd. cbn in Hd |- *. set_solver.
Qed.

Lemma edge_flush_preserves_scan_witness : scan_knows after_flush = Some (Ok found).
Proof.
  pose proof (edge_flush_preserves_scan toy_hash toy_blake3 stored unstored toy_hash_u64 toy_blake3_length stored_law stored
    (λ _, Ok []) toy_hash EnvNotPresent DEFAULT_EDGE_DECODE_MAX_BYTES eq_refl ltac:(by vm_compute) body (λ _ _, Ok tt)
    (λ _ _, eq_refl) "KNOWS" knows knows_ok value_strings map_strings contents before after_flush frozen (sst 4 3)
    builds.1 builds.2 id id None None found before_scannable before_identified frozen_typed frozen_payloads eq_refl
    rows_within) as Hflush.
  specialize (Hflush flushed_is).
  specialize (Hflush is_flushed). exact (proj1 Hflush found_is).
Defined.

(** ** Count *)

Definition tombstones_of (desc : SstDescriptor) : option Z := Some 2.
Definition paged (desc : SstDescriptor) (key partner : list byte) : outcome (option EdgePointLookup) :=
  Some (Ok (lookup_edge (contents desc) key partner)).
Definition counted : list EdgeView := rows_of (scan_knows one_sst).
Lemma counted_is : scan_knows one_sst = Some (Ok counted).
Proof. vm_compute. reflexivity. Qed.

Lemma memtable_is_newer : memtable_newer "KNOWS" contents one_sst.
Proof.
  intros src dst en Hin. unfold one_sst in Hin. rewrite entries_are in Hin.
  assert (Forall (λ e, er_lsn e ≤ 20) records) as HF by (by repeat constructor). rewrite Forall_forall in HF.
  split_and!; [..|intros desc e Hd _ He _; cbn in Hd; apply list_elem_of_singleton in Hd as ->; apply HF in He;
    apply entries_new in Hin; lia]; unfold entries in Hin;
    repeat (apply elem_of_cons in Hin as [[= -> -> ->]|Hin]; [apply small_id; lia|]); by apply elem_of_nil in Hin.
Qed.
Lemma described_sst desc :
  desc ∈ ss_ssts one_sst → is_forward "KNOWS" desc →
  described tombstones_of paged contents desc
  ∧ Z.of_nat (length (contents desc) + size (winners (mem_live "KNOWS" one_sst) ∅)) < 2 ^ 63.
Proof.
  intros ->%list_elem_of_singleton _. split; [split|].
  - reflexivity.
  - intros n [= <-]. vm_compute. reflexivity.
  - reflexivity.
  - vm_compute. reflexivity.
Qed.

Lemma edge_count_matches_scan_witness :
  count_edge_type toy_hash EnvNotPresent body (λ _ _, Ok tt) tombstones_of paged one_sst "KNOWS" = Some (Ok 5).
Proof.
  change 5 with (Z.of_nat 5). assert (length counted = 5%nat) as <- by (vm_compute; reflexivity).
  apply (edge_count_matches_scan toy_hash toy_blake3 stored unstored toy_hash_u64 toy_blake3_length stored_law stored
    (λ _, Ok []) toy_hash EnvNotPresent DEFAULT_EDGE_DECODE_MAX_BYTES eq_refl ltac:(by vm_compute) body (λ _ _, Ok tt)
    (λ _ _, eq_refl) "KNOWS" knows knows_ok tombstones_of paged contents one_sst counted one_scannable memtable_is_newer
    described_sst counted_is).
Defined.
End EdgeScanExample.
