(* ===== verification/FlushSafety.v ===== *)
(** Flushing under concurrency, and what it does to readers.

    The uploads keep the invariant of the store, since SST keys lie apart from the
    keys of the manifest protocol. The rows of the node SST are the memtable's. *)
From S2P Require Import Prelude StorageError Wal Memtable ManifestTypes DescriptorIndex Paths ManifestProtocol ObjectStore Recovery WriterSession SessionStaging ManifestSafety SessionSafety JanitorSafety KwayMerge Compaction CompactionMerge NodeReads CompactionView Flush.

(** ** The rows of the node SST *)

Definition node_row (ke : MemKey * MemEntry) : option NodeRow :=
  match ke.1 with KNode id => Some (mem_row id ke.2) | KEdge _ _ _ => None end.

Lemma bucket_fold_nodes l acc : (foldl bucket_row acc l).1 = acc.1 ++ omap node_row l.
Proof.
  revert acc. induction l as [|[[id|t s d] e] l IH]; intros [nodes edges]; simpl; [by rewrite app_nil_r| |];
    rewrite IH; simpl; [by rewrite <- app_assoc|done].
Qed.

Lemma bucket_nodes frozen : (bucket_nodes_and_edges frozen).1 = omap node_row (ord_iter (fz_inner frozen)).
Proof. apply bucket_fold_nodes. Qed.

Lemma node_rows_run l : StronglySorted entry_le l → NoDup l.*1 → node_run (omap node_row l).
Proof.
  induction 1 as [|[k e] l Hs IH Hall]; simpl; [constructor|]. intros [Hk Hnd]%NoDup_cons.
  destruct k as [id|]; simpl; [|by apply IH]. constructor; [by apply IH|].
  apply Forall_forall. intros r ([k' e'] & Hin & Hr)%list_elem_of_omap.
  destruct k' as [id'|]; [|done]. injection Hr as <-. simpl.
  rewrite Forall_forall in Hall. specialize (Hall _ Hin). unfold entry_le in Hall. simpl in Hall.
  assert (id ≠ id'); [|lia]. intros ->. apply Hk. apply list_elem_of_fmap. by exists (KNode id', e').
Qed.

Lemma flushed_run frozen : node_run (bucket_nodes_and_edges frozen).1.
Proof.
  rewrite bucket_nodes. apply node_rows_run; [|apply ord_iter_NoDup_keys].
  apply (StronglySorted_merge_sort _).
Qed.

Lemma flushed_find frozen id :
  find_node id (bucket_nodes_and_edges frozen).1 = mem_row id <$> fz_inner frozen !! KNode id.
Proof.
  pose proof (flushed_run frozen) as Hrun. rewrite bucket_nodes in *.
  destruct (fz_inner frozen !! KNode id) as [e|] eqn:He; simpl.
  - apply (run_find Z.lt nr_id ltac:(lia)); [done| |done]. apply list_elem_of_omap.
    exists (KNode id, e). split; [by apply elem_of_ord_iter|done].
  - apply find_row_None. intros r ([k e] & Hin & Hr)%list_elem_of_omap Hid.
    destruct k as [id'|]; [|done]. injection Hr as <-. simpl in Hid. subst id'.
    apply elem_of_ord_iter in Hin. by rewrite He in Hin.
Qed.

(** ** Uploads *)

Section uploads.
Context `{!KeySpace} `{!JsonCodec Manifest manifest_typed} `{!JsonCodec ManifestPointer pointer_typed}.
Context (md : Mode) (Hmd : with_deletes md = false).
#[local] Abbreviation spec := (wpe md Inv ext).

(** A key of the SST tree. *)
Definition sst_key (p : Path) : Prop := under (namespace_prefix +:+ "/sst") p = true.

Lemma prefix_split a k : String.prefix a k = true → ∃ rest, k = a +:+ rest.
Proof using Type.
  revert k. induction a as [|c a IH]; intros k; [by exists k|]. destruct k as [|c' k]; simpl; [done|].
  destruct (Ascii.ascii_dec c c') as [<-|]; [|done]. intros [rest ->]%IH. exists rest. by rewrite string_app_cons.
Qed.

Lemma sst_key_not_listed p : sst_key p → under pointer_dir p = false.
Proof using Type.
  intros [rest ->]%prefix_split. rewrite !string_app_assoc, ks_pointer_dir. by rewrite under_below.
Qed.
Lemma sst_key_not_current p : sst_key p → p ≠ current_pointer.
Proof using Type. intros Hp ->. unfold sst_key in Hp. by rewrite ks_current, under_below in Hp. Qed.

Lemma overwrite_sst b p w w' :
  sst_key p → Inv w → w_owner w' = w_owner w →
  w_objs w' = w_objs w ∨ w_objs w' = <[p := b]> (w_objs w) → Inv w' ∧ ext w w'.
Proof using Type.
  intros Hp HI Ho Hs.
  assert (Hk : ∀ k, under (namespace_prefix +:+ "/sst") k = false → w_objs w' !! k = w_objs w !! k).
  { intros k Hk. destruct Hs as [->| ->]; [done|]. rewrite lookup_insert_ne; [done|]. intros <-. unfold sst_key in Hp. by rewrite Hk in Hp. }
  assert (He : ext w w').
  { split; [intros n x; rewrite Hk by apply pointer_not_sst|intros n x; rewrite Hk by apply manifest_not_sst
           |intros n x; rewrite Hk by apply wal_not_sst|rewrite Ho]; done. }
  split; [|done]. apply (inv_same_pointers w); [done|done| | |].
  - intros k Hu. apply Hk. destruct (under (namespace_prefix +:+ "/sst") k) eqn:E; [|done].
    apply sst_key_not_listed in E. by rewrite Hu in E.
  - intros b' Hb'. rewrite Hk in Hb' by by rewrite ks_current, under_below.
    destruct (inv_advisory w HI b' Hb') as (n & m & Hp' & Hd). exists n, m. split; [by eapply published_ext|done].
  - intros k j Hj. rewrite Ho in Hj. apply (inv_owner w HI) in Hj.
    destruct Hs as [->| ->]; [done|]. destruct (decide (k = p)) as [->|Hne];
      [by rewrite lookup_insert_eq|by rewrite lookup_insert_ne by done].
Qed.

Lemma spec_put_create_payload i p b w : sst_key p → spec i (put_create_payload p b) (λ _ _, True) w.
Proof using Type.
  intros Hp. unfold put_create_payload. apply (wpe_store md Inv ext). intros w1 r w2 He1 Hi1 Hs.
  apply step_create in Hs as [Hcase _].
  assert (Inv w2 ∧ ext w1 w2) as [Hi2 He2].
  { destruct Hcase as [->|[[Hc Ho]|[Hc Ho]]]; [done| |];
      (eapply (create_other i); [by apply sst_key_not_listed|by apply sst_key_not_current|done|done|auto]). }
  split_and!; [done|done|]. apply (wpe_bind md Inv ext), wpe_lift. by intros.
Qed.

Lemma spec_put_multipart i p b w : sst_key p → spec i (put_multipart p b) (λ _ _, True) w.
Proof using Type.
  intros Hp. unfold put_multipart. apply (wpe_store md Inv ext). intros w1 r w2 He1 Hi1 [Ho Hs]%step_overwrite.
  destruct (overwrite_sst b p w1 w2 Hp Hi1 Ho Hs) as [Hi2 He2]. split_and!; [done|done|].
  apply (wpe_bind md Inv ext), wpe_lift. by intros.
Qed.

Lemma verify_uploaded_reads p n : reads_only (verify_uploaded_object p n).
Proof using Type.
  apply reads_only_store; [done|]. intros r. apply reads_only_bind; [by destruct r|]. intros size. by case_match.
Qed.

Lemma spec_put_payload i p b w : sst_key p → spec i (put_payload p b) (λ _ _, True) w.
Proof using Type. intros Hp. unfold put_payload. case_match; [by apply spec_put_create_payload|by apply spec_put_multipart]. Qed.

Lemma spec_put_sidecar i p b w : sst_key p → spec i (put_sidecar_payload p b) (λ _ _, True) w.
Proof using Type.
  intros Hp. destruct b as [b|n spool]; [by apply spec_put_payload|]. simpl. unfold put_spooled_object.
  apply (wpe_bind md Inv ext), wpe_pure. intros part w1 _ He1 Hi1. case_match; [done|].
  apply (wpe_bind md Inv ext), wpe_pure. intros body w2 _ He2 Hi2. case_match; [done|].
  apply (wpe_bind md Inv ext). eapply (wpe_weaken md Inv ext) with (Φ := λ _ _, True).
  - intros [] w3 _ _ _. apply (wpe_reads md Inv ext), verify_uploaded_reads.
  - case_match; [by apply spec_put_create_payload|by apply spec_put_multipart].
Qed.

Lemma spec_join_all i uploads scheds w :
  (∀ p, p ∈ uploads → ∀ w, spec i p (λ _ _, True) w) → spec i (join_all uploads scheds) (λ _ _, True) w.
Proof using Type.
  revert scheds w. induction uploads as [|p uploads IH]; intros scheds w Hall; simpl; [by apply wpe_ret|].
  apply (wpe_bind md Inv ext).
  pose proof (wp_pjoin md Inv ext i p (join_all uploads (tail scheds)) (default [] (head scheds)) _ _ w
    (Hall p ltac:(by left) w) (IH (tail scheds) w ltac:(intros q Hq; apply Hall; by right))) as Hj.
  eapply (wp_weaken md Inv ext); [|exact Hj]. intros [[r rs]|e] w1 He1 Hi1 Hx; [|done].
  apply (wpe_bind md Inv ext), wpe_pure. intros rs' w2 _ _ _. by apply wpe_ret.
Qed.

Lemma spec_await_all i uploads scheds completed w :
  (∀ p, p ∈ uploads → ∀ w, spec i p (λ _ _, True) w) →
  spec i (await_all_object_uploads uploads scheds completed) (λ _ _, True) w.
Proof using Type.
  intros Hall. unfold await_all_object_uploads. apply (wpe_bind md Inv ext).
  eapply (wpe_weaken md Inv ext); [|by apply spec_join_all]. intros rs w1 _ _ _. by apply wpe_pure.
Qed.
End uploads.

(** ** The flush *)

(** Every value a program can return satisfies [P]. *)
Fixpoint returns {A} (p : prog A) (P : A → Prop) : Prop :=
  match p with
  | Ret (Ok a) => P a
  | Ret (Err _) | OutOfFuel => True
  | Call op k => ∀ r, returns (k r) P
  end.

(** The keys an SST uploads to. *)
Definition pending_keys (p : PendingSst) : list Path :=
  pd_body_path p :: option_list (pd_bloom_path p) ++ (pd_index_sidecars p).*1.

(** A search plan adds no node SST and retires none. *)
Definition plan_ok `{!KeySpace} (kept : list SstDescriptor) (plan : SearchFlushPlan) : Prop :=
  Forall sst_key (sp_uploads plan).*1 ∧
  Forall (λ d, sst_kind d ≠ SkNodes) (su_descriptors (sp_manifest plan)) ∧
  Forall (λ d, sst_kind d = SkNodes → (sst_id d ∉ su_retired_descriptor_ids (sp_manifest plan))) kept.

(** What the builders owe the store: keys in the SST tree, edge and search
    descriptors that are not node SSTs, search preparation that only reads. *)
Record builders_ok `{!KeySpace} (b : SstBuilders) : Prop := {
  bk_node rows p : node_pending b rows = Ok p →
    Forall sst_key (pending_keys p) ∧ sst_kind (pd_descriptor p) = SkNodes;
  bk_edge t rows p p' : edge_pending b t rows = Ok (p, p') →
    Forall (λ p, Forall sst_key (pending_keys p) ∧ sst_kind (pd_descriptor p) ≠ SkNodes) [p; p'];
  bk_search_reads base d rows : reads_only (prepare_search_flush b base d rows);
  bk_search base d rows :
    returns (prepare_search_flush b base d rows) (plan_ok (d :: mf_ssts (lm_manifest base)));
}.

Section flushing.
Context `{!KeySpace} `{!JsonCodec Manifest manifest_typed} `{!JsonCodec ManifestPointer pointer_typed}.
Context `{!Bincode WalEntry entry_typed} `{!Bincode MemtableSnapshotFile snapshot_typed}.
Context `{!Bincode MemtableSnapshotBindingV2 binding_typed}.
Context (crc32 xxh3_64 : list byte → Z).
Context (b : SstBuilders) (Hb : builders_ok b).

(** *** The SSTs a flush builds *)

Definition edge_product (p : PendingSst) : Prop :=
  Forall sst_key (pending_keys p) ∧ sst_kind (pd_descriptor p) ≠ SkNodes.

Lemma edge_pendings_ok buckets pendings : edge_pendings b buckets = Ok pendings → Forall edge_product pendings.
Proof.
  revert pendings. induction buckets as [|[t rows] buckets IH]; intros pendings; simpl; [by intros [= <-]|].
  destruct (edge_pending b t rows) as [[p p']|] eqn:Hp; simpl; [|done].
  destruct (edge_pendings b buckets) as [rest|]; simpl; [|done]. intros [= <-].
  pose proof (bk_edge _ Hb _ _ _ _ Hp) as Hpp. inversion_clear Hpp as [|?? H1 Hpp'].
  inversion_clear Hpp' as [|?? H2 _]. constructor; [done|]. constructor; [done|]. by apply IH.
Qed.

(** At most one node SST, and only when there are node rows. *)
Lemma build_pending_ok nodes edges pendings :
  build_pending_ssts b nodes edges = Ok pendings →
  ∃ rest, Forall edge_product rest ∧
    ((nodes = [] ∧ pendings = rest) ∨ ∃ p, node_pending b nodes = Ok p ∧ nodes ≠ [] ∧ pendings = p :: rest).
Proof.
  unfold build_pending_ssts. destruct nodes as [|r nodes]; simpl.
  - destruct (edge_pendings b _) as [rest|] eqn:He; simpl; [|done]. intros [= <-].
    exists rest. split; [by eapply edge_pendings_ok|by left].
  - destruct (node_pending b (r :: nodes)) as [p|] eqn:Hp; simpl; [|done].
    destruct (edge_pendings b _) as [rest|] eqn:He; simpl; [|done]. intros [= <-].
    exists rest. split; [by eapply edge_pendings_ok|]. right. by exists p.
Qed.

Lemma build_pending_keys nodes edges pendings :
  build_pending_ssts b nodes edges = Ok pendings → Forall (λ p, Forall sst_key (pending_keys p)) pendings.
Proof.
  intros (rest & Hrest & Hcase)%build_pending_ok.
  assert (Forall (λ p, Forall sst_key (pending_keys p)) rest) by (eapply Forall_impl; [exact Hrest|]; by intros p [? _]).
  destruct Hcase as [[_ ->]|(p & Hp & _ & ->)]; [done|]. constructor; [by eapply bk_node|done].
Qed.

Lemma find_node_pending nodes edges pendings nd :
  build_pending_ssts b nodes edges = Ok pendings →
  List.find (λ p, bool_decide (sst_kind (pd_descriptor p) = SkNodes)) pendings = Some nd →
  node_pending b nodes = Ok nd.
Proof.
  intros (rest & Hrest & Hcase)%build_pending_ok [Hin Hk%bool_decide_eq_true]%List.find_some.
  apply list_elem_of_In in Hin.
  assert (nd ∉ rest) as Hn.
  { intros Hr. rewrite Forall_forall in Hrest. by destruct (Hrest _ Hr) as [_ Hne]. }
  destruct Hcase as [[_ ->]|(p & Hp & _ & ->)]; [done|]. by apply elem_of_cons in Hin as [->|?].
Qed.

(** What a flush makes of its base: the node SST of the rows is added, the labels
    stay, and the WAL segments are let go. *)
Definition flushed (base lm : Manifest) (nodes : list NodeRow) : Prop :=
  mf_label_dict lm = mf_label_dict base ∧ mf_wal_segments lm = [] ∧
  ∃ new, (nodes = [] ∧ new = [] ∨ nodes ≠ [] ∧ ∃ p, node_pending b nodes = Ok p ∧ new = [pd_descriptor p]) ∧
    ∀ d, sst_kind d = SkNodes → (d ∈ mf_ssts lm ↔ d ∈ mf_ssts base ∨ d ∈ new).

Lemma flushed_content base nodes edges pendings plan schema fence now :
  let next := next_version base (f_writer_id fence) now in
  let next := with_contents next (mf_ssts next ++ map pd_descriptor pendings) (mf_wal_segments next) (schema (mf_catalog next)) in
  let next := SearchFlushManifestUpdate_apply (sp_manifest plan) next in
  build_pending_ssts b nodes edges = Ok pendings →
  plan_ok (option_list (pd_descriptor <$> List.find (λ p, bool_decide (sst_kind (pd_descriptor p) = SkNodes)) pendings) ++ mf_ssts base) plan →
  flushed base (with_contents next (mf_ssts next) [] (mf_catalog next)) nodes.
Proof.
  intros next1 next2 next3 Hbuild (_ & Hdesc & Hret). split; [done|]. split; [done|].
  destruct (build_pending_ok _ _ _ Hbuild) as (rest & Hrest & Hcase).
  assert (∀ d, sst_kind d = SkNodes → d ∉ map pd_descriptor rest) as Hno.
  { intros d Hk (p & -> & Hp)%list_elem_of_fmap. rewrite Forall_forall in Hrest. by destruct (Hrest _ Hp) as [_ ?]. }
  rewrite Forall_forall in Hdesc, Hret.
  set (new := match nodes with [] => [] | _ => option_list (pd_descriptor <$> head pendings) end).
  exists new. split.
  { destruct Hcase as [[-> ->]|(p & Hp & Hne & ->)]; [by left|]. right. split; [done|]. exists p. split; [done|].
    subst new. by destruct nodes. }
  intros d Hk. simpl. rewrite elem_of_app, list_elem_of_In, List.filter_In, bool_decide_eq_true, <- list_elem_of_In, elem_of_app.
  assert (d ∈ map pd_descriptor pendings ↔ d ∈ new) as ->.
  { subst new. destruct Hcase as [[-> ->]|(p & Hp & Hne & ->)].
    - rewrite elem_of_nil. split; [|done]. by apply Hno.
    - destruct nodes; [done|]. simpl. rewrite elem_of_cons, list_elem_of_singleton.
      split; [|by left]. intros [?|Hr]; [done|]. by destruct (Hno d Hk). }
  split.
  - intros [[? _]|Hd]; [done|]. by destruct (Hdesc d Hd).
  - intros Hd. left. split; [done|]. apply Hret; [|done]. apply elem_of_app. destruct Hd as [Hd|Hd]; [by right|left].
    subst new. destruct Hcase as [[-> ->]|(p & Hp & Hne & ->)]; [by apply elem_of_nil in Hd|]. destruct nodes; [by apply elem_of_nil in Hd|]. simpl in Hd |- *.
    apply list_elem_of_singleton in Hd as ->. rewrite bool_decide_true by done. by left.
Qed.

(** *** Specifications *)

Context (md : Mode) (Hmd : with_deletes md = false).
#[local] Abbreviation spec := (wpe md Inv ext).

Lemma spec_returns {A} i (p : prog A) (P : A → Prop) w :
  reads_only p → returns p P → spec i p (λ a _, P a) w.
Proof using Type.
  intros Hr%(wpe_reads md Inv ext i p w). revert w Hr.
  induction p as [r| |op k IH]; intros w Hw HP; [intros w1 _ _; by destruct r|done|].
  intros w1 He Hi r w2 Hs. destruct (Hw w1 He Hi r w2 Hs) as (Hi2 & He2 & Hk). split_and!; [done|done|].
  by apply IH.
Qed.

Lemma sst_uploads_safe i p u w : Forall sst_key (pending_keys p) → u ∈ sst_uploads p → spec i u (λ _ _, True) w.
Proof using Type.
  unfold pending_keys, sst_uploads. intros [Hbody [Hbloom Hside]%Forall_app]%Forall_cons.
  intros [->|[Hu|Hu]%elem_of_app]%elem_of_cons; [by apply spec_put_sidecar| |].
  - destruct (pd_bloom_path p) as [path|], (pd_bloom_body p) as [body|]; try by apply elem_of_nil in Hu.
    apply list_elem_of_singleton in Hu as ->. apply spec_put_payload. by inversion Hbloom.
  - apply list_elem_of_fmap in Hu as ([path body] & -> & Hin). apply spec_put_sidecar.
    rewrite Forall_forall in Hside. apply Hside, list_elem_of_fmap. by exists (path, body).
Qed.

Lemma uploads_safe i pendings plan kept u w :
  Forall (λ p, Forall sst_key (pending_keys p)) pendings → plan_ok kept plan →
  u ∈ flat_map sst_uploads pendings ++ map (λ '(path, body), put_sidecar_payload path body) (sp_uploads plan) →
  spec i u (λ _ _, True) w.
Proof using Type.
  intros Hkeys (Hup & _ & _) [Hu|Hu]%elem_of_app.
  - apply list_elem_of_In, List.in_flat_map in Hu as (p & Hp & Hu). apply list_elem_of_In in Hp. apply list_elem_of_In in Hu.
    rewrite Forall_forall in Hkeys. by eapply sst_uploads_safe; [apply Hkeys|].
  - apply list_elem_of_fmap in Hu as ([path body] & -> & Hin). apply spec_put_sidecar.
    rewrite Forall_forall in Hup. apply Hup, list_elem_of_fmap. by exists (path, body).
Qed.

Lemma spec_search i base pendings nodes edges w :
  build_pending_ssts b nodes edges = Ok pendings →
  let found := List.find (λ p, bool_decide (sst_kind (pd_descriptor p) = SkNodes)) pendings in
  spec i (match found with
          | Some nd => prepare_search_flush b base (pd_descriptor nd) nodes
          | None => mret SearchFlushPlan_default
          end) (λ plan _, plan_ok (option_list (pd_descriptor <$> found) ++ mf_ssts (lm_manifest base)) plan) w.
Proof.
  intros Hbuild found. destruct found as [nd|].
  - apply spec_returns; [apply (bk_search_reads _ Hb)|apply (bk_search _ Hb)].
  - apply wpe_ret. intros w' _ _. split_and!; [constructor|constructor|].
    apply Forall_forall. intros d _ _. simpl. set_solver.
Qed.

Lemma spec_flush i fence base frozen schema now scheds completed w :
  loaded w base →
  spec i (flush b fence base frozen schema now scheds completed) (λ o w',
    loaded w' (fo_committed o) ∧
    ((fz_inner frozen = ∅ ∧ fo_committed o = base) ∨
     flushed (lm_manifest base) (lm_manifest (fo_committed o)) (bucket_nodes_and_edges frozen).1)) w.
Proof.
  intros Hl. unfold flush. apply (wpe_bind md Inv ext), wpe_pure. intros [] w1 _ He1 Hi1.
  case_decide as Hempty.
  { apply wpe_ret. intros w2 He2 Hi2. simpl. split; [stable|by left]. }
  destruct (bucket_nodes_and_edges frozen) as [nodes edges].
  apply (wpe_bind md Inv ext), wpe_pure. intros pendings w2 Hbuild He2 Hi2.
  apply (wpe_bind md Inv ext). eapply (wpe_weaken md Inv ext); [|by eapply spec_search].
  intros plan w3 He3 Hi3 Hplan. apply (wpe_bind md Inv ext).
  eapply (wpe_weaken md Inv ext);
    [|apply spec_await_all; intros u Hu w'; by eapply uploads_safe; [eapply build_pending_keys|exact Hplan|]].
  intros [] w4 He4 Hi4 _. assert (loaded w4 base) as Hl4 by (apply (loaded_ext w3), (loaded_ext w2), (loaded_ext w1), (loaded_ext w); done).
  apply (wpe_bind md Inv ext). eapply (wpe_weaken md Inv ext); [|apply spec_commit; [done|done|]].
  2:{ destruct (loaded_fields _ _ Hl4) as (_ & _ & m & Hm & E). apply published_typed in Hm.
      split; [apply wrapping_add64_typed|]. simpl. rewrite E. apply Hm. }
  intros lm w5 He5 Hi5 [(Hlm & Hm & _) _]. apply wpe_ret. intros w6 He6 Hi6. simpl. split; [stable|right].
  rewrite Hm. by eapply flushed_content.
Qed.

(** *** The session *)

(** Retiring search generations touches neither node SSTs nor labels. *)
Definition retire_ok (retire : Manifest → Manifest) : Prop :=
  ∀ m, mf_version (retire m) = mf_version m ∧ mf_epoch (retire m) = mf_epoch m ∧
    mf_label_dict (retire m) = mf_label_dict m ∧
    ∀ d, sst_kind d = SkNodes → (d ∈ mf_ssts (retire m) ↔ d ∈ mf_ssts m).

(** The session after the observed types were written to the schema. *)
Definition resolved (ses ses' : WriterSession) : Prop :=
  ses' = ses ∨ ∃ lm, ses' = with_tables ses lm (ws_memtable ses) ∧
    mf_label_dict (lm_manifest lm) = mf_label_dict (lm_manifest (ws_current ses)) ∧
    ∀ d, sst_kind d = SkNodes → (d ∈ mf_ssts (lm_manifest lm) ↔ d ∈ mf_ssts (lm_manifest (ws_current ses))).

Lemma spec_resolve_pending i ses pending retire now w :
  loaded w (ws_current ses) → retire_ok retire →
  spec i (resolve_pending_types ses pending retire now)
    (λ '(r, ses') w', loaded w' (ws_current ses') ∧ resolved ses ses') w.
Proof using Hmd.
  intros Hl Hret. unfold resolve_pending_types, commit_schema. destruct pending as [schema|].
  2:{ apply wpe_ret. intros w1 He1 Hi1. split; [stable|by left]. }
  set (base := with_contents _ _ _ _). destruct (Hret base) as (Ev & Ee & El & Ed).
  apply (wpe_bind md Inv ext). eapply (wpe_try md Inv ext); [apply spec_commit; [done|exact Hl|]| |].
  - destruct (loaded_fields _ _ Hl) as (_ & _ & m & Hm & E). apply published_typed in Hm.
    split; [rewrite Ev; apply wrapping_add64_typed|]. rewrite Ee. simpl. rewrite E. apply Hm.
  - intros lm w1 He1 Hi1 [(Hlm & Hm & _) _]. apply wpe_ret. intros w2 He2 Hi2. apply wpe_ret. intros w3 He3 Hi3.
    split; [simpl; apply (loaded_ext w2), (loaded_ext w1); done|]. right. exists lm. rewrite Hm. split_and!; [done|exact El|].
    intros d Hk. exact (Ed d Hk).
  - intros e w1 He1 Hi1. apply wpe_ret. intros w2 He2 Hi2. apply wpe_ret. intros w3 He3 Hi3.
    split; [apply (loaded_ext w2), (loaded_ext w1), (loaded_ext w); done|by left].
Qed.

(** What the flush of a session guarantees when it returns. *)
Definition flush_post (ses : WriterSession) (x : Result FlushOutcome * WriterSession) (w : World) : Prop :=
  loaded w (ws_current x.2) ∧
  ∃ c ses1, commit_post crc32 xxh3_64 ses (c, ses1) w ∧
    match c with
    | Err _ => x.2 = ses1 ∧ ∃ e, x.1 = Err e
    | Ok _ => ∃ ses2, resolved ses1 ses2 ∧
        let frozen := (Memtable_freeze (ws_memtable ses2)).2 in
        match x.1 with
        | Ok o => x.2 = with_tables ses2 (fo_committed o) Memtable_new ∧
            ((mt_inner (ws_memtable ses2) = ∅ ∧ fo_committed o = ws_current ses2) ∨
             flushed (lm_manifest (ws_current ses2)) (lm_manifest (fo_committed o)) (bucket_nodes_and_edges frozen).1)
        | Err _ => x.2 = ses2 ∨ x.2 = with_tables ses2 (ws_current ses2) (Memtable_restore Memtable_new frozen)
        end
    end.

Lemma flush_post_ext w w' ses x : ext w w' → flush_post ses x w → flush_post ses x w'.
Proof using Type.
  intros He (Hl & c & ses1 & Hc & Hrest). split; [stable|]. exists c, ses1. split; [by eapply commit_post_ext|done].
Qed.

Lemma spec_session_flush i ses a w :
  loaded w (ws_current ses) → retire_ok (fa_retire a) →
  spec i (WriterSession_flush crc32 xxh3_64 b ses a) (flush_post ses) w.
Proof.
  intros Hl Hret. unfold WriterSession_flush. apply (wpe_bind md Inv ext).
  eapply (wpe_weaken md Inv ext); [|by apply spec_commit_batch].
  intros [c ses1] w1 He1 Hi1 Hc.
  assert (loaded w1 (ws_current ses1)) as Hl1 by (eapply commit_post_loaded; [by eapply loaded_ext|exact Hc]).
  destruct c as [out|e].
  2:{ apply wpe_ret. intros w2 He2 Hi2. split; [stable|]. exists (Err e), ses1.
      split; [by eapply commit_post_ext|by eauto]. }
  apply (wpe_bind md Inv ext). eapply (wpe_weaken md Inv ext); [|by apply spec_resolve_pending].
  intros [[[]|e] ses2] w2 He2 Hi2 [Hl2 Hres]; simpl.
  2:{ apply wpe_ret. intros w3 He3 Hi3. split; [stable|]. exists (Ok out), ses1.
      split; [eapply (commit_post_ext _ _ w1); [by trans w2|done]|]. exists ses2. split; [done|by left]. }
  eapply (wpe_try md Inv ext); [by apply spec_flush| |].
  - intros o w3 He3 Hi3 [Hlo Ho]. apply wpe_ret. intros w4 He4 Hi4. split; [simpl; stable|].
    exists (Ok out), ses1. split; [eapply (commit_post_ext _ _ w1); [by trans w2; [|trans w3]|done]|].
    exists ses2. split; [done|]. split; [done|]. exact Ho.
  - intros e w3 He3 Hi3. apply wpe_ret. intros w4 He4 Hi4. split; [simpl; apply (loaded_ext w3), (loaded_ext w2); done|].
    exists (Ok out), ses1. split; [eapply (commit_post_ext _ _ w1); [by trans w2; [|trans w3]|done]|].
    exists ses2. split; [done|]. by right.
Qed.
End flushing.
