(* ===== verification/ManifestSystem.v ===== *)
(** The storage clients as a system: any number of requests, each running one
    operation of [ManifestStore] or of a writer session, interleaved at every store
    request.

    A request may start at any time; the ones that extend a base manifest, and the
    session commits, take a manifest some finished request returned, and the second
    phase of a split commit takes the pointer its first phase returned. A request that stops
    taking steps models a crashed process. *)
From S2P Require Import Prelude StorageError Wal Memtable ManifestTypes DescriptorIndex Paths ManifestProtocol ObjectStore Recovery WriterSession SessionStaging ManifestSafety SessionSafety Compaction Flush FlushSafety.

Inductive Request :=
| RBootstrap (writer now : Z)
| RLoad
| RPutBody (fence : WriterFence) (base : LoadedManifest) (new : Manifest)
| RCasPointer (fence : WriterFence) (base : LoadedManifest) (new : Manifest) (ptr : ManifestPointer)
| RCommit (fence : WriterFence) (base : LoadedManifest) (new : Manifest)
| RClaim (fuel : nat) (uuids now : nat → Z) (mine : option Epoch)
| ROpen (fuel : nat) (uuids now : nat → Z) (every : Z) (mine : option Epoch)
    (observe : LoadedManifest → Memtable → Result unit)
| RCommitBatch (ses : WriterSession) (sched : list bool) (check check' : Result unit) (now now' : Z)
| RFlush (b : SstBuilders) (ses : WriterSession) (a : FlushArgs).

Inductive Response :=
| PLoaded (lm : LoadedManifest)
| PPointer (ptr : ManifestPointer)
| PClaimed (lm : LoadedManifest) (fence : WriterFence)
| PSession (ses : WriterSession)
| PCommit (res : Result CommitOutcome) (ses : WriterSession)
| PFlush (res : Result FlushOutcome) (ses : WriterSession).

Record System := { sys_world : World; sys_clients : gmap nat (Request * prog Response) }.

Definition initial : System :=
  {| sys_world := {| w_objs := ∅; w_owner := ∅ |}; sys_clients := ∅ |}.

(** Request [i] has returned [r]. *)
Definition finished (S : System) (i : nat) (q : Request) (r : Response) : Prop :=
  sys_clients S !! i = Some (q, Ret (Ok r)).

(** Some request returned the manifest [lm]. *)
Definition held (S : System) (lm : LoadedManifest) : Prop :=
  ∃ i q r, finished S i q r ∧
    match r with
    | PLoaded lm' | PClaimed lm' _ => lm = lm'
    | PSession ses | PCommit _ ses | PFlush _ ses => lm = ws_current ses
    | PPointer _ => False
    end.

Definition may_start `{!KeySpace} (S : System) (q : Request) : Prop :=
  match q with
  | RBootstrap _ _ | RLoad | RClaim _ _ _ _ | ROpen _ _ _ _ _ _ => True
  | RPutBody _ base new | RCommit _ base new => held S base ∧ manifest_typed new
  | RCasPointer fence base new ptr => ∃ i, finished S i (RPutBody fence base new) (PPointer ptr)
  | RCommitBatch ses _ _ _ _ _ => held S (ws_current ses)
  | RFlush b ses a => held S (ws_current ses) ∧ builders_ok b ∧ retire_ok (fa_retire a)
  end.

Section System.
Context `{!KeySpace} `{!JsonCodec Manifest manifest_typed}.
Context `{!JsonCodec ManifestPointer pointer_typed}.
Context `{!Bincode WalEntry entry_typed} `{!Bincode MemtableSnapshotFile snapshot_typed}.
Context `{!Bincode MemtableSnapshotBindingV2 binding_typed}.
Context (crc32 xxh3_64 : list byte → Z).

Definition request_prog (q : Request) : prog Response :=
  match q with
  | RBootstrap writer now => lm ← bootstrap writer now; mret (PLoaded lm)
  | RLoad => lm ← load_current; mret (PLoaded lm)
  | RPutBody fence base new => ptr ← put_body fence base new; mret (PPointer ptr)
  | RCasPointer fence base new ptr => lm ← cas_pointer fence base new ptr; mret (PLoaded lm)
  | RCommit fence base new => lm ← commit fence base new; mret (PLoaded lm)
  | RClaim fuel uuids now mine =>
      '(lm, fence) ← claim_writer_unless_newer crc32 xxh3_64 fuel uuids now mine;
      mret (PClaimed lm fence)
  | ROpen fuel uuids now every mine observe =>
      ses ← open_claiming crc32 xxh3_64 fuel uuids now every mine observe; mret (PSession ses)
  | RCommitBatch ses sched check check' now now' =>
      '(res, ses') ← commit_batch crc32 xxh3_64 ses sched check check' now now';
      mret (PCommit res ses')
  | RFlush b ses a =>
      '(res, ses') ← WriterSession_flush crc32 xxh3_64 b ses a;
      mret (PFlush res ses')
  end.

Inductive sys_step (md : Mode) : System → System → Prop :=
| sys_start S i q :
    sys_clients S !! i = None → may_start S q →
    sys_step md S {| sys_world := sys_world S;
                     sys_clients := <[i := (q, request_prog q)]> (sys_clients S) |}
| sys_call S i q op k r w' :
    sys_clients S !! i = Some (q, Call op k) →
    client_step md i (sys_world S) op r w' →
    sys_step md S {| sys_world := w'; sys_clients := <[i := (q, k r)]> (sys_clients S) |}.

Definition reachable (md : Mode) : System → Prop := rtc (sys_step md) initial.

(** What a request guarantees when it returns. *)
Definition request_post (q : Request) (i : nat) (r : Response) (w : World) : Prop :=
  match q, r with
  | RBootstrap _ _, PLoaded lm =>
      loaded w lm ∧ ptr_version (lm_pointer lm) = 0 ∧ w_owner w !! pointer_version 0 = Some i
  | RLoad, PLoaded lm => loaded w lm
  | RPutBody fence base new, PPointer ptr => prepared w fence base new ptr
  | RCasPointer fence base new _, PLoaded lm | RCommit fence base new, PLoaded lm =>
      won w i base new lm ∧ mf_epoch (lm_manifest base) ≤ f_epoch fence
  | RClaim _ _ _ mine, PClaimed lm fence => claimed w i mine lm fence
  | ROpen _ _ _ _ _ _, PSession ses => open_post ses w
  | RCommitBatch ses _ _ _ _ _, PCommit res ses' =>
      loaded w (ws_current ses) ∧ commit_post crc32 xxh3_64 ses (res, ses') w
  | RFlush b ses _, PFlush res ses' => flush_post crc32 xxh3_64 b ses (res, ses') w
  | _, _ => False
  end.

(** The invariant of the system, for a mode without effective DELETEs. *)
Definition good (md : Mode) (S : System) : Prop :=
  Inv (sys_world S) ∧
  ∀ i q p, sys_clients S !! i = Some (q, p) → wpe md Inv ext i p (request_post q i) (sys_world S).

Lemma initial_good md : good md initial.
Proof.
  split; [|by intros i q p Hi].
  split; simpl.
  - intros k [x Hk]. by rewrite lookup_empty in Hk.
  - intros n m (_ & (b & Hb & _) & _). by rewrite lookup_empty in Hb.
  - intros b Hb. by rewrite lookup_empty in Hb.
  - intros k i Hk. by rewrite lookup_empty in Hk.
Qed.

Lemma finished_post md S i q r : good md S → finished S i q r → request_post q i r (sys_world S).
Proof. intros [Hi Hc] Hf. exact (Hc i q _ Hf (sys_world S) (reflexivity _) Hi). Qed.

Lemma held_loaded md S lm : good md S → held S lm → loaded (sys_world S) lm.
Proof.
  intros Hg (i & q & r & Hf & Hr). pose proof (finished_post md S i q r Hg Hf) as Hp.
  destruct q, r; simpl in Hp, Hr; try done; subst lm.
  - by destruct Hp.
  - done.
  - by destruct Hp as [[? _] _].
  - by destruct Hp as [[? _] _].
  - by destruct Hp as (b & [? _] & _).
  - by destruct Hp.
  - destruct Hp as [Hl Hp]. by eapply commit_post_loaded.
  - by destruct Hp.
Qed.

Lemma request_spec md S i q :
  with_deletes md = false → good md S → may_start S q →
  wpe md Inv ext i (request_prog q) (request_post q i) (sys_world S).
Proof.
  intros Hmd Hg Hq. destruct q as [writer now| |f b n|f b n ptr|f b n|fuel uu now mine|fuel uu now ev mine ob|ses sched c c' now now'|b ses a];
    cbn [request_prog]; apply (wpe_bind md Inv ext).
  - eapply (wpe_weaken md Inv ext); [|by apply spec_bootstrap].
    intros lm w1 He1 Hi1 (Hl & Hv & Ho). apply wpe_ret. intros w2 He2 Hi2. simpl.
    split_and!; [stable|done|by apply (ext_owner _ _ He2)].
  - eapply (wpe_weaken md Inv ext); [|by apply spec_load_current].
    intros lm w1 He1 Hi1 (Hl & _). apply wpe_ret. intros w2 He2 Hi2. simpl. stable.
  - destruct Hq as [Hb Ht]. eapply (wpe_weaken md Inv ext);
      [|apply spec_put_body; [done|by eapply held_loaded|done]].
    intros ptr w1 He1 Hi1 Hp. apply wpe_ret. intros w2 He2 Hi2. simpl. stable.
  - destruct Hq as [j Hf]. apply (finished_post md) in Hf; [|done]. simpl in Hf.
    eapply (wpe_weaken md Inv ext); [|by apply spec_cas_pointer].
    intros lm w1 He1 Hi1 Hw. apply wpe_ret. intros w2 He2 Hi2. simpl.
    split; [stable|]. by destruct Hf as (_ & _ & _ & _ & _ & _ & ?).
  - destruct Hq as [Hb Ht]. eapply (wpe_weaken md Inv ext);
      [|apply spec_commit; [done|by eapply held_loaded|done]].
    intros lm w1 He1 Hi1 (Hw & Hle & _). apply wpe_ret. intros w2 He2 Hi2. simpl.
    split; [stable|done].
  - unfold claim_writer_unless_newer.
    eapply (wpe_weaken md Inv ext); [|exact (spec_claim_loop crc32 xxh3_64 md Hmd i fuel uu now 0 mine 0 0 None _)].
    intros [lm f] w1 He1 Hi1 (b & Hw & Hrest). apply wpe_ret. intros w2 He2 Hi2.
    exists b. split; [stable|done].
  - eapply (wpe_weaken md Inv ext); [|exact (spec_open_claiming crc32 xxh3_64 md Hmd i fuel uu now ev mine ob _)].
    intros ses w1 He1 Hi1 (Hl & Hrest). apply wpe_ret. intros w2 He2 Hi2. split; [stable|done].
  - apply (held_loaded md) in Hq; [|done]. eapply (wpe_weaken md Inv ext);
      [|exact (spec_commit_batch crc32 xxh3_64 md Hmd i ses sched c c' now now' _ Hq)].
    intros [res ses'] w1 He1 Hi1 Hp. apply wpe_ret. intros w2 He2 Hi2.
    split; [stable|by eapply commit_post_ext].
  - destruct Hq as (Hh & Hb & Hret). apply (held_loaded md) in Hh; [|done]. eapply (wpe_weaken md Inv ext);
      [|exact (spec_session_flush crc32 xxh3_64 b Hb md Hmd i ses a _ Hh Hret)].
    intros [res ses'] w1 He1 Hi1 Hp. apply wpe_ret. intros w2 He2 Hi2. by eapply flush_post_ext.
Qed.

Lemma sys_step_good md S S' :
  with_deletes md = false → sys_step md S S' → good md S →
  good md S' ∧ ext (sys_world S) (sys_world S').
Proof.
  intros Hmd Hstep Hg. destruct Hstep as [S i q Hnone Hq|S i q op k r w' Hi Hs]; simpl.
  - split; [|done]. split; [by destruct Hg|]. simpl. intros j q' p Hj.
    apply lookup_insert_Some in Hj as [[<- [= <- <-]]|[_ Hj]]; [by apply request_spec|].
    by apply Hg in Hj.
  - destruct Hg as [HI Hc]. destruct (Hc i q _ Hi (sys_world S) (reflexivity _) HI r w' Hs) as (HI' & He & Hk).
    split; [|done]. split; [done|]. simpl. intros j q' p Hj.
    apply lookup_insert_Some in Hj as [[<- [= <- <-]]|[_ Hj]]; [done|].
    eapply (wpe_ext md Inv ext); [done|]. by apply Hc.
Qed.

Lemma steps_good md S S' :
  with_deletes md = false → rtc (sys_step md) S S' → good md S →
  good md S' ∧ ext (sys_world S) (sys_world S').
Proof.
  intros Hmd. induction 1 as [S|S S1 S2 Hstep _ IH]; intros Hg; [done|].
  destruct (sys_step_good md S S1 Hmd Hstep Hg) as [Hg1 He1]. destruct (IH Hg1) as [Hg2 He2].
  split; [done|]. by trans (sys_world S1).
Qed.

Lemma reachable_good md S : with_deletes md = false → reachable md S → good md S.
Proof. intros Hmd Hr. by eapply steps_good, initial_good. Qed.

(** A postcondition of one request, followed through an execution. *)
Lemma steps_track md S S' i q p Φ :
  with_deletes md = false → rtc (sys_step md) S S' → good md S →
  sys_clients S !! i = Some (q, p) → wpe md Inv ext i p Φ (sys_world S) →
  ∃ p', sys_clients S' !! i = Some (q, p') ∧ wpe md Inv ext i p' Φ (sys_world S').
Proof.
  intros Hmd Hsteps. revert p. induction Hsteps as [S|S S1 S2 Hstep _ IH]; intros p Hg Hi Hp; [eauto|].
  destruct (sys_step_good md S S1 Hmd Hstep Hg) as [Hg1 He1].
  assert (∃ p1, sys_clients S1 !! i = Some (q, p1) ∧ wpe md Inv ext i p1 Φ (sys_world S1)) as (p1 & Hi1 & Hp1).
  { destruct Hstep as [S j q' Hnone Hq|S j q' op k r w' Hj Hs]; simpl in *.
    - exists p. split; [|done]. rewrite lookup_insert_ne; [done|]. intros ->. by rewrite Hi in Hnone.
    - destruct (decide (j = i)) as [->|Hne].
      + rewrite Hi in Hj. injection Hj as -> ->. rewrite lookup_insert_eq. eexists. split; [done|].
        destruct Hg as [HI _]. by destruct (Hp (sys_world S) (reflexivity _) HI r w' Hs) as (_ & _ & ?).
      + rewrite lookup_insert_ne by done. exists p. split; [done|]. by eapply (wpe_ext md Inv ext). }
  by apply (IH p1).
Qed.

(** Request [i] returned having published version [n]. *)
Definition publisher (S : System) (i : nat) (n : Z) : Prop :=
  ∃ q r, finished S i q r ∧
    match q, r with
    | RBootstrap _ _, PLoaded lm | RCasPointer _ _ _ _, PLoaded lm | RCommit _ _ _, PLoaded lm
    | RClaim _ _ _ _, PClaimed lm _ => n = ptr_version (lm_pointer lm)
    | _, _ => False
    end.

Lemma won_version w i base new lm :
  won w i base new lm →
  ptr_version (lm_pointer lm) = mf_version new ∧ w_owner w !! pointer_version (ptr_version (lm_pointer lm)) = Some i.
Proof. intros (_ & _ & E & Ho & _). by rewrite E. Qed.

Lemma publisher_owns md S i n :
  good md S → publisher S i n → w_owner (sys_world S) !! pointer_version n = Some i.
Proof.
  intros Hg (q & r & Hf & Hn). pose proof (finished_post md S i q r Hg Hf) as Hp.
  destruct q, r; simpl in Hp, Hn; try done; subst n.
  - destruct Hp as (_ & -> & Ho). done.
  - destruct Hp as [Hw _]. by apply won_version in Hw as [_ ?].
  - destruct Hp as [Hw _]. by apply won_version in Hw as [_ ?].
  - destruct Hp as (b & Hw & _). by apply won_version in Hw as [_ ?].
Qed.

(** ** Properties *)

(** C14: in every reachable state, with any number of concurrent clients, lost or
    repeated requests and stale listings, the pointer directory holds only
    pointers of published versions: each names a durable manifest body of exactly
    its version and epoch, every smaller version is published too, and epochs
    never decrease along the chain. *)
Theorem pointer_chain_safe S :
  reachable faulty S →
  (∀ k, is_Some (w_objs (sys_world S) !! k) → under pointer_dir k = true →
     ∃ n m, k = pointer_version n ∧ published (w_objs (sys_world S)) n m) ∧
  (∀ n m k, published (w_objs (sys_world S)) n m → 0 ≤ k ≤ n →
     ∃ m', published (w_objs (sys_world S)) k m' ∧ mf_epoch m' ≤ mf_epoch m).
Proof.
  intros [HI _]%reachable_good; [|done]. split; [apply (inv_pointers _ HI)|].
  intros n m k. by apply published_below.
Qed.

(** A published version is immutable: no later step of any client changes or
    removes it. *)
Theorem published_is_final S S' n m :
  reachable faulty S → rtc (sys_step faulty) S S' →
  published (w_objs (sys_world S)) n m → published (w_objs (sys_world S')) n m.
Proof.
  intros Hg%reachable_good Hsteps; [|done].
  destruct (steps_good faulty S S' eq_refl Hsteps Hg) as [_ He]. stable.
Qed.


(** C16: epoch fencing: a writer whose commit succeeded held a fence at least as
    high as the epoch of every earlier version. Once a claim with a higher epoch
    is published, no commit of the older writer on top of it can succeed. *)
Theorem fenced_writer_cannot_publish S i q r fence base new lm k m :
  reachable faulty S → finished S i q r → r = PLoaded lm →
  q = RCommit fence base new ∨ (∃ ptr, q = RCasPointer fence base new ptr) →
  published (w_objs (sys_world S)) k m → 0 ≤ k < ptr_version (lm_pointer lm) →
  mf_epoch m ≤ f_epoch fence.
Proof.
  intros Hg%reachable_good Hf -> Hq Hk Hlt; [|done].
  assert (Hpost : won (sys_world S) i base new lm ∧ mf_epoch (lm_manifest base) ≤ f_epoch fence).
  { pose proof (finished_post faulty S i q _ Hg Hf) as Hp. by destruct Hq as [->|(ptr & ->)]. }
  destruct Hpost as [(_ & _ & E & _ & Hb & Hv) Hle]. rewrite E in Hlt. simpl in Hlt.
  destruct (loaded_fields _ _ Hb) as (_ & _ & mb & Hmb & Eb). destruct Hg as [HI _].
  destruct (published_below _ _ _ k HI Hmb) as (m' & Hm' & Hle'); [lia|].
  rewrite (published_unique _ _ _ _ Hk Hm'). lia.
Qed.

(** C17: a successful claim owns a fresh epoch: the version it published carries the
    fence's epoch, and every earlier version has a strictly smaller one. *)
Theorem claim_epoch_fresh S i fuel uuids now mine lm fence k m :
  reachable faulty S → finished S i (RClaim fuel uuids now mine) (PClaimed lm fence) →
  published (w_objs (sys_world S)) k m → 0 ≤ k ≤ ptr_version (lm_pointer lm) →
  (k = ptr_version (lm_pointer lm) → mf_epoch m = f_epoch fence) ∧
  (k < ptr_version (lm_pointer lm) → mf_epoch m < f_epoch fence).
Proof.
  intros Hg%reachable_good Hf Hk Hle; [|done].
  destruct (finished_post faulty S i _ _ Hg Hf) as (base & (Hl & _ & E & _ & Hb & Hv) & Ef & Ee & _).
  destruct Hg as [HI _]. destruct (loaded_fields _ _ Hb) as (_ & _ & mb & Hmb & Eb).
  destruct (loaded_fields _ _ Hl) as (_ & _ & m0 & Hm0 & E0). split.
  - intros ->. rewrite (published_unique _ _ _ _ Hk Hm0). lia.
  - intros Hlt. destruct (published_below _ _ _ k HI Hmb) as (m' & Hm' & Hle').
    + rewrite E in Hlt. simpl in Hlt. lia.
    + rewrite (published_unique _ _ _ _ Hk Hm'). lia.
Qed.


(** A failed commit loses nothing and acknowledges nothing. When [commit_batch]
    returns an error, the memtable, the published view, the manifest, the watermark
    and the whole pending batch are as before; at most the session is poisoned. *)
Theorem failed_commit_keeps_session S i ses sched check check' now now' e ses' :
  reachable faulty S →
  finished S i (RCommitBatch ses sched check check' now now') (PCommit (Err e) ses') →
  ses' = ses ∨ ses' = set_poisoned ses.
Proof.
  intros Hg%reachable_good Hf; [|done]. by destruct (finished_post faulty S i _ _ Hg Hf) as [_ Hk].
Qed.

End System.
