(* ===== verification/FlushView.v ===== *)
(** Flushing does not change what the session reads.

    A flush commits the pending batch, may write observed types to the schema, moves
    the memtable into an SST, and publishes a manifest without WAL segments; each step
    can fail. The rows a lookup can see stay the same throughout. *)
From S2P Require Import Prelude StorageError Wal Memtable ManifestTypes Bloom DescriptorIndex Paths ManifestProtocol ObjectStore Recovery WriterSession SessionStaging ManifestSafety SessionSafety KwayMerge Compaction CompactionMerge NodeReads CompactionView Flush FlushSafety ManifestSystem.

Section reads.
Context `{!KeySpace} `{!JsonCodec Manifest manifest_typed} `{!JsonCodec ManifestPointer pointer_typed}.
Context `{!Bincode WalEntry entry_typed} `{!Bincode MemtableSnapshotFile snapshot_typed}.
Context `{!Bincode MemtableSnapshotBindingV2 binding_typed}.
Context (crc32 xxh3_64 : list byte → Z).
(** The routes of [NodeReads], for every label dictionary. *)
Context {NodeView : Type} (view : LabelDictionary → Z → Z → list byte → string → Result NodeView).
Context (cached_row : LabelDictionary → SstDescriptor → Z → option (Result (option (Z * option NodeView)))).
Context (bloom_filter : SstDescriptor → Result (option BloomFilter)).
Context (read_row : LabelDictionary → SstDescriptor → Z → Result (option (Z * option NodeView))).
Context (rows : SstDescriptor → list NodeRow).

Definition session_lookup (ses : WriterSession) (id : Z) : option (Result (option NodeView)) :=
  lookup_node_by_id (view (overlay_dict ses)) xxh3_64 (cached_row (overlay_dict ses)) bloom_filter
    (read_row (overlay_dict ses)) (overlay_snapshot ses) id.

Definition served_always (d : SstDescriptor) : Prop :=
  ∀ dict, serves (view dict) xxh3_64 (cached_row dict) bloom_filter (read_row dict) rows d.
Definition all_served (ses : WriterSession) : Prop :=
  ∀ d, d ∈ mf_ssts (lm_manifest (ws_current ses)) → sst_kind d = SkNodes → served_always d.
Abbreviation seen ses := (visible rows (overlay_snapshot ses)).

(** A session whose parts agree: the batch, the published view, LSNs below the
    durable watermark, readable SSTs. *)
Record session_ok (ses : WriterSession) : Prop := {
  so_batch : batch_ok ses;
  so_published : ws_published ses = snapshot_view (ws_memtable ses);
  so_durable : map_Forall (λ _ e, entry_lsn e ≤ ws_durable_lsn ses) (mt_inner (ws_memtable ses));
  so_served : all_served ses;
}.
(** The node SST a flush writes holds the rows it was given. *)
Definition writes_rows (b : SstBuilders) : Prop :=
  ∀ nodes p, node_pending b nodes = Ok p → node_run nodes →
    sst_scope (pd_descriptor p) = "" ∧ rows (pd_descriptor p) = nodes ∧ served_always (pd_descriptor p).

(** The same dictionary, the same visible rows. *)
Definition reads_alike (ses ses' : WriterSession) : Prop :=
  overlay_dict ses' = overlay_dict ses ∧ ∀ id c, seen ses' id c ↔ seen ses id c.

#[local] Instance reads_alike_preorder : PreOrder reads_alike.
Proof.
  split; [done|]. intros s1 s2 s3 [E1 H1] [E2 H2]. split; [congruence|]. intros id c. by rewrite H2, H1.
Qed.

Lemma alike_lookup ses ses' id v :
  all_served ses → all_served ses' → reads_alike ses ses' → lsn_unique rows (overlay_snapshot ses) id →
  session_lookup ses id = Some (Ok v) → session_lookup ses' id = Some (Ok v).
Proof.
  intros Hs Hs' [Hd Hc] Hu. unfold session_lookup. rewrite Hd.
  apply lookup_transfer with (rows := rows).
  - intros d Hin Hk. by apply Hs.
  - intros d Hin Hk. by apply Hs'.
  - done.
  - intros c. apply Hc.
  - intros c Hcs _. left. by apply Hc.
Qed.

(** Sessions with the same tables and the same batch. *)
Lemma same_tables_alike ses ses' :
  mt_inner (ws_staged ses') = mt_inner (ws_staged ses) → ws_published ses' = ws_published ses →
  ws_label_dict ses' = ws_label_dict ses →
  mf_label_dict (lm_manifest (ws_current ses')) = mf_label_dict (lm_manifest (ws_current ses)) →
  (∀ d, sst_kind d = SkNodes →
     (d ∈ mf_ssts (lm_manifest (ws_current ses')) ↔ d ∈ mf_ssts (lm_manifest (ws_current ses)))) →
  reads_alike ses ses'.
Proof.
  intros Hst Hpub Hd Hm Hss. unfold reads_alike, overlay_dict, visible, overlay_snapshot, node_mem_entry, snapshot_view, MemtableSnapshot_get.
  rewrite Hst, Hpub, Hd, Hm. split; [done|]. intros id c. simpl.
  split; (intros [?|(d & Hin & Hk & Hcd)]; [by left|right; exists d; split_and!; [by apply Hss|done|done]]).
Qed.

(** *** Committing the batch *)

Lemma staged_nonempty ses : batch_ok ses → seg_records (ws_pending ses) ≠ [] → mt_inner (ws_staged ses) ≠ ∅.
Proof.
  intros Hok Hne He. pose proof (bo_records _ Hok) as Hf. pose proof (bo_staged _ Hok) as Hs.
  destruct (ws_payloads ses) as [|[[k lsn] op] log]; [by inversion Hf; simplify_eq|].
  pose proof (apply_all_new_lookup ((k, lsn, op) :: log) k) as Hk. rewrite <- Hs, He, lookup_empty in Hk.
  simpl in Hk. rewrite decide_True in Hk by done. by destruct (last_for k log).
Qed.

(** A staged entry is newer than the committed one of its key. *)
Lemma staged_newer ses k st c :
  session_ok ses → last_for k (ws_payloads ses) = Some st → mt_inner (ws_memtable ses) !! k = Some c →
  entry_lsn c ≤ entry_lsn st.
Proof.
  intros Hok Hst Hc. apply last_for_In in Hst. pose proof (bo_range _ (so_batch _ Hok)) as Hr.
  rewrite Forall_forall in Hr. specialize (Hr _ Hst). simpl in Hr.
  pose proof (so_durable _ Hok _ _ Hc) as Hd. simpl in Hd. unfold lsn_of in Hr. simpl in Hr. lia.
Qed.

Lemma drained_entry ses seq lm age id :
  session_ok ses → mt_inner (ws_staged ses) ≠ ∅ →
  node_mem_entry (overlay_snapshot (set_commits_since_snapshot (drain_batch (set_pending_seq ses seq) seq lm) age)) id
  = node_mem_entry (overlay_snapshot ses) id.
Proof.
  intros Hok Hne. unfold node_mem_entry, overlay_snapshot. cbn [ss_overlay ss_memtable].
  rewrite decide_True by done. rewrite (decide_False _ _ Hne). rewrite (so_published _ Hok). simpl.
  unfold MemtableSnapshot_get, snapshot_view. simpl.
  change (foldl apply_payload (ws_memtable ses) (ws_payloads ses)) with (apply_all (ws_memtable ses) (ws_payloads ses)).
  rewrite apply_all_lookup, (bo_staged _ (so_batch _ Hok)), apply_all_new_lookup.
  destruct (last_for (KNode id) (ws_payloads ses)) as [st|] eqn:Hst; simpl; [|done].
  destruct (mt_inner (ws_memtable ses) !! KNode id) as [c|] eqn:Hc; [|done].
  pose proof (staged_newer _ _ _ _ Hok Hst Hc). by rewrite (proj2 (Z.leb_le _ _)).
Qed.

Lemma commit_alike ses c ses1 w :
  session_ok ses → commit_post crc32 xxh3_64 ses (c, ses1) w →
  reads_alike ses ses1 ∧ all_served ses1 ∧ ws_published ses1 = snapshot_view (ws_memtable ses1) ∧
  ((∃ o, c = Ok o) → mt_inner (ws_staged ses1) = ∅).
Proof.
  intros Hok Hc. destruct c as [[|seq lsn n v]|e]; simpl in Hc.
  - destruct Hc as [-> Hnil]. split_and!; [done|apply Hok|apply Hok|intros _].
    rewrite (bo_staged _ (so_batch _ Hok)). pose proof (bo_records _ (so_batch _ Hok)) as Hf. rewrite Hnil in Hf.
    apply Forall2_nil_inv_r in Hf as ->. done.
  - destruct Hc as ((_ & _ & _ & _ & Hss & Hld) & _ & _ & _ & Hne & lm & age & E). rewrite E in Hss, Hld.
    simpl in Hss, Hld. pose proof (staged_nonempty _ (so_batch _ Hok) Hne) as Hst. rewrite E. split_and!.
    + split; [unfold overlay_dict; simpl; by rewrite (decide_False _ _ Hst), decide_True|].
      intros id cnd. unfold visible. rewrite drained_entry by done. simpl. by rewrite Hss.
    + intros d Hd. apply (so_served _ Hok). simpl in Hd. by rewrite Hss in Hd.
    + done.
    + done.
  - assert (reads_alike ses ses1 ∧ all_served ses1) as [? ?].
    { destruct Hc as [->| ->]; (split; [|apply Hok]); [done|by apply same_tables_alike]. }
    split_and!; [done|done| |by intros [? ?]]. destruct Hc as [->| ->]; apply (so_published _ Hok).
Qed.

(** *** Moving the memtable *)

Lemma resolved_alike ses ses' :
  ws_published ses = snapshot_view (ws_memtable ses) → all_served ses → resolved ses ses' →
  reads_alike ses ses' ∧ all_served ses' ∧ ws_published ses' = snapshot_view (ws_memtable ses') ∧
  ws_staged ses' = ws_staged ses.
Proof.
  intros Hpub Hs [->|(lm & -> & Hd & Hss)]; [done|]. split_and!; [by apply same_tables_alike| |done|done].
  intros d Hin Hk. apply Hs; [|done]. by apply Hss.
Qed.

Lemma failed_flush_alike ses :
  ws_published ses = snapshot_view (ws_memtable ses) →
  reads_alike ses (with_tables ses (ws_current ses) (Memtable_restore Memtable_new (Memtable_freeze (ws_memtable ses)).2)).
Proof.
  intros Hpub. apply same_tables_alike; [done| |done|done|done]. simpl. rewrite Hpub. unfold snapshot_view. f_equal.
  apply map_eq. intros k. rewrite restore_lookup. simpl. rewrite lookup_empty. by destruct (_ !! k).
Qed.

(** What is seen without a batch. *)
Lemma seen_plain ses id c :
  ws_published ses = snapshot_view (ws_memtable ses) → mt_inner (ws_staged ses) = ∅ →
  seen ses id c ↔ (∃ e, mt_inner (ws_memtable ses) !! KNode id = Some e ∧ c = (mem_row id e, "")) ∨
    ∃ d, d ∈ mf_ssts (lm_manifest (ws_current ses)) ∧ sst_kind d = SkNodes ∧ sst_cand rows id d = Some c.
Proof.
  intros Hpub Hst. unfold visible, node_mem_entry, overlay_snapshot, MemtableSnapshot_get. rewrite Hpub, decide_True by done.
  simpl. by destruct (mt_inner (ws_memtable ses) !! KNode id).
Qed.

Lemma flushed_alike b ses lm :
  builders_ok b → writes_rows b → all_served ses → ws_published ses = snapshot_view (ws_memtable ses) →
  mt_inner (ws_staged ses) = ∅ →
  flushed b (lm_manifest (ws_current ses)) (lm_manifest lm) (bucket_nodes_and_edges (Memtable_freeze (ws_memtable ses)).2).1 →
  reads_alike ses (with_tables ses lm Memtable_new) ∧ all_served (with_tables ses lm Memtable_new).
Proof.
  intros Hb Hw Hs Hpub Hst (Hld & _ & new & Hnew & Hss). set (fz := (Memtable_freeze (ws_memtable ses)).2) in *.
  assert (Hrows : ∀ d, d ∈ new → sst_kind d = SkNodes ∧ rows d = (bucket_nodes_and_edges fz).1 ∧ sst_scope d = "" ∧ served_always d).
  { intros d Hd. destruct Hnew as [[_ ->]|(_ & p & Hp & ->)]; [by apply elem_of_nil in Hd|].
    apply list_elem_of_singleton in Hd as ->. destruct (Hw _ _ Hp (flushed_run fz)) as (? & ? & ?).
    split_and!; try done. by eapply bk_node. }
  assert (Hcand : ∀ id c, (∃ d, d ∈ new ∧ sst_cand rows id d = Some c) ↔
                          ∃ e, mt_inner (ws_memtable ses) !! KNode id = Some e ∧ c = (mem_row id e, "")).
  { intros id c. pose proof (flushed_find fz id) as Hf. simpl in Hf. split.
    - intros (d & Hd & Hc). destruct (Hrows d Hd) as (_ & Hr & Hsc & _). unfold sst_cand in Hc. rewrite Hr, Hsc, Hf in Hc.
      destruct (mt_inner (ws_memtable ses) !! KNode id) as [e|]; [|done]. simpl in Hc. injection Hc as <-. by exists e.
    - intros (e & He & ->). rewrite He in Hf. destruct Hnew as [[Hnil _]|(_ & p & _ & ->)]; [by rewrite Hnil in Hf|].
      exists (pd_descriptor p). destruct (Hrows (pd_descriptor p)) as (_ & Hr & Hsc & _); [by left|].
      split; [by left|]. unfold sst_cand. by rewrite Hr, Hsc, Hf. }
  split; [split|].
  - unfold overlay_dict. simpl. rewrite !decide_True by done. done.
  - intros id c. rewrite (seen_plain ses), (seen_plain (with_tables ses lm Memtable_new)) by done. simpl.
    rewrite <- Hcand, lookup_empty. split.
    + intros [(e & He & _)|(d & Hd & Hk & Hc)]; [done|]. apply (Hss d Hk) in Hd as [Hd|Hd]; [right|left]; by exists d.
    + intros [(d & Hd & Hc)|(d & Hd & Hk & Hc)]; right; exists d.
      * destruct (Hrows d Hd) as [Hk _]. split_and!; [apply Hss; [done|by right]|done|done].
      * split_and!; [apply Hss; [done|by left]|done|done].
  - intros d Hd Hk. apply (Hss d Hk) in Hd as [Hd|Hd]; [by apply Hs|by apply Hrows].
Qed.

Lemma empty_flush_alike ses :
  ws_published ses = snapshot_view (ws_memtable ses) → mt_inner (ws_memtable ses) = ∅ →
  reads_alike ses (with_tables ses (ws_current ses) Memtable_new).
Proof. intros Hpub He. apply same_tables_alike; [done| |done|done|done]. simpl. rewrite Hpub. unfold snapshot_view. by rewrite He. Qed.

Lemma flush_alike b ses r ses' w :
  builders_ok b → writes_rows b → session_ok ses → flush_post crc32 xxh3_64 b ses (r, ses') w →
  reads_alike ses ses' ∧ all_served ses'.
Proof.
  intros Hb Hw Hok (_ & c & ses1 & Hc & Hrest). destruct (commit_alike _ _ _ _ Hok Hc) as (H1 & Hs1 & Hp1 & Hst1).
  destruct c as [o|e]; simpl in Hrest; [|by destruct Hrest as [-> _]].
  destruct Hrest as (ses2 & Hres & Hrest). destruct (resolved_alike _ _ Hp1 Hs1 Hres) as (H2 & Hs2 & Hp2 & Hst2).
  assert (H12 : reads_alike ses ses2) by by trans ses1.
  destruct r as [out|e].
  - destruct Hrest as [-> [[He ->]|Hf]].
    + split; [trans ses2; [done|by apply empty_flush_alike]|done].
    + destruct (flushed_alike b ses2 (fo_committed out)) as [Ha Hs]; try done; [rewrite Hst2; eauto|].
      split; [by trans ses2|done].
  - destruct Hrest as [->| ->]; [done|]. split; [trans ses2; [done|by apply failed_flush_alike]|done].
Qed.

End reads.
