(* ===== verification/ManifestExample.v ===== *)
(** A concrete namespace for the theorems of the manifest protocol: verbatim
    paths, a table-driven JSON codec, and an execution with a bootstrap, a claim,
    a commit and a load, driven request by request. *)
From S2P Require Import Prelude StorageError Wal Memtable ManifestTypes DescriptorIndex Paths ManifestProtocol ObjectStore Recovery ManifestSafety ManifestLiveness ManifestSystem.

(** ** A codec that knows a table of values *)

Section Table.
Context {A : Type} `{!EqDecision A} (typed : A → Prop) `{!∀ a, Decision (typed a)}.
Context (table : list A).

Definition table_to_vec (a : A) : result string (list byte) :=
  match list_find (a =.) table with
  | Some (i, _) => if (i <? 256)%nat then Ok [z2b (Z.of_nat i)] else Err "table too large"
  | None => Err "not in the table"
  end.

Definition table_from_slice (b : list byte) : result string A :=
  match b with
  | [x] =>
      match table !! Z.to_nat (b2z x) with
      | Some a => if decide (typed a) then Ok a else Err "out of range"
      | None => Err "unknown"
      end
  | _ => Err "not a document"
  end.

#[refine] Definition table_codec : JsonCodec A typed := {|
  to_vec := table_to_vec; from_slice := table_from_slice |}.
Proof.
  - intros a b Ht. unfold table_to_vec. destruct (list_find _ table) as [[i a']|] eqn:E; [|done].
    apply list_find_Some in E as (Hi & <- & _). destruct (Nat.ltb_spec i 256); [|done].
    intros [= <-]. unfold table_from_slice.
    rewrite b2z_z2b_small by (unfold is_uint; lia). rewrite Nat2Z.id, Hi. by rewrite decide_True.
  - intros b a. unfold table_from_slice. destruct b as [|x [|]]; [done| |done].
    destruct (table !! _) as [a'|]; [|done]. case_decide; [|done]. by intros [= <-].
Defined.

Definition table_deserialize_from (b : list byte) : result string (A * nat) :=
  match b with
  | x :: _ =>
      match table !! Z.to_nat (b2z x) with Some a => Ok (a, 1%nat) | None => Err "unknown" end
  | [] => Err "no bytes"
  end.

#[refine] Definition table_bincode : Bincode A typed := {|
  bincode_serialize := table_to_vec; bincode_deserialize_from := table_deserialize_from |}.
Proof.
  - intros a b rest _. unfold table_to_vec. destruct (list_find _ table) as [[i a']|] eqn:E; [|done].
    apply list_find_Some in E as (Hi & <- & _). destruct (Nat.ltb_spec i 256); [|done].
    intros [= <-]. simpl. rewrite b2z_z2b_small by (unfold is_uint; lia). by rewrite Nat2Z.id, Hi.
  - intros b a n. unfold table_deserialize_from. destruct b as [|x b]; [done|].
    destruct (table !! _); [|done]. intros [= _ <-]. simpl. lia.
Defined.
End Table.

(** ** Driving requests to completion *)

Section Drive.
Context `{!KeySpace} `{!JsonCodec Manifest manifest_typed}.
Context `{!JsonCodec ManifestPointer pointer_typed}.
Context `{!Bincode WalEntry entry_typed} `{!Bincode MemtableSnapshotFile snapshot_typed}.
Context `{!Bincode MemtableSnapshotBindingV2 binding_typed}.
Context (crc32 xxh3_64 : list byte → Z).

Fixpoint drive {A} (i : nat) (p : prog A) (w : World) : option (Result A * World) :=
  match p with
  | Ret r => Some (r, w)
  | OutOfFuel => None
  | Call op k =>
      if is_delete op then None
      else let '(r, s') := answer (w_objs w) op in
           drive i (k r) {| w_objs := s'; w_owner := owner_after i op r (w_owner w) |}
  end.

Definition complete (S : System) (i : nat) (q : Request) : option System :=
  match sys_clients S !! i with
  | Some _ => None
  | None =>
      match drive i (request_prog crc32 xxh3_64 q) (sys_world S) with
      | Some (r, w') => Some {| sys_world := w'; sys_clients := <[i := (q, Ret r)]> (sys_clients S) |}
      | None => None
      end
  end.

Lemma drive_steps md i q (p : prog Response) w r w' cl :
  drive i p w = Some (r, w') →
  rtc (sys_step crc32 xxh3_64 md) {| sys_world := w; sys_clients := <[i := (q, p)]> cl |}
    {| sys_world := w'; sys_clients := <[i := (q, Ret r)]> cl |}.
Proof.
  revert w. induction p as [r0| |op k IH]; intros w; simpl; [by intros [= -> ->]|done|].
  destruct (is_delete op) eqn:Hd; [done|]. pose proof (answer_reply (w_objs w) op) as Ha.
  destruct (answer (w_objs w) op) as [r1 s1]. intros Hdr. eapply rtc_l; [|by apply (IH r1)].
  rewrite <- (insert_insert_eq cl i (q, k r1) (q, Call op k)).
  refine (sys_call crc32 xxh3_64 md {| sys_world := w; sys_clients := <[i := (q, Call op k)]> cl |}
    i q op k r1 {| w_objs := s1; w_owner := owner_after i op r1 (w_owner w) |} _ _).
  - simpl. by rewrite lookup_insert_eq.
  - split; [|done]. unfold outcome. rewrite Hd. by left.
Qed.

Lemma complete_steps md S S' i q :
  complete S i q = Some S' → may_start S q → rtc (sys_step crc32 xxh3_64 md) S S'.
Proof.
  unfold complete. destruct (sys_clients S !! i) eqn:Hi; [done|].
  destruct (drive _ _ _) as [[r w']|] eqn:Hd; [|done]. intros [= <-] Hq.
  eapply rtc_l; [by apply sys_start|]. by apply drive_steps.
Qed.
End Drive.

(** ** A namespace and its first versions *)

Lemma acme_wf : wf_paths (NamespacePaths_new "prod" "acme").
Proof. split; [done|]. exists ["prod"]. by repeat constructor. Qed.

#[global] Instance acme_keys : KeySpace := @keyspace_of verbatim_paths _ acme_wf.

Definition acme_uuids (k : nat) : Z := 1000 + Z.of_nat k.
Definition acme_now (k : nat) : Z := 200 + Z.of_nat k.

Definition acme_m0 : Manifest := Manifest_empty 0 7 100.
Definition acme_m1 : Manifest := with_epoch (next_version acme_m0 1000 200) 1.
Definition acme_m2 : Manifest := next_version acme_m1 1001 300.

#[global] Instance manifest_typed_dec m : Decision (manifest_typed m).
Proof. unfold manifest_typed, is_uint. apply _. Defined.
#[global] Instance pointer_typed_dec p : Decision (pointer_typed p).
Proof. unfold pointer_typed, is_uint. apply _. Defined.

#[global] Instance WalOp_eq_dec : EqDecision WalOp.
Proof. solve_decision. Defined.
#[global] Instance WalEntry_eq_dec : EqDecision WalEntry.
Proof. solve_decision. Defined.
#[global] Instance MemtableSnapshotEntry_eq_dec : EqDecision MemtableSnapshotEntry.
Proof. solve_decision. Defined.
#[global] Instance MemtableSnapshotFile_eq_dec : EqDecision MemtableSnapshotFile.
Proof. solve_decision. Defined.
#[global] Instance WalSegmentBindingV2_eq_dec : EqDecision WalSegmentBindingV2.
Proof. solve_decision. Defined.
#[global] Instance MemtableSnapshotBindingV2_eq_dec : EqDecision MemtableSnapshotBindingV2.
Proof. solve_decision. Defined.

(** This execution writes no WAL entry and no checkpoint. *)
#[local] Instance acme_entries : Bincode WalEntry entry_typed := table_bincode entry_typed [].
#[local] Instance acme_snapshots : Bincode MemtableSnapshotFile snapshot_typed :=
  table_bincode snapshot_typed [].
#[local] Instance acme_bindings : Bincode MemtableSnapshotBindingV2 binding_typed :=
  table_bincode binding_typed [].

#[local] Instance acme_manifests : JsonCodec Manifest manifest_typed :=
  table_codec manifest_typed [acme_m0; acme_m1; acme_m2].
#[local] Instance acme_pointers : JsonCodec ManifestPointer pointer_typed :=
  table_codec pointer_typed [pointer_to 0 acme_m0; pointer_to 1 acme_m1; pointer_to 2 acme_m2].

Definition acme_sum (b : list byte) : Z := foldr (λ x acc, (b2z x + acc) mod 2 ^ 32) 0 b.

Definition acme_loaded (n : Z) (m : Manifest) : LoadedManifest :=
  LoadedManifest_new (pointer_to n m) None None m.
Definition acme_fence : WriterFence := {| f_epoch := 1; f_writer_id := 1001 |}.
Definition acme_claim : Request := RClaim 5 acme_uuids acme_now None.
Definition acme_commit : Request := RCommit acme_fence (acme_loaded 1 acme_m1) acme_m2.

Definition run_request (S : System) (i : nat) (q : Request) : System :=
  default S (complete acme_sum acme_sum S i q).
Definition acme_S1 : System := run_request initial 0 (RBootstrap 7 100).
Definition acme_S2 : System := run_request acme_S1 1 acme_claim.
Definition acme_S3 : System := run_request acme_S2 2 acme_commit.

Lemma run_request_steps md S i q :
  is_Some (complete acme_sum acme_sum S i q) → may_start S q →
  rtc (sys_step acme_sum acme_sum md) S (run_request S i q).
Proof.
  intros [S' HS] Hq. unfold run_request. rewrite HS. by eapply complete_steps.
Qed.

Lemma acme_finished_0 : finished acme_S1 0 (RBootstrap 7 100) (PLoaded (acme_loaded 0 acme_m0)).
Proof. vm_compute. reflexivity. Qed.
Lemma acme_finished_1 : finished acme_S2 1 acme_claim (PClaimed (acme_loaded 1 acme_m1) acme_fence).
Proof. vm_compute. reflexivity. Qed.
Lemma acme_finished_2 : finished acme_S3 2 acme_commit (PLoaded (acme_loaded 2 acme_m2)).
Proof. vm_compute. reflexivity. Qed.

Lemma acme_reachable_1 md : reachable acme_sum acme_sum md acme_S1.
Proof. apply run_request_steps; [vm_compute; by eexists|done]. Qed.
Lemma acme_steps_2 md : rtc (sys_step acme_sum acme_sum md) acme_S1 acme_S2.
Proof. apply run_request_steps; [vm_compute; by eexists|done]. Qed.
Lemma acme_steps_3 md : rtc (sys_step acme_sum acme_sum md) acme_S2 acme_S3.
Proof.
  apply run_request_steps; [vm_compute; by eexists|]. split; [|by vm_compute].
  exists 1%nat, acme_claim, (PClaimed (acme_loaded 1 acme_m1) acme_fence).
  split; [apply acme_finished_1|done].
Qed.
Lemma acme_reachable_2 md : reachable acme_sum acme_sum md acme_S2.
Proof. unfold reachable. etrans; [apply acme_reachable_1|apply acme_steps_2]. Qed.
Lemma acme_reachable_3 md : reachable acme_sum acme_sum md acme_S3.
Proof. unfold reachable. etrans; [apply acme_reachable_2|apply acme_steps_3]. Qed.

Ltac solve_published :=
  eapply published_by_lookup;
    [by vm_compute|vm_compute; reflexivity|vm_compute; reflexivity|reflexivity
    |vm_compute; reflexivity|vm_compute; reflexivity].

Lemma acme_published_0 : published (w_objs (sys_world acme_S2)) 0 acme_m0.
Proof. solve_published. Qed.
Lemma acme_published_1 : published (w_objs (sys_world acme_S2)) 1 acme_m1.
Proof. solve_published. Qed.
Lemma acme_published_1' : published (w_objs (sys_world acme_S3)) 1 acme_m1.
Proof. solve_published. Qed.
Lemma acme_published_2 : published (w_objs (sys_world acme_S3)) 2 acme_m2.
Proof. solve_published. Qed.

(** ** Witnesses *)

Lemma pointer_chain_safe_witness :
  (∀ k, is_Some (w_objs (sys_world acme_S3) !! k) → under pointer_dir k = true →
     ∃ n m, k = pointer_version n ∧ published (w_objs (sys_world acme_S3)) n m) ∧
  (∀ n m k, published (w_objs (sys_world acme_S3)) n m → 0 ≤ k ≤ n →
     ∃ m', published (w_objs (sys_world acme_S3)) k m' ∧ mf_epoch m' ≤ mf_epoch m).
Proof. exact (pointer_chain_safe acme_sum acme_sum acme_S3 (acme_reachable_3 faulty)). Defined.

Lemma published_is_final_witness : published (w_objs (sys_world acme_S3)) 1 acme_m1.
Proof.
  exact (published_is_final acme_sum acme_sum acme_S2 acme_S3 1 acme_m1
           (acme_reachable_2 faulty) (acme_steps_3 faulty) acme_published_1).
Defined.

Lemma acme_publisher : publisher acme_S3 2 2.
Proof.
  exists acme_commit, (PLoaded (acme_loaded 2 acme_m2)). split; [apply acme_finished_2|reflexivity].
Qed.


Lemma fenced_writer_cannot_publish_witness : mf_epoch acme_m1 ≤ f_epoch acme_fence.
Proof.
  refine (fenced_writer_cannot_publish acme_sum acme_sum acme_S3 2 acme_commit
    (PLoaded (acme_loaded 2 acme_m2)) acme_fence (acme_loaded 1 acme_m1) acme_m2
    (acme_loaded 2 acme_m2) 1 acme_m1 (acme_reachable_3 faulty) acme_finished_2 eq_refl
    (or_introl eq_refl) acme_published_1' _). simpl. lia.
Defined.

Lemma claim_epoch_fresh_witness : mf_epoch acme_m0 < f_epoch acme_fence.
Proof.
  assert (Hk : 0 ≤ 0 ≤ ptr_version (lm_pointer (acme_loaded 1 acme_m1))) by (simpl; lia).
  refine (proj2 (claim_epoch_fresh acme_sum acme_sum acme_S2 1 5 acme_uuids acme_now None
    (acme_loaded 1 acme_m1) acme_fence 0 acme_m0 (acme_reachable_2 faulty) acme_finished_1
    acme_published_0 Hk) _). simpl. lia.
Defined.

Definition acme_started : System :=
  {| sys_world := sys_world acme_S3;
     sys_clients := <[3%nat := (RLoad, request_prog acme_sum acme_sum RLoad)]> (sys_clients acme_S3) |}.
Definition acme_S4 : System := run_request acme_S3 3 RLoad.

Lemma acme_load_steps md : rtc (sys_step acme_sum acme_sum md) acme_started acme_S4.
Proof.
  unfold acme_S4, run_request, complete.
  destruct (sys_clients acme_S3 !! 3%nat) eqn:E; [by vm_compute in E|].
  destruct (drive 3 (request_prog acme_sum acme_sum RLoad) (sys_world acme_S3)) as [[r w']|] eqn:Ed.
  - simpl. by apply drive_steps.
  - by vm_compute in Ed.
Qed.


(** ** Progress *)

Lemma acme_newest : newest (sys_world acme_S1) 0 acme_m0.
Proof.
  split; [exact (proj1 (reachable_good acme_sum acme_sum faulty acme_S1 eq_refl (acme_reachable_1 faulty)))|].
  split; [solve_published|]. split; [vm_compute; reflexivity|word_lia].
Qed.

Lemma load_returns_newest_witness :
  run load_current (w_objs (sys_world acme_S1))
  = (Some (Ok (loaded_as 0 acme_m0)), w_objs (sys_world acme_S1)).
Proof. exact (load_returns_newest (sys_world acme_S1) 0 acme_m0 acme_newest). Defined.

Definition acme_after_claim : Objects := publishing (w_objs (sys_world acme_S1)) 1 [z2b 1] [z2b 1].

Lemma claim_succeeds_when_free_witness :
  run (claim_writer acme_sum acme_sum 5 acme_uuids acme_now) (w_objs (sys_world acme_S1))
  = (Some (Ok (loaded_as 1 acme_m1, acme_fence)), acme_after_claim) ∧
  run load_current acme_after_claim = (Some (Ok (loaded_as 1 acme_m1)), acme_after_claim).
Proof.
  refine (claim_succeeds_when_free acme_sum acme_sum (sys_world acme_S1) 0 acme_m0 4 acme_uuids acme_now
            [z2b 1] [z2b 1] acme_newest _ _ _ _ _); vm_compute; reflexivity.
Defined.
