(* ===== verification/SessionExample.v ===== *)
(** A concrete life of a writer session: open a fresh namespace, stage a node and an
    edge tombstone, commit them with a checkpoint, recover them, and a second commit
    of the same session state that loses the race. It instantiates the hypotheses of
    the recovery, staging and session theorems. *)
From S2P Require Import Prelude StorageError Wal Memtable ManifestTypes DescriptorIndex Paths ManifestProtocol ObjectStore Recovery WriterSession SessionStaging ManifestSafety SessionSafety ManifestSystem Durability ManifestExample.

Definition live_observe (_ : LoadedManifest) (_ : Memtable) : Result unit := Ok tt.
Definition live_open : Request := ROpen 5 acme_uuids acme_now 1 None live_observe.

Definition live_m0 : Manifest := Manifest_empty 0 1000 200.
Definition live_ses0 : WriterSession :=
  {| ws_fence := {| f_epoch := 0; f_writer_id := 1001 |}; ws_current := acme_loaded 0 live_m0;
     ws_memtable := Memtable_new; ws_published := MemtableSnapshot_empty; ws_next_lsn := 1;
     ws_durable_lsn := 0; ws_dropped_batches := 0; ws_next_wal_seq := 1;
     ws_pending := WalSegment_new 1; ws_payloads := []; ws_staged := Memtable_new;
     ws_node_mutations := false; ws_auto_snapshot_every := 1; ws_commits_since_snapshot := 0;
     ws_poisoned := false; ws_label_dict := LabelDictionary_new |}.

Definition live_log : list mutation :=
  [(KNode 5, 1, Upsert [z2b 7]); (KEdge "KNOWS" 5 6, 2, Tombstone)].
Definition live_ops : list StageOp :=
  [SUpsertNode ["Person"%string] 5 (λ ids, Ok (map z2b (7 :: tail ids)));
   STombstoneEdge "KNOWS" 5 6].

#[local] Instance live_entries : Bincode WalEntry entry_typed :=
  table_bincode entry_typed
    (map (λ '(k, lsn, op), from_apply k lsn op) live_log ++ [from_apply (KNode 9) 3 Tombstone]).

Definition live_ses1 : WriterSession := stage_all live_ses0 live_ops.
Definition live_m1 : Manifest := build_next sum32 sum32 live_ses1 1 2 300.
(** The manifest the losing retry prepares at the fresh sequence number. *)
Definition live_m1_retry : Manifest := build_next sum32 sum32 (set_pending_seq live_ses1 2) 2 2 310.
Definition live_mem : Memtable := apply_all Memtable_new live_log.

#[local] Instance live_manifests : JsonCodec Manifest manifest_typed :=
  table_codec manifest_typed [live_m0; live_m1; live_m1_retry; build_next sum32 sum32 live_ses1 1 2 305].
#[local] Instance live_pointers : JsonCodec ManifestPointer pointer_typed :=
  table_codec pointer_typed [pointer_to 0 live_m0; pointer_to 1 live_m1].
#[local] Instance live_snapshots : Bincode MemtableSnapshotFile snapshot_typed :=
  table_bincode snapshot_typed [from_manifest live_m1 (entries_of live_mem)].
#[local] Instance live_bindings : Bincode MemtableSnapshotBindingV2 binding_typed :=
  table_bincode binding_typed
    [{| sb_wal_segments := Some (map from_descriptor (mf_wal_segments live_m1)) |}].

Definition live_commit : Request := RCommitBatch live_ses1 [false] (Ok tt) (Ok tt) 300 310.
Definition live_late : Request := RCommitBatch live_ses1 [] (Ok tt) (Ok tt) 305 310.

Definition live_request (S : System) (i : nat) (q : Request) : System :=
  default S (complete sum32 sum32 S i q).
Definition live_S1 : System := live_request initial 0 live_open.
Definition live_S2 : System := live_request live_S1 1 live_commit.
Definition live_S3 : System := live_request live_S2 2 live_late.

Definition live_ses2 : WriterSession :=
  set_commits_since_snapshot (drain_batch live_ses1 1 (acme_loaded 1 live_m1)) 0.

Lemma live_finished_0 : finished live_S1 0 live_open (PSession live_ses0).
Proof. vm_compute. reflexivity. Qed.
Lemma live_finished_1 :
  finished live_S2 1 live_commit (PCommit (Ok (Committed 1 2 2 1)) live_ses2).
Proof. vm_compute. reflexivity. Qed.
Lemma live_finished_2 :
  finished live_S3 2 live_late (PCommit (Err (ManifestCommitCas 0 1)) (set_poisoned live_ses1)).
Proof. vm_compute. reflexivity. Qed.

Lemma live_steps md S i q :
  is_Some (complete sum32 sum32 S i q) → may_start S q →
  rtc (sys_step sum32 sum32 md) S (live_request S i q).
Proof. intros [S' HS] Hq. unfold live_request. rewrite HS. by eapply complete_steps. Qed.

Lemma live_steps_1 md : rtc (sys_step sum32 sum32 md) initial live_S1.
Proof. apply live_steps; [vm_compute; by eexists|done]. Qed.
Lemma live_held : held live_S1 (ws_current live_ses1).
Proof. exists 0%nat, live_open, (PSession live_ses0). split; [apply live_finished_0|reflexivity]. Qed.
Lemma live_steps_2 md : rtc (sys_step sum32 sum32 md) live_S1 live_S2.
Proof. apply live_steps; [vm_compute; by eexists|apply live_held]. Qed.
Lemma live_steps_3 md : rtc (sys_step sum32 sum32 md) live_S2 live_S3.
Proof.
  apply live_steps; [vm_compute; by eexists|].
  exists 0%nat, live_open, (PSession live_ses0). split; [vm_compute; reflexivity|reflexivity].
Qed.
Lemma live_reachable_2 md : reachable sum32 sum32 md live_S2.
Proof. unfold reachable. etrans; [apply live_steps_1|apply live_steps_2]. Qed.
Lemma live_reachable_3 md : reachable sum32 sum32 md live_S3.
Proof. unfold reachable. etrans; [apply live_reachable_2|apply live_steps_3]. Qed.

(** ** Witnesses *)


Lemma failed_commit_keeps_session_witness :
  set_poisoned live_ses1 = live_ses1 ∨ set_poisoned live_ses1 = set_poisoned live_ses1.
Proof.
  exact (failed_commit_keeps_session sum32 sum32 live_S3 2 live_ses1 [] (Ok tt) (Ok tt) 305 310
           (ManifestCommitCas 0 1) (set_poisoned live_ses1) (live_reachable_3 faulty) live_finished_2).
Defined.

Lemma live_batch_ok_0 : batch_ok live_ses0.
Proof. by eapply (empty_batch_ok _ 1 1). Qed.

Lemma staging_consistent_witness :
  batch_ok live_ses1 ∧ same_base live_ses0 live_ses1 ∧
  ∃ log, ws_payloads live_ses1 = ws_payloads live_ses0 ++ log.
Proof. apply (staging_consistent live_ses0 live_ops live_batch_ok_0). vm_compute. done. Defined.

Lemma live_batch_ok_1 : batch_ok live_ses1.
Proof.
  destruct (stage_all_appended live_ops live_ses0) as (log & Hap & E); [vm_compute; done|].
  eapply appended_batch_ok; [apply live_batch_ok_0|exact Hap|vm_compute; done].
Qed.

Lemma rollback_restores_witness :
  let rolled := rollback_staged_request (stage_all live_ses1 [STombstoneNode 9])
                  (begin_staged_request live_ses1) in
  rolled = with_counters live_ses1 4 0 0 false (ws_label_dict live_ses1) ∧ batch_ok rolled.
Proof.
  apply (rollback_restores live_ses1 [STombstoneNode 9] live_batch_ok_1). vm_compute. done.
Defined.

Lemma discard_drops_batch_witness :
  let '(ses', n) := discard_batch live_ses1 in
  n = length (ws_payloads live_ses1) ∧ ws_payloads ses' = [] ∧ batch_ok ses' ∧
  ws_memtable ses' = ws_memtable live_ses1 ∧ ws_published ses' = ws_published live_ses1 ∧
  ws_current ses' = ws_current live_ses1 ∧ ws_durable_lsn ses' = ws_durable_lsn live_ses1 ∧
  ws_dropped_batches ses'
  = (if (n =? 0)%nat then ws_dropped_batches live_ses1
     else saturating_add64 (ws_dropped_batches live_ses1) 1).
Proof. exact (discard_drops_batch live_ses1 live_batch_ok_1). Defined.

(** ** Recovery after the commit *)

Definition live_store : Objects := w_objs (sys_world live_S2).

Lemma live_durable :
  Forall2 (segment_durable sum32 live_store) (merge_sort seq_le (mf_wal_segments live_m1)) [live_log].
Proof.
  assert (merge_sort seq_le (mf_wal_segments live_m1) = mf_wal_segments live_m1) as -> by by vm_compute.
  constructor; [|constructor]. exists (seg_records (ws_pending live_ses1)). split_and!.
  - repeat constructor; vm_compute; reflexivity.
  - repeat constructor; vm_compute; done.
  - split; [|by vm_compute]. repeat constructor; vm_compute; done.
  - vm_compute. reflexivity.
  - vm_compute. reflexivity.
Qed.

Lemma recovery_replays_log_witness :
  run (recover_memtable sum32 sum32 live_m1) live_store
  = (Some (Ok {| rm_memtable := apply_all Memtable_new (concat [live_log]);
                 rm_max_lsn := foldl Z.max 0 (map lsn_of (concat [live_log]));
                 rm_records_replayed := length (concat [live_log]); rm_used_snapshot := false |}),
     live_store).
Proof. exact (recovery_replays_log sum32 sum32 sum32_u32 live_store live_m1 [live_log] live_durable). Defined.

Lemma sum32_u64 b : is_u64 (sum32 b).
Proof. pose proof (sum32_u32 b). word_lia. Qed.

Lemma live_ascending : Forall ascending [live_log].
Proof. repeat constructor; vm_compute; done. Qed.

Lemma live_checkpoint : checkpoint_state sum32 live_store live_m1 (apply_all Memtable_new (concat [live_log])).
Proof.
  unfold checkpoint_state. destruct (live_store !! memtable_snapshot) as [b|] eqn:E; [|done].
  right; right. vm_compute in E. injection E as <-. split; [vm_compute; reflexivity|vm_compute; done].
Qed.


Lemma live_recoverable :
  recoverable sum32 live_store (mf_wal_segments (lm_manifest (ws_current live_ses1))) (ws_memtable live_ses1).
Proof. split; [constructor|]. exists []. split; [constructor|reflexivity]. Qed.

Lemma live_segment_wf : segment_wf (ws_pending live_ses1).
Proof. split; [|by vm_compute]. repeat constructor; vm_compute; done. Qed.

