(* ===== verification/FlushExample.v ===== *)
(** A session that flushes: the batch of [SessionExample] is committed, and its node
    and edge move from the memtable into SSTs. The SSTs are those of
    [CompactionExample], addressed by content. *)
From S2P Require Import Prelude StorageError Wal Memtable ManifestTypes Bloom DescriptorIndex Paths ManifestProtocol ObjectStore Recovery WriterSession SessionStaging ManifestSafety SessionSafety KwayMerge Compaction CompactionMerge NodeReads CompactionView CompactionExample Flush FlushSafety ManifestSystem FlushView ManifestExample SessionExample.

#[local] Instance fl_entries : Bincode WalEntry entry_typed := live_entries.
#[local] Instance fl_snapshots : Bincode MemtableSnapshotFile snapshot_typed := live_snapshots.
#[local] Instance fl_bindings : Bincode MemtableSnapshotBindingV2 binding_typed := live_bindings.

Definition fl_pending (kind : SstKind) (name : string) (rs : list NodeRow) : PendingSst :=
  let d := ex_sst "" 0 rs in
  {| pd_descriptor :=
       {| sst_id := sst_id d; sst_kind := kind; sst_scope := sst_scope d; sst_level := sst_level d;
          sst_path := sst_path d; sst_size_bytes := sst_size_bytes d; sst_row_count := sst_row_count d;
          sst_created_at := sst_created_at d; sst_min_key := sst_min_key d; sst_max_key := sst_max_key d;
          sst_min_lsn := sst_min_lsn d; sst_max_lsn := sst_max_lsn d; sst_bloom := None;
          sst_unique_property_indices := []; sst_equality_property_indices := [];
          sst_composite_equality_indices := []; sst_label_index := None; sst_node_locator := None; sst_extra := [] |};
     pd_body_path := namespace_prefix +:+ "/sst/level0/" +:+ name; pd_body := InMemory [z2b 1];
     pd_bloom_path := None; pd_bloom_body := None; pd_index_sidecars := [] |}.

Definition fl_builders : SstBuilders :=
  {| node_pending := λ rs, Ok (fl_pending SkNodes "nodes" rs);
     edge_pending := λ t _, Ok (fl_pending SkEdgesFwd ("fwd-" +:+ t) [], fl_pending SkEdgesInv ("inv-" +:+ t) []);
     prepare_search_flush := λ _ _ _, mret SearchFlushPlan_default |}.

Definition fl_args : FlushArgs :=
  {| fa_sched := [false]; fa_check := Ok tt; fa_check' := Ok tt; fa_now := λ n, 300 + Z.of_nat n;
     fa_pending := None; fa_retire := id; fa_schema := id; fa_scheds := []; fa_completed := [] |}.

(** The manifest the flush publishes. *)
Definition fl_m2 : Manifest :=
  with_contents (next_version live_m1 1001 303)
    [pd_descriptor (fl_pending SkNodes "nodes" [{| nr_id := 5; nr_lsn := 1; nr_op := Upsert [z2b 7] |}]);
     pd_descriptor (fl_pending SkEdgesFwd "" []); pd_descriptor (fl_pending SkEdgesInv "" [])] [] (mf_catalog live_m1).

#[local] Instance fl_manifests : JsonCodec Manifest manifest_typed := table_codec manifest_typed [live_m0; live_m1; fl_m2].
#[local] Instance fl_pointers : JsonCodec ManifestPointer pointer_typed :=
  table_codec pointer_typed [pointer_to 0 live_m0; pointer_to 1 live_m1; pointer_to 2 fl_m2].

Definition fl_run (S : System) (i : nat) (q : Request) : System := default S (complete sum32 sum32 S i q).
Definition fl_S1 : System := fl_run initial 0 live_open.
Definition fl_request : Request := RFlush fl_builders live_ses1 fl_args.
Definition fl_S2 : System := fl_run fl_S1 1 fl_request.
Definition fl_ses2 : WriterSession := with_tables live_ses2 (acme_loaded 2 fl_m2) Memtable_new.
Definition fl_outcome : FlushOutcome :=
  {| fo_committed := acme_loaded 2 fl_m2; fo_ssts_written := 3; fo_bloom_sidecars_written := 0 |}.

Lemma fl_finished_0 : finished fl_S1 0 live_open (PSession live_ses0).
Proof. vm_compute. reflexivity. Qed.
Lemma fl_finished_1 : finished fl_S2 1 fl_request (PFlush (Ok fl_outcome) fl_ses2).
Proof. vm_compute. reflexivity. Qed.

Lemma fl_builders_ok : builders_ok fl_builders.
Proof.
  split.
  - intros rows p [= <-]. split; [|done]. repeat constructor.
  - intros t rows p p' [= <- <-]. repeat constructor; by vm_compute.
  - done.
  - intros base d rows. split_and!; [constructor|constructor|]. apply Forall_forall. intros x _ _. simpl. set_solver.
Qed.

Lemma fl_steps_1 md : rtc (sys_step sum32 sum32 md) initial fl_S1.
Proof. unfold fl_S1, fl_run. destruct (complete sum32 sum32 initial 0 live_open) eqn:E; [by eapply complete_steps|by vm_compute in E]. Qed.
Lemma fl_held : held fl_S1 (ws_current live_ses1).
Proof. exists 0%nat, live_open, (PSession live_ses0). split; [apply fl_finished_0|reflexivity]. Qed.
Lemma fl_steps_2 md : rtc (sys_step sum32 sum32 md) fl_S1 fl_S2.
Proof.
  assert (may_start fl_S1 fl_request) as Hq.
  { cbv [may_start fl_request]. split; [apply fl_held|]. split; [apply fl_builders_ok|by intros m]. }
  unfold fl_S2, fl_run. destruct (complete sum32 sum32 fl_S1 1 fl_request) eqn:E; [|by vm_compute in E].
  eapply complete_steps; [exact E|exact Hq].
Qed.
Lemma fl_reachable md : reachable sum32 sum32 md fl_S2.
Proof. unfold reachable. etrans; [apply fl_steps_1|apply fl_steps_2]. Qed.

(** ** Reading *)

Abbreviation fl_lookup :=
  (session_lookup sum32 (λ _ : LabelDictionary, ex_view) (λ _ : LabelDictionary, ex_cached) ex_bloom (λ _ : LabelDictionary, ex_read)).

Lemma fl_writes_rows :
  writes_rows sum32 (λ _ : LabelDictionary, ex_view) (λ _ : LabelDictionary, ex_cached) ex_bloom (λ _ : LabelDictionary, ex_read) ex_rows fl_builders.
Proof.
  intros nodes p [= <-] Hrun. split_and!; [done|apply (ex_rows_sst "" 0)|].
  intros dict. exact (ex_serves sum32 "" 0 nodes Hrun).
Qed.

Lemma fl_session_ok :
  session_ok sum32 (λ _ : LabelDictionary, ex_view) (λ _ : LabelDictionary, ex_cached) ex_bloom (λ _ : LabelDictionary, ex_read) ex_rows live_ses1.
Proof.
  split.
  - apply live_batch_ok_1.
  - vm_compute. reflexivity.
  - assert (mt_inner (ws_memtable live_ses1) = ∅) as -> by (vm_compute; reflexivity). apply map_Forall_empty.
  - intros d Hd. assert (mf_ssts (lm_manifest (ws_current live_ses1)) = []) as E by (vm_compute; reflexivity).
    rewrite E in Hd. by apply elem_of_nil in Hd.
Qed.

Lemma fl_unique : lsn_unique ex_rows (overlay_snapshot live_ses1) 5.
Proof.
  assert (ss_ssts (overlay_snapshot live_ses1) = []) as E by (vm_compute; reflexivity).
  intros c c' Hc Hc' _. unfold visible in Hc, Hc'. rewrite E in Hc, Hc'.
  destruct Hc as [(e & He & ->)|(d & Hd & _)]; [|by apply elem_of_nil in Hd].
  destruct Hc' as [(e' & He' & ->)|(d & Hd & _)]; [|by apply elem_of_nil in Hd]. by rewrite He in He'; injection He' as <-.
Qed.

