(* ===== verification/JanitorExample.v ===== *)
(** A concrete namespace with three versions, garbage, leases and a restore window. It
    instantiates the hypotheses of the sweep and restore point theorems. *)
From S2P Require Import Prelude StorageError Wal Bloom Memtable ManifestTypes DescriptorIndex Paths ObjectStore Recovery ManifestProtocol Pins Janitor RestorePoint ManifestSafety ManifestLiveness JanitorSafety RestoreSafety ManifestExample.

(** ** A clock *)

#[refine] Definition plain_chrono : Chrono := {|
  timestamp t := t / NANOS_PER_SEC;
  from_timestamp secs := Some (secs * NANOS_PER_SEC);
  num_seconds d := Z.quot d NANOS_PER_SEC;
  from_std d := if d <=? i64_max * 1000000 then Some d else None;
  checked_sub_signed t d := if -8334601228800 * NANOS_PER_SEC <=? t - d then Some (t - d) else None;
  checked_add_signed t d := if t + d <=? 8210266876799 * NANOS_PER_SEC then Some (t + d) else None;
  MIN_UTC := -8334601228800 * NANOS_PER_SEC;
  MAX_UTC := 8210266876799 * NANOS_PER_SEC;
  is_instant t := -8334601228800 * NANOS_PER_SEC ≤ t ≤ 8210266876799 * NANOS_PER_SEC |}.
Proof.
  - done.
  - done.
  - by intros secs t [= <-].
  - intros d d'. case_match; [by intros [= <-]|done].
  - intros t d u. case_match; [by intros [= <-]|done].
  - intros t d u. case_match; [by intros [= <-]|done].
  - by intros t [].
Defined.
#[local] Existing Instance plain_chrono.

Definition secs (n : Z) : Z := n * NANOS_PER_SEC.

(** ** Versions *)

Definition jan_sst (path : string) : SstDescriptor :=
  {| sst_id := 1; sst_kind := SkEdgesFwd; sst_scope := "KNOWS"; sst_level := 0; sst_path := path;
     sst_size_bytes := 10; sst_row_count := 1; sst_created_at := 0; sst_min_key := 0;
     sst_max_key := 9; sst_min_lsn := 1; sst_max_lsn := 2; sst_bloom := None;
     sst_unique_property_indices := []; sst_equality_property_indices := [];
     sst_composite_equality_indices := []; sst_label_index := None; sst_node_locator := None;
     sst_extra := [] |}.
Definition jan_manifest (version : Z) (path : string) (segments : list WalSegmentDescriptor) : Manifest :=
  {| mf_version := version; mf_epoch := 1; mf_writer_id := 7; mf_created_at := secs (1000 * (version + 1));
     mf_ssts := [jan_sst path]; mf_wal_segments := segments;
     mf_label_dict := LabelDictionary_new; mf_catalog := [] |}.

Definition jan_m0 : Manifest := jan_manifest 0 "sst/level0/a.csr" [].
Definition jan_m1 : Manifest := jan_manifest 1 "sst/level0/b.ep.csr"
  [{| wd_seq := 5; wd_path := "wal/0000000000000005.wal"; wd_last_lsn := 2; wd_xxh3 := None |}].
Definition jan_m2 : Manifest := jan_manifest 2 "sst/level1/c.csr" [].
Definition jan_versions : list Manifest := [jan_m0; jan_m1; jan_m2].
Definition jan_created (v : Z) : Z := secs (1000 * (v + 1)).

Definition header_of (m : Manifest) : Header :=
  {| hd_version := mf_version m; hd_created_at := mf_created_at m |}.

(** The leases of the examples: a floor at version 1, the point pin [acquire_scoped]
    writes, and the window bodies a refresh at 5000 s may write. *)
Definition jan_floor : PinLease := {| pl_version := 1; pl_expires_at_unix := 9000; pl_scope := Floor |}.
Definition jan_point : PinLease := {| pl_version := 1; pl_expires_at_unix := 5900; pl_scope := Point |}.
Definition jan_window : WindowLeaseBody :=
  {| wl_version := 0; wl_expires_at_unix := 6000; wl_scope := Window (jan_created 0);
     wl_retention_secs := 3500 |}.
Definition jan_refreshed (f : Z) : WindowLeaseBody :=
  {| wl_version := f; wl_expires_at_unix := 9100; wl_scope := Window (jan_created f);
     wl_retention_secs := 3500 |}.
Definition jan_windows : list WindowLeaseBody :=
  [jan_window; jan_refreshed 0; jan_refreshed 1; jan_refreshed 2].

(** ** Codecs *)

#[local] Instance header_typed_dec h : Decision (header_typed h).
Proof. unfold header_typed, is_uint. apply _. Defined.
#[local] Instance window_typed_dec w : Decision (window_typed w).
Proof. unfold window_typed, is_uint, is_i64. apply _. Defined.
#[local] Instance lease_typed_dec l : Decision (lease_typed l).
Proof. unfold lease_typed, is_uint, is_i64. apply _. Defined.

#[local] Instance jan_manifests : JsonCodec Manifest manifest_typed :=
  table_codec manifest_typed jan_versions.
#[local] Instance jan_headers : JsonCodec Header header_typed :=
  table_codec header_typed (map header_of jan_versions).
#[local] Instance jan_window_codec : JsonCodec WindowLeaseBody window_typed :=
  table_codec window_typed jan_windows.
#[local] Instance jan_leases : JsonCodec PinLease lease_typed :=
  table_codec lease_typed (map lease_view jan_windows ++ [jan_floor; jan_point]).
#[local] Instance jan_entries : Bincode WalEntry entry_typed := table_bincode entry_typed [].
#[local] Instance jan_snapshots : Bincode MemtableSnapshotFile snapshot_typed :=
  table_bincode snapshot_typed [].
#[local] Instance jan_bindings : Bincode MemtableSnapshotBindingV2 binding_typed :=
  table_bincode binding_typed [].

#[local] Instance jan_header_law : ManifestHeader.
Proof.
  constructor. intros b m. cbn [from_slice jan_manifests jan_headers table_codec].
  unfold table_from_slice. destruct b as [|x [|]]; [done| |done].
  rewrite list_lookup_fmap. destruct (jan_versions !! _) as [m'|] eqn:E; [|done]. cbn [fmap option_fmap option_map].
  case_decide as Hm; [|done]. intros [= <-]. rewrite decide_True; [done|apply Hm].
Qed.

#[local] Instance jan_window_law : WindowLease.
Proof.
  constructor. intros w b Hw Hb. apply from_to_vec in Hb; [|done]. revert Hb.
  cbn [from_slice jan_window_codec jan_leases table_codec]. unfold table_from_slice.
  destruct b as [|x [|]]; [done| |done]. destruct (jan_windows !! _) as [w'|] eqn:E; [|done].
  case_decide; [|done]. intros [= ->]. rewrite lookup_app_l
    by (rewrite length_map; by eapply lookup_lt_Some). rewrite list_lookup_fmap, E.
  cbn [fmap option_fmap option_map]. rewrite decide_True; [done|]. by destruct Hw as (? & ? & _).
Qed.

(** ** The store *)

#[local] Instance jan_pointers : JsonCodec ManifestPointer pointer_typed :=
  table_codec pointer_typed [pointer_to 0 jan_m0; pointer_to 1 jan_m1; pointer_to 2 jan_m2].

Definition jan_base : Objects := list_to_map [
  (manifest_version 0, [z2b 0]); (manifest_version 1, [z2b 1]); (manifest_version 2, [z2b 2]);
  (pointer_version 0, [z2b 0]); (pointer_version 1, [z2b 1]); (pointer_version 2, [z2b 2]);
  (current_pointer, [z2b 2]);
  (absolute "sst/level0/a.csr", [z2b 10]); (absolute "sst/level0/b.ep.csr", [z2b 11]);
  (absolute "sst/level0/b.epidx", [z2b 12]); (absolute "sst/level1/c.csr", [z2b 13]);
  (absolute "sst/level7/orphan.csr", [z2b 14]); (absolute "sst/level0/fresh.csr", [z2b 15]);
  (wal_segment 4, [z2b 20]); (wal_segment 5, [z2b 21])].

(** Everything is old but one upload in flight. *)
Definition jan_modified (k : Path) : Z :=
  if String.eqb k (absolute "sst/level0/fresh.csr") then secs 4990 else secs 100.
Definition jan_size (_ : Path) : Z := 1.
Definition jan_sum (b : list byte) : Z := foldr (λ x acc, (b2z x + acc) mod 2 ^ 32) 0 b.

#[local] Abbreviation jan_sweep retention_horizon s :=
  (run (sweep_orphans jan_sum jan_modified jan_size retention_horizon (secs 60) true (secs 5000)) s).
Definition report_of (r : option (Result JanitorReport) * Objects) : JanitorReport :=
  match r.1 with Some (Ok report) => report | _ => JanitorReport_default end.

(** A reader of another process pins version 1. *)
Definition jan_pinned : Objects := <[pin_object "reader" := [z2b 4]]> jan_base.

(** A check of every object of a store. *)
Lemma store_check (s : Objects) (f : Path → list byte → bool) :
  forallb (λ kb, f kb.1 kb.2) (map_to_list s) = true → ∀ k b, s !! k = Some b → f k b = true.
Proof.
  intros Hall k b Hb. apply forallb_Forall in Hall. rewrite Forall_forall in Hall.
  apply (Hall (k, b)). by apply elem_of_map_to_list.
Qed.

Definition pointer_le_2 (k : Path) (_ : list byte) : bool :=
  match pointer_number k with Some v => v <=? 2 | None => true end.

Lemma jan_pinned_head : head_of jan_pinned 2 jan_m2.
Proof.
  split; [|split; [by vm_compute|split; [done|]]].
  - split; [done|]. split; exists [z2b 2]; by vm_compute.
  - intros k v [b Hb] Hu Hv.
    pose proof (store_check jan_pinned pointer_le_2 ltac:(vm_compute; reflexivity) k b Hb) as Hle.
    unfold pointer_le_2 in Hle. rewrite Hv in Hle. by apply Z.leb_le in Hle.
Qed.
Lemma jan_pinned_loads : (run load_current jan_pinned).1 = Some (Ok (loaded_as 2 jan_m2)).
Proof. by vm_compute. Qed.

Lemma completed (r : option (Result JanitorReport) * Objects) :
  match r.1 with Some (Ok _) => true | _ => false end = true → r = (Some (Ok (report_of r)), r.2).
Proof. unfold report_of. by destruct r as [[[]|] s]. Qed.

Lemma jan_pinned_swept :
  jan_sweep 2 jan_pinned = (Some (Ok (report_of (jan_sweep 2 jan_pinned))), (jan_sweep 2 jan_pinned).2).
Proof. apply completed. vm_compute. reflexivity. Qed.

Lemma jan_leased : leased jan_pinned (timestamp (secs 5000)) (pin_object "reader") jan_floor.
Proof. split; [by vm_compute|]. split; [exists [z2b 4]; by vm_compute|by vm_compute]. Qed.

(** The pinned version 1 keeps its objects although the horizon is at version 2; the
    report counts two orphans, the SST of version 0 and a stranded upload. *)
Lemma sweep_keeps_needed_witness :
  orphans_deleted (report_of (jan_sweep 2 jan_pinned)) = 2 ∧
  (jan_sweep 2 jan_pinned).2 !! absolute "sst/level0/b.epidx" = Some [z2b 12].
Proof.
  split; [by vm_compute|].
  destruct (sweep_keeps_needed jan_sum jan_modified jan_size 2 (secs 60) (secs 5000) true jan_pinned
    (loaded_as 2 jan_m2) (report_of (jan_sweep 2 jan_pinned)) (jan_sweep 2 jan_pinned).2 1 jan_m1 jan_pinned_loads jan_pinned_swept) as (_ & Hobj & _).
  - done.
  - split; [done|]. right; right; left. exists (pin_object "reader"), jan_floor. split; [apply jan_leased|done].
  - exists [z2b 1]. by vm_compute.
  - change "sst/level0/b.epidx" with ("sst/" +:+ "level0/b.epidx").
    rewrite Hobj; [vm_compute; reflexivity|]. apply references_paths. by apply (list_elem_of_lookup_2 _ 1).
Defined.

Lemma namespace_survives_sweep_witness :
  run load_current (jan_sweep 2 jan_pinned).2
  = (Some (Ok (loaded_as 2 jan_m2)), (jan_sweep 2 jan_pinned).2).
Proof.
  apply (namespace_survives_sweep jan_sum jan_modified jan_size jan_sum 2 (secs 60) (secs 5000) true
    jan_pinned 2 jan_m2 (report_of (jan_sweep 2 jan_pinned)) (jan_sweep 2 jan_pinned).2 jan_pinned_head).
  - intros q Hq. by apply elem_of_nil in Hq.
  - exact jan_pinned_swept.
Defined.

(** ** A backup pins version 1 *)

Definition jan_backup : RetentionPin :=
  {| pin_path := pin_object "backup"; pin_version := 1; pin_scope := Point; pin_ttl := secs 900;
     pin_expires_at_unix := 5900 |}.
#[local] Abbreviation jan_acquire := (run (acquire_scoped "backup" 1 Point (secs 900) 5000) jan_base).
Definition jan_backed : Objects := jan_acquire.2.

Lemma jan_acquired : jan_acquire = (Some (Ok jan_backup), jan_backed).
Proof.
  assert (E : jan_acquire.1 = Some (Ok jan_backup)) by (vm_compute; reflexivity).
  unfold jan_backed. rewrite <- E. apply surjective_pairing.
Qed.

Lemma acquired_version_survives_witness :
  (jan_sweep 2 jan_backed).2 !! wal_segment 5 = jan_backed !! wal_segment 5.
Proof.
  apply (acquired_version_survives jan_sum jan_modified jan_size jan_base "backup" 1 Point (secs 900) 5000
    jan_backup jan_backed 5000 2 (secs 60) (secs 5000) true (loaded_as 2 jan_m2)
    (report_of (jan_sweep 2 jan_backed)) (jan_sweep 2 jan_backed).2 jan_m1 (wal_segment 5)).
  - by right.
  - done.
  - reflexivity.
  - exact jan_acquired.
  - reflexivity.
  - vm_compute. discriminate.
  - vm_compute. reflexivity.
  - apply completed. vm_compute. reflexivity.
  - vm_compute. discriminate.
  - exists [z2b 1]. split; vm_compute; reflexivity.
  - apply version_segment; [done|]. by apply (list_elem_of_lookup_2 _ 0).
Defined.

(** ** The garbage goes *)

(** Every unexpired lease of the pinned store is the reader's floor at version 1. *)
Definition floor_1 (k : Path) (b : list byte) : bool :=
  if under pins_dir k then
    match (from_slice b : result string PinLease) with
    | Ok l => bool_decide (pl_scope l = Floor) && (pl_version l =? 1)
    | Err _ => true
    end
  else true.

Lemma jan_pinned_leases k l :
  leased jan_pinned (timestamp (secs 5000)) k l → pl_scope l = Floor ∧ pl_version l = 1.
Proof.
  intros (Hu & (b & Hb & Hd) & _).
  pose proof (store_check jan_pinned floor_1 ltac:(vm_compute; reflexivity) k b Hb) as Hc.
  unfold floor_1 in Hc. rewrite Hu, Hd in Hc. apply andb_true_iff in Hc as [Hs%bool_decide_eq_true Hv%Z.eqb_eq].
  split; [exact Hs|exact Hv].
Qed.

Lemma jan_pinned_needed v : needed 2 (secs 5000) jan_pinned 2 v → v = 1 ∨ v = 2.
Proof.
  intros [Hle [Hr|[Hc|[(k & l & Hl & _ & Hv)|[(k & l & Hl & Hs & _)|(k & l & since & Hl & Hs & _)]]]]].
  - lia.
  - lia.
  - apply jan_pinned_leases in Hl as [_ ?]. lia.
  - apply jan_pinned_leases in Hl as [? _]. congruence.
  - apply jan_pinned_leases in Hl as [? _]. congruence.
Qed.

Lemma jan_pinned_body_1 : jan_pinned !! manifest_version 1 = Some [z2b 1].
Proof. vm_compute. reflexivity. Qed.


(** ** Restore points *)

(** The same namespace with a restore window open from version 0. *)
Definition jan_windowed : Objects := <[pin_object RESTORE_POINT_LEASE_ID := [z2b 0]]> jan_base.

Lemma jan_windowed_head : head_of jan_windowed 2 jan_m2.
Proof.
  split; [|split; [by vm_compute|split; [done|]]].
  - split; [done|]. split; exists [z2b 2]; by vm_compute.
  - intros k v [b Hb] Hu Hv.
    pose proof (store_check jan_windowed pointer_le_2 ltac:(vm_compute; reflexivity) k b Hb) as Hle.
    unfold pointer_le_2 in Hle. rewrite Hv in Hle. by apply Z.leb_le in Hle.
Qed.

Lemma jan_history : history jan_windowed jan_created 0 2.
Proof.
  intros v Hv. assert (v = 0 ∨ v = 1 ∨ v = 2) as [-> | [-> | ->]] by lia.
  - exists [z2b 0], jan_m0. repeat split; vm_compute; reflexivity.
  - exists [z2b 1], jan_m1. repeat split; vm_compute; reflexivity.
  - exists [z2b 2], jan_m2. repeat split; vm_compute; reflexivity.
Qed.

Lemma jan_ordered : ordered jan_created 0 2.
Proof. intros u v Hu Hv. unfold jan_created, secs, NANOS_PER_SEC. lia. Qed.

(** At 2500 s the newest version is version 1, committed at 2000 s. *)
Lemma newest_restore_point_witness :
  ∃ r, run (newest_at_or_before (point_at jan_created 0) (point_at jan_created 2) (secs 2500)) jan_windowed
       = (Some (Ok r), jan_windowed) ∧ r = Some (point_at jan_created 1).
Proof.
  destruct (newest_restore_point jan_windowed jan_created 0 2 (secs 2500) jan_history) as (r & E & Hr);
    [done|done|done|].
  exists r. split; [exact E|].
  destruct r as [p|]; [|by vm_compute in Hr]. destruct Hr as (v & -> & Hv & _ & _ & Hiff).
  pose proof (Hiff jan_ordered 1 ltac:(lia)) as H1. pose proof (Hiff jan_ordered 2 ltac:(lia)) as H2.
  unfold jan_created, secs, NANOS_PER_SEC in H1, H2. by assert (v = 1) as -> by lia.
Defined.

Lemma jan_held : window_held jan_windowed (secs 5000) 2 jan_window.
Proof.
  split; [|split; [by vm_compute|by vm_compute]]. exists [z2b 0], (jan_created 0).
  split; [by vm_compute|]. split; by vm_compute.
Qed.

Lemma jan_refresh_body f :
  0 ≤ f ≤ 2 → window_body jan_created (secs 3500) (secs 600) (secs 5000) f = jan_refreshed f.
Proof. intros _. reflexivity. Qed.

(** At 5000 s with a retention of 3500 s the window opens at 1500 s: the floor stays
    at version 0, the state at that instant. *)
Lemma refresh_moves_floor_witness :
  ∃ f b lease,
    run (refresh_restore_point_lease_at (secs 3500) (secs 600) (secs 5000)) jan_windowed
    = (Some (Ok (Some lease)), <[pin_object RESTORE_POINT_LEASE_ID := b]> jan_windowed) ∧
    rl_floor lease = point_at jan_created f ∧ f = 0.
Proof.
  destruct (refresh_moves_floor jan_windowed 2 jan_m2 jan_created jan_window (secs 3500) (secs 600) (secs 5000)
    jan_windowed_head) as (f & b & lease & E & _ & Hf & Hr & _ & Hcut).
  - done.
  - exact jan_held.
  - exact jan_history.
  - exact jan_ordered.
  - intros f Hf. rewrite jan_refresh_body by exact Hf.
    assert (f = 0 ∨ f = 1 ∨ f = 2) as [-> | [-> | ->]] by (change (wl_version jan_window) with 0 in Hf; lia);
      [exists [z2b 1]|exists [z2b 2]|exists [z2b 3]]; vm_compute; reflexivity.
  - exists f, b, lease. split; [exact E|]. split; [exact Hf|]. destruct Hcut as [Hc|Hc]; [|exact Hc].
    change (cutoff_of (secs 3500) (secs 5000)) with (secs 1500) in Hc.
    change (wl_version jan_window) with 0 in Hr. unfold jan_created, secs, NANOS_PER_SEC in Hc. lia.
Defined.

Definition only_restore_points (k : Path) (_ : list byte) : bool :=
  if under pins_dir k then String.eqb k (pin_object RESTORE_POINT_LEASE_ID) else true.

Lemma jan_window_only k l since :
  leased jan_windowed (timestamp (secs 5000)) k l → pl_scope l = Window since →
  k = pin_object RESTORE_POINT_LEASE_ID.
Proof.
  intros (Hu & (b & Hb & _) & _) _.
  pose proof (store_check jan_windowed only_restore_points ltac:(vm_compute; reflexivity) k b Hb) as Hc.
  unfold only_restore_points in Hc. rewrite Hu in Hc. by apply String.eqb_eq in Hc.
Qed.

(** Everything was written after the window opened. *)
Definition jan_recent (_ : Path) : Z := secs 1500.
#[local] Abbreviation jan_window_sweep :=
  (run (sweep_orphans jan_sum jan_recent jan_size 2 (secs 60) true (secs 5000)) jan_windowed).

(** Version 1 keeps its SST although nothing but the window asks for it. *)
Lemma restore_points_survive_witness :
  jan_window_sweep.2 !! absolute "sst/level0/b.ep.csr" = jan_windowed !! absolute "sst/level0/b.ep.csr".
Proof.
  apply (restore_points_survive jan_sum jan_recent jan_size jan_windowed jan_window (jan_created 0)
    (loaded_as 2 jan_m2) 2 (secs 60) (secs 5000) true (report_of jan_window_sweep) jan_window_sweep.2
    jan_m0 1 jan_m1).
  - exists [z2b 0]. split; [vm_compute; reflexivity|]. split; [vm_compute; reflexivity|]. done.
  - by vm_compute.
  - exact jan_window_only.
  - vm_compute. reflexivity.
  - apply completed. vm_compute. reflexivity.
  - done.
  - done.
  - done.
  - exists [z2b 0]. split; vm_compute; reflexivity.
  - exists [z2b 1]. split; vm_compute; reflexivity.
  - intros k _ _. right. by vm_compute.
  - apply (version_object 1 jan_m1 "level0/b.ep.csr"), references_paths. by apply (list_elem_of_lookup_2 _ 0).
Defined.

(** ** A namespace called [pins] *)

Module PinsNamespace.
Lemma pins_wf : wf_paths (NamespacePaths_new "prod" "pins").
Proof. split; [done|]. exists ["prod"]. by repeat constructor. Qed.
#[local] Instance pins_keys : KeySpace := @keyspace_of verbatim_paths _ pins_wf.
#[local] Instance pins_pointers : JsonCodec ManifestPointer pointer_typed :=
  table_codec pointer_typed [pointer_to 0 jan_m0; pointer_to 1 jan_m1].

Definition pins_store : Objects := list_to_map [
  (manifest_version 0, [z2b 0]); (manifest_version 1, [z2b 1]);
  (pointer_version 0, [z2b 0]); (pointer_version 1, [z2b 1])].
#[local] Abbreviation pins_sweep :=
  (run (sweep_orphans jan_sum (λ _, 0) jan_size 1 (secs 60) true (secs 5000)) pins_store).

(** Version 0 is older than any bound and needed by nobody, and stays. *)
Lemma pins_namespace_never_reclaimed_witness :
  (∃ name, NamespaceId_new "pins" = Ok name) ∧
  pins_sweep.2 !! manifest_version 0 = pins_store !! manifest_version 0.
Proof.
  split; [by exists "pins"|].
  refine (proj1 (pins_namespace_never_reclaimed jan_sum (λ _, 0) jan_size 1 (secs 60) (secs 5000) true
    pins_store (loaded_as 1 jan_m1) (report_of pins_sweep) pins_sweep.2 "prod" 0 _ _ _)).
  - reflexivity.
  - vm_compute. reflexivity.
  - apply completed. vm_compute. reflexivity.
Defined.
End PinsNamespace.
