(* ===== verification/ManifestHazards.v ===== *)
(** Three executions the protocol does not protect against, two of the manifest store and
    one of the commit resolver.

    The safety theorems of [ManifestSystem] exclude effective DELETEs, and the
    freshness theorem excludes transient failures. Both restrictions are needed:
    the unconditional DELETE of the stall repair can remove the body of a version
    another claim has published in the meantime, and a load whose HEAD requests
    fail falls back to the advisory [current.json] without probing forward. *)
From S2P Require Import Prelude StorageError Wal ManifestTypes DescriptorIndex Paths ManifestProtocol ObjectStore Recovery ManifestSafety ManifestSystem ManifestExample Memtable WriterSession SessionStaging SessionExample.

(** How the store treats one request: answered, lost, executed with its response
    lost, or (LIST) answered with a listing that has not caught up. *)
Inductive treatment := Answered | Lost | ResponseLost | StaleList.

Definition treated_answer (md : Mode) (t : treatment) (s : Objects) (op : StoreOp)
    : StoreResp op * Objects :=
  if is_delete op && negb (with_deletes md) then (Err (OtherStoreError "request lost"), s)
  else match t with
  | Answered => answer s op
  | Lost => (Err (OtherStoreError "request lost"), s)
  | ResponseLost => (Err (OtherStoreError "request lost"), (answer s op).2)
  | StaleList =>
      match op return StoreResp op * Objects with
      | ListDir _ => (Ok [], s)
      | op => answer s op
      end
  end.

(** All behaviours, DELETEs included. *)
Definition everything : Mode := {| with_faults := true; with_deletes := true |}.

Lemma treated_outcome md t s op :
  with_faults md = true →
  outcome md s op (treated_answer md t s op).1 (treated_answer md t s op).2.
Proof.
  intros Hf. unfold outcome, treated_answer. destruct (is_delete op && _); [eauto|]. destruct t.
  - left. apply answer_reply.
  - right. split; [done|]. left. eexists. split; [done|]. by left.
  - right. split; [done|]. left. eexists. split; [done|]. right. eexists. apply answer_reply.
  - left. destruct op; try apply (answer_reply s).
    split; [done|]. eexists. split; [done|]. by intros k ?%elem_of_nil.
Qed.

(** Run a client through a list of treatments, one per request. *)
Fixpoint script {A} (md : Mode) (i : nat) (p : prog A) (w : World) (ts : list treatment) : prog A * World :=
  match ts, p with
  | t :: ts', Call op k =>
      let '(r, s') := treated_answer md t (w_objs w) op in
      script md i (k r) {| w_objs := s'; w_owner := owner_after i op r (w_owner w) |} ts'
  | _, _ => (p, w)
  end.

Section Hazards.
Context `{!KeySpace} `{!JsonCodec Manifest manifest_typed}.
Context `{!JsonCodec ManifestPointer pointer_typed}.
Context `{!Bincode WalEntry entry_typed} `{!Bincode MemtableSnapshotFile snapshot_typed}.
Context `{!Bincode MemtableSnapshotBindingV2 binding_typed}.
Context (crc32 xxh3_64 : list byte → Z) (md : Mode) (Hmd : with_faults md = true).

Lemma script_steps i q (p : prog Response) w ts cl :
  rtc (sys_step crc32 xxh3_64 md) {| sys_world := w; sys_clients := <[i := (q, p)]> cl |}
    {| sys_world := (script md i p w ts).2; sys_clients := <[i := (q, (script md i p w ts).1)]> cl |}.
Proof.
  revert p w. induction ts as [|t ts IH]; intros p w; [by destruct p|].
  destruct p as [r| |op k]; [apply rtc_refl|apply rtc_refl|]. cbn [script].
  pose proof (treated_outcome md t (w_objs w) op Hmd) as Ho.
  destruct (treated_answer md t (w_objs w) op) as [r s']. eapply rtc_l; [|apply IH].
  rewrite <- (insert_insert_eq cl i (q, k r) (q, Call op k)).
  refine (sys_call crc32 xxh3_64 md {| sys_world := w; sys_clients := <[i := (q, Call op k)]> cl |}
    i q op k r {| w_objs := s'; w_owner := owner_after i op r (w_owner w) |} _ _).
  - simpl. by rewrite lookup_insert_eq.
  - done.
Qed.

(** Start request [i] if it is new, and run it through [ts]. *)
Definition play (S : System) (i : nat) (q : Request) (ts : list treatment) : System :=
  let '(q, p) := default (q, request_prog crc32 xxh3_64 q) (sys_clients S !! i) in
  let '(p', w') := script md i p (sys_world S) ts in
  {| sys_world := w'; sys_clients := <[i := (q, p')]> (sys_clients S) |}.

Lemma play_steps S i q ts :
  (sys_clients S !! i = None → may_start S q) →
  rtc (sys_step crc32 xxh3_64 md) S (play S i q ts).
Proof.
  intros Hq. unfold play. destruct (sys_clients S !! i) as [[q' p]|] eqn:Hi; simpl.
  - pose proof (script_steps i q' p (sys_world S) ts (sys_clients S)) as Hs.
    destruct (script md i p (sys_world S) ts) as [p' w']. rewrite (insert_id _ i _ Hi) in Hs.
    by destruct S.
  - pose proof (script_steps i q (request_prog crc32 xxh3_64 q) (sys_world S) ts (sys_clients S)) as Hs.
    destruct (script md i _ (sys_world S) ts) as [p' w'].
    eapply rtc_l; [by apply sys_start, Hq|]. done.
Qed.
End Hazards.

(** ** Two stall repairs *)

Definition hz_orphan : Manifest :=
  {| mf_version := 1; mf_epoch := 0; mf_writer_id := 9; mf_created_at := 150; mf_ssts := [];
     mf_wal_segments := [{| wd_seq := 1; wd_path := @wal_segment acme_keys 1; wd_last_lsn := 5;
                            wd_xxh3 := Some 42 |}];
     mf_label_dict := LabelDictionary_new; mf_catalog := [] |}.
Definition hz_claim_manifest (uuid : Z) : Manifest := with_epoch (next_version acme_m0 uuid 200) 1.

Definition st_m1 : Manifest := next_version acme_m0 8 150.
Definition st_m2 : Manifest := next_version st_m1 8 160.

(** No WAL entry and no checkpoint is written. *)
#[local] Instance hz_entries : Bincode WalEntry entry_typed := table_bincode entry_typed [].
#[local] Instance hz_snapshots : Bincode MemtableSnapshotFile snapshot_typed :=
  table_bincode snapshot_typed [].
#[local] Instance hz_bindings : Bincode MemtableSnapshotBindingV2 binding_typed :=
  table_bincode binding_typed [].

#[local] Instance hz_manifests : JsonCodec Manifest manifest_typed :=
  table_codec manifest_typed
    [acme_m0; hz_orphan; hz_claim_manifest 50; hz_claim_manifest 60; st_m1; st_m2].
#[local] Instance hz_pointers : JsonCodec ManifestPointer pointer_typed :=
  table_codec pointer_typed
    [pointer_to 0 acme_m0; pointer_to 1 (hz_claim_manifest 60); pointer_to 1 st_m1; pointer_to 2 st_m2].

Definition hz_bootstrap : Request := RBootstrap 7 100.
(** The first phase of a commit whose process stops before its WAL append. *)
Definition hz_put_body : Request :=
  RPutBody {| f_epoch := 0; f_writer_id := 9 |} (acme_loaded 0 acme_m0) hz_orphan.
Definition hz_claim (uuid : Z) : Request := RClaim 20 (λ _, uuid) (λ _, 200) None.

Definition answered (n : nat) : list treatment := replicate n Answered.

Definition hz_S1 : System := play acme_sum acme_sum everything initial 0 hz_bootstrap (answered 10).
Definition hz_S2 : System := play acme_sum acme_sum everything hz_S1 1 hz_put_body (answered 10).
(** The first claim judges the orphan unpublishable and is about to delete it. *)
Definition hz_S3 : System := play acme_sum acme_sum everything hz_S2 2 (hz_claim 50) (answered 94).
(** The second claim repairs too, deletes the orphan, and publishes version 1. *)
Definition hz_S4 : System := play acme_sum acme_sum everything hz_S3 3 (hz_claim 60) (answered 200).
(** The delayed DELETE of the first claim arrives. *)
Definition hz_S5 : System := play acme_sum acme_sum everything hz_S4 2 (hz_claim 50) (answered 1).

Definition hz_winner : LoadedManifest := acme_loaded 1 (hz_claim_manifest 60).

Lemma hz_finished_0 : finished hz_S1 0 hz_bootstrap (PLoaded (acme_loaded 0 acme_m0)).
Proof. vm_compute. reflexivity. Qed.

Lemma hz_reachable : reachable acme_sum acme_sum everything hz_S5.
Proof.
  unfold reachable. trans hz_S1; [by apply play_steps|].
  trans hz_S2.
  { apply play_steps; [done|]. intros _. split; [|by vm_compute]. exists 0%nat. do 2 eexists.
    split; [apply hz_finished_0|done]. }
  trans hz_S3; [by apply play_steps|]. trans hz_S4; [by apply play_steps|]. by apply play_steps.
Qed.

(** C28: concurrent stall repairs can lose a published manifest: with DELETEs taking
    effect, there is an execution in which a claim has returned success for version
    1, its pointer is durable, but its body is gone, so that every later load of the
    namespace fails with NotFound. *)
Theorem concurrent_repairs_lose_published_body :
  ∃ S fence, reachable acme_sum acme_sum everything S ∧
    finished S 3 (hz_claim 60) (PClaimed hz_winner fence) ∧
    is_Some (w_objs (sys_world S) !! pointer_version 1) ∧
    w_objs (sys_world S) !! manifest_version 1 = None ∧
    (run load_current (w_objs (sys_world S))).1 = Some (Err (ObjectStore NotFound)).
Proof.
  exists hz_S5, {| f_epoch := 1; f_writer_id := 60 |}.
  split; [exact hz_reachable|]. split; [vm_compute; reflexivity|].
  split; [vm_compute; by eexists|]. split; vm_compute; reflexivity.
Qed.

(** ** A stale advisory *)

Definition st_base : LoadedManifest := acme_loaded 0 acme_m0.
Definition st_fence : WriterFence := {| f_epoch := 0; f_writer_id := 8 |}.

Definition st_commit1 : Request := RCommit st_fence st_base st_m1.
Definition st_commit2 : Request := RCommit st_fence (acme_loaded 1 st_m1) st_m2.

Definition st_S1 : System := play acme_sum acme_sum faulty initial 0 hz_bootstrap (answered 10).
(** The first commit publishes version 1 and stops before its advisory PUT. *)
Definition st_S2 : System := play acme_sum acme_sum faulty st_S1 1 st_commit1 (answered 2).
Definition st_S3 : System := play acme_sum acme_sum faulty st_S2 2 RLoad (answered 20).
(** A second commit publishes version 2; then the first advisory PUT arrives. *)
Definition st_S4 : System := play acme_sum acme_sum faulty st_S3 3 st_commit2 (answered 10).
Definition st_S5 : System := play acme_sum acme_sum faulty st_S4 1 st_commit1 (answered 1).
(** A load whose LIST lags and whose two HEAD requests are lost. *)
Definition st_S6 : System :=
  play acme_sum acme_sum faulty st_S5 4 RLoad [StaleList; Lost; Answered; Lost; Answered; Answered].

Lemma st_finished_0 : finished st_S1 0 hz_bootstrap (PLoaded st_base).
Proof. vm_compute. reflexivity. Qed.
Lemma st_finished_2 : finished st_S3 2 RLoad (PLoaded (acme_loaded 1 st_m1)).
Proof. vm_compute. reflexivity. Qed.

Lemma st_reachable : reachable acme_sum acme_sum faulty st_S6.
Proof.
  unfold reachable. trans st_S1; [by apply play_steps|].
  trans st_S2.
  { apply play_steps; [done|]. intros _. split; [|by vm_compute]. exists 0%nat. do 2 eexists.
    split; [apply st_finished_0|done]. }
  trans st_S3; [by apply play_steps|].
  trans st_S4.
  { apply play_steps; [done|]. intros _. split; [|by vm_compute]. exists 2%nat. do 2 eexists.
    split; [apply st_finished_2|done]. }
  trans st_S5; [|by apply play_steps]. apply play_steps; [done|]. intros Hn. by vm_compute in Hn.
Qed.

(** A load can return an old version when HEAD requests fail: with version 2
    published before it starts, a load whose listing lags and whose HEAD requests
    are lost trusts the advisory pointer as it is and returns version 1, without
    error. *)
Theorem load_may_be_stale_under_faults :
  ∃ S m, reachable acme_sum acme_sum faulty S ∧
    published (w_objs (sys_world S)) 2 m ∧
    finished S 4 RLoad (PLoaded (acme_loaded 1 st_m1)).
Proof.
  exists st_S6, st_m2. split; [exact st_reachable|]. split; [solve_published|].
  vm_compute. reflexivity.
Qed.

(** A commit the resolver undoes after it was published.

    [resolve_failed_pointer_cas] re-reads the manifest to decide whether a pointer
    create whose response was lost has landed. The re-read can be stale
    (as above), and then the clean-up of supposed orphans removes the body
    and the WAL segment of a version that is published. *)

#[local] Existing Instance live_entries.
#[local] Existing Instance live_manifests.
#[local] Existing Instance live_pointers.
#[local] Existing Instance live_snapshots.
#[local] Existing Instance live_bindings.

Definition undo_S1 : System := play sum32 sum32 everything initial 0 live_open (answered 30).
(** The pointer create executes, its response is lost; the re-read sees an empty
    listing, loses its HEAD requests and falls back to the advisory pointer. *)
Definition undo_S2 : System :=
  play sum32 sum32 everything undo_S1 1 live_commit
    [Answered; Answered; ResponseLost; StaleList; Lost; Answered; Lost; Answered; Answered;
     Answered; Answered].

Lemma undo_finished_0 : finished undo_S1 0 live_open (PSession live_ses0).
Proof. vm_compute. reflexivity. Qed.

Lemma undo_reachable : reachable sum32 sum32 everything undo_S2.
Proof.
  unfold reachable. trans undo_S1; [by apply play_steps|]. apply play_steps; [done|]. intros _.
  exists 0%nat, live_open, (PSession live_ses0). split; [apply undo_finished_0|reflexivity].
Qed.

