(* ===== verification/Float.v ===== *)
(** IEEE 754 floating point, as Rust's [f64] and [f32].

    A float is a [spec_float] of the standard library: sign, mantissa and
    exponent, without NaN payloads (all NaNs are one value). Arithmetic rounds to
    nearest, ties to even, at 53 bits ([f64]) or 24 bits ([f32]). *)
From Stdlib Require Import SpecFloat.
From S2P Require Import Prelude.

Abbreviation f64 := spec_float (only parsing).
Abbreviation f32 := spec_float (only parsing).

Definition f64_add : f64 → f64 → f64 := SFadd 53 1024.
Definition f64_sub : f64 → f64 → f64 := SFsub 53 1024.
Definition f64_mul : f64 → f64 → f64 := SFmul 53 1024.
Definition f64_div : f64 → f64 → f64 := SFdiv 53 1024.
Definition f64_sqrt : f64 → f64 := SFsqrt 53 1024.
Definition f32_mul : f32 → f32 → f32 := SFmul 24 128.

(** [n as f64], [n as f32] for an integer; [x as f32], [x as f64] for a float. *)
Definition f64_of_int (n : Z) : f64 := binary_normalize 53 1024 n 0 false.
Definition f32_of_int (n : Z) : f32 := binary_normalize 24 128 n 0 false.
Definition f_cast (prec emax : Z) (x : spec_float) : spec_float :=
  match x with
  | S754_finite s m e => binary_normalize prec emax (cond_Zopp s (Zpos m)) e s
  | _ => x
  end.
Definition f64_as_f32 : f64 → f32 := f_cast 24 128.
Definition f32_as_f64 : f32 → f64 := f_cast 53 1024.

Definition i64_min : Z := - 2 ^ 63.
Definition i64_max : Z := 2 ^ 63 - 1.

(** [x as i64]: truncation, saturating; NaN is zero. *)
Definition f64_as_i64 (x : f64) : Z :=
  match x with
  | S754_nan | S754_zero _ => 0
  | S754_infinity s => if s then i64_min else i64_max
  | S754_finite s m e =>
      let magnitude := if 0 <=? e then Zpos m * 2 ^ e else Zpos m / 2 ^ (- e) in
      Z.max i64_min (Z.min i64_max (cond_Zopp s magnitude))
  end.

(** [x as usize] *)
Definition f64_as_usize (x : f64) : Z :=
  match x with
  | S754_nan | S754_zero _ => 0
  | S754_infinity s => if s then 0 else 2 ^ 64 - 1
  | S754_finite s m e =>
      let magnitude := if 0 <=? e then Zpos m * 2 ^ e else Zpos m / 2 ^ (- e) in
      Z.max 0 (Z.min (2 ^ 64 - 1) (cond_Zopp s magnitude))
  end.

(** [f64::floor], [ceil], [round] (half away from zero): the integer keeps the
    sign of its argument when it is zero. *)
Definition f64_to_integral (pick : bool → Z → Z → Z) (x : f64) : f64 :=
  match x with
  | S754_finite s m e =>
      if 0 <=? e then x
      else binary_normalize 53 1024 (cond_Zopp s (pick s (Zpos m) (2 ^ (- e)))) 0 s
  | _ => x
  end.
Definition f64_floor : f64 → f64 :=
  f64_to_integral (λ s m d, if s then - (- m / d) else m / d).
Definition f64_ceil : f64 → f64 :=
  f64_to_integral (λ s m d, if s then m / d else - (- m / d)).
Definition f64_round : f64 → f64 := f64_to_integral (λ _ m d, (2 * m + d) / (2 * d)).

(** [x % y]: the exact remainder of the truncated quotient, with the sign of [x]. *)
Definition f64_rem (x y : f64) : f64 :=
  match x, y with
  | S754_nan, _ | _, S754_nan | S754_infinity _, _ | _, S754_zero _ => S754_nan
  | _, S754_infinity _ => x
  | S754_zero _, _ => x
  | S754_finite sx mx ex, S754_finite _ my ey =>
      let e := Z.min ex ey in
      let r := (Zpos mx * 2 ^ (ex - e)) mod (Zpos my * 2 ^ (ey - e)) in
      binary_normalize 53 1024 (cond_Zopp sx r) e sx
  end.

(** [x == y], [x.partial_cmp(&y)], [x == 0.0], [x > 0.0], [x < 0.0] *)
Definition f64_eqb : f64 → f64 → bool := SFeqb.
Definition f64_partial_cmp : f64 → f64 → option comparison := SFcompare.
Definition f64_zero : f64 := S754_zero false.
Definition f64_is_zero (x : f64) : bool := f64_eqb x f64_zero.

(** ** Bit patterns *)

Definition sign_bit (w : Z) (s : bool) : Z := if s then 2 ^ (w - 1) else 0.

(** [x.to_bits()] at precision [prec] and exponent range [emax]. *)
Definition to_bits (w prec emax : Z) (x : spec_float) : Z :=
  let unit := 2 ^ (prec - 1) in
  match x with
  | S754_zero s => sign_bit w s
  | S754_infinity s => sign_bit w s + (2 * emax - 1) * unit
  | S754_nan => (2 * emax - 1) * unit + unit / 2
  | S754_finite s m e =>
      sign_bit w s
      + (if Zpos m <? unit then Zpos m
         else (e - emin prec emax + 1) * unit + (Zpos m - unit))
  end.
Definition f64_to_bits : f64 → Z := to_bits 64 53 1024.
Definition f32_to_bits : f32 → Z := to_bits 32 24 128.

Definition valid_f64 (x : f64) : bool := valid_binary 53 1024 x.
Definition valid_f32 (x : f32) : bool := valid_binary 24 128 x.

(** ** Facts *)

Lemma digits2_pos_spec m : 2 ^ (Zpos (digits2_pos m) - 1) ≤ Zpos m < 2 ^ Zpos (digits2_pos m).
Proof.
  induction m as [m IH|m IH|]; cbn [digits2_pos]; [..|done].
  all: rewrite Pos2Z.inj_succ in *; rewrite Z.pow_succ_r by lia.
  all: replace (Z.succ (Z.pos (digits2_pos m)) - 1) with (Z.succ (Z.pos (digits2_pos m) - 1)) by lia.
  all: rewrite Z.pow_succ_r by lia; lia.
Qed.

(** Equality of floats: NaN differs from everything, the two zeros are equal. *)
Lemma f64_eqb_spec x y :
  f64_eqb x y = true ↔
  x ≠ S754_nan ∧ (x = y ∨ ∃ s s', x = S754_zero s ∧ y = S754_zero s').
Proof.
  assert (Hfin : ∀ s m e s' m' e', f64_eqb (S754_finite s m e) (S754_finite s' m' e') = true →
                   s = s' ∧ m = m' ∧ e = e').
  { intros s m e s' m' e'. unfold f64_eqb, SFeqb. cbn [SFcompare].
    change (Pos.compare_cont Eq m m') with (Pos.compare m m').
    destruct s, s'; try discriminate.
    all: destruct (Z.compare_spec e e') as [->| |]; try discriminate.
    all: destruct (Pos.compare_spec m m') as [->| |]; done. }
  assert (Hrefl : ∀ s m e, f64_eqb (S754_finite s m e) (S754_finite s m e) = true).
  { intros s m e. unfold f64_eqb, SFeqb. cbn [SFcompare].
    change (Pos.compare_cont Eq m m) with (Pos.compare m m).
    rewrite Z.compare_refl, Pos.compare_refl. by destruct s. }
  destruct x as [s|s| |s m e], y as [s'|s'| |s' m' e'].
  16: { split.
        - intros (-> & -> & ->)%Hfin. split; [discriminate|by left].
        - intros [_ [[= -> -> ->]|(? & ? & [=] & _)]]. apply Hrefl. }
  all: unfold f64_eqb, SFeqb; cbn [SFcompare]; split; [|intros [? [?|(? & ? & ? & ?)]]].
  all: try destruct s; try destruct s'; try discriminate; try done.
  all: intros _; split; [discriminate|]; eauto.
Qed.

Section bits.
Variables w prec emax unit : Z.
Hypothesis Hprec : 1 < prec < emax.
Hypothesis Hunit : unit = 2 ^ (prec - 1).
Hypothesis Hw : 2 ^ (w - 1) = 2 * emax * unit.

Lemma bounded_cases m e :
  bounded prec emax m e = true →
  (Zpos m < unit ∧ e = emin prec emax) ∨
  (unit ≤ Zpos m < 2 * unit ∧ emin prec emax ≤ e ≤ emax - prec).
Proof.
  unfold bounded, canonical_mantissa, fexp. cbn [Zdigits2].
  rewrite andb_true_iff, Z.leb_le. intros [Hc ?]. apply Z.eqb_eq in Hc.
  pose proof (digits2_pos_spec m) as [Hlo Hhi]. set (d := Z.pos (digits2_pos m)) in *.
  assert (Hu : 2 * unit = 2 ^ prec).
  { rewrite Hunit, <- Z.pow_succ_r by lia. f_equal. lia. }
  destruct (decide (d = prec)) as [Hd|].
  - right. rewrite Hd in *. rewrite <- Hunit in Hlo. lia.
  - left. assert (d ≤ prec - 1) by lia.
    pose proof (Z.pow_le_mono_r 2 d (prec - 1)). lia.
Qed.

(** The exponent and mantissa fields of a finite float. *)
Definition fields (m : positive) (e : Z) : Z :=
  if Zpos m <? unit then Zpos m else (e - emin prec emax + 1) * unit + (Zpos m - unit).

Lemma fields_range m e : bounded prec emax m e = true → 0 < fields m e < (2 * emax - 1) * unit.
Proof.
  intros [[? ->]|[??]]%bounded_cases; unfold fields; [rewrite (proj2 (Z.ltb_lt _ _)) by lia; nia|].
  rewrite (proj2 (Z.ltb_ge _ _)) by lia. unfold emin in *. nia.
Qed.

Lemma fields_inj m e m' e' :
  bounded prec emax m e = true → bounded prec emax m' e' = true →
  fields m e = fields m' e' → m = m' ∧ e = e'.
Proof.
  intros Hb Hb'. pose proof (bounded_cases _ _ Hb). pose proof (bounded_cases _ _ Hb').
  unfold fields. destruct (Z.ltb_spec (Zpos m) unit), (Z.ltb_spec (Zpos m') unit); intros Heq.
  - split; [congruence|lia].
  - nia.
  - nia.
  - assert (e = e') as -> by nia. split; [|done]. assert (Zpos m = Zpos m') by nia. congruence.
Qed.

Lemma unit_bounds : 2 ≤ unit ∧ 0 < unit / 2 < unit.
Proof.
  assert (2 ≤ unit).
  { rewrite Hunit. change 2 with (2 ^ 1) at 1. apply Z.pow_le_mono_r; lia. }
  pose proof (Z.div_mod unit 2). pose proof (Z.mod_pos_bound unit 2). lia.
Qed.

Lemma to_bits_inj x y :
  valid_binary prec emax x = true → valid_binary prec emax y = true →
  to_bits w prec emax x = to_bits w prec emax y → x = y.
Proof.
  intros Hx Hy.
  pose proof unit_bounds as [??].
  destruct x as [s|s| |s m e], y as [s'|s'| |s' m' e']; unfold to_bits, sign_bit; rewrite <- ?Hunit, ?Hw;
    cbn [valid_binary] in *; try fold (fields m e); try fold (fields m' e').
  all: try (pose proof (fields_range _ _ Hx)); try (pose proof (fields_range _ _ Hy)).
  all: try destruct s; try destruct s'; intros Heq; try done; try nia.
  all: destruct (fields_inj m e m' e' Hx Hy) as [-> ->]; [lia|done].
Qed.

Lemma to_bits_range x :
  valid_binary prec emax x = true → 0 ≤ to_bits w prec emax x < 2 * 2 ^ (w - 1).
Proof.
  intros Hx. pose proof unit_bounds as [??].
  destruct x as [s|s| |s m e]; unfold to_bits, sign_bit; rewrite <- ?Hunit, ?Hw;
    cbn [valid_binary] in *; try fold (fields m e).
  all: try (pose proof (fields_range _ _ Hx)); try destruct s; nia.
Qed.
End bits.

Lemma f64_to_bits_inj x y :
  valid_f64 x = true → valid_f64 y = true → f64_to_bits x = f64_to_bits y → x = y.
Proof. by apply to_bits_inj with (unit := 2 ^ 52). Qed.
Lemma f32_to_bits_inj x y :
  valid_f32 x = true → valid_f32 y = true → f32_to_bits x = f32_to_bits y → x = y.
Proof. by apply to_bits_inj with (unit := 2 ^ 23). Qed.
Lemma f64_to_bits_range x : valid_f64 x = true → is_u64 (f64_to_bits x).
Proof. by apply to_bits_range with (unit := 2 ^ 52). Qed.
Lemma f32_to_bits_range x : valid_f32 x = true → is_u32 (f32_to_bits x).
Proof. by apply to_bits_range with (unit := 2 ^ 23). Qed.
