(* ===== verification/Ast.v ===== *)
(** Cypher expressions ([parser/ast.rs], [parser/error.rs]) and the conjunction
    helpers of the optimizer ([optimize/mod.rs]).

    Boxes are transparent; [PropertyAccess], [ListComprehension], [Quantifier],
    [Reduce], [MapLiteral] and [PatternComprehension] are inlined as the fields of
    their [ExpressionKind]. *)
From Stdlib Require Import Ascii SpecFloat.
From S2P Require Import Prelude Float.

Record SourceSpan := { sp_start : Z; sp_end : Z }.
Record Identifier := { id_name : string; id_span : SourceSpan; id_quoted : bool }.
Record QualifiedName := { qn_segments : list Identifier; qn_span : SourceSpan }.

(** [QualifiedName::joined] *)
Definition joined (n : QualifiedName) : string :=
  String.concat "." (map id_name (qn_segments n)).

Inductive Literal :=
| LInteger (n : Z)
| LFloat (f : f64)
| LString (s : string)
| LBoolean (b : bool)
| LNull.

Inductive UnaryOp := Neg | Not.
Inductive BinaryOp :=
| Add | Sub | Mul | Div | Mod | Pow | And | Or | Xor | Eq_ | Ne | Lt_ | Gt_ | Le | Ge | RegexMatch.
Inductive StringOp := StartsWith | EndsWith | Contains.
Inductive QuantifierKind := QAll | QAny | QNone | QSingle.
Inductive ShortestPathMode := SPFirst | SPAll.
Inductive RelationshipDirection := DRight | DLeft | DBoth.
Inductive OrderDirection := Asc | Desc.
Record RelationshipLength := {
  rl_min : Z; rl_max : Z; rl_min_param : option string; rl_max_param : option string }.

Inductive Expression := mkExpression (kind : ExpressionKind) (span : SourceSpan)
with ExpressionKind :=
| ELiteral (l : Literal)
| EVariable (id : Identifier)
| EParameter (name : string)
| EProperty (target : Expression) (key : Identifier) (span : SourceSpan)
| EIndex (target index : Expression)
| ERange (target : Expression) (from to : option Expression)
| EUnary (op : UnaryOp) (expr : Expression)
| EBinary (op : BinaryOp) (left right : Expression)
| EIn (item list : Expression)
| EStringTest (op : StringOp) (target pattern : Expression)
| EIsNull (expr : Expression) (negated : bool)
| EFunctionCall (name : QualifiedName) (args : list Expression) (distinct : bool)
| ECase (scrutinee : option Expression) (branches : list CaseBranch) (otherwise : option Expression)
| EExists (pattern : PatternElement)
| EExistsSubquery (clause : MatchClause)
| EList (items : list Expression)
| EMap (entries : list (Identifier * Expression)) (span : SourceSpan)
| EListComprehension (variable : Identifier) (list : Expression)
    (predicate projection : option Expression) (span : SourceSpan)
| EPatternComprehension (binding : option Identifier) (pattern : PatternElement)
    (predicate : option Expression) (projection : Expression) (span : SourceSpan)
| EQuantifier (kind : QuantifierKind) (variable : Identifier) (list predicate : Expression)
    (span : SourceSpan)
| EReduce (accumulator : Identifier) (init : Expression) (variable : Identifier)
    (list expression : Expression) (span : SourceSpan)
| EStar
with CaseBranch := mkCaseBranch (when_ then_ : Expression) (span : SourceSpan)
with PatternElement :=
  mkPatternElement (head : NodePattern) (chain : list (RelationshipPattern * NodePattern))
    (span : SourceSpan)
with NodePattern :=
  mkNodePattern (binding : option Identifier) (labels : list Identifier) (label_disjunction : bool)
    (properties : option PatternProperties) (span : SourceSpan)
with RelationshipPattern :=
  mkRelationshipPattern (direction : RelationshipDirection) (binding : option Identifier)
    (types : list Identifier) (length : option RelationshipLength)
    (properties : option PatternProperties) (span : SourceSpan)
with PatternProperties :=
| PLiteral (entries : list (Identifier * Expression)) (span : SourceSpan)
| PParameter (name : string) (span : SourceSpan)
with PatternPart :=
  mkPatternPart (binding : option Identifier) (element : PatternElement) (span : SourceSpan)
    (shortest_path : option ShortestPathMode)
with MatchClause :=
  mkMatchClause (optional : bool) (patterns : list PatternPart) (where_ : option Expression)
    (span : SourceSpan).

Definition expr_kind (e : Expression) : ExpressionKind := let 'mkExpression kind _ := e in kind.
Definition expr_span (e : Expression) : SourceSpan := let 'mkExpression _ span := e in span.

(** ** Conjunctions *)

(** [split_and_terms], as the inner [walk] with its output vector. *)
Fixpoint split_and_walk (e : Expression) (out : list Expression) : list Expression :=
  match e with
  | mkExpression (EBinary And l r) _ => split_and_walk r (split_and_walk l out)
  | _ => out ++ [e]
  end.
Definition split_and_terms (e : Expression) : list Expression := split_and_walk e [].

Definition and_pair (acc next : Expression) : Expression :=
  mkExpression (EBinary And acc next)
    {| sp_start := sp_start (expr_span acc); sp_end := sp_end (expr_span next) |}.
Definition and_chain (terms : list Expression) : option Expression :=
  match terms with
  | [] => None
  | first :: rest => Some (foldl and_pair first rest)
  end.

(** ** ASCII case *)

(** [char::to_ascii_lowercase] *)
Definition ascii_lower (c : ascii) : ascii :=
  let v := nat_of_ascii c in
  if ((65 <=? v) && (v <=? 90))%nat then ascii_of_nat (v + 32) else c.
Fixpoint to_ascii_lowercase (s : string) : string :=
  match s with EmptyString => "" | String c rest => String (ascii_lower c) (to_ascii_lowercase rest) end.
Definition eq_ignore_ascii_case (a b : string) : bool :=
  String.eqb (to_ascii_lowercase a) (to_ascii_lowercase b).

(** [is_synthetic_label_eq] *)
Definition is_synthetic_label_eq (predicate : Expression) (alias label : string) : bool :=
  match expr_kind predicate with
  | EFunctionCall name args _ =>
      match head (qn_segments name), args with
      | Some seg, [a0; a1] =>
          eq_ignore_ascii_case (id_name seg) "__label_eq"
          && (match expr_kind a0 with EVariable id => String.eqb (id_name id) alias | _ => false end)
          && (match expr_kind a1 with ELiteral (LString s) => String.eqb s label | _ => false end)
      | _, _ => false
      end
  | _ => false
  end.
(** ** Induction on the expressions [evaluate] visits *)

Definition opt_list {A} (o : option A) : list A := match o with Some a => [a] | None => [] end.

Definition branch_exprs (b : CaseBranch) : list Expression :=
  let 'mkCaseBranch w t _ := b in [w; t].

(** The expressions evaluated as part of an expression. *)
Definition children (kind : ExpressionKind) : list Expression :=
  match kind with
  | EProperty e _ _ | EUnary _ e | EIsNull e _ => [e]
  | EIndex a b | EBinary _ a b | EIn a b | EStringTest _ a b => [a; b]
  | EQuantifier _ _ a b _ => [a; b]
  | ERange a from to => a :: opt_list from ++ opt_list to
  | EFunctionCall _ es _ | EList es => es
  | ECase s bs o => opt_list s ++ concat (map branch_exprs bs) ++ opt_list o
  | EMap kvs _ => map snd kvs
  | EListComprehension _ l p q _ => l :: opt_list p ++ opt_list q
  | EReduce _ i _ l b _ => [i; l; b]
  | ELiteral _ | EVariable _ | EParameter _ | EExists _ | EExistsSubquery _
  | EPatternComprehension _ _ _ _ _ | EStar => []
  end.

Section ind.
Variable P : Expression → Prop.
Hypothesis step : ∀ kind span, Forall P (children kind) → P (mkExpression kind span).

Fixpoint Expression_nested_ind (e : Expression) : P e.
Proof.
  pose (all := fix all (l : list Expression) : Forall P l :=
    match l with
    | [] => Forall_nil_2 _
    | x :: l => Forall_cons_2 _ _ _ (Expression_nested_ind x) (all l)
    end).
  pose (entries := fix entries (m : list (Identifier * Expression)) : Forall P (map snd m) :=
    match m with
    | [] => Forall_nil_2 _
    | (_, x) :: m => Forall_cons_2 _ _ _ (Expression_nested_ind x) (entries m)
    end).
  pose (opt := λ o : option Expression,
    match o return Forall P (opt_list o) with
    | Some x => Forall_cons_2 _ _ _ (Expression_nested_ind x) (Forall_nil_2 _)
    | None => Forall_nil_2 _
    end).
  pose (branches := fix branches (bs : list CaseBranch) : Forall P (concat (map branch_exprs bs)) :=
    match bs with
    | [] => Forall_nil_2 _
    | mkCaseBranch w t _ :: bs =>
        Forall_cons_2 _ _ _ (Expression_nested_ind w)
          (Forall_cons_2 _ _ _ (Expression_nested_ind t) (branches bs))
    end).
  destruct e as [kind span]; apply step; destruct kind; cbn [children].
  all: first
    [ apply Forall_nil_2
    | exact (Forall_app_2 _ _ _ (opt _) (Forall_app_2 _ _ _ (branches _) (opt _)))
    | exact (Forall_cons_2 _ _ _ (Expression_nested_ind _) (Forall_app_2 _ _ _ (opt _) (opt _)))
    | exact (Forall_cons_2 _ _ _ (Expression_nested_ind _) (Forall_nil_2 _))
    | exact (Forall_cons_2 _ _ _ (Expression_nested_ind _)
               (Forall_cons_2 _ _ _ (Expression_nested_ind _) (Forall_nil_2 _)))
    | exact (Forall_cons_2 _ _ _ (Expression_nested_ind _)
               (Forall_cons_2 _ _ _ (Expression_nested_ind _)
                  (Forall_cons_2 _ _ _ (Expression_nested_ind _) (Forall_nil_2 _))))
    | exact (entries _)
    | exact (all _) ].
Defined.
End ind.

(** Some node [evaluate] may visit satisfies [p]. *)
Fixpoint exists_node (p : ExpressionKind → bool) (e : Expression) : bool :=
  let any := fix any (es : list Expression) : bool :=
    match es with [] => false | x :: es => exists_node p x || any es end in
  let opt (o : option Expression) : bool :=
    match o with Some x => exists_node p x | None => false end in
  let 'mkExpression kind _ := e in
  p kind ||
  match kind with
  | EProperty x _ _ | EUnary _ x | EIsNull x _ => exists_node p x
  | EIndex a b | EBinary _ a b | EIn a b | EStringTest _ a b => exists_node p a || exists_node p b
  | EQuantifier _ _ a b _ => exists_node p a || exists_node p b
  | ERange a from to => exists_node p a || opt from || opt to
  | EFunctionCall _ es _ | EList es => any es
  | ECase s bs o =>
      opt s || (fix go (bs : list CaseBranch) : bool :=
                  match bs with
                  | [] => false
                  | mkCaseBranch w t _ :: bs => exists_node p w || exists_node p t || go bs
                  end) bs || opt o
  | EMap kvs _ =>
      (fix go (kvs : list (Identifier * Expression)) : bool :=
         match kvs with [] => false | (_, x) :: kvs => exists_node p x || go kvs end) kvs
  | EListComprehension _ l p' q _ => exists_node p l || opt p' || opt q
  | EReduce _ i _ l b _ => exists_node p i || exists_node p l || exists_node p b
  | ELiteral _ | EVariable _ | EParameter _ | EExists _ | EExistsSubquery _
  | EPatternComprehension _ _ _ _ _ | EStar => false
  end.

Lemma exists_node_here p kind span : p kind = true → exists_node p (mkExpression kind span) = true.
Proof. intros Hp. cbn [exists_node]. by rewrite Hp. Qed.

Lemma exists_node_child p kind span x :
  x ∈ children kind → exists_node p x = true → exists_node p (mkExpression kind span) = true.
Proof.
  intros Hin Hx. cbn [exists_node]. apply orb_true_iff. right.
  destruct kind; cbn [children] in Hin.
  all: rewrite ?elem_of_app, ?elem_of_cons, ?elem_of_nil in Hin.
  all: try (destruct_or?; simplify_eq; rewrite Hx, ?orb_true_r; done).
  - destruct from, to; cbn [opt_list] in Hin; set_unfold; destruct_or?; simplify_eq;
      rewrite ?Hx, ?orb_true_r; done.
  - induction args as [|y l IH]; [by apply elem_of_nil in Hin|].
    apply elem_of_cons in Hin as [->|?]; [by rewrite Hx|rewrite IH by done; apply orb_true_r].
  - destruct Hin as [Hs|[Hb|Ho]].
    + destruct scrutinee; cbn [opt_list] in Hs; [|by apply elem_of_nil in Hs].
      apply list_elem_of_singleton in Hs as ->. by rewrite Hx.
    + apply orb_true_iff. left. apply orb_true_iff. right.
      induction branches as [|[w t s] bs IH]; cbn [map concat] in Hb; [by apply elem_of_nil in Hb|].
      apply elem_of_app in Hb as [Hb|Hb]; [|rewrite IH by done; apply orb_true_r].
      cbn [branch_exprs] in Hb. set_unfold. destruct_or?; simplify_eq; by rewrite Hx, ?orb_true_r.
    + destruct otherwise; cbn [opt_list] in Ho; [|by apply elem_of_nil in Ho].
      apply list_elem_of_singleton in Ho as ->. by rewrite Hx, orb_true_r.
  - induction items as [|y l IH]; [by apply elem_of_nil in Hin|].
    apply elem_of_cons in Hin as [->|?]; [by rewrite Hx|rewrite IH by done; apply orb_true_r].
  - induction entries as [|[k y] l IH]; cbn [map snd] in Hin; [by apply elem_of_nil in Hin|].
    apply elem_of_cons in Hin as [->|?]; [by rewrite Hx|rewrite IH by done; apply orb_true_r].
  - destruct predicate, projection; cbn [opt_list] in Hin; set_unfold; destruct_or?; simplify_eq;
      rewrite ?Hx, ?orb_true_r; done.
Qed.
