(* ===== verification/RuntimeValue.v ===== *)
(** Runtime values and rows of the query executor ([exec/value.rs],
    [exec/row.rs]).

    A [String] is its UTF-8 bytes. A [BTreeMap<String, V>] is its list of entries
    in key order; [btree_insert] and [btree_get] are the operations the executor
    uses. A [NodeId] is its 128-bit UUID. *)
From Stdlib Require Import SpecFloat.
From S2P Require Import Prelude Float.

(** ** Ordered maps *)

Abbreviation btree V := (list (string * V)) (only parsing).

(** [BTreeMap::insert] *)
Fixpoint btree_insert {V} (k : string) (v : V) (m : btree V) : btree V :=
  match m with
  | [] => [(k, v)]
  | (k', v') :: rest =>
      match String.compare k k' with
      | Lt => (k, v) :: m
      | Eq => (k, v) :: rest
      | Gt => (k', v') :: btree_insert k v rest
      end
  end.

(** [BTreeMap::get] *)
Fixpoint btree_get {V} (k : string) (m : btree V) : option V :=
  match m with
  | [] => None
  | (k', v') :: rest => if String.eqb k k' then Some v' else btree_get k rest
  end.

(** Keys strictly ascending: the representation invariant. *)
Fixpoint keys_sorted {V} (m : btree V) : bool :=
  match m with
  | [] => true
  | (k, _) :: rest =>
      match rest with
      | [] => true
      | (k', _) :: _ => match String.compare k k' with Lt => keys_sorted rest | _ => false end
      end
  end.

(** ** Values *)

Abbreviation NodeId := Z (only parsing).

(** [NodeValue] and [RelValue] are inlined as the fields of their variants. *)
Inductive RuntimeValue :=
| RNull
| RBool (b : bool)
| RInteger (n : Z)
| RFloat (f : f64)
| RString (s : string)
| RList (items : list RuntimeValue)
| RMap (m : list (string * RuntimeValue))
| RNode (id : NodeId) (labels : list string) (properties : list (string * RuntimeValue))
| RRel (edge_type : string) (src dst : NodeId) (properties : list (string * RuntimeValue))
| RDate (days : Z)
| RDateTime (micros : Z)
| RBytes (b : list byte)
| RVector (v : list f32)
| RVector8 (codes : list Z) (scale : f32)
| RPath (items : list RuntimeValue).

(** Induction through the nested lists and maps. *)
Section ind.
Variable P : RuntimeValue → Prop.
Hypothesis Hnull : P RNull.
Hypothesis Hbool : ∀ b, P (RBool b).
Hypothesis Hint : ∀ n, P (RInteger n).
Hypothesis Hfloat : ∀ f, P (RFloat f).
Hypothesis Hstring : ∀ s, P (RString s).
Hypothesis Hlist : ∀ items, Forall P items → P (RList items).
Hypothesis Hmap : ∀ m, Forall (λ kv, P kv.2) m → P (RMap m).
Hypothesis Hnode : ∀ id labels m, Forall (λ kv, P kv.2) m → P (RNode id labels m).
Hypothesis Hrel : ∀ t a b m, Forall (λ kv, P kv.2) m → P (RRel t a b m).
Hypothesis Hdate : ∀ d, P (RDate d).
Hypothesis Hdatetime : ∀ d, P (RDateTime d).
Hypothesis Hbytes : ∀ b, P (RBytes b).
Hypothesis Hvector : ∀ v, P (RVector v).
Hypothesis Hvector8 : ∀ c s, P (RVector8 c s).
Hypothesis Hpath : ∀ items, Forall P items → P (RPath items).

Fixpoint RuntimeValue_nested_ind (v : RuntimeValue) : P v :=
  let all := fix all (l : list RuntimeValue) : Forall P l :=
    match l with
    | [] => Forall_nil_2 _
    | x :: l => Forall_cons_2 _ _ _ (RuntimeValue_nested_ind x) (all l)
    end in
  let entries := fix entries (m : list (string * RuntimeValue)) : Forall (λ kv, P kv.2) m :=
    match m with
    | [] => Forall_nil_2 _
    | kv :: m => Forall_cons_2 (λ kv, P kv.2) kv _ (RuntimeValue_nested_ind kv.2) (entries m)
    end in
  match v with
  | RNull => Hnull
  | RBool b => Hbool b
  | RInteger n => Hint n
  | RFloat f => Hfloat f
  | RString s => Hstring s
  | RList items => Hlist items (all items)
  | RMap m => Hmap m (entries m)
  | RNode id labels m => Hnode id labels m (entries m)
  | RRel t a b m => Hrel t a b m (entries m)
  | RDate d => Hdate d
  | RDateTime d => Hdatetime d
  | RBytes b => Hbytes b
  | RVector v => Hvector v
  | RVector8 c s => Hvector8 c s
  | RPath items => Hpath items (all items)
  end.
End ind.

Definition is_null (v : RuntimeValue) : bool := match v with RNull => true | _ => false end.
Definition as_bool (v : RuntimeValue) : option bool :=
  match v with RBool b => Some b | _ => None end.

(** Reading a value as a string, where the source matches on [String]. *)
Definition as_str (v : RuntimeValue) : option string :=
  match v with RString s => Some s | _ => None end.

Definition type_name (v : RuntimeValue) : string :=
  match v with
  | RNull => "NULL"
  | RBool _ => "BOOLEAN"
  | RInteger _ => "INTEGER"
  | RFloat _ => "FLOAT"
  | RString _ => "STRING"
  | RList _ => "LIST"
  | RMap _ => "MAP"
  | RNode _ _ _ => "NODE"
  | RRel _ _ _ _ => "RELATIONSHIP"
  | RDate _ => "DATE"
  | RDateTime _ => "DATETIME"
  | RBytes _ => "BYTES"
  | RVector _ => "VECTOR"
  | RVector8 _ _ => "VECTOR"
  | RPath _ => "PATH"
  end.

(** The derived [PartialEq] of [Vec<T>] and [BTreeMap<String, T>]. *)
Definition list_eqb {A} (eqb : A → A → bool) : list A → list A → bool :=
  fix go xs ys :=
    match xs, ys with
    | [], [] => true
    | x :: xs, y :: ys => eqb x y && go xs ys
    | _, _ => false
    end.
Definition entries_eqb {A} (eqb : A → A → bool) : btree A → btree A → bool :=
  fix go xs ys :=
    match xs, ys with
    | [], [] => true
    | (k, x) :: xs, (k', y) :: ys => String.eqb k k' && eqb x y && go xs ys
    | _, _ => false
    end.

(** [#[derive(PartialEq)]] of [RuntimeValue] *)
Fixpoint value_eqb (a b : RuntimeValue) {struct a} : bool :=
  match a, b with
  | RNull, RNull => true
  | RBool x, RBool y => Bool.eqb x y
  | RInteger x, RInteger y => x =? y
  | RFloat x, RFloat y => f64_eqb x y
  | RString x, RString y => String.eqb x y
  | RList xs, RList ys => list_eqb value_eqb xs ys
  | RMap xs, RMap ys => entries_eqb value_eqb xs ys
  | RNode x ls ps, RNode y ls' ps' =>
      (x =? y) && list_eqb String.eqb ls ls' && entries_eqb value_eqb ps ps'
  | RRel t x y ps, RRel t' x' y' ps' =>
      String.eqb t t' && (x =? x') && (y =? y') && entries_eqb value_eqb ps ps'
  | RDate x, RDate y => x =? y
  | RDateTime x, RDateTime y => x =? y
  | RBytes x, RBytes y => bool_decide (x = y)
  | RVector x, RVector y => list_eqb f64_eqb x y
  | RVector8 c s, RVector8 c' s' => list_eqb Z.eqb c c' && f64_eqb s s'
  | RPath xs, RPath ys => list_eqb value_eqb xs ys
  | _, _ => false
  end.

(** ** Rows *)

Record Row := { bindings : btree RuntimeValue }.

Definition Row_new : Row := {| bindings := [] |}.
Definition Row_set (row : Row) (name : string) (value : RuntimeValue) : Row :=
  {| bindings := btree_insert name value (bindings row) |}.
Definition Row_with (row : Row) (name : string) (value : RuntimeValue) : Row :=
  Row_set row name value.
Definition Row_get (row : Row) (name : string) : option RuntimeValue :=
  btree_get name (bindings row).
Definition Row_extend (row : Row) (other : btree RuntimeValue) : Row :=
  {| bindings := foldl (λ m kv, btree_insert kv.1 kv.2 m) (bindings row) other |}.

(** ** Well-formed values

    Integers and dates in range, map keys in order: what every value of the Rust
    types satisfies. That floats are in the format is a separate predicate. *)

Definition i64_ok (n : Z) : bool := (i64_min <=? n) && (n <=? i64_max).
Definition i32_ok (n : Z) : bool := (- 2 ^ 31 <=? n) && (n <? 2 ^ 31).
Definition i8_ok (n : Z) : bool := (- 2 ^ 7 <=? n) && (n <? 2 ^ 7).
Definition uuid_ok (n : Z) : bool := (0 <=? n) && (n <? 2 ^ 128).

Fixpoint value_ok (v : RuntimeValue) : bool :=
  match v with
  | RInteger n | RDateTime n => i64_ok n
  | RDate d => i32_ok d
  | RList items | RPath items => forallb value_ok items
  | RMap m => keys_sorted m && forallb (λ kv, value_ok kv.2) m
  | RNode id _ m => uuid_ok id && (keys_sorted m && forallb (λ kv, value_ok kv.2) m)
  | RRel _ src dst m =>
      uuid_ok src && uuid_ok dst && (keys_sorted m && forallb (λ kv, value_ok kv.2) m)
  | RVector8 codes _ => forallb i8_ok codes
  | RNull | RBool _ | RString _ | RBytes _ | RFloat _ | RVector _ => true
  end.

Fixpoint floats_ok (v : RuntimeValue) : bool :=
  match v with
  | RFloat f => valid_f64 f
  | RVector v => forallb valid_f32 v
  | RVector8 _ scale => valid_f32 scale
  | RList items | RPath items => forallb floats_ok items
  | RMap m | RNode _ _ m | RRel _ _ _ m => forallb (λ kv, floats_ok kv.2) m
  | _ => true
  end.

(** A map of well-formed values. *)
Definition entries_ok (m : btree RuntimeValue) : bool :=
  keys_sorted m && forallb (λ kv, value_ok kv.2) m.
Definition row_ok (row : Row) : bool := entries_ok (bindings row).

(** ** Facts about ordered maps *)

Lemma string_compare_eq a b : String.compare a b = Eq ↔ a = b.
Proof.
  split; [apply String.compare_eq_iff|intros ->].
  pose proof (String.compare_antisym b b) as Ha. by destruct (String.compare b b).
Qed.

Lemma string_compare_trans a b c :
  String.compare a b = Lt → String.compare b c = Lt → String.compare a c = Lt.
Proof.
  revert b c. induction a as [|x a IH]; intros [|y b] [|z c]; try done. cbn [String.compare].
  unfold Ascii.compare.
  destruct (N.compare_spec (Ascii.N_of_ascii x) (Ascii.N_of_ascii y)) as [Hxy|Hxy|],
    (N.compare_spec (Ascii.N_of_ascii y) (Ascii.N_of_ascii z)) as [Hyz|Hyz|]; try done.
  - rewrite Hxy, Hyz, N.compare_refl. apply IH.
  - intros _ _. by rewrite Hxy, (proj2 (N.compare_lt_iff _ _) Hyz).
  - intros _ _. by rewrite <- Hyz, (proj2 (N.compare_lt_iff _ _) Hxy).
  - intros _ _. by rewrite (proj2 (N.compare_lt_iff _ _) (N.lt_trans _ _ _ Hxy Hyz)).
Qed.

Lemma keys_sorted_cons {V} k (v : V) m :
  keys_sorted ((k, v) :: m) = true ↔
  keys_sorted m = true ∧ match m with [] => True | (k', _) :: _ => String.compare k k' = Lt end.
Proof.
  cbn. destruct m as [|[k' v'] m]; [done|].
  destruct (String.compare k k'); [|tauto|]; split; try done; by intros [].
Qed.

Lemma btree_insert_head {V} k (v : V) m x :
  String.compare x k = Lt →
  match m with [] => True | (k', _) :: _ => String.compare x k' = Lt end →
  match btree_insert k v m with [] => True | (k', _) :: _ => String.compare x k' = Lt end.
Proof. destruct m as [|[k' v'] m]; cbn; [done|]. destruct (String.compare k k'); done. Qed.

Lemma btree_insert_sorted {V} k (v : V) m :
  keys_sorted m = true → keys_sorted (btree_insert k v m) = true.
Proof.
  induction m as [|[k' v'] m IH]; [done|]. rewrite keys_sorted_cons. intros [Hm Hk].
  cbn [btree_insert]. destruct (String.compare k k') eqn:Hc.
  - apply string_compare_eq in Hc as ->. by apply keys_sorted_cons.
  - rewrite keys_sorted_cons. split; [by apply keys_sorted_cons|done].
  - rewrite keys_sorted_cons. split; [by apply IH|].
    apply btree_insert_head; [|done]. rewrite String.compare_antisym, Hc. done.
Qed.

Lemma btree_insert_forall {V} (P : string * V → Prop) k v m :
  P (k, v) → Forall P m → Forall P (btree_insert k v m).
Proof.
  intros Hkv. induction 1 as [|[k' v'] m Hx Hm IH]; cbn [btree_insert]; [by constructor|].
  destruct (String.compare k k'); by repeat constructor.
Qed.

Lemma btree_get_in {V} k (m : btree V) v : btree_get k m = Some v → (k, v) ∈ m.
Proof.
  induction m as [|[k' v'] m IH]; cbn [btree_get]; [done|].
  destruct (String.eqb_spec k k') as [->|]; [intros [= ->]; left|right; auto].
Qed.

Lemma btree_get_insert {V} k k' (v : V) m :
  btree_get k (btree_insert k' v m) = if String.eqb k k' then Some v else btree_get k m.
Proof.
  induction m as [|[j w] m IH]; cbn [btree_insert btree_get]; [by destruct (String.eqb k k')|].
  destruct (String.compare k' j) eqn:Hc; cbn [btree_get].
  - apply string_compare_eq in Hc as ->. by destruct (String.eqb k j).
  - done.
  - rewrite IH. destruct (String.eqb_spec k j) as [->|], (String.eqb_spec k' j) as [->|]; try done.
    + by rewrite (proj2 (string_compare_eq j j)) in Hc.
    + by destruct (String.eqb_spec j k').
Qed.

(** Below the first key nothing is bound. *)
Lemma btree_get_below {V} k k' (v : V) m :
  keys_sorted ((k, v) :: m) = true → String.compare k' k = Lt → btree_get k' ((k, v) :: m) = None.
Proof.
  revert k v. induction m as [|[j w] m IH]; intros k v; rewrite keys_sorted_cons; intros [Hm Hk] Hc.
  all: cbn [btree_get]; destruct (String.eqb_spec k' k) as [->|];
    [by rewrite (proj2 (string_compare_eq k k)) in Hc|].
  - done.
  - apply (IH j w Hm). by apply (string_compare_trans k' k j).
Qed.

(** A map is determined by its lookups. *)
Lemma btree_ext {V} (m m' : btree V) :
  keys_sorted m = true → keys_sorted m' = true → (∀ k, btree_get k m = btree_get k m') → m = m'.
Proof.
  revert m'. induction m as [|[k v] m IH]; intros [|[k' v'] m'] Hs Hs' Hg.
  - done.
  - specialize (Hg k'). cbn in Hg. by rewrite String.eqb_refl in Hg.
  - specialize (Hg k). cbn in Hg. by rewrite String.eqb_refl in Hg.
  - destruct (String.compare k k') eqn:Hc.
    + apply string_compare_eq in Hc as ->. pose proof (Hg k') as Hv. cbn in Hv. rewrite String.eqb_refl in Hv.
      injection Hv as ->. f_equal. apply IH; [by apply keys_sorted_cons in Hs as []|by apply keys_sorted_cons in Hs' as []|].
      intros j. specialize (Hg j). cbn in Hg. destruct (String.eqb_spec j k') as [Hj|]; [|done]. rewrite Hj in *.
      assert (∀ m, keys_sorted ((k', v') :: m) = true → btree_get k' m = None) as Habs.
      { intros [|[i w] m0]; [done|]. rewrite keys_sorted_cons. intros [? ?]. by apply btree_get_below. }
      by rewrite (Habs m), (Habs m').
    + specialize (Hg k). rewrite (btree_get_below k' k v' m') in Hg by done. cbn in Hg. by rewrite String.eqb_refl in Hg.
    + specialize (Hg k'). rewrite (btree_get_below k k' v m) in Hg.
      * cbn in Hg. by rewrite String.eqb_refl in Hg.
      * done.
      * by rewrite String.compare_antisym, Hc.
Qed.

(** Inserting every entry of a second map. *)
Lemma btree_get_extend {V} k (m other : btree V) :
  keys_sorted other = true →
  btree_get k (foldl (λ m kv, btree_insert kv.1 kv.2 m) m other)
  = match btree_get k other with Some v => Some v | None => btree_get k m end.
Proof.
  revert m. induction other as [|[j w] other IH]; intros m Hs; [done|]. cbn [foldl btree_get fst snd].
  rewrite IH by (by apply keys_sorted_cons in Hs as []). rewrite btree_get_insert.
  destruct (String.eqb_spec k j) as [->|]; [|done].
  destruct other as [|[i u] other]; [done|]. rewrite btree_get_below; [done|..]; by apply keys_sorted_cons in Hs as [].
Qed.
Lemma btree_extend_sorted {V} (m other : btree V) :
  keys_sorted m = true → keys_sorted (foldl (λ m kv, btree_insert kv.1 kv.2 m) m other) = true.
Proof. revert m. induction other as [|kv other IH]; intros m Hm; [done|]. by apply IH, btree_insert_sorted. Qed.
