(* ===== verification/Exec.v ===== *)
(** The effects of query execution: panics, errors and the host.

    Evaluation and the operators read their surroundings: the deadline and the
    operator's cancel flag ([namidb-storage/src/cancel.rs]), the wall clock and the
    memory budget ([exec/memory.rs]). The class [Host] answers each reading by its
    number, so two readings in one run may differ; a computation is a function of
    the number of readings made so far. [None] is a Rust panic. *)
From S2P Require Import Prelude StorageError Ast.

(** ** The host *)

Inductive Interrupt := ITimeout | ICancelled.

Inductive QueryMemoryScope := SQuery | SShared | SProcess.
Record QueryMemoryExceeded := {
  qm_scope : QueryMemoryScope; qm_required_bytes : Z; qm_limit_bytes : Z }.

Definition is_transient (e : QueryMemoryExceeded) : bool :=
  match qm_scope e with SQuery => false | _ => true end.

Class Host := {
  (** the cancel flag in scope, if any, and what loading it returns *)
  cancel_flag : option (nat → bool);
  (** the deadline in scope, and [Instant::now()], in nanoseconds of one clock *)
  deadline : option Z;
  instant_now : nat → Z;
  (** [limits::scoped_row_cap()] *)
  scoped_row_cap : option Z;
  (** [memory::memory_scoped()] *)
  memory_scoped : bool;
  (** [memory::check_transient(bytes)]: the limit exceeded, if any *)
  transient_excess : nat → Z → option QueryMemoryExceeded;
  (** a [GrowthMeter] call, or a transient check of materialised rows: the limit the
      estimate exceeds, if any. The estimates depend on allocator capacities. *)
  meter_excess : nat → option QueryMemoryExceeded;
  (** what [slice::sort_by] does with a comparison that is not a total order: panic,
      or some order of the positions *)
  unspecified_order : nat → option (list nat);
  (** nanoseconds since the Unix epoch; negative before it *)
  system_time : nat → Z;
}.

(** [cancel::interrupted]: the operator's flag wins over the clock. *)
Definition interrupted `{Host} (n : nat) : option Interrupt :=
  if match cancel_flag with Some flag => flag n | None => false end then Some ICancelled
  else if match deadline with Some at_ => at_ <=? instant_now n | None => false end
       then Some ITimeout
  else None.

(** [cancel::guarded] *)
Definition guarded `{Host} : bool :=
  match deadline, cancel_flag with None, None => false | _, _ => true end.

(** ** Errors *)

Inductive EvalErrorKind :=
| Generic | Unsupported | KTimeout | KCancelled | KMemoryLimit (e : QueryMemoryExceeded).
Record EvalError := { ee_message : string; ee_span : SourceSpan; ee_kind : EvalErrorKind }.

Definition EvalError_new (msg : string) (span : SourceSpan) : EvalError :=
  {| ee_message := msg; ee_span := span; ee_kind := Generic |}.
Definition EvalError_unsupported (msg : string) (span : SourceSpan) : EvalError :=
  {| ee_message := msg; ee_span := span; ee_kind := Unsupported |}.
Definition EvalError_interrupted (kind : EvalErrorKind) (span : SourceSpan) : EvalError :=
  {| ee_message := "expression evaluation interrupted"; ee_span := span; ee_kind := kind |}.

Inductive ExecError :=
| XEval (e : EvalError)
| XStorage (e : Error)
| XRuntime (msg : string)
| XConstraint (msg : string)
| XTimeout
| XCancelled
| XRowCap (cap : Z)
| XMemoryLimit (e : QueryMemoryExceeded).

(** [impl From<EvalError> for ExecError] *)
Definition ExecError_from (e : EvalError) : ExecError :=
  match ee_kind e with
  | KTimeout => XTimeout
  | KCancelled => XCancelled
  | KMemoryLimit exceeded => XMemoryLimit exceeded
  | _ => XEval e
  end.

(** ** Computations *)

Definition exec (E A : Type) : Type := nat → option (result E A) * nat.

#[global] Instance exec_ret E : MRet (exec E) := λ A a n, (Some (Ok a), n).
#[global] Instance exec_bind E : MBind (exec E) := λ A B f m n,
  match m n with
  | (Some (Ok a), n') => f a n'
  | (Some (Err e), n') => (Some (Err e), n')
  | (None, n') => (None, n')
  end.

Definition throw {E A} (e : E) : exec E A := λ n, (Some (Err e), n).
Definition panic {E A} : exec E A := λ n, (None, n).
(** One reading of the host. *)
Definition read {E A} (oracle : nat → A) : exec E A := λ n, (Some (Ok (oracle n)), S n).
(** [?] across an error conversion *)
Definition lift_err {E F A} (conv : E → F) (m : exec E A) : exec F A := λ n,
  match m n with
  | (Some (Ok a), n') => (Some (Ok a), n')
  | (Some (Err e), n') => (Some (Err (conv e)), n')
  | (None, n') => (None, n')
  end.

(** [iter.map(f).collect::<Result<Vec<_>, _>>()?] *)
Definition collect {E A B} (f : A → exec E B) : list A → exec E (list B) :=
  fix go l :=
    match l with
    | [] => mret []
    | a :: l => b ← f a; bs ← go l; mret (b :: bs)
    end.

(** ** Guards ([exec/limits.rs]) *)

Section guards.
Context `{Host}.

Definition CHECK_STRIDE : Z := 1024.
Definition PROBE_STRIDE : Z := 1024.

(** [expr::probe_interrupt] *)
Definition probe_interrupt (index : Z) (span : SourceSpan) : exec EvalError () :=
  if negb (index mod CHECK_STRIDE =? 0) then mret ()
  else
    i ← read interrupted;
    match i with
    | None => mret ()
    | Some ITimeout => throw (EvalError_interrupted KTimeout span)
    | Some ICancelled => throw (EvalError_interrupted KCancelled span)
    end.

Definition check_deadline : exec ExecError () :=
  i ← read interrupted;
  match i with
  | None => mret ()
  | Some ITimeout => throw XTimeout
  | Some ICancelled => throw XCancelled
  end.

Definition check_row_cap (len : Z) : exec ExecError () :=
  match scoped_row_cap with
  | Some cap => if cap <? len then throw (XRowCap cap) else mret ()
  | None => mret ()
  end.

(** [DeadlineProbe]: its tick counter, and [tick], which returns the next one. *)
Abbreviation DeadlineProbe := Z (only parsing).
Definition DeadlineProbe_new : DeadlineProbe := 0.
Definition tick (ticks : DeadlineProbe) : exec ExecError DeadlineProbe :=
  let ticks := (ticks + 1) mod 2 ^ 32 in
  _ ← (if ticks mod PROBE_STRIDE =? 0 then check_deadline else mret ());
  mret ticks.

(** [memory::check_transient] *)
Definition check_transient (bytes : Z) : exec ExecError () :=
  e ← read (λ n, transient_excess n bytes);
  match e with Some exceeded => throw (XMemoryLimit exceeded) | None => mret () end.

(** [GrowthMeter::add], [observe], and the check [cross_product] makes up front *)
Definition meter_check : exec ExecError () :=
  if memory_scoped then
    e ← read meter_excess;
    match e with Some exceeded => throw (XMemoryLimit exceeded) | None => mret () end
  else mret ().
End guards.

(** [for x in l { .. }] over a mutable state. *)
Fixpoint foreach {E A S} (f : S → A → exec E S) (l : list A) (s : S) : exec E S :=
  match l with
  | [] => mret s
  | x :: l => s ← f s x; foreach f l s
  end.

(** A host that never interrupts and enforces no cap or budget. *)
Class QuietHost `{Host} : Prop := {
  quiet_interrupted n : interrupted n = None;
  quiet_row_cap : scoped_row_cap = None;
  quiet_memory : memory_scoped = false;
}.
