(* ===== verification/Scalar.v ===== *)
(** Operators and scalar functions of Cypher expressions ([exec/expr.rs]):
    everything [evaluate] applies to values it has already computed, after the string
    operations they use.

    Integer arithmetic is that of the release profile: [+], [-], [*], unary minus
    and [abs] wrap, while division and remainder panic on a zero divisor and on
    [i64::MIN / -1]. The class [Libs] holds what other crates and the platform
    provide: [f64::powf], the decimal form of floats, Unicode case mapping, the
    [regex], [chrono] and [uuid] crates; and [bm25_score], which is not modelled. *)
From Stdlib Require Import Ascii SpecFloat.
From stdpp Require Import pretty.
From S2P Require Import Prelude Float Paths StorageError Ast RuntimeValue Exec.

(** Strings as the scalar functions use them: [str] and [char] of the standard
    library on UTF-8 bytes.

    A [char] is the string of its encoding. On valid UTF-8, substring search by
    bytes and by characters coincide. *)

Definition byte_code (c : ascii) : Z := Z.of_nat (nat_of_ascii c).
Definition is_continuation (c : ascii) : bool := (0x80 <=? byte_code c) && (byte_code c <=? 0xBF).

(** [s.chars()] *)
Fixpoint chars (s : string) : list string :=
  match s with
  | EmptyString => []
  | String c rest =>
      let cs := chars rest in
      match rest with
      | EmptyString => [String c ""]
      | String d _ =>
          if is_continuation d
          then match cs with g :: gs => String c g :: gs | [] => [String c ""] end
          else String c "" :: cs
      end
  end.
Definition of_chars (cs : list string) : string := String.concat "" cs.

(** [s.starts_with(p)], [s.ends_with(p)], [s.contains(p)] *)
Definition starts_with (s p : string) : bool := String.prefix p s.
Fixpoint ends_with (s p : string) : bool :=
  String.eqb s p || match s with EmptyString => false | String _ rest => ends_with rest p end.
Fixpoint contains (s p : string) : bool :=
  String.prefix p s || match s with EmptyString => false | String _ rest => contains rest p end.

Fixpoint string_drop (n : nat) (s : string) : string :=
  match n, s with
  | O, _ => s
  | S n, EmptyString => ""
  | S n, String _ rest => string_drop n rest
  end.

(** [s.split(delim)] for a non-empty delimiter: the pieces between its
    left-to-right non-overlapping occurrences. *)
Fixpoint split_loop (fuel : nat) (delim s piece : string) : list string :=
  match fuel with
  | O => [piece]
  | S fuel' =>
      match s with
      | EmptyString => [piece]
      | String c rest =>
          if String.prefix delim s
          then piece :: split_loop fuel' delim (string_drop (String.length delim) s) ""
          else split_loop fuel' delim rest (piece +:+ String c "")
      end
  end.
Definition str_split_on (s delim : string) : list string :=
  split_loop (S (String.length s)) delim s "".

(** [s.replace(search, rep)]; an empty needle matches at every character boundary. *)
Definition str_replace_all (s search rep : string) : string :=
  if String.eqb search ""
  then rep +:+ of_chars (map (λ c, c +:+ rep) (chars s))
  else String.concat rep (str_split_on s search).

(** [char::is_whitespace]: the White_Space property. *)
Definition is_whitespace (c : string) : bool :=
  match map byte_code (String.list_ascii_of_string c) with
  | [b] => ((9 <=? b) && (b <=? 13)) || (b =? 32)
  | [b0; b1] => (b0 =? 0xC2) && ((b1 =? 0x85) || (b1 =? 0xA0))
  | [b0; b1; b2] =>
      ((b0 =? 0xE1) && (b1 =? 0x9A) && (b2 =? 0x80))
      || ((b0 =? 0xE2) && (b1 =? 0x80)
          && (((0x80 <=? b2) && (b2 <=? 0x8A)) || (b2 =? 0xA8) || (b2 =? 0xA9) || (b2 =? 0xAF)))
      || ((b0 =? 0xE2) && (b1 =? 0x81) && (b2 =? 0x9F))
      || ((b0 =? 0xE3) && (b1 =? 0x80) && (b2 =? 0x80))
  | _ => false
  end.

Fixpoint skip_while (p : string → bool) (cs : list string) : list string :=
  match cs with
  | [] => []
  | c :: rest => if p c then skip_while p rest else cs
  end.
Definition str_trim_start (s : string) : string := of_chars (skip_while is_whitespace (chars s)).
Definition str_trim_end (s : string) : string :=
  of_chars (rev (skip_while is_whitespace (rev (chars s)))).
Definition str_trim (s : string) : string := str_trim_end (str_trim_start s).

(** [s.parse::<i64>()]: an optional sign, at least one digit, no overflow. *)
Fixpoint parse_digits (s : string) (acc : Z) : option Z :=
  match s with
  | EmptyString => Some acc
  | String c rest =>
      if is_ascii_digit c then parse_digits rest (acc * 10 + (byte_code c - 48)) else None
  end.
Definition parse_i64 (s : string) : option Z :=
  let digits (sign : Z) (s : string) :=
    match s with
    | EmptyString => None
    | _ =>
        n ← parse_digits s 0;
        if (i64_min <=? sign * n) && (sign * n <=? i64_max) then Some (sign * n) else None
    end in
  match s with
  | EmptyString => None
  | String c rest =>
      if Ascii.eqb c "+" then digits 1 rest
      else if Ascii.eqb c "-" then digits (-1) rest
      else digits 1 s
  end.

(** [n.to_string()] *)
Definition show_int (n : Z) : string := pretty n.

Class Libs := {
  powf : f64 → f64 → f64;
  (** [f.to_string()] and [s.parse::<f64>().ok()] *)
  f64_to_string : f64 → string;
  f64_from_str : string → option f64;
  to_lowercase : string → string;
  to_uppercase : string → string;
  (** [Regex::new(p)], and [is_match] of the compiled pattern *)
  regex_new : string → result string (string → bool);
  (** the date [days] after 1970-01-01 as [%Y-%m-%d]; a microsecond timestamp as RFC 3339 *)
  format_date : Z → option string;
  format_datetime : Z → option string;
  (** microseconds since the epoch; days since the epoch *)
  parse_from_rfc3339 : string → option Z;
  parse_naive_datetime : string → string → option Z;
  parse_naive_date : string → option Z;
  uuid_to_string : NodeId → string;
  bm25_score : string → string → f64;
  (** [size_of::<RuntimeValue>()], which the compiler chooses *)
  value_size : Z;
}.

Abbreviation eval := (exec EvalError).

Definition fail_at {A} (msg : string) (span : SourceSpan) : eval A := throw (EvalError_new msg span).

Section scalar.
Context `{Host, Libs}.

Definition literal_to_runtime (l : Literal) : RuntimeValue :=
  match l with
  | LInteger n => RInteger n
  | LFloat f => RFloat f
  | LString s => RString s
  | LBoolean b => RBool b
  | LNull => RNull
  end.

(** ** Access *)

Definition property_access (target : RuntimeValue) (key : string) : RuntimeValue :=
  match target with
  | RNull => RNull
  | RNode id _ properties =>
      if String.eqb key "_id" then RString (uuid_to_string id)
      else default RNull (btree_get key properties)
  | RRel _ src dst properties =>
      if String.eqb key "_id" then RString (uuid_to_string src +:+ ":" +:+ uuid_to_string dst)
      else default RNull (btree_get key properties)
  | RMap m => default RNull (btree_get key m)
  | _ => RNull
  end.

Definition index_into (target index : RuntimeValue) : RuntimeValue :=
  match target, index with
  | RNull, _ | _, RNull => RNull
  | RList items, RInteger i =>
      let len := Z.of_nat (length items) in
      let resolved := if i <? 0 then len + i else i in
      if (resolved <? 0) || (len <=? resolved) then RNull
      else default RNull (items !! Z.to_nat resolved)
  | RMap m, RString k => default RNull (btree_get k m)
  | _, _ => RNull
  end.

Definition range_resolve (len : Z) (v : option RuntimeValue) (dflt : Z) : Z :=
  match v with
  | Some (RInteger n) => if n <? 0 then Z.max (len + n) 0 else Z.min n len
  | _ => dflt
  end.
Definition range_into (target : RuntimeValue) (from to : option RuntimeValue) : RuntimeValue :=
  match target with
  | RList items =>
      let len := Z.of_nat (length items) in
      let lo := range_resolve len from 0 in
      let hi := range_resolve len to len in
      if hi <=? lo then RList [] else RList (slice items (Z.to_nat lo) (Z.to_nat hi))
  | _ => RNull
  end.

(** ** Unary and binary operators *)

Definition eval_unary (op : UnaryOp) (v : RuntimeValue) : RuntimeValue :=
  if is_null v then RNull
  else
    match op with
    | Neg =>
        match v with
        | RInteger n => RInteger (sign_wrap 64 (- n))
        | RFloat f => RFloat (SFopp f)
        | _ => RNull
        end
    | Not => match as_bool v with Some b => RBool (negb b) | None => RNull end
    end.

(** [scalar_to_string] *)
Definition scalar_to_string (v : RuntimeValue) : option string :=
  match v with
  | RInteger n => Some (show_int n)
  | RFloat f => Some (f64_to_string f)
  | RBool b => Some (if b then "true" else "false")
  | RString s => Some s
  | RDate days => format_date days
  | RDateTime micros => format_datetime micros
  | _ => None
  end.

Definition cannot_apply (op_label : string) (a b : RuntimeValue) : string :=
  "cannot apply `" +:+ op_label +:+ "` between " +:+ type_name a +:+ " and " +:+ type_name b.

(** An integer operation; [None] is a panic. *)
Definition int_op (r : option Z) : eval RuntimeValue :=
  match r with Some n => mret (RInteger n) | None => panic end.

Definition arith (a b : RuntimeValue) (span : SourceSpan) (op_label : string)
    (f_int : Z → Z → option Z) (f_float : f64 → f64 → f64) (string_concat : bool)
    : eval RuntimeValue :=
  let mismatch := fail_at (cannot_apply op_label a b) span in
  match a, b with
  | RInteger x, RInteger y => int_op (f_int x y)
  | RFloat x, RFloat y => mret (RFloat (f_float x y))
  | RInteger x, RFloat y => mret (RFloat (f_float (f64_of_int x) y))
  | RFloat x, RInteger y => mret (RFloat (f_float x (f64_of_int y)))
  | _, _ =>
      if negb string_concat then mismatch
      else
        match a, b with
        | RString x, RString y => mret (RString (x +:+ y))
        | RList xs, RList ys => mret (RList (xs ++ ys))
        | RList xs, y => mret (RList (xs ++ [y]))
        | x, RList ys => mret (RList (x :: ys))
        | RString x, other =>
            match scalar_to_string other with
            | Some rendered => mret (RString (x +:+ rendered))
            | None => mismatch
            end
        | other, RString y =>
            match scalar_to_string other with
            | Some rendered => mret (RString (rendered +:+ y))
            | None => mismatch
            end
        | _, _ => mismatch
        end
  end.

(** [i64::rem_euclid] and [i64 / i64]: a zero divisor and [MIN / -1] panic. *)
Definition div_panics (x y : Z) : bool := (y =? 0) || ((x =? i64_min) && (y =? -1)).
Definition rem_euclid (x y : Z) : option Z :=
  if div_panics x y then None else Some (x mod Z.abs y).
Definition int_div (x y : Z) : option Z :=
  if div_panics x y then None else Some (Z.quot x y).

Definition arith_div (a b : RuntimeValue) (span : SourceSpan) : eval RuntimeValue :=
  match a, b with
  | _, RInteger 0 => fail_at "integer division by zero" span
  | RInteger x, RInteger y => int_op (int_div x y)
  | RFloat x, RFloat y => mret (RFloat (f64_div x y))
  | RInteger x, RFloat y => mret (RFloat (f64_div (f64_of_int x) y))
  | RFloat x, RInteger y => mret (RFloat (f64_div x (f64_of_int y)))
  | _, _ => fail_at (cannot_apply "/" a b) span
  end.

Definition to_f64 (v : RuntimeValue) : option f64 :=
  match v with RInteger n => Some (f64_of_int n) | RFloat f => Some f | _ => None end.
Definition arith_pow (a b : RuntimeValue) (span : SourceSpan) : eval RuntimeValue :=
  match to_f64 a, to_f64 b with
  | Some x, Some y => mret (RFloat (powf x y))
  | _, _ => fail_at (cannot_apply "^" a b) span
  end.

(** ** Equality and order *)

Definition is_equal (a b : RuntimeValue) : bool :=
  match a, b with
  | RNull, _ | _, RNull => false
  | RInteger x, RInteger y => x =? y
  | RFloat x, RFloat y => f64_eqb x y
  | RInteger x, RFloat y | RFloat y, RInteger x => f64_eqb (f64_of_int x) y
  | RBool x, RBool y => Bool.eqb x y
  | RString x, RString y => String.eqb x y
  | RBytes x, RBytes y => bool_decide (x = y)
  | RList x, RList y => list_eqb value_eqb x y
  | RMap x, RMap y => entries_eqb value_eqb x y
  | RNode x _ _, RNode y _ _ => x =? y
  | RRel t x y _, RRel t' x' y' _ => String.eqb t t' && (x =? x') && (y =? y')
  | RDate x, RDate y => x =? y
  | RDateTime x, RDateTime y => x =? y
  | _, _ => false
  end.

(** [false < true] *)
Definition bool_cmp (x y : bool) : comparison :=
  match x, y with false, true => Lt | true, false => Gt | _, _ => Eq end.

Definition compare (a b : RuntimeValue) : option comparison :=
  match a, b with
  | RNull, _ | _, RNull => None
  | RInteger x, RInteger y => Some (x ?= y)
  | RFloat x, RFloat y => f64_partial_cmp x y
  | RInteger x, RFloat y => f64_partial_cmp (f64_of_int x) y
  | RFloat x, RInteger y => f64_partial_cmp x (f64_of_int y)
  | RString x, RString y => Some (String.compare x y)
  | RBool x, RBool y => Some (bool_cmp x y)
  | RDate x, RDate y => Some (x ?= y)
  | RDateTime x, RDateTime y => Some (x ?= y)
  | _, _ => None
  end.

Definition order_cmp (a b : RuntimeValue) (predicate : comparison → bool) : RuntimeValue :=
  match compare a b with Some o => RBool (predicate o) | None => RNull end.

Definition order_for_sort (a b : RuntimeValue) (direction_desc : bool) : comparison :=
  let base :=
    match is_null a, is_null b with
    | true, true => Eq
    | true, false => Gt
    | false, true => Lt
    | false, false => default Eq (compare a b)
    end in
  if direction_desc then CompOpp base else base.

(** The loop of [eval_in] over the list's items. *)
Fixpoint in_loop (item : RuntimeValue) (items : list RuntimeValue) (has_null : bool) : RuntimeValue :=
  match items with
  | [] => if has_null then RNull else RBool false
  | v :: items =>
      if is_null v then in_loop item items true
      else if is_equal item v then RBool true
      else in_loop item items has_null
  end.
Definition eval_in (item list : RuntimeValue) : RuntimeValue :=
  if is_null item || is_null list then RNull
  else match list with RList items => in_loop item items false | _ => RNull end.

Definition eval_string_test (op : StringOp) (a b : RuntimeValue) : RuntimeValue :=
  match a, b with
  | RNull, _ | _, RNull => RNull
  | RString s, RString p =>
      RBool match op with
            | StartsWith => starts_with s p
            | EndsWith => ends_with s p
            | Contains => contains s p
            end
  | _, _ => RNull
  end.

Definition regex_match (a b : RuntimeValue) (span : SourceSpan) : eval RuntimeValue :=
  match a, b with
  | RString subject, RString pattern =>
      match regex_new ("^(?:" +:+ pattern +:+ ")$") with
      | Err e => fail_at ("invalid regular expression `" +:+ pattern +:+ "`: " +:+ e) span
      | Ok is_match => mret (RBool (is_match subject))
      end
  | _, _ => mret RNull
  end.

Definition eval_binary (op : BinaryOp) (a b : RuntimeValue) (span : SourceSpan) : eval RuntimeValue :=
  match op with
  | And =>
      mret match as_bool a, as_bool b with
           | Some false, _ | _, Some false => RBool false
           | Some true, Some true => RBool true
           | _, _ => RNull
           end
  | Or =>
      mret match as_bool a, as_bool b with
           | Some true, _ | _, Some true => RBool true
           | Some false, Some false => RBool false
           | _, _ => RNull
           end
  | Xor =>
      mret match as_bool a, as_bool b with
           | Some x, Some y => RBool (xorb x y)
           | _, _ => RNull
           end
  | _ =>
      if is_null a || is_null b then mret RNull
      else
        match op with
        | Add => arith a b span "+" (λ x y, Some (sign_wrap 64 (x + y))) f64_add true
        | Sub => arith a b span "-" (λ x y, Some (sign_wrap 64 (x - y))) f64_sub false
        | Mul => arith a b span "*" (λ x y, Some (sign_wrap 64 (x * y))) f64_mul false
        | Div => arith_div a b span
        | Mod => arith a b span "%" rem_euclid f64_rem false
        | Pow => arith_pow a b span
        | Eq_ => mret (RBool (is_equal a b))
        | Ne => mret (RBool (negb (is_equal a b)))
        | Lt_ => mret (order_cmp a b (λ o, match o with Lt => true | _ => false end))
        | Gt_ => mret (order_cmp a b (λ o, match o with Gt => true | _ => false end))
        | Le => mret (order_cmp a b (λ o, match o with Gt => false | _ => true end))
        | Ge => mret (order_cmp a b (λ o, match o with Lt => false | _ => true end))
        | RegexMatch => regex_match a b span
        | And | Or | Xor => panic
        end
  end.
End scalar.
