(* ===== verification/Functions.v ===== *)
(** Scalar functions and their dispatch by name ([exec/expr.rs], [call_scalar_function]
    and its helpers).

    The fuel of [range_loop] is the exact number of items plus one; [range_fn]
    never runs out of it ([range_fn_items] in [ExprFacts]). *)
From Stdlib Require Import Ascii SpecFloat.
From S2P Require Import Prelude Float StorageError Paths Ast RuntimeValue Exec Scalar.

Section functions.
Context `{Host, Libs}.

Definition single_arg (name : string) (args : list RuntimeValue) (span : SourceSpan)
    : eval RuntimeValue :=
  match args with
  | [single] => mret single
  | _ => fail_at ("`" +:+ name +:+ "` expects exactly 1 argument") span
  end.

Definition want_int (v : RuntimeValue) (fname : string) (span : SourceSpan) : eval (option Z) :=
  match v with
  | RNull => mret None
  | RInteger n => mret (Some n)
  | other => fail_at (fname +:+ " expects an integer, got " +:+ type_name other) span
  end.

Definition num_to_float (v : RuntimeValue) (f : f64 → f64) : RuntimeValue :=
  match v with
  | RInteger n => RFloat (f (f64_of_int n))
  | RFloat x => RFloat (f x)
  | _ => RNull
  end.

(** [Iterator::step_by(2)] *)
Fixpoint step_by_2 {A} (l : list A) : list A :=
  match l with
  | [] => []
  | x :: rest => x :: match rest with [] => [] | _ :: rest => step_by_2 rest end
  end.

(** ** Strings *)

Definition str_left_right (args : list RuntimeValue) (span : SourceSpan) (left : bool)
    : eval RuntimeValue :=
  let fname := if left then "left(string, length)" else "right(string, length)" in
  match args with
  | [RString s; n] =>
      n ← want_int n fname span;
      match n with
      | None => mret RNull
      | Some n =>
          if n <? 0 then fail_at (fname +:+ ": length must be non-negative") span
          else
            let cs := chars s in
            let n := Nat.min (Z.to_nat n) (length cs) in
            mret (RString (of_chars (if left then take n cs else drop (length cs - n) cs)))
      end
  | [RNull; _] => mret RNull
  | _ => fail_at (fname +:+ " expects a string and an integer") span
  end.

Definition substring_of (s : string) (start : RuntimeValue) (len : option RuntimeValue)
    (span : SourceSpan) : eval RuntimeValue :=
  let fname := "substring(string, start[, length])" in
  start ← want_int start fname span;
  match start with
  | None => mret RNull
  | Some start =>
      if start <? 0 then fail_at (fname +:+ ": start must be non-negative") span
      else
        let cs := chars s in
        let start := Nat.min (Z.to_nat start) (length cs) in
        match len with
        | None => mret (RString (of_chars (drop start cs)))
        | Some l =>
            l ← want_int l fname span;
            match l with
            | None => mret RNull
            | Some l =>
                if l <? 0 then fail_at (fname +:+ ": length must be non-negative") span
                else
                  let end_ := Z.to_nat (Z.min (saturating_add64 (Z.of_nat start) l)
                                              (Z.of_nat (length cs))) in
                  mret (RString (of_chars (slice cs start end_)))
            end
        end
  end.
Definition str_substring (args : list RuntimeValue) (span : SourceSpan) : eval RuntimeValue :=
  match args with
  | [RString s; start] => substring_of s start None span
  | [RString s; start; len] => substring_of s start (Some len) span
  | RNull :: _ => mret RNull
  | _ => fail_at "substring(string, start[, length]) expects a string and integer offsets" span
  end.

Definition str_replace (args : list RuntimeValue) (span : SourceSpan) : eval RuntimeValue :=
  let mismatch := fail_at "replace(string, search, replacement) expects three strings" span in
  match args with
  | [a; b; c] =>
      match as_str a, as_str b, as_str c with
      | Some s, Some search, Some rep => mret (RString (str_replace_all s search rep))
      | _, _, _ => if is_null a || is_null b || is_null c then mret RNull else mismatch
      end
  | _ => mismatch
  end.

Definition str_split (args : list RuntimeValue) (span : SourceSpan) : eval RuntimeValue :=
  let mismatch := fail_at "split(string, delimiter) expects two strings" span in
  match args with
  | [a; b] =>
      match as_str a, as_str b with
      | Some s, Some delim =>
          mret (RList (map RString (if String.eqb delim "" then chars s else str_split_on s delim)))
      | _, _ => if is_null a || is_null b then mret RNull else mismatch
      end
  | _ => mismatch
  end.

(** ** Ranges *)

(** The number of items the guards of [range_fn] compute, with [i128] division. *)
Definition range_estimate (start end_ step : Z) : Z :=
  let steps := Z.quot (end_ - start) step in
  if steps <? 0 then 0 else steps + 1.

Definition scope_text (e : QueryMemoryExceeded) : string :=
  let req := show_int (qm_required_bytes e) in
  let lim := show_int (qm_limit_bytes e) in
  match qm_scope e with
  | SQuery =>
      "query exceeded its working-memory budget: it needs at least " +:+ req
      +:+ " bytes, the per-query limit (NAMIDB_QUERY_MEMORY_MAX_BYTES) is " +:+ lim
      +:+ " bytes; return fewer or narrower rows (LIMIT, pagination, aggregation)"
  | SShared =>
      "query working memory unavailable: it needs " +:+ req
      +:+ " bytes but concurrent queries hold the shared query-memory pool of " +:+ lim
      +:+ " bytes; retry after other queries finish"
  | SProcess =>
      "process memory pressure: resident " +:+ req
      +:+ " bytes reached the configured maximum of " +:+ lim
      +:+ " bytes while the query was running; retry after memory falls"
  end.

Fixpoint range_loop (fuel : nat) (i end_ step : Z) (out : list RuntimeValue) (span : SourceSpan)
    : eval RuntimeValue :=
  match fuel with
  | O => panic
  | S fuel' =>
      if ((0 <? step) && (end_ <? i)) || ((step <? 0) && (i <? end_)) then mret (RList out)
      else
        _ ← probe_interrupt (Z.of_nat (length out)) span;
        let out := out ++ [RInteger i] in
        if (i64_min <=? i + step) && (i + step <=? i64_max)
        then range_loop fuel' (i + step) end_ step out span
        else mret (RList out)
  end.

Definition range_ints (start end_ step : Z) (span : SourceSpan) : eval RuntimeValue :=
  if step =? 0 then fail_at "range(): step must be non-zero" span
  else
    let len := range_estimate start end_ step in
    _ ← match scoped_row_cap with
        | Some cap =>
            if cap <? len
            then fail_at ("range() of " +:+ show_int len +:+ " items exceeds the configured row cap of "
                          +:+ show_int cap +:+ "; use a smaller range or batch the work") span
            else mret ()
        | None => mret ()
        end;
    _ ← (if memory_scoped then
           let bytes := Z.min (len * (2 * value_size)) usize_max in
           e ← read (λ n, transient_excess n bytes);
           match e with
           | Some exceeded =>
               throw {| ee_message := "range() of " +:+ show_int len +:+ " items: " +:+ scope_text exceeded;
                        ee_span := span; ee_kind := KMemoryLimit exceeded |}
           | None => mret ()
           end
         else mret ());
    range_loop (S (Z.to_nat len)) start end_ step [] span.

Definition range_fn (args : list RuntimeValue) (span : SourceSpan) : eval RuntimeValue :=
  let bounds (a b : RuntimeValue) (c : option RuntimeValue) : eval RuntimeValue :=
    s ← want_int a "range()" span;
    e ← want_int b "range()" span;
    match s, e with
    | Some start, Some end_ =>
        match c with
        | None => range_ints start end_ 1 span
        | Some v =>
            st ← want_int v "range()" span;
            match st with
            | Some step => range_ints start end_ step span
            | None => mret RNull
            end
        end
    | _, _ => mret RNull
    end in
  match args with
  | [a; b] => bounds a b None
  | [a; b; c] => bounds a b (Some c)
  | _ => fail_at "range(start, end[, step]) expects two or three integers" span
  end.
(** ** Vectors *)

(** [Iterator::sum::<f64>()] folds from [-0.0]. *)
Definition f64_sum (xs : list f64) : f64 := foldl f64_add (S754_zero true) xs.

Definition vec_dot_f64 (a b : list f32) : f64 :=
  f64_sum (zip_with (λ x y, f64_mul (f32_as_f64 x) (f32_as_f64 y)) a b).
Definition vec_sq_distance (a b : list f32) : f64 :=
  f64_sum (zip_with (λ x y, let d := f64_sub (f32_as_f64 x) (f32_as_f64 y) in f64_mul d d) a b).

(** The element loop of [vector] and [coerce_vector]; [bad] renders the error. *)
Fixpoint coerce_items (bad : RuntimeValue → Z → string) (span : SourceSpan)
    (items : list RuntimeValue) (idx : Z) : eval (list f32) :=
  match items with
  | [] => mret []
  | item :: items =>
      x ← match item with
          | RFloat f => mret (f64_as_f32 f)
          | RInteger n => mret (f32_of_int n)
          | other => fail_at (bad other idx) span
          end;
      xs ← coerce_items bad span items (idx + 1);
      mret (x :: xs)
  end.

Definition coerce_vector (v : RuntimeValue) (fname : string) (span : SourceSpan)
    : eval (option (list f32)) :=
  match v with
  | RNull => mret None
  | RVector items => mret (Some items)
  | RVector8 codes scale => mret (Some (map (λ c, f32_mul (f32_of_int c) scale) codes))
  | RList items =>
      xs ← coerce_items (λ other idx, fname +:+ ": vector elements must be numeric; got "
                           +:+ type_name other +:+ " at index " +:+ show_int idx) span items 0;
      mret (Some xs)
  | other => fail_at (fname +:+ " requires vectors; got " +:+ type_name other) span
  end.

Definition vector_pair (name : string) (args : list RuntimeValue) (span : SourceSpan)
    : eval (option (list f32 * list f32)) :=
  match args with
  | [a; b] =>
      va ← coerce_vector a name span;
      match va with
      | None => mret None
      | Some va =>
          vb ← coerce_vector b name span;
          match vb with
          | None => mret None
          | Some vb =>
              if negb (length va =? length vb)%nat
              then fail_at (name +:+ ": vectors must have the same dimension ("
                            +:+ show_int (Z.of_nat (length va)) +:+ " vs "
                            +:+ show_int (Z.of_nat (length vb)) +:+ ")") span
              else mret (Some (va, vb))
          end
      end
  | _ => fail_at ("`" +:+ name +:+ "` expects exactly 2 vectors") span
  end.

Definition cosine (a b : list f32) : option f64 :=
  let na := f64_sqrt (vec_dot_f64 a a) in
  let nb := f64_sqrt (vec_dot_f64 b b) in
  if f64_is_zero na || f64_is_zero nb then None
  else Some (f64_div (vec_dot_f64 a b) (f64_mul na nb)).

Inductive VectorDistance := Cosine | Dot | Euclidean.

(** [vector_score]: the score and whether a higher one is better; [None] drops the
    candidate. *)
Definition vector_score (distance : VectorDistance) (a b : RuntimeValue) (span : SourceSpan)
    : eval (option (f64 * bool)) :=
  av ← coerce_vector a "vector" span;
  match av with
  | None => mret None
  | Some av =>
      bv ← coerce_vector b "vector" span;
      match bv with
      | None => mret None
      | Some bv =>
          if negb (length av =? length bv)%nat
          then fail_at ("vector dimension mismatch (" +:+ show_int (Z.of_nat (length av)) +:+ " vs "
                        +:+ show_int (Z.of_nat (length bv)) +:+ ")") span
          else
            mret match distance with
                 | Dot => Some (vec_dot_f64 av bv, true)
                 | Euclidean => Some (f64_sqrt (vec_sq_distance av bv), false)
                 | Cosine => match cosine av bv with Some c => Some (c, true) | None => None end
                 end
      end
  end.

Definition vector_fn (name : string) (args : list RuntimeValue) (span : SourceSpan)
    : eval RuntimeValue :=
  v ← single_arg name args span;
  match v with
  | RNull => mret RNull
  | RVector items => mret (RVector items)
  | RList items =>
      xs ← coerce_items (λ other idx, "vector() requires numeric elements; got "
                           +:+ type_name other +:+ " at index " +:+ show_int idx) span items 0;
      mret (RVector xs)
  | other => fail_at ("vector() requires a list of numbers; got " +:+ type_name other) span
  end.

Definition similarity_fn (name : string) (args : list RuntimeValue) (span : SourceSpan)
    : eval RuntimeValue :=
  p ← vector_pair name args span;
  match p with
  | None => mret RNull
  | Some (a, b) =>
      mret (if String.eqb name "dot_product" then RFloat (vec_dot_f64 a b)
            else if String.eqb name "euclidean_distance" then RFloat (f64_sqrt (vec_sq_distance a b))
            else match cosine a b with Some c => RFloat c | None => RNull end)
  end.

(** ** Dates *)

(** [now_micros]: [as_micros() as i64], 0 before the epoch. *)
Definition micros_of (t : Z) : Z := if t <? 0 then 0 else sign_wrap 64 (t / 1000).
Definition now_micros : eval Z := t ← read system_time; mret (micros_of t).

Definition parse_iso_datetime (s : string) (span : SourceSpan) : eval RuntimeValue :=
  match parse_from_rfc3339 s with
  | Some micros => mret (RDateTime micros)
  | None =>
      match parse_naive_datetime "%Y-%m-%dT%H:%M:%S" s with
      | Some micros => mret (RDateTime micros)
      | None =>
          match parse_naive_datetime "%Y-%m-%d %H:%M:%S" s with
          | Some micros => mret (RDateTime micros)
          | None =>
              match parse_naive_date s with
              | Some days => mret (RDateTime (days * 86400000000))
              | None => fail_at ("datetime(): could not parse `" +:+ s +:+ "` as an ISO-8601 datetime") span
              end
          end
      end
  end.

Definition parse_iso_date (s : string) (span : SourceSpan) : eval RuntimeValue :=
  match parse_naive_date s with
  | Some days => mret (RDate (sign_wrap 32 days))
  | None => fail_at ("date(): could not parse `" +:+ s +:+ "` as YYYY-MM-DD") span
  end.

Definition datetime_fn (name : string) (args : list RuntimeValue) (span : SourceSpan)
    : eval RuntimeValue :=
  match args with
  | [] => m ← now_micros; mret (RDateTime m)
  | [RNull] => mret RNull
  | [RDateTime m] => mret (RDateTime m)
  | [RString s] => parse_iso_datetime s span
  | _ => fail_at (name +:+ "() takes no arguments or a single ISO-8601 string") span
  end.

Definition date_fn (args : list RuntimeValue) (span : SourceSpan) : eval RuntimeValue :=
  match args with
  | [] => m ← now_micros; mret (RDate (sign_wrap 32 (Z.quot m 86400000000)))
  | [RNull] => mret RNull
  | [RDate d] => mret (RDate d)
  | [RString s] => parse_iso_date s span
  | _ => fail_at "date() takes no arguments or a single YYYY-MM-DD string" span
  end.

Definition timestamp_fn (args : list RuntimeValue) (span : SourceSpan) : eval RuntimeValue :=
  match args with
  | [] =>
      t ← read system_time;
      mret (RInteger (if t <? 0 then 0 else sign_wrap 64 (t / 1000000)))
  | _ => fail_at "timestamp() takes no arguments" span
  end.
End functions.

(** The dispatch of scalar functions by name ([exec/expr.rs],
    [call_scalar_function]). *)

Section builtins.
Context `{Host, Libs}.

Definition is_node (v : RuntimeValue) : bool := match v with RNode _ _ _ => true | _ => false end.
Definition is_rel (v : RuntimeValue) : bool := match v with RRel _ _ _ _ => true | _ => false end.

(** ** Functions of one value: [single_arg(..).map(|v| ..)] *)

(** Graph projections. *)
Definition fn_id (v : RuntimeValue) : RuntimeValue :=
  match v with
  | RNode id _ _ => RString (uuid_to_string id)
  | RRel _ src dst _ => RString (uuid_to_string src +:+ ":" +:+ uuid_to_string dst)
  | _ => RNull
  end.
Definition fn_elementid (v : RuntimeValue) : RuntimeValue :=
  match v with
  | RNode id _ _ => RString (uuid_to_string id)
  | RRel t src dst _ => RString (t +:+ "-" +:+ uuid_to_string src +:+ "->" +:+ uuid_to_string dst)
  | _ => RNull
  end.
Definition fn_labels (v : RuntimeValue) : RuntimeValue :=
  match v with RNode _ labels _ => RList (map RString labels) | _ => RNull end.
Definition fn_type (v : RuntimeValue) : RuntimeValue :=
  match v with RRel t _ _ _ => RString t | _ => RNull end.
Definition fn_keys (v : RuntimeValue) : RuntimeValue :=
  match v with
  | RNode _ _ m | RRel _ _ _ m | RMap m => RList (map (λ kv, RString kv.1) m)
  | _ => RNull
  end.
Definition fn_properties (v : RuntimeValue) : RuntimeValue :=
  match v with RNode _ _ m | RRel _ _ _ m | RMap m => RMap m | _ => RNull end.
Definition fn_nodes (v : RuntimeValue) : RuntimeValue :=
  match v with RPath items => RList (List.filter is_node (step_by_2 items)) | _ => RNull end.
Definition fn_relationships (v : RuntimeValue) : RuntimeValue :=
  match v with RPath items => RList (List.filter is_rel (step_by_2 (drop 1 items))) | _ => RNull end.

(** Collections; lengths are cast with [as i64]. *)
Definition int_of_len (n : nat) : RuntimeValue := RInteger (sign_wrap 64 (Z.of_nat n)).
Definition fn_size (v : RuntimeValue) : RuntimeValue :=
  match v with
  | RString s => int_of_len (length (chars s))
  | RList items => int_of_len (length items)
  | RMap m => int_of_len (length m)
  | RVector v => int_of_len (length v)
  | RVector8 codes _ => int_of_len (length codes)
  | RPath items =>
      match items with
      | [] => RNull
      | _ => RInteger (Z.quot (sign_wrap 64 (sign_wrap 64 (Z.of_nat (length items)) - 1)) 2)
      end
  | _ => RNull
  end.
Definition fn_head (v : RuntimeValue) : RuntimeValue :=
  match v with RList items => default RNull (items !! 0%nat) | _ => RNull end.
Definition fn_last (v : RuntimeValue) : RuntimeValue :=
  match v with RList items => default RNull (last items) | _ => RNull end.
Definition fn_tail (v : RuntimeValue) : RuntimeValue :=
  match v with RList items => RList (drop 1 items) | _ => RNull end.
Definition fn_string (f : string → string) (v : RuntimeValue) : RuntimeValue :=
  match v with RString s => RString (f s) | _ => RNull end.
Definition fn_reverse (v : RuntimeValue) : RuntimeValue :=
  match v with
  | RString s => RString (of_chars (rev (chars s)))
  | RList items => RList (rev items)
  | _ => RNull
  end.

(** Conversions. *)
Definition fn_tointeger (v : RuntimeValue) : RuntimeValue :=
  match v with
  | RInteger n => RInteger n
  | RFloat f => RInteger (f64_as_i64 f)
  | RString s => match parse_i64 (str_trim s) with Some n => RInteger n | None => RNull end
  | RBool b => RInteger (if b then 1 else 0)
  | _ => RNull
  end.
Definition fn_tofloat (v : RuntimeValue) : RuntimeValue :=
  match v with
  | RFloat f => RFloat f
  | RInteger n => RFloat (f64_of_int n)
  | RString s => match f64_from_str (str_trim s) with Some f => RFloat f | None => RNull end
  | _ => RNull
  end.
Definition fn_toboolean (v : RuntimeValue) : RuntimeValue :=
  match v with
  | RBool b => RBool b
  | RString s =>
      let t := to_ascii_lowercase (str_trim s) in
      if String.eqb t "true" then RBool true
      else if String.eqb t "false" then RBool false
      else RNull
  | RInteger n => if n =? 0 then RBool false else if n =? 1 then RBool true else RNull
  | _ => RNull
  end.
Definition fn_abs (v : RuntimeValue) : RuntimeValue :=
  match v with
  | RInteger n => RInteger (sign_wrap 64 (Z.abs n))
  | RFloat f => RFloat (SFabs f)
  | _ => RNull
  end.
Definition fn_sign (v : RuntimeValue) : RuntimeValue :=
  match v with
  | RInteger n => RInteger (Z.sgn n)
  | RFloat f =>
      RInteger match f64_partial_cmp f f64_zero with
               | Some Gt => 1
               | Some Lt => -1
               | _ => 0
               end
  | _ => RNull
  end.

(** The functions that are a total map of their only argument. *)
Definition pure_functions : list (string * (RuntimeValue → RuntimeValue)) :=
  [("id", fn_id); ("elementid", fn_elementid); ("labels", fn_labels); ("type", fn_type);
   ("keys", fn_keys); ("properties", fn_properties); ("nodes", fn_nodes);
   ("relationships", fn_relationships); ("size", fn_size); ("length", fn_size);
   ("head", fn_head); ("last", fn_last); ("tail", fn_tail);
   ("tolower", fn_string to_lowercase); ("toupper", fn_string to_uppercase);
   ("trim", fn_string str_trim); ("ltrim", fn_string str_trim_start);
   ("rtrim", fn_string str_trim_end); ("reverse", fn_reverse);
   ("tointeger", fn_tointeger); ("tofloat", fn_tofloat); ("toboolean", fn_toboolean);
   ("abs", fn_abs); ("round", λ v, num_to_float v f64_round);
   ("floor", λ v, num_to_float v f64_floor); ("ceil", λ v, num_to_float v f64_ceil);
   ("sqrt", λ v, num_to_float v f64_sqrt); ("sign", fn_sign)].

(** ** The other functions *)

Fixpoint coalesce (args : list RuntimeValue) : RuntimeValue :=
  match args with
  | [] => RNull
  | a :: args => if is_null a then coalesce args else a
  end.

Definition tostring_fn (name : string) (args : list RuntimeValue) (span : SourceSpan)
    : eval RuntimeValue :=
  v ← single_arg name args span;
  match v with
  | RNull => mret RNull
  | other =>
      match scalar_to_string other with
      | Some rendered => mret (RString rendered)
      | None => fail_at ("toString() expects a scalar value, got " +:+ type_name other) span
      end
  end.

Definition bm25_fn (args : list RuntimeValue) (span : SourceSpan) : eval RuntimeValue :=
  let mismatch := fail_at "bm25(document, query) expects two strings" span in
  match args with
  | [a; b] =>
      if is_null a || is_null b then mret RNull
      else
        match as_str a, as_str b with
        | Some doc, Some query => mret (RFloat (bm25_score doc query))
        | _, _ => mismatch
        end
  | _ => mismatch
  end.

Definition path_fn (args : list RuntimeValue) : RuntimeValue :=
  if existsb is_null args then RNull else RPath args.

Definition label_eq_fn (args : list RuntimeValue) (span : SourceSpan) : eval RuntimeValue :=
  match args with
  | [target; RString label] =>
      mret match target with
           | RNode _ labels _ => RBool (existsb (String.eqb label) labels)
           | RNull => RNull
           | _ => RBool false
           end
  | _ => fail_at "__label_eq expects (node, string)" span
  end.

Definition call_scalar_function (name : string) (args : list RuntimeValue) (span : SourceSpan)
    : eval RuntimeValue :=
  match btree_get name pure_functions with
  | Some f => v ← single_arg name args span; mret (f v)
  | None =>
      if String.eqb name "coalesce" then mret (coalesce args)
      else if String.eqb name "range" then range_fn args span
      else if String.eqb name "left" then str_left_right args span true
      else if String.eqb name "right" then str_left_right args span false
      else if String.eqb name "substring" then str_substring args span
      else if String.eqb name "replace" then str_replace args span
      else if String.eqb name "split" then str_split args span
      else if String.eqb name "tostring" then tostring_fn name args span
      else if String.eqb name "vector" then vector_fn name args span
      else if String.eqb name "cosine_similarity" || String.eqb name "dot_product"
              || String.eqb name "euclidean_distance" then similarity_fn name args span
      else if String.eqb name "bm25" then bm25_fn args span
      else if String.eqb name "__path" then mret (path_fn args)
      else if String.eqb name "__label_eq" then label_eq_fn args span
      else if String.eqb name "timestamp" then timestamp_fn args span
      else if String.eqb name "datetime" || String.eqb name "localdatetime"
           then datetime_fn name args span
      else if String.eqb name "date" then date_fn args span
      else throw (EvalError_unsupported ("function `" +:+ name +:+ "` is not supported in v0") span)
  end.
End builtins.
