(* ===== verification/Expr.v ===== *)
(** The Cypher expression evaluator ([exec/expr.rs], [evaluate]).

    [evaluate] recurses on the expression. [reduce], list comprehensions and
    quantifiers receive the evaluation of their body as a function of the bound
    item; the row they extend is the one of [evaluate]. *)
From S2P Require Import Prelude Float StorageError Ast RuntimeValue Exec Scalar Functions.

Abbreviation Params := (btree RuntimeValue) (only parsing).

Section evaluator.
Context `{Host, Libs}.

(** ** Loops over a list *)

(** The list operand: its items, or the value that ends the evaluation. *)
Definition list_operand (list_v : RuntimeValue) (what : string) (span : SourceSpan)
    (k : list RuntimeValue → eval RuntimeValue) : eval RuntimeValue :=
  match list_v with
  | RList items => k items
  | RNull => mret RNull
  | other => fail_at (what +:+ " requires a list, got " +:+ type_name other) span
  end.

Fixpoint reduce_loop (body : RuntimeValue → RuntimeValue → eval RuntimeValue) (span : SourceSpan)
    (items : list RuntimeValue) (index : Z) (acc : RuntimeValue) : eval RuntimeValue :=
  match items with
  | [] => mret acc
  | item :: items =>
      _ ← probe_interrupt index span;
      acc ← body acc item;
      reduce_loop body span items (index + 1) acc
  end.

Fixpoint comprehension_loop (predicate projection : option (RuntimeValue → eval RuntimeValue))
    (span : SourceSpan) (items : list RuntimeValue) (index : Z) (out : list RuntimeValue)
    : eval RuntimeValue :=
  match items with
  | [] => mret (RList out)
  | item :: items =>
      _ ← probe_interrupt index span;
      keep ← match predicate with
             | Some pred => v ← pred item; mret (bool_decide (as_bool v = Some true))
             | None => mret true
             end;
      if keep : bool then
        projected ← match projection with Some p => p item | None => mret item end;
        comprehension_loop predicate projection span items (index + 1) (out ++ [projected])
      else comprehension_loop predicate projection span items (index + 1) out
  end.

Definition quantifier_result (kind : QuantifierKind) (true_count : Z) (any_null : bool)
    : RuntimeValue :=
  match kind with
  | QAll | QNone => if any_null then RNull else RBool true
  | QAny => if any_null then RNull else RBool false
  | QSingle => RBool (true_count =? 1)
  end.

Fixpoint quantifier_loop (kind : QuantifierKind) (predicate : RuntimeValue → eval RuntimeValue)
    (span : SourceSpan) (items : list RuntimeValue) (index true_count : Z) (any_null : bool)
    : eval RuntimeValue :=
  match items with
  | [] => mret (quantifier_result kind true_count any_null)
  | item :: items =>
      _ ← probe_interrupt index span;
      v ← predicate item;
      match as_bool v with
      | Some true =>
          let true_count := true_count + 1 in
          match kind with
          | QAny => mret (RBool true)
          | QNone => mret (RBool false)
          | QSingle =>
              if 1 <? true_count then mret (RBool false)
              else quantifier_loop kind predicate span items (index + 1) true_count any_null
          | QAll => quantifier_loop kind predicate span items (index + 1) true_count any_null
          end
      | Some false =>
          match kind with
          | QAll => mret (RBool false)
          | _ => quantifier_loop kind predicate span items (index + 1) true_count any_null
          end
      | None => quantifier_loop kind predicate span items (index + 1) true_count true
      end
  end.

(** ** [evaluate] *)

Definition case_matches (scrut_v : option RuntimeValue) (when_v : RuntimeValue) : bool :=
  match scrut_v with
  | Some s => is_equal s when_v
  | None => default false (as_bool when_v)
  end.

Definition pattern_comprehension_error : string :=
  "pattern comprehension evaluation requires storage access — must be hoisted to a PatternList operator before evaluate()".
Definition exists_error : string :=
  "EXISTS pattern predicates require storage access — must be hoisted to a SemiApply operator before evaluate()".

Fixpoint evaluate (e : Expression) (row : Row) (params : Params) {struct e} : eval RuntimeValue :=
  let 'mkExpression kind span := e in
  match kind with
  | ELiteral l => mret (literal_to_runtime l)
  | EReduce accumulator init variable list expression _ =>
      list_v ← evaluate list row params;
      list_operand list_v "reduce()" (expr_span list) (λ items,
        acc ← evaluate init row params;
        reduce_loop (λ acc item,
            evaluate expression
              (Row_set (Row_set row (id_name accumulator) acc) (id_name variable) item) params)
          (expr_span list) items 0 acc)
  | EStar => fail_at "`*` is only valid inside `count(*)`" span
  | EVariable id =>
      match Row_get row (id_name id) with
      | Some v => mret v
      | None => fail_at ("binding `" +:+ id_name id +:+ "` not bound") (id_span id)
      end
  | EParameter name =>
      match btree_get name params with
      | Some v => mret v
      | None => fail_at ("parameter `$" +:+ name +:+ "` not provided") span
      end
  | EProperty target key _ =>
      t ← evaluate target row params;
      mret (property_access t (id_name key))
  | EIndex target index =>
      t ← evaluate target row params;
      i ← evaluate index row params;
      mret (index_into t i)
  | ERange target from to =>
      t ← evaluate target row params;
      from_v ← match from with
               | Some x => v ← evaluate x row params; mret (Some v)
               | None => mret None
               end;
      to_v ← match to with
             | Some x => v ← evaluate x row params; mret (Some v)
             | None => mret None
             end;
      mret (range_into t from_v to_v)
  | EUnary op inner => v ← evaluate inner row params; mret (eval_unary op v)
  | EBinary op a b =>
      l ← evaluate a row params;
      r ← evaluate b row params;
      eval_binary op l r span
  | EIn item list =>
      item_v ← evaluate item row params;
      list_v ← evaluate list row params;
      mret (eval_in item_v list_v)
  | EStringTest op target pattern =>
      t ← evaluate target row params;
      p ← evaluate pattern row params;
      mret (eval_string_test op t p)
  | EIsNull inner negated =>
      v ← evaluate inner row params;
      mret (RBool (if negated : bool then negb (is_null v) else is_null v))
  | EFunctionCall name args _ =>
      args ← collect (λ a, evaluate a row params) args;
      call_scalar_function (to_ascii_lowercase (joined name)) args span
  | ECase scrutinee branches otherwise =>
      scrut_v ← match scrutinee with
                | Some s => v ← evaluate s row params; mret (Some v)
                | None => mret None
                end;
      (fix go (bs : list CaseBranch) : eval RuntimeValue :=
         match bs with
         | [] => match otherwise with Some x => evaluate x row params | None => mret RNull end
         | mkCaseBranch when_ then_ _ :: bs =>
             when_v ← evaluate when_ row params;
             if case_matches scrut_v when_v then evaluate then_ row params else go bs
         end) branches
  | EList items =>
      vs ← collect (λ x, evaluate x row params) items;
      mret (RList vs)
  | EMap entries _ =>
      kvs ← collect (λ '(k, x), v ← evaluate x row params; mret (id_name k, v)) entries;
      mret (RMap (foldl (λ m kv, btree_insert kv.1 kv.2 m) [] kvs))
  | EListComprehension variable list predicate projection _ =>
      list_v ← evaluate list row params;
      let local item := Row_set row (id_name variable) item in
      list_operand list_v "list comprehension" (expr_span list) (λ items,
        comprehension_loop
          match predicate with Some p => Some (λ item, evaluate p (local item) params) | None => None end
          match projection with Some p => Some (λ item, evaluate p (local item) params) | None => None end
          (expr_span list) items 0 [])
  | EQuantifier kind variable list predicate _ =>
      list_v ← evaluate list row params;
      list_operand list_v "list quantifier" (expr_span list) (λ items,
        quantifier_loop kind
          (λ item, evaluate predicate (Row_set row (id_name variable) item) params)
          (expr_span list) items 0 0 false)
  | EPatternComprehension _ _ _ _ _ => fail_at pattern_comprehension_error span
  | EExists _ | EExistsSubquery _ => fail_at exists_error span
  end.
End evaluator.
