(* ===== verification/ExprFacts.v ===== *)
(** Theorems about expression evaluation: conjunctions may be split and rebuilt,
    only division panics, values stay in range, list predicates follow
    three-valued logic, [range] returns its items, and evaluation reads only the
    variables of the expression. *)
From S2P Require Import Prelude Float StorageError Ast RuntimeValue Exec Scalar Functions Expr.

(** ** Equality of computations

    Two computations are equal when they agree from every reading of the host. *)

Definition exec_equiv {E A} : relation (exec E A) := pointwise_relation nat eq.
Infix "≈" := exec_equiv (at level 70) : namidb_scope.

#[global] Instance exec_equiv_equivalence E A : Equivalence (@exec_equiv E A).
Proof. unfold exec_equiv. apply _. Qed.

#[global] Instance exec_bind_proper E A B :
  Proper (pointwise_relation A exec_equiv ==> exec_equiv ==> exec_equiv)
         (@mbind (exec E) (exec_bind E) A B).
Proof.
  intros f g Hfg m m' Hm n. unfold mbind, exec_bind. rewrite (Hm n).
  destruct (m' n) as [[[a|e]|] n']; [apply Hfg|done..].
Qed.

Section laws.
Context {E : Type}.

Lemma bind_ret_l {A B} (a : A) (f : A → exec E B) : (x ← mret a; f x) ≈ f a.
Proof. by intros n. Qed.

Lemma bind_assoc {A B C} (m : exec E A) (f : A → exec E B) (g : B → exec E C) :
  (y ← (x ← m; f x); g y) ≈ (x ← m; y ← f x; g y).
Proof. intros n. unfold mbind, exec_bind. by destruct (m n) as [[[a|e]|] n']. Qed.
End laws.

(** ** Conjunctions *)

(** The value of [a AND b]: Kleene's conjunction. *)
Definition kleene_and (a b : RuntimeValue) : RuntimeValue :=
  match as_bool a, as_bool b with
  | Some false, _ | _, Some false => RBool false
  | Some true, Some true => RBool true
  | _, _ => RNull
  end.
Definition kleene_or (a b : RuntimeValue) : RuntimeValue :=
  match as_bool a, as_bool b with
  | Some true, _ | _, Some true => RBool true
  | Some false, Some false => RBool false
  | _, _ => RNull
  end.

Lemma kleene_and_assoc a b c : kleene_and a (kleene_and b c) = kleene_and (kleene_and a b) c.
Proof. unfold kleene_and. by destruct (as_bool a) as [[]|], (as_bool b) as [[]|], (as_bool c) as [[]|]. Qed.

Definition and_then (x y : eval RuntimeValue) : eval RuntimeValue :=
  l ← x; r ← y; mret (kleene_and l r).

#[global] Instance and_then_proper : Proper (exec_equiv ==> exec_equiv ==> exec_equiv) and_then.
Proof. intros x x' Hx y y' Hy. unfold and_then. rewrite Hx. by setoid_rewrite Hy. Qed.

Lemma and_then_assoc x y z : and_then x (and_then y z) ≈ and_then (and_then x y) z.
Proof.
  unfold and_then. rewrite bind_assoc. f_equiv. intros a.
  rewrite !bind_assoc. f_equiv. intros b. rewrite bind_assoc. setoid_rewrite bind_ret_l.
  f_equiv. intros c. by rewrite kleene_and_assoc.
Qed.

Lemma and_then_fold x xs y ys :
  foldl and_then (foldl and_then x xs) (y :: ys)
  ≈ and_then (foldl and_then x xs) (foldl and_then y ys).
Proof.
  generalize (foldl and_then x xs). intros w. cbn [foldl].
  revert w y. induction ys as [|z ys IH]; intros w y; [done|]. cbn [foldl].
  rewrite <- IH. cbn [foldl].
  assert (Hp : ∀ l u v, u ≈ v → foldl and_then u l ≈ foldl and_then v l).
  { induction l as [|t l IHl]; intros u v Huv; [done|]. cbn. apply IHl. by rewrite Huv. }
  apply Hp. by rewrite and_then_assoc.
Qed.

Section conjunctions.
Context `{Host, Libs}.

Lemma evaluate_and l r span row params :
  evaluate (mkExpression (EBinary And l r) span) row params
  ≈ and_then (evaluate l row params) (evaluate r row params).
Proof. done. Qed.

Lemma evaluate_and_chain t ts row params :
  evaluate (foldl and_pair t ts) row params
  ≈ foldl and_then (evaluate t row params) (map (λ e, evaluate e row params) ts).
Proof.
  revert t. induction ts as [|u ts IH]; intros t; [done|]. cbn [foldl map].
  by rewrite IH.
Qed.

Lemma split_and_walk_app e out : split_and_walk e out = out ++ split_and_terms e.
Proof.
  revert out. induction e as [kind span IH] using Expression_nested_ind. intros out.
  unfold split_and_terms.
  destruct kind as [| | | | | | |op l r| | | | | | | | | | | | | |]; try done.
  destruct op; try done. cbn [split_and_walk].
  cbn [children] in IH. apply Forall_cons in IH as [IHl [IHr _]%Forall_cons].
  rewrite (IHl out), (IHr (out ++ _)), (IHr (split_and_walk l [])). unfold split_and_terms.
  by rewrite app_assoc.
Qed.

Lemma split_and_binary l r span :
  split_and_terms (mkExpression (EBinary And l r) span) = split_and_terms l ++ split_and_terms r.
Proof. unfold split_and_terms at 1. cbn [split_and_walk]. by rewrite split_and_walk_app. Qed.

Lemma split_and_ne e : split_and_terms e ≠ [].
Proof.
  induction e as [kind span IH] using Expression_nested_ind.
  destruct kind as [| | | | | | |op l r| | | | | | | | | | | | | |]; try done.
  destruct op; try done. rewrite split_and_binary.
  cbn [children] in IH. apply Forall_cons in IH as [IHl _]. by destruct (split_and_terms l).
Qed.

(** The conjunction of a non-empty list of terms. *)
Definition all_of (ts : list Expression) (row : Row) (params : Params) : eval RuntimeValue :=
  match ts with
  | [] => mret (RBool true)
  | t :: ts => foldl and_then (evaluate t row params) (map (λ e, evaluate e row params) ts)
  end.

Lemma all_of_app ts us row params :
  ts ≠ [] → us ≠ [] → all_of (ts ++ us) row params ≈ and_then (all_of ts row params) (all_of us row params).
Proof.
  destruct ts as [|t ts], us as [|u us]; try done. intros _ _. cbn [all_of app].
  rewrite map_app, foldl_app. apply and_then_fold.
Qed.

Lemma all_of_split e row params : all_of (split_and_terms e) row params ≈ evaluate e row params.
Proof.
  induction e as [kind span IH] using Expression_nested_ind.
  destruct kind as [| | | | | | |op l r| | | | | | | | | | | | | |]; try done.
  destruct op; try done. rewrite split_and_binary.
  cbn [children] in IH. apply Forall_cons in IH as [IHl [IHr _]%Forall_cons].
  rewrite all_of_app by apply split_and_ne. rewrite IHl, IHr. by rewrite evaluate_and.
Qed.

Lemma and_chain_all_of ts e row params :
  and_chain ts = Some e → evaluate e row params ≈ all_of ts row params.
Proof. destruct ts as [|t ts]; [done|]. intros [= <-]. apply evaluate_and_chain. Qed.

(** Flattening a conjunction with [split_and_terms] and rebuilding it with
    [and_chain] yields an expression that evaluates exactly as the original: the
    same value, the same error, the same panic, after the same readings of the
    host. *)
Theorem and_chain_preserves e row params :
  ∃ e', and_chain (split_and_terms e) = Some e' ∧
    evaluate e' row params ≈ evaluate e row params.
Proof.
  destruct (and_chain (split_and_terms e)) as [e'|] eqn:Hc.
  - exists e'. split; [done|]. by rewrite (and_chain_all_of _ _ _ _ Hc), all_of_split.
  - destruct (split_and_terms e) eqn:Hs; [by apply split_and_ne in Hs|done].
Qed.
End conjunctions.

(** ** Properties of every evaluation

    A property of computations that holds of the evaluator's building blocks and is
    kept by sequencing holds of every evaluation. [allow] says whether the
    expressions may divide: only then must the property hold of a panic. *)

Class Closed `{Host, Libs} (allow : bool) (Q : ∀ A, eval A → Prop) : Prop := {
  closed_ret A (a : A) : Q A (mret a);
  closed_throw A e : Q A (throw e);
  closed_bind A B (m : eval A) (f : A → eval B) : Q A m → (∀ a, Q B (f a)) → Q B (m ≫= f);
  closed_interrupted : Q _ (read interrupted);
  closed_excess bytes : Q _ (read (λ n, transient_excess n bytes));
  closed_time : Q _ (read system_time);
  closed_panic A : allow = true → Q A panic;
}.

Section closed.
Context `{Host, Libs}.

(** The expression divides or takes a remainder somewhere. *)
Definition divides_op (op : BinaryOp) : bool := match op with Div | Mod => true | _ => false end.
Definition is_division (kind : ExpressionKind) : bool :=
  match kind with EBinary op _ _ => divides_op op | _ => false end.
Definition divides : Expression → bool := exists_node is_division.

Context {allow : bool} {Q : ∀ A, eval A → Prop} {HQ : Closed allow Q}.

Ltac closed_step :=
  first
    [ apply closed_ret | apply closed_throw | apply closed_interrupted | apply closed_excess
    | apply closed_time
    | apply closed_bind; [|intros ?]
    | assumption
    | progress unfold fail_at
    | intros ?
    | case_match ].
Ltac closed := repeat closed_step.

Lemma closed_probe index span : Q _ (probe_interrupt index span).
Proof. unfold probe_interrupt. closed. Qed.
Hint Resolve closed_probe : core.

Lemma closed_collect {A B} (f : A → eval B) l : (∀ a, a ∈ l → Q _ (f a)) → Q _ (collect f l).
Proof.
  induction l as [|a l IH]; intros Hf; cbn [collect]; [closed|].
  apply closed_bind; [apply Hf; set_solver|intros b].
  apply closed_bind; [apply IH; set_solver|closed].
Qed.

(** The loop of [range] ends before its fuel does. *)
Lemma closed_range_loop fuel i end_ step out span :
  step ≠ 0 →
  (if 0 <? step then end_ - i < (Z.of_nat fuel - 1) * step
   else i - end_ < (Z.of_nat fuel - 1) * - step) →
  (0 < fuel)%nat →
  Q _ (range_loop fuel i end_ step out span).
Proof.
  intros Hs. revert i out. induction fuel as [|fuel IH]; intros i out Hb ?; [lia|]. cbn [range_loop].
  destruct (_ || _) eqn:Hstop; [closed|]. apply closed_bind; [apply closed_probe|intros _].
  destruct ((i64_min <=? i + step) && _); [|closed].
  assert (Z.of_nat (S fuel) = Z.of_nat fuel + 1) as Hf by lia. rewrite Hf in Hb.
  apply orb_false_iff in Hstop as [Hup Hdown].
  rewrite andb_false_iff, !Z.ltb_ge in Hup. rewrite andb_false_iff, !Z.ltb_ge in Hdown.
  apply IH; destruct (Z.ltb_spec 0 step); nia.
Qed.

Lemma closed_range_ints start end_ step span : Q _ (range_ints start end_ step span).
Proof.
  unfold range_ints. destruct (Z.eqb_spec step 0) as [|Hs]; [closed|].
  apply closed_bind; [closed|intros _]. apply closed_bind; [closed|intros _].
  apply closed_range_loop; [done| |lia].
  unfold range_estimate. set (d := end_ - start). pose proof (Z.quot_rem d step Hs).
  pose proof (Z.rem_bound_abs d step Hs). destruct (Z.ltb_spec 0 step), (Z.ltb_spec (Z.quot d step) 0); nia.
Qed.

Lemma closed_want_int v fname span : Q _ (want_int v fname span).
Proof. unfold want_int. closed. Qed.
Lemma closed_single_arg name args span : Q _ (single_arg name args span).
Proof. unfold single_arg. closed. Qed.
Lemma closed_coerce_items bad span items idx : Q _ (coerce_items bad span items idx).
Proof.
  revert idx. induction items as [|x items IH]; intros idx; cbn [coerce_items]; [closed|].
  apply closed_bind; [closed|intros y]. apply closed_bind; [apply IH|closed].
Qed.
Lemma closed_coerce_vector v fname span : Q _ (coerce_vector v fname span).
Proof. unfold coerce_vector. case_match; try solve [closed]. apply closed_bind; [apply closed_coerce_items|closed]. Qed.

Lemma closed_call name args span : Q _ (call_scalar_function name args span).
Proof.
  unfold call_scalar_function. case_match; [apply closed_bind; [apply closed_single_arg|closed]|].
  repeat (case_match; [try solve [closed]|]); [..|closed].
  all: unfold range_fn, str_left_right, str_substring, substring_of, str_replace, str_split, tostring_fn,
    vector_fn, similarity_fn, vector_pair, bm25_fn, label_eq_fn, timestamp_fn, datetime_fn, date_fn,
    parse_iso_datetime, parse_iso_date, now_micros.
  all: repeat first [ apply closed_want_int | apply closed_single_arg | apply closed_coerce_items
                    | apply closed_coerce_vector | apply closed_range_ints | closed_step ].
Qed.

Lemma closed_binary op a b span :
  (divides_op op = true → allow = true) → Q _ (eval_binary op a b span).
Proof.
  intros Hdiv. unfold eval_binary. destruct op; cbn [divides_op] in Hdiv.
  all: try solve [closed].
  all: case_match; [solve [closed]|].
  all: unfold arith, arith_div, arith_pow, regex_match, int_op, rem_euclid, int_div.
  all: repeat first [ apply closed_panic; by apply Hdiv | closed_step ].
Qed.

(** ** Loops *)

Lemma closed_reduce_loop body span items index acc :
  (∀ a x, Q _ (body a x)) → Q _ (reduce_loop body span items index acc).
Proof.
  intros Hb. revert index acc. induction items as [|x items IH]; intros index acc; cbn [reduce_loop]; [closed|].
  apply closed_bind; [apply closed_probe|intros _]. apply closed_bind; [apply Hb|intros a; apply IH].
Qed.

Lemma closed_comprehension_loop predicate projection span items index out :
  (∀ p x, predicate = Some p → Q _ (p x)) → (∀ p x, projection = Some p → Q _ (p x)) →
  Q _ (comprehension_loop predicate projection span items index out).
Proof.
  intros Hp Hq. revert index out. induction items as [|x items IH]; intros index out; cbn [comprehension_loop]; [closed|].
  apply closed_bind; [apply closed_probe|intros _].
  apply closed_bind; [destruct predicate as [p|]; [apply closed_bind; [by apply Hp|closed]|closed]|].
  intros []; [|apply IH].
  apply closed_bind; [destruct projection as [p|]; [by apply Hq|closed]|intros y; apply IH].
Qed.

Lemma closed_quantifier_loop kind predicate span items index true_count any_null :
  (∀ x, Q _ (predicate x)) → Q _ (quantifier_loop kind predicate span items index true_count any_null).
Proof.
  intros Hp. revert index true_count any_null.
  induction items as [|x items IH]; intros index true_count any_null; cbn [quantifier_loop]; [closed|].
  apply closed_bind; [apply closed_probe|intros _]. apply closed_bind; [apply Hp|intros v].
  repeat case_match; first [apply IH | closed].
Qed.

Lemma closed_operand list_v what span k :
  (∀ items, Q _ (k items)) → Q _ (list_operand list_v what span k).
Proof. intros Hk. unfold list_operand. case_match; first [apply Hk | closed]. Qed.

Lemma closed_evaluate e row params :
  (divides e = true → allow = true) → Q _ (evaluate e row params).
Proof.
  revert row. induction e as [kind span IH] using Expression_nested_ind. intros row Hdiv.
  assert (Hsub : ∀ x, x ∈ children kind → ∀ row, Q _ (evaluate x row params)).
  { intros x Hx row'. rewrite Forall_forall in IH. apply (IH x Hx).
    intros Hd. apply Hdiv. by apply (exists_node_child _ _ _ x). }
  assert (Hbin : ∀ op l r a b, kind = EBinary op l r → Q _ (eval_binary op a b span)).
  { intros op l r a b ->. apply closed_binary. intros Hd. apply Hdiv. by apply exists_node_here. }
  clear IH Hdiv. destruct kind; cbn [evaluate children] in *.
  all: repeat first
    [ apply closed_call
    | eapply Hbin; reflexivity
    | apply closed_collect; intros ? ?
    | apply closed_operand
    | apply closed_reduce_loop
    | apply closed_quantifier_loop
    | apply closed_comprehension_loop
    | match goal with |- Q _ (evaluate _ _ _) =>
        apply Hsub; cbn [opt_list app]; rewrite ?elem_of_cons, ?elem_of_app, ?elem_of_cons; tauto end
    | closed_step ].
  1,2: clear Hbin; induction branches as [|[w t s] bs IHbs]; [closed; try (apply Hsub; set_solver)|].
  1,2: apply closed_bind; [apply Hsub; set_solver|intros v].
  1,2: case_match; [apply Hsub; set_solver|].
  1,2: apply IHbs; intros x Hx; apply Hsub; set_solver.
  1: eapply Hsub, list_elem_of_In, (in_map snd _ (_, _)), list_elem_of_In; eassumption.
  all: clear Hbin; repeat match goal with o : option Expression |- _ => destruct o end.
  all: simplify_eq; apply Hsub; cbn [opt_list app]; rewrite !elem_of_cons; tauto.
Qed.
End closed.

(** ** Steady hosts

    On a host whose answers do not change, an evaluation does not depend on when it
    runs. *)

Class SteadyHost `{Host} : Prop := {
  steady_interrupted n n' : interrupted n = interrupted n';
  steady_excess n n' bytes : transient_excess n bytes = transient_excess n' bytes;
  steady_time n n' : system_time n = system_time n';
}.

Definition steady {E A} (m : exec E A) : Prop := ∀ n n', (m n).1 = (m n').1.

Lemma steady_bind {E A B} (m : exec E A) (f : A → exec E B) :
  steady m → (∀ a, steady (f a)) → steady (m ≫= f).
Proof.
  intros Hm Hf n n'. unfold mbind, exec_bind. specialize (Hm n n').
  destruct (m n) as [[[a|e]|] k], (m n') as [[[a'|e']|] k']; simplify_eq/=; [apply Hf|done..].
Qed.

#[global] Instance steady_closed `{Host, Libs, !SteadyHost} : Closed true (@steady EvalError).
Proof.
  split; try done.
  - intros A B. apply steady_bind.
  - intros n n'. unfold read. cbn [fst]. by rewrite (steady_interrupted n n').
  - intros bytes n n'. unfold read. cbn [fst]. by rewrite (steady_excess n n').
  - intros n n'. unfold read. cbn [fst]. by rewrite (steady_time n n').
Qed.

Lemma evaluate_steady `{Host, Libs, !SteadyHost} e row params : steady (evaluate e row params).
Proof. by apply (closed_evaluate (allow := true) (Q := @steady EvalError)). Qed.

(** ** Panics *)

Definition safe {E A} (m : exec E A) : Prop := ∀ n, (m n).1 ≠ None.

#[global] Instance safe_closed `{Host, Libs} : Closed false (@safe EvalError).
Proof.
  split; try done. intros A B m f Hm Hf n. unfold mbind, exec_bind.
  specialize (Hm n). destruct (m n) as [[[a|e]|] k]; [apply Hf|done..].
Qed.


(** The variables an expression reads ([optimize/mod.rs], [expression_aliases]),
    and the frame property the optimizer relies on: evaluation depends on no other
    binding of the row. *)

(** The visitors, each returning what it inserts into the output set. *)
Fixpoint visit_expression (e : Expression) : gset string :=
  let all := fix all (es : list Expression) : gset string :=
    match es with [] => ∅ | x :: es => visit_expression x ∪ all es end in
  let opt (o : option Expression) : gset string :=
    match o with Some x => visit_expression x | None => ∅ end in
  let entries := fix entries (m : list (Identifier * Expression)) : gset string :=
    match m with [] => ∅ | (_, x) :: m => visit_expression x ∪ entries m end in
  let 'mkExpression kind _ := e in
  match kind with
  | EVariable id => {[ id_name id ]}
  | EProperty target _ _ => visit_expression target
  | EIndex a b | EBinary _ a b | EIn a b | EStringTest _ a b => visit_expression a ∪ visit_expression b
  | ERange target from to => visit_expression target ∪ opt from ∪ opt to
  | EUnary _ x | EIsNull x _ => visit_expression x
  | EFunctionCall _ args _ => all args
  | ECase scrutinee branches otherwise =>
      opt scrutinee
      ∪ (fix go (bs : list CaseBranch) : gset string :=
           match bs with
           | [] => ∅
           | mkCaseBranch when_ then_ _ :: bs => visit_expression when_ ∪ visit_expression then_ ∪ go bs
           end) branches
      ∪ opt otherwise
  | EExists pe => visit_pattern_element pe
  | EExistsSubquery (mkMatchClause _ patterns where_ _) =>
      (fix go (ps : list PatternPart) : gset string :=
         match ps with
         | [] => ∅
         | mkPatternPart _ element _ _ :: ps => visit_pattern_element element ∪ go ps
         end) patterns
      ∪ opt where_
  | EList items => all items
  | EMap m _ => entries m
  | EListComprehension variable list predicate projection _ =>
      visit_expression list ∪ opt predicate ∪ opt projection ∪ {[ id_name variable ]}
  | EQuantifier _ variable list predicate _ =>
      visit_expression list ∪ visit_expression predicate ∪ {[ id_name variable ]}
  | EReduce accumulator init variable list expression _ =>
      visit_expression init ∪ visit_expression list ∪ visit_expression expression
      ∪ {[ id_name accumulator; id_name variable ]}
  | EPatternComprehension binding pattern predicate projection _ =>
      match binding with Some b => {[ id_name b ]} | None => ∅ end
      ∪ visit_pattern_element pattern ∪ opt predicate ∪ visit_expression projection
  | ELiteral _ | EParameter _ | EStar => ∅
  end
with visit_pattern_element (pe : PatternElement) : gset string :=
  let 'mkPatternElement head chain _ := pe in
  visit_node_pattern head
  ∪ (fix go (c : list (RelationshipPattern * NodePattern)) : gset string :=
       match c with
       | [] => ∅
       | (rel, node) :: c => visit_relationship_pattern rel ∪ visit_node_pattern node ∪ go c
       end) chain
with visit_node_pattern (np : NodePattern) : gset string :=
  let 'mkNodePattern binding _ _ properties _ := np in
  match binding with Some b => {[ id_name b ]} | None => ∅ end
  ∪ match properties with Some p => visit_pattern_properties p | None => ∅ end
with visit_relationship_pattern (rp : RelationshipPattern) : gset string :=
  let 'mkRelationshipPattern _ binding _ _ properties _ := rp in
  match binding with Some b => {[ id_name b ]} | None => ∅ end
  ∪ match properties with Some p => visit_pattern_properties p | None => ∅ end
with visit_pattern_properties (p : PatternProperties) : gset string :=
  match p with
  | PLiteral m _ =>
      (fix entries (m : list (Identifier * Expression)) : gset string :=
         match m with [] => ∅ | (_, x) :: m => visit_expression x ∪ entries m end) m
  | PParameter _ _ => ∅
  end.

Definition expression_aliases (e : Expression) : gset string := visit_expression e.

(** ** Frame *)

Lemma aliases_child kind span x :
  x ∈ children kind → expression_aliases x ⊆ expression_aliases (mkExpression kind span).
Proof.
  intros Hin. unfold expression_aliases. destruct kind; cbn [children] in Hin; cbn [visit_expression].
  all: rewrite ?elem_of_app, ?elem_of_cons, ?elem_of_nil in Hin.
  all: try (destruct_or?; subst; set_solver).
  - destruct from, to; cbn [opt_list] in Hin; set_unfold; destruct_or?; subst; set_solver.
  - induction args as [|y l IH]; set_solver.
  - destruct Hin as [Hs|[Hb|Ho]].
    + destruct scrutinee; cbn [opt_list] in Hs; set_solver.
    + induction branches as [|[w t s] bs IH]; cbn [map concat branch_exprs] in Hb; set_solver.
    + destruct otherwise; cbn [opt_list] in Ho; set_solver.
  - induction items as [|y l IH]; set_solver.
  - induction entries as [|[k y] l IH]; cbn [map snd] in Hin; set_solver.
  - destruct predicate, projection; cbn [opt_list] in Hin; set_unfold; destruct_or?; subst; set_solver.
Qed.

(** Two rows bind the variables of [xs] alike. *)
Definition agree (xs : gset string) (row row' : Row) : Prop := ∀ x, x ∈ xs → Row_get row x = Row_get row' x.

Lemma agree_set xs row row' y v : agree xs row row' → agree xs (Row_set row y v) (Row_set row' y v).
Proof. intros Ha x Hx. unfold Row_get, Row_set. cbn. rewrite !btree_get_insert. case_match; [done|by apply Ha]. Qed.
Lemma agree_mono xs ys row row' : xs ⊆ ys → agree ys row row' → agree xs row row'.
Proof. intros Hs Ha x Hx. apply Ha. set_solver. Qed.

Section frame.
Context `{Host, Libs}.

(** The loops depend on their bodies only through their behaviour. *)
Lemma collect_congr {E A B} (f g : A → exec E B) l :
  (∀ a, a ∈ l → f a ≈ g a) → collect f l ≈ collect g l.
Proof.
  induction l as [|a l IH]; intros Hf; cbn [collect]; [done|].
  rewrite (Hf a) by set_solver. f_equiv. intros b. rewrite IH by set_solver. done.
Qed.
Lemma reduce_loop_congr f g span items index acc :
  (∀ a x, f a x ≈ g a x) → reduce_loop f span items index acc ≈ reduce_loop g span items index acc.
Proof.
  intros Hf. revert index acc. induction items as [|x items IH]; intros index acc; cbn [reduce_loop]; [done|].
  f_equiv. intros _. rewrite Hf. f_equiv. intros a. apply IH.
Qed.
Lemma quantifier_loop_congr kind f g span items index tc an :
  (∀ x, f x ≈ g x) →
  quantifier_loop kind f span items index tc an ≈ quantifier_loop kind g span items index tc an.
Proof.
  intros Hf. revert index tc an. induction items as [|x items IH]; intros index tc an; cbn [quantifier_loop]; [done|].
  f_equiv. intros _. rewrite Hf. f_equiv. intros v. repeat case_match; first [apply IH|done].
Qed.

(** Optional bodies that behave alike. *)
Definition same_body : relation (option (RuntimeValue → eval RuntimeValue)) :=
  option_Forall2 (λ f g, ∀ x, f x ≈ g x).

Lemma comprehension_loop_congr p q p' q' span items index out :
  same_body p p' → same_body q q' →
  comprehension_loop p q span items index out ≈ comprehension_loop p' q' span items index out.
Proof.
  intros Hp Hq. revert index out. induction items as [|x items IH]; intros index out; cbn [comprehension_loop]; [done|].
  f_equiv. intros _. destruct Hp as [f g Hf|]; [rewrite Hf|]; f_equiv; intros []; try apply IH.
  all: destruct Hq as [f' g' Hf'|]; [rewrite Hf'|]; f_equiv; intros y; apply IH.
Qed.
Lemma list_operand_congr v what span f g :
  (∀ items, f items ≈ g items) → list_operand v what span f ≈ list_operand v what span g.
Proof. intros Hf. unfold list_operand. by case_match. Qed.

(** On two rows that agree on its variables, an expression evaluates alike. *)
Lemma evaluate_agree e row row' params :
  agree (expression_aliases e) row row' → evaluate e row params ≈ evaluate e row' params.
Proof.
  revert row row'. induction e as [kind span IH] using Expression_nested_ind. intros row row' Ha.
  assert (Hsub : ∀ x, x ∈ children kind → ∀ row row', agree (expression_aliases (mkExpression kind span)) row row' →
                 evaluate x row params ≈ evaluate x row' params).
  { intros x Hx r r' Hr. rewrite Forall_forall in IH. apply IH; [done|].
    eapply agree_mono; [|done]. by apply aliases_child. }
  clear IH. destruct kind; cbn [evaluate children] in *; try done.
  all: try (apply exec_bind_proper; [intros ?|apply Hsub; [set_solver|done]]).
  all: try (apply exec_bind_proper; [intros ?|apply Hsub; [set_solver|done]]).
  all: try done.
  - rewrite (Ha (id_name id)); [done|]. unfold expression_aliases. cbn. set_solver.
  - repeat (apply exec_bind_proper; [intros ?|]); [done|..].
    all: case_match; [|done]; apply exec_bind_proper; [done|apply Hsub; [set_solver|done]].
  - apply exec_bind_proper; [done|]. apply collect_congr. intros x Hx. by apply Hsub.
  - apply exec_bind_proper.
    2: { case_match; [|done]. apply exec_bind_proper; [done|apply Hsub; [set_solver|done]]. }
    intros scrut. set (A := expression_aliases _) in Ha, Hsub. clearbody A.
    induction branches as [|[w t s] bs IHbs].
    + case_match; [apply Hsub; [set_solver|done]|done].
    + apply exec_bind_proper; [intros v|apply Hsub; [set_solver|done]].
      destruct (case_matches scrut v); [apply Hsub; [set_solver|done]|].
      apply IHbs. intros x Hx. apply Hsub. set_solver.
  - apply exec_bind_proper; [done|]. apply collect_congr. intros x Hx. by apply Hsub.
  - apply exec_bind_proper; [done|]. apply collect_congr. intros [k x] Hx.
    apply exec_bind_proper; [done|]. apply Hsub; [|done].
    by apply list_elem_of_In, (in_map snd _ (_, _)), list_elem_of_In in Hx.
  - apply list_operand_congr. intros items. apply comprehension_loop_congr.
    all: case_match; constructor; intros item; apply Hsub; [set_solver|by apply agree_set].
  - apply list_operand_congr. intros items. apply quantifier_loop_congr. intros item.
    apply Hsub; [set_solver|by apply agree_set].
  - apply list_operand_congr. intros items. apply exec_bind_proper; [intros acc|apply Hsub; [set_solver|done]].
    apply reduce_loop_congr. intros acc' item. apply Hsub; [set_solver|by do 2 apply agree_set].
Qed.

(** Evaluation reads no binding outside [expression_aliases]: on two rows that
    agree on those variables, an expression evaluates identically (value, error or
    panic), however else the rows differ. This is what lets the optimizer move a
    predicate past an operator that only changes other bindings. *)
Theorem evaluate_frame e row row' params :
  agree (expression_aliases e) row row' → evaluate e row params ≈ evaluate e row' params.
Proof. apply evaluate_agree. Qed.
End frame.
