(* ===== verification/ExprLogic.v ===== *)
(** Three-valued list predicates ([IN], [all], [any], [none], [single]) and the
    items of [range]. *)
From S2P Require Import Prelude Float StorageError Ast RuntimeValue Exec Scalar Functions Expr ExprFacts.

(** ** Three-valued aggregation *)

Definition kleene_not (v : RuntimeValue) : RuntimeValue :=
  match as_bool v with Some b => RBool (negb b) | None => RNull end.

Definition count_true (vs : list RuntimeValue) : Z :=
  Z.of_nat (length (List.filter (λ v, bool_decide (as_bool v = Some true)) vs)).

(** What a quantifier means for the values its predicate takes: the disjunction,
    the conjunction, the negated disjunction; [single] counts what is true and
    takes no notice of what is unknown. *)
Definition three_valued (kind : QuantifierKind) (vs : list RuntimeValue) : RuntimeValue :=
  match kind with
  | QAny => foldr kleene_or (RBool false) vs
  | QAll => foldr kleene_and (RBool true) vs
  | QNone => kleene_not (foldr kleene_or (RBool false) vs)
  | QSingle => RBool (count_true vs =? 1)
  end.

(** The value so far, while no element has decided the answer. *)
Definition undecided (any_null : bool) (b : bool) : RuntimeValue := if any_null then RNull else RBool b.

Lemma kleene_or_undecided vs an : 
  foldr kleene_or (undecided an false) vs = RBool true ∨
  ∃ an', foldr kleene_or (undecided an false) vs = undecided an' false.
Proof.
  induction vs as [|v vs IH]; cbn [foldr]; [right; by exists an|].
  destruct IH as [->|[an' ->]]; unfold kleene_or; destruct (as_bool v) as [[]|], an; try destruct an'; cbn; eauto.
  all: try (right; by exists true). all: right; by exists false.
Qed.

Lemma kleene_and_undecided vs an :
  foldr kleene_and (undecided an true) vs = RBool false ∨
  ∃ an', foldr kleene_and (undecided an true) vs = undecided an' true.
Proof.
  induction vs as [|v vs IH]; cbn [foldr]; [right; by exists an|].
  destruct IH as [->|[an' ->]]; unfold kleene_and; destruct (as_bool v) as [[]|], an; try destruct an'; cbn; eauto.
  all: try (right; by exists true). all: right; by exists false.
Qed.

(** An unknown element only turns an undecided answer into an unknown one. *)
Lemma kleene_or_null v vs an :
  as_bool v = None →
  kleene_or v (foldr kleene_or (undecided an false) vs) = foldr kleene_or (undecided true false) vs.
Proof.
  intros Hv. induction vs as [|w vs IH]; cbn [foldr]; [by destruct an; unfold kleene_or; rewrite Hv|].
  rewrite <- IH. clear IH. generalize (foldr kleene_or (undecided an false) vs). intros r. unfold kleene_or. rewrite Hv.
  by destruct (as_bool w) as [[]|], (as_bool r) as [[]|].
Qed.
Lemma kleene_and_null v vs an :
  as_bool v = None →
  kleene_and v (foldr kleene_and (undecided an true) vs) = foldr kleene_and (undecided true true) vs.
Proof.
  intros Hv. induction vs as [|w vs IH]; cbn [foldr]; [by destruct an; unfold kleene_and; rewrite Hv|].
  rewrite <- IH. clear IH. generalize (foldr kleene_and (undecided an true) vs). intros r. unfold kleene_and. rewrite Hv.
  by destruct (as_bool w) as [[]|], (as_bool r) as [[]|].
Qed.

Lemma kleene_or_false vs an v :
  as_bool v = Some false →
  kleene_or v (foldr kleene_or (undecided an false) vs) = foldr kleene_or (undecided an false) vs.
Proof.
  intros Hv. unfold kleene_or at 1. rewrite Hv.
  destruct (kleene_or_undecided vs an) as [->|[[] ->]]; done.
Qed.
Lemma kleene_and_true vs an v :
  as_bool v = Some true →
  kleene_and v (foldr kleene_and (undecided an true) vs) = foldr kleene_and (undecided an true) vs.
Proof.
  intros Hv. unfold kleene_and at 1. rewrite Hv.
  destruct (kleene_and_undecided vs an) as [->|[[] ->]]; done.
Qed.

Lemma kleene_or_true v r : as_bool v = Some true → kleene_or v r = RBool true.
Proof. intros Hv. unfold kleene_or. by rewrite Hv. Qed.
Lemma kleene_and_false v r : as_bool v = Some false → kleene_and v r = RBool false.
Proof. intros Hv. unfold kleene_and. by rewrite Hv. Qed.

(** [a = b] as a value *)
Definition equality (a b : RuntimeValue) : RuntimeValue :=
  if is_null a || is_null b then RNull else RBool (is_equal a b).

(** [item IN list] is the disjunction of the equalities. *)
Lemma in_three_valued item items :
  is_null item = false →
  eval_in item (RList items) = three_valued QAny (map (equality item) items).
Proof.
  intros Hn. unfold eval_in, three_valued. rewrite Hn. cbn [orb is_null].
  cut (∀ an, in_loop item items an = foldr kleene_or (undecided an false) (map (equality item) items)).
  { intros Hall. apply (Hall false). }
  induction items as [|v items IH]; intros an; [by destruct an|]. cbn [in_loop map foldr].
  destruct (is_null v) eqn:Hv.
  { rewrite kleene_or_null; [apply IH|]. unfold equality. by rewrite Hv, orb_true_r. }
  unfold equality at 1. rewrite Hn, Hv. cbn [orb]. destruct (is_equal item v).
  - unfold kleene_or at 1. done.
  - rewrite kleene_or_false by done. apply IH.
Qed.

Section quantifiers.
Context `{Host, Libs, !QuietHost}.

Lemma quiet_probe index span n : ∃ n', probe_interrupt index span n = (Some (Ok ()), n').
Proof.
  unfold probe_interrupt. case_match; [by exists n|]. exists (S n).
  unfold mbind, exec_bind, read. by rewrite quiet_interrupted.
Qed.

(** What the loop returns from its counters. *)
Definition loop_value (kind : QuantifierKind) (true_count : Z) (an : bool) (vs : list RuntimeValue)
    : RuntimeValue :=
  match kind with
  | QAny => foldr kleene_or (undecided an false) vs
  | QAll => foldr kleene_and (undecided an true) vs
  | QNone => kleene_not (foldr kleene_or (undecided an false) vs)
  | QSingle => RBool (true_count + count_true vs =? 1)
  end.

Lemma quantifier_loop_value kind predicate (pv : RuntimeValue → RuntimeValue) span items index tc an n :
  (∀ item, item ∈ items → ∀ n, (predicate item n).1 = Some (Ok (pv item))) →
  0 ≤ tc → (kind = QSingle → tc ≤ 1) →
  (quantifier_loop kind predicate span items index tc an n).1
  = Some (Ok (loop_value kind tc an (map pv items))).
Proof.
  intros Hp. revert index tc an n. induction items as [|item items IH]; intros index tc an n Htc Hsingle.
  { cbn. unfold loop_value, quantifier_result, count_true. destruct kind, an; cbn; try done. all: by rewrite Z.add_0_r. }
  assert (IH' := IH (λ x Hx, Hp x (list_elem_of_further _ _ _ Hx))). clear IH.
  cbn [quantifier_loop map].
  destruct (quiet_probe index span n) as [n1 Hprobe].
  unfold mbind at 1, exec_bind at 1. rewrite Hprobe.
  pose proof (Hp item (list_elem_of_here _ _) n1) as Hv.
  unfold mbind, exec_bind. destruct (predicate item n1) as [o n2]. cbn [fst] in Hv. subst o.
  assert (Hct : ∀ vs, count_true (pv item :: vs)
                      = match as_bool (pv item) with Some true => 1 | _ => 0 end + count_true vs).
  { intros vs. unfold count_true. cbn [List.filter].
    destruct (as_bool (pv item)) as [[]|]; case_bool_decide; try done; cbn [length]; lia. }
  assert (0 ≤ count_true (map pv items)) by (unfold count_true; lia).
  destruct (as_bool (pv item)) as [[]|] eqn:Hb; destruct kind; cbn [loop_value foldr]; rewrite ?Hct.
  all: try (rewrite IH' by (done || lia); cbn [loop_value]).
  all: rewrite ?kleene_or_null, ?kleene_and_null, ?kleene_or_false, ?kleene_and_true,
    ?kleene_or_true, ?kleene_and_false by done.
  all: try done.
  destruct (Z.ltb_spec 1 (tc + 1)).
  - cbn. do 2 f_equal. symmetry. f_equal. apply Z.eqb_neq. lia.
  - rewrite IH' by lia. cbn [loop_value]. by rewrite Z.add_assoc.
Qed.

(** A quantifier over a list whose predicate evaluates to [pv item] for each
    item returns the three-valued aggregate of those values: [any] their
    disjunction, [all] their conjunction, [none] the negated disjunction, with NULL
    exactly when an unknown element leaves the answer open. [single] returns
    whether exactly one value is true, and never NULL: an unknown element counts as
    false. *)
Theorem quantifier_three_valued kind x list predicate qspan span row params n n0 items pv :
  evaluate list row params n = (Some (Ok (RList items)), n0) →
  (∀ item, item ∈ items → ∀ k,
     (evaluate predicate (Row_set row (id_name x) item) params k).1 = Some (Ok (pv item))) →
  (evaluate (mkExpression (EQuantifier kind x list predicate qspan) span) row params n).1
  = Some (Ok (three_valued kind (map pv items))).
Proof.
  intros Hl Hp. cbn [evaluate]. unfold mbind, exec_bind. rewrite Hl. cbn [list_operand].
  rewrite (quantifier_loop_value _ _ pv) by (done || lia). by destruct kind.
Qed.
End quantifiers.

(** ** Ranges *)

(** The items of [range(start, end, step)], as a mathematical progression. *)
Definition range_count (start end_ step : Z) : nat :=
  Z.to_nat (if 0 <? step then (end_ - start) / step + 1 else (start - end_) / - step + 1).
Definition range_items (start end_ step : Z) : list RuntimeValue :=
  map (λ k, RInteger (start + Z.of_nat k * step)) (seq 0 (range_count start end_ step)).

Section ranges.
Context `{Host, Libs}.

(** The loop has passed the end. *)
Definition past (i end_ step : Z) : bool := ((0 <? step) && (end_ <? i)) || ((step <? 0) && (i <? end_)).

Lemma past_spec i end_ step : past i end_ step = true ↔ (if 0 <? step then end_ < i else step < 0 ∧ i < end_).
Proof.
  unfold past. rewrite orb_true_iff, !andb_true_iff, !Z.ltb_lt. destruct (Z.ltb_spec 0 step); lia.
Qed.

Lemma range_count_past i end_ step : step ≠ 0 → past i end_ step = true → range_count i end_ step = 0%nat.
Proof.
  rewrite past_spec. unfold range_count. destruct (Z.ltb_spec 0 step); intros ??.
  - pose proof (Z.div_lt_upper_bound (end_ - i) step 0). lia.
  - pose proof (Z.div_lt_upper_bound (i - end_) (- step) 0). lia.
Qed.

Lemma range_count_step i end_ step :
  step ≠ 0 → past i end_ step = false →
  range_count i end_ step = S (range_count (i + step) end_ step).
Proof.
  intros ? Hp. rewrite <- not_true_iff_false, past_spec in Hp. unfold range_count.
  destruct (Z.ltb_spec 0 step).
  - replace (end_ - i) with (end_ - (i + step) + 1 * step) by lia. rewrite Z.div_add by lia.
    pose proof (Z.div_pos (end_ - (i + step) + 1 * step) step). rewrite Z.div_add in * by lia. lia.
  - replace (i - end_) with (i + step - end_ + 1 * - step) by lia. rewrite Z.div_add by lia.
    pose proof (Z.div_pos (i + step - end_ + 1 * - step) (- step)). rewrite Z.div_add in * by lia. lia.
Qed.

Lemma range_items_step i end_ step :
  step ≠ 0 → past i end_ step = false →
  range_items i end_ step = RInteger i :: range_items (i + step) end_ step.
Proof.
  intros. unfold range_items. rewrite range_count_step by done. cbn [seq map].
  rewrite Z.mul_0_l, Z.add_0_r, <- seq_shift, map_map. f_equal. apply map_ext. intros k. f_equal. lia.
Qed.

Lemma range_loop_items fuel i end_ step out span n :
  step ≠ 0 → i64_ok end_ = true → i64_ok i = true → (range_count i end_ step < fuel)%nat →
  (range_loop fuel i end_ step out span n).1 = Some (Ok (RList (out ++ range_items i end_ step))) ∨
  (∃ e k, (range_loop fuel i end_ step out span n).1 = Some (Err e) ∧ interrupted k ≠ None).
Proof.
  intros Hs He. revert i out n. induction fuel as [|fuel IH]; intros i out n Hi64 Hf; [lia|].
  cbn [range_loop]. fold (past i end_ step). destruct (past i end_ step) eqn:Hp.
  { left. unfold range_items. rewrite range_count_past by done. cbn. by rewrite app_nil_r. }
  rewrite (range_items_step i) by done. rewrite range_count_step in Hf by done.
  unfold mbind, exec_bind.
  assert (Hprobe : (∃ n', probe_interrupt (Z.of_nat (length out)) span n = (Some (Ok ()), n')) ∨
                   (∃ e k, probe_interrupt (Z.of_nat (length out)) span n = (Some (Err e), k) ∧ interrupted n ≠ None)).
  { unfold probe_interrupt. case_match; [left; by exists n|].
    unfold mbind, exec_bind, read. destruct (interrupted n) as [[]|] eqn:Hi; [right|right|left]; eauto. }
  destruct Hprobe as [[n' ->]|(e & k & -> & Hi)]; [|right; by exists e, n].
  destruct (_ && _) eqn:Hr in |- *.
  { rewrite (cons_middle _ out (range_items (i + step) end_ step)), app_assoc. apply IH; [done|lia]. }
  left. assert (Hnext : past (i + step) end_ step = true).
  { rewrite past_spec. rewrite <- not_true_iff_false, past_spec in Hp.
    unfold i64_ok in He, Hi64. rewrite andb_true_iff, !Z.leb_le in He, Hi64. rewrite andb_false_iff, !Z.leb_gt in Hr.
    destruct (Z.ltb_spec 0 step); lia. }
  unfold range_items. by rewrite (range_count_past (i + step)).
Qed.

Lemma range_estimate_bounds start end_ step :
  step ≠ 0 →
  Z.of_nat (range_count start end_ step) ≤ range_estimate start end_ step
  ≤ Z.of_nat (range_count start end_ step) + 1.
Proof.
  intros Hs. unfold range_count, range_estimate. set (d := end_ - start).
  replace (start - end_) with (- d) by lia.
  pose proof (Z.quot_rem d step Hs). pose proof (Z.rem_bound_abs d step Hs).
  pose proof (Z.rem_sign_nz d step Hs).
  destruct (Z.ltb_spec 0 step).
  - pose proof (Z.div_mod d step). pose proof (Z.mod_pos_bound d step).
    destruct (Z.ltb_spec (Z.quot d step) 0); nia.
  - pose proof (Z.div_mod (- d) (- step)). pose proof (Z.mod_pos_bound (- d) (- step)).
    destruct (Z.ltb_spec (Z.quot d step) 0); nia.
Qed.

Lemma range_ints_outcome start end_ step span n :
  step ≠ 0 → i64_ok start = true → i64_ok end_ = true →
  (range_ints start end_ step span n).1 = Some (Ok (RList (range_items start end_ step))) ∧
    (∀ cap, scoped_row_cap = Some cap → Z.of_nat (length (range_items start end_ step)) ≤ cap) ∨
  (∃ e, (range_ints start end_ step span n).1 = Some (Err e)) ∧
    ((∃ cap, scoped_row_cap = Some cap ∧ cap < range_estimate start end_ step) ∨
     (∃ k, interrupted k ≠ None) ∨
     (memory_scoped = true ∧ ∃ k bytes, transient_excess k bytes ≠ None)).
Proof.
  intros Hs Hi He. unfold range_ints. rewrite (proj2 (Z.eqb_neq step 0) Hs).
  pose proof (range_estimate_bounds start end_ step Hs) as Hest.
  assert (Hlen : length (range_items start end_ step) = range_count start end_ step).
  { unfold range_items. by rewrite length_map, length_seq. }
  rewrite Hlen. set (len := range_estimate start end_ step) in *.
  unfold mbind, exec_bind, read. destruct scoped_row_cap as [cap|] eqn:Hcap.
  1: destruct (Z.ltb_spec cap len); [right; split; [by eexists|left; by exists cap]|].
  all: destruct memory_scoped; cbv beta iota zeta delta [mret exec_ret throw].
  1, 3: destruct (transient_excess _ _) eqn:Hx; [right; split; [by eexists|right; right; split; [done|by eexists _, _; rewrite Hx]]|].
  all: match goal with |- context [range_loop ?f ?a ?b ?c [] ?s ?k] =>
         destruct (range_loop_items f a b c [] s k) as [->|(e & k' & -> & ?)]; [done..|lia|left|right] end.
  all: try (split; [by eexists|right; left; by exists k']).
  all: split; [done|intros ? [= <-]; lia].
Qed.

(** [range(start, end, step)] over 64-bit integers with a non-zero step
    returns exactly the arithmetic progression from [start] to [end], including the
    case where the next element would overflow; it never returns more items than
    the row cap in scope; and it fails only when the cap is below its estimate
    (which is at most one item above the true length), when the query is
    interrupted, or when the memory budget refuses the list. *)
Theorem range_progression start end_ step span n :
  step ≠ 0 → i64_ok start = true → i64_ok end_ = true →
  let r := (range_fn [RInteger start; RInteger end_; RInteger step] span n).1 in
  let items := range_items start end_ step in
  (r = Some (Ok (RList items)) ∧ ∀ cap, scoped_row_cap = Some cap → Z.of_nat (length items) ≤ cap) ∨
  ((∃ e, r = Some (Err e)) ∧
   ((∃ cap, scoped_row_cap = Some cap ∧ cap ≤ Z.of_nat (length items)) ∨
    (∃ k, interrupted k ≠ None) ∨
    (memory_scoped = true ∧ ∃ k bytes, transient_excess k bytes ≠ None))).
Proof.
  intros Hs Hi He r items. destruct (range_ints_outcome start end_ step span n Hs Hi He) as [?|[? Hwhy]].
  - by left.
  - right. split; [done|]. destruct Hwhy as [(cap & Hc & Hlt)|?]; [left|by right].
    exists cap. split; [done|]. pose proof (range_estimate_bounds start end_ step Hs).
    unfold items, range_items. rewrite length_map, length_seq. lia.
Qed.
End ranges.
