(* ===== verification/ExprTyping.v ===== *)
(** Evaluation keeps values well-formed: 64-bit integers stay in range through
    wrapping arithmetic, maps keep their keys in order. *)
From Stdlib Require Import SpecFloat.
From S2P Require Import Prelude Float StorageError Ast RuntimeValue Exec Scalar Functions Expr.

(** What [chrono] returns: timestamps are [i64] microseconds, and its dates lie
    within 262143 years of the common era. *)
Class LibsTyped `{Libs} : Prop := {
  rfc3339_typed s m : parse_from_rfc3339 s = Some m → i64_ok m = true;
  naive_datetime_typed fmt s m : parse_naive_datetime fmt s = Some m → i64_ok m = true;
  naive_date_typed s d : parse_naive_date s = Some d → - 10 ^ 8 ≤ d ≤ 10 ^ 8;
}.

(** ** Computations that return values satisfying a predicate *)

Definition returns {E A} (P : A → Prop) (m : exec E A) : Prop :=
  ∀ n a n', m n = (Some (Ok a), n') → P a.

Lemma returns_ret {E A} (P : A → Prop) a : P a → returns P (mret a : exec E A).
Proof. intros Ha n b n' [= <-]. done. Qed.
Lemma returns_throw {E A} (P : A → Prop) (e : E) : returns P (throw e).
Proof. done. Qed.
Lemma returns_panic {E A} (P : A → Prop) : returns P (panic : exec E A).
Proof. done. Qed.
Lemma returns_any {E A} (m : exec E A) : returns (λ _, True) m.
Proof. done. Qed.
Lemma returns_bind {E A B} (P : A → Prop) (R : B → Prop) (m : exec E A) f :
  returns P m → (∀ a, P a → returns R (f a)) → returns R (m ≫= f).
Proof.
  intros Hm Hf n b n'. unfold mbind, exec_bind. destruct (m n) as [[[a|e]|] k] eqn:Hr; try done.
  by eapply Hf, Hm.
Qed.
Lemma returns_bind_any {E A B} (R : B → Prop) (m : exec E A) f :
  (∀ a, returns R (f a)) → returns R (m ≫= f).
Proof. intros Hf. eapply returns_bind; [apply returns_any|auto]. Qed.
Lemma returns_collect {E A B} (P : B → Prop) (f : A → exec E B) l :
  (∀ a, a ∈ l → returns P (f a)) → returns (Forall P) (collect f l).
Proof.
  induction l as [|a l IH]; intros Hf; cbn [collect]; [apply returns_ret; constructor|].
  eapply returns_bind; [apply Hf; left|intros b Hb].
  eapply returns_bind; [apply IH; intros; apply Hf; by right|intros bs Hbs].
  apply returns_ret. by constructor.
Qed.

Abbreviation ok := (λ v, value_ok v = true).
Abbreviation typed := (returns ok).

(** ** Well-formed pieces *)

Lemma sign_wrap_i64 n : i64_ok (sign_wrap 64 n) = true.
Proof.
  unfold i64_ok, sign_wrap, i64_min, i64_max. rewrite andb_true_iff, !Z.leb_le.
  pose proof (Z.mod_pos_bound n (2 ^ 64)). change (2 ^ (64 - 1)) with (2 ^ 63).
  destruct (Z.ltb_spec (n mod 2 ^ 64) (2 ^ 63)); lia.
Qed.
Lemma sign_wrap_i32 n : i32_ok (sign_wrap 32 n) = true.
Proof.
  unfold i32_ok, sign_wrap. rewrite andb_true_iff, Z.leb_le, Z.ltb_lt.
  pose proof (Z.mod_pos_bound n (2 ^ 32)). change (2 ^ (32 - 1)) with (2 ^ 31).
  destruct (Z.ltb_spec (n mod 2 ^ 32) (2 ^ 31)); lia.
Qed.

Lemma list_ok items : value_ok (RList items) = true ↔ Forall ok items.
Proof. cbn. apply forallb_Forall. Qed.
Lemma entries_ok_spec m : entries_ok m = true ↔ keys_sorted m = true ∧ Forall (λ kv, ok kv.2) m.
Proof. unfold entries_ok. rewrite andb_true_iff. by rewrite (forallb_Forall (λ kv, value_ok kv.2)). Qed.
Lemma entries_ok_insert k v m : entries_ok m = true → ok v → entries_ok (btree_insert k v m) = true.
Proof.
  rewrite !entries_ok_spec. intros [??] ?. split; [by apply btree_insert_sorted|by apply btree_insert_forall].
Qed.
Lemma entries_ok_get k m : entries_ok m = true → ok (default RNull (btree_get k m)).
Proof.
  rewrite entries_ok_spec, Forall_forall. intros [_ Hm]. destruct (btree_get k m) as [v|] eqn:Hg; [|done].
  apply (Hm (k, v)). by apply btree_get_in.
Qed.
Lemma lookup_ok items i : Forall ok items → ok (default RNull (items !! i)).
Proof. intros Hf. destruct (items !! i) eqn:Hi; [|done]. by eapply Forall_lookup_1 in Hi; [|exact Hf]. Qed.
Lemma strings_ok {A} (f : A → string) l : ok (RList (map (λ a, RString (f a)) l)).
Proof. apply list_ok. by induction l; constructor. Qed.
Lemma slice_ok items a b : Forall ok items → Forall ok (slice items a b).
Proof. intros. unfold slice. by apply Forall_take, Forall_drop. Qed.

(** A well-formed node, relationship or map has well-formed properties. *)
Lemma node_ok id labels m : ok (RNode id labels m) → entries_ok m = true.
Proof. cbn. rewrite !andb_true_iff. unfold entries_ok. rewrite andb_true_iff. tauto. Qed.
Lemma rel_ok t a b m : ok (RRel t a b m) → entries_ok m = true.
Proof. cbn. rewrite !andb_true_iff. unfold entries_ok. rewrite andb_true_iff. tauto. Qed.

Create HintDb typed.
#[export] Hint Resolve sign_wrap_i64 sign_wrap_i32 entries_ok_get lookup_ok strings_ok slice_ok
  node_ok rel_ok returns_ret returns_throw returns_panic : typed.

(** ** Operators *)

Section operators.
Context `{Host, Libs, !LibsTyped}.

Lemma property_access_ok v key : ok v → ok (property_access v key).
Proof.
  intros Hv. unfold property_access. destruct v; try done; repeat case_match; eauto with typed.
Qed.
Lemma index_into_ok a i : ok a → ok (index_into a i).
Proof.
  intros Ha. unfold index_into. destruct a; try (by destruct i).
  - destruct i; try done. case_match; [done|]. by apply lookup_ok, list_ok.
  - destruct i; try done. by apply entries_ok_get.
Qed.
Lemma range_into_ok a from to : ok a → ok (range_into a from to).
Proof.
  intros Ha. unfold range_into. destruct a; try done. case_match; [done|].
  by apply list_ok, slice_ok, list_ok.
Qed.
Lemma eval_unary_ok op v : ok (eval_unary op v).
Proof. unfold eval_unary. repeat case_match; try done. apply sign_wrap_i64. Qed.
Lemma in_loop_ok item items b : ok (in_loop item items b).
Proof. revert b. induction items as [|v items IH]; intros b; cbn [in_loop]; repeat case_match; auto. Qed.
Lemma eval_in_ok a l : ok (eval_in a l).
Proof. unfold eval_in. repeat case_match; try done. apply in_loop_ok. Qed.
Lemma eval_string_test_ok op a b : ok (eval_string_test op a b).
Proof. unfold eval_string_test. by repeat case_match. Qed.

Lemma int_op_typed r : (∀ n, r = Some n → i64_ok n = true) → typed (int_op r).
Proof. intros Hr. destruct r as [n|]; cbn; [apply returns_ret; by apply Hr|apply returns_panic]. Qed.

Lemma arith_typed a b span label f_int f_float sc :
  ok a → ok b → (∀ x y n, i64_ok x = true → i64_ok y = true → f_int x y = Some n → i64_ok n = true) →
  typed (arith a b span label f_int f_float sc).
Proof.
  intros Ha Hb Hf. unfold arith, fail_at. destruct a, b; cbn [negb];
    try (destruct sc; cbn [negb]; [|apply returns_throw]).
  all: try (apply int_op_typed; intros ?; by apply Hf).
  all: try (by apply returns_ret).
  all: try (by apply returns_throw).
  all: try (case_match; [by apply returns_ret|by apply returns_throw]).
  all: apply returns_ret, list_ok; try apply Forall_app; try split; repeat constructor; try done.
  all: by apply list_ok.
Qed.

Lemma rem_euclid_ok x y n : i64_ok x = true → i64_ok y = true → rem_euclid x y = Some n → i64_ok n = true.
Proof.
  unfold rem_euclid, div_panics, i64_ok, i64_min, i64_max. case_match eqn:Hd; [done|]. intros Hx Hy [= <-].
  rewrite orb_false_iff, Z.eqb_neq in Hd. rewrite andb_true_iff, !Z.leb_le in *.
  pose proof (Z.mod_pos_bound x (Z.abs y)). lia.
Qed.
Lemma int_div_ok x y n : i64_ok x = true → i64_ok y = true → int_div x y = Some n → i64_ok n = true.
Proof.
  unfold int_div, div_panics, i64_ok, i64_min, i64_max. case_match eqn:Hd; [done|]. intros Hx Hy [= <-].
  rewrite orb_false_iff, andb_false_iff, !Z.eqb_neq in Hd. rewrite andb_true_iff, !Z.leb_le in *.
  pose proof (Z.quot_rem x y). pose proof (Z.rem_bound_abs x y). pose proof (Z.rem_sign_mul x y). nia.
Qed.

Lemma eval_binary_typed op a b span : ok a → ok b → typed (eval_binary op a b span).
Proof.
  intros Ha Hb. unfold eval_binary.
  destruct op; try (apply returns_ret; by repeat case_match).
  all: destruct (is_null a || is_null b); [by apply returns_ret|].
  all: try (by apply returns_ret).
  all: try (apply returns_ret; unfold order_cmp; by case_match).
  1-3, 5: apply arith_typed; [done..|]. 1-3: intros ? ? ? _ _ [= <-]; apply sign_wrap_i64.
  - intros ? ? ?. apply rem_euclid_ok.
  - unfold arith_div, fail_at. destruct a, b; try case_match.
    all: try (by apply returns_throw); try (by apply returns_ret).
    all: apply int_op_typed; intros ?; by apply int_div_ok.
  - unfold arith_pow, fail_at. repeat case_match; [by apply returns_ret|by apply returns_throw..].
  - unfold regex_match, fail_at. repeat case_match; first [by apply returns_ret|by apply returns_throw].
Qed.

(** ** Functions *)

Lemma as_i64_ok f : i64_ok (f64_as_i64 f) = true.
Proof.
  unfold i64_ok, f64_as_i64. rewrite andb_true_iff, !Z.leb_le.
  destruct f as [|[]| |]; unfold i64_min, i64_max; lia.
Qed.
Lemma parse_i64_ok s n : parse_i64 s = Some n → i64_ok n = true.
Proof.
  unfold parse_i64. intros Hp. repeat (case_match; try done).
  all: apply bind_Some in Hp as (k & _ & Hp); destruct (_ && _) eqn:Hb in Hp; simplify_eq; exact Hb.
Qed.
Lemma half_ok n : i64_ok n = true → i64_ok (Z.quot n 2) = true.
Proof.
  unfold i64_ok, i64_min, i64_max. rewrite !andb_true_iff, !Z.leb_le.
  pose proof (Z.quot_rem n 2). pose proof (Z.rem_bound_abs n 2). lia.
Qed.
Lemma step_by_2_ok items : Forall ok items → Forall ok (step_by_2 items).
Proof.
  revert items. fix IH 1. intros [|x [|y items]] Hf; cbn [step_by_2]; [constructor|by repeat constructor; inversion Hf|].
  inversion Hf as [|?? Hx Hf']. inversion Hf'. constructor; [done|by apply IH].
Qed.
Lemma filter_ok f items : Forall ok items → Forall ok (List.filter f items).
Proof. induction 1; cbn [List.filter]; [constructor|]. case_match; auto. Qed.

Lemma pure_functions_ok name f v : btree_get name pure_functions = Some f → ok v → ok (f v).
Proof.
  intros Hf%btree_get_in Hv. unfold pure_functions in Hf.
  repeat (apply elem_of_cons in Hf as [[= -> ->]|Hf]); [..|by apply elem_of_nil in Hf].
  all: try (unfold fn_id, fn_elementid, fn_type, fn_string, fn_toboolean, num_to_float, fn_tofloat;
            by repeat case_match).
  all: destruct v; try done.
  all: cbn [fn_labels fn_keys fn_properties fn_nodes fn_relationships fn_size fn_head fn_last fn_tail
              fn_reverse fn_tointeger fn_abs fn_sign].
  all: try (by apply strings_ok).
  all: try (by apply sign_wrap_i64).
  all: try (by apply node_ok in Hv); try (by apply rel_ok in Hv).
  all: rewrite ?list_ok.
  all: try (by apply filter_ok, step_by_2_ok, list_ok).
  all: try (by apply filter_ok, step_by_2_ok, Forall_drop, list_ok).
  all: try (by apply Forall_drop, list_ok); try (by apply Forall_rev, list_ok); try (by apply lookup_ok, list_ok).
  all: try (by case_match; [|apply half_ok, sign_wrap_i64]).
  - rewrite last_lookup. by apply lookup_ok, list_ok.
  - by destruct b.
  - apply as_i64_ok.
  - case_match eqn:Hp; [by apply parse_i64_ok in Hp|done].
  - by destruct n.
  - by repeat case_match.
Qed.

Lemma want_int_typed v fname span : ok v → returns (λ o, ∀ n, o = Some n → i64_ok n = true) (want_int v fname span).
Proof.
  intros Hv. unfold want_int, fail_at. destruct v; try apply returns_throw.
  - by apply returns_ret.
  - apply returns_ret. intros ? [= <-]. exact Hv.
Qed.

Lemma range_loop_typed fuel i end_ step out span :
  i64_ok i = true → Forall ok out → typed (range_loop fuel i end_ step out span).
Proof.
  revert i out. induction fuel as [|fuel IH]; intros i out Hi Ho; cbn [range_loop]; [apply returns_panic|].
  destruct (_ || _); [by apply returns_ret, list_ok|]. apply returns_bind_any. intros _.
  assert (Forall ok (out ++ [RInteger i])) by (apply Forall_app; by repeat constructor).
  destruct (_ && _) eqn:Hb; [by apply IH|by apply returns_ret, list_ok].
Qed.
Lemma range_ints_typed start end_ step span : i64_ok start = true → typed (range_ints start end_ step span).
Proof.
  intros Hs. unfold range_ints. destruct (step =? 0); [apply returns_throw|].
  do 2 (apply returns_bind_any; intros _). by apply range_loop_typed.
Qed.
Lemma range_fn_typed args span : Forall ok args → typed (range_fn args span).
Proof.
  assert (Hb : ∀ a b c, ok a → typed
    (s ← want_int a "range()" span;
     e ← want_int b "range()" span;
     match s, e with
     | Some start, Some end_ =>
         match c with
         | None => range_ints start end_ 1 span
         | Some v =>
             st ← want_int v "range()" span;
             match st with
             | Some step => range_ints start end_ step span
             | None => mret RNull
             end
         end
     | _, _ => mret RNull
     end)).
  { intros a b c Ha. eapply returns_bind; [by apply want_int_typed|intros [s|] Hs]; apply returns_bind_any; intros [e|].
    all: try (by apply returns_ret). specialize (Hs s eq_refl).
    destruct c as [c|]; [|by apply range_ints_typed]. apply returns_bind_any. intros [st|]; [by apply range_ints_typed|by apply returns_ret]. }
  intros Hf. unfold range_fn. destruct Hf as [|a ? Ha [|b ? _ [|c ? _ [|]]]]; try apply returns_throw.
  - by apply (Hb a b None).
  - by apply (Hb a b (Some c)).
Qed.

Lemma now_micros_ok : returns (λ m, i64_ok m = true) now_micros.
Proof.
  unfold now_micros. apply returns_bind_any. intros t. apply returns_ret. unfold micros_of.
  case_match; [done|apply sign_wrap_i64].
Qed.
Lemma datetime_fn_typed name args span : Forall ok args → typed (datetime_fn name args span).
Proof.
  intros Hf. unfold datetime_fn. destruct Hf as [|v ? Hv [|]]; [..|destruct v; apply returns_throw].
  - eapply returns_bind; [apply now_micros_ok|intros m Hm]. by apply returns_ret.
  - destruct v; try apply returns_throw; try (by apply returns_ret).
    unfold parse_iso_datetime, fail_at. repeat case_match; try apply returns_throw; apply returns_ret; cbn.
    + by eapply rfc3339_typed.
    + by eapply naive_datetime_typed.
    + by eapply naive_datetime_typed.
    + assert (Hd : parse_naive_date s = Some z) by done. apply naive_date_typed in Hd.
      unfold i64_ok, i64_min, i64_max. rewrite andb_true_iff, !Z.leb_le. lia.
Qed.
Lemma date_fn_typed args span : Forall ok args → typed (date_fn args span).
Proof.
  intros Hf. unfold date_fn. destruct Hf as [|v ? Hv [|]]; [..|destruct v; apply returns_throw].
  - apply returns_bind_any. intros m. apply returns_ret, sign_wrap_i32.
  - destruct v; try apply returns_throw; try (by apply returns_ret).
    unfold parse_iso_date, fail_at. case_match; [apply returns_ret, sign_wrap_i32|apply returns_throw].
Qed.

Lemma call_typed name args span : Forall ok args → typed (call_scalar_function name args span).
Proof.
  intros Hf. unfold call_scalar_function, fail_at. case_match eqn:Hfn.
  { eapply returns_bind with (P := ok).
    - unfold single_arg. destruct Hf as [|v ? Hv [|]]; [apply returns_throw|by apply returns_ret|apply returns_throw].
    - intros v Hv. apply returns_ret. by eapply pure_functions_ok. }
  repeat (case_match; [|]); try apply returns_throw.
  all: try (by apply range_fn_typed); try (by apply datetime_fn_typed); try (by apply date_fn_typed).
  { apply returns_ret. clear -Hf. induction Hf as [|v args Hv Hf IH]; cbn [coalesce]; [done|]. by case_match. }
  all: unfold str_left_right, str_substring, substring_of, str_replace, str_split, tostring_fn, vector_fn,
    similarity_fn, bm25_fn, label_eq_fn, timestamp_fn, fail_at.
  all: repeat first
    [ apply returns_throw
    | by apply returns_ret
    | by apply returns_ret, strings_ok
    | apply returns_ret; apply sign_wrap_i64
    | apply returns_bind_any; intros ?
    | case_match ].
  unfold path_fn. case_match; [by apply returns_ret|]. apply returns_ret. by apply forallb_Forall.
Qed.
End operators.

(** ** Expressions *)

Definition wild_literal (kind : ExpressionKind) : bool :=
  match kind with ELiteral (LInteger n) => negb (i64_ok n) | _ => false end.

Section expressions.
Context `{Host, Libs, !LibsTyped}.

Lemma row_ok_set row x v : row_ok row = true → ok v → row_ok (Row_set row x v) = true.
Proof. apply entries_ok_insert. Qed.

Lemma reduce_loop_typed body span items index acc :
  (∀ a x, ok a → ok x → typed (body a x)) → Forall ok items → ok acc →
  typed (reduce_loop body span items index acc).
Proof.
  intros Hb Hf. revert index acc. induction Hf as [|x items Hx Hf IH]; intros index acc Ha; cbn [reduce_loop].
  - by apply returns_ret.
  - apply returns_bind_any. intros _. eapply returns_bind; [by apply Hb|intros a Ha'; by apply IH].
Qed.

Lemma comprehension_loop_typed predicate projection span items index out :
  (∀ p x, projection = Some p → ok x → typed (p x)) → Forall ok items → Forall ok out →
  typed (comprehension_loop predicate projection span items index out).
Proof.
  intros Hb Hf. revert index out. induction Hf as [|x items Hx Hf IH]; intros index out Ho; cbn [comprehension_loop].
  - by apply returns_ret, list_ok.
  - do 2 (apply returns_bind_any; intros []); [|by apply IH].
    eapply returns_bind with (P := ok); [destruct projection; [by apply Hb|by apply returns_ret]|].
    intros y Hy. apply IH. apply Forall_app; by repeat constructor.
Qed.

Lemma quantifier_loop_typed kind predicate span items index tc an :
  typed (quantifier_loop kind predicate span items index tc an).
Proof.
  revert index tc an. induction items as [|x items IH]; intros index tc an; cbn [quantifier_loop].
  - apply returns_ret. unfold quantifier_result. by repeat case_match.
  - do 2 (apply returns_bind_any; intros ?). repeat case_match; first [apply IH|by apply returns_ret].
Qed.

Lemma list_operand_typed v what span k :
  ok v → (∀ items, Forall ok items → typed (k items)) → typed (list_operand v what span k).
Proof.
  intros Hv Hk. unfold list_operand, fail_at. destruct v; try apply returns_throw.
  - by apply returns_ret.
  - by apply Hk, list_ok.
Qed.

End expressions.
