(* ===== verification/Fingerprint.v ===== *)
(** Fingerprints: the equality keys of DISTINCT, GROUP BY and hash joins
    ([exec/walker.rs], [fingerprint_value], [row_fingerprint]).

    The contract written in the source is that two values have the same
    fingerprint exactly when they are equal. [same_value] states that equality
    without mentioning strings; [fingerprint_faithful] proves the contract for it.
    The text of a UUID is a parameter with its documented shape. *)
From Stdlib Require Import Ascii SpecFloat.
From stdpp Require Import pretty.
From S2P Require Import Prelude Float StorageError Paths Ast RuntimeValue Exec Scalar.

(** [Uuid]'s [Display]: 36 characters, one text per identifier. *)
Class UuidText `{Libs} : Prop := {
  uuid_text_length u : String.length (uuid_to_string u) = 36%nat;
  uuid_text_inj a b : uuid_ok a = true → uuid_ok b = true → uuid_to_string a = uuid_to_string b → a = b;
}.

(** ** Fingerprints *)

Definition show_len (n : nat) : string := show_int (Z.of_nat n).

Section fingerprint.
Context `{Libs}.

(** [fingerprint_value], as the string [fingerprint_into] appends. *)
Fixpoint fingerprint_value (v : RuntimeValue) : string :=
  let all := fix all (items : list RuntimeValue) : string :=
    match items with [] => "" | x :: items => fingerprint_value x +:+ all items end in
  let entries := fix entries (m : list (string * RuntimeValue)) : string :=
    match m with
    | [] => ""
    | (k, x) :: m => show_len (String.length k) +:+ "=" +:+ k +:+ fingerprint_value x +:+ entries m
    end in
  match v with
  | RNull => "Z;"
  | RBool b => "B" +:+ (if b then "1" else "0")
  | RInteger n => "I" +:+ show_int n +:+ ";"
  | RFloat f => "F" +:+ pad_hex (if f64_is_zero f then 0 else f64_to_bits f) 16 +:+ ";"
  | RString s => "S" +:+ show_len (String.length s) +:+ ":" +:+ s
  | RBytes b => "Y" +:+ show_len (length b) +:+ ":" +:+ String.concat "" (map (λ x, pad_hex (b2z x) 2) b)
  | RVector v =>
      "V" +:+ show_len (length v) +:+ ":" +:+ String.concat "" (map (λ x, pad_hex (f32_to_bits x) 8) v)
  | RVector8 codes scale =>
      "W" +:+ pad_hex (f32_to_bits scale) 8 +:+ ":" +:+ show_len (length codes) +:+ ":"
      +:+ String.concat "" (map (λ c, pad_hex (c mod 256) 2) codes)
  | RList items => "L" +:+ show_len (length items) +:+ ":" +:+ all items
  | RMap m => "M" +:+ show_len (length m) +:+ ":" +:+ entries m
  | RNode id _ _ => "N" +:+ uuid_to_string id +:+ ";"
  | RRel t src dst _ =>
      "R" +:+ show_len (String.length t) +:+ ":" +:+ t +:+ uuid_to_string src +:+ ">"
      +:+ uuid_to_string dst +:+ ";"
  | RDate d => "D" +:+ show_int d +:+ ";"
  | RDateTime d => "T" +:+ show_int d +:+ ";"
  | RPath items => "P" +:+ show_len (length items) +:+ ":" +:+ all items
  end.

Fixpoint row_fingerprint_entries (m : btree RuntimeValue) : string :=
  match m with
  | [] => ""
  | (k, v) :: m => k +:+ "=" +:+ fingerprint_value v +:+ ";" +:+ row_fingerprint_entries m
  end.
Definition row_fingerprint (row : Row) : string := row_fingerprint_entries (bindings row).

(** ** The equality they stand for *)

(** [==] on floats, with NaN equal to itself. *)
Definition same_float (a b : f64) : Prop := f64_eqb a b = true ∨ (a = S754_nan ∧ b = S754_nan).

(** Structural equality, with nodes compared by id and relationships by type and
    endpoints. Vectors are compared bit for bit. *)
Inductive same_value : RuntimeValue → RuntimeValue → Prop :=
| SameNull : same_value RNull RNull
| SameBool b : same_value (RBool b) (RBool b)
| SameInteger n : same_value (RInteger n) (RInteger n)
| SameFloat a b : same_float a b → same_value (RFloat a) (RFloat b)
| SameString s : same_value (RString s) (RString s)
| SameBytes b : same_value (RBytes b) (RBytes b)
| SameVector v : same_value (RVector v) (RVector v)
| SameVector8 c s : same_value (RVector8 c s) (RVector8 c s)
| SameList xs ys : Forall2 same_value xs ys → same_value (RList xs) (RList ys)
| SameMap xs ys :
    Forall2 (λ x y, x.1 = y.1 ∧ same_value x.2 y.2) xs ys → same_value (RMap xs) (RMap ys)
| SameNode id ls ps ls' ps' : same_value (RNode id ls ps) (RNode id ls' ps')
| SameRel t a b ps ps' : same_value (RRel t a b ps) (RRel t a b ps')
| SameDate d : same_value (RDate d) (RDate d)
| SameDateTime d : same_value (RDateTime d) (RDateTime d)
| SamePath xs ys : Forall2 same_value xs ys → same_value (RPath xs) (RPath ys).

Definition same_entries : relation (btree RuntimeValue) :=
  Forall2 (λ x y, x.1 = y.1 ∧ same_value x.2 y.2).

(** ** Decoding lemmas

    Each piece of a fingerprint ends at a known place: a fixed width, a length
    prefix or a delimiter that does not occur in it. *)

Lemma string_app_nil_l s : "" +:+ s = s.
Proof. reflexivity. Qed.

Lemma fixed_split a b r r' :
  String.length a = String.length b → a +:+ r = b +:+ r' → a = b ∧ r = r'.
Proof.
  revert b. induction a as [|x a IH]; intros [|y b] Hl Heq; try discriminate; [done|].
  injection Hl as Hl. rewrite !string_app_cons in Heq. injection Heq as -> Heq.
  by destruct (IH b) as [-> ->].
Qed.

Lemma delim_split c a b r r' :
  all_chars (λ x, negb (Ascii.eqb x c)) a = true → all_chars (λ x, negb (Ascii.eqb x c)) b = true →
  a +:+ String c r = b +:+ String c r' → a = b ∧ r = r'.
Proof.
  revert b. induction a as [|x a IH]; intros [|y b] Ha Hb Heq; cbn [all_chars] in *.
  - by injection Heq.
  - injection Heq as <- Heq. by rewrite Ascii.eqb_refl in Hb.
  - injection Heq as -> Heq. by rewrite Ascii.eqb_refl in Ha.
  - injection Heq as -> Heq. apply andb_prop in Ha as [_ Ha], Hb as [_ Hb].
    by destruct (IH b) as [-> ->].
Qed.

Lemma show_int_chars c n :
  all_chars (λ x, negb (Ascii.eqb x c)) "-0123456789" = true →
  all_chars (λ x, negb (Ascii.eqb x c)) (show_int n) = true.
Proof.
  intros Hc. set (p := λ x, negb (Ascii.eqb x c)) in *.
  assert (Hchar : ∀ x, p (pretty_N_char x) = true).
  { cbn [all_chars] in Hc. rewrite !andb_true_iff in Hc. intros x. unfold pretty_N_char. repeat case_match; tauto. }
  assert (Hgo : ∀ x s, all_chars p s = true → all_chars p (pretty_N_go x s) = true).
  { intros x. induction (N.lt_wf_0 x) as [x _ IH]. intros s Hs.
    destruct (decide (x = 0%N)) as [->|]; [by rewrite pretty_N_go_0|].
    rewrite pretty_N_go_step by lia. apply IH; [apply N.div_lt; lia|]. cbn [all_chars]. by rewrite Hchar. }
  assert (HN : ∀ x : N, all_chars p (pretty x) = true).
  { intros x. unfold pretty, pretty_N. case_decide; [|by apply Hgo].
    cbn [all_chars] in *. rewrite !andb_true_iff in *. tauto. }
  unfold show_int, pretty, pretty_Z. destruct n as [|n|n].
  - cbn [all_chars] in *. rewrite !andb_true_iff in *. tauto.
  - apply HN.
  - rewrite all_chars_app. apply andb_true_iff. split; [|apply (HN (Npos n))].
    cbn [all_chars] in *. rewrite !andb_true_iff in *. tauto.
Qed.

(** A decimal number up to its delimiter. *)
Lemma int_split c n n' r r' :
  all_chars (λ x, negb (Ascii.eqb x c)) "-0123456789" = true →
  show_int n +:+ String c r = show_int n' +:+ String c r' → n = n' ∧ r = r'.
Proof.
  intros Hc Heq. apply delim_split in Heq as [Hn ->]; [|by apply show_int_chars..].
  split; [|done]. by apply (inj (pretty : Z → string)) in Hn.
Qed.
Lemma len_split c n n' r r' :
  all_chars (λ x, negb (Ascii.eqb x c)) "-0123456789" = true →
  show_len n +:+ String c r = show_len n' +:+ String c r' → n = n' ∧ r = r'.
Proof. intros Hc Heq. apply int_split in Heq as [? ->]; [|done]. split; [lia|done]. Qed.

(** A fixed number of hexadecimal digits. *)
Lemma hex_digits_more fuel w n acc :
  (0 < w ≤ fuel)%nat → 0 ≤ n < 16 ^ Z.of_nat w → hex_digits fuel n acc = hex_digits w n acc.
Proof.
  revert w n acc. induction fuel as [|fuel IH]; intros w n acc Hw Hn; [lia|].
  destruct w as [|w]; [lia|]. cbn [hex_digits]. destruct (Z.ltb_spec n 16); [done|].
  rewrite Nat2Z.inj_succ, Z.pow_succ_r in Hn by lia. pose proof (Z.div_mod n 16). pose proof (Z.mod_pos_bound n 16).
  destruct (decide (w = 0%nat)) as [->|]; [simpl in Hn; lia|]. apply IH; lia.
Qed.
Lemma pad_hex_width n w : (0 < w ≤ 16)%nat → 0 ≤ n < 16 ^ Z.of_nat w → pad_hex n w = hex_fixed w n "".
Proof.
  intros Hw Hn. unfold pad_hex. rewrite (hex_digits_more 16 w) by done.
  rewrite <- pad_hex_fixed by (done || lia). f_equal. simpl String.length. lia.
Qed.
Lemma hex_split w n n' r r' :
  (0 < w ≤ 16)%nat → 0 ≤ n < 16 ^ Z.of_nat w → 0 ≤ n' < 16 ^ Z.of_nat w →
  pad_hex n w +:+ r = pad_hex n' w +:+ r' → n = n' ∧ r = r'.
Proof.
  intros Hw Hn Hn'. rewrite !pad_hex_width by done. intros Heq.
  apply fixed_split in Heq as [Heq ->]; [|by rewrite !hex_fixed_length]. split; [|done].
  pose proof (compare_hex_fixed w n n' "" "" Hn Hn') as Hc. rewrite Heq in Hc.
  rewrite (proj2 (string_compare_eq _ _)) in Hc by done. by destruct (Z.compare_spec n n').
Qed.

Lemma concat_cons x xs : String.concat "" (x :: xs) = x +:+ String.concat "" xs.
Proof. destruct xs; cbn; [by rewrite string_app_nil_r|done]. Qed.

(** A list of self-delimiting pieces. *)
Lemma pieces_split {A} (P : A → Prop) (g : A → string) xs ys r r' :
  (∀ x y r r', P x → P y → g x +:+ r = g y +:+ r' → x = y ∧ r = r') →
  length xs = length ys → Forall P xs → Forall P ys →
  String.concat "" (map g xs) +:+ r = String.concat "" (map g ys) +:+ r' → xs = ys ∧ r = r'.
Proof.
  intros Hg. revert ys. induction xs as [|x xs IH]; intros [|y ys] Hl Hx Hy Heq; try discriminate; [done|].
  cbn [map] in Heq. rewrite !concat_cons, !string_app_assoc in Heq. inversion Hx. inversion Hy. subst.
  apply Hg in Heq as [-> Heq]; [|done..]. apply IH in Heq as [-> ->]; [done| |done..]. by injection Hl.
Qed.

Lemma bytes_split xs ys r r' :
  length xs = length ys →
  String.concat "" (map (λ x, pad_hex (b2z x) 2) xs) +:+ r
  = String.concat "" (map (λ x, pad_hex (b2z x) 2) ys) +:+ r' → xs = ys ∧ r = r'.
Proof.
  intros Hl. apply pieces_split with (P := λ _, True); [|done|by apply Forall_true..].
  intros x y s s' _ _ Heq. pose proof (b2z_range x). pose proof (b2z_range y).
  apply hex_split in Heq as [Hb ->]; [|lia|simpl; lia..]. split; [|done].
  by rewrite <- (z2b_b2z x), <- (z2b_b2z y), Hb.
Qed.

Lemma floats_split xs ys r r' :
  length xs = length ys → forallb valid_f32 xs = true → forallb valid_f32 ys = true →
  String.concat "" (map (λ x, pad_hex (f32_to_bits x) 8) xs) +:+ r
  = String.concat "" (map (λ x, pad_hex (f32_to_bits x) 8) ys) +:+ r' → xs = ys ∧ r = r'.
Proof.
  rewrite !forallb_Forall. intros Hl Hx Hy.
  apply pieces_split with (P := λ x, valid_f32 x = true); [|done..].
  intros x y s s' Hvx Hvy Heq. pose proof (f32_to_bits_range x Hvx). pose proof (f32_to_bits_range y Hvy).
  unfold is_uint in *. apply hex_split in Heq as [Hb ->]; [|lia|simpl; lia..].
  by apply f32_to_bits_inj in Hb as ->.
Qed.

Lemma codes_split xs ys r r' :
  length xs = length ys → forallb i8_ok xs = true → forallb i8_ok ys = true →
  String.concat "" (map (λ c, pad_hex (c mod 256) 2) xs) +:+ r
  = String.concat "" (map (λ c, pad_hex (c mod 256) 2) ys) +:+ r' → xs = ys ∧ r = r'.
Proof.
  rewrite !forallb_Forall. intros Hl Hx Hy.
  apply pieces_split with (P := λ x, i8_ok x = true); [|done..].
  intros x y s s' Hvx Hvy Heq. pose proof (Z.mod_pos_bound x 256). pose proof (Z.mod_pos_bound y 256).
  apply hex_split in Heq as [Hb ->]; [|lia|simpl; lia..]. split; [|done].
  unfold i8_ok in *. rewrite andb_true_iff, Z.leb_le, Z.ltb_lt in *.
  pose proof (Z.div_mod x 256). pose proof (Z.div_mod y 256). lia.
Qed.

Lemma float_split a b r r' :
  valid_f64 a = true → valid_f64 b = true →
  pad_hex (if f64_is_zero a then 0 else f64_to_bits a) 16 +:+ r
  = pad_hex (if f64_is_zero b then 0 else f64_to_bits b) 16 +:+ r' → same_float a b ∧ r = r'.
Proof.
  intros Ha Hb Heq. pose proof (f64_to_bits_range a Ha). pose proof (f64_to_bits_range b Hb).
  unfold is_uint in *.
  apply hex_split in Heq as [Hbits ->];
    [|lia|change (16 ^ Z.of_nat 16) with (2 ^ 64); destruct (f64_is_zero a), (f64_is_zero b); lia..].
  split; [|done].
  assert (Hz : ∀ x, f64_is_zero x = true ↔ ∃ s, x = S754_zero s).
  { intros x. unfold f64_is_zero, f64_zero. rewrite f64_eqb_spec. split.
    - intros [_ [->|(s & s' & -> & _)]]; eauto.
    - intros [s ->]. split; [done|]. right. eauto. }
  assert (Hne : ∀ x, valid_f64 x = true → f64_is_zero x = false → f64_to_bits x ≠ 0).
  { intros x Hx Hnz Hzero. change 0 with (f64_to_bits (S754_zero false)) in Hzero.
    apply f64_to_bits_inj in Hzero as ->; done. }
  destruct (f64_is_zero a) eqn:Eza, (f64_is_zero b) eqn:Ezb.
  - apply Hz in Eza as [s ->], Ezb as [s' ->]. by left.
  - by destruct (Hne b).
  - by destruct (Hne a).
  - apply f64_to_bits_inj in Hbits as ->; [|done..]. destruct b; [left..|by right|left].
    all: apply f64_eqb_spec; split; [done|by left].
Qed.

(** ** Faithfulness *)

(** The inner loops of [fingerprint_value]. *)
Fixpoint fingerprint_list (items : list RuntimeValue) : string :=
  match items with [] => "" | x :: items => fingerprint_value x +:+ fingerprint_list items end.
Fixpoint fingerprint_entries (m : btree RuntimeValue) : string :=
  match m with
  | [] => ""
  | (k, x) :: m => show_len (String.length k) +:+ "=" +:+ k +:+ fingerprint_value x +:+ fingerprint_entries m
  end.

Definition sound (v : RuntimeValue) : Prop := value_ok v = true ∧ floats_ok v = true.

(** [v] can be read back from the front of a string. *)
Definition decodable (v : RuntimeValue) : Prop :=
  ∀ w r r', sound v → sound w →
    fingerprint_value v +:+ r = fingerprint_value w +:+ r' → same_value v w ∧ r = r'.

Lemma list_split xs ys r r' :
  Forall decodable xs → Forall sound xs → Forall sound ys → length xs = length ys →
  fingerprint_list xs +:+ r = fingerprint_list ys +:+ r' → Forall2 same_value xs ys ∧ r = r'.
Proof.
  intros Hd. revert ys. induction Hd as [|x xs Hx Hd IH]; intros [|y ys] Hsx Hsy Hl Heq; try discriminate.
  { by split; [constructor|]. }
  cbn [fingerprint_list] in Heq. rewrite !string_app_assoc in Heq. inversion Hsx. inversion Hsy. subst.
  apply Hx in Heq as [Hs Heq]; [|done..]. apply IH in Heq as [? ->]; [|done..|by injection Hl].
  split; [by constructor|done].
Qed.

Lemma entries_split xs ys r r' :
  Forall (λ kv, decodable kv.2) xs → Forall (λ kv, sound kv.2) xs → Forall (λ kv, sound kv.2) ys →
  length xs = length ys →
  fingerprint_entries xs +:+ r = fingerprint_entries ys +:+ r' → same_entries xs ys ∧ r = r'.
Proof.
  intros Hd. revert ys. induction Hd as [|[k x] xs Hx Hd IH]; intros [|[k' y] ys] Hsx Hsy Hl Heq; try discriminate.
  { by split; [constructor|]. }
  cbn [fingerprint_entries] in Heq. rewrite !string_app_assoc in Heq. inversion Hsx. inversion Hsy. subst.
  apply len_split in Heq as [Hk Heq]; [|done]. apply fixed_split in Heq as [-> Heq]; [|done].
  apply Hx in Heq as [Hs Heq]; [|done..]. apply IH in Heq as [? ->]; [|done..|by injection Hl].
  split; [by constructor|done].
Qed.

Lemma sound_list items : sound (RList items) → Forall sound items.
Proof.
  intros [Hv Hf]. cbn in Hv, Hf. rewrite forallb_Forall in Hv, Hf.
  rewrite Forall_forall in *. split; auto.
Qed.
Lemma sound_map m : sound (RMap m) → Forall (λ kv, sound kv.2) m.
Proof.
  intros [Hv Hf]. cbn in Hv, Hf. rewrite andb_true_iff in Hv. destruct Hv as [_ Hv].
  apply forallb_Forall in Hv, Hf. rewrite Forall_forall in *. split; [by apply Hv|by apply Hf].
Qed.

Context `{!UuidText}.

Lemma uuid_split a b r r' :
  uuid_ok a = true → uuid_ok b = true →
  uuid_to_string a +:+ r = uuid_to_string b +:+ r' → a = b ∧ r = r'.
Proof.
  intros Ha Hb Heq. apply fixed_split in Heq as [Heq ->]; [|by rewrite !uuid_text_length].
  by apply uuid_text_inj in Heq as ->.
Qed.

Lemma fingerprint_RList items :
  fingerprint_value (RList items) = "L" +:+ show_len (length items) +:+ ":" +:+ fingerprint_list items.
Proof. reflexivity. Qed.
Lemma fingerprint_RPath items :
  fingerprint_value (RPath items) = "P" +:+ show_len (length items) +:+ ":" +:+ fingerprint_list items.
Proof. reflexivity. Qed.
Lemma fingerprint_RMap m :
  fingerprint_value (RMap m) = "M" +:+ show_len (length m) +:+ ":" +:+ fingerprint_entries m.
Proof. reflexivity. Qed.

(** Drop the common tag. *)
Ltac heads Heq :=
  cbn [fingerprint_value] in Heq; rewrite ?string_app_assoc, ?string_app_cons, ?string_app_nil_l in Heq;
  injection Heq as Heq.

Lemma fingerprint_decodable v : decodable v.
Proof.
  induction v as [|b|n|f|s|items IH|m IH|id ls m IH|t a b m IH|d|d|b|v|c sc|items IH]
    using RuntimeValue_nested_ind; intros w r r' Hv Hw Heq; destruct w; try discriminate Heq.
  - injection Heq as Heq. split; [constructor|done].
  - destruct b, b0; try discriminate Heq; injection Heq as Heq; split; (constructor || done).
  - heads Heq. apply int_split in Heq as [-> ->]; [|done]. split; [constructor|done].
  - heads Heq. apply float_split in Heq as [? [= ->]]; [|by apply Hv|by apply Hw].
    split; [by constructor|done].
  - heads Heq. apply len_split in Heq as [? Heq]; [|done]. apply fixed_split in Heq as [-> ->]; [|done].
    split; [constructor|done].
  - rewrite !fingerprint_RList in Heq. heads Heq. apply len_split in Heq as [? Heq]; [|done].
    apply list_split in Heq as [? ->]; [|by auto using sound_list..]. split; [by constructor|done].
  - rewrite !fingerprint_RMap in Heq. heads Heq. apply len_split in Heq as [? Heq]; [|done].
    apply entries_split in Heq as [? ->]; [|by auto using sound_map..]. split; [by constructor|done].
  - destruct Hv as [Hv _], Hw as [Hw _]. cbn in Hv, Hw. rewrite !andb_true_iff in Hv, Hw.
    heads Heq. apply uuid_split in Heq as [-> [= ->]]; [|tauto..]. split; [constructor|done].
  - destruct Hv as [Hv _], Hw as [Hw _]. cbn in Hv, Hw. rewrite !andb_true_iff in Hv, Hw.
    heads Heq. apply len_split in Heq as [? Heq]; [|done]. apply fixed_split in Heq as [-> Heq]; [|done].
    apply uuid_split in Heq as [-> Heq]; [|tauto..]. injection Heq as Heq.
    apply uuid_split in Heq as [-> [= ->]]; [|tauto..]. split; [constructor|done].
  - heads Heq. apply int_split in Heq as [-> ->]; [|done]. split; [constructor|done].
  - heads Heq. apply int_split in Heq as [-> ->]; [|done]. split; [constructor|done].
  - heads Heq. apply len_split in Heq as [? Heq]; [|done]. apply bytes_split in Heq as [-> ->]; [|done].
    split; [constructor|done].
  - heads Heq. apply len_split in Heq as [? Heq]; [|done].
    apply floats_split in Heq as [-> ->]; [|done|by apply Hv|by apply Hw]. split; [constructor|done].
  - destruct Hv as [Hc Hs], Hw as [Hc' Hs']. cbn in Hc, Hs, Hc', Hs'. heads Heq.
    pose proof (f32_to_bits_range _ Hs). pose proof (f32_to_bits_range _ Hs'). unfold is_uint in *.
    apply hex_split in Heq as [Hb Heq]; [|lia|simpl; lia..]. apply f32_to_bits_inj in Hb as ->; [|done..].
    injection Heq as Heq. apply len_split in Heq as [? Heq]; [|done].
    apply codes_split in Heq as [-> ->]; [|done..]. split; [constructor|done].
  - rewrite !fingerprint_RPath in Heq. heads Heq. apply len_split in Heq as [? Heq]; [|done].
    apply list_split in Heq as [? ->]; [|by auto using sound_list..]. split; [by constructor|done].
Qed.

Lemma same_list_fingerprint xs ys :
  Forall (λ v, ∀ w, same_value v w → fingerprint_value v = fingerprint_value w) xs →
  Forall2 same_value xs ys → fingerprint_list xs = fingerprint_list ys.
Proof.
  intros Hf Hs. induction Hs as [|x y xs ys Hxy Hs IH]; [done|]. inversion Hf; subst.
  cbn [fingerprint_list]. rewrite IH by done. f_equal. auto.
Qed.
Lemma same_entries_fingerprint xs ys :
  Forall (λ kv, ∀ w, same_value kv.2 w → fingerprint_value kv.2 = fingerprint_value w) xs →
  same_entries xs ys → fingerprint_entries xs = fingerprint_entries ys.
Proof.
  intros Hf Hs. induction Hs as [|[k x] [k' y] xs ys [Hk Hxy] Hs IH]; [done|].
  inversion Hf as [|? ? Hx Hxs]; subst. cbn in Hk, Hxy, Hx. subst k'. cbn [fingerprint_entries].
  by rewrite IH, (Hx y).
Qed.

Lemma same_fingerprint v w : same_value v w → fingerprint_value v = fingerprint_value w.
Proof.
  revert w. induction v as [|b|n|f|s|items IH|m IH|id ls m IH|t a b m IH|d|d|b|v|c sc|items IH]
    using RuntimeValue_nested_ind; intros w Hs; inversion Hs as [| | |? ? Hf| | | | |? ? Hf|? ? Hf| | | | |? ? Hf];
    subst; try done.
  - cbn [fingerprint_value]. repeat f_equal. destruct Hf as [Hf|[-> ->]]; [|done].
    apply f64_eqb_spec in Hf as [_ [->|(s & s' & -> & ->)]]; [done|]. by destruct s, s'.
  - rewrite !fingerprint_RList, (Forall2_length _ _ _ Hf). by rewrite (same_list_fingerprint _ _ IH Hf).
  - rewrite !fingerprint_RMap, (Forall2_length _ _ _ Hf). by rewrite (same_entries_fingerprint _ _ IH Hf).
  - rewrite !fingerprint_RPath, (Forall2_length _ _ _ Hf). by rewrite (same_list_fingerprint _ _ IH Hf).
Qed.

(** For well-formed values, two values have the same fingerprint exactly when
    they are the same value: equal scalars, floats equal or both NaN, lists, maps
    and paths element by element, nodes with one id, relationships with one type
    and endpoints. No two different values collide, whatever separators their
    strings contain. *)
Theorem fingerprint_faithful v w :
  value_ok v = true → floats_ok v = true → value_ok w = true → floats_ok w = true →
  fingerprint_value v = fingerprint_value w ↔ same_value v w.
Proof.
  intros Hv Hfv Hw Hfw. split; [|apply same_fingerprint]. intros Heq.
  apply (fingerprint_decodable v w "" ""); [done..|]. by rewrite Heq.
Qed.

(** Rows over the same columns. *)
Lemma row_fingerprint_faithful a b :
  map fst (bindings a) = map fst (bindings b) →
  Forall (λ kv, sound kv.2) (bindings a) → Forall (λ kv, sound kv.2) (bindings b) →
  row_fingerprint a = row_fingerprint b ↔ same_entries (bindings a) (bindings b).
Proof.
  destruct a as [xs], b as [ys]. unfold row_fingerprint. cbn [bindings]. intros Hk Hx Hy. split.
  - revert ys Hk Hy. induction Hx as [|[k x] xs Hx Hxs IH]; intros [|[k' y] ys] Hk Hy; try discriminate.
    { by constructor. }
    inversion Hy as [|? ? Hy1 Hys]. injection Hk as -> Hk. cbn [row_fingerprint_entries]. intros Heq.
    apply fixed_split in Heq as [_ Heq]; [|done]. injection Heq as Heq. rewrite !string_app_nil_l in Heq.
    apply fingerprint_decodable in Heq as [? Heq]; [|done..]. injection Heq as Heq.
    constructor; [done|]. by apply IH.
  - clear. induction 1 as [|[k x] [k' y] xs ys [Hk Hxy] Hs IH]; [done|]. cbn in Hk, Hxy. subst.
    cbn [row_fingerprint_entries]. by rewrite IH, (same_fingerprint x y).
Qed.
End fingerprint.
