(* ===== verification/Operators.v ===== *)
(** Row operators of the executor ([exec/walker.rs]): filtering, projection,
    DISTINCT, UNION, cross products, hash joins, UNWIND.

    Each operator takes the rows its inputs produced. The table of a hash join is
    a finite map from keys to rows in insertion order. *)
From S2P Require Import Prelude Float StorageError Ast RuntimeValue Exec Scalar Functions Expr Fingerprint.

Record JoinKey := { build_side : Expression; probe_side : Expression }.
Record ProjectionItem := { pi_expression : Expression; pi_alias : string }.

Section operators.
Context `{Host, Libs}.

(** [evaluate(..)?] in an operator *)
Definition ev (e : Expression) (row : Row) (params : Params) : exec ExecError RuntimeValue :=
  lift_err ExecError_from (evaluate e row params).

Definition is_true (v : RuntimeValue) : bool := match as_bool v with Some true => true | _ => false end.

(** ** Filter and projection *)

Definition filter_rows (predicate : Expression) (params : Params) (rows : list Row)
    : exec ExecError (list Row) :=
  '(_, out) ← foreach (λ '(ticks, out) row,
      ticks ← tick ticks;
      v ← ev predicate row params;
      mret (ticks, if is_true v then out ++ [row] else out)) rows (DeadlineProbe_new, []);
  mret out.

Definition METER_STRIDE : Z := 1024.

Definition project_rows (rows : list Row) (items : list ProjectionItem)
    (discard_input_bindings : bool) (params : Params) : exec ExecError (list Row) :=
  '(_, out) ← foreach (λ '(ticks, out) row,
      ticks ← tick ticks;
      new_row ← foreach (λ new_row item,
          v ← ev (pi_expression item) row params;
          mret (Row_set new_row (pi_alias item) v)) items
        (if discard_input_bindings then Row_new else row);
      let out := out ++ [new_row] in
      _ ← (if Z.of_nat (length out) mod METER_STRIDE =? 0 then meter_check else mret ());
      mret (ticks, out)) rows (DeadlineProbe_new, []);
  _ ← meter_check;
  mret out.

(** ** DISTINCT and UNION *)

Definition dedup_rows (rows : list Row) : exec ExecError (list Row) :=
  _ ← meter_check;
  '(_, _, out) ← foreach (λ '(ticks, seen, out) row,
      ticks ← tick ticks;
      let fingerprint := row_fingerprint row in
      _ ← meter_check;
      if bool_decide (fingerprint ∈ seen) then mret (ticks, seen, out)
      else mret (ticks, {[ fingerprint ]} ∪ seen, out ++ [row]))
    rows (DeadlineProbe_new, (∅ : gset string), []);
  mret out.

(** [LogicalPlan::Union] *)
Definition union_rows (l r : list Row) (all : bool) : exec ExecError (list Row) :=
  if all then mret (l ++ r) else dedup_rows (l ++ r).

(** ** Products and joins *)

(** [merged.set(k, v)] for every binding of the other row *)
Definition merge_rows (l r : Row) : Row := Row_extend l (bindings r).

Definition cross_product (l r : list Row) : exec ExecError (list Row) :=
  match l, r with
  | [], _ | _, [] => mret []
  | _, _ =>
      _ ← meter_check;
      '(_, out) ← foreach (λ st x,
          foreach (λ '(ticks, out) y,
              ticks ← tick ticks;
              mret (ticks, out ++ [merge_rows x y])) r st) l (DeadlineProbe_new, []);
      mret out
  end.

(** [LogicalPlan::CrossProduct] *)
Definition cross_product_rows (l r : list Row) : exec ExecError (list Row) :=
  _ ← check_row_cap (saturating_mul64 (Z.of_nat (length l)) (Z.of_nat (length r)));
  cross_product l r.

(** The key of a row, [None] when a component is NULL. *)
Fixpoint join_key (sides : list Expression) (row : Row) (params : Params)
    : exec ExecError (option (list string)) :=
  match sides with
  | [] => mret (Some [])
  | side :: sides =>
      v ← ev side row params;
      match v with
      | RNull => mret None
      | _ =>
          rest ← join_key sides row params;
          mret (match rest with Some key => Some (fingerprint_value v :: key) | None => None end)
      end
  end.

(** [table.entry(key).or_default().push(row)] *)
Definition table_push (key : list string) (row : Row) (table : gmap (list string) (list Row))
    : gmap (list string) (list Row) :=
  <[ key := default [] (table !! key) ++ [row] ]> table.

Definition build_table (sides : list Expression) (params : Params) (rows : list Row) (ticks : Z)
    : exec ExecError (Z * gmap (list string) (list Row)) :=
  foreach (λ '(ticks, table) row,
      ticks ← tick ticks;
      key ← join_key sides row params;
      mret (ticks, match key with Some key => table_push key row table | None => table end))
    rows (ticks, ∅).

(** [LogicalPlan::HashJoin] *)
Definition hash_join (build probe : list Row) (on : list JoinKey) (residual : option Expression)
    (params : Params) : exec ExecError (list Row) :=
  '(ticks, table) ← build_table (map build_side on) params build DeadlineProbe_new;
  '(_, out) ← foreach (λ '(ticks, out) prow,
      ticks ← tick ticks;
      _ ← meter_check;
      key ← join_key (map probe_side on) prow params;
      match key with
      | None => mret (ticks, out)
      | Some key =>
          foreach (λ '(ticks, out) brow,
              ticks ← tick ticks;
              let combined := merge_rows brow prow in
              match residual with
              | Some res =>
                  v ← ev res combined params;
                  mret (ticks, if is_true v then out ++ [combined] else out)
              | None => mret (ticks, out ++ [combined])
              end) (default [] (table !! key)) (ticks, out)
      end) probe (ticks, []);
  mret out.

(** The first inner row whose residual holds; the probe's ticks. *)
Fixpoint semi_match (residual : Expression) (params : Params) (orow : Row) (inner : list Row) (ticks : Z)
    : exec ExecError (Z * bool) :=
  match inner with
  | [] => mret (ticks, false)
  | irow :: inner =>
      ticks ← tick ticks;
      v ← ev residual (merge_rows irow orow) params;
      if is_true v then mret (ticks, true) else semi_match residual params orow inner ticks
  end.

(** [LogicalPlan::HashSemiJoin]; the key set is the domain of the table. *)
Definition hash_semi_join (outer inner : list Row) (on : list JoinKey) (negated : bool)
    (residual : option Expression) (params : Params) : exec ExecError (list Row) :=
  '(ticks, table) ← build_table (map build_side on) params inner DeadlineProbe_new;
  '(_, out) ← foreach (λ '(ticks, out) orow,
      ticks ← tick ticks;
      key ← join_key (map probe_side on) orow params;
      '(ticks, matched) ←
        match key with
        | None => mret (ticks, false)
        | Some key =>
            match residual with
            | Some res => semi_match res params orow (default [] (table !! key)) ticks
            | None => mret (ticks, bool_decide (is_Some (table !! key)))
            end
        end;
      let keep := if negated : bool then negb matched else matched in
      mret (ticks, if keep then out ++ [orow] else out)) outer (ticks, []);
  mret out.

(** ** UNWIND *)

(** [LogicalPlan::Unwind] *)
Definition unwind_rows (rows : list Row) (list_ : Expression) (alias : string) (params : Params)
    : exec ExecError (list Row) :=
  foreach (λ out row,
      _ ← check_deadline;
      v ← ev list_ row params;
      match v with
      | RList items =>
          _ ← meter_check;
          foreach (λ out item,
              _ ← (if Z.of_nat (length out) mod CHECK_STRIDE =? 0 then
                     _ ← check_deadline;
                     _ ← check_row_cap (Z.of_nat (length out));
                     meter_check
                   else mret ());
              mret (out ++ [Row_set row alias item])) items out
      | RNull => mret out
      | _ => throw (XRuntime ("UNWIND requires a list; got " +:+ type_name v))
      end) rows [].
End operators.
