(* ===== verification/OperatorFacts.v ===== *)
(** What the row operators return.

    Under a host that does not interrupt and enforces no cap or budget, each
    operator is a function of the values its expressions evaluate to. [yields m a]
    is total correctness: [m] returns [a] whatever the host readings. *)
From S2P Require Import Prelude Float StorageError Ast RuntimeValue Exec Scalar Functions Expr ExprFacts Fingerprint Operators.

Definition yields {E A} (m : exec E A) (a : A) : Prop := ∀ n, (m n).1 = Some (Ok a).

Section yields.
Context {E : Type}.

Lemma yields_mret {A} (a : A) : yields (E := E) (mret a) a.
Proof. done. Qed.
Lemma yields_then {A B} (m : exec E A) (f : A → exec E B) a b :
  yields m a → yields (f a) b → yields (m ≫= f) b.
Proof.
  intros Hm Hf n. unfold mbind, exec_bind. specialize (Hm n).
  destruct (m n) as [o n']. cbn in Hm. subst o. apply Hf.
Qed.
Lemma yields_lift {F A} (conv : E → F) (m : exec E A) a : yields m a → yields (lift_err conv m) a.
Proof.
  intros Hm n. unfold lift_err. specialize (Hm n). destruct (m n) as [o n']. cbn in Hm. by subst o.
Qed.
Lemma yields_det {A} (m : exec E A) a b : yields m a → yields m b → a = b.
Proof. intros Ha Hb. specialize (Ha 0%nat). rewrite Hb in Ha. by injection Ha. Qed.
Lemma yields_steady {A} (m : exec E A) a n : steady m → (m n).1 = Some (Ok a) → yields m a.
Proof. intros Hs Hm n'. by rewrite (Hs n' n). Qed.

(** A result of a steady sequence comes from a result of each part. *)
Lemma yields_bind_inv {A B} (m : exec E A) (f : A → exec E B) b :
  steady m → (∀ a, steady (f a)) → yields (m ≫= f) b → ∃ a, yields m a ∧ yields (f a) b.
Proof.
  intros Hm Hf Hb. specialize (Hb 0%nat). unfold mbind, exec_bind in Hb.
  destruct (m 0%nat) as [[[a|e]|] n'] eqn:Hm0; try discriminate. exists a. split.
  - eapply (yields_steady _ _ 0%nat); [done|by rewrite Hm0].
  - by eapply yields_steady.
Qed.

(** The loop rule: a body that tracks [g] on the part [π] of the state. *)
Lemma yields_foreach {A S T} (f : S → A → exec E S) (π : S → T) (g : T → A → T) l s :
  (∀ s x, x ∈ l → ∃ s', yields (f s x) s' ∧ π s' = g (π s) x) →
  ∃ s', yields (foreach f l s) s' ∧ π s' = foldl g (π s) l.
Proof.
  revert s. induction l as [|x l IH]; intros s Hf; cbn [foreach foldl]; [by exists s|].
  destruct (Hf s x) as (s' & Hs' & <-); [set_solver|].
  destruct (IH s') as (s'' & Hs'' & <-); [set_solver|].
  exists s''. split; [by eapply yields_then|done].
Qed.

(** The loop with a postcondition, and followed by the rest of the operator. *)
Lemma yields_foreach_post {A S T} (π : S → T) (g : T → A → T) (f : S → A → exec E S) l s (P : S → Prop) :
  (∀ s x, x ∈ l → ∃ s', yields (f s x) s' ∧ π s' = g (π s) x) →
  (∀ s', π s' = foldl g (π s) l → P s') →
  ∃ s', yields (foreach f l s) s' ∧ P s'.
Proof. intros Hf HP. destruct (yields_foreach f π g l s Hf) as (s' & Hs' & Hπ). eauto. Qed.
Lemma yields_loop {A S T B} (π : S → T) (g : T → A → T) (f : S → A → exec E S) l s (k : S → exec E B) b :
  (∀ s x, x ∈ l → ∃ s', yields (f s x) s' ∧ π s' = g (π s) x) →
  (∀ s', π s' = foldl g (π s) l → yields (k s') b) →
  yields (foreach f l s ≫= k) b.
Proof.
  intros Hf Hk. destruct (yields_foreach f π g l s Hf) as (s' & Hs' & Hπ).
  eapply yields_then; [exact Hs'|by apply Hk].
Qed.

Lemma yields_exact {A} (m : exec E A) a : (∃ a', yields m a' ∧ a' = a) → yields m a.
Proof. by intros (? & Hm & ->). Qed.

Lemma yields_collect {A B} (f : A → exec E B) g l :
  (∀ x, x ∈ l → yields (f x) (g x)) → yields (collect f l) (map g l).
Proof.
  induction l as [|x l IH]; intros Hf; cbn [collect map]; [done|].
  eapply yields_then; [apply Hf; set_solver|].
  eapply yields_then; [apply IH; set_solver|done].
Qed.
End yields.

(** Pushing pieces onto a vector. *)
Lemma foldl_push {A B} (f : A → list B) l acc :
  foldl (λ out x, out ++ f x) acc l = acc ++ concat (map f l).
Proof.
  revert acc. induction l as [|x l IH]; intros acc; cbn; [by rewrite app_nil_r|].
  by rewrite IH, <- app_assoc.
Qed.
Lemma concat_filter {A} (p : A → bool) l :
  concat (map (λ x, if p x then [x] else []) l) = List.filter p l.
Proof. induction l as [|x l IH]; cbn; [done|]. by destruct (p x); cbn; rewrite IH. Qed.

Section quiet.
Context `{HH : Host, HL : Libs, HQ : !QuietHost}.

Lemma yields_deadline : yields check_deadline ().
Proof. intros n. unfold check_deadline, mbind, exec_bind, read. by rewrite quiet_interrupted. Qed.
Lemma yields_row_cap len : yields (check_row_cap len) ().
Proof. intros n. unfold check_row_cap. by rewrite quiet_row_cap. Qed.
Lemma yields_meter : yields meter_check ().
Proof. intros n. unfold meter_check. by rewrite quiet_memory. Qed.
Lemma yields_tick t : yields (tick t) ((t + 1) mod 2 ^ 32).
Proof.
  unfold tick. eapply yields_then; [|done]. case_match; [apply yields_deadline|done].
Qed.
Lemma yields_when (b : bool) (m : exec ExecError ()) : yields m () → yields (if b then m else mret ()) ().
Proof. by destruct b. Qed.

(** ** Filter and projection *)

Definition evaluates (e : Expression) (params : Params) (row : Row) (v : RuntimeValue) : Prop :=
  yields (evaluate e row params) v.

Lemma yields_ev e row params v : evaluates e params row v → yields (ev e row params) v.
Proof. apply yields_lift. Qed.

Lemma filter_rows_yields p params rows (val : Row → RuntimeValue) :
  (∀ row, row ∈ rows → evaluates p params row (val row)) →
  yields (filter_rows p params rows) (List.filter (λ row, is_true (val row)) rows).
Proof.
  intros Hv. unfold filter_rows.
  apply (yields_loop snd (λ out row, out ++ (if is_true (val row) then [row] else []))).
  - intros [t out] row Hr. eexists. split.
    + eapply yields_then; [apply yields_tick|]. eapply yields_then; [by apply yields_ev, Hv|done].
    + cbn. destruct (is_true (val row)); [done|by rewrite app_nil_r].
  - intros [t out] Ho. cbn in Ho |- *. rewrite Ho, foldl_push, concat_filter. apply yields_mret.
Qed.

(** The new row of a projection, from the values of its items. *)
Definition projected (items : list ProjectionItem) (discard : bool) (val : Expression → Row → RuntimeValue)
    (row : Row) : Row :=
  foldl (λ new_row item, Row_set new_row (pi_alias item) (val (pi_expression item) row))
    (if discard then Row_new else row) items.

Lemma project_rows_yields rows items discard params (val : Expression → Row → RuntimeValue) :
  (∀ row item, row ∈ rows → item ∈ items →
     evaluates (pi_expression item) params row (val (pi_expression item) row)) →
  yields (project_rows rows items discard params) (map (projected items discard val) rows).
Proof.
  intros Hv. unfold project_rows.
  apply (yields_loop snd (λ out row, out ++ [projected items discard val row])).
  - intros [t out] row Hr.
    eexists (_, out ++ [projected items discard val row]). split; [|done].
    eapply yields_then; [apply yields_tick|].
    eapply (yields_loop id (λ new_row item, Row_set new_row (pi_alias item) (val (pi_expression item) row))).
    + intros new_row item Hi. eexists. split; [|done].
      eapply yields_then; [by apply yields_ev, Hv|done].
    + intros new_row Hn. unfold id in Hn. subst new_row.
      eapply yields_then; [apply yields_when, yields_meter|done].
  - intros [t out] Ho. cbn in Ho |- *. eapply yields_then; [apply yields_meter|].
    rewrite Ho, (foldl_push (λ row, [projected items discard val row])). intros n. cbn. do 3 f_equal.
    clear. induction rows as [|row rows IH]; cbn; by f_equal.
Qed.

(** ** DISTINCT *)

(** The rows whose key is met for the first time, after those of [seen]. *)
Fixpoint firsts {A K} `{EqDecision K, Countable K} (key : A → K) (seen : gset K) (l : list A) : list A :=
  match l with
  | [] => []
  | x :: l => if bool_decide (key x ∈ seen) then firsts key seen l else x :: firsts key ({[ key x ]} ∪ seen) l
  end.

Definition firsts_step {A K} `{EqDecision K, Countable K} (key : A → K)
    (st : gset K * list A) (x : A) : gset K * list A :=
  if bool_decide (key x ∈ st.1) then st else ({[ key x ]} ∪ st.1, st.2 ++ [x]).
Lemma foldl_firsts {A K} `{EqDecision K, Countable K} (key : A → K) l st :
  (foldl (firsts_step key) st l).2 = st.2 ++ firsts key st.1 l.
Proof.
  revert st. induction l as [|x l IH]; intros [seen acc]; cbn; [by rewrite app_nil_r|].
  rewrite IH. unfold firsts_step. cbn. case_bool_decide; cbn; [done|by rewrite <- app_assoc].
Qed.

Lemma dedup_rows_yields rows : yields (dedup_rows rows) (firsts row_fingerprint ∅ rows).
Proof.
  unfold dedup_rows. eapply yields_then; [apply yields_meter|].
  apply (yields_loop (λ st, (st.1.2, st.2)) (firsts_step row_fingerprint)).
  - intros [[t seen] out] row _. unfold firsts_step. cbn [fst snd].
    destruct (bool_decide (row_fingerprint row ∈ seen)).
    all: eexists (_, _, _); split; [|reflexivity].
    all: eapply yields_then; [apply yields_tick|]; eapply yields_then; [apply yields_meter|].
    all: apply yields_mret.
  - intros [[t seen'] out] Ho. apply (f_equal snd) in Ho. rewrite foldl_firsts in Ho. cbn in Ho |- *.
    rewrite Ho. apply yields_mret.
Qed.

(** ** Products *)

Definition product (l r : list Row) : list Row := concat (map (λ x, map (merge_rows x) r) l).

Lemma concat_singletons {A B} (f : A → B) l : concat (map (λ x, [f x]) l) = map f l.
Proof. induction l as [|x l IH]; cbn; by f_equal. Qed.
Lemma product_nil_r l : product l [] = [].
Proof. unfold product. induction l as [|x l IH]; [done|]. exact IH. Qed.

Lemma cross_product_yields l r : yields (cross_product l r) (product l r).
Proof.
  unfold cross_product.
  destruct l as [|x l], r as [|y r]; [apply yields_mret..|rewrite product_nil_r; apply yields_mret|].
  generalize (x :: l), (y :: r). clear l r x y. intros l r.
  eapply yields_then; [apply yields_meter|].
  apply (yields_loop snd (λ out x, out ++ map (merge_rows x) r)).
  - intros st x _. apply (yields_foreach_post snd (λ out y, out ++ [merge_rows x y])).
    + intros [t out] y _. eexists. split; [eapply yields_then; [apply yields_tick|apply yields_mret]|done].
    + intros st' ->. by rewrite (foldl_push (λ y, [merge_rows x y])), concat_singletons.
  - intros [t out] Ho. cbn in Ho |- *. rewrite Ho, foldl_push. apply yields_mret.
Qed.

Lemma cross_product_rows_yields l r : yields (cross_product_rows l r) (product l r).
Proof. eapply yields_then; [apply yields_row_cap|apply cross_product_yields]. Qed.

(** ** Hash joins *)

(** The values of expressions on rows, and the join key they make. *)
Abbreviation valuation := (Expression → Row → RuntimeValue) (only parsing).

Fixpoint key_values (val : valuation) (sides : list Expression) (row : Row) : option (list string) :=
  match sides with
  | [] => Some []
  | e :: sides =>
      if is_null (val e row) then None
      else match key_values val sides row with
           | Some key => Some (fingerprint_value (val e row) :: key)
           | None => None
           end
  end.

Definition sides_evaluate (val : valuation) (sides : list Expression) (params : Params) (rows : list Row) : Prop :=
  ∀ row e, row ∈ rows → e ∈ sides → evaluates e params row (val e row).

Lemma join_key_yields val sides params row :
  (∀ e, e ∈ sides → evaluates e params row (val e row)) →
  yields (join_key sides row params) (key_values val sides row).
Proof.
  induction sides as [|e sides IH]; intros Hv; cbn [join_key key_values]; [apply yields_mret|].
  eapply yields_then; [by apply yields_ev, Hv; set_solver|].
  destruct (is_null (val e row)) eqn:Hn; destruct (val e row); try discriminate; try apply yields_mret.
  all: eapply yields_then; [apply IH; set_solver|apply yields_mret].
Qed.

(** The rows with a given key, in order. *)
Definition with_key (val : valuation) (sides : list Expression) (rows : list Row) (key : list string) : list Row :=
  List.filter (λ row, bool_decide (key_values val sides row = Some key)) rows.

(** A table holds, under each key, the rows [f] gives it, and no empty entry. *)
Definition holds (table : gmap (list string) (list Row)) (f : list string → list Row) : Prop :=
  ∀ key, table !! key = match f key with [] => None | rows => Some rows end.

Lemma holds_push key row table f :
  holds table f → holds (table_push key row table) (λ k, f k ++ if bool_decide (key = k) then [row] else []).
Proof.
  intros Hh k. unfold table_push. case_bool_decide as Hk.
  - subst k. rewrite lookup_insert_eq, Hh. by destruct (f key).
  - rewrite lookup_insert_ne, Hh, app_nil_r by done. done.
Qed.
Lemma holds_default table f key : holds table f → default [] (table !! key) = f key.
Proof. intros Hh. rewrite Hh. by destruct (f key). Qed.

Definition key_push (val : valuation) (sides : list Expression) (table : gmap (list string) (list Row)) (row : Row)
    : gmap (list string) (list Row) :=
  match key_values val sides row with Some key => table_push key row table | None => table end.

Lemma holds_fold val sides rows table f :
  holds table f → holds (foldl (key_push val sides) table rows) (λ k, f k ++ with_key val sides rows k).
Proof.
  revert table f. induction rows as [|row rows IH]; intros table f Hh; cbn.
  - intros k. by rewrite app_nil_r.
  - intros k. unfold key_push at 2. destruct (key_values val sides row) as [key|] eqn:Hk.
    + rewrite (IH _ _ (holds_push key row table f Hh)), <- app_assoc.
      replace (bool_decide (Some key = Some k)) with (bool_decide (key = k))
        by (apply bool_decide_ext; naive_solver).
      by case_bool_decide.
    + by rewrite (IH _ _ Hh).
Qed.

Lemma build_table_yields val sides params rows t :
  sides_evaluate val sides params rows →
  ∃ st, yields (build_table sides params rows t) st ∧ holds st.2 (with_key val sides rows).
Proof.
  intros Hv. apply (yields_foreach_post snd (key_push val sides)).
  - intros [t1 table] row Hr. eexists (_, _). split; [|reflexivity].
    eapply yields_then; [apply yields_tick|]. eapply yields_then; [|apply yields_mret].
    apply join_key_yields. intros e He. by apply Hv.
  - intros [t' table] Ht. cbn in Ht |- *. subst table. by apply (holds_fold _ _ _ ∅ (λ _, [])).
Qed.

(** The rows a pair contributes to a join. *)
Definition join_pair (val : valuation) (residual : option Expression) (brow prow : Row) : list Row :=
  let combined := merge_rows brow prow in
  match residual with
  | Some res => if is_true (val res combined) then [combined] else []
  | None => [combined]
  end.

Definition join_rows (val : valuation) (on : list JoinKey) (residual : option Expression)
    (build probe : list Row) : list Row :=
  concat (map (λ prow,
    match key_values val (map probe_side on) prow with
    | None => []
    | Some key => concat (map (λ brow, join_pair val residual brow prow)
                              (with_key val (map build_side on) build key))
    end) probe).

(** The residual evaluates on the pairs whose keys meet. *)
Definition residual_evaluates (val : valuation) (on : list JoinKey) (residual : option Expression)
    (params : Params) (build probe : list Row) : Prop :=
  ∀ res brow prow key, residual = Some res → brow ∈ build → prow ∈ probe →
    key_values val (map build_side on) brow = Some key →
    key_values val (map probe_side on) prow = Some key →
    evaluates res params (merge_rows brow prow) (val res (merge_rows brow prow)).

Lemma elem_of_with_key val sides rows key row :
  row ∈ with_key val sides rows key ↔ row ∈ rows ∧ key_values val sides row = Some key.
Proof.
  unfold with_key. rewrite !list_elem_of_In, filter_In, bool_decide_eq_true. done.
Qed.

(** The rows the matches of a probe row contribute. *)
Lemma probe_yields val residual params prow matches t out :
  (∀ res brow, residual = Some res → brow ∈ matches →
     evaluates res params (merge_rows brow prow) (val res (merge_rows brow prow))) →
  ∃ st, yields (foreach (λ '(ticks, out) brow,
      ticks ← tick ticks;
      let combined := merge_rows brow prow in
      match residual with
      | Some res => v ← ev res combined params;
                    mret (ticks, if is_true v then out ++ [combined] else out)
      | None => mret (ticks, out ++ [combined])
      end) matches (t, out)) st ∧
    st.2 = out ++ concat (map (λ brow, join_pair val residual brow prow) matches).
Proof.
  intros Hres. apply (yields_foreach_post snd (λ out brow, out ++ join_pair val residual brow prow)).
  - intros [t2 out'] brow Hbr. unfold join_pair.
    destruct residual as [res|]; eexists; (split; [eapply yields_then; [apply yields_tick|]|]).
    + eapply yields_then; [apply yields_ev; by eapply Hres|apply yields_mret].
    + cbn. destruct (is_true _); [done|by rewrite app_nil_r].
    + apply yields_mret.
    + done.
  - intros st' ->. apply foldl_push.
Qed.

Lemma hash_join_yields val build probe on residual params :
  sides_evaluate val (map build_side on) params build →
  sides_evaluate val (map probe_side on) params probe →
  residual_evaluates val on residual params build probe →
  yields (hash_join build probe on residual params) (join_rows val on residual build probe).
Proof.
  intros Hb Hp Hres. unfold hash_join.
  destruct (build_table_yields val _ params build DeadlineProbe_new Hb) as ([t table] & Ht & Hlook).
  eapply yields_then; [exact Ht|]. cbn [snd] in Hlook.
  apply (yields_loop snd (λ out prow, out ++
    match key_values val (map probe_side on) prow with
    | None => []
    | Some key => concat (map (λ brow, join_pair val residual brow prow)
                              (with_key val (map build_side on) build key))
    end)).
  - intros [t1 out] prow Hr.
    pose proof (join_key_yields val (map probe_side on) params prow (λ e, Hp prow e Hr)) as Hjk.
    destruct (key_values val (map probe_side on) prow) as [key|] eqn:Hk.
    + destruct (probe_yields val residual params prow (with_key val (map build_side on) build key)
                  ((t1 + 1) mod 2 ^ 32) out) as (st & Hst & Ho).
      { intros res brow Hrs [Hbr Hbk]%elem_of_with_key. by eapply Hres. }
      exists st. split; [|exact Ho].
      eapply yields_then; [apply yields_tick|]. eapply yields_then; [apply yields_meter|].
      eapply yields_then; [exact Hjk|]. cbv beta iota. rewrite (holds_default _ _ _ Hlook). exact Hst.
    + exists ((t1 + 1) mod 2 ^ 32, out). split; [|by rewrite app_nil_r].
      eapply yields_then; [apply yields_tick|]. eapply yields_then; [apply yields_meter|].
      eapply yields_then; [exact Hjk|apply yields_mret].
  - intros [t1 out] Ho. cbn in Ho |- *. rewrite Ho, foldl_push. apply yields_mret.
Qed.

(** ** Semi-joins *)

Lemma semi_match_yields val res params orow inner t :
  (∀ irow, irow ∈ inner → evaluates res params (merge_rows irow orow) (val res (merge_rows irow orow))) →
  ∃ t', yields (semi_match res params orow inner t)
               (t', existsb (λ irow, is_true (val res (merge_rows irow orow))) inner).
Proof.
  revert t. induction inner as [|irow inner IH]; intros t Hv; cbn [semi_match existsb]; [by exists t|].
  destruct (is_true (val res (merge_rows irow orow))) eqn:Ht; [eexists|destruct (IH ((t + 1) mod 2 ^ 32)) as [t' Hy]; [set_solver|exists t']].
  all: eapply yields_then; [apply yields_tick|]; eapply yields_then; [apply yields_ev, Hv; set_solver|].
  all: cbv beta; rewrite Ht; first [exact Hy|apply yields_mret].
Qed.

(** Some inner row meets the outer row's keys and the residual. *)
Definition semi_matched (val : valuation) (on : list JoinKey) (residual : option Expression)
    (inner : list Row) (orow : Row) : bool :=
  match key_values val (map probe_side on) orow with
  | None => false
  | Some key =>
      existsb (λ irow, match residual with Some res => is_true (val res (merge_rows irow orow)) | None => true end)
              (with_key val (map build_side on) inner key)
  end.

Lemma hash_semi_join_yields val outer inner on negated residual params :
  sides_evaluate val (map build_side on) params inner →
  sides_evaluate val (map probe_side on) params outer →
  residual_evaluates val on residual params inner outer →
  yields (hash_semi_join outer inner on negated residual params)
         (List.filter (λ orow, xorb negated (semi_matched val on residual inner orow)) outer).
Proof.
  intros Hi Ho Hres. unfold hash_semi_join.
  destruct (build_table_yields val _ params inner DeadlineProbe_new Hi) as ([t table] & Ht & Hlook).
  eapply yields_then; [exact Ht|]. cbn [snd] in Hlook.
  apply (yields_loop snd (λ out orow,
    out ++ if xorb negated (semi_matched val on residual inner orow) then [orow] else [])).
  - intros [t1 out] orow Hr.
    pose proof (join_key_yields val (map probe_side on) params orow (λ e, Ho orow e Hr)) as Hjk.
    cut (∃ t2, yields (match key_values val (map probe_side on) orow with
        | None => mret ((t1 + 1) mod 2 ^ 32, false)
        | Some key =>
            match residual with
            | Some res => semi_match res params orow (default [] (table !! key)) ((t1 + 1) mod 2 ^ 32)
            | None => mret ((t1 + 1) mod 2 ^ 32, bool_decide (is_Some (table !! key)))
            end
        end) (t2, semi_matched val on residual inner orow)).
    { intros [t2 Hm]. eexists (t2, _). split; [|reflexivity].
      eapply yields_then; [apply yields_tick|]. eapply yields_then; [exact Hjk|].
      eapply yields_then; [exact Hm|]. cbv beta iota zeta.
      destruct negated, (semi_matched val on residual inner orow); cbn; rewrite ?app_nil_r; apply yields_mret. }
    unfold semi_matched. destruct (key_values val (map probe_side on) orow) as [key|] eqn:Hk; [|by eexists].
    destruct residual as [res|].
    + rewrite (holds_default _ _ _ Hlook). apply semi_match_yields.
      intros irow [Hir Hik]%elem_of_with_key. by eapply Hres.
    + eexists. rewrite Hlook. destruct (with_key val (map build_side on) inner key); apply yields_mret.
  - intros [t1 out] Heq. cbn in Heq |- *. rewrite Heq, foldl_push, concat_filter. apply yields_mret.
Qed.

(** ** UNWIND *)

(** The items a row unwinds to; a value other than a list or NULL is an error. *)
Definition unwound (v : RuntimeValue) : option (list RuntimeValue) :=
  match v with RList items => Some items | RNull => Some [] | _ => None end.

Lemma unwind_rows_yields rows list_ alias params (items : Row → list RuntimeValue) :
  (∀ row, row ∈ rows → ∃ v, evaluates list_ params row v ∧ unwound v = Some (items row)) →
  yields (unwind_rows rows list_ alias params)
         (concat (map (λ row, map (Row_set row alias) (items row)) rows)).
Proof.
  intros Hv.
  apply yields_exact, (yields_foreach_post id (λ out row, out ++ map (Row_set row alias) (items row))).
  - intros out row Hr. destruct (Hv row Hr) as (v & Hy & Hu).
    destruct v as [| | | | |l| | | | | | | | |]; try discriminate; injection Hu as <-.
    + exists out. split; [|by cbn; rewrite app_nil_r].
      eapply yields_then; [apply yields_deadline|]. eapply yields_then; [by apply yields_ev|apply yields_mret].
    + exists (out ++ map (Row_set row alias) l). split; [|done].
      eapply yields_then; [apply yields_deadline|]. eapply yields_then; [by apply yields_ev|].
      eapply yields_then; [apply yields_meter|].
      apply yields_exact, (yields_foreach_post id (λ out item, out ++ [Row_set row alias item])).
      * intros o item _. eexists. split; [|reflexivity].
        eapply yields_then; [|apply yields_mret]. apply yields_when.
        eapply yields_then; [apply yields_deadline|]. eapply yields_then; [apply yields_row_cap|apply yields_meter].
      * intros o Ho. unfold id in Ho. rewrite Ho, (foldl_push (λ item, [Row_set row alias item])), concat_singletons. reflexivity.
  - intros out Ho. unfold id in Ho. by rewrite Ho, foldl_push.
Qed.
End quiet.
