(* ===== verification/Rewrites.v ===== *)
(** Plan rewrites of the optimizer, on the operators they rewrite:
    merging stacked filters ([optimize/normalize.rs]) and turning a filtered cross
    product into a hash join ([optimize/join_conversion.rs]). *)
From S2P Require Import Prelude Float StorageError Ast RuntimeValue Exec Scalar Functions Expr ExprFacts Fingerprint Operators OperatorFacts.

(** ** Merging filters *)

(** [apply_filter_rules], rule 2: the predicate of the merged filter. *)
Definition merged_predicate (inner_predicate predicate : Expression) : option Expression :=
  and_chain (split_and_terms inner_predicate ++ split_and_terms predicate).

(** ** Hash-join conversion *)

Inductive ConjunctClass :=
| LeftEqRight (lhs rhs : Expression)
| RightEqLeft (lhs rhs : Expression)
| CResidual.

Definition classify_conjunct (term : Expression) (left_ right_ : gset string) : ConjunctClass :=
  match expr_kind term with
  | EBinary Eq_ lhs rhs =>
      let lhs_aliases := expression_aliases lhs in
      let rhs_aliases := expression_aliases rhs in
      let l_on_left := bool_decide (lhs_aliases ≠ ∅) && bool_decide (lhs_aliases ⊆ left_) in
      let r_on_right := bool_decide (rhs_aliases ≠ ∅) && bool_decide (rhs_aliases ⊆ right_) in
      let l_on_right := bool_decide (lhs_aliases ≠ ∅) && bool_decide (lhs_aliases ⊆ right_) in
      let r_on_left := bool_decide (rhs_aliases ≠ ∅) && bool_decide (rhs_aliases ⊆ left_) in
      if l_on_left && r_on_right then LeftEqRight lhs rhs
      else if l_on_right && r_on_left then RightEqLeft lhs rhs
      else CResidual
  | _ => CResidual
  end.

(** [try_convert_at_root]: the loop over the conjuncts, collecting (left, right)
    key pairs and residual terms. *)
Definition sort_conjunct (left_ right_ : gset string) (acc : list (Expression * Expression) * list Expression)
    (term : Expression) : list (Expression * Expression) * list Expression :=
  let '(keys, residual_terms) := acc in
  match classify_conjunct term left_ right_ with
  | LeftEqRight lhs rhs => (keys ++ [(lhs, rhs)], residual_terms)
  | RightEqLeft lhs rhs => (keys ++ [(rhs, lhs)], residual_terms)
  | CResidual => (keys, residual_terms ++ [term])
  end.
Definition split_conjuncts (conjuncts : list Expression) (left_ right_ : gset string)
    : list (Expression * Expression) * list Expression :=
  foldl (sort_conjunct left_ right_) ([], []) conjuncts.

(** The join that replaces the filter, [None] when no conjunct is a cross-side
    equality. The side with fewer estimated rows is built. *)
Definition convert_at_root (predicate : Expression) (left_ right_ : gset string) (pick_left_as_build : bool)
    : option (list JoinKey * option Expression) :=
  let '(left_to_right_keys, residual_terms) :=
    split_conjuncts (split_and_terms predicate) left_ right_ in
  match left_to_right_keys with
  | [] => None
  | _ =>
      let on := map (λ '(l, r), if pick_left_as_build then {| build_side := l; probe_side := r |}
                                else {| build_side := r; probe_side := l |}) left_to_right_keys in
      Some (on, and_chain residual_terms)
  end.

(** ** Conjunctions of evaluated terms *)

Section facts.
Context `{HH : Host, HL : Libs, HQ : !QuietHost, HS : !SteadyHost}.

(** The value of an expression; NULL when its evaluation fails. *)
Definition value_of (params : Params) (e : Expression) (row : Row) : RuntimeValue :=
  match (evaluate e row params 0%nat).1 with Some (Ok v) => v | _ => RNull end.
(** The evaluation returns a value. *)
Definition defined (params : Params) (e : Expression) (row : Row) : Prop :=
  evaluates e params row (value_of params e row).

Lemma evaluates_value e params row v : evaluates e params row v → value_of params e row = v.
Proof. intros Hv. unfold value_of. by rewrite (Hv 0%nat). Qed.
Lemma evaluates_defined e params row v : evaluates e params row v → defined params e row.
Proof. intros Hv. unfold defined. by rewrite (evaluates_value _ _ _ _ Hv). Qed.

Lemma is_true_and a b : is_true (kleene_and a b) = is_true a && is_true b.
Proof. unfold is_true, kleene_and. by destruct (as_bool a) as [[]|], (as_bool b) as [[]|]. Qed.

Lemma and_then_yields x y v :
  steady x → steady y → yields (and_then x y) v → ∃ a b, yields x a ∧ yields y b ∧ v = kleene_and a b.
Proof.
  intros Hx Hy Hv. apply yields_bind_inv in Hv as (a & Ha & Hv); [|done|].
  2: { intros l. apply steady_bind; [done|by intros r n n']. }
  apply yields_bind_inv in Hv as (b & Hb & Hv); [|done|by intros r n n'].
  exists a, b. split; [done|]. split; [done|]. by eapply yields_det.
Qed.
Lemma yields_equiv {E A} (m m' : exec E A) a : m ≈ m' → yields m a → yields m' a.
Proof. intros Hm Hy n. by rewrite <- (Hm n). Qed.

(** A conjunction evaluates when all its terms do, and holds when they all hold. *)
Definition all_hold (params : Params) (ts : list Expression) (row : Row) : bool :=
  forallb (λ t, is_true (value_of params t row)) ts.

Lemma fold_terms_yields params row ts x a :
  yields x a → (∀ t, t ∈ ts → defined params t row) →
  ∃ v, yields (foldl and_then x (map (λ e, evaluate e row params) ts)) v ∧
       is_true v = is_true a && all_hold params ts row.
Proof.
  revert x a. induction ts as [|t ts IH]; intros x a Hx Hts; cbn.
  - exists a. by rewrite andb_true_r.
  - destruct (IH (and_then x (evaluate t row params)) (kleene_and a (value_of params t row))) as (v & Hv & Hb).
    + eapply yields_then; [exact Hx|]. eapply yields_then; [apply Hts; set_solver|done].
    + set_solver.
    + exists v. split; [exact Hv|]. by rewrite Hb, is_true_and, andb_assoc.
Qed.
Lemma fold_terms_inv params row ts x v :
  steady x → yields (foldl and_then x (map (λ e, evaluate e row params) ts)) v →
  (∃ a, yields x a) ∧ (∀ t, t ∈ ts → defined params t row).
Proof.
  revert x. induction ts as [|t ts IH]; intros x Hx Hv; cbn in Hv; [split; [eauto|set_solver]|].
  apply IH in Hv as [[b Hb] Hts].
  2: { apply steady_bind; [done|]. intros l. apply steady_bind; [apply evaluate_steady|by intros r n n']. }
  apply and_then_yields in Hb as (a & c & Ha & Hc & _); [|done|apply evaluate_steady].
  split; [eauto|]. intros t' [->|Ht]%elem_of_cons; [by eapply evaluates_defined|auto].
Qed.

Lemma all_of_yields params row ts :
  (∀ t, t ∈ ts → defined params t row) →
  ∃ v, yields (all_of ts row params) v ∧ is_true v = all_hold params ts row.
Proof.
  destruct ts as [|t ts]; intros Hts; [by exists (RBool true)|].
  apply fold_terms_yields; [apply Hts|intros; apply Hts]; set_solver.
Qed.
Lemma all_of_inv params row ts v :
  yields (all_of ts row params) v → ∀ t, t ∈ ts → defined params t row.
Proof.
  destruct ts as [|t ts]; intros Hv; [set_solver|].
  apply fold_terms_inv in Hv as [[a Ha] Hts]; [|apply evaluate_steady].
  intros t' [->|Ht]%elem_of_cons; [by eapply evaluates_defined|auto].
Qed.

(** An expression evaluates exactly when its conjuncts do. *)
Lemma conjuncts_defined params e row :
  defined params e row ↔ ∀ t, t ∈ split_and_terms e → defined params t row.
Proof.
  split.
  - intros He. eapply all_of_inv, yields_equiv, He. symmetry. apply all_of_split.
  - intros Hts. destruct (all_of_yields params row _ Hts) as (v & Hv & _).
    eapply evaluates_defined, yields_equiv, Hv. apply all_of_split.
Qed.
Lemma conjuncts_hold params e row :
  defined params e row → is_true (value_of params e row) = all_hold params (split_and_terms e) row.
Proof.
  intros He. destruct (all_of_yields params row (split_and_terms e)) as (v & Hv & <-); [by apply conjuncts_defined|].
  f_equal. apply evaluates_value. eapply yields_equiv, Hv. apply all_of_split.
Qed.
(** ... and so does the chain of a list of terms. *)
Lemma and_chain_defined params ts e row :
  and_chain ts = Some e → (∀ t, t ∈ ts → defined params t row) →
  defined params e row ∧ is_true (value_of params e row) = all_hold params ts row.
Proof.
  intros He Hts. destruct (all_of_yields params row ts Hts) as (v & Hv & <-).
  assert (evaluates e params row v) as Hev.
  { eapply yields_equiv, Hv. symmetry. by apply and_chain_all_of. }
  split; [by eapply evaluates_defined|]. f_equal. by apply evaluates_value.
Qed.
Lemma and_chain_defined_inv params ts e row :
  and_chain ts = Some e → defined params e row → ∀ t, t ∈ ts → defined params t row.
Proof. intros He Hd. eapply all_of_inv, yields_equiv, Hd. by apply and_chain_all_of. Qed.

(** ** Failing loops *)

(** No run returns a value. *)
Definition fails {E A} (m : exec E A) : Prop := ∀ n a, (m n).1 ≠ Some (Ok a).

Lemma fails_bind {E A B} (m : exec E A) (f : A → exec E B) :
  fails m ∨ (∀ a, fails (f a)) → fails (m ≫= f).
Proof.
  intros Hf n b. unfold mbind, exec_bind. destruct (m n) as [[[a|e]|] k] eqn:Hm; try done.
  destruct Hf as [Hf|Hf]; [|apply Hf]. exfalso. apply (Hf n a). by rewrite Hm.
Qed.
Lemma fails_foreach {E A S} (f : S → A → exec E S) l s x :
  x ∈ l → (∀ s, fails (f s x)) → fails (foreach f l s).
Proof.
  intros Hx Hf. revert s. induction Hx as [l|y l Hx IH]; intros s; apply fails_bind; auto.
Qed.

Lemma defined_or_fails params e row : {defined params e row} + {fails (evaluate e row params)}.
Proof.
  destruct (evaluate e row params 0%nat).1 as [[v|err]|] eqn:He.
  - left. eapply evaluates_defined, yields_steady; [apply evaluate_steady|exact He].
  - right. intros n a. by rewrite (evaluate_steady e row params n 0%nat), He.
  - right. intros n a. by rewrite (evaluate_steady e row params n 0%nat), He.
Qed.

(** A filter returns exactly when its predicate evaluates on every row. *)
Lemma filter_rows_outcome p params rows :
  (∀ row, row ∈ rows → defined params p row) ∨ fails (filter_rows p params rows).
Proof.
  destruct (Forall_Exists_dec (defined params p) (λ row, fails (evaluate p row params))
    (defined_or_fails params p) rows) as [Hd|Hf].
  - left. by apply Forall_forall.
  - right. apply Exists_exists in Hf as (row & Hr & Hf). apply fails_bind. left.
    eapply fails_foreach; [exact Hr|]. intros [t o].
    apply fails_bind. right. intros t'. apply fails_bind. left. intros n a. unfold ev, lift_err.
    specialize (Hf n). destruct (evaluate p row params n) as [[[v|e]|] k]; try done. by destruct (Hf v).
Qed.
Lemma filter_rows_inv p params rows out :
  yields (filter_rows p params rows) out →
  (∀ row, row ∈ rows → defined params p row) ∧
  out = List.filter (λ row, is_true (value_of params p row)) rows.
Proof.
  intros Hy. destruct (filter_rows_outcome p params rows) as [Hd|Hf]; [|by destruct (Hf 0%nat out)].
  split; [done|]. eapply yields_det; [exact Hy|]. by apply filter_rows_yields.
Qed.

(** Both filters, one after the other. *)
Lemma filters_in_sequence p q params rows :
  (∀ row, row ∈ rows → defined params p row) → (∀ row, row ∈ rows → defined params q row) →
  yields (mid ← filter_rows p params rows; filter_rows q params mid)
    (List.filter (λ row, is_true (value_of params p row) && is_true (value_of params q row)) rows).
Proof.
  intros Hp Hq. eapply yields_then; [by apply filter_rows_yields|].
  apply yields_exact. eexists. split.
  - apply filter_rows_yields. intros row Hr. apply Hq.
    apply list_elem_of_In, filter_In in Hr as [Hr _]. by apply list_elem_of_In.
  - rewrite List.filter_filter. apply List.filter_ext. intros row. apply andb_comm.
Qed.

(** The merged predicate evaluates when both do, to their conjunction. *)
Lemma merged_predicate_spec p q e params row :
  merged_predicate p q = Some e →
  (defined params e row ↔ defined params p row ∧ defined params q row) ∧
  (defined params e row →
     is_true (value_of params e row) = is_true (value_of params p row) && is_true (value_of params q row)).
Proof.
  intros Hm.
  assert (defined params e row → defined params p row ∧ defined params q row) as Hfwd.
  { intros Hd. pose proof (and_chain_defined_inv params _ _ row Hm Hd).
    split; apply conjuncts_defined; set_solver. }
  split; [split; [done|]|].
  - intros [Hp Hq]. rewrite conjuncts_defined in Hp, Hq. eapply and_chain_defined; [exact Hm|set_solver].
  - intros Hd. destruct (Hfwd Hd) as [Hp Hq].
    rewrite (conjuncts_hold params p), (conjuncts_hold params q) by done.
    unfold all_hold. rewrite <- forallb_app. apply (and_chain_defined params _ _ row Hm).
    by apply and_chain_defined_inv with e.
Qed.

(** C21: merging stacked filters returns the rows the two filters return one after
    the other. It returns exactly when they do and the outer predicate evaluates on
    every input row, also on those the inner filter drops. *)
Theorem merged_filter_sound inner_predicate predicate combined params rows out :
  merged_predicate inner_predicate predicate = Some combined →
  yields (filter_rows combined params rows) out ↔
  yields (mid ← filter_rows inner_predicate params rows; filter_rows predicate params mid) out ∧
  (∀ row, row ∈ rows → defined params predicate row).
Proof.
  intros Hm. pose proof (λ row, merged_predicate_spec _ _ _ params row Hm) as Hspec. split.
  - intros [Hd ->]%filter_rows_inv.
    assert (∀ row, row ∈ rows → defined params predicate row) as Hq by (intros row Hr; by apply Hspec, Hd).
    split; [|done]. apply yields_exact. eexists. split.
    + apply filters_in_sequence; [intros row Hr; by apply Hspec, Hd|exact Hq].
    + apply List.filter_ext_in. intros row Hr%list_elem_of_In. symmetry. by apply Hspec, Hd.
  - intros [Hy Hq]. destruct (filter_rows_outcome inner_predicate params rows) as [Hp|Hf].
    2: { destruct (fails_bind _ _ (or_introl Hf) 0%nat out (Hy 0%nat)). }
    assert (∀ row, row ∈ rows → defined params combined row) as Hd.
    { intros row Hr. apply Hspec. auto. }
    rewrite (yields_det _ _ _ Hy (filters_in_sequence _ _ _ _ Hp Hq)).
    apply yields_exact. eexists. split; [by apply filter_rows_yields|].
    apply List.filter_ext_in. intros row Hr%list_elem_of_In. by apply Hspec, Hd.
Qed.
End facts.
