(* ===== verification/JoinRewrite.v ===== *)
(** The hash join of the join conversion returns the rows of the filtered product. *)
From S2P Require Import Prelude Float StorageError Ast RuntimeValue Exec Scalar Functions Expr ExprFacts Fingerprint Operators OperatorFacts Rewrites.

(** ** Rows of the two sides *)

(** A row that binds only variables of [xs]. *)
Definition binds (xs : gset string) (row : Row) : Prop :=
  keys_sorted (bindings row) = true ∧ ∀ x, is_Some (Row_get row x) → x ∈ xs.

Lemma merge_get x y k :
  keys_sorted (bindings y) = true →
  Row_get (merge_rows x y) k = match Row_get y k with Some v => Some v | None => Row_get x k end.
Proof. apply btree_get_extend. Qed.

Lemma binds_none xs row k : binds xs row → k ∉ xs → Row_get row k = None.
Proof. intros [_ Hb] Hk. apply eq_None_not_Some. intros Hs. by apply Hk, Hb. Qed.

Lemma merge_comm la ra x y : la ## ra → binds la x → binds ra y → merge_rows x y = merge_rows y x.
Proof.
  intros Hd Hx Hy.
  assert (bindings (merge_rows x y) = bindings (merge_rows y x)) as Heq.
  { apply btree_ext; [apply btree_extend_sorted, Hx|apply btree_extend_sorted, Hy|].
    intros k. change (Row_get (merge_rows x y) k = Row_get (merge_rows y x) k).
    rewrite !merge_get by (apply Hx || apply Hy).
    destruct (Row_get x k) eqn:Hxk, (Row_get y k) eqn:Hyk; try done. exfalso.
    apply (Hd k); [by apply Hx; eauto|by apply Hy; eauto]. }
  destruct (merge_rows x y), (merge_rows y x). cbn in Heq. by subst.
Qed.

Lemma agree_left la ra x y xs : la ## ra → binds la x → binds ra y → xs ⊆ la → agree xs (merge_rows x y) x.
Proof.
  intros Hd Hx Hy Hs k Hk. rewrite merge_get by apply Hy.
  by rewrite (binds_none ra y k) by set_solver.
Qed.
Lemma agree_right la ra x y xs : la ## ra → binds la x → binds ra y → xs ⊆ ra → agree xs (merge_rows x y) y.
Proof. intros Hd Hx Hy Hs. rewrite (merge_comm la ra) by done. by apply (agree_left ra la). Qed.

(** ** Equality terms *)

Section terms.
Context `{HH : Host, HL : Libs, HQ : !QuietHost, HS : !SteadyHost}.
Variable params : Params.

Lemma agree_value e row row' :
  agree (expression_aliases e) row row' →
  value_of params e row = value_of params e row' ∧ (defined params e row ↔ defined params e row').
Proof.
  intros Ha. pose proof (evaluate_agree e row row' params Ha) as Heq.
  assert (value_of params e row = value_of params e row') as Hv.
  { unfold value_of. by rewrite (Heq 0%nat). }
  split; [done|]. unfold defined, evaluates. rewrite Hv.
  split; apply yields_equiv; [done|by symmetry].
Qed.

(** [=] on evaluated operands: NULL, or whether they are equal. *)
Lemma equality_term t lhs rhs row :
  expr_kind t = EBinary Eq_ lhs rhs →
  (defined params t row ↔ defined params lhs row ∧ defined params rhs row) ∧
  (defined params t row →
     is_true (value_of params t row) = is_equal (value_of params lhs row) (value_of params rhs row)).
Proof.
  destruct t as [kind span]. cbn [expr_kind]. intros ->.
  set (t := mkExpression (EBinary Eq_ lhs rhs) span).
  set (eq_value := λ a b, if is_null a || is_null b then RNull else RBool (is_equal a b)).
  assert (∀ a b, eval_binary Eq_ a b span = mret (eq_value a b)) as Heq.
  { intros a b. cbn. unfold eq_value. by destruct (is_null a || is_null b). }
  assert (∀ a b, evaluates lhs params row a → evaluates rhs params row b → evaluates t params row (eq_value a b)) as Hbwd.
  { intros a b Ha Hb. eapply yields_then; [exact Ha|]. eapply yields_then; [exact Hb|]. rewrite Heq. apply yields_mret. }
  assert (defined params t row → defined params lhs row ∧ defined params rhs row) as Hfwd.
  { intros Hd. apply yields_bind_inv in Hd as (a & Ha & Hd); [|apply evaluate_steady|].
    2: { intros a. apply steady_bind; [apply evaluate_steady|]. intros b n n'. by rewrite Heq. }
    apply yields_bind_inv in Hd as (b & Hb & _); [|apply evaluate_steady|intros b n n'; by rewrite Heq].
    split; by eapply evaluates_defined. }
  split; [split; [done|intros [Ha Hb]; eapply evaluates_defined, Hbwd; done]|].
  intros Hd. destruct (Hfwd Hd) as [Ha Hb]. rewrite (evaluates_value t _ _ _ (Hbwd _ _ Ha Hb)).
  unfold eq_value, is_equal. destruct (value_of params lhs row), (value_of params rhs row); try done; cbn; by case_match.
Qed.
End terms.

(** ** Grids: the pieces of every pair, row by row *)

Definition grid {A B C} (F : A → B → list C) (l : list A) (r : list B) : list C :=
  concat (map (λ x, concat (map (F x) r)) l).

Lemma grid_ext {A B C} (F G : A → B → list C) l r :
  (∀ x y, x ∈ l → y ∈ r → F x y = G x y) → grid F l r = grid G l r.
Proof.
  intros HFG. unfold grid. f_equal. apply map_ext_in. intros x Hx%list_elem_of_In. f_equal.
  apply map_ext_in. intros y Hy%list_elem_of_In. auto.
Qed.
Lemma grid_cons_r {A B C} (F : A → B → list C) l y r :
  grid F l (y :: r) ≡ₚ concat (map (λ x, F x y) l) ++ grid F l r.
Proof.
  unfold grid. induction l as [|x l IH]; cbn; [done|]. rewrite IH.
  rewrite <- !app_assoc. apply Permutation_app_head. rewrite !app_assoc.
  apply Permutation_app_tail. apply Permutation_app_comm.
Qed.
Lemma grid_swap {A B C} (F : A → B → list C) l r : grid F l r ≡ₚ grid (λ y x, F x y) r l.
Proof.
  induction r as [|y r IH].
  - unfold grid. cbn. induction l as [|x l IH]; [done|exact IH].
  - rewrite grid_cons_r, IH. done.
Qed.
Lemma filter_product p l r :
  List.filter p (product l r)
  = grid (λ x y, if p (merge_rows x y) then [merge_rows x y] else []) l r.
Proof.
  unfold product, grid. induction l as [|x l IH]; cbn; [done|]. rewrite List.filter_app, IH. f_equal.
  clear IH. induction r as [|y r IH]; cbn; [done|]. rewrite IH. by destruct (p (merge_rows x y)).
Qed.

(** ** Keys that meet *)

Section keys.
Context `{HL : Libs}.

Definition meet (kb kp : option (list string)) : bool :=
  match kb, kp with Some k, Some k' => bool_decide (k = k') | _, _ => false end.

Lemma meet_comm kb kp : meet kb kp = meet kp kb.
Proof. destruct kb, kp; try done. cbn. by apply bool_decide_ext. Qed.

Lemma join_rows_grid (val : Expression → Row → RuntimeValue) on residual build probe :
  join_rows val on residual build probe
  = grid (λ prow brow,
      if meet (key_values val (map build_side on) brow) (key_values val (map probe_side on) prow)
      then join_pair val residual brow prow else []) probe build.
Proof.
  unfold join_rows, grid. f_equal. apply map_ext. intros prow.
  destruct (key_values val (map probe_side on) prow) as [key|].
  - unfold with_key. induction build as [|brow build IH]; [done|]. cbn [List.filter map concat].
    rewrite <- IH. unfold meet. destruct (key_values val (map build_side on) brow) as [k|]; [|done].
    replace (bool_decide (Some k = Some key)) with (bool_decide (k = key))
      by (apply bool_decide_ext; naive_solver).
    by destruct (bool_decide (k = key)).
  - induction build as [|brow build IH]; [done|]. cbn. unfold meet.
    by destruct (key_values val (map build_side on) brow).
Qed.

(** Values on which the fingerprint decides [=]: all but numbers with a fraction,
    containers and vectors. *)
Definition join_scalar (v : RuntimeValue) : bool :=
  match v with
  | RNull | RBool _ | RInteger _ | RString _ | RBytes _ | RDate _ | RDateTime _
  | RNode _ _ _ | RRel _ _ _ _ => true
  | _ => false
  end.

Lemma is_equal_comm a b : join_scalar a = true → join_scalar b = true → is_equal a b = is_equal b a.
Proof.
  intros Ha Hb. apply Bool.eq_iff_eq_true. destruct a, b; try discriminate; cbn; try done.
  all: rewrite ?andb_true_iff, ?Z.eqb_eq, ?String.eqb_eq, ?Bool.eqb_true_iff, ?bool_decide_eq_true.
  all: split; intros; destruct_and?; subst; done.
Qed.

Context `{HU : !UuidText}.

Lemma scalar_fingerprint a b :
  join_scalar a = true → join_scalar b = true → sound a → sound b →
  is_null a = false → is_null b = false →
  fingerprint_value a = fingerprint_value b ↔ is_equal a b = true.
Proof.
  intros Ha Hb Hsa Hsb Hna Hnb.
  transitivity (same_value a b).
  - split; [|apply same_fingerprint]. intros Heq.
    apply (fingerprint_decodable a b "" ""); [done..|]. by rewrite Heq.
  - split.
    + intros Hs. destruct Hs; try discriminate; cbn.
      all: rewrite ?andb_true_iff, ?Z.eqb_eq, ?String.eqb_eq, ?Bool.eqb_true_iff, ?bool_decide_eq_true; done.
    + destruct a, b; try discriminate; cbn.
      all: rewrite ?andb_true_iff, ?Z.eqb_eq, ?String.eqb_eq, ?Bool.eqb_true_iff, ?bool_decide_eq_true.
      all: intros; destruct_and?; subst; constructor.
Qed.

(** A key value: a sound scalar. *)
Definition key_ok (v : RuntimeValue) : Prop := join_scalar v = true ∧ sound v.

Lemma keys_meet (val : Expression → Row → RuntimeValue) ks x y :
  (∀ a b, (a, b) ∈ ks → key_ok (val a x) ∧ key_ok (val b y)) →
  meet (key_values val (map fst ks) x) (key_values val (map snd ks) y)
  = forallb (λ '(a, b), is_equal (val a x) (val b y)) ks.
Proof.
  induction ks as [|[a b] ks IH]; intros Hok; cbn [map fst snd key_values forallb].
  { cbn. by case_bool_decide. }
  destruct (Hok a b) as [[Ha Hsa] [Hb Hsb]]; [set_solver|].
  rewrite <- IH by (intros; apply Hok; set_solver).
  destruct (is_null (val a x)) eqn:Hna.
  { by destruct (val a x). }
  destruct (is_null (val b y)) eqn:Hnb.
  { rewrite meet_comm. destruct (val b y); try done. by destruct (val a x). }
  pose proof (scalar_fingerprint _ _ Ha Hb Hsa Hsb Hna Hnb) as Hfp.
  destruct (key_values val (map fst ks) x) as [k|], (key_values val (map snd ks) y) as [k'|]; cbn.
  2-4: by rewrite andb_false_r.
  apply Bool.eq_iff_eq_true. rewrite andb_true_iff, !bool_decide_eq_true, <- Hfp.
  split; [by intros [= -> ->]|by intros [-> ->]].
Qed.
End keys.

(** ** The conversion *)

Section conversion.
Context `{HH : Host, HL : Libs, HQ : !QuietHost, HS : !SteadyHost, HU : !UuidText}.
Context (params : Params) (la ra : gset string).

(** The (left, right) key pair of a conjunct. *)
Definition key_pair (t : Expression) : option (Expression * Expression) :=
  match classify_conjunct t la ra with
  | LeftEqRight lhs rhs => Some (lhs, rhs)
  | RightEqLeft lhs rhs => Some (rhs, lhs)
  | CResidual => None
  end.

Lemma key_pair_spec t a b :
  key_pair t = Some (a, b) →
  expression_aliases a ⊆ la ∧ expression_aliases b ⊆ ra ∧
  (expr_kind t = EBinary Eq_ a b ∨ expr_kind t = EBinary Eq_ b a).
Proof.
  unfold key_pair, classify_conjunct. destruct (expr_kind t) as [| | | | | | |op l r| | | | | | | | | | | | | |]; try done.
  destruct op; try done. cbv zeta.
  destruct (_ && _ && _) eqn:H1 in |- *; [|destruct (_ && _ && _) eqn:H2 in |- *; [|done]].
  all: intros [= <- <-]; rewrite !andb_true_iff, !bool_decide_eq_true in *; naive_solver.
Qed.

Lemma split_conjuncts_spec ts :
  split_conjuncts ts la ra
  = (omap key_pair ts, List.filter (λ t, match key_pair t with None => true | _ => false end) ts).
Proof.
  unfold split_conjuncts.
  change (omap key_pair ts) with ([] ++ omap key_pair ts).
  rewrite <- (app_nil_l (List.filter _ ts)).
  generalize ([] : list (Expression * Expression)), ([] : list Expression).
  induction ts as [|t ts IH]; intros ks rs; cbn [foldl]; [cbn; by rewrite !app_nil_r|].
  cbn [omap list_omap List.filter].
  assert (key_pair t = match classify_conjunct t la ra with
    LeftEqRight l r => Some (l, r) | RightEqLeft l r => Some (r, l) | CResidual => None end) as -> by done.
  unfold sort_conjunct at 2. destruct (classify_conjunct t la ra); rewrite IH; by rewrite <- app_assoc.
Qed.

(** One pair of rows. *)
Section pair.
Context (x y : Row) (Hd : la ## ra) (Hx : binds la x) (Hy : binds ra y).
Local Abbreviation val := (value_of params).

Lemma key_pair_values t a b :
  key_pair t = Some (a, b) →
  val a (merge_rows x y) = val a x ∧ val b (merge_rows x y) = val b y.
Proof.
  intros (Ha & Hb & _)%key_pair_spec. split; apply agree_value.
  - by apply (agree_left la ra).
  - by apply (agree_right la ra).
Qed.

Lemma key_pair_holds t a b :
  key_pair t = Some (a, b) → defined params t (merge_rows x y) →
  join_scalar (val a x) = true → join_scalar (val b y) = true →
  is_true (val t (merge_rows x y)) = is_equal (val a x) (val b y).
Proof.
  intros Hk Ht Hsa Hsb. destruct (key_pair_values t a b Hk) as [Ha Hb].
  apply key_pair_spec in Hk as (_ & _ & [Hkind|Hkind]).
  - destruct (equality_term params t a b (merge_rows x y) Hkind) as [_ Heq].
    by rewrite (Heq Ht), Ha, Hb.
  - destruct (equality_term params t b a (merge_rows x y) Hkind) as [_ Heq].
    rewrite (Heq Ht), Ha, Hb. by apply is_equal_comm.
Qed.

Lemma conjuncts_split ts :
  (∀ t, t ∈ ts → defined params t (merge_rows x y)) →
  (∀ a b, (a, b) ∈ omap key_pair ts → key_ok (val a x) ∧ key_ok (val b y)) →
  all_hold params ts (merge_rows x y)
  = forallb (λ '(a, b), is_equal (val a x) (val b y)) (omap key_pair ts)
    && all_hold params (List.filter (λ t, match key_pair t with None => true | _ => false end) ts) (merge_rows x y).
Proof.
  induction ts as [|t ts IH]; intros Hts Hok; [done|]. unfold all_hold in *. cbn [forallb].
  destruct (key_pair t) as [[a b]|] eqn:Hk; cbn [List.filter]; rewrite Hk.
  all: cbn [omap list_omap] in *; rewrite Hk in *; cbn [forallb].
  - destruct (Hok a b) as [[Ha _] [Hb _]]; [set_solver|].
    rewrite (key_pair_holds t a b Hk) by (done || set_solver). rewrite <- andb_assoc. f_equal.
    apply IH; [set_solver|]. intros a' b' Hin. apply Hok. set_solver.
  - rewrite IH by (done || set_solver). rewrite !andb_assoc. f_equal. apply andb_comm.
Qed.

(** What the pair contributes to the join. *)
Lemma pair_contributes ts residual :
  and_chain (List.filter (λ t, match key_pair t with None => true | _ => false end) ts) = residual →
  (∀ t, t ∈ ts → defined params t (merge_rows x y)) →
  (∀ a b, (a, b) ∈ omap key_pair ts → key_ok (val a x) ∧ key_ok (val b y)) →
  (if meet (key_values val (map fst (omap key_pair ts)) x) (key_values val (map snd (omap key_pair ts)) y)
   then join_pair val residual x y else [])
  = (if all_hold params ts (merge_rows x y) then [merge_rows x y] else []).
Proof.
  intros Hres Hts Hok. rewrite keys_meet, conjuncts_split by done.
  destruct (forallb _ (omap key_pair ts)); [|done]. cbn [andb]. unfold join_pair.
  set (rs := List.filter _ ts) in *. destruct residual as [res|].
  - rewrite <- (proj2 (and_chain_defined params rs res (merge_rows x y) Hres
      ltac:(intros t [Ht _]%list_elem_of_In%filter_In; by apply Hts, list_elem_of_In))). done.
  - by destruct rs.
Qed.
End pair.

(** The sides evaluate on the rows, to sound scalars. *)
Definition keyed (sides : list Expression) (rows : list Row) : Prop :=
  ∀ row e, row ∈ rows → e ∈ sides → defined params e row ∧ key_ok (value_of params e row).

Lemma elem_of_product l r x y : x ∈ l → y ∈ r → merge_rows x y ∈ product l r.
Proof.
  intros Hx Hy. unfold product. apply list_elem_of_In, in_concat. exists (map (merge_rows x) r).
  split; apply in_map_iff; [exists x|exists y]; (split; [done|by apply list_elem_of_In]).
Qed.

Lemma filtered_product p l r out :
  yields (rows ← cross_product_rows l r; filter_rows p params rows) out →
  (∀ x y, x ∈ l → y ∈ r → defined params p (merge_rows x y)) ∧
  out = grid (λ x y, if is_true (value_of params p (merge_rows x y)) then [merge_rows x y] else []) l r.
Proof.
  intros Hy. pose proof (cross_product_rows_yields l r) as Hc.
  destruct (filter_rows_outcome p params (product l r)) as [Hd|Hf].
  - split; [intros x y Hx Hy'; by apply Hd, elem_of_product|].
    rewrite <- (filter_product (λ row, is_true (value_of params p row))).
    eapply yields_det; [exact Hy|]. eapply yields_then; [exact Hc|]. by apply filter_rows_yields.
  - exfalso. specialize (Hy 0%nat). unfold mbind, exec_bind in Hy. specialize (Hc 0%nat).
    destruct (cross_product_rows l r 0%nat) as [o k]. cbn in Hc. subst o. by destruct (Hf k out).
Qed.

Lemma map_build_side (pick : bool) ks :
  map build_side (map (λ '(l, r), if pick then {| build_side := l; probe_side := r |}
    else {| build_side := r; probe_side := l |}) ks) = map (if pick then fst else snd) ks.
Proof. rewrite map_map. apply map_ext. intros [a b]. by destruct pick. Qed.
Lemma map_probe_side (pick : bool) ks :
  map probe_side (map (λ '(l, r), if pick then {| build_side := l; probe_side := r |}
    else {| build_side := r; probe_side := l |}) ks) = map (if pick then snd else fst) ks.
Proof. rewrite map_map. apply map_ext. intros [a b]. by destruct pick. Qed.

(** The rows of the two sides, and the conjuncts on their pairs. *)
Section sides.
Context (l r : list Row) (ts : list Expression) (residual : option Expression).
Local Abbreviation val := (value_of params).
Local Abbreviation keys := (omap key_pair ts).
Hypothesis Hd : la ## ra.
Hypothesis Hl : ∀ x, x ∈ l → binds la x.
Hypothesis Hr : ∀ y, y ∈ r → binds ra y.
Hypothesis Hkl : keyed (map fst keys) l.
Hypothesis Hkr : keyed (map snd keys) r.
Hypothesis Hts : ∀ x y t, x ∈ l → y ∈ r → t ∈ ts → defined params t (merge_rows x y).
Hypothesis Hres :
  and_chain (List.filter (λ t, match key_pair t with None => true | _ => false end) ts) = residual.

Lemma pair_rows x y : x ∈ l → y ∈ r →
  (if meet (key_values val (map fst keys) x) (key_values val (map snd keys) y)
   then join_pair val residual x y else [])
  = (if all_hold params ts (merge_rows x y) then [merge_rows x y] else []).
Proof.
  intros Hx Hy. apply pair_contributes; auto. intros a b Hab%list_elem_of_In.
  split; [apply (Hkl x)|apply (Hkr y)]; try done; apply list_elem_of_In.
  - by apply (in_map fst) in Hab.
  - by apply (in_map snd) in Hab.
Qed.

Lemma residual_defined res x y : x ∈ l → y ∈ r → residual = Some res → defined params res (merge_rows x y).
Proof.
  intros Hx Hy ->. eapply and_chain_defined; [exact Hres|].
  intros t [Ht _]%list_elem_of_In%filter_In. by apply Hts, list_elem_of_In.
Qed.

(** Building the left side, probing with the right one. *)
Lemma join_left_build on :
  map build_side on = map fst keys → map probe_side on = map snd keys →
  ∃ out, yields (hash_join l r on residual params) out ∧
    out ≡ₚ grid (λ x y, if all_hold params ts (merge_rows x y) then [merge_rows x y] else []) l r.
Proof.
  intros Hb Hp. eexists. split.
  - apply (hash_join_yields val).
    + rewrite Hb. intros row e Hin He. by apply Hkl.
    + rewrite Hp. intros row e Hin He. by apply Hkr.
    + intros res x y key Hrs Hx Hy _ _. by apply residual_defined.
  - rewrite join_rows_grid, Hb, Hp, grid_swap. erewrite grid_ext; [done|]. apply pair_rows.
Qed.

(** Building the right side, probing with the left one. *)
Lemma join_right_build on :
  map build_side on = map snd keys → map probe_side on = map fst keys →
  ∃ out, yields (hash_join r l on residual params) out ∧
    out ≡ₚ grid (λ x y, if all_hold params ts (merge_rows x y) then [merge_rows x y] else []) l r.
Proof.
  assert (∀ x y, x ∈ l → y ∈ r → merge_rows y x = merge_rows x y) as Hm.
  { intros x y Hx Hy. apply (merge_comm ra la); auto. }
  intros Hb Hp. eexists. split.
  - apply (hash_join_yields val).
    + rewrite Hb. intros row e Hin He. by apply Hkr.
    + rewrite Hp. intros row e Hin He. by apply Hkl.
    + intros res y x key Hrs Hy Hx _ _. rewrite Hm by done. by apply residual_defined.
  - rewrite join_rows_grid, Hb, Hp. erewrite grid_ext; [done|]. intros x y Hx Hy. cbv beta.
    rewrite <- pair_rows, meet_comm by done. unfold join_pair. by rewrite Hm.
Qed.
End sides.

(** C18: the join conversion preserves query results. When the filtered cross product
    returns rows, the hash join that replaces it returns the same rows up to order,
    whichever side is built and however the conjuncts of the predicate are arranged,
    provided the two sides bind disjoint variables and the join keys evaluate, on
    each row, to NULL or to a scalar other than a float. *)
Theorem join_conversion_sound (pick : bool) predicate on residual l r out :
  convert_at_root predicate la ra pick = Some (on, residual) →
  la ## ra → Forall (binds la) l → Forall (binds ra) r →
  keyed (map build_side on) (if pick then l else r) →
  keyed (map probe_side on) (if pick then r else l) →
  yields (rows ← cross_product_rows l r; filter_rows predicate params rows) out →
  ∃ out', yields (if pick then hash_join l r on residual params else hash_join r l on residual params) out'
          ∧ out' ≡ₚ out.
Proof.
  unfold convert_at_root. rewrite split_conjuncts_spec. set (ts := split_and_terms predicate).
  intros Hon Hd Hl Hr Hb Hp [Hdef ->]%filtered_product. rewrite !Forall_forall in Hl, Hr.
  assert (on = map (λ '(l, r), if pick then {| build_side := l; probe_side := r |}
    else {| build_side := r; probe_side := l |}) (omap key_pair ts) ∧
    and_chain (List.filter (λ t, match key_pair t with None => true | _ => false end) ts) = residual) as [Hon' Hres].
  { destruct (omap key_pair ts); [done|]. by injection Hon as <- <-. }
  assert (∀ x y t, x ∈ l → y ∈ r → t ∈ ts → defined params t (merge_rows x y)) as Hts.
  { intros x y t Hx Hy. by apply conjuncts_defined, Hdef. }
  assert (map build_side on = map (if pick then fst else snd) (omap key_pair ts)) as Hbs
    by (subst on; apply map_build_side).
  assert (map probe_side on = map (if pick then snd else fst) (omap key_pair ts)) as Hps
    by (subst on; apply map_probe_side).
  rewrite Hbs in Hb. rewrite Hps in Hp. clear Hon Hon'.
  rewrite (grid_ext _ (λ x y, if all_hold params ts (merge_rows x y) then [merge_rows x y] else []))
    by (intros x y Hx Hy; by rewrite conjuncts_hold by auto).
  destruct pick; [by apply join_left_build|by apply join_right_build].
Qed.
End conversion.
