(* ===== verification/Distinct.v ===== *)
(** DISTINCT and semi-joins against their specifications. *)
From S2P Require Import Prelude Float StorageError Ast RuntimeValue Exec Scalar Functions Expr ExprFacts Fingerprint Operators OperatorFacts Rewrites JoinRewrite.

(** ** First occurrences *)

Section firsts.
Context {A : Type} (same : relation A).

(** [out] keeps, in order, the elements of [l] that are the first of their class. *)
Inductive first_occurrences : list A → list A → Prop :=
| FirstNil : first_occurrences [] []
| FirstKeep l out x :
    first_occurrences l out → (∀ y, y ∈ l → ¬ same y x) → first_occurrences (l ++ [x]) (out ++ [x])
| FirstDrop l out x y :
    first_occurrences l out → y ∈ l → same y x → first_occurrences (l ++ [x]) out.

Lemma firsts_snoc {K} `{Countable K} (key : A → K) seen l x :
  firsts key seen (l ++ [x])
  = firsts key seen l ++ if bool_decide (key x ∈ seen ∪ list_to_set (map key l)) then [] else [x].
Proof.
  revert seen. induction l as [|y l IH]; intros seen; cbn [firsts app map list_to_set].
  - rewrite union_empty_r_L. by destruct (bool_decide (key x ∈ seen)).
  - destruct (bool_decide (key y ∈ seen)) eqn:Hy; rewrite IH.
    + apply bool_decide_eq_true in Hy. f_equal.
      apply (f_equal (λ b : bool, if b then [] else [x])), bool_decide_ext.
      rewrite !elem_of_union, elem_of_singleton. split; [tauto|intros [?|[->|?]]; auto].
    + cbn. do 2 f_equal.
      apply (f_equal (λ b : bool, if b then [] else [x])), bool_decide_ext.
      rewrite !elem_of_union, elem_of_singleton. tauto.
Qed.

Lemma firsts_first_occurrences {K} `{Countable K} (key : A → K) l :
  (∀ x y, x ∈ l → y ∈ l → key x = key y ↔ same x y) → first_occurrences l (firsts key ∅ l).
Proof.
  induction l as [|x l IH] using rev_ind; intros Hk; [constructor|]. rewrite firsts_snoc.
  assert (first_occurrences l (firsts key ∅ l)) as Hl by (apply IH; set_solver).
  case_bool_decide as Hx; rewrite union_empty_l_L, elem_of_list_to_set in Hx.
  - apply list_elem_of_In, in_map_iff in Hx as (y & Hy & Hin%list_elem_of_In). rewrite app_nil_r.
    apply (FirstDrop _ _ _ y Hl Hin). apply Hk; set_solver.
  - constructor; [done|]. intros y Hy Hs. apply Hx, list_elem_of_In, in_map_iff. exists y.
    split; [apply Hk; set_solver|by apply list_elem_of_In].
Qed.
End firsts.

(** ** DISTINCT *)

Section distinct.
Context `{HH : Host, HL : Libs, HQ : !QuietHost, HU : !UuidText}.

Definition columns (row : Row) : list string := map fst (bindings row).
Definition same_row (a b : Row) : Prop := same_entries (bindings a) (bindings b).

(** DISTINCT returns the first row of every class of equal rows, in input order,
    and no other: for rows over the same columns, a row is dropped exactly when an
    earlier row binds every column to the same value. *)
Theorem distinct_keeps_first cols rows :
  Forall (λ row, columns row = cols ∧ Forall (λ kv, sound kv.2) (bindings row)) rows →
  ∃ out, yields (dedup_rows rows) out ∧ first_occurrences same_row rows out.
Proof.
  intros Hr. rewrite Forall_forall in Hr. exists (firsts row_fingerprint ∅ rows).
  split; [apply dedup_rows_yields|]. apply firsts_first_occurrences. intros x y Hx Hy.
  destruct (Hr x Hx) as [Hcx Hsx], (Hr y Hy) as [Hcy Hsy].
  apply row_fingerprint_faithful; [by rewrite <- Hcy in Hcx|done..].
Qed.
End distinct.

(** ** Semi-joins *)

Section semi.
Context `{HH : Host, HL : Libs, HQ : !QuietHost, HS : !SteadyHost, HU : !UuidText}.

(** The inner row matches the outer one: every key is equal and the residual holds. *)
Definition matches (params : Params) (on : list JoinKey) (residual : option Expression) (irow orow : Row) : bool :=
  forallb (λ jk, is_equal (value_of params (build_side jk) irow) (value_of params (probe_side jk) orow)) on
  && match residual with Some res => is_true (value_of params res (merge_rows irow orow)) | None => true end.

Lemma meet_matches params on x y :
  keyed params (map build_side on) [x] → keyed params (map probe_side on) [y] →
  meet (key_values (value_of params) (map build_side on) x) (key_values (value_of params) (map probe_side on) y)
  = forallb (λ jk, is_equal (value_of params (build_side jk) x) (value_of params (probe_side jk) y)) on.
Proof.
  intros Hx Hy. set (ks := map (λ jk, (build_side jk, probe_side jk)) on).
  assert (map build_side on = map fst ks) as Hb by (unfold ks; by rewrite map_map).
  assert (map probe_side on = map snd ks) as Hp by (unfold ks; by rewrite map_map).
  rewrite Hb, Hp in *. rewrite keys_meet.
  - unfold ks. clear. induction on as [|jk on IH]; cbn; by rewrite ?IH.
  - intros a b Hab%list_elem_of_In. split.
    + apply (Hx x); [set_solver|]. apply list_elem_of_In. by apply (in_map fst) in Hab.
    + apply (Hy y); [set_solver|]. apply list_elem_of_In. by apply (in_map snd) in Hab.
Qed.

(** A hash semi-join keeps exactly the outer rows for which some inner row has
    equal keys and satisfies the residual; negated, exactly those for which none
    does. An outer row with a NULL key matches nothing, so [NOT EXISTS] keeps it. *)
Theorem semi_join_exists params on residual negated outer inner :
  keyed params (map build_side on) inner → keyed params (map probe_side on) outer →
  (∀ res irow orow, residual = Some res → irow ∈ inner → orow ∈ outer → defined params res (merge_rows irow orow)) →
  yields (hash_semi_join outer inner on negated residual params)
    (List.filter (λ orow, xorb negated (existsb (λ irow, matches params on residual irow orow) inner)) outer).
Proof.
  intros Hi Ho Hres. apply yields_exact. eexists. split.
  - apply (hash_semi_join_yields (value_of params)).
    + intros row e Hin He. by apply Hi.
    + intros row e Hin He. by apply Ho.
    + intros res irow orow key Hrs Hir Hor _ _. by apply Hres.
  - apply List.filter_ext_in. intros orow Hor%list_elem_of_In. f_equal. unfold semi_matched.
    transitivity (existsb (λ irow, meet (key_values (value_of params) (map build_side on) irow)
        (key_values (value_of params) (map probe_side on) orow)
      && match residual with Some res => is_true (value_of params res (merge_rows irow orow)) | None => true end) inner).
    + destruct (key_values _ (map probe_side on) orow) as [key|].
      * unfold with_key. clear Hi Hres. induction inner as [|irow inner IH]; [done|]. cbn [List.filter existsb].
        rewrite <- IH. unfold meet. destruct (key_values _ (map build_side on) irow) as [k|]; [|done].
        replace (bool_decide (Some k = Some key)) with (bool_decide (k = key)) by (apply bool_decide_ext; naive_solver).
        by destruct (bool_decide (k = key)).
      * clear Hi Hres. induction inner as [|irow inner IH]; [done|]. cbn. rewrite <- IH.
        by destruct (key_values _ (map build_side on) irow).
    + apply Bool.eq_iff_eq_true. rewrite !existsb_exists. unfold matches.
      split; intros (irow & Hir & Hm); exists irow; (split; [done|]); rewrite meet_matches in *; try done.
      all: intros row e ->%list_elem_of_singleton He; first [by apply Hi, He; apply list_elem_of_In|by apply Ho].
Qed.
End semi.
