(* ===== verification/Sort.v ===== *)
(** ORDER BY, SKIP and LIMIT ([exec/limits.rs], [exec/walker.rs]): the
    interruptible sort, the bounded top-k heap and the row window.

    [slice::sort_by] is stable, so for a comparison that is a total order on the
    elements its result is determined; otherwise it may panic or leave any order. *)
From S2P Require Import Prelude Float StorageError Ast RuntimeValue Exec Scalar Functions Expr Fingerprint Operators.

(** ** Sorting *)

Section sorting.
Context {A : Type} (cmp : A → A → comparison).

Definition cmp_le (a b : A) : bool := match cmp a b with Gt => false | _ => true end.

(** [cmp] is a total order on the elements of [l]. *)
Definition total_on (l : list A) : bool :=
  forallb (λ a, forallb (λ b,
    bool_decide (cmp b a = CompOpp (cmp a b))
    && forallb (λ c, negb (cmp_le a b && cmp_le b c) || cmp_le a c) l) l) l.

Fixpoint sort_insert (x : A) (l : list A) : list A :=
  match l with
  | [] => [x]
  | y :: l => if cmp_le x y then x :: y :: l else y :: sort_insert x l
  end.
(** The stable sort. *)
Definition stable_sort (l : list A) : list A := foldr sort_insert [] l.

Context `{Host}.

(** [slice::sort_by] *)
Definition sort_by (l : list A) : exec ExecError (list A) :=
  if total_on l then mret (stable_sort l)
  else
    order ← read unspecified_order;
    match order with Some ps => mret (omap (l !!.) ps) | None => panic end.

Definition SORT_RUN : nat := Nat.pow 2 14.

Definition sort_merges_runs (len : nat) : bool := Nat.ltb SORT_RUN len && guarded.

(** The runs of [SORT_RUN] elements, each sorted. *)
Fixpoint sort_runs (fuel : nat) (items : list A) (runs : list (list A)) : exec ExecError (list (list A)) :=
  match fuel with
  | O => panic
  | S fuel =>
      match take SORT_RUN items with
      | [] => mret runs
      | run =>
          _ ← check_deadline;
          run ← sort_by run;
          sort_runs fuel (drop SORT_RUN items) (runs ++ [run])
      end
  end.

(** Stable merge of two sorted runs, with the probe's ticks. *)
Fixpoint merge_runs (fuel : nat) (left_ right_ out : list A) (ticks : Z) : exec ExecError (Z * list A) :=
  match fuel with
  | O => panic
  | S fuel =>
      ticks ← tick ticks;
      match left_, right_ with
      | l :: left', r :: right' =>
          if cmp_le l r then merge_runs fuel left' right_ (out ++ [l]) ticks
          else merge_runs fuel left_ right' (out ++ [r]) ticks
      | l :: left', [] => merge_runs fuel left' [] (out ++ [l]) ticks
      | [], r :: right' => merge_runs fuel [] right' (out ++ [r]) ticks
      | [], [] => mret (ticks, out)
      end
  end.

(** One pass over the runs, merging them in pairs. *)
Fixpoint merge_pairs (runs : list (list A)) (ticks : Z) : exec ExecError (Z * list (list A)) :=
  match runs with
  | left_ :: right_ :: runs =>
      '(ticks, run) ← merge_runs (S (length left_ + length right_)) left_ right_ [] ticks;
      '(ticks, merged) ← merge_pairs runs ticks;
      mret (ticks, run :: merged)
  | _ => mret (ticks, runs)
  end.
(** [while runs.len() > 1] *)
Fixpoint merge_passes (fuel : nat) (runs : list (list A)) (ticks : Z) : exec ExecError (list A) :=
  match runs with
  | [] => mret []
  | [run] => mret run
  | _ =>
      match fuel with
      | O => panic
      | S fuel =>
          '(ticks, merged) ← merge_pairs runs ticks;
          merge_passes fuel merged ticks
      end
  end.

Definition sort_by_interruptible (items : list A) : exec ExecError (list A) :=
  _ ← check_deadline;
  if sort_merges_runs (length items) then
    runs ← sort_runs (S (length items)) items [];
    merge_passes (length runs) runs DeadlineProbe_new
  else sort_by items.
End sorting.

(** ** Ordering rows *)

Record OrderKey := { ok_expression : Expression; ok_direction : OrderDirection }.
Definition is_desc (d : OrderDirection) : bool := match d with Desc => true | Asc => false end.

(** The rows' key vectors have one value per key. *)
Fixpoint compare_keys (a b : list RuntimeValue) (keys : list OrderKey) {struct keys} : comparison :=
  match keys, a, b with
  | k :: keys, x :: a, y :: b =>
      match order_for_sort x y (is_desc (ok_direction k)) with
      | Eq => compare_keys a b keys
      | o => o
      end
  | _, _, _ => Eq
  end.

Record FlatTopNItem := { ti_vals : list RuntimeValue; ti_pos : nat; ti_row : Row }.

(** [impl Ord for FlatTopNItem]; [keys] stands for the shared [descs]. *)
Definition item_cmp (keys : list OrderKey) (a b : FlatTopNItem) : comparison :=
  match compare_keys (ti_vals a) (ti_vals b) keys with
  | Eq => Nat.compare (ti_pos a) (ti_pos b)
  | o => o
  end.

(** A [BinaryHeap] as the list of its elements: [pop] takes a greatest one out. *)
Fixpoint heap_pop {A} (cmp : A → A → comparison) (heap : list A) : option (A * list A) :=
  match heap with
  | [] => None
  | x :: heap =>
      match heap_pop cmp heap with
      | None => Some (x, [])
      | Some (m, rest) => if cmp_le cmp x m then Some (m, x :: rest) else Some (x, m :: rest)
      end
  end.

Section rows.
Context `{Host, Libs}.

Definition row_keys (keys : list OrderKey) (row : Row) (params : Params) : exec ExecError (list RuntimeValue) :=
  collect (λ k, ev (ok_expression k) row params) keys.

Definition sort_rows (rows : list Row) (keys : list OrderKey) (params : Params) : exec ExecError (list Row) :=
  _ ← meter_check;
  '(_, keyed) ← foreach (λ '(ticks, keyed) row,
      ticks ← tick ticks;
      vals ← row_keys keys row params;
      _ ← meter_check;
      mret (ticks, keyed ++ [(vals, row)])) rows (DeadlineProbe_new, []);
  _ ← (if sort_merges_runs (length keyed) then meter_check else mret ());
  keyed ← sort_by_interruptible (λ a b, compare_keys a.1 b.1 keys) keyed;
  mret (map snd keyed).

(** Keep the item when the heap has room or its greatest element is greater. *)
Definition heap_offer (keys : list OrderKey) (bound : Z) (heap : list FlatTopNItem) (item : FlatTopNItem)
    : list FlatTopNItem :=
  if Z.of_nat (length heap) <? bound then item :: heap
  else match heap_pop (item_cmp keys) heap with
       | Some (worst, rest) => match item_cmp keys item worst with Lt => item :: rest | _ => heap end
       | None => heap
       end.

(** The heap's contents and the final order are determined when the items are
    totally ordered. *)
Definition bounded_topk (rows : list Row) (keys : list OrderKey) (params : Params) (bound : Z)
    : exec ExecError (list Row) :=
  if bound =? 0 then mret []
  else
    '(_, items, heap) ← foreach (λ '(ticks, items, heap) row,
        ticks ← tick ticks;
        vals ← row_keys keys row params;
        let item := {| ti_vals := vals; ti_pos := length items; ti_row := row |} in
        mret (ticks, items ++ [item], heap_offer keys bound heap item))
      rows (DeadlineProbe_new, [], []);
    if total_on (item_cmp keys) items then
      items ← sort_by (item_cmp keys) heap;
      mret (map ti_row items)
    else
      order ← read unspecified_order;
      match order with Some ps => mret (map ti_row (omap (items !!.) ps)) | None => panic end.

(** ** The row window *)

Inductive RowCount := RConst (n : Z) | RParam (name : string).

Definition resolve_row_count (rc : RowCount) (params : Params) (what : string) : exec ExecError Z :=
  match rc with
  | RConst n => mret n
  | RParam name =>
      match btree_get name params with
      | Some (RInteger n) =>
          if 0 <=? n then mret n
          else throw (XRuntime (what +:+ " parameter `$" +:+ name +:+ "` must be non-negative"))
      | Some other =>
          throw (XRuntime (what +:+ " parameter `$" +:+ name +:+ "` must be an integer, got " +:+ type_name other))
      | None => throw (XRuntime (what +:+ " parameter `$" +:+ name +:+ "` not provided"))
      end
  end.

(** [LogicalPlan::TopN], on the rows of its input; [usize] is 64 bits wide. *)
Definition top_n (rows : list Row) (keys : list OrderKey) (skip limit : RowCount) (params : Params)
    : exec ExecError (list Row) :=
  skip ← resolve_row_count skip params "SKIP";
  limit ← resolve_row_count limit params "LIMIT";
  rows ← match keys with
         | [] => mret rows
         | _ =>
             let bound := saturating_add64 skip limit in
             if negb (bound =? u64_max) && (bound <? Z.of_nat (length rows))
             then bounded_topk rows keys params bound
             else sort_rows rows keys params
         end;
  if Z.of_nat (length rows) <=? skip then mret []
  else mret (take (Z.to_nat limit) (drop (Z.to_nat skip) rows)).
End rows.
