(* ===== verification/SortFacts.v ===== *)
(** The sort, the top-k heap and the row window against the stable sort. *)
From S2P Require Import Prelude Float StorageError Ast RuntimeValue Exec Scalar Functions Expr ExprFacts Fingerprint Operators OperatorFacts Rewrites Sort.

Lemma SORT_RUN_nonzero : SORT_RUN ≠ 0%nat.
Proof. by apply Nat.pow_nonzero. Qed.
#[local] Opaque SORT_RUN.

(** ** Stable sorting *)

Section stable.
Context {A : Type} (cmp : A → A → comparison).

Local Abbreviation le := (cmp_le cmp).

(** [cmp] is a total order on the elements that satisfy [D]. *)
Definition total_order (D : A → Prop) : Prop :=
  (∀ a b, D a → D b → cmp b a = CompOpp (cmp a b)) ∧
  (∀ a b c, D a → D b → D c → le a b = true → le b c = true → le a c = true).

Lemma total_on_spec l : total_on cmp l = true ↔ total_order (.∈ l).
Proof.
  unfold total_on, total_order. rewrite forallb_forall. split.
  - intros Hall. split.
    + intros a b Ha%list_elem_of_In Hb%list_elem_of_In. specialize (Hall a Ha).
      rewrite forallb_forall in Hall. specialize (Hall b Hb).
      by apply andb_true_iff in Hall as [Hall%bool_decide_eq_true _].
    + intros a b c Ha%list_elem_of_In Hb%list_elem_of_In Hc%list_elem_of_In Hab Hbc.
      specialize (Hall a Ha). rewrite forallb_forall in Hall. specialize (Hall b Hb).
      apply andb_true_iff in Hall as [_ Hall]. rewrite forallb_forall in Hall. specialize (Hall c Hc).
      by rewrite Hab, Hbc in Hall.
  - intros [Hs Ht] a Ha%list_elem_of_In. apply forallb_forall. intros b Hb%list_elem_of_In.
    apply andb_true_iff. split; [by apply bool_decide_eq_true, Hs|].
    apply forallb_forall. intros c Hc%list_elem_of_In.
    destruct (le a b) eqn:Hab, (le b c) eqn:Hbc; cbn; try done. by apply (Ht a b c).
Qed.

(** Of the same class. *)
Definition eqv (a b : A) : bool := match cmp a b with Eq => true | _ => false end.

(** [out] is the stable sort of [l]: in order, with every class in the order of [l]. *)
Definition stable_sorted (l out : list A) : Prop :=
  StronglySorted (λ a b, le a b = true) out ∧ out ≡ₚ l ∧
  ∀ x, x ∈ l → List.filter (eqv x) out = List.filter (eqv x) l.

Context (D : A → Prop) (Hto : total_order D).

Lemma eqv_refl a : D a → eqv a a = true.
Proof. intros Ha. unfold eqv. pose proof (proj1 Hto a a Ha Ha) as Hs. by destruct (cmp a a). Qed.
Lemma le_total a b : D a → D b → le a b = false → le b a = true.
Proof.
  intros Ha Hb. unfold cmp_le. rewrite (proj1 Hto a b Ha Hb). by destruct (cmp a b).
Qed.
Lemma le_antisym a b : D a → D b → le a b = true → le b a = true → eqv a b = true.
Proof.
  intros Ha Hb. unfold cmp_le, eqv. rewrite (proj1 Hto a b Ha Hb). by destruct (cmp a b).
Qed.
Lemma eqv_le a b : eqv a b = true → le a b = true.
Proof. unfold eqv, cmp_le. by destruct (cmp a b). Qed.
Lemma eqv_sym a b : D a → D b → eqv a b = eqv b a.
Proof. intros Ha Hb. unfold eqv. rewrite (proj1 Hto a b Ha Hb). by destruct (cmp a b). Qed.
Lemma le_trans a b c : D a → D b → D c → le a b = true → le b c = true → le a c = true.
Proof. apply Hto. Qed.

(** A class is met by an element above another only if the classes differ. *)
Lemma eqv_above x y z : D x → D y → D z → le z y = false → eqv x y = true → eqv x z = false.
Proof.
  intros Hx Hy Hz Hzy Hxy. destruct (eqv x z) eqn:Hxz; [|done].
  rewrite <- Hzy. symmetry. apply (le_trans z x y); try done; apply eqv_le; [by rewrite eqv_sym|done].
Qed.

Lemma sort_insert_elem x l y : y ∈ sort_insert cmp x l ↔ y = x ∨ y ∈ l.
Proof. induction l as [|z l IH]; cbn; [set_solver|]. case_match; set_solver. Qed.
Lemma stable_sort_elem l y : y ∈ stable_sort cmp l ↔ y ∈ l.
Proof. induction l as [|x l IH]; cbn; [done|]. rewrite sort_insert_elem. set_solver. Qed.
Lemma sort_insert_perm x l : sort_insert cmp x l ≡ₚ x :: l.
Proof. induction l as [|z l IH]; cbn; [done|]. case_match; [done|]. rewrite IH. by constructor. Qed.
Lemma stable_sort_perm l : stable_sort cmp l ≡ₚ l.
Proof. induction l as [|x l IH]; cbn; [done|]. by rewrite sort_insert_perm, IH. Qed.

Lemma sort_insert_sorted x l :
  D x → Forall D l → StronglySorted (λ a b, le a b = true) l →
  StronglySorted (λ a b, le a b = true) (sort_insert cmp x l).
Proof.
  intros Hx HD Hl. induction Hl as [|y l Hl IH Hy]; cbn; [repeat constructor|].
  inversion HD as [|? ? HDy HDl]; subst. rewrite Forall_forall in Hy, HDl.
  destruct (le x y) eqn:Hxy.
  - constructor; [constructor; [done|by apply Forall_forall]|]. constructor; [done|].
    apply Forall_forall. intros z Hz. apply (le_trans x y z); auto.
  - constructor; [apply IH; by apply Forall_forall|]. apply Forall_forall.
    intros z Hz. apply sort_insert_elem in Hz as [->|Hz]; [by apply le_total|auto].
Qed.

(** Inserting puts the element in front of its class. *)
Lemma sort_insert_filter x l z :
  D x → D z → Forall D l → List.filter (eqv z) (sort_insert cmp x l) = List.filter (eqv z) (x :: l).
Proof.
  intros Hx Hz HD. induction HD as [|y l Hy HD IH]; [done|]. cbn [sort_insert].
  destruct (le x y) eqn:Hxy; [done|]. cbn [List.filter]. rewrite IH. cbn [List.filter].
  destruct (eqv z x) eqn:Hzx, (eqv z y) eqn:Hzy; try done.
  by rewrite (eqv_above z y x) in Hzx.
Qed.

Lemma stable_sort_D l : Forall D l → Forall D (stable_sort cmp l).
Proof. intros HD. by rewrite stable_sort_perm. Qed.
Lemma stable_sort_sorted l : Forall D l → StronglySorted (λ a b, le a b = true) (stable_sort cmp l).
Proof.
  induction 1 as [|x l Hx HD IH]; cbn; [constructor|]. by apply sort_insert_sorted, IH; [|apply stable_sort_D].
Qed.
Lemma stable_sort_filter l z :
  Forall D l → D z → List.filter (eqv z) (stable_sort cmp l) = List.filter (eqv z) l.
Proof.
  intros HD Hz. induction HD as [|x l Hx HD IH]; [done|].
  change (stable_sort cmp (x :: l)) with (sort_insert cmp x (stable_sort cmp l)).
  rewrite sort_insert_filter by (done || by apply stable_sort_D). cbn. by rewrite IH.
Qed.
Lemma stable_sort_stable l : Forall D l → stable_sorted l (stable_sort cmp l).
Proof.
  intros HD. split; [by apply stable_sort_sorted|]. split; [apply stable_sort_perm|].
  intros x Hx. apply stable_sort_filter; [done|]. rewrite Forall_forall in HD. auto.
Qed.

(** The stable sort is unique. *)
Lemma sorted_unique o1 o2 :
  Forall D o1 → Forall D o2 →
  StronglySorted (λ a b, le a b = true) o1 → StronglySorted (λ a b, le a b = true) o2 →
  (∀ z, D z → List.filter (eqv z) o1 = List.filter (eqv z) o2) → o1 = o2.
Proof.
  intros HD1. revert o2. induction HD1 as [|x o1 Hx HD1 IH]; intros o2 HD2 Hs1 Hs2 Hf.
  - destruct o2 as [|y o2]; [done|]. inversion HD2; subst. specialize (Hf y ltac:(done)).
    cbn in Hf. by rewrite eqv_refl in Hf.
  - destruct o2 as [|y o2].
    { specialize (Hf x Hx). cbn in Hf. by rewrite eqv_refl in Hf. }
    inversion HD2 as [|? ? Hy HD2']; inversion Hs1 as [|? ? Hs1' Hx1]; inversion Hs2 as [|? ? Hs2' Hy2]; subst.
    assert (∀ a l, D a → Forall (λ b, le a b = true) l → ∀ b, b ∈ a :: l → le a b = true) as Hmin.
    { intros a l Ha Hl b [->|Hb]%elem_of_cons; [by apply eqv_le, eqv_refl|]. rewrite Forall_forall in Hl. auto. }
    assert (∀ a l l', D a → List.filter (eqv a) (a :: l) = List.filter (eqv a) l' → a ∈ l') as Hin.
    { intros a l l' Ha Hfa. apply list_elem_of_In. apply (proj1 (filter_In (eqv a) a l')). rewrite <- Hfa.
      apply filter_In. split; [by left|by apply eqv_refl]. }
    assert (eqv x y = true) as Hxy.
    { apply le_antisym; [done..| |].
      - apply (Hmin x o1); [done..|]. apply (Hin y o2); [done|]. symmetry. by apply Hf.
      - apply (Hmin y o2); [done..|]. apply (Hin x o1); [done|]. by apply Hf. }
    assert (x = y) as ->.
    { pose proof (Hf x Hx) as Hh. cbn in Hh. rewrite eqv_refl, Hxy in Hh by done. by injection Hh. }
    f_equal. apply IH; [done..|]. intros z Hz. specialize (Hf z Hz). cbn in Hf.
    destruct (eqv z y); [by injection Hf|done].
Qed.

(** ** Merging *)

Fixpoint merge (l : list A) : list A → list A :=
  fix go (r : list A) : list A :=
    match l, r with
    | x :: l', y :: r' => if le x y then x :: merge l' r else y :: go r'
    | [], _ => r
    | _, [] => l
    end.

Lemma merge_nil_r l : merge l [] = l.
Proof. by destruct l. Qed.
Lemma merge_cons x l y r :
  merge (x :: l) (y :: r) = if le x y then x :: merge l (y :: r) else y :: merge (x :: l) r.
Proof. done. Qed.

Lemma merge_ind (P : list A → list A → Prop) :
  (∀ r, P [] r) → (∀ l, P l []) →
  (∀ x l y r, (le x y = true → P l (y :: r)) → (le x y = false → P (x :: l) r) → P (x :: l) (y :: r)) →
  ∀ l r, P l r.
Proof.
  intros H1 H2 H3 l. induction l as [|x l IHl]; intros r; [done|].
  induction r as [|y r IHr]; [done|]. apply H3; auto.
Qed.

Lemma merge_perm l r : merge l r ≡ₚ l ++ r.
Proof.
  pattern l, r. revert l r.
  apply merge_ind; [by intros []|by intros l; rewrite merge_nil_r, app_nil_r|].
  intros x l y r IHl IHr. rewrite merge_cons. destruct (le x y); [by rewrite IHl|].
  rewrite IHr by done. by rewrite <- (Permutation_middle (x :: l) r y).
Qed.
Lemma merge_D l r : Forall D l → Forall D r → Forall D (merge l r).
Proof. intros Hl Hr. rewrite merge_perm. by apply Forall_app. Qed.

Lemma merge_sorted l r :
  Forall D l → Forall D r →
  StronglySorted (λ a b, le a b = true) l → StronglySorted (λ a b, le a b = true) r →
  StronglySorted (λ a b, le a b = true) (merge l r).
Proof.
  pattern l, r. revert l r. apply merge_ind; [by intros []|by intros l; rewrite merge_nil_r|].
  intros x l y r IHl IHr HDl HDr Hl Hr. rewrite merge_cons.
  inversion HDl as [|? ? Hx HDl']; inversion HDr as [|? ? Hy HDr'];
    inversion Hl as [|? ? Hl' Hxl]; inversion Hr as [|? ? Hr' Hyr]; subst.
  rewrite Forall_forall in Hxl, Hyr, HDl', HDr'.
  destruct (le x y) eqn:Hxy.
  - constructor; [apply IHl; try done; by apply Forall_forall|]. rewrite merge_perm. apply Forall_forall.
    intros z [Hz|[->|Hz]%elem_of_cons]%elem_of_app; [auto|done|]. apply (le_trans x y z); auto.
  - constructor; [apply IHr; try done; by apply Forall_forall|]. rewrite merge_perm. apply Forall_forall.
    assert (le y x = true) as Hyx by (by apply le_total).
    intros z [[->|Hz]%elem_of_cons|Hz]%elem_of_app; [done| |auto]. apply (le_trans y x z); auto.
Qed.

(** The left run's elements come first in every class. *)
Lemma merge_filter l r z :
  D z → Forall D l → Forall D r → StronglySorted (λ a b, le a b = true) l →
  List.filter (eqv z) (merge l r) = List.filter (eqv z) l ++ List.filter (eqv z) r.
Proof.
  intros Hz. pattern l, r. revert l r.
  apply merge_ind; [by intros []|by intros l; rewrite merge_nil_r, app_nil_r|].
  intros x l y r IHl IHr HDl HDr Hl. rewrite merge_cons.
  inversion HDl as [|? ? Hx HDl']; inversion HDr as [|? ? Hy HDr']; inversion Hl as [|? ? Hl' Hxl]; subst.
  destruct (le x y) eqn:Hxy.
  - cbn [List.filter]. rewrite (IHl eq_refl) by done. by destruct (eqv z x).
  - change (List.filter (eqv z) (y :: merge (x :: l) r))
      with (if eqv z y then y :: List.filter (eqv z) (merge (x :: l) r) else List.filter (eqv z) (merge (x :: l) r)).
    rewrite (IHr eq_refl) by done. cbn [List.filter]. destruct (eqv z y) eqn:Hzy; [|done].
    (* nothing of [x :: l] is in the class of [y] *)
    assert (∀ w, w ∈ x :: l → eqv z w = false) as Hnone.
    { rewrite Forall_forall in HDl, Hxl. intros w Hw. apply (eqv_above z y w); auto.
      destruct (le w y) eqn:Hwy; [|done]. rewrite <- Hxy. symmetry. apply (le_trans x w y); auto.
      apply elem_of_cons in Hw as [->|Hw]; [by apply eqv_le, eqv_refl|auto]. }
    rewrite (Hnone x) by set_solver.
    enough (List.filter (eqv z) l = []) as -> by done.
    assert (∀ w, w ∈ l → eqv z w = false) as Hl0 by set_solver. clear -Hl0.
    induction l as [|w l IH]; [done|]. cbn. rewrite (Hl0 w) by set_solver. apply IH. set_solver.
Qed.

Lemma merge_stable_sort a b :
  Forall D a → Forall D b → merge (stable_sort cmp a) (stable_sort cmp b) = stable_sort cmp (a ++ b).
Proof.
  intros Ha Hb. pose proof (Forall_app_2 _ _ _ Ha Hb) as Hab.
  apply sorted_unique; auto using merge_D, stable_sort_D, merge_sorted, stable_sort_sorted.
  intros z Hz. rewrite merge_filter, !stable_sort_filter by auto using stable_sort_D, stable_sort_sorted.
  by rewrite List.filter_app.
Qed.

(** ** The interruptible sort *)

Context `{HH : Host, HQ : !QuietHost}.

Lemma total_order_sub l : Forall D l → total_on cmp l = true.
Proof.
  intros HD. rewrite Forall_forall in HD. apply total_on_spec. split.
  - intros a b Ha Hb. apply Hto; auto.
  - intros a b c Ha Hb Hc. apply Hto; auto.
Qed.
Lemma sort_by_yields l : Forall D l → yields (sort_by cmp l) (stable_sort cmp l).
Proof. intros HD. unfold sort_by. rewrite total_order_sub by done. apply yields_mret. Qed.

Lemma merge_runs_yields fuel l r out t :
  (length l + length r < fuel)%nat → ∃ t', yields (merge_runs cmp fuel l r out t) (t', out ++ merge l r).
Proof.
  revert l r out t. induction fuel as [|fuel IH]; intros l r out t Hf; [lia|].
  assert (∀ a m l' r', (length l' + length r' < fuel)%nat → merge l r = a :: m → merge l' r' = m →
    ∃ t', yields (merge_runs cmp fuel l' r' (out ++ [a]) ((t + 1) mod 2 ^ 32)) (t', out ++ merge l r)) as Hstep.
  { intros a m l' r' Hl Hm Hm'. destruct (IH l' r' (out ++ [a]) ((t + 1) mod 2 ^ 32) Hl) as [t' Hy].
    exists t'. by rewrite Hm', <- app_assoc in Hy; rewrite Hm. }
  cbn [merge_runs]. destruct l as [|x l], r as [|y r]; cbn [length] in Hf.
  - eexists. rewrite app_nil_r. eapply yields_then; [apply yields_tick|apply yields_mret].
  - destruct (Hstep y r [] r) as [t' Hy]; [cbn; lia|done|by destruct r|].
    exists t'. eapply yields_then; [apply yields_tick|exact Hy].
  - destruct (Hstep x l l []) as [t' Hy]; [cbn; lia|done|apply merge_nil_r|].
    exists t'. eapply yields_then; [apply yields_tick|exact Hy].
  - rewrite merge_cons in Hstep. destruct (le x y) eqn:Hxy.
    + destruct (Hstep x (merge l (y :: r)) l (y :: r)) as [t' Hy]; [cbn; lia|done|done|].
      exists t'. eapply yields_then; [apply yields_tick|]. cbv beta iota. rewrite merge_cons, Hxy. exact Hy.
    + destruct (Hstep y (merge (x :: l) r) (x :: l) r) as [t' Hy]; [cbn; lia|done|done|].
      exists t'. eapply yields_then; [apply yields_tick|]. cbv beta iota. rewrite merge_cons, Hxy. exact Hy.
Qed.

(** A pass halves the number of runs; the runs stay the sorts of consecutive pieces. *)
Lemma merge_pairs_yields n cs t :
  (length cs ≤ n)%nat → Forall (Forall D) cs →
  ∃ t' cs', yields (merge_pairs cmp (map (stable_sort cmp) cs) t) (t', map (stable_sort cmp) cs') ∧
    concat cs' = concat cs ∧ Forall (Forall D) cs' ∧ (2 * length cs' ≤ S (length cs))%nat.
Proof.
  revert cs t. induction n as [|n IH]; intros cs t Hn HD.
  { destruct cs; [|cbn in Hn; lia]. exists t, []. split_and!; try done. cbn. lia. }
  destruct cs as [|a [|b cs]].
  { exists t, []. split_and!; try done. cbn. lia. }
  { exists t, [a]. split_and!; try done. }
  inversion HD as [|? ? Ha HD']; inversion HD' as [|? ? Hb HDc]; subst. cbn [map merge_pairs].
  destruct (merge_runs_yields (S (length (stable_sort cmp a) + length (stable_sort cmp b)))
    (stable_sort cmp a) (stable_sort cmp b) [] t ltac:(lia)) as [t1 H1].
  destruct (IH cs t1) as (t2 & cs' & H2 & Hc & HD2 & Hlen); [cbn in Hn; lia|done|].
  exists t2, ((a ++ b) :: cs'). split; [|split; [|split]].
  - eapply yields_then; [exact H1|]. eapply yields_then; [exact H2|]. cbn [map app].
    rewrite merge_stable_sort by done. apply yields_mret.
  - cbn. by rewrite Hc, <- app_assoc.
  - constructor; [by apply Forall_app|done].
  - cbn. lia.
Qed.

Lemma merge_passes_yields fuel cs t :
  (length cs ≤ S fuel)%nat → Forall (Forall D) cs →
  yields (merge_passes cmp fuel (map (stable_sort cmp) cs) t) (stable_sort cmp (concat cs)).
Proof.
  revert cs t. induction fuel as [|fuel IH]; intros cs t Hf HD.
  all: destruct cs as [|a [|b cs]]; cbn [length] in Hf; [apply yields_mret|cbn; rewrite app_nil_r; apply yields_mret|].
  - lia.
  - destruct (merge_pairs_yields _ (a :: b :: cs) t (Nat.le_refl _) HD) as (t' & cs' & Hy & Hc & HD' & Hlen).
    eapply yields_then; [exact Hy|]. cbv beta iota. rewrite <- Hc. apply IH; [cbn in Hlen; lia|done].
Qed.

Lemma sort_runs_yields fuel items cs :
  (length items < fuel)%nat → Forall D items →
  ∃ cs', yields (sort_runs cmp fuel items (map (stable_sort cmp) cs)) (map (stable_sort cmp) (cs ++ cs')) ∧
    concat cs' = items ∧ Forall (Forall D) cs'.
Proof.
  pose proof SORT_RUN_nonzero as Hrun.
  revert items cs. induction fuel as [|fuel IH]; intros items cs Hf HD; [lia|]. cbn [sort_runs].
  destruct (take SORT_RUN items) as [|x run] eqn:Ht.
  { exists []. rewrite app_nil_r. destruct items as [|y items]; [split; [apply yields_mret|by repeat constructor]|].
    by destruct SORT_RUN. }
  rewrite <- Ht.
  destruct (IH (drop SORT_RUN items) (cs ++ [take SORT_RUN items])) as (cs' & Hy & Hc & HD').
  { rewrite length_drop. destruct items; [by rewrite take_nil in Ht|cbn in *; lia]. }
  { by apply Forall_drop. }
  exists (take SORT_RUN items :: cs'). split; [|split].
  - eapply yields_then; [apply yields_deadline|].
    eapply yields_then; [by apply sort_by_yields, Forall_take|].
    rewrite map_app, <- app_assoc in Hy. exact Hy.
  - cbn. rewrite Hc. apply take_drop.
  - constructor; [by apply Forall_take|done].
Qed.

Lemma sort_by_interruptible_yields items :
  Forall D items → yields (sort_by_interruptible cmp items) (stable_sort cmp items).
Proof.
  intros HD. unfold sort_by_interruptible. eapply yields_then; [apply yields_deadline|].
  destruct (sort_merges_runs (length items)); [|by apply sort_by_yields].
  destruct (sort_runs_yields (S (length items)) items [] ltac:(lia) HD) as (cs & Hy & Hc & HDc).
  eapply yields_then; [exact Hy|]. cbn [app]. rewrite <- Hc. apply merge_passes_yields; [|done].
  rewrite length_map. lia.
Qed.
End stable.
