(* ===== verification/OrderBy.v ===== *)
(** ORDER BY, SKIP and LIMIT return the requested window of the stable order, on the
    bounded heap too. *)
From S2P Require Import Prelude Float StorageError Ast RuntimeValue Exec Scalar Functions Expr ExprFacts Fingerprint Operators OperatorFacts Rewrites Sort SortFacts.

(** The bounded heap keeps the first rows of the stable sort. *)

(** ** Orders *)

Section lex.
Context {A : Type} (c1 c2 : A → A → comparison) (D : A → Prop).

(** Lexicographic combination. *)
Definition lex (a b : A) : comparison := match c1 a b with Eq => c2 a b | o => o end.

Lemma total_eq_l a b c :
  total_order c1 D → D a → D b → D c → c1 a b = Eq → c1 a c = c1 b c.
Proof.
  intros [Hs Ht] Ha Hb Hc Hab. pose proof (Hs a b Ha Hb) as Hba. rewrite Hab in Hba.
  pose proof (Hs a c Ha Hc) as Hca. pose proof (Hs b c Hb Hc) as Hcb.
  pose proof (Ht a b c Ha Hb Hc) as H1. pose proof (Ht b a c Hb Ha Hc) as H2.
  pose proof (Ht c a b Hc Ha Hb) as H3. pose proof (Ht c b a Hc Hb Ha) as H4.
  unfold cmp_le in *. rewrite Hab in *. rewrite Hba in *. rewrite Hca in *. rewrite Hcb in *.
  destruct (c1 a c), (c1 b c); cbn in *; try done; exfalso; auto using diff_true_false.
  all: try (by specialize (H1 eq_refl eq_refl)); try (by specialize (H2 eq_refl eq_refl)).
  all: try (by specialize (H3 eq_refl eq_refl)); try (by specialize (H4 eq_refl eq_refl)).
Qed.

Lemma lex_total : total_order c1 D → total_order c2 D → total_order lex D.
Proof.
  intros H1 H2. split.
  - intros a b Ha Hb. unfold lex. rewrite (proj1 H1 a b Ha Hb).
    destruct (c1 a b); cbn; [by apply H2|done..].
  - intros a b c Ha Hb Hc. pose proof (proj2 H1 a b c Ha Hb Hc) as Ht1.
    pose proof (proj2 H2 a b c Ha Hb Hc) as Ht2. pose proof (total_eq_l a b c H1 Ha Hb Hc) as Hl.
    pose proof (total_eq_l c b a H1 Hc Hb Ha) as Hr.
    rewrite (proj1 H1 a c Ha Hc), (proj1 H1 b c Hb Hc), (proj1 H1 a b Ha Hb) in Hr.
    pose proof (total_eq_l a c b H1 Ha Hc Hb) as He. rewrite (proj1 H1 b c Hb Hc) in He.
    unfold cmp_le, lex in *. destruct (c1 a b), (c1 b c), (c1 a c); cbn in *; auto.
    all: intros; first [discriminate|by specialize (Hl eq_refl)|by specialize (Hr eq_refl)
      |by specialize (He eq_refl)|by specialize (Ht1 eq_refl eq_refl)].
Qed.
End lex.

Lemma nat_cmp_total {A} (f : A → nat) D : total_order (λ a b, Nat.compare (f a) (f b)) D.
Proof.
  split.
  - intros a b _ _. apply Nat.compare_antisym.
  - intros a b c _ _ _. unfold cmp_le.
    destruct (Nat.compare_spec (f a) (f b)), (Nat.compare_spec (f b) (f c)), (Nat.compare_spec (f a) (f c));
      try done; lia.
Qed.

Lemma stable_sort_map {A B} (f : A → B) (cmp : B → B → comparison) l :
  stable_sort cmp (map f l) = map f (stable_sort (λ a b, cmp (f a) (f b)) l).
Proof.
  induction l as [|x l IH]; [done|]. unfold stable_sort in *. cbn [map foldr]. rewrite IH.
  generalize (foldr (sort_insert (λ a b, cmp (f a) (f b))) [] l).
  clear. intros l. induction l as [|y l IH]; [done|]. cbn [map sort_insert]. rewrite IH.
  unfold cmp_le. by destruct (cmp (f x) (f y)).
Qed.

Lemma stable_sort_ext {A} (c1 c2 : A → A → comparison) l :
  (∀ a b, a ∈ l → b ∈ l → c1 a b = c2 a b) → stable_sort c1 l = stable_sort c2 l.
Proof.
  induction l as [|x l IH]; intros Hc; [done|]. unfold stable_sort in *. cbn [foldr].
  rewrite IH by (intros; apply Hc; set_solver).
  assert (∀ y, y ∈ foldr (sort_insert c2) [] l → c1 x y = c2 x y) as Hx.
  { intros y Hy. change (foldr (sort_insert c2) [] l) with (stable_sort c2 l) in Hy.
    rewrite stable_sort_perm in Hy. apply Hc; set_solver. }
  revert Hx. generalize (foldr (sort_insert c2) [] l). clear. intros l Hx.
  induction l as [|y l IH]; [done|]. cbn [sort_insert]. unfold cmp_le. rewrite Hx by set_solver.
  rewrite IH by (intros; apply Hx; set_solver). done.
Qed.

(** ** Heaps over a strict total order *)

Section heap.
Context {A : Type} (cmp : A → A → comparison) (D : A → Prop).
Context (Hto : total_order cmp D).

Local Abbreviation le := (cmp_le cmp).
Local Abbreviation sorted := (StronglySorted (λ a b, le a b = true)).

Lemma heap_pop_spec h : Forall D h → h ≠ [] →
  ∃ m rest, heap_pop cmp h = Some (m, rest) ∧ h ≡ₚ m :: rest ∧ ∀ y, y ∈ rest → le y m = true.
Proof.
  induction 1 as [|x h Hx HD IH]; [done|]. intros _. cbn [heap_pop].
  destruct h as [|y h]; [exists x, []; split_and!; [done|done|set_solver]|].
  destruct IH as (m & rest & -> & Hp & Hm); [done|].
  assert (Forall D (m :: rest)) as HD' by (by rewrite <- Hp). inversion HD' as [|? ? HDm HDr]; subst.
  rewrite Forall_forall in HDr. destruct (le x m) eqn:Hxm.
  - exists m, (x :: rest). split_and!; [done|rewrite Hp; constructor|]. set_solver.
  - assert (le m x = true) as Hmx by (by apply (le_total cmp D Hto)).
    exists x, (m :: rest). split_and!; [done|by rewrite Hp|]. intros z [->|Hz]%elem_of_cons; [done|].
    apply (le_trans cmp D Hto z m x); auto.
Qed.

(** The first [k] of an insertion. *)
Lemma take_insert_lt k x l m :
  sorted l → Forall D l → D x → l !! k = Some m → le m x = false →
  take (S k) (sort_insert cmp x l) = sort_insert cmp x (take k l).
Proof.
  intros Hs. revert k. induction Hs as [|y l Hs IH Hy]; intros k HD Hx Hk Hxm; [done|].
  inversion HD as [|? ? HDy HDl]; subst. cbn [sort_insert]. destruct (le x y) eqn:Hxy.
  - destruct k as [|k]; cbn; [done|]. by rewrite Hxy.
  - destruct k as [|k]; cbn in Hk |- *.
    + injection Hk as ->. by rewrite (le_total cmp D Hto x m) in Hxm.
    + rewrite Hxy. f_equal. by apply IH.
Qed.
Lemma take_insert_ge k x l m :
  sorted l → Forall D l → D x → l !! k = Some m → le x m = false →
  take (S k) (sort_insert cmp x l) = take (S k) l.
Proof.
  intros Hs. revert k. induction Hs as [|y l Hs IH Hy]; intros k HD Hx Hk Hxm; [done|].
  inversion HD as [|? ? HDy HDl]; subst. cbn [sort_insert]. destruct (le x y) eqn:Hxy.
  - exfalso. destruct k as [|k]; cbn in Hk; [congruence|].
    rewrite Forall_forall in Hy, HDl. apply list_elem_of_lookup_2 in Hk.
    by rewrite (le_trans cmp D Hto x y m) in Hxm by auto.
  - cbn [take]. f_equal. destruct k as [|k]; [done|]. by apply IH.
Qed.

Context (Hstrict : ∀ a b, D a → D b → cmp a b = Eq → a = b).

Lemma strict_antisym a b : D a → D b → le a b = true → le b a = true → a = b.
Proof.
  intros Ha Hb Hab Hba. apply Hstrict; [done..|]. pose proof (le_antisym cmp D Hto a b Ha Hb Hab Hba) as He.
  unfold eqv in He. by destruct (cmp a b).
Qed.

Lemma sorted_perm_eq l1 l2 : Forall D l1 → sorted l1 → sorted l2 → l1 ≡ₚ l2 → l1 = l2.
Proof.
  intros HD Hs1 Hs2 Hp. eapply StronglySorted_unique_strong; [|exact Hs1|exact Hs2|exact Hp].
  rewrite Forall_forall in HD. intros a b Ha Hb. rewrite <- Hp in Hb. apply strict_antisym; auto.
Qed.

Lemma stable_sort_snoc l x :
  Forall D l → D x → stable_sort cmp (l ++ [x]) = sort_insert cmp x (stable_sort cmp l).
Proof.
  intros Hl Hx. assert (Forall D (l ++ [x])) as Hlx by (apply Forall_app; auto).
  apply sorted_perm_eq.
  - by apply stable_sort_D.
  - by apply (stable_sort_sorted cmp D Hto).
  - apply (sort_insert_sorted cmp D Hto); [done|by apply stable_sort_D|by apply (stable_sort_sorted cmp D Hto)].
  - rewrite stable_sort_perm, sort_insert_perm, stable_sort_perm. by rewrite Permutation_app_comm.
Qed.

(** Popping a heap with the elements of a sorted list takes its last one out. *)
Lemma heap_pop_last heap l m :
  heap ≡ₚ l ++ [m] → sorted (l ++ [m]) → Forall D (l ++ [m]) →
  ∃ rest, heap_pop cmp heap = Some (m, rest) ∧ rest ≡ₚ l.
Proof.
  intros Hh Hs HD. assert (Forall D heap) as HDh by (by rewrite Hh).
  destruct (heap_pop_spec heap HDh) as (w & rest & Hpop & Hp & Hw).
  { intros ->. apply Permutation_length in Hh. rewrite length_app in Hh. cbn in Hh. lia. }
  rewrite Forall_forall in HD, HDh. assert (D m) as HDm by (apply HD; set_solver).
  assert (w = m) as ->.
  { apply strict_antisym; [apply HDh; rewrite Hp; set_solver|done|..].
    - assert (w ∈ l ++ [m]) as Hin by (rewrite <- Hh, Hp; set_solver).
      apply elem_of_app in Hin as [Hin| ->%list_elem_of_singleton]; [|by apply eqv_le, (eqv_refl cmp D Hto)].
      eapply StronglySorted_app_1_elem_of in Hs; [exact Hs|done|set_solver].
    - assert (m ∈ w :: rest) as [->|Hin]%elem_of_cons by (rewrite <- Hp, Hh; set_solver).
      + by apply eqv_le, (eqv_refl cmp D Hto).
      + by apply Hw. }
  exists rest. split; [done|]. apply (Permutation_cons_inv (a := m)).
  rewrite <- Hp, Hh. by rewrite Permutation_app_comm.
Qed.
End heap.

(** ** The bounded heap *)

Section topk.
Context (keys : list OrderKey) (D : FlatTopNItem → Prop).
Context (Hto : total_order (item_cmp keys) D).
Context (Hstrict : ∀ a b, D a → D b → item_cmp keys a b = Eq → a = b).

Local Abbreviation cmp := (item_cmp keys).

(** The heap holds the first [bound] items of the sort; so does the heap after an offer. *)
Lemma heap_offer_take bound heap seen x :
  0 < bound → Forall D seen → D x → x ∉ seen →
  heap ≡ₚ take (Z.to_nat bound) (stable_sort cmp seen) →
  heap_offer keys bound heap x ≡ₚ take (Z.to_nat bound) (stable_sort cmp (seen ++ [x])).
Proof.
  intros Hb HD Hx Hnin Hh. rewrite (stable_sort_snoc cmp D Hto Hstrict) by done.
  pose proof (stable_sort_D cmp D seen HD) as HDs.
  pose proof (stable_sort_sorted cmp D Hto seen HD) as Hs.
  assert (∀ y, y ∈ stable_sort cmp seen → y ≠ x) as Hne.
  { intros y Hy ->. by rewrite (stable_sort_perm cmp) in Hy. }
  set (S0 := stable_sort cmp seen) in *. clearbody S0.
  assert (length heap = Nat.min (Z.to_nat bound) (length S0)) as Hlen by (by rewrite Hh, length_take).
  unfold heap_offer. destruct (Z.ltb_spec (Z.of_nat (length heap)) bound) as [Hlt|Hge].
  - rewrite take_ge by (rewrite (Permutation_length (sort_insert_perm cmp x S0)); cbn; lia).
    rewrite sort_insert_perm, Hh, take_ge by lia. done.
  - destruct (Z.to_nat bound) as [|k] eqn:Hk; [lia|].
    destruct (lookup_lt_is_Some_2 S0 k) as [m Hm]; [lia|].
    assert (D m) as HDm by (rewrite Forall_forall in HDs; by eapply HDs, list_elem_of_lookup_2).
    rewrite (take_S_r _ _ _ Hm) in Hh.
    destruct (heap_pop_last cmp D Hto Hstrict heap (take k S0) m Hh) as (rest & -> & Hrest).
    { rewrite <- (take_drop (S k) S0), (take_S_r _ _ _ Hm) in Hs. by apply StronglySorted_app_1_l in Hs. }
    { apply Forall_app. split; [by apply Forall_take|auto]. }
    destruct (cmp x m) eqn:Hc.
    + apply Hstrict in Hc as ->; [|done..]. by destruct (Hne m); [eapply list_elem_of_lookup_2|].
    + rewrite (take_insert_lt cmp D Hto k x S0 m) by (done || unfold cmp_le; by rewrite (proj1 Hto x m Hx HDm), Hc).
      by rewrite sort_insert_perm, Hrest.
    + rewrite (take_insert_ge cmp D Hto k x S0 m) by (done || unfold cmp_le; by rewrite Hc).
      by rewrite (take_S_r _ _ _ Hm).
Qed.
End topk.

(** ** Rows *)

(** The rows with their positions and keys. *)
Definition numbered (vals : Row → list RuntimeValue) (rows : list Row) : list FlatTopNItem :=
  imap (λ i row, {| ti_vals := vals row; ti_pos := i; ti_row := row |}) rows.

(** The rows in the stable order of their keys. *)
Definition sorted_rows (keys : list OrderKey) (vals : Row → list RuntimeValue) (rows : list Row) : list Row :=
  stable_sort (λ a b, compare_keys (vals a) (vals b) keys) rows.

Lemma numbered_snoc vals rows row :
  numbered vals (rows ++ [row])
  = numbered vals rows ++ [{| ti_vals := vals row; ti_pos := length rows; ti_row := row |}].
Proof. unfold numbered. rewrite imap_app. cbn. by rewrite Nat.add_0_r. Qed.

Lemma numbered_lookup vals rows a :
  a ∈ numbered vals rows → numbered vals rows !! ti_pos a = Some a ∧ ti_vals a = vals (ti_row a) ∧ ti_row a ∈ rows.
Proof.
  intros (i & Hi)%list_elem_of_lookup. unfold numbered in *. rewrite list_lookup_imap in *.
  destruct (rows !! i) as [row|] eqn:Hr; [|done]. injection Hi as <-. cbn. rewrite Hr.
  split_and!; [done|done|by eapply list_elem_of_lookup_2].
Qed.

Section rows.
Context (keys : list OrderKey) (vals : Row → list RuntimeValue) (rows : list Row).
Context (Htot : total_order (λ a b, compare_keys (vals a) (vals b) keys) (.∈ rows)).

Lemma item_cmp_total : total_order (item_cmp keys) (.∈ numbered vals rows).
Proof.
  apply (lex_total (λ a b, compare_keys (ti_vals a) (ti_vals b) keys)); [|apply nat_cmp_total].
  destruct Htot as [Hs Ht]. split; unfold cmp_le in *.
  - intros a b (_ & Hva & Ha)%numbered_lookup (_ & Hvb & Hb)%numbered_lookup. rewrite Hva, Hvb. auto.
  - intros a b c (_ & Hva & Ha)%numbered_lookup (_ & Hvb & Hb)%numbered_lookup (_ & Hvc & Hc)%numbered_lookup.
    rewrite Hva, Hvb, Hvc. eauto.
Qed.
Lemma item_cmp_strict a b :
  a ∈ numbered vals rows → b ∈ numbered vals rows → item_cmp keys a b = Eq → a = b.
Proof.
  intros (Ha & _)%numbered_lookup (Hb & _)%numbered_lookup Hc. unfold item_cmp in Hc.
  destruct (compare_keys _ _ _); try done. apply Nat.compare_eq in Hc. rewrite Hc in Ha. congruence.
Qed.

(** On numbered rows the position decides ties as stability does. *)
Lemma sort_numbered :
  stable_sort (item_cmp keys) (numbered vals rows)
  = stable_sort (λ a b, compare_keys (ti_vals a) (ti_vals b) keys) (numbered vals rows).
Proof.
  clear Htot. assert (StronglySorted (λ a b, (ti_pos a < ti_pos b)%nat) (numbered vals rows)) as Hs.
  { unfold numbered. induction rows as [|row rows' IH] using rev_ind; [constructor|].
    rewrite imap_app. apply StronglySorted_app_2; [|done|repeat constructor].
    intros a b (i & Hi)%list_elem_of_lookup ->%list_elem_of_singleton. rewrite list_lookup_imap in Hi.
    destruct (rows' !! i) eqn:Hr; [|done]. injection Hi as <-. cbn. apply lookup_lt_Some in Hr. lia. }
  induction Hs as [|a l Hs IH Ha]; [done|]. unfold stable_sort in *. cbn [foldr]. rewrite IH.
  assert (Forall (λ b, (ti_pos a < ti_pos b)%nat)
    (foldr (sort_insert (λ a b, compare_keys (ti_vals a) (ti_vals b) keys)) [] l)) as Ha'.
  { change (foldr _ [] l) with (stable_sort (λ a b, compare_keys (ti_vals a) (ti_vals b) keys) l).
    by rewrite stable_sort_perm. }
  clear IH Ha Hs. revert Ha'. generalize (foldr (sort_insert (λ a b, compare_keys (ti_vals a) (ti_vals b) keys)) [] l).
  intros l'. induction 1 as [|b l' Hb _ IH]; [done|]. cbn [sort_insert]. rewrite IH. unfold cmp_le, item_cmp.
  rewrite (proj2 (Nat.compare_lt_iff _ _) Hb). by destruct (compare_keys _ _ _).
Qed.

(** The heap after the rows [pre], the first of [rows]. *)
Definition offer_step (bound : Z) (st : list FlatTopNItem * list FlatTopNItem) (row : Row)
    : list FlatTopNItem * list FlatTopNItem :=
  let item := {| ti_vals := vals row; ti_pos := length st.1; ti_row := row |} in
  (st.1 ++ [item], heap_offer keys bound st.2 item).

Lemma offers_take bound pre post :
  0 < bound → rows = pre ++ post →
  (foldl (offer_step bound) ([], []) pre).1 = numbered vals pre ∧
  (foldl (offer_step bound) ([], []) pre).2
    ≡ₚ take (Z.to_nat bound) (stable_sort (item_cmp keys) (numbered vals pre)).
Proof.
  intros Hb. revert post. induction pre as [|row pre IH] using rev_ind; intros post Hrows; [cbn; by rewrite take_nil|].
  rewrite <- app_assoc in Hrows. destruct (IH _ Hrows) as [H1 H2]. rewrite foldl_app. cbn [foldl].
  unfold offer_step at 1 3. cbn [fst snd]. rewrite numbered_snoc, H1.
  assert (length (numbered vals pre) = length pre) as -> by apply length_imap.
  split; [done|].
  assert (numbered vals rows = numbered vals (pre ++ [row]) ++ imap (λ i r,
    {| ti_vals := vals r; ti_pos := length (pre ++ [row]) + i; ti_row := r |}) post) as Hn.
  { rewrite Hrows, app_assoc. unfold numbered at 1. by rewrite imap_app. }
  rewrite numbered_snoc in Hn.
  apply (heap_offer_take keys (.∈ numbered vals rows) item_cmp_total item_cmp_strict); [done|..|done].
  - apply Forall_forall. intros a Ha. rewrite Hn. set_solver.
  - rewrite Hn. set_solver.
  - intros Hin. apply numbered_lookup in Hin as (Hl & _). apply lookup_lt_Some in Hl. cbn in Hl.
    unfold numbered in Hl. rewrite length_imap in Hl. lia.
Qed.

Lemma map_row_numbered :
  map ti_row (stable_sort (λ a b, compare_keys (ti_vals a) (ti_vals b) keys) (numbered vals rows))
  = sorted_rows keys vals rows.
Proof.
  assert (map ti_row (numbered vals rows) = rows) as Hrow.
  { unfold numbered. clear. induction rows as [|row rows' IH] using rev_ind; [done|].
    by rewrite imap_app, map_app, IH. }
  unfold sorted_rows. rewrite <- Hrow at 2. rewrite stable_sort_map. f_equal.
  apply stable_sort_ext. intros a b (_ & Hva & _)%numbered_lookup (_ & Hvb & _)%numbered_lookup. cbv beta. by rewrite Hva, Hvb.
Qed.
End rows.

(** ** Orders on keys *)

Section orders.
Context {A : Type}.

Lemma total_ext (c c' : A → A → comparison) (D : A → Prop) :
  (∀ a b, D a → D b → c a b = c' a b) → total_order c D → total_order c' D.
Proof.
  intros Hc [Hs Ht]. split.
  - intros a b Ha Hb. rewrite <- !Hc by done. auto.
  - intros a b d Ha Hb Hd. unfold cmp_le in *. rewrite <- !Hc by done. eauto.
Qed.
Lemma total_pull {B} (c : B → B → comparison) (f : A → B) (D : A → Prop) (D' : B → Prop) :
  (∀ a, D a → D' (f a)) → total_order c D' → total_order (λ a b, c (f a) (f b)) D.
Proof.
  intros HD [Hs Ht]. split.
  - intros a b Ha Hb. auto.
  - intros a b d Ha Hb Hd. unfold cmp_le in *. eauto.
Qed.
Lemma total_flip (c : A → A → comparison) D : total_order c D → total_order (λ a b, CompOpp (c a b)) D.
Proof.
  intros [Hs Ht]. split.
  - intros a b Ha Hb. by rewrite (Hs a b).
  - intros a b d Ha Hb Hd. specialize (Ht d b a Hd Hb Ha). unfold cmp_le in *.
    rewrite (Hs b d), (Hs a b), (Hs a d) in Ht by done.
    destruct (c a b), (c b d), (c a d); cbn in *; auto.
Qed.
End orders.

(** Values of one type, and NULL. *)
Inductive SortFamily := FamBool | FamInteger | FamString | FamDate | FamDateTime.
Definition in_family (f : SortFamily) (v : RuntimeValue) : bool :=
  match f, v with
  | _, RNull | FamBool, RBool _ | FamInteger, RInteger _ | FamString, RString _
  | FamDate, RDate _ | FamDateTime, RDateTime _ => true
  | _, _ => false
  end.

Lemma string_le_trans a b c :
  String.compare a b ≠ Gt → String.compare b c ≠ Gt → String.compare a c ≠ Gt.
Proof.
  destruct (String.compare a b) eqn:Hab; try done.
  - apply string_compare_eq in Hab as ->. done.
  - destruct (String.compare b c) eqn:Hbc; try done.
    + apply string_compare_eq in Hbc as <-. by rewrite Hab.
    + by rewrite (string_compare_trans a b c).
Qed.

Lemma order_for_sort_total f desc :
  total_order (λ a b, order_for_sort a b desc) (λ v, in_family f v = true).
Proof.
  cut (total_order (λ a b, order_for_sort a b false) (λ v, in_family f v = true)).
  { intros Ht. destruct desc; [|exact Ht]. by apply (total_flip (λ a b, order_for_sort a b false)). }
  split.
  - intros a b Ha Hb. destruct f; destruct a as [| | | | | | | | | | | | | |]; try discriminate;
      destruct b; try discriminate; cbn; try done.
    all: try apply Z.compare_antisym; try apply String.compare_antisym.
    by repeat match goal with b : bool |- _ => destruct b end.
  - intros a b c Ha Hb Hc. unfold cmp_le. destruct f;
      destruct a; try discriminate; destruct b; try discriminate; destruct c; try discriminate; cbn; try done.
    all: try (repeat match goal with b : bool |- _ => destruct b end; done).
    all: repeat match goal with |- context [?x ?= ?y] => destruct (Z.compare_spec x y) end; try done; try lia.
    intros H1 H2. destruct (String.compare s s1) eqn:H3; try done. exfalso.
    by eapply (string_le_trans s s0 s1); [..|exact H3]; intros Hc'; rewrite Hc' in *.
Qed.

(** Key vectors whose columns are each of one family. *)
Lemma compare_keys_total keys fams :
  length fams = length keys →
  total_order (λ a b, compare_keys a b keys) (Forall2 (λ f v, in_family f v = true) fams).
Proof.
  revert fams. induction keys as [|k keys IH]; intros [|f fams] Hl; try discriminate.
  - by split.
  - injection Hl as Hl.
    set (D := Forall2 (λ f v, in_family f v = true) (f :: fams)).
    assert (∀ v, D v → in_family f (hd RNull v) = true ∧ Forall2 (λ f v, in_family f v = true) fams (tl v)) as HD.
    { intros v Hv. by inversion Hv; subst. }
    apply (total_ext (lex (λ a b, order_for_sort (hd RNull a) (hd RNull b) (is_desc (ok_direction k)))
                          (λ a b, compare_keys (tl a) (tl b) keys))).
    { intros a b Ha Hb. inversion Ha; inversion Hb; subst. done. }
    apply lex_total.
    + apply (total_pull (λ a b, order_for_sort a b (is_desc (ok_direction k))) (hd RNull) D
        (λ v, in_family f v = true) (λ v Hv, proj1 (HD v Hv))), order_for_sort_total.
    + apply (total_pull (λ a b, compare_keys a b keys) (@tl RuntimeValue) D _ (λ v Hv, proj2 (HD v Hv))), IH, Hl.
Qed.

(** Rows that compare equal stay as they are. *)
Lemma stable_sort_const {A} (cmp : A → A → comparison) l : (∀ a b, cmp a b = Eq) → stable_sort cmp l = l.
Proof.
  intros Hc. induction l as [|x l IH]; [done|]. unfold stable_sort in *. cbn [foldr]. rewrite IH.
  destruct l; [done|]. cbn. unfold cmp_le. by rewrite Hc.
Qed.

(** ** Rows *)

Section rows.
Context `{HH : Host, HL : Libs, HQ : !QuietHost, HS : !SteadyHost}.
Context (keys : list OrderKey) (params : Params).

Definition key_vals (row : Row) : list RuntimeValue := map (λ k, value_of params (ok_expression k) row) keys.
Definition row_cmp (a b : Row) : comparison := compare_keys (key_vals a) (key_vals b) keys.

(** The keys evaluate on every row, and each key to values of one family. *)
Definition orderable (fams : list SortFamily) (rows : list Row) : Prop :=
  length fams = length keys ∧
  ∀ row, row ∈ rows → (∀ k, k ∈ keys → defined params (ok_expression k) row) ∧
    Forall2 (λ f v, in_family f v = true) fams (key_vals row).

Lemma orderable_total fams rows : orderable fams rows → total_order row_cmp (.∈ rows).
Proof.
  intros [Hl Hr]. apply (total_pull (λ a b, compare_keys a b keys) key_vals _ _ (λ row Hin, proj2 (Hr row Hin))).
  by apply compare_keys_total.
Qed.

Section given.
Context (fams : list SortFamily) (rows : list Row) (Ho : orderable fams rows).

Lemma row_keys_yields row : row ∈ rows → yields (row_keys keys row params) (key_vals row).
Proof. intros Hr. apply yields_collect. intros k Hk. apply yields_ev. by apply Ho. Qed.

Lemma sort_rows_yields : yields (sort_rows rows keys params) (stable_sort row_cmp rows).
Proof.
  unfold sort_rows. eapply yields_then; [apply yields_meter|].
  apply (yields_loop snd (λ keyed row, keyed ++ [(key_vals row, row)])).
  - intros [t keyed] row Hr. eexists (_, _). split; [|reflexivity].
    eapply yields_then; [apply yields_tick|]. eapply yields_then; [by apply row_keys_yields|].
    eapply yields_then; [apply yields_meter|apply yields_mret].
  - intros [t keyed] Hk. cbn [snd] in Hk. rewrite (foldl_push (λ row, [(key_vals row, row)])) in Hk.
    cbn [app] in Hk. rewrite concat_singletons in Hk. subst keyed.
    eapply yields_then; [apply yields_when, yields_meter|].
    assert (total_order (λ a b, compare_keys a.1 b.1 keys) (.∈ map (λ row, (key_vals row, row)) rows)) as Htot.
    { apply (total_pull (λ a b, compare_keys a b keys) fst _ (Forall2 (λ f v, in_family f v = true) fams)).
      - intros a Ha. apply list_elem_of_In, in_map_iff in Ha as (row & <- & Hr%list_elem_of_In). by apply Ho.
      - apply compare_keys_total, Ho. }
    eapply yields_then.
    + apply (sort_by_interruptible_yields _ _ Htot). by apply Forall_forall.
    + rewrite stable_sort_map, map_map, map_id. apply yields_mret.
Qed.

Lemma bounded_topk_yields bound :
  0 ≤ bound → yields (bounded_topk rows keys params bound) (take (Z.to_nat bound) (stable_sort row_cmp rows)).
Proof.
  intros Hb. unfold bounded_topk. destruct (Z.eqb_spec bound 0) as [->|Hne]; [apply yields_mret|].
  pose proof (orderable_total fams rows Ho) as Htot.
  destruct (offers_take keys key_vals rows Htot bound rows []) as [Hi Hh]; [lia|by rewrite app_nil_r|].
  apply (yields_loop (λ st, (st.1.2, st.2)) (offer_step keys key_vals bound)).
  - intros [[t items] heap] row Hr. eexists (_, _, _). split; [|reflexivity].
    eapply yields_then; [apply yields_tick|]. eapply yields_then; [by apply row_keys_yields|apply yields_mret].
  - intros [[t items] heap] Hst. cbn [fst snd] in Hst. rewrite <- Hst in Hi, Hh. cbn [fst snd] in Hi, Hh. subst items.
    pose proof (item_cmp_total keys key_vals rows Htot) as Hit.
    assert (Forall (.∈ numbered key_vals rows) heap) as HD.
    { rewrite Hh. apply Forall_take. rewrite stable_sort_perm. by apply Forall_forall. }
    rewrite (proj2 (total_on_spec _ _) Hit). eapply yields_then; [by apply (sort_by_yields _ _ Hit)|].
    assert (stable_sort (item_cmp keys) heap = take (Z.to_nat bound) (stable_sort (item_cmp keys) (numbered key_vals rows))) as ->.
    { apply (sorted_perm_eq _ _ Hit (item_cmp_strict keys key_vals rows)).
      - by rewrite stable_sort_perm.
      - by apply (stable_sort_sorted _ _ Hit).
      - eapply StronglySorted_app_1_l. rewrite take_drop. apply (stable_sort_sorted _ _ Hit). by apply Forall_forall.
      - by rewrite stable_sort_perm. }
    rewrite sort_numbered, <- firstn_map, map_row_numbered. apply yields_mret.
Qed.
End given.

(** The first rows of the window suffice. *)
Lemma take_drop_take {A} (l : list A) s n : take n (drop s (take (s + n) l)) = take n (drop s l).
Proof. by rewrite <- take_drop_commute, take_take, Nat.min_id. Qed.

End rows.

(** The interruptible sort returns the stable sort, for every input length and
    comparison that totally orders the items, with or without a deadline or a cancel
    flag in scope: sorting runs and merging them changes nothing. *)
Theorem interruptible_sort_stable `{Host, !QuietHost} {A} (cmp : A → A → comparison) items :
  total_on cmp items = true →
  ∃ out, yields (sort_by_interruptible cmp items) out ∧ stable_sorted cmp items out.
Proof.
  intros Htot%total_on_spec. assert (Forall (.∈ items) items) as HD by (by apply Forall_forall).
  exists (stable_sort cmp items). split; [by apply (sort_by_interruptible_yields _ _ Htot)|].
  by apply (stable_sort_stable _ _ Htot).
Qed.
