(* ===== verification/Aggregate.v ===== *)
(** Aggregation ([exec/walker.rs], [execute_aggregate]): grouping by fingerprint and
    the aggregate functions. The groups are a [BTreeMap] keyed by fingerprint, so they
    come out in fingerprint order. *)
From Stdlib Require Import SpecFloat.
From S2P Require Import Prelude Float StorageError Ast RuntimeValue Exec Scalar Functions Expr Fingerprint Operators Sort.

Inductive AggregateExpr :=
| AggCount (arg : option Expression) (distinct : bool)
| AggSum (arg : Expression) (distinct : bool)
| AggAvg (arg : Expression) (distinct : bool)
| AggMin (arg : Expression)
| AggMax (arg : Expression)
| AggCollect (arg : Expression) (distinct : bool)
| AggStdev (arg : Expression) (distinct population : bool)
| AggPercentile (arg percentile : Expression) (continuous : bool).

Section aggregate.
Context `{Host, Libs}.

(** ** Arguments *)

(** A bound variable is borrowed from the row; anything else is evaluated. *)
Definition evaluate_agg_arg (arg : Expression) (row : Row) (params : Params) : exec ExecError RuntimeValue :=
  match expr_kind arg with
  | EVariable id =>
      match Row_get row (id_name id) with
      | Some value => mret value
      | None => ev arg row params
      end
  | _ => ev arg row params
  end.

Definition collect_non_null (rows : list Row) (arg : Expression) (distinct : bool) (params : Params)
    : exec ExecError (list RuntimeValue) :=
  _ ← meter_check;
  '(_, _, out) ← foreach (λ '(ticks, seen, out) row,
      ticks ← tick ticks;
      v ← evaluate_agg_arg arg row params;
      if is_null v then mret (ticks, seen, out)
      else if distinct : bool then
        let fp := fingerprint_value v in
        _ ← meter_check;
        if bool_decide (fp ∈ seen) then mret (ticks, seen, out)
        else
          _ ← meter_check;
          mret (ticks, {[ fp ]} ∪ seen, out ++ [v])
      else
        _ ← meter_check;
        mret (ticks, seen, out ++ [v]))
    rows (DeadlineProbe_new, (∅ : gset string), []);
  mret out.

(** ** Functions *)

Definition sum_overflow : string :=
  "integer overflow in sum(); cast an operand with                              toFloat() to aggregate beyond 64-bit range".

Definition sum_values (vals : list RuntimeValue) : exec ExecError RuntimeValue :=
  '(is_float, i_total, f_total) ← foreach (λ '(is_float, i_total, f_total) v,
      match v with
      | RInteger n =>
          if is_float : bool then mret (is_float, i_total, f64_add f_total (f64_of_int n))
          else if i64_ok (i_total + n) then mret (is_float, i_total + n, f_total)
          else throw (XRuntime sum_overflow)
      | RFloat f =>
          let f_total := if is_float then f_total else f64_of_int i_total in
          mret (true, i_total, f64_add f_total f)
      | _ => throw (XRuntime ("sum/avg requires numeric values, got " +:+ type_name v))
      end) vals (false, 0, S754_zero false);
  mret (match vals with
        | [] => RInteger 0
        | _ => if is_float : bool then RFloat f_total else RInteger i_total
        end).

(** [Iterator::min_by] keeps the first of equal elements, [max_by] the last. *)
Definition min_by {A} (cmp : A → A → comparison) (l : list A) : option A :=
  match l with
  | [] => None
  | x :: l => Some (foldl (λ x y, match cmp x y with Gt => y | _ => x end) x l)
  end.
Definition max_by {A} (cmp : A → A → comparison) (l : list A) : option A :=
  match l with
  | [] => None
  | x :: l => Some (foldl (λ x y, match cmp x y with Gt => x | _ => y end) x l)
  end.

Definition numeric_values (vals : list RuntimeValue) (fname : string) : exec ExecError (list f64) :=
  collect (λ v, match v with
                | RInteger n => mret (f64_of_int n)
                | RFloat f => mret f
                | other => throw (XRuntime (fname +:+ "() requires numeric values, got " +:+ type_name other))
                end) vals.

(** [0.0 <= p && p <= 1.0], false for NaN *)
Definition in_unit (p : f64) : bool :=
  match f64_partial_cmp (S754_zero false) p, f64_partial_cmp p (f64_of_int 1) with
  | Some (Lt | Eq), Some (Lt | Eq) => true
  | _, _ => false
  end.

Definition percentile_fraction (rows : list Row) (e : Expression) (params : Params) : exec ExecError f64 :=
  let row := default Row_new (head rows) in
  v ← ev e row params;
  p ← match v with
      | RInteger n => mret (f64_of_int n)
      | RFloat f => mret f
      | other => throw (XRuntime ("percentile must be a number between 0.0 and 1.0, got " +:+ type_name other))
      end;
  if in_unit p then mret p
  else throw (XRuntime ("percentile must be between 0.0 and 1.0, got " +:+ f64_to_string p)).

(** [xs[i]]: out of range panics. *)
Definition index_at {E A} (l : list A) (i : Z) : exec E A :=
  match l !! Z.to_nat i with Some x => mret x | None => panic end.

Definition len_f64 {A} (l : list A) : f64 := f64_of_int (Z.of_nat (length l)).

Definition stdev_of (nums : list f64) (population : bool) : RuntimeValue :=
  match nums with
  | [] => RNull
  | [_] => RFloat (S754_zero false)
  | _ =>
      let mean := f64_div (f64_sum nums) (len_f64 nums) in
      let ss := f64_sum (map (λ v, f64_mul (f64_sub v mean) (f64_sub v mean)) nums) in
      let denom := if population then len_f64 nums else f64_of_int (Z.of_nat (length nums) - 1) in
      RFloat (f64_sqrt (f64_div ss denom))
  end.

Definition percentile_cont (nums : list f64) (p : f64) : exec ExecError RuntimeValue :=
  nums ← sort_by_interruptible (λ a b, default Eq (f64_partial_cmp a b)) nums;
  let rank := f64_mul p (f64_of_int (Z.of_nat (length nums) - 1)) in
  let lo := f64_as_usize (f64_floor rank) in
  let hi := f64_as_usize (f64_ceil rank) in
  let frac := f64_sub rank (f64_of_int lo) in
  x ← index_at nums lo;
  y ← index_at nums hi;
  mret (RFloat (f64_add x (f64_mul (f64_sub y x) frac))).

Definition percentile_disc (vals : list RuntimeValue) (p : f64) : exec ExecError RuntimeValue :=
  sorted ← sort_by_interruptible (λ a b, order_for_sort a b false) vals;
  let n := Z.of_nat (length sorted) in
  let idx := Z.max 1 (Z.min (f64_as_usize (f64_ceil (f64_mul p (f64_of_int n)))) n) - 1 in
  index_at sorted idx.

Definition count_values (rows : list Row) (e : Expression) (distinct : bool) (params : Params)
    : exec ExecError RuntimeValue :=
  '(_, _, count) ← foreach (λ '(ticks, seen, count) row,
      ticks ← tick ticks;
      v ← evaluate_agg_arg e row params;
      if is_null v then mret (ticks, seen, count)
      else if distinct : bool then
        let fp := fingerprint_value v in
        if bool_decide (fp ∈ seen) then mret (ticks, seen, count)
        else mret (ticks, {[ fp ]} ∪ seen, count + 1)
      else mret (ticks, seen, count + 1))
    rows (DeadlineProbe_new, (∅ : gset string), 0);
  mret (RInteger count).

Definition aggregate_over (rows : list Row) (agg : AggregateExpr) (params : Params) : exec ExecError RuntimeValue :=
  match agg with
  | AggCount None _ => mret (RInteger (Z.of_nat (length rows)))
  | AggCount (Some e) distinct => count_values rows e distinct params
  | AggSum arg distinct => vals ← collect_non_null rows arg distinct params; sum_values vals
  | AggAvg arg distinct =>
      vals ← collect_non_null rows arg distinct params;
      match vals with
      | [] => mret RNull
      | _ =>
          total ← sum_values vals;
          mret (match total with
                | RInteger n => RFloat (f64_div (f64_of_int n) (len_f64 vals))
                | RFloat f => RFloat (f64_div f (len_f64 vals))
                | _ => RNull
                end)
      end
  | AggMin arg =>
      vals ← collect_non_null rows arg false params;
      mret (default RNull (min_by (λ a b, order_for_sort a b false) vals))
  | AggMax arg =>
      vals ← collect_non_null rows arg false params;
      mret (default RNull (max_by (λ a b, order_for_sort a b false) vals))
  | AggCollect arg distinct => vals ← collect_non_null rows arg distinct params; mret (RList vals)
  | AggStdev arg distinct population =>
      vals ← collect_non_null rows arg distinct params;
      nums ← numeric_values vals (if population then "stdevp" else "stdev");
      mret (stdev_of nums population)
  | AggPercentile arg percentile continuous =>
      vals ← collect_non_null rows arg false params;
      match vals with
      | [] => mret RNull
      | _ =>
          p ← percentile_fraction rows percentile params;
          nums ← numeric_values vals (if continuous then "percentileCont" else "percentileDisc");
          if continuous then percentile_cont nums p else percentile_disc vals p
      end
  end.

(** ** Groups *)

(** The values of the group keys, and their fingerprints, each followed by [|]. *)
Fixpoint group_key (group_by : list (Expression * string)) (row : Row) (params : Params)
    : exec ExecError (string * list RuntimeValue) :=
  match group_by with
  | [] => mret ("", [])
  | (expr, _) :: group_by =>
      v ← ev expr row params;
      '(fingerprint, vals) ← group_key group_by row params;
      mret (fingerprint_value v +:+ "|" +:+ fingerprint, v :: vals)
  end.

Abbreviation groups := (btree (list RuntimeValue * list Row)).

Definition build_groups (rows : list Row) (group_by : list (Expression * string)) (params : Params)
    : exec ExecError (Z * groups) :=
  foreach (λ '(ticks, gs) row,
      ticks ← tick ticks;
      '(fingerprint, key_vals) ← group_key group_by row params;
      match btree_get fingerprint gs with
      | Some (vals, group_rows) => mret (ticks, btree_insert fingerprint (vals, group_rows ++ [row]) gs)
      | None =>
          _ ← meter_check;
          mret (ticks, btree_insert fingerprint (key_vals, [row]) gs)
      end) rows (DeadlineProbe_new, []).

(** [row.set(alias, aggregate_over(..)?)] for every aggregation *)
Definition set_aggregates (aggregations : list (string * AggregateExpr)) (group_rows : list Row)
    (params : Params) (row : Row) : exec ExecError Row :=
  foreach (λ row '(alias, agg),
      v ← aggregate_over group_rows agg params;
      mret (Row_set row alias v)) aggregations row.

Definition key_row (group_by : list (Expression * string)) (key_vals : list RuntimeValue) : Row :=
  foldl (λ row '((_, alias), v), Row_set row alias v) Row_new (zip group_by key_vals).

Definition execute_aggregate (rows : list Row) (group_by : list (Expression * string))
    (aggregations : list (string * AggregateExpr)) (params : Params) : exec ExecError (list Row) :=
  '(ticks, gs) ← build_groups rows group_by params;
  match gs, group_by with
  | [], [] =>
      row ← set_aggregates aggregations [] params Row_new;
      mret [row]
  | _, _ =>
      '(_, out) ← foreach (λ '(ticks, out) '(_, (key_vals, group_rows)),
          ticks ← tick ticks;
          row ← set_aggregates aggregations group_rows params (key_row group_by key_vals);
          let out := out ++ [row] in
          _ ← meter_check;
          mret (ticks, out)) gs (ticks, []);
      mret out
  end.
End aggregate.
