(* ===== verification/AggregateFacts.v ===== *)
(** Aggregation against its specification: the groups are the classes of rows with
    the same key values, and integer sums are exact or an error. *)
From Stdlib Require Import SpecFloat.
From S2P Require Import Prelude Float StorageError Ast RuntimeValue Exec Scalar Functions Expr ExprFacts Fingerprint Operators OperatorFacts Rewrites JoinRewrite Sort SortFacts OrderBy Aggregate.

(** ** Sums *)

Definition total (ns : list Z) : Z := foldr Z.add 0 ns.
(** The running totals from [acc]. *)
Fixpoint running (acc : Z) (ns : list Z) : list Z :=
  match ns with [] => [] | x :: ns => acc + x :: running (acc + x) ns end.

Section sums.
Context `{Host, Libs}.

(** C24: [sum] over integers returns their exact sum when every running total fits in
    64 bits, and the overflow error otherwise; it never wraps around. *)
Theorem sum_exact ns n :
  (sum_values (map RInteger ns) n).1
  = if forallb i64_ok (running 0 ns) then Some (Ok (RInteger (total ns)))
    else Some (Err (XRuntime sum_overflow)).
Proof.
  unfold sum_values, mbind at 1, exec_bind at 1.
  set (body := λ '(is_float, i_total, f_total) v, _).
  assert (∀ ns acc, foreach body (map RInteger ns) (false, acc, S754_zero false) n
    = if forallb i64_ok (running acc ns) then (Some (Ok (false, acc + total ns, S754_zero false)), n)
      else (Some (Err (XRuntime sum_overflow)), n)) as Hloop.
  { clear ns. intros ns. induction ns as [|x ns IH]; intros acc; [by cbn; rewrite Z.add_0_r|].
    cbn [map foreach running forallb]. unfold mbind at 1, exec_bind at 1. unfold body at 1.
    destruct (i64_ok (acc + x)); [|done]. cbn [andb].
    etransitivity; [apply (IH (acc + x))|]. unfold total. cbn [foldr]. by rewrite Z.add_assoc. }
  rewrite Hloop. destruct (forallb i64_ok (running 0 ns)); [|done]. by destruct ns.
Qed.
End sums.

(** ** Groups *)

(** An entry of an ordered map is what its key is bound to. *)
Lemma btree_get_entry {V} k (v : V) m : keys_sorted m = true → (k, v) ∈ m → btree_get k m = Some v.
Proof.
  induction m as [|[j w] m IH]; intros Hs Hin; [by apply not_elem_of_nil in Hin|].
  apply elem_of_cons in Hin as [[= <- <-]|Hin]; cbn [btree_get]; [by rewrite String.eqb_refl|].
  destruct (String.eqb_spec k j) as [->|]; [|apply IH; [by apply keys_sorted_cons in Hs as []|done]].
  exfalso. apply keys_sorted_cons in Hs as [Hs Hj]. specialize (IH Hs Hin).
  destruct m as [|[i u] m]; [done|]. by rewrite (btree_get_below i j u m) in IH.
Qed.
Lemma keys_sorted_NoDup {V} (m : btree V) : keys_sorted m = true → NoDup (map fst m).
Proof.
  induction m as [|[j w] m IH]; intros Hs; [constructor|]. pose proof Hs as Hs'.
  apply keys_sorted_cons in Hs' as [Hm Hj]. cbn. constructor; [|by apply IH].
  intros ([k v] & Hk & Hin)%list_elem_of_In%in_map_iff. cbn in Hk. subst k.
  apply list_elem_of_In, (btree_get_entry _ _ _ Hm) in Hin.
  destruct m as [|[i u] m]; [done|]. by rewrite (btree_get_below i j u m) in Hin.
Qed.

Section groups.
Context `{HH : Host, HL : Libs, HQ : !QuietHost, HS : !SteadyHost, HU : !UuidText}.
Context (group_by : list (Expression * string)) (params : Params).

(** The values of the group keys on a row, and the fingerprint of the group. *)
Definition keys_of (row : Row) : list RuntimeValue := map (λ ea, value_of params ea.1 row) group_by.
Definition keys_text (vals : list RuntimeValue) : string :=
  foldr (λ v s, fingerprint_value v +:+ "|" +:+ s) "" vals.
Definition fp_of (row : Row) : string := keys_text (keys_of row).

Lemma keys_text_faithful xs ys :
  Forall sound xs → Forall sound ys → length xs = length ys →
  keys_text xs = keys_text ys ↔ Forall2 same_value xs ys.
Proof.
  intros Hx Hy Hl. split.
  - revert ys Hy Hl. induction Hx as [|x xs Hx Hxs IH]; intros [|y ys] Hy Hl Heq; try discriminate; [constructor|].
    inversion Hy as [|? ? Hy1 Hys]; subst. injection Hl as Hl. cbn in Heq.
    apply fingerprint_decodable in Heq as [Hs Heq]; [|done..]. injection Heq as Heq.
    constructor; [done|]. by apply IH.
  - clear. induction 1 as [|x y xs ys Hxy _ IH]; [done|]. unfold keys_text in *. cbn [foldr].
    by rewrite IH, (same_fingerprint x y).
Qed.

Lemma group_key_yields row :
  (∀ e alias, (e, alias) ∈ group_by → defined params e row) →
  yields (group_key group_by row params) (fp_of row, keys_of row).
Proof.
  unfold fp_of, keys_of. induction group_by as [|[e alias] gb IH]; intros Hd; cbn [group_key]; [apply yields_mret|].
  eapply yields_then; [apply yields_ev, (Hd e alias); set_solver|].
  eapply yields_then; [apply IH; intros e' a' Hin; apply (Hd e' a'); set_solver|]. apply yields_mret.
Qed.

(** The rows of one class, in order. *)
Definition class_of (rows : list Row) (fp : string) : list Row :=
  List.filter (λ row, bool_decide (fp_of row = fp)) rows.
Definition class_entry (rows : list Row) (fp : string) : option (list RuntimeValue * list Row) :=
  match class_of rows fp with [] => None | row :: rest => Some (keys_of row, row :: rest) end.

Definition group_push (gs : btree (list RuntimeValue * list Row)) (row : Row) : btree (list RuntimeValue * list Row) :=
  match btree_get (fp_of row) gs with
  | Some (vals, rs) => btree_insert (fp_of row) (vals, rs ++ [row]) gs
  | None => btree_insert (fp_of row) (keys_of row, [row]) gs
  end.

Lemma class_entry_snoc rows row fp :
  class_entry (rows ++ [row]) fp
  = if String.eqb fp (fp_of row) then
      Some match class_entry rows fp with Some (vals, rs) => (vals, rs ++ [row]) | None => (keys_of row, [row]) end
    else class_entry rows fp.
Proof.
  unfold class_entry, class_of. rewrite List.filter_app. cbn [List.filter].
  destruct (String.eqb_spec fp (fp_of row)) as [->|Hne].
  - rewrite bool_decide_true by done. by destruct (List.filter _ rows).
  - rewrite bool_decide_false by done. by rewrite app_nil_r.
Qed.

(** The table of groups after the rows [pre]. *)
Lemma group_push_classes pre :
  keys_sorted (foldl group_push [] pre) = true ∧
  ∀ fp, btree_get fp (foldl group_push [] pre) = class_entry pre fp.
Proof.
  induction pre as [|row pre [Hs Hg]] using rev_ind; [done|]. rewrite foldl_app. cbn [foldl].
  unfold group_push at 1 3. rewrite !Hg. split.
  - destruct (class_entry pre (fp_of row)) as [[vals rs]|]; by apply btree_insert_sorted.
  - intros fp. rewrite class_entry_snoc.
    destruct (String.eqb_spec fp (fp_of row)) as [->|Hne].
    + destruct (class_entry pre (fp_of row)) as [[vals rs]|]; by rewrite btree_get_insert, String.eqb_refl.
    + rewrite <- (Hg fp). destruct (class_entry pre (fp_of row)) as [[vals rs]|];
        rewrite btree_get_insert; by destruct (String.eqb_spec fp (fp_of row)).
Qed.

(** ** The output rows *)

Context (aggregations : list (string * AggregateExpr)) (aggval : AggregateExpr → list Row → RuntimeValue).

Definition aggregates_row (rs : list Row) (row : Row) : Row :=
  foldl (λ row aa, Row_set row aa.1 (aggval aa.2 rs)) row aggregations.
(** The row of a group: the key values of its first row, then the aggregates. *)
Definition group_row (rs : list Row) : Row :=
  aggregates_row rs (key_row group_by (from_option keys_of [] (head rs))).

Lemma set_aggregates_yields rs row :
  (∀ agg, agg ∈ map snd aggregations → yields (aggregate_over rs agg params) (aggval agg rs)) →
  yields (set_aggregates aggregations rs params row) (aggregates_row rs row).
Proof.
  intros Hagg. apply yields_exact.
  apply (yields_foreach_post id (λ row aa, Row_set row aa.1 (aggval aa.2 rs))); [|done].
  intros r [alias agg] Hin. eexists. split; [|reflexivity].
  eapply yields_then; [apply Hagg|apply yields_mret].
  by apply list_elem_of_In, (in_map snd _ (alias, agg)), list_elem_of_In in Hin.
Qed.

Lemma build_groups_yields rows :
  (∀ row e alias, row ∈ rows → (e, alias) ∈ group_by → defined params e row) →
  ∃ st, yields (build_groups rows group_by params) st ∧ st.2 = foldl group_push [] rows.
Proof.
  intros Hd. apply (yields_foreach_post snd group_push); [|done].
  intros [t gs] row Hr. unfold group_push. cbn [snd].
  pose proof (group_key_yields row (λ e alias, Hd row e alias Hr)) as Hk.
  destruct (btree_get (fp_of row) gs) as [[vals rs]|] eqn:Hg; eexists (_, _); (split; [|reflexivity]).
  all: eapply yields_then; [apply yields_tick|]; eapply yields_then; [exact Hk|]; cbv beta iota; rewrite Hg.
  - apply yields_mret.
  - eapply yields_then; [apply yields_meter|apply yields_mret].
Qed.

(** [gs] are the classes of [rows] by key values: every group is the rows with the
    keys of one row, every row is in one, and different groups have different keys. *)
Record grouping (rows : list Row) (gs : list (list Row)) : Prop := {
  grouping_classes : ∀ g, g ∈ gs → ∃ row, row ∈ rows ∧ g = class_of rows (fp_of row);
  grouping_complete : ∀ row, row ∈ rows → class_of rows (fp_of row) ∈ gs;
  grouping_distinct : NoDup (map (λ g, fp_of <$> head g) gs);
}.

Lemma class_of_head rows row : row ∈ rows →
  ∃ first rest, class_of rows (fp_of row) = first :: rest ∧ fp_of first = fp_of row ∧ first ∈ rows.
Proof.
  intros Hr. assert (row ∈ class_of rows (fp_of row)) as Hin.
  { apply list_elem_of_In, filter_In. split; [by apply list_elem_of_In|by apply bool_decide_true]. }
  destruct (class_of rows (fp_of row)) as [|first rest] eqn:Hc; [by apply not_elem_of_nil in Hin|].
  exists first, rest. split; [done|]. assert (first ∈ class_of rows (fp_of row)) as Hf by (rewrite Hc; set_solver).
  apply list_elem_of_In, filter_In in Hf as [Hf Hb]. apply bool_decide_eq_true in Hb.
  split; [done|by apply list_elem_of_In].
Qed.

(** The entries of the table. *)
Lemma table_entries rows fp vals rs :
  (fp, (vals, rs)) ∈ foldl group_push [] rows →
  rs = class_of rows fp ∧ vals = from_option keys_of [] (head rs) ∧ ∃ row, row ∈ rows ∧ fp = fp_of row ∧ head rs = Some row.
Proof.
  destruct (group_push_classes rows) as [Hs Hg]. intros Hin%(btree_get_entry _ _ _ Hs).
  rewrite Hg in Hin. unfold class_entry in Hin. destruct (class_of rows fp) as [|row rest] eqn:Hc; [done|].
  injection Hin as <- <-. split; [done|]. split; [done|]. exists row.
  assert (row ∈ class_of rows fp) as Hrow by (rewrite Hc; set_solver).
  apply list_elem_of_In, filter_In in Hrow as [Hrow Hb]. apply bool_decide_eq_true in Hb.
  split; [by apply list_elem_of_In|done].
Qed.

Lemma table_grouping rows : grouping rows (map (λ e, e.2.2) (foldl group_push [] rows)).
Proof.
  destruct (group_push_classes rows) as [Hs Hg]. split.
  - intros g ([fp [vals rs]] & <- & Hin%list_elem_of_In)%list_elem_of_In%in_map_iff.
    apply table_entries in Hin as (-> & _ & row & Hr & -> & _). by exists row.
  - intros row Hr. destruct (class_of_head rows row Hr) as (first & rest & Hc & _ & _).
    specialize (Hg (fp_of row)). unfold class_entry in Hg. rewrite Hc in Hg.
    apply btree_get_in in Hg. rewrite Hc. apply list_elem_of_In, in_map_iff.
    exists (fp_of row, (keys_of first, first :: rest)). split; [done|by apply list_elem_of_In].
  - rewrite map_map. erewrite (map_ext_in _ (λ e, Some e.1)).
    + rewrite <- (map_map fst Some). apply NoDup_fmap; [apply _|]. by apply keys_sorted_NoDup.
    + intros [fp [vals rs]] Hin%list_elem_of_In. apply table_entries in Hin as (_ & _ & row & _ & -> & Hh).
      cbn in Hh |- *. by rewrite Hh.
Qed.

Lemma class_of_sublist rows fp : class_of rows fp `sublist_of` rows.
Proof.
  unfold class_of. induction rows as [|row rows IH]; [done|]. cbn. destruct (bool_decide _); by constructor.
Qed.

Lemma fp_of_same (rows : list Row) :
  (∀ row e alias, row ∈ rows → (e, alias) ∈ group_by → defined params e row ∧ sound (value_of params e row)) →
  ∀ r r', r ∈ rows → r' ∈ rows → fp_of r = fp_of r' ↔ Forall2 same_value (keys_of r) (keys_of r').
Proof.
  intros Hd r r' Hr Hr'. apply keys_text_faithful; [..|by unfold keys_of; rewrite !length_map].
  all: apply Forall_forall; intros v ([e alias] & <- & Hin%list_elem_of_In)%list_elem_of_In%in_map_iff.
  - by apply (Hd r e alias).
  - by apply (Hd r' e alias).
Qed.
Lemma no_groups_no_rows rows : foldl group_push [] rows = [] → rows = [].
Proof.
  intros Hgs. destruct rows as [|row rows]; [done|]. destruct (group_push_classes (row :: rows)) as [_ Hg].
  specialize (Hg (fp_of row)). rewrite Hgs in Hg. unfold class_entry in Hg.
  by destruct (class_of_head (row :: rows) row) as (? & ? & Hc & _); [set_solver|rewrite Hc in Hg].
Qed.

(** C19: aggregation groups the input by key values: the output has one row per class
    of rows whose key values are the same, the rows of a class are aggregated in
    input order, the keys are those of the first of them, and no class is split or
    repeated. With no input rows and no keys it returns one row, aggregating none. *)
Theorem aggregate_by_class rows :
  (∀ row e alias, row ∈ rows → (e, alias) ∈ group_by → defined params e row ∧ sound (value_of params e row)) →
  (∀ rs agg, rs `sublist_of` rows → agg ∈ map snd aggregations → yields (aggregate_over rs agg params) (aggval agg rs)) →
  (∀ r r', r ∈ rows → r' ∈ rows → fp_of r = fp_of r' ↔ Forall2 same_value (keys_of r) (keys_of r')) ∧
  ∃ gs, yields (execute_aggregate rows group_by aggregations params) (map group_row gs) ∧
    ((rows = [] ∧ group_by = [] ∧ gs = [[]]) ∨ ((rows ≠ [] ∨ group_by ≠ []) ∧ grouping rows gs)).
Proof.
  intros Hd Hagg. split; [by apply fp_of_same|].
  destruct (build_groups_yields rows) as ([t gs] & Hy & Hgs).
  { intros row e alias Hr Hin. by apply (Hd row e alias). }
  cbn [snd] in Hgs. unfold execute_aggregate.
  destruct (decide (gs = [] ∧ group_by = [])) as [[-> Hgb]|Hne].
  - exists [[]]. assert (rows = []) as -> by (by apply no_groups_no_rows).
    split; [|by left]. eapply yields_then; [exact Hy|]. rewrite Hgb. cbn [map].
    eapply yields_then; [apply set_aggregates_yields|].
    + intros agg Hin. by apply Hagg.
    + unfold group_row. cbn [head from_option]. rewrite Hgb. apply yields_mret.
  - exists (map (λ e, e.2.2) gs). split; [|right].
    2: { subst gs. split; [|apply table_grouping]. destruct rows; [right|by left]. intros ->. by apply Hne. }
    eapply yields_then; [exact Hy|]. cbv beta iota.
    assert (∀ a b : exec ExecError (list Row), match gs, group_by with [], [] => a | _, _ => b end = b) as ->.
    { intros a b. destruct gs, group_by; try done. by destruct Hne. }
    apply (yields_loop snd (λ out e, out ++ [group_row e.2.2])).
    + intros [t1 out] [fp [vals rs]] Hin. eexists (_, _). split; [|reflexivity].
      rewrite Hgs in Hin. apply table_entries in Hin as (Hrs & -> & _).
      eapply yields_then; [apply yields_tick|]. eapply yields_then; [apply set_aggregates_yields|].
      { intros agg Ha. apply Hagg; [|done]. rewrite Hrs. apply class_of_sublist. }
      eapply yields_then; [apply yields_meter|apply yields_mret].
    + intros [t1 out] Ho. cbn [snd] in Ho. rewrite (foldl_push (λ e, [group_row e.2.2])) in Ho. cbn [app] in Ho.
      rewrite Ho, concat_singletons, map_map. apply yields_mret.
Qed.
End groups.
