(* ===== verification/QueryExample.v ===== *)
(** Concrete hosts, library functions and queries: the hypotheses of the query
    theorems hold at them. *)
From Stdlib Require Import SpecFloat.
From S2P Require Import Prelude Float StorageError Paths Ast RuntimeValue Exec Scalar Functions Expr ExprFacts ExprLogic ExprTyping Fingerprint Operators OperatorFacts Rewrites JoinRewrite Distinct Sort SortFacts OrderBy Aggregate AggregateFacts.

(** ** A host and a library *)

(** No deadline that passes, no cancel, no cap, no budget. *)
Definition calm : Host := {|
  cancel_flag := Some (λ _, false);
  deadline := None;
  instant_now := λ _, 0;
  scoped_row_cap := None;
  memory_scoped := false;
  transient_excess := λ _ _, None;
  meter_excess := λ _, None;
  unspecified_order := λ _, None;
  system_time := λ _, 0 |}.

(** Hexadecimal UUIDs, ASCII case mapping, and the other functions partial. *)
Definition plain : Libs := {|
  powf := λ a _, a;
  f64_to_string := λ _, "0";
  f64_from_str := λ _, None;
  to_lowercase := to_ascii_lowercase;
  to_uppercase := λ s, s;
  regex_new := λ _, Err "unsupported";
  format_date := λ _, None;
  format_datetime := λ _, None;
  parse_from_rfc3339 := λ _, None;
  parse_naive_datetime := λ _ _, None;
  parse_naive_date := λ _, None;
  uuid_to_string := λ u, pad_hex (u / 2 ^ 64 mod 2 ^ 64) 16 +:+ "----" +:+ pad_hex (u mod 2 ^ 64) 16;
  bm25_score := λ _ _, S754_zero false;
  value_size := 32 |}.

#[local] Existing Instances calm plain.

#[local] Instance calm_quiet : QuietHost.
Proof. done. Qed.
#[local] Instance calm_steady : SteadyHost.
Proof. done. Qed.
#[local] Instance plain_typed : LibsTyped.
Proof. done. Qed.
#[local] Instance plain_uuid : UuidText.
Proof.
  assert (∀ u, 0 ≤ u mod 2 ^ 64 < 16 ^ Z.of_nat 16) as Hr by (intros u; by apply Z.mod_pos_bound).
  split.
  - intros u. cbn [uuid_to_string plain]. rewrite !string_length_app, !pad_hex_width by (lia || apply Hr).
    by rewrite !hex_fixed_length.
  - intros a b Ha Hb Heq. cbn [uuid_to_string plain] in Heq.
    apply hex_split in Heq as [Hh Heq]; [|lia|apply Hr..].
    apply fixed_split in Heq as [_ Heq]; [|done].
    rewrite <- (string_app_nil_r (pad_hex (a mod 2 ^ 64) 16)), <- (string_app_nil_r (pad_hex (b mod 2 ^ 64) 16)) in Heq.
    apply hex_split in Heq as [Hl _]; [|lia|apply Hr..].
    unfold uuid_ok in Ha, Hb. rewrite andb_true_iff, Z.leb_le, Z.ltb_lt in Ha, Hb.
    assert (∀ u, 0 ≤ u < 2 ^ 128 → u / 2 ^ 64 mod 2 ^ 64 = u / 2 ^ 64) as Hd.
    { intros u Hu. apply Z.mod_small. split; [apply Z.div_pos|apply Z.div_lt_upper_bound]; lia. }
    rewrite !Hd in Hh by done. rewrite (Z.div_mod a (2 ^ 64)), (Z.div_mod b (2 ^ 64)) by done. congruence.
Qed.

(** ** Expressions *)

Definition no_span : SourceSpan := {| sp_start := 0; sp_end := 0 |}.
Definition ident (name : string) : Identifier := {| id_name := name; id_span := no_span; id_quoted := false |}.
Definition expr (kind : ExpressionKind) : Expression := mkExpression kind no_span.
Definition var (name : string) : Expression := expr (EVariable (ident name)).
Definition int (n : Z) : Expression := expr (ELiteral (LInteger n)).
Definition bin (op : BinaryOp) (a b : Expression) : Expression := expr (EBinary op a b).
Definition row_of (entries : list (string * RuntimeValue)) : Row :=
  foldl (λ row kv, Row_set row kv.1 kv.2) Row_new entries.

(** Case analysis on the members of concrete lists. *)
Ltac members :=
  repeat intro; repeat match goal with
  | H : @elem_of _ (list _) _ ?x ?l |- _ =>
      let l' := eval hnf in l in
      match l' with
      | [] => by apply not_elem_of_nil in H
      | _ :: _ => change (x ∈ l') in H; apply elem_of_cons in H as [->|H]
      end
  end.

Definition sum : Expression := bin Add (var "x") (int 1).
Definition row_x : Row := row_of [("x", RInteger 41)].



Lemma evaluate_frame_witness :
  evaluate sum row_x [] ≈ evaluate sum (row_of [("x", RInteger 41); ("y", RNull)]) [].
Proof.
  apply (evaluate_frame sum). intros z Hz. assert (z = "x") as ->; [|reflexivity].
  unfold expression_aliases in Hz. cbn in Hz. set_solver.
Defined.

(** [any(x IN [1, NULL] WHERE x = 2)] is NULL. *)
Definition is_two (v : RuntimeValue) : RuntimeValue := if is_null v then RNull else RBool (is_equal v (RInteger 2)).
Lemma quantifier_three_valued_witness :
  (evaluate (expr (EQuantifier QAny (ident "x") (expr (EList [int 1; expr (ELiteral LNull)]))
     (bin Eq_ (var "x") (int 2)) no_span)) Row_new [] 0%nat).1 = Some (Ok RNull).
Proof.
  refine (quantifier_three_valued QAny (ident "x") _ _ no_span no_span Row_new [] 0%nat 0%nat [RInteger 1; RNull] is_two _ _).
  - reflexivity.
  - members; reflexivity.
Defined.

Lemma range_progression_witness :
  let r := (range_fn [RInteger 1; RInteger 6; RInteger 2] no_span 0%nat).1 in
  let items := range_items 1 6 2 in
  (r = Some (Ok (RList items)) ∧ ∀ cap, scoped_row_cap = Some cap → Z.of_nat (length items) ≤ cap) ∨
  ((∃ e, r = Some (Err e)) ∧
   ((∃ cap, scoped_row_cap = Some cap ∧ cap ≤ Z.of_nat (length items)) ∨
    (∃ k, interrupted k ≠ None) ∨
    (memory_scoped = true ∧ ∃ k bytes, transient_excess k bytes ≠ None))).
Proof. apply (range_progression 1 6 2 no_span 0%nat); [lia|reflexivity..]. Defined.

Lemma fingerprint_faithful_witness :
  fingerprint_value (RList [RInteger 1; RString "a,"]) = fingerprint_value (RList [RInteger 1; RString "a,"])
  ↔ same_value (RList [RInteger 1; RString "a,"]) (RList [RInteger 1; RString "a,"]).
Proof. apply fingerprint_faithful; reflexivity. Defined.

(** ** Rows *)

Definition a_row (v : RuntimeValue) : Row := row_of [("a", v)].
Definition b_row (v : RuntimeValue) : Row := row_of [("b", v)].

Lemma distinct_keeps_first_witness :
  ∃ out, yields (dedup_rows [a_row (RInteger 1); a_row (RInteger 2); a_row (RInteger 1)]) out ∧
    first_occurrences same_row [a_row (RInteger 1); a_row (RInteger 2); a_row (RInteger 1)] out.
Proof.
  apply (distinct_keeps_first ["a"]). apply Forall_forall. members; (split; [reflexivity|by repeat constructor]).
Defined.

Definition merged : Expression := bin And (bin Gt_ (var "a") (int 1)) (bin Lt_ (var "a") (int 9)).
Lemma merged_filter_sound_witness :
  yields (filter_rows merged [] [a_row (RInteger 1); a_row (RInteger 2)]) [a_row (RInteger 2)] ↔
  yields (mid ← filter_rows (bin Gt_ (var "a") (int 1)) [] [a_row (RInteger 1); a_row (RInteger 2)];
          filter_rows (bin Lt_ (var "a") (int 9)) [] mid) [a_row (RInteger 2)] ∧
  (∀ row, row ∈ [a_row (RInteger 1); a_row (RInteger 2)] → defined [] (bin Lt_ (var "a") (int 9)) row).
Proof. apply merged_filter_sound. vm_compute. reflexivity. Defined.

(** [WHERE a = b] over [a] in 1, 2 and [b] in 2, NULL. *)
Definition equi : Expression := bin Eq_ (var "a") (var "b").
Definition a_rows : list Row := [a_row (RInteger 1); a_row (RInteger 2)].
Definition b_rows : list Row := [b_row (RInteger 2); b_row RNull].

Lemma binds_a v : binds {["a"]} (a_row v).
Proof.
  split; [reflexivity|]. intros x [w Hw]. unfold Row_get in Hw. cbn in Hw.
  destruct (String.eqb_spec x "a"); [set_solver|done].
Qed.
Lemma binds_b v : binds {["b"]} (b_row v).
Proof.
  split; [reflexivity|]. intros x [w Hw]. unfold Row_get in Hw. cbn in Hw.
  destruct (String.eqb_spec x "b"); [set_solver|done].
Qed.

Lemma join_conversion_sound_witness :
  ∃ out, yields (hash_join a_rows b_rows [{| build_side := var "a"; probe_side := var "b" |}] None []) out ∧
    out ≡ₚ [row_of [("a", RInteger 2); ("b", RInteger 2)]].
Proof.
  refine (join_conversion_sound [] {["a"]} {["b"]} true equi _ _ a_rows b_rows _ _ _ _ _ _ _ _).
  - vm_compute. reflexivity.
  - set_solver.
  - apply Forall_forall. members; apply binds_a.
  - apply Forall_forall. members; apply binds_b.
  - members; (split; [try intros n; reflexivity|by repeat constructor]).
  - members; (split; [try intros n; reflexivity|by repeat constructor]).
  - intros n. vm_compute. reflexivity.
Defined.

Lemma semi_join_exists_witness :
  yields (hash_semi_join a_rows b_rows [{| build_side := var "b"; probe_side := var "a" |}] true None [])
         [a_row (RInteger 1)].
Proof.
  refine (semi_join_exists [] [{| build_side := var "b"; probe_side := var "a" |}] None true a_rows b_rows _ _ _).
  - members; (split; [try intros n; reflexivity|by repeat constructor]).
  - members; (split; [try intros n; reflexivity|by repeat constructor]).
  - discriminate.
Defined.

(** [ORDER BY a DESC SKIP 1 LIMIT 1] over 2, NULL, 5: NULL, 5, 2. *)
Definition by_a : list OrderKey := [{| ok_expression := var "a"; ok_direction := Desc |}].
Definition unordered : list Row := [a_row (RInteger 2); a_row RNull; a_row (RInteger 5)].


Lemma interruptible_sort_stable_witness :
  ∃ out, yields (sort_by_interruptible Z.compare [3; 1; 2]) out ∧ stable_sorted Z.compare [3; 1; 2] out.
Proof. apply interruptible_sort_stable. vm_compute. reflexivity. Defined.

(** Rows counted by [a]. *)
Definition count_all : list (string * AggregateExpr) := [("n", AggCount None false)].
Definition group_size (_ : AggregateExpr) (rs : list Row) : RuntimeValue := RInteger (Z.of_nat (length rs)).

Lemma aggregate_by_class_witness :
  ∃ gs, yields (execute_aggregate unordered [(var "a", "a")] count_all [])
          (map (group_row [(var "a", "a")] [] count_all group_size) gs) ∧
    ((unordered = [] ∧ [(var "a", "a")] = [] ∧ gs = [[]]) ∨
     ((unordered ≠ [] ∨ [(var "a", "a")] ≠ []) ∧ grouping [(var "a", "a")] [] unordered gs)).
Proof.
  refine (proj2 (aggregate_by_class [(var "a", "a")] [] count_all group_size unordered _ _)).
  - intros row e alias Hr [= -> ->]%list_elem_of_singleton. members; (split; [intros n; reflexivity|by repeat constructor]).
  - intros rs agg _ Ha. members; reflexivity.
Defined.
