(* ===== verification/QueryHazards.v ===== *)
(** Where the executor and the optimizer do not do what they mean to.

    Integer [%] by zero stops the process, the join conversion loses rows whose keys
    are an integer and the equal float, merging filters evaluates a predicate on
    rows the query filters out, and the sort's comparison is not a total order. *)
From Stdlib Require Import SpecFloat.
From S2P Require Import Prelude Float StorageError Paths Ast RuntimeValue Exec Scalar Functions Expr ExprFacts Fingerprint Operators OperatorFacts Rewrites JoinRewrite Sort SortFacts OrderBy QueryExample.

(** ** Division *)

(** C26: on integers, [x % y] panics exactly when [y] is zero or [x] is the least
    integer and [y] is -1, and [x / y] exactly in the second case: division by zero
    is an error value for [/], but a panic for [%]. *)
Theorem integer_division_panics `{Host, Libs} x y span n :
  ((eval_binary Mod (RInteger x) (RInteger y) span n).1 = None ↔ y = 0 ∨ (x = i64_min ∧ y = -1)) ∧
  ((eval_binary Div (RInteger x) (RInteger y) span n).1 = None ↔ x = i64_min ∧ y = -1) ∧
  (eval_binary Div (RInteger x) (RInteger 0) span n).1
  = Some (Err (EvalError_new "integer division by zero" span)).
Proof.
  cbn [eval_binary is_null orb arith arith_div]. unfold rem_euclid, int_div.
  assert (div_panics x y = true ↔ y = 0 ∨ (x = i64_min ∧ y = -1)) as Hp.
  { unfold div_panics. by rewrite orb_true_iff, andb_true_iff, !Z.eqb_eq. }
  split; [|split].
  - rewrite <- Hp. by destruct (div_panics x y).
  - destruct (decide (y = 0)) as [->|Hy]; [by split; [|intros [_ ?]]|].
    assert (div_panics x y = true ↔ x = i64_min ∧ y = -1) as <- by (rewrite Hp; naive_solver).
    destruct y; [done|..]; by destruct (div_panics x _).
  - done.
Qed.

(** ** Plans *)

#[local] Existing Instances calm plain.

Definition one : list Row := [a_row (RInteger 1)].
Definition one_point_zero : list Row := [b_row (RFloat (f64_of_int 1))].


(** Merging filters can fail a query that succeeds without it: [a > 0] protects
    [10 / a = 5], but the merged filter divides on the row where [a] is zero. *)
Theorem merged_filter_fails :
  ∃ combined, merged_predicate (bin Gt_ (var "a") (int 0)) (bin Eq_ (bin Div (int 10) (var "a")) (int 5)) = Some combined ∧
    yields (mid ← filter_rows (bin Gt_ (var "a") (int 0)) [] [a_row (RInteger 0); a_row (RInteger 2)];
            filter_rows (bin Eq_ (bin Div (int 10) (var "a")) (int 5)) [] mid) [a_row (RInteger 2)] ∧
    ∀ n, (filter_rows combined [] [a_row (RInteger 0); a_row (RInteger 2)] n).1
         = Some (Err (XEval (EvalError_new "integer division by zero" no_span))).
Proof.
  eexists. split; [vm_compute; reflexivity|]. split; intros n; vm_compute; reflexivity.
Qed.

(** The comparison of ORDER BY is not a total order on values of different types,
    on floats with NaN, or on integers and floats beyond 53 bits, so the sort's
    contract is broken and it may panic or return any order. *)
Theorem sort_order_not_total :
  total_on (λ a b, order_for_sort a b false) [RInteger 1; RString "x"; RInteger 2] = false ∧
  total_on (λ a b, order_for_sort a b false) [RFloat (f64_of_int 1); RFloat S754_nan; RFloat (f64_of_int 2)] = false ∧
  total_on (λ a b, order_for_sort a b false)
    [RInteger (2 ^ 53); RFloat (f64_of_int (2 ^ 53)); RInteger (2 ^ 53 + 1)] = false.
Proof. split; [|split]; vm_compute; reflexivity. Qed.
